(* ===== verification/_CoqProject ===== *)
-Q . S2P
Prelude.v
MvccTransaction.v
MvccStore.v
MvccIsolation.v
Crdt.v
DenseMap.v
Levenshtein.v
Csr.v
NativeModel.v
GroupCommit.v
Sequence.v
WireBytes.v
PackStream.v
Framing.v
Privileges.v
SecurityContext.v
ReadFilter.v
AuthCatalog.v
AuthManager.v
ContextCache.v
PrivilegeCommands.v
Native.v
NativeInv.v
NativeOps.v
Conflict.v
NativeSpec.v
NativeRecovery.v
NativeTx.v
NativeMerge.v
NativeEngine.v
NativeEngineSteps.v
NativePrepared.v
NativeTxSpec.v
Replication.v
ReplicationSpec.v
Encryption.v
WalCompact.v
WalFormat.v
WalReplay.v
WalRecovery.v
WalFile.v
WalTailer.v
CypherLexer.v
CypherTokens.v
CypherAst.v
CypherParser.v
CypherTotal.v
CypherGrammar.v
CypherReads.v
CypherRecognise.v
CypherQueries.v
CypherRegex.v
CypherRegexSpec.v
CypherRegexPrint.v
CypherValue.v
CypherNumbers.v
CypherOperators.v
CypherPipeline.v
CypherOrder.v
CypherCaps.v
CypherFunctions.v
CypherFunctionsSpec.v
CypherMatch.v
CypherEval.v
CypherEvalSpec.v
CypherAggregate.v
CypherAggregateSpec.v
CypherValidate.v
CypherShortest.v
CypherRun.v
CypherAnswers.v
CypherRunSpec.v
CypherCount.v
