(* ===== verification/Prelude.v ===== *)
(** * drevo: a verification development of the embedded graph database

    drevo is an embedded property-graph database in Rust: a native engine that
    keeps the whole graph in memory and makes it durable with a write-ahead log
    ([src/drevo-core]), a Cypher front end, a Bolt and HTTP server with users
    and roles ([src/src], [src/drevo-auth]), and a stand-alone multi-version
    store.  The definitions of this library translate the code function by
    function, under its names; the theorems state what the code promises.

    ** Files and what they model

    - [Prelude]: results, state-and-error computations, locks, machine integers
      and shared lemmas.
    - Multi-version store ([src/src/mvcc]): [MvccTransaction] (commit log,
      snapshots, reader registry), [MvccStore] (version chains, checked writes,
      vacuum), [MvccIsolation] (handles at three isolation levels, retry loops,
      a collector cycle).  Readers that are registered see the same data again
      whatever else runs, and the collector removes only what nobody can see.
    - Replicated data and containers ([src/drevo-core]): [Crdt] (hybrid clock,
      last-writer-wins maps and sets converge), [DenseMap] (chunked map and id
      set refine finite maps and sets), [Levenshtein], [Csr].
    - Native engine ([src/drevo-core/src/native.rs], [conflict.rs], [model.rs],
      [dump.rs]): [NativeModel] (data, log operations, constraints), [Native]
      (the graph state [Inner] and its operations, replay, compaction),
      [NativeInv] and [NativeOps] (its invariant and what every operation
      guarantees), [Conflict] (conflict sets and history), [NativeSpec] and
      [NativeRecovery] (reads, constraints, replay and compaction), [NativeTx]
      (the engine: direct writes, batches, transactions, two-phase commit, the
      change feed, import), [NativeMerge], [NativeEngine], [NativeEngineSteps]
      (every reachable state), [NativePrepared] (a prepared transaction keeps
      what it needs until it is resolved) and [NativeTxSpec] (the engine's claims
      and where they end).
      [GroupCommit] models the commit queue, its elected leader and the condition
      variable the others sleep on thread by thread, between which file
      operations may fail; [Sequence] the
      reservations of sequence values across restarts ([sequence.rs]).
      [Replication] adds the causal stamps, tombstones and deltas by which
      peers exchange writes ([delta.rs]); [ReplicationSpec] shows that a merge
      is last-writer-wins and that peers which pull from each other agree.
    - Files ([src/drevo-core]): [Encryption] (sealed files and records,
      [encryption.rs], [sealed_file.rs]), [WalCompact] and [WalFormat] (the
      encodings of a log record, frames and their checksum, replay in chunks,
      [wal_format.rs]), [WalReplay] (chunked replay is reading the whole),
      [WalRecovery] (a log cut anywhere gives back what is whole in it),
      [WalFile] (a store's log across openings, failed writes and crashes,
      [native.rs]) and [WalTailer] (following a log, [replica.rs]).
    - Cypher front end ([src/src/cypher]): [CypherLexer] ([lexer.rs]) and
      [CypherTokens] (the lexical grammar the lexer decides, errors in their
      place, printed tokens read back), [CypherAst] ([ast.rs]), [CypherParser]
      ([parser.rs], every clause and expression) and [CypherTotal] (the parser
      answers on any source).  [CypherGrammar] is a grammar of expressions and
      patterns apart from the parser; [CypherReads], [CypherRecognise] and
      [CypherQueries] show that a phrase of the grammar is read to its tree,
      for expressions and for queries that match, unwind, project and delete.
      [CypherRegex] is the engine of [=~] ([regex.rs]); [CypherRegexSpec] shows
      what its matcher decides, [CypherRegexPrint] that patterns print and parse.
    - Cypher executor ([src/src/cypher/executor.rs]), for the queries that read:
      [CypherValue] (values, errors, operators), [CypherPipeline] ([RETURN],
      [WITH], [UNWIND], groups, sorts, [TopK] and the caps of a [MATCH]),
      [CypherFunctions] (the scalar functions), [CypherMatch] (patterns, their
      candidates, what a [WHERE] pushes down), [CypherEval] and
      [CypherAggregate] (expressions on a row and over a group),
      [CypherValidate] (the sweep before a query runs), [CypherShortest]
      (shortest paths) and [CypherRun] (the clauses, [UNION], the count without
      rows).  What they promise is in [CypherNumbers] and [CypherOperators]
      (integers in doubles, three-valued connectives, slices), [CypherOrder]
      (the order of values, sorts, the heap), [CypherCaps] and [CypherRunSpec]
      (the rows a cap leaves out change no answer), [CypherFunctionsSpec]
      (errors, [range], the calendar), [CypherEvalSpec] (list predicates),
      [CypherAggregateSpec] (groups, [min] and [max]), [CypherAnswers] (an
      expression that passes the sweep is answered) and [CypherCount] (the
      count without rows is the count of the rows).
    - Bolt ([src/src/bolt]): [WireBytes] (big-endian integers, UTF-8, byte
      order), [PackStream] (encoder and decoder), [Framing] (chunked messages
      over an unreliable reader, version negotiation).
    - Access control ([src/drevo-auth], [src/src/security.rs], the guards of
      [src/src/cypher/executor.rs]): [Privileges] (types, wildcards, the
      decision), [SecurityContext] (compiled privileges and their shared cache,
      guards of writes and procedures), [ReadFilter] (what a user sees of rows),
      [AuthCatalog] and [AuthManager] (users, roles, logins, sessions),
      [ContextCache] (contexts reused until the catalog changes),
      [PrivilegeCommands] (reading and writing [GRANT], [DENY] and [REVOKE]).

    ** How the parts interact

    [NativeTx] calls [Native] for the effect of operations, [Conflict] to
    classify a commit and appends to the log that [NativeRecovery] replays; the
    finite maps of [Native] are the ones [DenseMap] refines.  The operations
    [WalRecovery] gets back from bytes are those [NativeRecovery] replays.  A peer of
    [Replication] is an engine of [NativeTx] with the clock and version vectors
    of [Crdt]; [ReplicationSpec] reads its nodes as a map of [Crdt].  A statement of a
    signed-in user obtains its context from [ContextCache], which compiles it
    from the catalog of [AuthManager]; [SecurityContext] guards its writes and
    [ReadFilter] its rows through the class [Viewer], which the decisions of
    [Privileges] implement.  The executor runs the trees [CypherParser] reads, over
    the classes [GraphEngine] (the engine's reads), [View] (what the user sees),
    [Indexes] and [Cardinality].

    ** Effects, fuel and bounds

    Fallible code returns [result]; code that mutates and fails is [ST].  Code
    that several threads run is a step function over a shared state, one step
    per critical section or file operation, and the theorems quantify over every
    schedule.  A loop without a structural measure takes fuel, and a theorem or
    lemma says the fuel given suffices: replay of nested log operations their
    size, decoding the length of the input plus one, wildcards the product of
    the lengths, retry loops the number of attempts.  Integers keep their width
    where it matters: the clock and counters saturate or wrap as the code does.
    The reachable engine states are those direct writes, batches, imports,
    transactions, two-phase commit and schema changes lead to while the counters
    of ids and interned kinds have not run out ([roomy]); what happens at the last
    id is stated apart ([largest_id_wraps_counter]), as is what the operations a
    follower takes from its leader ([apply_wal_ops]) do to a prepared transaction
    ([replicated_delete_breaks_prepared]).  The collector of the multi-version
    store reads its horizon in one step and sweeps in a later one.

    Replay of a log file has fuel for every byte and every call of its reader,
    the lexer for every character, a loop of the parser for every token left,
    its expressions for the 64 levels they may nest.  Evaluation has fuel for the
    depth of the expression and of what is pushed down; where that holds a
    pattern itself no fuel may be enough ([self_seek_diverges]).

    Parameters stand for code that is not in the repository: the text of JSON
    values ([JsonText]), the serializers and compressor of log records ([Libs]),
    the Unicode classes of characters and the text of floats ([Chars]), the
    elementary functions ([Libm]) and the clock, random numbers and case tables
    of the machine ([Machine]), the authenticated cipher ([Aead]), Argon2
    ([Hasher]), random salts and tokens, the system clock and whether a write to
    disk succeeds.  The functions of Cypher that reach other components
    ([similar], [keywords], sequences) are the parameter [Outside].

    ** What is not modelled

    In [NativeTx] the commit of a direct write and its log record are one step,
    and the log is one whole history; the interleaving of the two is shown by
    the theorems on inverted log order, and that of the queue by [GroupCommit].
    Not modelled are the Cypher planner; of the executor the clauses that write,
    [CALL], [SEARCH] and [FOREACH], the procedures, time limits and the
    conversion of results to JSON; secondary and full-text indexes, vector search and
    graph algorithms in floating point, the stamp log, backups, the feed-following
    replica, change-data-capture sinks,
    auditing and identity providers, and the network and foreign-function
    layers. *)
From Stdlib Require Export ZArith Lia.
From stdpp Require Export base tactics gmap sorting strings fin_maps option.
From stdpp Require Export list_basics list_relations list_monad list_misc list.

#[global] Set Default Proof Using "Type".

(** ** Fallible results

    Rust's [Result<A, E>].  [?] is the bind of this monad, written with
    stdpp's [x ← c; k]. *)
Inductive result (E A : Type) : Type :=
| Ok (a : A)
| Err (e : E).
Arguments Ok {E A} a.
Arguments Err {E A} e.

#[global] Instance result_ret E : MRet (result E) := fun A a => Ok a.
#[global] Instance result_bind E : MBind (result E) := fun A B f r =>
  match r with Ok a => f a | Err e => Err e end.
#[global] Instance result_fmap E : FMap (result E) := fun A B f r =>
  match r with Ok a => Ok (f a) | Err e => Err e end.

Definition is_ok {E A} (r : result E A) : bool :=
  match r with Ok _ => true | Err _ => false end.

Definition ok_or {E A} (e : E) (o : option A) : result E A :=
  match o with Some a => Ok a | None => Err e end.

#[global] Instance result_eq_dec {E A} `{!EqDecision E, !EqDecision A} :
  EqDecision (result E A).
Proof. solve_decision. Defined.

(** ** Stateful fallible computations

    A method [fn f(&mut self, ..) -> Result<A, E>] is a function from the
    state to the state it leaves behind and its result.  An [Err] keeps the
    state the body had reached: nothing is rolled back implicitly. *)
Definition ST (S E A : Type) : Type := S -> S * result E A.

Definition st_ret {S E A} (a : A) : ST S E A := fun s => (s, Ok a).
Definition st_bind {S E A B} (m : ST S E A) (f : A -> ST S E B) : ST S E B := fun s =>
  match m s with
  | (s', Ok a) => f a s'
  | (s', Err e) => (s', Err e)
  end.

Declare Scope st_scope.
Delimit Scope st_scope with st.
Notation "'let!' x := m 'in' k" := (st_bind m (fun x => k))
  (at level 10, x pattern, m at level 100, k at level 200) : st_scope.
#[global] Open Scope st_scope.

Definition st_get {S E} : ST S E S := fun s => (s, Ok s).
Definition st_put {S E} (s' : S) : ST S E unit := fun _ => (s', Ok tt).
Definition st_err {S E A} (e : E) : ST S E A := fun s => (s, Err e).
Definition st_lift {S E A} (r : result E A) : ST S E A := fun s => (s, r).

(** ** Locks

    [std::sync::RwLock] / [Mutex]: the protected value and the poison flag a
    panicking writer leaves behind. *)
Record Lock (A : Type) : Type := mkLock { poisoned : bool; contents : A }.
Arguments mkLock {A} _ _.
Arguments poisoned {A} _.
Arguments contents {A} _.

(** ** Machine integers *)
Definition u8_max : Z := 2 ^ 8 - 1.
Definition u16_max : Z := 2 ^ 16 - 1.
Definition u32_max : Z := 2 ^ 32 - 1.
Definition u64_max : Z := 2 ^ 64 - 1.
Definition i64_min : Z := - 2 ^ 63.
Definition i64_max : Z := 2 ^ 63 - 1.

Definition is_u32 (x : Z) : Prop := (0 <= x <= u32_max)%Z.
Definition is_u64 (x : Z) : Prop := (0 <= x <= u64_max)%Z.
Definition is_i64 (x : Z) : Prop := (i64_min <= x <= i64_max)%Z.

(** [i64::saturating_add], [i64::checked_add] and the [u32]/[u64] ones. *)
Definition sat_i64 (x : Z) : Z := Z.max i64_min (Z.min i64_max x).
Definition checked_i64 (x : Z) : option Z :=
  if bool_decide (i64_min <= x <= i64_max)%Z then Some x else None.
Definition checked_u32 (x : Z) : option Z :=
  if bool_decide (0 <= x <= u32_max)%Z then Some x else None.
Definition sat_u64 (x : Z) : Z := Z.max 0 (Z.min u64_max x).

(** Two's complement wrap-around of a release build. *)
Definition wrap_i64 (x : Z) : Z := ((x + 2 ^ 63) mod 2 ^ 64 - 2 ^ 63)%Z.
Definition wrap_u64 (x : N) : N := (x mod 2 ^ 64)%N.

(** ** Least element of a list of integers: [Iterator::min] *)
Definition min_opt (l : list Z) : option Z :=
  foldr (fun x acc => Some (match acc with None => x | Some y => Z.min x y end)) None l.

Lemma min_opt_None (l : list Z) : min_opt l = None <-> l = [].
Proof. destruct l; simpl; split; congruence. Qed.

Lemma min_opt_Some (l : list Z) (m : Z) :
  min_opt l = Some m <-> m ∈ l /\ (forall x, x ∈ l -> (m <= x)%Z).
Proof.
  revert m. induction l as [|a l IH]; intros m; simpl.
  { split; [done|]. intros [H _]. by apply not_elem_of_nil in H. }
  destruct (min_opt l) as [y|] eqn:E.
  - destruct (proj1 (IH y) eq_refl) as [Hy Hle].
    split.
    + intros [= <-]. split.
      * destruct (Z.min_spec a y) as [[_ ->]|[_ ->]]; set_solver.
      * intros x [->|Hx]%elem_of_cons; [lia|]. specialize (Hle x Hx). lia.
    + intros [[->|Hm]%elem_of_cons Hall]; f_equal.
      * specialize (Hall y ltac:(set_solver)). lia.
      * specialize (Hle m Hm). pose proof (Hall a ltac:(set_solver)).
        pose proof (Hall y ltac:(set_solver)). lia.
  - apply min_opt_None in E as ->. split.
    + intros [= <-]. split; [set_solver|]. intros x Hx. set_solver by lia.
    + intros [Hm _]. set_solver.
Qed.

Lemma filter_rev {A} (P : A -> Prop) `{!forall x, Decision (P x)} (l : list A) :
  filter P (rev l) = rev (filter P l).
Proof.
  induction l as [|x l IH]; [done|]. simpl. rewrite filter_app, IH, !filter_cons.
  rewrite filter_nil. case_decide; simpl; [done|]. by rewrite app_nil_r.
Qed.
