(* ===== verification/MvccTransaction.v ===== *)
(** * Transaction ids, the commit log and snapshots
    ([src/src/mvcc/transaction.rs], [src/src/mvcc/error.rs])

    The transaction manager is a lock around a [Registry]; a [Snapshot] is the
    PostgreSQL triple captured from it.  The invariant [reg_wf] says the commit
    log records exactly the ids handed out so far; the order [reg_le] says how
    a registry may evolve.  Every manager operation preserves the first and
    follows the second, and that is what makes a snapshot's answers stable. *)
From S2P Require Import Prelude.
Local Open Scope Z_scope.

(** [Xid = u64]; ids come from a counter that starts at 1 and is bumped once per
    transaction, so its wrap-around at 2^64 is not modelled. *)
Abbreviation Xid := Z.
Definition INVALID_XID : Xid := 0.

Inductive XidStatus : Type := InProgress | Committed | Aborted.

#[global] Instance XidStatus_eq_dec : EqDecision XidStatus.
Proof. solve_decision. Defined.

Inductive MvccError : Type :=
| LockPoisoned
| NotInProgress (xid : Xid)
| WriteConflict (conflicting : Xid)
| SerializationFailure (conflicting : Xid)
| RetriesExhausted (attempts : nat).

#[global] Instance MvccError_eq_dec : EqDecision MvccError.
Proof. solve_decision. Defined.

Record Registry : Type := mkRegistry {
  next : Xid;
  status_log : gmap Xid XidStatus;
  active_snaps : gmap Xid Z;
}.

Record Snapshot : Type := mkSnapshot {
  xmin : Xid;
  xmax : Xid;
  active : gset Xid;
  my_xid : Xid;
}.

Record SnapshotGuard : Type := mkGuard { guard_snap : Snapshot; guard_xmin : Xid }.

Abbreviation TransactionManager := (Lock Registry).

Module Manager.

Definition new : TransactionManager :=
  mkLock false (mkRegistry 1 ∅ ∅).

(** [TransactionManager::read]: a poisoned lock is an error. *)
Definition read (m : TransactionManager) : result MvccError Registry :=
  if poisoned m then Err LockPoisoned else Ok (contents m).

(** [TransactionManager::write], with the critical section it guards. *)
Definition write {A} (f : Registry -> Registry * result MvccError A) :
    ST TransactionManager MvccError A := fun m =>
  if poisoned m then (m, Err LockPoisoned)
  else let '(r, a) := f (contents m) in (mkLock false r, a).

Definition begin : ST TransactionManager MvccError Xid :=
  write (fun reg =>
    let xid := next reg in
    (mkRegistry (next reg + 1) (<[xid := InProgress]> (status_log reg)) (active_snaps reg),
     Ok xid)).

Definition finish (xid : Xid) (to : XidStatus) : ST TransactionManager MvccError unit :=
  write (fun reg =>
    match status_log reg !! xid with
    | Some InProgress =>
        (mkRegistry (next reg) (<[xid := to]> (status_log reg)) (active_snaps reg), Ok tt)
    | _ => (reg, Err (NotInProgress xid))
    end).

Definition commit (xid : Xid) : ST TransactionManager MvccError unit := finish xid Committed.
Definition abort (xid : Xid) : ST TransactionManager MvccError unit := finish xid Aborted.

Definition status (m : TransactionManager) (xid : Xid) : result MvccError XidStatus :=
  if xid =? INVALID_XID then Ok Aborted
  else reg ← read m; Ok (default Aborted (status_log reg !! xid)).

(** The ids recorded as in progress. *)
Definition in_progress (reg : Registry) : gset Xid :=
  dom (filter (fun xs => xs.2 = InProgress) (status_log reg)).

Definition snapshot_locked (reg : Registry) (my : Xid) : Snapshot :=
  let xmax := next reg in
  let active := in_progress reg in
  let xmin := default xmax (min_opt (elements active)) in
  mkSnapshot xmin xmax active my.

Definition snapshot (m : TransactionManager) (my : Xid) : result MvccError Snapshot :=
  reg ← read m; Ok (snapshot_locked reg my).

Definition begin_snapshot (my : Xid) : ST TransactionManager MvccError SnapshotGuard :=
  write (fun reg =>
    let snap := snapshot_locked reg my in
    let x := xmin snap in
    let count := default 0 (active_snaps reg !! x) in
    (mkRegistry (next reg) (status_log reg) (<[x := count + 1]> (active_snaps reg)),
     Ok (mkGuard snap x))).

(** Called by the guard's destructor; a poisoned lock is swallowed. *)
Definition release_snapshot (x : Xid) (m : TransactionManager) : TransactionManager :=
  (write (A := unit) (fun reg =>
    match active_snaps reg !! x with
    | Some count =>
        let count := count - 1 in
        (mkRegistry (next reg) (status_log reg)
           (if count =? 0 then delete x (active_snaps reg)
            else <[x := count]> (active_snaps reg)), Ok tt)
    | None => (reg, Ok tt)
    end) m).1.

Definition drop_guard (g : SnapshotGuard) (m : TransactionManager) : TransactionManager :=
  release_snapshot (guard_xmin g) m.

Definition gc_horizon (m : TransactionManager) : result MvccError Xid :=
  reg ← read m;
  let oldest_reader := min_opt (elements (dom (active_snaps reg))) in
  let oldest_in_progress := min_opt (elements (in_progress reg)) in
  Ok (default (next reg) (min_opt (option_list oldest_reader ++ option_list oldest_in_progress))).

End Manager.

Module Snap.

Definition sees_effect (s : Snapshot) (xid : Xid) (m : TransactionManager) :
    result MvccError bool :=
  if xid =? INVALID_XID then Ok false
  else if xid =? my_xid s then Ok true
  else if xmax s <=? xid then Ok false
  else if bool_decide (xid ∈ active s) then Ok false
  else st ← Manager.status m xid; Ok (bool_decide (st = Committed)).

End Snap.

(** ** Specification vocabulary *)

(** The effect rule on an unpoisoned registry. *)
Definition sees (s : Snapshot) (xid : Xid) (reg : Registry) : bool :=
  negb (xid =? INVALID_XID) &&
  ((xid =? my_xid s) ||
   (negb (xmax s <=? xid) && negb (bool_decide (xid ∈ active s)) &&
    bool_decide (status_log reg !! xid = Some Committed))).

(** The commit log holds exactly the ids handed out so far, and every
    registered reader is counted at least once under an id not in the
    future. *)
Record reg_wf (reg : Registry) : Prop := {
  wf_next : 1 <= next reg;
  wf_log : forall x, is_Some (status_log reg !! x) <-> 1 <= x < next reg;
  wf_snaps : forall x n, active_snaps reg !! x = Some n -> 1 <= n /\ 1 <= x <= next reg;
}.

(** How a registry may evolve: ids are only added, and a finished transaction
    keeps its outcome. *)
Record reg_le (r r' : Registry) : Prop := {
  le_next : next r <= next r';
  le_final : forall x st, status_log r !! x = Some st -> st <> InProgress ->
    status_log r' !! x = Some st;
}.

#[global] Instance reg_le_preorder : PreOrder reg_le.
Proof.
  split.
  - intros r. split; [lia|naive_solver].
  - intros r1 r2 r3 [N1 F1] [N2 F2]. split; [lia|]. intros x st H Hne.
    eapply F2; [eapply F1|]; done.
Qed.

(** The transitions of a manager that nobody poisons. *)
Inductive mgr_step (m m' : TransactionManager) : Prop :=
| step_begin x : Manager.begin m = (m', Ok x) -> mgr_step m m'
| step_commit x : Manager.commit x m = (m', Ok tt) -> mgr_step m m'
| step_abort x : Manager.abort x m = (m', Ok tt) -> mgr_step m m'
| step_begin_snapshot my g : Manager.begin_snapshot my m = (m', Ok g) -> mgr_step m m'
| step_release x : Manager.release_snapshot x m = m' -> mgr_step m m'.

(** A snapshot that was captured from some earlier state of [reg], on behalf of
    nobody or of a transaction that was in progress then. *)
Definition valid_snap (s : Snapshot) (reg : Registry) : Prop :=
  exists r0, reg_wf r0 /\ reg_le r0 reg /\ s = Manager.snapshot_locked r0 (my_xid s) /\
    (my_xid s = INVALID_XID \/ my_xid s ∈ Manager.in_progress r0).

(** ** Lemmas *)

Lemma read_ok m : poisoned m = false -> Manager.read m = Ok (contents m).
Proof. unfold Manager.read. by intros ->. Qed.

Lemma status_ok m x : poisoned m = false -> reg_wf (contents m) ->
  Manager.status m x = Ok (default Aborted (status_log (contents m) !! x)).
Proof.
  intros Hp Hwf. unfold Manager.status. case_match eqn:E.
  - apply Z.eqb_eq in E as ->.
    destruct (status_log (contents m) !! INVALID_XID) eqn:El; [|done].
    exfalso. assert (is_Some (status_log (contents m) !! INVALID_XID)) as H by eauto.
    apply (wf_log _ Hwf) in H. unfold INVALID_XID in H. lia.
  - by rewrite (read_ok _ Hp).
Qed.

Lemma sees_effect_ok s x m : poisoned m = false -> reg_wf (contents m) ->
  Snap.sees_effect s x m = Ok (sees s x (contents m)).
Proof.
  intros Hp Hwf. unfold Snap.sees_effect, sees.
  rewrite (status_ok _ _ Hp Hwf).
  destruct (x =? INVALID_XID); [done|]. destruct (x =? my_xid s); [done|].
  destruct (xmax s <=? x); [done|]. case_bool_decide; [done|]. simpl.
  destruct (status_log (contents m) !! x) as [[]|]; done.
Qed.

Lemma elem_of_in_progress reg x :
  x ∈ Manager.in_progress reg <-> status_log reg !! x = Some InProgress.
Proof.
  unfold Manager.in_progress. rewrite elem_of_dom. split.
  - intros [st H%map_lookup_filter_Some]. naive_solver.
  - intros H. exists InProgress. apply map_lookup_filter_Some. naive_solver.
Qed.

Lemma in_progress_bounds reg x : reg_wf reg ->
  x ∈ Manager.in_progress reg -> 1 <= x < next reg.
Proof. intros Hwf H%elem_of_in_progress. apply (wf_log _ Hwf). eauto. Qed.

Lemma not_in_progress_below_xmin reg my x : reg_wf reg ->
  1 <= x < xmin (Manager.snapshot_locked reg my) ->
  exists st, status_log reg !! x = Some st /\ st <> InProgress.
Proof.
  intros Hwf [H1 H2]. simpl in H2.
  assert (x < next reg /\ x ∉ Manager.in_progress reg) as [Hn Hi].
  { destruct (min_opt (elements (Manager.in_progress reg))) as [y|] eqn:E; simpl in H2.
    - apply min_opt_Some in E as [Hy Hle]. set_unfold in Hy.
      apply in_progress_bounds in Hy as Hb; [|done]. split; [lia|].
      intros Hx. specialize (Hle x ltac:(set_solver)). lia.
    - apply min_opt_None in E. split; [done|]. intros Hx.
      apply elem_of_elements in Hx. rewrite E in Hx. set_solver. }
  destruct (proj2 (wf_log _ Hwf x) ltac:(lia)) as [st Hst]. exists st. split; [done|].
  intros ->. apply Hi. by apply elem_of_in_progress.
Qed.

Lemma snapshot_xmin_bounds reg my : reg_wf reg ->
  1 <= xmin (Manager.snapshot_locked reg my) <= next reg.
Proof.
  intros Hwf. simpl. destruct (min_opt _) as [y|] eqn:E; simpl.
  - apply min_opt_Some in E as [Hy _]. set_unfold in Hy.
    apply in_progress_bounds in Hy; [lia|done].
  - pose proof (wf_next _ Hwf). lia.
Qed.

Lemma snapshot_xmin_le_active reg my x : x ∈ Manager.in_progress reg ->
  xmin (Manager.snapshot_locked reg my) <= x.
Proof.
  intros Hx. simpl. destruct (min_opt _) as [y|] eqn:E; simpl.
  - apply min_opt_Some in E as [_ Hle]. apply Hle. set_solver.
  - apply min_opt_None in E. apply elem_of_elements in Hx. rewrite E in Hx. set_solver.
Qed.

Lemma new_wf : reg_wf (contents Manager.new).
Proof.
  split; simpl; [lia| |].
  - intros x. rewrite lookup_empty. split; [intros [? ?]; done|lia].
  - intros x n. by rewrite lookup_empty.
Qed.

(** Inversion of a critical section that ran. *)
Lemma write_inv {A} (f : Registry -> Registry * result MvccError A) m m' a :
  Manager.write f m = (m', a) -> a <> Err LockPoisoned ->
  poisoned m = false /\ poisoned m' = false /\ f (contents m) = (contents m', a).
Proof.
  unfold Manager.write. destruct (poisoned m) eqn:E; [naive_solver|].
  destruct (f (contents m)) as [r b] eqn:Ef. intros [= <- <-] _. done.
Qed.

Lemma write_run {A} (f : Registry -> Registry * result MvccError A) m :
  poisoned m = false ->
  Manager.write f m = (mkLock false (f (contents m)).1, (f (contents m)).2).
Proof. unfold Manager.write. intros ->. by destruct (f _). Qed.

Lemma release_run x m : poisoned m = false ->
  Manager.release_snapshot x m =
    mkLock false (mkRegistry (next (contents m)) (status_log (contents m))
      (match active_snaps (contents m) !! x with
       | Some n => if n - 1 =? 0 then delete x (active_snaps (contents m))
                   else <[x := n - 1]> (active_snaps (contents m))
       | None => active_snaps (contents m)
       end)).
Proof.
  intros Hp. unfold Manager.release_snapshot. rewrite write_run by done. simpl.
  destruct m as [p [n l sn]]; simpl. by destruct (sn !! x).
Qed.

Lemma release_poisoned x m : poisoned m = true -> Manager.release_snapshot x m = m.
Proof. unfold Manager.release_snapshot, Manager.write. by intros ->. Qed.

Lemma finish_inv x to m m' :
  Manager.finish x to m = (m', Ok tt) ->
  poisoned m = false /\ poisoned m' = false /\
  status_log (contents m) !! x = Some InProgress /\
  contents m' = mkRegistry (next (contents m)) (<[x := to]> (status_log (contents m)))
                  (active_snaps (contents m)).
Proof.
  intros H. unfold Manager.finish in H. apply write_inv in H as (Hp & Hp' & Hf); [|done].
  destruct (status_log (contents m) !! x) as [[]|] eqn:E; simplify_eq. done.
Qed.

Lemma begin_inv m m' x :
  Manager.begin m = (m', Ok x) ->
  poisoned m = false /\ poisoned m' = false /\ x = next (contents m) /\
  contents m' = mkRegistry (next (contents m) + 1)
                  (<[x := InProgress]> (status_log (contents m))) (active_snaps (contents m)).
Proof.
  intros H. apply write_inv in H as (Hp & Hp' & Hf); [|done].
  injection Hf as Hc <-. by rewrite <- Hc.
Qed.

Lemma finish_wf reg x to : reg_wf reg -> status_log reg !! x = Some InProgress ->
  reg_wf (mkRegistry (next reg) (<[x := to]> (status_log reg)) (active_snaps reg)).
Proof.
  intros [H1 H2 H3] Hx. split; simpl; [done| |done].
  intros y. destruct (decide (x = y)) as [->|Hne].
  - rewrite lookup_insert_eq. split; [|eauto]. intros _. apply H2. eauto.
  - by rewrite lookup_insert_ne.
Qed.

Lemma begin_wf reg : reg_wf reg ->
  reg_wf (mkRegistry (next reg + 1) (<[next reg := InProgress]> (status_log reg))
            (active_snaps reg)).
Proof.
  intros [H1 H2 H3]. split; simpl; [lia| |].
  - intros y. destruct (decide (next reg = y)) as [<-|Hne].
    + rewrite lookup_insert_eq. split; [lia|eauto].
    + rewrite lookup_insert_ne by done. rewrite H2. lia.
  - intros y n Hn. apply H3 in Hn. lia.
Qed.

Lemma snaps_wf reg sn : reg_wf reg ->
  (forall x n, sn !! x = Some n -> 1 <= n /\ 1 <= x <= next reg) ->
  reg_wf (mkRegistry (next reg) (status_log reg) sn).
Proof. intros [H1 H2 H3] H. by split. Qed.

Lemma finish_le reg x to : status_log reg !! x = Some InProgress ->
  reg_le reg (mkRegistry (next reg) (<[x := to]> (status_log reg)) (active_snaps reg)).
Proof.
  intros Hx. split; simpl; [lia|]. intros y st Hy Hne.
  rewrite lookup_insert_ne; [done|]. intros <-. naive_solver.
Qed.

Lemma begin_le reg : reg_wf reg ->
  reg_le reg (mkRegistry (next reg + 1) (<[next reg := InProgress]> (status_log reg))
                (active_snaps reg)).
Proof.
  intros Hwf. split; simpl; [lia|]. intros y st Hy _.
  rewrite lookup_insert_ne; [done|]. intros <-.
  assert (is_Some (status_log reg !! next reg)) as H by eauto.
  apply (wf_log _ Hwf) in H. lia.
Qed.

Lemma step_preserves m m' : mgr_step m m' -> reg_wf (contents m) ->
  reg_wf (contents m') /\ reg_le (contents m) (contents m') /\
  poisoned m' = poisoned m.
Proof.
  intros [x H|x H|x H|my g H|x H] Hwf.
  - apply begin_inv in H as (-> & -> & -> & ->). auto using begin_wf, begin_le.
  - apply finish_inv in H as (-> & -> & Hx & ->). auto using finish_wf, finish_le.
  - apply finish_inv in H as (-> & -> & Hx & ->). auto using finish_wf, finish_le.
  - apply write_inv in H as (-> & -> & Hf); [|done]. injection Hf as Hc _. rewrite <- Hc.
    split_and!; [|split; simpl; [lia|done]|done].
    apply snaps_wf; [done|]. intros x n. rewrite lookup_insert. case_decide as Hd.
    + intros [= <-]. subst x. pose proof (snapshot_xmin_bounds _ my Hwf). simpl in *. split; [|lia].
      destruct (active_snaps (contents m) !! _) eqn:E; simpl; [|lia].
      apply (wf_snaps _ Hwf) in E. lia.
    + intros Hn. by apply (wf_snaps _ Hwf).
  - destruct (poisoned m) eqn:Hp.
    { rewrite release_poisoned in H by done. subst. by split_and!. }
    rewrite release_run in H by done. subst m'. simpl.
    split_and!; [|split; simpl; [lia|done]|done].
    apply snaps_wf; [done|]. intros y n.
    destruct (active_snaps (contents m) !! x) as [c|] eqn:E; [|apply (wf_snaps _ Hwf)].
    apply (wf_snaps _ Hwf) in E as [? ?].
    case_match eqn:Ec; [rewrite lookup_delete|rewrite lookup_insert]; case_decide as Hd.
    + done.
    + apply (wf_snaps _ Hwf).
    + intros [= <-]. subst y. lia.
    + apply (wf_snaps _ Hwf).
Qed.

Lemma steps_preserve m m' : rtc mgr_step m m' -> reg_wf (contents m) ->
  reg_wf (contents m') /\ reg_le (contents m) (contents m').
Proof.
  induction 1 as [m|m1 m2 m3 H12 _ IH]; [done|]. intros Hwf.
  destruct (step_preserves _ _ H12 Hwf) as (Hwf2 & Hle & _).
  destruct (IH Hwf2) as [Hwf3 Hle']. split; [done|]. by etrans.
Qed.

(** *** Stability of the effect rule *)
Lemma sees_stable s r0 r1 r2 x :
  reg_wf r0 -> reg_wf r1 -> reg_wf r2 -> reg_le r0 r1 -> reg_le r1 r2 ->
  s = Manager.snapshot_locked r0 (my_xid s) ->
  sees s x r1 = sees s x r2.
Proof.
  intros W0 W1 W2 L01 L12 Hs. unfold sees.
  destruct (x =? INVALID_XID) eqn:E0; [done|].
  destruct (x =? my_xid s) eqn:E1; [done|].
  destruct (xmax s <=? x) eqn:E2; [done|].
  destruct (bool_decide (x ∈ active s)) eqn:E3; [done|]. simpl.
  apply bool_decide_eq_false in E3. apply Z.leb_gt in E2.
  rewrite Hs in E2, E3. simpl in E2, E3.
  rewrite elem_of_in_progress in E3.
  destruct (decide (1 <= x)) as [Hx|Hx].
  - destruct (proj2 (wf_log _ W0 x) ltac:(lia)) as [st Hst].
    assert (st <> InProgress) as Hne by congruence.
    pose proof (le_final _ _ L01 _ _ Hst Hne) as H1.
    pose proof (le_final _ _ L12 _ _ H1 Hne) as H2. by rewrite H1, H2.
  - assert (forall r, reg_wf r -> status_log r !! x = None) as HN.
    { intros r Wr. destruct (status_log r !! x) eqn:E; [|done].
      assert (is_Some (status_log r !! x)) as HS by eauto.
      apply (wf_log _ Wr) in HS. lia. }
    by rewrite !HN.
Qed.

Lemma valid_snap_le s r r' : valid_snap s r -> reg_le r r' -> valid_snap s r'.
Proof.
  intros (r0 & W & L & Hs & Hm) Hle. exists r0. split_and!; [done|by etrans|done|done].
Qed.

Lemma valid_sees_stable s r r' x : valid_snap s r -> reg_wf r -> reg_wf r' -> reg_le r r' ->
  sees s x r = sees s x r'.
Proof. intros (r0 & W & L & Hs & _). eauto using sees_stable. Qed.

(** A transaction still in progress is seen only by its own snapshots, and this
    stays so whatever its outcome. *)
Lemma in_progress_unseen s r r' x : valid_snap s r -> reg_wf r -> reg_wf r' -> reg_le r r' ->
  status_log r !! x = Some InProgress -> x <> my_xid s -> sees s x r' = false.
Proof.
  intros Hv W W' L Hx Hne. rewrite <- (valid_sees_stable s r r' x) by done.
  unfold sees. rewrite Hx. apply Z.eqb_neq in Hne. rewrite Hne.
  rewrite (bool_decide_eq_false_2 (Some InProgress = Some Committed)) by done.
  by rewrite !andb_false_r.
Qed.

Lemma gc_horizon_le_reader m h x n : Manager.gc_horizon m = Ok h ->
  active_snaps (contents m) !! x = Some n -> h <= x.
Proof.
  unfold Manager.gc_horizon, Manager.read. destruct (poisoned m); [done|]. simpl.
  intros [= <-] Hx.
  assert (x ∈ elements (dom (active_snaps (contents m)))) as Hin.
  { apply elem_of_elements, elem_of_dom. eauto. }
  destruct (min_opt (elements (dom _))) as [y|] eqn:E.
  - apply min_opt_Some in E as [_ Hle]. specialize (Hle _ Hin). simpl.
    destruct (min_opt (elements (Manager.in_progress _))) as [z|]; simpl; lia.
  - apply min_opt_None in E. rewrite E in Hin. set_solver.
Qed.

Lemma gc_horizon_le_running m h x : Manager.gc_horizon m = Ok h ->
  status_log (contents m) !! x = Some InProgress -> h <= x.
Proof.
  unfold Manager.gc_horizon, Manager.read. destruct (poisoned m); [done|]. simpl.
  intros [= <-] Hx.
  assert (x ∈ elements (Manager.in_progress (contents m))) as Hin.
  { by apply elem_of_elements, elem_of_in_progress. }
  destruct (min_opt (elements (Manager.in_progress _))) as [y|] eqn:E.
  - apply min_opt_Some in E as [_ Hle]. specialize (Hle _ Hin). simpl.
    destruct (min_opt (elements (dom _))) as [z|]; simpl; lia.
  - apply min_opt_None in E. rewrite E in Hin. set_solver.
Qed.

(** A new snapshot's [xmin] is a running transaction, or the next id. *)
Lemma snapshot_xmin_cases reg my :
  xmin (Manager.snapshot_locked reg my) = next reg \/
  status_log reg !! xmin (Manager.snapshot_locked reg my) = Some InProgress.
Proof.
  simpl. destruct (min_opt _) as [y|] eqn:E; simpl; [right|by left].
  apply min_opt_Some in E as [Hy _]. apply elem_of_in_progress. set_solver.
Qed.

(** What runs now and has been begun before ran before. *)
Lemma running_before r r' x : reg_wf r -> reg_wf r' -> reg_le r r' -> x < next r ->
  status_log r' !! x = Some InProgress -> status_log r !! x = Some InProgress.
Proof.
  intros W W' L Hlt Hx. assert (1 <= x < next r') as Hb by (apply (wf_log _ W'); eauto).
  destruct (proj2 (wf_log _ W x) ltac:(lia)) as [st Hst].
  destruct (decide (st = InProgress)) as [->|Hne]; [done|].
  pose proof (le_final _ _ L _ _ Hst Hne). congruence.
Qed.

Lemma gc_horizon_le_now m h my : reg_wf (contents m) -> Manager.gc_horizon m = Ok h ->
  h <= xmin (Manager.snapshot_locked (contents m) my).
Proof.
  intros Hwf. unfold Manager.gc_horizon, Manager.read. destruct (poisoned m); [done|]. simpl.
  intros [= <-].
  assert (forall y, min_opt (elements (dom (active_snaps (contents m)))) = Some y ->
    y <= next (contents m)) as Hr.
  { intros y [Hy _]%min_opt_Some. apply elem_of_elements, elem_of_dom in Hy as [n Hn].
    apply (wf_snaps _ Hwf) in Hn. lia. }
  destruct (min_opt (elements (dom _))) as [y|] eqn:E;
    destruct (min_opt (elements (Manager.in_progress _))) as [z|] eqn:E'; simpl; try lia.
  by apply Hr.
Qed.

(** ** Theorems *)

(** transaction ids are never reused.  On any manager that is reachable
    from a fresh one, [begin] hands out an id that the commit log has never
    recorded and that is greater than every id recorded before, and every id
    handed out later is greater still. *)
Theorem xid_never_reused m0 m1 m2 m3 x y :
  rtc mgr_step Manager.new m0 ->
  Manager.begin m0 = (m1, Ok x) -> rtc mgr_step m1 m2 -> Manager.begin m2 = (m3, Ok y) ->
  INVALID_XID < x /\ status_log (contents m0) !! x = None /\
  (forall z, is_Some (status_log (contents m0) !! z) -> z < x) /\ x < y.
Proof.
  intros H0 Hb1 H12 Hb2.
  destruct (steps_preserve _ _ H0 new_wf) as [W0 _].
  assert (reg_wf (contents m1)) as W1 by (eapply step_preserves; [eapply step_begin|]; done).
  destruct (steps_preserve _ _ H12 W1) as [W2 L12].
  apply begin_inv in Hb1 as (_ & _ & -> & Hc1). apply begin_inv in Hb2 as (_ & _ & -> & _).
  pose proof (wf_next _ W0). pose proof (le_next _ _ L12) as Hn. rewrite Hc1 in Hn. simpl in Hn.
  unfold INVALID_XID. split_and!; [lia| | |lia].
  - destruct (_ !! _) eqn:E; [|done].
    assert (is_Some (status_log (contents m0) !! next (contents m0))) as Hs by eauto.
    apply (wf_log _ W0) in Hs. lia.
  - intros z Hz%(wf_log _ W0). lia.
Qed.

(** a transaction finishes at most once and its outcome is final.  Once
    [finish] succeeded for [x], in every later state of the manager the status
    of [x] is the recorded outcome and both [commit] and [abort] of [x] are
    refused with [NotInProgress] and change nothing. *)
Theorem outcome_final m0 m1 m2 x to :
  reg_wf (contents m0) -> to <> InProgress ->
  Manager.finish x to m0 = (m1, Ok tt) -> rtc mgr_step m1 m2 ->
  poisoned m2 = false ->
  Manager.status m2 x = Ok to /\
  Manager.commit x m2 = (m2, Err (NotInProgress x)) /\
  Manager.abort x m2 = (m2, Err (NotInProgress x)).
Proof.
  intros W0 Hto Hf H12 Hp2. apply finish_inv in Hf as (_ & Hp1 & Hx & Hc).
  assert (reg_wf (contents m1)) as W1 by (rewrite Hc; by apply finish_wf).
  destruct (steps_preserve _ _ H12 W1) as [W2 L12].
  assert (status_log (contents m2) !! x = Some to) as Hst.
  { apply (le_final _ _ L12); [|done]. rewrite Hc. apply lookup_insert_eq. }
  rewrite (status_ok _ _ Hp2 W2), Hst. unfold Manager.commit, Manager.abort, Manager.finish.
  rewrite !(write_run _ _ Hp2), Hst. destruct m2 as [p r]; simpl in *. subst p.
  by destruct to.
Qed.

(** a snapshot's view is stable.  For a snapshot captured from any
    reachable manager, the visibility of every transaction's effects is the
    same in all later states of the manager, whatever began, committed, aborted
    or was registered in between. *)
Theorem snapshot_view_stable m0 m1 m2 my s x :
  reg_wf (contents m0) -> poisoned m0 = false -> Manager.snapshot m0 my = Ok s ->
  rtc mgr_step m0 m1 -> rtc mgr_step m1 m2 -> poisoned m1 = false -> poisoned m2 = false ->
  Snap.sees_effect s x m1 = Snap.sees_effect s x m2.
Proof.
  intros W0 Hp0 Hs H01 H12 Hp1 Hp2. unfold Manager.snapshot in Hs.
  rewrite (read_ok _ Hp0) in Hs. injection Hs as Hs.
  destruct (steps_preserve _ _ H01 W0) as [W1 L01].
  destruct (steps_preserve _ _ H12 W1) as [W2 L12].
  rewrite (sees_effect_ok _ _ _ Hp1 W1), (sees_effect_ok _ _ _ Hp2 W2). f_equal.
  apply (sees_stable s (contents m0)); [done..|]. by subst s.
Qed.

(** ** Witnesses *)
Definition run_st {S E A} (c : ST S E A) (s : S) : S := (c s).1.

Lemma xid_never_reused_witness :
  INVALID_XID < 2 /\ status_log (contents (run_st Manager.begin Manager.new)) !! 2 = None /\
  (forall z, is_Some (status_log (contents (run_st Manager.begin Manager.new)) !! z) -> z < 2)
  /\ 2 < 3.
Proof.
  set (m0 := run_st Manager.begin Manager.new).
  set (m1 := run_st Manager.begin m0).
  apply (xid_never_reused m0 m1 (run_st (Manager.commit 2) m1)
           (run_st Manager.begin (run_st (Manager.commit 2) m1))).
  - eapply rtc_once, (step_begin _ _ 1). vm_compute. reflexivity.
  - vm_compute. reflexivity.
  - eapply rtc_once, (step_commit _ _ 2). vm_compute. reflexivity.
  - vm_compute. reflexivity.
Defined.

Lemma outcome_final_witness :
  let m0 := run_st Manager.begin Manager.new in
  let m1 := run_st (Manager.finish 1 Committed) m0 in
  let m2 := run_st Manager.begin m1 in
  Manager.status m2 1 = Ok Committed /\
  Manager.commit 1 m2 = (m2, Err (NotInProgress 1)) /\
  Manager.abort 1 m2 = (m2, Err (NotInProgress 1)).
Proof.
  intros m0 m1 m2. apply (outcome_final m0 m1 m2 1 Committed).
  - exact (begin_wf _ new_wf).
  - discriminate.
  - vm_compute. reflexivity.
  - eapply rtc_once, (step_begin _ _ 2). vm_compute. reflexivity.
  - vm_compute. reflexivity.
Defined.

Lemma snapshot_view_stable_witness :
  let m0 := run_st Manager.begin Manager.new in
  let m1 := run_st (Manager.commit 1) m0 in
  let s := Manager.snapshot_locked (contents m0) 0 in
  Snap.sees_effect s 1 m0 = Snap.sees_effect s 1 m1.
Proof.
  intros m0 m1 s. apply (snapshot_view_stable m0 m0 m1 0).
  - exact (begin_wf _ new_wf).
  - vm_compute. reflexivity.
  - vm_compute. reflexivity.
  - apply rtc_refl.
  - eapply rtc_once, (step_commit _ _ 1). vm_compute. reflexivity.
  - vm_compute. reflexivity.
  - vm_compute. reflexivity.
Defined.
