(* ===== verification/MvccStore.v ===== *)
(** * Tuple versions and the multi-version store
    ([src/src/mvcc/version.rs], [src/src/mvcc/store.rs], [src/src/mvcc/gc.rs])

    A key owns a chain of versions, oldest first.  Writers stamp the newest
    live version and append; readers walk the chain newest first.  The theorems
    are stated over a system of one store, its manager, the snapshot guards that
    are alive and the horizons the collector has read and not swept at yet
    ([Sys]).  A [sys_step] is one call, except that [vacuum_to_horizon] is two: it
    reads the horizon under the manager's lock and takes the lock of the chains
    later, so anything may happen between.  The calls that hold the chains' lock
    look statuses up in the manager one at a time; the model looks them all up at
    once.  For a read this makes no difference ([valid_sees_stable] of
    [MvccTransaction]), nor for a sweep ([reclaimable_stable]). *)
From S2P Require Import Prelude MvccTransaction.
Local Open Scope Z_scope.

Record Version (V : Type) : Type := mkVersion { v_xmin : Xid; v_xmax : Xid; v_value : V }.
Arguments mkVersion {V} _ _ _.
Arguments v_xmin {V} _.
Arguments v_xmax {V} _.
Arguments v_value {V} _.

Module Ver.
Section version.
Context {V : Type}.

Definition new (x : Xid) (value : V) : Version V := mkVersion x INVALID_XID value.

Definition is_live (v : Version V) : bool := v_xmax v =? INVALID_XID.

Definition mark_deleted (v : Version V) (xid : Xid) : Version V :=
  mkVersion (v_xmin v) xid (v_value v).

Definition is_visible (v : Version V) (s : Snapshot) (m : TransactionManager) :
    result MvccError bool :=
  b ← Snap.sees_effect s (v_xmin v) m;
  if negb b then Ok false
  else d ← Snap.sees_effect s (v_xmax v) m; Ok (negb d).

Definition is_reclaimable (v : Version V) (horizon : Xid) (m : TransactionManager) :
    result MvccError bool :=
  retired ← (if negb (v_xmax v =? INVALID_XID) && (v_xmax v <? horizon)
             then st ← Manager.status m (v_xmax v); Ok (bool_decide (st = Committed))
             else Ok false);
  if (retired : bool) then Ok true
  else dead ← (if v_xmin v <? horizon
               then st ← Manager.status m (v_xmin v); Ok (bool_decide (st = Aborted))
               else Ok false);
       Ok (dead : bool).

End version.
End Ver.

Record VacuumReport : Type := mkReport { reclaimed_versions : nat; emptied_keys : nat }.

Record VersionedStore (K V : Type) `{Countable K} : Type := mkStore {
  mgr : TransactionManager;
  chains : Lock (gmap K (list (Version V)));
}.
Arguments mkStore {K V _ _} _ _.
Arguments mgr {K V _ _} _.
Arguments chains {K V _ _} _.

Module Store.
Section store.
Context {K V : Type} `{Countable K}.
Abbreviation Chain := (list (Version V)).
Abbreviation Chains := (gmap K Chain).
Abbreviation VStore := (VersionedStore K V).

Definition new (m : TransactionManager) : VStore := mkStore m (mkLock false ∅).

(** [VersionedStore::write], with the critical section it guards. *)
Definition write {A} (f : Chains -> Chains * result MvccError A) : ST VStore MvccError A :=
  fun s =>
    if poisoned (chains s) then (s, Err LockPoisoned)
    else let '(c, a) := f (contents (chains s)) in (mkStore (mgr s) (mkLock false c), a).

Definition read (s : VStore) : result MvccError Chains :=
  if poisoned (chains s) then Err LockPoisoned else Ok (contents (chains s)).

(** Running a manager operation on the store's shared manager. *)
Definition on_manager {A} (f : ST TransactionManager MvccError A) : ST VStore MvccError A :=
  fun s => let '(m, a) := f (mgr s) in (mkStore m (chains s), a).

(** [chain.iter_mut().rev().find(|v| v.is_live())] followed by [mark_deleted]:
    [None] when no version is live. *)
Fixpoint mark_first_live (xid : Xid) (l : Chain) : option Chain :=
  match l with
  | [] => None
  | v :: l' =>
      if Ver.is_live v then Some (Ver.mark_deleted v xid :: l')
      else l'' ← mark_first_live xid l'; Some (v :: l'')
  end.

Definition retire_newest_live (xid : Xid) (chain : Chain) : option Chain :=
  l ← mark_first_live xid (rev chain); Some (rev l).

Definition put (xid : Xid) (key : K) (value : V) : ST VStore MvccError unit :=
  write (fun cs =>
    let chain := default [] (cs !! key) in
    let chain := default chain (retire_newest_live xid chain) in
    (<[key := chain ++ [Ver.new xid value]]> cs, Ok tt)).

Definition delete (xid : Xid) (key : K) : ST VStore MvccError bool :=
  write (fun cs =>
    match cs !! key with
    | None => (cs, Ok false)
    | Some chain =>
        match retire_newest_live xid chain with
        | Some chain' => (<[key := chain']> cs, Ok true)
        | None => (cs, Ok false)
        end
    end).

(** The transaction that last touched the chain head. *)
Definition decider (head : Version V) : Xid :=
  if Ver.is_live head then v_xmin head else v_xmax head.

Definition conflicting_writer (m : TransactionManager) (chain : Chain) (writer : Xid)
    (s : Snapshot) : result MvccError (option Xid) :=
  match last chain with
  | None => Ok None
  | Some head =>
      let d := decider head in
      if (d =? INVALID_XID) || (d =? writer) then Ok None
      else seen ← Snap.sees_effect s d m;
           if (seen : bool) then Ok None
           else st ← Manager.status m d;
                if bool_decide (st = Aborted) then Ok None else Ok (Some d)
  end.

Definition put_checked (xid : Xid) (s : Snapshot) (key : K) (value : V) :
    ST VStore MvccError unit := fun σ =>
  write (fun cs =>
    let chain := default [] (cs !! key) in
    let cs := <[key := chain]> cs in
    match conflicting_writer (mgr σ) chain xid s with
    | Err e => (cs, Err e)
    | Ok (Some winner) => (cs, Err (WriteConflict winner))
    | Ok None =>
        let chain := default chain (retire_newest_live xid chain) in
        (<[key := chain ++ [Ver.new xid value]]> cs, Ok tt)
    end) σ.

Definition delete_checked (xid : Xid) (s : Snapshot) (key : K) : ST VStore MvccError bool :=
  fun σ =>
  write (fun cs =>
    match cs !! key with
    | None => (cs, Ok false)
    | Some chain =>
        match conflicting_writer (mgr σ) chain xid s with
        | Err e => (cs, Err e)
        | Ok (Some winner) => (cs, Err (WriteConflict winner))
        | Ok None =>
            match retire_newest_live xid chain with
            | Some chain' => (<[key := chain']> cs, Ok true)
            | None => (cs, Ok false)
            end
        end
    end) σ.

Definition read_conflict (m : TransactionManager) (chain : Chain) (reader : Xid)
    (s : Snapshot) : result MvccError (option Xid) :=
  match last chain with
  | None => Ok None
  | Some head =>
      let d := decider head in
      if (d =? INVALID_XID) || (d =? reader) then Ok None
      else seen ← Snap.sees_effect s d m;
           if (seen : bool) then Ok None
           else st ← Manager.status m d;
                if bool_decide (st = Committed) then Ok (Some d) else Ok None
  end.

(** The loop of [commit_serializable] over the read set. *)
Fixpoint find_read_conflict (m : TransactionManager) (cs : Chains) (xid : Xid) (s : Snapshot)
    (reads : list K) : result MvccError (option Xid) :=
  match reads with
  | [] => Ok None
  | key :: reads' =>
      match cs !! key with
      | None => find_read_conflict m cs xid s reads'
      | Some chain =>
          c ← read_conflict m chain xid s;
          match c with
          | Some winner => Ok (Some winner)
          | None => find_read_conflict m cs xid s reads'
          end
      end
  end.

Definition commit_serializable (xid : Xid) (s : Snapshot) (reads : gset K) :
    ST VStore MvccError unit := fun σ =>
  match read σ with
  | Err e => (σ, Err e)
  | Ok cs =>
      match find_read_conflict (mgr σ) cs xid s (elements reads) with
      | Err e => (σ, Err e)
      | Ok (Some winner) =>
          let '(σ', _) := on_manager (Manager.abort xid) σ in
          (σ', Err (SerializationFailure winner))
      | Ok None => on_manager (Manager.commit xid) σ
      end
  end.

(** The newest-first walk of [get]. *)
Fixpoint first_visible (m : TransactionManager) (s : Snapshot) (l : Chain) :
    result MvccError (option V) :=
  match l with
  | [] => Ok None
  | v :: l' =>
      b ← Ver.is_visible v s m;
      if (b : bool) then Ok (Some (v_value v)) else first_visible m s l'
  end.

Definition get (key : K) (s : Snapshot) (σ : VStore) : result MvccError (option V) :=
  cs ← read σ;
  match cs !! key with
  | None => Ok None
  | Some chain => first_visible (mgr σ) s (rev chain)
  end.

Fixpoint scan_entries (m : TransactionManager) (s : Snapshot) (l : list (K * Chain)) :
    result MvccError (list (K * V)) :=
  match l with
  | [] => Ok []
  | (key, chain) :: l' =>
      o ← first_visible m s (rev chain);
      out ← scan_entries m s l';
      Ok (match o with Some v => (key, v) :: out | None => out end)
  end.

(** The key order of a hash map is unspecified; the model scans the keys in the
    order of [map_to_list]. *)
Definition scan_visible (s : Snapshot) (σ : VStore) : result MvccError (list (K * V)) :=
  cs ← read σ; scan_entries (mgr σ) s (map_to_list cs).

Definition version_count (key : K) (σ : VStore) : result MvccError nat :=
  cs ← read σ; Ok (from_option length 0%nat (cs !! key)).

(** The inner loop of [vacuum]: the versions kept and the number reclaimed. *)
Fixpoint vacuum_chain (m : TransactionManager) (horizon : Xid) (l : Chain) :
    result MvccError (Chain * nat) :=
  match l with
  | [] => Ok ([], 0%nat)
  | v :: l' =>
      b ← Ver.is_reclaimable v horizon m;
      kn ← vacuum_chain m horizon l';
      let '(kept, n) := kn in
      Ok (if (b : bool) then (kept, S n) else (v :: kept, n))
  end.

(** The outer loop.  [chain.drain(..)] empties the chain first, so an error
    inside the loop leaves the chain under the cursor empty. *)
Fixpoint vacuum_entries (m : TransactionManager) (horizon : Xid) (l : list (K * Chain))
    (cs : Chains) (n : nat) (emptied : list K) : Chains * result MvccError (nat * list K) :=
  match l with
  | [] => (cs, Ok (n, emptied))
  | (key, chain) :: l' =>
      match vacuum_chain m horizon chain with
      | Err e => (<[key := []]> cs, Err e)
      | Ok (kept, k) =>
          vacuum_entries m horizon l' (<[key := kept]> cs) (n + k)%nat
            (if decide (kept = []) then emptied ++ [key] else emptied)
      end
  end.

Definition vacuum (horizon : Xid) : ST VStore MvccError VacuumReport := fun σ =>
  write (fun cs =>
    let '(cs', r) := vacuum_entries (mgr σ) horizon (map_to_list cs) cs 0 [] in
    match r with
    | Err e => (cs', Err e)
    | Ok (n, emptied) =>
        (foldl (fun c k => base.delete k c) cs' emptied,
         Ok (mkReport n (length emptied)))
    end) σ.

Definition vacuum_to_horizon : ST VStore MvccError VacuumReport := fun σ =>
  match Manager.gc_horizon (mgr σ) with
  | Err e => (σ, Err e)
  | Ok horizon => vacuum horizon σ
  end.

End store.
End Store.

(** ** Specification vocabulary *)
Section spec.
Context {K V : Type} `{Countable K}.
Abbreviation Chain := (list (Version V)).
Abbreviation VStore := (VersionedStore K V).

(** Visibility, and the newest-first lookup, on an unpoisoned registry. *)
Definition visible (s : Snapshot) (reg : Registry) (v : Version V) : bool :=
  sees s (v_xmin v) reg && negb (sees s (v_xmax v) reg).

Fixpoint first_vis (s : Snapshot) (reg : Registry) (l : Chain) : option V :=
  match l with
  | [] => None
  | v :: l' => if visible s reg v then Some (v_value v) else first_vis s reg l'
  end.

Definition lookup_vis (s : Snapshot) (reg : Registry) (cs : gmap K Chain) (k : K) : option V :=
  first_vis s reg (rev (default [] (cs !! k))).

(** No lock of the store is poisoned and the commit log is well formed. *)
Record store_ok (σ : VStore) : Prop := {
  ok_mgr : poisoned (mgr σ) = false;
  ok_chains : poisoned (chains σ) = false;
  ok_reg : reg_wf (contents (mgr σ));
}.

Abbreviation reg σ := (contents (mgr σ)).
Abbreviation cs σ := (contents (chains σ)).

(** ** The system: one store and the registered readers *)
Record Sys : Type := mkSys { store : VStore; guards : list SnapshotGuard; horizons : list Xid }.

(** The transitions of everybody but the transaction [me]: any other
    transaction begins, writes (checked or not), commits, aborts or
    validates; readers register and drop their guards; the collector reads the
    horizon and, some time later, sweeps at it. *)
Inductive sys_step (me : Xid) : Sys -> Sys -> Prop :=
| sys_begin σ m' x gs hs :
    Manager.begin (mgr σ) = (m', Ok x) ->
    sys_step me (mkSys σ gs hs) (mkSys (mkStore m' (chains σ)) gs hs)
| sys_commit σ m' x gs hs :
    Manager.commit x (mgr σ) = (m', Ok tt) ->
    sys_step me (mkSys σ gs hs) (mkSys (mkStore m' (chains σ)) gs hs)
| sys_abort σ m' x gs hs :
    Manager.abort x (mgr σ) = (m', Ok tt) ->
    sys_step me (mkSys σ gs hs) (mkSys (mkStore m' (chains σ)) gs hs)
| sys_commit_serializable σ σ' x s reads r gs hs :
    Store.commit_serializable x s reads σ = (σ', r) -> r <> Err LockPoisoned ->
    sys_step me (mkSys σ gs hs) (mkSys σ' gs hs)
| sys_put σ σ' x k v r gs hs :
    status_log (reg σ) !! x = Some InProgress -> x <> me ->
    Store.put x k v σ = (σ', r) -> sys_step me (mkSys σ gs hs) (mkSys σ' gs hs)
| sys_delete σ σ' x k r gs hs :
    status_log (reg σ) !! x = Some InProgress -> x <> me ->
    Store.delete x k σ = (σ', r) -> sys_step me (mkSys σ gs hs) (mkSys σ' gs hs)
| sys_put_checked σ σ' x s k v r gs hs :
    status_log (reg σ) !! x = Some InProgress -> x <> me ->
    Store.put_checked x s k v σ = (σ', r) -> sys_step me (mkSys σ gs hs) (mkSys σ' gs hs)
| sys_delete_checked σ σ' x s k r gs hs :
    status_log (reg σ) !! x = Some InProgress -> x <> me ->
    Store.delete_checked x s k σ = (σ', r) -> sys_step me (mkSys σ gs hs) (mkSys σ' gs hs)
| sys_register σ m' my g gs hs :
    my = INVALID_XID \/ status_log (reg σ) !! my = Some InProgress ->
    Manager.begin_snapshot my (mgr σ) = (m', Ok g) ->
    sys_step me (mkSys σ gs hs) (mkSys (mkStore m' (chains σ)) (g :: gs) hs)
| sys_drop σ g gs gs' hs :
    gs ≡ₚ g :: gs' ->
    sys_step me (mkSys σ gs hs) (mkSys (mkStore (Manager.drop_guard g (mgr σ)) (chains σ)) gs' hs)
| sys_horizon σ h gs hs :
    Manager.gc_horizon (mgr σ) = Ok h -> sys_step me (mkSys σ gs hs) (mkSys σ gs (h :: hs))
| sys_vacuum σ σ' h r gs hs hs' :
    hs ≡ₚ h :: hs' -> Store.vacuum h σ = (σ', r) -> sys_step me (mkSys σ gs hs) (mkSys σ' gs hs').

(** Every reader the registry counts is a live guard and conversely. *)
Definition counted (w : Sys) : Prop := forall x,
  default 0 (active_snaps (reg (store w)) !! x) =
  Z.of_nat (length (filter (fun g => guard_xmin g = x) (guards w))).

(** A horizon that was read lies below every registered reader and every
    transaction that has not finished, and stays there. *)
Record horizon_ok (h : Xid) (w : Sys) : Prop := {
  hz_guards : forall g, g ∈ guards w -> h <= xmin (guard_snap g);
  hz_running : forall x, status_log (reg (store w)) !! x = Some InProgress -> h <= x;
  hz_next : h <= next (reg (store w));
}.

(** Every live guard holds a valid snapshot and is counted in [active_snaps]. *)
Record sys_ok (w : Sys) : Prop := {
  sys_store_ok : store_ok (store w);
  sys_guards_valid : forall g, g ∈ guards w ->
    valid_snap (guard_snap g) (reg (store w)) /\ guard_xmin g = xmin (guard_snap g);
  sys_guards_counted : counted w;
  sys_horizons_old : forall h, h ∈ horizons w -> horizon_ok h w;
}.

Definition init_sys : Sys := mkSys (Store.new Manager.new) [] [].

(** A run of other transactions, readers and the collector during which the
    guard [g] is never dropped. *)
Definition steps_keeping (g : SnapshotGuard) : Sys -> Sys -> Prop :=
  rtc (fun w w' => sys_step (my_xid (guard_snap g)) w w' /\ g ∈ guards w').

(** ** Lemmas *)
Implicit Types (σ : VStore) (k : K).

Lemma is_visible_ok (v : Version V) s m : poisoned m = false -> reg_wf (contents m) ->
  Ver.is_visible v s m = Ok (visible s (contents m) v).
Proof.
  intros Hp W. unfold Ver.is_visible, visible. rewrite !sees_effect_ok by done. simpl.
  by destruct (sees s (v_xmin v) _).
Qed.

Lemma first_visible_ok m s l : poisoned m = false -> reg_wf (contents m) ->
  Store.first_visible m s l = Ok (first_vis s (contents m) l).
Proof.
  intros Hp W. induction l as [|v l IH]; [done|]. simpl.
  rewrite is_visible_ok by done. simpl. by destruct (visible s _ v).
Qed.

Lemma get_ok k s σ : store_ok σ -> Store.get k s σ = Ok (lookup_vis s (reg σ) (cs σ) k).
Proof.
  intros [Hm Hc W]. unfold Store.get, Store.read, lookup_vis. rewrite Hc. simpl.
  destruct (contents (chains σ) !! k) as [chain|]; [|done]. by apply first_visible_ok.
Qed.

(** Stamping a version with, or appending a version of, a transaction the
    snapshot does not see changes no lookup. *)
Lemma mark_first_live_vis s r x l l' :
  sees s x r = false -> Store.mark_first_live x l = Some l' ->
  first_vis s r l' = first_vis s r l.
Proof.
  intros Hx. revert l'. induction l as [|v l IH]; intros l'; simpl; [done|].
  destruct (Ver.is_live v) eqn:El.
  - intros [= <-]. simpl. unfold visible, Ver.mark_deleted. simpl. rewrite Hx.
    unfold Ver.is_live in El. apply Z.eqb_eq in El. rewrite El. done.
  - destruct (Store.mark_first_live x l) as [l''|]; simpl; [|done].
    intros [= <-]. simpl. by rewrite IH.
Qed.

Lemma retire_vis s r x c c' :
  sees s x r = false -> Store.retire_newest_live x c = Some c' ->
  first_vis s r (rev c') = first_vis s r (rev c).
Proof.
  intros Hx. unfold Store.retire_newest_live.
  destruct (Store.mark_first_live x (rev c)) as [l|] eqn:E; simpl; [|done].
  intros [= <-]. rewrite rev_involutive. by eapply mark_first_live_vis.
Qed.

Lemma append_vis s r x c v :
  sees s x r = false ->
  first_vis s r (rev (default c (Store.retire_newest_live x c) ++ [Ver.new x v])) =
  first_vis s r (rev c).
Proof.
  intros Hx. rewrite rev_app_distr. simpl. unfold visible. simpl. rewrite Hx. simpl.
  destruct (Store.retire_newest_live x c) as [c'|] eqn:E; simpl; [|done].
  by eapply retire_vis.
Qed.

Lemma lookup_vis_insert s r (cs0 : gmap K Chain) k c k' :
  first_vis s r (rev c) = first_vis s r (rev (default [] (cs0 !! k))) ->
  lookup_vis s r (<[k := c]> cs0) k' = lookup_vis s r cs0 k'.
Proof.
  intros Hc. unfold lookup_vis. rewrite lookup_insert. case_decide; [|done]. by subst.
Qed.

Lemma lookup_vis_ext s r r' (cs0 : gmap K Chain) k :
  (forall x, sees s x r = sees s x r') -> lookup_vis s r cs0 k = lookup_vis s r' cs0 k.
Proof.
  intros Hx. unfold lookup_vis. induction (rev _) as [|v l IH]; simpl; [done|].
  unfold visible. by rewrite !Hx, IH.
Qed.

(** A write of a transaction the snapshot does not see: what it does to the
    state of the store. *)
Definition write_unseen (s : Snapshot) (σ σ' : VStore) : Prop :=
  mgr σ' = mgr σ /\ poisoned (chains σ') = poisoned (chains σ) /\
  forall k, lookup_vis s (reg σ) (cs σ') k = lookup_vis s (reg σ) (cs σ) k.

Lemma write_unseen_intro {A} s σ σ' (f : _ -> _ * result MvccError A) r :
  Store.write f σ = (σ', r) ->
  (forall k, lookup_vis s (reg σ) (f (cs σ)).1 k = lookup_vis s (reg σ) (cs σ) k) ->
  write_unseen s σ σ'.
Proof.
  unfold Store.write, write_unseen. destruct (poisoned (chains σ)) eqn:Hp.
  - intros [= <- _] _. auto.
  - destruct (f (cs σ)) as [c a]. intros [= <- <-] Hk. auto.
Qed.

Lemma put_unseen s x k v σ σ' r : sees s x (reg σ) = false ->
  Store.put x k v σ = (σ', r) -> write_unseen s σ σ'.
Proof.
  intros Hx Hput. eapply write_unseen_intro; [exact Hput|]. intros k'. simpl.
  apply lookup_vis_insert. by rewrite append_vis.
Qed.

Lemma put_checked_unseen s x s' k v σ σ' r : sees s x (reg σ) = false ->
  Store.put_checked x s' k v σ = (σ', r) -> write_unseen s σ σ'.
Proof.
  intros Hx Hput. eapply write_unseen_intro; [exact Hput|]. intros k'. simpl.
  destruct (Store.conflicting_writer _ _ _ _) as [[?|]|?]; simpl; try by apply lookup_vis_insert.
  rewrite insert_insert_eq. apply lookup_vis_insert. by rewrite append_vis.
Qed.

Lemma retire_unseen_insert s r x (cs0 : gmap K Chain) k c c' k' :
  sees s x r = false -> cs0 !! k = Some c -> Store.retire_newest_live x c = Some c' ->
  lookup_vis s r (<[k := c']> cs0) k' = lookup_vis s r cs0 k'.
Proof.
  intros Hx Hk Hc. apply lookup_vis_insert. rewrite Hk. simpl. by eapply retire_vis.
Qed.

Lemma delete_unseen s x k σ σ' r : sees s x (reg σ) = false ->
  Store.delete x k σ = (σ', r) -> write_unseen s σ σ'.
Proof.
  intros Hx Hd. eapply write_unseen_intro; [exact Hd|]. intros k'. simpl.
  destruct (cs σ !! k) as [c|] eqn:Ek; [|done].
  destruct (Store.retire_newest_live x c) as [c'|] eqn:Ec; [|done]. simpl.
  by eapply retire_unseen_insert.
Qed.

Lemma delete_checked_unseen s x s' k σ σ' r : sees s x (reg σ) = false ->
  Store.delete_checked x s' k σ = (σ', r) -> write_unseen s σ σ'.
Proof.
  intros Hx Hd. eapply write_unseen_intro; [exact Hd|]. intros k'. simpl.
  destruct (cs σ !! k) as [c|] eqn:Ek; [|done].
  destruct (Store.conflicting_writer _ _ _ _) as [[?|]|?]; try done.
  destruct (Store.retire_newest_live x c) as [c'|] eqn:Ec; [|done]. simpl.
  by eapply retire_unseen_insert.
Qed.

(** *** Garbage collection *)
Definition reclaimable (h : Xid) (r : Registry) (v : Version V) : bool :=
  (negb (v_xmax v =? INVALID_XID) && (v_xmax v <? h) &&
   bool_decide (status_log r !! v_xmax v = Some Committed)) ||
  ((v_xmin v <? h) && bool_decide (default Aborted (status_log r !! v_xmin v) = Aborted)).

Definition kept (h : Xid) (r : Registry) (c : Chain) : Chain :=
  filter (fun v : Version V => reclaimable h r v = false) c.

Lemma is_reclaimable_ok (v : Version V) h m : poisoned m = false -> reg_wf (contents m) ->
  Ver.is_reclaimable v h m = Ok (reclaimable h (contents m) v).
Proof.
  intros Hp W. unfold Ver.is_reclaimable, reclaimable. rewrite !status_ok by done.
  assert (bool_decide (default Aborted (status_log (contents m) !! v_xmax v) = Committed) =
          bool_decide (status_log (contents m) !! v_xmax v = Some Committed)) as E.
  { apply bool_decide_ext. destruct (status_log (contents m) !! v_xmax v) as [[]|]; naive_solver. }
  destruct (_ && _); simpl; [rewrite E; destruct (bool_decide (_ = Some Committed)); simpl; [done|]|];
    by destruct (v_xmin v <? h).
Qed.

Lemma vacuum_chain_ok m h c : poisoned m = false -> reg_wf (contents m) ->
  Store.vacuum_chain m h c =
    Ok (kept h (contents m) c, (length c - length (kept h (contents m) c))%nat).
Proof.
  intros Hp W. induction c as [|v c IH]; [done|]. simpl.
  rewrite is_reclaimable_ok by done. simpl. rewrite IH. simpl. unfold kept. rewrite filter_cons.
  pose proof (length_filter (fun v : Version V => reclaimable h (contents m) v = false) c).
  destruct (reclaimable h (contents m) v); simpl; repeat f_equal; simpl; try done; lia.
Qed.

Lemma vacuum_entries_ok m h (l : list (K * Chain)) (cs0 : gmap K Chain) n em : poisoned m = false -> reg_wf (contents m) ->
  NoDup l.*1 ->
  exists cs' n' em', Store.vacuum_entries m h l cs0 n em = (cs', Ok (n', em')) /\
    (forall k c, (k, c) ∈ l -> cs' !! k = Some (kept h (contents m) c)) /\
    (forall k, k ∉ l.*1 -> cs' !! k = cs0 !! k) /\
    (forall k, k ∈ em' <-> k ∈ em \/ exists c, (k, c) ∈ l /\ kept h (contents m) c = []).
Proof.
  intros Hp W. revert cs0 n em. induction l as [|[k c] l IH]; intros cs0 n em Hnd.
  - exists cs0, n, em. split_and!; [done|set_solver|done|]. intros k. set_solver.
  - simpl in *. apply NoDup_cons in Hnd as [Hk Hnd].
    rewrite vacuum_chain_ok by done.
    edestruct IH as (cs' & n' & em' & Heq & H1 & H2 & H3); [done|].
    rewrite Heq. do 3 eexists. split; [done|]. split_and!.
    + intros k' c' [[= -> ->]|Hin]%elem_of_cons; [|by apply H1].
      rewrite H2 by done. apply lookup_insert_eq.
    + intros k' Hk'. rewrite not_elem_of_cons in Hk'. rewrite H2 by tauto.
      apply lookup_insert_ne. naive_solver.
    + intros k'. rewrite H3. destruct (decide (kept h (contents m) c = [])) as [He|He];
        rewrite ?elem_of_app, ?list_elem_of_singleton; split.
      * intros [[?| ->]|(c' & ? & ?)]; [by left| |]; right; eexists; (split; [|done]);
          [by left|by right].
      * intros [?|(c' & [[= -> ->]|Hin]%elem_of_cons & Hc')]; [by do 2 left|by left; right|].
        right. eauto.
      * intros [?|(c' & ? & ?)]; [by left|]. right. eexists. split; [by right|done].
      * intros [?|(c' & [[= -> ->]|Hin]%elem_of_cons & Hc')]; [by left|done|]. right. eauto.
Qed.

Lemma foldl_delete_lookup {A} (cs0 : gmap K A) em k :
  foldl (fun c k => base.delete k c) cs0 em !! k = if decide (k ∈ em) then None else cs0 !! k.
Proof.
  revert cs0. induction em as [|k' em IH]; intros cs0; [done|].
  cbn [foldl]. rewrite IH, lookup_delete.
  destruct (decide (k ∈ em)), (decide (k ∈ k' :: em)), (decide (k' = k)); set_solver.
Qed.

Lemma vacuum_ok h σ : store_ok σ ->
  exists cs' rep, Store.vacuum h σ = (mkStore (mgr σ) (mkLock false cs'), Ok rep) /\
    forall k, default [] (cs' !! k) = kept h (reg σ) (default [] (cs σ !! k)) /\
              cs' !! k <> Some [].
Proof.
  intros [Hm Hc W]. unfold Store.vacuum, Store.write. rewrite Hc.
  destruct (vacuum_entries_ok (mgr σ) h (map_to_list (cs σ)) (cs σ) 0 [] Hm W
    (NoDup_fst_map_to_list _)) as (cs' & n' & em' & Heq & H1 & H2 & H3).
  rewrite Heq. do 2 eexists. split; [done|]. intros k. rewrite foldl_delete_lookup.
  destruct (cs σ !! k) as [c|] eqn:Ek.
  - assert ((k, c) ∈ map_to_list (cs σ)) as Hin by by apply elem_of_map_to_list.
    rewrite (H1 _ _ Hin).
    case_decide as Hd; [apply H3 in Hd as [Hd|(c' & Hin' & Hc')]|].
    + set_solver.
    + apply elem_of_map_to_list in Hin'. simplify_eq. simpl. by rewrite Hc'.
    + simpl. split; [done|]. intros [= He]. apply Hd, H3. eauto.
  - assert (k ∉ (map_to_list (cs σ)).*1) as Hk.
    { intros [[k' c] [-> Hin%elem_of_map_to_list]]%list_elem_of_fmap. simpl in *. congruence. }
    rewrite H2, Ek by done. by case_decide.
Qed.

Lemma reclaimable_invisible h s r (v : Version V) : valid_snap s r -> reg_wf r -> h <= xmin s ->
  reclaimable h r v = true -> visible s r v = false.
Proof.
  intros (r0 & W0 & L & Hs & Hmy) W Hh Hr. unfold visible.
  pose proof (snapshot_xmin_bounds r0 (my_xid s) W0) as Hb. rewrite <- Hs in Hb.
  unfold reclaimable in Hr. apply orb_true_iff in Hr as [Hr|Hr].
  - assert (sees s (v_xmax v) r = true) as ->; [|by rewrite andb_false_r].
    repeat rewrite ?andb_true_iff, ?negb_true_iff in Hr. destruct Hr as [[H0 Hlt] Hc].
    apply Z.ltb_lt in Hlt. unfold sees. rewrite H0, Hc. simpl.
    destruct (v_xmax v =? my_xid s); [done|]. simpl.
    assert (xmax s = next r0) as Hx by by rewrite Hs.
    assert ((xmax s <=? v_xmax v) = false) as -> by lia.
    rewrite bool_decide_eq_false_2; [done|]. intros Hin. rewrite Hs in Hin. simpl in Hin.
    pose proof (snapshot_xmin_le_active r0 (my_xid s) _ Hin) as Hle. rewrite <- Hs in Hle. lia.
  - assert (sees s (v_xmin v) r = false) as ->; [|done].
    apply andb_true_iff in Hr as [Hlt Ha]. apply Z.ltb_lt in Hlt. apply bool_decide_eq_true in Ha.
    unfold sees. destruct (v_xmin v =? my_xid s) eqn:Em.
    + apply Z.eqb_eq in Em. rewrite Em. destruct Hmy as [->|Hin]; [done|].
      pose proof (snapshot_xmin_le_active r0 (my_xid s) _ Hin) as Hle. rewrite <- Hs in Hle. lia.
    + rewrite (bool_decide_eq_false_2 (status_log r !! v_xmin v = Some Committed)).
      { by rewrite !andb_false_r. }
      intros E. by rewrite E in Ha.
Qed.

Lemma kept_vis h s r c : valid_snap s r -> reg_wf r -> h <= xmin s ->
  first_vis s r (rev (kept h r c)) = first_vis s r (rev c).
Proof.
  intros Hv W Hh.
  assert (forall l, first_vis s r (filter (fun v : Version V => reclaimable h r v = false) l) =
                    first_vis s r l) as Hf.
  { induction l as [|v l IH]; [done|]. rewrite filter_cons. simpl. case_decide as Hd; simpl.
    - by rewrite IH.
    - rewrite IH, (reclaimable_invisible h s r v); [done..|].
      by destruct (reclaimable h r v). }
  rewrite <- (Hf (rev c)). f_equal. unfold kept. by rewrite filter_rev.
Qed.

Lemma vacuum_unseen h s σ σ' r : store_ok σ -> valid_snap s (reg σ) -> h <= xmin s ->
  Store.vacuum h σ = (σ', r) -> write_unseen s σ σ'.
Proof.
  intros Hok Hv Hh Hvac. destruct (vacuum_ok h σ Hok) as (cs' & rep & Heq & Hk).
  rewrite Heq in Hvac. injection Hvac as <- <-. split_and!; [done|by rewrite (ok_chains _ Hok)|].
  intros k. unfold lookup_vis. simpl. destruct (Hk k) as [-> _].
  by apply kept_vis; [|apply ok_reg|].
Qed.

(** *** The system invariant *)
Lemma finish_cases x to m m' r : poisoned m = false ->
  Manager.finish x to m = (m', r) -> m' = m \/ r = Ok tt.
Proof.
  intros Hp. unfold Manager.finish. rewrite write_run by done.
  destruct m as [p rg]; simpl in *; subst p.
  destruct (status_log rg !! x) as [[]|]; simpl; intros [= <- <-]; auto.
Qed.

Lemma on_manager_finish_cases x to (σ σ' : VStore) r : poisoned (mgr σ) = false ->
  Store.on_manager (K := K) (V := V) (Manager.finish x to) σ = (σ', r) ->
  chains σ' = chains σ /\ (mgr σ' = mgr σ \/ Manager.finish x to (mgr σ) = (mgr σ', Ok tt)).
Proof.
  intros Hp. unfold Store.on_manager. destruct (Manager.finish x to (mgr σ)) as [m' a] eqn:E.
  intros [= <- <-]. split; [done|]. simpl.
  destruct (finish_cases _ _ _ _ _ Hp E) as [->| ->]; auto.
Qed.

Lemma commit_serializable_cases x s (reads : gset K) (σ σ' : VStore) r : poisoned (mgr σ) = false ->
  Store.commit_serializable x s reads σ = (σ', r) ->
  chains σ' = chains σ /\ (mgr σ' = mgr σ \/ mgr_step (mgr σ) (mgr σ')).
Proof.
  intros Hp. unfold Store.commit_serializable.
  destruct (Store.read σ) as [c|]; [|naive_solver].
  destruct (Store.find_read_conflict _ _ _ _ _) as [[w|]|]; [| |naive_solver].
  - destruct (Store.on_manager _ σ) as [σ1 a] eqn:E. intros [= <- <-].
    apply on_manager_finish_cases in E as [Hc [Hm|Hm]]; [auto| |done].
    split; [done|]. right. by eapply step_abort.
  - intros E. apply on_manager_finish_cases in E as [Hc [Hm|Hm]]; [auto| |done].
    split; [done|]. right. by eapply step_commit.
Qed.

(** What a critical section of the store leaves alone. *)
Definition frame (σ σ' : VStore) : Prop :=
  mgr σ' = mgr σ /\ poisoned (chains σ') = poisoned (chains σ).

Lemma write_frame {A} (f : _ -> _ * result MvccError A) σ σ' r :
  Store.write f σ = (σ', r) -> frame σ σ'.
Proof.
  unfold Store.write, frame. destruct (poisoned (chains σ)) eqn:Hp; [naive_solver|].
  destruct (f (cs σ)) as [c a]. naive_solver.
Qed.

(** A system step either leaves the manager alone or moves it by a manager
    step, and never poisons the chains. *)
Lemma sys_step_manager me w w' : sys_ok w -> sys_step me w w' ->
  (mgr (store w') = mgr (store w) \/ mgr_step (mgr (store w)) (mgr (store w'))) /\
  poisoned (chains (store w')) = poisoned (chains (store w)).
Proof.
  intros Hok Hst. destruct (sys_store_ok _ Hok) as [Hm Hc W].
  destruct Hst as [| | |???????? E| ?????????? E| ????????? E| ??????????? E| ?????????? E| |
                   ????? E| |??????? _ E]; simpl in *;
    try (split; [right; econstructor; eassumption|reflexivity]).
  - apply commit_serializable_cases in E as [-> ?]; done.
  - apply write_frame in E as [-> ->]; auto.
  - apply write_frame in E as [-> ->]; auto.
  - apply write_frame in E as [-> ->]; auto.
  - apply write_frame in E as [-> ->]; auto.
  - split; [right; by eapply step_release|done].
  - auto.
  - apply write_frame in E as [-> ->]; auto.
Qed.

Lemma sys_step_store me w w' : sys_ok w -> sys_step me w w' ->
  store_ok (store w') /\ reg_le (reg (store w)) (reg (store w')).
Proof.
  intros Hok Hst. destruct (sys_step_manager _ _ _ Hok Hst) as [Hmgr Hch].
  destruct (sys_store_ok _ Hok) as [Hm Hc W].
  destruct Hmgr as [E|E].
  - split; [split; rewrite ?E, ?Hch; done|by rewrite E].
  - destruct (step_preserves _ _ E W) as (W' & L & Hp). split; [|done].
    split; [by rewrite Hp|by rewrite Hch|done].
Qed.

(** How a step changes the live guards and their registration. *)
Lemma finish_snaps x to m m' : Manager.finish x to m = (m', Ok tt) ->
  active_snaps (contents m') = active_snaps (contents m).
Proof. intros (_ & _ & _ & ->)%finish_inv. done. Qed.

Lemma commit_serializable_snaps x s (reads : gset K) (σ σ' : VStore) r :
  poisoned (mgr σ) = false ->
  Store.commit_serializable x s reads σ = (σ', r) ->
  active_snaps (reg σ') = active_snaps (reg σ).
Proof.
  intros Hp. unfold Store.commit_serializable.
  destruct (Store.read σ) as [c|]; [|naive_solver].
  destruct (Store.find_read_conflict _ _ _ _ _) as [[w|]|]; [| |naive_solver].
  - destruct (Store.on_manager _ σ) as [σ1 a] eqn:E. intros [= <- <-].
    apply on_manager_finish_cases in E as [_ [->|Hm]]; [done| |done]. by eapply finish_snaps.
  - intros E. apply on_manager_finish_cases in E as [_ [->|Hm]]; [done| |done].
    by eapply finish_snaps.
Qed.

Lemma counted_register σ m' my g gs hs : sys_ok (mkSys σ gs hs) ->
  Manager.begin_snapshot my (mgr σ) = (m', Ok g) ->
  counted (mkSys (mkStore m' (chains σ)) (g :: gs) hs) /\
  guard_snap g = Manager.snapshot_locked (reg σ) my /\ guard_xmin g = xmin (guard_snap g).
Proof.
  intros [_ _ Hcnt _] Hb. apply write_inv in Hb as (_ & _ & Hf); [|done].
  injection Hf as Hc Hg. split_and!; [|by rewrite <- Hg|by rewrite <- Hg].
  intros x. specialize (Hcnt x). simpl in *. rewrite <- Hc, <- Hg. simpl.
  rewrite filter_cons. simpl. rewrite lookup_insert. case_decide as Hd; simpl; [|done].
  subst x. rewrite Hcnt. lia.
Qed.

Lemma counted_drop σ g gs gs' hs : sys_ok (mkSys σ gs hs) -> gs ≡ₚ g :: gs' ->
  counted (mkSys (mkStore (Manager.drop_guard g (mgr σ)) (chains σ)) gs' hs).
Proof.
  intros [[Hm Hc W] _ Hcnt _] Hp x. simpl in *. unfold Manager.drop_guard.
  rewrite release_run by done. simpl. pose proof (Hcnt x) as Hx.
  cbn [store guards] in Hx. rewrite Hp, filter_cons in Hx.
  destruct (decide (guard_xmin g = x)) as [<-|Hne].
  - destruct (active_snaps (reg σ) !! guard_xmin g) as [n|] eqn:E; simpl in Hx; [|lia].
    case_match eqn:En; [rewrite lookup_delete_eq|rewrite lookup_insert_eq]; simpl; lia.
  - rewrite <- Hx. destruct (active_snaps (reg σ) !! guard_xmin g) as [n|]; [|done].
    case_match; [rewrite lookup_delete_ne by done|rewrite lookup_insert_ne by done]; done.
Qed.

Lemma counted_step me w w' : sys_ok w -> sys_step me w w' -> counted w'.
Proof.
  intros Hok Hst. destruct (sys_store_ok _ Hok) as [Hm _ _].
  assert (counted w) as Hc by apply Hok. unfold counted in *.
  destruct Hst as [????? E|????? E|????? E|???????? E| ?????????? E| ????????? E|
                   ??????????? E| ?????????? E|??????? E| ????? E| |??????? _ E]; simpl in *.
  - apply begin_inv in E as (_ & _ & _ & ->). apply Hc.
  - apply finish_snaps in E as ->. apply Hc.
  - apply finish_snaps in E as ->. apply Hc.
  - apply commit_serializable_snaps in E as ->; [|done]. apply Hc.
  - apply write_frame in E as [-> _]. apply Hc.
  - apply write_frame in E as [-> _]. apply Hc.
  - apply write_frame in E as [-> _]. apply Hc.
  - apply write_frame in E as [-> _]. apply Hc.
  - by destruct (counted_register _ _ _ _ _ _ Hok E) as [? _].
  - by eapply counted_drop.
  - apply Hc.
  - apply write_frame in E as [-> _]. apply Hc.
Qed.

Lemma guards_step me w w' g : sys_ok w -> sys_step me w w' -> g ∈ guards w' ->
  g ∈ guards w \/
  (exists my, (my = INVALID_XID \/ status_log (reg (store w)) !! my = Some InProgress) /\
     guard_snap g = Manager.snapshot_locked (reg (store w)) my /\
     guard_xmin g = xmin (guard_snap g)).
Proof.
  intros Hok Hst. destruct Hst as [| | | | | | | |σ m' my g0 gs hs Hmy E|σ g0 gs gs' hs Hp| |]; simpl; auto.
  - intros [->|?]%elem_of_cons; [|auto]. right.
    destruct (counted_register _ _ _ _ _ _ Hok E) as (_ & ? & ?). eauto.
  - intros Hg. left. rewrite Hp. by right.
Qed.

Lemma horizon_le_guard w g h : sys_ok w -> g ∈ guards w ->
  Manager.gc_horizon (mgr (store w)) = Ok h -> h <= xmin (guard_snap g).
Proof.
  intros [_ Hv Hcnt _] Hg Hh. destruct (Hv g Hg) as [_ <-].
  specialize (Hcnt (guard_xmin g)).
  destruct (active_snaps (reg (store w)) !! guard_xmin g) as [n|] eqn:E.
  - by eapply gc_horizon_le_reader.
  - simpl in Hcnt. exfalso.
    assert (g ∈ filter (fun g' => guard_xmin g' = guard_xmin g) (guards w)) as Hin
      by by apply list_elem_of_filter.
    destruct (filter _ _); [by apply not_elem_of_nil in Hin|simpl in Hcnt; lia].
Qed.

(** A horizon is old when it is read, and stays old. *)
Lemma horizon_fresh w h : sys_ok w -> Manager.gc_horizon (mgr (store w)) = Ok h -> horizon_ok h w.
Proof.
  intros Hok Hh. destruct (sys_store_ok _ Hok) as [_ _ W]. split.
  - intros g Hg. by eapply horizon_le_guard.
  - intros x Hx. by eapply gc_horizon_le_running.
  - pose proof (gc_horizon_le_now _ _ INVALID_XID W Hh).
    pose proof (snapshot_xmin_bounds _ INVALID_XID W). lia.
Qed.

Lemma horizon_step me w w' h : sys_ok w -> sys_step me w w' -> horizon_ok h w -> horizon_ok h w'.
Proof.
  intros Hok Hst [Hg Hr Hn]. destruct (sys_step_store _ _ _ Hok Hst) as [[_ _ W'] L].
  destruct (sys_store_ok _ Hok) as [_ _ W]. pose proof (le_next _ _ L). split; [| |lia].
  - intros g Hin. destruct (guards_step _ _ _ _ Hok Hst Hin) as [?|(my & _ & -> & _)]; [auto|].
    destruct (snapshot_xmin_cases (reg (store w)) my) as [->|Hi]; [done|]. by apply Hr.
  - intros x Hx. destruct (decide (x < next (reg (store w)))) as [Hlt|]; [|lia].
    apply Hr. exact (running_before _ _ x W W' L Hlt Hx).
Qed.

Lemma horizons_step me w w' h : sys_step me w w' -> h ∈ horizons w' ->
  h ∈ horizons w \/
  Manager.gc_horizon (mgr (store w)) = Ok h /\ guards w' = guards w /\ store w' = store w.
Proof.
  destruct 1 as [| | | | | | | | | |σ h' gs hs E|σ σ' h' r gs hs hs' Hp E]; simpl; auto.
  - intros [->|?]%elem_of_cons; auto.
  - intros Hin. left. rewrite Hp. by right.
Qed.

Lemma sys_step_ok me w w' : sys_ok w -> sys_step me w w' -> sys_ok w'.
Proof.
  intros Hok Hst. destruct (sys_step_store _ _ _ Hok Hst) as [Hs L].
  split; [done| |by eapply counted_step|].
  - intros g Hg. destruct (guards_step _ _ _ _ Hok Hst Hg) as [Hin|(my & Hmy & Hsn & Hx)].
    + destruct (sys_guards_valid _ Hok _ Hin) as [Hv ?]. split; [|done]. by eapply valid_snap_le.
    + split; [|done]. exists (reg (store w)). rewrite Hsn. simpl.
      split_and!; [apply (sys_store_ok _ Hok)|done|done|]. by rewrite elem_of_in_progress.
  - intros h Hh. eapply horizon_step; [done..|].
    destruct (horizons_step _ _ _ _ Hst Hh) as [Hin|[E _]]; [by apply (sys_horizons_old _ Hok)|].
    by apply horizon_fresh.
Qed.

Lemma init_sys_ok : sys_ok init_sys.
Proof.
  split; [split; [done|done|apply new_wf]|set_solver| |set_solver]. intros x. simpl.
  by rewrite lookup_empty.
Qed.

(** A sweep's verdicts do not depend on when, after the horizon was read, it looks
    a status up: every transaction below the horizon has its outcome. *)
Lemma reclaimable_stable h w r' (v : Version V) : sys_ok w -> horizon_ok h w ->
  reg_wf r' -> reg_le (reg (store w)) r' ->
  reclaimable h r' v = reclaimable h (reg (store w)) v.
Proof.
  intros Hok [_ Hr Hn] W' L. destruct (sys_store_ok _ Hok) as [_ _ W].
  assert (forall x, x < h -> status_log r' !! x = status_log (reg (store w)) !! x) as Hx.
  { intros x Hlt. destruct (status_log (reg (store w)) !! x) as [st|] eqn:E.
    - apply (le_final _ _ L); [done|]. intros ->. specialize (Hr x E). lia.
    - apply eq_None_not_Some. intros Hs%(wf_log _ W'). apply eq_None_not_Some in E.
      apply E, (wf_log _ W). lia. }
  unfold reclaimable. f_equal.
  - destruct (Z.ltb_spec (v_xmax v) h) as [Hlt|]; [by rewrite Hx|by rewrite !andb_false_r].
  - destruct (Z.ltb_spec (v_xmin v) h) as [Hlt|]; [by rewrite Hx|done].
Qed.

(** One step of somebody else changes no lookup of a live guard. *)
Lemma sys_step_lookup g w w' k : sys_ok w -> g ∈ guards w ->
  sys_step (my_xid (guard_snap g)) w w' ->
  lookup_vis (guard_snap g) (reg (store w')) (cs (store w')) k =
  lookup_vis (guard_snap g) (reg (store w)) (cs (store w)) k.
Proof.
  intros Hok Hg Hst. destruct (sys_step_store _ _ _ Hok Hst) as [Hok' L].
  destruct (sys_guards_valid _ Hok _ Hg) as [Hv _].
  destruct (sys_store_ok _ Hok) as [Hm Hc W].
  rewrite <- (lookup_vis_ext _ (reg (store w)) (reg (store w')))
    by (intros x; apply valid_sees_stable; [done..|apply Hok'|done]).
  assert (forall x, status_log (reg (store w)) !! x = Some InProgress ->
    x <> my_xid (guard_snap g) -> sees (guard_snap g) x (reg (store w)) = false) as Hun.
  { intros x Hx Hne. by eapply (in_progress_unseen _ (reg (store w))). }
  destruct Hst as [| | |???????? E| σ??????? Hx Hne E| σ?????? Hx Hne E| σ???????? Hx Hne E|
    σ??????? Hx Hne E| | | |σ????? hs' Hp E]; simpl in *; try reflexivity.
  - apply commit_serializable_cases in E as [-> _]; done.
  - apply (put_unseen (guard_snap g)) in E as (_ & _ & ->); auto.
  - apply (delete_unseen (guard_snap g)) in E as (_ & _ & ->); auto.
  - apply (put_checked_unseen (guard_snap g)) in E as (_ & _ & ->); auto.
  - apply (delete_checked_unseen (guard_snap g)) in E as (_ & _ & ->); auto.
  - apply (vacuum_unseen _ (guard_snap g)) in E as (_ & _ & ->); [done|split; done|done|].
    eapply (hz_guards _ (mkSys _ _ _)); [|done]. apply (sys_horizons_old _ Hok). cbn [horizons].
    rewrite Hp. by left.
Qed.

Lemma steps_keeping_ok g w w' : sys_ok w -> g ∈ guards w -> steps_keeping g w w' ->
  sys_ok w' /\ g ∈ guards w' /\
  forall k, lookup_vis (guard_snap g) (reg (store w')) (cs (store w')) k =
            lookup_vis (guard_snap g) (reg (store w)) (cs (store w)) k.
Proof.
  intros Hok Hg Hs. induction Hs as [w|w1 w2 w3 [Hst Hg2] _ IH]; [auto|].
  destruct (IH (sys_step_ok _ _ _ Hok Hst) Hg2) as (Hok3 & Hg3 & Hk). split_and!; [done..|].
  intros k. rewrite Hk. by apply sys_step_lookup.
Qed.

(** Reachability by everybody, [me] being nobody. *)
Definition reachable : Sys -> Prop := rtc (sys_step INVALID_XID) init_sys.

Lemma reachable_ok w : reachable w -> sys_ok w.
Proof.
  intros Hr. pose proof init_sys_ok as Hok. unfold reachable in Hr.
  induction Hr as [|w1 w2 w3 Hst _ IH]; [done|]. apply IH. by eapply sys_step_ok.
Qed.

(** *** A transaction and its own writes *)
Lemma put_run x k v σ : poisoned (chains σ) = false ->
  Store.put x k v σ =
    (mkStore (mgr σ) (mkLock false
       (<[k := default (default [] (cs σ !! k))
                 (Store.retire_newest_live x (default [] (cs σ !! k))) ++ [Ver.new x v]]> (cs σ))),
     Ok tt).
Proof. intros Hp. unfold Store.put, Store.write. by rewrite Hp. Qed.

Lemma lookup_vis_newest s r (cs0 : gmap K Chain) k c x v :
  sees s x r = true ->
  lookup_vis s r (<[k := c ++ [Ver.new x v]]> cs0) k = Some v.
Proof.
  intros Hx. unfold lookup_vis. rewrite lookup_insert_eq. simpl. rewrite rev_app_distr. simpl.
  unfold visible. simpl. by rewrite Hx.
Qed.

Lemma sees_own s r x : x <> INVALID_XID -> my_xid s = x -> sees s x r = true.
Proof.
  intros Hx <-. unfold sees. apply Z.eqb_neq in Hx. by rewrite Hx, Z.eqb_refl.
Qed.

Lemma fresh_sees_committed r my x : reg_wf r -> status_log r !! x = Some Committed ->
  sees (Manager.snapshot_locked r my) x r = true.
Proof.
  intros W Hx. assert (1 <= x < next r) as Hb by (apply (wf_log _ W); eauto).
  unfold sees. simpl. rewrite Hx, (bool_decide_eq_true_2 (Some Committed = _)) by done.
  rewrite bool_decide_eq_false_2 by (rewrite elem_of_in_progress; congruence).
  unfold INVALID_XID. destruct (x =? 0) eqn:E0; [lia|].
  destruct (next r <=? x) eqn:E1; [lia|]. simpl. by rewrite orb_true_r.
Qed.

Lemma unseen_unless_committed s r x : my_xid s <> x -> status_log r !! x <> Some Committed ->
  sees s x r = false.
Proof.
  intros Hm Hx. unfold sees. rewrite (bool_decide_eq_false_2 (_ = Some Committed)) by done.
  destruct (x =? my_xid s) eqn:E; [lia|]. by rewrite !andb_false_r.
Qed.

(** ** Theorems *)

(** C38: Snapshot reads are repeatable.  In every system reachable from an
    empty store, a registered reader gets the same answer for every key however
    long it stays registered, while other transactions begin, write, delete,
    commit, abort and validate, other readers come and go, and the collector
    reads its horizon and sweeps at it later, with any of these between the two
    (the reader may have registered after the horizon was read); the read itself
    never fails. *)
Theorem registered_reader_repeatable w g w' k :
  reachable w -> g ∈ guards w -> steps_keeping g w w' ->
  exists o, Store.get k (guard_snap g) (store w) = Ok o /\
            Store.get k (guard_snap g) (store w') = Ok o.
Proof.
  intros Hr Hg Hs. pose proof (reachable_ok _ Hr) as Hok.
  destruct (steps_keeping_ok _ _ _ Hok Hg Hs) as (Hok' & _ & Hk).
  eexists. rewrite !get_ok by apply sys_store_ok, Hok || apply sys_store_ok, Hok'.
  split; [done|]. by rewrite Hk.
Qed.

(** garbage collection is invisible.  Vacuuming a reachable store to its
    own horizon succeeds, and every registered reader as well as every snapshot
    taken at that moment reads exactly what it read before. *)
Theorem vacuum_to_horizon_safe w s k :
  reachable w ->
  (exists g, g ∈ guards w /\ s = guard_snap g) \/
    (exists my, (my = INVALID_XID \/ status_log (reg (store w)) !! my = Some InProgress) /\
       Manager.snapshot (mgr (store w)) my = Ok s) ->
  exists σ' rep, Store.vacuum_to_horizon (store w) = (σ', Ok rep) /\
    mgr σ' = mgr (store w) /\ Store.get k s σ' = Store.get k s (store w).
Proof.
  intros Hr Hs. pose proof (reachable_ok _ Hr) as Hok.
  pose proof (sys_store_ok _ Hok) as Hst. destruct (Hst) as [Hm Hc W].
  destruct (Manager.gc_horizon (mgr (store w))) as [h|] eqn:Eh;
    [|by unfold Manager.gc_horizon in Eh; rewrite read_ok in Eh].
  assert (valid_snap s (reg (store w)) /\ h <= xmin s) as [Hv Hh].
  { destruct Hs as [(g & Hg & ->)|(my & Hmy & Hsn)].
    - split; [apply (sys_guards_valid _ Hok _ Hg)|by eapply horizon_le_guard].
    - unfold Manager.snapshot in Hsn. rewrite read_ok in Hsn by done. injection Hsn as <-.
      split; [|by apply gc_horizon_le_now]. exists (reg (store w)).
      split_and!; [done..|]. simpl. by rewrite elem_of_in_progress. }
  destruct (vacuum_ok h (store w) Hst) as (cs' & rep & Heq & Hk).
  exists (mkStore (mgr (store w)) (mkLock false cs')), rep. unfold Store.vacuum_to_horizon.
  rewrite Eh. split_and!; [done|done|]. rewrite !get_ok by done. f_equal.
  by eapply (vacuum_unseen h s (store w)) in Heq as (_ & _ & ->).
Qed.

(** a transaction reads its own writes.  After [put x k v], a snapshot taken
    for [x] at any moment reads [v] under [k], whatever the chain held. *)
Theorem read_your_writes x k v σ s :
  store_ok σ -> x <> INVALID_XID -> my_xid s = x ->
  exists σ', Store.put x k v σ = (σ', Ok tt) /\ Store.get k s σ' = Ok (Some v).
Proof.
  intros [Hm Hc W] Hx Hs. rewrite put_run by done. eexists. split; [done|].
  rewrite get_ok by done. f_equal. apply lookup_vis_newest. by apply sees_own.
Qed.

(** commit publishes.  When [x] puts [v] under [k] and commits, every
    snapshot taken right after the commit, by anyone, reads [v] under [k]. *)
Theorem commit_publishes x k v σ my :
  store_ok σ -> status_log (reg σ) !! x = Some InProgress ->
  exists σ1 σ2 s, Store.put x k v σ = (σ1, Ok tt) /\
    Store.on_manager (Manager.commit x) σ1 = (σ2, Ok tt) /\
    Manager.snapshot (mgr σ2) my = Ok s /\ Store.get k s σ2 = Ok (Some v).
Proof.
  intros [Hm Hc W] Hx. do 3 eexists. split; [by apply put_run|].
  unfold Store.on_manager, Manager.commit, Manager.finish. cbn [mgr chains].
  rewrite write_run, Hx by done. simpl. split; [done|]. split; [done|].
  assert (reg_wf (mkRegistry (next (reg σ)) (<[x := Committed]> (status_log (reg σ)))
                    (active_snaps (reg σ)))) as W' by by apply finish_wf.
  rewrite get_ok by done. f_equal. apply lookup_vis_newest.
  apply fresh_sees_committed; [done|]. apply lookup_insert_eq.
Qed.

(** abort erases.  When [x] puts a value and aborts, every snapshot of
    somebody else taken afterwards reads every key as if the put had never run:
    the tombstone [x] stamped on the previous version is ignored and that
    version is visible again. *)
Theorem abort_erases x k v σ σ1 σ2 σ2' s my k' :
  store_ok σ -> status_log (reg σ) !! x = Some InProgress -> my <> x ->
  Store.put x k v σ = (σ1, Ok tt) ->
  Store.on_manager (Manager.abort x) σ1 = (σ2, Ok tt) ->
  Store.on_manager (Manager.abort x) σ = (σ2', Ok tt) ->
  Manager.snapshot (mgr σ2) my = Ok s ->
  Store.get k' s σ2 = Store.get k' s σ2'.
Proof.
  intros [Hm Hc W] Hx Hmy. rewrite put_run by done. intros [= <-].
  unfold Store.on_manager, Manager.abort, Manager.finish. cbn [mgr chains].
  rewrite write_run, Hx by done. simpl. intros [= <-] [= <-] [= <-].
  assert (reg_wf (mkRegistry (next (reg σ)) (<[x := Aborted]> (status_log (reg σ)))
                    (active_snaps (reg σ)))) as W' by by apply finish_wf.
  rewrite !get_ok by done. f_equal. simpl. apply lookup_vis_insert. apply append_vis.
  apply unseen_unless_committed; [done|]. simpl. by rewrite lookup_insert_eq.
Qed.

(** first committer wins.  A checked write of [x] under snapshot [s] fails
    with [WriteConflict d] exactly when the transaction [d] that last touched
    the newest version of the key is somebody else, still running or
    committed outside [s]. *)
Theorem put_checked_conflict x s k v σ d :
  store_ok σ ->
  (Store.put_checked x s k v σ).2 = Err (WriteConflict d) <->
  exists head, last (default [] (cs σ !! k)) = Some head /\ Store.decider head = d /\
    d <> INVALID_XID /\ d <> x /\ sees s d (reg σ) = false /\
    (status_log (reg σ) !! d = Some InProgress \/ status_log (reg σ) !! d = Some Committed).
Proof.
  intros [Hm Hc W]. unfold Store.put_checked, Store.write. rewrite Hc.
  unfold Store.conflicting_writer.
  destruct (last (default [] (cs σ !! k))) as [head|]; [|naive_solver].
  set (e := Store.decider head). unfold INVALID_XID.
  destruct (e =? 0) eqn:E0; [simpl; split; [done|]; intros (? & [= <-] & <- & ? & _); lia|].
  destruct (e =? x) eqn:Ex; [simpl; split; [done|]; intros (? & [= <-] & <- & ? & ? & _); lia|].
  simpl. rewrite sees_effect_ok, status_ok by done. simpl.
  destruct (sees s e (reg σ)) eqn:Es.
  { simpl. split; [done|]. intros (? & [= <-] & <- & ? & ? & ? & _). unfold e in Es. congruence. }
  simpl. case_bool_decide as Ha; simpl.
  { split; [done|]. intros (? & [= <-] & <- & ? & ? & ? & [Hd|Hd]); fold e in Hd;
      rewrite Hd in Ha; done. }
  split.
  - intros [= <-]. exists head. split_and!; [done|done|lia|lia|done|].
    destruct (status_log (reg σ) !! e) as [[]|]; naive_solver.
  - intros (? & [= <-] & <- & _). done.
Qed.
End spec.

(** ** Concrete runs *)
Module Runs.
Abbreviation S := (VersionedStore Z Z).

Definition begin : S -> S := run_st (Store.on_manager Manager.begin).
Definition commit (x : Xid) : S -> S := run_st (Store.on_manager (Manager.commit x)).
Definition abort (x : Xid) : S -> S := run_st (Store.on_manager (Manager.abort x)).
Definition put (x : Xid) (k v : Z) : S -> S := run_st (Store.put x k v).
Definition put_checked (x : Xid) (s : Snapshot) (k v : Z) : S -> S :=
  run_st (Store.put_checked x s k v).
Definition delete (x : Xid) (k : Z) : S -> S := run_st (Store.delete x k).
Definition snap (my : Xid) (σ : S) : Snapshot := Manager.snapshot_locked (contents (mgr σ)) my.

(** Transaction 1 puts 10 under key 7 and commits; 2 begins. *)
Definition base : S := begin (commit 1 (put 1 7 10 (begin (Store.new Manager.new)))).

(** 3 overwrites with 30 and commits; 4 overwrites with 40 and aborts. *)
Definition hidden : S :=
  let σ := begin base in
  let σ := commit 3 (put_checked 3 (snap 3 σ) 7 30 σ) in
  let σ := begin σ in
  abort 4 (put_checked 4 (snap 4 σ) 7 40 σ).

(** 2 deletes key 7 and aborts; 3 begins. *)
Definition undeleted : S := begin (abort 2 (delete 2 7 base)).
End Runs.

(** An aborted head hides a committed update from the conflict check:
    transaction 2, whose snapshot predates the commit of 3, may overwrite the
    value 3 committed, although its snapshot does not see 3.  The update of 3 is
    lost. *)
Theorem lost_update_behind_abort :
  let s2 := Runs.snap 2 Runs.base in
  let r := Store.put_checked 2 s2 7 20 Runs.hidden in
  let σ := Runs.commit 2 r.1 in
  r.2 = Ok tt /\
  Snap.sees_effect s2 3 (mgr Runs.hidden) = Ok false /\
  Manager.status (mgr Runs.hidden) 3 = Ok Committed /\
  Store.get 7 s2 Runs.hidden = Ok (Some 10) /\
  Store.get 7 (Runs.snap 0 Runs.hidden) Runs.hidden = Ok (Some 30) /\
  Store.get 7 (Runs.snap 0 σ) σ = Ok (Some 20).
Proof. vm_compute. split_and!; reflexivity. Qed.

(** A committed delete behind an aborted one has no effect: the tombstone of
    the aborted transaction stays in place, no version is live, so [delete]
    reports that the key did not exist and the old value stays visible. *)
Theorem delete_after_aborted_delete :
  let r := Store.delete 3 7 Runs.undeleted in
  let σ := Runs.commit 3 r.1 in
  r.2 = Ok false /\
  Store.get 7 (Runs.snap 3 Runs.undeleted) Runs.undeleted = Ok (Some 10) /\
  Store.get 7 (Runs.snap 0 σ) σ = Ok (Some 10).
Proof. vm_compute. split_and!; reflexivity. Qed.

(** The serializable validation looks at the chain head only: with the aborted
    version of 4 on top, transaction 2, which read key 7 before 3 overwrote it,
    commits without a serialization failure. *)
Theorem stale_read_behind_abort :
  let s2 := Runs.snap 2 Runs.base in
  Store.get 7 s2 Runs.hidden = Ok (Some 10) /\
  Store.get 7 (Runs.snap 0 Runs.hidden) Runs.hidden = Ok (Some 30) /\
  (Store.commit_serializable 2 s2 {[ 7 ]} Runs.hidden).2 = Ok tt.
Proof. vm_compute. split_and!; reflexivity. Qed.

(** An error inside [vacuum] loses the chain under the cursor: with the
    manager's lock poisoned the committed value is gone once the lock is
    cleared. *)
Theorem vacuum_error_loses_chain :
  let σ := Runs.base in
  let bad := mkStore (mkLock true (contents (mgr σ))) (chains σ) in
  let '(σ', r) := Store.vacuum 2 bad in
  r = Err LockPoisoned /\
  Store.get 7 (Runs.snap 0 σ) σ = Ok (Some 10) /\
  Store.get 7 (Runs.snap 0 σ) (mkStore (mgr σ) (chains σ')) = Ok None.
Proof. vm_compute. split_and!; reflexivity. Qed.

(** ** Witnesses *)
Lemma base_ok : store_ok Runs.base.
Proof.
  split; [reflexivity|reflexivity|].
  assert (rtc mgr_step Manager.new (mgr Runs.base)) as Hs.
  { eapply rtc_l; [apply (step_begin _ (run_st Manager.begin Manager.new) 1); vm_compute; reflexivity|].
    eapply rtc_l; [apply (step_commit _ (run_st (Manager.commit 1) (run_st Manager.begin Manager.new)) 1);
      vm_compute; reflexivity|].
    eapply rtc_once. apply (step_begin _ _ 2). vm_compute. reflexivity. }
  apply (steps_preserve _ _ Hs new_wf).
Qed.

Definition w0 : Sys (K := Z) (V := Z) := init_sys.
Definition w1 : Sys (K := Z) (V := Z) := mkSys (Runs.begin (store w0)) [] [].
Definition w2 : Sys (K := Z) (V := Z) := mkSys (Runs.put 1 7 10 (store w1)) [] [].
Definition w3 : Sys (K := Z) (V := Z) := mkSys (Runs.commit 1 (store w2)) [] [].
Definition w4 : Sys (K := Z) (V := Z) := mkSys (Runs.begin (store w3)) [] [].

(** The collector reads the horizon while 2 is running; then a reader registers,
    2 overwrites and commits, and only then the sweep runs. *)
Definition w5 : Sys (K := Z) (V := Z) := mkSys (store w4) [] [2].
Definition g6 : SnapshotGuard := mkGuard (Runs.snap 0 (store w5)) 2.
Definition w6 : Sys (K := Z) (V := Z) :=
  mkSys (run_st (Store.on_manager (Manager.begin_snapshot 0)) (store w5)) [g6] [2].
Definition w7 : Sys (K := Z) (V := Z) := mkSys (Runs.put 2 7 20 (store w6)) [g6] [2].
Definition w8 : Sys (K := Z) (V := Z) := mkSys (Runs.commit 2 (store w7)) [g6] [2].
Definition w9 : Sys (K := Z) (V := Z) := mkSys (run_st (Store.vacuum 2) (store w8)) [g6] [].

Lemma w6_reachable : reachable w6.
Proof.
  apply (rtc_l _ _ w1); [apply (sys_begin _ _ _ 1); vm_compute; reflexivity|].
  apply (rtc_l _ _ w2);
    [apply (sys_put _ _ _ 1 7 10 (Ok tt)); [vm_compute; reflexivity|done|vm_compute; reflexivity]|].
  apply (rtc_l _ _ w3); [apply (sys_commit _ _ _ 1); vm_compute; reflexivity|].
  apply (rtc_l _ _ w4); [apply (sys_begin _ _ _ 2); vm_compute; reflexivity|].
  apply (rtc_l _ _ w5); [apply (sys_horizon _ _ 2); vm_compute; reflexivity|].
  apply rtc_once. apply (sys_register _ _ _ 0); [by left|vm_compute; reflexivity].
Qed.

Lemma w6_to_w9 : steps_keeping g6 w6 w9.
Proof.
  apply (rtc_l _ _ w7);
    [split; [apply (sys_put _ _ _ 2 7 20 (Ok tt)); [vm_compute; reflexivity|done|
                                                   vm_compute; reflexivity]|set_solver]|].
  apply (rtc_l _ _ w8); [split; [apply (sys_commit _ _ _ 2); vm_compute; reflexivity|set_solver]|].
  apply rtc_once. split; [|set_solver].
  apply (sys_vacuum _ _ _ 2 (Store.vacuum 2 (store w8)).2 _ _ []); [done|vm_compute; reflexivity].
Qed.

Lemma registered_reader_repeatable_witness :
  exists o, Store.get 7 (guard_snap g6) (store w6) = Ok o /\
            Store.get 7 (guard_snap g6) (store w9) = Ok o.
Proof.
  exact (registered_reader_repeatable w6 g6 w9 7 w6_reachable ltac:(by left) w6_to_w9).
Defined.

Lemma vacuum_to_horizon_safe_witness :
  exists σ' rep, Store.vacuum_to_horizon (store w6) = (σ', Ok rep) /\
    mgr σ' = mgr (store w6) /\
    Store.get 7 (guard_snap g6) σ' = Store.get 7 (guard_snap g6) (store w6).
Proof.
  apply (vacuum_to_horizon_safe w6 (guard_snap g6) 7 w6_reachable). left. exists g6.
  split; [by left|done].
Defined.

Lemma read_your_writes_witness :
  exists σ', Store.put 2 7 20 Runs.base = (σ', Ok tt) /\
    Store.get 7 (Runs.snap 2 Runs.base) σ' = Ok (Some 20).
Proof.
  exact (read_your_writes 2 7 20 Runs.base (Runs.snap 2 Runs.base) base_ok
           ltac:(discriminate) eq_refl).
Defined.

Lemma commit_publishes_witness :
  exists σ1 σ2 s, Store.put 2 7 20 Runs.base = (σ1, Ok tt) /\
    Store.on_manager (Manager.commit 2) σ1 = (σ2, Ok tt) /\
    Manager.snapshot (mgr σ2) 0 = Ok s /\ Store.get 7 s σ2 = Ok (Some 20).
Proof. apply (commit_publishes 2 7 20 Runs.base 0 base_ok). vm_compute. reflexivity. Defined.

Lemma abort_erases_witness :
  let σ2 := Runs.abort 2 (Runs.put 2 7 20 Runs.base) in
  let σ2' := Runs.abort 2 Runs.base in
  Store.get 7 (Runs.snap 0 σ2) σ2 = Store.get 7 (Runs.snap 0 σ2) σ2'.
Proof.
  intros σ2 σ2'.
  apply (abort_erases 2 7 20 Runs.base (Runs.put 2 7 20 Runs.base) σ2 σ2' _ 0 7 base_ok);
    [vm_compute; reflexivity|discriminate|vm_compute; reflexivity..].
Defined.

Definition contended : VersionedStore Z Z := Runs.put 3 7 30 (Runs.begin Runs.base).

Lemma contended_ok : store_ok contended.
Proof. split; [reflexivity|reflexivity|]. exact (begin_wf _ (ok_reg _ base_ok)). Qed.

Lemma put_checked_conflict_witness :
  (Store.put_checked 2 (Runs.snap 2 Runs.base) 7 20 contended).2 = Err (WriteConflict 3).
Proof.
  apply (put_checked_conflict 2 (Runs.snap 2 Runs.base) 7 20 contended 3 contended_ok).
  exists (Ver.new 3 30). split_and!; [vm_compute; reflexivity..|discriminate|discriminate|
    vm_compute; reflexivity|left; vm_compute; reflexivity].
Defined.
