(* ===== verification/MvccIsolation.v ===== *)
(** * Isolation levels, retry loops and the collector thread
    ([src/src/mvcc/isolation.rs], [src/src/mvcc/occ.rs], [src/src/mvcc/gc.rs])

    A [Transaction] handle applies the snapshot policy of its level on top of
    the store of [MvccStore].  The two retry loops run a caller's closure at
    most [max_retries + 1] times; a closure is a state transformer over its own
    captured state [Env] and the shared store, so whatever other threads do
    between its statements is part of it. *)
From S2P Require Import Prelude MvccTransaction MvccStore.
Local Open Scope Z_scope.

Inductive IsolationLevel : Type := ReadCommitted | SnapshotIsolation | Serializable.

Module Level.
Definition refreshes_snapshot_per_statement (l : IsolationLevel) : bool :=
  match l with ReadCommitted => true | _ => false end.
Definition validates_read_set (l : IsolationLevel) : bool :=
  match l with Serializable => true | _ => false end.
End Level.

Record Transaction (K : Type) `{Countable K} : Type := mkTx {
  tx_xid : Xid;
  tx_level : IsolationLevel;
  tx_snapshot : Snapshot;
  tx_reads : gset K;
  tx_done : bool;
}.
Arguments mkTx {K _ _} _ _ _ _ _.
Arguments tx_xid {K _ _} _.
Arguments tx_level {K _ _} _.
Arguments tx_snapshot {K _ _} _.
Arguments tx_reads {K _ _} _.
Arguments tx_done {K _ _} _.

(** The conflicts both retry loops retry on. *)
Definition retryable (e : MvccError) : bool :=
  match e with WriteConflict _ | SerializationFailure _ => true | _ => false end.

Module Tx.
Section tx.
Context {K V : Type} `{Countable K}.
Abbreviation VStore := (VersionedStore K V).
Abbreviation Txn := (Transaction K).

Definition begin_transaction (level : IsolationLevel) : ST VStore MvccError Txn := fun σ =>
  match Store.on_manager Manager.begin σ with
  | (σ, Err e) => (σ, Err e)
  | (σ, Ok xid) =>
      match Manager.snapshot (mgr σ) xid with
      | Err e => (σ, Err e)
      | Ok s => (σ, Ok (mkTx xid level s ∅ false))
      end
  end.

(** Statements run on the store and the handle ([&mut self]). *)
Definition before_statement : ST (VStore * Txn) MvccError unit := fun '(σ, tx) =>
  if Level.refreshes_snapshot_per_statement (tx_level tx) then
    match Manager.snapshot (mgr σ) (tx_xid tx) with
    | Err e => ((σ, tx), Err e)
    | Ok s => ((σ, mkTx (tx_xid tx) (tx_level tx) s (tx_reads tx) (tx_done tx)), Ok tt)
    end
  else ((σ, tx), Ok tt).

Definition get (key : K) : ST (VStore * Txn) MvccError (option V) :=
  let! _ := before_statement in
  fun '(σ, tx) =>
    let tx := if Level.validates_read_set (tx_level tx)
              then mkTx (tx_xid tx) (tx_level tx) (tx_snapshot tx)
                     ({[ key ]} ∪ tx_reads tx) (tx_done tx)
              else tx in
    ((σ, tx), Store.get key (tx_snapshot tx) σ).

Definition put (key : K) (value : V) : ST (VStore * Txn) MvccError unit :=
  let! _ := before_statement in
  fun '(σ, tx) =>
    let '(σ', r) := Store.put_checked (tx_xid tx) (tx_snapshot tx) key value σ in ((σ', tx), r).

Definition delete (key : K) : ST (VStore * Txn) MvccError bool :=
  let! _ := before_statement in
  fun '(σ, tx) =>
    let '(σ', r) := Store.delete_checked (tx_xid tx) (tx_snapshot tx) key σ in ((σ', tx), r).

(** [commit] and [abort] consume the handle. *)
Definition commit (tx : Txn) : ST VStore MvccError unit :=
  if Level.validates_read_set (tx_level tx)
  then Store.commit_serializable (tx_xid tx) (tx_snapshot tx) (tx_reads tx)
  else Store.on_manager (Manager.commit (tx_xid tx)).

Definition abort (tx : Txn) : ST VStore MvccError unit :=
  Store.on_manager (Manager.abort (tx_xid tx)).

(** [Drop for Transaction]. *)
Definition drop_tx (tx : Txn) (σ : VStore) : VStore :=
  if tx_done tx then σ else (Store.on_manager (Manager.abort (tx_xid tx)) σ).1.

Section run.
Context {Env T : Type}.
Variable level : IsolationLevel.
Variable max_retries : nat.
(** [body : FnMut(&mut Transaction) -> Result<T>]. *)
Variable body : ST (Env * VStore * Txn) MvccError T.

(** One pass of the loop of [run_transaction]; [and_then] consumes the handle in
    [commit] or drops it. *)
Definition attempt (ev : Env) (σ : VStore) (tx : Txn) : Env * VStore * result MvccError T :=
  match body (ev, σ, tx) with
  | ((ev, σ, tx), Ok value) =>
      let '(σ, r) := commit tx σ in
      (ev, σ, match r with Ok _ => Ok value | Err e => Err e end)
  | ((ev, σ, tx), Err e) => (ev, drop_tx tx σ, Err e)
  end.

Fixpoint transaction_loop (fuel : nat) (attempts : nat) (ev : Env) (σ : VStore) :
    option (Env * VStore * result MvccError T) :=
  match fuel with
  | O => None
  | S fuel =>
      let attempts := S attempts in
      match begin_transaction level σ with
      | (σ, Err e) => Some (ev, σ, Err e)
      | (σ, Ok tx) =>
          let '(ev, σ, outcome) := attempt ev σ tx in
          match outcome with
          | Ok value => Some (ev, σ, Ok value)
          | Err e =>
              if retryable e then
                if (max_retries <? attempts)%nat then Some (ev, σ, Err (RetriesExhausted attempts))
                else transaction_loop fuel attempts ev σ
              else Some (ev, σ, Err e)
          end
      end
  end.

(** [max_retries + 1] passes are enough: see [run_transaction_terminates]. *)
Definition run_transaction (ev : Env) (σ : VStore) :
    option (Env * VStore * result MvccError T) :=
  transaction_loop (S max_retries) 0 ev σ.
End run.
End tx.
End Tx.

Module Occ.
Section occ.
Context {Env T : Type}.
Variable max_retries : nat.
(** [body : FnMut(Xid, &Snapshot) -> Result<T>]; what it captures, the stores of
    this manager included, is [Env]. *)
Variable body : Xid -> Snapshot -> ST (Env * TransactionManager) MvccError T.

Fixpoint retry_loop (fuel : nat) (attempts : nat) (ev : Env) (m : TransactionManager) :
    option (Env * TransactionManager * result MvccError T) :=
  match fuel with
  | O => None
  | S fuel =>
      let attempts := S attempts in
      match Manager.begin m with
      | (m, Err e) => Some (ev, m, Err e)
      | (m, Ok xid) =>
          match Manager.snapshot m xid with
          | Err e => Some (ev, m, Err e)
          | Ok s =>
              match body xid s (ev, m) with
              | ((ev, m), Ok value) =>
                  let '(m, r) := Manager.commit xid m in
                  Some (ev, m, match r with Ok _ => Ok value | Err e => Err e end)
              | ((ev, m), Err e) =>
                  let '(m, r) := Manager.abort xid m in
                  if retryable e then
                    match r with
                    | Err e' => Some (ev, m, Err e')
                    | Ok _ =>
                        if (max_retries <? attempts)%nat
                        then Some (ev, m, Err (RetriesExhausted attempts))
                        else retry_loop fuel attempts ev m
                    end
                  else Some (ev, m, Err e)
              end
          end
      end
  end.

Definition run_with_retry (ev : Env) (m : TransactionManager) :
    option (Env * TransactionManager * result MvccError T) :=
  retry_loop (S max_retries) 0 ev m.
End occ.
End Occ.

(** The collector thread: its counters, and its loop over the outcomes of the
    interval wait ([None]: the control mutex is poisoned; [Some stop]: the flag
    found on waking). *)
Record GcShared : Type := mkGc { reclaimed_total : Z; cycles : Z }.

Module Gc.
Section gc.
Context {K V : Type} `{Countable K}.

Definition cycle (sh : GcShared) (σ : VersionedStore K V) : GcShared * VersionedStore K V :=
  match Store.vacuum_to_horizon σ with
  | (σ, Ok report) =>
      (mkGc ((reclaimed_total sh + Z.of_nat (reclaimed_versions report)) mod 2 ^ 64)
            ((cycles sh + 1) mod 2 ^ 64), σ)
  | (σ, Err _) => (sh, σ)
  end.

Fixpoint run (wakes : list (option bool)) (sh : GcShared) (σ : VersionedStore K V) :
    GcShared * VersionedStore K V :=
  match wakes with
  | Some false :: wakes => let '(sh, σ) := cycle sh σ in run wakes sh σ
  | _ => (sh, σ)
  end.
End gc.
End Gc.

(** ** Lemmas *)
Lemma begin_finish_open m m1 m2 x to : reg_wf (contents m) -> to <> InProgress ->
  Manager.begin m = (m1, Ok x) -> Manager.finish x to m1 = (m2, Ok tt) ->
  Manager.in_progress (contents m2) = Manager.in_progress (contents m).
Proof.
  intros W Hto (_ & _ & -> & Hc)%begin_inv (_ & _ & _ & Hc')%finish_inv.
  apply set_eq. intros y. rewrite !elem_of_in_progress, Hc', Hc. simpl.
  rewrite insert_insert_eq, lookup_insert. case_decide as Hy; [|done]. subst y.
  split; [naive_solver|]. intros Hn. exfalso.
  assert (is_Some (status_log (contents m) !! next (contents m))) as Hs by eauto.
  apply (wf_log _ W) in Hs. lia.
Qed.

Lemma begin_run m : poisoned m = false ->
  Manager.begin m =
    (mkLock false (mkRegistry (next (contents m) + 1)
       (<[next (contents m) := InProgress]> (status_log (contents m)))
       (active_snaps (contents m))), Ok (next (contents m))).
Proof. intros Hp. unfold Manager.begin. by rewrite write_run. Qed.

Lemma finish_run m x to : poisoned m = false -> status_log (contents m) !! x = Some InProgress ->
  Manager.finish x to m =
    (mkLock false (mkRegistry (next (contents m)) (<[x := to]> (status_log (contents m)))
       (active_snaps (contents m))), Ok tt).
Proof. intros Hp Hx. unfold Manager.finish. by rewrite write_run, Hx. Qed.

Section isolation.
Context {K V : Type} `{Countable K}.
Abbreviation VStore := (VersionedStore K V).
Abbreviation Txn := (Transaction K).
Abbreviation reg σ := (contents (mgr σ)).
Abbreviation cs σ := (contents (chains σ)).
Implicit Types (σ : VStore) (tx : Txn) (k : K).

Lemma begin_transaction_run level σ : poisoned (mgr σ) = false ->
  exists m1, Manager.begin (mgr σ) = (m1, Ok (next (reg σ))) /\
    Tx.begin_transaction level σ =
      (mkStore m1 (chains σ),
       Ok (mkTx (next (reg σ)) level
             (Manager.snapshot_locked (contents m1) (next (reg σ))) ∅ false)).
Proof.
  intros Hp. eexists. split; [by apply begin_run|].
  unfold Tx.begin_transaction, Store.on_manager. by rewrite begin_run.
Qed.

(** The head test of the serializable validation. *)
Definition stale_head (s : Snapshot) (r : Registry) (x : Xid) (chain : list (Version V)) :
    option Xid :=
  head ← last chain;
  let d := Store.decider head in
  if decide (d <> x /\ sees s d r = false /\ status_log r !! d = Some Committed)
  then Some d else None.

Lemma read_conflict_ok m chain x s : poisoned m = false -> reg_wf (contents m) ->
  Store.read_conflict m chain x s = Ok (stale_head s (contents m) x chain).
Proof.
  intros Hp W. unfold Store.read_conflict, stale_head.
  destruct (last chain) as [head|]; [|done]. simpl. set (d := Store.decider head).
  rewrite sees_effect_ok, status_ok by done. simpl.
  destruct (d =? INVALID_XID) eqn:E0.
  { simpl. case_decide as Hd; [|done]. destruct Hd as (_ & _ & Hd).
    assert (is_Some (status_log (contents m) !! d)) as Hs by eauto.
    apply (wf_log _ W) in Hs. unfold INVALID_XID in E0. lia. }
  destruct (d =? x) eqn:Ex; simpl; [case_decide; [lia|done]|].
  destruct (sees s d (contents m)); [by case_decide; [naive_solver|]|].
  case_bool_decide as Hc; case_decide as Hd; try done; exfalso.
  - apply Hd. split_and!; [lia|done|]. by destruct (status_log _ !! d) as [[]|].
  - destruct Hd as (_ & _ & Hd). by rewrite Hd in Hc.
Qed.

(** The first conflict of the read set, in iteration order. *)
Definition stale_read (s : Snapshot) (σ : VStore) (x : Xid) (k : K) : option Xid :=
  chain ← cs σ !! k; stale_head s (reg σ) x chain.

Lemma find_read_conflict_ok σ x s reads : store_ok σ ->
  Store.find_read_conflict (mgr σ) (cs σ) x s reads = Ok (head (omap (stale_read s σ x) reads)).
Proof.
  intros [Hm Hc W]. induction reads as [|k reads IH]; [done|]. simpl. unfold stale_read at 1.
  destruct (cs σ !! k) as [chain|]; simpl; [|done].
  rewrite read_conflict_ok by done. simpl. by destruct (stale_head _ _ _ chain).
Qed.

Lemma head_omap_None {A B} (f : A -> option B) (l : list A) :
  head (omap f l) = None <-> forall a, a ∈ l -> f a = None.
Proof.
  induction l as [|a l IH]; simpl; [split; [intros _ a Ha; by apply not_elem_of_nil in Ha|done]|].
  destruct (f a) as [b|] eqn:E; simpl.
  - split; [done|]. intros Hall. specialize (Hall a ltac:(by left)). congruence.
  - rewrite IH. split.
    + intros Hall a' [->|Ha']%elem_of_cons; auto.
    + intros Hall a' Ha'. apply Hall. by right.
Qed.

Lemma head_omap_Some {A B} (f : A -> option B) (l : list A) b :
  head (omap f l) = Some b -> exists a, a ∈ l /\ f a = Some b.
Proof.
  induction l as [|a l IH]; simpl; [done|]. destruct (f a) as [b'|] eqn:E; simpl.
  - intros [= ->]. exists a. split; [by left|done].
  - intros (a' & ? & ?)%IH. exists a'. split; [by right|done].
Qed.

(** Statements of a handle leave the manager and the handle's identity alone. *)
Definition statement_frame {A} (c : ST (VStore * Txn) MvccError A) : Prop :=
  forall σ tx, let '(σ', tx') := (c (σ, tx)).1 in
    frame σ σ' /\ tx_xid tx' = tx_xid tx /\ tx_level tx' = tx_level tx /\
    tx_done tx' = tx_done tx /\
    (tx_level tx <> ReadCommitted -> tx_snapshot tx' = tx_snapshot tx).

Lemma before_statement_frame : statement_frame Tx.before_statement.
Proof.
  intros σ tx. unfold Tx.before_statement, frame.
  destruct (tx_level tx) eqn:E; simpl; try by rewrite E; auto.
  destruct (Manager.snapshot _ _); simpl; by auto.
Qed.

Lemma bind_frame {A} (c : ST (VStore * Txn) MvccError A) :
  statement_frame c -> statement_frame (let! _ := Tx.before_statement in c).
Proof.
  intros Hc σ tx. unfold st_bind. pose proof (before_statement_frame σ tx) as Hb.
  destruct (Tx.before_statement (σ, tx)) as [[σ1 tx1] [a|e]]; simpl in *; [|done].
  destruct Hb as ((B1 & B2) & B3 & B4 & B5 & B6).
  specialize (Hc σ1 tx1). destruct (c (σ1, tx1)) as [[σ2 tx2] r]. simpl in *.
  destruct Hc as ((C1 & C2) & C3 & C4 & C5 & C6). unfold frame.
  split_and!; try congruence. intros Hl. rewrite C6, B6; congruence.
Qed.

Lemma get_frame k : statement_frame (Tx.get k).
Proof.
  apply bind_frame. intros σ tx. unfold frame. simpl.
  by destruct (Level.validates_read_set (tx_level tx)).
Qed.

Lemma put_frame k v : statement_frame (Tx.put k v).
Proof.
  apply bind_frame. intros σ tx. destruct (Store.put_checked _ _ _ _ σ) as [σ' r] eqn:E. simpl.
  apply write_frame in E. auto.
Qed.

Lemma delete_frame k : statement_frame (Tx.delete k).
Proof.
  apply bind_frame. intros σ tx. destruct (Store.delete_checked _ _ _ σ) as [σ' r] eqn:E. simpl.
  apply write_frame in E. auto.
Qed.

Lemma finish_store_ok σ x to m' : store_ok σ -> Manager.finish x to (mgr σ) = (m', Ok tt) ->
  store_ok (mkStore m' (chains σ)).
Proof.
  intros [Hm Hc W] (_ & Hp & Hx & Hr)%finish_inv. split; simpl; [done|done|]. rewrite Hr.
  by apply finish_wf.
Qed.

(** Committing an open transaction finishes it, one way or the other. *)
Lemma commit_finishes tx σ : store_ok σ ->
  status_log (reg σ) !! tx_xid tx = Some InProgress ->
  exists m' to, Manager.finish (tx_xid tx) to (mgr σ) = (m', Ok tt) /\ to <> InProgress /\
    (Tx.commit tx σ).1 = mkStore m' (chains σ) /\
    ((to = Committed /\ (Tx.commit tx σ).2 = Ok tt) \/
     (to = Aborted /\ exists w, (Tx.commit tx σ).2 = Err (SerializationFailure w))).
Proof.
  intros Hok Hx. destruct (Hok) as [Hm Hc W]. unfold Tx.commit, Store.commit_serializable.
  assert (Store.read σ = Ok (cs σ)) as Hr by (unfold Store.read; by rewrite Hc).
  destruct (Level.validates_read_set (tx_level tx)).
  - rewrite Hr, find_read_conflict_ok by done. destruct (head _) as [w|].
    + eexists _, Aborted. split; [by apply finish_run|]. unfold Store.on_manager, Manager.abort.
      rewrite finish_run by done. split_and!; [done|done|]. right. eauto.
    + eexists _, Committed. split; [by apply finish_run|]. unfold Store.on_manager, Manager.commit.
      rewrite finish_run by done. split_and!; [done|done|]. by left.
  - eexists _, Committed. split; [by apply finish_run|]. unfold Store.on_manager, Manager.commit.
    rewrite finish_run by done. split_and!; [done|done|]. by left.
Qed.

Section loops.
Context {Env T : Type}.
Variable level : IsolationLevel.
Variable max_retries : nat.
Variable body : ST (Env * VStore * Txn) MvccError T.

(** The closure reads and writes through the handle: it leaves the manager and
    the handle's private fields alone and poisons nothing.  [get_frame],
    [put_frame] and [delete_frame] say that the statements do so. *)
Definition body_through_handle : Prop := forall ev σ tx,
  let '(_, σ', tx') := (body (ev, σ, tx)).1 in
  frame σ σ' /\ tx_xid tx' = tx_xid tx /\ tx_done tx' = tx_done tx.

Lemma attempt_closes ev σ : body_through_handle -> store_ok σ ->
  exists σ1 tx, Tx.begin_transaction level σ = (σ1, Ok tx) /\
    tx_xid tx = next (reg σ) /\
    let '(ev', σ', r) := Tx.attempt body ev σ1 tx in
    store_ok σ' /\ next (reg σ) < next (reg σ') /\
    Manager.in_progress (reg σ') = Manager.in_progress (reg σ) /\
    status_log (reg σ') !! tx_xid tx = Some (if is_ok r then Committed else Aborted).
Proof.
  intros Hb Hok. destruct (Hok) as [Hm Hc W].
  destruct (begin_transaction_run level σ Hm) as (m1 & Hbeg & ->).
  do 2 eexists. split; [done|]. split; [done|].
  set (σ1 := mkStore m1 (chains σ)). set (tx := mkTx _ _ _ _ _).
  pose proof (begin_inv _ _ _ Hbeg) as (_ & Hp1 & _ & Hr1).
  assert (reg_wf (contents m1)) as W1 by (rewrite Hr1; by apply begin_wf).
  specialize (Hb ev σ1 tx). destruct (body (ev, σ1, tx)) as [[[ev2 σ2] tx2] o] eqn:Ebody.
  simpl in Hb.
  destruct Hb as ([Hm2 Hc2] & Hx2 & Hd2). simpl in Hm2, Hc2.
  assert (store_ok σ2) as Hok2 by (split; [by rewrite Hm2|by rewrite Hc2|by rewrite Hm2]).
  assert (status_log (reg σ2) !! tx_xid tx2 = Some InProgress) as Hopen.
  { rewrite Hm2, Hx2, Hr1. apply lookup_insert_eq. }
  assert (exists m' to σ' r, Manager.finish (tx_xid tx2) to (mgr σ2) = (m', Ok tt) /\
    to = (if is_ok r then Committed else Aborted) /\ σ' = mkStore m' (chains σ2) /\
    Tx.attempt body ev σ1 tx = (ev2, σ', r)) as (m' & to & σ' & r & Hfin & Hto & Hσ' & Heq).
  { unfold Tx.attempt. rewrite Ebody. destruct o as [v|e].
    - destruct (commit_finishes tx2 σ2 Hok2 Hopen) as (m' & to & Hfin & _ & H1 & H2).
      destruct (Tx.commit tx2 σ2) as [σ' r']. simpl in *. subst σ'.
      exists m', to, (mkStore m' (chains σ2)).
      destruct H2 as [[-> ->]|(-> & w & ->)];
        [exists (Ok v)|exists (Err (SerializationFailure w))]; by split_and!.
    - eexists _, Aborted, _, (Err e). split; [apply finish_run; [apply Hok2|done]|]. unfold Tx.drop_tx. rewrite Hd2. simpl.
      unfold Store.on_manager, Manager.abort. rewrite finish_run by (apply Hok2 || done). done. }
  rewrite Heq, Hm2, Hx2 in *. pose proof (finish_inv _ _ _ _ Hfin) as (_ & _ & _ & Hr').
  split; [subst σ'; eapply (finish_store_ok σ2); [done|by rewrite Hm2]|]. subst σ'. simpl. split_and!.
  - rewrite Hr', Hr1. simpl. lia.
  - eapply begin_finish_open; [done| |done|done]. by destruct (is_ok r); subst to.
  - rewrite Hr', <- Hto. apply lookup_insert_eq.
Qed.

Lemma transaction_loop_closes fuel n ev σ ev' σ' r : body_through_handle -> store_ok σ ->
  Tx.transaction_loop level max_retries body fuel n ev σ = Some (ev', σ', r) ->
  store_ok σ' /\ Manager.in_progress (reg σ') = Manager.in_progress (reg σ) /\
  (is_ok r = true -> exists x, next (reg σ) <= x /\ status_log (reg σ') !! x = Some Committed).
Proof.
  intros Hb. revert n ev σ. induction fuel as [|fuel IH]; intros n ev σ Hok; [done|]. simpl.
  destruct (attempt_closes ev σ Hb Hok) as (σ1 & tx & -> & Hx & Ha).
  destruct (Tx.attempt body ev σ1 tx) as [[ev2 σ2] o].
  destruct Ha as (Hok2 & Hn & Hopen & Hst).
  destruct o as [v|e]; simpl in Hst.
  { intros [= <- <- <-]. split_and!; [done..|]. intros _. exists (tx_xid tx). split; [lia|done]. }
  destruct (retryable e); [destruct (max_retries <? S n)%nat|].
  - intros [= <- <- <-]. by split_and!.
  - intros Hl. destruct (IH _ _ _ Hok2 Hl) as (? & Hop & Hcom). split_and!; [done|congruence|].
    intros Hr. destruct (Hcom Hr) as (x & ? & ?). exists x. split; [lia|done].
  - intros [= <- <- <-]. by split_and!.
Qed.

Lemma transaction_loop_fuel fuel n ev σ : (max_retries < n + fuel)%nat -> (0 < fuel)%nat ->
  is_Some (Tx.transaction_loop level max_retries body fuel n ev σ).
Proof.
  revert n ev σ. induction fuel as [|fuel IH]; intros n ev σ Hf Hp; [lia|]. simpl.
  destruct (Tx.begin_transaction level σ) as [σ1 [tx|e]]; [|eauto].
  destruct (Tx.attempt body ev σ1 tx) as [[ev2 σ2] [v|e]]; [eauto|].
  destruct (retryable e); [|eauto].
  destruct (max_retries <? S n)%nat eqn:E; [eauto|]. apply Nat.ltb_ge in E.
  apply IH; lia.
Qed.
End loops.

(** Counting the calls of a closure. *)
Definition counting {Env T} (body : ST (Env * VStore * Txn) MvccError T) :
    ST ((Env * nat) * VStore * Txn) MvccError T := fun '(ev, n, σ, tx) =>
  let '(ev', σ', tx', r) := body (ev, σ, tx) in ((ev', S n, σ', tx'), r).

Lemma transaction_loop_calls {Env T} level max_retries
    (body : ST (Env * VStore * Txn) MvccError T) fuel n ev c σ ev' c' σ' r :
  Tx.transaction_loop level max_retries (counting body) fuel n (ev, c) σ =
    Some ((ev', c'), σ', r) ->
  (c' <= c + (S max_retries - n))%nat \/ (max_retries < n)%nat /\ (c' <= S c)%nat.
Proof.
  revert n ev c σ. induction fuel as [|fuel IH]; intros n ev c σ; [done|]. simpl.
  destruct (Tx.begin_transaction level σ) as [σ1 [tx|e]]; [|intros [= <- <- <- <-]; lia].
  unfold Tx.attempt, counting at 1. destruct (body (ev, σ1, tx)) as [[[ev2 σ2] tx2] o].
  destruct o as [v|e].
  - destruct (Tx.commit tx2 σ2) as [σ3 [u|e]]; [intros [= <- <- <- <-]; lia|].
    destruct (retryable e); [|intros [= <- <- <- <-]; lia].
    destruct (max_retries <? S n)%nat eqn:E; [intros [= <- <- <- <-]; lia|].
    apply Nat.ltb_ge in E. intros Hl%IH. lia.
  - destruct (retryable e); [|intros [= <- <- <- <-]; lia].
    destruct (max_retries <? S n)%nat eqn:E; [intros [= <- <- <- <-]; lia|].
    apply Nat.ltb_ge in E. intros Hl%IH. lia.
Qed.
End isolation.

Section occ_lemmas.
Context {Env T : Type}.
Variable max_retries : nat.
Variable body : Xid -> Snapshot -> ST (Env * TransactionManager) MvccError T.

(** The closure reads and writes stores; the manager it leaves alone. *)
Definition body_leaves_manager : Prop := forall x s ev m, (body x s (ev, m)).1.2 = m.

Lemma retry_loop_closes fuel n ev m : body_leaves_manager ->
  poisoned m = false -> reg_wf (contents m) -> (max_retries < n + fuel)%nat -> (0 < fuel)%nat ->
  exists ev' m' r, Occ.retry_loop max_retries body fuel n ev m = Some (ev', m', r) /\
    Manager.in_progress (contents m') = Manager.in_progress (contents m) /\
    (is_ok r = true -> exists x, next (contents m) <= x /\
                                 status_log (contents m') !! x = Some Committed).
Proof.
  intros Hb. revert n ev m. induction fuel as [|fuel IH]; intros n ev m Hp W Hf H0; [lia|].
  cbn [Occ.retry_loop]. pose proof (begin_run m Hp) as Hbeg.
  set (m1 := mkLock _ _) in Hbeg. rewrite Hbeg. lazy beta iota zeta.
  unfold Manager.snapshot. rewrite read_ok by done. simpl mbind. lazy beta iota zeta.
  match goal with |- context [body ?x ?s ?st] => pose proof (Hb x s ev m1) as Hm2;
    change (body x s st) with (body x s (ev, m1));
    destruct (body x s (ev, m1)) as [[ev2 m2] o] end.
  simpl in Hm2. subst m2.
  assert (reg_wf (contents m1)) as W1 by by apply begin_wf.
  assert (status_log (contents m1) !! next (contents m) = Some InProgress) as Hopen
    by apply lookup_insert_eq.
  pose proof (fun to => finish_run m1 (next (contents m)) to eq_refl Hopen) as Hfin.
  unfold Manager.commit, Manager.abort. destruct o as [v|e]; lazy beta iota zeta; rewrite Hfin.
  - do 3 eexists. split; [done|]. split.
    + eapply begin_finish_open; [done| |done|apply Hfin]. done.
    + intros _. exists (next (contents m)). split; [lia|]. apply lookup_insert_eq.
  - pose proof (begin_finish_open m m1 _ _ Aborted W ltac:(done) Hbeg (Hfin Aborted)) as Hop.
    destruct (retryable e); [|by do 3 eexists; split_and!].
    destruct (max_retries <? S n)%nat eqn:E; [by do 3 eexists; split_and!|].
    apply Nat.ltb_ge in E.
    pose proof (finish_wf _ _ Aborted W1 Hopen) as W2.
    set (m2 := mkLock false _) in Hop |- *.
    destruct (IH (S n) ev2 m2 eq_refl W2) as (ev' & m' & r & Heq & Hin & Hcom); [lia..|].
    do 3 eexists. split; [exact Heq|]. split; [congruence|]. intros Hr.
    destruct (Hcom Hr) as (x & Hx & ?). exists x. split; [|done]. simpl in Hx. lia.
Qed.
End occ_lemmas.

(** ** Theorems *)
Section theorems.
Context {K V : Type} `{Countable K}.
Abbreviation VStore := (VersionedStore K V).
Abbreviation Txn := (Transaction K).
Abbreviation reg σ := (contents (mgr σ)).

(** [run_transaction] always returns, whatever the closure does, and calls
    the closure at most [max_retries + 1] times. *)
Theorem run_transaction_terminates {Env T} level max_retries
    (body : ST (Env * VStore * Txn) MvccError T) ev (σ : VStore) :
  exists ev' calls σ' r,
    Tx.run_transaction level max_retries (counting body) (ev, 0%nat) σ =
      Some (ev', calls, σ', r) /\
    (calls <= S max_retries)%nat.
Proof.
  destruct (transaction_loop_fuel level max_retries (counting body) (S max_retries) 0 (ev, 0%nat) σ)
    as [[[[ev' c'] σ'] r] Hl]; [lia..|].
  exists ev', c', σ', r. split; [exact Hl|].
  apply transaction_loop_calls in Hl. lia.
Qed.

(** [run_transaction] leaves nothing in progress.  When the closure works
    through its handle, the loop returns with exactly the transactions in
    progress that were in progress before: every attempt was committed or
    aborted, the failed ones included; and an [Ok] result means that one
    attempt of the loop has committed. *)
Theorem run_transaction_closes {Env T} level max_retries
    (body : ST (Env * VStore * Txn) MvccError T) ev (σ : VStore) :
  body_through_handle body -> store_ok σ ->
  exists ev' σ' r, Tx.run_transaction level max_retries body ev σ = Some (ev', σ', r) /\
    store_ok σ' /\ Manager.in_progress (reg σ') = Manager.in_progress (reg σ) /\
    (is_ok r = true -> exists x, next (reg σ) <= x /\ status_log (reg σ') !! x = Some Committed).
Proof.
  intros Hb Hok.
  destruct (transaction_loop_fuel level max_retries body (S max_retries) 0 ev σ)
    as [[[ev' σ'] r] Hl]; [lia..|].
  exists ev', σ', r. split; [exact Hl|]. by eapply transaction_loop_closes in Hl.
Qed.

(** [run_with_retry] returns and leaves nothing in progress, for a closure
    that does not finish transactions itself. *)
Theorem run_with_retry_closes {Env T} max_retries
    (body : Xid -> Snapshot -> ST (Env * TransactionManager) MvccError T) ev m :
  body_leaves_manager body -> poisoned m = false -> reg_wf (contents m) ->
  exists ev' m' r, Occ.run_with_retry max_retries body ev m = Some (ev', m', r) /\
    Manager.in_progress (contents m') = Manager.in_progress (contents m) /\
    (is_ok r = true -> exists x, next (contents m) <= x /\
                                 status_log (contents m') !! x = Some Committed).
Proof. intros Hb Hp W. apply retry_loop_closes; [done..|lia|lia]. Qed.

(** the serializable commit is decided by the heads of the read keys.  A
    serializable handle of an open transaction commits iff no key it read has a
    newest version last touched by another transaction that committed outside
    its snapshot; otherwise it reports one such transaction and its own
    transaction is aborted.  Either way it is finished. *)
Theorem serializable_commit_decision (tx : Txn) (σ : VStore) :
  store_ok σ -> tx_level tx = Serializable ->
  status_log (reg σ) !! tx_xid tx = Some InProgress ->
  let '(σ', r) := Tx.commit tx σ in
  (r = Ok tt /\ status_log (reg σ') !! tx_xid tx = Some Committed /\
   forall k, k ∈ tx_reads tx -> stale_read (tx_snapshot tx) σ (tx_xid tx) k = None) \/
  (exists w k, r = Err (SerializationFailure w) /\
   status_log (reg σ') !! tx_xid tx = Some Aborted /\
   k ∈ tx_reads tx /\ stale_read (tx_snapshot tx) σ (tx_xid tx) k = Some w).
Proof.
  intros Hok Hl Hx. destruct (Hok) as [Hm Hc W]. unfold Tx.commit. rewrite Hl. simpl.
  unfold Store.commit_serializable, Store.read. rewrite Hc, find_read_conflict_ok by done.
  unfold Store.on_manager, Manager.abort, Manager.commit. rewrite !finish_run by done.
  destruct (head _) as [w|] eqn:Eh.
  - right. apply head_omap_Some in Eh as (k & Hk%elem_of_elements & Hs).
    exists w, k. split_and!; [done|apply lookup_insert_eq|done|done].
  - left. split_and!; [done|apply lookup_insert_eq|]. intros k Hk.
    eapply head_omap_None; [exact Eh|]. by apply elem_of_elements.
Qed.

(** read committed reads the latest commit.  Whatever snapshot a
    read-committed handle held, once another transaction puts [v] under [k] and
    commits, the handle's next [get] returns [v]. *)
Theorem read_committed_reads_latest (tx : Txn) (σ σ1 σ2 : VStore) x k v :
  store_ok σ -> tx_level tx = ReadCommitted ->
  status_log (reg σ) !! x = Some InProgress ->
  Store.put x k v σ = (σ1, Ok tt) ->
  Store.on_manager (Manager.commit x) σ1 = (σ2, Ok tt) ->
  (Tx.get k (σ2, tx)).2 = Ok (Some v).
Proof.
  intros [Hm Hc W] Hl Hx. rewrite put_run by done. intros [= <-].
  unfold Store.on_manager, Manager.commit. simpl. rewrite finish_run by done.
  intros [= <-]. unfold Tx.get, Tx.before_statement, st_bind. rewrite Hl. simpl.
  rewrite get_ok by (split; [done|done|by apply finish_wf]). f_equal. simpl.
  apply lookup_vis_newest, fresh_sees_committed; [by apply finish_wf|]. apply lookup_insert_eq.
Qed.
End theorems.

(** The collector does not know the snapshot of an open handle: 1 commits 10
    under key 7, 2 begins, a snapshot-isolation handle (transaction 3) is
    opened, 2 deletes the key and commits.  The handle reads 10; one cycle of
    the collector later the same handle reads nothing. *)
Theorem collector_breaks_open_handle :
  let '(σ, o) := Tx.begin_transaction SnapshotIsolation Runs.base in
  let σ := Runs.commit 2 (Runs.delete 2 7 σ) in
  match o with
  | Err _ => False
  | Ok tx => (Tx.get 7 (σ, tx)).2 = Ok (Some 10) /\
             (Tx.get 7 ((Gc.cycle (mkGc 0 0) σ).2, tx)).2 = Ok None
  end.
Proof. vm_compute. split_and!; reflexivity. Qed.

(** ** Witnesses *)

(** A closure that increments key 7. *)
Definition increment : ST (unit * VersionedStore Z Z * Transaction Z) MvccError Z :=
  fun '(ev, σ, tx) =>
    let '((σ, tx), r) :=
      (let! o := Tx.get 7 in let! _ := Tx.put 7 (default 0 o + 1) in st_ret (default 0 o + 1))
        (σ, tx) in
    ((ev, σ, tx), r).

Lemma increment_through_handle : body_through_handle increment.
Proof.
  intros ev σ tx. unfold increment, st_bind, st_ret. pose proof (get_frame 7 σ tx) as Hg.
  destruct (Tx.get 7 (σ, tx)) as [[σ1 tx1] [o|e]]; simpl in *; [|naive_solver].
  pose proof (put_frame 7 (default 0 o + 1) σ1 tx1) as Hp.
  destruct (Tx.put _ _ (σ1, tx1)) as [[σ2 tx2] [u|e]]; simpl in *;
    destruct Hg as ([? ?] & ? & _ & ? & _), Hp as ([? ?] & ? & _ & ? & _);
    unfold frame; split_and!; congruence.
Qed.

Lemma run_transaction_closes_witness :
  exists ev' σ' r, Tx.run_transaction Serializable 2 increment tt Runs.base = Some (ev', σ', r) /\
    store_ok σ' /\
    Manager.in_progress (contents (mgr σ')) = Manager.in_progress (contents (mgr Runs.base)) /\
    (is_ok r = true -> exists x, next (contents (mgr Runs.base)) <= x /\
                                 status_log (contents (mgr σ')) !! x = Some Committed).
Proof.
  exact (run_transaction_closes Serializable 2 increment tt Runs.base increment_through_handle base_ok).
Defined.

Definition conflicting_body (x : Xid) (s : Snapshot) :
    ST (nat * TransactionManager) MvccError Z := fun '(n, m) =>
  ((S n, m), if (n <? 1)%nat then Err (WriteConflict 9) else Ok x).

Lemma run_with_retry_closes_witness :
  exists ev' m' r, Occ.run_with_retry 2 conflicting_body 0%nat Manager.new = Some (ev', m', r) /\
    Manager.in_progress (contents m') = Manager.in_progress (contents Manager.new) /\
    (is_ok r = true -> exists x, next (contents Manager.new) <= x /\
                                 status_log (contents m') !! x = Some Committed).
Proof.
  exact (run_with_retry_closes 2 conflicting_body 0%nat Manager.new
           ltac:(intros x s ev m; reflexivity) eq_refl new_wf).
Defined.

(** Transaction 2 holds a serializable handle and has read key 7, which 3 has
    overwritten since. *)
Definition skew_store : VersionedStore Z Z := Runs.commit 3 (Runs.put 3 7 30 (Runs.begin Runs.base)).
Definition skew_tx : Transaction Z := mkTx 2 Serializable (Runs.snap 2 Runs.base) {[ 7 ]} false.

Lemma skew_store_ok : store_ok skew_store.
Proof.
  split; [reflexivity|reflexivity|].
  exact (finish_wf _ 3 Committed (ok_reg _ contended_ok) eq_refl).
Qed.

Lemma serializable_commit_decision_witness :
  let '(σ', r) := Tx.commit skew_tx skew_store in
  (r = Ok tt /\ status_log (contents (mgr σ')) !! 2 = Some Committed /\
   forall k, k ∈ tx_reads skew_tx -> stale_read (tx_snapshot skew_tx) skew_store 2 k = None) \/
  (exists w k, r = Err (SerializationFailure w) /\
   status_log (contents (mgr σ')) !! 2 = Some Aborted /\
   k ∈ tx_reads skew_tx /\ stale_read (tx_snapshot skew_tx) skew_store 2 k = Some w).
Proof.
  apply (serializable_commit_decision skew_tx skew_store skew_store_ok eq_refl).
  vm_compute. reflexivity.
Defined.

Lemma read_committed_reads_latest_witness :
  (Tx.get 7 (Runs.commit 2 (Runs.put 2 7 20 Runs.base),
             mkTx 9 ReadCommitted (Runs.snap 0 Runs.base) ∅ false)).2 = Ok (Some 20).
Proof.
  apply (read_committed_reads_latest _ Runs.base (Runs.put 2 7 20 Runs.base) _ 2);
    [exact base_ok|reflexivity|vm_compute; reflexivity..].
Defined.
