(* ===== verification/Crdt.v ===== *)
(** * Hybrid logical clocks and last-writer-wins data
    ([src/drevo-core/src/hlc.rs], [lww.rs], [delta.rs])

    A [Stamp] orders writes totally: causal time first, origin second.  The
    registers, maps and sets resolve conflicts by it; the theorems say that the
    clock makes stamps increase and that replicas converge whatever the order
    and multiplicity in which they merge. *)
From S2P Require Import Prelude.
Local Open Scope Z_scope.

(** ** Timestamps and the clock *)
Record Hlc : Type := mkHlc { wall_ms : Z; counter : Z }.

#[global] Instance Hlc_eq_dec : EqDecision Hlc.
Proof. solve_decision. Defined.

(** The derived [Ord]: lexicographic. *)
Definition hlc_ltb (a b : Hlc) : bool :=
  (wall_ms a <? wall_ms b) || ((wall_ms a =? wall_ms b) && (counter a <? counter b)).

Definition hlc_default : Hlc := mkHlc 0 0.

Definition bump_same_wall (wall base_counter : Z) : Hlc :=
  match checked_u32 (base_counter + 1) with
  | Some c => mkHlc wall c
  | None => mkHlc (sat_i64 (wall + 1)) 0
  end.

(** [HlcClock] owns the last timestamp it issued; each operation returns the
    new clock, which is also the timestamp issued. *)
Module HlcClock.
Definition new : Hlc := hlc_default.
Definition from_last (last : Hlc) : Hlc := last.

Definition tick (last : Hlc) (physical_ms : Z) : Hlc :=
  let wall := Z.max (wall_ms last) physical_ms in
  if wall =? wall_ms last then bump_same_wall wall (counter last) else mkHlc wall 0.

Definition update (last remote : Hlc) (physical_ms : Z) : Hlc :=
  let wall := Z.max (Z.max (wall_ms last) (wall_ms remote)) physical_ms in
  if (wall =? wall_ms last) && (wall =? wall_ms remote)
  then bump_same_wall wall (Z.max (counter last) (counter remote))
  else if wall =? wall_ms last then bump_same_wall wall (counter last)
  else if wall =? wall_ms remote then bump_same_wall wall (counter remote)
  else mkHlc wall 0.
End HlcClock.

(** ** Stamps *)
Abbreviation OriginId := Z.
Record Stamp : Type := mkStamp { stamp_hlc : Hlc; stamp_origin : OriginId }.

#[global] Instance Stamp_eq_dec : EqDecision Stamp.
Proof. solve_decision. Defined.

Definition stamp_ltb (a b : Stamp) : bool :=
  hlc_ltb (stamp_hlc a) (stamp_hlc b) ||
  (bool_decide (stamp_hlc a = stamp_hlc b) && (stamp_origin a <? stamp_origin b)).

(** ** Registers, maps and sets *)
Record LwwRegister (T : Type) : Type := mkReg { reg_value : T; reg_stamp : Stamp }.
Arguments mkReg {T} _ _.
Arguments reg_value {T} _.
Arguments reg_stamp {T} _.

(** Mutators return the new state and whether it changed. *)
Module Register.
Definition set {T} (r : LwwRegister T) (value : T) (stamp : Stamp) : LwwRegister T * bool :=
  if stamp_ltb (reg_stamp r) stamp then (mkReg value stamp, true) else (r, false).

Definition merge {T} (r other : LwwRegister T) : LwwRegister T * bool :=
  if stamp_ltb (reg_stamp r) (reg_stamp other)
  then (mkReg (reg_value other) (reg_stamp other), true) else (r, false).
End Register.

Section entries.
Context {K T : Type} `{Countable K}.
Abbreviation Entries := (gmap K (LwwRegister T)).

(** The body of [LwwMap::set] and [LwwSet::write]. *)
Definition write_entry (m : Entries) (key : K) (value : T) (stamp : Stamp) : Entries * bool :=
  match m !! key with
  | Some r => let '(r', changed) := Register.set r value stamp in (<[key := r']> m, changed)
  | None => (<[key := mkReg value stamp]> m, true)
  end.

(** The body of the loop of [LwwMap::merge] and [LwwSet::merge]. *)
Definition merge_entry (acc : Entries * bool) (e : K * LwwRegister T) : Entries * bool :=
  let '(m, changed) := acc in
  match m !! e.1 with
  | Some local =>
      let '(r', c) := Register.merge local e.2 in (<[e.1 := r']> m, changed || c)
  | None => (<[e.1 := e.2]> m, true)
  end.

Definition merge_entries (m other : Entries) : Entries * bool :=
  foldl merge_entry (m, false) (map_to_list other).
End entries.

Module LwwMap.
Section map.
Context {K V : Type} `{Countable K}.
Definition new : gmap K (LwwRegister V) := ∅.
Definition set := write_entry (K := K) (T := V).
Definition get (m : gmap K (LwwRegister V)) (key : K) : option V := reg_value <$> m !! key.
Definition merge := merge_entries (K := K) (T := V).
End map.
End LwwMap.

Module LwwSet.
Section set.
Context {T : Type} `{Countable T}.
Definition new : gmap T (LwwRegister bool) := ∅.
Definition write := write_entry (K := T) (T := bool).
Definition add (s : gmap T (LwwRegister bool)) (e : T) (stamp : Stamp) := write s e true stamp.
Definition remove (s : gmap T (LwwRegister bool)) (e : T) (stamp : Stamp) := write s e false stamp.
Definition contains (s : gmap T (LwwRegister bool)) (e : T) : bool :=
  from_option reg_value false (s !! e).
Definition live (s : gmap T (LwwRegister bool)) : gset T :=
  dom (filter (fun er => reg_value er.2 = true) s).
Definition len (s : gmap T (LwwRegister bool)) : nat := size (live s).
Definition is_empty (s : gmap T (LwwRegister bool)) : bool := Nat.eqb (len s) 0.
Definition merge := merge_entries (K := T) (T := bool).
End set.
End LwwSet.

(** ** Version vectors *)
Abbreviation VersionVector := (gmap OriginId Hlc).

Module VV.
Definition new : VersionVector := ∅.
Definition observe (vv : VersionVector) (stamp : Stamp) : VersionVector :=
  let slot := default hlc_default (vv !! stamp_origin stamp) in
  <[stamp_origin stamp := if hlc_ltb slot (stamp_hlc stamp) then stamp_hlc stamp else slot]> vv.
Definition get (vv : VersionVector) (origin : OriginId) : option Hlc := vv !! origin.
Definition dominates (vv : VersionVector) (stamp : Stamp) : bool :=
  match get vv (stamp_origin stamp) with
  | Some seen => negb (hlc_ltb seen (stamp_hlc stamp))
  | None => false
  end.
End VV.

(** ** The order on stamps *)
Definition hlc_lt (a b : Hlc) : Prop := hlc_ltb a b = true.
Definition stamp_lt (a b : Stamp) : Prop := stamp_ltb a b = true.

Lemma hlc_lt_spec a b :
  hlc_lt a b <-> wall_ms a < wall_ms b \/ (wall_ms a = wall_ms b /\ counter a < counter b).
Proof. unfold hlc_lt, hlc_ltb. lia. Qed.

Lemma hlc_ltb_false a b : hlc_ltb a b = false <-> ~ hlc_lt a b.
Proof. unfold hlc_lt. by destruct (hlc_ltb a b). Qed.

#[global] Instance hlc_lt_strict : StrictOrder hlc_lt.
Proof.
  split.
  - intros a. unfold complement. rewrite hlc_lt_spec. lia.
  - intros a b c. rewrite !hlc_lt_spec. lia.
Qed.

Lemma hlc_total a b : {hlc_lt a b} + {a = b} + {hlc_lt b a}.
Proof.
  destruct (hlc_ltb a b) eqn:E1; [by left; left|].
  destruct (hlc_ltb b a) eqn:E2; [by right|]. left; right.
  apply hlc_ltb_false in E1, E2. rewrite hlc_lt_spec in E1, E2.
  destruct a, b; simpl in *. f_equal; lia.
Qed.

Lemma stamp_lt_spec a b :
  stamp_lt a b <-> hlc_lt (stamp_hlc a) (stamp_hlc b) \/
    (stamp_hlc a = stamp_hlc b /\ stamp_origin a < stamp_origin b).
Proof.
  unfold stamp_lt, stamp_ltb, hlc_lt.
  rewrite orb_true_iff, andb_true_iff, bool_decide_eq_true, Z.ltb_lt. done.
Qed.

#[global] Instance stamp_lt_strict : StrictOrder stamp_lt.
Proof.
  split.
  - intros a. unfold complement. rewrite stamp_lt_spec. intros [Hl|Hl]; [exact (irreflexivity hlc_lt _ Hl)|lia].
  - intros a b c. rewrite !stamp_lt_spec. intros [H1|[H1 ?]] [H2|[H2 ?]].
    + left. by etrans.
    + left. by rewrite <- H2.
    + left. by rewrite H1.
    + right. split; [congruence|lia].
Qed.

Lemma stamp_total a b : {stamp_lt a b} + {a = b} + {stamp_lt b a}.
Proof.
  destruct (stamp_ltb a b) eqn:E1; [by left; left|].
  destruct (stamp_ltb b a) eqn:E2; [by right|]. left; right.
  apply not_true_iff_false in E1, E2.
  pose proof (stamp_lt_spec a b) as H1. pose proof (stamp_lt_spec b a) as H2.
  unfold stamp_lt in H1, H2. destruct a as [h o], b as [h' o']. simpl in *.
  destruct (hlc_total h h') as [[?| ->]|?]; [tauto| |tauto].
  f_equal. destruct (Z.lt_trichotomy o o') as [?|[?|?]]; tauto.
Qed.

Lemma stamp_lt_asym a b : stamp_lt a b -> stamp_ltb b a = false.
Proof.
  intros Hab. destruct (stamp_ltb b a) eqn:E; [|done]. exfalso.
  apply (irreflexivity stamp_lt a). by etrans.
Qed.

Lemma stamp_ltb_irrefl a : stamp_ltb a a = false.
Proof. destruct (stamp_ltb a a) eqn:E; [|done]. by apply (irreflexivity stamp_lt a) in E. Qed.

(** ** The clock *)
Definition hlc_in_range (h : Hlc) : Prop := is_i64 (wall_ms h) /\ is_u32 (counter h).
Definition hlc_top : Hlc := mkHlc i64_max u32_max.

Lemma bump_same_wall_spec w c : is_i64 w -> is_u32 c -> mkHlc w c <> hlc_top ->
  hlc_in_range (bump_same_wall w c) /\
  forall a, wall_ms a < w \/ (wall_ms a = w /\ counter a <= c) -> hlc_lt a (bump_same_wall w c).
Proof.
  unfold bump_same_wall, checked_u32, sat_i64, hlc_in_range, is_i64, is_u32, hlc_top.
  intros Hw Hc Hne. setoid_rewrite hlc_lt_spec. case_bool_decide; simpl.
  { split; [lia|]. intros a. lia. }
  assert (c = u32_max) as -> by lia.
  assert (w <> i64_max) by congruence. unfold i64_min, i64_max, u32_max in *.
  split; [lia|]. intros a. lia.
Qed.

Lemma fresh_wall_spec w : is_i64 w ->
  hlc_in_range (mkHlc w 0) /\ forall a, wall_ms a < w -> hlc_lt a (mkHlc w 0).
Proof.
  intros Hw. split; [split; [done|]; unfold is_u32, u32_max; simpl; lia|].
  intros a. rewrite hlc_lt_spec. simpl. lia.
Qed.

(** ** Merging *)
Definition reg_max {T} (a b : LwwRegister T) : LwwRegister T :=
  if stamp_ltb (reg_stamp a) (reg_stamp b) then b else a.

Lemma register_merge_max {T} (a b : LwwRegister T) :
  Register.merge a b = (reg_max a b, stamp_ltb (reg_stamp a) (reg_stamp b)).
Proof. unfold Register.merge, reg_max. destruct b. by destruct (stamp_ltb _ _). Qed.

Section merging.
Context {K T : Type} `{Countable K}.
Abbreviation Entries := (gmap K (LwwRegister T)).
Implicit Types (m : Entries) (k : K).

Lemma merge_entry_fold (l : list (K * LwwRegister T)) m c : NoDup l.*1 ->
  (forall k, (foldl merge_entry (m, c) l).1 !! k =
    union_with (fun a b => Some (reg_max a b)) (m !! k) ((list_to_map l : Entries) !! k)) /\
  ((foldl merge_entry (m, c) l).2 = true <->
    c = true \/ exists k r, (k, r) ∈ l /\
      match m !! k with None => True | Some r0 => stamp_lt (reg_stamp r0) (reg_stamp r) end).
Proof.
  revert m c. induction l as [|[k r] l IH]; intros m c Hnd.
  - split.
    + intros k. simpl. rewrite lookup_empty. by destruct (m !! k).
    + simpl. set_solver.
  - simpl in Hnd. apply NoDup_cons in Hnd as [Hk Hnd].
    assert (exists r' b, merge_entry (m, c) (k, r) = (<[k := r']> m, c || b) /\
      Some r' = union_with (fun a b => Some (reg_max a b)) (m !! k) (Some r) /\
      (b = true <-> match m !! k with None => True
                    | Some r0 => stamp_lt (reg_stamp r0) (reg_stamp r) end))
      as (r' & b & Heq & Hr' & Hb).
    { simpl. destruct (m !! k) as [r0|].
      - rewrite register_merge_max. by do 2 eexists.
      - exists r, true. by rewrite orb_true_r. }
    cbn [foldl]. rewrite Heq. destruct (IH (<[k := r']> m) (c || b) Hnd) as [IH1 IH2]. split.
    + intros k'. rewrite IH1. simpl. rewrite !lookup_insert. case_decide as Hd; [|done].
      subst k'. rewrite Hr'. rewrite (not_elem_of_list_to_map_1 l k) by done.
      by destruct (union_with _ _ _).
    + rewrite IH2, orb_true_iff, Hb. split.
      * intros [[?|Hm]|(k' & r1 & Hin & Hm)]; [by left|right; exists k, r; split; [by left|done]|].
        right. exists k', r1. split; [by right|].
        rewrite lookup_insert_ne in Hm; [done|]. intros <-. apply Hk.
        apply list_elem_of_fmap. by exists (k, r1).
      * intros [?|(k' & r1 & [[= -> ->]|Hin]%elem_of_cons & Hm)]; [by left; left|by left; right|].
        right. exists k', r1. split; [done|].
        rewrite lookup_insert_ne; [done|]. intros <-. apply Hk.
        apply list_elem_of_fmap. by exists (k, r1).
Qed.

Lemma merge_entries_lookup m o k : (merge_entries m o).1 !! k =
  union_with (fun a b => Some (reg_max a b)) (m !! k) (o !! k).
Proof.
  unfold merge_entries. rewrite (proj1 (merge_entry_fold _ m false (NoDup_fst_map_to_list o))).
  by rewrite list_to_map_to_list.
Qed.

Lemma merge_entries_changed m o : (merge_entries m o).2 = true <->
  exists k r, o !! k = Some r /\
    match m !! k with None => True | Some r0 => stamp_lt (reg_stamp r0) (reg_stamp r) end.
Proof.
  unfold merge_entries. rewrite (proj2 (merge_entry_fold _ m false (NoDup_fst_map_to_list o))).
  setoid_rewrite elem_of_map_to_list. split; [intros [?|?]; done|by right].
Qed.

(** *** Gossip

    Replicas exchange states in any pattern: [Leaf] is a replica's own state,
    [Gossip a b] the state of whoever holds [a] after merging [b] in. *)
Inductive gossip : Type := Leaf (m : Entries) | Gossip (a b : gossip).

Fixpoint gossip_state (g : gossip) : Entries :=
  match g with
  | Leaf m => m
  | Gossip a b => (merge_entries (gossip_state a) (gossip_state b)).1
  end.

Fixpoint gossip_leaves (g : gossip) : list Entries :=
  match g with Leaf m => [m] | Gossip a b => gossip_leaves a ++ gossip_leaves b end.

(** Every register was produced by the write its stamp names. *)
Definition written_by (val : K -> Stamp -> T) (m : Entries) : Prop :=
  forall k r, m !! k = Some r -> reg_value r = val k (reg_stamp r).

(** [M] holds, per key, a greatest register of [l]. *)
Definition joined (l : list Entries) (M : Entries) : Prop := forall k,
  match M !! k with
  | Some r => (exists m, m ∈ l /\ m !! k = Some r) /\
      forall m r', m ∈ l -> m !! k = Some r' -> ~ stamp_lt (reg_stamp r) (reg_stamp r')
  | None => forall m, m ∈ l -> m !! k = None
  end.

Lemma reg_max_ge_l {T'} (a b : LwwRegister T') : ~ stamp_lt (reg_stamp (reg_max a b)) (reg_stamp a).
Proof.
  unfold reg_max. destruct (stamp_ltb (reg_stamp a) (reg_stamp b)) eqn:E; intros Hl.
  - unfold stamp_lt in Hl. by rewrite (stamp_lt_asym _ _ E) in Hl.
  - exact (irreflexivity stamp_lt _ Hl).
Qed.

Lemma reg_max_ge_r {T'} (a b : LwwRegister T') : ~ stamp_lt (reg_stamp (reg_max a b)) (reg_stamp b).
Proof.
  unfold reg_max. destruct (stamp_ltb (reg_stamp a) (reg_stamp b)) eqn:E; intros Hl.
  - exact (irreflexivity stamp_lt _ Hl).
  - unfold stamp_lt in Hl. congruence.
Qed.

Lemma not_lt_trans a b c : ~ stamp_lt a b -> ~ stamp_lt b c -> ~ stamp_lt a c.
Proof.
  intros H1 H2 H3. destruct (stamp_total b c) as [[?| ->]|?]; [done|done|].
  apply H1. by etrans.
Qed.

Lemma gossip_joined g : joined (gossip_leaves g) (gossip_state g).
Proof.
  induction g as [m|a IHa b IHb]; intros k; simpl.
  - destruct (m !! k) as [r|] eqn:E.
    + split; [exists m; set_solver|]. intros m' r' ->%list_elem_of_singleton Hr'.
      simplify_eq. apply (irreflexivity stamp_lt).
    + by intros m' ->%list_elem_of_singleton.
  - specialize (IHa k). specialize (IHb k). rewrite merge_entries_lookup.
    destruct (gossip_state a !! k) as [ra|]; destruct (gossip_state b !! k) as [rb|]; simpl.
    + destruct IHa as [(ma & Hma & Ea) Ha], IHb as [(mb & Hmb & Eb) Hb]. split.
      * unfold reg_max. destruct (stamp_ltb _ _); [exists mb|exists ma]; set_solver.
      * intros m r [Hm|Hm]%elem_of_app Er.
        -- eapply not_lt_trans; [apply reg_max_ge_l|by eapply Ha].
        -- eapply not_lt_trans; [apply reg_max_ge_r|by eapply Hb].
    + destruct IHa as [(ma & Hma & Ea) Ha]. split; [exists ma; set_solver|].
      intros m r [Hm|Hm]%elem_of_app Er; [by eapply Ha|]. by rewrite (IHb m Hm) in Er.
    + destruct IHb as [(mb & Hmb & Eb) Hb]. split; [exists mb; set_solver|].
      intros m r [Hm|Hm]%elem_of_app Er; [|by eapply Hb]. by rewrite (IHa m Hm) in Er.
    + intros m [Hm|Hm]%elem_of_app; auto.
Qed.

Lemma joined_unique val l l' M M' :
  (forall m, m ∈ l <-> m ∈ l') -> (forall m, m ∈ l -> written_by val m) ->
  joined l M -> joined l' M' -> M = M'.
Proof.
  intros Hl Hval J J'. apply map_eq. intros k. specialize (J k). specialize (J' k).
  destruct (M !! k) as [r|], (M' !! k) as [r'|]; [| | |done].
  - destruct J as [(m & Hm & Er) Hmax], J' as [(m' & Hm' & Er') Hmax'].
    assert (reg_stamp r = reg_stamp r') as Hs.
    { destruct (stamp_total (reg_stamp r) (reg_stamp r')) as [[Hlt|?]|Hlt]; [|done|].
      - exfalso. eapply (Hmax m'); [by apply Hl|done|done].
      - exfalso. eapply (Hmax' m); [by apply Hl|done|done]. }
    apply Hval in Er; [|done]. apply Hval in Er'; [|by apply Hl].
    destruct r, r'. simpl in *. congruence.
  - destruct J as [(m & Hm & Er) _]. rewrite (J' m) in Er; [done|]. by apply Hl.
  - destruct J' as [(m' & Hm' & Er') _]. rewrite (J m') in Er'; [done|]. by apply Hl.
Qed.
End merging.
Arguments gossip _ _ {_ _}.

(** ** Local writes *)
Section writes.
Context {K T : Type} `{Countable K}.
Abbreviation Entries := (gmap K (LwwRegister T)).

Record Write : Type := mkWrite { w_key : K; w_value : T; w_stamp : Stamp }.

Definition apply_writes (m : Entries) (ws : list Write) : Entries :=
  foldl (fun m w => (write_entry m (w_key w) (w_value w) (w_stamp w)).1) m ws.

(** The state of one write. *)
Definition singleton_state (w : Write) : Entries := {[ w_key w := mkReg (w_value w) (w_stamp w) ]}.

Lemma write_entry_merge m (w : Write) :
  (write_entry m (w_key w) (w_value w) (w_stamp w)).1 = (merge_entries m (singleton_state w)).1.
Proof.
  apply map_eq. intros k. rewrite merge_entries_lookup. unfold write_entry, singleton_state.
  rewrite lookup_singleton. destruct (m !! w_key w) as [r|] eqn:E.
  - assert (Register.set r (w_value w) (w_stamp w) =
      (reg_max r (mkReg (w_value w) (w_stamp w)), stamp_ltb (reg_stamp r) (w_stamp w))) as ->.
    { unfold Register.set, reg_max. simpl. by destruct (stamp_ltb _ _). }
    simpl. rewrite lookup_insert. case_decide as Hd; [subst k; by rewrite E|]. by destruct (m !! k).
  - simpl. rewrite lookup_insert. case_decide as Hd; [subst k; by rewrite E|]. by destruct (m !! k).
Qed.

(** A run of local writes is a gossip over one-write states. *)
Fixpoint writes_gossip (g : gossip K T) (ws : list Write) : gossip K T :=
  match ws with
  | [] => g
  | w :: ws => writes_gossip (Gossip g (Leaf (singleton_state w))) ws
  end.

Lemma apply_writes_gossip g ws :
  apply_writes (gossip_state g) ws = gossip_state (writes_gossip g ws).
Proof.
  revert g. induction ws as [|w ws IH]; intros g; [done|]. simpl. rewrite <- IH. simpl.
  by rewrite write_entry_merge.
Qed.

Lemma writes_gossip_leaves g ws m :
  m ∈ gossip_leaves (writes_gossip g ws) <-> m ∈ gossip_leaves g \/ m ∈ singleton_state <$> ws.
Proof.
  revert g. induction ws as [|w ws IH]; intros g; simpl; [set_solver|]. rewrite IH. simpl. set_solver.
Qed.
End writes.
Arguments Write _ _ : clear implicits.

(** What a vector holds after observing [seen]. *)
Definition vv_inv (seen : list Stamp) (vv : VersionVector) : Prop := forall o,
  match vv !! o with
  | Some h => (exists s', s' ∈ seen /\ stamp_origin s' = o /\ stamp_hlc s' = h) /\
      forall s', s' ∈ seen -> stamp_origin s' = o -> ~ hlc_lt h (stamp_hlc s')
  | None => forall s', s' ∈ seen -> stamp_origin s' <> o
  end.

Lemma observe_inv l s vv : ~ hlc_lt (stamp_hlc s) hlc_default ->
  vv_inv l vv -> vv_inv (l ++ [s]) (VV.observe vv s).
Proof.
  intros Hz IH o. unfold VV.observe. rewrite lookup_insert. case_decide as Hd.
  - subst o. specialize (IH (stamp_origin s)). destruct (vv !! stamp_origin s) as [h|]; simpl.
    + destruct IH as [(s0 & Hs0 & Ho & Hh) Hmax].
      destruct (hlc_ltb h (stamp_hlc s)) eqn:E.
      * split; [exists s; set_solver|]. intros s' [Hs'| ->%list_elem_of_singleton]%elem_of_app Ho'.
        -- intros Hlt. apply (Hmax s' Hs' Ho'). by etrans.
        -- apply (irreflexivity hlc_lt).
      * split; [exists s0; set_solver|]. apply hlc_ltb_false in E.
        intros s' [Hs'| ->%list_elem_of_singleton]%elem_of_app Ho'; [by apply Hmax|done].
    + assert (forall s', s' ∈ l ++ [s] -> stamp_origin s' = stamp_origin s -> s' = s) as Ho.
      { intros s' [Hs'| ->%list_elem_of_singleton]%elem_of_app Ho'; [|done]. by apply IH in Hs'. }
      assert ((if hlc_ltb hlc_default (stamp_hlc s) then stamp_hlc s else hlc_default) = stamp_hlc s)
        as ->.
      { destruct (hlc_ltb hlc_default (stamp_hlc s)) eqn:E; [done|]. apply hlc_ltb_false in E.
        by destruct (hlc_total hlc_default (stamp_hlc s)) as [[?|?]|?]. }
      split; [exists s; set_solver|]. intros s' Hs' Ho'. rewrite (Ho s' Hs' Ho').
      apply (irreflexivity hlc_lt).
  - specialize (IH o). destruct (vv !! o) as [h|].
    + destruct IH as [(s0 & Hs0 & Ho & Hh) Hmax]. split; [exists s0; set_solver|].
      intros s' [Hs'| ->%list_elem_of_singleton]%elem_of_app Ho'; [by apply Hmax|done].
    + intros s' [Hs'| ->%list_elem_of_singleton]%elem_of_app; [by apply IH|done].
Qed.

Lemma observed_inv seen : (forall s', s' ∈ seen -> ~ hlc_lt (stamp_hlc s') hlc_default) ->
  vv_inv seen (foldl VV.observe VV.new seen).
Proof.
  induction seen as [|s l IH] using rev_ind; intros Hz.
  - intros o. unfold VV.new. simpl. rewrite lookup_empty. set_solver.
  - rewrite foldl_snoc. apply observe_inv; [|apply IH]; set_solver.
Qed.

(** ** Theorems *)

(** the clock is strictly monotone.  From any timestamp in range that is not
    the very last one, [tick] and [update] issue a timestamp in range that is
    strictly greater than the last one issued, and [update] also exceeds the
    remote timestamp, whatever the physical clock says: behind, equal or
    ahead. *)
Theorem clock_strictly_monotone last remote now :
  hlc_in_range last -> hlc_in_range remote -> is_i64 now ->
  last <> hlc_top -> remote <> hlc_top ->
  (hlc_in_range (HlcClock.tick last now) /\ hlc_lt last (HlcClock.tick last now)) /\
  (hlc_in_range (HlcClock.update last remote now) /\
   hlc_lt last (HlcClock.update last remote now) /\
   hlc_lt remote (HlcClock.update last remote now)).
Proof.
  intros [Lw Lc] [Rw Rc] Hn Hl Hr. destruct last as [lw lc], remote as [rw rc]. simpl in *.
  split; [unfold HlcClock.tick|unfold HlcClock.update]; simpl.
  - destruct (_ =? lw) eqn:E.
    + apply Z.eqb_eq in E as ->. destruct (bump_same_wall_spec lw lc) as [? B]; [done..|].
      split; [done|]. apply B. simpl. lia.
    + destruct (fresh_wall_spec (Z.max lw now)) as [? B]; [unfold is_i64 in *; lia|].
      split; [done|]. apply B. simpl. lia.
  - remember (Z.max (Z.max lw rw) now) as w eqn:Ew.
    destruct (w =? lw) eqn:El, (w =? rw) eqn:Er; simpl;
      (first [apply Z.eqb_eq in El|apply Z.eqb_neq in El]);
      (first [apply Z.eqb_eq in Er|apply Z.eqb_neq in Er]).
    + destruct (bump_same_wall_spec w (Z.max lc rc)) as [? B];
        [congruence|unfold is_u32 in *; lia| |by split_and!; [done|apply B; simpl; lia..]].
      unfold hlc_top in *. intros [= E1 E2]. rewrite E1 in *. subst lw rw.
      assert (lc = u32_max \/ rc = u32_max) as [->| ->] by lia; congruence.
    + destruct (bump_same_wall_spec w lc) as [? B]; [congruence|done|congruence|].
      split_and!; [done|apply B; simpl; lia..].
    + destruct (bump_same_wall_spec w rc) as [? B]; [congruence|done|congruence|].
      split_and!; [done|apply B; simpl; lia..].
    + destruct (fresh_wall_spec w) as [? B]; [unfold is_i64 in *; lia|].
      split_and!; [done|apply B; simpl; lia..].
Qed.

(** At the very last timestamp the clock goes backwards: the wall component
    saturates while the counter restarts. *)
Theorem clock_saturation_goes_back :
  hlc_lt (HlcClock.tick hlc_top 0) hlc_top.
Proof. vm_compute. reflexivity. Qed.

(** C39: Last-writer-wins maps converge.  Take any two exchange patterns over the
    same set of replica states: whatever the order, nesting and multiplicity of
    the merges, both end in the same map.  (Registers carrying the same stamp
    under the same key carry the same value, as they stem from the same
    write.) *)
Theorem lww_map_converges {K V} `{Countable K} (val : K -> Stamp -> V) (g g' : gossip K V) :
  (forall m, m ∈ gossip_leaves g <-> m ∈ gossip_leaves g') ->
  (forall m, m ∈ gossip_leaves g -> written_by val m) ->
  gossip_state g = gossip_state g'.
Proof. intros Hl Hv. eapply joined_unique; [done|done|apply gossip_joined..]. Qed.

(** [merge] reports exactly whether it changed anything, and changes a key
    only towards a greater stamp. *)
Theorem lww_merge_changed {K V} `{Countable K} (m o : gmap K (LwwRegister V)) :
  (if (LwwMap.merge m o).2 then (LwwMap.merge m o).1 <> m else (LwwMap.merge m o).1 = m) /\
  forall k r, m !! k = Some r -> exists r', (LwwMap.merge m o).1 !! k = Some r' /\
    (r' = r \/ stamp_lt (reg_stamp r) (reg_stamp r')).
Proof.
  unfold LwwMap.merge. split.
  - pose proof (merge_entries_changed m o) as Hc. destruct (merge_entries m o).2.
    + destruct (proj1 Hc eq_refl) as (k & r & Hk & Hm). intros He. apply (f_equal (.!! k)) in He.
      rewrite merge_entries_lookup, Hk in He. destruct (m !! k) as [r0|]; [|done].
      simpl in He. unfold reg_max in He. rewrite Hm in He. injection He as ->.
      exact (irreflexivity stamp_lt _ Hm).
    + apply map_eq. intros k. rewrite merge_entries_lookup.
      destruct (o !! k) as [r|] eqn:Eo; [|by destruct (m !! k)].
      assert (~ match m !! k with None => True | Some r0 => stamp_lt (reg_stamp r0) (reg_stamp r) end)
        as Hn by (intros Hm; assert (false = true) by (apply Hc; eauto); done).
      destruct (m !! k) as [r0|]; [|done]. simpl. unfold reg_max.
      unfold stamp_lt in Hn. by destruct (stamp_ltb _ _).
  - intros k r Hk. rewrite merge_entries_lookup, Hk. destruct (o !! k) as [r0|]; simpl; [|eauto].
    eexists. split; [done|]. unfold reg_max, stamp_lt.
    destruct (stamp_ltb (reg_stamp r) (reg_stamp r0)) eqn:E; auto.
Qed.

(** membership in a last-writer-wins set is decided by the greatest stamp.
    After any sequence of adds and removes on an empty set, in any order and
    with any repetition, [e] is a member iff the write on [e] with the greatest
    stamp is an add; in particular, delivering the same writes in another order
    gives the same set. *)
Theorem lww_set_membership {T} `{Countable T} (val : T -> Stamp -> bool)
    (ws : list (Write T bool)) (e : T) :
  (forall w, w ∈ ws -> w_value w = val (w_key w) (w_stamp w)) ->
  LwwSet.contains (apply_writes LwwSet.new ws) e = true <->
  exists w, w ∈ ws /\ w_key w = e /\ w_value w = true /\
    forall w', w' ∈ ws -> w_key w' = e -> w_stamp w' = w_stamp w \/ stamp_lt (w_stamp w') (w_stamp w).
Proof.
  intros Hval. unfold LwwSet.contains.
  change (apply_writes LwwSet.new ws) with (apply_writes (gossip_state (Leaf ∅)) ws).
  rewrite apply_writes_gossip.
  pose proof (gossip_joined (writes_gossip (Leaf ∅) ws) e) as J.
  assert (forall m, m ∈ gossip_leaves (writes_gossip (Leaf ∅) ws) <->
    m = ∅ \/ exists w, w ∈ ws /\ m = singleton_state w) as Hl.
  { intros m. rewrite writes_gossip_leaves. simpl. rewrite list_elem_of_singleton.
    rewrite list_elem_of_fmap. naive_solver. }
  assert (forall w, w ∈ ws -> w_key w = e -> singleton_state w !! e = Some (mkReg (w_value w) (w_stamp w)))
    as Hs by (intros w _ <-; apply lookup_singleton_eq).
  destruct (gossip_state _ !! e) as [r|]; simpl.
  - destruct J as [(m & Hm & Er) Hmax]. apply Hl in Hm as [->|(w & Hw & ->)]; [done|].
    unfold singleton_state in Er. apply lookup_singleton_Some in Er as [Hk <-]. simpl in *.
    assert (forall w', w' ∈ ws -> w_key w' = e ->
      w_stamp w' = w_stamp w \/ stamp_lt (w_stamp w') (w_stamp w)) as Hle.
    { intros w' Hw' Hk'. destruct (stamp_total (w_stamp w') (w_stamp w)) as [[?|?]|Hlt]; auto.
      exfalso. eapply Hmax; [|by apply Hs|exact Hlt]. apply Hl. eauto. }
    split; [by exists w|]. intros (w' & Hw' & Hk' & Hv & Hle').
    destruct (Hle w' Hw' Hk') as [E|Hlt].
    + rewrite (Hval w Hw), Hk, <- E, <- Hk', <- (Hval w' Hw'). done.
    + destruct (Hle' w Hw Hk) as [E|Hlt']; exfalso.
      * rewrite E in Hlt. exact (irreflexivity stamp_lt _ Hlt).
      * eapply (irreflexivity stamp_lt). by etrans.
  - split; [done|]. intros (w & Hw & Hk & _).
    assert (singleton_state w !! e = None) as E by (apply J, Hl; eauto). by rewrite Hs in E.
Qed.

(** a version vector summarises what was observed.  Starting from nothing
    and observing a list of stamps with timestamps at or after the zero
    timestamp, it dominates a stamp iff one at least as late from the same
    origin was observed. *)
Theorem version_vector_dominates (seen : list Stamp) (s : Stamp) :
  (forall s', s' ∈ seen -> ~ hlc_lt (stamp_hlc s') hlc_default) ->
  VV.dominates (foldl VV.observe VV.new seen) s = true <->
  exists s', s' ∈ seen /\ stamp_origin s' = stamp_origin s /\
    ~ hlc_lt (stamp_hlc s') (stamp_hlc s).
Proof.
  intros Hz. unfold VV.dominates, VV.get.
  pose proof (observed_inv seen Hz) as Hinv.
  specialize (Hinv (stamp_origin s)).
  destruct (_ !! stamp_origin s) as [h|].
  - rewrite negb_true_iff, hlc_ltb_false. destruct Hinv as [(s0 & Hs0 & Ho & <-) Hmax]. split.
    + intros Hn. by exists s0.
    + intros (s' & Hs' & Ho' & Hn) Hlt. specialize (Hmax s' Hs' Ho').
      destruct (hlc_total (stamp_hlc s') (stamp_hlc s0)) as [[Hl|E]|Hl]; [|by rewrite E in Hn|done].
      apply Hn. by etrans.
  - split; [done|]. intros (s' & Hs' & Ho' & _). by apply Hinv in Hs'.
Qed.

(** A stamp before the zero timestamp is recorded as the zero timestamp, so the
    vector claims a write nobody made. *)
Theorem version_vector_negative_clock :
  let vv := VV.observe VV.new (mkStamp (mkHlc (-5) 0) 1) in
  VV.get vv 1 = Some hlc_default /\ VV.dominates vv (mkStamp (mkHlc (-1) 7) 1) = true.
Proof. vm_compute. split; reflexivity. Qed.

(** ** Witnesses *)
Lemma clock_strictly_monotone_witness :
  (hlc_in_range (HlcClock.tick (mkHlc 5 u32_max) 3) /\
   hlc_lt (mkHlc 5 u32_max) (HlcClock.tick (mkHlc 5 u32_max) 3)) /\
  (hlc_in_range (HlcClock.update (mkHlc 5 u32_max) (mkHlc 5 2) 4) /\
   hlc_lt (mkHlc 5 u32_max) (HlcClock.update (mkHlc 5 u32_max) (mkHlc 5 2) 4) /\
   hlc_lt (mkHlc 5 2) (HlcClock.update (mkHlc 5 u32_max) (mkHlc 5 2) 4)).
Proof.
  split; [apply (clock_strictly_monotone (mkHlc 5 u32_max) (mkHlc 5 2) 3)
         |apply (clock_strictly_monotone (mkHlc 5 u32_max) (mkHlc 5 2) 4)];
    (done || (vm_compute; repeat split; discriminate) || (unfold hlc_top; congruence)).
Defined.

Definition state_a : gmap Z (LwwRegister Z) := {[ 1 := mkReg 10 (mkStamp (mkHlc 10 0) 1) ]}.
Definition state_b : gmap Z (LwwRegister Z) := {[ 1 := mkReg 20 (mkStamp (mkHlc 20 0) 2) ]}.

Lemma lww_map_converges_witness :
  gossip_state (Gossip (Leaf state_a) (Gossip (Leaf state_b) (Leaf state_a))) =
  gossip_state (Gossip (Leaf state_b) (Leaf state_a)).
Proof.
  apply (lww_map_converges (fun _ s => wall_ms (stamp_hlc s))).
  - intros m. simpl. set_solver.
  - intros m Hm k r Hk. simpl in Hm.
    assert (m = state_a \/ m = state_b) as [->| ->] by set_solver;
      unfold state_a, state_b in Hk; apply lookup_singleton_Some in Hk as [_ <-]; reflexivity.
Defined.

Lemma lww_set_membership_witness :
  let ws := [mkWrite 4 false (mkStamp (mkHlc 2 0) 1); mkWrite 4 true (mkStamp (mkHlc 1 0) 1)] in
  LwwSet.contains (apply_writes LwwSet.new ws) 4 = true <->
  exists w, w ∈ ws /\ w_key w = 4 /\ w_value w = true /\
    forall w', w' ∈ ws -> w_key w' = 4 -> w_stamp w' = w_stamp w \/ stamp_lt (w_stamp w') (w_stamp w).
Proof.
  intros ws. apply (lww_set_membership (fun _ s => wall_ms (stamp_hlc s) =? 1)).
  intros w Hw. unfold ws in Hw. set_unfold in Hw. destruct Hw as [->|[->|[]]]; reflexivity.
Defined.

Lemma version_vector_dominates_witness :
  let seen := [mkStamp (mkHlc 4 1) 7; mkStamp (mkHlc 2 0) 7] in
  VV.dominates (foldl VV.observe VV.new seen) (mkStamp (mkHlc 3 9) 7) = true <->
  exists s', s' ∈ seen /\ stamp_origin s' = 7 /\ ~ hlc_lt (stamp_hlc s') (mkHlc 3 9).
Proof.
  intros seen. apply (version_vector_dominates seen (mkStamp (mkHlc 3 9) 7)).
  intros s' Hs'. unfold seen in Hs'. set_unfold in Hs'.
  destruct Hs' as [->|[->|[]]]; vm_compute; discriminate.
Defined.
