(* ===== verification/DenseMap.v ===== *)
(** * Dense entity maps and id sets
    ([src/drevo-core/src/dense_map.rs], [src/drevo-core/src/id_set.rs])

    [DenseMap] stores a map keyed by entity id in chunks of 64 slots, with a
    hash table for ids far beyond the end; [IdSet] stores one id inline.  Both
    are refinements: [DenseMap] of a finite map, [IdSet] of a finite set.  The
    engine ([Native]) is modelled over the finite maps they implement. *)
From S2P Require Import Prelude.
Local Open Scope N_scope.

Definition GROWTH_SLACK : N := 4096.
Definition CHUNK : nat := 64.
Definition u64_max_N : N := 2 ^ 64 - 1.
Definition sat_u64_N (n : N) : N := N.min u64_max_N n.

(** [usize] is 64 bits wide.  A chunk is shared between clones of the map and
    copied on the first write ([Arc::make_mut]), so it behaves as a value. *)
Record DenseMap (T : Type) : Type := mkDense {
  d_chunks : list (list (option T));
  d_sparse : gmap N T;
  d_sparse_min : N;
  d_len : nat;
}.
Arguments mkDense {T} _ _ _ _.
Arguments d_chunks {T} _.
Arguments d_sparse {T} _.
Arguments d_sparse_min {T} _.
Arguments d_len {T} _.

(** What the engine relies on: a store of entities by id behaves as a finite
    map, its length is the number of entries, and iteration lists them. *)
Class EntityMap (M : Type) (T : Type) := mkEntityMap {
  em_wf : M -> Prop;
  em_abs : M -> gmap N T;
  em_empty : M;
  em_get : N -> M -> option T;
  em_insert : N -> T -> M -> M * option T;
  em_remove : N -> M -> M * option T;
  em_iter : M -> list (N * T);
  em_len : M -> nat;
  em_empty_ok : em_wf em_empty /\ em_abs em_empty = ∅;
  em_get_ok m id : em_wf m -> em_get id m = em_abs m !! id;
  em_insert_ok m id v : em_wf m ->
    em_wf (em_insert id v m).1 /\ em_abs (em_insert id v m).1 = <[id := v]> (em_abs m) /\
    (em_insert id v m).2 = em_abs m !! id;
  em_remove_ok m id : em_wf m ->
    em_wf (em_remove id m).1 /\ em_abs (em_remove id m).1 = delete id (em_abs m) /\
    (em_remove id m).2 = em_abs m !! id;
  em_iter_ok m : em_wf m -> em_iter m ≡ₚ map_to_list (em_abs m);
  em_len_ok m : em_wf m -> em_len m = size (em_abs m);
}.

(** [Iterator::min] over ids. *)
Definition min_key (l : list N) : N := foldr N.min u64_max_N l.

Module Dense.
Section dense.
Context {T : Type}.
Implicit Types (d : DenseMap T) (cs : list (list (option T))).

Definition empty : DenseMap T := mkDense [] ∅ u64_max_N 0.

Definition end_ cs : nat := (length cs * CHUNK)%nat.

Definition slot cs (id : N) : option nat :=
  if bool_decide (N.to_nat id < end_ cs)%nat then Some (N.to_nat id) else None.

(** [chunks[i / CHUNK][i % CHUNK]]; every chunk is [CHUNK] long. *)
Definition read_slot cs (i : nat) : option T :=
  mjoin (chunk ← cs !! (i / CHUNK)%nat; chunk !! (i mod CHUNK)%nat).

Definition write_slot cs (i : nat) (v : option T) : list (list (option T)) :=
  alter (fun chunk => <[(i mod CHUNK)%nat := v]> chunk) (i / CHUNK)%nat cs.

(** [while self.end() <= i { chunks.push(vec![None; CHUNK]) }]. *)
Fixpoint grow (fuel : nat) (i : nat) cs : list (list (option T)) :=
  match fuel with
  | O => cs
  | S fuel => if (end_ cs <=? i)%nat then grow fuel i (cs ++ [replicate CHUNK None]) else cs
  end.

(** The loop over [reached]. *)
Definition move_outlier (st : list (list (option T)) * gmap N T) (k : N) :
    list (list (option T)) * gmap N T :=
  match st.2 !! k with
  | Some v => (write_slot st.1 (N.to_nat k) (Some v), delete k st.2)
  | None => st
  end.

Definition keys_of (m : gmap N T) : list N := (map_to_list m).*1.

Definition dense_slot (id : N) d : DenseMap T * option nat :=
  match slot (d_chunks d) id with
  | Some i => (d, Some i)
  | None =>
      let reach := sat_u64_N (sat_u64_N (N.of_nat (end_ (d_chunks d)) * 2) + GROWTH_SLACK) in
      if bool_decide (reach < id) then (d, None)
      else
        let i := N.to_nat id in
        let cs := grow (S i) i (d_chunks d) in
        let e := N.of_nat (end_ cs) in
        if bool_decide (d_sparse_min d < e) then
          let reached := filter (fun k => k < e) (keys_of (d_sparse d)) in
          let '(cs, sparse) := foldl move_outlier (cs, d_sparse d) reached in
          (mkDense cs sparse (min_key (keys_of sparse)) (d_len d), Some i)
        else (mkDense cs (d_sparse d) (d_sparse_min d) (d_len d), Some i)
  end.

Definition get (id : N) d : option T :=
  match slot (d_chunks d) id with
  | Some i => read_slot (d_chunks d) i
  | None => d_sparse d !! id
  end.

Definition contains_key (id : N) d : bool := bool_decide (is_Some (get id d)).

Definition insert (id : N) (v : T) d : DenseMap T * option T :=
  let '(d, o) := dense_slot id d in
  let '(d, old) :=
    match o with
    | Some i => (mkDense (write_slot (d_chunks d) i (Some v)) (d_sparse d) (d_sparse_min d) (d_len d),
                 read_slot (d_chunks d) i)
    | None => (mkDense (d_chunks d) (<[id := v]> (d_sparse d)) (N.min (d_sparse_min d) id) (d_len d),
               d_sparse d !! id)
    end in
  (match old with
   | None => mkDense (d_chunks d) (d_sparse d) (d_sparse_min d) (S (d_len d))
   | Some _ => d
   end, old).

Definition remove (id : N) d : DenseMap T * option T :=
  match slot (d_chunks d) id with
  | Some i =>
      match read_slot (d_chunks d) i with
      | None => (d, None)
      | Some v => (mkDense (write_slot (d_chunks d) i None) (d_sparse d) (d_sparse_min d)
                     (d_len d - 1), Some v)
      end
  | None =>
      let old := d_sparse d !! id in
      let sparse := delete id (d_sparse d) in
      let smin := if bool_decide (id = d_sparse_min d) then min_key (keys_of sparse)
                  else d_sparse_min d in
      (mkDense (d_chunks d) sparse smin
         (match old with Some _ => d_len d - 1 | None => d_len d end)%nat, old)
  end.

(** [get_mut] and [entry_or_default] with the update the caller makes through
    the reference. *)
Definition get_mut (id : N) (f : T -> T) d : DenseMap T :=
  match slot (d_chunks d) id with
  | Some i =>
      match read_slot (d_chunks d) i with
      | None => d
      | Some v => mkDense (write_slot (d_chunks d) i (Some (f v))) (d_sparse d) (d_sparse_min d)
                    (d_len d)
      end
  | None => mkDense (d_chunks d) (alter f id (d_sparse d)) (d_sparse_min d) (d_len d)
  end.

Definition entry_or_default (dflt : T) (id : N) (f : T -> T) d : DenseMap T :=
  let d := if contains_key id d then d else (insert id dflt d).1 in
  match slot (d_chunks d) id with
  | Some i =>
      mkDense (write_slot (d_chunks d) i (Some (f (default dflt (read_slot (d_chunks d) i)))))
        (d_sparse d) (d_sparse_min d) (d_len d)
  | None => mkDense (d_chunks d) (<[id := f (default dflt (d_sparse d !! id))]> (d_sparse d))
              (d_sparse_min d) (d_len d)
  end.

(** [iter().enumerate().filter_map(..)] over the flat slots. *)
Fixpoint enumerate_from (n : nat) (l : list (option T)) : list (N * T) :=
  match l with
  | [] => []
  | Some v :: l => (N.of_nat n, v) :: enumerate_from (S n) l
  | None :: l => enumerate_from (S n) l
  end.

Definition iter d : list (N * T) :=
  enumerate_from 0 (concat (d_chunks d)) ++ map_to_list (d_sparse d).

End dense.
End Dense.

(** ** Id sets *)
Inductive IdSet : Type := IdEmpty | IdOne (id : N) | IdMany (s : gset N).

Module Ids.

(** Mutators return the new set and Rust's boolean answer. *)
Definition insert (id : N) (s : IdSet) : IdSet * bool :=
  match s with
  | IdEmpty => (IdOne id, true)
  | IdOne e => if bool_decide (e = id) then (s, false) else (IdMany {[ e; id ]}, true)
  | IdMany l => (IdMany ({[ id ]} ∪ l), negb (bool_decide (id ∈ l)))
  end.

(** [BTreeSet::first]. *)
Definition first_of (l : gset N) : option N :=
  match elements l with
  | [] => None
  | x :: xs => Some (foldr N.min x xs)
  end.

Definition remove (id : N) (s : IdSet) : IdSet * bool :=
  match s with
  | IdEmpty => (IdEmpty, false)
  | IdOne e => if bool_decide (e = id) then (IdEmpty, true) else (s, false)
  | IdMany l =>
      let removed := bool_decide (id ∈ l) in
      let l := l ∖ {[ id ]} in
      (if bool_decide (size l = 1%nat)
       then match first_of l with Some last => IdOne last | None => IdMany l end
       else IdMany l, removed)
  end.

Definition is_empty (s : IdSet) : bool :=
  match s with IdEmpty => true | IdOne _ => false | IdMany l => bool_decide (l = ∅) end.

Definition len (s : IdSet) : nat :=
  match s with IdEmpty => 0 | IdOne _ => 1 | IdMany l => size l end.

Definition first (s : IdSet) : option N :=
  match s with IdEmpty => None | IdOne id => Some id | IdMany l => first_of l end.

(** Ascending. *)
Definition iter (s : IdSet) : list N :=
  match s with
  | IdEmpty => []
  | IdOne id => [id]
  | IdMany l => merge_sort N.le (elements l)
  end.
End Ids.

(** The set an [IdSet] stands for, and its representation invariant. *)
Definition ids_abs (s : IdSet) : gset N :=
  match s with IdEmpty => ∅ | IdOne id => {[ id ]} | IdMany l => l end.
Definition ids_wf (s : IdSet) : Prop :=
  match s with IdMany l => (2 <= size l)%nat | _ => True end.

(** ** The dense map refines a finite map *)
#[local] Arguments CHUNK : simpl never.
#[local] Arguments Nat.div : simpl never.
#[local] Arguments Nat.modulo : simpl never.

Section dense_proofs.
Context {T : Type}.
Implicit Types (d : DenseMap T) (cs : list (list (option T))) (sp : gmap N T).

Definition chunked cs : Prop := Forall (fun c => length c = CHUNK) cs.

Lemma concat_lookup_chunks cs i : chunked cs ->
  concat cs !! i = c ← cs !! (i / CHUNK)%nat; c !! (i mod CHUNK)%nat.
Proof.
  intros Hc. revert i. induction Hc as [|c cs Hc _ IH]; intros i; cbn [concat].
  { by rewrite !lookup_nil. }
  destruct (decide (i < CHUNK)%nat) as [Hi|Hi].
  - rewrite lookup_app_l by lia. rewrite Nat.div_small, Nat.mod_small by done. done.
  - rewrite lookup_app_r by lia. rewrite IH, Hc.
    assert (i = i - CHUNK + 1 * CHUNK)%nat as Ei by lia.
    assert (i / CHUNK = S ((i - CHUNK) / CHUNK))%nat as ->
      by (rewrite Ei at 1; rewrite Nat.div_add by (unfold CHUNK; lia); lia).
    assert (i mod CHUNK = (i - CHUNK) mod CHUNK)%nat as ->
      by (rewrite Ei at 1; by rewrite Nat.Div0.mod_add).
    done.
Qed.

Lemma length_concat cs : chunked cs -> length (concat cs) = Dense.end_ cs.
Proof.
  induction 1 as [|c cs Hc _ IH]; [done|]. simpl. rewrite length_app, Hc, IH.
  unfold Dense.end_. simpl. lia.
Qed.

Lemma read_slot_flat cs i : chunked cs -> Dense.read_slot cs i = mjoin (concat cs !! i).
Proof. intros Hc. unfold Dense.read_slot. by rewrite concat_lookup_chunks. Qed.

Lemma write_slot_chunked cs i v : chunked cs -> chunked (Dense.write_slot cs i v).
Proof.
  intros Hc. unfold Dense.write_slot, chunked. apply Forall_alter; [done|].
  intros c _ Hl. by rewrite length_insert.
Qed.

Lemma write_slot_end cs i v : Dense.end_ (Dense.write_slot cs i v) = Dense.end_ cs.
Proof. unfold Dense.end_, Dense.write_slot. by rewrite length_alter. Qed.

Lemma read_write_slot cs i j v : chunked cs -> (i < Dense.end_ cs)%nat ->
  Dense.read_slot (Dense.write_slot cs i v) j = if decide (i = j) then v else Dense.read_slot cs j.
Proof.
  intros Hc Hi. unfold Dense.read_slot, Dense.write_slot.
  assert (i / CHUNK < length cs)%nat as Hq
    by (apply Nat.Div0.div_lt_upper_bound; unfold Dense.end_ in Hi; lia).
  destruct (lookup_lt_is_Some_2 _ _ Hq) as [c Ec].
  assert (length c = CHUNK) as Hl by (by eapply Forall_lookup_1 in Hc).
  assert (i mod CHUNK < CHUNK)%nat as Hm by (apply Nat.mod_upper_bound; unfold CHUNK; lia).
  destruct (decide (i / CHUNK = j / CHUNK)%nat) as [Eq|Eq].
  - rewrite <- Eq, list_lookup_alter_eq, Ec. simpl.
    destruct (decide (i mod CHUNK = j mod CHUNK)%nat) as [Em|Em].
    + rewrite <- Em, list_lookup_insert_eq by lia. simpl.
      rewrite decide_True; [done|]. pose proof (Nat.div_mod_eq i CHUNK).
      pose proof (Nat.div_mod_eq j CHUNK). congruence.
    + rewrite list_lookup_insert_ne by done. rewrite decide_False by congruence. done.
  - rewrite list_lookup_alter_ne by done. by rewrite decide_False by congruence.
Qed.

Lemma read_slot_beyond cs i : (Dense.end_ cs <= i)%nat -> Dense.read_slot cs i = None.
Proof.
  intros Hi. unfold Dense.read_slot. rewrite lookup_ge_None_2; [done|].
  apply Nat.div_le_lower_bound; unfold Dense.end_ in Hi; [unfold CHUNK; lia|lia].
Qed.

Lemma grow_spec fuel i cs : chunked cs -> (i < fuel * CHUNK + Dense.end_ cs)%nat ->
  chunked (Dense.grow fuel i cs) /\ (i < Dense.end_ (Dense.grow fuel i cs))%nat /\
  (Dense.end_ cs <= Dense.end_ (Dense.grow fuel i cs))%nat /\
  forall j, Dense.read_slot (Dense.grow fuel i cs) j = Dense.read_slot cs j.
Proof.
  revert cs. induction fuel as [|fuel IH]; intros cs Hc Hi; cbn [Dense.grow];
    [split_and!; [done|lia|lia|done]|]. rewrite Nat.mul_succ_l in Hi.
  destruct (Dense.end_ cs <=? i)%nat eqn:E;
    [|apply Nat.leb_gt in E; split_and!; [done|lia|lia|done]].
  assert (chunked (cs ++ [replicate CHUNK None])) as Hc'
    by (apply Forall_app_2; [done|]; constructor; [apply length_replicate|done]).
  assert (Dense.end_ (cs ++ [replicate CHUNK None]) = Dense.end_ cs + CHUNK)%nat as He
    by (unfold Dense.end_, CHUNK; rewrite length_app; simpl; lia).
  destruct (IH _ Hc') as (H1 & H2 & H3 & H4); [lia|]. split_and!; [done|done|lia|].
  intros j. rewrite H4, !read_slot_flat by done. rewrite concat_app. cbn [concat].
  rewrite app_nil_r.
  destruct (decide (j < length (concat cs))%nat) as [Hj|Hj]; [by rewrite lookup_app_l|].
  rewrite lookup_app_r, (lookup_ge_None_2 (concat cs)) by lia.
  destruct (replicate CHUNK None !! _) as [o|] eqn:Er; [|done].
  by apply lookup_replicate in Er as [-> _].
Qed.

(** The value of an id during the loop that moves outliers: the hash table
    first, the slots second. *)
Definition comb (st : list (list (option T)) * gmap N T) (k : N) : option T :=
  match st.2 !! k with Some v => Some v | None => Dense.read_slot st.1 (N.to_nat k) end.

Lemma move_outliers_spec l cs sp : chunked cs ->
  Forall (fun k => N.to_nat k < Dense.end_ cs)%nat l ->
  let st := foldl Dense.move_outlier (cs, sp) l in
  chunked st.1 /\ Dense.end_ st.1 = Dense.end_ cs /\
  (forall k, comb st k = comb (cs, sp) k) /\
  (forall k, st.2 !! k = if decide (k ∈ l) then None else sp !! k).
Proof.
  revert cs sp. induction l as [|a l IH]; intros cs sp Hc Hl; cbn [foldl].
  { split_and!; [done..|]. intros k. by rewrite decide_False by apply not_elem_of_nil. }
  apply Forall_cons in Hl as [Ha Hl].
  unfold Dense.move_outlier at 2 4 6 8. cbn [fst snd].
  destruct (sp !! a) as [v|] eqn:Ea.
  - destruct (IH (Dense.write_slot cs (N.to_nat a) (Some v)) (delete a sp)) as (H1 & H2 & H3 & H4);
      [by apply write_slot_chunked|by rewrite write_slot_end|].
    split_and!; [done|by rewrite H2, write_slot_end| |].
    + intros k. rewrite H3. unfold comb. simpl. rewrite read_write_slot by done.
      rewrite lookup_delete. destruct (decide (a = k)) as [<-|Hne].
      * by rewrite Ea, decide_True.
      * rewrite (decide_False (P := N.to_nat a = N.to_nat k)) by lia. done.
    + intros k. rewrite H4, lookup_delete.
      destruct (decide (k ∈ l)), (decide (k ∈ a :: l)), (decide (a = k)); set_solver.
  - destruct (IH cs sp Hc Hl) as (H1 & H2 & H3 & H4). split_and!; [done..|].
    intros k. rewrite H4. destruct (decide (k ∈ l)), (decide (k ∈ a :: l)); try done; [set_solver|].
    assert (k = a) as -> by set_solver. done.
Qed.

Lemma min_key_le l k : k ∈ l -> min_key l <= k.
Proof.
  induction l as [|a l IH]; intros Hk; [by apply not_elem_of_nil in Hk|]. simpl.
  apply elem_of_cons in Hk as [->|Hk]; [lia|]. specialize (IH Hk). unfold min_key in *. lia.
Qed.

Lemma elem_of_keys sp k : k ∈ Dense.keys_of sp <-> is_Some (sp !! k).
Proof.
  unfold Dense.keys_of. rewrite list_elem_of_fmap. split.
  - intros ([k' v] & -> & Hin%elem_of_map_to_list). simpl. eauto.
  - intros [v Hv]. exists (k, v). split; [done|]. by apply elem_of_map_to_list.
Qed.

(** The representation invariant, less the length. *)
Record slots_wf d : Prop := {
  wf_chunked : chunked (d_chunks d);
  wf_sparse : forall k v, d_sparse d !! k = Some v ->
    (Dense.end_ (d_chunks d) <= N.to_nat k)%nat /\ d_sparse_min d <= k;
}.

Lemma get_slots id d : slots_wf d ->
  Dense.get id d = if decide (N.to_nat id < Dense.end_ (d_chunks d))%nat
                   then Dense.read_slot (d_chunks d) (N.to_nat id) else d_sparse d !! id.
Proof.
  intros _. unfold Dense.get, Dense.slot. destruct (decide _);
    [by rewrite bool_decide_eq_true_2|by rewrite bool_decide_eq_false_2].
Qed.

Lemma get_comb id d : slots_wf d -> Dense.get id d = comb (d_chunks d, d_sparse d) id.
Proof.
  intros W. rewrite get_slots by done. unfold comb. simpl.
  destruct (d_sparse d !! id) as [v|] eqn:E.
  - apply (wf_sparse _ W) in E as [Hk _]. rewrite decide_False by lia. done.
  - destruct (decide _); [done|]. rewrite read_slot_beyond by lia. done.
Qed.

Lemma dense_slot_ok id d d1 o : slots_wf d -> Dense.dense_slot id d = (d1, o) ->
  slots_wf d1 /\ d_len d1 = d_len d /\ (forall k, Dense.get k d1 = Dense.get k d) /\
  match o with
  | Some i => i = N.to_nat id /\ (i < Dense.end_ (d_chunks d1))%nat
  | None => (Dense.end_ (d_chunks d1) <= N.to_nat id)%nat
  end.
Proof.
  intros W. unfold Dense.dense_slot, Dense.slot.
  case_bool_decide as Hid; [by intros [= <- <-]|]. apply Nat.nlt_ge in Hid.
  case_bool_decide as Hr; [by intros [= <- <-]|]. clear Hr.
  destruct (grow_spec (S (N.to_nat id)) (N.to_nat id) (d_chunks d)) as (G1 & G2 & G3 & G4);
    [apply W|unfold CHUNK; lia|].
  set (cs := Dense.grow _ _ _) in *.
  assert (forall k, comb (cs, d_sparse d) k = Dense.get k d) as Hcomb.
  { intros k. rewrite get_comb by done. unfold comb. simpl. by rewrite G4. }
  case_bool_decide as Hm.
  - set (reached := filter _ _).
    assert (Forall (fun k => N.to_nat k < Dense.end_ cs)%nat reached) as HF.
    { apply Forall_forall. intros k [Hk _]%list_elem_of_filter. lia. }
    pose proof (move_outliers_spec reached cs (d_sparse d) G1 HF) as M. cbv zeta in M.
    destruct (foldl _ _ reached) as [cs' sp'] eqn:Ef. cbn [fst snd] in M.
    destruct M as (M1 & M2 & M3 & M4).
    intros [= <- <-]. cbn [d_chunks d_sparse d_len d_sparse_min].
    assert (forall k v, sp' !! k = Some v -> (Dense.end_ cs' <= N.to_nat k)%nat) as Hge.
    { intros k v Hk. rewrite M4 in Hk. case_decide as Hin; [done|]. rewrite M2.
      apply Nat.nlt_ge. intros Hlt. apply Hin. apply list_elem_of_filter.
      split; [lia|]. apply elem_of_keys. eauto. }
    assert (slots_wf (mkDense cs' sp' (min_key (Dense.keys_of sp')) (d_len d))) as W'.
    { split; [done|]. simpl. intros k v Hk. split; [by eapply Hge|].
      apply min_key_le, elem_of_keys. eauto. }
    split_and!; [done|done| |done|lia].
    intros k. rewrite get_comb by done. simpl. by rewrite M3.
  - intros [= <- <-]. cbn [d_chunks d_sparse d_len d_sparse_min].
    assert (slots_wf (mkDense cs (d_sparse d) (d_sparse_min d) (d_len d))) as W'.
    { split; [done|]. simpl. intros k v Hk. apply (wf_sparse _ W) in Hk as [? ?]. lia. }
    split_and!; [done|done| |done|lia].
    intros k. by rewrite get_comb.
Qed.

(** Storing at an id, in its slot or in the hash table. *)
Lemma write_dense_ok d id v n : slots_wf d -> (N.to_nat id < Dense.end_ (d_chunks d))%nat ->
  let d' := mkDense (Dense.write_slot (d_chunks d) (N.to_nat id) v) (d_sparse d) (d_sparse_min d) n in
  slots_wf d' /\ forall k, Dense.get k d' = if decide (id = k) then v else Dense.get k d.
Proof.
  intros W Hid d'. assert (slots_wf d') as W'.
  { split; [apply write_slot_chunked, W|]. simpl. rewrite write_slot_end. apply W. }
  split; [done|]. intros k. rewrite !get_slots by done. simpl. rewrite write_slot_end.
  rewrite read_write_slot by (apply W || done).
  destruct (decide (id = k)) as [<-|Hne]; [by rewrite !decide_True by done|].
  by rewrite (decide_False (P := N.to_nat id = N.to_nat k)) by lia.
Qed.

Lemma write_sparse_ok d id sp smin n : slots_wf d -> (Dense.end_ (d_chunks d) <= N.to_nat id)%nat ->
  (forall k, id <> k -> sp !! k = d_sparse d !! k) ->
  (forall k, is_Some (sp !! k) -> smin <= k) ->
  let d' := mkDense (d_chunks d) sp smin n in
  slots_wf d' /\ forall k, Dense.get k d' = if decide (id = k) then sp !! id else Dense.get k d.
Proof.
  intros W Hid Hsp Hmin d'. assert (slots_wf d') as W'.
  { split; [apply W|]. simpl. intros k v Hk. split; [|apply Hmin; eauto].
    destruct (decide (id = k)) as [<-|Hne]; [lia|]. rewrite Hsp in Hk by done.
    by apply (wf_sparse _ W) in Hk as [? _]. }
  split; [done|]. intros k. rewrite !get_slots by done. simpl.
  destruct (decide (id = k)) as [<-|Hne]; [by rewrite decide_False by lia|].
  by rewrite Hsp.
Qed.

Lemma read_slot_get d i : slots_wf d -> (i < Dense.end_ (d_chunks d))%nat ->
  Dense.read_slot (d_chunks d) i = Dense.get (N.of_nat i) d.
Proof. intros W Hi. rewrite get_slots by done. by rewrite Nat2N.id, decide_True. Qed.

Lemma insert_ok id v d : slots_wf d -> let '(d', old) := Dense.insert id v d in
  slots_wf d' /\ old = Dense.get id d /\
  (forall k, Dense.get k d' = if decide (id = k) then Some v else Dense.get k d) /\
  d_len d' = match old with None => S (d_len d) | Some _ => d_len d end.
Proof.
  intros W. unfold Dense.insert. destruct (Dense.dense_slot id d) as [d1 o] eqn:E.
  apply dense_slot_ok in E as (W1 & Hl & Hg & Ho); [|done].
  destruct o as [i|]; cbn [d_chunks d_sparse d_len d_sparse_min].
  - destruct Ho as [-> Hlt].
    rewrite read_slot_get, N2Nat.id, Hg by done.
    destruct (Dense.get id d) as [w|].
    + destruct (write_dense_ok d1 id (Some v) (d_len d1) W1 Hlt) as [Hw Hk].
      split_and!; [done|done| |by rewrite <- Hl]. intros k. rewrite Hk. by rewrite Hg.
    + destruct (write_dense_ok d1 id (Some v) (S (d_len d1)) W1 Hlt) as [Hw Hk].
      split_and!; [done|done| |simpl; by rewrite Hl]. intros k. rewrite Hk. by rewrite Hg.
  - assert (d_sparse d1 !! id = Dense.get id d) as ->.
    { rewrite <- Hg, get_slots by done. by rewrite decide_False by lia. }
    assert (forall k, is_Some (<[id:=v]> (d_sparse d1) !! k) -> N.min (d_sparse_min d1) id <= k) as Hmin.
    { intros k. rewrite lookup_insert. case_decide as Hd; [lia|].
      intros [w Hw%(wf_sparse _ W1)]. lia. }
    assert (forall k, id <> k -> <[id:=v]> (d_sparse d1) !! k = d_sparse d1 !! k) as Hne
      by (intros k Hk; by apply lookup_insert_ne).
    destruct (Dense.get id d) as [w|].
    + destruct (write_sparse_ok d1 id _ _ (d_len d1) W1 Ho Hne Hmin) as [Hw Hk].
      split_and!; [done|done| |done]. intros k. rewrite Hk, lookup_insert_eq. by rewrite Hg.
    + destruct (write_sparse_ok d1 id _ _ (S (d_len d1)) W1 Ho Hne Hmin) as [Hw Hk].
      split_and!; [done|done| |simpl; by rewrite Hl]. intros k. rewrite Hk, lookup_insert_eq. by rewrite Hg.
Qed.

Lemma remove_ok id d : slots_wf d -> let '(d', old) := Dense.remove id d in
  slots_wf d' /\ old = Dense.get id d /\
  (forall k, Dense.get k d' = if decide (id = k) then None else Dense.get k d) /\
  d_len d' = match old with None => d_len d | Some _ => (d_len d - 1)%nat end.
Proof.
  intros W. unfold Dense.remove, Dense.slot. case_bool_decide as Hid.
  - rewrite read_slot_get, N2Nat.id by done.
    destruct (Dense.get id d) as [w|] eqn:Eg.
    + destruct (write_dense_ok d id None (d_len d - 1) W Hid) as [Hw Hk]. by split_and!.
    + split_and!; [done|done| |done]. intros k. case_decide; [by subst|done].
  - apply Nat.nlt_ge in Hid.
    assert (d_sparse d !! id = Dense.get id d) as ->.
    { rewrite get_slots by done. by rewrite decide_False by lia. }
    edestruct (write_sparse_ok d id (delete id (d_sparse d))) as [Hw Hk];
      [done|done|intros k Hk; by apply lookup_delete_ne| |split; [exact Hw|]].
    + intros k [w Hw]. rewrite lookup_delete in Hw. case_decide; [done|].
      case_bool_decide.
      * apply min_key_le, elem_of_keys. rewrite lookup_delete_ne by done. eauto.
      * by apply (wf_sparse _ W) in Hw as [_ ?].
    + split_and!; [done| |by destruct (Dense.get id d)].
      intros k. rewrite Hk, lookup_delete_eq. done.
Qed.

(** *** Iteration *)
Lemma elem_of_enumerate n (l : list (option T)) k v :
  (k, v) ∈ Dense.enumerate_from n l <-> exists i, k = N.of_nat (n + i) /\ l !! i = Some (Some v).
Proof.
  revert n. induction l as [|o l IH]; intros n; simpl.
  - split; [by intros ?%not_elem_of_nil|intros (i & _ & Hi)]. by rewrite lookup_nil in Hi.
  - assert ((k, v) ∈ Dense.enumerate_from (S n) l <->
      exists i, k = N.of_nat (n + S i) /\ l !! i = Some (Some v)) as IH'.
    { rewrite IH. by setoid_rewrite Nat.add_succ_r. }
    destruct o as [w|]; rewrite ?elem_of_cons, IH'; split.
    + intros [[= -> ->]|(i & ? & ?)]; [exists 0%nat|exists (S i)]; by rewrite ?Nat.add_0_r.
    + intros ([|i] & -> & Hi); [left|right; eauto]. injection Hi as ->. by rewrite Nat.add_0_r.
    + intros (i & ? & ?). by exists (S i).
    + intros ([|i] & -> & Hi); [done|]. eauto.
Qed.

Lemma NoDup_enumerate n (l : list (option T)) : NoDup (Dense.enumerate_from n l).*1.
Proof.
  revert n. induction l as [|[w|] l IH]; intros n; simpl; [constructor| |apply IH].
  apply NoDup_cons. split; [|apply IH].
  intros ([k v] & Hk & (i & Hi & _)%elem_of_enumerate)%list_elem_of_fmap. simpl in *. lia.
Qed.

Lemma elem_of_iter d k v : slots_wf d -> (k, v) ∈ Dense.iter d <-> Dense.get k d = Some v.
Proof.
  intros W. unfold Dense.iter. rewrite elem_of_app, elem_of_enumerate, elem_of_map_to_list.
  rewrite get_slots by done. rewrite read_slot_flat by apply W. split.
  - intros [(i & -> & Hi)|Hk].
    + rewrite Nat2N.id. simpl. rewrite decide_True; [by rewrite Hi|].
      rewrite <- length_concat by apply W. by eapply lookup_lt_Some.
    + pose proof (wf_sparse _ W _ _ Hk) as [? _]. by rewrite decide_False by lia.
  - case_decide as Hd; [|by right]. intros Hk. left. exists (N.to_nat k).
    split; [lia|]. destruct (concat _ !! _) as [[w|]|]; simplify_eq/=; done.
Qed.

Lemma NoDup_iter d : slots_wf d -> NoDup (Dense.iter d).*1.
Proof.
  intros W. unfold Dense.iter. rewrite fmap_app. apply NoDup_app. split_and!.
  - apply NoDup_enumerate.
  - intros k ([k1 v1] & -> & (i & -> & Hi)%elem_of_enumerate)%list_elem_of_fmap
      ([k2 v2] & Hk & Hv%elem_of_map_to_list)%list_elem_of_fmap. simpl in *. subst k2.
    apply (wf_sparse _ W) in Hv as [Hge _]. apply lookup_lt_Some in Hi.
    rewrite length_concat in Hi by apply W. lia.
  - apply NoDup_fst_map_to_list.
Qed.

Definition dense_abs d : gmap N T := list_to_map (Dense.iter d).

Definition dense_wf d : Prop := slots_wf d /\ d_len d = size (dense_abs d).

Lemma dense_abs_lookup d k : slots_wf d -> dense_abs d !! k = Dense.get k d.
Proof.
  intros W. apply option_eq. intros v. unfold dense_abs.
  rewrite <- elem_of_list_to_map by by apply NoDup_iter. by apply elem_of_iter.
Qed.

Lemma dense_insert_abs id v d : slots_wf d ->
  dense_abs (Dense.insert id v d).1 = <[id := v]> (dense_abs d).
Proof.
  intros W. pose proof (insert_ok id v d W) as Hi. destruct (Dense.insert id v d) as [d' old].
  destruct Hi as (W' & _ & Hg & _). apply map_eq. intros k. simpl.
  rewrite dense_abs_lookup, Hg, lookup_insert, dense_abs_lookup by done. done.
Qed.

Lemma dense_remove_abs id d : slots_wf d ->
  dense_abs (Dense.remove id d).1 = delete id (dense_abs d).
Proof.
  intros W. pose proof (remove_ok id d W) as Hi. destruct (Dense.remove id d) as [d' old].
  destruct Hi as (W' & _ & Hg & _). apply map_eq. intros k. simpl.
  rewrite dense_abs_lookup, Hg, lookup_delete, dense_abs_lookup by done. done.
Qed.

Lemma empty_slots_wf : slots_wf (Dense.empty : DenseMap T).
Proof. split; [constructor|]. simpl. intros k v. by rewrite lookup_empty. Qed.

Lemma dense_insert_wf id v d : dense_wf d -> dense_wf (Dense.insert id v d).1.
Proof.
  intros [W Hl]. pose proof (dense_insert_abs id v d W) as Ha.
  pose proof (insert_ok id v d W) as Hi. destruct (Dense.insert id v d) as [d' old]. simpl in *.
  destruct Hi as (W' & -> & Hg & Hn). split; [done|]. rewrite Hn, Ha, Hl.
  rewrite <- dense_abs_lookup by done. destruct (dense_abs d !! id) eqn:E.
  - by rewrite map_size_insert_Some by eauto.
  - by rewrite map_size_insert_None by eauto.
Qed.

Lemma dense_remove_wf id d : dense_wf d -> dense_wf (Dense.remove id d).1.
Proof.
  intros [W Hl]. pose proof (dense_remove_abs id d W) as Ha.
  pose proof (remove_ok id d W) as Hi. destruct (Dense.remove id d) as [d' old]. simpl in *.
  destruct Hi as (W' & -> & Hg & Hn). split; [done|]. rewrite Hn, Ha, Hl.
  rewrite <- dense_abs_lookup by done. destruct (dense_abs d !! id) eqn:E.
  - rewrite map_size_delete_Some by eauto. lia.
  - by rewrite map_size_delete_None by eauto.
Qed.

#[global, program] Instance DenseMap_EntityMap : EntityMap (DenseMap T) T := {
  em_wf := dense_wf;
  em_abs := dense_abs;
  em_empty := Dense.empty;
  em_get := Dense.get;
  em_insert := Dense.insert;
  em_remove := Dense.remove;
  em_iter := Dense.iter;
  em_len := d_len;
}.
Next Obligation. split; [split; [apply empty_slots_wf|done]|done]. Qed.
Next Obligation. intros m id [W _]. by rewrite dense_abs_lookup. Qed.
Next Obligation.
  intros m id v Hw. split_and!; [by apply dense_insert_wf|by apply dense_insert_abs, Hw|].
  pose proof (insert_ok id v m (proj1 Hw)) as Hi. destruct (Dense.insert id v m) as [d' old].
  destruct Hi as (_ & -> & _). by rewrite dense_abs_lookup by apply Hw.
Qed.
Next Obligation.
  intros m id Hw. split_and!; [by apply dense_remove_wf|by apply dense_remove_abs, Hw|].
  pose proof (remove_ok id m (proj1 Hw)) as Hi. destruct (Dense.remove id m) as [d' old].
  destruct Hi as (_ & -> & _). by rewrite dense_abs_lookup by apply Hw.
Qed.
Next Obligation.
  intros m [W _]. unfold dense_abs. by rewrite map_to_list_to_map by by apply NoDup_iter.
Qed.
Next Obligation. by intros m [_ ?]. Qed.
End dense_proofs.

Section dense_run.
Context {T : Type}.
Implicit Types (d : DenseMap T) (m : gmap N T).

Lemma get_mut_ok id f d : dense_wf d ->
  dense_wf (Dense.get_mut id f d) /\ dense_abs (Dense.get_mut id f d) = alter f id (dense_abs d).
Proof.
  intros [W Hl].
  assert (slots_wf (Dense.get_mut id f d) /\ d_len (Dense.get_mut id f d) = d_len d /\
    forall k, Dense.get k (Dense.get_mut id f d) =
              if decide (id = k) then f <$> Dense.get id d else Dense.get k d) as (W' & Hl' & Hg).
  { unfold Dense.get_mut, Dense.slot. case_bool_decide as Hid.
    - rewrite read_slot_get, N2Nat.id by done. destruct (Dense.get id d) as [w|] eqn:Eg.
      + by destruct (write_dense_ok d id (Some (f w)) (d_len d) W Hid) as [Hw Hk].
      + split_and!; [done..|]. intros k. case_decide; [by subst|done].
    - apply Nat.nlt_ge in Hid.
      assert (Dense.get id d = d_sparse d !! id) as ->.
      { rewrite get_slots by done. by rewrite decide_False by lia. }
      edestruct (write_sparse_ok d id (alter f id (d_sparse d)) (d_sparse_min d)) as [Hw Hk];
        [done|done|intros k Hk; by apply lookup_alter_ne| |split; [exact Hw|]].
      + intros k [w Hw]. destruct (decide (id = k)) as [<-|Hne].
        * rewrite lookup_alter_eq in Hw. destruct (d_sparse d !! id) as [w'|] eqn:E; [|done].
          by apply (wf_sparse _ W) in E as [_ ?].
        * rewrite lookup_alter_ne in Hw by done. by apply (wf_sparse _ W) in Hw as [_ ?].
      + split; [done|]. intros k. rewrite Hk. by rewrite lookup_alter_eq. }
  assert (dense_abs (Dense.get_mut id f d) = alter f id (dense_abs d)) as Ha.
  { apply map_eq. intros k. rewrite dense_abs_lookup, Hg by done.
    rewrite lookup_alter, !dense_abs_lookup by done. done. }
  split; [|done]. split; [done|]. by rewrite Hl', Ha, Hl, <- !size_dom, dom_alter_L.
Qed.

Lemma entry_or_default_ok dflt id f d : dense_wf d ->
  dense_wf (Dense.entry_or_default dflt id f d) /\
  dense_abs (Dense.entry_or_default dflt id f d) =
    <[id := f (default dflt (dense_abs d !! id))]> (dense_abs d).
Proof.
  intros Hwf.
  set (d1 := if Dense.contains_key id d then d else (Dense.insert id dflt d).1).
  assert (dense_wf d1 /\ dense_abs d1 = <[id := default dflt (dense_abs d !! id)]> (dense_abs d))
    as [Hwf1 Ha1].
  { unfold d1, Dense.contains_key. rewrite <- dense_abs_lookup by apply Hwf.
    case_bool_decide as Hs.
    - destruct Hs as [w Hw]. rewrite Hw. simpl. by rewrite insert_id.
    - apply eq_None_not_Some in Hs. rewrite Hs. simpl.
      split; [by apply dense_insert_wf|by apply dense_insert_abs, Hwf]. }
  destruct Hwf1 as [W1 Hl1].
  assert (Dense.get id d1 = Some (default dflt (dense_abs d !! id))) as Hg1
    by (by rewrite <- dense_abs_lookup, Ha1, lookup_insert_eq).
  assert (slots_wf (Dense.entry_or_default dflt id f d) /\
    d_len (Dense.entry_or_default dflt id f d) = d_len d1 /\
    forall k, Dense.get k (Dense.entry_or_default dflt id f d) =
      if decide (id = k) then Some (f (default dflt (dense_abs d !! id))) else Dense.get k d1)
    as (W' & Hl' & Hg).
  { unfold Dense.entry_or_default. fold d1. unfold Dense.slot. case_bool_decide as Hid.
    - rewrite read_slot_get, N2Nat.id, Hg1 by done. simpl.
      by destruct (write_dense_ok d1 id (Some (f (default dflt (dense_abs d !! id)))) (d_len d1) W1 Hid).
    - apply Nat.nlt_ge in Hid.
      assert (d_sparse d1 !! id = Dense.get id d1) as Hsp
        by (rewrite get_slots by done; by rewrite decide_False by lia).
      rewrite Hsp, Hg1. simpl.
      edestruct (write_sparse_ok d1 id (<[id := f (default dflt (dense_abs d !! id))]> (d_sparse d1))
        (d_sparse_min d1)) as [Hw Hk];
        [done|done|intros k Hk; by apply lookup_insert_ne| |split; [exact Hw|]].
      + intros k [w Hw]. destruct (decide (id = k)) as [<-|Hne].
        * rewrite Hg1 in Hsp. by apply (wf_sparse _ W1) in Hsp as [_ ?].
        * rewrite lookup_insert_ne in Hw by done. by apply (wf_sparse _ W1) in Hw as [_ ?].
      + split; [done|]. intros k. rewrite Hk. by rewrite lookup_insert_eq. }
  assert (dense_abs (Dense.entry_or_default dflt id f d) =
    <[id := f (default dflt (dense_abs d !! id))]> (dense_abs d)) as Ha.
  { apply map_eq. intros k. rewrite dense_abs_lookup, Hg by done.
    rewrite <- dense_abs_lookup by done. rewrite Ha1, !lookup_insert. by case_decide. }
  split; [|done]. split; [done|]. rewrite Hl', Hl1, Ha, Ha1.
  by rewrite !map_size_insert.
Qed.

(** The operations of the engine on an entity store. *)
Inductive MapOp : Type :=
| OpInsert (id : N) (v : T)
| OpRemove (id : N)
| OpGetMut (id : N) (f : T -> T)
| OpEntry (dflt : T) (id : N) (f : T -> T).

Definition dense_step d (op : MapOp) : DenseMap T :=
  match op with
  | OpInsert id v => (Dense.insert id v d).1
  | OpRemove id => (Dense.remove id d).1
  | OpGetMut id f => Dense.get_mut id f d
  | OpEntry dflt id f => Dense.entry_or_default dflt id f d
  end.

Definition map_step m (op : MapOp) : gmap N T :=
  match op with
  | OpInsert id v => <[id := v]> m
  | OpRemove id => delete id m
  | OpGetMut id f => alter f id m
  | OpEntry dflt id f => <[id := f (default dflt (m !! id))]> m
  end.

Lemma dense_step_ok d op : dense_wf d ->
  dense_wf (dense_step d op) /\ dense_abs (dense_step d op) = map_step (dense_abs d) op.
Proof.
  intros Hwf. destruct op; simpl.
  - split; [by apply dense_insert_wf|by apply dense_insert_abs, Hwf].
  - split; [by apply dense_remove_wf|by apply dense_remove_abs, Hwf].
  - by apply get_mut_ok.
  - by apply entry_or_default_ok.
Qed.

Lemma dense_run_ok d ops : dense_wf d ->
  dense_wf (foldl dense_step d ops) /\
  dense_abs (foldl dense_step d ops) = foldl map_step (dense_abs d) ops.
Proof.
  revert d. induction ops as [|op ops IH]; intros d Hwf; [done|]. simpl.
  destruct (dense_step_ok d op Hwf) as [Hwf' <-]. by apply IH.
Qed.
End dense_run.

(** ** Id sets *)
Lemma first_of_spec l x : Ids.first_of l = Some x <-> x ∈ l /\ forall y, y ∈ l -> x <= y.
Proof.
  unfold Ids.first_of.
  assert (forall a xs z, foldr N.min a xs = z ->
    (z ∈ a :: xs) /\ forall y, y ∈ a :: xs -> z <= y) as Hf.
  { intros a xs. induction xs as [|b xs IH]; intros z; cbn [foldr].
    - intros <-. split; [by left|]. intros y ->%list_elem_of_singleton. lia.
    - intros <-. destruct (IH _ eq_refl) as [Hin Hle]. split.
      + destruct (N.min_spec b (foldr N.min a xs)) as [[_ ->]|[_ ->]]; set_solver.
      + intros y Hy. assert (y = b \/ y ∈ a :: xs) as [->|Hy'] by set_solver; [lia|].
        specialize (Hle y Hy'). lia. }
  destruct (elements l) as [|a xs] eqn:E.
  - split; [done|]. intros [Hx _]. apply elem_of_elements in Hx. rewrite E in Hx.
    by apply not_elem_of_nil in Hx.
  - assert (forall y, y ∈ l <-> y ∈ a :: xs) as Hl by (intros y; rewrite <- E; by rewrite elem_of_elements).
    setoid_rewrite Hl. destruct (Hf a xs _ eq_refl) as [H1 H2]. split.
    + intros [= <-]. auto.
    + intros [H3 H4]. f_equal. specialize (H2 _ H3). specialize (H4 _ H1). lia.
Qed.

Lemma ids_insert_ok id s : ids_wf s ->
  ids_wf (Ids.insert id s).1 /\ ids_abs (Ids.insert id s).1 = {[ id ]} ∪ ids_abs s /\
  (Ids.insert id s).2 = bool_decide (id ∉ ids_abs s).
Proof.
  destruct s as [|e|l]; cbn [Ids.insert ids_wf ids_abs fst snd]; intros Hw.
  - split_and!; [done|set_solver|]. by rewrite bool_decide_eq_true_2 by set_solver.
  - case_bool_decide as He; cbn [ids_wf ids_abs fst snd].
    + subst. split_and!; [done|set_solver|]. by rewrite bool_decide_eq_false_2 by set_solver.
    + split_and!; [|set_solver|by rewrite bool_decide_eq_true_2 by set_solver].
      rewrite (size_union (C := gset N) {[ e ]} {[ id ]}) by set_solver.
      by rewrite !size_singleton.
  - split_and!; [|done|by rewrite bool_decide_not].
    etrans; [exact Hw|]. apply subseteq_size. set_solver.
Qed.

Lemma ids_remove_ok id s : ids_wf s ->
  ids_wf (Ids.remove id s).1 /\ ids_abs (Ids.remove id s).1 = ids_abs s ∖ {[ id ]} /\
  (Ids.remove id s).2 = bool_decide (id ∈ ids_abs s).
Proof.
  destruct s as [|e|l]; cbn [Ids.remove ids_wf ids_abs fst snd]; intros Hw.
  - split_and!; [done|set_solver|]. by rewrite bool_decide_eq_false_2 by set_solver.
  - case_bool_decide as He; simpl; split_and!; try done; try set_solver.
    + by rewrite bool_decide_eq_true_2 by set_solver.
    + by rewrite bool_decide_eq_false_2 by set_solver.
  - split; [|split; [|done]].
    + case_bool_decide as Hs.
      * apply size_1_elem_of in Hs as [x Hx]. destruct (Ids.first_of _) eqn:E; [done|].
        assert (Ids.first_of (l ∖ {[id]}) = Some x) as Hf; [|congruence].
        apply first_of_spec. split; [set_solver|]. intros y Hy.
        assert (y = x) as -> by set_solver. lia.
      * simpl. assert (size l <= S (size (l ∖ {[id]})))%nat; [|lia].
        rewrite <- (Nat.add_1_r (size _)). rewrite <- (size_singleton (C := gset N) id).
        rewrite <- size_union by set_solver. apply subseteq_size.
        intros y Hy. destruct (decide (y = id)); set_solver.
    + case_bool_decide as Hs; [|done]. destruct (Ids.first_of _) as [x|] eqn:E; [|done].
      apply first_of_spec in E as [Hx _]. cbn [ids_abs].
      apply size_1_elem_of in Hs as [z Hz]. apply leibniz_equiv. rewrite Hz in Hx |- *.
      apply elem_of_singleton in Hx. by rewrite Hx.
Qed.

(** ** Theorems *)

(** C40: [DenseMap] is a finite map.  After any sequence of inserts, removals,
    in-place updates and entry updates on an empty map, lookups, the length and
    the iteration are those of the finite map after the same operations, though
    ids move between the hash table and the chunks as the vector grows. *)
Theorem dense_map_refines {T} (ops : list (MapOp (T := T))) :
  let d := foldl dense_step Dense.empty ops in
  let m := foldl map_step (∅ : gmap N T) ops in
  (forall id, Dense.get id d = m !! id) /\ d_len d = size m /\
  Dense.iter d ≡ₚ map_to_list m /\
  (forall id v, (Dense.insert id v d).2 = m !! id) /\
  (forall id, (Dense.remove id d).2 = m !! id).
Proof.
  intros d m. destruct (dense_run_ok Dense.empty ops
    (proj1 (@em_empty_ok _ _ DenseMap_EntityMap))) as [Hwf Ha].
  fold d in Hwf, Ha. assert (dense_abs d = m) as Em by done. rewrite <- Em. split_and!.
  - intros id. exact (em_get_ok d id Hwf).
  - exact (em_len_ok d Hwf).
  - exact (em_iter_ok d Hwf).
  - intros id v. exact (proj2 (proj2 (em_insert_ok d id v Hwf))).
  - intros id. exact (proj2 (proj2 (em_remove_ok d id Hwf))).
Qed.

(** [IdSet] is a finite set.  After any sequence of inserts ([inl]) and
    removals ([inr]) on an empty set, membership, emptiness, the length and the
    least element are those of the finite set, a set of one id is always stored
    inline, iteration is strictly ascending, and both mutators report whether
    they changed the set. *)
Theorem id_set_refines (ops : list (N + N)) :
  let step s op := match op with inl id => (Ids.insert id s).1 | inr id => (Ids.remove id s).1 end in
  let gstep (s : gset N) (op : N + N) := match op with inl id => {[ id ]} ∪ s | inr id => s ∖ {[ id ]} end in
  let s := foldl step IdEmpty ops in
  let g := foldl gstep ∅ ops in
  Ids.len s = size g /\ Ids.is_empty s = bool_decide (g = ∅) /\
  (forall x, Ids.first s = Some x <-> x ∈ g /\ forall y, y ∈ g -> x <= y) /\
  StronglySorted N.le (Ids.iter s) /\ Ids.iter s ≡ₚ elements g /\
  (forall id, g = {[ id ]} -> s = IdOne id) /\
  (forall id, (Ids.insert id s).2 = bool_decide (id ∉ g)) /\
  (forall id, (Ids.remove id s).2 = bool_decide (id ∈ g)).
Proof.
  intros step gstep s g.
  assert (ids_wf s /\ ids_abs s = g) as [Hw <-].
  { unfold s, g. assert (ids_wf IdEmpty /\ ids_abs IdEmpty = ∅) as [W0 E0] by done.
    revert W0 E0. generalize IdEmpty as s0. generalize (∅ : gset N) as g0.
    induction ops as [|op ops IH]; intros g0 s0 W0 E0; [done|]. simpl. apply IH.
    - destruct op; simpl; [by apply ids_insert_ok|by apply ids_remove_ok].
    - destruct op; simpl; [|]; [destruct (ids_insert_ok n s0 W0) as (_ & -> & _)
                               |destruct (ids_remove_ok n s0 W0) as (_ & -> & _)]; by rewrite E0. }
  split_and!.
  - destruct s; cbn [Ids.len Ids.is_empty Ids.iter Ids.first ids_abs]; [done|by rewrite size_singleton|done].
  - destruct s; cbn [Ids.len Ids.is_empty Ids.iter Ids.first ids_abs]; [done| |done]. by rewrite bool_decide_eq_false_2 by set_solver.
  - intros x. destruct s; cbn [Ids.len Ids.is_empty Ids.iter Ids.first ids_abs]; [set_solver| |apply first_of_spec].
    split; [intros [= ->]; set_solver by lia|]. intros [->%elem_of_singleton _]. done.
  - destruct s; cbn [Ids.len Ids.is_empty Ids.iter Ids.first ids_abs]; [constructor|repeat constructor|].
    apply (StronglySorted_merge_sort N.le).
  - destruct s; cbn [Ids.len Ids.is_empty Ids.iter Ids.first ids_abs]; [done|by rewrite elements_singleton|apply merge_sort_Permutation].
  - intros id Hid. destruct s as [|e|l]; cbn [ids_abs ids_wf] in *; [set_solver|f_equal; set_solver|].
    rewrite Hid, size_singleton in Hw. lia.
  - intros id. by apply ids_insert_ok.
  - intros id. by apply ids_remove_ok.
Qed.
