(* ===== verification/Levenshtein.v ===== *)
(** * Edit distance ([src/drevo-core/src/levenshtein.rs])

    The one-row dynamic program of the source against the recursive definition
    of the Levenshtein distance.  Characters are any type with decidable
    equality (Unicode scalar values in the source).  The row is carried as the
    list of its cells; indexing [row[j]] left to right is a traversal. *)
From S2P Require Import Prelude.

Section levenshtein.
Context {A : Type} `{EqDecision A}.
Implicit Types (a b : list A) (row : list nat).

Definition cost (x y : A) : nat := if decide (x = y) then 0 else 1.

(** The inner loop over [b]: [left] is [row[j]], already updated, [diagonal] the
    old [row[j]], and the list starts with the old [row[j + 1]].  Returns the
    updated cells. *)
Fixpoint inner (x : A) (b : list A) (diagonal left : nat) (row : list nat) : list nat :=
  match b, row with
  | y :: b, above :: row =>
      let cell := Nat.min (Nat.min (diagonal + cost x y) (above + 1)) (left + 1) in
      cell :: inner x b above cell row
  | _, _ => []
  end.

(** One pass of the outer loop: [row[0] = i + 1], then the inner loop. *)
Definition next_row (i : nat) (x : A) (b : list A) (row : list nat) : list nat :=
  match row with
  | diagonal :: rest => S i :: inner x b diagonal (S i) rest
  | [] => []
  end.

Fixpoint rows (i : nat) (a b : list A) (row : list nat) : list nat :=
  match a with
  | [] => row
  | x :: a => rows (S i) a b (next_row i x b row)
  end.

Definition distance (a b : list A) : nat :=
  default 0 (rows 0 a b (seq 0 (S (length b))) !! length b).

(** [best]: the least cell of the new row. *)
Definition row_best (row : list nat) : nat :=
  match row with c :: row => foldl Nat.min c row | [] => 0 end.

Fixpoint rows_within (max : nat) (i : nat) (a b : list A) (row : list nat) : option (list nat) :=
  match a with
  | [] => Some row
  | x :: a =>
      let row := next_row i x b row in
      if (max <? row_best row)%nat then None else rows_within max (S i) a b row
  end.

Definition distance_within (a b : list A) (max : nat) : option nat :=
  if (max <? (length a - length b) + (length b - length a))%nat then None
  else
    row ← rows_within max 0 a b (seq 0 (S (length b)));
    let d := default 0 (row !! length b) in
    if (d <=? max)%nat then Some d else None.

(** ** The definition: edit scripts

    [edits n a b]: [n] single-character insertions, deletions and substitutions
    turn [a] into [b], working from the front. *)
Inductive edits : nat -> list A -> list A -> Prop :=
| edits_nil : edits 0 [] []
| edits_keep n x a b : edits n a b -> edits n (x :: a) (x :: b)
| edits_subst n x y a b : edits n a b -> edits (S n) (x :: a) (y :: b)
| edits_delete n x a b : edits n a b -> edits (S n) (x :: a) b
| edits_insert n y a b : edits n a b -> edits (S n) a (y :: b).

(** The same from the back, where the dynamic program works. *)
Fixpoint lev_rev (a b : list A) {struct a} : nat :=
  match a with
  | [] => length b
  | x :: a' =>
      (fix go (b : list A) : nat :=
         match b with
         | [] => S (length a')
         | y :: b' =>
             Nat.min (Nat.min (lev_rev a' b' + cost x y) (lev_rev a' (y :: b') + 1)) (go b' + 1)
         end) b
  end.

Definition lev (a b : list A) : nat := lev_rev (rev a) (rev b).

Lemma lev_rev_nil_r a : lev_rev a [] = length a.
Proof. by destruct a. Qed.

Lemma lev_rev_cons x a y b : lev_rev (x :: a) (y :: b) =
  Nat.min (Nat.min (lev_rev a b + cost x y) (lev_rev a (y :: b) + 1)) (lev_rev (x :: a) b + 1).
Proof. done. Qed.

(** *** The distance is the least number of edits *)
Lemma edits_insert_all b : edits (length b) [] b.
Proof. induction b; simpl; by constructor. Qed.

Lemma edits_delete_all a : edits (length a) a [].
Proof. induction a; simpl; by constructor. Qed.

Lemma lev_rev_edits a b : edits (lev_rev a b) a b.
Proof.
  revert b. induction a as [|x a IHa]; intros b; [apply edits_insert_all|].
  induction b as [|y b IHb]; [rewrite lev_rev_nil_r; apply edits_delete_all|].
  rewrite lev_rev_cons.
  destruct (Nat.min_spec (Nat.min (lev_rev a b + cost x y) (lev_rev a (y :: b) + 1))
    (lev_rev (x :: a) b + 1)) as [[_ ->]|[_ ->]];
    [destruct (Nat.min_spec (lev_rev a b + cost x y) (lev_rev a (y :: b) + 1)) as [[_ ->]|[_ ->]]|].
  - unfold cost. case_decide as Hd.
    + subst. rewrite Nat.add_0_r. apply edits_keep, IHa.
    + rewrite Nat.add_1_r. apply edits_subst, IHa.
  - rewrite Nat.add_1_r. apply edits_delete, IHa.
  - rewrite Nat.add_1_r. apply edits_insert, IHb.
Qed.

Lemma lev_rev_step_l x a b : (lev_rev (x :: a) b <= S (lev_rev a b))%nat.
Proof.
  destruct b as [|y b]; [by rewrite !lev_rev_nil_r|]. rewrite lev_rev_cons. lia.
Qed.

Lemma lev_rev_step_r a y b : (lev_rev a (y :: b) <= S (lev_rev a b))%nat.
Proof. destruct a as [|x a]; [simpl; lia|]. rewrite lev_rev_cons. lia. Qed.

Lemma lev_rev_step_both x a y b : (lev_rev (x :: a) (y :: b) <= lev_rev a b + cost x y)%nat.
Proof. rewrite lev_rev_cons. lia. Qed.

Lemma lev_rev_least n a b : edits n a b -> (lev_rev a b <= n)%nat.
Proof.
  induction 1 as [|n x a b _ IH|n x y a b _ IH|n x a b _ IH|n y a b _ IH]; simpl; [done|..].
  - etrans; [apply lev_rev_step_both|]. unfold cost. rewrite decide_True by done. lia.
  - etrans; [apply lev_rev_step_both|]. unfold cost. case_decide; lia.
  - etrans; [apply lev_rev_step_l|]. lia.
  - etrans; [apply lev_rev_step_r|]. lia.
Qed.

Lemma edits_app n a b m c d : edits n a b -> edits m c d -> edits (n + m) (a ++ c) (b ++ d).
Proof. intros H1 H2. induction H1; simpl; try done; by constructor. Qed.

Lemma edits_rev n a b : edits n a b -> edits n (rev a) (rev b).
Proof.
  induction 1 as [|n x a b _ IH|n x y a b _ IH|n x a b _ IH|n y a b _ IH]; simpl.
  - constructor.
  - rewrite <- (Nat.add_0_r n). apply edits_app; [done|repeat constructor].
  - rewrite <- (Nat.add_1_r n). apply edits_app; [done|repeat constructor].
  - rewrite <- (Nat.add_1_r n), <- (app_nil_r (rev b)). apply edits_app; [done|repeat constructor].
  - rewrite <- (Nat.add_1_r n), <- (app_nil_r (rev a)). apply edits_app; [done|repeat constructor].
Qed.

(** [n] is the least number of edits. *)
Definition least_edits (n : nat) (a b : list A) : Prop :=
  edits n a b /\ forall m, edits m a b -> (n <= m)%nat.

Lemma lev_least a b : least_edits (lev a b) a b.
Proof.
  split.
  - pose proof (edits_rev _ _ _ (lev_rev_edits (rev a) (rev b))) as He.
    by rewrite !rev_involutive in He.
  - intros m Hm. apply lev_rev_least. by apply edits_rev.
Qed.

(** *** The rows hold the distances of prefixes *)

(** Row [i]: the distances between the prefix [p] of [a] and every prefix of [b]. *)
Definition row_of (p b : list A) : list nat :=
  (fun j => lev p (take j b)) <$> seq 0 (S (length b)).

Lemma lev_snoc p x q y : lev (p ++ [x]) (q ++ [y]) =
  Nat.min (Nat.min (lev p q + cost x y) (lev p (q ++ [y]) + 1)) (lev (p ++ [x]) q + 1).
Proof. unfold lev. rewrite !rev_app_distr. simpl. done. Qed.

(** The cells of a row from column [j] on. *)
Fixpoint cells (p q b : list A) : list nat :=
  match b with [] => [] | y :: b => lev p (q ++ [y]) :: cells p (q ++ [y]) b end.

Lemma cells_row p q b :
  cells p q b = (fun j => lev p (q ++ take j b)) <$> seq 1 (length b).
Proof.
  revert q. induction b as [|y b IH]; intros q; [done|]. simpl. f_equal.
  rewrite IH, <- (fmap_S_seq 1 (length b)), <- list_fmap_compose. apply list_fmap_ext. intros i j _. simpl.
  by rewrite <- app_assoc.
Qed.

Lemma row_of_cells p b : row_of p b = lev p [] :: cells p [] b.
Proof. unfold row_of. by rewrite cells_row. Qed.

Lemma inner_cells x p q b :
  inner x b (lev p q) (lev (p ++ [x]) q) (cells p q b) = cells (p ++ [x]) q b.
Proof.
  revert q. induction b as [|y b IH]; intros q; [done|]. simpl.
  rewrite <- lev_snoc. by rewrite IH.
Qed.

Lemma lev_nil_r p : lev p [] = length p.
Proof. unfold lev. simpl. by rewrite lev_rev_nil_r, length_rev. Qed.

Lemma lev_nil_l q : lev [] q = length q.
Proof. unfold lev. simpl. by rewrite length_rev. Qed.

Lemma next_row_ok x p b : next_row (length p) x b (row_of p b) = row_of (p ++ [x]) b.
Proof.
  rewrite !row_of_cells. simpl. rewrite !lev_nil_r, length_app. simpl. f_equal; [lia|].
  rewrite <- inner_cells. rewrite !lev_nil_r, length_app. simpl. by rewrite Nat.add_1_r.
Qed.

Lemma rows_ok p a b : rows (length p) a b (row_of p b) = row_of (p ++ a) b.
Proof.
  revert p. induction a as [|x a IH]; intros p; cbn [rows]; [by rewrite app_nil_r|].
  rewrite next_row_ok. specialize (IH (p ++ [x])). rewrite length_app in IH. cbn [length] in IH.
  rewrite Nat.add_1_r in IH. by rewrite IH, <- app_assoc.
Qed.

Lemma row_of_nil b : seq 0 (S (length b)) = row_of [] b.
Proof.
  unfold row_of. apply list_eq. intros i. rewrite list_lookup_fmap.
  destruct (decide (i < S (length b))%nat) as [Hi|Hi].
  - rewrite lookup_seq_lt by done. simpl. rewrite lev_nil_l, length_take. f_equal. lia.
  - rewrite lookup_seq_ge by lia. done.
Qed.

Lemma row_of_last p b : row_of p b !! length b = Some (lev p b).
Proof.
  unfold row_of. rewrite list_lookup_fmap, lookup_seq_lt by lia. simpl.
  by rewrite take_ge by lia.
Qed.

(** *** Giving up early *)
Lemma lev_rev_length a b : (length b <= lev_rev a b + length a)%nat /\ (length a <= lev_rev a b + length b)%nat.
Proof.
  pose proof (lev_rev_edits a b) as He. induction He; simpl in *; lia.
Qed.

Lemma row_best_spec row n : row <> [] ->
  (n < row_best row)%nat <-> forall c, c ∈ row -> (n < c)%nat.
Proof.
  destruct row as [|c row]; [done|]. intros _. simpl. revert c.
  induction row as [|c' row IH]; intros c; simpl.
  - split; [by intros ? ? ->%list_elem_of_singleton|]. intros Hc. apply Hc. by left.
  - rewrite IH. split.
    + intros Hall c0 [->|[->|Hc0]%elem_of_cons]%elem_of_cons.
      * specialize (Hall (Nat.min c c') ltac:(by left)). lia.
      * specialize (Hall (Nat.min c c') ltac:(by left)). lia.
      * apply Hall. by right.
    + intros Hall c0 [->|Hc0]%elem_of_cons.
      * pose proof (Hall c ltac:(by left)). pose proof (Hall c' ltac:(by right; left)). lia.
      * apply Hall. by right; right.
Qed.

(** Every script for [a = p ++ s] passes through a cell of row [p]. *)
Lemma edits_split n p s b : edits n (p ++ s) b ->
  exists j m, (j <= length b)%nat /\ (m <= n)%nat /\ edits m p (take j b).
Proof.
  revert n b. induction p as [|x p IH]; intros n b He; simpl in *.
  - exists 0, 0. split_and!; [lia|lia|constructor].
  - remember (x :: p ++ s) as a eqn:Ea. induction He; simplify_eq/=.
    + destruct (IH _ _ He) as (j & m & Hj & Hm & Hs). exists (S j), m. simpl.
      split_and!; [lia|lia|by constructor].
    + destruct (IH _ _ He) as (j & m & Hj & Hm & Hs). exists (S j), (S m). simpl.
      split_and!; [lia|lia|by constructor].
    + destruct (IH _ _ He) as (j & m & Hj & Hm & Hs). exists j, (S m).
      split_and!; [lia|lia|by constructor].
    + destruct IHHe as (j & m & Hj & Hm & Hs); [done|]. exists (S j), (S m). simpl.
      split_and!; [lia|lia|by constructor].
Qed.

Lemma best_bound p s b max : (max < row_best (row_of p b))%nat -> (max < lev (p ++ s) b)%nat.
Proof.
  intros Hb. rewrite row_best_spec in Hb by (by rewrite row_of_cells).
  destruct (edits_split _ p s b (proj1 (lev_least (p ++ s) b))) as (j & m & Hj & Hm & He).
  apply lev_least in He. specialize (Hb (lev p (take j b))).
  assert (lev p (take j b) ∈ row_of p b) as Hin.
  { apply list_elem_of_fmap. exists j. split; [done|]. apply elem_of_seq. lia. }
  specialize (Hb Hin). lia.
Qed.

Lemma rows_within_ok max p a b :
  match rows_within max (length p) a b (row_of p b) with
  | Some row => row = row_of (p ++ a) b
  | None => (max < lev (p ++ a) b)%nat
  end.
Proof.
  revert p. induction a as [|x a IH]; intros p; cbn [rows_within]; [by rewrite app_nil_r|].
  rewrite next_row_ok. specialize (IH (p ++ [x])). rewrite length_app in IH. cbn [length] in IH.
  rewrite Nat.add_1_r, <- app_assoc in IH. cbn [app] in IH. cbv zeta.
  destruct (max <? row_best _)%nat eqn:E; [|done]. apply Nat.ltb_lt in E.
  replace (p ++ x :: a) with ((p ++ [x]) ++ a) by (by rewrite <- app_assoc). by apply best_bound.
Qed.
End levenshtein.

(** ** Theorems *)

(** [distance] is the edit distance: the least number of single-character
    insertions, deletions and substitutions that turn one string into the
    other. *)
Theorem distance_least_edits {A} `{EqDecision A} (a b : list A) :
  least_edits (distance a b) a b.
Proof.
  unfold distance. rewrite row_of_nil. rewrite (rows_ok [] a b). simpl.
  rewrite row_of_last. apply lev_least.
Qed.

(** [distance_within] is [distance] cut off at [max]: giving up on the
    length difference or on a row whose cells all exceed [max] never loses a
    result. *)
Theorem distance_within_exact {A} `{EqDecision A} (a b : list A) (max : nat) :
  distance_within a b max = if decide (distance a b <= max)%nat then Some (distance a b) else None.
Proof.
  assert (distance a b = lev a b) as ->.
  { unfold distance. rewrite row_of_nil, (rows_ok [] a b). simpl. by rewrite row_of_last. }
  unfold distance_within. pose proof (lev_rev_length (rev a) (rev b)) as Hl.
  rewrite !length_rev in Hl. fold (lev a b) in Hl.
  destruct (max <? _)%nat eqn:E.
  - apply Nat.ltb_lt in E. rewrite decide_False by lia. done.
  - rewrite row_of_nil. pose proof (rows_within_ok max [] a b) as Hw. simpl in Hw.
    destruct (rows_within max 0 a b (row_of [] b)) as [row|]; simpl.
    + subst row. rewrite row_of_last. simpl. destruct (lev a b <=? max)%nat eqn:El.
      * apply Nat.leb_le in El. by rewrite decide_True.
      * apply Nat.leb_gt in El. by rewrite decide_False by lia.
    + by rewrite decide_False by lia.
Qed.
