(* ===== verification/Csr.v ===== *)
(** * Compressed sparse rows ([src/drevo-core/src/csr.rs])

    The flat adjacency built from a sorted vertex list, its lookups, and the
    parallel map over its vertices.  Offsets and neighbours are 32-bit; node ids
    are 64-bit. *)
From S2P Require Import Prelude.
Local Open Scope N_scope.

Record CsrAdjacency : Type := mkCsr {
  vertices : list N;
  offsets : list N;
  neighbors : list N;
}.

(** [as u32]. *)
Definition as_u32 (n : nat) : N := N.of_nat n mod 2 ^ 32.

Module Csr.

(** [slice::binary_search] on a strictly ascending slice. *)
Definition binary_search (vs : list N) (id : N) : option nat :=
  fst <$> list_find (fun v => v = id) vs.

(** A row: the neighbours' indices, the dangling ones skipped, sorted. *)
Definition row_of (vs : list N) (out : N -> list N) (id : N) : list N :=
  merge_sort N.le (omap (fun n => as_u32 <$> binary_search vs n) (out id)).

(** The loop over the vertices. *)
Fixpoint build (vs : list N) (out : N -> list N) (rest : list N) (offs ns : list N) :
    list N * list N :=
  match rest with
  | [] => (offs, ns)
  | id :: rest =>
      let ns := ns ++ row_of vs out id in
      build vs out rest (offs ++ [as_u32 (length ns)]) ns
  end.

Definition from_out_neighbors (vs : list N) (out : N -> list N) : CsrAdjacency :=
  let '(offs, ns) := build vs out vs [0] [] in mkCsr vs offs ns.

Definition vertex_count (g : CsrAdjacency) : nat := length (vertices g).
Definition edge_count (g : CsrAdjacency) : nat := length (neighbors g).
Definition node_id (g : CsrAdjacency) (index : nat) : option N := vertices g !! index.
Definition index_of (g : CsrAdjacency) (id : N) : option nat := binary_search (vertices g) id.

(** [&neighbors[start..end]]; [None] where the slice panics. *)
Definition slice {A} (l : list A) (start end_ : nat) : option (list A) :=
  if bool_decide (start <= end_ <= length l)%nat then Some (take (end_ - start) (drop start l))
  else None.

Definition neighbors_of (g : CsrAdjacency) (index : nat) : option (list N) :=
  match offsets g !! index, offsets g !! S index with
  | Some start, Some end_ => slice (neighbors g) (N.to_nat start) (N.to_nat end_)
  | _, _ => Some []
  end.

Definition out_degree (g : CsrAdjacency) (index : nat) : option nat :=
  length <$> neighbors_of g index.

(** [par_map]: [chunks_mut(chunk)] hands every worker a contiguous range; the
    writes of a worker to its slots. *)
Section par_map.
Context {T : Type}.
Variable f : nat -> T.

Definition div_ceil (n d : nat) : nat := ((n + d - 1) / d)%nat.
Definition chunk_size (n threads : nat) : nat :=
  div_ceil n (Nat.min (Nat.max threads 1) n).

(** The ranges [base .. base + len] of the chunks of a slice of [n] slots. *)
Fixpoint ranges (fuel : nat) (base n chunk : nat) : list (list nat) :=
  match fuel with
  | O => []
  | S fuel =>
      if (n =? 0)%nat then []
      else let len := Nat.min chunk n in seq base len :: ranges fuel (base + len) (n - len) chunk
  end.

(** The writes of all workers, worker by worker. *)
Definition writes (n threads : nat) : list (nat * T) :=
  (fun i => (i, f i)) <$> concat (ranges n 0 n (chunk_size n threads)).

Definition run_writes (ws : list (nat * T)) (out : list T) : list T :=
  foldl (fun out w => <[w.1 := w.2]> out) out ws.
End par_map.
End Csr.

(** ** Lemmas *)
Lemma binary_search_spec vs id i : NoDup vs ->
  Csr.binary_search vs id = Some i <-> vs !! i = Some id.
Proof.
  intros Hnd. unfold Csr.binary_search. split.
  - intros ([j v] & Hf & Hj)%fmap_Some. simpl in *. subst j.
    apply list_find_Some in Hf as (? & -> & _). done.
  - intros Hi. destruct (list_find (fun v => v = id) vs) as [[j v]|] eqn:E.
    + apply list_find_Some in E as (Hj & -> & _). simpl. f_equal. by eapply NoDup_lookup.
    + apply list_find_None in E. rewrite Forall_forall in E. exfalso.
      apply (E id); [by eapply list_elem_of_lookup_2|done].
Qed.

(** The neighbours of the vertices in [rest], concatenated. *)
Definition flat (vs : list N) (out : N -> list N) (rest : list N) : list N :=
  concat (Csr.row_of vs out <$> rest).

Lemma build_spec vs out rest offs ns :
  Csr.build vs out rest offs ns =
    (offs ++ ((fun k => as_u32 (length (ns ++ flat vs out (take (S k) rest)))) <$> seq 0 (length rest)),
     ns ++ flat vs out rest).
Proof.
  revert offs ns. induction rest as [|id rest IH]; intros offs ns; simpl.
  { unfold flat. simpl. by rewrite !app_nil_r. }
  rewrite IH. unfold flat. simpl. f_equal.
  - rewrite <- app_assoc. f_equal. simpl. f_equal; [by rewrite app_nil_r|].
    rewrite <- (fmap_S_seq 0 (length rest)), <- list_fmap_compose. apply list_fmap_ext.
    intros i k _. simpl. by rewrite <- app_assoc.
  - by rewrite <- app_assoc.
Qed.

Lemma offsets_lookup vs out i : (i <= length vs)%nat ->
  offsets (Csr.from_out_neighbors vs out) !! i =
    Some (as_u32 (length (flat vs out (take i vs)))).
Proof.
  intros Hi. unfold Csr.from_out_neighbors. rewrite build_spec. simpl.
  destruct i as [|i]; [done|]. simpl. rewrite list_lookup_fmap, lookup_seq_lt by lia. done.
Qed.

Lemma flat_split vs out i id : vs !! i = Some id ->
  flat vs out vs = flat vs out (take i vs) ++ Csr.row_of vs out id ++ flat vs out (drop (S i) vs).
Proof.
  intros Hi. rewrite <- (take_drop_middle vs i id Hi) at 2. unfold flat.
  rewrite fmap_app, concat_app. done.
Qed.

Lemma flat_take_S vs out i id : vs !! i = Some id ->
  flat vs out (take (S i) vs) = flat vs out (take i vs) ++ Csr.row_of vs out id.
Proof.
  intros Hi. rewrite (take_S_r _ _ _ Hi). unfold flat. rewrite fmap_app, concat_app. simpl.
  by rewrite app_nil_r.
Qed.

Lemma as_u32_small n : (N.of_nat n < 2 ^ 32) -> N.to_nat (as_u32 n) = n.
Proof. intros Hn. unfold as_u32. rewrite N.mod_small by done. lia. Qed.

Lemma ranges_seq fuel base n chunk : (n <= fuel)%nat -> (0 < chunk)%nat ->
  concat (Csr.ranges fuel base n chunk) = seq base n.
Proof.
  revert base n. induction fuel as [|fuel IH]; intros base n Hf Hc; cbn [Csr.ranges].
  { by replace n with 0%nat by lia. }
  destruct (n =? 0)%nat eqn:E; [apply Nat.eqb_eq in E as ->; done|]. apply Nat.eqb_neq in E.
  cbn [concat]. rewrite IH by lia. rewrite <- seq_app. f_equal. lia.
Qed.

Lemma run_writes_lookup {T} (f : nat -> T) ws out i : Forall (fun w => w.2 = f w.1) ws ->
  Csr.run_writes ws out !! i =
    if decide (i ∈ ws.*1 /\ (i < length out)%nat) then Some (f i) else out !! i.
Proof.
  revert out. induction ws as [|[j v] ws IH]; intros out Hw.
  { cbn [Csr.run_writes foldl fmap list_fmap]. unfold Csr.run_writes. cbn [foldl].
    case_decide as Hd; [|done]. by destruct Hd as [?%not_elem_of_nil _]. }
  apply Forall_cons in Hw as [Hv Hw]. simpl in Hv. subst v.
  change (Csr.run_writes ((j, f j) :: ws) out) with (Csr.run_writes ws (<[j:=f j]> out)).
  rewrite fmap_cons, IH, length_insert by done. cbn [fst].
  destruct (decide (i = j)) as [->|Hne].
  - destruct (decide (j < length out)%nat) as [Hlt|Hge].
    + rewrite list_lookup_insert_eq by done. repeat case_decide; first [done|set_solver].
    + rewrite list_insert_ge by lia. repeat case_decide; tauto.
  - rewrite list_lookup_insert_ne by done.
    destruct (decide (i ∈ ws.*1 /\ (i < length out)%nat)) as [Hin|Hin];
      destruct (decide (i ∈ j :: ws.*1 /\ (i < length out)%nat)) as [Hin'|Hin']; set_solver.
Qed.

(** ** Theorems *)

(** the flat arrays encode the graph.  For a duplicate-free vertex list and
    fewer than 2^32 adjacency entries, the slice of the [i]-th vertex is in
    bounds and holds exactly the dense indices of its neighbours that are
    vertices, ascending, with the multiplicity they are given; an index out of
    range has no neighbours. *)
Theorem csr_encodes_graph (vs : list N) (out : N -> list N) (i : nat) :
  NoDup vs -> N.of_nat (length vs) < 2 ^ 32 -> N.of_nat (length (flat vs out vs)) < 2 ^ 32 ->
  let g := Csr.from_out_neighbors vs out in
  match vs !! i with
  | Some id => exists row, Csr.neighbors_of g i = Some row /\ StronglySorted N.le row /\
      row ≡ₚ omap (fun n => N.of_nat <$> Csr.binary_search vs n) (out id) /\
      (forall j, N.of_nat j ∈ row <-> exists n, n ∈ out id /\ vs !! j = Some n)
  | None => Csr.neighbors_of g i = Some []
  end.
Proof.
  intros Hnd Hn Hf g. unfold Csr.neighbors_of. destruct (vs !! i) as [id|] eqn:Ei.
  - pose proof (lookup_lt_Some _ _ _ Ei) as Hlt. unfold g. rewrite !offsets_lookup by lia.
    pose proof (flat_split vs out i id Ei) as Hs.
    assert (length (flat vs out (take i vs)) + length (Csr.row_of vs out id) <= length (flat vs out vs))%nat
      as Hle by (rewrite Hs, !length_app; lia).
    rewrite flat_take_S with (id := id), length_app by done.
    rewrite !as_u32_small by lia.
    assert (neighbors (Csr.from_out_neighbors vs out) = flat vs out vs) as ->
      by (unfold Csr.from_out_neighbors; by rewrite build_spec).
    unfold Csr.slice. rewrite bool_decide_eq_true_2 by lia.
    exists (Csr.row_of vs out id). split_and!.
    + rewrite Hs. f_equal. rewrite drop_app_length, take_app_le by lia.
      rewrite take_ge by lia. done.
    + apply (StronglySorted_merge_sort N.le).
    + unfold Csr.row_of. rewrite merge_sort_Permutation. apply reflexive_eq, list_omap_ext.
      apply Forall_Forall2_diag, Forall_forall. intros n _.
      destruct (Csr.binary_search vs n) as [j|] eqn:Ej; [|done]. simpl. f_equal.
      apply binary_search_spec, lookup_lt_Some in Ej; [|done]. unfold as_u32.
      rewrite N.mod_small by lia. done.
    + intros j. unfold Csr.row_of. rewrite merge_sort_Permutation, list_elem_of_omap. split.
      * intros (n & Hin & (k & Hk & Ej)%fmap_Some). exists n. split; [done|].
        apply binary_search_spec in Hk; [|done]. pose proof (lookup_lt_Some _ _ _ Hk).
        unfold as_u32 in Ej. rewrite N.mod_small in Ej by lia.
        by replace j with k by lia.
      * intros (n & Hin & Hj). exists n. split; [done|].
        rewrite (proj2 (binary_search_spec vs n j Hnd) Hj). simpl. f_equal.
        apply lookup_lt_Some in Hj. unfold as_u32. rewrite N.mod_small by lia. done.
  - apply lookup_ge_None in Ei. unfold g.
    assert (offsets (Csr.from_out_neighbors vs out) !! S i = None) as ->.
    { unfold Csr.from_out_neighbors. rewrite build_spec. simpl. apply lookup_ge_None.
      rewrite length_fmap, length_seq. done. }
    by destruct (_ !! i).
Qed.

(** the parallel map is the sequential map.  Whatever the number of threads
    and however their writes interleave, every slot ends up with [f] of its
    index. *)
Theorem par_map_is_map {T} (f : nat -> T) (n threads : nat) (dflt : T) (ws : list (nat * T)) :
  ws ≡ₚ Csr.writes f n threads -> Csr.run_writes ws (replicate n dflt) = f <$> seq 0 n.
Proof.
  intros Hp.
  assert (ws ≡ₚ (fun i => (i, f i)) <$> seq 0 n) as Hw.
  { rewrite Hp. unfold Csr.writes. destruct n as [|n]; [done|]. rewrite ranges_seq; [done|done|].
    unfold Csr.chunk_size, Csr.div_ceil. apply Nat.div_str_pos. lia. }
  apply list_eq. intros i. rewrite (run_writes_lookup f).
  - rewrite length_replicate, list_lookup_fmap.
    assert (i ∈ ws.*1 <-> (i < n)%nat) as Hi.
    { rewrite Hw, <- list_fmap_compose. rewrite list_elem_of_fmap. setoid_rewrite elem_of_seq.
      split; [intros (j & -> & ?); simpl; lia|]. intros ?. exists i. split; [done|lia]. }
    case_decide as Hd.
    + rewrite lookup_seq_lt by tauto. done.
    + assert (n <= i)%nat by (destruct (decide (i < n)%nat); [tauto|lia]).
      rewrite lookup_seq_ge by lia. apply lookup_ge_None. rewrite length_replicate. lia.
  - rewrite Hw. apply Forall_fmap, Forall_true. done.
Qed.

(** ** Witnesses *)
Lemma csr_encodes_graph_witness :
  let vs := [2; 5; 9] in
  let out := fun id => if bool_decide (id = 5) then [9; 2; 7; 9] else [] in
  exists row, Csr.neighbors_of (Csr.from_out_neighbors vs out) 1 = Some row /\
    StronglySorted N.le row /\
    row ≡ₚ omap (fun n => N.of_nat <$> Csr.binary_search vs n) (out 5) /\
    (forall j, N.of_nat j ∈ row <-> exists n, n ∈ out 5 /\ vs !! j = Some n).
Proof.
  intros vs out. apply (csr_encodes_graph vs out 1).
  - apply (bool_decide_unpack (NoDup [2; 5; 9])). vm_compute. exact I.
  - vm_compute. reflexivity.
  - vm_compute. reflexivity.
Defined.

Lemma par_map_is_map_witness :
  Csr.run_writes (rev (Csr.writes S 5 2)) (replicate 5 0%nat) = S <$> seq 0 5.
Proof. apply (par_map_is_map S 5 2). symmetry. apply Permutation_rev. Defined.
