(* ===== verification/NativeModel.v ===== *)
(** * The engine's data model
    ([src/drevo-core/src/model.rs], [labels.rs], the types of [native.rs])

    Nodes, edges, their inputs and patches, write-ahead-log operations,
    constraints and errors.  JSON values are those of [serde_json]; how they are
    printed is that library's, so the printer is a parameter ([JsonText]). *)
From stdpp Require Export pretty.
From Stdlib Require Ascii String.
From S2P Require Import Prelude.
#[local] Set Warnings "-register-all".
Local Open Scope string_scope.
Local Open Scope list_scope.
Local Open Scope N_scope.

(** ** JSON values *)

(** [serde_json::Value]; a number is carried by its canonical text. *)
Inductive Json : Type :=
| JNull
| JBool (b : bool)
| JNumber (text : string)
| JString (s : string)
| JArray (l : list Json)
| JObject (l : list (string * Json)).

(** [Value::to_string]. *)
Class JsonText := json_text : Json -> string.

Abbreviation Properties := (gmap string Json).

(** An [f32], by its 32 bits. *)
Record F32 : Type := mkF32 { f32_bits : N }.
#[global] Instance F32_eq_dec : EqDecision F32.
Proof. solve_decision. Defined.

Definition f32_is_finite (w : F32) : bool :=
  negb (N.land (N.shiftr (f32_bits w) 23) 255 =? 255).

(** ** Records *)
Record Node : Type := mkNode {
  n_id : N;
  n_uuid : N;
  n_kind : string;
  n_title : string;
  n_body : string;
  n_body_html : string;
  n_created_at : Z;
  n_updated_at : Z;
  n_properties : Properties;
}.

Record NewNode : Type := mkNewNode {
  nn_kind : string;
  nn_title : string;
  nn_body : string;
  nn_body_html : string;
  nn_properties : Properties;
}.

Record NodePatch : Type := mkNodePatch {
  np_kind : option string;
  np_title : option string;
  np_body : option string;
  np_body_html : option string;
  np_properties : option Properties;
}.

Record Edge : Type := mkEdge {
  e_id : N;
  e_uuid : N;
  e_from : N;
  e_to : N;
  e_kind : string;
  e_weight : F32;
  e_created_at : Z;
  e_properties : Properties;
}.

Record NewEdge : Type := mkNewEdge {
  ne_from : N;
  ne_to : N;
  ne_kind : string;
  ne_weight : F32;
  ne_properties : Properties;
}.

Record EdgePatch : Type := mkEdgePatch {
  ep_kind : option string;
  ep_weight : option F32;
  ep_properties : option Properties;
}.

Inductive Direction : Type := Outgoing | Incoming | Both.

(** What a call reads from the system: the wall clock and a fresh uuid. *)
Record Env : Type := mkEnv { env_now : Z; env_uuid : N }.

Definition into_node (env : Env) (n : NewNode) (id : N) : Node :=
  mkNode id (env_uuid env) (nn_kind n) (nn_title n) (nn_body n) (nn_body_html n)
    (env_now env) (env_now env) (nn_properties n).

Definition into_edge (env : Env) (e : NewEdge) (id : N) : Edge :=
  mkEdge id (env_uuid env) (ne_from e) (ne_to e) (ne_kind e) (ne_weight e)
    (env_now env) (ne_properties e).

(** ** Labels *)
Definition SECONDARY_LABELS_KEY : string := "_labels".

Definition secondary_labels (n : Node) : list string :=
  match n_properties n !! SECONDARY_LABELS_KEY with
  | Some (JArray arr) => omap (fun item => match item with JString s => Some s | _ => None end) arr
  | _ => []
  end.

Definition has_label (n : Node) (label : string) : bool :=
  bool_decide (n_kind n = label) || bool_decide (label ∈ secondary_labels n).

(** ** The write-ahead log *)
Inductive WalOp : Type :=
| UpsertNode (n : Node)
| DeleteNode (id : N)
| UpsertEdge (e : Edge)
| DeleteEdge (id : N)
| SetEmbedding (id : N) (v : list F32)
| DeleteEmbedding (id : N)
| Prepare (gid : string) (prepared_at_ms : Z) (ops : list WalOp)
| CommitPrepared (gid : string)
| RollbackPrepared (gid : string) (heuristic : bool).

Record PreparedEntry : Type := mkPrepared { prepared_at_ms : Z; prepared_ops : list WalOp }.

(** ** Constraints *)
Inductive Constraint : Type :=
| UniqueNodeProperty (kind property : string)
| UniqueNodeProperties (kind : string) (properties : list string)
| PropertyExists (kind property : string)
| NodeKey (kind : string) (properties : list string).

#[global] Instance Constraint_eq_dec : EqDecision Constraint.
Proof. solve_decision. Defined.

Definition unique_tuple (c : Constraint) : option (string * list string) :=
  match c with
  | UniqueNodeProperty kind property => Some (kind, [property])
  | UniqueNodeProperties kind properties | NodeKey kind properties => Some (kind, properties)
  | PropertyExists _ _ => None
  end.

Definition requires_presence (c : Constraint) : bool :=
  match c with PropertyExists _ _ | NodeKey _ _ => true | _ => false end.

(** The label and the properties a constraint requires to be present. *)
Definition required_tuple (c : Constraint) : option (string * list string) :=
  match c with
  | PropertyExists kind property => Some (kind, [property])
  | NodeKey kind properties => Some (kind, properties)
  | _ => None
  end.

Record ConstraintViolation : Type := mkViolation { cv_kind : string; cv_message : string }.

#[global] Instance ConstraintViolation_eq_dec : EqDecision ConstraintViolation.
Proof. solve_decision. Defined.

Inductive CoreError : Type :=
| NodeNotFound (id : N)
| EdgeNotFound (id : N)
| InvalidWeight (w : F32)
| Violation (v : ConstraintViolation)
| PreparedPendingErr (gids : list string)
| ReadOnlyErr
| IdCollision (id : N)
| TransactionTooLarge (limit : N)
| Backend (message : string)
| IoErr.

#[global] Instance CoreError_eq_dec : EqDecision CoreError.
Proof. solve_decision. Defined.

(** ** Keys of unique tuples *)
Section keys.
Context `{JsonText}.

Definition unique_key (n : Node) (property : string) : option string :=
  match n_properties n !! property with
  | Some JNull => None
  | Some value => Some (json_text value)
  | None =>
      let field := if bool_decide (property = "title") then Some (n_title n)
                   else if bool_decide (property = "body") then Some (n_body n) else None in
      match field with
      | Some f => if bool_decide (f = "") then None else Some (json_text (JString f))
      | None => None
      end
  end.

Definition TUPLE_SEPARATOR : Ascii.ascii := Ascii.ascii_of_nat 31.

(** The loop of [tuple_key]; [first] stands for [i = 0]. *)
Fixpoint tuple_key_from (first : bool) (n : Node) (properties : list string) : option string :=
  match properties with
  | [] => Some ""
  | p :: ps =>
      k ← unique_key n p;
      rest ← tuple_key_from false n ps;
      Some ((if first then "" else String TUPLE_SEPARATOR "") +:+ k +:+ rest)
  end.

Definition tuple_key (n : Node) (properties : list string) : option string :=
  tuple_key_from true n properties.
End keys.

(** ** Messages *)
Definition join (sep : string) (l : list string) : string := String.concat sep l.

Definition describe_properties (properties : list string) : string :=
  match properties with
  | [one] => "`" +:+ one +:+ "`"
  | many => "(" +:+ join ", " ((fun p => "`" +:+ p +:+ "`") <$> many) +:+ ")"
  end.

(** [key.split(TUPLE_SEPARATOR)]. *)
Fixpoint split_on (sep : Ascii.ascii) (s : string) : list string :=
  match s with
  | EmptyString => [""]
  | String c s =>
      match split_on sep s with
      | part :: parts => if bool_decide (c = sep) then "" :: part :: parts
                         else String c part :: parts
      | [] => []
      end
  end.

Definition describe_key (key : string) : string :=
  match split_on TUPLE_SEPARATOR key with
  | [_] => key
  | parts => "(" +:+ join ", " parts +:+ ")"
  end.
