(* ===== verification/GroupCommit.v ===== *)
(** * Group commit: concurrent writers, one [fsync]
    ([CommitQueue], [group_commit] and [flush_group] of
    [src/drevo-core/src/native.rs])

    Writers run as threads that interleave between the critical sections of the
    queue's mutex.  One call of [act] is one such section, or one file operation
    of the elected leader, whose answer is the argument [io].  A thread that waits
    on the condition variable sleeps: it takes no step of its own until some
    [notify_all] wakes it.  Spurious wake-ups may happen at any time, as a step of
    their own; nothing relies on one. *)
From S2P Require Import Prelude NativeModel.
Local Open Scope list_scope.
Local Open Scope N_scope.

(** A queued write: its sequence, its feed operations and the operations of the
    record its encoded line holds. *)
Record PendingCommit : Type := mkPending { pc_seq : N; pc_ops : list WalOp; pc_line : list WalOp }.

Record CommitQueue : Type := mkQueue {
  pending : list PendingCommit;
  next_seq : N;
  durable_seq : N;
  leader : bool;
  broken : bool;
}.

Definition queue_default : CommitQueue := mkQueue [] 1 0 false false.

(** Where a writer stands in [group_commit (w, f)]. *)
Inductive Phase : Type :=
| Call (w f : list WalOp)
| Waiting (me : PendingCommit)
| Asleep (me : PendingCommit)
| Writing (me : PendingCommit) (batch todo : list PendingCommit)
| Publishing (me : PendingCommit) (batch : list PendingCommit)
| Settling (me : PendingCommit) (batch : list PendingCommit) (flushed : bool)
| Notifying (me : PendingCommit) (flushed : bool)
| Acked (me : PendingCommit)
| Failed.

(** The shared state.  [file] is the log's records in the order they were
    written, [synced] how many of them the last completed [sync_all] covers. *)
Record Group : Type := mkGroup {
  queue : CommitQueue;
  file : list PendingCommit;
  synced : nat;
  fsyncs : N;
  feed : list WalOp;
  threads : gmap nat Phase;
}.

Definition put_phase (t : nat) (p : Phase) (s : Group) : Group :=
  mkGroup (queue s) (file s) (synced s) (fsyncs s) (feed s) (<[t := p]> (threads s)).
Definition put_queue (q : CommitQueue) (s : Group) : Group :=
  mkGroup q (file s) (synced s) (fsyncs s) (feed s) (threads s).

(** The first critical section of [group_commit]: encode, then enqueue. *)
Definition enqueue (t : nat) (w f : list WalOp) (io : bool) (s : Group) : Group :=
  let q := queue s in
  if negb io then put_phase t Failed s
  else if broken q then put_phase t Failed s
  else let me := mkPending (next_seq q) f w in
       put_phase t (Waiting me)
         (put_queue (mkQueue (pending q ++ [me]) (wrap_u64 (next_seq q + 1)) (durable_seq q)
           (leader q) (broken q)) s).

(** One turn of the waiting loop, which ends on the condition variable when
    someone else is flushing: [wait] gives the mutex up and sleeps in one step. *)
Definition try_lead (t : nat) (me : PendingCommit) (s : Group) : Group :=
  let q := queue s in
  if pc_seq me <=? durable_seq q then put_phase t (Acked me) s
  else if broken q then put_phase t Failed s
  else if leader q then put_phase t (Asleep me) s
  else let batch := pending q in
       put_phase t (match batch with [] => Settling me batch true | _ => Writing me batch batch end)
         (put_queue (mkQueue [] (next_seq q) (durable_seq q) true (broken q)) s).

(** [flush_group]: a record appended, the sync, the feed extended. *)
Definition write_record (t : nat) (me : PendingCommit) (batch : list PendingCommit) (pc : PendingCommit)
    (todo : list PendingCommit) (io : bool) (s : Group) : Group :=
  if io
  then put_phase t (Writing me batch todo)
         (mkGroup (queue s) (file s ++ [pc]) (synced s) (fsyncs s) (feed s) (threads s))
  else put_phase t (Settling me batch false) s.

Definition sync_file (t : nat) (me : PendingCommit) (batch : list PendingCommit) (io : bool) (s : Group) : Group :=
  if io
  then put_phase t (Publishing me batch)
         (mkGroup (queue s) (file s) (length (file s)) (wrap_u64 (fsyncs s + 1)) (feed s) (threads s))
  else put_phase t (Settling me batch false) s.

Definition publish (t : nat) (me : PendingCommit) (batch : list PendingCommit) (s : Group) : Group :=
  put_phase t (Settling me batch true)
    (mkGroup (queue s) (file s) (synced s) (fsyncs s) (feed s ++ concat (pc_ops <$> batch)) (threads s)).

(** The leader's last section: it steps down and passes the outcome on.  The
    sleepers are woken after the mutex is released. *)
Definition settle (t : nat) (me : PendingCommit) (batch : list PendingCommit) (flushed : bool) (s : Group) : Group :=
  let q := queue s in
  put_phase t (Notifying me flushed)
    (put_queue (mkQueue (pending q) (next_seq q)
      (if flushed then match last batch with Some pc => N.max (durable_seq q) (pc_seq pc) | None => durable_seq q end
       else durable_seq q)
      false (if flushed then broken q else true)) s).

(** [notify_all]: every sleeper examines the queue again. *)
Definition wake (p : Phase) : Phase := match p with Asleep me => Waiting me | _ => p end.
Definition notify_all (s : Group) : Group :=
  mkGroup (queue s) (file s) (synced s) (fsyncs s) (feed s) (wake <$> threads s).
Definition notify (t : nat) (me : PendingCommit) (flushed : bool) (s : Group) : Group :=
  put_phase t (if flushed then Acked me else Failed) (notify_all s).

Definition act (t : nat) (io : bool) (s : Group) : option Group :=
  match threads s !! t with
  | None | Some (Asleep _) | Some (Acked _) | Some Failed => None
  | Some (Call w f) => Some (enqueue t w f io s)
  | Some (Waiting me) => Some (try_lead t me s)
  | Some (Writing me batch (pc :: todo)) => Some (write_record t me batch pc todo io s)
  | Some (Writing me batch []) => Some (sync_file t me batch io s)
  | Some (Publishing me batch) => Some (publish t me batch s)
  | Some (Settling me batch flushed) => Some (settle t me batch flushed s)
  | Some (Notifying me flushed) => Some (notify t me flushed s)
  end.

(** A freshly opened log and the calls to come. *)
Definition start (calls : gmap nat (list WalOp * list WalOp)) : Group :=
  mkGroup queue_default [] 0 0 [] ((fun c => Call c.1 c.2) <$> calls).

(** Every interleaving, spurious wake-ups included, as long as the sequence
    numbers have not wrapped to 0. *)
Inductive reachable (calls : gmap nat (list WalOp * list WalOp)) : Group -> Prop :=
| reach_start : reachable calls (start calls)
| reach_act t io s s' : reachable calls s -> act t io s = Some s' -> next_seq (queue s') <> 0 ->
    reachable calls s'
| reach_spurious t me s : reachable calls s -> threads s !! t = Some (Asleep me) ->
    reachable calls (put_phase t (Waiting me) s).

(** A schedule: which thread acts and what the outside world answers it. *)
Fixpoint run (l : list (nat * bool)) (s : Group) : option Group :=
  match l with
  | [] => Some s
  | (t, io) :: l => s' ← act t io s; run l s'
  end.

Definition finished (p : Phase) : Prop := match p with Acked _ | Failed => True | _ => False end.
#[global] Instance finished_dec p : Decision (finished p).
Proof. destruct p; apply _. Defined.

(** ** The invariant *)
Definition leading (p : Phase) : Prop :=
  match p with Writing _ _ _ | Publishing _ _ | Settling _ _ _ => True | _ => False end.
#[global] Instance leading_dec p : Decision (leading p).
Proof. destruct p; apply _. Defined.

(** The write a thread has in the queue, if any. *)
Definition phase_me (p : Phase) : option PendingCommit :=
  match p with
  | Call _ _ | Failed => None
  | Waiting me | Asleep me | Writing me _ _ | Publishing me _ | Settling me _ _ | Notifying me _ | Acked me => Some me
  end.

Definition published (k : nat) (s : Group) : Prop := feed s = concat (pc_ops <$> take k (file s)).

(** What the elected leader is in the middle of; [issued] is every write ever
    queued, in order. *)
Definition flight_ok (issued : list PendingCommit) (s : Group) (p : Phase) : Prop :=
  let q := queue s in
  match p with
  | Writing me batch todo =>
      N.to_nat (durable_seq q) = synced s /\ published (synced s) s /\
      drop (synced s) (file s) ++ todo = batch /\ batch <> [] /\
      file s ++ todo ++ pending q = issued /\
      (N.to_nat (pc_seq me) <= length (file s ++ todo))%nat
  | Publishing me batch =>
      synced s = length (file s) /\ file s ++ pending q = issued /\
      drop (N.to_nat (durable_seq q)) (file s) = batch /\ batch <> [] /\
      published (N.to_nat (durable_seq q)) s /\ (N.to_nat (pc_seq me) <= synced s)%nat
  | Settling me batch true =>
      synced s = length (file s) /\ file s ++ pending q = issued /\
      drop (N.to_nat (durable_seq q)) (file s) = batch /\ batch <> [] /\
      published (synced s) s /\ (N.to_nat (pc_seq me) <= synced s)%nat
  | Settling me batch false => N.to_nat (durable_seq q) = synced s /\ published (synced s) s
  | _ => False
  end.

Definition idle_ok (issued : list PendingCommit) (s : Group) : Prop :=
  let q := queue s in
  N.to_nat (durable_seq q) = synced s /\ published (synced s) s /\
  (broken q = false -> synced s = length (file s) /\ file s ++ pending q = issued).

Definition lead_ok (issued : list PendingCommit) (s : Group) : Prop :=
  if leader (queue s)
  then broken (queue s) = false /\ exists t p, threads s !! t = Some p /\ flight_ok issued s p /\
         forall t' p', threads s !! t' = Some p' -> leading p' -> t' = t
  else idle_ok issued s /\ map_Forall (fun _ p => ~ leading p) (threads s).

(** The write whose flush a thread knows to have succeeded. *)
Definition told (p : Phase) : option PendingCommit :=
  match p with Acked me | Notifying me true => Some me | _ => None end.

Record group_ok (issued : list PendingCommit) (s : Group) : Prop := {
  gk_seqs : forall i pc, issued !! i = Some pc -> pc_seq pc = N.of_nat i + 1;
  gk_next : next_seq (queue s) = N.of_nat (length issued) + 1 /\ next_seq (queue s) < 2 ^ 64;
  gk_file : file s `prefix_of` issued;
  gk_synced : (N.to_nat (durable_seq (queue s)) <= synced s <= length (file s))%nat;
  gk_me : map_Forall (fun _ p => forall me, phase_me p = Some me -> me ∈ issued) (threads s);
  gk_acked : map_Forall (fun _ p => forall me, told p = Some me -> pc_seq me <= durable_seq (queue s)) (threads s);
  gk_lead : lead_ok issued s;
}.

(** ** Every step keeps it *)
Lemma issued_bound issued s me : group_ok issued s -> me ∈ issued ->
  issued !! (N.to_nat (pc_seq me) - 1)%nat = Some me /\ (1 <= N.to_nat (pc_seq me) <= length issued)%nat.
Proof.
  intros G [i Hi]%list_elem_of_lookup. pose proof (gk_seqs _ _ G i me Hi) as Hs.
  apply lookup_lt_Some in Hi as Hlt. rewrite Hs.
  replace (N.to_nat (N.of_nat i + 1) - 1)%nat with i by lia. split; [done|lia].
Qed.

Lemma seq_within issued s k me : group_ok issued s -> me ∈ issued ->
  (N.to_nat (pc_seq me) <= k)%nat -> (k <= synced s)%nat -> me ∈ take k (file s).
Proof.
  intros G Hin Hle Hk. destruct (issued_bound _ _ _ G Hin) as [Hi [H1 H2]].
  pose proof (gk_synced _ _ G) as [_ Hsy]. destruct (gk_file _ _ G) as [rest Hrest].
  apply list_elem_of_lookup. exists (N.to_nat (pc_seq me) - 1)%nat.
  rewrite lookup_take by lia. rewrite decide_True by lia.
  rewrite Hrest, lookup_app_l in Hi by lia. done.
Qed.

Lemma seq_durable issued s me : group_ok issued s -> me ∈ issued ->
  (N.to_nat (pc_seq me) <= synced s)%nat -> me ∈ take (synced s) (file s).
Proof. intros G Hin Hle. by eapply seq_within. Qed.

(** A thread that is not leading changes its own phase only. *)
Lemma quiet_phase issued s t p0 p : group_ok issued s -> threads s !! t = Some p0 ->
  ~ leading p0 -> ~ leading p -> (forall me, phase_me p = Some me -> me ∈ issued) ->
  (forall me, told p = Some me -> pc_seq me <= durable_seq (queue s)) ->
  group_ok issued (put_phase t p s).
Proof.
  intros G Ht H0 Hp Hme Hack. destruct G as [G1 G2 G3 G4 G5 G6 G7]. split; try done.
  - by apply map_Forall_insert_2.
  - by apply map_Forall_insert_2.
  - unfold lead_ok in *. cbn [queue put_phase]. destruct (leader (queue s)).
    + destruct G7 as (Hb & tl & pl & Htl & Hfl & Hu). split; [done|]. exists tl, pl.
      assert (tl <> t) as Hne by (intros ->; rewrite Ht in Htl; injection Htl as ->; by destruct pl).
      cbn [threads put_phase]. rewrite lookup_insert_ne by done. split_and!; try done.
      intros t' p' [[-> <-]|[_ Ht']]%lookup_insert_Some Hl; [done|]. by eapply Hu.
    + destruct G7 as [Hi Hn]. split; [done|]. by apply map_Forall_insert_2.
Qed.

Lemma quiet_failed issued s t p0 : group_ok issued s -> threads s !! t = Some p0 -> ~ leading p0 ->
  group_ok issued (put_phase t Failed s).
Proof. intros G Ht H0. eapply quiet_phase; [done..|intros []|discriminate|discriminate]. Qed.

(** The leader moves: the others are not leading before or after. *)
Lemma leader_is issued s t p : group_ok issued s -> threads s !! t = Some p -> leading p ->
  leader (queue s) = true /\ broken (queue s) = false /\ flight_ok issued s p /\
  forall t' p', t' <> t -> threads s !! t' = Some p' -> ~ leading p'.
Proof.
  intros G Ht Hl. pose proof (gk_lead _ _ G) as G7. unfold lead_ok in G7. destruct (leader (queue s)).
  - destruct G7 as (Hb & tl & pl & Htl & Hfl & Hu). pose proof (Hu t p Ht Hl) as ->.
    rewrite Ht in Htl. injection Htl as <-. split_and!; try done.
    intros t' p' Hne Ht' Hl'. by specialize (Hu t' p' Ht' Hl').
  - destruct G7 as [_ Hn]. by specialize (Hn t p Ht).
Qed.

Lemma still_leading issued s' (m : gmap nat Phase) t p :
  (forall t' p', t' <> t -> m !! t' = Some p' -> ~ leading p') -> threads s' = <[t := p]> m ->
  leader (queue s') = true -> broken (queue s') = false -> flight_ok issued s' p ->
  lead_ok issued s'.
Proof.
  intros Hothers Em El Eb Hf. unfold lead_ok. rewrite El. split; [done|]. exists t, p. rewrite Em, lookup_insert_eq.
  split_and!; try done. intros t' p' [[-> _]|[Hne Ht']]%lookup_insert_Some Hl; [done|].
  exfalso. by eapply Hothers.
Qed.

Lemma enqueue_ok issued s t w f io : group_ok issued s -> threads s !! t = Some (Call w f) ->
  next_seq (queue (enqueue t w f io s)) <> 0 ->
  exists issued', group_ok issued' (enqueue t w f io s).
Proof.
  intros G Ht. unfold enqueue. destruct io; cbn [negb].
  2:{ intros _. exists issued. eapply quiet_failed; [done..|intros []]. }
  destruct (broken (queue s)) eqn:Hb.
  { intros _. exists issued. eapply quiet_failed; [done..|intros []]. }
  cbn [queue next_seq put_queue put_phase]. intros Hnz. destruct G as [G1 G2 G3 G4 G5 G6 G7].
  set (me := mkPending (next_seq (queue s)) f w). exists (issued ++ [me]). split; cbn [queue file synced feed threads].
  - intros i pc Hi. destruct (decide (i < length issued)%nat) as [Hlt|Hge].
    + apply G1. by rewrite lookup_app_l in Hi.
    + rewrite lookup_app_r in Hi by lia. apply list_lookup_singleton_Some in Hi as [Hi <-]. cbn. lia.
  - cbn. rewrite length_app. cbn [length].
    destruct G2 as [G2 Gw]. destruct (N.eq_dec (next_seq (queue s) + 1) (2 ^ 64)) as [He|Hne].
    + exfalso. apply Hnz. unfold wrap_u64. by rewrite He.
    + unfold wrap_u64. rewrite N.mod_small by lia. split; lia.
  - by apply prefix_app_r.
  - exact G4.
  - apply map_Forall_insert_2; [intros x [= <-]; set_solver|].
    eapply map_Forall_impl; [exact G5|]. intros ? p Hp x Hx. specialize (Hp x Hx). set_solver.
  - apply map_Forall_insert_2; [discriminate|done].
  - unfold lead_ok in *. cbn [leader queue put_phase put_queue]. destruct (leader (queue s)) eqn:El.
    + destruct G7 as (_ & tl & pl & Htl & Hfl & Hu). split; [done|]. exists tl, pl.
      assert (tl <> t) as Hne by (intros ->; rewrite Ht in Htl; by injection Htl as <-).
      cbn [threads put_phase put_queue]. rewrite lookup_insert_ne by done. split_and!; [done| |].
      * destruct pl as [| | |x batch todo|x batch|x batch []| | |]; try done; unfold flight_ok, published in *;
          cbn [queue file synced feed pending durable_seq put_phase put_queue].
        -- destruct Hfl as (? & ? & ? & ? & Hp & ?). split_and!; try done. by rewrite <- Hp, <- !(assoc app).
        -- destruct Hfl as (? & Hp & ?). split_and!; try tauto. by rewrite <- Hp, <- (assoc app).
        -- destruct Hfl as (? & Hp & ?). split_and!; try tauto. by rewrite <- Hp, <- (assoc app).
      * intros t' p' [[-> <-]|[_ Ht']]%lookup_insert_Some Hl; [done|]. by eapply Hu.
    + destruct G7 as [(Hd & Hp & Hi) Hn]. split; [|apply map_Forall_insert_2; [intros []|done]].
      split_and!; try done. cbn. intros _. destruct (Hi Hb) as [Hs Hc]. split; [done|].
      by rewrite <- Hc, <- (assoc app).
Qed.

Lemma try_lead_ok issued s t me : group_ok issued s -> threads s !! t = Some (Waiting me) ->
  group_ok issued (try_lead t me s).
Proof.
  intros G Ht. unfold try_lead. pose proof (gk_me _ _ G t _ Ht me eq_refl) as Hin.
  destruct (N.leb_spec (pc_seq me) (durable_seq (queue s))) as [Hle|Hgt].
  { eapply quiet_phase; [done..|intros []|intros []| |]; by intros ? [= <-]. }
  destruct (broken (queue s)) eqn:Hb; [eapply quiet_failed; [done..|intros []]|].
  destruct (leader (queue s)) eqn:El.
  { eapply quiet_phase; [done..|intros []|intros []| |discriminate]. by intros ? [= <-]. }
  destruct (issued_bound _ _ _ G Hin) as [_ [H1 H2]].
  destruct G as [G1 G2 G3 G4 G5 G6 G7]. unfold lead_ok in G7. rewrite El in G7. destruct G7 as [(Hd & Hp & Hi) Hn].
  destruct (Hi Hb) as [Hs Hc]. clear Hi.
  destruct (pending (queue s)) as [|pc batch] eqn:Eb.
  { rewrite app_nil_r in Hc. subst issued. lia. }
  split; cbn [queue file synced feed threads put_phase put_queue]; try done.
  - apply map_Forall_insert_2; [by intros ? [= <-]|done].
  - apply map_Forall_insert_2; [discriminate|done].
  - eapply (still_leading _ _ (threads s) t (Writing me (pc :: batch) (pc :: batch))); try done.
    + intros t' p' _ Ht'. by apply (Hn t').
    + unfold flight_ok, published. cbn [queue file synced feed pending durable_seq put_phase put_queue].
      rewrite app_nil_r. split_and!; try done.
      * by rewrite Hs, drop_all.
      * rewrite Hc. lia.
Qed.

Lemma write_record_ok issued s t me batch pc todo io : group_ok issued s ->
  threads s !! t = Some (Writing me batch (pc :: todo)) ->
  group_ok issued (write_record t me batch pc todo io s).
Proof.
  intros G Ht. destruct (leader_is _ _ _ _ G Ht I) as (El & Eb & Hf & Hu).
  pose proof (gk_me _ _ G t _ Ht me eq_refl) as Hin.
  destruct Hf as (Hd & Hp & Hb & Hne & Hc & Hme).
  destruct G as [G1 G2 G3 G4 G5 G6 G7]. unfold write_record. destruct io.
  - split; cbn [queue file synced feed threads put_phase]; try done.
    + exists (todo ++ pending (queue s)). by rewrite <- Hc, <- (assoc app).
    + rewrite length_app. cbn [length]. lia.
    + apply map_Forall_insert_2; [by intros ? [= <-]|done].
    + apply map_Forall_insert_2; [discriminate|done].
    + apply (still_leading _ _ (threads s) t (Writing me batch todo)); try done.
      unfold flight_ok, published in *. cbn [queue file synced feed put_phase]. split_and!; try done.
      * by rewrite take_app_le by lia.
      * by rewrite drop_app_le, <- (assoc app) by lia.
      * by rewrite <- Hc, <- (assoc app).
      * by rewrite <- (assoc app).
  - split; cbn [queue file synced feed threads put_phase]; try done.
    + apply map_Forall_insert_2; [by intros ? [= <-]|done].
    + apply map_Forall_insert_2; [discriminate|done].
    + by apply (still_leading _ _ (threads s) t (Settling me batch false)).
Qed.

Lemma sync_file_ok issued s t me batch io : group_ok issued s ->
  threads s !! t = Some (Writing me batch []) -> group_ok issued (sync_file t me batch io s).
Proof.
  intros G Ht. destruct (leader_is _ _ _ _ G Ht I) as (El & Eb & Hf & Hu).
  pose proof (gk_me _ _ G t _ Ht me eq_refl) as Hin.
  destruct Hf as (Hd & Hp & Hb & Hne & Hc & Hme). rewrite app_nil_r in Hb, Hme.
  destruct G as [G1 G2 G3 G4 G5 G6 G7]. unfold sync_file. destruct io.
  - split; cbn [queue file synced feed threads put_phase]; try done.
    + lia.
    + apply map_Forall_insert_2; [by intros ? [= <-]|done].
    + apply map_Forall_insert_2; [discriminate|done].
    + apply (still_leading _ _ (threads s) t (Publishing me batch)); try done.
      unfold flight_ok, published in *. cbn [queue file synced feed put_phase]. by rewrite Hd.
  - split; cbn [queue file synced feed threads put_phase]; try done.
    + apply map_Forall_insert_2; [by intros ? [= <-]|done].
    + apply map_Forall_insert_2; [discriminate|done].
    + by apply (still_leading _ _ (threads s) t (Settling me batch false)).
Qed.

Lemma publish_ok issued s t me batch : group_ok issued s ->
  threads s !! t = Some (Publishing me batch) -> group_ok issued (publish t me batch s).
Proof.
  intros G Ht. destruct (leader_is _ _ _ _ G Ht I) as (El & Eb & Hf & Hu).
  pose proof (gk_me _ _ G t _ Ht me eq_refl) as Hin.
  destruct Hf as (Hs & Hc & Hb & Hne & Hp & Hme).
  destruct G as [G1 G2 G3 G4 G5 G6 G7]. unfold publish.
  split; cbn [queue file synced feed threads put_phase]; try done.
  - apply map_Forall_insert_2; [by intros ? [= <-]|done].
  - apply map_Forall_insert_2; [discriminate|done].
  - apply (still_leading _ _ (threads s) t (Settling me batch true)); try done.
    unfold flight_ok, published in *. cbn [queue file synced feed put_phase]. split_and!; try done.
    rewrite Hs, take_ge, Hp, <- Hb by lia. by rewrite <- concat_app, <- fmap_app, take_drop.
Qed.

Lemma settle_ok issued s t me batch flushed : group_ok issued s ->
  threads s !! t = Some (Settling me batch flushed) -> group_ok issued (settle t me batch flushed s).
Proof.
  intros G Ht. destruct (leader_is _ _ _ _ G Ht I) as (El & Eb & Hf & Hu).
  pose proof (gk_me _ _ G t _ Ht me eq_refl) as Hin.
  assert (forall p, ~ leading p -> map_Forall (fun _ p => ~ leading p) (<[t := p]> (threads s))) as Hquiet.
  { intros p Hp t' p' [[_ <-]|[Hne Ht']]%lookup_insert_Some; [done|]. by eapply Hu. }
  pose proof G as [G1 G2 G3 G4 G5 G6 G7]. unfold settle. destruct flushed.
  - destruct Hf as (Hs & Hc & Hb & Hne & Hp & Hme).
    assert (exists pc, last batch = Some pc /\ N.to_nat (pc_seq pc) = length (file s)) as (pc & -> & Hpc).
    { destruct (last batch) as [pc|] eqn:Hl; [|by apply last_None in Hl]. exists pc. split; [done|].
      assert (0 < length batch)%nat as Hpos by (destruct batch; cbn; [done|lia]).
      rewrite last_lookup, <- Hb, lookup_drop in Hl. rewrite <- Hb, length_drop in Hpos.
      pose proof (G1 (length (file s) - 1)%nat pc) as Hq. rewrite Hq; [lia|]. rewrite <- Hc.
      rewrite lookup_app_l by lia. rewrite <- Hl. f_equal. rewrite length_drop. lia. }
    split; cbn [queue file synced feed threads put_phase put_queue durable_seq next_seq]; try done.
    + lia.
    + apply map_Forall_insert_2; [by intros ? [= <-]|done].
    + apply map_Forall_insert_2; [intros ? [= <-]; cbn [durable_seq queue]; lia|].
      eapply map_Forall_impl; [exact G6|]. intros ? p Hpp x Hx. specialize (Hpp x Hx). cbn [durable_seq queue]. lia.
    + split; [|by apply Hquiet; intros []]. unfold idle_ok, published in *.
      cbn [queue file synced feed put_phase put_queue pending durable_seq broken]. split_and!; [lia|done|done].
  - destruct Hf as (Hd & Hp).
    split; cbn [queue file synced feed threads put_phase put_queue durable_seq next_seq]; try done.
    + apply map_Forall_insert_2; [by intros ? [= <-]|done].
    + apply map_Forall_insert_2; [discriminate|done].
    + split; [|by apply Hquiet; intros []]. by split_and!.
Qed.

Lemma flight_leading issued s p : flight_ok issued s p -> leading p /\ ~ finished p.
Proof. destruct p; cbn; try (intros []; fail); try (intros _; tauto). all: intros Hf; destruct Hf. Qed.

(** Waking changes no thread's write, nor who leads. *)
Lemma wake_leading p : leading (wake p) <-> leading p.
Proof. by destruct p. Qed.
Lemma wake_me p : phase_me (wake p) = phase_me p.
Proof. by destruct p. Qed.
Lemma wake_told p : told (wake p) = told p.
Proof. by destruct p. Qed.

Lemma lookup_wake (m : gmap nat Phase) t q : (wake <$> m) !! t = Some q ->
  exists p, m !! t = Some p /\ q = wake p.
Proof. rewrite lookup_fmap. intros (p & -> & Hp)%fmap_Some. by exists p. Qed.

Lemma notify_all_ok issued s : group_ok issued s -> group_ok issued (notify_all s).
Proof.
  intros [G1 G2 G3 G4 G5 G6 G7]. split; try done.
  - intros t q (p & Hp & ->)%lookup_wake. rewrite wake_me. by apply (G5 t).
  - intros t q (p & Hp & ->)%lookup_wake. rewrite wake_told. by apply (G6 t).
  - unfold lead_ok in *. cbn [queue notify_all]. destruct (leader (queue s)).
    + destruct G7 as (Hb & tl & pl & Htl & Hfl & Hu). split; [done|]. exists tl, pl.
      assert (leading pl) as Hl by (by eapply flight_leading).
      assert (wake pl = pl) as Ew by (by destruct pl). cbn [threads notify_all].
      rewrite lookup_fmap, Htl. cbn. rewrite Ew. split_and!; [done|done|].
      intros t q (p & Hp & ->)%lookup_wake Hq. rewrite wake_leading in Hq.
      exact (Hu _ _ Hp Hq).
    + destruct G7 as [Hi Hn]. split; [done|]. intros t q (p & Hp & ->)%lookup_wake Hq.
      rewrite wake_leading in Hq.
      exact (Hn _ _ Hp Hq).
Qed.

Lemma notify_ok issued s t me flushed : group_ok issued s -> threads s !! t = Some (Notifying me flushed) ->
  group_ok issued (notify t me flushed s).
Proof.
  intros G Ht. pose proof (notify_all_ok _ _ G) as G'. unfold notify.
  eapply (quiet_phase _ _ _ (Notifying me flushed)); [done| |intros []|destruct flushed; intros []| |].
  - cbn [threads notify_all]. by rewrite lookup_fmap, Ht.
  - intros x Hx. apply (gk_me _ _ G t _ Ht). by destruct flushed.
  - intros x Hx. destruct flushed; [|done]. by apply (gk_acked _ _ G t _ Ht).
Qed.

Lemma group_reachable_ok calls s : reachable calls s -> exists issued, group_ok issued s.
Proof.
  induction 1 as [|t io s s' Hr [issued G] Ha Hnz|t me s Hr [issued G] Ht].
  - exists []. split; cbn; try done; try lia.
    + intros t p Hp me. rewrite lookup_fmap in Hp. destruct (calls !! t) as [c|]; [|done].
      cbn in Hp. by injection Hp as <-.
    + intros t p Hp me. rewrite lookup_fmap in Hp. destruct (calls !! t) as [c|]; [|done].
      cbn in Hp. by injection Hp as <-.
    + split; [by split_and!|]. intros t p Hp. rewrite lookup_fmap in Hp. destruct (calls !! t); [|done].
      cbn in Hp. injection Hp as <-. intros [].
  - unfold act in Ha.
    destruct (threads s !! t) as [[w f|me|me|me batch [|pc todo]|me batch|me batch fl|me fl|me|]|] eqn:Ht;
      try done; injection Ha as <-.
    + by eapply enqueue_ok.
    + exists issued. by apply try_lead_ok.
    + exists issued. by apply sync_file_ok.
    + exists issued. by apply write_record_ok.
    + exists issued. by apply publish_ok.
    + exists issued. by apply settle_ok.
    + exists issued. by apply notify_ok.
  - exists issued. eapply quiet_phase; [done..|intros []|intros []| |discriminate].
    intros x [= <-]. by apply (gk_me _ _ G t _ Ht).
Qed.

(** ** No wake-up is lost *)

(** While a thread sleeps, a leader is at work or about to wake it. *)
Definition watched (s : Group) : Prop :=
  forall t me, threads s !! t = Some (Asleep me) ->
    leader (queue s) = true \/ exists t' me' fl, threads s !! t' = Some (Notifying me' fl).

(** A step that lets no leader go and makes no sleeper without one keeps it. *)
Lemma watched_step s s' t p q : watched s -> threads s !! t = Some p ->
  threads s' = <[t := q]> (threads s) -> (forall me fl, p <> Notifying me fl) ->
  (leader (queue s) = true -> leader (queue s') = true \/ exists me fl, q = Notifying me fl) ->
  (forall me, q = Asleep me -> leader (queue s') = true) -> watched s'.
Proof.
  intros Hw Ht E Hp Hl Hq t0 me0. rewrite E. intros [[-> Hq0]|[Hne Ht0]]%lookup_insert_Some; [left; by eapply Hq|].
  destruct (Hw _ _ Ht0) as [H|(t' & me' & fl & Ht')].
  - destruct (Hl H) as [?|(me & fl & Eq)]; [by left|]. right. exists t, me, fl. rewrite <- Eq. apply lookup_insert_eq.
  - right. exists t', me', fl. rewrite lookup_insert_ne; [done|]. intros ->. rewrite Ht in Ht'.
    injection Ht' as ->. by eapply Hp.
Qed.

Lemma notify_wakes t me fl s t0 me0 : threads (notify t me fl s) !! t0 <> Some (Asleep me0).
Proof.
  unfold notify. cbn [threads put_phase notify_all].
  intros [[_ H]|[_ (p & _ & H)%lookup_wake]]%lookup_insert_Some; [by destruct fl|by destruct p].
Qed.

Lemma act_watched t io s s' : watched s -> act t io s = Some s' -> watched s'.
Proof.
  intros Hw Ha. unfold act in Ha.
  destruct (threads s !! t) as [[w f|me|me|me batch [|pc todo]|me batch|me batch fl|me fl|me|]|] eqn:Ht;
    try done; injection Ha as <-; try (intros t0 me0 Ht0; by apply notify_wakes in Ht0).
  - unfold enqueue. repeat case_match; eapply watched_step; try done; intros; by left.
  - unfold try_lead. repeat case_match; eapply watched_step; try done; intros; by left.
  - unfold sync_file. case_match; eapply watched_step; try done; intros; by left.
  - unfold write_record. case_match; eapply watched_step; try done; intros; by left.
  - eapply watched_step; try done; intros; by left.
  - eapply watched_step; try done. intros _. right. by eexists _, _.
Qed.

Lemma reachable_watched calls s : reachable calls s -> watched s.
Proof.
  induction 1 as [|t io s s' Hr IH Ha _|t me s Hr IH Ht].
  - intros t me Ht. cbn in Ht. rewrite lookup_fmap in Ht. by destruct (calls !! t).
  - by eapply act_watched.
  - eapply watched_step; try done; intros; by left.
Qed.

(** ** What a thread holds comes from its call *)
Definition from_call (calls : gmap nat (list WalOp * list WalOp)) (t : nat) (p : Phase) : Prop :=
  match p with
  | Call w f => calls !! t = Some (w, f)
  | _ => forall me, phase_me p = Some me -> calls !! t = Some (pc_line me, pc_ops me)
  end.

Lemma act_phase t io s s' : act t io s = Some s' ->
  exists p q, threads s !! t = Some p /\
    (threads s' = <[t := q]> (threads s) \/ threads s' = <[t := q]> (wake <$> threads s)) /\
    (forall calls, from_call calls t p -> from_call calls t q).
Proof.
  unfold act. intros Ha. destruct (threads s !! t) as [p|] eqn:Ht; [|done]. exists p.
  destruct p as [w f|me|me|me batch [|pc todo]|me batch|me batch fl|me fl|me|]; try done; injection Ha as <-.
  - unfold enqueue. repeat case_match; eexists; (split; [done|]); (split; [by left|]); try done.
    by intros calls Hc me [= <-].
  - unfold try_lead. repeat case_match; eexists; (split; [done|]); (split; [by left|]); done.
  - unfold sync_file. destruct io; eexists; (split; [done|]); (split; [by left|]); done.
  - unfold write_record. destruct io; eexists; (split; [done|]); (split; [by left|]); done.
  - eexists; (split; [done|]); (split; [by left|]); done.
  - eexists; (split; [done|]); (split; [by left|]); done.
  - eexists; (split; [done|]); (split; [by right|]). by destruct fl.
Qed.

Lemma from_call_wake calls t p : from_call calls t (wake p) <-> from_call calls t p.
Proof. by destruct p. Qed.

Lemma reachable_calls calls s : reachable calls s -> map_Forall (from_call calls) (threads s).
Proof.
  induction 1 as [|t io s s' Hr IH Ha _|t me s Hr IH Ht].
  - intros t p Hp. cbn in Hp. rewrite lookup_fmap in Hp. destruct (calls !! t) as [[w f]|] eqn:Hc; [|done].
    cbn in Hp. by injection Hp as <-.
  - destruct (act_phase _ _ _ _ Ha) as (p & q & Ht & Es & Hpq).
    assert (map_Forall (from_call calls) (wake <$> threads s)) as IHw.
    { intros t' q' (p' & Hp' & ->)%lookup_wake. apply from_call_wake. by apply IH. }
    destruct Es as [-> | ->]; (apply map_Forall_insert_2; [apply Hpq; by apply IH|done]).
  - apply map_Forall_insert_2; [|done]. by apply (IH t _ Ht).
Qed.

(** ** Termination *)
(** Every thread notifies at most once, and a notification gives each of the [n]
    threads at most one more turn. *)
Definition weight (n : nat) (p : Phase) : nat :=
  match p with
  | Call _ _ => 8 + n
  | Waiting _ => 6 + n
  | Asleep _ => 5 + n
  | Writing _ _ todo => 4 + n + length todo
  | Publishing _ _ => 3 + n
  | Settling _ _ _ => 2 + n
  | Notifying _ _ => 1 + n
  | Acked _ | Failed => 0
  end.

Definition total (n : nat) (m : gmap nat Phase) : nat := map_fold (fun _ p k => weight n p + k)%nat 0%nat m.
Definition measure (s : Group) : nat :=
  (length (pending (queue s)) + total (size (threads s)) (threads s))%nat.

Lemma total_fresh n (m : gmap nat Phase) t p : m !! t = None ->
  total n (<[t := p]> m) = (weight n p + total n m)%nat.
Proof. intros Ht. unfold total. rewrite map_fold_insert_L; [done|intros; lia|done]. Qed.

Lemma total_insert n (m : gmap nat Phase) t p q : m !! t = Some p ->
  (total n (<[t := q]> m) + weight n p = total n m + weight n q)%nat.
Proof.
  intros Ht. rewrite <- (insert_delete_eq m t q). rewrite <- (insert_delete_id m t p Ht) at 2.
  rewrite !total_fresh by apply lookup_delete_eq. lia.
Qed.

Lemma total_wake n (m : gmap nat Phase) : (total n (wake <$> m) <= total n m + size m)%nat.
Proof.
  induction m as [|t p m Ht IH] using map_ind; [rewrite fmap_empty; cbn; lia|].
  rewrite fmap_insert, total_fresh by (by rewrite lookup_fmap, Ht). rewrite (total_fresh n m) by done.
  rewrite map_size_insert_None by done. destruct p; cbn [wake weight]; lia.
Qed.

Lemma size_phase (m : gmap nat Phase) t p q : m !! t = Some p -> size (<[t := q]> m) = size m.
Proof. intros Ht. by rewrite map_size_insert_Some by (by eexists). Qed.

Ltac settle_weight Htot n q :=
  specialize (Htot n q); cbn [weight length queue threads put_phase put_queue pending] in *;
  rewrite ?length_app; cbn [length]; lia.

Lemma act_decreases t io s s' : act t io s = Some s' -> (measure s' < measure s)%nat.
Proof.
  unfold act. intros Ha. destruct (threads s !! t) as [p|] eqn:Ht; [|done].
  pose proof (fun n q => total_insert n (threads s) t p q Ht) as Htot.
  pose proof (fun q => size_phase (threads s) t p q Ht) as Hsz. unfold measure.
  destruct p as [w f|me|me|me batch [|pc todo]|me batch|me batch fl|me fl|me|]; try done; injection Ha as <-.
  7:{ unfold notify. cbn [queue threads put_phase notify_all].
      assert ((wake <$> threads s) !! t = Some (Notifying me fl)) as Hw by (by rewrite lookup_fmap, Ht).
      rewrite (size_phase _ _ _ _ Hw), map_size_fmap.
      pose proof (total_insert (size (threads s)) _ t _ (if fl then Acked me else Failed) Hw) as Ht'.
      pose proof (total_wake (size (threads s)) (threads s)). destruct fl; cbn [weight] in *; lia. }
  all: set (n := size (threads s)) in *.
  - unfold enqueue. repeat case_match; cbn [threads put_phase put_queue]; rewrite Hsz.
    + settle_weight Htot n Failed.
    + settle_weight Htot n Failed.
    + settle_weight Htot n (Waiting (mkPending (next_seq (queue s)) f w)).
  - unfold try_lead. destruct (_ <=? _); [|destruct (broken _); [|destruct (leader _)]];
      cbn [threads put_phase put_queue queue pending]; rewrite Hsz.
    + settle_weight Htot n (Acked me).
    + settle_weight Htot n Failed.
    + settle_weight Htot n (Asleep me).
    + destruct (pending (queue s)) as [|pc batch]; [settle_weight Htot n (Settling me [] true)|
        settle_weight Htot n (Writing me (pc :: batch) (pc :: batch))].
  - unfold sync_file. destruct io; cbn [threads put_phase]; rewrite Hsz;
      [settle_weight Htot n (Publishing me batch)|settle_weight Htot n (Settling me batch false)].
  - unfold write_record. destruct io; cbn [threads put_phase]; rewrite Hsz;
      [settle_weight Htot n (Writing me batch todo)|settle_weight Htot n (Settling me batch false)].
  - unfold publish. cbn [threads put_phase]. rewrite Hsz. settle_weight Htot n (Settling me batch true).
  - unfold settle. cbn [threads put_phase put_queue]. rewrite Hsz. settle_weight Htot n (Notifying me fl).
Qed.

Lemma run_bounded l s s' : run l s = Some s' -> (length l <= measure s)%nat.
Proof.
  revert s. induction l as [|[t io] l IH]; intros s; cbn [run length]; [lia|].
  intros (s1 & Ha & Hr)%bind_Some. pose proof (act_decreases _ _ _ _ Ha). specialize (IH _ Hr). lia.
Qed.

(** Only a thread that sleeps is unable to act. *)
Lemma act_enabled t p s : threads s !! t = Some p -> ~ finished p ->
  is_Some (act t true s) \/ exists me, p = Asleep me.
Proof.
  intros Ht Hp. unfold act. rewrite Ht.
  destruct p as [w f|me|me|me batch [|pc todo]|me batch|me batch fl|me fl|me|]; try (exfalso; exact (Hp I));
    try (left; eexists; reflexivity). right. by exists me.
Qed.

(** ** What the queue promises *)

Lemma feed_prefix issued s : group_ok issued s -> exists k,
  (N.to_nat (durable_seq (queue s)) <= k <= synced s)%nat /\ published k s /\
  (leader (queue s) = false -> k = synced s).
Proof.
  intros G. pose proof (gk_synced _ _ G) as [Hs1 Hs2]. pose proof (gk_lead _ _ G) as Hl. unfold lead_ok in Hl.
  destruct (leader (queue s)).
  - destruct Hl as (_ & t & p & _ & Hf & _). destruct p as [| | |x batch todo|x batch|x batch []| | |]; try done.
    + destruct Hf as (Hd & Hp & _). exists (synced s). split_and!; done || lia.
    + destruct Hf as (_ & _ & _ & _ & Hp & _). exists (N.to_nat (durable_seq (queue s))). split_and!; done || lia.
    + destruct Hf as (_ & _ & _ & _ & Hp & _). exists (synced s). split_and!; done || lia.
    + destruct Hf as (Hd & Hp). exists (synced s). split_and!; done || lia.
  - destruct Hl as [(Hd & Hp & _) _]. exists (synced s). split_and!; done || lia.
Qed.

(** C8: An acknowledged write is durable: under every interleaving of writers and
    every pattern of I/O failures, a writer whose call returned [Ok] has its
    record -- the operations it was called with -- among the records a completed
    sync covers, and the change feed is the operations of those of a prefix of
    the log that holds it. *)
Theorem acknowledged_is_durable calls s t me : reachable calls s -> threads s !! t = Some (Acked me) ->
  calls !! t = Some (pc_line me, pc_ops me) /\ me ∈ take (synced s) (file s) /\
  exists k, (k <= synced s)%nat /\ feed s = concat (pc_ops <$> take k (file s)) /\ me ∈ take k (file s).
Proof.
  intros Hr Ht. destruct (group_reachable_ok _ _ Hr) as [issued G].
  pose proof (gk_me _ _ G t _ Ht me eq_refl) as Hin. pose proof (gk_acked _ _ G t _ Ht me eq_refl) as Hd.
  destruct (feed_prefix _ _ G) as (k & [Hdk Hk] & Hp & _). split_and!.
  - exact (reachable_calls _ _ Hr t _ Ht me eq_refl).
  - eapply seq_durable; [done..|lia].
  - exists k. split_and!; [done..|]. eapply seq_within; [done..|lia|lia].
Qed.

(** The feed follows the log: the log's records are in sequence order without
    a gap, the feed is the operations of a prefix of them, never past what a
    completed sync covers, and exactly that when no flush is under way -- after
    failed flushes too. *)
Theorem feed_follows_log calls s : reachable calls s ->
  (forall i pc, file s !! i = Some pc -> pc_seq pc = N.of_nat i + 1) /\
  (exists k, (k <= synced s <= length (file s))%nat /\ feed s = concat (pc_ops <$> take k (file s)) /\
     (leader (queue s) = false -> k = synced s)).
Proof.
  intros Hr. destruct (group_reachable_ok _ _ Hr) as [issued G]. split.
  - intros i pc Hi. apply (gk_seqs _ _ G). by eapply prefix_lookup_Some, gk_file.
  - destruct (feed_prefix _ _ G) as (k & [_ Hk] & Hp & Hl). pose proof (gk_synced _ _ G). exists k.
    split_and!; done || lia.
Qed.

(** C9: No writer waits for ever and no wake-up is lost: a thread that sleeps on
    the condition variable acts again only once a leader's [notify_all] has woken
    it, and yet -- at any point of any interleaving, spurious wake-ups or not --
    as long as a call is unanswered some thread can act, and no schedule,
    whatever fails, is longer than the measure of the state it starts from. *)
Theorem every_writer_answered calls s : reachable calls s ->
  (forall l s', run l s = Some s' -> (length l <= measure s)%nat) /\
  ((forall t io, act t io s = None) -> map_Forall (fun _ p => finished p) (threads s)).
Proof.
  intros Hr. split; [intros l s'; apply run_bounded|]. intros Hstuck t p Ht.
  destruct (group_reachable_ok _ _ Hr) as [issued G].
  assert (forall t p, threads s !! t = Some p -> ~ finished p -> exists me, p = Asleep me) as Hwait.
  { intros t' p' Ht' Hp'. destruct (act_enabled t' p' s Ht' Hp') as [[x Hx]|?]; [|done].
    by rewrite Hstuck in Hx. }
  destruct (decide (finished p)) as [|Hp]; [done|]. destruct (Hwait t p Ht Hp) as [me ->].
  destruct (reachable_watched _ _ Hr t me Ht) as [El|(t' & me' & fl & Ht')].
  - pose proof (gk_lead _ _ G) as Hl. unfold lead_ok in Hl. rewrite El in Hl.
    destruct Hl as (_ & tl & pl & Htl & Hf & _). destruct (flight_leading _ _ _ Hf) as [H1 H2].
    destruct (Hwait tl pl Htl H2) as [? ->]. destruct H1.
  - destruct (Hwait t' _ Ht' (fun H => H)) as [? ?]. discriminate.
Qed.

(** A failed flush closes the log for good. *)
Lemma broken_is_closed calls s t io s' : reachable calls s -> broken (queue s) = true ->
  act t io s = Some s' -> broken (queue s') = true /\ file s' = file s /\ feed s' = feed s.
Proof.
  intros Hr Hb Ha. destruct (group_reachable_ok _ _ Hr) as [issued G].
  assert (leader (queue s) = false) as El.
  { pose proof (gk_lead _ _ G) as Hl. unfold lead_ok in Hl. destruct (leader (queue s)); [|done].
    destruct Hl as [? _]. congruence. }
  assert (forall p, threads s !! t = Some p -> ~ leading p) as Hq.
  { pose proof (gk_lead _ _ G) as Hl. unfold lead_ok in Hl. rewrite El in Hl. intros p. apply (proj2 Hl). }
  unfold act in Ha.
  destruct (threads s !! t) as [[w f|me|me|me batch [|pc todo]|me batch|me batch fl|me fl|me|]|] eqn:Ht;
    try done; try (by destruct (Hq _ eq_refl)); injection Ha as <-.
  - unfold enqueue. rewrite Hb. by destruct (negb io).
  - unfold try_lead. rewrite Hb. by destruct (_ <=? _).
  - done.
Qed.

(** ** Witnesses *)
Definition two_calls : gmap nat (list WalOp * list WalOp) :=
  {[ 0%nat := ([DeleteNode 1], [DeleteNode 1]); 1%nat := ([DeleteEdge 2], [DeleteEdge 2]) ]}.

(** Both writers queue; the first leads the whole group, the second sleeps until
    it is told. *)
Definition one_sync : list (nat * bool) :=
  [(0, true); (1, true); (0, true); (1, true); (0, true); (0, true); (0, true); (0, true); (0, true);
   (0, true); (1, true)]%nat.

(** The second write of the group fails: neither caller is acknowledged. *)
Definition torn : list (nat * bool) :=
  [(0, true); (1, true); (1, true); (0, true); (1, true); (1, false); (1, true); (1, true); (0, true)]%nat.

Lemma run_reachable calls l s s' : reachable calls s -> run l s = Some s' ->
  forallb (fun k => match run (take k l) s with Some x => negb (next_seq (queue x) =? 0) | None => false end)
    (seq 0 (S (length l))) = true -> reachable calls s'.
Proof.
  revert s. induction l as [|[t io] l IH]; intros s Hr; cbn [run]; [by intros [= <-]|].
  intros (s1 & Ha & Hrun)%bind_Some Hall. apply (IH s1); [|done|].
  - eapply reach_act; [done..|]. apply forallb_forall with (x := 1%nat) in Hall; [|apply in_seq; cbn; lia].
    cbn in Hall. rewrite Ha in Hall. cbn in Hall. by apply negb_true_iff, N.eqb_neq in Hall.
  - apply forallb_forall. intros k [_ Hk]%in_seq.
    apply forallb_forall with (x := S k) in Hall; [|apply in_seq; cbn in *; lia].
    cbn [take run] in Hall. by rewrite Ha in Hall.
Qed.

Definition group_done : Group := default (start two_calls) (run one_sync (start two_calls)).
Definition group_torn : Group := default (start two_calls) (run torn (start two_calls)).

Lemma group_done_reachable : reachable two_calls group_done.
Proof. apply (run_reachable _ one_sync (start two_calls)); [constructor|vm_compute; reflexivity..]. Qed.
Lemma group_torn_reachable : reachable two_calls group_torn.
Proof. apply (run_reachable _ torn (start two_calls)); [constructor|vm_compute; reflexivity..]. Qed.

Lemma acknowledged_is_durable_witness :
  mkPending 2 [DeleteEdge 2] [DeleteEdge 2] ∈ take (synced group_done) (file group_done).
Proof.
  apply (acknowledged_is_durable two_calls group_done 1 (mkPending 2 [DeleteEdge 2] [DeleteEdge 2])); [exact group_done_reachable|vm_compute; reflexivity].
Defined.

Lemma feed_follows_log_witness : exists k,
  feed group_torn = concat (pc_ops <$> take k (file group_torn)) /\ k = 0%nat.
Proof.
  destruct (feed_follows_log two_calls group_torn group_torn_reachable) as [_ (k & _ & Hf & Hk)].
  exists k. split; [exact Hf|]. rewrite Hk; vm_compute; reflexivity.
Defined.

Lemma every_writer_answered_witness : map_Forall (fun _ p => finished p) (threads group_torn).
Proof.
  apply (every_writer_answered two_calls group_torn group_torn_reachable).
  assert (threads group_torn = {[0%nat := Failed; 1%nat := Failed]}) as E by (vm_compute; reflexivity).
  intros t io. unfold act. rewrite E.
  destruct (decide (t = 0%nat)) as [->|H0]; [reflexivity|].
  destruct (decide (t = 1%nat)) as [->|H1]; [reflexivity|]. by rewrite lookup_insert_ne, lookup_singleton_ne.
Defined.
