(* ===== verification/Sequence.v ===== *)
(** * Sequences ([src/drevo-core/src/sequence.rs])

    Named counters outside transaction control.  The stored file is the map it
    decodes to; whether writing it succeeds is an argument of each call, and a
    failed write leaves the old file, as [persist] renames a finished copy over
    it. *)
From S2P Require Import Prelude.
Local Open Scope Z_scope.

(** How many values a durable sequence reserves per write of its file. *)
Definition BLOCK : Z := 1000.

Inductive SequenceError : Type :=
| AlreadyExists (name : string)
| NotFound (name : string)
| Invalid (what : string)
| Exhausted (name : string)
| ReadOnly
| Io.

Record SequenceInfo : Type := mkSeqInfo { info_start : Z; info_step : Z; info_current : option Z }.

Record State : Type := mkState {
  seq_start : Z;
  seq_step : Z;
  current : option Z;
  reserved : option Z;
}.

Definition following (s : State) : option Z :=
  match current s with
  | None => Some (seq_start s)
  | Some c => checked_i64 (c + seq_step s)
  end.

Definition beyond_reservation (s : State) (value : Z) : bool :=
  match reserved s with
  | None => true
  | Some r => if 0 <? seq_step s then r <? value else value <? r
  end.

(** [file] is what [sequences.json] holds; [None] keeps the store in memory. *)
Record Sequences : Type := mkSequences {
  state : gmap string State;
  file : option (gmap string State);
  read_only : bool;
}.

Definition in_memory : Sequences := mkSequences ∅ None false.

(** [open] of a file: anything up to the reservation may have been handed out. *)
Definition resume (s : State) : State :=
  match reserved s with
  | Some r => mkState (seq_start s) (seq_step s) (Some r) (reserved s)
  | None => s
  end.
Definition load (stored : gmap string State) : Sequences :=
  mkSequences (resume <$> stored) (Some stored) false.

Definition set_read_only (on : bool) (q : Sequences) : Sequences := mkSequences (state q) (file q) on.

(** The tail every change shares: persist the next state, then install it. *)
Definition persist (io : bool) (next : gmap string State) (q : Sequences) : Sequences * result SequenceError unit :=
  match file q with
  | None => (mkSequences next None (read_only q), Ok tt)
  | Some _ => if io then (mkSequences next (Some next) (read_only q), Ok tt) else (q, Err Io)
  end.

(** [str::trim().is_empty()]: every character is Unicode white space, given as
    the UTF-8 bytes. *)
Fixpoint blank (name : list N) : bool :=
  match name with
  | [] => true
  | 194%N :: c :: s => ((c =? 133) || (c =? 160))%N && blank s
  | 225%N :: 154%N :: 128%N :: s => blank s
  | 226%N :: 128%N :: c :: s => (((128 <=? c) && (c <=? 138)) || (c =? 168) || (c =? 169) || (c =? 175))%N && blank s
  | 226%N :: 129%N :: 159%N :: s => blank s
  | 227%N :: 128%N :: 128%N :: s => blank s
  | c :: s => (((9 <=? c) && (c <=? 13)) || (c =? 32))%N && blank s
  end.
Definition bytes_of (s : string) : list N := Ascii.N_of_ascii <$> String.list_ascii_of_string s.

Definition create (io : bool) (name : string) (start step : Z) (q : Sequences) :
    Sequences * result SequenceError unit :=
  if read_only q then (q, Err ReadOnly)
  else if blank (bytes_of name) then (q, Err (Invalid "a sequence needs a name"))
  else if step =? 0
  then (q, Err (Invalid ("the step of sequence `" +:+ name +:+ "` cannot be 0")))
  else match state q !! name with
       | Some _ => (q, Err (AlreadyExists name))
       | None => persist io (<[name := mkState start step None None]> (state q)) q
       end.

Definition drop_sequence (io : bool) (name : string) (q : Sequences) : Sequences * result SequenceError bool :=
  if read_only q then (q, Err ReadOnly)
  else match state q !! name with
       | None => (q, Ok false)
       | Some _ =>
           let '(q, r) := persist io (delete name (state q)) q in (q, (fun _ => true) <$> r)
       end.

(** The reservation of the block that starts at [value]. *)
Definition reservation (s : State) (value : Z) : Z := sat_i64 (value + sat_i64 (seq_step s * (BLOCK - 1))).

Definition put_current (name : string) (value : Z) (q : Sequences) : Sequences :=
  match state q !! name with
  | Some s => mkSequences (<[name := mkState (seq_start s) (seq_step s) (Some value) (reserved s)]> (state q))
                (file q) (read_only q)
  | None => q
  end.

Definition next (io : bool) (name : string) (q : Sequences) : Sequences * result SequenceError Z :=
  if read_only q then (q, Err ReadOnly)
  else match state q !! name with
       | None => (q, Err (NotFound name))
       | Some s =>
           match following s with
           | None => (q, Err (Exhausted name))
           | Some value =>
               if bool_decide (is_Some (file q)) && beyond_reservation s value
               then let held := mkState (seq_start s) (seq_step s) (current s) (Some (reservation s value)) in
                    match persist io (<[name := held]> (state q)) q with
                    | (q, Err e) => (q, Err e)
                    | (q, Ok _) => (put_current name value q, Ok value)
                    end
               else (put_current name value q, Ok value)
           end
       end.

Definition current_of (name : string) (q : Sequences) : option Z := s ← state q !! name; current s.
Definition get (name : string) (q : Sequences) : option SequenceInfo :=
  (fun s => mkSeqInfo (seq_start s) (seq_step s) (current s)) <$> state q !! name.

(** ** Runs *)

(** A call, or a crash and restart: all that remains is the file. *)
Inductive Event : Type :=
| Create (name : string) (start step : Z)
| Drop (name : string)
| Next (name : string)
| SetReadOnly (on : bool)
| Crash.

Definition handle (io : bool) (e : Event) (q : Sequences) : Sequences * option (string * Z) :=
  match e with
  | Create name start step => ((create io name start step q).1, None)
  | Drop name => ((drop_sequence io name q).1, None)
  | Next name =>
      match next io name q with
      | (q, Ok v) => (q, Some (name, v))
      | (q, Err _) => (q, None)
      end
  | SetReadOnly on => (set_read_only on q, None)
  | Crash => (match file q with Some stored => load stored | None => q end, None)
  end.

(** The values [name] hands out along a run, in order. *)
Fixpoint handed (name : string) (es : list (bool * Event)) (q : Sequences) : list Z :=
  match es with
  | [] => []
  | (io, e) :: es =>
      match handle io e q with
      | (q, Some (n, v)) => (if bool_decide (n = name) then [v] else []) ++ handed name es q
      | (q, None) => handed name es q
      end
  end.

(** ** No value is handed out twice *)

(** [a] comes no later than [b] when counting by [step]. *)
Definition upto (step a b : Z) : Prop := if 0 <? step then a <= b else b <= a.

Lemma upto_refl step a : upto step a a.
Proof. unfold upto. destruct (0 <? step); lia. Qed.
Lemma upto_trans step a b c : upto step a b -> upto step b c -> upto step a c.
Proof. unfold upto. destruct (0 <? step); lia. Qed.
Lemma upto_step step a v : step <> 0 -> upto step v a -> v <> a + step /\ upto step v (a + step).
Proof. unfold upto. destruct (Z.ltb_spec 0 step); lia. Qed.

Lemma reservation_upto s value : is_i64 value -> seq_step s <> 0 ->
  upto (seq_step s) value (reservation s value) /\ is_i64 (reservation s value).
Proof.
  unfold upto, reservation, sat_i64, is_i64, i64_min, i64_max, BLOCK.
  destruct (Z.ltb_spec 0 (seq_step s)); lia.
Qed.

Lemma within_reservation s value r : reserved s = Some r -> beyond_reservation s value = false ->
  upto (seq_step s) value r.
Proof.
  unfold beyond_reservation, upto. intros ->. destruct (0 <? seq_step s); rewrite Z.ltb_ge; lia.
Qed.

(** One sequence, given the values [h] it has handed out. *)
Definition entry_ok (h : list Z) (s : State) : Prop :=
  seq_step s <> 0 /\ is_i64 (seq_start s) /\
  (h <> [] -> is_Some (current s)) /\
  (forall c, current s = Some c -> is_i64 c /\ forall v, v ∈ h -> upto (seq_step s) v c).

(** Its stored copy: the reservation covers everything handed out. *)
Definition stored_ok (h : list Z) (f s : State) : Prop :=
  seq_start f = seq_start s /\ seq_step f = seq_step s /\ reserved f = reserved s /\
  (reserved s = None -> current s = None /\ current f = None) /\
  (forall r, reserved s = Some r -> is_i64 r /\ forall c, current s = Some c -> upto (seq_step s) c r).

Definition seq_ok (name : string) (h : list Z) (q : Sequences) : Prop :=
  match state q !! name with
  | None => h = [] /\ (forall f, file q = Some f -> f !! name = None)
  | Some s => entry_ok h s /\ (forall f, file q = Some f -> exists e, f !! name = Some e /\ stored_ok h e s)
  end.

Definition typed (e : Event) : Prop :=
  match e with Create _ start step => is_i64 start /\ is_i64 step | _ => True end.

Lemma persist_other name h io next q : seq_ok name h q -> next !! name = state q !! name ->
  (forall f s, file q = Some f -> state q !! name = Some s -> stored_ok h s s) ->
  seq_ok name h (persist io next q).1.
Proof.
  unfold seq_ok, persist. intros Hq Hn Hself. destruct (file q) as [f|] eqn:Ef; [destruct io|]; cbn [fst state file];
    [|by rewrite Ef|].
  - rewrite Hn. destruct (state q !! name) as [s|] eqn:Es.
    + split; [apply Hq|]. intros f' [= <-]. exists s. rewrite Hn. split; [done|]. by eapply Hself.
    + split; [apply Hq|]. intros f' [= <-]. by rewrite Hn.
  - rewrite Hn. destruct (state q !! name); [split; [apply Hq|done]|split; [apply Hq|done]].
Qed.

Lemma stored_self h q name f s : seq_ok name h q -> file q = Some f -> state q !! name = Some s -> stored_ok h s s.
Proof.
  unfold seq_ok. intros Hq Hf Hs. rewrite Hs in Hq. destruct Hq as [_ Hq].
  destruct (Hq f Hf) as (e & _ & H1 & H2 & H3 & H4 & H5). split_and!; try done. intros Hr. split; by apply H4.
Qed.

Lemma create_ok name h io n start step q : seq_ok name h q -> is_i64 start ->
  seq_ok name h (create io n start step q).1.
Proof.
  intros Hq Hs. unfold create. destruct (read_only q); [done|]. destruct (blank _); [done|].
  destruct (Z.eqb_spec step 0); [done|]. destruct (state q !! n) eqn:En; [done|].
  destruct (decide (n = name)) as [->|Hne].
  - unfold seq_ok in *. rewrite En in Hq. destruct Hq as [-> Hf].
    assert (entry_ok [] (mkState start step None None)) as He by (split_and!; done).
    assert (stored_ok [] (mkState start step None None) (mkState start step None None)) as Hst by (split_and!; done).
    unfold persist. destruct (file q) eqn:Ef; [destruct io|]; cbn [fst state file].
    + rewrite lookup_insert_eq. split; [done|]. intros f [= <-]. rewrite lookup_insert_eq. eauto.
    + rewrite En, Ef. done.
    + by rewrite lookup_insert_eq.
  - apply persist_other; [done|by rewrite lookup_insert_ne|]. intros. by eapply stored_self.
Qed.

Lemma drop_ok name h io n q : seq_ok name h q -> n <> name -> seq_ok name h (drop_sequence io n q).1.
Proof.
  intros Hq Hne. unfold drop_sequence. destruct (read_only q); [done|]. destruct (state q !! n); [|done].
  pose proof (persist_other name h io (delete n (state q)) q Hq) as Hp.
  destruct (persist io (delete n (state q)) q). apply Hp; [by rewrite lookup_delete_ne|].
  intros. by eapply stored_self.
Qed.

Lemma following_spec h s value : entry_ok h s -> following s = Some value ->
  is_i64 value /\ (value ∉ h) /\ forall v, v ∈ (h ++ [value]) -> upto (seq_step s) v value.
Proof.
  intros (Hst & Hi & Hh & Hc). unfold following, checked_i64. destruct (current s) as [c|] eqn:Ec.
  - case_bool_decide as Hb; [|done]. intros [= <-]. destruct (Hc c eq_refl) as [_ Hv]. split_and!; [done| |].
    + intros Hin. by destruct (upto_step _ c (c + seq_step s) Hst (Hv _ Hin)).
    + intros v [Hin| ->%list_elem_of_singleton]%elem_of_app; [|apply upto_refl]. by apply upto_step, Hv.
  - intros [= <-]. destruct h as [|x h]; [|by destruct (Hh ltac:(done))].
    split_and!; [done|apply not_elem_of_nil|]. intros v ->%list_elem_of_singleton. apply upto_refl.
Qed.

(** What handing [value] out leaves, once its reservation is in place. *)
Lemma put_current_ok name h q s value : state q !! name = Some s -> entry_ok h s -> following s = Some value ->
  (forall f, file q = Some f -> exists e, f !! name = Some e /\ stored_ok h e s /\
     exists r, reserved s = Some r /\ upto (seq_step s) value r) ->
  seq_ok name (h ++ [value]) (put_current name value q).
Proof.
  intros Hs He Hv Hf. destruct (following_spec h s value He Hv) as (Hi & _ & Hall).
  destruct He as (H1 & H2 & _ & _). unfold seq_ok, put_current. rewrite Hs. cbn [state file].
  rewrite lookup_insert_eq. split.
  - split_and!; cbn [seq_step seq_start current]; [done|done|by eexists|]. intros c [= <-]. by split.
  - intros f Hff. destruct (Hf f Hff) as (e & He & (E1 & E2 & E3 & E4 & E5) & r & Hr & Hu). exists e.
    split; [done|]. split_and!; cbn [seq_step seq_start current reserved]; try done.
    + by rewrite Hr.
    + intros r' Hr'. rewrite Hr in Hr'. injection Hr' as <-. split; [by apply E5|]. by intros c [= <-].
Qed.

Lemma put_current_other name n h value q : n <> name -> seq_ok name h q -> seq_ok name h (put_current n value q).
Proof.
  intros Hne Hq. unfold put_current. destruct (state q !! n); [|done]. unfold seq_ok in *. cbn [state file].
  by rewrite lookup_insert_ne.
Qed.

Lemma next_other name n h io q : n <> name -> seq_ok name h q -> seq_ok name h (next io n q).1.
Proof.
  intros Hne Hq. unfold next. destruct (read_only q); [done|]. destruct (state q !! n) as [s|]; [|done].
  destruct (following s) as [value|]; [|done]. destruct (_ && _); [|by apply put_current_other].
  match goal with |- context [persist io ?m q] => pose proof (persist_other name h io m q Hq) as Hp;
    destruct (persist io m q) as [q' [[]|e]] end; cbn [fst] in *.
  - apply put_current_other; [done|]. apply Hp; [by rewrite lookup_insert_ne|]. intros. by eapply stored_self.
  - apply Hp; [by rewrite lookup_insert_ne|]. intros. by eapply stored_self.
Qed.

Lemma next_ok name h io q : seq_ok name h q ->
  match next io name q with
  | (q', Ok v) => (v ∉ h) /\ seq_ok name (h ++ [v]) q'
  | (q', Err _) => seq_ok name h q'
  end.
Proof.
  intros Hq. unfold next. destruct (read_only q); [done|]. pose proof Hq as Hq'. unfold seq_ok in Hq'.
  destruct (state q !! name) as [s|] eqn:Es; [|done]. destruct Hq' as [He Hf].
  destruct (following s) as [value|] eqn:Ev; [|done]. destruct (following_spec h s value He Ev) as (Hi & Hn & _).
  destruct (bool_decide (is_Some (file q)) && beyond_reservation s value) eqn:Hb.
  - apply andb_true_iff in Hb as [[f Ef]%bool_decide_eq_true _]. unfold persist. rewrite Ef.
    destruct io; [|done]. split; [done|].
    destruct (reservation_upto s value Hi ltac:(apply He)) as [Hu Hr].
    eapply put_current_ok with (s := mkState (seq_start s) (seq_step s) (current s) (Some (reservation s value)));
      cbn [state file]; [apply lookup_insert_eq|done|done|].
    intros f' [= <-]. eexists. rewrite lookup_insert_eq. split; [done|]. split; [|by eexists].
    split_and!; cbn [seq_start seq_step current reserved]; try done. intros r [= <-]. split; [done|].
    intros c Hc. destruct He as (H1 & _ & _ & H4). destruct (H4 c Hc) as [_ _].
    eapply upto_trans; [|exact Hu]. unfold following in Ev. rewrite Hc in Ev. unfold checked_i64 in Ev.
    case_bool_decide; [|done]. injection Ev as <-. by apply upto_step, upto_refl.
  - split; [done|]. eapply put_current_ok; [done..|]. intros f Ef. destruct (Hf f Ef) as (e & Hfe & Hst).
    exists e. split_and!; [done|done|]. apply andb_false_iff in Hb as [Hb|Hb].
    + rewrite bool_decide_eq_false in Hb. destruct Hb. by eexists.
    + destruct (reserved s) as [r|] eqn:Er; [|unfold beyond_reservation in Hb; by rewrite Er in Hb].
      exists r. split; [done|]. by apply within_reservation.
Qed.

Lemma load_ok name h q f : seq_ok name h q -> file q = Some f -> seq_ok name h (load f).
Proof.
  unfold seq_ok. intros Hq Hf. cbn [load state file]. rewrite lookup_fmap.
  destruct (state q !! name) as [s|] eqn:Es.
  - destruct Hq as [(H1 & H2 & H3 & H4) Hst]. destruct (Hst f Hf) as (e & He & E1 & E2 & E3 & E4 & E5). rewrite He.
    cbn [fmap option_fmap option_map]. unfold resume. rewrite E3. destruct (reserved s) as [r|] eqn:Er.
    + destruct (E5 r eq_refl) as [Hr Hc]. split.
      * split_and!; cbn [seq_step seq_start current]; [by rewrite E2|by rewrite E1|by eexists|].
        intros c [= <-]. split; [done|]. intros v Hv. rewrite E2.
        destruct (H3 ltac:(intros ->; by apply not_elem_of_nil in Hv)) as [c Ec].
        destruct (H4 c Ec) as [_ Hall]. eapply upto_trans; [by apply Hall|by apply Hc].
      * intros f' [= <-]. exists e. split; [done|].
        split_and!; cbn [seq_start seq_step current reserved]; try done.
        intros r' [= <-]. split; [done|]. intros c [= <-]. apply upto_refl.
    + destruct (E4 eq_refl) as [Hcs Hce]. split.
      * split_and!; [by rewrite E2|by rewrite E1| |by rewrite Hce].
        intros Hh. destruct (H3 Hh) as [c Hc]. congruence.
      * intros f' [= <-]. exists e. split; [done|]. split_and!; try done. all: intros; congruence.
  - destruct Hq as [-> Hn]. rewrite (Hn f Hf). split; [done|]. intros f' [= <-]. by apply Hn.
Qed.

Lemma handed_fresh name es h q : seq_ok name h q -> NoDup h -> Forall (fun x => typed x.2) es ->
  Forall (fun x => x.2 <> Drop name) es -> NoDup (h ++ handed name es q).
Proof.
  revert h q. induction es as [|[io e] es IH]; intros h q Hq Hh Ht Hd; cbn [handed].
  { by rewrite app_nil_r. }
  apply Forall_cons in Ht as [Ht1 Ht], Hd as [Hd1 Hd]. cbn [snd] in *.
  destruct e as [n start step|n|n|on|]; cbn [handle].
  - apply IH; [|done..]. apply create_ok; [done|apply Ht1].
  - apply IH; [|done..]. apply drop_ok; [done|congruence].
  - destruct (decide (n = name)) as [->|Hne].
    + pose proof (next_ok name h io q Hq) as Hn. destruct (next io name q) as [q' [v|e]]; [|by apply IH].
      destruct Hn as [Hv Hq']. rewrite bool_decide_eq_true_2, (assoc app) by done. apply IH; [done| |done..].
      apply NoDup_app. split_and!; [done| |apply NoDup_singleton].
      intros x Hx ->%list_elem_of_singleton. done.
    + pose proof (next_other name n h io q Hne Hq) as Hn. destruct (next io n q) as [q' [v|e]]; [|by apply IH].
      rewrite bool_decide_eq_false_2 by done. by apply IH.
  - by apply IH.
  - apply IH; [|done..]. destruct (file q) as [f|] eqn:Ef; [|done]. by eapply load_ok.
Qed.

(** The store a run starts from: in memory, or a file not yet written. *)
Definition opened (durable : bool) : Sequences := if durable then load ∅ else in_memory.

(** C35: A value, once handed out, is never handed out again: whatever calls are
    made in whatever order, through crashes and restarts, failed writes of the
    file and saturating reservations, the values a sequence hands out are
    pairwise distinct as long as it is not dropped. *)
Theorem values_never_reissued name durable es : Forall (fun x => typed x.2) es ->
  Forall (fun x => x.2 <> Drop name) es -> NoDup (handed name es (opened durable)).
Proof.
  intros Ht Hd. apply (handed_fresh name es []); [|apply NoDup_nil_2|done|done].
  destruct durable; split; try done. by intros f [= <-].
Qed.

(** ** Without restarts the values are consecutive *)
Definition quiet (name : string) (e : Event) : Prop :=
  match e with Crash => False | Drop n => n <> name | _ => True end.

(** [s] as it stands after handing out [k] values. *)
Definition counted_to (k : nat) (q : Sequences) (name : string) (s0 : State) : Prop :=
  exists s, state q !! name = Some s /\ seq_start s = seq_start s0 /\ seq_step s = seq_step s0 /\
    current s = match k with O => None | S k => Some (seq_start s0 + Z.of_nat k * seq_step s0) end.

Lemma persist_state name io next q : next !! name = state q !! name ->
  state (persist io next q).1 !! name = state q !! name.
Proof. unfold persist. intros Hn. destruct (file q); [destruct io|]; done. Qed.

Lemma counted_keep k q q' name s0 : counted_to k q name s0 -> state q' !! name = state q !! name ->
  counted_to k q' name s0.
Proof. intros (s & Hs & ?) Heq. exists s. by rewrite Heq. Qed.

Lemma next_other_state name n io q : n <> name -> state (next io n q).1 !! name = state q !! name.
Proof.
  intros Hne. unfold next. destruct (read_only q); [done|]. destruct (state q !! n) as [s|] eqn:En; [|done].
  destruct (following s) as [value|]; [|done].
  assert (forall q', state (put_current n value q') !! name = state q' !! name) as Hput.
  { intros q'. unfold put_current. destruct (state q' !! n); [|done]. cbn. by rewrite lookup_insert_ne. }
  destruct (_ && _); [|apply Hput].
  match goal with |- context [persist io ?m q] => pose proof (persist_state name io m q) as Hp;
    destruct (persist io m q) as [q' [[]|e]] end; cbn [fst] in *.
  - rewrite Hput. apply Hp. by rewrite lookup_insert_ne.
  - apply Hp. by rewrite lookup_insert_ne.
Qed.

Lemma next_counted name io q k s0 : counted_to k q name s0 ->
  match next io name q with
  | (q', Ok v) => v = seq_start s0 + Z.of_nat k * seq_step s0 /\ counted_to (S k) q' name s0
  | (q', Err _) => counted_to k q' name s0
  end.
Proof.
  intros (s & Hs & E1 & E2 & Ec). assert (counted_to k q name s0) as Hsame by (by exists s).
  unfold next. destruct (read_only q); [done|]. rewrite Hs. destruct (following s) as [value|] eqn:Ev; [|done].
  assert (value = seq_start s0 + Z.of_nat k * seq_step s0) as Hval.
  { unfold following, checked_i64 in Ev. rewrite Ec, E1, E2 in Ev. destruct k; [injection Ev as <-; lia|].
    case_bool_decide; [|done]. injection Ev as <-. lia. }
  assert (forall q' r, state q' !! name = Some (mkState (seq_start s) (seq_step s) (current s) r) ->
    counted_to (S k) (put_current name value q') name s0) as Hput.
  { intros q' r Hq'. unfold put_current. rewrite Hq'. eexists. cbn. rewrite lookup_insert_eq. split; [done|].
    cbn. by rewrite Hval. }
  destruct (_ && _).
  - unfold persist. destruct (file q); [destruct io|]; try done;
      (split; [done|]; apply (Hput _ (Some (reservation s value))); cbn; by rewrite lookup_insert_eq).
  - split; [done|]. apply (Hput _ (reserved s)). rewrite Hs. by destruct s.
Qed.

Lemma handed_consecutive name es q k s0 : counted_to k q name s0 -> Forall (fun x => quiet name x.2) es ->
  forall i v, handed name es q !! i = Some v -> v = seq_start s0 + Z.of_nat (k + i) * seq_step s0.
Proof.
  revert q k. induction es as [|[io e] es IH]; intros q k Hk Hes i v; cbn [handed]; [done|].
  apply Forall_cons in Hes as [He Hes]. cbn [snd] in He. destruct e as [n start step|n|n|on|]; cbn [handle].
  - apply IH; [|done]. eapply counted_keep; [done|]. unfold create. destruct (read_only q); [done|].
    destruct (blank _); [done|]. destruct (_ =? 0); [done|]. destruct (state q !! n) eqn:En; [done|].
    apply persist_state. destruct (decide (n = name)) as [->|]; [|by rewrite lookup_insert_ne].
    destruct Hk as (s & Hs & _). congruence.
  - apply IH; [|done]. eapply counted_keep; [done|]. unfold drop_sequence. destruct (read_only q); [done|].
    destruct (state q !! n); [|done]. pose proof (persist_state name io (delete n (state q)) q) as Hp.
    destruct (persist io (delete n (state q)) q). apply Hp. by rewrite lookup_delete_ne.
  - destruct (decide (n = name)) as [->|Hne].
    + pose proof (next_counted name io q k s0 Hk) as Hn. destruct (next io name q) as [q' [x|e]]; [|by apply IH].
      destruct Hn as [Hx Hk']. rewrite bool_decide_eq_true_2 by done. destruct i as [|i]; cbn.
      * intros [= <-]. rewrite Hx. f_equal. f_equal. lia.
      * intros Hi. rewrite (IH q' (S k) Hk' Hes i v Hi). f_equal. f_equal. lia.
    + pose proof (next_other_state name n io q Hne) as Hn. destruct (next io n q) as [q' [x|e]];
        [rewrite bool_decide_eq_false_2 by done; cbn [app]|]; apply IH; try done; by eapply counted_keep.
  - by apply IH.
  - done.
Qed.

(** Between restarts a sequence counts without gaps: the i-th value handed out
    after its creation is [start + i * step], whatever other sequences do and
    whichever writes fail. *)
Theorem values_consecutive name io start step es q q' : create io name start step q = (q', Ok tt) ->
  Forall (fun x => quiet name x.2) es ->
  forall i v, handed name es q' !! i = Some v -> v = start + Z.of_nat i * step.
Proof.
  intros Hc Hes i v. apply (handed_consecutive name es q' 0 (mkState start step None None)); [|done].
  unfold create in Hc. destruct (read_only q); [done|]. destruct (blank _); [done|]. destruct (_ =? 0); [done|].
  destruct (state q !! name); [done|]. unfold persist in Hc.
  destruct (file q); [destruct io|]; try done; injection Hc as <-; eexists; cbn; by rewrite lookup_insert_eq.
Qed.

(** ** Witnesses *)
Definition busy : list (bool * Event) :=
  [(true, Create "bug" 1000 1); (true, Next "bug"); (true, Next "bug"); (true, Crash); (false, Next "bug");
   (true, Next "bug"); (true, Create "down" 5 (-2)); (true, Next "down"); (true, Next "bug")].

Lemma values_never_reissued_witness : NoDup (handed "bug" busy (opened true)) /\
  handed "bug" busy (opened true) = [1000; 1001; 2000; 2001].
Proof.
  split; [|vm_compute; reflexivity]. apply (values_never_reissued "bug" true busy).
  - repeat constructor; unfold is_i64, i64_min, i64_max; cbn; lia.
  - repeat constructor; discriminate.
Defined.

Lemma values_consecutive_witness :
  let q := (create true "bug" 1000 7 (opened true)).1 in
  handed "bug" [(true, Next "bug"); (false, Next "cat"); (true, Next "bug")] q !! 1%nat = Some 1007.
Proof.
  intros q. destruct (handed "bug" _ q !! 1%nat) as [v|] eqn:Hv; [|vm_compute in Hv; discriminate].
  rewrite (values_consecutive "bug" true 1000 7 [(true, Next "bug"); (false, Next "cat"); (true, Next "bug")]
    (opened true) q eq_refl ltac:(repeat constructor) 1%nat v Hv). reflexivity.
Defined.
