(* ===== verification/WireBytes.v ===== *)
(** * Bytes: big-endian integers, UTF-8 and byte order

    What the wire formats take from Rust's standard library: [to_be_bytes] and
    [from_to_be], two's complement casts, [str::from_utf8] and the
    lexicographic order of strings.  A byte is a number below 256. *)
From S2P Require Import Prelude.
Local Open Scope list_scope.
Local Open Scope N_scope.

Abbreviation bytes := (list N).
Definition is_byte (b : N) : Prop := b < 256.

(** [to_be_bytes] of a [w]-byte unsigned integer, and back. *)
Fixpoint be_bytes (w : nat) (n : N) : bytes :=
  match w with
  | O => []
  | S w => ((n / 256 ^ N.of_nat w) mod 256) :: be_bytes w n
  end.
Definition from_be (l : bytes) : N := foldl (fun acc b => acc * 256 + b) 0 l.

(** [as uW] of a signed integer, and the signed reading of [w] bytes. *)
Definition to_unsigned (w : nat) (i : Z) : N := Z.to_N (i mod 256 ^ Z.of_nat w).
Definition to_signed (w : nat) (n : N) : Z :=
  if n <? 256 ^ N.of_nat w / 2 then Z.of_N n else (Z.of_N n - 256 ^ Z.of_nat w)%Z.

(** ** UTF-8: [std::str::from_utf8] accepts exactly the well-formed sequences *)
Definition within (lo hi b : N) : bool := (lo <=? b) && (b <=? hi).
Definition continuation (b : N) : bool := within 128 191 b.

Fixpoint from_utf8 (l : bytes) : bool :=
  match l with
  | [] => true
  | a :: l1 =>
      if a <? 128 then from_utf8 l1
      else match l1 with
      | [] => false
      | b :: l2 =>
          if within 194 223 a then continuation b && from_utf8 l2
          else match l2 with
          | [] => false
          | c :: l3 =>
              if within 224 239 a
              then ((a =? 224) && within 160 191 b || (a =? 237) && within 128 159 b ||
                    negb ((a =? 224) || (a =? 237)) && continuation b) && continuation c && from_utf8 l3
              else match l3 with
              | [] => false
              | d :: l4 =>
                  ((a =? 240) && within 144 191 b || within 241 243 a && continuation b ||
                   (a =? 244) && within 128 143 b) && continuation c && continuation d && from_utf8 l4
              end
          end
      end
  end.

(** [to_le_bytes] and [from_le_bytes]. *)
Definition le_bytes (w : nat) (n : N) : bytes := rev (be_bytes w n).
Definition from_le (l : bytes) : N := from_be (rev l).

(** A byte string literal. *)
Definition ascii_bytes (s : string) : bytes := Ascii.N_of_ascii <$> String.list_ascii_of_string s.

(** ** [str::trim]: the characters with the property White_Space *)
Definition is_space (c : bytes) : bool :=
  match c with
  | [b] => within 9 13 b || (b =? 32)
  | [194; b] => (b =? 133) || (b =? 160)
  | [225; 154; 128] | [226; 129; 159] | [227; 128; 128] => true
  | [226; 128; b] => within 128 138 b || (b =? 168) || (b =? 169) || (b =? 175)
  | _ => false
  end.

(** The length of the white-space character a string starts or ends with. *)
Definition space_before (l : bytes) : nat :=
  if is_space (take 1 l) then 1 else if is_space (take 2 l) then 2 else if is_space (take 3 l) then 3 else 0.
Definition space_after (l : bytes) : nat :=
  if is_space (rev (take 1 l)) then 1 else if is_space (rev (take 2 l)) then 2
  else if is_space (rev (take 3 l)) then 3 else 0.

(** Dropping such characters; the length of the string is fuel enough. *)
Fixpoint drop_spaces (space : bytes -> nat) (fuel : nat) (l : bytes) : bytes :=
  match fuel, space l with
  | S fuel, S n => drop_spaces space fuel (drop (S n) l)
  | _, _ => l
  end.
Definition trim_start (l : bytes) : bytes := drop_spaces space_before (length l) l.
Definition trim_end (l : bytes) : bytes := rev (drop_spaces space_after (length l) (rev l)).
Definition trim (l : bytes) : bytes := trim_end (trim_start l).

(** ** The order of byte strings *)
Fixpoint bytes_compare (a b : bytes) : comparison :=
  match a, b with
  | [], [] => Eq
  | [], _ => Lt
  | _, [] => Gt
  | x :: a, y :: b => match x ?= y with Eq => bytes_compare a b | c => c end
  end.
Definition bytes_lt (a b : bytes) : Prop := bytes_compare a b = Lt.
#[global] Instance bytes_lt_dec a b : Decision (bytes_lt a b).
Proof. unfold bytes_lt. destruct (bytes_compare a b); (left; reflexivity) || (right; discriminate). Defined.

Lemma bytes_compare_eq a b : bytes_compare a b = Eq -> a = b.
Proof.
  revert b. induction a as [|x a IH]; intros [|y b]; cbn; try done.
  destruct (N.compare_spec x y) as [->| |]; try done. intros H. f_equal. by apply IH.
Qed.

Lemma bytes_compare_flip a b : bytes_compare b a = CompOpp (bytes_compare a b).
Proof.
  revert b. induction a as [|x a IH]; intros [|y b]; cbn; try done.
  rewrite (N.compare_antisym x y). by destruct (x ?= y); cbn.
Qed.

Lemma bytes_lt_cons x a y b : bytes_lt (x :: a) (y :: b) <-> x < y \/ x = y /\ bytes_lt a b.
Proof.
  unfold bytes_lt. cbn. destruct (N.compare_spec x y) as [->| |]; split; try done; try lia;
    try (by right); try (by left).
  by intros [?|[_ ?]]; [lia|].
Qed.

Lemma bytes_lt_trans a b c : bytes_lt a b -> bytes_lt b c -> bytes_lt a c.
Proof.
  revert b c. induction a as [|x a IH]; intros [|y b] [|z c]; try done.
  rewrite !bytes_lt_cons. intros [?|[-> ?]] [?|[-> ?]]; [left; lia|by left|by left|].
  right. split; [done|]. by eapply IH.
Qed.

(** ** Integers and back *)
Lemma length_be_bytes w n : length (be_bytes w n) = w.
Proof. induction w; cbn; congruence. Qed.

Lemma pow_succ w : 256 ^ N.of_nat (S w) = 256 * 256 ^ N.of_nat w.
Proof. by rewrite Nat2N.inj_succ, N.pow_succ_r'. Qed.

Lemma from_be_acc acc l : foldl (fun acc b => acc * 256 + b) acc l = acc * 256 ^ N.of_nat (length l) + from_be l.
Proof.
  unfold from_be. revert acc. induction l as [|b l IH]; intros acc; cbn [foldl length]; [cbn; lia|].
  rewrite IH, (IH (0 * 256 + b)), pow_succ. lia.
Qed.

Lemma from_be_cons b l : from_be (b :: l) = b * 256 ^ N.of_nat (length l) + from_be l.
Proof. unfold from_be at 1. cbn [foldl]. rewrite from_be_acc. lia. Qed.

Lemma from_to_be w n : from_be (be_bytes w n) = n mod 256 ^ N.of_nat w.
Proof.
  induction w as [|w IH]; [cbn; by rewrite N.mod_1_r|]. cbn [be_bytes].
  rewrite from_be_cons, length_be_bytes, IH, pow_succ.
  rewrite (N.mul_comm 256), N.Div0.mod_mul_r. lia.
Qed.

Lemma from_be_bound l : Forall is_byte l -> from_be l < 256 ^ N.of_nat (length l).
Proof.
  induction 1 as [|b l Hb Hl IH]; [cbn; lia|]. rewrite from_be_cons. cbn [length]. rewrite pow_succ.
  unfold is_byte in Hb. nia.
Qed.

Lemma signed_unsigned w i : (0 < w)%nat ->
  (- (256 ^ Z.of_nat w / 2) <= i < 256 ^ Z.of_nat w / 2)%Z ->
  to_unsigned w i < 256 ^ N.of_nat w /\ to_signed w (to_unsigned w i) = i.
Proof.
  intros Hw Hi. unfold to_unsigned, to_signed.
  assert (256 ^ Z.of_nat w = 2 * (256 ^ Z.of_nat w / 2))%Z as Hp.
  { destruct w as [|w]; [lia|]. rewrite Nat2Z.inj_succ, Z.pow_succ_r by lia.
    replace (256 * 256 ^ Z.of_nat w)%Z with (2 * (128 * 256 ^ Z.of_nat w))%Z by lia.
    assert (2 * (128 * 256 ^ Z.of_nat w) / 2 = 128 * 256 ^ Z.of_nat w)%Z as -> by (rewrite Z.mul_comm, Z.div_mul; lia).
    done. }
  assert (Z.of_N (256 ^ N.of_nat w) = 256 ^ Z.of_nat w)%Z as HN by (rewrite N2Z.inj_pow, nat_N_Z; done).
  assert (Z.of_N (256 ^ N.of_nat w / 2) = 256 ^ Z.of_nat w / 2)%Z as HN2 by (rewrite N2Z.inj_div, HN; done).
  assert (0 < 256 ^ Z.of_nat w)%Z as Hpos by (apply Z.pow_pos_nonneg; lia).
  pose proof (Z.mod_pos_bound i _ Hpos) as Hm.
  assert (i mod 256 ^ Z.of_nat w = if decide (i < 0)%Z then i + 256 ^ Z.of_nat w else i)%Z as Hmod.
  { case_decide; symmetry; [apply (Z.mod_unique i _ (-1))|apply (Z.mod_unique i _ 0)]; lia. }
  split; [lia|]. rewrite Hmod in Hm |- *.
  destruct (N.ltb_spec (Z.to_N (if decide (i < 0)%Z then i + 256 ^ Z.of_nat w else i))
    (256 ^ N.of_nat w / 2)) as [Hlt|Hge]; case_decide; lia.
Qed.

Lemma length_le_bytes w n : length (le_bytes w n) = w.
Proof. unfold le_bytes. by rewrite length_rev, length_be_bytes. Qed.

Lemma from_to_le w n : from_le (le_bytes w n) = n mod 256 ^ N.of_nat w.
Proof. unfold from_le, le_bytes. by rewrite rev_involutive, from_to_be. Qed.

(** A string that neither starts nor ends with white space is its own trim. *)
Lemma trim_id l : space_before l = 0%nat -> space_after (rev l) = 0%nat -> trim l = l.
Proof.
  intros H1 H2. assert (E : trim_start l = l).
  { unfold trim_start. destruct l as [|b l]; [done|]. cbn [length drop_spaces]. by rewrite H1. }
  unfold trim. rewrite E. unfold trim_end. destruct l as [|b l]; [done|]. cbn [length drop_spaces].
  by rewrite H2, rev_involutive.
Qed.
