(* ===== verification/PackStream.v ===== *)
(** * PackStream: the values of the Bolt protocol
    ([src/src/bolt/packstream.rs], [src/src/bolt/error.rs])

    Bytes are numbers below 256.  A string is its UTF-8 bytes, a float its 64
    bits, a dictionary the ascending list of its entries ([BTreeMap]).  The
    decoder recurses on the input; the model spends one unit of fuel per level
    and item, and [decode_terminates] shows that the input's length is enough. *)
From S2P Require Import Prelude WireBytes.
Local Open Scope list_scope.
Local Open Scope N_scope.

#[local] Set Warnings "-register-all".

Inductive BoltError : Type :=
| InvalidMagic
| InvalidHandshakeLength (len : nat)
| UnknownMarker (marker : N)
| Eof
| LengthOverflow (len : N)
| Io.

Inductive Value : Type :=
| Null
| Boolean (b : bool)
| Integer (i : Z)
| Float (bits : N)
| Str (s : bytes)
| Bytes (b : bytes)
| List (items : list Value)
| Dictionary (entries : list (bytes * Value))
| Structure (tag : N) (fields : list Value).

(** ** Encoder *)
Definition M_NULL : N := 192.
Definition M_FALSE : N := 194.
Definition M_TRUE : N := 195.
Definition M_FLOAT : N := 193.
Definition M_INT_8 : N := 200.
Definition M_INT_16 : N := 201.
Definition M_INT_32 : N := 202.
Definition M_INT_64 : N := 203.
Definition M_BYTES_8 : N := 204.
Definition M_BYTES_16 : N := 205.
Definition M_BYTES_32 : N := 206.
Definition M_STRING_8 : N := 208.
Definition M_STRING_16 : N := 209.
Definition M_STRING_32 : N := 210.
Definition M_LIST_8 : N := 212.
Definition M_LIST_16 : N := 213.
Definition M_LIST_32 : N := 214.
Definition M_DICT_8 : N := 216.
Definition M_DICT_16 : N := 217.
Definition M_DICT_32 : N := 218.
Definition M_STRUCT_8 : N := 220.
Definition M_STRUCT_16 : N := 221.

Definition encode_integer (i : Z) : bytes :=
  if (bool_decide (-16 <= i <= 127))%Z then be_bytes 1 (to_unsigned 1 i)
  else if (bool_decide (-128 <= i <= 127))%Z then M_INT_8 :: be_bytes 1 (to_unsigned 1 i)
  else if (bool_decide (-32768 <= i <= 32767))%Z then M_INT_16 :: be_bytes 2 (to_unsigned 2 i)
  else if (bool_decide (-2147483648 <= i <= 2147483647))%Z then M_INT_32 :: be_bytes 4 (to_unsigned 4 i)
  else M_INT_64 :: be_bytes 8 (to_unsigned 8 i).

(** [out.push(marker); out.extend_from_slice(&(len as uW).to_be_bytes())]. *)
Definition len_header (marker : N) (w : nat) (len : N) : bytes :=
  marker :: be_bytes w (len mod 256 ^ N.of_nat w).

Definition encode_string (s : bytes) : bytes :=
  let len := N.of_nat (length s) in
  (if len <=? 15 then [N.lor 128 len]
   else if len <=? 255 then len_header M_STRING_8 1 len
   else if len <=? 65535 then len_header M_STRING_16 2 len
   else len_header M_STRING_32 4 len) ++ s.

Definition encode_bytes (b : bytes) : bytes :=
  let len := N.of_nat (length b) in
  (if len <=? 255 then len_header M_BYTES_8 1 len
   else if len <=? 65535 then len_header M_BYTES_16 2 len
   else len_header M_BYTES_32 4 len) ++ b.

Definition encode_list_header (len : N) : bytes :=
  if len <=? 15 then [N.lor 144 len]
  else if len <=? 255 then len_header M_LIST_8 1 len
  else if len <=? 65535 then len_header M_LIST_16 2 len
  else len_header M_LIST_32 4 len.

Definition encode_dict_header (len : N) : bytes :=
  if len <=? 15 then [N.lor 160 len]
  else if len <=? 255 then len_header M_DICT_8 1 len
  else if len <=? 65535 then len_header M_DICT_16 2 len
  else len_header M_DICT_32 4 len.

Definition encode_struct_header (size : N) : bytes :=
  if size <=? 15 then [N.lor 176 size]
  else if size <=? 255 then len_header M_STRUCT_8 1 size
  else len_header M_STRUCT_16 2 size.

Fixpoint encode (value : Value) : bytes :=
  match value with
  | Null => [M_NULL]
  | Boolean false => [M_FALSE]
  | Boolean true => [M_TRUE]
  | Integer i => encode_integer i
  | Float bits => M_FLOAT :: be_bytes 8 bits
  | Str s => encode_string s
  | Bytes b => encode_bytes b
  | List items => encode_list_header (N.of_nat (length items)) ++ flat_map encode items
  | Dictionary entries =>
      encode_dict_header (N.of_nat (length entries)) ++
      flat_map (fun e => encode_string e.1 ++ encode e.2) entries
  | Structure tag fields =>
      encode_struct_header (N.of_nat (length fields)) ++ tag :: flat_map encode fields
  end.

(** ** Decoder *)

(** What a decoding step returns: a value and the unread tail, or an error;
    [None] when the fuel ran out. *)
Definition Decoded (A : Type) : Type := option (result BoltError (A * bytes)).
Definition read_as {A} (a : A) (rest : bytes) : Decoded A := Some (Ok (a, rest)).
Definition refuse {A} (e : BoltError) : Decoded A := Some (Err e).
Definition and_then {A B} (m : Decoded A) (k : A -> bytes -> Decoded B) : Decoded B :=
  match m with
  | Some (Ok (a, rest)) => k a rest
  | Some (Err e) => Some (Err e)
  | None => None
  end.

Definition split_first (input : bytes) : Decoded N :=
  match input with b :: rest => read_as b rest | [] => refuse Eof end.
Definition split_n (n : nat) (input : bytes) : Decoded bytes :=
  if (length input <? n)%nat then refuse Eof else read_as (take n input) (drop n input).

(** The byte payload of a string or byte array. *)
Definition take_payload (len : N) (input : bytes) : Decoded bytes :=
  if N.of_nat (length input) <? len then refuse Eof
  else read_as (take (N.to_nat len) input) (drop (N.to_nat len) input).

Definition decode_string_payload (len : N) (input : bytes) : Decoded Value :=
  and_then (take_payload len input) (fun payload rest =>
    if from_utf8 payload then read_as (Str payload) rest else refuse Io).
Definition decode_bytes_payload (len : N) (input : bytes) : Decoded Value :=
  and_then (take_payload len input) (fun payload rest => read_as (Bytes payload) rest).

(** The [decode_*_u8], [decode_*_u16] and [decode_*_u32] of each family: a
    big-endian length, then the family's payload. *)
Definition sized (w : nat) (payload : N -> bytes -> Decoded Value) (input : bytes) : Decoded Value :=
  and_then (split_n w input) (fun b rest =>
    let len := from_be b in
    if len <? 2 ^ 64 then payload len rest else refuse (LengthOverflow len)).

(** [BTreeMap::insert] on the ascending entries. *)
Fixpoint dict_insert (k : bytes) (v : Value) (l : list (bytes * Value)) : list (bytes * Value) :=
  match l with
  | [] => [(k, v)]
  | e :: l =>
      match bytes_compare k e.1 with
      | Lt => (k, v) :: e :: l
      | Eq => (k, v) :: l
      | Gt => e :: dict_insert k v l
      end
  end.

Section decoding.
Context (decode : bytes -> Decoded Value).

(** The loop of [decode_list_items] and [decode_struct_fields]. *)
Fixpoint decode_items (fuel : nat) (len : N) (input : bytes) : Decoded (list Value) :=
  if len =? 0 then read_as [] input
  else match fuel with
       | O => None
       | S fuel =>
           and_then (decode input) (fun item rest =>
             and_then (decode_items fuel (len - 1) rest) (fun items rest => read_as (item :: items) rest))
       end.

(** The loop of [decode_dict_items], from the map built so far. *)
Fixpoint decode_entries (fuel : nat) (len : N) (map : list (bytes * Value)) (input : bytes) :
    Decoded (list (bytes * Value)) :=
  if len =? 0 then read_as map input
  else match fuel with
       | O => None
       | S fuel =>
           and_then (decode input) (fun key rest =>
             match key with
             | Str k =>
                 and_then (decode rest) (fun v rest => decode_entries fuel (len - 1) (dict_insert k v map) rest)
             | _ => refuse Io
             end)
       end.

Definition decode_list_items (fuel : nat) (len : N) (input : bytes) : Decoded Value :=
  and_then (decode_items fuel len input) (fun items rest => read_as (List items) rest).
Definition decode_dict_items (fuel : nat) (len : N) (input : bytes) : Decoded Value :=
  and_then (decode_entries fuel len [] input) (fun map rest => read_as (Dictionary map) rest).
Definition decode_struct_fields (fuel : nat) (size : N) (input : bytes) : Decoded Value :=
  and_then (split_first input) (fun tag rest =>
    and_then (decode_items fuel size rest) (fun fields rest => read_as (Structure tag fields) rest)).

Definition decode_tiny_or_int (fuel : nat) (marker : N) (input : bytes) : Decoded Value :=
  let signed := to_signed 1 marker in
  if (bool_decide (-16 <= signed <= 127))%Z then read_as (Integer signed) input
  else
    let len := N.land marker 15 in
    let family := N.land marker 240 in
    if family =? 128 then decode_string_payload len input
    else if family =? 144 then decode_list_items fuel len input
    else if family =? 160 then decode_dict_items fuel len input
    else if family =? 176 then decode_struct_fields fuel len input
    else refuse (UnknownMarker marker).

Definition decode_int (w : nat) (input : bytes) : Decoded Value :=
  and_then (split_n w input) (fun b rest => read_as (Integer (to_signed w (from_be b))) rest).

Definition decode_with_marker (fuel : nat) (marker : N) (input : bytes) : Decoded Value :=
  if marker =? M_NULL then read_as Null input
  else if marker =? M_TRUE then read_as (Boolean true) input
  else if marker =? M_FALSE then read_as (Boolean false) input
  else if marker =? M_FLOAT then and_then (split_n 8 input) (fun b rest => read_as (Float (from_be b)) rest)
  else if marker =? M_INT_8 then decode_int 1 input
  else if marker =? M_INT_16 then decode_int 2 input
  else if marker =? M_INT_32 then decode_int 4 input
  else if marker =? M_INT_64 then decode_int 8 input
  else if marker =? M_BYTES_8 then sized 1 decode_bytes_payload input
  else if marker =? M_BYTES_16 then sized 2 decode_bytes_payload input
  else if marker =? M_BYTES_32 then sized 4 decode_bytes_payload input
  else if marker =? M_STRING_8 then sized 1 decode_string_payload input
  else if marker =? M_STRING_16 then sized 2 decode_string_payload input
  else if marker =? M_STRING_32 then sized 4 decode_string_payload input
  else if marker =? M_LIST_8 then sized 1 (decode_list_items fuel) input
  else if marker =? M_LIST_16 then sized 2 (decode_list_items fuel) input
  else if marker =? M_LIST_32 then sized 4 (decode_list_items fuel) input
  else if marker =? M_DICT_8 then sized 1 (decode_dict_items fuel) input
  else if marker =? M_DICT_16 then sized 2 (decode_dict_items fuel) input
  else if marker =? M_DICT_32 then sized 4 (decode_dict_items fuel) input
  else if marker =? M_STRUCT_8 then sized 1 (decode_struct_fields fuel) input
  else if marker =? M_STRUCT_16 then sized 2 (decode_struct_fields fuel) input
  else decode_tiny_or_int fuel marker input.
End decoding.

Fixpoint decode_fuel (fuel : nat) (input : bytes) : Decoded Value :=
  match fuel with
  | O => None
  | S fuel =>
      and_then (split_first input) (fun marker rest => decode_with_marker (decode_fuel fuel) fuel marker rest)
  end.

Definition decode (input : bytes) : Decoded Value := decode_fuel (S (length input)) input.

(** ** The values that have an encoding of their own

    A valid value of each Rust type, within the 32-bit lengths of the format and
    the 16-bit field count of a structure. *)
Definition short (w : nat) {A} (l : list A) : bool := N.of_nat (length l) <? 256 ^ N.of_nat w.

Fixpoint ascending (l : list bytes) : bool :=
  match l with
  | a :: (b :: _) as l' => bool_decide (bytes_lt a b) && ascending l'
  | _ => true
  end.

Fixpoint fits (v : Value) : bool :=
  match v with
  | Null | Boolean _ => true
  | Integer i => bool_decide (is_i64 i)
  | Float bits => bits <? 2 ^ 64
  | Str s => from_utf8 s && short 4 s
  | Bytes b => short 4 b
  | List items => short 4 items && forallb fits items
  | Dictionary entries =>
      short 4 entries && ascending (fst <$> entries) &&
      forallb (fun e => from_utf8 e.1 && short 4 e.1 && fits e.2) entries
  | Structure _ fields => short 2 fields && forallb fits fields
  end.

(** Induction that reaches the values inside lists. *)
Lemma Value_nested_ind (P : Value -> Prop) :
  P Null -> (forall b, P (Boolean b)) -> (forall i, P (Integer i)) -> (forall b, P (Float b)) ->
  (forall s, P (Str s)) -> (forall b, P (Bytes b)) -> (forall l, Forall P l -> P (List l)) ->
  (forall l, Forall (fun e => P e.2) l -> P (Dictionary l)) ->
  (forall tag l, Forall P l -> P (Structure tag l)) -> forall v, P v.
Proof.
  intros H1 H2 H3 H4 H5 H6 H7 H8 H9. fix IH 1.
  intros [| | | | | |l|l|tag l]; [exact H1|apply H2|apply H3|apply H4|apply H5|apply H6|apply H7|apply H8|apply H9].
  - induction l as [|v l IHl]; constructor; [apply IH|exact IHl].
  - induction l as [|[k v] l IHl]; constructor; [apply IH|exact IHl].
  - induction l as [|v l IHl]; constructor; [apply IH|exact IHl].
Qed.

(** ** Round trip *)
Lemma split_n_app l rest : split_n (length l) (l ++ rest) = read_as l rest.
Proof.
  unfold split_n. rewrite length_app. destruct (Nat.ltb_spec (length l + length rest) (length l)); [lia|].
  by rewrite take_app_length, drop_app_length.
Qed.

Lemma split_be w n rest : split_n w (be_bytes w n ++ rest) = read_as (be_bytes w n) rest.
Proof. rewrite <- (length_be_bytes w n) at 1. apply split_n_app. Qed.

Lemma take_payload_app l rest : take_payload (N.of_nat (length l)) (l ++ rest) = read_as l rest.
Proof.
  unfold take_payload. rewrite length_app. destruct (N.ltb_spec (N.of_nat (length l + length rest)) (N.of_nat (length l)));
    [lia|]. by rewrite Nat2N.id, take_app_length, drop_app_length.
Qed.

Lemma sized_header w payload len rest : (w <= 8)%nat -> len < 256 ^ N.of_nat w ->
  sized w payload (be_bytes w (len mod 256 ^ N.of_nat w) ++ rest) = payload len rest.
Proof.
  intros Hw Hl. unfold sized. rewrite split_be. cbn [and_then read_as]. rewrite from_to_be, N.Div0.mod_mod.
  rewrite N.mod_small by done. destruct (N.ltb_spec len (2 ^ 64)) as [|Hge]; [done|].
  assert (256 ^ N.of_nat w <= 256 ^ 8) by (apply N.pow_le_mono_r; lia). change (256 ^ 8) with (2 ^ 64) in *. lia.
Qed.

Lemma decode_int_ok w i rest : (0 < w)%nat ->
  (- (256 ^ Z.of_nat w / 2) <= i < 256 ^ Z.of_nat w / 2)%Z ->
  decode_int w (be_bytes w (to_unsigned w i) ++ rest) = read_as (Integer i) rest.
Proof.
  intros Hw Hi. destruct (signed_unsigned w i Hw Hi) as [Hb Hs]. unfold decode_int. rewrite split_be.
  cbn [and_then read_as]. by rewrite from_to_be, N.mod_small, Hs.
Qed.

Section dispatch.
Context (dec : bytes -> Decoded Value) (fuel : nat).

Ltac sixteen len :=
  destruct len as [|p]; [reflexivity|]; do 4 (try destruct p as [p|p|]); try reflexivity; exfalso; lia.

Lemma tiny_string len rest : len <= 15 ->
  decode_with_marker dec fuel (N.lor 128 len) rest = decode_string_payload len rest.
Proof. intros Hl. sixteen len. Qed.
Lemma tiny_list len rest : len <= 15 ->
  decode_with_marker dec fuel (N.lor 144 len) rest = decode_list_items dec fuel len rest.
Proof. intros Hl. sixteen len. Qed.
Lemma tiny_dict len rest : len <= 15 ->
  decode_with_marker dec fuel (N.lor 160 len) rest = decode_dict_items dec fuel len rest.
Proof. intros Hl. sixteen len. Qed.
Lemma tiny_struct len rest : len <= 15 ->
  decode_with_marker dec fuel (N.lor 176 len) rest = decode_struct_fields dec fuel len rest.
Proof. intros Hl. sixteen len. Qed.

Lemma marker_int marker rest : marker < 128 \/ 240 <= marker < 256 ->
  decode_with_marker dec fuel marker rest = decode_tiny_or_int dec fuel marker rest.
Proof.
  intros Hm. unfold decode_with_marker, M_NULL, M_TRUE, M_FALSE, M_FLOAT, M_INT_8, M_INT_16, M_INT_32, M_INT_64,
    M_BYTES_8, M_BYTES_16, M_BYTES_32, M_STRING_8, M_STRING_16, M_STRING_32, M_LIST_8, M_LIST_16, M_LIST_32,
    M_DICT_8, M_DICT_16, M_DICT_32, M_STRUCT_8, M_STRUCT_16.
  repeat (rewrite (proj2 (N.eqb_neq marker _)) by lia). done.
Qed.

(** The five integer forms. *)
Lemma decode_integer i rest : is_i64 i ->
  and_then (split_first (encode_integer i ++ rest)) (decode_with_marker dec fuel) = read_as (Integer i) rest.
Proof.
  unfold is_i64, i64_min, i64_max. intros Hi. unfold encode_integer.
  case_bool_decide as H1.
  { destruct (signed_unsigned 1 i ltac:(lia) ltac:(change (256 ^ Z.of_nat 1 / 2)%Z with 128%Z; lia)) as [Hb Hs].
    change (256 ^ N.of_nat 1) with 256 in Hb. cbn [be_bytes app split_first and_then read_as].
    change (256 ^ N.of_nat 0) with 1. rewrite N.div_1_r, N.mod_small by done.
    rewrite marker_int.
    - unfold decode_tiny_or_int. rewrite Hs. by rewrite bool_decide_eq_true_2.
    - unfold to_unsigned in *. change (256 ^ Z.of_nat 1)%Z with 256%Z in *.
      destruct (Z.lt_ge_cases i 0).
      + rewrite <- (Z.mod_unique i 256 (-1) (i + 256)) by lia. lia.
      + rewrite Z.mod_small by lia. lia. }
  repeat case_bool_decide; cbn [app split_first and_then read_as].
  - apply (decode_int_ok 1); [lia|]. change (256 ^ Z.of_nat 1 / 2)%Z with 128%Z. lia.
  - apply (decode_int_ok 2); [lia|]. change (256 ^ Z.of_nat 2 / 2)%Z with 32768%Z. lia.
  - apply (decode_int_ok 4); [lia|]. change (256 ^ Z.of_nat 4 / 2)%Z with 2147483648%Z. lia.
  - apply (decode_int_ok 8); [lia|]. change (256 ^ Z.of_nat 8 / 2)%Z with (2 ^ 63)%Z. lia.
Qed.

(** Each length header leads to its family's payload. *)
Ltac headers tiny :=
  repeat case_match; cbn [app split_first and_then read_as];
  repeat match goal with
         | H : (_ <=? _) = true |- _ => apply N.leb_le in H
         | H : (_ <=? _) = false |- _ => apply N.leb_gt in H
         end;
  first [apply tiny; lia | by apply sized_header; [lia|cbn; lia]].

Lemma decode_string_header len rest : len < 256 ^ 4 ->
  and_then (split_first ((if len <=? 15 then [N.lor 128 len]
     else if len <=? 255 then len_header M_STRING_8 1 len
     else if len <=? 65535 then len_header M_STRING_16 2 len
     else len_header M_STRING_32 4 len) ++ rest)) (decode_with_marker dec fuel) = decode_string_payload len rest.
Proof. intros Hl. unfold len_header. headers tiny_string. Qed.

Lemma decode_list_header len rest : len < 256 ^ 4 ->
  and_then (split_first (encode_list_header len ++ rest)) (decode_with_marker dec fuel) =
  decode_list_items dec fuel len rest.
Proof. intros Hl. unfold encode_list_header, len_header. headers tiny_list. Qed.

Lemma decode_dict_header len rest : len < 256 ^ 4 ->
  and_then (split_first (encode_dict_header len ++ rest)) (decode_with_marker dec fuel) =
  decode_dict_items dec fuel len rest.
Proof. intros Hl. unfold encode_dict_header, len_header. headers tiny_dict. Qed.

Lemma decode_struct_header len rest : len < 256 ^ 2 ->
  and_then (split_first (encode_struct_header len ++ rest)) (decode_with_marker dec fuel) =
  decode_struct_fields dec fuel len rest.
Proof. intros Hl. unfold encode_struct_header, len_header. headers tiny_struct. Qed.

Lemma decode_string s rest : from_utf8 s = true -> short 4 s = true ->
  and_then (split_first (encode_string s ++ rest)) (decode_with_marker dec fuel) = read_as (Str s) rest.
Proof.
  intros Hu Hs. unfold encode_string. rewrite <- (assoc app). apply N.ltb_lt in Hs.
  rewrite decode_string_header by done. unfold decode_string_payload. rewrite take_payload_app.
  cbn [and_then read_as]. by rewrite Hu.
Qed.

Lemma decode_byte_array b rest : short 4 b = true ->
  and_then (split_first (encode_bytes b ++ rest)) (decode_with_marker dec fuel) = read_as (Bytes b) rest.
Proof.
  intros Hs. unfold encode_bytes. apply N.ltb_lt in Hs. rewrite <- (assoc app).
  assert (and_then (split_first ((if N.of_nat (length b) <=? 255 then len_header M_BYTES_8 1 (N.of_nat (length b))
     else if N.of_nat (length b) <=? 65535 then len_header M_BYTES_16 2 (N.of_nat (length b))
     else len_header M_BYTES_32 4 (N.of_nat (length b))) ++ b ++ rest)) (decode_with_marker dec fuel) =
    decode_bytes_payload (N.of_nat (length b)) (b ++ rest)) as ->.
  { unfold len_header. headers tiny_string. }
  unfold decode_bytes_payload. by rewrite take_payload_app.
Qed.
End dispatch.

(** The loops, given that each value decodes. *)
Definition decodes (fuel : nat) (v : Value) : Prop :=
  forall rest, decode_fuel fuel (encode v ++ rest) = read_as v rest.

Lemma encode_nonempty v : (1 <= length (encode v))%nat.
Proof.
  destruct v as [|b|i|b|s|b|l|l|tag l]; cbn [encode]; rewrite ?length_app; try (cbn; lia).
  - destruct b; cbn; lia.
  - unfold encode_integer. repeat case_bool_decide; cbn [length]; rewrite ?length_be_bytes; lia.
  - unfold encode_string, len_header. rewrite length_app. repeat case_match; cbn; lia.
  - unfold encode_bytes, len_header. rewrite length_app. repeat case_match; cbn; lia.
  - unfold encode_list_header, len_header. repeat case_match; cbn; lia.
  - unfold encode_dict_header, len_header. repeat case_match; cbn; lia.
Qed.

Lemma decode_items_ok f vs : Forall (decodes f) vs -> forall g rest, (length vs <= g)%nat ->
  decode_items (decode_fuel f) g (N.of_nat (length vs)) (flat_map encode vs ++ rest) = read_as vs rest.
Proof.
  induction 1 as [|v vs Hv Hvs IH]; intros g rest Hg; [by destruct g|].
  destruct g as [|g]; [cbn in Hg; lia|]. cbn [decode_items length flat_map].
  rewrite (proj2 (N.eqb_neq _ _)) by lia. rewrite <- (assoc app), Hv. cbn [and_then read_as].
  replace (N.of_nat (S (length vs)) - 1) with (N.of_nat (length vs)) by lia.
  rewrite IH by (cbn in Hg; lia). done.
Qed.

Lemma dict_insert_last k v l : Forall (fun e => bytes_lt e.1 k) l -> dict_insert k v l = l ++ [(k, v)].
Proof.
  induction 1 as [|e l He Hl IH]; [done|]. cbn [dict_insert app]. rewrite bytes_compare_flip.
  unfold bytes_lt in He. rewrite He. cbn. by rewrite IH.
Qed.

Lemma ascending_sorted l : ascending l = true <-> StronglySorted bytes_lt l.
Proof.
  split.
  - intros H. apply Sorted_StronglySorted; [intros ???; apply bytes_lt_trans|].
    induction l as [|a [|b l] IH]; [constructor|by repeat constructor|]. cbn [ascending] in H.
    apply andb_true_iff in H as [Hab%bool_decide_eq_true H]. constructor; [by apply IH|by constructor].
  - induction 1 as [|a l Hs IH Ha]; [done|]. destruct l as [|b l]; [done|].
    change (bool_decide (bytes_lt a b) && ascending (b :: l) = true).
    apply Forall_cons in Ha as [Ha _]. by rewrite bool_decide_eq_true_2, IH.
Qed.

Lemma decode_entries_ok f es : Forall (fun e => decodes f e.2) es ->
  Forall (fun e => decodes f (Str e.1)) es ->
  StronglySorted bytes_lt (fst <$> es) -> forall g acc rest, (length es <= g)%nat ->
  Forall (fun a => Forall (fun e => bytes_lt a.1 e.1) es) acc ->
  decode_entries (decode_fuel f) g (N.of_nat (length es)) acc
    (flat_map (fun e => encode_string e.1 ++ encode e.2) es ++ rest) = read_as (acc ++ es) rest.
Proof.
  intros Hv Hk Hs. induction es as [|[k v] es IH]; intros g acc rest Hg Ha.
  { rewrite app_nil_r. by destruct g. }
  destruct g as [|g]; [cbn in Hg; lia|]. apply Forall_cons in Hv as [Hv Hvs], Hk as [Hk Hks]. cbn [fst snd] in *.
  apply StronglySorted_inv in Hs as [Hs Hlt]. cbn [decode_entries length flat_map].
  rewrite (proj2 (N.eqb_neq _ _)) by lia. rewrite <- !(assoc app). rewrite (Hk _ : decode_fuel f (encode_string k ++ _) = _).
  cbn [and_then read_as fst snd]. rewrite Hv. cbn [and_then read_as].
  replace (N.of_nat (S (length es)) - 1) with (N.of_nat (length es)) by lia.
  rewrite dict_insert_last.
  - rewrite IH; [by rewrite <- (assoc app)|done|done|done|cbn in Hg; lia|].
    apply Forall_app. split.
    + eapply Forall_impl; [exact Ha|]. intros a Hall. by apply Forall_cons in Hall as [_ ?].
    + apply Forall_singleton. change (Forall (bytes_lt k) (fst <$> es)) in Hlt. rewrite Forall_fmap in Hlt. exact Hlt.
  - eapply Forall_impl; [exact Ha|]. intros a Hall. by apply Forall_cons in Hall as [? _].
Qed.

Lemma length_flat_map {A} (f : A -> bytes) l : (forall a, 1 <= length (f a))%nat -> (length l <= length (flat_map f l))%nat.
Proof. intros Hf. induction l as [|a l IH]; cbn; [lia|]. rewrite length_app. specialize (Hf a). lia. Qed.

Lemma flat_map_le {A} (f : A -> bytes) l a : a ∈ l -> (length (f a) <= length (flat_map f l))%nat.
Proof.
  induction l as [|b l IH]; [by intros ?%not_elem_of_nil|]. cbn. rewrite length_app.
  intros [->|Hin]%elem_of_cons; [lia|]. specialize (IH Hin). lia.
Qed.

Lemma header_nonempty len : (1 <= length (encode_list_header len) /\ 1 <= length (encode_dict_header len) /\
  1 <= length (encode_struct_header len))%nat.
Proof. unfold encode_list_header, encode_dict_header, encode_struct_header, len_header. split_and!; repeat case_match; cbn; lia. Qed.

Lemma decode_encode v : fits v = true -> forall fuel, (length (encode v) < fuel)%nat -> decodes fuel v.
Proof.
  induction v as [| | | | | |l IH|l IH|tag l IH] using Value_nested_ind; intros Hf [|fuel] Hfuel rest; try lia;
    cbn [fits] in Hf; cbn [decode_fuel encode] in *.
  - done.
  - by destruct b.
  - apply decode_integer. by apply bool_decide_eq_true in Hf.
  - cbn [app split_first and_then read_as]. change (decode_with_marker (decode_fuel fuel) fuel M_FLOAT (be_bytes 8 b ++ rest))
      with (and_then (split_n 8 (be_bytes 8 b ++ rest)) (fun b rest => read_as (Float (from_be b)) rest)).
    rewrite split_be. cbn [and_then read_as]. apply N.ltb_lt in Hf.
    rewrite from_to_be, N.mod_small; [done|]. by change (256 ^ N.of_nat 8) with (2 ^ 64).
  - apply andb_true_iff in Hf as [Hu Hs]. by apply decode_string.
  - by apply decode_byte_array.
  - apply andb_true_iff in Hf as [Hs Hl]. apply N.ltb_lt in Hs. rewrite forallb_forall in Hl.
    rewrite length_app in Hfuel. destruct (header_nonempty (N.of_nat (length l))) as (Hh & _).
    rewrite <- (assoc app), decode_list_header by done. unfold decode_list_items.
    pose proof (length_flat_map encode l encode_nonempty). rewrite decode_items_ok; [done| |lia].
    rewrite Forall_forall in IH |- *. intros v Hin. pose proof (flat_map_le encode l v Hin).
    apply IH; [done|by apply Hl, list_elem_of_In|lia].
  - rewrite !andb_true_iff in Hf. destruct Hf as [[Hs Ha] Hl]. apply N.ltb_lt in Hs. rewrite forallb_forall in Hl.
    rewrite length_app in Hfuel. destruct (header_nonempty (N.of_nat (length l))) as (_ & Hh & _).
    rewrite <- (assoc app), decode_dict_header by done. unfold decode_dict_items.
    assert (forall e : bytes * Value, 1 <= length (encode_string e.1 ++ encode e.2))%nat as Hpos.
    { intros e. rewrite length_app. pose proof (encode_nonempty e.2). lia. }
    pose proof (length_flat_map _ l Hpos).
    assert (forall e, e ∈ l -> from_utf8 e.1 = true /\ short 4 e.1 = true /\ fits e.2 = true /\
      length (encode_string e.1) < fuel /\ length (encode e.2) < fuel)%nat as Hel.
    { intros e Hin. pose proof (flat_map_le (fun e : bytes * Value => encode_string e.1 ++ encode e.2) l e Hin) as Hle. cbn beta in Hle. rewrite length_app in Hle.
      apply list_elem_of_In in Hin as Hin'. specialize (Hl e Hin'). rewrite !andb_true_iff in Hl.
      split_and!; try apply Hl; lia. }
    rewrite decode_entries_ok; [done| | | |lia|constructor].
    + rewrite Forall_forall in IH |- *. intros e Hin. destruct (Hel e Hin) as (_ & _ & ? & _ & ?). by apply IH.
    + rewrite Forall_forall. intros e Hin r. destruct (Hel e Hin) as (? & ? & _ & Hlt & _).
      destruct fuel as [|fuel]; [lia|]. cbn [decode_fuel encode]. by apply decode_string.
    + by apply ascending_sorted.
  - apply andb_true_iff in Hf as [Hs Hl]. apply N.ltb_lt in Hs. rewrite forallb_forall in Hl.
    rewrite length_app in Hfuel. cbn [length] in Hfuel. destruct (header_nonempty (N.of_nat (length l))) as (_ & _ & Hh).
    rewrite <- (assoc app), decode_struct_header by done. unfold decode_struct_fields.
    cbn [app split_first and_then read_as].
    pose proof (length_flat_map encode l encode_nonempty). rewrite decode_items_ok; [done| |lia].
    rewrite Forall_forall in IH |- *. intros v Hin. pose proof (flat_map_le encode l v Hin).
    apply IH; [done|by apply Hl, list_elem_of_In|lia].
Qed.

(** ** Every input is decoded or refused *)

(** The step had fuel enough, and what it leaves is shorter than [n]. *)
Definition leaves {A} (n : nat) (m : Decoded A) : Prop :=
  match m with
  | None => False
  | Some (Err _) => True
  | Some (Ok (_, rest)) => (length rest < n)%nat
  end.

Lemma and_then_leaves {A B} (m : Decoded A) (k : A -> bytes -> Decoded B) n n' : leaves n m ->
  (forall a rest, (length rest < n)%nat -> leaves n' (k a rest)) -> leaves n' (and_then m k).
Proof. destruct m as [[[a rest]|e]|]; cbn; auto. Qed.

Lemma leaves_weaken {A} n n' (m : Decoded A) : leaves n m -> (n <= n')%nat -> leaves n' m.
Proof. destruct m as [[[a rest]|e]|]; cbn; lia. Qed.

Lemma read_leaves {A} (a : A) rest n : (length rest < n)%nat -> leaves n (read_as a rest).
Proof. done. Qed.
Lemma split_first_leaves input : leaves (length input) (split_first input).
Proof. destruct input; cbn; lia. Qed.
Lemma split_n_leaves n input : leaves (S (length input)) (split_n n input).
Proof. unfold split_n. destruct (_ <? _)%nat; cbn; [done|]. rewrite length_drop. lia. Qed.
Lemma take_payload_leaves len input : leaves (S (length input)) (take_payload len input).
Proof. unfold take_payload. destruct (_ <? _); cbn; [done|]. rewrite length_drop. lia. Qed.

Create HintDb decoding.
#[local] Hint Resolve read_leaves split_first_leaves split_n_leaves take_payload_leaves : decoding.

(** Chains a step of the decoder with what follows it. *)
Ltac step n := eapply (and_then_leaves _ _ n); [eauto with decoding|intros ? ? ?].

Lemma string_leaves len input : leaves (S (length input)) (decode_string_payload len input).
Proof. unfold decode_string_payload. step (S (length input)). by destruct (from_utf8 _). Qed.
Lemma bytes_leaves len input : leaves (S (length input)) (decode_bytes_payload len input).
Proof. unfold decode_bytes_payload. step (S (length input)). done. Qed.

Lemma sized_leaves w payload input :
  (forall len rest, (length rest <= length input)%nat -> leaves (S (length input)) (payload len rest)) ->
  leaves (S (length input)) (sized w payload input).
Proof.
  intros Hp. unfold sized. step (S (length input)). destruct (_ <? _); [|done]. apply Hp. lia.
Qed.

Section totality.
Context (dec : bytes -> Decoded Value) (fuel : nat).
Context (dec_ok : forall input, (length input < fuel)%nat -> leaves (length input) (dec input)).

Lemma items_leaves g len input : (length input < fuel)%nat -> (length input < g)%nat ->
  leaves (S (length input)) (decode_items dec g len input).
Proof using dec_ok.
  revert len input. induction g as [|g IH]; intros len input Hf Hg; [lia|]. cbn [decode_items].
  destruct (len =? 0); [cbn; lia|]. eapply (and_then_leaves _ _ (length input)); [by apply dec_ok|].
  intros v rest Hr. eapply (and_then_leaves _ _ (S (length rest))); [apply IH; lia|]. intros vs r Hrr. cbn. lia.
Qed.

Lemma entries_leaves g len acc input : (length input < fuel)%nat -> (length input < g)%nat ->
  leaves (S (length input)) (decode_entries dec g len acc input).
Proof using dec_ok.
  revert len acc input. induction g as [|g IH]; intros len acc input Hf Hg; [lia|]. cbn [decode_entries].
  destruct (len =? 0); [cbn; lia|]. eapply (and_then_leaves _ _ (length input)); [by apply dec_ok|].
  intros k rest Hr. destruct k; try done. eapply (and_then_leaves _ _ (length rest)); [apply dec_ok; lia|].
  intros v r Hrr. eapply leaves_weaken; [apply IH; lia|lia].
Qed.

Lemma list_leaves len input : (length input < fuel)%nat ->
  leaves (S (length input)) (decode_list_items dec fuel len input).
Proof using dec_ok.
  intros Hf. unfold decode_list_items. eapply and_then_leaves; [by apply items_leaves|]. intros vs rest Hr. exact Hr.
Qed.
Lemma dict_leaves len input : (length input < fuel)%nat ->
  leaves (S (length input)) (decode_dict_items dec fuel len input).
Proof using dec_ok.
  intros Hf. unfold decode_dict_items. eapply and_then_leaves; [by apply entries_leaves|]. intros vs rest Hr. exact Hr.
Qed.
Lemma struct_leaves len input : (length input < fuel)%nat ->
  leaves (S (length input)) (decode_struct_fields dec fuel len input).
Proof using dec_ok.
  intros Hf. unfold decode_struct_fields. step (length input).
  eapply and_then_leaves; [apply items_leaves; lia|]. intros vs r Hr. cbn in *. lia.
Qed.

Lemma int_leaves w input : leaves (S (length input)) (decode_int w input).
Proof. unfold decode_int. step (S (length input)). done. Qed.

Lemma weaker {A} (f : N -> bytes -> Decoded A) (input : bytes) :
  (forall (len : N) (rest : bytes), (length rest < fuel)%nat -> leaves (S (length rest)) (f len rest)) ->
  (length input < fuel)%nat -> forall (len : N) (rest : bytes), (length rest <= length input)%nat -> leaves (S (length input)) (f len rest).
Proof. intros Hf Hi len rest Hr. eapply leaves_weaken; [apply Hf; lia|lia]. Qed.

Lemma marker_leaves marker input : (length input < fuel)%nat ->
  leaves (S (length input)) (decode_with_marker dec fuel marker input).
Proof using dec_ok.
  intros Hf. pose proof (weaker _ input list_leaves Hf) as HL. pose proof (weaker _ input dict_leaves Hf) as HD.
  pose proof (weaker _ input struct_leaves Hf) as HS.
  pose proof (weaker _ input (fun len rest _ => string_leaves len rest) Hf) as HStr.
  pose proof (weaker _ input (fun len rest _ => bytes_leaves len rest) Hf) as HB.
  unfold decode_with_marker, decode_tiny_or_int.
  repeat match goal with |- leaves _ (if ?b then _ else _) => destruct b end;
    first [cbn; lia|apply int_leaves|by apply sized_leaves|apply HStr; lia|apply HL; lia|apply HD; lia|apply HS; lia|idtac].
  step (S (length input)). done.
Qed.
End totality.

Lemma decode_fuel_leaves fuel input : (length input < fuel)%nat -> leaves (length input) (decode_fuel fuel input).
Proof.
  revert input. induction fuel as [|fuel IH]; intros input Hf; [lia|]. cbn [decode_fuel].
  destruct input as [|b rest]; [done|]. cbn [split_first and_then read_as length] in *.
  apply marker_leaves; [exact IH|lia].
Qed.

(** ** What is decoded is a valid value *)

(** A step that succeeds returns a value with [P] and a tail of its input. *)
Definition gives {A} (P : A -> Prop) (input : bytes) (m : Decoded A) : Prop :=
  Forall is_byte input -> forall a rest, m = Some (Ok (a, rest)) -> P a /\ exists used, input = used ++ rest.

Lemma and_then_gives {A B} (P : A -> Prop) (Q : B -> Prop) input (m : Decoded A) k : gives P input m ->
  (forall a rest, P a -> gives Q rest (k a rest)) -> gives Q input (and_then m k).
Proof.
  intros Hm Hk Hb b rest'. destruct m as [[[a rest]|e]|]; cbn [and_then]; try done. intros Ha.
  destruct (Hm Hb a rest eq_refl) as [Hp [used ->]]. apply Forall_app in Hb as [_ Hb].
  destruct (Hk a rest Hp Hb b rest' Ha) as [Hq [used' ->]]. split; [done|]. exists (used ++ used').
  by rewrite (assoc app).
Qed.

Lemma read_gives {A} (P : A -> Prop) (a : A) input : P a -> gives P input (read_as a input).
Proof. intros Hp _ x r [= <- <-]. split; [done|]. by exists []. Qed.
Lemma refuse_gives {A} (P : A -> Prop) e input : gives P input (refuse e).
Proof. by intros ???. Qed.
Lemma none_gives {A} (P : A -> Prop) input : gives P input None.
Proof. by intros ???. Qed.

Lemma split_first_gives input : gives is_byte input (split_first input).
Proof.
  intros Hb a rest. destruct input as [|b l]; [done|]. intros [= <- <-]. apply Forall_cons in Hb as [Hb _].
  split; [done|]. by exists [b].
Qed.

Lemma split_n_gives n input : gives (fun l => length l = n /\ Forall is_byte l) input (split_n n input).
Proof.
  intros Hb a rest. unfold split_n. destruct (Nat.ltb_spec (length input) n) as [|Hle]; [done|].
  intros [= <- <-]. split; [split|exists (take n input); by rewrite take_drop].
  - rewrite length_take. lia.
  - by apply Forall_take.
Qed.

Lemma take_payload_gives len input : gives (fun l : bytes => N.of_nat (length l) = len) input (take_payload len input).
Proof.
  intros Hb a rest. unfold take_payload. destruct (N.ltb_spec (N.of_nat (length input)) len) as [|Hle]; [done|].
  intros [= <- <-]. split; [rewrite length_take; lia|]. exists (take (N.to_nat len) input). by rewrite take_drop.
Qed.

#[local] Hint Resolve read_gives refuse_gives none_gives split_first_gives split_n_gives take_payload_gives : decoding.
Ltac chain := eapply and_then_gives; [eauto with decoding|].

Definition valid (v : Value) : Prop := fits v = true.

Lemma string_gives len input : len < 256 ^ 4 -> gives valid input (decode_string_payload len input).
Proof.
  intros Hl. unfold decode_string_payload. chain. intros s rest Hs. destruct (from_utf8 s) eqn:Hu; [|apply refuse_gives].
  apply read_gives. unfold valid, short. cbn [fits]. rewrite Hu. apply N.ltb_lt. rewrite Hs. exact Hl.
Qed.

Lemma bytes_gives len input : len < 256 ^ 4 -> gives valid input (decode_bytes_payload len input).
Proof.
  intros Hl. unfold decode_bytes_payload. chain. intros s rest Hs. apply read_gives.
  unfold valid, short. cbn [fits]. apply N.ltb_lt. rewrite Hs. exact Hl.
Qed.

Lemma sized_gives w payload input (P : Value -> Prop) :
  (forall len rest, len < 256 ^ N.of_nat w -> gives P rest (payload len rest)) -> gives P input (sized w payload input).
Proof.
  intros Hp. unfold sized. chain. intros b rest [Hl Hb]. destruct (_ <? _); [|apply refuse_gives]. apply Hp.
  rewrite <- Hl. by apply from_be_bound.
Qed.

Lemma small_len w k len : (w <= k)%nat -> len < 256 ^ N.of_nat w -> len < 256 ^ N.of_nat k.
Proof. intros Hw Hl. eapply N.lt_le_trans; [exact Hl|]. apply N.pow_le_mono_r; lia. Qed.

Lemma short_of w {A} (l : list A) n : N.of_nat (length l) = n -> n < 256 ^ N.of_nat w -> short w l = true.
Proof. intros <-. by apply N.ltb_lt. Qed.

Definition entry_fits (e : bytes * Value) : bool := from_utf8 e.1 && short 4 e.1 && fits e.2.

Lemma dict_insert_keys k v l : StronglySorted bytes_lt (fst <$> l) ->
  StronglySorted bytes_lt (fst <$> dict_insert k v l) /\
  (forall x, x ∈ (fst <$> dict_insert k v l) -> x = k \/ x ∈ (fst <$> l)).
Proof.
  induction l as [|[k' v'] l IH]; intros Hs.
  { split; [by repeat constructor|]. cbn. set_solver. }
  cbn [dict_insert fst]. destruct (bytes_compare k k') eqn:Hc.
  - apply bytes_compare_eq in Hc as ->. split; [exact Hs|]. intros x. cbn. set_solver.
  - split; [|intros x; cbn; set_solver]. constructor; [exact Hs|]. cbn. constructor; [exact Hc|].
    apply StronglySorted_inv in Hs as [_ Hf]. eapply Forall_impl; [exact Hf|]. intros y Hy. by eapply bytes_lt_trans.
  - apply StronglySorted_inv in Hs as [Hs Hf]. destruct (IH Hs) as [IH1 IH2]. split.
    + cbn. constructor; [exact IH1|]. apply Forall_forall. intros x [-> |Hx]%IH2.
      * unfold bytes_lt. by rewrite bytes_compare_flip, Hc.
      * by eapply Forall_forall in Hx; [|exact Hf].
    + intros x. cbn. intros [->|[-> |Hx]%IH2]%elem_of_cons; set_solver.
Qed.

Lemma dict_insert_fits k v l : entry_fits (k, v) = true -> forallb entry_fits l = true ->
  forallb entry_fits (dict_insert k v l) = true /\ (length (dict_insert k v l) <= S (length l))%nat.
Proof.
  intros He. induction l as [|e l IH]; cbn [forallb dict_insert].
  { intros _. split; [cbn; by rewrite He|cbn; lia]. }
  intros [Hel Hl]%andb_true_iff. destruct (IH Hl) as [IH1 IH2].
  destruct (bytes_compare k e.1); cbn [forallb length]; rewrite ?He, ?Hel, ?Hl, ?IH1; split; (done || lia).
Qed.

Section validity.
Context (dec : bytes -> Decoded Value) (fuel : nat).
Context (dec_gives : forall input, gives valid input (dec input)).

Lemma items_give g len input :
  gives (fun vs => N.of_nat (length vs) = len /\ forallb fits vs = true) input (decode_items dec g len input).
Proof using dec_gives.
  revert len input. induction g as [|g IH]; intros len input; cbn [decode_items];
    destruct (N.eqb_spec len 0) as [->|Hne]; try (by apply read_gives); [apply none_gives|].
  eapply and_then_gives; [apply dec_gives|]. intros v rest Hv. eapply and_then_gives; [apply IH|].
  intros vs r [Hl Hf]. apply read_gives. cbn [length forallb]. unfold valid in Hv. rewrite Hv, Hf. split; [lia|done].
Qed.

Lemma entries_give g len acc input : StronglySorted bytes_lt (fst <$> acc) -> forallb entry_fits acc = true ->
  gives (fun m => N.of_nat (length m) <= N.of_nat (length acc) + len /\ StronglySorted bytes_lt (fst <$> m) /\
    forallb entry_fits m = true) input (decode_entries dec g len acc input).
Proof using dec_gives.
  revert len acc input. induction g as [|g IH]; intros len acc input Hs Ha; cbn [decode_entries];
    destruct (N.eqb_spec len 0) as [->|Hne]; try (apply read_gives; split_and!; [lia|done..]); [apply none_gives|].
  eapply and_then_gives; [apply dec_gives|]. intros k rest Hk.
  destruct k as [| | | |k| | | |]; try apply refuse_gives. eapply and_then_gives; [apply dec_gives|]. intros v r Hv.
  assert (entry_fits (k, v) = true) as He.
  { unfold entry_fits, valid in *. cbn [fits fst snd] in *. apply andb_true_iff in Hk as [-> ->]. by rewrite Hv. }
  destruct (dict_insert_fits k v acc He Ha) as [Hi1 Hi2]. destruct (dict_insert_keys k v acc Hs) as [Hi3 _].
  intros Hb m r' Hm. destruct (IH (len - 1) (dict_insert k v acc) r Hi3 Hi1 Hb m r' Hm) as [(H1 & H2 & H3) Hu].
  split; [|done]. split_and!; [lia|done|done].
Qed.

Lemma list_gives len input : len < 256 ^ 4 -> gives valid input (decode_list_items dec fuel len input).
Proof using dec_gives.
  intros Hl. unfold decode_list_items. eapply and_then_gives; [apply items_give|]. intros vs rest [Hn Hf].
  apply read_gives. unfold valid. cbn [fits]. by rewrite Hf, (short_of 4 vs len).
Qed.

Lemma dict_gives len input : len < 256 ^ 4 -> gives valid input (decode_dict_items dec fuel len input).
Proof using dec_gives.
  intros Hl. unfold decode_dict_items. eapply and_then_gives; [apply entries_give; [constructor|done]|].
  intros m rest (Hn & Hs & Hf). apply read_gives. unfold valid. cbn [fits].
  rewrite (proj2 (ascending_sorted _) Hs). change (forallb _ m) with (forallb entry_fits m). rewrite Hf.
  rewrite (short_of 4 m _ eq_refl); [done|]. change (256 ^ N.of_nat 4) with (256 ^ 4). cbn [length] in Hn. lia.
Qed.

Lemma struct_gives len input : len < 256 ^ 2 -> gives valid input (decode_struct_fields dec fuel len input).
Proof using dec_gives.
  intros Hl. unfold decode_struct_fields. chain. intros tag rest _. eapply and_then_gives; [apply items_give|].
  intros vs r [Hn Hf]. apply read_gives. unfold valid. cbn [fits]. by rewrite Hf, (short_of 2 vs len).
Qed.

Lemma to_signed_i64 w n : (1 <= w <= 8)%nat -> n < 256 ^ N.of_nat w -> is_i64 (to_signed w n).
Proof.
  intros Hw Hn. unfold is_i64, i64_min, i64_max, to_signed.
  assert (256 ^ N.of_nat w <= 256 ^ 8) as Hp by (apply N.pow_le_mono_r; lia). change (256 ^ 8) with (2 ^ 64) in Hp.
  assert (Z.of_N (256 ^ N.of_nat w) = 256 ^ Z.of_nat w)%Z as HN by (rewrite N2Z.inj_pow, nat_N_Z; done).
  rewrite <- HN. clear HN. generalize dependent (256 ^ N.of_nat w). intros p Hn Hp.
  change (2 ^ 64) with 18446744073709551616 in Hp.
  pose proof (N.Div0.mul_div_le p 2). pose proof (N.mul_succ_div_gt p 2 ltac:(done)).
  destruct (N.ltb_spec n (p / 2)) as [Hlt|Hge]; lia.
Qed.

Lemma int_gives w input : (1 <= w <= 8)%nat -> gives valid input (decode_int w input).
Proof.
  intros Hw. unfold decode_int. chain. intros b rest [Hl Hb]. apply read_gives. unfold valid. cbn [fits].
  apply bool_decide_eq_true_2, to_signed_i64; [done|]. rewrite <- Hl. by apply from_be_bound.
Qed.

Lemma float_gives input :
  gives valid input (and_then (split_n 8 input) (fun b rest => read_as (Float (from_be b)) rest)).
Proof.
  chain. intros b rest [Hl Hb]. apply read_gives. unfold valid. cbn [fits]. apply N.ltb_lt.
  change (2 ^ 64) with (256 ^ N.of_nat 8). rewrite <- Hl. by apply from_be_bound.
Qed.

Lemma tiny_gives marker input : is_byte marker -> gives valid input (decode_tiny_or_int dec fuel marker input).
Proof using dec_gives.
  intros Hm. unfold decode_tiny_or_int. assert (N.land marker 15 < 16) as Hland.
  { change 15 with (N.ones 4). rewrite N.land_ones. by apply N.mod_lt. }
  case_bool_decide as Hs.
  { apply read_gives. unfold valid. cbn [fits]. apply bool_decide_eq_true_2. unfold is_i64, i64_min, i64_max. lia. }
  repeat case_match; [apply string_gives|apply list_gives|apply dict_gives|apply struct_gives|apply refuse_gives];
    cbn; lia.
Qed.

Lemma marker_gives marker input : is_byte marker -> gives valid input (decode_with_marker dec fuel marker input).
Proof using dec_gives.
  intros Hm. unfold decode_with_marker.
  repeat match goal with |- gives _ _ (if ?b then _ else _) => destruct b end;
    first [by apply read_gives|apply float_gives|apply int_gives; lia|by apply tiny_gives|
           apply sized_gives; intros len rest Hl;
             first [apply string_gives|apply bytes_gives|apply list_gives|apply dict_gives|apply struct_gives]].
  all: first [exact Hl|apply (small_len _ 4) in Hl; [exact Hl|lia]|apply (small_len _ 2) in Hl; [exact Hl|lia]].
Qed.
End validity.

Lemma decode_fuel_gives fuel input : gives valid input (decode_fuel fuel input).
Proof.
  revert input. induction fuel as [|fuel IH]; intros input; [apply none_gives|]. cbn [decode_fuel].
  eapply and_then_gives; [apply split_first_gives|]. intros marker rest Hm. by apply marker_gives.
Qed.

(** ** What the codec promises *)

(** C36: Round trip: every value within the format's lengths -- integers of each
    width, strings, byte arrays, lists, dictionaries and structures nested at
    will -- decodes from its encoding to itself, and the bytes after it are left
    unread. *)
Theorem packstream_roundtrip v rest : fits v = true -> decode (encode v ++ rest) = read_as v rest.
Proof. intros Hf. unfold decode. apply decode_encode; [done|]. rewrite length_app. lia. Qed.

(** Decoding terminates on every input, hostile lengths and nesting included:
    a value and a strictly shorter tail, or an error. *)
Theorem decode_terminates input : leaves (length input) (decode input).
Proof. apply decode_fuel_leaves. lia. Qed.

(** C37: Whatever the wire carries, what is decoded is a valid value: integers are
    64-bit, strings are UTF-8, dictionaries have ascending distinct keys, lengths
    fit; so encoding it again gives bytes that decode to the same value, even
    when the input used a longer form. *)
Theorem decoded_values_valid input v rest : Forall is_byte input -> decode input = read_as v rest ->
  fits v = true /\ (exists used, input = used ++ rest) /\ decode (encode v ++ rest) = read_as v rest.
Proof.
  intros Hb Hd. destruct (decode_fuel_gives _ _ Hb v rest Hd) as [Hv Hu]. split_and!; [done|done|].
  unfold decode. apply decode_encode; [done|]. rewrite length_app. lia.
Qed.

(** ** Witnesses and a boundary *)
Definition hello : Value :=
  Structure 1 [Dictionary [([97], List [Integer (-17); Integer 300; Null]); ([98; 195; 169], Str [240; 159; 146; 150])];
               Float 4614253070214989087; Boolean true; Bytes [0; 255]].

Lemma packstream_roundtrip_witness : decode (encode hello ++ [7]) = read_as hello [7].
Proof. apply (packstream_roundtrip hello [7]). vm_compute. reflexivity. Defined.

(** The integer 5 in its 16-bit form, and a dictionary with a repeated key. *)
Definition long_forms : bytes := [162; 129; 97; 201; 0; 5; 129; 97; 192; 1].

Lemma decoded_values_valid_witness : fits (Dictionary [([97], Null)]) = true /\
  decode long_forms = read_as (Dictionary [([97], Null)]) [1].
Proof.
  assert (decode long_forms = read_as (Dictionary [([97], Null)]) [1]) as Hd by (vm_compute; reflexivity).
  split; [|exact Hd]. apply (decoded_values_valid long_forms _ [1]); [|exact Hd].
  apply (bool_decide_unpack _). vm_compute. exact I.
Defined.

(** A structure of 65,536 fields is written with the field count 0: it reads back
    empty, and its fields are left in the stream. *)
Theorem struct_header_truncates tag fields : N.of_nat (length fields) = 65536 ->
  decode (encode (Structure tag fields)) = read_as (Structure tag []) (flat_map encode fields).
Proof.
  intros Hl. cbn [encode]. rewrite Hl. change (encode_struct_header 65536) with [221; 0; 0].
  unfold decode. cbn [app decode_fuel split_first and_then read_as].
  change (decode_with_marker ?d ?f 221 ?i) with (sized 2 (decode_struct_fields d f) i).
  unfold sized, split_n. cbn [length Nat.ltb Nat.leb take drop and_then read_as].
  change (from_be [0; 0]) with 0. unfold decode_struct_fields. cbn. done.
Qed.
