(* ===== verification/Framing.v ===== *)
(** * Bolt framing: chunked messages and the version handshake
    ([src/src/bolt/chunked.rs], [src/src/bolt/handshake.rs])

    A reader is what the transport delivers, piece by piece: a [read] returns at
    most one piece, possibly cut short by the caller's buffer, an interruption
    or an I/O error, and 0 bytes at the end of the stream. *)
From S2P Require Import Prelude WireBytes PackStream.
Local Open Scope list_scope.
Local Open Scope N_scope.

(** ** Writing *)
Definition MAX_CHUNK_SIZE : nat := N.to_nat 65535.

(** [slice::chunks]; the fuel is the slice's length. *)
Fixpoint chunks_fuel (fuel : nat) (n : nat) (l : bytes) : list bytes :=
  match fuel, l with
  | O, _ | _, [] => []
  | S fuel, l => take n l :: chunks_fuel fuel n (drop n l)
  end.
Definition chunks (n : nat) (l : bytes) : list bytes := chunks_fuel (length l) n l.

Definition write_chunk (chunk : bytes) : bytes :=
  be_bytes 2 (N.of_nat (length chunk) mod 65536) ++ chunk.

Definition write_message (payload : bytes) : bytes :=
  flat_map write_chunk (chunks MAX_CHUNK_SIZE payload) ++ [0; 0].

(** ** Reading *)
Inductive Arrival : Type :=
| Data (l : bytes)
| Interrupted
| Broken.

Inductive Fill : Type :=
| Filled (l : bytes) (rest : list Arrival)
| EndOfStream (got : nat)
| Failed.

(** The loop [read_exact_or_eof] shares with [Read::read_exact]: read until [n]
    bytes are in, skipping interruptions; [got] are in already. *)
Fixpoint fill (n got : nat) (stream : list Arrival) : Fill :=
  match n with
  | O => Filled [] stream
  | _ =>
      match stream with
      | [] | Data [] :: _ => EndOfStream got
      | Interrupted :: stream => fill n got stream
      | Broken :: _ => Failed
      | Data l :: stream =>
          if (n <? length l)%nat then Filled (take n l) (Data (drop n l) :: stream)
          else match fill (n - length l) (got + length l) stream with
               | Filled l' stream => Filled (l ++ l') stream
               | other => other
               end
      end
  end.

Inductive ReadOutcome : Type := ReadOk (l : bytes) (rest : list Arrival) | ReadEof.

Definition read_exact_or_eof (n : nat) (stream : list Arrival) : result BoltError ReadOutcome :=
  match fill n 0 stream with
  | Filled l stream => Ok (ReadOk l stream)
  | EndOfStream O => Ok ReadEof
  | EndOfStream (S _) => Err Eof
  | Failed => Err Io
  end.

(** [read_exact(..).map_err(map_unexpected_eof)]. *)
Definition read_exact (n : nat) (stream : list Arrival) : result BoltError (bytes * list Arrival) :=
  match fill n 0 stream with
  | Filled l stream => Ok (l, stream)
  | EndOfStream _ => Err Eof
  | Failed => Err Io
  end.

(** The loop of [read_message]; each turn consumes a length, so the bytes in the
    stream bound the turns. *)
Fixpoint read_loop (fuel : nat) (payload : bytes) (stream : list Arrival) :
    option (result BoltError (bytes * list Arrival)) :=
  match fuel with
  | O => None
  | S fuel =>
      match read_exact_or_eof 2 stream with
      | Err e => Some (Err e)
      | Ok ReadEof => Some (Err Eof)
      | Ok (ReadOk len_bytes stream) =>
          let len := from_be len_bytes in
          if len =? 0 then Some (Ok (payload, stream))
          else match read_exact (N.to_nat len) stream with
               | Err e => Some (Err e)
               | Ok (chunk, stream) => read_loop fuel (payload ++ chunk) stream
               end
      end
  end.

Definition arrival_bytes (a : Arrival) : bytes := match a with Data l => l | _ => [] end.
Definition stream_bytes (stream : list Arrival) : bytes := flat_map arrival_bytes stream.

Definition read_message (stream : list Arrival) : option (result BoltError (bytes * list Arrival)) :=
  read_loop (S (length (stream_bytes stream))) [] stream.

(** ** The handshake *)
Definition MAGIC_PREAMBLE : bytes := [96; 96; 176; 23].
Definition HANDSHAKE_LEN : nat := 20.

Record BoltVersion : Type := mkVersion { major : N; minor : N }.
#[global] Instance BoltVersion_eq_dec : EqDecision BoltVersion.
Proof. solve_decision. Defined.

Definition NONE : BoltVersion := mkVersion 0 0.
(** A 4-byte slot: reserved, range, minor, major. *)
Definition from_be_bytes (slot : bytes) : BoltVersion := mkVersion (nth 3 slot 0) (nth 2 slot 0).
Definition to_be_bytes (v : BoltVersion) : bytes := [0; 0; minor v; major v].
Definition is_none (v : BoltVersion) : bool := (major v =? 0) && (minor v =? 0).

Record ClientHandshake : Type := mkHandshake { versions : list BoltVersion; ranges : list N }.

Definition parse_client_handshake (input : bytes) : result BoltError ClientHandshake :=
  if negb (length input =? HANDSHAKE_LEN)%nat then Err (InvalidHandshakeLength (length input))
  else if negb (bool_decide (take 4 input = MAGIC_PREAMBLE)) then Err InvalidMagic
  else let slot i := take 4 (drop (4 + i * 4) input) in
       Ok (mkHandshake ((fun i => from_be_bytes (slot i)) <$> seq 0 4)
                       ((fun i => nth 1 (slot i) 0) <$> seq 0 4)).

Definition SUPPORTED_VERSIONS : list BoltVersion :=
  [mkVersion 5 4; mkVersion 5 3; mkVersion 5 2; mkVersion 5 1; mkVersion 5 0; mkVersion 4 4; mkVersion 4 3].

(** Whether proposal [top], [range] covers [v]. *)
Definition covered_by (top : BoltVersion) (range : N) (v : BoltVersion) : bool :=
  (major v =? major top) && (minor v <=? minor top) && (minor top - range <=? minor v).

Fixpoint find_map (proposals : list (BoltVersion * N)) : option BoltVersion :=
  match proposals with
  | [] => None
  | (top, range) :: proposals =>
      match List.find (covered_by top range) SUPPORTED_VERSIONS with
      | Some v => Some v
      | None => find_map proposals
      end
  end.

Definition select (h : ClientHandshake) : option BoltVersion :=
  find_map (List.filter (fun p => negb (is_none p.1)) (zip (versions h) (ranges h))).

Fixpoint select_version (proposals : list BoltVersion) : option BoltVersion :=
  match proposals with
  | [] => None
  | proposal :: proposals =>
      if is_none proposal then select_version proposals
      else if bool_decide (proposal ∈ SUPPORTED_VERSIONS) then Some proposal
      else select_version proposals
  end.

(** ** A message survives any fragmentation of its bytes *)

(** The pieces carry bytes, with interruptions between them. *)
Definition healthy (stream : list Arrival) : Prop :=
  Forall (fun a => match a with Data l => l <> [] | Interrupted => True | Broken => False end) stream.

Lemma fill_ok n got stream : healthy stream -> (n <= length (stream_bytes stream))%nat ->
  exists rest, fill n got stream = Filled (take n (stream_bytes stream)) rest /\ healthy rest /\
    stream_bytes rest = drop n (stream_bytes stream).
Proof.
  intros Hs. revert n got. induction Hs as [|a stream Ha Hs IH]; intros n got Hn.
  { destruct n; [|cbn in Hn; lia]. exists []. split_and!; [done|constructor|done]. }
  destruct n as [|n]; [exists (a :: stream); split_and!; [by rewrite take_0|by constructor|by rewrite drop_0]|].
  destruct a as [l| |]; try done.
  - destruct l as [|b l]; [done|]. cbn [fill stream_bytes flat_map arrival_bytes] in *.
    change (flat_map arrival_bytes stream) with (stream_bytes stream) in *. rewrite length_app in Hn.
    destruct (Nat.ltb_spec (S n) (length (b :: l))) as [Hlt|Hge].
    + eexists. split_and!; [by rewrite take_app_le by lia| |].
      * constructor; [|done]. intros Hd. apply (f_equal length) in Hd. rewrite length_drop in Hd. cbn [length] in *. lia.
      * cbn [stream_bytes flat_map arrival_bytes]. by rewrite drop_app_le by lia.
    + destruct (IH (S n - length (b :: l))%nat (got + length (b :: l))%nat ltac:(lia)) as (rest & -> & Hh & Hr).
      exists rest. split_and!; [by rewrite take_app_ge by lia|done|by rewrite drop_app_ge by lia].
  - cbn [fill stream_bytes flat_map arrival_bytes] in *. apply IH. exact Hn.
Qed.

Lemma fill_prefix l rest got stream : healthy stream -> stream_bytes stream = l ++ rest ->
  exists stream', fill (length l) got stream = Filled l stream' /\ healthy stream' /\ stream_bytes stream' = rest.
Proof.
  intros Hs Hb. destruct (fill_ok (length l) got stream Hs) as (stream' & Hf & Hh & Hr).
  { rewrite Hb, length_app. lia. }
  rewrite Hb in *. rewrite take_app_length in Hf. rewrite drop_app_length in Hr. eauto.
Qed.

(** The chunks are non-empty, fit a 16-bit length, and make up the payload. *)
Lemma chunks_fuel_ok fuel n l : (0 < n)%nat -> (length l <= fuel)%nat ->
  concat (chunks_fuel fuel n l) = l /\ Forall (fun c => 0 < length c <= n)%nat (chunks_fuel fuel n l) /\
  (length (chunks_fuel fuel n l) <= length l)%nat.
Proof.
  intros Hn. revert l. induction fuel as [|fuel IH]; intros [|b l] Hl; cbn [chunks_fuel]; try done; try (cbn in Hl; lia).
  destruct (IH (drop n (b :: l))) as (IH1 & IH2 & IH3).
  { rewrite length_drop. cbn [length] in *. lia. }
  cbn [concat length]. rewrite IH1. split_and!; [by rewrite take_drop| |].
  - constructor; [|done]. rewrite length_take. cbn [length]. lia.
  - rewrite length_drop in IH3. cbn [length] in *. lia.
Qed.

Lemma read_chunk chunk rest fuel payload stream : healthy stream ->
  (0 < length chunk <= MAX_CHUNK_SIZE)%nat -> stream_bytes stream = write_chunk chunk ++ rest ->
  exists stream', healthy stream' /\ stream_bytes stream' = rest /\
    read_loop (S fuel) payload stream = read_loop fuel (payload ++ chunk) stream'.
Proof.
  intros Hs Hc Hb. unfold write_chunk in Hb. rewrite <- (assoc app) in Hb.
  assert (N.of_nat (length chunk) < 65536) as Hlt by (unfold MAX_CHUNK_SIZE in Hc; lia).
  rewrite N.mod_small in Hb by done.
  destruct (fill_prefix _ _ 0 stream Hs Hb) as (s1 & Hf1 & Hh1 & Hb1). rewrite length_be_bytes in Hf1.
  destruct (fill_prefix _ _ 0 s1 Hh1 Hb1) as (s2 & Hf2 & Hh2 & Hb2).
  exists s2. split_and!; [done|done|]. cbn [read_loop]. unfold read_exact_or_eof. rewrite Hf1.
  rewrite from_to_be, N.mod_small by done.
  rewrite (proj2 (N.eqb_neq (N.of_nat (length chunk)) 0)) by lia.
  unfold read_exact. rewrite Nat2N.id, Hf2. done.
Qed.

Lemma read_chunks cs rest fuel payload stream : healthy stream ->
  Forall (fun c => 0 < length c <= MAX_CHUNK_SIZE)%nat cs -> (length cs < fuel)%nat ->
  stream_bytes stream = flat_map write_chunk cs ++ [0; 0] ++ rest ->
  exists stream', healthy stream' /\ stream_bytes stream' = rest /\
    read_loop fuel payload stream = Some (Ok (payload ++ concat cs, stream')).
Proof.
  intros Hs Hcs. revert fuel payload stream Hs.
  induction Hcs as [|c cs Hc Hcs IH]; intros [|fuel] payload stream Hs Hf Hb; try (cbn in Hf; lia).
  - destruct (fill_prefix [0; 0] rest 0 stream Hs Hb) as (s1 & Hf1 & Hh1 & Hb1).
    exists s1. split_and!; [done|done|]. cbn [read_loop]. unfold read_exact_or_eof.
    change (fill 2 0 stream) with (fill (length [0; 0]) 0 stream). rewrite Hf1. cbn. by rewrite app_nil_r.
  - cbn [flat_map] in Hb. rewrite <- (assoc app) in Hb.
    destruct (read_chunk c _ fuel payload stream Hs Hc Hb) as (s1 & Hh1 & Hb1 & ->).
    destruct (IH fuel (payload ++ c) s1 Hh1 ltac:(cbn in Hf; lia) Hb1) as (s2 & Hh2 & Hb2 & ->).
    exists s2. split_and!; [done|done|]. cbn [concat]. by rewrite (assoc app).
Qed.

(** A framed message survives the transport: however its bytes are cut into
    reads and interrupted, a reader gets back the payload that was written, of
    any length, and is left at the first byte after the terminator. *)
Theorem message_roundtrip payload rest stream : healthy stream ->
  stream_bytes stream = write_message payload ++ rest ->
  exists stream', read_message stream = Some (Ok (payload, stream')) /\ healthy stream' /\ stream_bytes stream' = rest.
Proof.
  intros Hs Hb. unfold write_message in Hb. rewrite <- (assoc app) in Hb. unfold read_message.
  destruct (chunks_fuel_ok (length payload) MAX_CHUNK_SIZE payload) as (Hc & Hall & _);
    [unfold MAX_CHUNK_SIZE; lia|lia|].
  destruct (read_chunks (chunks MAX_CHUNK_SIZE payload) rest (S (length (stream_bytes stream))) [] stream Hs Hall)
    as (stream' & Hh & Hr & Heq); [|done|].
  - rewrite Hb, length_app. pose proof (length_flat_map write_chunk (chunks MAX_CHUNK_SIZE payload)) as Hl.
    assert (forall c, 1 <= length (write_chunk c))%nat as Hw by (intros c; unfold write_chunk; rewrite length_app; cbn; lia).
    specialize (Hl Hw). lia.
  - exists stream'. rewrite Heq. split_and!; try done. cbn [app]. unfold chunks. by rewrite Hc.
Qed.

(** ** Reading ends on every stream *)
Lemma fill_consumes n got stream : match fill n got stream with
  | Filled l rest => length l = n /\ length (stream_bytes stream) = (n + length (stream_bytes rest))%nat
  | _ => True end.
Proof.
  revert n got. induction stream as [|a stream IH]; intros [|n] got; cbn [fill]; try done.
  destruct a as [[|b l]| |]; try done.
  - cbn [stream_bytes flat_map arrival_bytes]. rewrite length_app.
    change (flat_map arrival_bytes stream) with (stream_bytes stream).
    destruct (Nat.ltb_spec (S n) (length (b :: l))) as [Hlt|Hge].
    + cbn [stream_bytes flat_map arrival_bytes]. rewrite length_take, length_app, length_drop.
      change (flat_map arrival_bytes stream) with (stream_bytes stream). cbn [length] in *. lia.
    + specialize (IH (S n - length (b :: l))%nat (got + length (b :: l))%nat).
      destruct (fill _ _ stream); try done. rewrite length_app. cbn [length] in *. lia.
  - apply IH.
Qed.

(** Reading a message terminates on every stream -- truncated, interrupted,
    failing or endless in length -- with a payload or an error. *)
Theorem read_message_terminates stream : read_message stream <> None.
Proof.
  unfold read_message. assert (forall fuel payload s, (length (stream_bytes s) < fuel)%nat -> read_loop fuel payload s <> None)
    as Hl; [|apply Hl; lia].
  induction fuel as [|fuel IH]; intros payload s Hf; [lia|]. cbn [read_loop]. unfold read_exact_or_eof, read_exact.
  pose proof (fill_consumes 2 0 s) as H2. destruct (fill 2 0 s) as [l s1|[|got]|]; try done. destruct (_ =? 0); [done|].
  pose proof (fill_consumes (N.to_nat (from_be l)) 0 s1) as H3. destruct (fill _ 0 s1); try done. apply IH. lia.
Qed.

(** ** Version negotiation *)
Lemma find_first {A} (f : A -> bool) l v : List.find f l = Some v <->
  exists before after, l = before ++ v :: after /\ f v = true /\ Forall (fun x => f x = false) before.
Proof.
  induction l as [|x l IH]; cbn.
  { split; [done|]. intros (before & after & Hl & _). by destruct before. }
  destruct (f x) eqn:Hx.
  - split.
    + intros [= ->]. by exists [], l.
    + intros ([|y before] & after & [= -> ->] & Hf & Hb); [done|]. apply Forall_cons in Hb as [Hb _]. congruence.
  - rewrite IH. split.
    + intros (before & after & -> & Hf & Hb). exists (x :: before), after. split_and!; [done|done|by constructor].
    + intros ([|y before] & after & [= -> ->] & Hf & Hb); [congruence|]. apply Forall_cons in Hb as [_ Hb]. eauto.
Qed.

(** Higher versions come first. *)
Definition version_lt (a b : BoltVersion) : Prop := major a < major b \/ major a = major b /\ minor a < minor b.

Lemma supported_descending : StronglySorted (fun a b => version_lt b a) SUPPORTED_VERSIONS.
Proof.
  repeat apply SSorted_cons; try apply SSorted_nil; repeat apply Forall_cons_2; try apply Forall_nil_2;
    unfold version_lt; cbn [major minor]; lia.
Qed.

(** [p] offers [v]. *)
Definition offers (p : BoltVersion * N) (v : BoltVersion) : Prop :=
  is_none p.1 = false /\ covered_by p.1 p.2 v = true /\ v ∈ SUPPORTED_VERSIONS.

Lemma best_in_proposal top range v : List.find (covered_by top range) SUPPORTED_VERSIONS = Some v <->
  v ∈ SUPPORTED_VERSIONS /\ covered_by top range v = true /\
  forall w, w ∈ SUPPORTED_VERSIONS -> covered_by top range w = true -> ~ version_lt v w.
Proof.
  rewrite find_first. split.
  - intros (before & after & Hl & Hf & Hb). pose proof supported_descending as Hs. rewrite Hl in *. split_and!.
    + apply elem_of_app. right. apply elem_of_cons. by left.
    + done.
    + intros w Hw Hcw Hlt. apply elem_of_app in Hw as [Hw|[->|Hw]%elem_of_cons].
      * rewrite Forall_forall in Hb. specialize (Hb w Hw). congruence.
      * unfold version_lt in Hlt. lia.
      * apply StronglySorted_app_1_r in Hs. apply StronglySorted_inv in Hs as [_ Hs]. rewrite Forall_forall in Hs.
        specialize (Hs w Hw). unfold version_lt in *. lia.
  - intros (Hin & Hc & Hbest). destruct (List.find (covered_by top range) SUPPORTED_VERSIONS) as [u|] eqn:Hu.
    + apply find_first in Hu as (before & after & Hl & Hcu & Hb). pose proof supported_descending as Hs.
      assert (u ∈ SUPPORTED_VERSIONS) as Hinu by (rewrite Hl; apply elem_of_app; right; apply elem_of_cons; by left).
      pose proof (Hbest u Hinu Hcu) as Hnlt. exists before, after. rewrite Hl in Hin, Hs.
      apply elem_of_app in Hin as [Hv|[->|Hv]%elem_of_cons]; [|done|].
      * rewrite Forall_forall in Hb. specialize (Hb v Hv). congruence.
      * apply StronglySorted_app_1_r in Hs. apply StronglySorted_inv in Hs as [_ Hs]. rewrite Forall_forall in Hs.
        by specialize (Hs v Hv).
    + apply list_elem_of_In in Hin. by rewrite (List.find_none _ _ Hu v Hin) in Hc.
Qed.

(** Negotiation: the version chosen is the highest supported one offered by
    the client's first proposal that offers any, and none is chosen exactly when
    no proposal offers a supported version. *)
Theorem negotiation_best h : match select h with
  | Some v => exists before p after, zip (versions h) (ranges h) = before ++ p :: after /\
      offers p v /\ (forall w, offers p w -> ~ version_lt v w) /\
      (forall q w, q ∈ before -> ~ offers q w)
  | None => forall p v, p ∈ zip (versions h) (ranges h) -> ~ offers p v
  end.
Proof.
  unfold select. induction (zip (versions h) (ranges h)) as [|[top range] ps IH]; cbn [List.filter find_map fst].
  { by intros p v ?%not_elem_of_nil. }
  destruct (is_none top) eqn:Hn; cbn [negb find_map].
  - assert (forall w, ~ offers (top, range) w) as Hno by (intros w (Hx & _); cbn in Hx; congruence).
    destruct (find_map _) as [v|].
    + destruct IH as (before & p & after & -> & Ho & Hb & Hf). exists ((top, range) :: before), p, after.
      split_and!; [done|done|done|]. intros q w [->|Hq]%elem_of_cons; [apply Hno|by apply Hf].
    + intros p v [->|Hp]%elem_of_cons; [apply Hno|by apply IH].
  - destruct (List.find (covered_by top range) SUPPORTED_VERSIONS) as [v|] eqn:Hfind.
    + apply best_in_proposal in Hfind as (Hin & Hc & Hbest). exists [], (top, range), ps. split_and!; [done|done| |].
      * intros w (_ & Hcw & Hw). by apply Hbest.
      * by intros q w ?%not_elem_of_nil.
    + assert (forall w, ~ offers (top, range) w) as Hno.
      { intros w (_ & Hc & Hw). cbn [fst snd] in Hc. apply list_elem_of_In in Hw. by rewrite (List.find_none _ _ Hfind w Hw) in Hc. }
      destruct (find_map _) as [v|].
      * destruct IH as (before & p & after & -> & Ho & Hb & Hf). exists ((top, range) :: before), p, after.
        split_and!; [done|done|done|]. intros q w [->|Hq]%elem_of_cons; [apply Hno|by apply Hf].
      * intros p v [->|Hp]%elem_of_cons; [apply Hno|by apply IH].
Qed.

(** The reply reads back as the version chosen. *)
Lemma version_roundtrip v : from_be_bytes (to_be_bytes v) = v.
Proof. by destruct v. Qed.

(** ** Witnesses *)
Definition pieces : list Arrival := [Data [0]; Interrupted; Data [3; 10; 20]; Data [30; 0]; Data [0; 99]].

Lemma message_roundtrip_witness : exists s, read_message pieces = Some (Ok ([10; 20; 30], s)) /\ stream_bytes s = [99].
Proof.
  destruct (message_roundtrip [10; 20; 30] [99] pieces) as (s & Hr & _ & Hb); [|vm_compute; reflexivity|by exists s].
  repeat constructor; discriminate.
Defined.

(** A client that prefers 5.7 down to 5.5, then 5.4 to 5.0. *)
Example negotiate_ranges : select <$> parse_client_handshake
  (MAGIC_PREAMBLE ++ [0; 2; 7; 5; 0; 4; 4; 5; 0; 0; 4; 4; 0; 0; 0; 0]) = Ok (Some (mkVersion 5 4)).
Proof. vm_compute. reflexivity. Qed.
