(* ===== verification/Privileges.v ===== *)
(** * Privileges: what a role may do, and the decision of a request

    [drevo-auth/src/privileges]: the privilege types of [model.rs], the
    wildcard match of procedure names, the decision procedure of [decide.rs]
    and the built-in roles of [builtin.rs].  A string is its UTF-8 bytes.

    - [decide_exact]: the decision is the documented one, whatever the order
      the privileges are held in;
    - [glob_exact]: the backtracking matcher accepts exactly the names the
      wildcards describe;
    - [implies_transitive], [builtin_roles_grow]: the actions and the built-in
      roles are ordered as their documentation says. *)
From S2P Require Import Prelude WireBytes.
Local Open Scope list_scope.
Local Open Scope nat_scope.

(** A string literal. *)
Definition lit (s : string) : bytes := Ascii.N_of_ascii <$> Stdlib.Strings.String.list_ascii_of_string s.

(** ** [model.rs] *)
Inductive Access : Type := Grant | Deny.

Inductive Action : Type :=
| Traverse | Read | Match | Create | Delete | SetLabel | RemoveLabel | SetProperty
| Merge | Write | AllGraph
| AccessDatabase | Start | Stop | IndexManagement | ConstraintManagement | NameManagement
| TransactionManagement | AllDatabase
| UserManagement | RoleManagement | PrivilegeManagement | DatabaseManagement
| ExecuteProcedure | ExecuteFunction | ExecuteAdminProcedures | AllDbms.

Inductive Level : Type := LGraph | LDatabase | LDbms.

#[export] Instance Access_eq_dec : EqDecision Access.
Proof. solve_decision. Defined.
#[export] Instance Action_eq_dec : EqDecision Action.
Proof. solve_decision. Defined.
#[export] Instance Level_eq_dec : EqDecision Level.
Proof. solve_decision. Defined.

Definition ALL : list Action :=
  [Traverse; Read; Match; Create; Delete; SetLabel; RemoveLabel; SetProperty; Merge; Write;
   AllGraph; AccessDatabase; Start; Stop; IndexManagement; ConstraintManagement; NameManagement;
   TransactionManagement; AllDatabase; UserManagement; RoleManagement; PrivilegeManagement;
   DatabaseManagement; ExecuteProcedure; ExecuteFunction; ExecuteAdminProcedures; AllDbms].

Definition level (a : Action) : Level :=
  match a with
  | Traverse | Read | Match | Create | Delete | SetLabel | RemoveLabel | SetProperty
  | Merge | Write | AllGraph => LGraph
  | AccessDatabase | Start | Stop | IndexManagement | ConstraintManagement | NameManagement
  | TransactionManagement | AllDatabase => LDatabase
  | UserManagement | RoleManagement | PrivilegeManagement | DatabaseManagement
  | ExecuteProcedure | ExecuteFunction | ExecuteAdminProcedures | AllDbms => LDbms
  end.

Definition name (a : Action) : bytes :=
  lit match a with
  | Traverse => "traverse" | Read => "read" | Match => "match"
  | Create => "create_element" | Delete => "delete_element"
  | SetLabel => "set_label" | RemoveLabel => "remove_label" | SetProperty => "set_property"
  | Merge => "merge" | Write => "write" | AllGraph => "graph_actions"
  | AccessDatabase => "access" | Start => "start_database" | Stop => "stop_database"
  | IndexManagement => "index" | ConstraintManagement => "constraint"
  | NameManagement => "token" | TransactionManagement => "transaction_management"
  | AllDatabase => "database_actions"
  | UserManagement => "user_management" | RoleManagement => "role_management"
  | PrivilegeManagement => "privilege_management"
  | DatabaseManagement => "database_management"
  | ExecuteProcedure => "execute" | ExecuteFunction => "execute_function"
  | ExecuteAdminProcedures => "execute_admin" | AllDbms => "dbms_actions"
  end.

Inductive Target : Type := TAll | THome | TNamed (n : bytes).
Inductive Pattern : Type := PAll | PName (n : bytes).
Inductive Segment : Type :=
| SGraph | SNode (p : Pattern) | SRelationship (p : Pattern) | SDatabase
| SUser (p : Pattern) | SProcedure (p : Pattern) | SFunction (p : Pattern).
Inductive Resource : Type :=
| RGraph | RDatabase | RAllProperties | RProperty (n : bytes) | RAllLabels | RLabel (n : bytes).

#[export] Instance Target_eq_dec : EqDecision Target.
Proof. solve_decision. Defined.
#[export] Instance Pattern_eq_dec : EqDecision Pattern.
Proof. solve_decision. Defined.
#[export] Instance Segment_eq_dec : EqDecision Segment.
Proof. solve_decision. Defined.
#[export] Instance Resource_eq_dec : EqDecision Resource.
Proof. solve_decision. Defined.

Record Privilege : Type := mkPrivilege {
  action : Action;
  target : option Target;
  segment : Segment;
  resource : Resource;
}.

#[export] Instance Privilege_eq_dec : EqDecision Privilege.
Proof. solve_decision. Defined.

(** *** Wildcards: [*] is byte 42, [?] is byte 63 *)
Definition STAR : N := 42.
Definition QUESTION : N := 63.

(** One round of the [while] loop of [glob_matches] per unit of fuel; [None]
    is a loop that has not ended. *)
Fixpoint glob_loop (fuel : nat) (glob name : bytes) (g n : nat) (star : option nat) (mark : nat) :
    option bool :=
  match fuel with
  | O => None
  | S fuel =>
      match name !! n with
      | None => Some (forallb (fun c => (c =? STAR)%N) (drop g glob))
      | Some b =>
          if (if glob !! g is Some c then (c =? QUESTION)%N || (c =? b)%N else false)
          then glob_loop fuel glob name (S g) (S n) star mark
          else if (if glob !! g is Some c then (c =? STAR)%N else false)
          then glob_loop fuel glob name (S g) n (Some g) n
          else match star with
          | Some s => glob_loop fuel glob name (S s) (S mark) star (S mark)
          | None => Some false
          end
      end
  end.

Definition glob_fuel (glob name : bytes) : nat :=
  S ((length name + 2) * (length glob + length name + 2)).

Definition glob_matches (glob name : bytes) : bool :=
  default false (glob_loop (glob_fuel glob name) glob name 0 0 None 0).

Definition matches (p : Pattern) (name : bytes) : bool :=
  match p with PAll => true | PName n => bool_decide (n = name) end.

Definition matches_glob (p : Pattern) (name : bytes) : bool :=
  match p with PAll => true | PName glob => glob_matches glob name end.

(** ** [decide.rs] *)
Inductive Element : Type := ENone | ENode (labels : list bytes) | ERelationship (rel_type : bytes).

Record Request : Type := mkRequest {
  r_action : Action;
  r_database : bytes;
  r_home : bytes;
  r_element : Element;
  r_name : option bytes;
}.

Inductive Decision : Type := Granted | Denied | NotGranted.
#[export] Instance Decision_eq_dec : EqDecision Decision.
Proof. solve_decision. Defined.

Definition is_allowed (d : Decision) : bool := bool_decide (d = Granted).

Inductive Implied : Type := Wholly | ByResource.

Definition implies (held : Action) (access : Access) (resource : Resource) (wanted : Action) :
    option Implied :=
  if bool_decide (held = wanted) then Some ByResource
  else
    let finds := bool_decide (access = Grant) || bool_decide (resource = RAllProperties) in
    let at_level l := if bool_decide (level wanted = l) then Some Wholly else None in
    match held, wanted with
    | AllGraph, _ => at_level LGraph
    | Write, (Create | Delete | SetLabel | RemoveLabel | SetProperty) => Some Wholly
    | Match, Read => Some ByResource
    | (Match | Merge), Traverse => if finds then Some Wholly else None
    | Merge, (Match | Read | SetProperty) => Some ByResource
    | Merge, Create => Some Wholly
    | AllDatabase, _ => at_level LDatabase
    | AllDbms, _ => at_level LDbms
    | _, _ => None
    end.

Definition target_covers (t : option Target) (request : Request) : bool :=
  match t with
  | None | Some TAll => true
  | Some THome => negb (bool_decide (r_home request = [])) &&
                  bool_decide (r_database request = r_home request)
  | Some (TNamed n) => bool_decide (n = r_database request)
  end.

Definition segment_covers (s : Segment) (request : Request) : bool :=
  match s, r_element request with
  | (SGraph | SDatabase), _ => true
  | SNode PAll, ENode _ => true
  | SNode (PName label), ENode labels => existsb (fun l => bool_decide (l = label)) labels
  | SRelationship p, ERelationship t => matches p t
  | SUser p, _ => match r_name request with None => true | Some n => matches p n end
  | (SProcedure p | SFunction p), _ =>
      match r_name request with None => false | Some n => matches_glob p n end
  | _, _ => false
  end.

Definition resource_covers (r : Resource) (request : Request) : bool :=
  match r with
  | RGraph | RDatabase | RAllProperties | RAllLabels => true
  | RProperty p | RLabel p => bool_decide (r_name request = Some p)
  end.

Definition covers (access : Access) (p : Privilege) (request : Request) : bool :=
  match implies (action p) access (resource p) (r_action request) with
  | None => false
  | Some implied =>
      target_covers (target p) request && segment_covers (segment p) request &&
      (match implied with Wholly => true | ByResource => false end
       || resource_covers (resource p) request)
  end.

(** The loop of [decide]: [granted] is its flag. *)
Fixpoint decide_loop (held : list (Access * Privilege)) (request : Request) (granted : bool) :
    Decision :=
  match held with
  | [] => if granted then Granted else NotGranted
  | (access, privilege) :: held =>
      if covers access privilege request then
        match access with
        | Deny => Denied
        | Grant => decide_loop held request true
        end
      else decide_loop held request granted
  end.

Definition decide (held : list (Access * Privilege)) (request : Request) : Decision :=
  decide_loop held request false.

(** ** [builtin.rs] *)
Definition PUBLIC : bytes := lit "PUBLIC".
Definition BUILTIN_ROLES : list bytes :=
  [PUBLIC; lit "reader"; lit "editor"; lit "publisher"; lit "architect"; lit "admin"].

Definition graph (a : Action) (s : Segment) (r : Resource) : Privilege :=
  mkPrivilege a (Some TAll) s r.
Definition database (a : Action) (t : Target) (s : Segment) : Privilege :=
  mkPrivilege a (Some t) s RDatabase.
Definition dbms (a : Action) (s : Segment) : Privilege := mkPrivilege a None s RDatabase.

Definition public : list Privilege :=
  [database AccessDatabase THome SDatabase;
   dbms ExecuteProcedure (SProcedure PAll); dbms ExecuteFunction (SFunction PAll)].
Definition reader : list Privilege :=
  [database AccessDatabase TAll SDatabase;
   graph Match (SNode PAll) RAllProperties; graph Match (SRelationship PAll) RAllProperties].
Definition editor : list Privilege := reader ++ [graph Write SGraph RGraph].
Definition publisher : list Privilege := editor ++ [database NameManagement TAll SDatabase].
Definition architect : list Privilege :=
  publisher ++ [database IndexManagement TAll SDatabase;
                database ConstraintManagement TAll SDatabase].
Definition admin : list Privilege :=
  architect ++ [database Start TAll SDatabase; database Stop TAll SDatabase;
                database TransactionManagement TAll (SUser PAll); dbms AllDbms SDatabase].

Definition builtin_privileges (role : bytes) : option (list Privilege) :=
  if bool_decide (role = PUBLIC) then Some public
  else if bool_decide (role = lit "reader") then Some reader
  else if bool_decide (role = lit "editor") then Some editor
  else if bool_decide (role = lit "publisher") then Some publisher
  else if bool_decide (role = lit "architect") then Some architect
  else if bool_decide (role = lit "admin") then Some admin
  else None.

(** ** The decision *)
Definition covered (held : list (Access * Privilege)) (a : Access) (request : Request) : Prop :=
  exists p, (a, p) ∈ held /\ covers a p request = true.

Lemma covered_nil a request : ~ covered [] a request.
Proof. intros (p & Hp & _). by apply elem_of_nil in Hp. Qed.

Lemma covered_cons a' p held a request :
  covered ((a', p) :: held) a request <->
  (a' = a /\ covers a p request = true) \/ covered held a request.
Proof.
  split.
  - intros (q & [[= <- <-]|Hq]%elem_of_cons & Hc); [by left|right; by exists q].
  - intros [[-> Hc]|(q & Hq & Hc)]; [exists p|exists q]; (split; [|done]); by constructor.
Qed.

Lemma decide_loop_exact held request granted : match decide_loop held request granted with
  | Granted => (granted = true \/ covered held Grant request) /\ ~ covered held Deny request
  | Denied => covered held Deny request
  | NotGranted => granted = false /\ ~ covered held Grant request /\ ~ covered held Deny request
  end.
Proof.
  revert granted. induction held as [|[a p] held IH]; intros granted; simpl.
  { destruct granted; repeat split; eauto using covered_nil. }
  destruct (covers a p request) eqn:Hc; [destruct a|].
  - specialize (IH true). destruct decide_loop; rewrite !covered_cons; naive_solver.
  - rewrite covered_cons. by left.
  - specialize (IH granted). destruct decide_loop; rewrite !covered_cons, ?Hc; destruct a;
      rewrite ?Hc; naive_solver.
Qed.

(** A request is refused by a deny that covers it whatever grants it, allowed
    exactly when a grant covers it and no deny does, and not granted when
    nothing covers it. *)
Theorem decide_exact held request : match decide held request with
  | Granted => covered held Grant request /\ ~ covered held Deny request
  | Denied => covered held Deny request
  | NotGranted => ~ covered held Grant request /\ ~ covered held Deny request
  end.
Proof. pose proof (decide_loop_exact held request false). unfold decide. destruct decide_loop; naive_solver. Qed.

Lemma allowed_spec held request : is_allowed (decide held request) = true <->
  covered held Grant request /\ ~ covered held Deny request.
Proof.
  unfold is_allowed. rewrite bool_decide_eq_true. unfold decide.
  pose proof (decide_loop_exact held request false). destruct decide_loop; naive_solver.
Qed.

Lemma granted_spec held request : decide held request = Granted <->
  covered held Grant request /\ ~ covered held Deny request.
Proof. rewrite <- allowed_spec. unfold is_allowed. by rewrite bool_decide_eq_true. Qed.

(** The order the privileges are held in does not matter, nor how often. *)
Lemma decide_same held held' request : (forall e, e ∈ held <-> e ∈ held') ->
  decide held request = decide held' request.
Proof.
  intros H. assert (Hc : forall a, covered held a request <-> covered held' a request).
  { intros a. unfold covered. by setoid_rewrite H. }
  unfold decide.
  pose proof (decide_loop_exact held request false) as D.
  pose proof (decide_loop_exact held' request false) as D'.
  destruct decide_loop, decide_loop; rewrite !Hc in D; naive_solver.
Qed.

(** ** Which actions include which *)
Definition includes (a b : Action) : Prop :=
  implies a Grant RAllProperties b <> None.

(** A granted action that includes another includes all that one does. *)
Theorem implies_transitive a b c : includes a b -> includes b c -> includes a c.
Proof. destruct a, b; try (by intros []); destruct c; vm_compute; congruence. Qed.

(** [SHOW PRIVILEGES] names actions apart: the checks of two actions never
    share a cache entry. *)
Lemma name_inj a b : name a = name b -> a = b.
Proof. destruct a, b; (by vm_compute) || (intros H; vm_compute in H; congruence). Qed.

Lemma all_actions a : a ∈ ALL.
Proof. destruct a; apply (bool_decide_unpack _); vm_compute; exact I. Qed.

(** Each built-in role from [reader] on holds what the one before it holds,
    and every held privilege names a shape the parser gives. *)
Lemma builtin_roles_grow : reader ⊆ editor /\ editor ⊆ publisher /\ publisher ⊆ architect /\ architect ⊆ admin.
Proof. unfold editor, publisher, architect, admin. repeat split; set_solver. Qed.

(** ** Wildcards *)

(** What a glob means: [*] stands for any run of bytes, [?] for any one. *)
Inductive glob_ok : bytes -> bytes -> Prop :=
| glob_nil : glob_ok [] []
| glob_star_end g w : glob_ok g w -> glob_ok (STAR :: g) w
| glob_star_more g b w : glob_ok (STAR :: g) w -> glob_ok (STAR :: g) (b :: w)
| glob_any g b w : glob_ok g w -> glob_ok (QUESTION :: g) (b :: w)
| glob_byte g b w : b <> STAR -> glob_ok g w -> glob_ok (b :: g) (b :: w).

Definition accepts (c b : N) : bool := (c =? QUESTION)%N || (c =? b)%N.

Lemma glob_cons_inv c g b w : c <> STAR -> b <> STAR ->
  glob_ok (c :: g) (b :: w) <-> accepts c b = true /\ glob_ok g w.
Proof.
  unfold accepts. intros Hc Hb. split.
  - inversion 1; subst; try done; rewrite N.eqb_refl, ?orb_true_r; done.
  - intros [[->%N.eqb_eq | ->%N.eqb_eq]%orb_true_iff Hg]; by constructor.
Qed.

Lemma glob_cons_nil c g : c <> STAR -> ~ glob_ok (c :: g) [].
Proof. intros Hc H. inversion H; congruence. Qed.

Lemma glob_stars g : glob_ok g [] <-> forallb (fun c => (c =? STAR)%N) g = true.
Proof.
  induction g as [|c g IH]; simpl; [split; constructor|]. rewrite andb_true_iff, N.eqb_eq, <- IH.
  split; [inversion 1; subst; auto|]. intros [-> H]. by constructor.
Qed.

(** A star absorbs any prefix. *)
Lemma star_absorbs g w k : glob_ok (STAR :: g) (drop k w) -> glob_ok (STAR :: g) w.
Proof.
  revert k. induction w as [|b w IH]; intros k; [by rewrite drop_nil|].
  destruct k as [|k]; [done|]. simpl. intros H%IH. by constructor.
Qed.

Lemma star_split g w : glob_ok (STAR :: g) w <-> exists k, k <= length w /\ glob_ok g (drop k w).
Proof.
  split.
  - induction w as [|b w IH].
    + inversion 1; subst; try done. by exists 0.
    + inversion 1 as [|g0 w0 Hg|g0 b0 w0 Hg| |]; subst; try done.
      * exists 0. simpl. split; [lia|done].
      * destruct (IH Hg) as (k & Hk & Hw). exists (S k). simpl. split; [lia|done].
  - intros (k & _ & H). apply (star_absorbs _ _ k). by constructor.
Qed.

(** A run of bytes without a star consumes as many bytes of the name. *)
Lemma segment_consumes s g w : STAR ∉ s -> glob_ok (s ++ g) w ->
  length s <= length w /\ glob_ok g (drop (length s) w).
Proof.
  revert w. induction s as [|c s IH]; intros w Hs H; simpl in *.
  { rewrite drop_0. split; [lia|done]. }
  apply not_elem_of_cons in Hs as [Hc Hs].
  inversion H as [|g0 w0 Hg|g0 b w0 Hg|g0 b w0 Hg|g0 b w0 Hb Hg]; subst; try done;
    apply IH in Hg as [Hl Hg]; simpl; auto; split; auto; lia.
Qed.

(** What is left to match: from the current position, or from a later start of
    the run behind the last star. *)
Definition retry (glob name : bytes) (star : option nat) (mark : nat) : Prop :=
  exists s k, star = Some s /\ mark < k <= length name /\ glob_ok (drop (S s) glob) (drop k name).

(** Between two positions of the glob only the bytes behind the star. *)
Definition placed (glob name : bytes) (g n : nat) (star : option nat) (mark : nat) : Prop :=
  g <= length glob /\ n <= length name /\
  match star with
  | None => True
  | Some s => s < length glob /\ mark <= n /\ g = S s + (n - mark) /\
      STAR ∉ take (n - mark) (drop (S s) glob)
  end.

Lemma retry_none glob name mark : ~ retry glob name None mark.
Proof. by intros (s & k & ? & _). Qed.

Lemma retry_spec glob name g n s mark : placed glob name g n (Some s) mark ->
  retry glob name (Some s) mark -> exists k, n < k <= length name /\ glob_ok (drop g glob) (drop k name).
Proof.
  intros (Hg & Hn & Hs & Hm & Heq & Hfree) (s' & k & [= <-] & Hk & H).
  rewrite <- (take_drop (n - mark) (drop (S s) glob)) in H.
  apply segment_consumes in H as [Hl H]; [|done].
  rewrite length_take, length_drop in Hl, H. rewrite !drop_drop in H.
  replace (min (n - mark) (length glob - S s)) with (n - mark) in Hl, H by lia.
  rewrite length_drop in Hl. exists (k + (n - mark)). split; [lia|]. by rewrite Heq.
Qed.

Lemma retry_next glob name g n s mark : placed glob name g n (Some s) mark -> n < length name ->
  retry glob name (Some s) mark <->
  glob_ok (drop (S s) glob) (drop (S mark) name) \/ retry glob name (Some s) (S mark).
Proof.
  intros (_ & _ & _ & Hm & _) Hn. split.
  - intros (s' & k & [= <-] & Hk & H). destruct (decide_rel eq k (S mark)) as [->|]; [by left|].
    right. exists s, k. split_and!; [done|lia|lia|done].
  - intros [H|(s' & k & [= <-] & Hk & H)]; [exists s, (S mark)|exists s, k]; (split_and!; [done|lia|lia|done]).
Qed.

Section matching.
Context (glob name : bytes) (starless : STAR ∉ name).
Let width := length glob + length name + 2.

Definition remaining (g n : nat) (star : option nat) (mark : nat) : nat :=
  match star with None => length name + 1 | Some _ => length name - mark end * width
  + (length glob - g) + (length name - n).

Definition wanted (g n : nat) (star : option nat) (mark : nat) : Prop :=
  glob_ok (drop g glob) (drop n name) \/ retry glob name star mark.

Lemma wanted_end g n star mark : placed glob name g n star mark -> name !! n = None ->
  forallb (fun c => (c =? STAR)%N) (drop g glob) = true <-> wanted g n star mark.
Proof using Type.
  intros Hp Hn. apply lookup_ge_None in Hn. rewrite <- glob_stars. unfold wanted.
  rewrite (drop_ge name n Hn). split; [by left|]. intros [H|H]; [done|].
  destruct star as [s|]; [|by apply retry_none in H].
  destruct (retry_spec _ _ _ _ _ _ Hp H) as (k & Hk & _). lia.
Qed.

Lemma placed_step g n b star mark : placed glob name g n star mark -> name !! n = Some b ->
  forall c, glob !! g = Some c -> c <> STAR -> placed glob name (S g) (S n) star mark.
Proof using Type.
  intros (Hg & Hn & Hs) Hb c Hc Hne. pose proof (lookup_lt_Some _ _ _ Hb).
  pose proof (lookup_lt_Some _ _ _ Hc). split_and!; [lia|lia|]. destruct star as [s|]; [|done].
  destruct Hs as (Hs & Hm & -> & Hfree). split_and!; [lia|lia|lia|].
  replace (S n - mark) with (S (n - mark)) by lia.
  rewrite (take_S_r _ _ c); [|by rewrite lookup_drop].
  rewrite elem_of_app, list_elem_of_singleton. intros [?|?]; congruence.
Qed.

(** One byte of the name against one of the glob. *)
Lemma wanted_step g n b c star mark : placed glob name g n star mark -> name !! n = Some b ->
  glob !! g = Some c -> c <> STAR -> accepts c b = true ->
  wanted g n star mark <-> wanted (S g) (S n) star mark.
Proof using starless.
  intros Hp Hb Hc Hne Hac. unfold wanted.
  rewrite (drop_S name b n Hb), (drop_S glob c g Hc).
  rewrite (glob_cons_inv c _ b) by (done || (intros ->; by apply list_elem_of_lookup_2 in Hb)).
  rewrite Hac. naive_solver.
Qed.

(** At a star, earlier starts need not be tried again. *)
Lemma wanted_star g n star mark : placed glob name g n star mark -> n < length name ->
  glob !! g = Some STAR -> wanted g n star mark <-> wanted (S g) n (Some g) n.
Proof using Type.
  intros Hp Hn Hc. unfold wanted. rewrite (drop_S glob STAR g Hc). split.
  - assert (H : glob_ok (STAR :: drop (S g) glob) (drop n name) ->
        glob_ok (drop (S g) glob) (drop n name) \/ retry glob name (Some g) n).
    { intros (k & Hk & H)%star_split. rewrite length_drop in Hk. rewrite drop_drop in H.
      destruct k as [|k]; [left; by rewrite Nat.add_0_r in H|].
      right. exists g, (n + S k). split_and!; [done|lia|lia|done]. }
    intros [Ho|Hr]; [by apply H|]. destruct star as [s|]; [|by apply retry_none in Hr].
    destruct (retry_spec _ _ _ _ _ _ Hp Hr) as (k & Hk & Ho). apply H.
    apply (star_absorbs _ _ (k - n)). rewrite drop_drop, (drop_S glob STAR g Hc) in *.
    by replace (n + (k - n)) with k by lia.
  - intros [H|(s & k & [= <-] & Hk & H)]; left; [by constructor|].
    apply (star_absorbs _ _ (k - n)). rewrite drop_drop. constructor.
    by replace (n + (k - n)) with k by lia.
Qed.

(** A byte that does not fit: only a later start can help. *)
Lemma wanted_mismatch g n b star mark : placed glob name g n star mark -> name !! n = Some b ->
  (forall c, glob !! g = Some c -> c <> STAR /\ accepts c b = false) ->
  wanted g n star mark <-> retry glob name star mark.
Proof using starless.
  intros Hp Hb Hno. unfold wanted. split; [|by right]. intros [H|H]; [|done]. exfalso.
  rewrite (drop_S name b n Hb) in H. destruct (glob !! g) as [c|] eqn:Hc.
  - destruct (Hno c eq_refl) as [Hne Hac]. rewrite (drop_S glob c g Hc) in H.
    apply glob_cons_inv in H as [? _]; [congruence|done|].
    intros ->. by apply list_elem_of_lookup_2 in Hb.
  - apply lookup_ge_None in Hc. rewrite drop_ge in H by done. inversion H.
Qed.

Lemma placed_retry g n s mark : placed glob name g n (Some s) mark -> n < length name ->
  placed glob name (S s) (S mark) (Some s) (S mark).
Proof using Type.
  intros (Hg & Hn & Hs & Hm & -> & _) Hlt. split_and!; try lia.
  rewrite Nat.sub_diag, take_0. apply not_elem_of_nil.
Qed.

(** The first test of the loop, given that the name has no star. *)
Lemma literal_test g n b : name !! n = Some b ->
  (if glob !! g is Some c then (c =? QUESTION)%N || (c =? b)%N else false) = true ->
  exists c, glob !! g = Some c /\ c <> STAR /\ accepts c b = true.
Proof using starless.
  intros Hb H. destruct (glob !! g) as [c|]; [|done]. exists c. split_and!; [done| |done].
  intros ->. apply orb_true_iff in H as [? | <-%N.eqb_eq]; [done|].
  by apply list_elem_of_lookup_2 in Hb.
Qed.

Lemma glob_loop_ends fuel g n star mark :
  placed glob name g n star mark -> remaining g n star mark < fuel ->
  exists b, glob_loop fuel glob name g n star mark = Some b /\ (b = true <-> wanted g n star mark).
Proof using starless.
  revert g n star mark. induction fuel as [|fuel IH]; intros g n star mark Hp Hr; [lia|].
  simpl. destruct (name !! n) as [b|] eqn:Hb; [|eexists; split; [done|by eapply wanted_end]].
  pose proof (lookup_lt_Some _ _ _ Hb) as Hn.
  destruct (if glob !! g is Some c then _ else _) eqn:Hlit.
  { destruct (literal_test g n b Hb Hlit) as (c & Hc & Hne & Hac).
    destruct (IH (S g) (S n) star mark) as (r & Hl & Hw).
    - by eapply placed_step.
    - pose proof (lookup_lt_Some _ _ _ Hc). unfold remaining in *. destruct star; lia.
    - exists r. split; [done|]. by rewrite (wanted_step g n b c star mark Hp Hb Hc Hne Hac). }
  destruct (if glob !! g is Some c then (c =? STAR)%N else false) eqn:Hstar.
  { destruct (glob !! g) as [c|] eqn:Hc; [|done]. apply N.eqb_eq in Hstar as ->.
    pose proof (lookup_lt_Some _ _ _ Hc). destruct (IH (S g) n (Some g) n) as (r & Hl & Hw).
    - split_and!; try lia. rewrite Nat.sub_diag, take_0. apply not_elem_of_nil.
    - unfold remaining in *. destruct Hp as (? & ? & Hs).
      assert ((length name - n) * width <= match star with
        None => length name + 1 | Some _ => length name - mark end * width)
        by (apply Nat.mul_le_mono_r; destruct star; lia). lia.
    - exists r. split; [done|]. by rewrite (wanted_star g n star mark Hp Hn Hc). }
  assert (Hno : forall c, glob !! g = Some c -> c <> STAR /\ accepts c b = false).
  { intros c Hc. rewrite Hc in Hlit, Hstar. apply N.eqb_neq in Hstar. by split. }
  pose proof (wanted_mismatch g n b star mark Hp Hb Hno) as Hmiss.
  destruct star as [s|]; [|exists false; split; [done|]; rewrite Hmiss; split; [done|intros []%retry_none]].
  destruct (IH (S s) (S mark) (Some s) (S mark)) as (r & Hl & Hw); [by eapply placed_retry| |].
  - unfold remaining in *. destruct Hp as (? & ? & ? & ? & _).
    replace (length name - mark) with (S (length name - S mark)) in Hr by lia.
    rewrite Nat.mul_succ_l in Hr. unfold width in *. lia.
  - exists r. split; [done|]. by rewrite Hmiss, (retry_next glob name g n s mark Hp Hn).
Qed.

(** The loop of the matcher always ends within its fuel, and then it has
    decided whether the name is one the glob describes. *)
Lemma glob_decided : exists b,
  glob_loop (glob_fuel glob name) glob name 0 0 None 0 = Some b /\ (b = true <-> glob_ok glob name).
Proof using starless.
  destruct (glob_loop_ends (glob_fuel glob name) 0 0 None 0) as (b & Hb & Hw).
  - split_and!; [lia|lia|done].
  - unfold remaining, glob_fuel, width. lia.
  - exists b. split; [done|]. rewrite Hw. unfold wanted. rewrite !drop_0.
    split; [intros [?|[]%retry_none]; done|by left].
Qed.
End matching.

(** For a name without a star, [glob_matches] accepts exactly the names the
    glob describes, reading [*] as any run of bytes and [?] as any one byte. *)
Theorem glob_exact glob name : STAR ∉ name -> glob_matches glob name = true <-> glob_ok glob name.
Proof.
  intros H. destruct (glob_decided glob name H) as (b & Hb & Hw).
  unfold glob_matches. by rewrite Hb.
Qed.

(** *** Boundaries of the matcher *)

(** A star in the name is taken as the literal byte first, and the loop does
    not come back: [*] does not match the name [*a]. *)
Theorem star_in_name_escapes : glob_matches (lit "*") (lit "*a") = false /\ glob_ok (lit "*") (lit "*a").
Proof. split; [reflexivity|]. change (glob_ok [STAR] [STAR; 97%N]). do 2 apply glob_star_more. apply glob_star_end, glob_nil. Qed.

(** [?] stands for one byte, not one character: the two bytes of an accented
    letter need two. *)
Theorem question_is_one_byte : from_utf8 [195; 169]%N = true /\
  glob_matches (lit "?") [195; 169]%N = false /\ glob_matches (lit "??") [195; 169]%N = true.
Proof. split_and!; reflexivity. Qed.

Definition glob_name : bytes := lit "apoc.load.json".

Lemma glob_exact_witness : (STAR ∉ glob_name) /\
  (glob_matches (lit "ap*.lo?d.*") glob_name = true <-> glob_ok (lit "ap*.lo?d.*") glob_name) /\
  glob_matches (lit "ap*.lo?d.*") glob_name = true /\ glob_matches (lit "ap*.j?sn") glob_name = false.
Proof.
  assert (H : STAR ∉ glob_name) by (apply (bool_decide_unpack _); vm_compute; exact I).
  split_and!; [exact H|exact (glob_exact (lit "ap*.lo?d.*") glob_name H)|reflexivity|reflexivity].
Defined.

Lemma implies_transitive_witness : includes Merge Match /\ includes Match Read /\ includes Merge Read.
Proof.
  assert (H1 : includes Merge Match) by discriminate.
  assert (H2 : includes Match Read) by discriminate.
  split_and!; [exact H1|exact H2|exact (implies_transitive _ _ _ H1 H2)].
Defined.
