(* ===== verification/SecurityContext.v ===== *)
(** * Security contexts: compiled privileges and their cached answers

    [drevo-auth/src/privileges/context.rs], and the guards of
    [src/cypher/executor.rs] that call it.  A context holds the privileges of
    a user's roles, two flags that let a caller skip the checks altogether,
    and a cache of answers shared by every thread that runs a statement of the
    session.

    - [cached_answers_exact]: under any interleaving of checks, every answer is
      the one [decide] gives;
    - [shortcuts_sound]: the flags never allow what a check would refuse;
    - [labels_share_entry], [empty_name_shares_entry]: two requests the cache
      does not tell apart. *)
From S2P Require Import Prelude WireBytes Privileges.
Local Open Scope list_scope.
Local Open Scope nat_scope.

Definition CACHE_LIMIT : N := 16384.

(** A context's [RwLock] is never poisoned to its readers: both sides take the
    value of a poisoned lock. *)
Record Compiled : Type := mkCompiled {
  held : list (Access * Privilege);
  home : bytes;
  reads_all : bool;
  writes_all : bool;
  cache : gmap bytes bool;
}.

Definition SecurityContext : Type := option Compiled.
Definition unrestricted : SecurityContext := None.
Definition is_unrestricted (c : SecurityContext) : bool := bool_decide (c = None).

(** ** [SecurityContext::new] *)
Definition everywhere (p : Privilege) : bool :=
  match target p with None | Some TAll => true | _ => false end.

Definition grants (held : list (Access * Privilege)) (pred : Privilege -> bool) : bool :=
  existsb (fun e => bool_decide (e.1 = Grant) && everywhere e.2 && pred e.2) held.

Definition graph_deny (held : list (Access * Privilege)) : bool :=
  existsb (fun e => bool_decide (e.1 = Deny) && bool_decide (level (action e.2) = LGraph)) held.

Definition reads_segment (held : list (Access * Privilege)) (s : Segment) : bool :=
  grants held (fun p => bool_decide (action p = AllGraph) ||
    match action p with Match | Merge => true | _ => false end &&
    bool_decide (resource p = RAllProperties) && bool_decide (segment p = s)).

Definition new (held : list (Access * Privilege)) (home : bytes) : SecurityContext :=
  let reads_all := negb (graph_deny held) && reads_segment held (SNode PAll) &&
                   reads_segment held (SRelationship PAll) in
  let writes_all := negb (graph_deny held) &&
    grants held (fun p => match action p with Write | AllGraph => true | _ => false end) in
  Some (mkCompiled held home reads_all writes_all ∅).

(** ** The cache key *)
Definition bytes_le (a b : bytes) : Prop := bytes_compare a b <> Gt.
#[export] Instance bytes_le_dec : RelDecision bytes_le.
Proof. intros a b. unfold bytes_le. destruct (bytes_compare a b); (by right; intros []) || by left. Defined.

(** The order a stable or unstable sort leaves the labels in. *)
Definition sorted_labels (labels : list bytes) : list bytes := merge_sort bytes_le labels.

Definition element_key (e : Element) : bytes :=
  match e with
  | ENone => lit "-"
  | ENode labels => lit "n" ++ flat_map (fun l => 1%N :: l) (sorted_labels labels)
  | ERelationship t => lit "r" ++ t
  end.

Definition cache_key (a : Action) (db : bytes) (e : Element) (n : option bytes) : bytes :=
  name a ++ 0%N :: db ++ 0%N :: element_key e ++ 0%N :: default [] n.

(** ** [check]

    Its two halves are separate critical sections: the look-up, and the store
    of the answer decided in between. *)
Definition request_of (c : Compiled) (a : Action) (db : bytes) (e : Element) (n : option bytes) : Request :=
  mkRequest a db (home c) e n.

Definition lookup_answer (c : Compiled) (key : bytes) : option bool := cache c !! key.

Definition put_cache (m : gmap bytes bool) (c : Compiled) : Compiled :=
  mkCompiled (held c) (home c) (reads_all c) (writes_all c) m.

Definition store_answer (c : Compiled) (key : bytes) (allowed : bool) : Compiled :=
  let m := if (CACHE_LIMIT <=? N.of_nat (size (cache c)))%N then ∅ else cache c in
  put_cache (<[key := allowed]> m) c.

Definition check (c : SecurityContext) (a : Action) (db : bytes) (e : Element) (n : option bytes) :
    SecurityContext * bool :=
  match c with
  | None => (None, true)
  | Some c =>
      let key := cache_key a db e n in
      match lookup_answer c key with
      | Some hit => (Some c, hit)
      | None =>
          let allowed := is_allowed (decide (held c) (request_of c a db e n)) in
          (Some (store_answer c key allowed), allowed)
      end
  end.

Definition can_database c a db := check c a db ENone None.
Definition can_access c db := can_database c AccessDatabase db.
Definition can_traverse_node c db labels := check c Traverse db (ENode labels) None.
Definition can_traverse_relationship c db t := check c Traverse db (ERelationship t) None.
Definition can_read_property c db e key := check c Read db e (Some key).
Definition can_write c a db e n := check c a db e n.
Definition can_manage_transactions c db user := check c TransactionManagement db ENone (Some user).
Definition can_execute_procedure c n := check c ExecuteProcedure [] ENone (Some n).
Definition can_execute_function c n := check c ExecuteFunction [] ENone (Some n).
Definition has_dbms c a := check c a [] ENone None.

(** [a && self.can_access(database)] evaluates the check only for [a]. *)
Definition flag_and_access (flag : Compiled -> bool) (c : SecurityContext) (db : bytes) :
    SecurityContext * bool :=
  match c with
  | None => (None, true)
  | Some k => if flag k then can_access c db else (c, false)
  end.
Definition reads_everything := flag_and_access reads_all.
Definition writes_everything := flag_and_access writes_all.

(** ** The guards of the executor: [true] is [Ok], [false] is [Forbidden].
    Without a restriction the context is [unrestricted]. *)
Definition guard_write (c : SecurityContext) (db : bytes) (a : Action) (e : Element) (n : option bytes) :
    SecurityContext * bool :=
  let '(c, all) := writes_everything c db in
  if all then (c, true) else can_write c a db e n.

Definition guard_node (c : SecurityContext) (db : bytes) (a : Action) (labels : list bytes)
    (n : option bytes) : SecurityContext * bool :=
  let '(c, all) := writes_everything c db in
  if all then (c, true) else guard_write c db a (ENode labels) n.

Definition guard_relationship (c : SecurityContext) (db : bytes) (a : Action) (kind : bytes)
    (n : option bytes) : SecurityContext * bool :=
  guard_write c db a (ERelationship kind) n.

Definition guard_database (c : SecurityContext) (db : bytes) (a : Action) : SecurityContext * bool :=
  can_database c a db.

Definition two_phase_procedures : list bytes :=
  [lit "drevo.tx.commitPrepared"; lit "drevo.tx.rollbackPrepared"; lit "drevo.tx.heuristicRollback";
   lit "drevo.tx.listPrepared"].
Definition index_procedures : list bytes :=
  [lit "drevo.semantic.register"; lit "drevo.semantic.registerRel"; lit "drevo.semantic.reindex";
   lit "drevo.semantic.reindexRel"; lit "drevo.indexes.setSecondary"].
Definition sequence_procedures : list bytes :=
  [lit "drevo.sequence.create"; lit "drevo.sequence.drop"].

(** [str::starts_with]. *)
Definition starts_with (prefix s : bytes) : bool := bool_decide (take (length prefix) s = prefix).

(** What a procedure needs besides [EXECUTE PROCEDURE]. *)
Inductive Need : Type := NeedsAdmin | NeedsIndexManagement | NeedsNothing.
Definition needs (n : bytes) : Need :=
  if bool_decide (n ∈ two_phase_procedures) then NeedsAdmin
  else if bool_decide (n ∈ index_procedures) then NeedsIndexManagement
  else if bool_decide (n ∈ sequence_procedures) then NeedsAdmin
  else if starts_with (lit "apoc.trigger.") n && negb (bool_decide (n = lit "apoc.trigger.list"))
  then NeedsAdmin
  else NeedsNothing.

Definition guard_procedure (c : SecurityContext) (db n : bytes) : SecurityContext * bool :=
  let '(c, ok) := can_execute_procedure c n in
  if negb ok then (c, false)
  else match needs n with
  | NeedsAdmin => has_dbms c ExecuteAdminProcedures
  | NeedsIndexManagement => guard_database c db IndexManagement
  | NeedsNothing => (c, true)
  end.

(** ** Checks of several threads

    A context is shared by the clones of a session: any number of threads ask
    it, each between its look-up and its store. *)
Record Ask : Type := mkAsk {
  q_action : Action;
  q_database : bytes;
  q_element : Element;
  q_name : option bytes;
}.

Definition key_of (q : Ask) : bytes :=
  cache_key (q_action q) (q_database q) (q_element q) (q_name q).
Definition as_request (home : bytes) (q : Ask) : Request :=
  mkRequest (q_action q) (q_database q) home (q_element q) (q_name q).

Record Shared : Type := mkShared {
  context : Compiled;
  deciding : gmap nat Ask;
  answers : list (Ask * bool);
}.

Inductive Event : Type := LookUp (t : nat) (q : Ask) | StoreAnswer (t : nat).

Definition act (ev : Event) (s : Shared) : Shared :=
  match ev with
  | LookUp t q =>
      match deciding s !! t with
      | Some _ => s
      | None =>
          match lookup_answer (context s) (key_of q) with
          | Some hit => mkShared (context s) (deciding s) (answers s ++ [(q, hit)])
          | None => mkShared (context s) (<[t := q]> (deciding s)) (answers s)
          end
      end
  | StoreAnswer t =>
      match deciding s !! t with
      | None => s
      | Some q =>
          let allowed := is_allowed (decide (held (context s)) (as_request (home (context s)) q)) in
          mkShared (store_answer (context s) (key_of q) allowed) (delete t (deciding s))
            (answers s ++ [(q, allowed)])
      end
  end.

Definition run (evs : list Event) (s : Shared) : Shared := foldl (fun s ev => act ev s) s evs.
Definition share (c : Compiled) : Shared := mkShared c ∅ [].

(** ** Names the cache can tell apart *)
Definition clean_element (e : Element) : Prop :=
  match e with
  | ENone => True
  | ENode labels => forall l, l ∈ labels -> (0%N ∉ l) /\ (1%N ∉ l)
  | ERelationship t => 0%N ∉ t
  end.

Definition clean (q : Ask) : Prop :=
  (0%N ∉ q_database q) /\ clean_element (q_element q) /\ q_name q <> Some [].

#[export] Instance clean_element_dec e : base.Decision (clean_element e).
Proof.
  destruct e as [|labels|t]; simpl; try apply _.
  destruct (decide_rel eq (forallb (fun l => bool_decide (0%N ∉ l) && bool_decide (1%N ∉ l)) labels) true) as [H|H].
  - left. intros l Hl. rewrite forallb_forall in H. specialize (H l).
    rewrite <- list_elem_of_In, andb_true_iff, !bool_decide_eq_true in H. by apply H.
  - right. intros Hall. apply H, forallb_forall. intros l Hl%list_elem_of_In.
    rewrite andb_true_iff, !bool_decide_eq_true. by apply Hall.
Defined.
#[export] Instance clean_dec q : base.Decision (clean q).
Proof. unfold clean. apply _. Defined.

(** The same request up to the order of labels. *)
Definition same_element (e e' : Element) : Prop :=
  match e, e' with ENode l, ENode l' => l ≡ₚ l' | _, _ => e = e' end.

Lemma split_sep (sep : N) (x x' r r' : bytes) : sep ∉ x -> sep ∉ x' ->
  x ++ sep :: r = x' ++ sep :: r' -> x = x' /\ r = r'.
Proof.
  revert x'. induction x as [|a x IH]; intros [|a' x'] Hx Hx' H; simpl in *.
  - by injection H.
  - injection H as -> _. apply not_elem_of_cons in Hx' as [? _]. done.
  - injection H as <- _. apply not_elem_of_cons in Hx as [? _]. done.
  - injection H as <- H. apply not_elem_of_cons in Hx as [_ Hx], Hx' as [_ Hx'].
    destruct (IH x' Hx Hx' H) as [-> ->]. done.
Qed.

Lemma labels_key_inj ls ls' : (forall l, l ∈ ls -> 1%N ∉ l) -> (forall l, l ∈ ls' -> 1%N ∉ l) ->
  flat_map (fun l => 1%N :: l) ls ++ [1%N] = flat_map (fun l => 1%N :: l) ls' ++ [1%N] -> ls = ls'.
Proof.
  assert (Hshape : forall ls, exists t, flat_map (fun l => 1%N :: l) ls ++ [1%N] = 1%N :: t)
    by (intros [|l ?]; simpl; eauto).
  revert ls'. induction ls as [|l ls IH]; intros [|l' ls'] H H' He; simpl in He; [done| | |].
  - injection He as He. by destruct l', (flat_map (fun l => 1%N :: l) ls').
  - injection He as He. by destruct l, (flat_map (fun l => 1%N :: l) ls).
  - injection He as He. rewrite <- !app_assoc in He.
    destruct (Hshape ls) as [t Ht], (Hshape ls') as [t' Ht']. rewrite Ht, Ht' in He.
    apply split_sep in He as [-> He]; [|apply H; by constructor|apply H'; by constructor].
    f_equal. apply IH; [intros; apply H; by constructor|intros; apply H'; by constructor|].
    rewrite Ht, Ht'. by f_equal.
Qed.

Lemma sorted_perm ls : sorted_labels ls ≡ₚ ls.
Proof. apply merge_sort_Permutation. Qed.

Lemma element_key_clean e : clean_element e -> 0%N ∉ element_key e.
Proof.
  destruct e as [|ls|t]; simpl; intros H.
  - apply (bool_decide_unpack _). by vm_compute.
  - rewrite elem_of_cons. intros [Hn|Hin]; [done|].
    apply list_elem_of_In, in_flat_map in Hin as (l & Hl%list_elem_of_In & [?|Hin%list_elem_of_In]%in_inv); [done|].
    rewrite sorted_perm in Hl. by apply H in Hl as [? _].
  - rewrite elem_of_cons. intros [?|?]; done.
Qed.

Lemma element_key_inj e e' : clean_element e -> clean_element e' ->
  element_key e = element_key e' -> same_element e e'.
Proof.
  destruct e as [|ls|t], e' as [|ls'|t']; simpl; intros H H' He; try reflexivity; try discriminate He.
  - injection He as He.
    rewrite <- (sorted_perm ls), <- (sorted_perm ls').
    rewrite (labels_key_inj (sorted_labels ls) (sorted_labels ls')); [done| | |by rewrite He].
    + intros l. rewrite sorted_perm. intros Hl. by apply H.
    + intros l. rewrite sorted_perm. intros Hl. by apply H'.
  - injection He as ->. done.
Qed.

Lemma name_clean a : 0%N ∉ name a.
Proof. destruct a; apply (bool_decide_unpack _); vm_compute; exact I. Qed.

(** Two clean requests with one key are the same up to the order of labels. *)
Lemma cache_key_inj q q' : clean q -> clean q' -> key_of q = key_of q' ->
  q_action q = q_action q' /\ q_database q = q_database q' /\
  same_element (q_element q) (q_element q') /\ q_name q = q_name q'.
Proof.
  intros (Hd & He & Hn) (Hd' & He' & Hn') H. unfold key_of, cache_key in H.
  apply split_sep in H as [Ha H]; [|apply name_clean..].
  apply split_sep in H as [Hdb H]; [|done..].
  apply split_sep in H as [Hel H]; [|by apply element_key_clean..].
  split_and!; [by apply name_inj|done|by apply element_key_inj|].
  destruct (q_name q), (q_name q'); simpl in *; congruence.
Qed.

(** ** Cached answers *)
Lemma segment_same s q q' : same_element (r_element q) (r_element q') -> r_name q = r_name q' ->
  segment_covers s q = segment_covers s q'.
Proof.
  intros He Hn. unfold segment_covers. rewrite <- Hn.
  destruct (r_element q) as [|ls|t], (r_element q') as [|ls'|t']; simpl in He; try done;
    [|by injection He as ->].
  destruct s as [|[|label]| | | | |]; try done.
  apply eq_true_iff_eq. rewrite !existsb_exists. by setoid_rewrite <- list_elem_of_In; setoid_rewrite He.
Qed.

Lemma decide_same_element held q q' : r_action q = r_action q' -> r_database q = r_database q' ->
  r_home q = r_home q' -> same_element (r_element q) (r_element q') -> r_name q = r_name q' ->
  decide held q = decide held q'.
Proof.
  intros Ha Hd Hh He Hn. unfold decide. generalize false.
  induction held as [|[a p] l IH]; intros granted; simpl; [done|].
  assert (covers a p q = covers a p q') as ->; [|by destruct (covers a p q'), a].
  unfold covers. rewrite Ha. destruct implies; [|done].
  rewrite (segment_same _ q q' He Hn). unfold target_covers, resource_covers. by rewrite Hd, Hh, Hn.
Qed.

Definition verdict (c : Compiled) (q : Ask) : bool :=
  is_allowed (decide (held c) (as_request (home c) q)).

(** Every entry of the cache answers every clean request with its key. *)
Definition cache_ok (c : Compiled) : Prop :=
  forall q b, clean q -> cache c !! key_of q = Some b -> b = verdict c q.

Lemma store_ok c q : clean q -> cache_ok c -> cache_ok (store_answer c (key_of q) (verdict c q)).
Proof.
  intros Hq Hc q' b Hq'. unfold store_answer. simpl.
  change (verdict (put_cache _ c) q') with (verdict c q').
  rewrite lookup_insert. case_decide as Hk.
  - intros [= <-]. destruct (cache_key_inj q q' Hq Hq' Hk) as (Ha & Hd & He & Hn).
    unfold verdict. f_equal. by apply decide_same_element.
  - case_match; [by rewrite lookup_empty|]. by apply Hc.
Qed.

Definition asks (ev : Event) : option Ask := match ev with LookUp _ q => Some q | StoreAnswer _ => None end.

Definition shared_ok (c : Compiled) (s : Shared) : Prop :=
  (held (context s) = held c /\ home (context s) = home c) /\ cache_ok (context s) /\
  (forall t q, deciding s !! t = Some q -> clean q) /\
  (forall q b, (q, b) ∈ answers s -> b = verdict c q).

Lemma act_ok c ev s : (forall q, asks ev = Some q -> clean q) -> shared_ok c s -> shared_ok c (act ev s).
Proof.
  intros Hev ((Hh & Hm) & Hc & Hd & Ha).
  assert (Hv : forall q, verdict (context s) q = verdict c q) by (intros q; unfold verdict; by rewrite Hh, Hm).
  assert (Hnew : forall q b, b = verdict c q ->
      forall q' b', (q', b') ∈ answers s ++ [(q, b)] -> b' = verdict c q').
  { intros q b -> q' b' [?|[= -> ->]%list_elem_of_singleton]%elem_of_app; by auto. }
  destruct ev as [t q|t]; simpl.
  - specialize (Hev q eq_refl). destruct (deciding s !! t); [done|].
    destruct (lookup_answer (context s) (key_of q)) as [hit|] eqn:Hl; (split_and!; simpl; try done).
    + apply Hnew. rewrite <- Hv. by apply Hc.
    + intros t' q'. rewrite lookup_insert. case_decide; [by intros [= <-]|apply Hd].
  - destruct (deciding s !! t) as [q|] eqn:Ht; [|done]. split_and!; simpl; try done.
    + apply store_ok; [by eapply Hd|done].
    + intros t' q'. rewrite lookup_delete_Some. intros [_ ?]. by eapply Hd.
    + apply Hnew, Hv.
Qed.

Lemma run_shared_ok c evs s : Forall (fun ev => forall q, asks ev = Some q -> clean q) evs ->
  shared_ok c s -> shared_ok c (run evs s).
Proof.
  intros H. revert s. induction H as [|ev evs Hev _ IH]; intros s Hs; simpl; [done|].
  by apply IH, act_ok.
Qed.

Lemma fresh_ok held home c : new held home = Some c -> shared_ok c (share c).
Proof.
  intros [= <-]. split_and!; try done. intros q b Hb. by apply elem_of_nil in Hb.
Qed.

(** C30: Whatever the order in which threads look up and store their answers, and
    however often the cache is emptied: if all the requests asked of a context
    are clean -- no separator byte in a database, label or type name, and no
    empty user, procedure or function name -- every answer it gives is the one
    [decide] gives.  Requests that are not clean can share an entry
    ([labels_share_entry], [empty_name_shares_entry]), and one of them spoils the
    entry for a clean one. *)
Theorem cached_answers_exact held home c evs q b : new held home = Some c ->
  Forall (fun ev => forall q, asks ev = Some q -> clean q) evs ->
  (q, b) ∈ answers (run evs (share c)) -> b = is_allowed (decide held (as_request home q)).
Proof.
  intros Hc He Ha. pose proof (run_shared_ok c evs _ He (fresh_ok _ _ _ Hc)) as (_ & _ & _ & Hall).
  rewrite (Hall q b Ha). injection Hc as <-. done.
Qed.

(** The same for one thread: [check] keeps the cache right and answers like
    [decide]. *)
Lemma check_exact c a db e n : cache_ok c -> clean (mkAsk a db e n) ->
  (check (Some c) a db e n).2 = verdict c (mkAsk a db e n) /\
  exists c', (check (Some c) a db e n).1 = Some c' /\ held c' = held c /\ home c' = home c /\
    reads_all c' = reads_all c /\ writes_all c' = writes_all c /\ cache_ok c'.
Proof.
  intros Hc Hq. unfold check.
  destruct (lookup_answer c (cache_key a db e n)) as [hit|] eqn:Hl; simpl.
  - split; [by apply (Hc (mkAsk a db e n))|]. by exists c.
  - split; [done|]. eexists. split_and!; try done. by apply (store_ok c (mkAsk a db e n)).
Qed.

(** ** Skipping the checks *)

(** The shapes the parser gives: a privilege on every write, or on a whole
    graph, names no single element. *)
Definition graph_wide (held : list (Access * Privilege)) : Prop :=
  forall a p, (a, p) ∈ held -> action p = Write \/ action p = AllGraph -> segment p = SGraph.

Lemma no_graph_deny held q : graph_deny held = false -> level (r_action q) = LGraph ->
  ~ covered held Deny q.
Proof.
  intros H Hl (p & Hp & Hc). unfold covers in Hc.
  assert (Hd : level (action p) <> LGraph).
  { intros Hd. assert (graph_deny held = true); [|congruence]. apply existsb_exists. exists (Deny, p).
    split; [by apply list_elem_of_In|]. simpl. rewrite Hd. done. }
  destruct (implies (action p) Deny (resource p) (r_action q)) eqn:Hi; [|done].
  unfold implies in Hi. case_bool_decide as He; [congruence|].
  destruct (action p), (r_action q); simpl in *; congruence.
Qed.

Lemma grants_spec held pred : grants held pred = true <->
  exists p, (Grant, p) ∈ held /\ everywhere p = true /\ pred p = true.
Proof.
  unfold grants. rewrite existsb_exists. setoid_rewrite <- list_elem_of_In. split.
  - intros ([a p] & Hp & H). simpl in H. rewrite !andb_true_iff, bool_decide_eq_true in H.
    destruct H as [[-> ?] ?]. by exists p.
  - intros (p & Hp & He & H). exists (Grant, p). simpl. by rewrite He, H.
Qed.

Lemma everywhere_covers p q : everywhere p = true -> target_covers (target p) q = true.
Proof. unfold everywhere, target_covers. by destruct (target p) as [[]|]. Qed.

Definition read_action (a : Action) : Prop := a = Traverse \/ a = Read.
Definition write_action (a : Action) : Prop :=
  a = Create \/ a = Delete \/ a = SetLabel \/ a = RemoveLabel \/ a = SetProperty.

Definition whole (e : Element) : option Segment :=
  match e with
  | ENone => None | ENode _ => Some (SNode PAll) | ERelationship _ => Some (SRelationship PAll)
  end.

Lemma whole_covers e s q : whole e = Some s -> r_element q = e -> segment_covers s q = true.
Proof. intros H He. unfold segment_covers. rewrite He. by destruct e; simplify_eq/=. Qed.

Lemma reads_segment_covers held s q : graph_wide held -> reads_segment held s = true ->
  whole (r_element q) = Some s -> read_action (r_action q) -> covered held Grant q.
Proof.
  intros Hw (p & Hp & He & Hpred)%grants_spec Hs Ha. exists p. split; [done|].
  unfold covers. rewrite (everywhere_covers p q He). simpl.
  apply orb_true_iff in Hpred as [H|H].
  - apply bool_decide_eq_true in H. rewrite H, (Hw _ _ Hp (or_intror H)).
    by destruct Ha as [-> | ->].
  - rewrite !andb_true_iff, !bool_decide_eq_true in H. destruct H as [[Hact Hres] Hseg].
    rewrite Hres, Hseg, (whole_covers _ s q Hs eq_refl).
    destruct (action p); try done; by destruct Ha as [-> | ->].
Qed.

Lemma writes_all_covers held q : graph_wide held ->
  grants held (fun p => match action p with Write | AllGraph => true | _ => false end) = true ->
  write_action (r_action q) -> covered held Grant q.
Proof.
  intros Hw (p & Hp & He & Hpred)%grants_spec Ha. exists p. split; [done|].
  unfold covers. rewrite (everywhere_covers p q He).
  assert (segment p = SGraph) as -> by (apply (Hw _ _ Hp); destruct (action p); auto; done).
  destruct (action p); try done; by destruct Ha as [->|[->|[->|[->| ->]]]].
Qed.

Lemma shortcuts_hold held home c q : graph_wide held -> new held home = Some c ->
  (reads_all c = true -> whole (r_element q) <> None -> read_action (r_action q) ->
   decide held q = Granted) /\
  (writes_all c = true -> write_action (r_action q) -> decide held q = Granted).
Proof.
  intros Hw [= <-]. simpl. split; intros H.
  - intros Hs Ha. rewrite !andb_true_iff, negb_true_iff in H. destruct H as [[Hd Hn] Hr].
    apply granted_spec. split.
    + destruct (r_element q) as [|ls|t] eqn:He; simpl in Hs; [done| |];
        [apply (reads_segment_covers held (SNode PAll))|apply (reads_segment_covers held (SRelationship PAll))];
        try done; by rewrite He.
    + apply no_graph_deny; [done|]. by destruct Ha as [-> | ->].
  - intros Ha. rewrite andb_true_iff, negb_true_iff in H. destruct H as [Hd Hg].
    apply granted_spec. split; [by apply writes_all_covers|].
    apply no_graph_deny; [done|]. by destruct Ha as [->|[->|[->|[->| ->]]]].
Qed.

(** What the flags claim is what the privileges grant: with [reads_all] every
    node and relationship of every graph may be found and every property read,
    with [writes_all] every write is allowed. *)
Theorem shortcuts_sound held home c q : graph_wide held -> new held home = Some c ->
  (reads_all c = true -> whole (r_element q) <> None -> read_action (r_action q) ->
   decide held q = Granted) /\
  (writes_all c = true -> write_action (r_action q) -> decide held q = Granted).
Proof. apply shortcuts_hold. Qed.

(** So the executor's guard lets a write through exactly when the privileges
    grant it: trying the shortcut first changes no answer. *)
Theorem guard_write_exact held home c a db e n : graph_wide held -> new held home = Some c ->
  write_action a -> clean (mkAsk a db e n) ->
  (guard_write (Some c) db a e n).2 = is_allowed (decide held (mkRequest a db home e n)).
Proof.
  intros Hw Hc Ha Hq. pose proof (shortcuts_hold held home c (mkRequest a db home e n) Hw Hc) as [_ Hs].
  pose proof (fresh_ok held home c Hc) as (_ & Hok & _). simpl in Hok.
  assert (Hv : verdict c (mkAsk a db e n) = is_allowed (decide held (mkRequest a db home e n)))
    by (injection Hc as <-; done).
  unfold guard_write, can_write, writes_everything, flag_and_access. destruct (writes_all c) eqn:Hall.
  - assert (Hacc : clean (mkAsk AccessDatabase db ENone None)) by (by destruct Hq as [? _]).
    unfold can_access, can_database.
    destruct (check_exact c AccessDatabase db ENone None Hok Hacc) as (_ & c' & Hc' & Hh & Hm & _ & _ & Hok').
    destruct (check (Some c) AccessDatabase db ENone None) as [k all]. simpl in Hc'. subst k.
    destruct all; [simpl; by rewrite Hs|]. change ((check (Some c') a db e n).2 = is_allowed (decide held (mkRequest a db home e n))).
    destruct (check_exact c' a db e n Hok' Hq) as [-> _]. rewrite <- Hv. unfold verdict. by rewrite Hh, Hm.
  - destruct (check_exact c a db e n Hok Hq) as [H _]. by rewrite <- Hv, <- H.
Qed.

(** A procedure runs exactly when executing it is granted and, for an
    administration or index procedure, the further privilege is too. *)
Theorem guard_procedure_exact held home c db n : new held home = Some c ->
  clean (mkAsk ExecuteProcedure [] ENone (Some n)) -> clean (mkAsk IndexManagement db ENone None) ->
  (guard_procedure (Some c) db n).2 =
    is_allowed (decide held (mkRequest ExecuteProcedure [] home ENone (Some n))) &&
    match needs n with
    | NeedsAdmin => is_allowed (decide held (mkRequest ExecuteAdminProcedures [] home ENone None))
    | NeedsIndexManagement => is_allowed (decide held (mkRequest IndexManagement db home ENone None))
    | NeedsNothing => true
    end.
Proof.
  intros Hc Hn Hdb. pose proof (fresh_ok held home c Hc) as (_ & Hok & _). simpl in Hok.
  assert (Hv : forall q, verdict c q = is_allowed (decide held (as_request home q))) by (injection Hc as <-; done).
  unfold guard_procedure, can_execute_procedure.
  destruct (check_exact c _ _ _ _ Hok Hn) as (Ha & c' & Hc' & Hh & Hm & _ & _ & Hok').
  destruct (check (Some c) _ _ _ _) as [k ok]. simpl in Ha, Hc'. subst k ok.
  rewrite Hv. unfold as_request. cbn [q_action q_database q_element q_name].
  assert (Hv' : forall q, verdict c' q = is_allowed (decide held (as_request home q)))
    by (intros q; rewrite <- Hv; unfold verdict; by rewrite Hh, Hm).
  destruct (is_allowed _); simpl negb; cbn iota; [|done]. rewrite andb_true_l.
  unfold has_dbms, guard_database, can_database. destruct (needs n); [| |done].
  - destruct (check_exact c' ExecuteAdminProcedures [] ENone None Hok') as [-> _]; [|apply Hv'].
    split_and!; [apply not_elem_of_nil|done|done].
  - destruct (check_exact c' IndexManagement db ENone None Hok' Hdb) as [-> _]. apply Hv'.
Qed.

(** ** Concrete contexts *)
Definition payroll : list (Access * Privilege) :=
  [(Grant, graph Match (SNode PAll) RAllProperties);
   (Deny, graph Read (SNode (PName (lit "Secret"))) (RProperty (lit "salary")))].
Definition hr : bytes := lit "hr".
Definition salary_of (labels : list bytes) : Ask := mkAsk Read hr (ENode labels) (Some (lit "salary")).
Definition pub_secret : list bytes := [lit "Pub"; lit "Secret"].

Definition compiled_of (held : list (Access * Privilege)) (home : bytes) : Compiled :=
  default (mkCompiled [] [] false false ∅) (new held home).

(** Two threads ask for one node with its labels in either order, the later
    look-up first to store; a third is answered from the cache. *)
Definition two_threads : list Event :=
  [LookUp 0 (salary_of pub_secret); LookUp 1 (salary_of [lit "Secret"; lit "Pub"]); StoreAnswer 1;
   LookUp 2 (salary_of [lit "Pub"]); StoreAnswer 0; LookUp 3 (salary_of pub_secret); StoreAnswer 2].

Lemma clean_events evs :
  forallb (fun ev => if asks ev is Some q then bool_decide (clean q) else true) evs = true ->
  Forall (fun ev => forall q, asks ev = Some q -> clean q) evs.
Proof.
  intros H. apply Forall_forall. intros ev Hev%list_elem_of_In q Hq. rewrite forallb_forall in H.
  specialize (H ev Hev). rewrite Hq in H. by apply bool_decide_eq_true in H.
Qed.

Lemma cached_answers_exact_witness :
  answers (run two_threads (share (compiled_of payroll hr))) =
    [(salary_of [lit "Secret"; lit "Pub"], false); (salary_of pub_secret, false);
     (salary_of pub_secret, false); (salary_of [lit "Pub"], true)] /\
  false = is_allowed (decide payroll (as_request hr (salary_of pub_secret))).
Proof.
  split; [vm_compute; reflexivity|].
  apply (cached_answers_exact payroll hr (compiled_of payroll hr) two_threads (salary_of pub_secret) false).
  - reflexivity.
  - apply clean_events. vm_compute. reflexivity.
  - assert (H : answers (run two_threads (share (compiled_of payroll hr))) =
      [(salary_of [lit "Secret"; lit "Pub"], false); (salary_of pub_secret, false);
       (salary_of pub_secret, false); (salary_of [lit "Pub"], true)]) by (vm_compute; reflexivity).
    rewrite H. right. left.
Defined.

(** The editor's context skips both checks. *)
Definition editors : list (Access * Privilege) := (fun p => (Grant, p)) <$> editor.

Lemma editors_graph_wide : graph_wide editors.
Proof.
  intros a p Hp. apply list_elem_of_In in Hp. simpl in Hp.
  destruct Hp as [[= <- <-]|[[= <- <-]|[[= <- <-]|[[= <- <-]|[]]]]]; intros [H|H]; cbv in H; (discriminate H || reflexivity).
Qed.

Lemma shortcuts_sound_witness : reads_all (compiled_of editors hr) = true /\
  writes_all (compiled_of editors hr) = true /\
  decide editors (mkRequest Delete hr [] (ENode [lit "Secret"]) None) = Granted /\
  decide editors (mkRequest Read hr [] (ERelationship (lit "KNOWS")) (Some (lit "since"))) = Granted.
Proof.
  split; [reflexivity|]. split; [reflexivity|]. split.
  - apply (proj2 (shortcuts_sound editors hr (compiled_of editors hr)
      (mkRequest Delete hr [] (ENode [lit "Secret"]) None)
      editors_graph_wide eq_refl)); [reflexivity|right; left; reflexivity].
  - apply (proj1 (shortcuts_sound editors hr (compiled_of editors hr)
      (mkRequest Read hr [] (ERelationship (lit "KNOWS")) (Some (lit "since")))
      editors_graph_wide eq_refl)); [reflexivity|discriminate|right; reflexivity].
Defined.

Lemma guard_write_exact_witness :
  (guard_write (Some (compiled_of editors hr)) hr Create (ENode [lit "Secret"]) None).2 =
    is_allowed (decide editors (mkRequest Create hr hr (ENode [lit "Secret"]) None)) /\
  (guard_write (Some (compiled_of payroll hr)) hr Create (ENode [lit "Secret"]) None).2 = false.
Proof.
  split; [|vm_compute; reflexivity].
  apply (guard_write_exact editors hr (compiled_of editors hr) Create hr (ENode [lit "Secret"]) None).
  - exact editors_graph_wide.
  - reflexivity.
  - left. reflexivity.
  - apply (bool_decide_unpack _). vm_compute. exact I.
Defined.

Definition operators : list (Access * Privilege) :=
  [(Grant, dbms ExecuteProcedure (SProcedure (PName (lit "drevo.*"))));
   (Grant, dbms ExecuteAdminProcedures SDatabase)].

Lemma guard_procedure_exact_witness :
  (guard_procedure (Some (compiled_of operators hr)) hr (lit "drevo.tx.commitPrepared")).2 = true /\
  (guard_procedure (Some (compiled_of operators hr)) hr (lit "drevo.semantic.reindex")).2 =
    (is_allowed (decide operators
       (mkRequest ExecuteProcedure [] hr ENone (Some (lit "drevo.semantic.reindex")))) &&
     is_allowed (decide operators (mkRequest IndexManagement hr hr ENone None))).
Proof.
  split; [vm_compute; reflexivity|].
  apply (guard_procedure_exact operators hr (compiled_of operators hr) hr (lit "drevo.semantic.reindex")).
  - reflexivity.
  - apply (bool_decide_unpack _). vm_compute. exact I.
  - apply (bool_decide_unpack _). vm_compute. exact I.
Defined.

(** *** What the key does not tell apart *)

(** A single label that holds the byte the key puts before each label: its
    answer is taken for the node with the two labels it looks like, whose
    property is denied. *)
Theorem labels_share_entry :
  let odd := [lit "Pub" ++ 1%N :: lit "Secret"] in
  let '(c, first) := can_read_property (new payroll hr) hr (ENode odd) (lit "salary") in
  first = true /\
  (can_read_property c hr (ENode pub_secret) (lit "salary")).2 = true /\
  decide payroll (as_request hr (salary_of pub_secret)) = Denied.
Proof. vm_compute. split_and!; reflexivity. Qed.

(** A request about no user and one about the user with the empty name: the
    first is granted, the second is not, and the cache answers both alike. *)
Definition about_bob : list (Access * Privilege) :=
  [(Grant, database TransactionManagement TAll (SUser (PName (lit "bob"))))].

Theorem empty_name_shares_entry :
  let '(c, first) := can_database (new about_bob hr) TransactionManagement hr in
  first = true /\ (can_manage_transactions c hr []).2 = true /\
  (can_manage_transactions (new about_bob hr) hr []).2 = false.
Proof. vm_compute. split_and!; reflexivity. Qed.
