(* ===== verification/ReadFilter.v ===== *)
(** * The read filter: what a signed-in user sees of a value

    [src/cypher/executor.rs]: every node, relationship and path a statement
    reads or a procedure returns passes through [visible_value], which drops
    what the user may not traverse and redacts the properties the user may not
    read.  The answers of the security context are remembered for the
    statement, per label set and per relationship type.

    - [filter_exact]: the memo changes nothing: the filter computes the
      reference view, and fails only when the engine does;
    - [nothing_hidden_shown]: what the filter lets through holds nothing the
      user may not see;
    - [permitted_unchanged]: what the user may see wholly is left as it is. *)
From S2P Require Import Prelude WireBytes Privileges SecurityContext.
Local Open Scope list_scope.

(** ** Values *)
Inductive Value : Type :=
| VNull
| VBool (b : bool)
| VInteger (i : Z)
| VFloat (bits : N)
| VString (s : bytes)
| VList (items : list Value)
| VMap (m : list (bytes * Value))
| VNode (nv : NodeValue)
| VRelationship (rv : RelationshipValue)
| VPath (nodes : list NodeValue) (relationships : list RelationshipValue)
with NodeValue : Type :=
| mkNode (n_id : N) (n_uuid : bytes) (n_labels : list bytes) (n_properties : list (bytes * Value))
with RelationshipValue : Type :=
| mkRelationship (r_id : N) (r_uuid : bytes) (r_from r_to : N) (r_kind : bytes)
    (r_properties : list (bytes * Value)).

Definition labels (nv : NodeValue) : list bytes := let '(mkNode _ _ l _) := nv in l.
Definition properties (nv : NodeValue) : list (bytes * Value) := let '(mkNode _ _ _ p) := nv in p.
Definition with_properties (nv : NodeValue) (p : list (bytes * Value)) : NodeValue :=
  let '(mkNode i u l _) := nv in mkNode i u l p.
Definition kind (rv : RelationshipValue) : bytes := let '(mkRelationship _ _ _ _ k _) := rv in k.
Definition ends (rv : RelationshipValue) : list N := let '(mkRelationship _ _ f t _ _) := rv in [f; t].
Definition r_properties_of (rv : RelationshipValue) : list (bytes * Value) :=
  let '(mkRelationship _ _ _ _ _ p) := rv in p.
Definition with_r_properties (rv : RelationshipValue) (p : list (bytes * Value)) : RelationshipValue :=
  let '(mkRelationship i u f t k _) := rv in mkRelationship i u f t k p.

(** ** What the filter asks

    The answers of the security context for the statement's database
    ([can_traverse_node], [can_read_property], [can_traverse_relationship]),
    and the engine's nodes by id as the executor projects them. *)
Class Viewer (E : Type) := {
  traverse_node : list bytes -> bool;
  read_node : list bytes -> bytes -> bool;
  traverse_relationship : bytes -> bool;
  read_relationship : bytes -> bytes -> bool;
  node_of : N -> result E (option NodeValue);
}.

(** ** The memo of a statement *)
Record ElementView : Type := mkView { traversable : bool; readable : gmap bytes bool }.
Record ReadMemo : Type := mkMemo {
  nodes : gmap (list bytes) ElementView;
  relationships : gmap bytes ElementView;
}.

Section filter.
Context {E : Type} `{!Viewer E}.

(** The loop over a property map: remember the answer for every key, and
    whether all of them may be read. *)
Definition ask_key (read : bytes -> bool) (readable : gmap bytes bool) (key : bytes) :
    gmap bytes bool * bool :=
  match readable !! key with
  | Some ok => (readable, ok)
  | None => (<[key := read key]> readable, read key)
  end.

Fixpoint ask_keys (read : bytes -> bool) (readable : gmap bytes bool) (keys : list bytes)
    (all : bool) : gmap bytes bool * bool :=
  match keys with
  | [] => (readable, all)
  | key :: keys =>
      let '(readable, ok) := ask_key read readable key in
      ask_keys read readable keys (all && ok)
  end.

Definition retain (readable : gmap bytes bool) (props : list (bytes * Value)) : list (bytes * Value) :=
  filter (fun e => default false (readable !! e.1) = true) props.

Definition visible_node (nv : NodeValue) : ST ReadMemo E (option NodeValue) := fun memo =>
  let view := match nodes memo !! labels nv with
              | Some view => view
              | None => mkView (traverse_node (labels nv)) ∅
              end in
  let put v := mkMemo (<[labels nv := v]> (nodes memo)) (relationships memo) in
  if negb (traversable view) then (put view, Ok None)
  else
    let '(readable, all) :=
      ask_keys (read_node (labels nv)) (readable view) ((properties nv).*1) true in
    let memo := put (mkView (traversable view) readable) in
    if all then (memo, Ok (Some nv))
    else (memo, Ok (Some (with_properties nv (retain readable (properties nv))))).

Definition edge_traversable (k : bytes) : ST ReadMemo E bool := fun memo =>
  match relationships memo !! k with
  | Some view => (memo, Ok (traversable view))
  | None =>
      let t := traverse_relationship k in
      (mkMemo (nodes memo) (<[k := mkView t ∅]> (relationships memo)), Ok t)
  end.

Definition redact_relationship (rv : RelationshipValue) : ST ReadMemo E RelationshipValue := fun memo =>
  match r_properties_of rv with
  | [] => (memo, Ok rv)
  | props =>
      let view := match relationships memo !! kind rv with
                  | Some view => view
                  | None => mkView (traverse_relationship (kind rv)) ∅
                  end in
      let '(readable, all) := ask_keys (read_relationship (kind rv)) (readable view) (props.*1) true in
      let memo := mkMemo (nodes memo)
        (<[kind rv := mkView (traversable view) readable]> (relationships memo)) in
      if all then (memo, Ok rv)
      else (memo, Ok (with_r_properties rv (retain readable props)))
  end.

(** The nodes at both ends of a relationship must be seen. *)
Fixpoint ends_seen (ids : list N) : ST ReadMemo E bool :=
  match ids with
  | [] => st_ret true
  | id :: ids =>
      let! found := st_lift (node_of id) in
      match found with
      | None => st_ret false
      | Some nv =>
          let! seen := visible_node nv in
          match seen with Some _ => ends_seen ids | None => st_ret false end
      end
  end.

Definition visible_relationship (rv : RelationshipValue) : ST ReadMemo E (option RelationshipValue) :=
  if negb (traverse_relationship (kind rv)) then st_ret None
  else
    let! seen := ends_seen (ends rv) in
    if seen then (let! rv := redact_relationship rv in st_ret (Some rv)) else st_ret None.

Definition visible_nodes : list NodeValue -> ST ReadMemo E (option (list NodeValue)) :=
  fix go nvs := match nvs with
  | [] => st_ret (Some [])
  | nv :: nvs =>
      let! seen := visible_node nv in
      match seen with
      | None => st_ret None
      | Some nv => let! rest := go nvs in st_ret (cons nv <$> rest)
      end
  end.

Definition visible_relationships :
    list RelationshipValue -> ST ReadMemo E (option (list RelationshipValue)) :=
  fix go rvs := match rvs with
  | [] => st_ret (Some [])
  | rv :: rvs =>
      let! seen := visible_relationship rv in
      match seen with
      | None => st_ret None
      | Some rv => let! rest := go rvs in st_ret (cons rv <$> rest)
      end
  end.

(** The loops over the members of a list and of a map, given the filter. *)
Definition visible_items (visible : Value -> ST ReadMemo E (option Value)) :
    list Value -> ST ReadMemo E (list Value) :=
  fix go items := match items with
  | [] => st_ret []
  | item :: items =>
      let! seen := visible item in
      let! rest := go items in
      st_ret (match seen with Some item => item :: rest | None => rest end)
  end.

Definition visible_entries (visible : Value -> ST ReadMemo E (option Value)) :
    list (bytes * Value) -> ST ReadMemo E (list (bytes * Value)) :=
  fix go m := match m with
  | [] => st_ret []
  | (k, item) :: m =>
      let! seen := visible item in
      let! rest := go m in
      st_ret ((k, default VNull seen) :: rest)
  end.

Fixpoint visible_value (v : Value) : ST ReadMemo E (option Value) :=
  match v with
  | VNode nv => let! seen := visible_node nv in st_ret (VNode <$> seen)
  | VRelationship rv => let! seen := visible_relationship rv in st_ret (VRelationship <$> seen)
  | VPath ns rs =>
      let! ns := visible_nodes ns in
      match ns with
      | None => st_ret None
      | Some ns =>
          let! rs := visible_relationships rs in
          match rs with None => st_ret None | Some rs => st_ret (Some (VPath ns rs)) end
      end
  | VList items => let! out := visible_items visible_value items in st_ret (Some (VList out))
  | VMap m => let! out := visible_entries visible_value m in st_ret (Some (VMap out))
  | other => st_ret (Some other)
  end.

(** [visible_rows]: a row that holds something hidden is dropped, its later
    cells unread. *)
Fixpoint visible_row (row : list Value) : ST ReadMemo E (option (list Value)) :=
  match row with
  | [] => st_ret (Some [])
  | v :: row =>
      let! seen := visible_value v in
      match seen with
      | None => st_ret None
      | Some v => let! rest := visible_row row in st_ret (cons v <$> rest)
      end
  end.

Fixpoint visible_rows (rows : list (list Value)) : ST ReadMemo E (list (list Value)) :=
  match rows with
  | [] => st_ret []
  | row :: rows =>
      let! kept := visible_row row in
      let! rest := visible_rows rows in
      st_ret (match kept with Some row => row :: rest | None => rest end)
  end.

(** Without a restriction, or with a context that reads everything, the
    executor has no filter. *)
Definition shown_rows (restricted : bool) (rows : list (list Value)) : ST ReadMemo E (list (list Value)) :=
  if restricted then visible_rows rows else st_ret rows.

(** ** The reference view, without a memo *)
Definition see_node (nv : NodeValue) : option NodeValue :=
  if traverse_node (labels nv)
  then Some (with_properties nv (filter (fun e => read_node (labels nv) e.1 = true) (properties nv)))
  else None.

Definition redact (rv : RelationshipValue) : RelationshipValue :=
  with_r_properties rv (filter (fun e => read_relationship (kind rv) e.1 = true) (r_properties_of rv)).

Fixpoint see_ends (ids : list N) : result E bool :=
  match ids with
  | [] => Ok true
  | id :: ids => found ← node_of id;
      match mbind (M:=option) see_node found with Some _ => see_ends ids | None => Ok false end
  end.

Definition see_relationship (rv : RelationshipValue) : result E (option RelationshipValue) :=
  if traverse_relationship (kind rv) then
    seen ← see_ends (ends rv); Ok (if seen : bool then Some (redact rv) else None)
  else Ok None.

Fixpoint see_relationships (rvs : list RelationshipValue) : result E (option (list RelationshipValue)) :=
  match rvs with
  | [] => Ok (Some [])
  | rv :: rvs => seen ← see_relationship rv;
      match seen with
      | None => Ok None
      | Some rv => rest ← see_relationships rvs; Ok (option_map (cons rv) rest)
      end
  end.

Definition see_items (see : Value -> result E (option Value)) : list Value -> result E (list Value) :=
  fix go items := match items with
  | [] => Ok []
  | item :: items => seen ← see item; rest ← go items;
      Ok (match seen with Some item => item :: rest | None => rest end)
  end.

Definition see_entries (see : Value -> result E (option Value)) :
    list (bytes * Value) -> result E (list (bytes * Value)) :=
  fix go m := match m with
  | [] => Ok []
  | (k, item) :: m => seen ← see item; rest ← go m; Ok ((k, default VNull seen) :: rest)
  end.

Fixpoint see (v : Value) : result E (option Value) :=
  match v with
  | VNode nv => Ok (VNode <$> see_node nv)
  | VRelationship rv => seen ← see_relationship rv; Ok (option_map VRelationship seen)
  | VPath ns rs =>
      match mapM see_node ns with
      | None => Ok None
      | Some ns => rs ← see_relationships rs; Ok (option_map (VPath ns) rs)
      end
  | VList items => out ← see_items see items; Ok (Some (VList out))
  | VMap m => out ← see_entries see m; Ok (Some (VMap out))
  | other => Ok (Some other)
  end.

Fixpoint see_row (row : list Value) : result E (option (list Value)) :=
  match row with
  | [] => Ok (Some [])
  | v :: row => seen ← see v;
      match seen with
      | None => Ok None
      | Some v => rest ← see_row row; Ok (option_map (cons v) rest)
      end
  end.

Fixpoint see_rows (rows : list (list Value)) : result E (list (list Value)) :=
  match rows with
  | [] => Ok []
  | row :: rows => kept ← see_row row; rest ← see_rows rows;
      Ok (match kept with Some row => row :: rest | None => rest end)
  end.

(** ** The memo is transparent *)
Definition view_ok (t : bool) (read : bytes -> bool) (v : ElementView) : Prop :=
  traversable v = t /\ forall k b, readable v !! k = Some b -> b = read k.

Definition memo_ok (memo : ReadMemo) : Prop :=
  (forall ls v, nodes memo !! ls = Some v -> view_ok (traverse_node ls) (read_node ls) v) /\
  (forall k v, relationships memo !! k = Some v ->
    view_ok (traverse_relationship k) (read_relationship k) v).

Definition computes {A} (m : ST ReadMemo E A) (r : result E A) : Prop :=
  forall memo, memo_ok memo -> memo_ok (m memo).1 /\ (m memo).2 = r.

Lemma computes_ret {A} (a : A) : computes (st_ret a) (Ok a).
Proof using Type. by intros memo H. Qed.

Lemma computes_lift {A} (r : result E A) : computes (st_lift r) r.
Proof using Type. by intros memo H. Qed.

Lemma computes_bind {A B} (m : ST ReadMemo E A) (f : A -> ST ReadMemo E B) r (g : A -> result E B) :
  computes m r -> (forall a, computes (f a) (g a)) -> computes (st_bind m f) (r ≫= g).
Proof using Type.
  intros Hm Hf memo H. destruct (Hm memo H) as [H' Hr]. unfold st_bind.
  destruct (m memo) as [memo' [a|e]]; simpl in *; subst r; simpl; [by apply Hf|done].
Qed.

Lemma ask_keys_ok read readable keys all : (forall k b, readable !! k = Some b -> b = read k) ->
  let '(readable', all') := ask_keys read readable keys all in
  (forall k b, readable' !! k = Some b -> b = read k) /\
  (forall k, k ∈ keys -> readable' !! k = Some (read k)) /\
  (forall k b, readable !! k = Some b -> readable' !! k = Some b) /\
  all' = all && forallb read keys.
Proof using Type.
  revert readable all. induction keys as [|key keys IH]; intros rd all Hr; simpl.
  { split_and!; [done|by intros ? ?%elem_of_nil|done|by rewrite andb_true_r]. }
  assert (Hk : let '(rd', ok) := ask_key read rd key in ok = read key /\ rd' !! key = Some (read key) /\
  (forall k b, rd' !! k = Some b -> b = read k) /\ (forall k b, rd !! k = Some b -> rd' !! k = Some b)).
  { unfold ask_key. destruct (rd !! key) as [ok|] eqn:Hl.
    - pose proof (Hr _ _ Hl). subst ok. done.
    - split_and!; [done|by rewrite lookup_insert_eq| |].
      + intros k b. rewrite lookup_insert. case_decide; [by intros [= <-]; subst|apply Hr].
      + intros k b Hb. rewrite lookup_insert_ne; [done|congruence]. }
  destruct (ask_key read rd key) as [rd' ok]. destruct Hk as (-> & Hkey & Hr' & Hkeep).
  specialize (IH rd' (all && read key) Hr'). destruct (ask_keys read rd' keys _) as [rd'' all''].
  destruct IH as (H1 & H2 & H3 & ->). split_and!; [done| |by auto|by rewrite andb_assoc].
  intros k [->|?]%elem_of_cons; auto.
Qed.

Lemma retain_exact read readable props : (forall k, k ∈ props.*1 -> readable !! k = Some (read k)) ->
  retain readable props = filter (fun e => read e.1 = true) props.
Proof using Type.
  intros H. unfold retain.
  induction props as [|e props IH]; [done|]. rewrite !filter_cons, (H e.1) by (simpl; by left).
  simpl. rewrite IH by (intros; apply H; simpl; by right). done.
Qed.

Lemma retain_all read (props : list (bytes * Value)) : forallb read props.*1 = true ->
  filter (fun e => read e.1 = true) props = props.
Proof using Type.
  induction props as [|e props IH]; simpl; [done|]. intros [He Hp]%andb_true_iff.
  rewrite filter_cons, decide_True by done. by rewrite IH.
Qed.

Lemma view_of {K} `{Countable K} (views : gmap K ElementView) k t read :
  (forall v, views !! k = Some v -> view_ok t read v) ->
  view_ok t read (match views !! k with Some v => v | None => mkView t ∅ end).
Proof using Type. intros Hv. destruct (views !! k); [by apply Hv|]. split; [done|]. intros k' b; simpl; by rewrite lookup_empty. Qed.

Lemma memo_node memo ls v : memo_ok memo -> view_ok (traverse_node ls) (read_node ls) v ->
  memo_ok (mkMemo (<[ls := v]> (nodes memo)) (relationships memo)).
Proof using Type.
  intros [Hn Hr] Hv. split; simpl; [|done]. intros ls' v'. rewrite lookup_insert.
  case_decide; [subst; by intros [= <-]|apply Hn].
Qed.

Lemma memo_relationship memo k v : memo_ok memo ->
  view_ok (traverse_relationship k) (read_relationship k) v ->
  memo_ok (mkMemo (nodes memo) (<[k := v]> (relationships memo))).
Proof using Type.
  intros [Hn Hr] Hv. split; simpl; [done|]. intros k' v'. rewrite lookup_insert.
  case_decide; [subst; by intros [= <-]|apply Hr].
Qed.

(** Asking about every key of a property map, then keeping it whole or
    redacted, is keeping the readable keys. *)
Lemma ask_and_retain t read view props : view_ok t read view ->
  let '(rd, all) := ask_keys read (readable view) (props.*1) true in
  view_ok t read (mkView (traversable view) rd) /\
  (if all then props else retain rd props) = filter (fun e => read e.1 = true) props.
Proof using Type.
  intros [Ht Hr]. pose proof (ask_keys_ok read (readable view) (props.*1) true Hr) as H.
  destruct ask_keys as [rd all]. destruct H as (H1 & H2 & _ & Hall). split; [by split|].
  destruct all; [symmetry; by apply retain_all|by apply retain_exact].
Qed.

Lemma same_properties nv : with_properties nv (properties nv) = nv.
Proof using Type. by destruct nv. Qed.
Lemma same_r_properties rv : with_r_properties rv (r_properties_of rv) = rv.
Proof using Type. by destruct rv. Qed.

Lemma visible_node_ok nv : computes (visible_node nv) (Ok (see_node nv)).
Proof using Type.
  intros memo H. unfold visible_node, see_node.
  pose proof (view_of (nodes memo) (labels nv) _ _ (proj1 H (labels nv))) as Hv.
  set (view := match nodes memo !! labels nv with Some v => v | None => _ end) in *.
  destruct Hv as [Ht Hr]. rewrite <- Ht. destruct (traversable view) eqn:Hview; simpl.
  - pose proof (ask_and_retain _ _ view (properties nv) (conj (eq_trans Hview Ht) Hr)) as Ha.
    destruct ask_keys as [rd all]. destruct Ha as [Hok Hkeep]. rewrite Hview in Hok.
    split; [destruct all; by apply memo_node|]. rewrite <- Hkeep.
    destruct all; simpl; by rewrite ?same_properties.
  - split; [|done]. apply memo_node; [done|]. split; [congruence|done].
Qed.

Lemma redact_ok rv : computes (redact_relationship rv) (Ok (redact rv)).
Proof using Type.
  intros memo H. unfold redact_relationship, redact.
  destruct (r_properties_of rv) as [|e props] eqn:Hp.
  { split; [done|]. destruct rv. simpl in *. by subst. }
  pose proof (view_of (relationships memo) (kind rv) _ _ (proj2 H (kind rv))) as Hv.
  set (view := match relationships memo !! kind rv with Some v => v | None => _ end) in *.
  pose proof (ask_and_retain _ _ view (e :: props) Hv) as Ha.
  destruct ask_keys as [rd all]. destruct Ha as [Hok Hkeep].
  split; [destruct all; by apply memo_relationship|]. rewrite <- Hkeep.
  destruct all; simpl; [|done]. by rewrite <- Hp, same_r_properties.
Qed.

Lemma edge_traversable_ok k : computes (edge_traversable k) (Ok (traverse_relationship k)).
Proof using Type.
  intros memo H. unfold edge_traversable. destruct (relationships memo !! k) as [v|] eqn:Hk.
  - split; [done|]. simpl. f_equal. by apply (proj2 H).
  - split; [|done]. apply memo_relationship; [done|]. split; [done|]. intros k' b; simpl; by rewrite lookup_empty.
Qed.

Lemma ends_seen_ok ids : computes (ends_seen ids) (see_ends ids).
Proof using Type.
  induction ids as [|id ids IH]; simpl; [apply computes_ret|].
  apply computes_bind; [apply computes_lift|]. intros [nv|]; simpl; [|apply computes_ret].
  apply (computes_bind _ _ (Ok (see_node nv)) (fun seen : option NodeValue =>
    match seen with Some _ => see_ends ids | None => Ok false end)); [apply visible_node_ok|].
  intros [nv'|]; [done|apply computes_ret].
Qed.

Lemma visible_relationship_ok rv : computes (visible_relationship rv) (see_relationship rv).
Proof using Type.
  unfold visible_relationship, see_relationship. destruct traverse_relationship; simpl; [|apply computes_ret].
  apply computes_bind; [apply ends_seen_ok|]. intros []; [|apply computes_ret].
  apply (computes_bind _ _ (Ok (redact rv)) (fun rv => Ok (Some rv))); [apply redact_ok|].
  intros. apply computes_ret.
Qed.

Lemma visible_nodes_ok nvs : computes (visible_nodes nvs) (Ok (mapM see_node nvs)).
Proof using Type.
  induction nvs as [|nv nvs IH]; simpl; [apply computes_ret|].
  apply (computes_bind _ _ (Ok (see_node nv)) (fun seen => Ok (mbind (M:=option)
    (fun nv => rest ← mapM see_node nvs; mret (nv :: rest)) seen))); [apply visible_node_ok|].
  intros [nv'|]; [|apply computes_ret].
  apply (computes_bind _ _ (Ok (mapM see_node nvs)) (fun rest => Ok (option_map (cons nv') rest))); [done|].
  intros [rest|]; apply computes_ret.
Qed.

Lemma visible_relationships_ok rvs : computes (visible_relationships rvs) (see_relationships rvs).
Proof using Type.
  induction rvs as [|rv rvs IH]; simpl; [apply computes_ret|].
  apply computes_bind; [apply visible_relationship_ok|]. intros [rv'|]; [|apply computes_ret].
  apply computes_bind; [done|]. intros rest. apply computes_ret.
Qed.

(** Induction that reaches the values inside lists and maps. *)
Lemma Value_nested (P : Value -> Prop) :
  P VNull -> (forall b, P (VBool b)) -> (forall i, P (VInteger i)) -> (forall b, P (VFloat b)) ->
  (forall s, P (VString s)) -> (forall l, Forall P l -> P (VList l)) ->
  (forall m, Forall (fun e => P e.2) m -> P (VMap m)) ->
  (forall nv, P (VNode nv)) -> (forall rv, P (VRelationship rv)) -> (forall ns rs, P (VPath ns rs)) ->
  forall v, P v.
Proof using Type.
  intros H1 H2 H3 H4 H5 H6 H7 H8 H9 H10. fix IH 1. intros [| | | | |l|m| | |];
    [exact H1|apply H2|apply H3|apply H4|apply H5|apply H6|apply H7|apply H8|apply H9|apply H10].
  - induction l as [|v l IHl]; constructor; [apply IH|exact IHl].
  - induction m as [|[k v] m IHm]; constructor; [apply IH|exact IHm].
Qed.

Lemma visible_value_ok v : computes (visible_value v) (see v).
Proof using Type.
  induction v as [ | | | | |l IH|m IH|nv|rv|ns rs] using Value_nested; simpl; try apply computes_ret.
  - apply computes_bind; [|intros; apply computes_ret].
    induction IH as [|v l Hv _ IHl]; simpl; [apply computes_ret|].
    apply computes_bind; [done|]. intros seen. apply computes_bind; [done|]. intros. apply computes_ret.
  - apply computes_bind; [|intros; apply computes_ret].
    induction IH as [|[k v] m Hv _ IHm]; simpl in *; [apply computes_ret|].
    apply computes_bind; [done|]. intros seen. apply computes_bind; [done|]. intros. apply computes_ret.
  - apply (computes_bind _ _ (Ok (see_node nv)) (fun seen => Ok (option_map VNode seen)));
      [apply visible_node_ok|intros; apply computes_ret].
  - apply computes_bind; [apply visible_relationship_ok|intros; apply computes_ret].
  - apply (computes_bind _ _ (Ok (mapM see_node ns)) (fun ns => match ns with
      | None => Ok None
      | Some ns => rs ← see_relationships rs; Ok (option_map (VPath ns) rs) end)); [apply visible_nodes_ok|].
    intros [ns'|]; [|apply computes_ret]. apply computes_bind; [apply visible_relationships_ok|].
    intros [rs'|]; apply computes_ret.
Qed.

Lemma visible_row_ok row : computes (visible_row row) (see_row row).
Proof using Type.
  induction row as [|v row IH]; simpl; [apply computes_ret|].
  apply computes_bind; [apply visible_value_ok|]. intros [v'|]; [|apply computes_ret].
  apply computes_bind; [done|]. intros rest. apply computes_ret.
Qed.

Lemma visible_rows_ok rows : computes (visible_rows rows) (see_rows rows).
Proof using Type.
  induction rows as [|row rows IH]; simpl; [apply computes_ret|].
  apply computes_bind; [apply visible_row_ok|]. intros kept.
  apply computes_bind; [done|]. intros. apply computes_ret.
Qed.

(** ** What may be seen *)
Definition node_permitted (nv : NodeValue) : Prop :=
  traverse_node (labels nv) = true /\
  Forall (fun e => read_node (labels nv) e.1 = true) (properties nv).

Definition end_permitted (id : N) : Prop :=
  exists nv, node_of id = Ok (Some nv) /\ traverse_node (labels nv) = true.

Definition relationship_permitted (rv : RelationshipValue) : Prop :=
  traverse_relationship (kind rv) = true /\
  Forall (fun e => read_relationship (kind rv) e.1 = true) (r_properties_of rv) /\
  Forall end_permitted (ends rv).

Fixpoint permitted (v : Value) : Prop :=
  match v with
  | VNode nv => node_permitted nv
  | VRelationship rv => relationship_permitted rv
  | VPath ns rs => Forall node_permitted ns /\ Forall relationship_permitted rs
  | VList items => foldr (fun v P => permitted v /\ P) True items
  | VMap m => foldr (fun e P => permitted e.2 /\ P) True m
  | _ => True
  end.

Lemma filter_all {A} (P : A -> Prop) `{!forall x, base.Decision (P x)} l : Forall P (filter P l).
Proof using Type. apply Forall_forall. by intros x [? _]%list_elem_of_filter. Qed.

Lemma filter_id {A} (P : A -> Prop) `{!forall x, base.Decision (P x)} l : Forall P l -> filter P l = l.
Proof using Type. induction 1 as [|x l Hx _ IH]; [done|]. by rewrite filter_cons_True, IH. Qed.

Lemma see_node_permitted nv nv' : see_node nv = Some nv' -> node_permitted nv'.
Proof using Type.
  unfold see_node. destruct (traverse_node (labels nv)) eqn:Ht; [|done]. intros [= <-].
  destruct nv. split; [done|]. apply filter_all.
Qed.

Lemma permitted_see_node nv : node_permitted nv -> see_node nv = Some nv.
Proof using Type.
  intros [Ht Hp]. unfold see_node. by rewrite Ht, filter_id, same_properties.
Qed.

Lemma see_ends_spec ids : see_ends ids = Ok true <-> Forall end_permitted ids.
Proof using Type.
  induction ids as [|id ids IH]; simpl; [by split|]. rewrite Forall_cons, <- IH. unfold end_permitted.
  destruct (node_of id) as [[nv|]|e]; simpl.
  - unfold see_node. destruct (traverse_node (labels nv)) eqn:Ht; simpl; [naive_solver|].
    split; [done|]. intros [(nv' & [= <-] & Ht') _]. congruence.
  - split; [done|]. by intros [(nv' & ? & _) _].
  - split; [done|]. by intros [(nv' & ? & _) _].
Qed.

Lemma see_relationship_permitted rv rv' : see_relationship rv = Ok (Some rv') -> relationship_permitted rv'.
Proof using Type.
  unfold see_relationship. destruct (traverse_relationship (kind rv)) eqn:Ht; [|done].
  destruct (see_ends (ends rv)) as [[|]|e] eqn:He; simpl; [|done..]. intros [= <-].
  apply see_ends_spec in He. destruct rv. split_and!; [done| |done]. apply filter_all.
Qed.

Lemma permitted_see_relationship rv : relationship_permitted rv -> see_relationship rv = Ok (Some rv).
Proof using Type.
  intros (Ht & Hp & He%see_ends_spec). unfold see_relationship, redact.
  by rewrite Ht, He, filter_id, same_r_properties.
Qed.

Lemma see_relationships_permitted rvs rvs' : see_relationships rvs = Ok (Some rvs') ->
  Forall relationship_permitted rvs'.
Proof using Type.
  revert rvs'. induction rvs as [|rv rvs IH]; intros rvs'; simpl; [by intros [= <-]|].
  destruct (see_relationship rv) as [[rv'|]|e] eqn:Hr; simpl; [|done..].
  destruct (see_relationships rvs) as [[rest|]|e]; simpl; [|done..]. intros [= <-].
  constructor; [by eapply see_relationship_permitted|by apply IH].
Qed.

Lemma permitted_see_relationships rvs : Forall relationship_permitted rvs ->
  see_relationships rvs = Ok (Some rvs).
Proof using Type.
  induction 1 as [|rv rvs Hr _ IH]; simpl; [done|].
  by rewrite permitted_see_relationship; simpl; rewrite ?IH.
Qed.

Lemma mapM_see_permitted nvs nvs' : mapM see_node nvs = Some nvs' -> Forall node_permitted nvs'.
Proof using Type.
  intros H%mapM_Some. induction H as [|nv nv' nvs nvs' Hn _ IH]; constructor; [|done].
  by eapply see_node_permitted.
Qed.

Lemma permitted_mapM_see nvs : Forall node_permitted nvs -> mapM see_node nvs = Some nvs.
Proof using Type.
  intros H. apply mapM_Some. induction H; constructor; [by apply permitted_see_node|done].
Qed.

Lemma see_permitted v v' : see v = Ok (Some v') -> permitted v'.
Proof using Type.
  revert v'. induction v as [ | | | | |l IH|m IH|nv|rv|ns rs] using Value_nested; intros v' H; simpl in H;
    try (injection H as <-; exact I).
  - destruct (see_items see l) as [out|] eqn:Ho; simpl in H; [|done]. injection H as <-. simpl.
    revert out Ho. induction IH as [|v l Hv _ IHl]; simpl; intros out Ho; [by injection Ho as <-|].
    destruct (see v) as [seen|] eqn:Hs; simpl in Ho; [|done].
    destruct (see_items see l) as [rest|]; simpl in Ho; [|done].
    injection Ho as <-. specialize (IHl rest eq_refl). destruct seen as [w|]; simpl; [|done].
    split; [by apply Hv|done].
  - destruct (see_entries see m) as [out|] eqn:Ho; simpl in H; [|done]. injection H as <-. simpl.
    revert out Ho. induction IH as [|[k v] m Hv _ IHm]; simpl; intros out Ho; [by injection Ho as <-|].
    simpl in Hv. destruct (see v) as [seen|] eqn:Hs; simpl in Ho; [|done].
    destruct (see_entries see m) as [rest|]; simpl in Ho; [|done].
    injection Ho as <-. simpl. split; [|by apply IHm]. destruct seen as [w|]; [by apply Hv|exact I].
  - destruct (see_node nv) as [nv'|] eqn:Hn; [|done]. injection H as <-. by eapply see_node_permitted.
  - destruct (see_relationship rv) as [[rv'|]|] eqn:Hr; simpl in H; [|done..]. injection H as <-.
    by eapply see_relationship_permitted.
  - destruct (mapM see_node ns) as [ns'|] eqn:Hn; simpl in H; [|done].
    destruct (see_relationships rs) as [[rs'|]|] eqn:Hr; simpl in H; [|done..]. injection H as <-.
    split; [by eapply mapM_see_permitted|by eapply see_relationships_permitted].
Qed.

Lemma permitted_see v : permitted v -> see v = Ok (Some v).
Proof using Type.
  induction v as [ | | | | |l IH|m IH|nv|rv|ns rs] using Value_nested; simpl; intros H; try done.
  - assert (see_items see l = Ok l) as ->; [|done].
    induction IH as [|v l Hv _ IHl]; simpl in *; [done|]. destruct H as [Hp H].
    rewrite (Hv Hp). simpl. by rewrite (IHl H).
  - assert (see_entries see m = Ok m) as ->; [|done].
    induction IH as [|[k v] m Hv _ IHm]; simpl in *; [done|]. destruct H as [Hp H].
    rewrite (Hv Hp). simpl. by rewrite (IHm H).
  - by rewrite permitted_see_node.
  - by rewrite permitted_see_relationship.
  - destruct H as [Hn Hr]. by rewrite permitted_mapM_see, permitted_see_relationships.
Qed.

Lemma see_row_permitted row row' : see_row row = Ok (Some row') -> Forall permitted row'.
Proof using Type.
  revert row'. induction row as [|v row IH]; intros row'; simpl; [by intros [= <-]|].
  destruct (see v) as [[v'|]|] eqn:Hv; simpl; [|done..].
  destruct (see_row row) as [[rest|]|]; simpl; [|done..]. intros [= <-].
  constructor; [by eapply see_permitted|by apply IH].
Qed.

Lemma permitted_see_row row : Forall permitted row -> see_row row = Ok (Some row).
Proof using Type.
  induction 1 as [|v row Hv _ IH]; simpl; [done|]. rewrite permitted_see by done. simpl. by rewrite IH.
Qed.

Definition empty_memo : ReadMemo := mkMemo ∅ ∅.

Lemma empty_memo_ok : memo_ok empty_memo.
Proof using Type. split; intros ? ?; simpl; by rewrite lookup_empty. Qed.

(** Whatever the memo of the statement remembers already, the filter computes
    the reference view of every row: remembering answers changes none, and the
    only failures are the engine's. *)
Theorem filter_exact rows memo : memo_ok memo ->
  (visible_rows rows memo).2 = see_rows rows /\ memo_ok (visible_rows rows memo).1.
Proof using Type. intros H. destruct (visible_rows_ok rows memo H). done. Qed.

(** C31: What the filter lets through holds no node or relationship the user may
    not traverse, none of whose ends is hidden, and no property the user may
    not read, however deep in lists, maps and paths. *)
Theorem nothing_hidden_shown rows memo out : memo_ok memo ->
  (visible_rows rows memo).2 = Ok out -> Forall (Forall permitted) out.
Proof using Type.
  intros H Ho. destruct (visible_rows_ok rows memo H) as [_ Hs]. rewrite Hs in Ho. clear - Ho.
  revert out Ho. induction rows as [|row rows IH]; intros out; simpl; [by intros [= <-]|].
  destruct (see_row row) as [kept|] eqn:Hr; simpl; [|done].
  destruct (see_rows rows) as [rest|]; simpl; [|done]. intros [= <-].
  specialize (IH rest eq_refl). destruct kept as [row'|]; [|done].
  constructor; [by eapply see_row_permitted|done].
Qed.

(** Rows the user may see wholly pass unchanged: the filter hides nothing
    more. *)
Theorem permitted_unchanged rows memo : memo_ok memo -> Forall (Forall permitted) rows ->
  (visible_rows rows memo).2 = Ok rows.
Proof using Type.
  intros H Hp. destruct (visible_rows_ok rows memo H) as [_ ->].
  induction Hp as [|row rows Hr _ IH]; simpl; [done|].
  rewrite permitted_see_row by done. simpl. by rewrite IH.
Qed.
End filter.

(** ** The answers of a security context *)
Section context.
Context {E : Type} (node_of : N -> result E (option NodeValue)).

Definition answer (held : list (Access * Privilege)) (home db : bytes) (a : Action) (e : Element)
    (n : option bytes) : bool :=
  is_allowed (decide held (mkRequest a db home e n)).

(** The filter's questions, answered by the decision procedure: what the
    cached checks of a context answer for names it can tell apart. *)
Definition context_viewer (held : list (Access * Privilege)) (home db : bytes) : Viewer E := {|
  traverse_node ls := answer held home db Traverse (ENode ls) None;
  read_node ls key := answer held home db Read (ENode ls) (Some key);
  traverse_relationship k := answer held home db Traverse (ERelationship k) None;
  read_relationship k key := answer held home db Read (ERelationship k) (Some key);
  ReadFilter.node_of := node_of;
|}.

(** Nothing is hidden from anyone; only dangling relationships are dropped. *)
Definition open_viewer : Viewer E := {|
  traverse_node _ := true; read_node _ _ := true;
  traverse_relationship _ := true; read_relationship _ _ := true;
  ReadFilter.node_of := node_of;
|}.

(** Every relationship of the value joins two nodes of the engine. *)
Definition wired (v : Value) : Prop := permitted (Viewer0 := open_viewer) v.

Lemma reads_all_answer held home db c a e n : graph_wide held -> new held home = Some c ->
  reads_all c = true -> whole e <> None -> read_action a -> answer held home db a e n = true.
Proof using Type.
  intros Hw Hc Hr He Ha. unfold answer.
  by rewrite (proj1 (shortcuts_hold held home c (mkRequest a db home e n) Hw Hc) Hr He Ha).
Qed.

(** More answers permit more. *)
Lemma permitted_mono (V W : Viewer E) v :
  (forall ls, traverse_node (Viewer := V) ls = true -> traverse_node (Viewer := W) ls = true) ->
  (forall ls k, read_node (Viewer := V) ls k = true -> read_node (Viewer := W) ls k = true) ->
  (forall k, traverse_relationship (Viewer := V) k = true -> traverse_relationship (Viewer := W) k = true) ->
  (forall t k, read_relationship (Viewer := V) t k = true -> read_relationship (Viewer := W) t k = true) ->
  (forall id, ReadFilter.node_of (Viewer := V) id = ReadFilter.node_of (Viewer := W) id) ->
  permitted (Viewer0 := V) v -> permitted (Viewer0 := W) v.
Proof using Type.
  intros Htn Hrn Htr Hrr Hno.
  assert (Hn : forall nv, node_permitted (Viewer0 := V) nv -> node_permitted (Viewer0 := W) nv).
  { intros nv [Ht Hp]. split; [by apply Htn|]. eapply Forall_impl; [exact Hp|]. intros; by apply Hrn. }
  assert (Hr : forall rv, relationship_permitted (Viewer0 := V) rv -> relationship_permitted (Viewer0 := W) rv).
  { intros rv (Ht & Hp & He). split_and!; [by apply Htr| |].
    - eapply Forall_impl; [exact Hp|]. intros; by apply Hrr.
    - eapply Forall_impl; [exact He|]. intros id (nv & Hid & Hnv). exists nv. rewrite <- Hno. auto. }
  induction v as [ | | | | |l IH|m IH|nv|rv|ns rs] using Value_nested; simpl; auto.
  - induction IH as [|v l Hv _ IHl]; simpl; [done|]. intros [Hp H]. auto.
  - induction IH as [|[k v] m Hv _ IHm]; simpl in *; [done|]. intros [Hp H]. auto.
  - intros [H1 H2]. split; eapply Forall_impl; eauto.
Qed.

(** The executor runs without the filter for a context that reads everything:
    with the filter, every row without dangling relationships would have come
    out the same. *)
Theorem unfiltered_is_exact held home db c rows memo : graph_wide held ->
  new held home = Some c -> reads_all c = true -> Forall (Forall wired) rows ->
  memo_ok (Viewer0 := context_viewer held home db) memo ->
  (visible_rows (Viewer0 := context_viewer held home db) rows memo).2 = Ok rows.
Proof using Type.
  intros Hw Hc Hr Hp Hm.
  destruct (visible_rows_ok (Viewer0 := context_viewer held home db) rows memo Hm) as [_ ->].
  induction Hp as [|row rows Hrow _ IH]; simpl; [done|].
  rewrite permitted_see_row; [simpl; by rewrite IH|].
  eapply Forall_impl; [exact Hrow|]. intros v. apply permitted_mono; simpl; [..|done]; intros;
    (eapply reads_all_answer; [exact Hw|exact Hc|exact Hr|done|]); (by left) || (by right).
Qed.
End context.

(** ** A small graph *)
Definition clerks : list (Access * Privilege) :=
  [(Grant, graph Match (SNode PAll) RAllProperties);
   (Grant, graph Match (SRelationship PAll) RAllProperties);
   (Deny, graph Read (SNode (PName (lit "Person"))) (RProperty (lit "salary")));
   (Deny, graph Traverse (SNode (PName (lit "Secret"))) RAllProperties)].

Definition person (id : N) : NodeValue :=
  mkNode id [] [lit "Person"] [(lit "name", VString (lit "ann")); (lit "salary", VInteger 7)].
Definition person_seen (id : N) : NodeValue :=
  mkNode id [] [lit "Person"] [(lit "name", VString (lit "ann"))].
Definition file (id : N) : NodeValue := mkNode id [] [lit "Secret"; lit "File"] [].
Definition small_engine (id : N) : result unit (option NodeValue) :=
  Ok (if (id =? 1)%N then Some (person 1) else if (id =? 2)%N then Some (person 2)
      else if (id =? 3)%N then Some (file 3) else None).
Definition knows (id from to : N) : RelationshipValue :=
  mkRelationship id [] from to (lit "KNOWS") [(lit "since", VInteger 2020)].

#[local] Instance clerk : Viewer unit := context_viewer small_engine clerks hr hr.

Definition raw_rows : list (list Value) :=
  [[VList [VNode (person 1); VNode (file 3)]; VPath [person 1; person 2] [knows 10 1 2]];
   [VMap [(lit "k", VRelationship (knows 11 1 3))]; VNode (person 2)];
   [VRelationship (knows 11 1 3)]].
Definition shown : list (list Value) :=
  [[VList [VNode (person_seen 1)]; VPath [person_seen 1; person_seen 2] [knows 10 1 2]];
   [VMap [(lit "k", VNull)]; VNode (person_seen 2)]].

Lemma filter_exact_witness : memo_ok empty_memo /\ (visible_rows raw_rows empty_memo).2 = Ok shown /\
  (visible_rows raw_rows empty_memo).2 = see_rows raw_rows.
Proof.
  split; [exact empty_memo_ok|]. split; [vm_compute; reflexivity|].
  exact (proj1 (filter_exact raw_rows empty_memo empty_memo_ok)).
Defined.

Lemma nothing_hidden_shown_witness : Forall (Forall permitted) shown.
Proof.
  apply (nothing_hidden_shown raw_rows empty_memo shown empty_memo_ok). vm_compute. reflexivity.
Defined.

Lemma permitted_unchanged_witness : (visible_rows [[VNode (person_seen 1)]] empty_memo).2 =
  Ok [[VNode (person_seen 1)]].
Proof.
  apply (permitted_unchanged [[VNode (person_seen 1)]] empty_memo empty_memo_ok).
  constructor; [|constructor]. constructor; [|constructor]. split; [vm_compute; reflexivity|].
  constructor; [vm_compute; reflexivity|constructor].
Defined.

Lemma unfiltered_is_exact_witness :
  (visible_rows (Viewer0 := context_viewer small_engine editors hr hr) [[VRelationship (knows 11 1 3)]]
     empty_memo).2 = Ok [[VRelationship (knows 11 1 3)]].
Proof.
  apply (unfiltered_is_exact small_engine editors hr hr (compiled_of editors hr)).
  - exact editors_graph_wide.
  - reflexivity.
  - reflexivity.
  - constructor; [|constructor]. constructor; [|constructor]. split_and!.
    + reflexivity.
    + constructor; [reflexivity|constructor].
    + constructor; [exists (person 1); split; reflexivity|].
      constructor; [exists (file 3); split; reflexivity|constructor].
  - exact (empty_memo_ok (Viewer0 := context_viewer small_engine editors hr hr)).
Defined.
