(* ===== verification/AuthCatalog.v ===== *)
(** * The security catalog: stored users and roles

    [drevo-auth/src/catalog.rs] and the edits of [users.rs] and
    [users/roles.rs] that change it: each operation of the manager applies one
    of these edits to a copy of the catalog.

    The [_keeps] lemmas: every edit keeps the catalog well formed
    ([catalog_ok]): [PUBLIC] exists, every role a user holds exists and is
    never [PUBLIC], names are valid and users are stored under their own
    names. *)
From S2P Require Import Prelude WireBytes Privileges SecurityContext.
Local Open Scope list_scope.
Local Open Scope N_scope.

(** ** Privileges as keys: the derived [Ord] compares variants in declaration
    order, then their fields *)
Definition action_index (a : Action) : N :=
  match a with
  | Traverse => 0 | Read => 1 | Match => 2 | Create => 3 | Delete => 4 | SetLabel => 5
  | RemoveLabel => 6 | SetProperty => 7 | Merge => 8 | Write => 9 | AllGraph => 10
  | AccessDatabase => 11 | Start => 12 | Stop => 13 | IndexManagement => 14
  | ConstraintManagement => 15 | NameManagement => 16 | TransactionManagement => 17
  | AllDatabase => 18 | UserManagement => 19 | RoleManagement => 20 | PrivilegeManagement => 21
  | DatabaseManagement => 22 | ExecuteProcedure => 23 | ExecuteFunction => 24
  | ExecuteAdminProcedures => 25 | AllDbms => 26
  end.

Definition pattern_key (tag : N) (p : Pattern) : list bytes :=
  match p with PAll => [[tag; 0]; []] | PName n => [[tag; 1]; n] end.

Definition target_key (t : option Target) : list bytes :=
  match t with
  | None => [[0]; []] | Some TAll => [[1]; []] | Some THome => [[2]; []] | Some (TNamed n) => [[3]; n]
  end.
Definition segment_key (s : Segment) : list bytes :=
  match s with
  | SGraph => [[0]; []] | SNode p => pattern_key 1 p | SRelationship p => pattern_key 2 p
  | SDatabase => [[3]; []] | SUser p => pattern_key 4 p | SProcedure p => pattern_key 5 p
  | SFunction p => pattern_key 6 p
  end.
Definition resource_key (r : Resource) : list bytes :=
  match r with
  | RGraph => [[0]; []] | RDatabase => [[1]; []] | RAllProperties => [[2]; []]
  | RProperty n => [[3]; n] | RAllLabels => [[4]; []] | RLabel n => [[5]; n]
  end.

Record HeldPrivilege : Type := mkHeld { access : Access; privilege : Privilege }.
#[export] Instance HeldPrivilege_eq_dec : EqDecision HeldPrivilege.
Proof. solve_decision. Defined.

Definition held_key (h : HeldPrivilege) : list bytes :=
  [match access h with Grant => 0 | Deny => 1 end] :: [action_index (action (privilege h))] ::
  target_key (target (privilege h)) ++ segment_key (segment (privilege h)) ++
  resource_key (resource (privilege h)).

Fixpoint keys_compare (a b : list bytes) : comparison :=
  match a, b with
  | [], [] => Eq
  | [], _ => Lt
  | _, [] => Gt
  | x :: a, y :: b => match bytes_compare x y with Eq => keys_compare a b | c => c end
  end.
Definition held_le (a b : HeldPrivilege) : Prop := keys_compare (held_key a) (held_key b) <> Gt.
#[export] Instance held_le_dec : RelDecision held_le.
Proof. intros a b. unfold held_le. destruct keys_compare; (by right; intros []) || by left. Defined.

(** The key determines the privilege, so sets of privileges are finite maps
    over keys. *)
Definition pattern_of (tag n : bytes) : Pattern := match tag with [_; 0] => PAll | _ => PName n end.
Definition held_of (k : list bytes) : option HeldPrivilege :=
  match k with
  | [[a]; [i]; [t]; tn; s; sn; [r]; rn] =>
      act ← ALL !! N.to_nat i;
      let tgt := match t with 0 => None | 1 => Some TAll | 2 => Some THome | _ => Some (TNamed tn) end in
      let seg := match s with
        | 0 :: _ => SGraph | 1 :: _ => SNode (pattern_of s sn) | 2 :: _ => SRelationship (pattern_of s sn)
        | 3 :: _ => SDatabase | 4 :: _ => SUser (pattern_of s sn) | 5 :: _ => SProcedure (pattern_of s sn)
        | _ => SFunction (pattern_of s sn) end in
      let res := match r with
        | 0 => RGraph | 1 => RDatabase | 2 => RAllProperties | 3 => RProperty rn | 4 => RAllLabels
        | _ => RLabel rn end in
      Some (mkHeld (if a =? 0 then Grant else Deny) (mkPrivilege act tgt seg res))
  | _ => None
  end.

Lemma held_of_key h : held_of (held_key h) = Some h.
Proof.
  destruct h as [a [act t s r]]. unfold held_key. cbn [access privilege action target segment resource].
  assert (Hact : ALL !! N.to_nat (action_index act) = Some act) by (by destruct act).
  destruct t as [[]|], s as [|[]|[]| |[]|[]|[]], r; cbn -[ALL action_index]; rewrite Hact; by destruct a.
Qed.

#[export] Instance HeldPrivilege_countable : Countable HeldPrivilege :=
  inj_countable held_key held_of held_of_key.

(** ** [catalog.rs] *)
Definition FORMAT_VERSION : N := 2.

Inductive UserStatus : Type := Active | Suspended.
#[export] Instance UserStatus_eq_dec : EqDecision UserStatus.
Proof. solve_decision. Defined.

Record User : Type := mkUser {
  u_name : bytes;
  password_hash : bytes;
  status : UserStatus;
  password_change_required : bool;
  created_at_ms : Z;
  password_changed_at_ms : Z;
  u_roles : gset bytes;
}.

Record Role : Type := mkRole { privileges : gset HeldPrivilege }.
Definition role_default : Role := mkRole ∅.

Record Catalog : Type := mkCatalog {
  format_version : N;
  users : gmap bytes User;
  roles : gmap bytes Role;
}.

Definition builtin_roles : gmap bytes Role :=
  list_to_map ((fun n => (n, mkRole (list_to_set (mkHeld Grant <$> default [] (builtin_privileges n)))))
    <$> BUILTIN_ROLES).
Definition catalog_default : Catalog := mkCatalog FORMAT_VERSION ∅ builtin_roles.

Definition put_users (m : gmap bytes User) (c : Catalog) : Catalog :=
  mkCatalog (format_version c) m (roles c).
Definition put_roles (m : gmap bytes Role) (c : Catalog) : Catalog :=
  mkCatalog (format_version c) (users c) m.
Definition set_roles (r : gset bytes) (u : User) : User :=
  mkUser (u_name u) (password_hash u) (status u) (password_change_required u) (created_at_ms u)
    (password_changed_at_ms u) r.

Inductive StoreError : Type :=
| StoreIo (path message : bytes)
| StoreCorrupt (path reason : bytes)
| StoreUnsupportedVersion (found supported : N).

(** ** [ManageError] *)
Inductive ManageError : Type :=
| InvalidName (n reason : bytes)
| WeakPassword (min_length : nat)
| UserExists (n : bytes)
| UserNotFound (n : bytes)
| SamePassword
| WrongCurrentPassword
| Hash (e : bytes)
| InvalidRoleName (n reason : bytes)
| RoleExists (n : bytes)
| RoleNotFound (n : bytes)
| PublicRole (what : bytes)
| Store (e : StoreError).

(** ** Names.  [chars().count()] counts the bytes that start a character. *)
Definition MAX_NAME_LEN : nat := 65.
Definition MAX_ROLE_NAME_LEN : nat := 65.
Definition chars_count (s : bytes) : nat := length (filter (fun b => continuation b = false) s).
Definition is_alphabetic (b : N) : bool := within 65 90 b || within 97 122 b.
Definition is_alphanumeric (b : N) : bool := is_alphabetic b || within 48 57 b.

Definition validate_name (n : bytes) : result ManageError unit :=
  if bool_decide (n = []) then Err (InvalidName n (lit "it is empty"))
  else if (MAX_NAME_LEN <? chars_count n)%nat
  then Err (InvalidName n (lit "it is longer than 65 characters"))
  else if negb (forallb (fun b => is_alphanumeric b || bool_decide (b ∈ lit "_-.@")) n)
  then Err (InvalidName n (lit "only letters, digits, '_', '-', '.' and '@' are allowed"))
  else Ok tt.

Definition validate_role_name (n : bytes) : result ManageError unit :=
  if bool_decide (n = []) then Err (InvalidRoleName n (lit "it is empty"))
  else if (MAX_ROLE_NAME_LEN <? chars_count n)%nat
  then Err (InvalidRoleName n (lit "it is longer than 65 characters"))
  else if negb (match n with b :: _ => is_alphabetic b | [] => false end)
  then Err (InvalidRoleName n (lit "it must start with a letter"))
  else if negb (forallb (fun b => is_alphanumeric b || (b =? 95)) n)
  then Err (InvalidRoleName n (lit "only letters, digits and '_' are allowed"))
  else Ok tt.

Definition refuse_public (role what : bytes) : result ManageError unit :=
  if bool_decide (role = PUBLIC) then Err (PublicRole what) else Ok tt.

(** ** The edits

    The closure an operation hands to [AuthManager::change]: it changes a copy
    of the catalog and says whether there is anything to save. *)
Definition Edit : Type := Catalog -> result ManageError (Catalog * bool).

Definition create_role_edit (n : bytes) (if_not_exists : bool) (copy_of : option bytes) : Edit := fun c =>
  match roles c !! n with
  | Some _ => if if_not_exists then Ok (c, false) else Err (RoleExists n)
  | None =>
      match copy_of with
      | Some source =>
          match roles c !! source with
          | None => Err (RoleNotFound source)
          | Some role => Ok (put_roles (<[n := role]> (roles c)) c, true)
          end
      | None => Ok (put_roles (<[n := role_default]> (roles c)) c, true)
      end
  end.

Definition drop_role_edit (n : bytes) (if_exists : bool) : Edit := fun c =>
  match roles c !! n with
  | None => if if_exists then Ok (c, false) else Err (RoleNotFound n)
  | Some _ =>
      Ok (put_users ((fun u => set_roles (u_roles u ∖ {[n]}) u) <$> users c)
            (put_roles (delete n (roles c)) c), true)
  end.

Definition rename_in (from to : bytes) (u : User) : User :=
  if bool_decide (from ∈ u_roles u) then set_roles ({[to]} ∪ (u_roles u ∖ {[from]})) u else u.

Definition rename_role_edit (from to : bytes) (if_exists : bool) : Edit := fun c =>
  match roles c !! from with
  | None => if if_exists then Ok (c, false) else Err (RoleNotFound from)
  | Some role =>
      if bool_decide (is_Some (roles c !! to)) then Err (RoleExists to)
      else Ok (put_users (rename_in from to <$> users c)
                 (put_roles (<[to := role]> (delete from (roles c))) c), true)
  end.

Definition grant_role_edit (role user : bytes) : Edit := fun c =>
  match roles c !! role with
  | None => Err (RoleNotFound role)
  | Some _ =>
      match users c !! user with
      | None => Err (UserNotFound user)
      | Some u => Ok (put_users (<[user := set_roles ({[role]} ∪ u_roles u) u]> (users c)) c,
                      bool_decide (role ∉ u_roles u))
      end
  end.

Definition revoke_role_edit (role user : bytes) : Edit := fun c =>
  match users c !! user with
  | None => Err (UserNotFound user)
  | Some u => Ok (put_users (<[user := set_roles (u_roles u ∖ {[role]}) u]> (users c)) c,
                  bool_decide (role ∈ u_roles u))
  end.

(** [changed |= insert(..)] over the privileges. *)
Fixpoint insert_all (a : Access) (ps : list Privilege) (held : gset HeldPrivilege) (changed : bool) :
    gset HeldPrivilege * bool :=
  match ps with
  | [] => (held, changed)
  | p :: ps => insert_all a ps ({[mkHeld a p]} ∪ held) (changed || bool_decide (mkHeld a p ∉ held))
  end.

Definition grant_edit (a : Access) (ps : list Privilege) (role : bytes) : Edit := fun c =>
  match roles c !! role with
  | None => Err (RoleNotFound role)
  | Some r =>
      let '(held, changed) := insert_all a ps (privileges r) false in
      Ok (put_roles (<[role := mkRole held]> (roles c)) c, changed)
  end.

Definition taken (a : option Access) (ps : list Privilege) (h : HeldPrivilege) : bool :=
  bool_decide (privilege h ∈ ps) && match a with None => true | Some a => bool_decide (a = access h) end.

Definition revoke_edit (a : option Access) (ps : list Privilege) (role : bytes) : Edit := fun c =>
  match roles c !! role with
  | None => Err (RoleNotFound role)
  | Some r =>
      let kept := filter (fun h => taken a ps h = false) (privileges r) in
      Ok (put_roles (<[role := mkRole kept]> (roles c)) c,
          negb (size kept =? size (privileges r))%nat)
  end.

Definition make_admin_edit (user : bytes) : Edit := fun c =>
  match roles c !! lit "admin" with
  | None => Ok (c, false)
  | Some _ =>
      match users c !! user with
      | None => Ok (c, false)
      | Some u => Ok (put_users (<[user := set_roles ({[lit "admin"]} ∪ u_roles u) u]> (users c)) c,
                      bool_decide (lit "admin" ∉ u_roles u))
      end
  end.

(** Argon2: third-party, with its random salt as an argument. *)
Class Hasher := {
  hash_password : N -> bytes -> result bytes bytes;
  verify_password : bytes -> bytes -> bool;
}.

Record NewUser : Type := mkNewUser {
  new_name : bytes; new_password : bytes; new_change_required : bool; new_status : UserStatus;
  new_if_not_exists : bool;
}.
Record AlterUser : Type := mkAlterUser {
  alter_password : option bytes; alter_change_required : option bool; alter_status : option UserStatus;
}.

Section passwords.
Context {hasher : Hasher}.

Definition hash (salt : N) (password : bytes) : result ManageError bytes :=
  match hash_password salt password with Ok h => Ok h | Err e => Err (Hash e) end.

Definition check_policy (min_length : nat) (password : bytes) : result ManageError unit :=
  if (chars_count password <? min_length)%nat then Err (WeakPassword min_length) else Ok tt.

Definition create_user_edit (min_length : nat) (salt : N) (now : Z) (nu : NewUser) : Edit := fun c =>
  match users c !! new_name nu with
  | Some _ => if new_if_not_exists nu then Ok (c, false) else Err (UserExists (new_name nu))
  | None =>
      match check_policy min_length (new_password nu) with
      | Err e => Err e
      | Ok _ =>
          match hash salt (new_password nu) with
          | Err e => Err e
          | Ok h =>
              Ok (put_users (<[new_name nu := mkUser (new_name nu) h (new_status nu)
                    (new_change_required nu) now now ∅]> (users c)) c, true)
          end
      end
  end.

Definition set_password (h : bytes) (now : Z) (u : User) : User :=
  mkUser (u_name u) h (status u) (password_change_required u) (created_at_ms u) now (u_roles u).
Definition set_required (b : bool) (u : User) : User :=
  mkUser (u_name u) (password_hash u) (status u) b (created_at_ms u) (password_changed_at_ms u) (u_roles u).
Definition set_status (s : UserStatus) (u : User) : User :=
  mkUser (u_name u) (password_hash u) s (password_change_required u) (created_at_ms u)
    (password_changed_at_ms u) (u_roles u).

Definition alter_user_edit (min_length : nat) (salt : N) (now : Z) (n : bytes) (alter : AlterUser) : Edit := fun c =>
  match users c !! n with
  | None => Err (UserNotFound n)
  | Some u =>
      match (match alter_password alter with
             | None => Ok u
             | Some password =>
                 match check_policy min_length password with
                 | Err e => Err e
                 | Ok _ =>
                     if verify_password password (password_hash u) then Err SamePassword
                     else match hash salt password with
                          | Err e => Err e
                          | Ok h => Ok (set_password h now u)
                          end
                 end
             end) with
      | Err e => Err e
      | Ok u =>
          let u := match alter_change_required alter with Some b => set_required b u | None => u end in
          let u := match alter_status alter with Some s => set_status s u | None => u end in
          Ok (put_users (<[n := u]> (users c)) c, true)
      end
  end.

Definition drop_user_edit (n : bytes) (if_exists : bool) : Edit := fun c =>
  match users c !! n with
  | Some _ => Ok (put_users (delete n (users c)) c, true)
  | None => if if_exists then Ok (c, false) else Err (UserNotFound n)
  end.

Definition change_own_password_edit (min_length : nat) (salt : N) (now : Z) (n current new : bytes) : Edit := fun c =>
  match users c !! n with
  | None => Err WrongCurrentPassword
  | Some u =>
      if negb (verify_password current (password_hash u)) then Err WrongCurrentPassword
      else if bool_decide (new = current) then Err SamePassword
      else match check_policy min_length new with
           | Err e => Err e
           | Ok _ =>
               match hash salt new with
               | Err e => Err e
               | Ok h => Ok (put_users (<[n := set_required false (set_password h now u)]> (users c)) c, true)
               end
           end
  end.
End passwords.

(** ** The catalog invariant *)
Definition user_ok (c : Catalog) (n : bytes) (u : User) : Prop :=
  u_name u = n /\ validate_name n = Ok tt /\
  forall r, r ∈ u_roles u -> r <> PUBLIC /\ is_Some (roles c !! r).

Definition catalog_ok (c : Catalog) : Prop :=
  is_Some (roles c !! PUBLIC) /\
  (forall r, is_Some (roles c !! r) -> validate_role_name r = Ok tt) /\
  (forall n u, users c !! n = Some u -> user_ok c n u).

Definition keeps (e : Edit) : Prop := forall c c' b, catalog_ok c -> e c = Ok (c', b) -> catalog_ok c'.

(** Replacing one user by one with the same name and roles that exist. *)
Lemma put_user_ok c n u : catalog_ok c -> user_ok c n u -> catalog_ok (put_users (<[n := u]> (users c)) c).
Proof.
  intros (Hp & Hr & Hu) Hn. split_and!; try done. intros n' u'. simpl. rewrite lookup_insert.
  case_decide; [intros [= <-]; by subst|apply Hu].
Qed.

Lemma user_ok_same c n u u' : user_ok c n u -> u_name u' = u_name u -> u_roles u' = u_roles u ->
  user_ok c n u'.
Proof. intros (Hn & Hv & Hr) H1 H2. split_and!; [congruence|done|]. by rewrite H2. Qed.

Lemma user_ok_roles c n u r : user_ok c n u -> (forall x, x ∈ r -> x <> PUBLIC /\ is_Some (roles c !! x)) ->
  user_ok c n (set_roles r u).
Proof. by intros (Hn & Hv & Hr) H. Qed.

(** Giving a role that exists. *)
Lemma give_role_ok c n u r : catalog_ok c -> users c !! n = Some u -> r <> PUBLIC -> is_Some (roles c !! r) ->
  catalog_ok (put_users (<[n := set_roles ({[r]} ∪ u_roles u) u]> (users c)) c).
Proof.
  intros Hc Hu Hne Hr. apply put_user_ok; [done|]. pose proof (proj2 (proj2 Hc) _ _ Hu) as Hok.
  apply user_ok_roles; [done|]. intros x [->%elem_of_singleton|Hx]%elem_of_union; [done|].
  by apply Hok.
Qed.

(** Changing what a role holds, or adding one with a valid name. *)
Lemma put_role_ok c r role : catalog_ok c -> validate_role_name r = Ok tt ->
  catalog_ok (put_roles (<[r := role]> (roles c)) c).
Proof.
  intros (Hp & Hr & Hu) Hv. split_and!; simpl.
  - rewrite lookup_insert. by case_decide.
  - intros r'. rewrite lookup_insert. case_decide as He; [by subst|apply Hr].
  - intros n u Hn. destruct (Hu n u Hn) as (H1 & H2 & H3). split_and!; [done|done|].
    intros x Hx. destruct (H3 x Hx) as [Hx1 Hx2]. split; [done|]. simpl. rewrite lookup_insert. by case_decide.
Qed.

(** ** Every edit keeps the invariant *)
Lemma create_role_keeps n ine copy : validate_role_name n = Ok tt -> keeps (create_role_edit n ine copy).
Proof.
  intros Hv c c' b Hc. unfold create_role_edit. destruct (roles c !! n); [destruct ine; by intros [= <- _]|].
  destruct copy as [s|]; [destruct (roles c !! s); [|done]|]; intros [= <- _]; by apply put_role_ok.
Qed.

Lemma drop_role_keeps n ie : n <> PUBLIC -> keeps (drop_role_edit n ie).
Proof.
  intros Hn c c' b (Hp & Hr & Hu). unfold drop_role_edit.
  destruct (roles c !! n) as [dropped|]; [|destruct ie; by intros [= <- _]]. intros [= <- _]. split_and!; simpl.
  - by rewrite lookup_delete_ne.
  - intros r [x Hx]. apply lookup_delete_Some in Hx as [_ Hx]. by apply Hr.
  - intros m u. rewrite lookup_fmap_Some. intros (u0 & <- & Hm).
    destruct (Hu m u0 Hm) as (H1 & H2 & H3). split_and!; [done|done|].
    intros x [Hx Hne]%elem_of_difference. destruct (H3 x Hx) as [Hx1 Hx2]. split; [done|].
    simpl. rewrite lookup_delete_ne; [done|]. intros ->. by apply Hne, elem_of_singleton.
Qed.

Lemma rename_role_keeps from to ie : from <> PUBLIC -> to <> PUBLIC -> validate_role_name to = Ok tt ->
  keeps (rename_role_edit from to ie).
Proof.
  intros Hf Ht Hv c c' b (Hp & Hr & Hu). unfold rename_role_edit.
  destruct (roles c !! from) as [role|] eqn:Hfrom; [|destruct ie; by intros [= <- _]].
  case_bool_decide as Hto; [done|]. intros [= <- _].
  assert (Hlk : forall x, x <> from -> is_Some (roles c !! x) ->
      is_Some (<[to := role]> (delete from (roles c)) !! x)).
  { intros x Hx Hs. rewrite lookup_insert. case_decide; [done|]. by rewrite lookup_delete_ne. }
  split_and!; simpl.
  - apply Hlk; [congruence|done].
  - intros r. rewrite lookup_insert. case_decide as He; [by subst|].
    intros [x Hx]. apply lookup_delete_Some in Hx as [_ Hx]. by apply Hr.
  - intros m u. rewrite lookup_fmap_Some. intros (u0 & <- & Hm).
    destruct (Hu m u0 Hm) as (H1 & H2 & H3). unfold rename_in. case_bool_decide as Hin.
    + split_and!; [done|done|].
      intros x [->%elem_of_singleton|[Hx Hne]%elem_of_difference]%elem_of_union; simpl.
      * rewrite lookup_insert_eq. by eauto.
      * destruct (H3 x Hx) as [Hx1 Hx2]. split; [done|]. apply Hlk; [|done].
        intros ->. by apply Hne, elem_of_singleton.
    + split_and!; [done|done|]. intros x Hx. destruct (H3 x Hx) as [Hx1 Hx2]. split; [done|].
      apply Hlk; [|done]. by intros ->.
Qed.

Lemma grant_role_keeps role user : role <> PUBLIC -> keeps (grant_role_edit role user).
Proof.
  intros Hr c c' b Hc. unfold grant_role_edit. destruct (roles c !! role) eqn:Hl; [|done].
  destruct (users c !! user) eqn:Hu; [|done]. intros [= <- _]. apply give_role_ok; eauto.
Qed.

Lemma revoke_role_keeps role user : keeps (revoke_role_edit role user).
Proof.
  intros c c' b Hc. unfold revoke_role_edit. destruct (users c !! user) as [u|] eqn:Hu; [|done].
  intros [= <- _]. pose proof (proj2 (proj2 Hc) _ _ Hu) as Hok.
  apply put_user_ok; [done|]. apply user_ok_roles; [done|].
  intros x [Hx _]%elem_of_difference. by apply Hok.
Qed.

Lemma edit_role_ok c role r x : catalog_ok c -> roles c !! role = Some r ->
  catalog_ok (put_roles (<[role := x]> (roles c)) c).
Proof. intros Hc Hr. apply put_role_ok; [done|]. apply Hc. by eauto. Qed.

Lemma grant_keeps a ps role : keeps (grant_edit a ps role).
Proof.
  intros c c' b Hc. unfold grant_edit. destruct (roles c !! role) eqn:Hr; [|done].
  destruct insert_all. intros [= <- _]. by eapply edit_role_ok.
Qed.

Lemma revoke_keeps a ps role : keeps (revoke_edit a ps role).
Proof.
  intros c c' b Hc. unfold revoke_edit. destruct (roles c !! role) eqn:Hr; [|done].
  intros [= <- _]. by eapply edit_role_ok.
Qed.

Lemma make_admin_keeps user : keeps (make_admin_edit user).
Proof.
  intros c c' b Hc. unfold make_admin_edit. destruct (roles c !! lit "admin") eqn:Hr; [|by intros [= <- _]].
  destruct (users c !! user) eqn:Hu; [|by intros [= <- _]]. intros [= <- _].
  apply give_role_ok; [done|done|done|eauto].
Qed.

Section passwords_keep.
Context {hasher : Hasher}.

Lemma create_user_keeps min salt now nu : validate_name (new_name nu) = Ok tt ->
  keeps (create_user_edit min salt now nu).
Proof using Type.
  intros Hv c c' b Hc. unfold create_user_edit.
  destruct (users c !! new_name nu); [destruct (new_if_not_exists nu); by intros [= <- _]|].
  destruct check_policy; [|done]. destruct (hash salt _); [|done]. intros [= <- _].
  apply put_user_ok; [done|]. split_and!; [done|done|]. intros r Hr. by apply elem_of_empty in Hr.
Qed.

Lemma drop_user_keeps n ie : keeps (drop_user_edit n ie).
Proof using Type.
  intros c c' b (Hp & Hr & Hu). unfold drop_user_edit.
  destruct (users c !! n) as [dropped|]; [|destruct ie; by intros [= <- _]]. intros [= <- _]. split_and!; try done.
  intros m u. simpl. rewrite lookup_delete_Some. intros [_ Hm]. by apply Hu.
Qed.

Lemma alter_user_keeps min salt now n alter : keeps (alter_user_edit min salt now n alter).
Proof using Type.
  intros c c' b Hc. unfold alter_user_edit. destruct (users c !! n) as [u|] eqn:Hu; [|done].
  destruct (match alter_password alter with None => Ok u | Some _ => _ end) as [u'|] eqn:Hp; [|done].
  intros [= <- _]. apply put_user_ok; [done|]. pose proof (proj2 (proj2 Hc) _ _ Hu) as Hok.
  assert (Hs : u_name u' = u_name u /\ u_roles u' = u_roles u).
  { destruct (alter_password alter); [|by injection Hp as <-].
    destruct check_policy; [|done]. destruct verify_password; [done|].
    destruct hash; [|done]. by injection Hp as <-. }
  eapply user_ok_same; [exact Hok| |]; by destruct (alter_status alter), (alter_change_required alter), Hs.
Qed.

Lemma change_own_password_keeps min salt now n cur nw : keeps (change_own_password_edit min salt now n cur nw).
Proof using Type.
  intros c c' b Hc. unfold change_own_password_edit. destruct (users c !! n) as [u|] eqn:Hu; [|done].
  destruct verify_password; [|done]. simpl. case_bool_decide; [done|].
  destruct check_policy; [|done]. destruct hash; [|done]. intros [= <- _].
  apply put_user_ok; [done|]. by apply (user_ok_same c n u); [apply Hc| |].
Qed.
End passwords_keep.

Lemma catalog_default_ok : catalog_ok catalog_default.
Proof.
  split_and!.
  - eexists. vm_compute. reflexivity.
  - intros r [x Hr]. simpl in Hr. apply elem_of_list_to_map_2 in Hr.
    assert (H : Forall (fun e => validate_role_name e.1 = Ok tt)
      ((fun n => (n, mkRole (list_to_set (mkHeld Grant <$> default [] (builtin_privileges n)))))
        <$> BUILTIN_ROLES)); [|exact (proj1 (Forall_forall _ _) H _ Hr)].
    repeat constructor.
  - intros n u. simpl. by rewrite lookup_empty.
Qed.
