(* ===== verification/AuthManager.v ===== *)
(** * The auth manager: users, roles, logins and sessions

    [drevo-auth/src/users.rs] and [users/roles.rs].  The manager owns the
    catalog, saves every change before it counts, and keeps in memory the
    failed logins and the session tokens.  The clock, the random salts and
    tokens and whether a save succeeds are arguments of the operations.

    - [commands_keep_catalog], [refused_command_changes_nothing],
      [restart_keeps_catalog]: changes are checked, all or nothing, and stored;
    - [grant_effect]: a grant or deny changes the decisions of the role's users
      exactly as the new privileges say, and nobody else's;
    - [lockout_bound], [locked_out]: how often a password can be guessed;
    - [sessions_ended], [resume_exact]: which tokens still work. *)
From S2P Require Import Prelude WireBytes Privileges SecurityContext AuthCatalog.
Local Open Scope list_scope.
Local Open Scope Z_scope.

Record Failures : Type := mkFailures { count : Z; locked_until_ms : Z }.
Definition failures_default : Failures := mkFailures 0 0.

Record Session : Type := mkSession {
  number : N; s_user : bytes; s_created_ms : Z; last_used_ms : Z;
}.
(** [sort_unstable_by_key(|s| s.number)]. *)
Definition number_le (a b : Session) : Prop := (number a <= number b)%N.
#[export] Instance number_le_dec : RelDecision number_le.
Proof. intros a b. unfold number_le. apply _. Defined.

Record Principal : Type := mkPrincipal { p_name : bytes; p_change_required : bool }.

Inductive LoginError : Type :=
| InvalidCredentials | InvalidToken | LoginSuspended | Locked (retry_after_ms : Z).

(** [LockoutPolicy], [SessionPolicy] and [PasswordPolicy]; durations in
    milliseconds. *)
Record Policies : Type := mkPolicies {
  max_failed_attempts : Z; lock_for : Z; idle : Z; lifetime : Z; min_length : nat;
}.
Definition default_policies : Policies := mkPolicies 3 5000 (30 * 60 * 1000) (12 * 60 * 60 * 1000) 8.

(** [i64::try_from(duration.as_millis()).unwrap_or(i64::MAX)]. *)
Definition millis (d : Z) : Z := if bool_decide (d <= i64_max) then d else i64_max.

Record AuthManager : Type := mkManager {
  stored : option Catalog;
  catalog : Catalog;
  generation : N;
  failures : gmap bytes Failures;
  sessions : gmap bytes Session;
  next_session : N;
}.

Definition put_failures (f : gmap bytes Failures) (m : AuthManager) : AuthManager :=
  mkManager (stored m) (catalog m) (generation m) f (sessions m) (next_session m).
Definition put_sessions (s : gmap bytes Session) (m : AuthManager) : AuthManager :=
  mkManager (stored m) (catalog m) (generation m) (failures m) s (next_session m).

(** ** [open] *)
Definition upgrade (c : Catalog) : Catalog :=
  mkCatalog FORMAT_VERSION ((fun u => set_roles ({[lit "admin"]} ∪ u_roles u) u) <$> users c) (roles c).

Definition open (loaded : result StoreError (option Catalog)) (io : option StoreError) :
    result ManageError AuthManager :=
  match loaded with
  | Err e => Err (Store e)
  | Ok found =>
      let c := default catalog_default found in
      if (format_version c <? FORMAT_VERSION)%N then
        match io with
        | Some e => Err (Store e)
        | None => Ok (mkManager (Some (upgrade c)) (upgrade c) 0 ∅ ∅ 0)
        end
      else Ok (mkManager found c 0 ∅ ∅ 0)
  end.

(** ** [change]: edit a copy, save it, keep it *)
Definition change (io : option StoreError) (edit : Edit) : ST AuthManager ManageError unit := fun m =>
  match edit (catalog m) with
  | Err e => (m, Err e)
  | Ok (_, false) => (m, Ok tt)
  | Ok (next, true) =>
      match io with
      | Some e => (m, Err (Store e))
      | None =>
          (mkManager (Some next) next (generation m + 1) (failures m) (sessions m) (next_session m), Ok tt)
      end
  end.

Definition revoke_sessions_of (n : bytes) (m : AuthManager) : AuthManager :=
  put_sessions (filter (fun s => s_user s.2 <> n) (sessions m)) m.

(** What the environment gives one call: the salt, the system time, and
    whether the save fails. *)
Record Call : Type := mkCall { salt : N; now_ms : Z; io : option StoreError }.

Section manager.
Context {hasher : Hasher} (policies : Policies).

Definition create_role (w : Call) (n : bytes) (ine : bool) (copy : option bytes) :
    ST AuthManager ManageError unit :=
  let! _ := st_lift (validate_role_name n) in
  change (io w) (create_role_edit n ine copy).

Definition drop_role (w : Call) (n : bytes) (ie : bool) : ST AuthManager ManageError unit :=
  let! _ := st_lift (refuse_public n (lit "dropped")) in
  change (io w) (drop_role_edit n ie).

Definition rename_role (w : Call) (from to : bytes) (ie : bool) : ST AuthManager ManageError unit :=
  let! _ := st_lift (refuse_public from (lit "renamed")) in
  let! _ := st_lift (refuse_public to (lit "renamed")) in
  let! _ := st_lift (validate_role_name to) in
  change (io w) (rename_role_edit from to ie).

Definition grant_role (w : Call) (role user : bytes) : ST AuthManager ManageError unit :=
  let! _ := st_lift (refuse_public role (lit "granted")) in
  change (io w) (grant_role_edit role user).

Definition revoke_role (w : Call) (role user : bytes) : ST AuthManager ManageError unit :=
  let! _ := st_lift (refuse_public role (lit "revoked")) in
  change (io w) (revoke_role_edit role user).

Definition grant (w : Call) (a : Access) (ps : list Privilege) (role : bytes) :
    ST AuthManager ManageError unit :=
  change (io w) (grant_edit a ps role).

Definition revoke (w : Call) (a : option Access) (ps : list Privilege) (role : bytes) :
    ST AuthManager ManageError unit :=
  change (io w) (revoke_edit a ps role).

Definition make_admin (w : Call) (user : bytes) : ST AuthManager ManageError unit :=
  change (io w) (make_admin_edit user).

Definition create_user (w : Call) (nu : NewUser) : ST AuthManager ManageError unit :=
  let! _ := st_lift (validate_name (new_name nu)) in
  change (io w) (create_user_edit (min_length policies) (salt w) (now_ms w) nu).

Definition alter_user (w : Call) (n : bytes) (alter : AlterUser) : ST AuthManager ManageError unit :=
  let ends := bool_decide (is_Some (alter_password alter)) ||
              bool_decide (alter_status alter = Some Suspended) in
  let! _ := change (io w) (alter_user_edit (min_length policies) (salt w) (now_ms w) n alter) in
  fun m => ((if ends then revoke_sessions_of n m else m), Ok tt).

Definition drop_user (w : Call) (n : bytes) (ie : bool) : ST AuthManager ManageError unit :=
  let! _ := change (io w) (drop_user_edit n ie) in
  fun m => let m := revoke_sessions_of n m in (put_failures (delete n (failures m)) m, Ok tt).

Definition change_own_password (w : Call) (n current new : bytes) : ST AuthManager ManageError unit :=
  let! _ := change (io w) (change_own_password_edit (min_length policies) (salt w) (now_ms w) n current new) in
  fun m => (revoke_sessions_of n m, Ok tt).

(** ** [bootstrap] *)
Inductive Bootstrap : Type := Disabled | Generated | Admin (user password : bytes).
Inductive BootstrapOutcome : Type :=
| BDisabled | AlreadyInitialised | BCreated | BGenerated (user password : bytes).

(** Each call of the manager has its own save: [w] for the user, [w'] for the
    role; [generated] is the random password. *)
Definition bootstrap (w w' : Call) (generated : bytes) (spec : Bootstrap) :
    ST AuthManager ManageError BootstrapOutcome := fun m =>
  match spec with
  | Disabled => (m, Ok BDisabled)
  | _ =>
      if bool_decide (users (catalog m) <> ∅) then (m, Ok AlreadyInitialised)
      else
        match spec with
        | Admin user password =>
            (let! _ := create_user w (mkNewUser user password false Active false) in
             let! _ := make_admin w' user in
             st_ret BCreated) m
        | _ =>
            (let! _ := create_user w (mkNewUser (lit "neo4j") generated true Active false) in
             let! _ := make_admin w' (lit "neo4j") in
             st_ret (BGenerated (lit "neo4j") generated)) m
        end
  end.

(** ** Logging in

    The lock of the catalog is given up while the password is hashed:
    [login_begin] is what happens before, [login_finish] what happens after,
    with the user as it was read. *)
Definition login_begin (now : Z) (n : bytes) (m : AuthManager) : result LoginError User :=
  let refused := match failures m !! n with
                 | Some f => if bool_decide (now < locked_until_ms f)
                             then Some (Locked (locked_until_ms f - now)) else None
                 | None => None
                 end in
  match refused with
  | Some e => Err e
  | None => ok_or InvalidCredentials (users (catalog m) !! n)
  end.

Definition record_failure (n : bytes) (now : Z) (m : AuthManager) : AuthManager :=
  if bool_decide (max_failed_attempts policies = 0) then m
  else
    let f := default failures_default (failures m !! n) in
    let c := count f + 1 in
    let f := if bool_decide (max_failed_attempts policies <= c)
             then mkFailures 0 (sat_i64 (now + millis (lock_for policies)))
             else mkFailures c (locked_until_ms f) in
    put_failures (<[n := f]> (failures m)) m.

Definition login_finish (now : Z) (n password : bytes) (u : User) (m : AuthManager) :
    AuthManager * result LoginError Principal :=
  if negb (verify_password password (password_hash u))
  then (record_failure n now m, Err InvalidCredentials)
  else
    let m := put_failures (delete n (failures m)) m in
    if bool_decide (status u = Suspended) then (m, Err LoginSuspended)
    else (m, Ok (mkPrincipal (u_name u) (password_change_required u))).

Definition login (now : Z) (n password : bytes) (m : AuthManager) :
    AuthManager * result LoginError Principal :=
  match login_begin now n m with
  | Err e => (m, Err e)
  | Ok u => login_finish now n password u m
  end.

(** ** Session tokens *)
Definition expired (now : Z) (s : Session) : bool :=
  bool_decide (millis (idle policies) < now - last_used_ms s) ||
  bool_decide (millis (lifetime policies) < now - s_created_ms s).

Definition resume (now : Z) (token : bytes) (m : AuthManager) : AuthManager * result LoginError Principal :=
  match sessions m !! token with
  | None => (m, Err InvalidToken)
  | Some s =>
      let drop := (put_sessions (delete token (sessions m)) m, Err InvalidToken) in
      match users (catalog m) !! s_user s with
      | Some u =>
          if negb (expired now s) && bool_decide (status u = Active)
          then (put_sessions (<[token := mkSession (number s) (s_user s) (s_created_ms s) now]> (sessions m)) m,
                Ok (mkPrincipal (u_name u) (password_change_required u)))
          else drop
      | None => drop
      end
  end.

(** [issue_session]: whether the user is active is read under the catalog's
    lock, the session is put in later. *)
Definition may_issue (n : bytes) (m : AuthManager) : bool :=
  match users (catalog m) !! n with Some u => bool_decide (status u = Active) | None => false end.

Definition put_session (now : Z) (token n : bytes) (m : AuthManager) : AuthManager :=
  mkManager (stored m) (catalog m) (generation m) (failures m)
    (<[token := mkSession (next_session m + 1) n now now]> (sessions m)) (next_session m + 1).

Definition issue_session (now : Z) (token n : bytes) (m : AuthManager) : AuthManager * option bytes :=
  if may_issue n m then (put_session now token n m, Some token) else (m, None).

Definition revoke_session (token : bytes) (m : AuthManager) : AuthManager * bool :=
  (put_sessions (delete token (sessions m)) m, bool_decide (is_Some (sessions m !! token))).

(** [Credentials]: a password or a session token. *)
Inductive Credentials : Type := Basic (username password : bytes) | Token (token : bytes).

Definition authenticate (now : Z) (c : Credentials) (m : AuthManager) :
    AuthManager * result LoginError Principal :=
  match c with
  | Basic n password => login now n password m
  | Token token => resume now token m
  end.

Definition live_sessions (now : Z) (m : AuthManager) : list Session :=
  merge_sort number_le
    (filter (fun s => expired now s = false) (snd <$> map_to_list (sessions m))).

Definition revoke_session_number (n : N) (m : AuthManager) : AuthManager * option bytes :=
  match list_find (fun e => number e.2 = n) (map_to_list (sessions m)) with
  | None => (m, None)
  | Some (_, (token, s)) => (put_sessions (delete token (sessions m)) m, Some (s_user s))
  end.
End manager.

(** ** Whose privileges *)
Definition with_public (r : gset bytes) : list bytes := PUBLIC :: merge_sort bytes_le (elements r).

Inductive PrivilegeFilter : Type :=
| FAll | FRole (n : bytes) | FUser (n : bytes) | FRoles (l : list bytes).

Record Entry : Type := mkEntry { e_access : Access; e_privilege : Privilege; e_role : bytes }.

Definition wanted_roles (f : PrivilegeFilter) (c : Catalog) : option (list bytes) :=
  match f with
  | FAll => None
  | FRole n => Some [n]
  | FUser n => Some (match users c !! n with Some u => with_public (u_roles u) | None => [] end)
  | FRoles l => Some (with_public (list_to_set l))
  end.

Definition role_entries (n : bytes) (r : Role) : list Entry :=
  (fun h => mkEntry (access h) (privilege h) n) <$> merge_sort held_le (elements (privileges r)).

Definition listed_privileges (f : PrivilegeFilter) (c : Catalog) : list Entry :=
  let wanted n := match wanted_roles f c with None => true | Some w => bool_decide (n ∈ w) end in
  flat_map (fun n => match roles c !! n with Some r => role_entries n r | None => [] end)
    (filter (fun n => wanted n = true) (merge_sort bytes_le (elements (dom (roles c))))).

Definition role_held (r : Role) : list (Access * Privilege) :=
  (fun h => (access h, privilege h)) <$> merge_sort held_le (elements (privileges r)).

Definition user_held (c : Catalog) (u : User) : list (Access * Privilege) :=
  flat_map (fun n => match roles c !! n with Some r => role_held r | None => [] end)
    (with_public (u_roles u)).

Definition decide_for (c : Catalog) (user : bytes) (request : Request) : Decision :=
  match users c !! user with
  | None => NotGranted
  | Some u => decide (user_held c u) request
  end.

Definition security_context (c : Catalog) (user home : bytes) : SecurityContext :=
  new ((fun e => (e_access e, e_privilege e)) <$> listed_privileges (FUser user) c) home.
Definition security_context_for_roles (c : Catalog) (l : list bytes) (home : bytes) : SecurityContext :=
  new ((fun e => (e_access e, e_privilege e)) <$> listed_privileges (FRoles l) c) home.

(** ** Everything a manager is asked *)
Inductive Command : Type :=
| CreateRole (n : bytes) (if_not_exists : bool) (copy_of : option bytes)
| DropRole (n : bytes) (if_exists : bool)
| RenameRole (from to : bytes) (if_exists : bool)
| GrantRole (role user : bytes)
| RevokeRole (role user : bytes)
| GrantPrivileges (a : Access) (ps : list Privilege) (role : bytes)
| RevokePrivileges (a : option Access) (ps : list Privilege) (role : bytes)
| MakeAdmin (user : bytes)
| CreateUser (nu : NewUser)
| Alter (n : bytes) (alter : AlterUser)
| DropUser (n : bytes) (if_exists : bool)
| ChangeOwnPassword (n current new : bytes).

Inductive Event : Type :=
| Command_ (w : Call) (c : Command)
| Authenticate (now : Z) (c : Credentials)
| IssueSession (now : Z) (token n : bytes)
| RevokeSession (token : bytes)
| RevokeNumber (n : N).

Section properties.
Context {hasher : Hasher} (policies : Policies).

Definition run_command (w : Call) (c : Command) : ST AuthManager ManageError unit :=
  match c with
  | CreateRole n ine copy => create_role w n ine copy
  | DropRole n ie => drop_role w n ie
  | RenameRole from to ie => rename_role w from to ie
  | GrantRole role user => grant_role w role user
  | RevokeRole role user => revoke_role w role user
  | GrantPrivileges a ps role => grant w a ps role
  | RevokePrivileges a ps role => revoke w a ps role
  | MakeAdmin user => make_admin w user
  | CreateUser nu => create_user policies w nu
  | Alter n alter => alter_user policies w n alter
  | DropUser n ie => drop_user w n ie
  | ChangeOwnPassword n cur nw => change_own_password policies w n cur nw
  end.

Definition handle (ev : Event) (m : AuthManager) : AuthManager :=
  match ev with
  | Command_ w c => (run_command w c m).1
  | Authenticate now c => (authenticate policies now c m).1
  | IssueSession now token n => (issue_session now token n m).1
  | RevokeSession token => (revoke_session token m).1
  | RevokeNumber n => (revoke_session_number n m).1
  end.

Definition run (evs : list Event) (m : AuthManager) : AuthManager := foldl (fun m ev => handle ev m) m evs.

(** *** What a command does to the manager, whichever it is: an edit, and for
    some the end of a user's sessions *)
Definition validated (c : Command) : result ManageError unit :=
  match c with
  | CreateRole n _ _ => validate_role_name n
  | DropRole n _ => refuse_public n (lit "dropped")
  | RenameRole from to _ => refuse_public from (lit "renamed") ≫= fun _ =>
      refuse_public to (lit "renamed") ≫= fun _ => validate_role_name to
  | GrantRole role _ => refuse_public role (lit "granted")
  | RevokeRole role _ => refuse_public role (lit "revoked")
  | CreateUser nu => validate_name (new_name nu)
  | _ => Ok tt
  end.

Definition edit_of (w : Call) (c : Command) : Edit :=
  match c with
  | CreateRole n ine copy => create_role_edit n ine copy
  | DropRole n ie => drop_role_edit n ie
  | RenameRole from to ie => rename_role_edit from to ie
  | GrantRole role user => grant_role_edit role user
  | RevokeRole role user => revoke_role_edit role user
  | GrantPrivileges a ps role => grant_edit a ps role
  | RevokePrivileges a ps role => revoke_edit a ps role
  | MakeAdmin user => make_admin_edit user
  | CreateUser nu => create_user_edit (min_length policies) (salt w) (now_ms w) nu
  | Alter n alter => alter_user_edit (min_length policies) (salt w) (now_ms w) n alter
  | DropUser n ie => drop_user_edit n ie
  | ChangeOwnPassword n cur nw =>
      change_own_password_edit (min_length policies) (salt w) (now_ms w) n cur nw
  end.

(** Whose sessions a command ends. *)
Definition ends_sessions (c : Command) : option bytes :=
  match c with
  | Alter n alter => if bool_decide (is_Some (alter_password alter)) ||
                        bool_decide (alter_status alter = Some Suspended) then Some n else None
  | DropUser n _ | ChangeOwnPassword n _ _ => Some n
  | _ => None
  end.

Definition forgets_failures (c : Command) : option bytes :=
  match c with DropUser n _ => Some n | _ => None end.

Definition afterwards (c : Command) (m : AuthManager) : AuthManager :=
  let m := match ends_sessions c with Some n => revoke_sessions_of n m | None => m end in
  match forgets_failures c with Some n => put_failures (delete n (failures m)) m | None => m end.

Lemma run_command_shape w c m : run_command w c m =
  match validated c with
  | Err e => (m, Err e)
  | Ok _ => match change (io w) (edit_of w c) m with
            | (m', Ok _) => (afterwards c m', Ok tt)
            | (m', Err e) => (m', Err e)
            end
  end.
Proof using Type.
  assert (Hunit : forall p : AuthManager * result ManageError unit,
    p = match p with (m', Ok _) => (m', Ok tt) | (m', Err e) => (m', Err e) end).
  { by intros [m' [[]|e]]. }
  destruct c; cbn -[change refuse_public validate_role_name validate_name revoke_sessions_of];
    unfold create_role, drop_role, rename_role, grant_role, revoke_role, grant, revoke, make_admin,
      create_user, alter_user, drop_user, change_own_password, afterwards, st_bind, st_lift;
    cbn -[change refuse_public validate_role_name validate_name revoke_sessions_of];
    try apply Hunit; try (destruct (refuse_public _ _); cbn -[change refuse_public validate_role_name]; [|done]);
    try (destruct (refuse_public _ _); cbn -[change validate_role_name]; [|done]);
    try (destruct (validate_role_name _)); try (destruct (validate_name _)); try done; try apply Hunit;
    destruct change as [m' [[]|e]]; try done; by destruct (bool_decide _ || _).
Qed.

Lemma change_refused f e m err : (change f e m).2 = Err err -> (change f e m).1 = m.
Proof using Type.
  unfold change. destruct (e (catalog m)) as [[c [|]]|]; [|done|done]. by destruct f.
Qed.

(** A command that is refused, for its arguments, for the state of the
    catalog or because it cannot be saved, leaves the manager as it was. *)
Theorem refused_command_changes_nothing w c m e :
  (run_command w c m).2 = Err e -> (run_command w c m).1 = m.
Proof using Type.
  rewrite run_command_shape. destruct (validated c); [|done].
  pose proof (change_refused (io w) (edit_of w c) m) as H.
  destruct change as [m' [[]|err]]; simpl in *; [done|]. intros _. by eapply H.
Qed.

Lemma refuse_public_ok r what : refuse_public r what = Ok tt <-> r <> PUBLIC.
Proof using Type. unfold refuse_public. case_bool_decide; naive_solver. Qed.

Lemma edit_keeps w c : validated c = Ok tt -> keeps (edit_of w c).
Proof using Type.
  destruct c; cbn -[validate_role_name validate_name]; intros H;
    rewrite ?refuse_public_ok in H;
    auto using create_role_keeps, drop_role_keeps, grant_role_keeps, revoke_role_keeps, grant_keeps,
      revoke_keeps, make_admin_keeps, create_user_keeps, alter_user_keeps, drop_user_keeps,
      change_own_password_keeps.
  destruct (refuse_public from _) as [[]|] eqn:Hf; [|done].
  destruct (refuse_public to _) as [[]|] eqn:Ht; [|done]. rewrite refuse_public_ok in Hf, Ht.
  by apply rename_role_keeps.
Qed.

Lemma edit_format w c cat cat' b : edit_of w c cat = Ok (cat', b) -> format_version cat' = format_version cat.
Proof using Type.
  intros H. destruct c; cbn in H;
    unfold create_role_edit, drop_role_edit, rename_role_edit, grant_role_edit, revoke_role_edit,
      grant_edit, revoke_edit, make_admin_edit, create_user_edit, alter_user_edit, drop_user_edit,
      change_own_password_edit in H; repeat case_match; by simplify_eq.
Qed.

(** ** The invariant of the manager *)
Definition sessions_ok (m : AuthManager) : Prop :=
  (forall t s, sessions m !! t = Some s -> (number s <= next_session m)%N) /\
  (forall t t' s s', sessions m !! t = Some s -> sessions m !! t' = Some s' -> number s = number s' -> t = t').

Definition failures_ok (m : AuthManager) : Prop :=
  forall n f, failures m !! n = Some f -> 0 <= count f < max_failed_attempts policies.

Definition stored_ok (m : AuthManager) : Prop :=
  default catalog_default (stored m) = catalog m /\ (FORMAT_VERSION <= format_version (catalog m))%N.

Definition manager_ok (m : AuthManager) : Prop :=
  catalog_ok (catalog m) /\ sessions_ok m /\ failures_ok m /\ stored_ok m.

Lemma sessions_sub m m' : (forall t s, sessions m' !! t = Some s -> sessions m !! t = Some s) ->
  next_session m' = next_session m -> sessions_ok m -> sessions_ok m'.
Proof using Type.
  intros Hs Hn [H1 H2]. split.
  - intros t s Ht. rewrite Hn. by eapply H1, Hs.
  - intros t t' s s' Ht Ht' He. eapply H2; eauto.
Qed.

Lemma afterwards_ok c m : manager_ok m -> manager_ok (afterwards c m).
Proof using Type.
  intros (Hc & Hs & Hf & Hst).
  assert (H1 : manager_ok (match ends_sessions c with Some n => revoke_sessions_of n m | None => m end)).
  { destruct (ends_sessions c); [|done]. split_and!; [exact Hc| |exact Hf|exact Hst].
    apply (sessions_sub m); [|done|exact Hs]. intros t s. simpl. by intros [? _]%map_lookup_filter_Some. }
  unfold afterwards. set (m' := match ends_sessions c with Some _ => _ | None => _ end) in *.
  destruct (forgets_failures c) as [n|]; [|done]. destruct H1 as (H1 & H2 & H3 & H4).
  split_and!; [exact H1|exact H2| |exact H4]. intros n' f. simpl. rewrite lookup_delete_Some. intros [_ ?]. by eapply H3.
Qed.

Lemma change_ok f e m : keeps e -> (forall c c' b, e c = Ok (c', b) -> format_version c' = format_version c) ->
  manager_ok m -> manager_ok (change f e m).1.
Proof using Type.
  intros Hk Hv (Hc & Hs & Hf & Hst). unfold change.
  destruct (e (catalog m)) as [[c [|]]|] eqn:He; [|done|done]. destruct f; [done|].
  split_and!; [by eapply Hk|exact Hs|exact Hf|]. split; [done|]. simpl. rewrite (Hv _ _ _ He). by apply Hst.
Qed.

Lemma run_command_ok w c m : manager_ok m -> manager_ok (run_command w c m).1.
Proof using Type.
  intros Hm. rewrite run_command_shape. destruct (validated c) as [[]|] eqn:Hv; [|done].
  pose proof (change_ok (io w) (edit_of w c) m (edit_keeps w c Hv) (edit_format w c) Hm) as H.
  destruct change as [m' [[]|err]]; [|done]. by apply afterwards_ok.
Qed.

Lemma put_failures_ok f m : manager_ok m ->
  (forall n x, f !! n = Some x -> 0 <= count x < max_failed_attempts policies) ->
  manager_ok (put_failures f m).
Proof using Type. intros (Hc & Hs & Hf & Hst) H. split_and!; [exact Hc|exact Hs|exact H|exact Hst]. Qed.

Lemma put_sessions_ok s m : manager_ok m -> (forall t x, s !! t = Some x -> sessions m !! t = Some x) ->
  manager_ok (put_sessions s m).
Proof using Type.
  intros (Hc & Hs & Hf & Hst) H. split_and!; [exact Hc| |exact Hf|exact Hst].
  by apply (sessions_sub m).
Qed.

Lemma record_failure_ok n now m : 0 <= max_failed_attempts policies -> manager_ok m ->
  manager_ok (record_failure policies n now m).
Proof using Type.
  intros Hmax Hm. unfold record_failure. case_bool_decide as Hz; [done|].
  apply put_failures_ok; [done|]. intros n' x. rewrite lookup_insert.
  destruct Hm as (_ & _ & Hf & _). case_decide; [|by apply Hf].
  assert (0 <= count (default failures_default (failures m !! n)) < max_failed_attempts policies).
  { destruct (failures m !! n) eqn:Hl; simpl; [by eapply Hf|lia]. }
  intros [= <-]. case_bool_decide; simpl; lia.
Qed.

Lemma login_ok now n pw m : 0 <= max_failed_attempts policies -> manager_ok m ->
  manager_ok (login policies now n pw m).1.
Proof using Type.
  intros Hmax Hm. unfold login. destruct (login_begin now n m) as [u|]; [|done].
  unfold login_finish. destruct verify_password; simpl; [|by apply record_failure_ok].
  assert (manager_ok (put_failures (delete n (failures m)) m)).
  { apply put_failures_ok; [done|]. intros n' x [_ Hx]%lookup_delete_Some. by eapply Hm. }
  by case_bool_decide.
Qed.

Lemma resume_ok now token m : manager_ok m -> manager_ok (resume policies now token m).1.
Proof using Type.
  intros Hm. unfold resume. destruct (sessions m !! token) as [s|] eqn:Ht; [|done].
  assert (Hd : manager_ok (put_sessions (delete token (sessions m)) m)).
  { apply put_sessions_ok; [done|]. by intros t x [_ ?]%lookup_delete_Some. }
  destruct (users (catalog m) !! s_user s) as [u|]; [|done]. destruct (negb _ && _); [|done].
  destruct Hm as (Hc & [H1 H2] & Hf & Hst). split_and!; [exact Hc| |exact Hf|exact Hst].
  assert (Hk : forall t x, <[token:=mkSession (number s) (s_user s) (s_created_ms s) now]> (sessions m) !! t = Some x ->
    exists y, sessions m !! t = Some y /\ number x = number y).
  { intros t x. rewrite lookup_insert. case_decide; [intros [= <-]; subst; eauto|eauto]. }
  split; simpl.
  - intros t x (y & Hy & ->)%Hk. by eapply H1.
  - intros t t' x x' (y & Hy & ->)%Hk (y' & Hy' & ->)%Hk. by apply H2.
Qed.

Lemma issue_ok now token n m : manager_ok m -> manager_ok (issue_session now token n m).1.
Proof using Type.
  intros Hm. unfold issue_session. destruct may_issue; [|done].
  destruct Hm as (Hc & [H1 H2] & Hf & Hst). split_and!; [exact Hc| |exact Hf|exact Hst].
  split; simpl.
  - intros t x. rewrite lookup_insert. case_decide; [by intros [= <-]|]. intros Hx%H1. lia.
  - intros t t' x x'. rewrite !lookup_insert. repeat case_decide; subst; try done.
    + intros [= <-] Hx'%H1. simpl. lia.
    + intros Hx%H1 [= <-]. simpl. lia.
    + apply H2.
Qed.

Lemma revoke_number_ok n m : manager_ok m -> manager_ok (revoke_session_number n m).1.
Proof using Type.
  intros Hm. unfold revoke_session_number. destruct list_find as [[i [t s]]|]; [|done].
  apply put_sessions_ok; [done|]. by intros t' x [_ ?]%lookup_delete_Some.
Qed.

Lemma handle_ok ev m : 0 <= max_failed_attempts policies -> manager_ok m -> manager_ok (handle ev m).
Proof using Type.
  intros Hmax Hm. destruct ev as [w c|now [n pw|token]|now token n|token|n]; simpl.
  - by apply run_command_ok.
  - by apply login_ok.
  - by apply resume_ok.
  - by apply issue_ok.
  - apply put_sessions_ok; [done|]. by intros t x [_ ?]%lookup_delete_Some.
  - by apply revoke_number_ok.
Qed.

Lemma run_ok evs m : 0 <= max_failed_attempts policies -> manager_ok m -> manager_ok (run evs m).
Proof using Type.
  intros Hmax. revert m. induction evs as [|ev evs IH]; intros m Hm; [done|]. by apply IH, handle_ok.
Qed.

(** A catalog from before roles is stored with roles that include [admin]. *)
Definition loadable (c : Catalog) : Prop :=
  catalog_ok c /\ ((format_version c < FORMAT_VERSION)%N -> is_Some (roles c !! lit "admin")).

Lemma upgrade_ok c : loadable c -> (format_version c < FORMAT_VERSION)%N -> catalog_ok (upgrade c).
Proof using Type.
  intros [(Hp & Hr & Hu) Ha] Hv. split_and!; [done|done|]. intros n u. simpl.
  rewrite lookup_fmap_Some. intros (u0 & <- & Hn). destruct (Hu n u0 Hn) as (H1 & H2 & H3).
  split_and!; [done|done|]. intros r [->%elem_of_singleton|Hr']%elem_of_union; [|by apply H3].
  split; [done|by apply Ha].
Qed.

Lemma open_ok loaded f m : (forall c, loaded = Ok (Some c) -> loadable c) -> open loaded f = Ok m -> manager_ok m.
Proof using Type.
  intros Hl. unfold open. destruct loaded as [found|]; [|done].
  assert (Hc : loadable (default catalog_default found)).
  { destruct found as [c|]; [by apply Hl|]. split; [apply catalog_default_ok|]. intros H. by vm_compute in H. }
  assert (Hempty : forall st c, default catalog_default st = c -> (FORMAT_VERSION <= format_version c)%N ->
    catalog_ok c -> manager_ok (mkManager st c 0 ∅ ∅ 0)).
  { intros st c H1 H2 H3. split_and!; [done| | |by split].
    - split; intros *; simpl; by rewrite lookup_empty.
    - intros n x. simpl. by rewrite lookup_empty. }
  destruct (N.ltb_spec (format_version (default catalog_default found)) FORMAT_VERSION) as [Hlt|Hge].
  - destruct f; [done|]. intros [= <-]. apply Hempty; [done|done|by apply upgrade_ok].
  - intros [= <-]. apply Hempty; [done|done|by apply Hc].
Qed.

(** C32: Whatever is asked of a manager opened on a well-formed catalog, in
    whatever order and whichever saves fail: the catalog stays well formed,
    session numbers stay apart, failure counts stay below the limit that
    locks, and what is stored is what is in force. *)
Theorem commands_keep_catalog loaded f m evs : 0 <= max_failed_attempts policies ->
  (forall c, loaded = Ok (Some c) -> loadable c) -> open loaded f = Ok m -> manager_ok (run evs m).
Proof using Type. intros Hmax Hl Ho. by apply run_ok; [|eapply open_ok]. Qed.

(** A restart finds the users, roles and privileges that were in force: every
    change that was acknowledged, and nothing of one that was refused. *)
Theorem restart_keeps_catalog loaded f m evs f' : 0 <= max_failed_attempts policies ->
  (forall c, loaded = Ok (Some c) -> loadable c) -> open loaded f = Ok m ->
  exists m', open (Ok (stored (run evs m))) f' = Ok m' /\ catalog m' = catalog (run evs m).
Proof using Type.
  intros Hmax Hl Ho. destruct (run_ok evs m Hmax (open_ok loaded f m Hl Ho)) as (_ & _ & _ & Hst & Hv).
  unfold open. rewrite Hst. destruct (N.ltb_spec (format_version (catalog (run evs m))) FORMAT_VERSION); [lia|].
  by eexists.
Qed.

(** ** Sessions *)

(** Changing or losing the password, being suspended and being dropped end
    every session of the user. *)
Theorem sessions_ended w c m n : (run_command w c m).2 = Ok tt -> ends_sessions c = Some n ->
  forall token s, sessions (run_command w c m).1 !! token = Some s -> s_user s <> n.
Proof using Type.
  rewrite run_command_shape. destruct (validated c) as [[]|]; [|done].
  destruct change as [m' [[]|]]; [|done]. simpl. intros _ He token s.
  unfold afterwards. rewrite He. destruct (forgets_failures c); simpl;
    by intros [_ ?]%map_lookup_filter_Some.
Qed.

(** A token is accepted exactly while its session is on record, neither idle
    nor old beyond the limits, and its user active; a refused token is
    forgotten, an accepted one counts as used now. *)
Theorem resume_exact now token m :
  match (resume policies now token m).2 with
  | Ok p => exists s u, sessions m !! token = Some s /\ users (catalog m) !! s_user s = Some u /\
      status u = Active /\ now - last_used_ms s <= millis (idle policies) /\
      now - s_created_ms s <= millis (lifetime policies) /\
      p = mkPrincipal (u_name u) (password_change_required u) /\
      (last_used_ms <$> sessions (resume policies now token m).1 !! token) = Some now
  | Err e => e = InvalidToken /\ sessions (resume policies now token m).1 !! token = None /\
      forall s u, sessions m !! token = Some s -> users (catalog m) !! s_user s = Some u ->
        status u = Suspended \/ millis (idle policies) < now - last_used_ms s \/
        millis (lifetime policies) < now - s_created_ms s
  end.
Proof using Type.
  unfold resume, expired. destruct (sessions m !! token) as [s|] eqn:Ht; [|done].
  destruct (users (catalog m) !! s_user s) as [u|] eqn:Hu; simpl.
  2: { split_and!; [done|by rewrite lookup_delete_eq|]. intros ? ? [= <-]. congruence. }
  repeat case_bool_decide; simpl; try (split_and!; [done|by rewrite lookup_delete_eq|]);
    try (intros ? ? [= <-]; rewrite Hu; intros [= <-]; destruct (status u); try done; auto).
  exists s, u. rewrite lookup_insert_eq. split_and!; try done; lia.
Qed.

(** ** Whose decisions a grant changes *)
Lemma elem_role_held r a p : (a, p) ∈ role_held r <-> mkHeld a p ∈ privileges r.
Proof using Type.
  unfold role_held. rewrite list_elem_of_fmap. setoid_rewrite merge_sort_Permutation.
  setoid_rewrite elem_of_elements. split.
  - by intros ([a' p'] & [= -> ->] & H).
  - intros H. by exists (mkHeld a p).
Qed.

Lemma elem_with_public r n : n ∈ with_public r <-> n = PUBLIC \/ n ∈ r.
Proof using Type. unfold with_public. by rewrite elem_of_cons, merge_sort_Permutation, elem_of_elements. Qed.

Lemma elem_user_held c u a p : (a, p) ∈ user_held c u <->
  exists n r, (n = PUBLIC \/ n ∈ u_roles u) /\ roles c !! n = Some r /\ mkHeld a p ∈ privileges r.
Proof using Type.
  unfold user_held. rewrite list_elem_of_In, in_flat_map. setoid_rewrite <- list_elem_of_In.
  setoid_rewrite elem_with_public. split.
  - intros (n & Hn & H). destruct (roles c !! n) as [r|] eqn:Hr; [|by apply elem_of_nil in H].
    exists n, r. by rewrite <- elem_role_held.
  - intros (n & r & Hn & Hr & H). exists n. rewrite Hr. by rewrite elem_role_held.
Qed.

Lemma insert_all_true a ps held : (insert_all a ps held true).2 = true.
Proof using Type. revert held. induction ps as [|p ps IH]; intros held; simpl; [done|]. by apply IH. Qed.

Lemma insert_all_spec a ps held b : let '(held', b') := insert_all a ps held b in
  (forall h, h ∈ held' <-> h ∈ held \/ (access h = a /\ privilege h ∈ ps)) /\ (b' = false -> held' = held).
Proof using Type.
  revert held b. induction ps as [|p ps IH]; intros held b; simpl.
  { split; [|done]. intros h. split; [by left|]. intros [?|[_ H]]; [done|by apply elem_of_nil in H]. }
  destruct (decide_rel elem_of (mkHeld a p) held) as [Hin|Hout].
  - replace ({[mkHeld a p]} ∪ held) with held by (clear -Hin; set_solver).
    rewrite bool_decide_eq_false_2, orb_false_r by (by intros []).
    specialize (IH held b). destruct insert_all as [held' b']. destruct IH as [H1 H2]. split; [|done].
    intros h. rewrite H1, elem_of_cons. destruct h as [a' p']; simpl. naive_solver.
  - rewrite bool_decide_eq_true_2, orb_true_r by done.
    pose proof (insert_all_true a ps ({[mkHeld a p]} ∪ held)) as Ht.
    specialize (IH ({[mkHeld a p]} ∪ held) true). destruct insert_all as [held' b']. simpl in Ht. subst b'.
    split; [|done]. intros h. rewrite (proj1 IH), elem_of_union, elem_of_singleton, elem_of_cons.
    destruct h as [a' p']; simpl. naive_solver.
Qed.

(** The catalog after a grant that was acknowledged. *)
Lemma grant_outcome w a ps role m : (grant w a ps role m).2 = Ok tt ->
  exists r r', roles (catalog m) !! role = Some r /\ users (catalog (grant w a ps role m).1) = users (catalog m) /\
    roles (catalog (grant w a ps role m).1) = <[role := r']> (roles (catalog m)) /\
    forall h, h ∈ privileges r' <-> h ∈ privileges r \/ (access h = a /\ privilege h ∈ ps).
Proof using Type.
  unfold grant, change, grant_edit. destruct (roles (catalog m) !! role) as [r|] eqn:Hr; [|done].
  pose proof (insert_all_spec a ps (privileges r) false) as Hi.
  destruct insert_all as [held' [|]]; destruct Hi as [Hi1 Hi2].
  - destruct (io w); [done|]. intros _. exists r, (mkRole held'). by split_and!.
  - intros _. exists r, r. rewrite Hi2 in Hi1 by done. split_and!; try done. simpl. by rewrite insert_id.
Qed.

(** After an acknowledged grant (or deny) of privileges to a role, a user who
    has the role - everyone, for [PUBLIC] - is decided with them added, and
    every other user as before. *)
Theorem grant_effect w a ps role m user request : (grant w a ps role m).2 = Ok tt ->
  decide_for (catalog (grant w a ps role m).1) user request =
  match users (catalog m) !! user with
  | None => NotGranted
  | Some u =>
      decide ((if bool_decide (role = PUBLIC \/ role ∈ u_roles u) then (fun p => (a, p)) <$> ps else []) ++
              user_held (catalog m) u) request
  end.
Proof using Type.
  intros Hok. destruct (grant_outcome w a ps role m Hok) as (r & r' & Hr & Hu & Hr' & Hh).
  unfold decide_for. rewrite Hu. destruct (users (catalog m) !! user) as [u|]; [|done].
  apply decide_same. intros [a' p]. rewrite elem_of_app, !elem_user_held, Hr'.
  assert (Hnew : (a', p) ∈ (if bool_decide (role = PUBLIC \/ role ∈ u_roles u)
      then (fun p => (a, p)) <$> ps else []) <-> (role = PUBLIC \/ role ∈ u_roles u) /\ a' = a /\ p ∈ ps).
  { case_bool_decide as Hrole; [rewrite list_elem_of_fmap; naive_solver|].
    split; [by intros ?%elem_of_nil|by intros [? _]]. }
  rewrite Hnew. split.
  - intros (n & x & Hn & Hx & Hp). rewrite lookup_insert in Hx. case_decide as He.
    + injection Hx as <-. subst n. apply Hh in Hp as [Hp|[<- Hp]]; [right; eauto|left; auto].
    + right. eauto.
  - intros [(Hrole & -> & Hp)|(n & x & Hn & Hx & Hp)].
    + exists role, r'. rewrite lookup_insert_eq. split_and!; [done|done|]. apply Hh. by right.
    + destruct (decide_rel eq role n) as [->|Hne].
      * exists n, r'. rewrite lookup_insert_eq. split_and!; [done|done|]. apply Hh. left. congruence.
      * exists n, x. by rewrite lookup_insert_ne.
Qed.

Lemma elem_listed c f a p : (exists n, mkEntry a p n ∈ listed_privileges f c) <->
  exists n r, roles c !! n = Some r /\ mkHeld a p ∈ privileges r /\
    match wanted_roles f c with None => True | Some w => n ∈ w end.
Proof using Type.
  unfold listed_privileges. setoid_rewrite list_elem_of_In. setoid_rewrite in_flat_map.
  setoid_rewrite <- list_elem_of_In. setoid_rewrite list_elem_of_filter.
  setoid_rewrite merge_sort_Permutation. setoid_rewrite elem_of_elements. setoid_rewrite elem_of_dom.
  assert (He : forall n x r, mkEntry a p x ∈ role_entries n r <-> x = n /\ mkHeld a p ∈ privileges r).
  { intros n x r. unfold role_entries. rewrite list_elem_of_fmap. setoid_rewrite merge_sort_Permutation.
    setoid_rewrite elem_of_elements. split; [by intros ([a' p'] & [= -> -> ->] & ?)|].
    intros [-> ?]. by exists (mkHeld a p). }
  split.
  - intros (n & n' & [Hw [r Hr]] & H). rewrite Hr in H. apply He in H as [-> H]. exists n', r.
    split_and!; [done|done|]. destruct (wanted_roles f c); [|done]. by apply bool_decide_eq_true in Hw.
  - intros (n & r & Hr & H & Hw). exists n, n. rewrite Hr. split; [|by apply He]. split; [|by eauto].
    destruct (wanted_roles f c); [|done]. by apply bool_decide_eq_true.
Qed.

(** The context compiled for a user answers as the manager decides. *)
Theorem context_decides c user home k request : security_context c user home = Some k ->
  is_allowed (decide (held k) request) = is_allowed (decide_for c user request).
Proof using Type.
  intros [= <-]. simpl. unfold decide_for. f_equal.
  assert (Hl : forall a p, (a, p) ∈ ((fun e => (e_access e, e_privilege e)) <$> listed_privileges (FUser user) c) <->
    exists n, mkEntry a p n ∈ listed_privileges (FUser user) c).
  { intros a p. rewrite list_elem_of_fmap. split.
    - intros ([a' p' n] & [= -> ->] & H). by exists n.
    - intros [n H]. by exists (mkEntry a p n). }
  destruct (users c !! user) as [u|] eqn:Hu.
  - apply decide_same. intros [a p]. rewrite Hl, elem_listed, elem_user_held. simpl. rewrite Hu.
    setoid_rewrite elem_with_public. naive_solver.
  - rewrite (decide_same _ [] request); [done|]. intros [a p]. rewrite Hl, elem_listed. simpl. rewrite Hu.
    setoid_rewrite elem_of_nil. naive_solver.
Qed.

(** ** Guessing a password *)

(** One login after the other; how many passwords were looked at. *)
Fixpoint guess (n : bytes) (tries : list (Z * bytes)) (m : AuthManager) : AuthManager * Z :=
  match tries with
  | [] => (m, 0)
  | (t, pw) :: tries =>
      let looked := if is_ok (login_begin t n m) then 1 else 0 in
      let '(m, k) := guess n tries (login policies t n pw m).1 in
      (m, looked + k)
  end.

Definition failures_of (n : bytes) (m : AuthManager) : Failures := default failures_default (failures m !! n).
Definition wrong (u : User) (e : Z * bytes) : Prop := verify_password e.2 (password_hash u) = false.
Definition timely (e : Z * bytes) : Prop := 0 <= e.1 /\ e.1 + lock_for policies <= i64_max.

Section guessing.
Context (n : bytes) (u : User) (max_pos : 0 < max_failed_attempts policies) (lock_pos : 0 < lock_for policies).

(** A wrong password for a known user. *)
Lemma wrong_login t pw m : users (catalog m) !! n = Some u -> wrong u (t, pw) -> timely (t, pw) ->
  let f := failures_of n m in
  if bool_decide (t < locked_until_ms f)
  then login policies t n pw m = (m, Err (Locked (locked_until_ms f - t))) /\ is_ok (login_begin t n m) = false
  else users (catalog (login policies t n pw m).1) !! n = Some u /\ is_ok (login_begin t n m) = true /\
       failures_of n (login policies t n pw m).1 =
         (if bool_decide (max_failed_attempts policies <= count f + 1)
          then mkFailures 0 (t + lock_for policies) else mkFailures (count f + 1) (locked_until_ms f)).
Proof using max_pos lock_pos.
  intros Hu Hw [Ht1 Ht2]. unfold login, login_begin, failures_of. simpl in Ht1, Ht2.
  assert (Hb : (match failures m !! n with
      | Some f => if bool_decide (t < locked_until_ms f) then Some (Locked (locked_until_ms f - t)) else None
      | None => None end) =
    let f := default failures_default (failures m !! n) in
    if bool_decide (t < locked_until_ms f) then Some (Locked (locked_until_ms f - t)) else None).
  { destruct (failures m !! n); simpl; [done|]. rewrite bool_decide_eq_false_2; [done|lia]. }
  rewrite Hb. clear Hb. simpl. case_bool_decide as Hlock; [done|]. rewrite Hu. simpl.
  unfold login_finish, wrong in *. simpl in Hw. rewrite Hw. simpl. unfold record_failure.
  rewrite bool_decide_eq_false_2 by lia. simpl. split_and!; [done|done|].
  rewrite lookup_insert_eq. cbn [default from_option id].
  destruct (bool_decide (max_failed_attempts policies <= _)); [|done]. unfold millis, sat_i64, i64_min, i64_max in *.
  f_equal. case_bool_decide; lia.
Qed.

(** How the failures on record count the passwords looked at: [locks] full
    rounds, each a lock apart, and [count] more. *)
Definition tallied (t0 t v : Z) (m : AuthManager) : Prop :=
  let f := failures_of n m in
  users (catalog m) !! n = Some u /\ t0 <= t /\ 0 <= count f < max_failed_attempts policies /\
  exists locks, 0 <= locks /\ v = max_failed_attempts policies * locks + count f /\
    (0 < locks -> t0 + locks * lock_for policies <= locked_until_ms f /\
                  t0 + (locks - 1) * lock_for policies <= t) /\
    (0 < count f -> t0 + locks * lock_for policies <= t).

Lemma tallied_step t0 t v t' pw m : tallied t0 t v m -> t <= t' -> wrong u (t', pw) -> timely (t', pw) ->
  tallied t0 t' (v + if is_ok (login_begin t' n m) then 1 else 0) (login policies t' n pw m).1.
Proof using max_pos lock_pos.
  intros (Hu & Ht0 & Hc & locks & Hl & Hv & Hlock & Hcount) Ht Hw Htime.
  pose proof (wrong_login t' pw m Hu Hw Htime) as H. simpl in H.
  case_bool_decide as Hlocked.
  { destruct H as [-> ->]. unfold tallied. cbn [fst]. rewrite Z.add_0_r. split_and!; [done|lia|lia|lia|].
    exists locks. split_and!; [done|done| |].
    - intros Hp. destruct (Hlock Hp). split; [done|lia].
    - intros Hp. specialize (Hcount Hp). lia. }
  destruct H as (Hu' & -> & Hf). unfold tallied. rewrite Hf.
  assert (Hreach : t0 + locks * lock_for policies <= t').
  { destruct (Z.eq_dec locks 0) as [->|]; [lia|]. destruct (Hlock ltac:(lia)). lia. }
  case_bool_decide; simpl; (split_and!; [done|lia|lia|lia|]).
  - exists (locks + 1). split_and!; [lia|lia| |lia]. intros _. split; [|]; lia.
  - exists locks. split_and!; [lia|lia| |lia]. intros Hp. destruct (Hlock Hp). lia.
Qed.

Lemma last_default (l : list Z) d x : List.last (x :: l) d = List.last l x.
Proof using Type. revert d x. induction l as [|y l IH]; intros d x; [done|].
  change (List.last (y :: l) d = List.last (y :: l) x). by rewrite !IH.
Qed.

Lemma guess_tallied t0 tries : forall t v m, tallied t0 t v m ->
  Forall (wrong u) tries -> Forall timely tries -> Sorted Z.le (t :: tries.*1) ->
  tallied t0 (List.last tries.*1 t) (v + (guess n tries m).2) (guess n tries m).1.
Proof using max_pos lock_pos.
  induction tries as [|[t' pw] tries IH]; intros t v m Hm Hw Ht Hs; cbn [guess fmap list_fmap].
  { simpl. by rewrite Z.add_0_r. }
  apply Forall_cons in Hw as [Hw1 Hw], Ht as [Ht1 Ht].
  apply Sorted_inv in Hs as [Hs Hle]. apply HdRel_inv in Hle. simpl in Hle.
  pose proof (IH t' _ _ (tallied_step t0 t v t' pw m Hm Hle Hw1 Ht1) Hw Ht Hs) as H.
  destruct (guess n tries (login policies t' n pw m).1) as [m' k]. cbn [fst snd] in H |- *.
  change (((t', pw) :: tries).*1) with (t' :: tries.*1).
  rewrite Z.add_assoc, (last_default _ t t'). exact H.
Qed.

(** C33: Whoever guesses one after the other, from the first guess at [t0] to the
    last at [t1] at most [max_failed_attempts] passwords are looked at for
    every started span of [lock_for]: the rest are refused unlooked. *)
Theorem lockout_bound t0 tries m : users (catalog m) !! n = Some u -> failures m !! n = None ->
  Forall (wrong u) tries -> Forall timely tries -> Sorted Z.le (t0 :: tries.*1) ->
  (guess n tries m).2 <=
    max_failed_attempts policies * ((List.last tries.*1 t0 - t0) / lock_for policies + 1).
Proof using max_pos lock_pos.
  intros Hu Hf Hw Ht Hs.
  assert (H0 : tallied t0 t0 0 m).
  { unfold tallied, failures_of. rewrite Hf. simpl. split_and!; [done|lia|lia|lia|].
    exists 0. split_and!; lia. }
  destruct (guess_tallied t0 tries t0 0 m H0 Hw Ht Hs) as (_ & Hge & Hc & locks & Hl & Hv & Hlock & Hcount).
  set (t1 := List.last tries.*1 t0) in *. rewrite Z.add_0_l in Hv. rewrite Hv.
  set (f := failures_of n _) in *.
  assert (Hspan : forall k, t0 + k * lock_for policies <= t1 -> k <= (t1 - t0) / lock_for policies).
  { intros k Hk. apply Z.div_le_lower_bound; [done|lia]. }
  destruct (Z.eq_dec (count f) 0) as [Hz|Hz].
  - rewrite Hz. destruct (Z.eq_dec locks 0) as [->|Hnz].
    + assert (0 <= (t1 - t0) / lock_for policies) by (apply Z.div_pos; lia). nia.
    + destruct (Hlock ltac:(lia)) as [_ Hk]. apply Hspan in Hk. nia.
  - specialize (Hcount ltac:(lia)). apply Hspan in Hcount. nia.
Qed.

Lemma guess_counts tries : forall m, users (catalog m) !! n = Some u -> locked_until_ms (failures_of n m) = 0 ->
  Forall (wrong u) tries -> Forall timely tries ->
  count (failures_of n m) + Z.of_nat (length tries) < max_failed_attempts policies ->
  users (catalog (guess n tries m).1) !! n = Some u /\
  failures_of n (guess n tries m).1 = mkFailures (count (failures_of n m) + Z.of_nat (length tries)) 0.
Proof using max_pos lock_pos.
  induction tries as [|[t pw] tries IH]; intros m Hu Hl Hw Ht Hc; cbn [guess length] in *.
  { cbn [fst]. split; [done|]. destruct (failures_of n m) as [c l]. simpl in *. subst l. f_equal; lia. }
  apply Forall_cons in Hw as [Hw1 Hw], Ht as [Ht1 Ht].
  pose proof (wrong_login t pw m Hu Hw1 Ht1) as H. simpl in H. rewrite Hl in H.
  rewrite bool_decide_eq_false_2 in H by (destruct Ht1; simpl in *; lia).
  destruct H as (Hu' & _ & Hf). rewrite bool_decide_eq_false_2 in Hf by lia.
  destruct (IH (login policies t n pw m).1) as [H1 H2]; [done|by rewrite Hf|done|done|rewrite Hf; simpl; lia|].
  destruct (guess n tries (login policies t n pw m).1). simpl in *. split; [done|].
  rewrite H2, Hf. simpl. f_equal; lia.
Qed.

(** [max_failed_attempts] wrong passwords in a row lock the user for
    [lock_for] after the last: until then every login is refused, the right
    password too, and says how long is left. *)
Theorem locked_out tries t pw m now password : users (catalog m) !! n = Some u -> failures m !! n = None ->
  Forall (wrong u) (tries ++ [(t, pw)]) -> Forall timely (tries ++ [(t, pw)]) ->
  Z.of_nat (length tries) + 1 = max_failed_attempts policies -> now < t + lock_for policies ->
  (login policies now n password (login policies t n pw (guess n tries m).1).1).2 =
    Err (Locked (t + lock_for policies - now)).
Proof using max_pos lock_pos.
  intros Hu Hf [Hw Hw1]%Forall_app [Ht Ht1]%Forall_app Hlen Hnow.
  apply Forall_cons in Hw1 as [Hw1 _], Ht1 as [Ht1 _].
  assert (Hf0 : failures_of n m = failures_default) by (unfold failures_of; by rewrite Hf).
  destruct (guess_counts tries m Hu) as [Hu' Hc]; [by rewrite Hf0|done|done|rewrite Hf0; simpl; lia|].
  rewrite Hf0 in Hc. pose proof (wrong_login t pw _ Hu' Hw1 Ht1) as H. simpl in H. rewrite Hc in H.
  simpl in H. rewrite bool_decide_eq_false_2 in H by (destruct Ht1; simpl in *; lia).
  destruct H as (_ & _ & H). rewrite bool_decide_eq_true_2 in H by lia.
  set (m' := (login policies t n pw (guess n tries m).1).1) in *.
  unfold login, login_begin. unfold failures_of in H. destruct (failures m' !! n) as [f|]; simpl in H; subst.
  - rewrite bool_decide_eq_true_2 by done. done.
  - exfalso. unfold failures_default in H. injection H as H. destruct Ht1. simpl in *. lia.
Qed.
End guessing.
End properties.

(** ** A concrete manager: passwords stored as they are, the default policies *)
Definition plain : Hasher := {|
  hash_password _ p := Ok p;
  verify_password p h := bool_decide (p = h);
|}.
#[local] Existing Instance plain.

Definition ann : bytes := lit "ann".
Definition secret_pw : bytes := lit "first-password".
Definition at_time (t : Z) : Call := mkCall 0 t None.
Definition disk_full (t : Z) : Call := mkCall 0 t (Some (StoreIo (lit "security.json") (lit "disk full"))).

Definition opened : AuthManager := mkManager None catalog_default 0 ∅ ∅ 0.
Definition setup : list Event :=
  [Command_ (at_time 1) (CreateUser (mkNewUser ann secret_pw false Active false));
   Command_ (at_time 2) (CreateRole (lit "clerk") false (Some (lit "reader")));
   Command_ (disk_full 3) (GrantRole (lit "admin") ann);
   Command_ (at_time 4) (GrantRole (lit "clerk") ann);
   Authenticate 5 (Basic ann (lit "guess")); IssueSession 6 (lit "token") ann].
Definition staffed : AuthManager := run default_policies setup opened.

Lemma refused_command_changes_nothing_witness :
  (run_command default_policies (disk_full 7) (DropUser ann false) staffed).2 =
    Err (Store (StoreIo (lit "security.json") (lit "disk full"))) /\
  (run_command default_policies (disk_full 7) (DropUser ann false) staffed).1 = staffed.
Proof.
  assert (H : (run_command default_policies (disk_full 7) (DropUser ann false) staffed).2 =
    Err (Store (StoreIo (lit "security.json") (lit "disk full")))) by (vm_compute; reflexivity).
  split; [exact H|]. exact (refused_command_changes_nothing default_policies _ _ _ _ H).
Defined.

Lemma commands_keep_catalog_witness : manager_ok default_policies staffed /\
  (u_roles <$> users (catalog staffed) !! ann) = Some {[lit "clerk"]}.
Proof.
  split; [|vm_compute; reflexivity].
  apply (commands_keep_catalog default_policies (Ok None) None opened setup).
  - vm_compute. discriminate.
  - discriminate.
  - reflexivity.
Defined.

Lemma restart_keeps_catalog_witness :
  exists m', open (Ok (stored staffed)) None = Ok m' /\ catalog m' = catalog staffed.
Proof.
  apply (restart_keeps_catalog default_policies (Ok None) None opened setup None).
  - vm_compute. discriminate.
  - discriminate.
  - reflexivity.
Defined.

Definition suspend : Command := Alter ann (mkAlterUser None None (Some Suspended)).

Lemma sessions_ended_witness :
  is_Some (sessions staffed !! lit "token") /\
  forall token s, sessions (run_command default_policies (at_time 8) suspend staffed).1 !! token = Some s ->
    s_user s <> ann.
Proof.
  split; [eexists; vm_compute; reflexivity|].
  apply (sessions_ended default_policies (at_time 8) suspend staffed ann); vm_compute; reflexivity.
Defined.

Definition no_salary : list Privilege :=
  [graph Read (SNode (PName (lit "Person"))) (RProperty (lit "salary"))].
Definition read_salary : Request :=
  mkRequest Read hr hr (ENode [lit "Person"]) (Some (lit "salary")).

Lemma grant_effect_witness :
  decide_for (catalog staffed) ann read_salary = Granted /\
  decide_for (catalog (grant (at_time 9) Deny no_salary (lit "clerk") staffed).1) ann read_salary = Denied /\
  decide_for (catalog (grant (at_time 9) Deny no_salary (lit "clerk") staffed).1) ann read_salary =
    match users (catalog staffed) !! ann with
    | None => NotGranted
    | Some u => decide ((if bool_decide (lit "clerk" = PUBLIC \/ lit "clerk" ∈ u_roles u)
        then (fun p => (Deny, p)) <$> no_salary else []) ++ user_held (catalog staffed) u) read_salary
    end.
Proof.
  split; [vm_compute; reflexivity|]. split; [vm_compute; reflexivity|].
  apply (grant_effect (at_time 9) Deny no_salary (lit "clerk") staffed ann read_salary).
  vm_compute. reflexivity.
Defined.

Lemma context_decides_witness :
  is_allowed (decide (held (default (mkCompiled [] [] false false ∅)
    (security_context (catalog staffed) ann hr))) read_salary) =
  is_allowed (decide_for (catalog staffed) ann read_salary).
Proof. eapply (context_decides (catalog staffed) ann hr). reflexivity. Defined.

Definition guesses : list (Z * bytes) :=
  (fun t => (t, lit "guess")) <$> [10; 11; 12; 13; 14; 5012; 5013; 5014; 5015; 12000].
Definition unlocked : AuthManager := put_failures ∅ staffed.

(** Ten guesses over twelve seconds: seven are looked at. *)
Definition ann_user : User := mkUser ann secret_pw Active false 1 1 {[lit "clerk"]}.

Lemma lockout_bound_witness : (guess default_policies ann guesses unlocked).2 = 7 /\
  (guess default_policies ann guesses unlocked).2 <=
    max_failed_attempts default_policies *
    ((List.last guesses.*1 10 - 10) / lock_for default_policies + 1) /\
  max_failed_attempts default_policies *
    ((List.last guesses.*1 10 - 10) / lock_for default_policies + 1) = 9.
Proof.
  split; [vm_compute; reflexivity|]. split; [|vm_compute; reflexivity].
  refine (lockout_bound default_policies ann ann_user eq_refl eq_refl 10 guesses unlocked _ _ _ _ _).
  - vm_compute. reflexivity.
  - vm_compute. reflexivity.
  - repeat constructor.
  - repeat constructor; vm_compute; discriminate.
  - repeat constructor; vm_compute; discriminate.
Defined.

Lemma locked_out_witness :
  (login default_policies 4000 ann secret_pw
     (login default_policies 12 ann (lit "guess")
        (guess default_policies ann [(10, lit "guess"); (11, lit "guess")] unlocked).1).1).2 =
  Err (Locked (12 + lock_for default_policies - 4000)).
Proof.
  refine (locked_out default_policies ann ann_user eq_refl eq_refl
    [(10, lit "guess"); (11, lit "guess")] 12 (lit "guess") unlocked 4000 secret_pw _ _ _ _ _ _).
  - vm_compute. reflexivity.
  - vm_compute. reflexivity.
  - repeat constructor.
  - repeat constructor; vm_compute; discriminate.
  - reflexivity.
  - reflexivity.
Defined.

(** *** What other threads may do while a password is hashed *)

(** Logins that began before the lock are all looked at, so many at once are
    not bounded by it; and one with the right password takes the lock away. *)
Theorem guesses_in_flight_pass :
  let begin t := login_begin t ann unlocked in
  let finish m t pw := match begin t with
    | Ok u => (login_finish default_policies t ann pw u m).1 | Err _ => m end in
  let locked := foldl (fun m t => finish m t (lit "guess")) unlocked [10; 10; 10; 10; 10] in
  login_begin 11 ann locked = Err (Locked 4999) /\
  login_begin 11 ann (finish locked 10 secret_pw) = begin 11.
Proof. vm_compute. split; reflexivity. Qed.

(** The user read before the hash decides: a login ends well although the user
    was suspended meanwhile. *)
Theorem login_outlives_suspension :
  match login_begin 10 ann unlocked with
  | Ok u => (login_finish default_policies 10 ann secret_pw u
      (run_command default_policies (at_time 11) suspend unlocked).1).2 = Ok (mkPrincipal ann false)
  | Err _ => False
  end.
Proof. vm_compute. reflexivity. Qed.

(** A session put in after its user was dropped is good for the next user of
    that name. *)
Theorem session_outlives_user :
  may_issue ann unlocked = true /\
  let dropped := (run_command default_policies (at_time 11) (DropUser ann false) unlocked).1 in
  let late := put_session 12 (lit "late") ann dropped in
  let again := (run_command default_policies (at_time 13)
    (CreateUser (mkNewUser ann (lit "another-password") false Active false)) late).1 in
  (resume default_policies 14 (lit "late") again).2 = Ok (mkPrincipal ann false).
Proof. vm_compute. split; reflexivity. Qed.

(** An unknown user and a wrong password give the same failure only until the
    lock: a user who exists can be told from one who does not. *)
Theorem lock_tells_users_apart :
  let tried n := (guess default_policies n [(10, lit "x"); (11, lit "x"); (12, lit "x")] unlocked).1 in
  (login default_policies 13 ann (lit "x") (tried ann)).2 = Err (Locked 4999) /\
  (login default_policies 13 (lit "bob") (lit "x") (tried (lit "bob"))).2 = Err InvalidCredentials.
Proof. vm_compute. split; reflexivity. Qed.
