(* ===== verification/ContextCache.v ===== *)
(** * The server's compiled contexts, and when a change takes effect

    [Security::context_for] of [src/security.rs]: a signed-in user's security
    context is compiled once and reused until the catalog's generation moves.
    The generation is read before the cache is locked, and a change replaces
    the catalog before it moves the generation, so the steps of statements and
    of changes interleave.

    - [change_takes_effect]: a statement that begins after a change was
      acknowledged runs with a context compiled from a catalog that has it. *)
From S2P Require Import Prelude WireBytes Privileges SecurityContext AuthCatalog AuthManager.
Local Open Scope list_scope.
Local Open Scope N_scope.

(** Whose context: the user, the home database, and the roles an identity
    provider gave. *)
Record ContextKey : Type := mkKey { k_name : bytes; k_home : bytes; k_roles : option (list bytes) }.
#[export] Instance ContextKey_eq_dec : EqDecision ContextKey.
Proof. solve_decision. Defined.
#[export] Instance ContextKey_countable : Countable ContextKey.
Proof.
  refine (inj_countable' (fun k => (k_name k, k_home k, k_roles k)) (fun '(n, h, r) => mkKey n h r) _).
  by intros [].
Defined.

Definition compile (k : ContextKey) (c : Catalog) : SecurityContext :=
  match k_roles k with
  | Some l => security_context_for_roles c l (k_home k)
  | None => security_context c (k_name k) (k_home k)
  end.

(** The catalogs in force so far, the last one now; [changing] while a change
    holds the catalog's lock with the new catalog in place and the generation
    not yet moved. *)
Record Server : Type := mkServer {
  past : list Catalog;
  now_in_force : Catalog;
  generation : N;
  changing : bool;
  contexts : gmap ContextKey (N * SecurityContext);
  calls : gmap nat (N * ContextKey);
  served : list (N * ContextKey * SecurityContext);
}.

Definition CONTEXTS_LIMIT : N := 4096.

Inductive Step : Type :=
| Install (c : Catalog)
| Bump
| ReadGeneration (t : nat) (k : ContextKey)
| Serve (t : nat).

Definition remember (k : ContextKey) (g : N) (ctx : SecurityContext)
    (m : gmap ContextKey (N * SecurityContext)) : gmap ContextKey (N * SecurityContext) :=
  let m := if CONTEXTS_LIMIT <? N.of_nat (size m) then ∅ else m in <[k := (g, ctx)]> m.

(** What the second half of [context_for] does under the cache's lock:
    a hit at the generation read before, or a context compiled now. *)
Definition cached (k : ContextKey) (g : N) (s : Server) : option SecurityContext :=
  match contexts s !! k with
  | Some (built, ctx) => if built =? g then Some ctx else None
  | None => None
  end.

Definition step (st : Step) (s : Server) : Server :=
  match st with
  | Install c =>
      if changing s then s
      else mkServer (past s ++ [now_in_force s]) c (generation s) true (contexts s) (calls s) (served s)
  | Bump =>
      if changing s
      then mkServer (past s) (now_in_force s) (generation s + 1) false (contexts s) (calls s) (served s)
      else s
  | ReadGeneration t k =>
      match calls s !! t with
      | Some _ => s
      | None => mkServer (past s) (now_in_force s) (generation s) (changing s) (contexts s)
                  (<[t := (generation s, k)]> (calls s)) (served s)
      end
  | Serve t =>
      match calls s !! t with
      | None => s
      | Some (g, k) =>
          match cached k g s with
          | Some ctx =>
              mkServer (past s) (now_in_force s) (generation s) (changing s) (contexts s)
                (delete t (calls s)) (served s ++ [(g, k, ctx)])
          | None =>
              if changing s then s
              else
                let ctx := compile k (now_in_force s) in
                mkServer (past s) (now_in_force s) (generation s) (changing s)
                  (remember k g ctx (contexts s)) (delete t (calls s)) (served s ++ [(g, k, ctx)])
          end
      end
  end.

Definition run (sts : list Step) (s : Server) : Server := foldl (fun s st => step st s) s sts.
Definition start (c : Catalog) : Server := mkServer [] c 0 false ∅ ∅ [].

(** The [i]-th catalog that was in force. *)
Definition version (s : Server) (i : nat) : option Catalog := (past s ++ [now_in_force s]) !! i.

(** The context [ctx] is compiled from a catalog at least as new as the
    [g]-th. *)
Definition fresh (s : Server) (g : N) (k : ContextKey) (ctx : SecurityContext) : Prop :=
  exists i c, version s i = Some c /\ g <= N.of_nat i /\ ctx = compile k c.

Definition server_ok (s : Server) : Prop :=
  N.of_nat (length (past s)) = generation s + (if changing s then 1 else 0) /\
  (forall t g k, calls s !! t = Some (g, k) -> g <= generation s) /\
  (forall k g ctx, contexts s !! k = Some (g, ctx) -> fresh s g k ctx) /\
  (forall g k ctx, (g, k, ctx) ∈ served s -> fresh s g k ctx).

Lemma fresh_now s g k : server_ok s -> changing s = false -> g <= generation s ->
  fresh s g k (compile k (now_in_force s)).
Proof.
  intros (Hl & _) Hc Hg. rewrite Hc in Hl. exists (length (past s)), (now_in_force s). split_and!; [|lia|done].
  unfold version. by rewrite lookup_app_r, Nat.sub_diag.
Qed.

Lemma install_fresh s c g k ctx : fresh s g k ctx ->
  fresh (mkServer (past s ++ [now_in_force s]) c (generation s) true (contexts s) (calls s) (served s)) g k ctx.
Proof. intros (i & c' & Hi & Hg & ->). exists i, c'. split_and!; [|done|done]. by apply lookup_app_l_Some. Qed.

Lemma cached_fresh s k g ctx : server_ok s -> cached k g s = Some ctx -> fresh s g k ctx.
Proof.
  intros (_ & _ & Hc & _). unfold cached. destruct (contexts s !! k) as [[built ctx']|] eqn:Hk; [|done].
  destruct (N.eqb_spec built g) as [->|]; [|done]. intros [= <-]. by apply Hc.
Qed.

Lemma step_ok st s : server_ok s -> server_ok (step st s).
Proof.
  intros Hs. pose proof Hs as (Hl & Hcalls & Hctx & Hserved). destruct st as [c| |t k|t]; simpl.
  - destruct (changing s) eqn:Hc; [done|]. split_and!; simpl; [|done| |].
    + rewrite length_app. simpl. lia.
    + intros. by apply install_fresh, Hctx.
    + intros. by apply install_fresh, Hserved.
  - destruct (changing s) eqn:Hc; [|done]. split_and!; simpl; [lia| |done|done].
    intros t g k Ht. specialize (Hcalls _ _ _ Ht). lia.
  - destruct (calls s !! t) eqn:Ht; [done|]. split_and!; simpl; [done| |done|done].
    intros t' g k'. rewrite lookup_insert. case_decide; [intros [= <- <-]; lia|apply Hcalls].
  - destruct (calls s !! t) as [[g k]|] eqn:Ht; [|done].
    assert (Hdel : forall t' g' k', delete t (calls s) !! t' = Some (g', k') -> g' <= generation s).
    { intros t' g' k' [_ ?]%lookup_delete_Some. by eapply Hcalls. }
    assert (Hnew : forall ctx, fresh s g k ctx -> forall g' k' ctx',
        (g', k', ctx') ∈ served s ++ [(g, k, ctx)] -> fresh s g' k' ctx').
    { intros ctx Hf g' k' ctx' [?|[= -> -> ->]%list_elem_of_singleton]%elem_of_app; auto. }
    destruct (cached k g s) as [ctx|] eqn:Hk.
    + split_and!; [done|done|done|]. apply Hnew. by apply cached_fresh.
    + destruct (changing s) eqn:Hc; [done|].
      assert (Hf : fresh s g k (compile k (now_in_force s))) by (apply fresh_now; [done|done|by eapply Hcalls]).
      split_and!; [simpl; lia|done| |by apply Hnew].
      intros k' g' ctx. simpl. unfold remember. rewrite lookup_insert.
      case_decide; [intros [= <- <-]; by subst|]. case_match; [by rewrite lookup_empty|apply Hctx].
Qed.

Lemma run_server_ok sts s : server_ok s -> server_ok (run sts s).
Proof. revert s. induction sts as [|st sts IH]; intros s Hs; [done|]. by apply IH, step_ok. Qed.

(** C29: A statement that read generation [g] - that many changes had been
    acknowledged - is served a context compiled from a catalog that has all of
    them: a privilege revoked, a role taken or a user dropped before it began
    no longer counts, whatever else interleaves and whatever the cache holds. *)
Theorem change_takes_effect c sts g k ctx : (g, k, ctx) ∈ served (run sts (start c)) ->
  exists i c', version (run sts (start c)) i = Some c' /\ g <= N.of_nat i /\ ctx = compile k c'.
Proof.
  intros H. assert (Hok : server_ok (run sts (start c))).
  { apply run_server_ok. split_and!; simpl; [done|..]; intros *; rewrite ?lookup_empty; try done.
    intros Hn. by apply elem_of_nil in Hn. }
  by apply Hok.
Qed.

(** ** A revocation while statements run *)
Definition revoked : Catalog := catalog (grant (at_time 9) Deny no_salary (lit "clerk") staffed).1.
Definition ann_key : ContextKey := mkKey ann hr None.

(** One statement reads the generation before the change and is served between
    its two halves; one is served after it from a cache that is out of date. *)
Definition schedule : list Step :=
  [ReadGeneration 0 ann_key; Serve 0; ReadGeneration 1 ann_key; Install revoked; Serve 1; Bump;
   ReadGeneration 2 ann_key; Serve 2].

Definition allows (ctx : SecurityContext) : bool := (can_read_property ctx hr (ENode [lit "Person"]) (lit "salary")).2.

Lemma change_takes_effect_witness :
  (fun e => (e.1.1, allows e.2)) <$> served (run schedule (start (catalog staffed))) =
    [(0, true); (0, true); (1, false)] /\
  exists i c', version (run schedule (start (catalog staffed))) i = Some c' /\ 1 <= N.of_nat i /\
    compile ann_key revoked = compile ann_key c'.
Proof.
  split; [vm_compute; reflexivity|].
  apply (change_takes_effect (catalog staffed) schedule 1 ann_key (compile ann_key revoked)).
  assert (H : served (run schedule (start (catalog staffed))) =
    [(0, ann_key, compile ann_key (catalog staffed)); (0, ann_key, compile ann_key (catalog staffed));
     (1, ann_key, compile ann_key revoked)]) by (vm_compute; reflexivity).
  rewrite H. right. right. left.
Defined.
