(* ===== verification/PrivilegeCommands.v ===== *)
(** * Privilege commands: reading and writing [GRANT], [DENY] and [REVOKE]

    [drevo-auth/src/privileges/parse.rs] and the printers of [model.rs].  In
    this file a string is the list of its characters, as the lexer reads it.

    - [command_roundtrip]: the command written for a privilege a role holds
      reads back as that privilege for that role; the text is cut into chunks
      whose tokens are known, and each level of the parser reads its own;
    - [parsed_shape]: every text is read or refused, and every privilege that
      is read has the shape of its action, which [shaped_graph_wide] hands to
      [SecurityContext];
    - [command_rereads]: the two together;
    - [glob_not_quoted]: a procedure name that needs backticks is written
      without them. *)
From S2P Require Import Prelude WireBytes Privileges SecurityContext AuthCatalog AuthManager.
Local Open Scope list_scope.
Local Open Scope N_scope.

(** ** Characters: Unicode's tables are the standard library's *)
Class Chars := { is_whitespace : N -> bool; is_alphanumeric : N -> bool }.

Definition ascii_space (c : N) : bool := within 9 13 c || (c =? 32).
Class CharsLaws `{!Chars} : Prop := {
  ascii_whitespace : forall c, c < 128 -> is_whitespace c = ascii_space c;
  ascii_alphanumeric : forall c, c < 128 -> is_alphanumeric c = AuthCatalog.is_alphanumeric c;
  alphanumeric_not_space : forall c, is_alphanumeric c = true -> is_whitespace c = false;
}.

Definition to_lower (c : N) : N := if within 65 90 c then c + 32 else c.
Definition eq_ignore_case (a b : bytes) : bool := bool_decide (to_lower <$> a = to_lower <$> b).

Definition RESERVED : list bytes :=
  [lit "TO"; lit "FROM"; lit "ON"; lit "NODE"; lit "NODES"; lit "RELATIONSHIP";
   lit "RELATIONSHIPS"; lit "ELEMENT"; lit "ELEMENTS"; lit "WHERE"; lit "FOR"].
Definition is_reserved (word : bytes) : bool := existsb (fun r => eq_ignore_case r word) RESERVED.

(** ** Tokens *)
Inductive Token : Type :=
| Word (text : bytes) (quoted : bool)
| Star | LBrace | RBrace | LParen | RParen | Comma
| Other (c : N).

Definition BACKTICK : N := 96.

Definition token_text (t : Token) : bytes :=
  match t with
  | Word text true => BACKTICK :: text ++ [BACKTICK]
  | Word text false => text
  | Star => lit "*" | LBrace => lit "{" | RBrace => lit "}" | LParen => lit "(" | RParen => lit ")"
  | Comma => lit ","
  | Other c => [c]
  end.

Definition punctuation (c : N) : option Token :=
  if c =? 123 then Some LBrace else if c =? 125 then Some RBrace else if c =? 40 then Some LParen
  else if c =? 41 then Some RParen else if c =? 44 then Some Comma else None.

Abbreviation ParseError := bytes (only parsing).

Section lexer.
Context {chars : Chars}.

Definition is_word_char (c : N) : bool := is_alphanumeric c || bool_decide (c ∈ lit "_.-*?$").

(** The loop over a name in backticks, a doubled backtick standing for one. *)
Fixpoint take_quoted (chars : bytes) : option (bytes * bytes) :=
  match chars with
  | [] => None
  | c :: rest =>
      if c =? BACKTICK then
        match rest with
        | c' :: rest' =>
            if c' =? BACKTICK then
              match take_quoted rest' with Some (n, r) => Some (BACKTICK :: n, r) | None => None end
            else Some ([], rest)
        | [] => Some ([], rest)
        end
      else match take_quoted rest with Some (n, r) => Some (c :: n, r) | None => None end
  end.

Fixpoint take_word (chars : bytes) : bytes * bytes :=
  match chars with
  | c :: rest => if is_word_char c then let '(w, r) := take_word rest in (c :: w, r) else ([], chars)
  | [] => ([], [])
  end.

(** One token per round, at most one round per character. *)
Fixpoint lex_loop (fuel : nat) (chars : bytes) (out : list Token) : option (result ParseError (list Token)) :=
  match fuel with
  | O => None
  | S fuel =>
      match chars with
      | [] => Some (Ok out)
      | c :: rest =>
          if is_whitespace c then lex_loop fuel rest out
          else match punctuation c with
          | Some t => lex_loop fuel rest (out ++ [t])
          | None =>
              if c =? BACKTICK then
                match take_quoted rest with
                | None => Some (Err (lit "a name in backticks has no closing backtick"))
                | Some ([], _) => Some (Err (lit "a name in backticks is empty"))
                | Some (n, rest) => lex_loop fuel rest (out ++ [Word n true])
                end
              else if is_word_char c then
                let '(word, rest) := take_word chars in
                lex_loop fuel rest (out ++ [if bool_decide (word = lit "*") then Star else Word word false])
              else lex_loop fuel rest (out ++ [Other c])
          end
      end
  end.

Definition lex (text : bytes) : option (result ParseError (list Token)) :=
  lex_loop (S (length text)) text [].
End lexer.

(** ** The parser: a function of the tokens still to read *)
Definition P (A : Type) : Type := list Token -> result ParseError (A * list Token).

Definition fail {A} (message : bytes) : result ParseError A := Err message.

Definition found (ts : list Token) : bytes :=
  match ts with t :: _ => lit "'" ++ token_text t ++ lit "'" | [] => lit "the end of the command" end.

(** [at] and [eat]: a bare keyword, in any case. *)
Definition at_ (kw : bytes) (ts : list Token) : bool :=
  match ts with Word text false :: _ => eq_ignore_case text kw | _ => false end.
Definition eat (kw : bytes) (ts : list Token) : option (list Token) :=
  if at_ kw ts then Some (tail ts) else None.

Fixpoint eat_any (kws : list bytes) (ts : list Token) : option (bytes * list Token) :=
  match kws with
  | [] => None
  | kw :: kws => match eat kw ts with Some ts => Some (kw, ts) | None => eat_any kws ts end
  end.

(** [let _ = self.eat(..)]: the word may be left out. *)
Definition skip (kw : bytes) (ts : list Token) : list Token := default ts (eat kw ts).
Definition skip_any (kws : list bytes) (ts : list Token) : list Token :=
  match eat_any kws ts with Some (_, ts) => ts | None => ts end.

Definition expect (kw context : bytes) : P unit := fun ts =>
  match eat kw ts with
  | Some ts => Ok (tt, ts)
  | None => fail (lit "expected " ++ kw ++ lit " " ++ context ++ lit ", found " ++ found ts)
  end.

Definition name_ (what : bytes) : P bytes := fun ts =>
  match ts with
  | Word text true :: ts => Ok (text, ts)
  | Word text false :: rest =>
      if is_reserved text then fail (lit "expected " ++ what ++ lit ", found " ++ found ts)
      else if bool_decide (STAR ∈ text) || bool_decide (QUESTION ∈ text)
      then fail (lit "expected " ++ what ++ lit ", found '" ++ text ++ lit "'")
      else Ok (text, rest)
  | _ => fail (lit "expected " ++ what ++ lit ", found " ++ found ts)
  end.

(** The names after the first, each behind a comma; a name takes a token. *)
Fixpoint more_names (fuel : nat) (what : bytes) (ts : list Token) : option (result ParseError (list bytes * list Token)) :=
  match fuel with
  | O => None
  | S fuel =>
      match ts with
      | Comma :: ts =>
          match name_ what ts with
          | Err e => Some (Err e)
          | Ok (n, ts) =>
              match more_names fuel what ts with
              | Some (Ok (ns, ts)) => Some (Ok (n :: ns, ts))
              | other => other
              end
          end
      | _ => Some (Ok ([], ts))
      end
  end.

(** A parser that may still be looping. *)
Definition PL (A : Type) : Type := list Token -> option (result ParseError (A * list Token)).
Definition pl_ret {A} (a : A) : PL A := fun ts => Some (Ok (a, ts)).
Definition pl_bind {A B} (m : PL A) (f : A -> PL B) : PL B := fun ts =>
  match m ts with
  | Some (Ok (a, ts)) => f a ts
  | Some (Err e) => Some (Err e)
  | None => None
  end.
Definition once {A} (p : P A) : PL A := fun ts => Some (p ts).
Definition refuse_with {A} (message : list Token -> bytes) : PL A := fun ts => Some (Err (message ts)).

Notation "'do' x <- m ; k" := (pl_bind m (fun x => k))
  (at level 10, x pattern, m at level 100, k at level 200).

Definition name_list (what : bytes) : PL (list bytes) :=
  do n <- once (name_ what);
  do ns <- (fun ts => more_names (S (length ts)) what ts);
  pl_ret (n :: ns).

Definition patterns (what : bytes) : PL (list Pattern) := fun ts =>
  match ts with
  | Star :: ts => Some (Ok ([PAll], ts))
  | _ => (do ns <- name_list what; pl_ret (PName <$> ns)) ts
  end.

Fixpoint globs_loop (fuel : nat) (ts : list Token) : option (result ParseError (list Pattern * list Token)) :=
  match fuel with
  | O => None
  | S fuel =>
      let refused := Some (Err (lit "expected a procedure or function name, found " ++ found ts)) in
      let continue (p : Pattern) (rest : list Token) :=
        match rest with
        | Comma :: rest =>
            match globs_loop fuel rest with
            | Some (Ok (ps, ts)) => Some (Ok (p :: ps, ts))
            | other => other
            end
        | _ => Some (Ok ([p], rest))
        end in
      match ts with
      | Star :: rest => continue PAll rest
      | Word text quoted :: rest =>
          if quoted || negb (eq_ignore_case text (lit "ON")) then continue (PName text) rest else refused
      | _ => refused
      end
  end.
Definition globs : PL (list Pattern) := fun ts => globs_loop (S (length ts)) ts.

Definition properties : PL (list Pattern) := fun ts =>
  match ts with
  | LBrace :: ts =>
      (do props <- patterns (lit "a property name");
       fun ts => match ts with
         | RBrace :: ts => Some (Ok (props, ts))
         | _ => Some (Err (lit "expected } after the properties, found " ++ found ts))
         end) ts
  | _ => Some (Err (lit "expected a property list in braces, e.g. {*} or {name}, found " ++ found ts))
  end.

(** *** Privileges *)
Record Head : Type := mkHead {
  h_action : Action;
  names : list Pattern;
  qualifiers : list Pattern;
  all : bool;
}.
Definition simple (a : Action) : Head := mkHead a [] [] false.
Definition with_names (a : Action) (ns : list Pattern) : Head := mkHead a ns [] false.

Definition takes_properties (a : Action) : bool :=
  match a with Read | Match | SetProperty | Merge => true | _ => false end.
Definition takes_labels (a : Action) : bool :=
  match a with SetLabel | RemoveLabel => true | _ => false end.
Definition takes_segment (a : Action) : bool :=
  match a with Traverse | Read | Match | Create | Delete | SetProperty | Merge => true | _ => false end.

Definition keyword (a : Action) : bytes :=
  lit match a with
  | Traverse => "TRAVERSE" | Read => "READ" | Match => "MATCH" | Create => "CREATE"
  | Delete => "DELETE" | SetLabel => "SET LABEL" | RemoveLabel => "REMOVE LABEL"
  | SetProperty => "SET PROPERTY" | Merge => "MERGE" | Write => "WRITE"
  | AllGraph => "ALL GRAPH PRIVILEGES" | AccessDatabase => "ACCESS" | Start => "START"
  | Stop => "STOP" | IndexManagement => "INDEX MANAGEMENT"
  | ConstraintManagement => "CONSTRAINT MANAGEMENT" | NameManagement => "NAME MANAGEMENT"
  | TransactionManagement => "TRANSACTION MANAGEMENT" | AllDatabase => "ALL DATABASE PRIVILEGES"
  | UserManagement => "USER MANAGEMENT" | RoleManagement => "ROLE MANAGEMENT"
  | PrivilegeManagement => "PRIVILEGE MANAGEMENT" | DatabaseManagement => "DATABASE MANAGEMENT"
  | ExecuteProcedure => "EXECUTE PROCEDURE" | ExecuteFunction => "EXECUTE FUNCTION"
  | ExecuteAdminProcedures => "EXECUTE ADMIN PROCEDURES" | AllDbms => "ALL DBMS PRIVILEGES"
  end.

(** A privilege that starts with its own keyword. *)
Definition keyed (kw : bytes) (p : PL Head) (otherwise : PL Head) : PL Head := fun ts =>
  match eat kw ts with Some ts => p ts | None => otherwise ts end.
Definition keyed_any (kws : list bytes) (p : PL Head) (otherwise : PL Head) : PL Head := fun ts =>
  match eat_any kws ts with Some (_, ts) => p ts | None => otherwise ts end.

Definition transaction_head : PL Head := fun ts =>
  match skip (lit "MANAGEMENT") ts with
  | LParen :: ts =>
      (do users <- patterns (lit "a user name");
       fun ts => match ts with
         | RParen :: ts => Some (Ok (mkHead TransactionManagement [] users false, ts))
         | _ => Some (Err (lit "expected ) after the users, found " ++ found ts))
         end) ts
  | ts => Some (Ok (mkHead TransactionManagement [] [PAll] false, ts))
  end.

Definition execute_head : PL Head :=
  keyed_any [lit "ADMIN"; lit "ADMINISTRATOR"]
    (do _ <- once (expect (lit "PROCEDURES") (lit "after EXECUTE ADMIN"));
     pl_ret (simple ExecuteAdminProcedures))
  (keyed_any [lit "PROCEDURE"; lit "PROCEDURES"]
    (do q <- globs; pl_ret (mkHead ExecuteProcedure [] q false))
  (keyed_any [lit "FUNCTION"; lit "FUNCTIONS"]
    (do q <- globs; pl_ret (mkHead ExecuteFunction [] q false))
  (refuse_with (fun ts =>
    lit "expected PROCEDURE, FUNCTION or ADMIN PROCEDURES after EXECUTE, found " ++ found ts)))).

(** The words [USER], [ROLE], [PRIVILEGE] and [DATABASE] only with
    [MANAGEMENT] behind them. *)
Fixpoint management (l : list (bytes * Action)) (otherwise : PL Head) : PL Head := fun ts =>
  match l with
  | [] => otherwise ts
  | (word, a) :: l =>
      if at_ word ts && at_ (lit "MANAGEMENT") (tail ts) then Some (Ok (simple a, tail (tail ts)))
      else management l otherwise ts
  end.

Definition head : PL Head :=
  keyed (lit "TRAVERSE") (pl_ret (simple Traverse))
  (keyed (lit "READ") (do ps <- properties; pl_ret (with_names Read ps))
  (keyed (lit "MATCH") (do ps <- properties; pl_ret (with_names Match ps))
  (keyed (lit "MERGE") (do ps <- properties; pl_ret (with_names Merge ps))
  (keyed (lit "CREATE") (pl_ret (simple Create))
  (keyed (lit "DELETE") (pl_ret (simple Delete))
  (keyed (lit "WRITE") (pl_ret (simple Write))
  (keyed (lit "SET")
    (keyed (lit "LABEL") (do ls <- patterns (lit "a label"); pl_ret (with_names SetLabel ls))
    (keyed (lit "PROPERTY") (do ps <- properties; pl_ret (with_names SetProperty ps))
    (refuse_with (fun ts => lit "expected LABEL or PROPERTY after SET, found " ++ found ts))))
  (keyed (lit "REMOVE")
    (do _ <- once (expect (lit "LABEL") (lit "after REMOVE"));
     do ls <- patterns (lit "a label"); pl_ret (with_names RemoveLabel ls))
  (keyed (lit "ALL") (fun ts =>
    let ts := skip_any [lit "GRAPH"; lit "DATABASE"; lit "DBMS"] ts in
    Some (Ok (mkHead AllGraph [] [] true, skip (lit "PRIVILEGES") ts)))
  (keyed (lit "ACCESS") (pl_ret (simple AccessDatabase))
  (keyed (lit "START") (pl_ret (simple Start))
  (keyed (lit "STOP") (pl_ret (simple Stop))
  (keyed_any [lit "INDEX"; lit "INDEXES"]
    (fun ts => Some (Ok (simple IndexManagement, skip (lit "MANAGEMENT") ts)))
  (keyed_any [lit "CONSTRAINT"; lit "CONSTRAINTS"]
    (fun ts => Some (Ok (simple ConstraintManagement, skip (lit "MANAGEMENT") ts)))
  (keyed (lit "NAME") (fun ts => Some (Ok (simple NameManagement, skip (lit "MANAGEMENT") ts)))
  (keyed (lit "TRANSACTION") transaction_head
  (management [(lit "USER", UserManagement); (lit "ROLE", RoleManagement);
               (lit "PRIVILEGE", PrivilegeManagement); (lit "DATABASE", DatabaseManagement)]
  (keyed (lit "EXECUTE") execute_head
  (refuse_with (fun ts => lit "expected a privilege, found " ++ found ts)))))))))))))))))))).

Definition level_words (l : Level) : bytes :=
  match l with LGraph => lit "a GRAPH" | LDatabase => lit "a DATABASE" | LDbms => lit "the DBMS" end.

Definition level_word : PL Level := fun ts =>
  match eat_any [lit "GRAPH"; lit "GRAPHS"] ts with
  | Some (_, ts) => Some (Ok (LGraph, ts))
  | None =>
      match eat_any [lit "DATABASE"; lit "DATABASES"] ts with
      | Some (_, ts) => Some (Ok (LDatabase, ts))
      | None => Some (Err (lit "expected GRAPH, DATABASE or DBMS after ON, found " ++ found ts))
      end
  end.

Definition NODE_WORDS : list bytes := [lit "NODE"; lit "NODES"].
Definition RELATIONSHIP_WORDS : list bytes := [lit "RELATIONSHIP"; lit "RELATIONSHIPS"].
Definition ELEMENT_WORDS : list bytes := [lit "ELEMENT"; lit "ELEMENTS"].

Definition segments (a : Action) : PL (list Segment) := fun ts =>
  let kind := eat_any (NODE_WORDS ++ RELATIONSHIP_WORDS ++ ELEMENT_WORDS) ts in
  if negb (takes_segment a) then
    match kind with
    | Some _ => Some (Err (keyword a ++ lit " applies to the whole graph and takes no segment (NODES / RELATIONSHIPS / ELEMENTS)"))
    | None => Some (Ok ([SGraph], ts))
    end
  else match kind with
  | None => Some (Ok ([SNode PAll; SRelationship PAll], ts))
  | Some (kind, ts) =>
      let nodes := starts_with (lit "NODE") kind in
      let relationships := starts_with (lit "RELATIONSHIP") kind in
      let what := if nodes then lit "a label"
                  else if relationships then lit "a relationship type"
                  else lit "a label or relationship type" in
      (do ps <- patterns what;
       pl_ret ((if relationships then [] else SNode <$> ps) ++
               (if nodes then [] else SRelationship <$> ps))) ts
  end.

Definition dbms_privileges (h : Head) : list Privilege :=
  let make s := mkPrivilege (h_action h) None s RDatabase in
  match h_action h with
  | ExecuteProcedure => (fun p => make (SProcedure p)) <$> qualifiers h
  | ExecuteFunction => (fun p => make (SFunction p)) <$> qualifiers h
  | _ => [make SDatabase]
  end.

Definition database_privileges (h : Head) (targets : list Target) : list Privilege :=
  flat_map (fun t =>
    let make s := mkPrivilege (h_action h) (Some t) s RDatabase in
    match h_action h with
    | TransactionManagement => (fun u => make (SUser u)) <$> qualifiers h
    | _ => [make SDatabase]
    end) targets.

Definition resources (h : Head) : list Resource :=
  if takes_properties (h_action h)
  then (fun p => match p with PAll => RAllProperties | PName n => RProperty n end) <$> names h
  else if takes_labels (h_action h)
  then (fun p => match p with PAll => RAllLabels | PName n => RLabel n end) <$> names h
  else [RGraph].

Definition graph_privileges (h : Head) (targets : list Target) (segs : list Segment) : list Privilege :=
  flat_map (fun t => flat_map (fun s =>
    (fun r => mkPrivilege (h_action h) (Some t) s r) <$> resources h) segs) targets.

Definition set_action (a : Action) (h : Head) : Head := mkHead a (names h) (qualifiers h) (all h).

Definition targets_of (ps : list Pattern) : list Target :=
  (fun p => match p with PAll => TAll | PName n => TNamed n end) <$> ps.

Definition scope : PL (Level * list Target) := fun ts =>
  match eat (lit "HOME") ts with
  | Some ts => (do l <- level_word; pl_ret (l, [THome])) ts
  | None =>
      if at_ (lit "DEFAULT") ts
      then Some (Err (lit "DEFAULT GRAPH / DEFAULT DATABASE is not supported; use HOME or a name"))
      else (do l <- level_word;
            do ps <- patterns (match l with LGraph => lit "a graph name" | _ => lit "a database name" end);
            pl_ret (l, targets_of ps)) ts
  end.

(** The privileges of a head, from behind its [ON]. *)
Definition privilege_on (h : Head) : PL (list Privilege) := fun ts =>
  match eat (lit "DBMS") ts with
  | Some ts =>
      let h := if all h then set_action AllDbms h else h in
      if bool_decide (level (h_action h) = LDbms) then Some (Ok (dbms_privileges h, ts))
      else Some (Err (keyword (h_action h) ++ lit " applies to " ++ level_words (level (h_action h)) ++
                      lit ", not ON DBMS"))
  | None =>
      (do found_scope <- scope;
       let '(l, targets) := found_scope in
       fun ts =>
         let h := if all h then set_action (match l with LGraph => AllGraph | _ => AllDatabase end) h else h in
         if negb (bool_decide (level (h_action h) = l)) then
           Some (Err (keyword (h_action h) ++ lit " applies to " ++ level_words (level (h_action h)) ++
                      lit ", not ON " ++ match l with LGraph => lit "GRAPH" | _ => lit "DATABASE" end))
         else if bool_decide (l = LDatabase) then Some (Ok (database_privileges h targets, ts))
         else (do segs <- segments (h_action h);
               fun ts =>
                 if at_ (lit "WHERE") ts || at_ (lit "FOR") ts
                 then Some (Err (lit "property-based segments (WHERE / FOR) are not supported"))
                 else Some (Ok (graph_privileges h targets segs, ts))) ts) ts
  end.

Definition privilege : PL (list Privilege) :=
  do h <- head;
  do _ <- once (expect (lit "ON") (lit "after the privilege"));
  privilege_on h.

Inductive Op : Type := OGrant | ODeny | ORevoke (a : option Access).
Record Command : Type := mkCommand { op : Op; c_privileges : list Privilege; c_roles : list bytes }.

Definition op_name (o : Op) : bytes :=
  match o with OGrant => lit "GRANT" | ODeny => lit "DENY" | ORevoke _ => lit "REVOKE" end.

Definition command_op : PL Op := fun ts =>
  match eat (lit "GRANT") ts with
  | Some ts => Some (Ok (OGrant, ts))
  | None =>
  match eat (lit "DENY") ts with
  | Some ts => Some (Ok (ODeny, ts))
  | None =>
  match eat (lit "REVOKE") ts with
  | Some ts =>
      match eat (lit "GRANT") ts with
      | Some ts => Some (Ok (ORevoke (Some Grant), ts))
      | None =>
          match eat (lit "DENY") ts with
          | Some ts => Some (Ok (ORevoke (Some Deny), ts))
          | None => Some (Ok (ORevoke None, ts))
          end
      end
  | None => Some (Err (lit "expected GRANT, DENY or REVOKE, found " ++ found ts))
  end end end.

Definition command : PL Command :=
  do o <- command_op;
  fun ts =>
    if at_ (lit "IMMUTABLE") ts then Some (Err (lit "IMMUTABLE privileges are not supported"))
    else
      (do ps <- privilege;
       let '(word, other) := match o with
         | ORevoke _ => (lit "FROM", lit "TO") | _ => (lit "TO", lit "FROM") end in
       fun ts =>
         match eat word ts with
         | None =>
             let hint := if at_ other ts
               then lit " (" ++ op_name o ++ lit " uses " ++ word ++ lit ", not " ++ other ++ lit ")"
               else [] in
             Some (Err (lit "expected " ++ word ++ lit " and a role after the privilege, found " ++
                        found ts ++ hint))
         | Some ts =>
             (do roles <- name_list (lit "a role name"); pl_ret (mkCommand o ps roles)) ts
         end) ts.

Definition parse `{!Chars} (text : bytes) : option (result ParseError Command) :=
  match lex text with
  | None => None
  | Some (Err e) => Some (Err e)
  | Some (Ok ts) =>
      match command ts with
      | None => None
      | Some (Err e) => Some (Err e)
      | Some (Ok (c, [])) => Some (Ok c)
      | Some (Ok (_, t :: _)) => Some (Err (lit "unexpected '" ++ token_text t ++ lit "' after the command"))
      end
  end.

(** ** Writing commands ([model.rs]) *)
Fixpoint double_backticks (n : bytes) : bytes :=
  match n with
  | [] => []
  | c :: n => if c =? BACKTICK then BACKTICK :: BACKTICK :: double_backticks n else c :: double_backticks n
  end.

Definition in_backticks (n : bytes) : bytes := BACKTICK :: double_backticks n ++ [BACKTICK].

Definition plain_name (n : bytes) : bool :=
  match n with c :: _ => is_alphabetic c || (c =? 95) | [] => false end &&
  forallb (fun c => AuthCatalog.is_alphanumeric c || (c =? 95)) n && negb (is_reserved n).

Definition quote (n : bytes) : bytes := if plain_name n then n else in_backticks n.
Definition pattern_text (p : Pattern) : bytes := match p with PAll => lit "*" | PName n => quote n end.
Definition glob_text (p : Pattern) : bytes := match p with PAll => lit "*" | PName n => n end.

(** The words before [ON], their argument included. *)
Definition head_text (p : Privilege) : bytes :=
  keyword (action p) ++
  match level (action p) with
  | LDbms => match segment p with SProcedure g | SFunction g => lit " " ++ glob_text g | _ => [] end
  | LDatabase => match segment p with SUser u => lit " (" ++ pattern_text u ++ lit ")" | _ => [] end
  | LGraph =>
      match resource p with
      | RAllProperties => lit " {*}"
      | RProperty n => lit " {" ++ quote n ++ lit "}"
      | RAllLabels => lit " *"
      | RLabel l => lit " " ++ quote l
      | RGraph | RDatabase => []
      end
  end.

Definition target_text (what : bytes) (t : option Target) : bytes :=
  match t with
  | Some THome => lit " ON HOME " ++ what
  | Some (TNamed n) => lit " ON " ++ what ++ lit " " ++ quote n
  | _ => lit " ON " ++ what ++ lit " *"
  end.

Definition segment_text (s : Segment) : bytes :=
  match s with
  | SNode p => lit " NODE " ++ pattern_text p
  | SRelationship p => lit " RELATIONSHIP " ++ pattern_text p
  | _ => []
  end.

Definition privilege_text (p : Privilege) : bytes :=
  head_text p ++
  match level (action p) with
  | LDbms => lit " ON DBMS"
  | LDatabase => target_text (lit "DATABASE") (target p)
  | LGraph => target_text (lit "GRAPH") (target p) ++ segment_text (segment p)
  end.

Definition access_keyword (a : Access) : bytes := match a with Grant => lit "GRANT" | Deny => lit "DENY" end.

Definition to_command (e : Entry) : bytes :=
  access_keyword (e_access e) ++ lit " " ++ privilege_text (e_privilege e) ++ lit " TO " ++
  in_backticks (e_role e).
Definition to_revoke_command (e : Entry) : bytes :=
  lit "REVOKE " ++ access_keyword (e_access e) ++ lit " " ++ privilege_text (e_privilege e) ++
  lit " FROM " ++ in_backticks (e_role e).

(** ** Lexing what is written *)
Section lexing.
Context {chars : Chars} {laws : CharsLaws}.

Definition lexed (text : bytes) (ts : list Token) : Prop :=
  forall fuel out, (length text < fuel)%nat -> lex_loop fuel text out = Some (Ok (out ++ ts)).

Lemma lex_lexed text ts : lexed text ts -> lex text = Some (Ok ts).
Proof using Type. intros H. apply (H _ []). lia. Qed.

Lemma word_char_facts c : is_word_char c = true ->
  is_whitespace c = false /\ punctuation c = None /\ c <> BACKTICK.
Proof using laws.
  unfold is_word_char. intros [Ha|Hin%bool_decide_eq_true]%orb_true_iff.
  - assert (Hno : forall d, d < 128 -> AuthCatalog.is_alphanumeric d = false -> c <> d).
    { intros d Hd Hf ->. rewrite ascii_alphanumeric in Ha by done. congruence. }
    split; [by apply alphanumeric_not_space|]. split; [|by apply Hno].
    unfold punctuation. rewrite !(proj2 (N.eqb_neq _ _)); [done|by apply Hno..].
  - apply list_elem_of_In in Hin. simpl in Hin.
    destruct Hin as [<-|[<-|[<-|[<-|[<-|[<-|[]]]]]]]; (split; [by rewrite ascii_whitespace|split; done]).
Qed.

(** The pieces a command is written in. *)
Inductive Chunk : Type :=
| Sp | W (w : bytes) | Q (n : bytes) | B (n : bytes) | Pu (c : N).

Definition chunk_text (c : Chunk) : bytes :=
  match c with Sp => [32] | W w => w | Q n => quote n | B n => in_backticks n | Pu c => [c] end.

Definition word_token (w : bytes) : Token := if bool_decide (w = lit "*") then Star else Word w false.
Definition quote_token (n : bytes) : Token := Word n (negb (plain_name n)).

Definition chunk_tokens (c : Chunk) : list Token :=
  match c with
  | Sp => [] | W w => [word_token w] | Q n => [quote_token n] | B n => [Word n true]
  | Pu c => match punctuation c with Some t => [t] | None => [] end
  end.

Definition text_of (cs : list Chunk) : bytes := flat_map chunk_text cs.
Definition tokens_of (cs : list Chunk) : list Token := flat_map chunk_tokens cs.

Definition chunk_ok (c : Chunk) : Prop :=
  match c with
  | Sp => True
  | W w => w <> [] /\ forallb is_word_char w = true
  | Q n | B n => n <> []
  | Pu c => c < 128 /\ is_Some (punctuation c)
  end.

Definition sticky (c : Chunk) : bool := match c with Sp | Pu _ => false | _ => true end.

(** No two words touch. *)
Fixpoint separated (cs : list Chunk) : bool :=
  match cs with
  | c :: (c' :: _) as rest => negb (sticky c && sticky c') && separated rest
  | _ => true
  end.

Definition boundary (text : bytes) : Prop :=
  match text with [] => True | c :: _ => is_word_char c = false /\ c <> BACKTICK end.

Lemma space_facts : is_whitespace 32 = true /\ is_word_char 32 = false.
Proof using laws. unfold is_word_char. by rewrite ascii_whitespace, ascii_alphanumeric. Qed.

Lemma punct_facts c : c < 128 -> is_Some (punctuation c) ->
  is_whitespace c = false /\ is_word_char c = false /\ c <> BACKTICK.
Proof using laws.
  intros Hc [t Ht]. unfold is_word_char. rewrite ascii_whitespace, ascii_alphanumeric by done.
  unfold punctuation in Ht.
  destruct (N.eqb_spec c 123) as [->|]; [done|]. destruct (N.eqb_spec c 125) as [->|]; [done|].
  destruct (N.eqb_spec c 40) as [->|]; [done|]. destruct (N.eqb_spec c 41) as [->|]; [done|].
  by destruct (N.eqb_spec c 44) as [->|].
Qed.

Lemma take_word_app w rest : forallb is_word_char w = true -> boundary rest ->
  take_word (w ++ rest) = (w, rest).
Proof using Type.
  intros Hw Hr. induction w as [|c w IH]; simpl in *.
  - destruct rest as [|c rest]; simpl; [done|]. simpl in Hr. destruct Hr as [-> _]. done.
  - apply andb_true_iff in Hw as [-> Hw]. by rewrite IH.
Qed.

Lemma take_quoted_app n rest : match rest with c :: _ => c <> BACKTICK | [] => True end ->
  take_quoted (double_backticks n ++ BACKTICK :: rest) = Some (n, rest).
Proof using Type.
  intros Hr. induction n as [|c n IH]; simpl.
  - destruct rest as [|c rest]; [done|]. by rewrite (proj2 (N.eqb_neq _ _) Hr).
  - destruct (N.eqb_spec c BACKTICK) as [->|Hc]; simpl.
    + rewrite IH. done.
    + rewrite (proj2 (N.eqb_neq _ _) Hc). by rewrite IH.
Qed.

Lemma lexed_space rest ts : lexed rest ts -> lexed (32 :: rest) ts.
Proof using laws.
  intros H fuel out Hf. destruct fuel as [|fuel]; simpl in Hf; [lia|]. simpl.
  rewrite (proj1 space_facts). apply H. lia.
Qed.

Lemma lexed_punct c rest ts : c < 128 -> is_Some (punctuation c) -> lexed rest ts ->
  lexed (c :: rest) (chunk_tokens (Pu c) ++ ts).
Proof using laws.
  intros Hc Hp H fuel out Hf. destruct (punct_facts c Hc Hp) as (Hs & _). destruct Hp as [t Ht].
  destruct fuel as [|fuel]; simpl in Hf; [lia|]. simpl. rewrite Hs, Ht. rewrite H by lia.
  by rewrite <- app_assoc.
Qed.

Lemma lexed_word w rest ts : w <> [] -> forallb is_word_char w = true -> boundary rest -> lexed rest ts ->
  lexed (w ++ rest) (word_token w :: ts).
Proof using laws.
  intros Hne Hw Hb H fuel out Hf. destruct fuel as [|fuel]; [lia|]. destruct w as [|c w]; [done|].
  pose proof (take_word_app (c :: w) rest Hw Hb) as Ht.
  assert (Hc : is_word_char c = true) by (simpl in Hw; by apply andb_true_iff in Hw as [? _]).
  destruct (word_char_facts c Hc) as (Hs & Hp & Hq).
  cbn [lex_loop app]. cbn [app] in Ht. rewrite Hs, Hp, (proj2 (N.eqb_neq _ _) Hq), Hc, Ht.
  rewrite H by (rewrite length_app in Hf; simpl in Hf; lia). by rewrite <- app_assoc.
Qed.

Lemma length_double n : (length n <= length (double_backticks n))%nat.
Proof using Type. induction n as [|c n IH]; simpl; [lia|]. destruct (c =? BACKTICK); simpl; lia. Qed.

Lemma lexed_backticks n rest ts : n <> [] -> boundary rest -> lexed rest ts ->
  lexed (in_backticks n ++ rest) (Word n true :: ts).
Proof using laws.
  intros Hne Hb H fuel out Hf. destruct fuel as [|fuel]; [lia|].
  unfold in_backticks in *. rewrite <- app_comm_cons, <- app_assoc in *. cbn [app] in *.
  assert (Hs : is_whitespace BACKTICK = false) by (by rewrite ascii_whitespace).
  cbn [lex_loop]. rewrite Hs. cbn [punctuation]. change (punctuation BACKTICK) with (@None Token).
  rewrite N.eqb_refl, take_quoted_app; [|destruct rest; [done|by destruct Hb]].
  destruct n as [|c n]; [done|]. rewrite H; [by rewrite <- app_assoc|].
  simpl in Hf. rewrite length_app in Hf. simpl in Hf. lia.
Qed.

Lemma plain_word n : plain_name n = true -> forallb is_word_char n = true /\ n <> lit "*".
Proof using laws.
  unfold plain_name. rewrite !andb_true_iff. intros [[H1 H2] _]. split.
  - apply forallb_forall. intros c Hc. rewrite forallb_forall in H2. specialize (H2 c Hc).
    unfold is_word_char. apply orb_true_iff in H2 as [Ha|Hu].
    + rewrite ascii_alphanumeric, Ha; [done|].
      unfold AuthCatalog.is_alphanumeric, is_alphabetic, within in Ha.
      rewrite !orb_true_iff, !andb_true_iff, !N.leb_le in Ha. lia.
    + apply N.eqb_eq in Hu as ->. by rewrite ascii_alphanumeric.
  - intros ->. done.
Qed.

Lemma lexed_quote n rest ts : n <> [] -> boundary rest -> lexed rest ts ->
  lexed (quote n ++ rest) (quote_token n :: ts).
Proof using laws.
  intros Hne Hb H. unfold quote, quote_token. destruct (plain_name n) eqn:Hp; simpl.
  - destruct (plain_word n Hp) as [Hw Hs].
    replace (Word n false) with (word_token n) by (unfold word_token; by rewrite bool_decide_eq_false_2).
    by apply lexed_word.
  - by apply lexed_backticks.
Qed.

Lemma chunks_boundary c cs : sticky c = true -> separated (c :: cs) = true -> Forall chunk_ok cs ->
  boundary (text_of cs).
Proof using laws.
  intros Hc Hs Hok. destruct cs as [|c' cs]; [exact I|]. simpl in Hs. rewrite Hc in Hs. simpl in Hs.
  apply andb_true_iff in Hs as [Hs _]. apply Forall_cons in Hok as [Hok _].
  destruct c'; simpl in *; try done.
  - split; [apply space_facts|done].
  - destruct Hok as [H1 H2]. by destruct (punct_facts _ H1 H2) as (_ & ?).
Qed.

(** Chunks whose words do not touch lex to their tokens. *)
Lemma lexed_chunks cs : Forall chunk_ok cs -> separated cs = true -> lexed (text_of cs) (tokens_of cs).
Proof using laws.
  induction cs as [|c cs IH]; intros Hok Hs.
  { intros fuel out Hf. destruct fuel; [lia|]. simpl. by rewrite app_nil_r. }
  pose proof Hok as Hok'. apply Forall_cons in Hok as [Hc Hok].
  assert (Hs' : separated cs = true).
  { destruct cs as [|c' cs]; [done|]. simpl in Hs. by apply andb_true_iff in Hs as [_ ?]. }
  specialize (IH Hok Hs'). cbn [text_of tokens_of flat_map].
  destruct c as [|w|n|n|ch]; cbn [chunk_text] in *; simpl in Hc.
  - by apply lexed_space.
  - apply lexed_word; [by apply Hc|by apply Hc|by apply (chunks_boundary (W w))|done].
  - apply lexed_quote; [done|by apply (chunks_boundary (Q n))|done].
  - apply lexed_backticks; [done|by apply (chunks_boundary (B n))|done].
  - by apply lexed_punct; [apply Hc|apply Hc|].
Qed.

(** ** The pieces of a written command *)
Definition pattern_chunk (p : Pattern) : Chunk := match p with PAll => W (lit "*") | PName n => Q n end.
Definition glob_chunk (p : Pattern) : Chunk := match p with PAll => W (lit "*") | PName n => W n end.

Definition words (ws : list string) : list Chunk :=
  match ws with
  | [] => []
  | w :: ws => W (lit w) :: flat_map (fun w => [Sp; W (lit w)]) ws
  end.

Definition keyword_words (a : Action) : list string :=
  match a with
  | Traverse => ["TRAVERSE"] | Read => ["READ"] | Match => ["MATCH"] | Create => ["CREATE"]
  | Delete => ["DELETE"] | SetLabel => ["SET"; "LABEL"] | RemoveLabel => ["REMOVE"; "LABEL"]
  | SetProperty => ["SET"; "PROPERTY"] | Merge => ["MERGE"] | Write => ["WRITE"]
  | AllGraph => ["ALL"; "GRAPH"; "PRIVILEGES"] | AccessDatabase => ["ACCESS"] | Start => ["START"]
  | Stop => ["STOP"] | IndexManagement => ["INDEX"; "MANAGEMENT"]
  | ConstraintManagement => ["CONSTRAINT"; "MANAGEMENT"] | NameManagement => ["NAME"; "MANAGEMENT"]
  | TransactionManagement => ["TRANSACTION"; "MANAGEMENT"]
  | AllDatabase => ["ALL"; "DATABASE"; "PRIVILEGES"]
  | UserManagement => ["USER"; "MANAGEMENT"] | RoleManagement => ["ROLE"; "MANAGEMENT"]
  | PrivilegeManagement => ["PRIVILEGE"; "MANAGEMENT"]
  | DatabaseManagement => ["DATABASE"; "MANAGEMENT"]
  | ExecuteProcedure => ["EXECUTE"; "PROCEDURE"] | ExecuteFunction => ["EXECUTE"; "FUNCTION"]
  | ExecuteAdminProcedures => ["EXECUTE"; "ADMIN"; "PROCEDURES"]
  | AllDbms => ["ALL"; "DBMS"; "PRIVILEGES"]
  end%string.

Definition argument_chunks (p : Privilege) : list Chunk :=
  match level (action p) with
  | LDbms => match segment p with SProcedure g | SFunction g => [Sp; glob_chunk g] | _ => [] end
  | LDatabase => match segment p with SUser u => [Sp; Pu 40; pattern_chunk u; Pu 41] | _ => [] end
  | LGraph =>
      match resource p with
      | RAllProperties => [Sp; Pu 123; W (lit "*"); Pu 125]
      | RProperty n => [Sp; Pu 123; Q n; Pu 125]
      | RAllLabels => [Sp; W (lit "*")]
      | RLabel l => [Sp; Q l]
      | RGraph | RDatabase => []
      end
  end.

Definition target_chunks (what : string) (t : option Target) : list Chunk :=
  match t with
  | Some THome => words ["ON"%string; "HOME"%string; what]
  | Some (TNamed n) => words ["ON"%string; what] ++ [Sp; Q n]
  | _ => words ["ON"%string; what; "*"%string]
  end.

Definition segment_chunks (s : Segment) : list Chunk :=
  match s with
  | SNode p => [Sp; W (lit "NODE"); Sp; pattern_chunk p]
  | SRelationship p => [Sp; W (lit "RELATIONSHIP"); Sp; pattern_chunk p]
  | _ => []
  end.

Definition scope_chunks (p : Privilege) : list Chunk :=
  match level (action p) with
  | LDbms => words ["ON"%string; "DBMS"%string]
  | LDatabase => target_chunks "DATABASE" (target p)
  | LGraph => target_chunks "GRAPH" (target p) ++ segment_chunks (segment p)
  end.

Definition privilege_chunks (p : Privilege) : list Chunk :=
  words (keyword_words (action p)) ++ argument_chunks p ++ [Sp] ++ scope_chunks p.

Lemma text_app cs cs' : text_of (cs ++ cs') = text_of cs ++ text_of cs'.
Proof using Type. apply flat_map_app. Qed.

Lemma tokens_app cs cs' : tokens_of (cs ++ cs') = tokens_of cs ++ tokens_of cs'.
Proof using Type. apply flat_map_app. Qed.

Lemma keyword_text a : text_of (words (keyword_words a)) = keyword a.
Proof using Type. by destruct a. Qed.

Lemma pattern_chunk_text p : chunk_text (pattern_chunk p) = pattern_text p.
Proof using Type. by destruct p. Qed.

Lemma glob_chunk_text p : chunk_text (glob_chunk p) = glob_text p.
Proof using Type. by destruct p. Qed.

Lemma head_chunks_text p : text_of (words (keyword_words (action p)) ++ argument_chunks p) = head_text p.
Proof using Type.
  rewrite text_app, keyword_text. unfold head_text, argument_chunks. f_equal.
  destruct (level (action p)); [destruct (resource p)|destruct (segment p)|destruct (segment p)];
    cbn; rewrite ?pattern_chunk_text, ?glob_chunk_text, ?app_nil_r; done.
Qed.

Lemma target_chunks_text what t : 32 :: text_of (target_chunks what t) = target_text (lit what) t.
Proof using Type. destruct t as [[]|]; cbn; by rewrite ?app_nil_r, <- ?app_assoc. Qed.

Lemma segment_chunks_text s : text_of (segment_chunks s) = segment_text s.
Proof using Type. destruct s; cbn; by rewrite ?pattern_chunk_text, ?app_nil_r. Qed.

Lemma privilege_chunks_text p : text_of (privilege_chunks p) = privilege_text p.
Proof using Type.
  unfold privilege_chunks, privilege_text. rewrite app_assoc, text_app, head_chunks_text. f_equal.
  rewrite text_app. unfold scope_chunks. destruct (level (action p)).
  - rewrite text_app, segment_chunks_text, <- target_chunks_text. done.
  - by rewrite <- target_chunks_text.
  - done.
Qed.

(** ** What the parser can read *)
Definition filled (n : bytes) : bool := negb (bool_decide (n = [])).
Definition filled_pattern (p : Pattern) : bool := match p with PAll => true | PName n => filled n end.
Definition shaped_target (t : option Target) : bool :=
  match t with Some (TNamed n) => filled n | Some _ => true | None => false end.

Definition shaped_segment (a : Action) (s : Segment) : bool :=
  match s with
  | SNode p | SRelationship p => takes_segment a && filled_pattern p
  | SGraph => negb (takes_segment a)
  | _ => false
  end.

Definition shaped_resource (a : Action) (r : Resource) : bool :=
  match r with
  | RAllProperties => takes_properties a
  | RProperty n => takes_properties a && filled n
  | RAllLabels => takes_labels a
  | RLabel n => takes_labels a && filled n
  | RGraph => negb (takes_properties a || takes_labels a)
  | RDatabase => false
  end.

(** Every action has its own shape of target, segment and resource. *)
Definition shaped (p : Privilege) : bool :=
  match level (action p) with
  | LDbms =>
      bool_decide (target p = None) && bool_decide (resource p = RDatabase) &&
      match action p, segment p with
      | ExecuteProcedure, SProcedure g | ExecuteFunction, SFunction g => filled_pattern g
      | (ExecuteProcedure | ExecuteFunction), _ => false
      | _, s => bool_decide (s = SDatabase)
      end
  | LDatabase =>
      shaped_target (target p) && bool_decide (resource p = RDatabase) &&
      match action p, segment p with
      | TransactionManagement, SUser u => filled_pattern u
      | TransactionManagement, _ => false
      | _, s => bool_decide (s = SDatabase)
      end
  | LGraph =>
      shaped_target (target p) && shaped_segment (action p) (segment p) &&
      shaped_resource (action p) (resource p)
  end.

(** A procedure name that reads back without backticks. *)
Definition readable_glob (n : bytes) : bool :=
  forallb is_word_char n && filled n && negb (bool_decide (n = lit "*")) && negb (eq_ignore_case n (lit "ON")).
Definition readable (p : Privilege) : bool :=
  match segment p with
  | SProcedure (PName n) | SFunction (PName n) => readable_glob n
  | _ => true
  end.

(** ** Parsing what is written *)
Definition no_comma (ts : list Token) : Prop := match ts with Comma :: _ => False | _ => True end.

Lemma plain_name_reads what n ts : plain_name n = true -> name_ what (Word n false :: ts) = Ok (n, ts).
Proof using laws.
  intros Hp. destruct (plain_word n Hp) as [Hw _]. unfold plain_name in Hp.
  apply andb_true_iff in Hp as [[_ Hc]%andb_true_iff Hr%negb_true_iff]. simpl. rewrite Hr.
  assert (forall c, c ∈ n -> AuthCatalog.is_alphanumeric c || (c =? 95) = true) as Hno.
  { intros c Hin. rewrite forallb_forall in Hc. apply Hc. by apply list_elem_of_In. }
  rewrite !bool_decide_eq_false_2; [done|..]; intros Hin%Hno; done.
Qed.

Lemma name_reads what n ts : name_ what (quote_token n :: ts) = Ok (n, ts).
Proof using laws.
  unfold quote_token. destruct (plain_name n) eqn:Hp; [by apply plain_name_reads|done].
Qed.

Lemma more_names_none fuel what ts : no_comma ts -> more_names (S fuel) what ts = Some (Ok ([], ts)).
Proof using Type. intros H. simpl. by destruct ts as [|[] ts]. Qed.

Lemma name_list_reads what n ts : no_comma ts -> name_list what (quote_token n :: ts) = Some (Ok ([n], ts)).
Proof using laws.
  intros H. unfold name_list, pl_bind, once. rewrite name_reads, more_names_none by done. done.
Qed.

Lemma role_reads what n ts : no_comma ts -> name_list what (Word n true :: ts) = Some (Ok ([n], ts)).
Proof using Type. intros H. unfold name_list, pl_bind, once. cbn [name_]. by rewrite more_names_none. Qed.

Lemma patterns_read what p ts : no_comma ts ->
  patterns what (chunk_tokens (pattern_chunk p) ++ ts) = Some (Ok ([p], ts)).
Proof using laws.
  intros H. destruct p as [|n]; simpl; [done|].
  change (patterns what (quote_token n :: ts))
    with ((do ns <- name_list what; pl_ret (PName <$> ns)) (quote_token n :: ts)).
  unfold pl_bind. rewrite name_list_reads by done. done.
Qed.

Lemma globs_read p ts : no_comma ts -> match p with PAll => True | PName n => readable_glob n = true end ->
  globs (chunk_tokens (glob_chunk p) ++ ts) = Some (Ok ([p], ts)).
Proof using Type.
  intros H Hp. unfold globs. destruct p as [|n]; simpl; [by destruct ts as [|[] ts]|].
  unfold readable_glob in Hp. rewrite !andb_true_iff, !negb_true_iff in Hp. destruct Hp as [[_ H1] H2].
  unfold word_token. rewrite H1. cbn [globs_loop app]. rewrite H2. by destruct ts as [|[] ts].
Qed.

Lemma properties_read p ts :
  properties (LBrace :: chunk_tokens (pattern_chunk p) ++ RBrace :: ts) = Some (Ok ([p], ts)).
Proof using laws. unfold properties, pl_bind. by rewrite patterns_read. Qed.

Lemma keyed_hit kw p q ts ts' : eat kw ts = Some ts' -> keyed kw p q ts = p ts'.
Proof using Type. unfold keyed. by intros ->. Qed.
Lemma keyed_miss kw p q ts : eat kw ts = None -> keyed kw p q ts = q ts.
Proof using Type. unfold keyed. by intros ->. Qed.
Lemma keyed_any_hit kws p q ts kw ts' : eat_any kws ts = Some (kw, ts') -> keyed_any kws p q ts = p ts'.
Proof using Type. unfold keyed_any. by intros ->. Qed.
Lemma keyed_any_miss kws p q ts : eat_any kws ts = None -> keyed_any kws p q ts = q ts.
Proof using Type. unfold keyed_any. by intros ->. Qed.

Lemma pl_bind_ok {A B} (m : PL A) (f : A -> PL B) ts a ts' : m ts = Some (Ok (a, ts')) ->
  pl_bind m f ts = f a ts'.
Proof using Type. unfold pl_bind. by intros ->. Qed.

(** The head a written privilege is read as. *)
Definition head_of (p : Privilege) : Head :=
  match action p with
  | AllGraph | AllDatabase | AllDbms => mkHead AllGraph [] [] true
  | a =>
      mkHead a
        (match resource p with
         | RAllProperties | RAllLabels => [PAll] | RProperty n | RLabel n => [PName n] | _ => [] end)
        (match segment p with SUser g | SProcedure g | SFunction g => [g] | _ => [] end) false
  end.

Definition argument_tokens (p : Privilege) : list Token := tokens_of (argument_chunks p).

Ltac keyed_step :=
  first [ rewrite keyed_miss by reflexivity | erewrite keyed_hit by reflexivity
        | rewrite keyed_any_miss by reflexivity | erewrite keyed_any_hit by reflexivity ].

Ltac read_with m read :=
  etransitivity; [apply (pl_bind_ok m); exact read | reflexivity].

Lemma head_reads p ts : shaped p = true -> readable p = true ->
  head (tokens_of (words (keyword_words (action p)) ++ argument_chunks p) ++ Word (lit "ON") false :: ts) =
  Some (Ok (head_of p, Word (lit "ON") false :: ts)).
Proof using laws.
  intros Hs Hr. rewrite tokens_app. destruct p as [a t s r].
  destruct a; unfold shaped in Hs; simpl in Hs.
  all: destruct s as [|p|p| |p|p|p]; try discriminate; try (by rewrite andb_false_r in Hs).
  all: destruct r as [| | |n| |n]; try discriminate; try (by rewrite andb_false_r in Hs).
  all: unfold head; repeat keyed_step; try reflexivity.
  all: try (read_with properties (properties_read (PName n) (Word (lit "ON") false :: ts))).
  all: try (read_with (patterns (lit "a label")) (patterns_read (lit "a label") (PName n) (Word (lit "ON") false :: ts) I)).
  - destruct p as [|u]; [reflexivity|]. read_with (patterns (lit "a user name"))
      (patterns_read (lit "a user name") (PName u) (RParen :: Word (lit "ON") false :: ts) I).
  - destruct p as [|g]; [reflexivity|]. read_with globs (globs_read (PName g) (Word (lit "ON") false :: ts) I Hr).
  - destruct p as [|g]; [reflexivity|]. read_with globs (globs_read (PName g) (Word (lit "ON") false :: ts) I Hr).
Qed.

(** *** The scope *)
Definition level_name (l : Level) : string := match l with LGraph => "GRAPH" | _ => "DATABASE" end.

Lemma scope_reads l t ts : l <> LDbms -> shaped_target t = true -> no_comma ts ->
  exists target, t = Some target /\
  scope (tail (tokens_of (target_chunks (level_name l) t)) ++ ts) = Some (Ok ((l, [target]), ts)).
Proof using laws.
  intros Hl Ht Hc. destruct t as [t|]; [|done]. exists t. split; [done|].
  destruct l, t as [| |n]; try done; unfold scope.
  - set (what := lit "a graph name").
    transitivity ((do ps <- patterns what; pl_ret (LGraph, targets_of ps)) (quote_token n :: ts)); [reflexivity|].
    by rewrite (pl_bind_ok _ _ _ _ _ (patterns_read what (PName n) ts Hc)).
  - set (what := lit "a database name").
    transitivity ((do ps <- patterns what; pl_ret (LDatabase, targets_of ps)) (quote_token n :: ts)); [reflexivity|].
    by rewrite (pl_bind_ok _ _ _ _ _ (patterns_read what (PName n) ts Hc)).
Qed.

(** What can follow a privilege. *)
Definition ends (ts : list Token) : Prop :=
  exists w rest, ts = Word w false :: rest /\ w ∈ [lit "TO"; lit "FROM"].

Lemma segments_read a s ts : shaped_segment a s = true -> ends ts ->
  segments a (tokens_of (segment_chunks s) ++ ts) = Some (Ok ([s], ts)).
Proof using laws.
  intros Hs (w & rest & -> & Hw). rewrite !elem_of_cons, elem_of_nil in Hw.
  destruct s as [|p|p| | | |]; simpl in Hs; try done.
  - unfold segments. rewrite Hs. by destruct Hw as [->|[->|[]]].
  - apply andb_true_iff in Hs as [Ha _]. unfold segments. rewrite Ha.
    set (what := lit "a label").
    transitivity ((do ps <- patterns what; pl_ret ((SNode <$> ps) ++ []))
      (chunk_tokens (pattern_chunk p) ++ Word w false :: rest)); [by destruct p|].
    by rewrite (pl_bind_ok _ _ _ _ _ (patterns_read what p (Word w false :: rest) I)).
  - apply andb_true_iff in Hs as [Ha _]. unfold segments. rewrite Ha.
    set (what := lit "a relationship type").
    transitivity ((do ps <- patterns what; pl_ret ([] ++ (SRelationship <$> ps)))
      (chunk_tokens (pattern_chunk p) ++ Word w false :: rest)); [by destruct p|].
    by rewrite (pl_bind_ok _ _ _ _ _ (patterns_read what p (Word w false :: rest) I)).
Qed.

Lemma ends_no_comma ts : ends ts -> no_comma ts.
Proof using Type. by intros (w & rest & -> & _). Qed.

Lemma segment_no_comma s ts : ends ts -> no_comma (tokens_of (segment_chunks s) ++ ts).
Proof using Type. intros H%ends_no_comma. by destruct s. Qed.

(** A head read for [p] under [ALL] finds its action where it is written. *)
Definition resolved (p : Privilege) (h : Head) : Head := if all h then set_action (action p) h else h.

Lemma resolved_action p : h_action (resolved p (head_of p)) = action p.
Proof using Type. by destruct p as [[]]. Qed.

Definition top (l : Level) : Action :=
  match l with LGraph => AllGraph | LDatabase => AllDatabase | LDbms => AllDbms end.

Lemma resolved_level p : let h := head_of p in
  (if all h then set_action (top (level (action p))) h else h) = resolved p h.
Proof using Type. by destruct p as [[]]. Qed.

Lemma dbms_made p : level (action p) = LDbms -> shaped p = true ->
  dbms_privileges (resolved p (head_of p)) = [p].
Proof using Type.
  destruct p as [a t s r]. unfold shaped. simpl. intros Hl. rewrite Hl.
  intros [[->%bool_decide_eq_true ->%bool_decide_eq_true]%andb_true_iff Hs]%andb_true_iff.
  destruct a; try discriminate Hl; destruct s; try discriminate Hs; done.
Qed.

Lemma database_made p t : level (action p) = LDatabase -> shaped p = true -> target p = Some t ->
  database_privileges (resolved p (head_of p)) [t] = [p].
Proof using Type.
  destruct p as [a t' s r]. unfold shaped. simpl. intros Hl. rewrite Hl.
  intros [[_ ->%bool_decide_eq_true]%andb_true_iff Hs]%andb_true_iff ->.
  destruct a; try discriminate Hl; destruct s; try discriminate Hs; done.
Qed.

Lemma graph_made p t : level (action p) = LGraph -> shaped p = true -> target p = Some t ->
  graph_privileges (resolved p (head_of p)) [t] [segment p] = [p].
Proof using Type.
  destruct p as [a t' s r]. unfold shaped. simpl. intros Hl. rewrite Hl.
  intros [_ Hs]%andb_true_iff ->.
  destruct a; try discriminate Hl; destruct r; try discriminate Hs; done.
Qed.

Lemma target_tail what t cs ts : tail (tokens_of (target_chunks what t ++ cs)) ++ ts =
  tail (tokens_of (target_chunks what t)) ++ tokens_of cs ++ ts.
Proof using Type. rewrite tokens_app. destruct t as [[]|]; cbn; by rewrite <- ?app_assoc. Qed.

Lemma target_not_dbms l t ts : eat (lit "DBMS") (tail (tokens_of (target_chunks (level_name l) t)) ++ ts) = None.
Proof using Type. by destruct l, t as [[]|]. Qed.

Lemma graph_reads p ts : level (action p) = LGraph -> shaped p = true -> ends ts ->
  privilege_on (head_of p) (tail (tokens_of (scope_chunks p)) ++ ts) = Some (Ok ([p], ts)).
Proof using laws.
  intros Hl Hs He. pose proof Hs as Hs'. unfold shaped in Hs'. rewrite Hl in Hs'.
  apply andb_true_iff in Hs' as [[Ht Hseg]%andb_true_iff _].
  destruct (scope_reads LGraph (target p) (tokens_of (segment_chunks (segment p)) ++ ts)
    ltac:(done) Ht (segment_no_comma _ _ He)) as (t & Htt & Hscope).
  pose proof (resolved_level p) as Hres. rewrite Hl in Hres. cbn [top] in Hres.
  unfold scope_chunks. rewrite Hl, target_tail. unfold privilege_on.
  rewrite (target_not_dbms LGraph), (pl_bind_ok _ _ _ _ _ Hscope). cbv iota beta zeta.
  rewrite Hres, resolved_action, Hl, bool_decide_eq_true_2 by done. cbn [negb].
  rewrite (pl_bind_ok _ _ _ _ _ (segments_read _ _ _ Hseg He)), graph_made by done.
  destruct He as (w & rest & -> & Hw). rewrite !elem_of_cons, elem_of_nil in Hw.
  by destruct Hw as [->|[->|[]]].
Qed.

Lemma database_reads p ts : level (action p) = LDatabase -> shaped p = true -> ends ts ->
  privilege_on (head_of p) (tail (tokens_of (scope_chunks p)) ++ ts) = Some (Ok ([p], ts)).
Proof using laws.
  intros Hl Hs He. pose proof Hs as Hs'. unfold shaped in Hs'. rewrite Hl in Hs'.
  apply andb_true_iff in Hs' as [[Ht _]%andb_true_iff _].
  destruct (scope_reads LDatabase (target p) ts ltac:(done) Ht (ends_no_comma _ He)) as (t & Htt & Hscope).
  pose proof (resolved_level p) as Hres. rewrite Hl in Hres. cbn [top] in Hres.
  unfold scope_chunks. rewrite Hl. unfold privilege_on.
  rewrite (target_not_dbms LDatabase), (pl_bind_ok _ _ _ _ _ Hscope). cbv iota beta zeta.
  rewrite Hres, resolved_action, Hl, bool_decide_eq_true_2 by done. cbn [negb].
  by rewrite database_made.
Qed.

Lemma dbms_reads p ts : level (action p) = LDbms -> shaped p = true ->
  privilege_on (head_of p) (tail (tokens_of (scope_chunks p)) ++ ts) = Some (Ok ([p], ts)).
Proof using Type.
  intros Hl Hs. pose proof (resolved_level p) as Hres. rewrite Hl in Hres. cbn [top] in Hres.
  unfold scope_chunks. rewrite Hl. cbn [words tokens_of flat_map tail app]. unfold privilege_on.
  change (eat (lit "DBMS") _) with (Some ts). cbv iota beta zeta.
  by rewrite Hres, resolved_action, Hl, bool_decide_eq_true_2, dbms_made.
Qed.

Lemma privilege_reads p ts : shaped p = true -> readable p = true -> ends ts ->
  privilege (tokens_of (privilege_chunks p) ++ ts) = Some (Ok ([p], ts)).
Proof using laws.
  intros Hs Hr He. unfold privilege_chunks, privilege.
  rewrite app_assoc, tokens_app, <- app_assoc.
  assert (Hon : tokens_of ([Sp] ++ scope_chunks p) ++ ts =
    Word (lit "ON") false :: tail (tokens_of (scope_chunks p)) ++ ts).
  { unfold scope_chunks. by destruct (level (action p)), (target p) as [[]|]. }
  rewrite Hon, (pl_bind_ok _ _ _ _ _ (head_reads p _ Hs Hr)).
  erewrite (pl_bind_ok (once (expect _ _))) by reflexivity. cbv beta.
  destruct (level (action p)) eqn:Hl; [by apply graph_reads|by apply database_reads|by apply dbms_reads].
Qed.

(** *** Commands *)
Definition entry_chunks (revoke : bool) (e : Entry) : list Chunk :=
  (if revoke then [W (lit "REVOKE"); Sp] else []) ++ [W (access_keyword (e_access e)); Sp] ++
  privilege_chunks (e_privilege e) ++
  [Sp; W (if revoke then lit "FROM" else lit "TO"); Sp; B (e_role e)].

Lemma entry_chunks_text e : text_of (entry_chunks false e) = to_command e.
Proof using Type.
  unfold entry_chunks, to_command. rewrite !text_app, privilege_chunks_text. cbn.
  by rewrite !app_nil_r, <- !app_assoc.
Qed.

Lemma revoke_chunks_text e : text_of (entry_chunks true e) = to_revoke_command e.
Proof using Type.
  unfold entry_chunks, to_revoke_command. rewrite !text_app, privilege_chunks_text. cbn.
  by rewrite !app_nil_r, <- !app_assoc.
Qed.

Definition op_of (revoke : bool) (a : Access) : Op :=
  if revoke then ORevoke (Some a) else match a with Grant => OGrant | Deny => ODeny end.

Lemma command_op_reads (revoke : bool) a ts : at_ (lit "GRANT") ts = false -> at_ (lit "DENY") ts = false ->
  command_op (tokens_of ((if revoke then [W (lit "REVOKE"); Sp] else []) ++ [W (access_keyword a); Sp]) ++ ts) =
  Some (Ok (op_of revoke a, ts)).
Proof using Type. by destruct revoke, a. Qed.

Lemma keyword_starts a cs ts : let toks := tokens_of (words (keyword_words a) ++ cs) ++ ts in
  at_ (lit "GRANT") toks = false /\ at_ (lit "DENY") toks = false /\ at_ (lit "IMMUTABLE") toks = false.
Proof using Type. by destruct a. Qed.

Lemma command_reads revoke e : shaped (e_privilege e) = true -> readable (e_privilege e) = true ->
  command (tokens_of (entry_chunks revoke e)) =
  Some (Ok (mkCommand (op_of revoke (e_access e)) [e_privilege e] [e_role e], [])).
Proof using laws.
  intros Hs Hr. unfold entry_chunks, command. rewrite app_assoc, !(tokens_app _ (privilege_chunks _ ++ _)).
  rewrite (tokens_app (privilege_chunks _)).
  set (rest := tokens_of [Sp; W (if revoke then lit "FROM" else lit "TO"); Sp; B (e_role e)]).
  assert (Hends : ends rest).
  { exists (if revoke then lit "FROM" else lit "TO"), [Word (e_role e) true]. split; [by destruct revoke|destruct revoke; set_solver]. }
  destruct (keyword_starts (action (e_privilege e))
    (argument_chunks (e_privilege e) ++ [Sp] ++ scope_chunks (e_privilege e)) rest) as (Hg & Hd & Hi).
  rewrite (pl_bind_ok _ _ _ _ _ (command_op_reads revoke (e_access e) _ Hg Hd)), Hi.
  rewrite (pl_bind_ok _ _ _ _ _ (privilege_reads _ _ Hs Hr Hends)).
  set (what := lit "a role name"). pose proof (role_reads what (e_role e) [] I) as Hrole.
  destruct revoke, (e_access e); cbn [op_of];
    (etransitivity; [apply (pl_bind_ok (name_list what)); exact Hrole|reflexivity]).
Qed.

(** *** The chunks of a command lex to its tokens *)
Lemma separated_sp cs cs' : separated cs = true -> separated cs' = true -> separated (cs ++ Sp :: cs') = true.
Proof using Type.
  intros H H'. induction cs as [|c cs IH]; simpl; [by destruct cs'|].
  destruct cs as [|c' cs]; simpl in *; [destruct cs'; simpl; by rewrite ?andb_false_r|].
  apply andb_true_iff in H as [-> H]. by apply IH.
Qed.

Lemma separated_head p : separated (words (keyword_words (action p)) ++ argument_chunks p) = true.
Proof using Type.
  assert (Hw : separated (words (keyword_words (action p))) = true) by (by destruct (action p)).
  unfold argument_chunks.
  destruct (level (action p)); [destruct (resource p)|destruct (segment p) as [| | | |u| |]|
    destruct (segment p) as [| | | | |g|g]]; rewrite ?app_nil_r; try done; apply separated_sp; done || (by destruct u) || (by destruct g).
Qed.

Lemma separated_scope p : separated (scope_chunks p) = true.
Proof using Type.
  unfold scope_chunks. destruct (level (action p)); [|by destruct (target p) as [[]|]|done].
  assert (Ht : separated (target_chunks "GRAPH" (target p)) = true) by (by destruct (target p) as [[]|]).
  destruct (segment p) as [|q|q| | | |]; cbn [segment_chunks]; rewrite ?app_nil_r; try done;
    (apply separated_sp; [done|by destruct q]).
Qed.

Lemma separated_entry revoke e : separated (entry_chunks revoke e) = true.
Proof using Type.
  unfold entry_chunks, privilege_chunks.
  set (h := words (keyword_words (action (e_privilege e))) ++ argument_chunks (e_privilege e)).
  assert (H : forall cs, separated cs = true -> separated ((if revoke then [W (lit "REVOKE"); Sp] else []) ++
    [W (access_keyword (e_access e)); Sp] ++ cs) = true).
  { intros cs Hcs. apply (separated_sp [W (access_keyword (e_access e))]) in Hcs; [|done].
    destruct revoke; [|done]. by apply (separated_sp [W (lit "REVOKE")]). }
  apply H. rewrite app_assoc, <- app_assoc. fold h. rewrite <- app_assoc. apply separated_sp; [apply separated_head|].
  apply separated_sp; [apply separated_scope|done].
Qed.

Lemma ascii_word w : forallb (fun c => (c <? 128) && (AuthCatalog.is_alphanumeric c || bool_decide (c ∈ lit "_.-*?$"))) w = true ->
  forallb is_word_char w = true.
Proof using laws.
  rewrite !forallb_forall. intros H c Hc. specialize (H c Hc). apply andb_true_iff in H as [Hlt%N.ltb_lt H].
  unfold is_word_char. by rewrite ascii_alphanumeric.
Qed.

Lemma lit_ok s : filled (lit s) && forallb (fun c => (c <? 128) && (AuthCatalog.is_alphanumeric c || bool_decide (c ∈ lit "_.-*?$"))) (lit s) = true ->
  chunk_ok (W (lit s)).
Proof using laws.
  intros [Hf%negb_true_iff%bool_decide_eq_false Hw]%andb_true_iff. split; [done|by apply ascii_word].
Qed.

Lemma words_ok ws : Forall (fun s => chunk_ok (W (lit s))) ws -> Forall chunk_ok (words ws).
Proof using Type.
  destruct ws as [|w ws]; [done|]. intros [Hw Hws]%Forall_cons. constructor; [done|]. clear Hw w.
  induction Hws; simpl; [done|]. apply Forall_cons; split; [exact I|]. by apply Forall_cons.
Qed.

Lemma keyword_ok a : Forall chunk_ok (words (keyword_words a)).
Proof using laws. apply words_ok. destruct a; repeat (constructor; [by apply lit_ok|]); constructor. Qed.

Lemma pattern_ok p : filled_pattern p = true -> chunk_ok (pattern_chunk p).
Proof using laws.
  destruct p as [|n]; [intros _; exact (lit_ok "*" eq_refl)|]. by intros H%negb_true_iff%bool_decide_eq_false.
Qed.

Lemma glob_ok g : match g with PAll => True | PName n => readable_glob n = true end -> chunk_ok (glob_chunk g).
Proof using laws.
  destruct g as [|n]; [intros _; exact (lit_ok "*" eq_refl)|]. unfold readable_glob.
  rewrite !andb_true_iff. intros [[[Hw Hf%negb_true_iff%bool_decide_eq_false] _] _]. done.
Qed.

Lemma punct_ok c : c ∈ [123; 125; 40; 41; 44] -> chunk_ok (Pu c).
Proof using Type. rewrite !elem_of_cons, elem_of_nil. intros H. repeat destruct H as [->|H]; done. Qed.

Ltac each_chunk := cbv iota; repeat (apply Forall_cons; split); try apply Forall_nil; try done.

Lemma arguments_ok p : shaped p = true -> readable p = true -> Forall chunk_ok (argument_chunks p).
Proof using laws.
  intros Hs Hr. destruct p as [a t s r]. unfold shaped in Hs. unfold argument_chunks. simpl in *.
  destruct (level a); apply andb_true_iff in Hs as [_ Hs].
  - destruct r as [| | |n| |n]; simpl in Hs;
      try (apply andb_true_iff in Hs as [_ Hf%negb_true_iff%bool_decide_eq_false]);
      each_chunk; by apply (lit_ok "*").
  - destruct s as [| | | |u| |]; each_chunk. apply pattern_ok. by destruct a.
  - destruct s as [| | | | |g|g]; each_chunk; by apply glob_ok; destruct g.
Qed.

Lemma target_ok what t : chunk_ok (W (lit what)) -> shaped_target t = true -> Forall chunk_ok (target_chunks what t).
Proof using laws.
  intros Hw Ht. destruct t as [[| |n]|]; try done; cbn [target_chunks].
  - apply words_ok. each_chunk; by apply lit_ok.
  - apply words_ok. each_chunk; by apply lit_ok.
  - apply Forall_app. split; [apply words_ok; each_chunk; by apply lit_ok|].
    simpl in Ht. apply negb_true_iff, bool_decide_eq_false in Ht. by each_chunk.
Qed.

Lemma scope_ok p : shaped p = true -> Forall chunk_ok (scope_chunks p).
Proof using laws.
  intros Hs. destruct p as [a t s r]. unfold shaped in Hs. unfold scope_chunks. simpl in *.
  destruct (level a).
  - apply andb_true_iff in Hs as [[Ht Hs]%andb_true_iff _]. apply Forall_app. split.
    + apply target_ok; [by apply lit_ok|done].
    + destruct s as [|q|q| | | |]; each_chunk; try (by apply lit_ok);
        apply pattern_ok; by apply andb_true_iff in Hs as [_ ?].
  - apply andb_true_iff in Hs as [[Ht _]%andb_true_iff _]. apply target_ok; [by apply lit_ok|done].
  - each_chunk; by apply lit_ok.
Qed.

Lemma entry_ok revoke e : shaped (e_privilege e) = true -> readable (e_privilege e) = true -> e_role e <> [] ->
  Forall chunk_ok (entry_chunks revoke e).
Proof using laws.
  intros Hs Hr Hrole. unfold entry_chunks, privilege_chunks. rewrite !Forall_app. repeat split.
  - destruct revoke; each_chunk. by apply lit_ok.
  - destruct (e_access e); each_chunk; by apply lit_ok.
  - apply keyword_ok.
  - by apply arguments_ok.
  - by each_chunk.
  - by apply scope_ok.
  - destruct revoke; each_chunk; by apply lit_ok.
Qed.

Lemma parse_entry revoke e : shaped (e_privilege e) = true -> readable (e_privilege e) = true -> e_role e <> [] ->
  parse (text_of (entry_chunks revoke e)) =
  Some (Ok (mkCommand (op_of revoke (e_access e)) [e_privilege e] [e_role e])).
Proof using laws.
  intros Hs Hr Hrole. unfold parse.
  rewrite (lex_lexed _ _ (lexed_chunks _ (entry_ok revoke e Hs Hr Hrole) (separated_entry revoke e))).
  by rewrite command_reads.
Qed.

(** C34: The command [SHOW PRIVILEGES AS COMMANDS] writes for a privilege of a
    role, and the one that takes it away, read back as that privilege for that
    role, whatever the non-empty names of its graph or database, label, type,
    property, user and role: they are in backticks where these are needed.  The
    privilege has the shape of its action (every privilege the parser yields has,
    [parsed_shape]), and if it is on a procedure or function, the name is made
    of word characters and is neither [*] nor [ON]: these are written without
    backticks ([glob_not_quoted]). *)
Theorem command_roundtrip e : shaped (e_privilege e) = true -> readable (e_privilege e) = true -> e_role e <> [] ->
  parse (to_command e) =
    Some (Ok (mkCommand match e_access e with Grant => OGrant | Deny => ODeny end [e_privilege e] [e_role e])) /\
  parse (to_revoke_command e) =
    Some (Ok (mkCommand (ORevoke (Some (e_access e))) [e_privilege e] [e_role e])).
Proof using laws.
  intros Hs Hr Hrole. rewrite <- entry_chunks_text, <- revoke_chunks_text. split; by apply parse_entry.
Qed.
End lexing.

(** ** What every reading yields

    [ensures m Q]: on tokens whose words are not empty, [m] answers, and when
    it does not refuse it yields a value with [Q] and such tokens. *)
Definition token_ok (t : Token) : Prop := match t with Word w _ => w <> [] | _ => True end.
Abbreviation tokens_ok := (Forall token_ok).

Definition answers {A} (Q : A -> Prop) (r : option (result ParseError (A * list Token))) : Prop :=
  match r with
  | None => False
  | Some (Err _) => True
  | Some (Ok (a, ts)) => tokens_ok ts /\ Q a
  end.
Definition ensures {A} (m : PL A) (Q : A -> Prop) : Prop := forall ts, tokens_ok ts -> answers Q (m ts).

Lemma ensures_ret {A} (a : A) (Q : A -> Prop) : Q a -> ensures (pl_ret a) Q.
Proof. by intros H ts Hts. Qed.

Lemma ensures_refuse {A} message (Q : A -> Prop) : ensures (refuse_with message) Q.
Proof. by intros ts Hts. Qed.

Lemma ensures_bind {A B} (m : PL A) (f : A -> PL B) P Q :
  ensures m P -> (forall a, P a -> ensures (f a) Q) -> ensures (pl_bind m f) Q.
Proof.
  intros Hm Hf ts Hts. specialize (Hm ts Hts). unfold pl_bind.
  destruct (m ts) as [[[a ts']|]|]; simpl in Hm; try done. destruct Hm. by apply Hf.
Qed.

Lemma ensures_weaken {A} (m : PL A) (P Q : A -> Prop) : ensures m P -> (forall a, P a -> Q a) -> ensures m Q.
Proof.
  intros Hm HPQ ts Hts. specialize (Hm ts Hts). destruct (m ts) as [[[a ts']|]|]; simpl in *; try done.
  destruct Hm. auto.
Qed.

Lemma eat_ok kw ts ts' : tokens_ok ts -> eat kw ts = Some ts' -> tokens_ok ts'.
Proof.
  intros H. unfold eat. destruct (at_ kw ts); [|done]. intros [= <-]. by apply Forall_tail.
Qed.

Lemma eat_any_ok kws ts kw ts' : tokens_ok ts -> eat_any kws ts = Some (kw, ts') -> tokens_ok ts' /\ kw ∈ kws.
Proof.
  intros H. induction kws as [|k kws IH]; simpl; [done|]. destruct (eat k ts) as [ts''|] eqn:He.
  - intros [= <- <-]. split; [by eapply eat_ok|set_solver].
  - intros Hk. destruct (IH Hk). split; [done|set_solver].
Qed.

Lemma skip_ok kw ts : tokens_ok ts -> tokens_ok (skip kw ts).
Proof. intros H. unfold skip. destruct (eat kw ts) eqn:He; simpl; [by eapply eat_ok|done]. Qed.

Lemma skip_any_ok kws ts : tokens_ok ts -> tokens_ok (skip_any kws ts).
Proof.
  intros H. unfold skip_any. destruct (eat_any kws ts) as [[]|] eqn:He; [|done]. by eapply eat_any_ok in He as [? _].
Qed.

Lemma ensures_expect kw context Q : Q tt -> ensures (once (expect kw context)) Q.
Proof.
  intros HQ ts Hts. unfold once, expect. destruct (eat kw ts) eqn:He; simpl; [|done].
  split; [by eapply eat_ok|done].
Qed.

Lemma name_ok what ts n ts' : tokens_ok ts -> name_ what ts = Ok (n, ts') ->
  n <> [] /\ tokens_ok ts' /\ length ts = S (length ts').
Proof.
  intros H. unfold name_. destruct ts as [|[w [|]| | | | | | |] ts]; try done.
  - intros [= <- <-]. by apply Forall_cons in H as [? ?].
  - destruct (is_reserved w); [done|]. destruct (_ || _); [done|]. intros [= <- <-]. by apply Forall_cons in H as [? ?].
Qed.

Lemma more_names_ok fuel what ts : tokens_ok ts -> (length ts < fuel)%nat ->
  answers (Forall (fun n => n <> [])) (more_names fuel what ts).
Proof.
  revert ts. induction fuel as [|fuel IH]; intros ts Hts Hf; [lia|]. simpl.
  destruct ts as [|t ts]; [by repeat constructor|]. apply Forall_cons in Hts as [Ht Hts].
  destruct t; try (split; [by constructor|by constructor]).
  destruct (name_ what ts) as [[n ts']|] eqn:Hn; [|done].
  destruct (name_ok _ _ _ _ Hts Hn) as (Hne & Hts' & Hlen). simpl in Hf.
  specialize (IH ts' Hts' ltac:(lia)).
  destruct (more_names fuel what ts') as [[[ns ts'']|]|]; simpl in *; try done.
  destruct IH. split; [done|by constructor].
Qed.

Definition some_names (ns : list bytes) : Prop := ns <> [] /\ Forall (fun n => n <> []) ns.

Lemma ensures_name_list what : ensures (name_list what) some_names.
Proof.
  apply (ensures_bind _ _ (fun n => n <> [])).
  - intros ts Hts. unfold once, answers. destruct (name_ what ts) as [[n ts']|] eqn:Hn; [|done].
    destruct (name_ok _ _ _ _ Hts Hn) as (? & ? & _). done.
  - intros n Hn. apply (ensures_bind _ _ (Forall (fun n => n <> []))).
    + intros ts Hts. apply more_names_ok; [done|lia].
    + intros ns Hns. apply ensures_ret. split; [done|by constructor].
Qed.

Definition some_patterns (ps : list Pattern) : Prop := ps <> [] /\ Forall (fun p => filled_pattern p = true) ps.

Lemma filled_ok n : n <> [] -> filled n = true.
Proof. intros H. unfold filled. by rewrite bool_decide_eq_false_2. Qed.

Lemma some_names_patterns ns : some_names ns -> some_patterns (PName <$> ns).
Proof.
  intros [Hne Hns]. split; [by destruct ns|]. apply Forall_fmap.
  eapply Forall_impl; [exact Hns|]. intros n. apply filled_ok.
Qed.

Lemma ensures_patterns what : ensures (patterns what) some_patterns.
Proof.
  intros ts Hts. unfold patterns. set (names := do ns <- name_list what; pl_ret (PName <$> ns)).
  assert (Hn : ensures names some_patterns).
  { apply (ensures_bind _ _ some_names); [apply ensures_name_list|].
    intros ns Hns. by apply ensures_ret, some_names_patterns. }
  destruct ts as [|[] ts]; try (by apply Hn). apply Forall_cons in Hts as [_ Hts].
  split; [done|]. split; [done|by repeat constructor].
Qed.

Lemma globs_loop_ok fuel ts : tokens_ok ts -> (length ts < fuel)%nat -> answers some_patterns (globs_loop fuel ts).
Proof.
  revert ts. induction fuel as [|fuel IH]; intros ts Hts Hf; [lia|]. simpl.
  assert (Hgo : forall p rest, tokens_ok rest -> (length rest < S fuel)%nat -> filled_pattern p = true ->
    answers some_patterns match rest with
      | Comma :: rest => match globs_loop fuel rest with
          | Some (Ok (ps, ts)) => Some (Ok (p :: ps, ts)) | other => other end
      | _ => Some (Ok ([p], rest)) end).
  { intros p rest Hrest Hl Hp.
    assert (H1 : some_patterns [p]) by (split; [done|by repeat constructor]).
    destruct rest as [|[] rest]; try done. apply Forall_cons in Hrest as [_ Hrest]. simpl in Hl.
    specialize (IH rest Hrest ltac:(lia)). destruct (globs_loop fuel rest) as [[[ps ts']|]|]; simpl in *; try done.
    destruct IH as [? [_ ?]]. split; [done|]. split; [done|by constructor]. }
  destruct ts as [|t ts]; [done|]. apply Forall_cons in Hts as [Ht Hts]. simpl in Hf.
  destruct t as [w q| | | | | | |]; try done.
  - destruct (q || _); [|done]. apply Hgo; [done|lia|by apply filled_ok].
  - apply Hgo; [done|lia|done].
Qed.

Lemma ensures_globs : ensures globs some_patterns.
Proof. intros ts Hts. apply globs_loop_ok; [done|lia]. Qed.

Lemma ensures_properties : ensures properties some_patterns.
Proof.
  intros ts Hts. unfold properties. destruct ts as [|[] ts]; try done. apply Forall_cons in Hts as [_ Hts].
  revert ts Hts. apply (ensures_bind _ _ some_patterns); [apply ensures_patterns|].
  intros ps Hps ts Hts. destruct ts as [|[] ts]; try done. by apply Forall_cons in Hts as [_ ?].
Qed.

Definition takes_qualifiers (a : Action) : bool :=
  match a with TransactionManagement | ExecuteProcedure | ExecuteFunction => true | _ => false end.

Record head_ok (h : Head) : Prop := {
  head_names : Forall (fun p => filled_pattern p = true) (names h);
  head_qualifiers : Forall (fun p => filled_pattern p = true) (qualifiers h);
  head_has_names : takes_properties (h_action h) || takes_labels (h_action h) = true -> names h <> [];
  head_has_qualifiers : takes_qualifiers (h_action h) = true -> qualifiers h <> [];
}.

Lemma simple_ok a : takes_properties a || takes_labels a || takes_qualifiers a = false -> head_ok (simple a).
Proof.
  intros H. split; simpl; try done; intros Ha; rewrite Ha in H; [done|by rewrite orb_true_r in H].
Qed.

Lemma with_names_ok a ps : takes_qualifiers a = false -> some_patterns ps -> head_ok (with_names a ps).
Proof. intros Ha [Hne Hps]. split; simpl; try done. by rewrite Ha. Qed.

Lemma with_qualifiers_ok a ps : takes_properties a || takes_labels a = false -> some_patterns ps ->
  head_ok (mkHead a [] ps false).
Proof. intros Ha [Hne Hps]. split; simpl; try done. by rewrite Ha. Qed.

Lemma ensures_keyed kw p q Q : ensures p Q -> ensures q Q -> ensures (keyed kw p q) Q.
Proof.
  intros Hp Hq ts Hts. unfold keyed. destruct (eat kw ts) eqn:He; [|by apply Hq].
  apply Hp. by eapply eat_ok.
Qed.

Lemma ensures_keyed_any kws p q Q : ensures p Q -> ensures q Q -> ensures (keyed_any kws p q) Q.
Proof.
  intros Hp Hq ts Hts. unfold keyed_any. destruct (eat_any kws ts) as [[]|] eqn:He; [|by apply Hq].
  apply Hp. by eapply eat_any_ok in He as [? _].
Qed.

Lemma ensures_management l q : Forall (fun e => head_ok (simple e.2)) l -> ensures q head_ok ->
  ensures (management l q) head_ok.
Proof.
  intros Hl Hq ts Hts. induction Hl as [|[w a] l Ha Hl IH]; simpl; [by apply Hq|].
  destruct (_ && _); [|done]. split; [by do 2 apply Forall_tail|done].
Qed.

Lemma ensures_transaction : ensures transaction_head head_ok.
Proof.
  intros ts Hts. unfold transaction_head. apply (skip_ok (lit "MANAGEMENT")) in Hts.
  destruct (skip (lit "MANAGEMENT") ts) as [|t ts']; [by repeat constructor|].
  destruct t; try (split; [done|by apply with_qualifiers_ok; [|split; [|repeat constructor]]]).
  apply Forall_cons in Hts as [_ Hts]. revert ts' Hts.
  apply (ensures_bind _ _ some_patterns); [apply ensures_patterns|].
  intros ps Hps ts' Hts. destruct ts' as [|[] ts']; try done. apply Forall_cons in Hts as [_ ?].
  split; [done|by apply with_qualifiers_ok].
Qed.

Lemma ensures_simple a : takes_properties a || takes_labels a || takes_qualifiers a = false ->
  ensures (pl_ret (simple a)) head_ok.
Proof. intros H. by apply ensures_ret, simple_ok. Qed.

Lemma ensures_managed kw a : takes_properties a || takes_labels a || takes_qualifiers a = false ->
  ensures (fun ts => Some (Ok (simple a, skip kw ts))) head_ok.
Proof. intros H ts Hts. split; [by apply skip_ok|by apply simple_ok]. Qed.

Lemma ensures_named a p : takes_qualifiers a = false -> ensures p some_patterns ->
  ensures (do ps <- p; pl_ret (with_names a ps)) head_ok.
Proof.
  intros Ha Hp. apply (ensures_bind _ _ some_patterns); [done|].
  intros ps Hps. by apply ensures_ret, with_names_ok.
Qed.

Lemma ensures_execute : ensures execute_head head_ok.
Proof.
  unfold execute_head. repeat apply ensures_keyed_any; [..|apply ensures_refuse].
  - apply (ensures_bind _ _ (fun _ => True)); [by apply ensures_expect|]. intros _ _. by apply ensures_simple.
  - apply (ensures_bind _ _ some_patterns); [apply ensures_globs|].
    intros ps Hps. by apply ensures_ret, with_qualifiers_ok.
  - apply (ensures_bind _ _ some_patterns); [apply ensures_globs|].
    intros ps Hps. by apply ensures_ret, with_qualifiers_ok.
Qed.

Create HintDb reads.
#[local] Hint Resolve ensures_properties ensures_patterns ensures_transaction ensures_execute ensures_refuse
  ensures_managed ensures_simple ensures_named : reads.

Lemma ensures_head : ensures head head_ok.
Proof.
  unfold head. repeat first [apply ensures_keyed | apply ensures_keyed_any]; auto with reads.
  all: try (by apply (ensures_bind _ _ (fun _ => True)); [by apply ensures_expect|]; auto with reads).
  - intros ts Hts. split; [by apply skip_ok, skip_any_ok|by split].
  - apply ensures_management; [repeat constructor; done|]. apply ensures_keyed; auto with reads.
Qed.

(** *** The privileges made of a head *)
Definition shaped_all (ps : list Privilege) : Prop := ps <> [] /\ Forall (fun p => shaped p = true) ps.

Lemma fmap_shaped {A} (f : A -> Privilege) l : l <> [] -> Forall (fun x => shaped (f x) = true) l ->
  shaped_all (f <$> l).
Proof. intros Hne Hl. split; [by destruct l|by apply Forall_fmap]. Qed.

Lemma flat_map_shaped {A} (f : A -> list Privilege) l : l <> [] -> Forall (fun x => shaped_all (f x)) l ->
  shaped_all (flat_map f l).
Proof.
  intros Hne Hl. split.
  - destruct Hl as [|x l [Hx _] _]; [done|]. simpl. by destruct (f x).
  - clear Hne. induction Hl as [|x l [_ Hx] _ IH]; simpl; [constructor|]. by apply Forall_app.
Qed.

Lemma dbms_shaped h : head_ok h -> level (h_action h) = LDbms -> shaped_all (dbms_privileges h).
Proof.
  intros [_ Hq _ Hqs] Hl. unfold dbms_privileges.
  destruct (h_action h) eqn:Ha; try discriminate Hl;
    try (split; [done|by apply Forall_cons; split; [by vm_compute|constructor]]).
  - apply fmap_shaped; [by apply Hqs|]. eapply Forall_impl; [exact Hq|]. done.
  - apply fmap_shaped; [by apply Hqs|]. eapply Forall_impl; [exact Hq|]. done.
Qed.

Definition targets_ok (l : list Target) : Prop := l <> [] /\ Forall (fun t => shaped_target (Some t) = true) l.

Lemma database_shaped h targets : head_ok h -> targets_ok targets -> level (h_action h) = LDatabase ->
  shaped_all (database_privileges h targets).
Proof.
  intros [_ Hq _ Hqs] [Hne Ht] Hl. unfold database_privileges. apply flat_map_shaped; [done|].
  eapply Forall_impl; [exact Ht|]. intros t Hok.
  destruct (h_action h) eqn:Ha; try discriminate Hl;
    try (split; [done|apply Forall_cons; split; [unfold shaped; cbn -[shaped_target]; by rewrite Hok|constructor]]).
  apply fmap_shaped; [by apply Hqs|]. eapply Forall_impl; [exact Hq|].
  intros p Hp. unfold shaped. cbn -[shaped_target]. by rewrite Hok, Hp.
Qed.

Lemma resources_shaped h : head_ok h -> level (h_action h) = LGraph ->
  resources h <> [] /\ Forall (fun r => shaped_resource (h_action h) r = true) (resources h).
Proof.
  intros [Hn _ Hns _] Hl. unfold resources.
  destruct (takes_properties (h_action h)) eqn:Hp; [|destruct (takes_labels (h_action h)) eqn:Hlab].
  - split; [specialize (Hns eq_refl); by destruct (names h)|]. apply Forall_fmap.
    eapply Forall_impl; [exact Hn|]. intros [|n] Hf; simpl; by rewrite Hp.
  - split; [specialize (Hns eq_refl); by destruct (names h)|]. apply Forall_fmap.
    eapply Forall_impl; [exact Hn|]. intros [|n] Hf; simpl; by rewrite Hlab.
  - split; [done|]. apply Forall_cons; split; [simpl; by rewrite Hp, Hlab|constructor].
Qed.

Definition segments_ok (a : Action) (l : list Segment) : Prop :=
  l <> [] /\ Forall (fun s => shaped_segment a s = true) l.

Lemma graph_shaped h targets segs : head_ok h -> targets_ok targets -> segments_ok (h_action h) segs ->
  level (h_action h) = LGraph -> shaped_all (graph_privileges h targets segs).
Proof.
  intros Hh [Hne Ht] [Hse Hs] Hl. destruct (resources_shaped h Hh Hl) as [Hrne Hr]. unfold graph_privileges.
  apply flat_map_shaped; [done|]. eapply Forall_impl; [exact Ht|]. intros t Htok.
  apply flat_map_shaped; [done|]. eapply Forall_impl; [exact Hs|]. intros s Hsok.
  apply fmap_shaped; [done|]. eapply Forall_impl; [exact Hr|]. intros r Hrok.
  unfold shaped. cbn -[shaped_target]. by rewrite Hl, Htok, Hsok, Hrok.
Qed.

Lemma ensures_level : ensures level_word (fun l => l <> LDbms).
Proof.
  intros ts Hts. unfold level_word. destruct (eat_any [lit "GRAPH"; lit "GRAPHS"] ts) as [[]|] eqn:He;
    [split; [by eapply eat_any_ok in He as [? _]|done]|].
  destruct (eat_any [lit "DATABASE"; lit "DATABASES"] ts) as [[]|] eqn:He'; [|done].
  split; [by eapply eat_any_ok in He' as [? _]|done].
Qed.

Lemma targets_of_ok ps : some_patterns ps -> targets_ok (targets_of ps).
Proof.
  intros [Hne Hps]. split; [by destruct ps|]. apply Forall_fmap. eapply Forall_impl; [exact Hps|]. by intros [|n].
Qed.

Lemma ensures_scope : ensures scope (fun found_scope => found_scope.1 <> LDbms /\ targets_ok found_scope.2).
Proof.
  intros ts Hts. unfold scope. destruct (eat (lit "HOME") ts) as [ts'|] eqn:He.
  - apply (eat_ok _ _ _ Hts) in He. revert ts' He. apply (ensures_bind _ _ (fun l => l <> LDbms)); [apply ensures_level|].
    intros l Hl. apply ensures_ret. split; [done|]. split; [done|]. by repeat constructor.
  - destruct (at_ (lit "DEFAULT") ts); [done|]. revert ts Hts He. intros ts Hts _. revert ts Hts.
    apply (ensures_bind _ _ (fun l => l <> LDbms)); [apply ensures_level|]. intros l Hl.
    apply (ensures_bind _ _ some_patterns); [apply ensures_patterns|]. intros ps Hps.
    apply ensures_ret. split; [done|by apply targets_of_ok].
Qed.

Lemma ensures_segments a : ensures (segments a) (segments_ok a).
Proof.
  intros ts Hts. unfold segments. destruct (eat_any _ ts) as [[kind ts']|] eqn:He.
  - destruct (eat_any_ok _ _ _ _ Hts He) as [Hts' Hk]. destruct (takes_segment a) eqn:Ha; simpl; [|done].
    revert ts' Hts' He. intros ts' Hts' _. revert ts' Hts'.
    apply (ensures_bind _ _ some_patterns); [apply ensures_patterns|]. intros ps [Hne Hps]. apply ensures_ret.
    assert (Hs : forall f, f = SNode \/ f = SRelationship ->
      Forall (fun s => shaped_segment a s = true) (f <$> ps)).
    { intros f Hf. apply Forall_fmap. eapply Forall_impl; [exact Hps|]. intros p Hp.
      destruct Hf as [->| ->]; simpl; by rewrite Ha. }
    split.
    + unfold NODE_WORDS, RELATIONSHIP_WORDS, ELEMENT_WORDS in Hk. simpl in Hk.
      rewrite !elem_of_cons, elem_of_nil in Hk.
      destruct ps as [|p ps]; [done|]. by repeat destruct Hk as [->|Hk].
    + apply Forall_app. split; [destruct (starts_with (lit "RELATIONSHIP") kind)|destruct (starts_with (lit "NODE") kind)];
        (apply Forall_nil; exact I) || auto.
  - destruct (takes_segment a) eqn:Ha; simpl; (split; [done|]); (split; [done|]); repeat constructor; simpl; by rewrite Ha.
Qed.

Lemma set_action_ok h a : takes_properties a || takes_labels a || takes_qualifiers a = false ->
  head_ok h -> head_ok (set_action a h).
Proof.
  intros Ha [Hn Hq _ _]. split; simpl; try done; intros H; rewrite H in Ha; [done|by rewrite orb_true_r in Ha].
Qed.

Lemma ensures_privilege_on h : head_ok h -> ensures (privilege_on h) shaped_all.
Proof.
  intros Hh ts Hts. unfold privilege_on. destruct (eat (lit "DBMS") ts) as [ts'|] eqn:He.
  - apply (eat_ok _ _ _ Hts) in He. set (h' := if all h then _ else h). cbv zeta.
    assert (Hh' : head_ok h') by (unfold h'; destruct (all h); [by apply set_action_ok|done]).
    destruct (bool_decide_reflect (level (h_action h') = LDbms)); [|done]. split; [done|by apply dbms_shaped].
  - clear He. revert ts Hts. eapply ensures_bind; [apply ensures_scope|]. intros [l targets] [Hl Ht] ts Hts.
    simpl in Hl, Ht. cbv zeta. set (h' := if all h then _ else h).
    assert (Hh' : head_ok h') by (unfold h'; destruct (all h); [by destruct l; apply set_action_ok|done]).
    destruct (bool_decide_reflect (level (h_action h') = l)) as [Heq|]; [|done]. cbn [negb].
    destruct (bool_decide_reflect (l = LDatabase)) as [->|Hnd]; [split; [done|by apply database_shaped]|].
    revert ts Hts. eapply ensures_bind; [apply ensures_segments|]. intros segs Hsegs ts Hts.
    destruct (_ || _); [done|]. split; [done|]. apply graph_shaped; try done. by destruct l.
Qed.

Lemma ensures_privilege : ensures privilege shaped_all.
Proof.
  eapply ensures_bind; [apply ensures_head|]. intros h Hh.
  eapply (ensures_bind _ _ (fun _ => True)); [by apply ensures_expect|]. intros _ _. by apply ensures_privilege_on.
Qed.

Lemma ensures_op : ensures command_op (fun _ => True).
Proof.
  intros ts Hts. unfold command_op.
  destruct (eat (lit "GRANT") ts) eqn:H1; [split; [by eapply eat_ok|done]|].
  destruct (eat (lit "DENY") ts) eqn:H2; [split; [by eapply eat_ok|done]|].
  destruct (eat (lit "REVOKE") ts) as [ts'|] eqn:H3; [|done]. apply (eat_ok _ _ _ Hts) in H3.
  destruct (eat (lit "GRANT") ts') eqn:H4; [split; [by eapply eat_ok|done]|].
  destruct (eat (lit "DENY") ts') eqn:H5; [split; [by eapply eat_ok|done]|]. done.
Qed.

Definition well_formed (c : Command) : Prop := shaped_all (c_privileges c) /\ some_names (c_roles c).

Lemma ensures_command : ensures command well_formed.
Proof.
  eapply (ensures_bind _ _ (fun _ => True)); [apply ensures_op|]. intros o _ ts Hts.
  destruct (at_ (lit "IMMUTABLE") ts); [done|]. revert ts Hts.
  eapply ensures_bind; [apply ensures_privilege|]. intros ps Hps.
  destruct (match o with ORevoke _ => _ | _ => _ end) as [word other]. intros ts Hts.
  destruct (eat word ts) as [ts'|] eqn:He; [|done]. apply (eat_ok _ _ _ Hts) in He. revert ts' He.
  eapply ensures_bind; [apply ensures_name_list|]. intros ns Hns. by apply ensures_ret.
Qed.

(** ** The lexer answers, with words that are not empty *)
Lemma take_quoted_shrinks chars n rest : take_quoted chars = Some (n, rest) -> (length rest < length chars)%nat.
Proof.
  revert n rest. induction chars as [chars IH] using (induction_ltof1 _ (@length N)). unfold ltof in IH.
  intros n rest H. destruct chars as [|c chars]; simpl in H; [done|]. destruct (c =? BACKTICK).
  - destruct chars as [|c' chars]; [by injection H as <- <-; simpl; lia|].
    destruct (c' =? BACKTICK); [|by injection H as <- <-; simpl; lia].
    destruct (take_quoted chars) as [[n' r']|] eqn:Ht; [|done]. injection H as <- <-.
    apply IH in Ht; simpl in *; lia.
  - destruct (take_quoted chars) as [[n' r']|] eqn:Ht; [|done]. injection H as <- <-.
    apply IH in Ht; simpl in *; lia.
Qed.

Lemma take_word_shrinks `{!Chars} chars w rest : take_word chars = (w, rest) -> (length chars = length w + length rest)%nat.
Proof.
  revert w rest. induction chars as [|c chars IH]; intros w rest; simpl; [by intros [= <- <-]|].
  destruct (is_word_char c); [|by intros [= <- <-]]. destruct (take_word chars) as [w' r'] eqn:Ht.
  intros [= <- <-]. rewrite (IH _ _ eq_refl). done.
Qed.

Definition lex_answers (r : option (result ParseError (list Token))) : Prop :=
  match r with None => False | Some (Err _) => True | Some (Ok ts) => tokens_ok ts end.

Lemma lex_loop_ok `{!Chars} fuel chars out : (length chars < fuel)%nat -> tokens_ok out ->
  lex_answers (lex_loop fuel chars out).
Proof.
  revert chars out. induction fuel as [|fuel IH]; intros chars out Hf Hout; [lia|].
  destruct chars as [|c chars]; simpl in Hf; [done|].
  assert (Hpush : forall t rest, token_ok t -> (length rest < fuel)%nat ->
    lex_answers (lex_loop fuel rest (out ++ [t]))).
  { intros t rest Ht Hl. apply IH; [done|]. apply Forall_app. by split; [|repeat constructor]. }
  cbn [lex_loop]. destruct (is_whitespace c); [apply IH; [lia|done]|].
  destruct (punctuation c) as [t|] eqn:Hp.
  { apply Hpush; [|lia]. unfold punctuation in Hp. by repeat (destruct (c =? _); [injection Hp as <-; exact I|]). }
  destruct (c =? BACKTICK).
  - destruct (take_quoted chars) as [[n rest]|] eqn:Hq; [|done]. apply take_quoted_shrinks in Hq.
    destruct n; [done|]. apply Hpush; [done|lia].
  - destruct (is_word_char c) eqn:Hw; [|apply Hpush; [done|lia]].
    destruct (take_word (c :: chars)) as [w rest] eqn:Ht. pose proof (take_word_shrinks _ _ _ Ht) as Hl.
    assert (Hne : w <> []).
    { simpl in Ht. rewrite Hw in Ht. destruct (take_word chars). by injection Ht as <- <-. }
    apply Hpush; [by destruct (bool_decide _)|]. destruct w; [done|]. simpl in Hl. lia.
Qed.

Lemma parse_answers {chars : Chars} text : match parse text with
  | None => False
  | Some (Err _) => True
  | Some (Ok c) => well_formed c
  end.
Proof.
  unfold parse, lex. pose proof (lex_loop_ok (S (length text)) text [] ltac:(lia) ltac:(constructor)) as Hl.
  destruct (lex_loop _ text []) as [[ts|]|]; simpl in Hl; try done.
  pose proof (ensures_command ts Hl) as Hc. destruct (command ts) as [[[c [|t rest]]|]|]; simpl in *; try done.
  by destruct Hc.
Qed.

Lemma parsed_well_formed {chars : Chars} text c : parse text = Some (Ok c) -> well_formed c.
Proof. intros H. pose proof (parse_answers text) as Ha. by rewrite H in Ha. Qed.

(** Every text is read or refused: the loops of the lexer and of the parser
    end. A command that is read names at least one privilege and one role, no
    name in it is empty, and each privilege has the target, the segment and
    the resource its action takes. *)
Theorem parsed_shape {chars : Chars} text : match parse text with
  | None => False
  | Some (Err _) => True
  | Some (Ok c) => well_formed c
  end.
Proof. apply parse_answers. Qed.

(** A privilege that was read covers whole graphs where it covers every write:
    what [SecurityContext]'s shortcuts rely on. *)
Lemma shaped_graph_wide held : Forall (fun e => shaped e.2 = true) held -> graph_wide held.
Proof.
  intros Hall a [act t s r] Hin Hact. rewrite Forall_forall in Hall. specialize (Hall _ Hin).
  unfold shaped in Hall. simpl in *.
  destruct Hact as [->| ->]; simpl in Hall; apply andb_true_iff in Hall as [[_ Hs]%andb_true_iff _];
    by destruct s.
Qed.

(** What a command gives can be written and read again, unless a procedure
    name in it was in backticks. *)
Theorem command_rereads {chars : Chars} {laws : CharsLaws} text c p role :
  parse text = Some (Ok c) -> p ∈ c_privileges c -> role ∈ c_roles c -> readable p = true ->
  parse (to_command (mkEntry Grant p role)) = Some (Ok (mkCommand OGrant [p] [role])).
Proof.
  intros Hc Hp Hrole Hr. destruct (parsed_well_formed text c Hc) as [[_ Hps] [_ Hns]].
  rewrite <- entry_chunks_text. apply (parse_entry false (mkEntry Grant p role)); simpl; [|done|].
  - exact (proj1 (Forall_forall _ _) Hps p Hp).
  - exact (proj1 (Forall_forall _ _) Hns role Hrole).
Qed.

(** ** ASCII *)
Definition ascii_chars : Chars := {| is_whitespace := ascii_space; is_alphanumeric := AuthCatalog.is_alphanumeric |}.

Lemma ascii_laws : @CharsLaws ascii_chars.
Proof.
  split; [done|done|]. intros c. simpl. unfold AuthCatalog.is_alphanumeric, is_alphabetic, ascii_space, within.
  rewrite orb_false_iff, andb_false_iff, N.eqb_neq, !N.leb_gt, !orb_true_iff, !andb_true_iff, !N.leb_le. lia.
Qed.

(** A name spelled like a keyword, one with a space and one with a backtick. *)
Definition odd_entry : Entry :=
  mkEntry Deny (mkPrivilege Read (Some (TNamed (lit "on"))) (SNode (PName (lit "Customer")))
    (RProperty (lit "first name"))) (lit "a`b").

Lemma command_roundtrip_witness :
  to_command odd_entry = lit "DENY READ {`first name`} ON GRAPH `on` NODE Customer TO `a``b`" /\
  @parse ascii_chars (to_command odd_entry) =
    Some (Ok (mkCommand ODeny [e_privilege odd_entry] [lit "a`b"])).
Proof.
  split; [by vm_compute|].
  refine (proj1 (@command_roundtrip ascii_chars ascii_laws odd_entry _ _ _)); by vm_compute.
Defined.

(** A procedure name is written without the backticks it may need: it reads
    back as other privileges, or not at all. *)
Theorem glob_not_quoted :
  let privilege n := mkPrivilege ExecuteProcedure None (SProcedure (PName (lit n))) RDatabase in
  let granted ps := Some (Ok (mkCommand OGrant ps [lit "r"])) in
  @parse ascii_chars (lit "GRANT EXECUTE PROCEDURE `a, b` ON DBMS TO r") = granted [privilege "a, b"%string] /\
  @parse ascii_chars (to_command (mkEntry Grant (privilege "a, b"%string) (lit "r"))) =
    granted [privilege "a"%string; privilege "b"%string] /\
  @parse ascii_chars (lit "GRANT EXECUTE PROCEDURE `a b` ON DBMS TO r") = granted [privilege "a b"%string] /\
  exists message, @parse ascii_chars (to_command (mkEntry Grant (privilege "a b"%string) (lit "r"))) =
    Some (Err message).
Proof. repeat split; try (by vm_compute). eexists. by vm_compute. Qed.
