(* ===== verification/Native.v ===== *)
(** * The graph state and its operations
    (struct [Inner] of [src/drevo-core/src/native.rs])

    [Inner] is the whole in-memory graph: records, adjacency, indexes,
    embeddings, constraints and prepared transactions.  Entity maps and id sets
    are finite maps and sets, which [DenseMap] and [IdSet] refine (see
    [DenseMap.v]).  The id counters are shared by every copy of the state, so
    the operations that allocate ids take them beside it. *)
From S2P Require Import Prelude NativeModel.
Local Open Scope string_scope.
Local Open Scope list_scope.
Local Open Scope N_scope.

(** ** Adjacency lists *)
Record AdjEntry : Type := mkAdj { a_edge : N; a_neighbor : N; a_kind : N }.

#[global] Instance AdjEntry_eq_dec : EqDecision AdjEntry.
Proof. solve_decision. Defined.

(** [adj_sort_key] with the derived order on triples. *)
Definition adj_le (a b : AdjEntry) : bool :=
  (a_kind a <? a_kind b) ||
  ((a_kind a =? a_kind b) &&
   ((a_neighbor a <? a_neighbor b) ||
    ((a_neighbor a =? a_neighbor b) && (a_edge a <=? a_edge b)))).

Definition adj_lt (a b : AdjEntry) : bool := adj_le a b && negb (bool_decide (a = b)).

(** [partition_point]: the index of the first element that fails the
    predicate. *)
Fixpoint partition_point {A} (p : A -> bool) (l : list A) : nat :=
  match l with
  | [] => 0
  | x :: l => if p x then S (partition_point p l) else 0
  end.

Definition insert_adj_sorted (v : list AdjEntry) (entry : AdjEntry) : list AdjEntry :=
  let pos := partition_point (fun e => adj_lt e entry) v in
  take pos v ++ entry :: drop pos v.

Definition kind_run (v : list AdjEntry) (kind : N) : list AdjEntry :=
  let start := partition_point (fun e => a_kind e <? kind) v in
  let end_ := partition_point (fun e => a_kind e <=? kind) v in
  take (end_ - start) (drop start v).

#[global] Instance adj_le_rel_dec : RelDecision (fun a b => adj_le a b = true) :=
  fun a b => bool_eq_dec _ _.

(** [sort_unstable_by_key(adj_sort_key)]; keys are unique, so stability does not
    matter. *)
Definition sort_adj (v : list AdjEntry) : list AdjEntry :=
  merge_sort (fun a b => adj_le a b = true) v.

(** ** The state *)
Abbreviation Index := (gmap string (gset N)).
Abbreviation UniqueIndex := (gmap (string * list string) Index).

Record Inner : Type := mkInner {
  nodes : gmap N Node;
  edges : gmap N Edge;
  out_adj : gmap N (list AdjEntry);
  in_adj : gmap N (list AdjEntry);
  titles : Index;
  kind_index : Index;
  kind_ids : gmap string N;
  embeddings : gmap N (list F32);
  constraints : list Constraint;
  unique : UniqueIndex;
  last_updated_at : Z;
  prepared : gmap string PreparedEntry;
  heuristic : gset string;
  commit_seq : N;
}.

Record IdCounters : Type := mkIds { last_node : N; last_edge : N }.

Abbreviation GState := (IdCounters * Inner)%type.

(** [Inner::default]. *)
Definition inner_default : Inner := mkInner ∅ ∅ ∅ ∅ ∅ ∅ ∅ ∅ [] ∅ 0 ∅ ∅ 0.
Definition ids_default : IdCounters := mkIds 0 0.

(** Field updates. *)
Definition with_records (ns : gmap N Node) (es : gmap N Edge) (g : Inner) : Inner :=
  mkInner ns es (out_adj g) (in_adj g) (titles g) (kind_index g) (kind_ids g) (embeddings g)
    (constraints g) (unique g) (last_updated_at g) (prepared g) (heuristic g) (commit_seq g).
Definition with_nodes (ns : gmap N Node) (g : Inner) : Inner := with_records ns (edges g) g.
Definition with_edges (es : gmap N Edge) (g : Inner) : Inner := with_records (nodes g) es g.
Definition with_adj (o i : gmap N (list AdjEntry)) (g : Inner) : Inner :=
  mkInner (nodes g) (edges g) o i (titles g) (kind_index g) (kind_ids g) (embeddings g)
    (constraints g) (unique g) (last_updated_at g) (prepared g) (heuristic g) (commit_seq g).
Definition with_indexes (ts ks : Index) (u : UniqueIndex) (g : Inner) : Inner :=
  mkInner (nodes g) (edges g) (out_adj g) (in_adj g) ts ks (kind_ids g) (embeddings g)
    (constraints g) u (last_updated_at g) (prepared g) (heuristic g) (commit_seq g).
Definition with_kind_ids (ks : gmap string N) (g : Inner) : Inner :=
  mkInner (nodes g) (edges g) (out_adj g) (in_adj g) (titles g) (kind_index g) ks (embeddings g)
    (constraints g) (unique g) (last_updated_at g) (prepared g) (heuristic g) (commit_seq g).
Definition with_embeddings (em : gmap N (list F32)) (g : Inner) : Inner :=
  mkInner (nodes g) (edges g) (out_adj g) (in_adj g) (titles g) (kind_index g) (kind_ids g) em
    (constraints g) (unique g) (last_updated_at g) (prepared g) (heuristic g) (commit_seq g).
Definition with_constraints (cs : list Constraint) (u : UniqueIndex) (g : Inner) : Inner :=
  mkInner (nodes g) (edges g) (out_adj g) (in_adj g) (titles g) (kind_index g) (kind_ids g)
    (embeddings g) cs u (last_updated_at g) (prepared g) (heuristic g) (commit_seq g).
Definition with_updated_at (t : Z) (g : Inner) : Inner :=
  mkInner (nodes g) (edges g) (out_adj g) (in_adj g) (titles g) (kind_index g) (kind_ids g)
    (embeddings g) (constraints g) (unique g) t (prepared g) (heuristic g) (commit_seq g).
Definition with_prepared (p : gmap string PreparedEntry) (h : gset string) (g : Inner) : Inner :=
  mkInner (nodes g) (edges g) (out_adj g) (in_adj g) (titles g) (kind_index g) (kind_ids g)
    (embeddings g) (constraints g) (unique g) (last_updated_at g) p h (commit_seq g).
Definition with_commit_seq (n : N) (g : Inner) : Inner :=
  mkInner (nodes g) (edges g) (out_adj g) (in_adj g) (titles g) (kind_index g) (kind_ids g)
    (embeddings g) (constraints g) (unique g) (last_updated_at g) (prepared g) (heuristic g) n.

(** ** Counters and clocks *)
Module Ids.
Definition next_node (c : IdCounters) : IdCounters * N :=
  let id := wrap_u64 (last_node c + 1) in (mkIds id (last_edge c), id).
Definition next_edge (c : IdCounters) : IdCounters * N :=
  let id := wrap_u64 (last_edge c + 1) in (mkIds (last_node c) id, id).
Definition observe_node (id : N) (c : IdCounters) : IdCounters :=
  mkIds (N.max (last_node c) id) (last_edge c).
Definition observe_edge (id : N) (c : IdCounters) : IdCounters :=
  mkIds (last_node c) (N.max (last_edge c) id).
End Ids.

Definition observe_updated_at (ts : Z) (g : Inner) : Inner :=
  with_updated_at (Z.max (last_updated_at g) ts) g.

Definition next_updated_at (env : Env) (g : Inner) : Inner * Z :=
  let ts := Z.max (env_now env) (wrap_i64 (last_updated_at g + 1)) in
  (with_updated_at ts g, ts).

(** Interning an edge kind: the fresh id is the number of kinds, as a [u32]. *)
Definition intern_kind (kind : string) (g : Inner) : Inner * N :=
  match kind_ids g !! kind with
  | Some id => (g, id)
  | None =>
      let id := N.of_nat (size (kind_ids g)) mod 2 ^ 32 in
      (with_kind_ids (<[kind := id]> (kind_ids g)) g, id)
  end.

(** ** Buckets: the shape of every index *)
Definition bucket_insert (id : N) (k : string) (ix : Index) : Index :=
  <[k := {[ id ]} ∪ default ∅ (ix !! k)]> ix.

Definition bucket_remove (id : N) (k : string) (ix : Index) : Index :=
  match ix !! k with
  | Some s =>
      let s := s ∖ {[ id ]} in
      if bool_decide (s = ∅) then delete k ix else <[k := s]> ix
  | None => ix
  end.

Definition index_title (id : N) (title : string) (g : Inner) : Inner :=
  with_indexes (bucket_insert id title (titles g)) (kind_index g) (unique g) g.
Definition unindex_title (id : N) (title : string) (g : Inner) : Inner :=
  with_indexes (bucket_remove id title (titles g)) (kind_index g) (unique g) g.
Definition index_node_kind (id : N) (kind : string) (g : Inner) : Inner :=
  with_indexes (titles g) (bucket_insert id kind (kind_index g)) (unique g) g.
Definition unindex_node_kind (id : N) (kind : string) (g : Inner) : Inner :=
  with_indexes (titles g) (bucket_remove id kind (kind_index g)) (unique g) g.

(** ** Reads *)
Definition ascending (s : gset N) : list N := merge_sort N.le (elements s).

Section reads.
Implicit Types g : Inner.

Definition incident_entries g (node_id : N) (d : Direction) : list AdjEntry :=
  let out := default [] (out_adj g !! node_id) in
  let inc := default [] (in_adj g !! node_id) in
  match d with
  | Outgoing => out
  | Incoming => inc
  | Both => out ++ filter (fun e => a_neighbor e <> node_id) inc
  end.

Definition incident_entries_of_kind g (node_id : N) (d : Direction) (kind_id : N) : list AdjEntry :=
  let out := kind_run (default [] (out_adj g !! node_id)) kind_id in
  let inc := kind_run (default [] (in_adj g !! node_id)) kind_id in
  match d with
  | Outgoing => out
  | Incoming => inc
  | Both => out ++ filter (fun e => a_neighbor e <> node_id) inc
  end.

(** [seen.insert(..)] then [push]. *)
Definition push_neighbor (st : gset N * list N) (e : AdjEntry) : gset N * list N :=
  if bool_decide (a_neighbor e ∈ st.1) then st
  else ({[ a_neighbor e ]} ∪ st.1, st.2 ++ [a_neighbor e]).

Definition neighbor_ids g (node_id : N) (d : Direction) (kind : option string) : list N :=
  let walk entries := (foldl push_neighbor ({[ node_id ]}, []) entries).2 in
  match kind with
  | Some k =>
      match kind_ids g !! k with
      | Some id => walk (incident_entries_of_kind g node_id d id)
      | None => []
      end
  | None => walk (incident_entries g node_id d)
  end.

Definition neighbors g (node_id : N) (d : Direction) (kind : option string) : list Node :=
  omap (fun id => nodes g !! id) (neighbor_ids g node_id d kind).

Definition edges_of g (node_id : N) (d : Direction) : list Edge :=
  omap (fun e => edges g !! a_edge e) (incident_entries g node_id d).

(** Records by ascending id. *)
Definition ids_of {A} (m : gmap N A) : list N := ascending (dom m).
Definition all_nodes g : list Node := omap (fun id => nodes g !! id) (ids_of (nodes g)).
Definition all_edges g : list Edge := omap (fun id => edges g !! id) (ids_of (edges g)).

Definition nodes_by_kind g (kind : string) (limit offset : nat) : list Node :=
  match kind_index g !! kind with
  | None => []
  | Some ids => omap (fun id => nodes g !! id) (take limit (drop offset (ascending ids)))
  end.

Definition get_node_by_title g (title : string) : option Node :=
  ids ← titles g !! title; id ← head (ascending ids); nodes g !! id.

Definition nodes_by_title g (title : string) : list Node :=
  omap (fun id => nodes g !! id) (from_option ascending [] (titles g !! title)).

(** [updated_at] descending, ties by id descending. *)
Definition recent_le (a b : Node) : Prop :=
  (n_updated_at b < n_updated_at a)%Z \/ (n_updated_at a = n_updated_at b /\ n_id b <= n_id a).
#[global] Instance recent_le_dec : RelDecision recent_le.
Proof. unfold recent_le. intros a b. apply _. Defined.

Definition list_recent g (limit : nat) : list Node :=
  take limit (merge_sort recent_le (map_to_list (nodes g)).*2).

Definition list_edges_by_kind g (kind : string) (limit offset : nat) : list Edge :=
  take limit (drop offset (filter (fun e => e_kind e = kind) (all_edges g))).
End reads.

(** ** Constraints *)
Section constraints.
Context `{JsonText}.
Implicit Types g : Inner.

(** The loops of [index_unique] and [unindex_unique] over the lookups. *)
Definition unique_add (n : Node) (u : UniqueIndex) : UniqueIndex :=
  map_imap (fun lp values => Some
    (if has_label n lp.1
     then match tuple_key n lp.2 with
          | Some key => bucket_insert (n_id n) key values
          | None => values
          end
     else values)) u.

Definition unique_del (n : Node) (u : UniqueIndex) : UniqueIndex :=
  map_imap (fun lp values => Some
    (if has_label n lp.1
     then match tuple_key n lp.2 with
          | Some key => bucket_remove (n_id n) key values
          | None => values
          end
     else values)) u.

Definition index_unique (n : Node) g : Inner :=
  with_indexes (titles g) (kind_index g) (unique_add n (unique g)) g.
Definition unindex_unique (n : Node) g : Inner :=
  with_indexes (titles g) (kind_index g) (unique_del n (unique g)) g.

(** The first entry of the lookups, in the map's order, that [n] breaks. *)
Fixpoint check_unique_in (n : Node) (l : list ((string * list string) * Index)) :
    result ConstraintViolation unit :=
  match l with
  | [] => Ok tt
  | ((label, properties), values) :: l =>
      if negb (has_label n label) then check_unique_in n l
      else match tuple_key n properties with
           | None => check_unique_in n l
           | Some key =>
               match filter (fun other => other <> n_id n)
                       (from_option ascending [] (values !! key)) with
               | other :: _ =>
                   Err (mkViolation label
                     ("node " +:+ pretty other +:+ " already has " +:+
                      describe_properties properties +:+ " = " +:+ describe_key key +:+
                      " (unique constraint)"))
               | [] => check_unique_in n l
               end
           end
  end.

Definition check_unique g (n : Node) : result ConstraintViolation unit :=
  check_unique_in n (map_to_list (unique g)).

Fixpoint check_exists_in (n : Node) (cs : list Constraint) : result ConstraintViolation unit :=
  match cs with
  | [] => Ok tt
  | c :: cs =>
      match required_tuple c with
      | None => check_exists_in n cs
      | Some (kind, required) =>
          if negb (has_label n kind) then check_exists_in n cs
          else match filter (fun p => unique_key n p = None) required with
               | missing :: _ =>
                   Err (mkViolation kind
                     ("node " +:+ pretty (n_id n) +:+ " is missing required property `" +:+
                      missing +:+ "`"))
               | [] => check_exists_in n cs
               end
      end
  end.

Definition check_exists g (n : Node) : result ConstraintViolation unit :=
  check_exists_in n (constraints g).

Definition build_unique g (label : string) (properties : list string) : Index :=
  foldl (fun values n =>
    if has_label n label
    then match tuple_key n properties with
         | Some key => bucket_insert (n_id n) key values
         | None => values
         end
    else values) ∅ (map_to_list (nodes g)).*2.

Definition needed_tuples (cs : list Constraint) : list (string * list string) :=
  omap unique_tuple cs.

Definition sync_unique g : Inner :=
  let needed := needed_tuples (constraints g) in
  let u := filter (fun lv => lv.1 ∈ needed) (unique g) in
  with_constraints (constraints g)
    (foldl (fun u lp => if bool_decide (is_Some (u !! lp)) then u
                        else <[lp := build_unique g lp.1 lp.2]> u) u needed) g.

(** [validate_constraints]: existence for every node, then the duplicate scan. *)
Fixpoint check_exists_all g (ns : list Node) : result ConstraintViolation unit :=
  match ns with
  | [] => Ok tt
  | n :: ns => _ ← check_exists g n; check_exists_all g ns
  end.

Fixpoint scan_duplicates (kind : string) (properties : list string) (seen : gset string)
    (ns : list Node) : result ConstraintViolation unit :=
  match ns with
  | [] => Ok tt
  | n :: ns =>
      if negb (has_label n kind) then scan_duplicates kind properties seen ns
      else match tuple_key n properties with
           | None => scan_duplicates kind properties seen ns
           | Some key =>
               if bool_decide (key ∈ seen)
               then Err (mkViolation kind
                      ("duplicate value " +:+ describe_key key +:+ " for unique " +:+
                       describe_properties properties))
               else scan_duplicates kind properties ({[ key ]} ∪ seen) ns
           end
  end.

Fixpoint scan_constraints g (cs : list Constraint) : result ConstraintViolation unit :=
  match cs with
  | [] => Ok tt
  | c :: cs =>
      match unique_tuple c with
      | None => scan_constraints g cs
      | Some (kind, properties) =>
          _ ← scan_duplicates kind properties ∅ (map_to_list (nodes g)).*2;
          scan_constraints g cs
      end
  end.

Definition validate_constraints g : result ConstraintViolation unit :=
  _ ← check_exists_all g (map_to_list (nodes g)).*2; scan_constraints g (constraints g).
End constraints.

(** ** Writes *)
Section writes.
Context `{JsonText}.

Definition violation {A} (r : result ConstraintViolation A) : result CoreError A :=
  match r with Ok a => Ok a | Err v => Err (Violation v) end.

Definition create_node_checked (env : Env) (nn : NewNode) (require : bool) :
    ST GState CoreError Node := fun '(ids, g) =>
  let '(ids, id) := Ids.next_node ids in
  let node := into_node env nn id in
  match violation (check_unique g node) with
  | Err e => ((ids, g), Err e)
  | Ok _ =>
      match (if require then violation (check_exists g node) else Ok tt) with
      | Err e => ((ids, g), Err e)
      | Ok _ =>
          let g := observe_updated_at (n_updated_at node) g in
          let g := index_title id (n_title node) g in
          let g := index_node_kind id (n_kind node) g in
          let g := index_unique node g in
          ((ids, with_nodes (<[id := node]> (nodes g)) g), Ok node)
      end
  end.

Definition apply_node_patch (old : Node) (p : NodePatch) : Node :=
  mkNode (n_id old) (n_uuid old) (default (n_kind old) (np_kind p))
    (default (n_title old) (np_title p)) (default (n_body old) (np_body p))
    (default (n_body_html old) (np_body_html p)) (n_created_at old) (n_updated_at old)
    (default (n_properties old) (np_properties p)).

Definition set_updated_at (t : Z) (n : Node) : Node :=
  mkNode (n_id n) (n_uuid n) (n_kind n) (n_title n) (n_body n) (n_body_html n) (n_created_at n)
    t (n_properties n).

Definition update_node_checked (env : Env) (id : N) (patch : NodePatch) (require : bool) :
    ST Inner CoreError Node := fun g =>
  match nodes g !! id with
  | None => (g, Err (NodeNotFound id))
  | Some old =>
      let node := apply_node_patch old patch in
      match violation (check_unique g node) with
      | Err e => (g, Err e)
      | Ok _ =>
          match (if require then violation (check_exists g node) else Ok tt) with
          | Err e => (g, Err e)
          | Ok _ =>
              let g := if bool_decide (n_title old = n_title node) then g
                       else index_title id (n_title node) (unindex_title id (n_title old) g) in
              let g := if bool_decide (n_kind old = n_kind node) then g
                       else index_node_kind id (n_kind node) (unindex_node_kind id (n_kind old) g) in
              let g := index_unique node (unindex_unique old g) in
              let '(g, ts) := next_updated_at env g in
              let node := set_updated_at ts node in
              (with_nodes (<[id := node]> (nodes g)) g, Ok node)
          end
      end
  end.

(** A missing id is a no-op. *)
Definition remove_edge (id : N) (g : Inner) : Inner :=
  match edges g !! id with
  | None => g
  | Some edge =>
      let g := with_edges (delete id (edges g)) g in
      let drop_id := filter (fun e => a_edge e <> id) in
      with_adj (alter drop_id (e_from edge) (out_adj g)) (alter drop_id (e_to edge) (in_adj g)) g
  end.

Definition remove_edges (ids : list N) (g : Inner) : Inner :=
  foldl (fun g id => remove_edge id g) g ids.

(** The shared body of [delete_node] and the replay of [DeleteNode]. *)
Definition drop_node (id : N) (node : Node) (g : Inner) : Inner :=
  let g := remove_edges (a_edge <$> incident_entries g id Both) g in
  let g := unindex_title id (n_title node) g in
  let g := unindex_node_kind id (n_kind node) g in
  let g := unindex_unique node g in
  let g := with_nodes (delete id (nodes g)) g in
  with_embeddings (delete id (embeddings g)) g.

Definition delete_node (id : N) : ST Inner CoreError unit := fun g =>
  match nodes g !! id with
  | None => (g, Err (NodeNotFound id))
  | Some node => (drop_node id node g, Ok tt)
  end.

(** [insert_adj_sorted(adj.entry_or_default(at), entry)]. *)
Definition adj_insert (at_ : N) (entry : AdjEntry) (adj : gmap N (list AdjEntry)) :
    gmap N (list AdjEntry) :=
  <[at_ := insert_adj_sorted (default [] (adj !! at_)) entry]> adj.

(** The shared tail of [create_edge] and the replay of [UpsertEdge]: intern the
    kind, link both directions. *)
Definition link_edge (edge : Edge) (g : Inner) : Inner :=
  let '(g, kind_id) := intern_kind (e_kind edge) g in
  with_adj (adj_insert (e_from edge) (mkAdj (e_id edge) (e_to edge) kind_id) (out_adj g))
           (adj_insert (e_to edge) (mkAdj (e_id edge) (e_from edge) kind_id) (in_adj g)) g.

Definition create_edge (env : Env) (ne : NewEdge) : ST GState CoreError Edge := fun '(ids, g) =>
  if negb (f32_is_finite (ne_weight ne)) then ((ids, g), Err (InvalidWeight (ne_weight ne)))
  else match nodes g !! ne_from ne with
  | None => ((ids, g), Err (NodeNotFound (ne_from ne)))
  | Some _ =>
      match nodes g !! ne_to ne with
      | None => ((ids, g), Err (NodeNotFound (ne_to ne)))
      | Some _ =>
          let '(ids, id) := Ids.next_edge ids in
          let edge := into_edge env ne id in
          let g := link_edge edge g in
          ((ids, with_edges (<[id := edge]> (edges g)) g), Ok edge)
      end
  end.

Definition set_kind_in (id new_kind : N) (l : list AdjEntry) : list AdjEntry :=
  sort_adj ((fun e => if bool_decide (a_edge e = id)
                      then mkAdj (a_edge e) (a_neighbor e) new_kind else e) <$> l).

Definition update_edge (id : N) (patch : EdgePatch) : ST Inner CoreError Edge := fun g =>
  match (match ep_weight patch with
         | Some w => if f32_is_finite w then Ok tt else Err (InvalidWeight w)
         | None => Ok tt
         end) with
  | Err e => (g, Err e)
  | Ok _ =>
      match edges g !! id with
      | None => (g, Err (EdgeNotFound id))
      | Some old =>
          let edge := mkEdge (e_id old) (e_uuid old) (e_from old) (e_to old)
                        (default (e_kind old) (ep_kind patch))
                        (default (e_weight old) (ep_weight patch)) (e_created_at old)
                        (default (e_properties old) (ep_properties patch)) in
          let g := match ep_kind patch with
                   | None => g
                   | Some _ =>
                       let '(g, k) := intern_kind (e_kind edge) g in
                       with_adj (alter (set_kind_in id k) (e_from edge) (out_adj g))
                                (alter (set_kind_in id k) (e_to edge) (in_adj g)) g
                   end in
          (with_edges (<[id := edge]> (edges g)) g, Ok edge)
      end
  end.

Definition delete_edge (id : N) : ST Inner CoreError unit := fun g =>
  match edges g !! id with
  | None => (g, Err (EdgeNotFound id))
  | Some _ => (remove_edge id g, Ok tt)
  end.

(** ** The write-ahead log *)

(** The order of a [BTreeMap] keyed by strings. *)
Definition string_le (a b : string) : Prop := String.leb a b = true.
#[global] Instance string_le_dec : RelDecision string_le := fun a b => bool_eq_dec _ _.

Definition sorted_keys (s : gset string) : list string := merge_sort string_le (elements s).

Definition to_wal_ops (g : Inner) : list WalOp :=
  (UpsertNode <$> all_nodes g) ++
  (UpsertEdge <$> all_edges g) ++
  omap (fun id => v ← embeddings g !! id; Some (SetEmbedding id v)) (ids_of (embeddings g)) ++
  omap (fun gid => e ← prepared g !! gid; Some (Prepare gid (prepared_at_ms e) (prepared_ops e)))
    (sorted_keys (dom (prepared g))) ++
  ((fun gid => RollbackPrepared gid true) <$> sorted_keys (heuristic g)).

Definition upsert_node (node : Node) : GState -> GState := fun '(ids, g) =>
  let g := match nodes g !! n_id node with
           | Some old => unindex_unique old (unindex_node_kind (n_id node) (n_kind old)
                           (unindex_title (n_id node) (n_title old) g))
           | None => g
           end in
  let g := index_title (n_id node) (n_title node) g in
  let g := index_unique node g in
  let g := index_node_kind (n_id node) (n_kind node) g in
  let g := observe_updated_at (n_updated_at node) g in
  (Ids.observe_node (n_id node) ids, with_nodes (<[n_id node := node]> (nodes g)) g).

Definition upsert_edge (edge : Edge) : GState -> GState := fun '(ids, g) =>
  let g := remove_edge (e_id edge) g in
  let g := link_edge edge g in
  (Ids.observe_edge (e_id edge) ids, with_edges (<[e_id edge := edge]> (edges g)) g).

(** [apply_wal_op]; [fuel] bounds the nesting of resolved transactions. *)
Fixpoint apply_wal_op_fuel (fuel : nat) (op : WalOp) (st : GState) : option GState :=
  match fuel with
  | O => None
  | S fuel =>
      let '(ids, g) := st in
      match op with
      | UpsertNode node => Some (upsert_node node st)
      | DeleteNode id =>
          match nodes g !! id with
          | Some node => Some (ids, drop_node id node g)
          | None => Some st
          end
      | UpsertEdge edge => Some (upsert_edge edge st)
      | DeleteEdge id => Some (ids, remove_edge id g)
      | SetEmbedding id v => Some (ids, with_embeddings (<[id := v]> (embeddings g)) g)
      | DeleteEmbedding id => Some (ids, with_embeddings (delete id (embeddings g)) g)
      | Prepare gid at_ ops =>
          Some (ids, with_prepared (<[gid := mkPrepared at_ ops]> (prepared g))
                       (heuristic g ∖ {[ gid ]}) g)
      | CommitPrepared gid =>
          match prepared g !! gid with
          | Some entry =>
              foldl (fun acc op => st ← acc; apply_wal_op_fuel fuel op st)
                (Some (ids, with_prepared (delete gid (prepared g)) (heuristic g) g))
                (prepared_ops entry)
          | None => Some st
          end
      | RollbackPrepared gid h =>
          Some (ids, with_prepared (delete gid (prepared g))
                       (if h then {[ gid ]} ∪ heuristic g else heuristic g) g)
      end
  end.

(** The operations a state still holds back, counted with their nesting. *)
Fixpoint op_weight (op : WalOp) : nat :=
  match op with
  | Prepare _ _ ops => S (foldr (fun o n => op_weight o + n)%nat 0%nat ops)
  | _ => 0
  end.
Definition ops_weight (ops : list WalOp) : nat := foldr (fun o n => op_weight o + n)%nat 0%nat ops.
Definition prepared_weight (g : Inner) : nat :=
  map_fold (fun _ e n => S (ops_weight (prepared_ops e) + n))%nat 0%nat (prepared g).

(** Enough fuel: see [apply_wal_op_total]. *)
Definition apply_wal_op (op : WalOp) (st : GState) : GState :=
  default st (apply_wal_op_fuel (S (prepared_weight st.2 + op_weight op)) op st).

Definition apply_wal_ops (ops : list WalOp) (st : GState) : GState :=
  foldl (fun st op => apply_wal_op op st) st ops.

(** [NativeGraph::replay], the graph it rebuilds. *)
Definition replay (ops : list WalOp) : GState := apply_wal_ops ops (ids_default, inner_default).
End writes.
