(* ===== verification/NativeInv.v ===== *)
(** * The graph invariant

    [graph_wf] says that every derived structure of [Inner] -- the title, kind
    and uniqueness lookups, the interned kinds and both adjacency directions --
    is exactly what the records determine.  Every operation of [Native]
    preserves it. *)
From S2P Require Import Prelude NativeModel Native.
Local Open Scope string_scope.
Local Open Scope list_scope.
Local Open Scope N_scope.

(** ** Indexes *)

(** [ix] files exactly the nodes with a key, under their key, and has no empty
    bucket. *)
Definition index_ok (key : Node -> option string) (ns : gmap N Node) (ix : Index) : Prop :=
  (forall k id, id ∈ default ∅ (ix !! k) <-> exists n, ns !! id = Some n /\ key n = Some k) /\
  (forall k, ix !! k <> Some ∅).

Definition bucket_insert_opt (id : N) (ko : option string) (ix : Index) : Index :=
  match ko with Some k => bucket_insert id k ix | None => ix end.
Definition bucket_remove_opt (id : N) (ko : option string) (ix : Index) : Index :=
  match ko with Some k => bucket_remove id k ix | None => ix end.

Lemma bucket_insert_lookup id k ix k' :
  default ∅ (bucket_insert id k ix !! k') =
  if decide (k = k') then {[ id ]} ∪ default ∅ (ix !! k) else default ∅ (ix !! k').
Proof. unfold bucket_insert. rewrite lookup_insert. by case_decide. Qed.

Lemma bucket_remove_lookup id k ix k' :
  default ∅ (bucket_remove id k ix !! k') =
  if decide (k = k') then default ∅ (ix !! k) ∖ {[ id ]} else default ∅ (ix !! k').
Proof.
  unfold bucket_remove. destruct (ix !! k) as [s|] eqn:E; simpl.
  - case_bool_decide as Hs; [rewrite lookup_delete|rewrite lookup_insert]; case_decide; simpl; done.
  - case_decide as Hd; [|done]. subst. rewrite E. simpl. set_solver.
Qed.

Lemma bucket_insert_nonempty id k ix k' :
  (forall j, ix !! j <> Some ∅) -> bucket_insert id k ix !! k' <> Some ∅.
Proof.
  intros Hne. unfold bucket_insert. rewrite lookup_insert. case_decide; [|done].
  intros [= He]. assert (id ∈ (∅ : gset N)) by (rewrite <- He; set_solver). set_solver.
Qed.

Lemma bucket_remove_nonempty id k ix k' :
  (forall j, ix !! j <> Some ∅) -> bucket_remove id k ix !! k' <> Some ∅.
Proof.
  intros Hne. unfold bucket_remove. destruct (ix !! k) as [s|] eqn:E; [|done].
  case_bool_decide as Hs; [rewrite lookup_delete|rewrite lookup_insert]; case_decide; try done.
  congruence.
Qed.

Lemma index_ok_empty key : index_ok key ∅ ∅.
Proof.
  split; [|done]. intros k id. rewrite lookup_empty. simpl. setoid_rewrite lookup_empty. set_solver.
Qed.

Lemma index_ok_insert key ns ix id n : index_ok key ns ix -> ns !! id = None ->
  index_ok key (<[id := n]> ns) (bucket_insert_opt id (key n) ix).
Proof.
  intros [Hix Hne] Hid. destruct (key n) as [k|] eqn:Ek; simpl.
  - split; [|intros k'; by apply bucket_insert_nonempty].
    intros k' i. rewrite bucket_insert_lookup. setoid_rewrite lookup_insert.
    destruct (decide (k = k')) as [<-|Hk].
    + rewrite elem_of_union, elem_of_singleton, Hix. split.
      * intros [->|(m & Hm & Hkm)]; [exists n; by rewrite decide_True|].
        exists m. split; [|done]. rewrite decide_False; [done|]. congruence.
      * intros (m & Hm & Hkm). case_decide; [by left|]. right. eauto.
    + rewrite Hix. split; intros (m & Hm & Hkm); exists m; (split; [|done]).
      * rewrite decide_False; [done|]. congruence.
      * case_decide; [congruence|done].
  - split; [|done]. intros k' i. rewrite Hix. setoid_rewrite lookup_insert.
    split; intros (m & Hm & Hkm); exists m; (split; [|done]);
      case_decide; congruence.
Qed.

Lemma index_ok_delete key ns ix id n : index_ok key ns ix -> ns !! id = Some n ->
  index_ok key (delete id ns) (bucket_remove_opt id (key n) ix).
Proof.
  intros [Hix Hne] Hid. destruct (key n) as [k|] eqn:Ek; simpl.
  - split; [|intros k'; by apply bucket_remove_nonempty].
    intros k' i. rewrite bucket_remove_lookup. setoid_rewrite lookup_delete.
    destruct (decide (k = k')) as [<-|Hk].
    + rewrite elem_of_difference, elem_of_singleton, Hix. split.
      * intros [(m & Hm & Hkm) Hi]. exists m. split; [|done]. by rewrite decide_False.
      * intros (m & Hm & Hkm). case_decide; [done|]. split; [eauto|congruence].
    + rewrite Hix. split; intros (m & Hm & Hkm); exists m; (split; [|done]).
      * rewrite decide_False; [done|]. congruence.
      * case_decide; [done|done].
  - split; [|done]. intros k' i. rewrite Hix. setoid_rewrite lookup_delete.
    split; intros (m & Hm & Hkm); exists m; (split; [|done]); case_decide; congruence.
Qed.

(** Replacing a record: off the old key, onto the new one. *)
Lemma index_ok_replace key ns ix id n n' : index_ok key ns ix -> ns !! id = Some n ->
  index_ok key (<[id := n']> ns) (bucket_insert_opt id (key n') (bucket_remove_opt id (key n) ix)).
Proof.
  intros Hix Hid. rewrite <- insert_delete_eq. apply index_ok_insert.
  - by apply index_ok_delete.
  - apply lookup_delete_eq.
Qed.

Lemma index_ok_same_key key ns ix id n n' : index_ok key ns ix -> ns !! id = Some n ->
  key n = key n' -> index_ok key (<[id := n']> ns) ix.
Proof.
  intros [Hix Hne] Hid Hk. split; [|done]. intros k i. rewrite Hix. setoid_rewrite lookup_insert.
  split.
  - intros (m & Hm & Hkm). case_decide; [exists n'; split; [done|congruence]|eauto].
  - intros (m & Hm & Hkm). case_decide; [exists n; split; [congruence|congruence]|eauto].
Qed.

(** ** Sorted adjacency *)
Definition adj_sorted : list AdjEntry -> Prop := StronglySorted (fun a b => adj_lt a b = true).

Lemma adj_le_spec a b : adj_le a b = true <->
  a_kind a < a_kind b \/ (a_kind a = a_kind b /\
    (a_neighbor a < a_neighbor b \/ (a_neighbor a = a_neighbor b /\ a_edge a <= a_edge b))).
Proof.
  unfold adj_le.
  rewrite !orb_true_iff, !andb_true_iff, !orb_true_iff, !andb_true_iff, !N.ltb_lt, !N.eqb_eq, N.leb_le.
  done.
Qed.

Lemma adj_lt_spec a b : adj_lt a b = true <->
  a_kind a < a_kind b \/ (a_kind a = a_kind b /\
    (a_neighbor a < a_neighbor b \/ (a_neighbor a = a_neighbor b /\ a_edge a < a_edge b))).
Proof.
  unfold adj_lt. rewrite andb_true_iff, adj_le_spec, negb_true_iff, bool_decide_eq_false.
  destruct a as [e n k], b as [e' n' k']; simpl. split.
  - intros [Hle Hne]. assert (~ (e = e' /\ n = n' /\ k = k')) by (intros (-> & -> & ->); done). lia.
  - intros Hlt. split; [lia|]. intros [= -> -> ->]. lia.
Qed.

Lemma adj_lt_trans a b c : adj_lt a b = true -> adj_lt b c = true -> adj_lt a c = true.
Proof. rewrite !adj_lt_spec. lia. Qed.

Lemma adj_lt_irrefl a : adj_lt a a = false.
Proof. apply not_true_iff_false. rewrite adj_lt_spec. lia. Qed.

Lemma adj_lt_total a b : a <> b -> adj_lt a b = false -> adj_lt b a = true.
Proof.
  intros Hne Hf. apply not_true_iff_false in Hf. rewrite adj_lt_spec in *.
  destruct a as [e n k], b as [e' n' k']; simpl in *.
  assert (~ (e = e' /\ n = n' /\ k = k')) by (intros (-> & -> & ->); done). lia.
Qed.

#[global] Instance adj_le_total : Total (fun a b => adj_le a b = true).
Proof. intros a b. rewrite !adj_le_spec. lia. Qed.
#[global] Instance adj_le_trans : Transitive (fun a b => adj_le a b = true).
Proof. intros a b c. rewrite !adj_le_spec. lia. Qed.

Lemma partition_point_le {A} (p : A -> bool) l : (partition_point p l <= length l)%nat.
Proof. induction l as [|x l IH]; simpl; [lia|]. destruct (p x); simpl; lia. Qed.

Lemma partition_point_before {A} (p : A -> bool) l x :
  x ∈ take (partition_point p l) l -> p x = true.
Proof.
  induction l as [|y l IH]; simpl; [by intros ?%not_elem_of_nil|].
  destruct (p y) eqn:E; [|by intros ?%not_elem_of_nil]. simpl.
  intros [->|Hx]%elem_of_cons; auto.
Qed.

(** On a list where the predicate, once false, stays false. *)
Lemma partition_point_after {A} (p : A -> bool) (R : A -> A -> Prop) l x :
  StronglySorted R l -> (forall a b, R a b -> p b = true -> p a = true) ->
  x ∈ drop (partition_point p l) l -> p x = false.
Proof.
  intros Hs HR. induction Hs as [|y l Hs IH Hy]; simpl; [by intros ?%not_elem_of_nil|].
  destruct (p y) eqn:E; simpl; [done|]. intros [->|Hx]%elem_of_cons; [done|].
  rewrite Forall_forall in Hy. destruct (p x) eqn:Ex; [|done].
  by rewrite (HR y x (Hy x Hx) Ex) in E.
Qed.

Lemma StronglySorted_app_iff {A} (R : A -> A -> Prop) l1 l2 : StronglySorted R (l1 ++ l2) <->
  StronglySorted R l1 /\ StronglySorted R l2 /\ forall a b, a ∈ l1 -> b ∈ l2 -> R a b.
Proof.
  induction l1 as [|x l1 IH]; simpl.
  - split; [|tauto]. intros Hs. split_and!; [constructor|done|]. by intros a b ?%not_elem_of_nil.
  - split.
    + intros Hs. inversion Hs as [|? ? Hs' Hf]; subst. apply IH in Hs' as (H1 & H2 & H3).
      rewrite Forall_app in Hf. destruct Hf as [Hf1 Hf2].
      split_and!; [by constructor|done|]. rewrite Forall_forall in Hf2.
      intros a b [->|Ha]%elem_of_cons Hb; auto.
    + intros (Hs1 & Hs2 & Hc). inversion Hs1 as [|? ? Hs' Hf]; subst. constructor.
      * apply IH. split_and!; [done|done|]. intros a b Ha Hb. apply Hc; [by right|done].
      * apply Forall_app. split; [done|]. apply Forall_forall. intros b Hb. apply Hc; [by left|done].
Qed.

Lemma StronglySorted_filter {A} (R : A -> A -> Prop) (P : A -> Prop) `{!forall x, Decision (P x)} l :
  StronglySorted R l -> StronglySorted R (filter P l).
Proof.
  induction 1 as [|x l Hs IH Hx]; [constructor|]. rewrite filter_cons. case_decide; [|done].
  constructor; [done|]. apply Forall_forall. intros y [_ Hy]%list_elem_of_filter.
  by rewrite Forall_forall in Hx; apply Hx.
Qed.

Lemma insert_adj_elem v entry e : e ∈ insert_adj_sorted v entry <-> e = entry \/ e ∈ v.
Proof.
  unfold insert_adj_sorted. set (p := partition_point _ v).
  assert (e ∈ v <-> e ∈ take p v \/ e ∈ drop p v) as Hv by (by rewrite <- elem_of_app, take_drop).
  rewrite elem_of_app, elem_of_cons. tauto.
Qed.

Lemma insert_adj_sorted_ok v entry : adj_sorted v -> entry ∉ v -> adj_sorted (insert_adj_sorted v entry).
Proof.
  intros Hs Hn. unfold insert_adj_sorted. set (p := partition_point _ v).
  assert (forall x, x ∈ drop p v -> adj_lt entry x = true) as Ha.
  { intros x Hx. apply adj_lt_total.
    - intros ->. apply Hn. rewrite <- (take_drop p v). apply elem_of_app. by right.
    - eapply (partition_point_after (fun e => adj_lt e entry)); [exact Hs| |exact Hx].
      intros a b Hab Hb. exact (adj_lt_trans _ _ _ Hab Hb). }
  rewrite <- (take_drop p v) in Hs. apply StronglySorted_app_iff in Hs as (H1 & H2 & H3).
  apply StronglySorted_app_iff. split_and!; [done| |].
  - constructor; [done|]. by apply Forall_forall.
  - intros a b Hta [->|Hb]%elem_of_cons; [|by apply H3].
    by apply (partition_point_before (fun e => adj_lt e entry)) in Hta.
Qed.

Lemma adj_sorted_NoDup v : adj_sorted v -> NoDup v.
Proof.
  induction 1 as [|x l Hs IH Hx]; constructor; [|done]. intros Hin.
  rewrite Forall_forall in Hx. specialize (Hx x Hin). by rewrite adj_lt_irrefl in Hx.
Qed.

Lemma sort_adj_ok v : NoDup v -> adj_sorted (sort_adj v).
Proof.
  intros Hnd. unfold sort_adj.
  assert (NoDup (merge_sort (fun a b => adj_le a b = true) v)) as Hnd'
    by by rewrite merge_sort_Permutation.
  pose proof (StronglySorted_merge_sort (fun a b => adj_le a b = true) v) as Hs.
  induction Hs as [|x l Hs IH Hx]; [constructor|]. apply NoDup_cons in Hnd' as [Hn Hnd'].
  constructor; [by apply IH|]. rewrite Forall_forall in Hx |- *. intros y Hy.
  unfold adj_lt. rewrite (Hx y Hy), bool_decide_eq_false_2; [done|]. congruence.
Qed.

Lemma sort_adj_elem v e : e ∈ sort_adj v <-> e ∈ v.
Proof. unfold sort_adj. by rewrite merge_sort_Permutation. Qed.

(** The run of a kind is the filter by that kind. *)
Lemma kind_run_elem v k e : adj_sorted v -> e ∈ kind_run v k <-> e ∈ v /\ a_kind e = k.
Proof.
  intros Hs. unfold kind_run.
  set (s := partition_point (fun e => a_kind e <? k) v).
  set (t := partition_point (fun e => a_kind e <=? k) v).
  assert (forall x, x ∈ take s v -> a_kind x < k) as B1.
  { intros x Hx. apply N.ltb_lt. exact (partition_point_before _ _ _ Hx). }
  assert (forall x, x ∈ drop s v -> k <= a_kind x) as A1.
  { intros x Hx. apply N.ltb_ge. refine (partition_point_after _ _ _ _ Hs _ Hx).
    intros a b Hab. rewrite adj_lt_spec in Hab. rewrite !N.ltb_lt. lia. }
  assert (forall x, x ∈ take t v -> a_kind x <= k) as B2.
  { intros x Hx. apply N.leb_le. exact (partition_point_before _ _ _ Hx). }
  assert (forall x, x ∈ drop t v -> k < a_kind x) as A2.
  { intros x Hx. apply N.leb_gt. refine (partition_point_after _ _ _ _ Hs _ Hx).
    intros a b Hab. rewrite adj_lt_spec in Hab. rewrite !N.leb_le. lia. }
  assert (s <= t)%nat as Hst.
  { unfold s, t. clear. induction v as [|x v IH]; simpl; [lia|].
    destruct (N.ltb_spec (a_kind x) k), (N.leb_spec (a_kind x) k); simpl; lia. }
  assert (v = take s v ++ take (t - s) (drop s v) ++ drop t v) as Hv.
  { rewrite <- (take_drop s v) at 1. f_equal. rewrite <- (take_drop (t - s) (drop s v)) at 1.
    f_equal. rewrite drop_drop. f_equal. lia. }
  split.
  - intros He. assert (e ∈ v) as Hev by (rewrite Hv; set_solver). split; [done|].
    assert (k <= a_kind e).
    { apply A1. rewrite <- (take_drop (t - s) (drop s v)). apply elem_of_app. by left. }
    assert (a_kind e <= k); [|lia]. apply B2.
    replace t with (s + (t - s))%nat by lia. rewrite <- take_take_drop.
    apply elem_of_app. by right.
  - intros [He Hk]. rewrite Hv, !elem_of_app in He. destruct He as [He|[He|He]]; [|done|].
    + apply B1 in He. lia.
    + apply A2 in He. lia.
Qed.

(** ** Adjacency against the records *)

(** [adj] lists, per node [x], exactly the edges whose [src] end is [x], with
    their other end and their interned kind, in key order. *)
Definition adj_ok (src dst : Edge -> N) (es : gmap N Edge) (ks : gmap string N)
    (adj : gmap N (list AdjEntry)) : Prop := forall x,
  adj_sorted (default [] (adj !! x)) /\
  forall en, en ∈ default [] (adj !! x) <->
    exists e, es !! a_edge en = Some e /\ src e = x /\ dst e = a_neighbor en /\
      ks !! e_kind e = Some (a_kind en).

Record kinds_ok (es : gmap N Edge) (ks : gmap string N) : Prop := {
  kinds_small : forall k i, ks !! k = Some i -> i < N.of_nat (size ks);
  kinds_inj : forall k k' i, ks !! k = Some i -> ks !! k' = Some i -> k = k';
  kinds_edges : forall i e, es !! i = Some e -> is_Some (ks !! e_kind e);
}.

Record edges_wf (es : gmap N Edge) (oa ia : gmap N (list AdjEntry)) (ks : gmap string N) : Prop := {
  wf_edge_ids : forall i e, es !! i = Some e -> e_id e = i;
  wf_interned : kinds_ok es ks;
  wf_out : adj_ok e_from e_to es ks oa;
  wf_in : adj_ok e_to e_from es ks ia;
}.

Lemma adj_ok_empty src dst ks : adj_ok src dst ∅ ks ∅.
Proof.
  intros x. rewrite lookup_empty. simpl. split; [constructor|]. intros en.
  setoid_rewrite lookup_empty. split; [by intros ?%not_elem_of_nil|naive_solver].
Qed.

Lemma edges_wf_empty : edges_wf ∅ ∅ ∅ ∅.
Proof.
  split; [by intros ? ?; rewrite lookup_empty| |apply adj_ok_empty..].
  split; intros *; by rewrite ?lookup_empty.
Qed.

Lemma adj_ok_delete src dst es ks adj id e : adj_ok src dst es ks adj -> es !! id = Some e ->
  adj_ok src dst (delete id es) ks (alter (filter (fun en => a_edge en <> id)) (src e) adj).
Proof.
  intros Ha He x. destruct (Ha x) as [Hs Hin].
  assert (default [] (alter (filter (fun en => a_edge en <> id)) (src e) adj !! x) =
          filter (fun en => a_edge en <> id) (default [] (adj !! x)) \/
          (x <> src e /\ alter (filter (fun en => a_edge en <> id)) (src e) adj !! x = adj !! x)) as Hx.
  { destruct (decide (src e = x)) as [<-|Hne].
    - left. rewrite lookup_alter_eq. by destruct (adj !! src e).
    - right. split; [done|]. by rewrite lookup_alter_ne. }
  setoid_rewrite lookup_delete. destruct Hx as [->|[Hne ->]].
  - split; [by apply StronglySorted_filter|]. intros en. rewrite list_elem_of_filter, Hin. split.
    + intros [Hen (e' & He' & ?)]. exists e'. rewrite decide_False by done. done.
    + intros (e' & He' & ?). case_decide; [done|]. split; [done|]. eauto.
  - split; [done|]. intros en. rewrite Hin. split.
    + intros (e' & He' & Hx & ?). exists e'. rewrite decide_False; [done|].
      intros ->. congruence.
    + intros (e' & He' & ?). case_decide; [done|]. eauto.
Qed.

Lemma adj_ok_insert src dst es ks adj e k : adj_ok src dst es ks adj ->
  es !! e_id e = None -> ks !! e_kind e = Some k ->
  adj_ok src dst (<[e_id e := e]> es) ks (adj_insert (src e) (mkAdj (e_id e) (dst e) k) adj).
Proof.
  intros Ha He Hk x. destruct (Ha x) as [Hs Hin]. unfold adj_insert.
  rewrite lookup_insert. setoid_rewrite lookup_insert. case_decide as Hx.
  - subst x. simpl. split.
    + apply insert_adj_sorted_ok; [done|]. intros (e' & He' & _)%Hin. simpl in *. congruence.
    + intros en. rewrite insert_adj_elem, Hin. split.
      * intros [->|(e' & He' & ?)]; simpl.
        -- exists e. by rewrite decide_True.
        -- exists e'. rewrite decide_False; [done|]. congruence.
      * intros (e' & He' & Hsrc & Hdst & Hkind). case_decide as Hid.
        -- left. simplify_eq. destruct en; simpl in *. congruence.
        -- right. eauto.
  - split; [done|]. intros en. rewrite Hin. split.
    + intros (e' & He' & ?). exists e'. rewrite decide_False; [done|]. congruence.
    + intros (e' & He' & Hsrc & ?). case_decide; [|eauto]. simplify_eq.
Qed.

Lemma adj_ok_kinds src dst es ks ks' adj : adj_ok src dst es ks adj -> ks ⊆ ks' ->
  (forall i e, es !! i = Some e -> is_Some (ks !! e_kind e)) -> adj_ok src dst es ks' adj.
Proof.
  intros Ha Hsub Hk x. destruct (Ha x) as [Hs Hin]. split; [done|]. intros en. rewrite Hin.
  split; intros (e & He & Hx & Hd & Hkind); exists e; split_and!; try done.
  - by eapply lookup_weaken.
  - destruct (Hk _ _ He) as [i Hi]. pose proof (lookup_weaken _ _ _ _ Hi Hsub). congruence.
Qed.

(** An entry's edge id determines the entry. *)
Lemma adj_ok_edge_inj src dst es ks adj x a b : adj_ok src dst es ks adj ->
  a ∈ default [] (adj !! x) -> b ∈ default [] (adj !! x) -> a_edge a = a_edge b -> a = b.
Proof.
  intros Ha (e & He & _ & Hd & Hk)%Ha (e' & He' & _ & Hd' & Hk')%Ha Hab.
  destruct a, b; simpl in *. subst. simplify_eq. done.
Qed.

(** Replacing an edge by one with the same ends. *)
Lemma adj_ok_rekind src dst es ks adj e e' k : adj_ok src dst es ks adj ->
  es !! e_id e = Some e -> src e' = src e -> dst e' = dst e -> ks !! e_kind e' = Some k ->
  is_Some (ks !! e_kind e) ->
  adj_ok src dst (<[e_id e := e']> es) ks (alter (set_kind_in (e_id e) k) (src e) adj).
Proof.
  intros Ha He Hs' Hd' Hk Hke x. destruct (Ha x) as [Hs Hin].
  destruct (decide (src e = x)) as [<-|Hne].
  - destruct Hke as [k0 Hk0].
    assert (mkAdj (e_id e) (dst e) k0 ∈ default [] (adj !! src e)) as Hmem by (apply Hin; eauto).
    rewrite lookup_alter_eq. destruct (adj !! src e) as [l|] eqn:El; simpl in *;
      [|by apply not_elem_of_nil in Hmem].
    assert (forall a b, a ∈ l -> b ∈ l -> a_edge a = a_edge b -> a = b) as Hinj.
    { intros a b. pose proof (adj_ok_edge_inj src dst es ks adj (src e) a b Ha) as Hi.
      rewrite El in Hi. exact Hi. }
    unfold set_kind_in. split.
    + apply sort_adj_ok. apply NoDup_fmap_2_strong; [|by apply adj_sorted_NoDup].
      intros a b Ha' Hb'. intros Heq. apply Hinj; [done..|].
      repeat case_bool_decide; simplify_eq/=; congruence.
    + intros en. rewrite sort_adj_elem, list_elem_of_fmap. setoid_rewrite lookup_insert. split.
      * intros (a & -> & Hal). case_bool_decide as Hid; simpl.
        -- exists e'. rewrite Hid, decide_True by done. apply Hin in Hal as (e0 & He0 & _ & Hd0 & _).
           rewrite Hid in He0. simplify_eq. split_and!; congruence.
        -- apply Hin in Hal as (e0 & He0 & ?). exists e0. by rewrite decide_False.
      * intros (e0 & He0 & Hsrc & Hdst & Hkind). case_decide as Hid.
        -- simplify_eq. exists (mkAdj (e_id e) (dst e) k0). split; [|done].
           simpl. rewrite bool_decide_eq_true_2 by done. destruct en; simpl in *. congruence.
        -- exists en. rewrite bool_decide_eq_false_2 by congruence. split; [done|]. apply Hin. eauto.
  - rewrite lookup_alter_ne by done. split; [done|]. intros en. rewrite Hin.
    setoid_rewrite lookup_insert. split.
    + intros (e0 & He0 & ?). exists e0. rewrite decide_False; [done|].
      intros Hid. rewrite <- Hid in He0. naive_solver.
    + intros (e0 & He0 & Hsrc & ?). case_decide; [|eauto]. exfalso. congruence.
Qed.

Lemma adj_ok_same src dst es ks adj e e' : adj_ok src dst es ks adj ->
  es !! e_id e = Some e -> src e' = src e -> dst e' = dst e -> e_kind e' = e_kind e ->
  adj_ok src dst (<[e_id e := e']> es) ks adj.
Proof.
  intros Ha He Hs' Hd' Hk x. destruct (Ha x) as [Hs Hin]. split; [done|]. intros en. rewrite Hin.
  setoid_rewrite lookup_insert. split.
  - intros (e0 & He0 & H1 & H2 & H3). case_decide as Hid; [|eauto].
    exists e'. rewrite <- Hid in He0. simplify_eq. split_and!; congruence.
  - intros (e0 & He0 & H1 & H2 & H3). case_decide as Hid; [|eauto].
    exists e. simplify_eq. rewrite <- Hid. split_and!; congruence.
Qed.

(** *** The edge operations *)
Lemma intern_kind_ok es kind g g' k : kinds_ok es (kind_ids g) ->
  intern_kind kind g = (g', k) -> N.of_nat (size (kind_ids g')) <= 2 ^ 32 ->
  kinds_ok es (kind_ids g') /\ kind_ids g ⊆ kind_ids g' /\ kind_ids g' !! kind = Some k /\
  g' = with_kind_ids (kind_ids g') g.
Proof.
  intros [K1 K2 K3]. unfold intern_kind. destruct (kind_ids g !! kind) as [i|] eqn:E.
  - intros [= <- <-] _. split_and!; [done|done|done|by destruct g].
  - intros [= <- <-] Hsz. simpl in *. rewrite map_size_insert_None in Hsz by done.
    assert (N.of_nat (size (kind_ids g)) mod 2 ^ 32 = N.of_nat (size (kind_ids g))) as Hm
      by (apply N.mod_small; lia). rewrite Hm.
    split_and!; [|by apply insert_subseteq|by rewrite lookup_insert_eq|done]. split.
    + intros k i. rewrite lookup_insert, map_size_insert_None by done. case_decide.
      * intros [= <-]. lia.
      * intros Hk%K1. lia.
    + intros k k' i. rewrite !lookup_insert. repeat case_decide; try congruence.
      * intros [= <-] Hk'%K1. lia.
      * intros Hk%K1 [= <-]. lia.
      * apply K2.
    + intros i e He. rewrite lookup_insert. case_decide; [eauto|]. by apply (K3 i).
Qed.

Lemma kinds_ok_delete es ks id : kinds_ok es ks -> kinds_ok (delete id es) ks.
Proof.
  intros [K1 K2 K3]. split; [done|done|]. intros i e. rewrite lookup_delete. case_decide; [done|].
  apply K3.
Qed.

Lemma kinds_ok_insert es ks id e : kinds_ok es ks -> is_Some (ks !! e_kind e) ->
  kinds_ok (<[id := e]> es) ks.
Proof.
  intros [K1 K2 K3] Hk. split; [done|done|]. intros i e'. rewrite lookup_insert.
  case_decide; [by intros [= <-]|]. apply K3.
Qed.

Definition g_edges_wf (g : Inner) : Prop := edges_wf (edges g) (out_adj g) (in_adj g) (kind_ids g).

Lemma remove_edge_wf id g : g_edges_wf g -> g_edges_wf (remove_edge id g).
Proof.
  intros [E1 E2 E3 E4]. unfold remove_edge. destruct (edges g !! id) as [e|] eqn:He; [|done].
  split; simpl.
  - intros i e'. rewrite lookup_delete. case_decide; [done|]. apply E1.
  - by apply kinds_ok_delete.
  - by apply adj_ok_delete.
  - by apply adj_ok_delete.
Qed.

(** Linking and storing a record whose id is free. *)
Definition store_edge (e : Edge) (g : Inner) : Inner :=
  let g := link_edge e g in with_edges (<[e_id e := e]> (edges g)) g.

Lemma store_edge_wf e g : g_edges_wf g -> edges g !! e_id e = None ->
  N.of_nat (size (kind_ids (store_edge e g))) <= 2 ^ 32 -> g_edges_wf (store_edge e g).
Proof.
  intros [E1 E2 E3 E4] Hid. unfold store_edge, link_edge.
  destruct (intern_kind (e_kind e) g) as [g' k] eqn:Ei. simpl. intros Hsz.
  destruct (intern_kind_ok _ _ _ _ _ E2 Ei Hsz) as (K & Hsub & Hk & Hg').
  assert (edges g' = edges g /\ out_adj g' = out_adj g /\ in_adj g' = in_adj g) as (Ee & Eo & En)
    by (rewrite Hg'; done).
  unfold g_edges_wf. simpl. rewrite Ee, Eo, En. split.
  - intros i e'. rewrite lookup_insert. case_decide; [by intros [= <-]|]. apply E1.
  - apply kinds_ok_insert; [done|eauto].
  - apply (adj_ok_insert e_from e_to); [|done|done]. eapply adj_ok_kinds; [done|done|]. apply E2.
  - apply (adj_ok_insert e_to e_from); [|done|done]. eapply adj_ok_kinds; [done|done|]. apply E2.
Qed.

(** ** The node side *)
Section nodes.
Context `{JsonText}.

(** The key of a node under a unique tuple. *)
Definition ukey (lp : string * list string) (n : Node) : option string :=
  if has_label n lp.1 then tuple_key n lp.2 else None.

Record nodes_wf (ns : gmap N Node) (ts ks : Index) (u : UniqueIndex) (cs : list Constraint) : Prop := {
  wf_node_ids : forall i n, ns !! i = Some n -> n_id n = i;
  wf_titles : index_ok (fun n => Some (n_title n)) ns ts;
  wf_kinds : index_ok (fun n => Some (n_kind n)) ns ks;
  wf_unique : forall lp ix, u !! lp = Some ix -> index_ok (ukey lp) ns ix;
  wf_unique_dom : forall lp, is_Some (u !! lp) <-> lp ∈ needed_tuples cs;
}.

Definition g_nodes_wf (g : Inner) : Prop :=
  nodes_wf (nodes g) (titles g) (kind_index g) (unique g) (constraints g).

Lemma unique_add_lookup n u lp :
  unique_add n u !! lp = bucket_insert_opt (n_id n) (ukey lp n) <$> u !! lp.
Proof.
  unfold unique_add. rewrite map_lookup_imap. destruct (u !! lp) as [ix|]; [|done]. simpl.
  unfold ukey. destruct (has_label n lp.1); [|done]. by destruct (tuple_key n lp.2).
Qed.

Lemma unique_del_lookup n u lp :
  unique_del n u !! lp = bucket_remove_opt (n_id n) (ukey lp n) <$> u !! lp.
Proof.
  unfold unique_del. rewrite map_lookup_imap. destruct (u !! lp) as [ix|]; [|done]. simpl.
  unfold ukey. destruct (has_label n lp.1); [|done]. by destruct (tuple_key n lp.2).
Qed.

Lemma nodes_wf_empty : nodes_wf ∅ ∅ ∅ ∅ [].
Proof.
  split; try (intros *; rewrite ?lookup_empty; done); try apply index_ok_empty.
  intros lp. rewrite lookup_empty. simpl. split; [by intros [? ?]|by intros ?%not_elem_of_nil].
Qed.

Lemma nodes_wf_put ns ts ks u u' cs n : nodes_wf ns ts ks u cs -> ns !! n_id n = None ->
  (forall lp, u' !! lp = bucket_insert_opt (n_id n) (ukey lp n) <$> u !! lp) ->
  nodes_wf (<[n_id n := n]> ns) (bucket_insert (n_id n) (n_title n) ts)
    (bucket_insert (n_id n) (n_kind n) ks) u' cs.
Proof.
  intros [W1 W2 W3 W4 W5] Hn Hu. split.
  - intros i m. rewrite lookup_insert. case_decide; [by intros [= <-]|]. apply W1.
  - by apply (index_ok_insert (fun n => Some (n_title n))).
  - by apply (index_ok_insert (fun n => Some (n_kind n))).
  - intros lp ix. rewrite Hu. intros (ix0 & Hix & ->)%fmap_Some.
    apply index_ok_insert; [by apply W4|done].
  - intros lp. rewrite Hu, fmap_is_Some. apply W5.
Qed.

Lemma nodes_wf_drop ns ts ks u u' cs n : nodes_wf ns ts ks u cs -> ns !! n_id n = Some n ->
  (forall lp, u' !! lp = bucket_remove_opt (n_id n) (ukey lp n) <$> u !! lp) ->
  nodes_wf (delete (n_id n) ns) (bucket_remove (n_id n) (n_title n) ts)
    (bucket_remove (n_id n) (n_kind n) ks) u' cs.
Proof.
  intros [W1 W2 W3 W4 W5] Hn Hu. split.
  - intros i m. rewrite lookup_delete. case_decide; [done|]. apply W1.
  - by apply (index_ok_delete (fun n => Some (n_title n))).
  - by apply (index_ok_delete (fun n => Some (n_kind n))).
  - intros lp ix. rewrite Hu. intros (ix0 & Hix & ->)%fmap_Some.
    apply index_ok_delete; [by apply W4|done].
  - intros lp. rewrite Hu, fmap_is_Some. apply W5.
Qed.

(** Replacing a record; an index whose key did not change may be left alone. *)
Definition reindexed (id : N) (k k' : string) (ix ix' : Index) : Prop :=
  ix' = bucket_insert id k' (bucket_remove id k ix) \/ (k = k' /\ ix' = ix).

Lemma nodes_wf_replace ns ts ks u ts' ks' u' cs n n' : nodes_wf ns ts ks u cs ->
  ns !! n_id n = Some n -> n_id n' = n_id n ->
  reindexed (n_id n) (n_title n) (n_title n') ts ts' ->
  reindexed (n_id n) (n_kind n) (n_kind n') ks ks' ->
  (forall lp, u' !! lp =
     bucket_insert_opt (n_id n) (ukey lp n') ∘ bucket_remove_opt (n_id n) (ukey lp n) <$> u !! lp) ->
  nodes_wf (<[n_id n := n']> ns) ts' ks' u' cs.
Proof.
  intros [W1 W2 W3 W4 W5] Hn Hid Ht Hk Hu. split.
  - intros i m. rewrite lookup_insert. case_decide; [intros [= <-]; congruence|]. apply W1.
  - destruct Ht as [->|[E ->]].
    + by apply (index_ok_replace (fun n => Some (n_title n)) ns ts _ n n').
    + eapply index_ok_same_key; [done|done|]. by rewrite E.
  - destruct Hk as [->|[E ->]].
    + by apply (index_ok_replace (fun n => Some (n_kind n)) ns ks _ n n').
    + eapply index_ok_same_key; [done|done|]. by rewrite E.
  - intros lp ix. rewrite Hu. intros (ix0 & Hix & ->)%fmap_Some.
    by apply index_ok_replace; [apply W4|].
  - intros lp. rewrite Hu, fmap_is_Some. apply W5.
Qed.

(** *** Dropping a node *)
Lemma remove_edge_nodes id g : nodes (remove_edge id g) = nodes g /\
  titles (remove_edge id g) = titles g /\ kind_index (remove_edge id g) = kind_index g /\
  unique (remove_edge id g) = unique g /\ constraints (remove_edge id g) = constraints g /\
  kind_ids (remove_edge id g) = kind_ids g /\ embeddings (remove_edge id g) = embeddings g /\
  edges (remove_edge id g) = delete id (edges g).
Proof.
  unfold remove_edge. destruct (edges g !! id) as [e|] eqn:E; simpl; [done|].
  split_and!; try done. symmetry. by apply delete_id.
Qed.

Lemma remove_edges_nodes l g : nodes (remove_edges l g) = nodes g /\
  titles (remove_edges l g) = titles g /\ kind_index (remove_edges l g) = kind_index g /\
  unique (remove_edges l g) = unique g /\ constraints (remove_edges l g) = constraints g /\
  kind_ids (remove_edges l g) = kind_ids g /\ embeddings (remove_edges l g) = embeddings g.
Proof.
  revert g. induction l as [|id l IH]; intros g; [done|]. simpl.
  destruct (IH (remove_edge id g)) as (-> & -> & -> & -> & -> & -> & ->).
  pose proof (remove_edge_nodes id g). tauto.
Qed.

Lemma remove_edges_edges l g i :
  edges (remove_edges l g) !! i = if decide (i ∈ l) then None else edges g !! i.
Proof.
  revert g. induction l as [|id l IH]; intros g.
  { case_decide as Hd; [by apply not_elem_of_nil in Hd|done]. }
  change (remove_edges (id :: l) g) with (remove_edges l (remove_edge id g)).
  rewrite IH. destruct (remove_edge_nodes id g) as (_ & _ & _ & _ & _ & _ & _ & ->).
  rewrite lookup_delete.
  destruct (decide (i ∈ l)), (decide (i ∈ id :: l)), (decide (id = i)); set_solver.
Qed.

Lemma remove_edges_wf l g : g_edges_wf g -> g_edges_wf (remove_edges l g).
Proof. revert g. induction l as [|id l IH]; intros g W; [done|]. by apply IH, remove_edge_wf. Qed.

Lemma incident_both g x i : g_edges_wf g ->
  i ∈ a_edge <$> incident_entries g x Both <->
  exists e, edges g !! i = Some e /\ (e_from e = x \/ e_to e = x).
Proof.
  intros [E1 E2 E3 E4]. simpl. rewrite list_elem_of_fmap. setoid_rewrite elem_of_app.
  setoid_rewrite list_elem_of_filter. split.
  - intros (en & -> & [Hin|[_ Hin]]).
    + apply E3 in Hin as (e & He & Hf & _). eauto.
    + apply E4 in Hin as (e & He & Hf & _). eauto.
  - intros (e & He & Hx).
    destruct (kinds_edges _ _ E2 _ _ He) as [k Hk].
    destruct (decide (e_from e = x)) as [Hf|Hf].
    + exists (mkAdj i (e_to e) k). split; [done|]. left. apply E3. eauto.
    + destruct Hx as [?|Ht]; [done|]. exists (mkAdj i (e_from e) k). split; [done|]. right.
      split; [done|]. apply E4. eauto.
Qed.

Lemma drop_node_wf id n g : g_nodes_wf g -> g_edges_wf g -> nodes g !! id = Some n ->
  g_nodes_wf (drop_node id n g) /\ g_edges_wf (drop_node id n g).
Proof.
  intros W E Hn. unfold drop_node.
  pose proof (remove_edges_wf (a_edge <$> incident_entries g id Both) g E) as E1.
  pose proof (remove_edges_nodes (a_edge <$> incident_entries g id Both) g) as Hsame.
  remember (remove_edges (a_edge <$> incident_entries g id Both) g) as g1 eqn:Eg1. clear Eg1.
  destruct Hsame as (H1 & H2 & H3 & H4 & H5 & _).
  assert (n_id n = id) as Hid by by apply (wf_node_ids _ _ _ _ _ W).
  split; [|done]. unfold g_nodes_wf. cbn -[bucket_remove unique_del].
  rewrite H1, H2, H3, H4, H5. subst id.
  apply nodes_wf_drop with (u := unique g); [done|done|]. apply unique_del_lookup.
Qed.

Lemma drop_node_records id n g i : g_edges_wf g ->
  nodes (drop_node id n g) !! i = (if decide (id = i) then None else nodes g !! i) /\
  edges (drop_node id n g) !! i =
    (e ← edges g !! i; if decide (e_from e = id \/ e_to e = id) then None else Some e) /\
  embeddings (drop_node id n g) = delete id (embeddings g).
Proof.
  intros E. unfold drop_node. pose proof (incident_both g id i E) as Hi.
  pose proof (remove_edges_nodes (a_edge <$> incident_entries g id Both) g) as Hsame.
  pose proof (remove_edges_edges (a_edge <$> incident_entries g id Both) g i) as He.
  remember (remove_edges (a_edge <$> incident_entries g id Both) g) as g1 eqn:Eg1. clear Eg1.
  cbn -[unique_del]. destruct Hsame as (-> & _ & _ & _ & _ & _ & ->).
  split_and!; [apply lookup_delete| |done]. rewrite He.
  destruct (edges g !! i) as [e|]; cbn [mbind option_bind]; [|by case_decide].
  repeat case_decide; try done; exfalso; naive_solver.
Qed.
End nodes.

(** ** The whole graph *)
Section graph.
Context `{JsonText}.

Definition graph_wf (g : Inner) : Prop := g_nodes_wf g /\ g_edges_wf g.

(** No edge dangles. *)
Definition linked (g : Inner) : Prop := forall i e, edges g !! i = Some e ->
  is_Some (nodes g !! e_from e) /\ is_Some (nodes g !! e_to e).

(** The counters are past every id in use. *)
Definition counted (ids : IdCounters) (g : Inner) : Prop :=
  (forall i, is_Some (nodes g !! i) -> i <= last_node ids) /\
  (forall i, is_Some (edges g !! i) -> i <= last_edge ids).

(** Every kind has its own interned id: there is room for the kinds in use. *)
Definition kinds_fit (g : Inner) : Prop := N.of_nat (size (kind_ids g)) <= 2 ^ 32.

Definition live (st : GState) : Prop := graph_wf st.2 /\ linked st.2 /\ counted st.1 st.2.

Lemma default_live : live (ids_default, inner_default).
Proof.
  split; [split; [apply nodes_wf_empty|apply edges_wf_empty]|split].
  - intros i e. simpl. by rewrite lookup_empty.
  - split; intros i [x Hx]; simpl in Hx; by rewrite lookup_empty in Hx.
Qed.

Lemma upsert_node_wf n st : graph_wf st.2 -> graph_wf (upsert_node n st).2.
Proof.
  destruct st as [ids g]. intros [W E]. unfold upsert_node. simpl in W, E.
  destruct (nodes g !! n_id n) as [old|] eqn:Hold; split.
  - unfold g_nodes_wf. cbn -[bucket_remove bucket_insert unique_del unique_add].
    assert (n_id old = n_id n) as Hid by by apply (wf_node_ids _ _ _ _ _ W).
    rewrite <- Hid in *.
    apply (nodes_wf_replace _ _ _ (unique g) _ _ _ _ old n W Hold); [congruence|by left|by left|].
    intros lp. rewrite unique_add_lookup, unique_del_lookup, Hid.
    by destruct (unique g !! lp).
  - exact E.
  - unfold g_nodes_wf. cbn -[bucket_remove bucket_insert unique_del unique_add].
    apply (nodes_wf_put _ _ _ (unique g)); [done|done|]. apply unique_add_lookup.
  - exact E.
Qed.

Lemma upsert_node_records n st i :
  nodes (upsert_node n st).2 !! i = (if decide (n_id n = i) then Some n else nodes st.2 !! i) /\
  edges (upsert_node n st).2 = edges st.2 /\ kind_ids (upsert_node n st).2 = kind_ids st.2.
Proof.
  destruct st as [ids g]. unfold upsert_node.
  destruct (nodes g !! n_id n) as [old|]; cbn -[bucket_remove bucket_insert unique_del unique_add];
    by rewrite lookup_insert.
Qed.

Lemma upsert_edge_store e st : (upsert_edge e st).2 = store_edge e (remove_edge (e_id e) st.2).
Proof. by destruct st. Qed.

Lemma upsert_edge_wf e st : graph_wf st.2 -> kinds_fit (upsert_edge e st).2 ->
  graph_wf (upsert_edge e st).2.
Proof.
  intros [W E] Hk. rewrite upsert_edge_store in *. split.
  - unfold g_nodes_wf, store_edge, link_edge, intern_kind.
    pose proof (remove_edge_nodes (e_id e) st.2) as (H1 & H2 & H3 & H4 & H5 & _).
    destruct (kind_ids _ !! _); cbn -[remove_edge]; by rewrite H1, H2, H3, H4, H5.
  - apply store_edge_wf; [by apply remove_edge_wf| |done].
    pose proof (remove_edge_nodes (e_id e) st.2) as (_ & _ & _ & _ & _ & _ & _ & ->).
    apply lookup_delete_eq.
Qed.

Lemma store_edge_records e g i : edges (store_edge e g) !! i =
    (if decide (e_id e = i) then Some e else edges g !! i) /\ nodes (store_edge e g) = nodes g /\
  titles (store_edge e g) = titles g /\ kind_index (store_edge e g) = kind_index g /\
  unique (store_edge e g) = unique g /\ constraints (store_edge e g) = constraints g.
Proof.
  unfold store_edge, link_edge, intern_kind.
  destruct (kind_ids g !! e_kind e); cbn; by rewrite lookup_insert.
Qed.
End graph.
