(* ===== verification/NativeOps.v ===== *)
(** * What the graph operations guarantee

    The live operations and the replay of the write-ahead log preserve the graph
    invariant; failed operations change nothing; deletion cascades; reads answer
    from the records; replaying the log form of a graph rebuilds it. *)
From S2P Require Import Prelude NativeModel Native NativeInv.
Local Open Scope string_scope.
Local Open Scope list_scope.
Local Open Scope N_scope.

Section replay.
Context `{JsonText}.

(** ** Termination of the replay *)
Lemma prepared_weight_delete g gid e : prepared g !! gid = Some e ->
  prepared_weight g =
    (S (ops_weight (prepared_ops e) + prepared_weight (with_prepared (delete gid (prepared g)) (heuristic g) g)))%nat.
Proof.
  intros He. unfold prepared_weight. simpl.
  rewrite (map_fold_delete_L (fun _ e n => S (ops_weight (prepared_ops e) + n))%nat 0%nat gid e);
    [done| |done]. intros. lia.
Qed.

Lemma prepared_weight_delete_le g gid h :
  (prepared_weight (with_prepared (delete gid (prepared g)) h g) <= prepared_weight g)%nat.
Proof.
  destruct (prepared g !! gid) as [e|] eqn:E.
  - rewrite (prepared_weight_delete g gid e E). unfold prepared_weight. simpl. lia.
  - unfold prepared_weight. simpl. by rewrite delete_id.
Qed.

Lemma prepared_weight_insert g gid e h :
  (prepared_weight (with_prepared (<[gid := e]> (prepared g)) h g) <=
   S (ops_weight (prepared_ops e) + prepared_weight g))%nat.
Proof.
  rewrite (prepared_weight_delete _ gid e); [|simpl; apply lookup_insert_eq].
  unfold prepared_weight at 1. simpl. rewrite delete_insert_eq.
  pose proof (prepared_weight_delete_le g gid h). unfold prepared_weight in *. simpl in *. lia.
Qed.

(** A property of one step lifts to the fold over a prepared write set. *)
Lemma fold_ops_ind (f : WalOp -> GState -> option GState) (P : GState -> Prop) ops st st' :
  foldl (fun acc op => s ← acc; f op s) (Some st) ops = Some st' ->
  P st -> (forall op s s', op ∈ ops -> P s -> f op s = Some s' -> P s') -> P st'.
Proof.
  revert st. induction ops as [|op ops IH]; intros st Hf HP Hstep; simpl in *; [naive_solver|].
  destruct (f op st) as [s|] eqn:E.
  - eapply (IH s); [done|by eapply (Hstep op st); [left| |]|].
    intros op' s0 s' Hin. apply Hstep. by right.
  - clear -Hf. exfalso. induction ops; simpl in *; [done|auto].
Qed.

Lemma apply_fuel_total fuel op st : (prepared_weight st.2 + op_weight op < fuel)%nat ->
  exists st', apply_wal_op_fuel fuel op st = Some st' /\
    (prepared_weight st'.2 <= prepared_weight st.2 + op_weight op)%nat.
Proof.
  revert op st. induction fuel as [|fuel IH]; intros op [ids g] Hf; [lia|]. simpl in Hf.
  destruct op as [n|id|e|id|id v|id|gid at_ ops|gid|gid h]; cbn [apply_wal_op_fuel].
  - eexists. split; [done|]. unfold upsert_node. simpl. destruct (nodes g !! n_id n); simpl;
      unfold prepared_weight; simpl; lia.
  - destruct (nodes g !! id) as [n|]; eexists; (split; [done|]); simpl; [|lia].
    unfold drop_node. unfold prepared_weight. simpl.
    assert (forall l g, prepared (remove_edges l g) = prepared g) as ->; [|lia].
    clear. intros l. induction l as [|i l IH]; intros g; [done|]. simpl. rewrite IH.
    unfold remove_edge. by destruct (edges g !! i).
  - eexists. split; [done|]. unfold upsert_edge, link_edge, intern_kind, remove_edge. simpl.
    destruct (edges g !! e_id e); simpl; destruct (kind_ids g !! e_kind e); simpl;
      unfold prepared_weight; simpl; lia.
  - eexists. split; [done|]. simpl. unfold remove_edge. destruct (edges g !! id); simpl;
      unfold prepared_weight; simpl; lia.
  - eexists. split; [done|]. unfold prepared_weight. simpl. lia.
  - eexists. split; [done|]. unfold prepared_weight. simpl. lia.
  - eexists. split; [done|]. simpl.
    pose proof (prepared_weight_insert g gid (mkPrepared at_ ops) (heuristic g ∖ {[ gid ]})).
    simpl in *. unfold ops_weight in *. lia.
  - destruct (prepared g !! gid) as [e|] eqn:E; [|eexists; split; [done|simpl; lia]].
    pose proof (prepared_weight_delete g gid e E) as Hw.
    set (g0 := with_prepared _ _ g) in *. simpl.
    assert (forall l s, (prepared_weight s.2 + ops_weight l < fuel)%nat ->
      exists s', foldl (fun acc op => st ← acc; apply_wal_op_fuel fuel op st) (Some s) l = Some s' /\
        (prepared_weight s'.2 <= prepared_weight s.2 + ops_weight l)%nat) as Hfold.
    { induction l as [|o l IHl]; intros s Hs; simpl in *; [eexists; split; [done|lia]|].
      destruct (IH o s) as (s1 & E1 & W1); [lia|]. rewrite E1.
      destruct (IHl s1) as (s2 & E2 & W2); [lia|]. exists s2. split; [done|]. lia. }
    destruct (Hfold (prepared_ops e) (ids, g0)) as (s' & Es & Ws); [simpl; lia|].
    exists s'. split; [done|]. simpl in Ws. lia.
  - eexists. split; [done|]. simpl.
    pose proof (prepared_weight_delete_le g gid (if h then {[gid]} ∪ heuristic g else heuristic g)). lia.
Qed.

Lemma apply_fuel_mono fuel fuel' op st st' : apply_wal_op_fuel fuel op st = Some st' ->
  (fuel <= fuel')%nat -> apply_wal_op_fuel fuel' op st = Some st'.
Proof.
  revert fuel' op st st'. induction fuel as [|fuel IH]; intros fuel' op [ids g] st' Ha Hle; [done|].
  destruct fuel' as [|fuel']; [lia|].
  destruct op; cbn [apply_wal_op_fuel] in *; try exact Ha.
  destruct (prepared g !! gid) as [e|]; [|done].
  revert Ha. generalize (ids, with_prepared (delete gid (prepared g)) (heuristic g) g) as s.
  induction (prepared_ops e) as [|o l IHl]; intros s Ha; simpl in *; [done|].
  destruct (apply_wal_op_fuel fuel o s) as [s1|] eqn:E1.
  - rewrite (IH fuel' o s s1 E1) by lia. by apply IHl.
  - exfalso. clear -Ha. induction l; simpl in *; [done|auto].
Qed.

Lemma apply_wal_op_eq op st st' fuel : apply_wal_op_fuel fuel op st = Some st' ->
  apply_wal_op op st = st'.
Proof.
  intros Ha. unfold apply_wal_op.
  destruct (apply_fuel_total (S (prepared_weight st.2 + op_weight op)) op st) as (s & Es & _); [lia|].
  rewrite Es. simpl.
  pose proof (apply_fuel_mono _ (max fuel (S (prepared_weight st.2 + op_weight op))) _ _ _ Ha ltac:(lia)).
  pose proof (apply_fuel_mono _ (max fuel (S (prepared_weight st.2 + op_weight op))) _ _ _ Es ltac:(lia)).
  congruence.
Qed.

(** The defining equations of [apply_wal_op], free of fuel. *)
Lemma apply_upsert_node n st : apply_wal_op (UpsertNode n) st = upsert_node n st.
Proof. apply (apply_wal_op_eq _ _ _ 1). by destruct st. Qed.
Lemma apply_upsert_edge e st : apply_wal_op (UpsertEdge e) st = upsert_edge e st.
Proof. apply (apply_wal_op_eq _ _ _ 1). by destruct st. Qed.
Lemma apply_set_embedding id v st :
  apply_wal_op (SetEmbedding id v) st = (st.1, with_embeddings (<[id := v]> (embeddings st.2)) st.2).
Proof. apply (apply_wal_op_eq _ _ _ 1). by destruct st. Qed.
Lemma apply_prepare gid at_ ops st : apply_wal_op (Prepare gid at_ ops) st =
  (st.1, with_prepared (<[gid := mkPrepared at_ ops]> (prepared st.2)) (heuristic st.2 ∖ {[ gid ]}) st.2).
Proof. apply (apply_wal_op_eq _ _ _ 1). by destruct st. Qed.
Lemma apply_rollback gid h st : apply_wal_op (RollbackPrepared gid h) st =
  (st.1, with_prepared (delete gid (prepared st.2))
           (if h then {[ gid ]} ∪ heuristic st.2 else heuristic st.2) st.2).
Proof. apply (apply_wal_op_eq _ _ _ 1). by destruct st. Qed.

Lemma fold_apply fuel ops st st' :
  foldl (fun acc op => s ← acc; apply_wal_op_fuel fuel op s) (Some st) ops = Some st' ->
  apply_wal_ops ops st = st'.
Proof.
  revert st. induction ops as [|o l IH]; intros st Hf; simpl in *; [naive_solver|].
  destruct (apply_wal_op_fuel fuel o st) as [s|] eqn:E.
  - rewrite (apply_wal_op_eq _ _ _ _ E). by apply IH.
  - exfalso. clear -Hf. induction l; simpl in *; [done|auto].
Qed.

Lemma apply_commit gid st : apply_wal_op (CommitPrepared gid) st =
  match prepared st.2 !! gid with
  | Some e => apply_wal_ops (prepared_ops e)
                (st.1, with_prepared (delete gid (prepared st.2)) (heuristic st.2) st.2)
  | None => st
  end.
Proof.
  destruct st as [ids g]. simpl.
  destruct (apply_fuel_total (S (prepared_weight g)) (CommitPrepared gid) (ids, g)) as (s & Es & _);
    [simpl; lia|].
  rewrite (apply_wal_op_eq _ _ _ _ Es). cbn [apply_wal_op_fuel] in Es.
  destruct (prepared g !! gid) as [e|]; [|by simplify_eq].
  symmetry. by eapply fold_apply.
Qed.

(** ** Replay preserves the invariant *)
Lemma intern_kind_grows k g : (size (kind_ids g) <= size (kind_ids (intern_kind k g).1))%nat.
Proof.
  unfold intern_kind. destruct (kind_ids g !! k) eqn:E; simpl; [done|].
  rewrite map_size_insert_None by done. lia.
Qed.

Lemma store_edge_grows e g : (size (kind_ids g) <= size (kind_ids (store_edge e g)))%nat.
Proof.
  unfold store_edge, link_edge. pose proof (intern_kind_grows (e_kind e) g).
  destruct (intern_kind (e_kind e) g). done.
Qed.

Lemma drop_node_kinds id n g : kind_ids (drop_node id n g) = kind_ids g.
Proof.
  unfold drop_node. pose proof (remove_edges_nodes (a_edge <$> incident_entries g id Both) g) as Hs.
  remember (remove_edges _ g) as g1 eqn:Eg. clear Eg. cbn -[unique_del]. tauto.
Qed.

(** A well-formed graph whose counters are past its ids. *)
Definition good (st : GState) : Prop := graph_wf st.2 /\ counted st.1 st.2.

(** The interned kinds only grow, and while they fit the state stays good. *)
Definition grows (st st' : GState) : Prop :=
  (size (kind_ids st.2) <= size (kind_ids st'.2))%nat /\
  (kinds_fit st'.2 -> good st -> good st').

Lemma grows_trans a b c : grows a b -> grows b c -> grows a c.
Proof.
  intros [A1 A2] [B1 B2]. split; [lia|]. intros Hf Ha. apply B2; [done|]. apply A2; [|done].
  unfold kinds_fit in *. lia.
Qed.

Lemma grows_refl a : grows a a.
Proof. split; auto. Qed.

(** Steps that touch neither records, indexes nor interned kinds. *)
Lemma grows_frame ids g g' : nodes g' = nodes g -> edges g' = edges g -> out_adj g' = out_adj g ->
  in_adj g' = in_adj g -> titles g' = titles g -> kind_index g' = kind_index g ->
  kind_ids g' = kind_ids g -> constraints g' = constraints g -> unique g' = unique g ->
  grows (ids, g) (ids, g').
Proof.
  intros E1 E2 E3 E4 E5 E6 E7 E8 E9.
  unfold grows, good, graph_wf, g_nodes_wf, g_edges_wf, counted. simpl.
  by rewrite E1, E2, E3, E4, E5, E6, E7, E8, E9.
Qed.

Lemma upsert_node_grows n st : grows st (upsert_node n st).
Proof.
  pose proof (fun i => upsert_node_records n st i) as Hr. split.
  - destruct (Hr 0) as (_ & _ & ->). done.
  - intros _ [W [C1 C2]]. split; [by apply upsert_node_wf|].
    assert ((upsert_node n st).1 = Ids.observe_node (n_id n) st.1) as -> by by destruct st.
    split; intros i Hm; destruct (Hr i) as (Hi & He & _); simpl.
    + rewrite Hi in Hm. case_decide as Hd; [subst; lia|]. apply C1 in Hm. lia.
    + rewrite He in Hm. by apply C2.
Qed.

Lemma upsert_edge_grows e st : grows st (upsert_edge e st).
Proof.
  pose proof (fun i => store_edge_records e (remove_edge (e_id e) st.2) i) as Hr.
  pose proof (remove_edge_nodes (e_id e) st.2) as (Hn & _ & _ & _ & _ & Hk & _ & Hes).
  split.
  - rewrite upsert_edge_store. rewrite <- Hk. apply store_edge_grows.
  - intros Hf [W [C1 C2]]. split; [by apply upsert_edge_wf|].
    assert ((upsert_edge e st).1 = Ids.observe_edge (e_id e) st.1) as -> by by destruct st.
    rewrite upsert_edge_store. split; intros i Hm; destruct (Hr i) as (He & Hi & _); simpl.
    + rewrite Hi, Hn in Hm. by apply C1.
    + rewrite He, Hes, lookup_delete in Hm. case_decide as Hd; [subst; lia|].
      apply C2 in Hm. lia.
Qed.

Lemma remove_edge_grows id ids g : grows (ids, g) (ids, remove_edge id g).
Proof.
  pose proof (remove_edge_nodes id g) as (Hn & H2 & H3 & H4 & H5 & Hk & _ & Hes).
  split; simpl; [by rewrite Hk|]. intros _ [[W E] [C1 C2]]. split; [split|split].
  - unfold g_nodes_wf. simpl. by rewrite Hn, H2, H3, H4, H5.
  - by apply remove_edge_wf.
  - simpl. rewrite Hn. apply C1.
  - simpl. intros i [m Hm]. rewrite Hes, lookup_delete in Hm. case_decide; [done|]. apply C2. eauto.
Qed.

Lemma drop_node_grows id n ids g : nodes g !! id = Some n -> grows (ids, g) (ids, drop_node id n g).
Proof.
  intros Hn. split; cbn [fst snd]; [by rewrite drop_node_kinds|]. intros _ [[W E] [C1 C2]].
  cbn [fst snd] in *.
  split; [by apply drop_node_wf|].
  split; cbn [fst snd]; intros i [m Hm]; destruct (drop_node_records id n g i E) as (H1 & H2 & _).
  - rewrite H1 in Hm. case_decide; [done|]. apply C1. eauto.
  - rewrite H2 in Hm. apply C2. simpl. destruct (edges g !! i); [eauto|done].
Qed.

Lemma apply_fuel_grows fuel op st st' : apply_wal_op_fuel fuel op st = Some st' -> grows st st'.
Proof.
  revert op st st'. induction fuel as [|fuel IH]; intros op [ids g] st' Ha; [done|].
  destruct op as [n|id|e|id|id v|id|gid at_ ops|gid|gid h]; cbn [apply_wal_op_fuel] in Ha;
    try (injection Ha as <-; by apply grows_frame).
  - injection Ha as <-. exact (upsert_node_grows n (ids, g)).
  - destruct (nodes g !! id) as [n|] eqn:E; injection Ha as <-;
      [by apply drop_node_grows|apply grows_refl].
  - injection Ha as <-. exact (upsert_edge_grows e (ids, g)).
  - injection Ha as <-. exact (remove_edge_grows id ids g).
  - destruct (prepared g !! gid) as [e|]; [|injection Ha as <-; apply grows_refl].
    eapply (fold_ops_ind _ (grows (ids, g)) _ _ _ Ha); [by apply grows_frame|].
    intros op s s' _ Hs Hop. eapply grows_trans; [exact Hs|]. by eapply IH.
Qed.

Lemma apply_wal_op_grows op st : grows st (apply_wal_op op st).
Proof.
  unfold apply_wal_op.
  destruct (apply_fuel_total (S (prepared_weight st.2 + op_weight op)) op st) as (s & Es & _); [lia|].
  rewrite Es. by eapply apply_fuel_grows.
Qed.

Lemma apply_wal_ops_grows ops st : grows st (apply_wal_ops ops st).
Proof.
  revert st. induction ops as [|op ops IH]; intros st; [apply grows_refl|].
  eapply grows_trans; [apply apply_wal_op_grows|apply IH].
Qed.
End replay.

(** ** The live operations *)
Inductive GraphOp : Type :=
| DoCreateNode (n : NewNode)
| DoUpdateNode (id : N) (p : NodePatch)
| DoDeleteNode (id : N)
| DoCreateEdge (e : NewEdge)
| DoUpdateEdge (id : N) (p : EdgePatch)
| DoDeleteEdge (id : N).

Section live.
Context `{JsonText}.

Definition on_inner {A} (f : ST Inner CoreError A) : ST GState CoreError A := fun '(ids, g) =>
  let '(g, r) := f g in ((ids, g), r).

(** One operation of the engine; [require] is set outside transactions. *)
Definition run_op (env : Env) (require : bool) (op : GraphOp) : ST GState CoreError unit := fun st =>
  let forget {A} (r : GState * result CoreError A) := (r.1, (fun _ => tt) <$> r.2) in
  match op with
  | DoCreateNode n => forget (create_node_checked env n require st)
  | DoUpdateNode id p => forget (on_inner (update_node_checked env id p require) st)
  | DoDeleteNode id => on_inner (delete_node id) st
  | DoCreateEdge e => forget (create_edge env e st)
  | DoUpdateEdge id p => forget (on_inner (update_edge id p) st)
  | DoDeleteEdge id => on_inner (delete_edge id) st
  end.

(** The counters have not run out. *)
Definition room (ids : IdCounters) : Prop := last_node ids + 1 < 2 ^ 64 /\ last_edge ids + 1 < 2 ^ 64.

Lemma wrap_room n : n + 1 < 2 ^ 64 -> wrap_u64 (n + 1) = n + 1.
Proof. intros Hn. unfold wrap_u64. by apply N.mod_small. Qed.

(** *** Creating *)
Lemma create_node_cases env nn require ids g :
  let id := wrap_u64 (last_node ids + 1) in
  let n := into_node env nn id in
  let ids' := mkIds id (last_edge ids) in
  (exists e, create_node_checked env nn require (ids, g) = ((ids', g), Err e)) \/
  (check_unique g n = Ok tt /\ (require = true -> check_exists g n = Ok tt) /\
   create_node_checked env nn require (ids, g) =
     ((ids', mkInner (<[id := n]> (nodes g)) (edges g) (out_adj g) (in_adj g)
         (bucket_insert id (n_title n) (titles g)) (bucket_insert id (n_kind n) (kind_index g))
         (kind_ids g) (embeddings g) (constraints g) (unique_add n (unique g))
         (Z.max (last_updated_at g) (n_updated_at n)) (prepared g) (heuristic g) (commit_seq g)),
      Ok n)).
Proof.
  intros id n ids'. unfold create_node_checked. cbn [Ids.next_node]. fold id. fold n. fold ids'.
  destruct (check_unique g n) as [[]|v] eqn:Eu; simpl; [|by left; eexists].
  destruct require; simpl.
  - destruct (check_exists g n) as [[]|v] eqn:Ee; simpl; [|by left; eexists]. right. by split_and!.
  - right. by split_and!.
Qed.

Lemma create_node_live env nn require ids g : live (ids, g) -> room ids ->
  live (create_node_checked env nn require (ids, g)).1.
Proof.
  intros ([W E] & L & [C1 C2]) [R1 R2]. cbn [fst snd] in *.
  destruct (create_node_cases env nn require ids g) as [[e ->]|(_ & _ & ->)];
    rewrite ?wrap_room by done; cbn [fst].
  - split_and!; [done|done|]. split; [|done]. simpl. intros i Hi%C1. simpl in *. lia.
  - set (id := last_node ids + 1). set (n := into_node env nn id).
    assert (nodes g !! n_id n = None) as Hfree.
    { apply eq_None_not_Some. intros Hs%C1. simpl in Hs. unfold id in Hs. lia. }
    split_and!; [split| |split]; simpl.
    + unfold g_nodes_wf. simpl.
      apply (nodes_wf_put _ _ _ (unique g) _ _ n W Hfree). apply unique_add_lookup.
    + exact E.
    + intros i e He. destruct (L i e He) as [[a Ha] [b Hb]].
      simpl. rewrite !lookup_insert. split; case_decide; eauto.
    + intros i. simpl. rewrite lookup_insert. case_decide as Hd; [subst; lia|].
      intros Hi%C1. simpl in Hi. unfold id. lia.
    + apply C2.
Qed.

Lemma link_edge_nodes e g : nodes (link_edge e g) = nodes g /\ edges (link_edge e g) = edges g.
Proof. unfold link_edge, intern_kind. by destruct (kind_ids g !! e_kind e). Qed.

Lemma create_edge_cases env ne ids g :
  let id := wrap_u64 (last_edge ids + 1) in
  let e := into_edge env ne id in
  (exists err, create_edge env ne (ids, g) = ((ids, g), Err err)) \/
  (f32_is_finite (ne_weight ne) = true /\
   is_Some (nodes g !! ne_from ne) /\ is_Some (nodes g !! ne_to ne) /\
   create_edge env ne (ids, g) = ((mkIds (last_node ids) id, store_edge e g), Ok e)).
Proof.
  intros id e. unfold create_edge.
  destruct (f32_is_finite (ne_weight ne)); simpl; [|by left; eexists].
  destruct (nodes g !! ne_from ne); [|by left; eexists].
  destruct (nodes g !! ne_to ne); [|by left; eexists].
  right. split_and!; [done|eauto|eauto|]. done.
Qed.

Lemma store_edge_nodes_wf e g : g_nodes_wf g -> g_nodes_wf (store_edge e g).
Proof.
  intros W. unfold g_nodes_wf.
  destruct (store_edge_records e g 0) as (_ & -> & -> & -> & -> & ->). done.
Qed.

Lemma create_edge_live env ne ids g : live (ids, g) -> room ids ->
  kinds_fit (create_edge env ne (ids, g)).1.2 -> live (create_edge env ne (ids, g)).1.
Proof.
  intros ([W E] & L & [C1 C2]) [R1 R2].
  destruct (create_edge_cases env ne ids g) as [[e ->]|(_ & Hf & Ht & ->)];
    [intros _; done|]. rewrite wrap_room by done. cbn [fst snd].
  set (e := into_edge env ne (last_edge ids + 1)). intros Hk.
  assert (edges g !! e_id e = None) as Hfree.
  { apply eq_None_not_Some. intros Hs%C2. simpl in Hs. lia. }
  pose proof (fun i => store_edge_records e g i) as Hr.
  split_and!; [split| |split]; cbn [fst snd].
  - by apply store_edge_nodes_wf.
  - by apply store_edge_wf.
  - intros i e' He'. destruct (Hr i) as (Hi & -> & _). rewrite Hi in He'.
    case_decide; [by injection He' as <-|]. by eapply L.
  - intros i. destruct (Hr i) as (_ & -> & _). apply C1.
  - intros i. destruct (Hr i) as (-> & _). case_decide as Hd; [subst; simpl; lia|].
    intros Hi%C2. simpl in *. lia.
Qed.

(** *** Updating *)
Lemma update_node_cases env id p require g :
  (exists e, update_node_checked env id p require g = (g, Err e)) \/
  (exists old n' ts' ks' t, nodes g !! id = Some old /\
   n' = set_updated_at t (apply_node_patch old p) /\
   check_unique g (apply_node_patch old p) = Ok tt /\
   (require = true -> check_exists g (apply_node_patch old p) = Ok tt) /\
   reindexed id (n_title old) (n_title n') (titles g) ts' /\
   reindexed id (n_kind old) (n_kind n') (kind_index g) ks' /\
   t = Z.max (env_now env) (wrap_i64 (last_updated_at g + 1)) /\
   update_node_checked env id p require g =
     (mkInner (<[id := n']> (nodes g)) (edges g) (out_adj g) (in_adj g) ts' ks'
        (kind_ids g) (embeddings g) (constraints g)
        (unique_add (apply_node_patch old p) (unique_del old (unique g)))
        t (prepared g) (heuristic g) (commit_seq g), Ok n')).
Proof.
  unfold update_node_checked. destruct (nodes g !! id) as [old|] eqn:Ho; [|by left; eexists].
  set (n := apply_node_patch old p).
  destruct (check_unique g n) as [[]|v] eqn:Eu; cbn [violation]; [|by left; eexists].
  destruct (if require then _ else _) as [[]|v] eqn:Ee; [|by left; eexists].
  right. exists old. eexists _,
    (if bool_decide (n_title old = n_title n) then titles g
     else bucket_insert id (n_title n) (bucket_remove id (n_title old) (titles g))),
    (if bool_decide (n_kind old = n_kind n) then kind_index g
     else bucket_insert id (n_kind n) (bucket_remove id (n_kind old) (kind_index g))), _.
  split; [done|]. split; [done|]. split; [done|].
  split.
  { intros Hreq. fold n. rewrite Hreq in Ee.
    destruct (check_exists g n) as [[]|]; [done|discriminate Ee]. }
  split; [|split; [|split; [done|]]].
  - case_bool_decide as Hd; [by right|by left].
  - case_bool_decide as Hd; [by right|by left].
  - fold n. destruct (bool_decide (n_title old = n_title n)), (bool_decide (n_kind old = n_kind n));
      reflexivity.
Qed.

Lemma tuple_key_set_updated_at b t n ps :
  tuple_key_from b (set_updated_at t n) ps = tuple_key_from b n ps.
Proof. revert b. induction ps as [|p ps IH]; intros b; [done|]. simpl. by rewrite IH. Qed.

Lemma ukey_set_updated_at lp t n : ukey lp (set_updated_at t n) = ukey lp n.
Proof. unfold ukey, tuple_key. by rewrite tuple_key_set_updated_at. Qed.

Lemma update_node_live env id p require ids g : live (ids, g) ->
  live (ids, (update_node_checked env id p require g).1).
Proof.
  intros ([W E] & L & [C1 C2]). cbn [fst snd] in *.
  destruct (update_node_cases env id p require g)
    as [[e ->]|(old & n' & ts' & ks' & t & Ho & -> & _ & _ & Ht & Hk & _ & ->)]; [done|].
  assert (n_id old = id) as Hid by by apply (wf_node_ids _ _ _ _ _ W).
  cbn [fst]. split_and!; [split| |split].
  - unfold g_nodes_wf. cbn -[unique_add unique_del]. subst id.
    apply (nodes_wf_replace _ _ _ (unique g) _ _ _ _ old _ W Ho); [done|done|done|].
    intros lp. rewrite unique_add_lookup, unique_del_lookup, ukey_set_updated_at.
    by destruct (unique g !! lp).
  - exact E.
  - intros i e He. simpl in *. destruct (L i e He) as [[a Ha] [b Hb]].
    rewrite !lookup_insert. split; case_decide; eauto.
  - intros i. simpl. rewrite lookup_insert. case_decide as Hd; [|apply C1].
    subst i. intros _. apply C1. eauto.
  - exact C2.
Qed.

Lemma update_edge_cases id p g :
  (exists err, update_edge id p g = (g, Err err)) \/
  (exists old e', edges g !! id = Some old /\ e_from e' = e_from old /\ e_to e' = e_to old /\
   e_id e' = e_id old /\ e_kind e' = default (e_kind old) (ep_kind p) /\
   e_weight e' = default (e_weight old) (ep_weight p) /\
   (forall w, ep_weight p = Some w -> f32_is_finite w = true) /\
   update_edge id p g =
     (let g' := match ep_kind p with
                | None => g
                | Some _ =>
                    let '(g, k) := intern_kind (e_kind e') g in
                    with_adj (alter (set_kind_in id k) (e_from e') (out_adj g))
                             (alter (set_kind_in id k) (e_to e') (in_adj g)) g
                end in with_edges (<[id := e']> (edges g')) g', Ok e')).
Proof.
  unfold update_edge.
  destruct (match ep_weight p with Some w => _ | None => _ end) as [[]|err] eqn:Ew; [|by left; eexists].
  destruct (edges g !! id) as [old|]; [|by left; eexists].
  right. exists old, (mkEdge (e_id old) (e_uuid old) (e_from old) (e_to old)
    (default (e_kind old) (ep_kind p)) (default (e_weight old) (ep_weight p)) (e_created_at old)
    (default (e_properties old) (ep_properties p))).
  split; [done|]. do 5 (split; [reflexivity|]).
  split; [|reflexivity]. intros w Hw. rewrite Hw in Ew. by destruct (f32_is_finite w).
Qed.

Lemma update_edge_wf id p g : g_edges_wf g -> kinds_fit (update_edge id p g).1 ->
  g_edges_wf (update_edge id p g).1.
Proof.
  intros E. destruct (update_edge_cases id p g)
    as [[err ->]|(old & e' & Ho & Hf & Ht & Hid & Hk & _ & _ & ->)]; [done|].
  destruct E as [E1 E2 E3 E4]. pose proof (E1 _ _ Ho) as Hoid. subst id.
  unfold g_edges_wf, kinds_fit. destruct (ep_kind p) as [kd|]; simpl in Hk.
  - destruct (intern_kind (e_kind e') g) as [g1 k] eqn:Ei. cbv zeta. cbn [fst].
    cbn -[set_kind_in]. intros Hfit.
    destruct (intern_kind_ok _ _ _ _ _ E2 Ei Hfit) as (K & Hsub & Hks & Hg1).
    assert (edges g1 = edges g /\ out_adj g1 = out_adj g /\ in_adj g1 = in_adj g) as (-> & -> & ->)
      by (rewrite Hg1; done).
    pose proof (kinds_edges _ _ K _ _ Ho) as Hko.
    split.
    + intros i e. rewrite lookup_insert. case_decide; [intros [= <-]; congruence|]. apply E1.
    + apply kinds_ok_insert; [done|eauto].
    + rewrite Hf. apply (adj_ok_rekind e_from e_to); try done.
      eapply adj_ok_kinds; [done|done|apply E2].
    + rewrite Ht. apply (adj_ok_rekind e_to e_from); try done.
      eapply adj_ok_kinds; [done|done|apply E2].
  - cbn. intros _. split.
    + intros i e. rewrite lookup_insert. case_decide; [intros [= <-]; congruence|]. apply E1.
    + apply kinds_ok_insert; [done|]. rewrite Hk. by eapply kinds_edges.
    + by eapply adj_ok_same.
    + by eapply adj_ok_same.
Qed.

Lemma update_edge_frame id p g i : let g' := (update_edge id p g).1 in
  nodes g' = nodes g /\ titles g' = titles g /\ kind_index g' = kind_index g /\
  unique g' = unique g /\ constraints g' = constraints g /\
  (forall e, edges g' !! i = Some e -> exists e0, edges g !! i = Some e0 /\
     e_from e = e_from e0 /\ e_to e = e_to e0).
Proof.
  intros g'. unfold g'.
  destruct (update_edge_cases id p g)
    as [[err ->]|(old & e' & Ho & Hf & Ht & Hid & Hk & _ & _ & ->)]; [split_and!; eauto|].
  assert (forall g1 : Inner, edges g1 = edges g -> forall e, <[id := e']> (edges g1) !! i = Some e ->
    exists e0, edges g !! i = Some e0 /\ e_from e = e_from e0 /\ e_to e = e_to e0) as Hed.
  { intros g1 -> e. rewrite lookup_insert. case_decide; [|eauto]. intros [= <-]. subst. eauto. }
  destruct (ep_kind p); [|split_and!; try done; by apply Hed].
  unfold intern_kind. destruct (kind_ids g !! e_kind e'); cbn -[set_kind_in];
    split_and!; try done; by apply Hed.
Qed.

(** *** Deleting *)
Lemma delete_node_live id ids g : live (ids, g) -> live (ids, (delete_node id g).1).
Proof.
  intros ([W E] & L & [C1 C2]). cbn [fst snd] in *. unfold delete_node.
  destruct (nodes g !! id) as [n|] eqn:Hn; [|done]. cbn [fst].
  pose proof (fun i => drop_node_records id n g i E) as Hr.
  split_and!; [by apply drop_node_wf| |split]; cbn [fst snd].
  - intros i e He. destruct (Hr i) as (_ & Hi & _). rewrite Hi in He.
    destruct (edges g !! i) as [e0|] eqn:Ee; [|done]. cbn [mbind option_bind] in He.
    case_decide as Hd; [done|]. injection He as <-. destruct (L i e0 Ee) as [Hf Ht].
    destruct (Hr (e_from e0)) as [-> _]. destruct (Hr (e_to e0)) as [-> _].
    rewrite !decide_False by naive_solver. done.
  - intros i. destruct (Hr i) as [-> _]. case_decide; [by intros [? ?]|]. apply C1.
  - intros i. destruct (Hr i) as (_ & -> & _). intros [e He]. apply C2. cbn [snd].
    destruct (edges g !! i); [eauto|done].
Qed.

Lemma delete_edge_live id ids g : live (ids, g) -> live (ids, (delete_edge id g).1).
Proof.
  intros ([W E] & L & [C1 C2]). cbn [fst snd] in *. unfold delete_edge.
  destruct (edges g !! id) as [e|] eqn:He; [|done]. cbn [fst].
  pose proof (remove_edge_nodes id g) as (Hn & H2 & H3 & H4 & H5 & _ & _ & Hes).
  split_and!; [split| |split]; cbn [fst snd].
  - unfold g_nodes_wf. by rewrite Hn, H2, H3, H4, H5.
  - by apply remove_edge_wf.
  - intros i e'. rewrite Hes, lookup_delete, Hn. case_decide; [done|]. apply L.
  - rewrite Hn. apply C1.
  - intros i. rewrite Hes, lookup_delete. case_decide; [by intros [? ?]|]. apply C2.
Qed.

Lemma run_op_live env require op st : live st -> room st.1 -> kinds_fit (run_op env require op st).1.2 ->
  live (run_op env require op st).1.
Proof.
  destruct st as [ids g]. intros Hl Hr. destruct op as [n|id p|id|e|id p|id]; unfold run_op, on_inner.
  - intros _. by apply create_node_live.
  - intros _. pose proof (update_node_live env id p require ids g Hl) as Hu.
    by destruct (update_node_checked env id p require g).
  - intros _. pose proof (delete_node_live id ids g Hl) as Hu. by destruct (delete_node id g).
  - intros Hk. by apply create_edge_live.
  - pose proof (fun i => update_edge_frame id p g i) as Hfr.
    pose proof (update_edge_wf id p g) as Hwf.
    destruct (update_edge id p g) as [g' r]. cbn [fst snd] in *. intros Hk.
    destruct Hl as ([W E] & L & [C1 C2]). cbn [fst snd] in *.
    destruct (Hfr 0) as (Hn & Ht & Hki & Hu & Hc & _).
    split_and!; [split| |split]; cbn [fst snd].
    + unfold g_nodes_wf. by rewrite Hn, Ht, Hki, Hu, Hc.
    + by apply Hwf.
    + intros i e He. destruct (Hfr i) as (_ & _ & _ & _ & _ & Hi).
      destruct (Hi e He) as (e0 & He0 & -> & ->). rewrite Hn. by eapply L.
    + rewrite Hn. apply C1.
    + intros i [e He]. destruct (Hfr i) as (_ & _ & _ & _ & _ & Hi).
      destruct (Hi e He) as (e0 & He0 & _). apply C2. eauto.
  - intros _. pose proof (delete_edge_live id ids g Hl) as Hu. by destruct (delete_edge id g).
Qed.
End live.
