(* ===== verification/Conflict.v ===== *)
(** * Conflict sets and the commit history
    ([src/drevo-core/src/conflict.rs])

    What a batch of log operations wrote, deleted and depends on, when two
    batches could not both have committed, and the bounded history a late
    transaction is classified against. *)
From S2P Require Import Prelude NativeModel.
Local Open Scope string_scope.
Local Open Scope list_scope.
Local Open Scope N_scope.

(** A record a transaction touched. *)
Inductive Key : Type :=
| KNode (id : N)
| KEdge (id : N).

#[global] Instance Key_eq_dec : EqDecision Key.
Proof. solve_decision. Defined.
#[global] Program Instance Key_countable : Countable Key :=
  inj_countable' (fun k => match k with KNode i => inl i | KEdge i => inr i end)
    (fun s => match s with inl i => KNode i | inr i => KEdge i end) _.
Next Obligation. by intros []. Qed.

Record ConflictSet : Type := mkCS {
  cs_writes : gset Key;
  cs_deletes : gset Key;
  cs_deps : gset Key;
  cs_everything : bool;
}.

Definition cs_empty : ConflictSet := mkCS ∅ ∅ ∅ false.

(** One round of the loop of [from_ops]. *)
Definition from_op (set : ConflictSet) (op : WalOp) : ConflictSet :=
  let '(mkCS w d p e) := set in
  match op with
  | UpsertNode node => mkCS ({[ KNode (n_id node) ]} ∪ w) d p e
  | DeleteNode id => mkCS ({[ KNode id ]} ∪ w) ({[ KNode id ]} ∪ d) p e
  | UpsertEdge edge =>
      mkCS ({[ KEdge (e_id edge) ]} ∪ w) d ({[ KNode (e_to edge) ]} ∪ ({[ KNode (e_from edge) ]} ∪ p)) e
  | DeleteEdge id => mkCS ({[ KEdge id ]} ∪ w) ({[ KEdge id ]} ∪ d) p e
  | SetEmbedding id _ | DeleteEmbedding id => mkCS ({[ KNode id ]} ∪ w) d p e
  | Prepare _ _ _ | CommitPrepared _ | RollbackPrepared _ _ => set
  end.

Definition from_ops (ops : list WalOp) : ConflictSet := foldl from_op cs_empty ops.

Definition cs_node (id : N) : ConflictSet := from_ops [DeleteEmbedding id].
Definition cs_deleted_node (id : N) : ConflictSet := from_ops [DeleteNode id].
Definition cs_edge (id from to : N) : ConflictSet :=
  mkCS {[ KEdge id ]} ∅ {[ KNode from; KNode to ]} false.
Definition cs_deleted_edge (id : N) : ConflictSet := from_ops [DeleteEdge id].

Definition cs_extend (set other : ConflictSet) : ConflictSet :=
  mkCS (cs_writes set ∪ cs_writes other) (cs_deletes set ∪ cs_deletes other)
    (cs_deps set ∪ cs_deps other) (cs_everything set || cs_everything other).

Definition cs_all : ConflictSet := mkCS ∅ ∅ ∅ true.

Definition cs_is_empty (set : ConflictSet) : bool :=
  negb (cs_everything set) && bool_decide (cs_writes set = ∅).

(** [any(|k| other.contains(k))]. *)
Definition meets (a b : gset Key) : bool := bool_decide (a ∩ b <> ∅).

Definition intersects (self other : ConflictSet) : bool :=
  if cs_everything self then negb (cs_is_empty other)
  else if cs_everything other then negb (cs_is_empty self)
  else meets (cs_writes self) (cs_writes other)
       || meets (cs_deps self) (cs_deletes other)
       || meets (cs_deletes self) (cs_deps other).

(** ** The history of commits *)
Inductive ConflictReason : Type := Overlap | WouldPass | HistoryGone.

#[global] Instance ConflictReason_eq_dec : EqDecision ConflictReason.
Proof. solve_decision. Defined.

Record ConflictStats : Type := mkStats { s_overlap : N; s_would_pass : N; s_history : N; s_merged : N }.

Record CommitHistory : Type := mkHistory { recent : list (N * ConflictSet); capacity : nat }.

Definition DEFAULT_HISTORY : nat := N.to_nat 10000.
Definition with_capacity (capacity : nat) : CommitHistory := mkHistory [] capacity.

(** [pop_front] while the queue is over its capacity. *)
Fixpoint trim_front (capacity : nat) (l : list (N * ConflictSet)) : list (N * ConflictSet) :=
  match l with
  | [] => []
  | x :: rest => if (capacity <? length l)%nat then trim_front capacity rest else l
  end.

Definition trim (h : CommitHistory) : CommitHistory :=
  mkHistory (trim_front (capacity h) (recent h)) (capacity h).

Definition set_capacity (capacity : nat) (h : CommitHistory) : CommitHistory :=
  trim (mkHistory (recent h) capacity).

Definition push (seq : N) (set : ConflictSet) (h : CommitHistory) : CommitHistory :=
  trim (mkHistory (recent h ++ [(seq, set)]) (capacity h)).

(** [iter().rev().take_while(|(seq, _)| *seq > base)]. *)
Fixpoint newer_than (base : N) (l : list (N * ConflictSet)) : list (N * ConflictSet) :=
  match l with
  | [] => []
  | x :: l => if base <? x.1 then x :: newer_than base l else []
  end.

(** The [covers] of [classify]: every commit after [base] is still held. *)
Definition covers (h : CommitHistory) (base : N) : bool :=
  match recent h with
  | (oldest, _) :: _ => oldest <=? base + 1
  | [] => false
  end.

Definition classify (h : CommitHistory) (base : N) (mine : ConflictSet) : ConflictReason :=
  if negb (covers h base) then HistoryGone
  else if existsb (fun x => intersects x.2 mine) (newer_than base (rev (recent h)))
       then Overlap else WouldPass.

(** ** Lemmas *)
Lemma meets_spec a b : meets a b = true <-> exists k, k ∈ a /\ k ∈ b.
Proof.
  unfold meets. rewrite bool_decide_eq_true. split.
  - intros Hne. apply set_choose_L in Hne as [k Hk]. exists k. set_solver.
  - intros (k & Ha & Hb) He. assert (k ∈ a ∩ b) by set_solver. set_solver.
Qed.

Lemma meets_comm a b : meets a b = meets b a.
Proof. apply bool_decide_ext. by rewrite (comm_L (∩)). Qed.

Lemma meets_false a b : meets a b = false <-> forall k, k ∈ a -> k ∈ b -> False.
Proof.
  rewrite <- not_true_iff_false, meets_spec. split.
  - intros Hn k Ha Hb. apply Hn. eauto.
  - intros Hn (k & Ha & Hb). eauto.
Qed.

Lemma from_ops_app a b : from_ops (a ++ b) = foldl from_op (from_ops a) b.
Proof. apply foldl_app. Qed.

Lemma from_op_extend set op : from_op set op = cs_extend set (from_op cs_empty op).
Proof.
  destruct set as [w d p e].
  destruct op; unfold cs_extend; simpl; rewrite ?orb_false_r; f_equal; set_solver.
Qed.

Lemma extend_assoc a b c : cs_extend a (cs_extend b c) = cs_extend (cs_extend a b) c.
Proof. unfold cs_extend. simpl. f_equal; [set_solver..|]. by rewrite orb_assoc. Qed.

Lemma extend_empty a : cs_extend a cs_empty = a.
Proof. destruct a. unfold cs_extend. simpl. rewrite orb_false_r. f_equal; set_solver. Qed.

Lemma from_ops_fold set ops : foldl from_op set ops = cs_extend set (from_ops ops).
Proof.
  revert set. induction ops as [|op ops IH] using rev_ind; intros set; [by rewrite extend_empty|].
  unfold from_ops. rewrite !foldl_app. simpl. fold (from_ops ops).
  rewrite (from_op_extend (foldl _ _ _)), (from_op_extend (from_ops ops)), IH. by rewrite extend_assoc.
Qed.

Lemma from_ops_cons op ops : from_ops (op :: ops) = cs_extend (from_op cs_empty op) (from_ops ops).
Proof. unfold from_ops at 1. simpl. apply from_ops_fold. Qed.

Lemma from_ops_everything ops : cs_everything (from_ops ops) = false.
Proof.
  induction ops as [|op ops IH]; [done|]. rewrite from_ops_cons. simpl. rewrite IH.
  by destruct op.
Qed.

Lemma trim_front_spec c l : trim_front c l = drop (length l - c) l.
Proof.
  induction l as [|x l IH]; [by rewrite drop_nil|]. cbn [trim_front].
  destruct (Nat.ltb_spec c (length (x :: l))) as [Hlt|Hge].
  - rewrite IH. simpl in Hlt. replace (length (x :: l) - c)%nat with (S (length l - c)) by (simpl; lia).
    done.
  - replace (length (x :: l) - c)%nat with 0%nat by lia. done.
Qed.

(** The sequences held are consecutive and end at the current one. *)
Definition history_ok (seq : N) (h : CommitHistory) : Prop :=
  forall i x, recent h !! i = Some x -> x.1 + N.of_nat (length (recent h)) = seq + N.of_nat i + 1.

Lemma history_ok_trim seq h c : history_ok seq h ->
  history_ok seq (mkHistory (trim_front c (recent h)) c).
Proof.
  intros Hh i x. cbn [recent]. rewrite trim_front_spec, lookup_drop, length_drop. intros Hx.
  pose proof (lookup_lt_Some _ _ _ Hx). specialize (Hh _ _ Hx). lia.
Qed.

Lemma history_ok_push seq set h : history_ok seq h -> history_ok (seq + 1) (push (seq + 1) set h).
Proof.
  intros Hh. unfold push, trim. cbn [recent capacity].
  apply (history_ok_trim _ (mkHistory (recent h ++ [(seq + 1, set)]) (capacity h))).
  intros i x. cbn [recent]. rewrite length_app. simpl. intros [Hx|[Hlen Hx]]%lookup_app_Some.
  - specialize (Hh _ _ Hx). lia.
  - destruct (i - length (recent h))%nat as [|k] eqn:E; simpl in Hx; [|by rewrite lookup_nil in Hx].
    injection Hx as <-. simpl. lia.
Qed.

Lemma history_ok_capacity seq c h : history_ok seq h -> history_ok seq (set_capacity c h).
Proof. intros Hh. by apply (history_ok_trim _ (mkHistory (recent h) c)). Qed.

Lemma newer_than_rev seq h base : history_ok seq h -> forall x,
  x ∈ newer_than base (rev (recent h)) <-> x ∈ recent h /\ base < x.1.
Proof.
  unfold history_ok. intros Hh. revert seq Hh. generalize (recent h) as l.
  induction l as [|y l IH] using rev_ind; intros seq Hh x.
  { simpl. split; [by intros ?%not_elem_of_nil|]. by intros [?%not_elem_of_nil _]. }
  rewrite rev_unit. simpl.
  assert (y.1 = seq) as Hy.
  { specialize (Hh (length l) y). rewrite length_app in Hh. simpl in Hh.
    rewrite list_lookup_middle in Hh by done. specialize (Hh eq_refl). lia. }
  assert (forall i z, l !! i = Some z -> z.1 + N.of_nat (length l) = (seq - 1) + N.of_nat i + 1) as Hl.
  { intros i z Hz. pose proof (lookup_lt_Some _ _ _ Hz). specialize (Hh i z).
    rewrite lookup_app_l in Hh by done. specialize (Hh Hz). rewrite length_app in Hh. simpl in Hh. lia. }
  destruct (N.ltb_spec base y.1) as [Hlt|Hge].
  - rewrite elem_of_cons, (IH (seq - 1) Hl), elem_of_app, list_elem_of_singleton. split.
    + intros [->|[? ?]]; [by split; [right|]|by split; [left|]].
    + intros [[?|?] ?]; [by right|by left].
  - split; [by intros ?%not_elem_of_nil|]. rewrite elem_of_app, list_elem_of_singleton.
    intros [[Hx| ->] Hb]; [|lia]. apply list_elem_of_lookup in Hx as [i Hi].
    pose proof (lookup_lt_Some _ _ _ Hi). specialize (Hl _ _ Hi). lia.
Qed.

Lemma covers_spec seq h base : history_ok seq h -> base < seq ->
  covers h base = true <-> forall s, base < s <= seq -> exists set, (s, set) ∈ recent h.
Proof.
  unfold history_ok, covers. intros Hh Hb. destruct (recent h) as [|[o s0] l].
  { split; [done|]. intros Hall. destruct (Hall seq ltac:(lia)) as [? Hx].
    by apply not_elem_of_nil in Hx. }
  pose proof (Hh 0%nat (o, s0) eq_refl) as H0. simpl in H0. rewrite N.leb_le. split.
  - intros Hle s Hs.
    destruct (lookup_lt_is_Some_2 ((o, s0) :: l) (N.to_nat (s - o))) as [[s' set] Hx]; [simpl; lia|].
    specialize (Hh _ _ Hx). simpl in Hh. assert (s' = s) as -> by lia. exists set.
    by eapply list_elem_of_lookup_2.
  - intros Hall. destruct (Hall (base + 1) ltac:(lia)) as [s Hs].
    apply list_elem_of_lookup in Hs as [i Hi]. specialize (Hh i _ Hi). simpl in Hh. lia.
Qed.

(** ** The properties *)

(** Whether two batches clash does not depend on which is asked about the
    other. *)
Theorem intersects_symmetric a b : intersects a b = intersects b a.
Proof.
  unfold intersects. destruct (cs_everything a) eqn:Ea, (cs_everything b) eqn:Eb.
  - unfold cs_is_empty. by rewrite Ea, Eb.
  - done.
  - done.
  - rewrite (meets_comm (cs_writes a)), (meets_comm (cs_deps a)), (meets_comm (cs_deletes a)).
    rewrite <- !orb_assoc. f_equal. apply orb_comm.
Qed.

(** C28: With a history whose sequences run up to the current commit, a
    transaction that began at [base] is classified exactly: [HistoryGone] when
    some commit after [base] has been forgotten, otherwise [Overlap] when a
    later commit clashes with it and [WouldPass] when none does. *)
Theorem classify_exact seq h base mine : history_ok seq h -> base < seq ->
  let held := forall s, base < s <= seq -> exists set, (s, set) ∈ recent h in
  match classify h base mine with
  | HistoryGone => ~ held
  | Overlap => held /\ exists s set, (s, set) ∈ recent h /\ base < s /\ intersects set mine = true
  | WouldPass => held /\ forall s set, (s, set) ∈ recent h -> base < s -> intersects set mine = false
  end.
Proof.
  intros Hh Hb held. pose proof (newer_than_rev seq h base Hh) as Hnew.
  pose proof (covers_spec seq h base Hh Hb) as Hcov. fold held in Hcov. unfold classify.
  destruct (covers h base); simpl; [|intros Hheld; by apply Hcov in Hheld].
  destruct (existsb _ _) eqn:Ee.
  - apply existsb_exists in Ee as ([s set] & Hin & Hi). split; [by apply Hcov|].
    apply list_elem_of_In, Hnew in Hin as [Hin Hlt]. eauto.
  - split; [by apply Hcov|]. intros s set Hin Hlt. apply not_true_iff_false. intros Hi.
    rewrite <- not_true_iff_false in Ee. apply Ee, existsb_exists. exists (s, set).
    split; [|done]. by apply list_elem_of_In, Hnew.
Qed.

Definition sample_history : CommitHistory :=
  push 3 (cs_deleted_node 7) (push 2 (cs_edge 5 1 7) (push 1 (cs_node 1) (with_capacity 2))).

Lemma sample_history_ok : history_ok 3 sample_history.
Proof.
  change 3 with (0 + 1 + 1 + 1) at 1. unfold sample_history.
  apply (history_ok_push 2), (history_ok_push 1), (history_ok_push 0). by intros i x ?.
Qed.

(** The first commit has been forgotten; the later two clash with an edge at
    node 7 or a deletion of it. *)
Lemma classify_exact_witness :
  classify sample_history 0 (cs_node 9) = HistoryGone /\
  (exists s set, (s, set) ∈ recent sample_history /\ 2 < s /\
     intersects set (cs_edge 8 2 7) = true) /\
  classify sample_history 2 (cs_node 9) = WouldPass.
Proof.
  split; [vm_compute; reflexivity|]. split; [|vm_compute; reflexivity].
  exact (proj2 (classify_exact 3 sample_history 2 (cs_edge 8 2 7) sample_history_ok eq_refl)).
Defined.
