(* ===== verification/NativeSpec.v ===== *)
(** * Reads, constraints and recovery of the graph

    What the reads of [Inner] answer in terms of the records, what the declared
    constraints guarantee, and that the log form of a graph rebuilds it. *)
From S2P Require Import Prelude NativeModel Native NativeInv NativeOps.
Local Open Scope string_scope.
Local Open Scope list_scope.
Local Open Scope N_scope.

(** ** Ascending ids *)
Lemma elem_of_ascending s i : i ∈ ascending s <-> i ∈ s.
Proof. unfold ascending. by rewrite merge_sort_Permutation, elem_of_elements. Qed.

Lemma NoDup_ascending s : NoDup (ascending s).
Proof. unfold ascending. rewrite merge_sort_Permutation. apply NoDup_elements. Qed.

Lemma sorted_ascending s : StronglySorted N.le (ascending s).
Proof. apply (StronglySorted_merge_sort N.le). Qed.

(** ** Neighbours *)

(** [e] leads from [x] to [y] in direction [d]. *)
Definition leads (d : Direction) (x y : N) (e : Edge) : Prop :=
  match d with
  | Outgoing => e_from e = x /\ e_to e = y
  | Incoming => e_to e = x /\ e_from e = y
  | Both => (e_from e = x /\ e_to e = y) \/ (e_to e = x /\ e_from e = y)
  end.

Lemma push_neighbor_fold es st :
  let r := foldl push_neighbor st es in
  (forall y, y ∈ r.2 <-> y ∈ st.2 \/ ((y ∉ st.1) /\ exists en, en ∈ es /\ a_neighbor en = y)) /\
  (forall y, y ∈ r.1 <-> y ∈ st.1 \/ exists en, en ∈ es /\ a_neighbor en = y) /\
  (NoDup st.2 -> (forall y, y ∈ st.2 -> y ∈ st.1) -> NoDup r.2).
Proof.
  revert st. induction es as [|en es IH]; intros [seen ids]; cbn [foldl].
  - split_and!; [|set_solver|done]. intros y. split; [by left|].
    intros [?|(_ & en & ?%not_elem_of_nil & _)]; done.
  - unfold push_neighbor at 2 4 6. cbn [fst snd]. case_bool_decide as Hin.
    + destruct (IH (seen, ids)) as (H1 & H2 & H3). cbn [fst snd] in *. split_and!; [..|done].
      * intros y. rewrite H1. split; [set_solver|].
        intros [?|(Hy & en' & [->|?]%elem_of_cons & ?)]; [by left|naive_solver|]. right. eauto.
      * intros y. rewrite H2. split; [set_solver|].
        intros [?|(en' & [->|?]%elem_of_cons & ?)]; [by left|naive_solver|]. right. eauto.
    + destruct (IH ({[ a_neighbor en ]} ∪ seen, ids ++ [a_neighbor en])) as (H1 & H2 & H3).
      cbn [fst snd] in *. split_and!.
      * intros y. rewrite H1, elem_of_app, list_elem_of_singleton. split.
        -- intros [[?| ->]|(Hy & en' & ? & ?)]; [by left| |].
           ++ right. split; [done|]. exists en. split; [by left|done].
           ++ right. split; [set_solver|]. exists en'. split; [by right|done].
        -- intros [?|(Hy & en' & [->|?]%elem_of_cons & <-)]; [by left; left|by left; right|].
           destruct (decide (a_neighbor en' = a_neighbor en)) as [->|]; [by left; right|].
           right. split; [set_solver|eauto].
      * intros y. rewrite H2. set_unfold. split.
        -- intros [[->|?]|(en' & ? & ?)]; [right; exists en; auto|by left|right; exists en'; auto].
        -- intros [?|(en' & [->|?] & <-)]; [by left; right|by left; left|right; eauto].
      * intros Hnd Hsub. apply H3.
        -- apply NoDup_app. split_and!; [done| |apply NoDup_singleton].
           intros y Hy ->%list_elem_of_singleton. by apply Hsub in Hy.
        -- intros y. rewrite elem_of_app, list_elem_of_singleton. set_solver.
Qed.

Lemma walk_spec x es :
  let r := (foldl push_neighbor ({[ x ]}, []) es).2 in
  NoDup r /\ forall y, y ∈ r <-> y <> x /\ exists en, en ∈ es /\ a_neighbor en = y.
Proof.
  destruct (push_neighbor_fold es ({[ x ]}, [])) as (H1 & _ & H3). cbv zeta. split.
  - apply H3; [constructor|]. by intros y ?%not_elem_of_nil.
  - intros y. rewrite H1. cbn [fst snd]. split.
    + intros [?%not_elem_of_nil|[Hy He]]; [done|]. split; [set_solver|done].
    + intros [Hy He]. right. split; [set_solver|done].
Qed.

Section reads.
Context `{JsonText}.

Lemma incident_elem g x d en : g_edges_wf g ->
  en ∈ incident_entries g x d <->
  exists e, edges g !! a_edge en = Some e /\ leads d x (a_neighbor en) e /\
    kind_ids g !! e_kind e = Some (a_kind en).
Proof.
  intros [E1 E2 E3 E4].
  assert (en ∈ default [] (out_adj g !! x) <-> exists e, edges g !! a_edge en = Some e /\
    e_from e = x /\ e_to e = a_neighbor en /\ kind_ids g !! e_kind e = Some (a_kind en)) as Ho
    by apply E3.
  assert (en ∈ default [] (in_adj g !! x) <-> exists e, edges g !! a_edge en = Some e /\
    e_to e = x /\ e_from e = a_neighbor en /\ kind_ids g !! e_kind e = Some (a_kind en)) as Hi
    by apply E4.
  destruct d; simpl.
  - rewrite Ho. split; intros (e & He); exists e; tauto.
  - rewrite Hi. split; intros (e & He); exists e; tauto.
  - rewrite elem_of_app, list_elem_of_filter, Ho, Hi. split.
    { intros [(e & He)|(_ & e & He)]; exists e; tauto. }
    intros (e & He & Hl & Hk). destruct (decide (e_from e = x /\ e_to e = a_neighbor en)) as [|Hne];
      [left; exists e; tauto|].
    right. destruct Hl as [?|[Ht Hf]]; [done|]. split; [|exists e; tauto].
    intros Hn. apply Hne. split; congruence.
Qed.

Lemma incident_of_kind_elem g x d k en : g_edges_wf g ->
  en ∈ incident_entries_of_kind g x d k <-> en ∈ incident_entries g x d /\ a_kind en = k.
Proof.
  intros [E1 E2 E3 E4]. pose proof (proj1 (E3 x)) as So. pose proof (proj1 (E4 x)) as Si.
  destruct d; simpl.
  - by apply kind_run_elem.
  - by apply kind_run_elem.
  - rewrite !elem_of_app, !list_elem_of_filter, !kind_run_elem by done. tauto.
Qed.

Definition of_kind (kind : option string) (e : Edge) : Prop :=
  match kind with Some k => e_kind e = k | None => True end.

Lemma neighbor_ids_elem g x d kind : g_edges_wf g ->
  NoDup (neighbor_ids g x d kind) /\
  forall y, y ∈ neighbor_ids g x d kind <->
    y <> x /\ exists i e, edges g !! i = Some e /\ leads d x y e /\ of_kind kind e.
Proof.
  intros E. pose proof (fun en => incident_elem g x d en E) as Hin.
  pose proof (wf_interned _ _ _ _ E) as K. unfold neighbor_ids. destruct kind as [k|]; simpl.
  - destruct (kind_ids g !! k) as [kid|] eqn:Hk.
    + destruct (walk_spec x (incident_entries_of_kind g x d kid)) as [Hnd Hw]. split; [done|].
      intros y. rewrite Hw. f_equiv. setoid_rewrite incident_of_kind_elem; [|done].
      setoid_rewrite Hin. split.
      * intros (en & [(e & He & Hl & Hek) Ha] & <-). exists (a_edge en), e. split_and!; [done..|].
        eapply kinds_inj; [done|done|congruence].
      * intros (i & e & He & Hl & <-). exists (mkAdj i y kid). simpl. split_and!; [|done..].
        exists e. done.
    + split; [constructor|]. intros y. split; [by intros ?%not_elem_of_nil|].
      intros (_ & i & e & He & _ & <-). destruct (kinds_edges _ _ K _ _ He). congruence.
  - destruct (walk_spec x (incident_entries g x d)) as [Hnd Hw]. split; [done|].
    intros y. rewrite Hw. f_equiv. setoid_rewrite Hin. split.
    + intros (en & (e & He & Hl & Hek) & <-). exists (a_edge en), e. done.
    + intros (i & e & He & Hl & _). destruct (kinds_edges _ _ K _ _ He) as [kid Hk].
      exists (mkAdj i y kid). simpl. split; [|done]. exists e. done.
Qed.
End reads.


(** ** Indexes answer from the records *)
Section indexes.
Context `{JsonText}.

Lemma index_ok_unique key ns ix ix' : index_ok key ns ix -> index_ok key ns ix' -> ix = ix'.
Proof.
  intros [A1 A2] [B1 B2]. apply map_eq. intros k.
  assert (default ∅ (ix !! k) = default ∅ (ix' !! k)) as He.
  { apply set_eq. intros id. by rewrite A1, B1. }
  specialize (A2 k). specialize (B2 k).
  destruct (ix !! k), (ix' !! k); simpl in He; congruence.
Qed.

Lemma bucket_elem key ns ix k s id : index_ok key ns ix -> ix !! k = Some s ->
  id ∈ s <-> exists n, ns !! id = Some n /\ key n = Some k.
Proof. intros [A1 _] Hs. rewrite <- A1, Hs. done. Qed.

Lemma bucket_none key ns ix k id n : index_ok key ns ix -> ix !! k = None ->
  ns !! id = Some n -> key n <> Some k.
Proof.
  intros [A1 _] Hs Hn Hk. assert (id ∈ (∅ : gset N)) as Hin; [|set_solver].
  specialize (A1 k id). rewrite Hs in A1. apply A1. eauto.
Qed.

Lemma elem_of_lookups {A} (m : gmap N A) (l : list N) x :
  x ∈ omap (fun id => m !! id) l <-> exists id, id ∈ l /\ m !! id = Some x.
Proof. rewrite list_elem_of_omap. done. Qed.

Lemma lookups_sorted {A} (m : gmap N A) (f : A -> N) l : (forall i x, m !! i = Some x -> f x = i) ->
  NoDup l -> StronglySorted N.le l -> StronglySorted N.lt (f <$> omap (fun id => m !! id) l).
Proof.
  intros Hf Hnd Hs. induction Hs as [|id l Hs IH Hle]; [constructor|].
  apply NoDup_cons in Hnd as [Hid Hnd]. simpl. destruct (m !! id) as [x|] eqn:Hx; [|by apply IH].
  simpl. constructor; [by apply IH|]. apply Forall_forall. intros y (z & -> & Hz)%list_elem_of_fmap.
  apply elem_of_lookups in Hz as (j & Hj & Hz). rewrite (Hf _ _ Hx), (Hf _ _ Hz).
  rewrite Forall_forall in Hle. specialize (Hle j Hj).
  assert (id <> j) by (intros ->; done). lia.
Qed.

Lemma elem_of_all_nodes g n : g_nodes_wf g -> n ∈ all_nodes g <-> nodes g !! n_id n = Some n.
Proof.
  intros W. unfold all_nodes. rewrite elem_of_lookups. unfold ids_of. split.
  - intros (id & _ & Hn). by rewrite (wf_node_ids _ _ _ _ _ W _ _ Hn).
  - intros Hn. exists (n_id n). split; [|done]. apply elem_of_ascending, elem_of_dom. eauto.
Qed.

Lemma head_least s id : head (ascending s) = Some id -> id ∈ s /\ forall j, j ∈ s -> id <= j.
Proof.
  pose proof (sorted_ascending s) as Hs. pose proof (elem_of_ascending s) as He.
  destruct (ascending s) as [|x l]; [done|]. intros [= ->]. split; [apply He; by left|].
  intros j Hj%He. inversion Hs as [|? ? _ Hf]; subst. apply elem_of_cons in Hj as [->|Hj]; [done|].
  rewrite Forall_forall in Hf. by apply Hf.
Qed.

(** *** Rebuilding the uniqueness lookups *)
Lemma build_unique_ok g lp : (forall i n, nodes g !! i = Some n -> n_id n = i) ->
  index_ok (ukey lp) (nodes g) (build_unique g lp.1 lp.2).
Proof.
  intros Hid. unfold build_unique. rewrite <- (list_to_map_to_list (nodes g)) at 1.
  assert (forall i n, (i, n) ∈ map_to_list (nodes g) -> n_id n = i) as Hin.
  { intros i n Hi%elem_of_map_to_list. by apply Hid. }
  pose proof (NoDup_fst_map_to_list (nodes g)) as Hnd.
  induction (map_to_list (nodes g)) as [|[i n] l IH] using rev_ind; [apply index_ok_empty|].
  rewrite !fmap_app in *. apply NoDup_app in Hnd as (Hnd & Hdisj & _).
  assert (i ∉ l.*1) as Hi. { intros Hi. apply (Hdisj i Hi). by left. }
  rewrite foldl_app. cbn [foldl fmap list_fmap snd].
  rewrite list_to_map_snoc by done.
  assert (n_id n = i) as Hn by (apply Hin; set_solver).
  assert (index_ok (ukey lp) (list_to_map l) (foldl (fun values n =>
    if has_label n lp.1 then match tuple_key n lp.2 with
      | Some key => bucket_insert (n_id n) key values | None => values end else values) ∅ l.*2)) as Hl.
  { apply IH; [|done]. intros j m Hj. apply Hin. set_solver. }
  pose proof (index_ok_insert (ukey lp) (list_to_map l) _ i n Hl ltac:(by apply not_elem_of_list_to_map_1))
    as Hins. revert Hins. unfold ukey at 2. rewrite Hn.
  destruct (has_label n lp.1); [|done]. by destruct (tuple_key n lp.2).
Qed.

Lemma sync_unique_wf cs g : g_nodes_wf g ->
  g_nodes_wf (sync_unique (with_constraints cs (unique g) g)).
Proof.
  intros [W1 W2 W3 W4 W5]. unfold g_nodes_wf, sync_unique. cbn -[needed_tuples build_unique].
  set (needed := needed_tuples cs).
  set (u0 := filter (fun lv : (string * list string) * Index => lv.1 ∈ needed) (unique g)).
  assert (forall l (u : UniqueIndex), (forall lp, lp ∈ l -> lp ∈ needed) ->
    (forall lp ix, u !! lp = Some ix -> lp ∈ needed /\ index_ok (ukey lp) (nodes g) ix) ->
    let u' := foldl (fun u lp => if bool_decide (is_Some (u !! lp)) then u
      else <[lp := build_unique (with_constraints cs (unique g) g) lp.1 lp.2]> u) u l in
    (forall lp ix, u' !! lp = Some ix -> lp ∈ needed /\ index_ok (ukey lp) (nodes g) ix) /\
    (forall lp, is_Some (u !! lp) \/ lp ∈ l -> is_Some (u' !! lp))) as Hfold.
  { induction l as [|lp l IH]; intros u Hl Hu; simpl.
    - split; [done|]. intros lp [?|?%not_elem_of_nil]; done.
    - set (u1 := if bool_decide _ then u else _).
      assert (forall lp' ix, u1 !! lp' = Some ix -> lp' ∈ needed /\ index_ok (ukey lp') (nodes g) ix) as H1.
      { intros lp' ix. unfold u1. case_bool_decide; [by apply Hu|]. rewrite lookup_insert.
        case_decide as Hd; [|by apply Hu]. subst lp'. intros [= <-]. split; [apply Hl; by left|].
        by apply (build_unique_ok (with_constraints cs (unique g) g)). }
      destruct (IH u1 ltac:(intros; apply Hl; by right) H1) as [H2 H3]. split; [done|].
      intros lp' Hor. apply H3. unfold u1. destruct Hor as [Hs|[->|?]%elem_of_cons]; [left|left|by right].
      + case_bool_decide; [done|]. rewrite lookup_insert. by case_decide.
      + case_bool_decide; [done|]. rewrite lookup_insert_eq. done. }
  destruct (Hfold needed u0) as [F1 F2].
  - done.
  - intros lp ix [Hix Hlp]%map_lookup_filter_Some. split; [done|]. by apply W4.
  - split; [done|done|done| |].
    + intros lp ix Hix. by apply F1.
    + intros lp. split; [intros [ix Hix]; by apply (F1 lp ix)|]. intros Hlp. apply F2. by right.
Qed.

(** ** Constraints *)

(** What a constraint promises of a set of records. *)
Definition tuple_unique (ns : gmap N Node) (lp : string * list string) : Prop :=
  forall i j n m k, ns !! i = Some n -> ns !! j = Some m ->
    ukey lp n = Some k -> ukey lp m = Some k -> i = j.

Definition has_required (n : Node) (lp : string * list string) : Prop :=
  has_label n lp.1 = true -> forall p, p ∈ lp.2 -> is_Some (unique_key n p).

Definition constraint_holds (ns : gmap N Node) (c : Constraint) : Prop :=
  (forall lp, unique_tuple c = Some lp -> tuple_unique ns lp) /\
  (forall lp, required_tuple c = Some lp -> forall i n, ns !! i = Some n -> has_required n lp).

Definition unique_hold (g : Inner) : Prop :=
  forall lp, lp ∈ needed_tuples (constraints g) -> tuple_unique (nodes g) lp.

Definition constraints_hold (g : Inner) : Prop :=
  forall c, c ∈ constraints g -> constraint_holds (nodes g) c.

(** No node but [n] itself has [n]'s key under a declared tuple. *)
Definition no_clash (g : Inner) (n : Node) : Prop :=
  forall lp k i m, lp ∈ needed_tuples (constraints g) -> ukey lp n = Some k ->
    nodes g !! i = Some m -> ukey lp m = Some k -> i = n_id n.

Lemma check_unique_in_ok n l : check_unique_in n l = Ok tt <->
  forall lp values k i, (lp, values) ∈ l -> ukey lp n = Some k -> i ∈ default ∅ (values !! k) ->
    i = n_id n.
Proof.
  induction l as [|[[label ps] values] l IH]; simpl.
  { split; [|done]. by intros _ ? ? ? ? ?%not_elem_of_nil. }
  assert (forall (P : Prop), (forall k i, ukey (label, ps) n = Some k ->
      i ∈ default ∅ (values !! k) -> i = n_id n) ->
    (check_unique_in n l = Ok tt <-> forall lp values' k i, (lp, values') ∈ ((label, ps), values) :: l ->
      ukey lp n = Some k -> i ∈ default ∅ (values' !! k) -> i = n_id n)) as Hskip.
  { intros _ Hhd. rewrite IH. split; [|intros Hall; intros; eapply Hall; [by right|done|done]].
    intros Hall lp v k i [Hin|Hin]%elem_of_cons; [injection Hin as -> ->; by apply Hhd|].
    by apply Hall. }
  unfold ukey in Hskip at 1. simpl in Hskip.
  destruct (has_label n label) eqn:El; cbn [negb]; [|by apply (Hskip True)].
  destruct (tuple_key n ps) as [key|] eqn:Ek; [|by apply (Hskip True)].
  destruct (filter (fun other => other <> n_id n) (from_option ascending [] (values !! key)))
    as [|other rest] eqn:Ef.
  - apply (Hskip True). intros k i [= <-] Hi.
    destruct (decide (i = n_id n)) as [|Hne]; [done|].
    assert (i ∈ filter (fun other => other <> n_id n) (from_option ascending [] (values !! key)))
      as Hbad; [|rewrite Ef in Hbad; by apply not_elem_of_nil in Hbad].
    apply list_elem_of_filter. split; [done|]. destruct (values !! key); simpl in *; [|set_solver].
    by apply elem_of_ascending.
  - split; [done|]. intros Hall. exfalso.
    assert (other ∈ filter (fun other => other <> n_id n) (from_option ascending [] (values !! key)))
      as Hin by (rewrite Ef; by left).
    apply list_elem_of_filter in Hin as [Hne Hin]. apply Hne.
    apply (Hall (label, ps) values key); [by left|unfold ukey; simpl; by rewrite El|].
    destruct (values !! key); simpl in *; [by apply elem_of_ascending|by apply not_elem_of_nil in Hin].
Qed.

Lemma check_unique_ok g n : g_nodes_wf g -> check_unique g n = Ok tt <-> no_clash g n.
Proof.
  intros W. unfold check_unique. rewrite check_unique_in_ok. unfold no_clash.
  setoid_rewrite elem_of_map_to_list. split.
  - intros Hall lp k i m Hlp Hk Hm Hkm.
    apply (wf_unique_dom _ _ _ _ _ W) in Hlp as [ix Hix].
    apply (Hall lp ix k); [done|done|]. apply (wf_unique _ _ _ _ _ W lp ix Hix). eauto.
  - intros Hall lp ix k i Hix Hk Hi.
    apply (wf_unique _ _ _ _ _ W lp ix Hix) in Hi as (m & Hm & Hkm).
    eapply Hall; [|done|done|done]. apply (wf_unique_dom _ _ _ _ _ W). eauto.
Qed.
End indexes.

Section validation.
Context `{JsonText}.

Lemma has_required_iff n lp : has_required n lp <->
  (has_label n lp.1 = true -> filter (fun p => unique_key n p = None) lp.2 = []).
Proof.
  unfold has_required. split; intros Hr Hl; specialize (Hr Hl).
  - destruct (filter _ lp.2) as [|p rest] eqn:Ef; [done|].
    assert (p ∈ filter (fun p => unique_key n p = None) lp.2) as Hin by (rewrite Ef; by left).
    apply list_elem_of_filter in Hin as [Hn Hp]. apply Hr in Hp as [k Hk]. congruence.
  - intros p Hp. destruct (unique_key n p) as [k|] eqn:Ek; [done|].
    assert (p ∈ filter (fun p => unique_key n p = None) lp.2) as Hin by by apply list_elem_of_filter.
    rewrite Hr in Hin. by apply not_elem_of_nil in Hin.
Qed.

Lemma check_exists_in_ok n cs : check_exists_in n cs = Ok tt <->
  forall c lp, c ∈ cs -> required_tuple c = Some lp -> has_required n lp.
Proof.
  induction cs as [|c cs IH]; simpl.
  { split; [|done]. by intros _ ? ? ?%not_elem_of_nil. }
  assert ((forall lp, required_tuple c = Some lp -> has_required n lp) ->
    (check_exists_in n cs = Ok tt <-> forall c' lp, c' ∈ c :: cs -> required_tuple c' = Some lp ->
      has_required n lp)) as Hskip.
  { intros Hc. rewrite IH. split; [|intros Hall; intros; eapply Hall; [by right|done]].
    intros Hall c' lp [->|Hin]%elem_of_cons Hlp; eauto. }
  destruct (required_tuple c) as [[kind required]|] eqn:Er; [|by apply Hskip].
  destruct (has_label n kind) eqn:El; cbn [negb].
  - destruct (filter (fun p => unique_key n p = None) required) as [|missing rest] eqn:Ef.
    + apply Hskip. intros lp [= <-]. by apply has_required_iff.
    + split; [done|]. intros Hall. exfalso.
      specialize (Hall c (kind, required) ltac:(by left) Er). rewrite has_required_iff in Hall.
      specialize (Hall El). simpl in Hall. by rewrite Ef in Hall.
  - apply Hskip. intros lp [= <-]. unfold has_required. simpl. by rewrite El.
Qed.

Lemma check_exists_all_ok g ns : check_exists_all g ns = Ok tt <->
  forall n, n ∈ ns -> check_exists g n = Ok tt.
Proof.
  induction ns as [|n ns IH]; simpl.
  { split; [|done]. by intros _ ? ?%not_elem_of_nil. }
  destruct (check_exists g n) as [[]|v] eqn:E; simpl.
  - rewrite IH. split; [|intros Hall m Hm; apply Hall; by right].
    intros Hall m [->|Hm]%elem_of_cons; auto.
  - split; [done|]. intros Hall. specialize (Hall n ltac:(by left)). congruence.
Qed.

Lemma scan_duplicates_ok kind ps seen ns : scan_duplicates kind ps seen ns = Ok tt <->
  NoDup (omap (ukey (kind, ps)) ns) /\ forall k, k ∈ omap (ukey (kind, ps)) ns -> k ∉ seen.
Proof.
  revert seen. induction ns as [|n ns IH]; intros seen; simpl.
  { split; [|done]. intros _. split; [constructor|]. by intros k ?%not_elem_of_nil. }
  assert (ukey (kind, ps) n = if has_label n kind then tuple_key n ps else None) as -> by done.
  destruct (has_label n kind); cbn [negb]; [|apply IH].
  destruct (tuple_key n ps) as [key|]; [|apply IH].
  case_bool_decide as Hseen.
  - split; [done|]. intros [_ Hall]. exfalso. apply (Hall key); [by left|done].
  - rewrite IH, NoDup_cons. split.
    + intros [Hnd Hns]. split_and!; [|done|].
      * intros Hin. apply Hns in Hin. set_solver.
      * intros k [->|Hk]%elem_of_cons; [done|]. apply Hns in Hk. set_solver.
    + intros [[Hk Hnd] Hns]. split; [done|]. intros k Hin.
      assert (k <> key) by (intros ->; done). specialize (Hns k ltac:(by right)). set_solver.
Qed.

Lemma NoDup_omap_values {A} (f : A -> option string) (l : list (N * A)) : NoDup l.*1 ->
  NoDup (omap f l.*2) <->
  forall i j x y k, (i, x) ∈ l -> (j, y) ∈ l -> f x = Some k -> f y = Some k -> i = j.
Proof.
  induction l as [|[i x] l IH]; simpl.
  { split; [|constructor]. by intros _ ? ? ? ? ? ?%not_elem_of_nil. }
  intros [Hi Hnd]%NoDup_cons. specialize (IH Hnd). destruct (f x) as [k|] eqn:Ex.
  - rewrite NoDup_cons, IH, list_elem_of_omap. split.
    + intros [Hk Hall] a b y z k' [Ha|Ha]%elem_of_cons [Hb|Hb]%elem_of_cons Hy Hz; simplify_eq; eauto.
      * exfalso. apply Hk. exists z. split; [apply list_elem_of_fmap; by exists (b, z)|congruence].
      * exfalso. apply Hk. exists y. split; [apply list_elem_of_fmap; by exists (a, y)|congruence].
    + intros Hall. split; [|intros; eapply Hall; [by right|by right|done|done]].
      intros (y & Hy & Hfy). apply list_elem_of_fmap in Hy as ([j z] & -> & Hj).
      apply Hi. assert (i = j) as ->
        by (eapply Hall; [by left|by right|done|done]).
      apply list_elem_of_fmap. by exists (j, z).
  - rewrite IH. split; [|intros Hall; intros; eapply Hall; [by right|by right|done|done]].
    intros Hall a b y z k' [Ha|Ha]%elem_of_cons [Hb|Hb]%elem_of_cons Hy Hz; simplify_eq; eauto.
Qed.

Lemma scan_nodes_ok g lp : scan_duplicates lp.1 lp.2 ∅ (map_to_list (nodes g)).*2 = Ok tt <->
  tuple_unique (nodes g) lp.
Proof.
  rewrite scan_duplicates_ok, <- surjective_pairing.
  rewrite NoDup_omap_values by apply NoDup_fst_map_to_list. unfold tuple_unique.
  setoid_rewrite elem_of_map_to_list. split; [naive_solver|]. intros Hall. split; [naive_solver|].
  intros k _. set_solver.
Qed.

Lemma scan_constraints_ok g cs : scan_constraints g cs = Ok tt <->
  forall c lp, c ∈ cs -> unique_tuple c = Some lp -> tuple_unique (nodes g) lp.
Proof.
  induction cs as [|c cs IH]; simpl.
  { split; [|done]. by intros _ ? ? ?%not_elem_of_nil. }
  destruct (unique_tuple c) as [[kind ps]|] eqn:Eu.
  - pose proof (scan_nodes_ok g (kind, ps)) as Hs. simpl in Hs.
    destruct (scan_duplicates kind ps ∅ (map_to_list (nodes g)).*2) as [[]|v]; simpl.
    + rewrite IH. split; [|intros Hall; intros; eapply Hall; [by right|done]].
      intros Hall c' lp [->|Hin]%elem_of_cons Hlp; [|eauto]. simplify_eq. by apply Hs.
    + split; [done|]. intros Hall. destruct Hs as [_ Hs]. discriminate Hs.
      apply (Hall c); [by left|done].
  - rewrite IH. split; [|intros Hall; intros; eapply Hall; [by right|done]].
    intros Hall c' lp [->|Hin]%elem_of_cons Hlp; [congruence|eauto].
Qed.

Lemma validate_ok g : validate_constraints g = Ok tt <-> constraints_hold g.
Proof.
  unfold validate_constraints, constraints_hold, constraint_holds.
  pose proof (check_exists_all_ok g (map_to_list (nodes g)).*2) as He.
  pose proof (scan_constraints_ok g (constraints g)) as Hs. unfold check_exists in He.
  setoid_rewrite check_exists_in_ok in He.
  assert (forall n, n ∈ (map_to_list (nodes g)).*2 <-> exists i, nodes g !! i = Some n) as Hin.
  { intros n. rewrite list_elem_of_fmap. split.
    - intros ([i m] & -> & Hm%elem_of_map_to_list). by exists i.
    - intros [i Hi]. exists (i, n). split; [done|]. by apply elem_of_map_to_list. }
  setoid_rewrite Hin in He.
  destruct (check_exists_all g (map_to_list (nodes g)).*2) as [[]|v]; simpl.
  - rewrite Hs. split; [|naive_solver]. intros Hu c Hc. split; [intros lp; by apply Hu|].
    intros lp Hlp i n Hn. by eapply He; eauto.
  - split; [done|]. intros Hall. destruct He as [_ He]. discriminate He.
    intros n [i Hn] c lp Hc Hlp. by eapply Hall.
Qed.

(** *** Writes keep the constraints *)
Lemma has_required_set_updated_at t n lp : has_required (set_updated_at t n) lp <-> has_required n lp.
Proof. done. Qed.

Lemma tuple_unique_insert g n t lp : tuple_unique (nodes g) lp -> no_clash g n ->
  lp ∈ needed_tuples (constraints g) ->
  tuple_unique (<[n_id n := set_updated_at t n]> (nodes g)) lp.
Proof.
  intros Hu Hc Hlp i j a b k. rewrite !lookup_insert.
  repeat case_decide; subst; intros; simplify_eq; rewrite ?ukey_set_updated_at in *; eauto.
  symmetry. eauto.
Qed.

Lemma tuple_unique_subseteq ns ns' lp : ns' ⊆ ns -> tuple_unique ns lp -> tuple_unique ns' lp.
Proof.
  intros Hsub Hu i j a b k Ha Hb. apply (Hu i j a b k); by eapply lookup_weaken.
Qed.

(** What a live operation does to the records: some disappear, or one that
    passed the checks is stored. *)
Lemma run_op_nodes env require op st : live st -> room st.1 ->
  constraints (run_op env require op st).1.2 = constraints st.2 /\
  (nodes (run_op env require op st).1.2 ⊆ nodes st.2 \/
   exists n t, nodes (run_op env require op st).1.2 = <[n_id n := set_updated_at t n]> (nodes st.2) /\
     no_clash st.2 n /\ (require = true -> check_exists st.2 n = Ok tt)).
Proof.
  destruct st as [ids g]. intros ([W E] & _ & _) _. cbn [fst snd] in *.
  destruct op as [nn|id p|id|e|id p|id]; unfold run_op, on_inner.
  - destruct (create_node_cases env nn require ids g) as [[err ->]|(Hu & Hr & ->)]; cbn [fst snd];
      [by split; [|left]|]. split; [done|]. right. rewrite check_unique_ok in Hu by done.
    eexists _, (n_updated_at (into_node env nn (wrap_u64 (last_node ids + 1)))).
    split; [|by split]. done.
  - destruct (update_node_cases env id p require g)
      as [[err ->]|(old & n' & ts' & ks' & t & Ho & -> & Hu & Hr & _ & _ & _ & ->)]; cbn [fst snd];
      [by split; [|left]|]. split; [done|]. right. rewrite check_unique_ok in Hu by done.
    exists (apply_node_patch old p), t. split; [|by split].
    assert (n_id old = id) as <- by by apply (wf_node_ids _ _ _ _ _ W). done.
  - unfold delete_node. destruct (nodes g !! id) as [n|] eqn:Hn; cbn [fst snd]; [|by split; [|left]].
    split.
    + unfold drop_node. pose proof (remove_edges_nodes (a_edge <$> incident_entries g id Both) g) as Hs.
      remember (remove_edges _ g) as g1 eqn:Eg. clear Eg. cbn -[unique_del]. tauto.
    + left. apply map_subseteq_spec. intros i m Hm.
      destruct (drop_node_records id n g i E) as (Hi & _). rewrite Hi in Hm. by case_decide.
  - destruct (create_edge_cases env e ids g) as [[err ->]|(_ & _ & _ & ->)]; cbn [fst snd];
      [by split; [|left]|].
    destruct (store_edge_records (into_edge env e (wrap_u64 (last_edge ids + 1))) g 0)
      as (_ & -> & _ & _ & _ & ->). by split; [|left].
  - destruct (update_edge_frame id p g 0) as (Hn & _ & _ & _ & Hc & _).
    destruct (update_edge id p g) as [g' r]. cbn [fst snd] in *. rewrite Hn, Hc. by split; [|left].
  - unfold delete_edge. destruct (edges g !! id) as [e|]; cbn [fst snd]; [|by split; [|left]].
    destruct (remove_edge_nodes id g) as (-> & _ & _ & _ & -> & _). by split; [|left].
Qed.

Lemma run_op_unique env require op st : live st -> room st.1 -> unique_hold st.2 ->
  unique_hold (run_op env require op st).1.2.
Proof.
  intros Hl Hr Hu. destruct (run_op_nodes env require op st Hl Hr)
    as (Hc & [Hsub|(n & t & Hn & Hcl & _)]); intros lp; rewrite Hc; intros Hlp.
  - eapply tuple_unique_subseteq; [done|by apply Hu].
  - rewrite Hn. by apply tuple_unique_insert; [apply Hu| |].
Qed.

Lemma run_op_constraints env op st : live st -> room st.1 -> constraints_hold st.2 ->
  constraints_hold (run_op env true op st).1.2.
Proof.
  intros Hl Hr Hu. destruct (run_op_nodes env true op st Hl Hr)
    as (Hc & [Hsub|(n & t & Hn & Hcl & He)]); intros c; rewrite Hc; intros Hin;
    destruct (Hu c Hin) as [Hu1 Hu2]; split.
  - intros lp Hlp. eapply tuple_unique_subseteq; [done|by apply Hu1].
  - intros lp Hlp i m Hm. eapply Hu2; [done|]. by eapply lookup_weaken.
  - intros lp Hlp. rewrite Hn. apply tuple_unique_insert; [by apply Hu1|done|].
    apply list_elem_of_omap. eauto.
  - intros lp Hlp i m. rewrite Hn, lookup_insert. case_decide; [|by apply Hu2].
    intros [= <-]. apply has_required_set_updated_at.
    specialize (He eq_refl). unfold check_exists in He. rewrite check_exists_in_ok in He. by eapply He.
Qed.

(** The key of a tuple determines the key of every property in it. *)
Fixpoint no_separator (s : string) : Prop :=
  match s with EmptyString => True | String c s => c <> TUPLE_SEPARATOR /\ no_separator s end.

Lemma no_separator_split a b x y : no_separator a -> no_separator b ->
  a +:+ String TUPLE_SEPARATOR x = b +:+ String TUPLE_SEPARATOR y -> a = b /\ x = y.
Proof.
  revert b. induction a as [|c a IH]; intros [|d b] Ha Hb; simpl.
  - intros [= ->]. done.
  - intros [= <- _]. by destruct Hb.
  - intros [= -> _]. by destruct Ha.
  - intros [= -> Heq]. destruct Ha as [_ Ha], Hb as [_ Hb]. destruct (IH b Ha Hb Heq) as [-> ->]. done.
Qed.

Lemma unique_key_text n p k : unique_key n p = Some k -> exists v, k = json_text v.
Proof.
  unfold unique_key. destruct (n_properties n !! p) as [v|].
  - destruct v; intros [= <-]; eauto.
  - destruct (if bool_decide (p = "title") then _ else _) as [f|]; [|done].
    case_bool_decide; [done|]. intros [= <-]. eauto.
Qed.

Lemma append_nil_r (s : string) : s +:+ "" = s.
Proof. induction s as [|c s IH]; [done|]. exact (f_equal (String c) IH). Qed.

Lemma append_assoc (a b c : string) : (a +:+ b) +:+ c = a +:+ (b +:+ c).
Proof. induction a as [|x a IH]; [done|]. exact (f_equal (String x) IH). Qed.

Lemma tuple_key_from_false n ps k : tuple_key_from false n ps = Some k ->
  (ps = [] /\ k = "") \/ ps <> [] /\ exists r, k = String TUPLE_SEPARATOR r /\ tuple_key_from true n ps = Some r.
Proof.
  destruct ps as [|p ps]; simpl; [intros [= <-]; by left|].
  destruct (unique_key n p) as [a|]; [|done]. simpl.
  destruct (tuple_key_from false n ps) as [b|]; [|done]. simpl. intros [= <-]. right. split; [done|]. eauto.
Qed.

Lemma tuple_key_inj_lemma n m ps k : (forall v, no_separator (json_text v)) ->
  tuple_key n ps = Some k -> tuple_key m ps = Some k ->
  forall p, p ∈ ps -> unique_key n p = unique_key m p.
Proof.
  intros Hsep. unfold tuple_key. revert k.
  induction ps as [|p ps IH]; intros k Hn Hm; [by intros ? ?%not_elem_of_nil|]. simpl in Hn, Hm.
  destruct (unique_key n p) as [a|] eqn:En; [|done]. simpl in Hn.
  destruct (unique_key m p) as [b|] eqn:Em; [|done]. simpl in Hm.
  destruct (unique_key_text _ _ _ En) as [va Ha], (unique_key_text _ _ _ Em) as [vb Hb].
  pose proof (Hsep va) as Sa. pose proof (Hsep vb) as Sb. rewrite <- Ha in Sa. rewrite <- Hb in Sb.
  destruct (tuple_key_from false n ps) as [x|] eqn:Ex; [|done]. injection Hn as <-.
  destruct (tuple_key_from false m ps) as [y|] eqn:Ey; [|done]. injection Hm as Heq.
  apply tuple_key_from_false in Ex, Ey.
  destruct Ex as [[-> ->]|(Hps & r & -> & Hr)], Ey as [[? ->]|(Hps' & s & -> & Hs)]; try done.
  - rewrite !append_nil_r in Heq. change (b = a) in Heq. intros q [->|?%not_elem_of_nil]%elem_of_cons; [congruence|done].
  - symmetry in Heq. apply no_separator_split in Heq as [Hab ->]; [|done|done].
    intros q [->|Hq]%elem_of_cons; [congruence|]. by eapply IH.
Qed.
End validation.

(** ** Sequences of operations *)
Section sequences.
Context `{JsonText}.

Definition run_ops (l : list (Env * bool * GraphOp)) (st : GState) : GState :=
  foldl (fun st '(env, require, op) => (run_op env require op st).1) st l.

Lemma intern_kind_size k g :
  (size (kind_ids (intern_kind k g).1) <= S (size (kind_ids g)))%nat.
Proof.
  unfold intern_kind. destruct (kind_ids g !! k) eqn:E; simpl; [lia|].
  by rewrite map_size_insert_None.
Qed.

Lemma run_op_steps env require op st : room st.1 ->
  last_node (run_op env require op st).1.1 <= last_node st.1 + 1 /\
  last_edge (run_op env require op st).1.1 <= last_edge st.1 + 1 /\
  (size (kind_ids (run_op env require op st).1.2) <= S (size (kind_ids st.2)))%nat.
Proof.
  destruct st as [ids g]. intros [R1 R2]. cbn [fst snd] in *.
  destruct op as [nn|id p|id|e|id p|id]; unfold run_op, on_inner.
  - destruct (create_node_cases env nn require ids g) as [[err ->]|(_ & _ & ->)]; cbn;
      rewrite wrap_room by done; lia.
  - destruct (update_node_cases env id p require g)
      as [[err ->]|(? & ? & ? & ? & ? & ? & ? & ? & ? & ? & ? & ? & ->)]; cbn; lia.
  - unfold delete_node. destruct (nodes g !! id) as [n|]; cbn [fst snd]; [rewrite drop_node_kinds|]; lia.
  - destruct (create_edge_cases env e ids g) as [[err ->]|(_ & _ & _ & ->)]; cbn [fst snd]; [lia|].
    cbn [last_node last_edge]. rewrite wrap_room by done. split_and!; [lia|lia|].
    unfold store_edge, link_edge. set (e' := into_edge _ _ _).
    pose proof (intern_kind_size (e_kind e') g). destruct (intern_kind (e_kind e') g). done.
  - destruct (update_edge_cases id p g)
      as [[err ->]|(old & e' & _ & _ & _ & _ & _ & _ & _ & ->)]; cbn [fst snd]; [lia|].
    split_and!; [lia|lia|]. destruct (ep_kind p); [|cbn; lia].
    pose proof (intern_kind_size (e_kind e') g). destruct (intern_kind (e_kind e') g). done.
  - unfold delete_edge. destruct (edges g !! id); cbn [fst snd]; [|lia].
    destruct (remove_edge_nodes id g) as (_ & _ & _ & _ & _ & -> & _). lia.
Qed.

(** There is room for [k] more operations. *)
Definition room_for (k : nat) (st : GState) : Prop :=
  last_node st.1 + N.of_nat k < 2 ^ 64 /\ last_edge st.1 + N.of_nat k < 2 ^ 64 /\
  N.of_nat (size (kind_ids st.2) + k) <= 2 ^ 32.

Lemma run_ops_ind (P : GState -> Prop) l st : live st -> room_for (length l) st -> P st ->
  (forall env require op s, (env, require, op) ∈ l -> live s -> room s.1 -> P s ->
     P (run_op env require op s).1) ->
  live (run_ops l st) /\ P (run_ops l st).
Proof.
  revert st. induction l as [|[[env require] op] l IH]; intros st Hl (R1 & R2 & R3) HP Hstep; [done|].
  cbn [length] in *. assert (room st.1) as Hr by (split; lia).
  destruct (run_op_steps env require op st Hr) as (S1 & S2 & S3).
  apply (IH (run_op env require op st).1).
  - apply run_op_live; [done|done|]. unfold kinds_fit. lia.
  - unfold room_for. split_and!; lia.
  - apply Hstep; [by left|done..].
  - intros env' require' op' s Hin. apply Hstep. by right.
Qed.

Lemma run_op_error env require op st st' e : run_op env require op st = (st', Err e) ->
  st'.2 = st.2 /\ last_edge st'.1 = last_edge st.1 /\
  (st'.1 = st.1 \/ last_node st'.1 = wrap_u64 (last_node st.1 + 1)).
Proof.
  destruct st as [ids g]. destruct op as [nn|id p|id|ne|id p|id]; unfold run_op, on_inner.
  - destruct (create_node_cases env nn require ids g) as [[err ->]|(_ & _ & ->)]; intros [= <- <-].
    by split_and!; [| |right].
  - destruct (update_node_cases env id p require g)
      as [[err ->]|(? & ? & ? & ? & ? & ? & ? & ? & ? & ? & ? & ? & ->)]; intros [= <- <-].
    by split_and!; [| |left].
  - unfold delete_node. destruct (nodes g !! id) as [n|]; intros [= <- <-]. by split_and!; [| |left].
  - destruct (create_edge_cases env ne ids g) as [[err ->]|(_ & _ & _ & ->)]; intros [= <- <-].
    by split_and!; [| |left].
  - destruct (update_edge_cases id p g) as [[err ->]|(old & e' & _ & _ & _ & _ & _ & _ & _ & ->)];
      intros [= <- <-]. by split_and!; [| |left].
  - unfold delete_edge. destruct (edges g !! id); intros [= <- <-]. by split_and!; [| |left].
Qed.
End sequences.

(** ** A concrete graph *)
Module Sample.
Fixpoint escape (s : string) : string :=
  match s with
  | EmptyString => ""
  | String c s => if bool_decide (c = TUPLE_SEPARATOR) then "\u001f" +:+ escape s else String c (escape s)
  end.

Definition text : JsonText := fun v =>
  match v with
  | JNull => "null"
  | JBool b => if b then "true" else "false"
  | JNumber t => escape t
  | JString s => "'" +:+ escape s +:+ "'"
  | JArray _ => "[]"
  | JObject _ => "{}"
  end.

Lemma no_separator_app a b : no_separator a -> no_separator b -> no_separator (a +:+ b).
Proof. induction a as [|c a IH]; [done|]. intros [Hc Ha] Hb. split; [done|]. by apply IH. Qed.

Lemma no_separator_escape s : no_separator (escape s).
Proof.
  induction s as [|c s IH]; [done|]. cbn [escape]. case_bool_decide; [|done].
  apply no_separator_app; [|done]. repeat split; done.
Qed.

Lemma no_separator_text v : no_separator (text v).
Proof.
  destruct v as [|[]|t|s| |]; try (repeat split; done); [apply no_separator_escape|].
  apply no_separator_app; [by split|]. apply no_separator_app; [apply no_separator_escape|by split].
Qed.

Definition env : Env := mkEnv 5 7.
Definition person (title : string) : GraphOp := DoCreateNode (mkNewNode "Person" title "" "" ∅).
Definition knows (a b : N) : GraphOp := DoCreateEdge (mkNewEdge a b "KNOWS" (mkF32 0) ∅).

(** ann knows bob, bob knows ann twice. *)
Definition script : list (Env * bool * GraphOp) :=
  (fun op => (env, true, op)) <$>
    [person "ann"; person "bob"; knows 1 2; knows 2 1; knows 2 1].

#[local] Existing Instance text.

Definition keyed : GState :=
  (ids_default, sync_unique (with_constraints [NodeKey "Person" ["title"]] ∅ inner_default)).

Lemma keyed_eq : keyed = (ids_default,
  with_constraints [NodeKey "Person" ["title"]] {[ ("Person", ["title"]) := ∅ ]} inner_default).
Proof. vm_compute. reflexivity. Qed.

Lemma keyed_live : live keyed.
Proof.
  rewrite keyed_eq. split; [split|split].
  - unfold g_nodes_wf. cbn. split; try (intros *; rewrite ?lookup_empty; done);
      try apply index_ok_empty.
    + intros lp ix. destruct (decide (lp = ("Person", ["title"]))) as [->|Hne].
      * rewrite lookup_singleton_eq. intros [= <-]. apply index_ok_empty.
      * by rewrite lookup_singleton_ne.
    + intros lp. change (needed_tuples _) with [("Person", ["title"])].
      rewrite list_elem_of_singleton. destruct (decide (lp = ("Person", ["title"]))) as [->|Hne].
      * rewrite lookup_singleton_eq. split; eauto.
      * rewrite lookup_singleton_ne by done. split; [by intros [? ?]|done].
  - apply edges_wf_empty.
  - intros i e. cbn. by rewrite lookup_empty.
  - split; intros i [x Hx]; cbn in Hx; by rewrite lookup_empty in Hx.
Qed.

Lemma keyed_room : room_for (length script) keyed.
Proof. split_and!; vm_compute; congruence. Qed.

Lemma keyed_holds : constraints_hold keyed.2.
Proof.
  intros c Hc. split.
  - intros lp _ i j n m k Hi. vm_compute in Hi. done.
  - intros lp _ i n Hi. vm_compute in Hi. done.
Qed.

Definition graph : GState := run_ops script keyed.

Lemma graph_live : live graph.
Proof. apply (run_ops_ind (fun _ => True) script keyed keyed_live keyed_room I). done. Qed.
End Sample.

(** ** The properties *)
Section claims.
Context `{JsonText}.

(** C25: From any well-formed state -- in particular the empty graph -- every
    sequence of create, update and delete operations, failed ones included,
    leaves a well-formed state: each title, kind and uniqueness lookup and both
    adjacency lists hold exactly what the records determine, in key order, no
    edge dangles, and the counters are past every id; as long as the counters
    and the 32-bit kind ids have room for that many operations. *)
Theorem operations_preserve_invariant l st : live st -> room_for (length l) st ->
  live (run_ops l st).
Proof. intros Hl Hr. by apply (run_ops_ind (fun _ => True)). Qed.

(** A failed operation changes nothing of the graph: whatever the error, the
    state left behind is the state before; at most one node id is consumed. *)
Theorem failed_operation_changes_nothing env require op st st' e :
  run_op env require op st = (st', Err e) ->
  st'.2 = st.2 /\ last_edge st'.1 = last_edge st.1 /\
  (st'.1 = st.1 \/ last_node st'.1 = wrap_u64 (last_node st.1 + 1)).
Proof. apply run_op_error. Qed.

(** [validate_constraints] accepts a graph exactly when every declared
    constraint holds of its records: no two nodes share a key under a uniqueness
    constraint, and every node of the label has every required property. *)
Theorem validation_exact g : validate_constraints g = Ok tt <-> constraints_hold g.
Proof. apply validate_ok. Qed.

(** C26: Every sequence of operations keeps the declared uniqueness constraints,
    and, when existence is checked at once (outside transactions), all the
    constraints. *)
Theorem operations_keep_constraints l st : live st -> room_for (length l) st ->
  (unique_hold st.2 -> unique_hold (run_ops l st).2) /\
  ((forall x, x ∈ l -> x.1.2 = true) -> constraints_hold st.2 -> constraints_hold (run_ops l st).2).
Proof.
  intros Hl Hr. split.
  - intros Hu. apply (run_ops_ind (fun s => unique_hold s.2)); [done..|].
    intros env require op s _. apply run_op_unique.
  - intros Hreq Hc. apply (run_ops_ind (fun s => constraints_hold s.2)); [done..|].
    intros env require op s Hin. apply Hreq in Hin. simpl in Hin. subst. apply run_op_constraints.
Qed.

(** Two nodes with the same key under a tuple of properties agree on the key
    of each property of it, so a reported clash is a real one: the separator
    cannot occur in printed JSON, which escapes control characters. *)
Theorem tuple_key_injective n m ps k : (forall v, no_separator (json_text v)) ->
  tuple_key n ps = Some k -> tuple_key m ps = Some k ->
  forall p, p ∈ ps -> unique_key n p = unique_key m p.
Proof. apply tuple_key_inj_lemma. Qed.

(** Deleting a node removes it, its embedding and exactly the edges at it, in
    either direction; every other record stays. *)
Theorem delete_node_cascades id n g i : graph_wf g -> nodes g !! id = Some n ->
  let g' := (delete_node id g).1 in
  (delete_node id g).2 = Ok tt /\
  nodes g' !! i = (if decide (id = i) then None else nodes g !! i) /\
  edges g' !! i = (e ← edges g !! i; if decide (e_from e = id \/ e_to e = id) then None else Some e) /\
  embeddings g' !! i = (if decide (id = i) then None else embeddings g !! i).
Proof.
  intros [W E] Hn. unfold delete_node. rewrite Hn. cbv zeta. cbn [fst snd].
  destruct (drop_node_records id n g i E) as (-> & -> & ->). by rewrite lookup_delete.
Qed.

(** [neighbor_ids] answers each other node at the far end of an edge in the
    asked direction and of the asked kind once, and nothing else. *)
Theorem neighbor_ids_exact g x d kind : graph_wf g ->
  NoDup (neighbor_ids g x d kind) /\
  forall y, y ∈ neighbor_ids g x d kind <->
    y <> x /\ exists i e, edges g !! i = Some e /\ leads d x y e /\ of_kind kind e.
Proof. intros [_ E]. by apply neighbor_ids_elem. Qed.

(** Title lookups answer from the records: the single lookup is the node of
    the least id with that title, and the list is all of them by ascending id. *)
Theorem title_lookups_exact g title : graph_wf g ->
  (forall n, n ∈ nodes_by_title g title <-> nodes g !! n_id n = Some n /\ n_title n = title) /\
  StronglySorted N.lt (n_id <$> nodes_by_title g title) /\
  get_node_by_title g title = head (nodes_by_title g title).
Proof.
  intros [W _]. pose proof (wf_titles _ _ _ _ _ W) as T.
  assert (forall id, id ∈ from_option ascending [] (titles g !! title) <->
    exists n, nodes g !! id = Some n /\ n_title n = title) as Hel.
  { intros id. destruct (titles g !! title) as [s|] eqn:Et; simpl.
    - rewrite elem_of_ascending, (bucket_elem _ _ _ _ _ _ T Et). naive_solver.
    - split; [by intros ?%not_elem_of_nil|]. intros (n & Hn & Ht).
      destruct (bucket_none _ _ _ _ _ _ T Et Hn). congruence. }
  unfold nodes_by_title, get_node_by_title. split_and!.
  - intros n. rewrite elem_of_lookups. split.
    + intros (id & Hid & Hn). pose proof (wf_node_ids _ _ _ _ _ W _ _ Hn) as <-. split; [done|].
      apply Hel in Hid as (m & Hm & Ht). congruence.
    + intros [Hn Ht]. exists (n_id n). split; [|done]. apply Hel. eauto.
  - apply lookups_sorted; [apply (wf_node_ids _ _ _ _ _ W)| |];
      destruct (titles g !! title); simpl; [apply NoDup_ascending|constructor|apply sorted_ascending|constructor].
  - destruct (titles g !! title) as [s|] eqn:Et; [|done]. simpl in *.
    destruct (ascending s) as [|id l]; [done|]. simpl.
    destruct (proj1 (Hel id) ltac:(by left)) as (n & Hn & _). by rewrite Hn.
Qed.

(** A created node is the record asked for under an id no node had, beyond
    every id in use, stamped by the clock; it is what a read by that id returns
    afterwards, and no other record changes. *)
Theorem created_node_is_fresh env nn require ids g st' n : live (ids, g) -> room ids ->
  create_node_checked env nn require (ids, g) = (st', Ok n) ->
  n = into_node env nn (last_node ids + 1) /\ nodes g !! n_id n = None /\
  (forall i, is_Some (nodes g !! i) -> i < n_id n) /\
  nodes st'.2 = <[n_id n := n]> (nodes g) /\ edges st'.2 = edges g.
Proof.
  intros (_ & _ & [C1 _]) [R1 _]. cbn [fst snd] in *.
  destruct (create_node_cases env nn require ids g) as [[e ->]|(_ & _ & ->)]; intros [= <- <-].
  rewrite wrap_room by done. split_and!; [done| | |done|done].
  - apply eq_None_not_Some. intros Hs%C1. simpl in Hs. lia.
  - intros i Hi%C1. simpl. lia.
Qed.
End claims.

(** ** The properties at the concrete graph *)
Section witnesses.
#[local] Existing Instance Sample.text.

Lemma operations_preserve_invariant_witness : live (run_ops Sample.script Sample.keyed).
Proof.
  exact (operations_preserve_invariant Sample.script Sample.keyed Sample.keyed_live Sample.keyed_room).
Defined.

(** A second "ann" is refused. *)
Lemma failed_operation_changes_nothing_witness :
  let r := run_op Sample.env true (Sample.person "ann") Sample.graph in
  r.1.2 = Sample.graph.2 /\ is_ok r.2 = false.
Proof.
  intros r. assert (exists e, r.2 = Err e) as [e He].
  { assert (is_ok r.2 = false) as Hf by (vm_compute; reflexivity). destruct r.2; [done|eauto]. }
  split; [|by rewrite He].
  refine (proj1 (failed_operation_changes_nothing Sample.env true (Sample.person "ann") Sample.graph
    r.1 e _)).
  unfold r in *. rewrite <- He. apply surjective_pairing.
Defined.

Lemma operations_keep_constraints_witness :
  constraints_hold (run_ops Sample.script Sample.keyed).2.
Proof.
  refine (proj2 (operations_keep_constraints Sample.script Sample.keyed Sample.keyed_live
    Sample.keyed_room) _ Sample.keyed_holds).
  intros x Hx. apply list_elem_of_fmap in Hx as (op & -> & _). reflexivity.
Defined.

Lemma tuple_key_injective_witness :
  let n := into_node Sample.env (mkNewNode "Person" "ann" "x" "" ∅) 1 in
  let m := into_node Sample.env (mkNewNode "City" "ann" "x" "" ∅) 2 in
  unique_key n "body" = unique_key m "body".
Proof.
  intros n m.
  apply (tuple_key_injective n m ["title"; "body"]
    ("'ann'" +:+ String TUPLE_SEPARATOR "'x'") Sample.no_separator_text);
    [vm_compute; reflexivity|vm_compute; reflexivity|by right; left].
Defined.

Lemma delete_node_cascades_witness :
  let g := (delete_node 1 Sample.graph.2).1 in
  nodes g !! 1 = None /\ edges g !! 2 = None.
Proof.
  destruct (nodes Sample.graph.2 !! 1) as [n|] eqn:Hn; [|vm_compute in Hn; discriminate Hn].
  intros g. split.
  - destruct (delete_node_cascades 1 n Sample.graph.2 1 (proj1 Sample.graph_live) Hn)
      as (_ & Hnode & _). exact Hnode.
  - destruct (delete_node_cascades 1 n Sample.graph.2 2 (proj1 Sample.graph_live) Hn)
      as (_ & _ & Hedge & _). fold g in Hedge. rewrite Hedge. vm_compute. reflexivity.
Defined.

Lemma neighbor_ids_exact_witness :
  neighbor_ids Sample.graph.2 1 Both (Some "KNOWS") = [2] /\
  NoDup (neighbor_ids Sample.graph.2 1 Both (Some "KNOWS")).
Proof.
  split; [vm_compute; reflexivity|].
  exact (proj1 (neighbor_ids_exact Sample.graph.2 1 Both (Some "KNOWS") (proj1 Sample.graph_live))).
Defined.

Lemma title_lookups_exact_witness :
  get_node_by_title Sample.graph.2 "bob" = head (nodes_by_title Sample.graph.2 "bob") /\
  n_id <$> nodes_by_title Sample.graph.2 "bob" = [2].
Proof.
  split; [|vm_compute; reflexivity].
  exact (proj2 (proj2 (title_lookups_exact Sample.graph.2 "bob" (proj1 Sample.graph_live)))).
Defined.

Lemma created_node_is_fresh_witness :
  let r := create_node_checked Sample.env (mkNewNode "Person" "cid" "" "" ∅) true Sample.graph in
  exists n, r.2 = Ok n /\ n_id n = 3 /\ nodes Sample.graph.2 !! n_id n = None.
Proof.
  intros r. assert (exists n, r.2 = Ok n) as [n Hn].
  { assert (is_ok r.2 = true) as Hf by (vm_compute; reflexivity). destruct r.2; [eauto|done]. }
  exists n. split; [done|].
  destruct (created_node_is_fresh Sample.env (mkNewNode "Person" "cid" "" "" ∅) true Sample.graph.1
    Sample.graph.2 r.1 n) as (-> & Hfree & _).
  - rewrite <- surjective_pairing. exact Sample.graph_live.
  - split; vm_compute; reflexivity.
  - unfold r in *. rewrite <- surjective_pairing, <- Hn. apply surjective_pairing.
  - split; [vm_compute; reflexivity|exact Hfree].
Defined.
End witnesses.
