(* ===== verification/NativeRecovery.v ===== *)
(** * Recovery: replaying the log
    ([Inner::to_wal_ops], [Inner::apply_wal_op], [NativeGraph::replay])

    Replay ends on every log, leaves a well-formed graph, applies a prepared
    transaction where it is resolved, and rebuilds from the compacted form of a
    graph the graph itself. *)
From S2P Require Import Prelude NativeModel Native NativeInv NativeOps NativeSpec.
Local Open Scope string_scope.
Local Open Scope list_scope.
Local Open Scope N_scope.

Section replay.
Context `{JsonText}.

Lemma apply_delete_node id st : apply_wal_op (DeleteNode id) st =
  match nodes st.2 !! id with Some n => (st.1, drop_node id n st.2) | None => st end.
Proof.
  apply (apply_wal_op_eq _ _ _ 1). destruct st as [ids g]. cbn [apply_wal_op_fuel fst snd].
  by destruct (nodes g !! id).
Qed.
Lemma apply_delete_edge id st : apply_wal_op (DeleteEdge id) st = (st.1, remove_edge id st.2).
Proof. apply (apply_wal_op_eq _ _ _ 1). by destruct st. Qed.
Lemma apply_delete_embedding id st :
  apply_wal_op (DeleteEmbedding id) st = (st.1, with_embeddings (delete id (embeddings st.2)) st.2).
Proof. apply (apply_wal_op_eq _ _ _ 1). by destruct st. Qed.

Lemma apply_wal_ops_app a b st : apply_wal_ops (a ++ b) st = apply_wal_ops b (apply_wal_ops a st).
Proof. apply foldl_app. Qed.

Lemma apply_wal_ops_cons op l st : apply_wal_ops (op :: l) st = apply_wal_ops l (apply_wal_op op st).
Proof. done. Qed.

(** ** Segments of the compacted form *)
Definition frame_nodes (g g' : Inner) : Prop :=
  edges g' = edges g /\ kind_ids g' = kind_ids g /\ embeddings g' = embeddings g /\
  prepared g' = prepared g /\ heuristic g' = heuristic g.

Lemma upsert_node_frame n st : frame_nodes st.2 (upsert_node n st).2.
Proof. destruct st as [ids g]. unfold upsert_node. by destruct (nodes g !! n_id n). Qed.

Lemma replay_nodes l st : (forall n m, n ∈ l -> m ∈ l -> n_id n = n_id m -> n = m) ->
  let g := (apply_wal_ops (UpsertNode <$> l) st).2 in
  frame_nodes st.2 g /\ (forall n, n ∈ l -> nodes g !! n_id n = Some n) /\
  (forall i, (forall n, n ∈ l -> n_id n <> i) -> nodes g !! i = nodes st.2 !! i).
Proof.
  revert st. induction l as [|n l IH]; intros st Hinj g.
  { split_and!; [done| |done]. by intros n ?%not_elem_of_nil. }
  unfold g. clear g. rewrite fmap_cons, apply_wal_ops_cons, apply_upsert_node.
  destruct (IH (upsert_node n st)) as (F & Hin & Hout).
  { intros a b Ha Hb. apply Hinj; by right. }
  pose proof (upsert_node_frame n st) as F1. split_and!.
  - unfold frame_nodes in *. destruct F as (-> & -> & -> & -> & ->). done.
  - intros m [->|Hm]%elem_of_cons; [|by apply Hin].
    destruct (decide (n_id n ∈ n_id <$> l)) as [(m & Heq & Hm)%list_elem_of_fmap|Hn].
    { rewrite Heq, (Hin m Hm). f_equal. symmetry. apply Hinj; [by left|by right|done]. }
    rewrite Hout.
    + destruct (upsert_node_records n st (n_id n)) as (-> & _). by rewrite decide_True.
    + intros m Hm Heq. apply Hn, list_elem_of_fmap. eauto.
  - intros i Hi. rewrite Hout by (intros m Hm; apply Hi; by right).
    destruct (upsert_node_records n st i) as (-> & _). rewrite decide_False; [done|].
    apply Hi. by left.
Qed.

Definition frame_edges (g g' : Inner) : Prop :=
  nodes g' = nodes g /\ embeddings g' = embeddings g /\
  prepared g' = prepared g /\ heuristic g' = heuristic g.

Lemma upsert_edge_frame e st : frame_edges st.2 (upsert_edge e st).2.
Proof.
  destruct st as [ids g]. unfold frame_edges, upsert_edge, link_edge, intern_kind, remove_edge.
  destruct (edges g !! e_id e); simpl; by destruct (kind_ids g !! e_kind e).
Qed.

Lemma upsert_edge_records e st i :
  edges (upsert_edge e st).2 !! i = (if decide (e_id e = i) then Some e else edges st.2 !! i) /\
  dom (kind_ids (upsert_edge e st).2) ⊆ {[ e_kind e ]} ∪ dom (kind_ids st.2).
Proof.
  rewrite upsert_edge_store.
  destruct (store_edge_records e (remove_edge (e_id e) st.2) i) as (-> & _).
  destruct (remove_edge_nodes (e_id e) st.2) as (_ & _ & _ & _ & _ & Hk & _ & ->).
  split; [rewrite lookup_delete; repeat case_decide; done|].
  remember (remove_edge (e_id e) st.2) as g eqn:Eg. clear Eg. rewrite <- Hk.
  unfold store_edge, link_edge, intern_kind. destruct (kind_ids g !! e_kind e); cbn; set_solver.
Qed.

Lemma replay_edges l st : (forall d e, d ∈ l -> e ∈ l -> e_id d = e_id e -> d = e) ->
  let g := (apply_wal_ops (UpsertEdge <$> l) st).2 in
  frame_edges st.2 g /\ (forall e, e ∈ l -> edges g !! e_id e = Some e) /\
  (forall i, (forall e, e ∈ l -> e_id e <> i) -> edges g !! i = edges st.2 !! i) /\
  dom (kind_ids g) ⊆ list_to_set (e_kind <$> l) ∪ dom (kind_ids st.2).
Proof.
  revert st. induction l as [|e l IH]; intros st Hinj g.
  { split_and!; [done| |done|set_solver]. by intros n ?%not_elem_of_nil. }
  unfold g. clear g. rewrite fmap_cons, apply_wal_ops_cons, apply_upsert_edge.
  destruct (IH (upsert_edge e st)) as (F & Hin & Hout & Hk).
  { intros a b Ha Hb. apply Hinj; by right. }
  pose proof (upsert_edge_frame e st) as F1. split_and!.
  - unfold frame_edges in *. destruct F as (-> & -> & -> & ->). done.
  - intros m [->|Hm]%elem_of_cons; [|by apply Hin].
    destruct (decide (e_id e ∈ e_id <$> l)) as [(m & Heq & Hm)%list_elem_of_fmap|Hn].
    { rewrite Heq, (Hin m Hm). f_equal. symmetry. apply Hinj; [by left|by right|done]. }
    rewrite Hout.
    + destruct (upsert_edge_records e st (e_id e)) as (-> & _). by rewrite decide_True.
    + intros m Hm Heq. apply Hn, list_elem_of_fmap. eauto.
  - intros i Hi. rewrite Hout by (intros m Hm; apply Hi; by right).
    destruct (upsert_edge_records e st i) as (-> & _). rewrite decide_False; [done|].
    apply Hi. by left.
  - destruct (upsert_edge_records e st 0) as (_ & Hk1). clear -Hk Hk1. set_solver.
Qed.

Lemma replay_embeddings (em : gmap N (list F32)) l st :
  let st' := apply_wal_ops (omap (fun id => v ← em !! id; Some (SetEmbedding id v)) l) st in
  st' = (st.1, with_embeddings (embeddings st'.2) st.2) /\
  forall i, embeddings st'.2 !! i =
    if decide (i ∈ l /\ is_Some (em !! i)) then em !! i else embeddings st.2 !! i.
Proof.
  revert st. induction l as [|id l IH]; intros st st'.
  { split; [by destruct st as [? []]|]. intros i. rewrite decide_False; [done|].
    by intros [?%not_elem_of_nil _]. }
  unfold st'. clear st'. cbn [omap list_omap].
  destruct (em !! id) as [v|] eqn:Ev; cbn [mbind option_bind].
  - rewrite apply_wal_ops_cons, apply_set_embedding.
    destruct (IH (st.1, with_embeddings (<[id := v]> (embeddings st.2)) st.2)) as [He Hem].
    split; [by rewrite He|]. intros i. rewrite Hem. cbn [snd].
    change (embeddings (with_embeddings ?e _)) with e. rewrite lookup_insert.
    destruct (decide (id = i)) as [<-|Hne].
    + rewrite (decide_True (P := id ∈ id :: l /\ _)) by (split; [by left|eauto]).
      case_decide; [done|by rewrite Ev].
    + apply decide_ext. rewrite elem_of_cons. intuition congruence.
  - destruct (IH st) as [He Hem]. split; [done|]. intros i. rewrite Hem. apply decide_ext. rewrite elem_of_cons.
    split; [tauto|]. intros [[->|?] Hs]; [|done]. rewrite Ev in Hs. by destruct Hs.
Qed.

Lemma replay_prepared (pr : gmap string PreparedEntry) l st :
  let st' := apply_wal_ops (omap (fun gid => e ← pr !! gid;
    Some (Prepare gid (prepared_at_ms e) (prepared_ops e))) l) st in
  st' = (st.1, with_prepared (prepared st'.2) (heuristic st'.2) st.2) /\
  (forall i, prepared st'.2 !! i =
    if decide (i ∈ l /\ is_Some (pr !! i)) then pr !! i else prepared st.2 !! i) /\
  heuristic st'.2 ⊆ heuristic st.2.
Proof.
  revert st. induction l as [|id l IH]; intros st st'.
  { split_and!; [by destruct st as [? []]| |done]. intros i. rewrite decide_False; [done|].
    by intros [?%not_elem_of_nil _]. }
  unfold st'. clear st'. cbn [omap list_omap].
  destruct (pr !! id) as [v|] eqn:Ev; cbn [mbind option_bind].
  - rewrite apply_wal_ops_cons, apply_prepare.
    destruct (IH (st.1, with_prepared (<[id := mkPrepared (prepared_at_ms v) (prepared_ops v)]>
      (prepared st.2)) (heuristic st.2 ∖ {[id]}) st.2)) as (He & Hem & Hh).
    split_and!; [by rewrite He| |cbn in Hh; set_solver]. intros i. rewrite Hem. cbn [snd].
    change (prepared (with_prepared ?e _ _)) with e. rewrite lookup_insert.
    destruct (decide (id = i)) as [<-|Hne].
    + rewrite (decide_True (P := id ∈ id :: l /\ _)) by (split; [by left|eauto]).
      case_decide; [done|by rewrite Ev; destruct v].
    + apply decide_ext. rewrite elem_of_cons. intuition congruence.
  - destruct (IH st) as (He & Hem & Hh). split_and!; [done| |done]. intros i. rewrite Hem. apply decide_ext. rewrite elem_of_cons.
    split; [tauto|]. intros [[->|?] Hs]; [|done]. rewrite Ev in Hs. by destruct Hs.
Qed.

Lemma replay_heuristic l st :
  let st' := apply_wal_ops ((fun gid => RollbackPrepared gid true) <$> l) st in
  st' = (st.1, with_prepared (prepared st'.2) (heuristic st'.2) st.2) /\
  (forall i, prepared st'.2 !! i = if decide (i ∈ l) then None else prepared st.2 !! i) /\
  heuristic st'.2 = list_to_set l ∪ heuristic st.2.
Proof.
  revert st. induction l as [|id l IH]; intros st st'.
  { split_and!; [by destruct st as [? []]| |set_solver]. intros i. rewrite decide_False; [done|].
    by intros ?%not_elem_of_nil. }
  unfold st'. clear st'. rewrite fmap_cons, apply_wal_ops_cons, apply_rollback.
  destruct (IH (st.1, with_prepared (delete id (prepared st.2)) ({[id]} ∪ heuristic st.2) st.2))
    as (He & Hem & Hh).
  split_and!; [by rewrite He| |].
  - intros i. rewrite Hem. cbn [snd]. change (prepared (with_prepared ?e _ _)) with e.
    rewrite lookup_delete. destruct (decide (id = i)) as [<-|Hne].
    + rewrite (decide_True (P := id ∈ id :: l)) by (by left). by case_decide.
    + apply decide_ext. rewrite elem_of_cons. intuition congruence.
  - rewrite Hh. cbn. set_solver.
Qed.

(** ** Prepared transactions and heuristic outcomes stay apart *)
Definition held_apart (g : Inner) : Prop := forall gid, gid ∈ heuristic g -> prepared g !! gid = None.

Lemma held_frame g g' : prepared g' = prepared g -> heuristic g' = heuristic g ->
  held_apart g -> held_apart g'.
Proof. intros Hp Hh. unfold held_apart. by rewrite Hp, Hh. Qed.

Lemma drop_node_two_phase id n g :
  prepared (drop_node id n g) = prepared g /\ heuristic (drop_node id n g) = heuristic g.
Proof.
  assert (forall l g, prepared (remove_edges l g) = prepared g /\
    heuristic (remove_edges l g) = heuristic g) as Hre.
  { clear. intros l. induction l as [|i l IH]; intros g; [done|]. simpl.
    destruct (IH (remove_edge i g)) as [-> ->]. unfold remove_edge. by destruct (edges g !! i). }
  destruct (Hre (a_edge <$> incident_entries g id Both) g) as [Hp Hh]. unfold drop_node.
  remember (remove_edges _ g) as g1 eqn:Eg. clear Eg. cbn -[unique_del]. by rewrite Hp, Hh.
Qed.

Lemma drop_node_seq id n g : commit_seq (drop_node id n g) = commit_seq g.
Proof.
  assert (forall l g, commit_seq (remove_edges l g) = commit_seq g) as Hre.
  { clear. intros l. induction l as [|i l IH]; intros g; [done|]. simpl. rewrite IH.
    unfold remove_edge. by destruct (edges g !! i). }
  pose proof (Hre (a_edge <$> incident_entries g id Both) g) as Hs. unfold drop_node.
  remember (remove_edges _ g) as g1 eqn:Eg. clear Eg. cbn -[unique_del]. done.
Qed.

Lemma apply_fuel_held fuel op st st' : apply_wal_op_fuel fuel op st = Some st' ->
  held_apart st.2 -> held_apart st'.2.
Proof.
  revert op st st'. induction fuel as [|fuel IH]; intros op [ids g] st' Ha; [done|].
  destruct op as [n|id|e|id|id v|id|gid at_ ops|gid|gid h]; cbn [apply_wal_op_fuel] in Ha.
  - injection Ha as <-. destruct (upsert_node_frame n (ids, g)) as (_ & _ & _ & Hp & Hh).
    exact (held_frame _ _ Hp Hh).
  - destruct (nodes g !! id) as [n|]; injection Ha as <-; [|done].
    destruct (drop_node_two_phase id n g) as [Hp Hh]. exact (held_frame _ _ Hp Hh).
  - injection Ha as <-. destruct (upsert_edge_frame e (ids, g)) as (_ & _ & Hp & Hh).
    exact (held_frame _ _ Hp Hh).
  - injection Ha as <-. unfold held_apart, remove_edge. by destruct (edges g !! id).
  - by injection Ha as <-.
  - by injection Ha as <-.
  - injection Ha as <-. unfold held_apart. cbn. intros Hd j Hj. rewrite lookup_insert.
    case_decide; [set_solver|]. apply Hd. set_solver.
  - destruct (prepared g !! gid) as [e|]; [|by injection Ha as <-]. intros Hd.
    eapply (fold_ops_ind _ (fun s => held_apart s.2) _ _ _ Ha).
    + unfold held_apart in *. cbn in *. intros j Hj. rewrite lookup_delete. case_decide; auto.
    + intros op s s' _ Hs Hop. by eapply IH.
  - injection Ha as <-. unfold held_apart. cbn. intros Hd j Hj. rewrite lookup_delete.
    case_decide; [done|]. apply Hd. destruct h; set_solver.
Qed.

Lemma apply_held op st : held_apart st.2 -> held_apart (apply_wal_op op st).2.
Proof.
  unfold apply_wal_op.
  destruct (apply_fuel_total (S (prepared_weight st.2 + op_weight op)) op st) as (s & Es & _); [lia|].
  rewrite Es. by eapply apply_fuel_held.
Qed.

Lemma replay_held ops : held_apart (replay ops).2.
Proof.
  unfold replay. assert (held_apart (ids_default, inner_default).2) as Hd by done. revert Hd.
  generalize (ids_default, inner_default). induction ops as [|op ops IH]; intros st Hd; [done|].
  apply IH. by apply apply_held.
Qed.

(** ** The compacted form *)
Lemma elem_of_all_edges g e : g_edges_wf g -> e ∈ all_edges g <-> edges g !! e_id e = Some e.
Proof.
  intros W. unfold all_edges. rewrite elem_of_lookups. unfold ids_of. split.
  - intros (id & _ & Hn). by rewrite (wf_edge_ids _ _ _ _ W _ _ Hn).
  - intros Hn. exists (e_id e). split; [|done]. apply elem_of_ascending, elem_of_dom. eauto.
Qed.

Lemma elem_of_sorted_keys s k : k ∈ sorted_keys s <-> k ∈ s.
Proof. unfold sorted_keys. by rewrite merge_sort_Permutation, elem_of_elements. Qed.

(** The records, the durable vectors and the transactions in doubt. *)
Definition same_contents (g g' : Inner) : Prop :=
  nodes g' = nodes g /\ edges g' = edges g /\ embeddings g' = embeddings g /\
  prepared g' = prepared g /\ heuristic g' = heuristic g.

Lemma replay_dump_contents g : graph_wf g -> held_apart g ->
  same_contents g (replay (to_wal_ops g)).2 /\
  dom (kind_ids (replay (to_wal_ops g)).2) ⊆ dom (kind_ids g).
Proof.
  intros [W E] Hh. unfold replay, to_wal_ops. rewrite !apply_wal_ops_app.
  destruct (replay_nodes (all_nodes g) (ids_default, inner_default)) as ((N2 & N3 & N4 & N5 & N6) & Nin & Nout).
  { intros n m Hn%elem_of_all_nodes Hm%elem_of_all_nodes Heq; congruence. }
  set (s1 := apply_wal_ops (UpsertNode <$> all_nodes g) _) in *. clearbody s1.
  destruct (replay_edges (all_edges g) s1) as ((E1 & E3 & E4 & E5) & Ein & Eout & Ek).
  { intros n m Hn%elem_of_all_edges Hm%elem_of_all_edges Heq; congruence. }
  set (s2 := apply_wal_ops (UpsertEdge <$> all_edges g) s1) in *. clearbody s2.
  destruct (replay_embeddings (embeddings g) (ids_of (embeddings g)) s2) as (M & Mem).
  set (s3 := apply_wal_ops (omap _ (ids_of (embeddings g))) s2) in *. clearbody s3.
  destruct (replay_prepared (prepared g) (sorted_keys (dom (prepared g))) s3) as (P & Pem & Ph).
  set (s4 := apply_wal_ops (omap _ (sorted_keys (dom (prepared g)))) s3) in *. clearbody s4.
  destruct (replay_heuristic (sorted_keys (heuristic g)) s4) as (R & Rem & Rh).
  set (s5 := apply_wal_ops ((fun gid => RollbackPrepared gid true) <$> _) s4) in *. clearbody s5.
  split; [split_and!|].
  - rewrite R; cbn [snd]. change (nodes (with_prepared _ _ ?g)) with (nodes g).
    rewrite P; cbn [snd]. change (nodes (with_prepared _ _ ?g)) with (nodes g).
    rewrite M; cbn [snd]. change (nodes (with_embeddings _ ?g)) with (nodes g). rewrite E1.
    apply map_eq. intros i. destruct (nodes g !! i) as [n|] eqn:Hn.
    + pose proof (wf_node_ids _ _ _ _ _ W _ _ Hn) as <-. apply Nin. by apply elem_of_all_nodes.
    + rewrite Nout; [done|]. intros n Hin Hid. apply elem_of_all_nodes in Hin; [|done]. congruence.
  - rewrite R; cbn [snd]. change (edges (with_prepared _ _ ?g)) with (edges g).
    rewrite P; cbn [snd]. change (edges (with_prepared _ _ ?g)) with (edges g).
    rewrite M; cbn [snd]. change (edges (with_embeddings _ ?g)) with (edges g).
    apply map_eq. intros i. destruct (edges g !! i) as [n|] eqn:Hn.
    + pose proof (wf_edge_ids _ _ _ _ E _ _ Hn) as <-. apply Ein. by apply elem_of_all_edges.
    + rewrite Eout; [by rewrite N2|]. intros n Hin Hid. apply elem_of_all_edges in Hin; [|done]. congruence.
  - rewrite R; cbn [snd]. change (embeddings (with_prepared _ _ ?g)) with (embeddings g).
    rewrite P; cbn [snd]. change (embeddings (with_prepared _ _ ?g)) with (embeddings g).
    apply map_eq. intros i. rewrite Mem, E3, N4. case_decide as Hd; [done|].
    unfold ids_of in Hd. rewrite elem_of_ascending, elem_of_dom in Hd. cbn. rewrite lookup_empty. symmetry. apply eq_None_not_Some. tauto.
  - apply map_eq. intros i. rewrite Rem. case_decide as Hd.
    { rewrite elem_of_sorted_keys in Hd. by rewrite Hh. }
    rewrite Pem. case_decide as Hd'; [done|]. rewrite elem_of_sorted_keys, elem_of_dom in Hd'.
    rewrite M; cbn [snd]. change (prepared (with_embeddings _ ?g)) with (prepared g).
    rewrite E4, N5. cbn. rewrite lookup_empty. symmetry. apply eq_None_not_Some. tauto.
  - rewrite M in Ph. cbn [snd] in Ph. change (heuristic (with_embeddings _ ?g)) with (heuristic g) in Ph.
    rewrite E5, N6 in Ph. cbn in Ph. apply set_eq. intros i.
    rewrite Rh, elem_of_union, elem_of_list_to_set, elem_of_sorted_keys. set_solver.
  - rewrite R; cbn [snd]. change (kind_ids (with_prepared _ _ ?g)) with (kind_ids g).
    rewrite P; cbn [snd]. change (kind_ids (with_prepared _ _ ?g)) with (kind_ids g).
    rewrite M; cbn [snd]. change (kind_ids (with_embeddings _ ?g)) with (kind_ids g).
    rewrite N3 in Ek. cbn in Ek. rewrite dom_empty_L in Ek. intros k Hk%Ek.
    apply elem_of_union in Hk as [Hk|Hk]; [|set_solver].
    apply elem_of_list_to_set, list_elem_of_fmap in Hk as (e & -> & He).
    apply elem_of_all_edges in He; [|done]. apply elem_of_dom.
    exact (kinds_edges _ _ (wf_interned _ _ _ _ E) _ _ He).
Qed.

Lemma replay_good ops : kinds_fit (replay ops).2 -> good (replay ops).
Proof.
  intros Hf. destruct (apply_wal_ops_grows ops (ids_default, inner_default)) as [_ Hg].
  apply Hg; [done|]. destruct default_live as (W & _ & C). done.
Qed.

Lemma replay_dump_good g : graph_wf g -> held_apart g -> kinds_fit g ->
  good (replay (to_wal_ops g)).
Proof.
  intros W Hh Hf. apply replay_good. destruct (replay_dump_contents g W Hh) as [_ Hk].
  unfold kinds_fit in *. pose proof (subseteq_size _ _ Hk) as Hs. rewrite !size_dom in Hs. lia.
Qed.
End replay.

Section claims.
Context `{JsonText}.

(** Replaying an operation always ends: resolving prepared transactions, whose
    write sets may resolve others, needs no more nesting than the operations
    still held back, so [apply_wal_op] is a total function. *)
Theorem replay_terminates op st :
  apply_wal_op_fuel (S (prepared_weight st.2 + op_weight op)) op st = Some (apply_wal_op op st).
Proof.
  destruct (apply_fuel_total (S (prepared_weight st.2 + op_weight op)) op st) as (s & Es & _); [lia|].
  rewrite Es. f_equal. symmetry. by eapply apply_wal_op_eq.
Qed.

(** Replaying any log whatever -- dangling edges, repeated upserts, deletes of
    missing records, transactions committed twice -- leaves every index and
    adjacency list exact, the counters past every id, and no transaction both
    pending and heuristically rolled back, as long as the edge kinds fit their
    32-bit ids. *)
Theorem replay_well_formed ops : kinds_fit (replay ops).2 ->
  graph_wf (replay ops).2 /\ counted (replay ops).1 (replay ops).2 /\ held_apart (replay ops).2.
Proof. intros Hf. destruct (replay_good ops Hf) as [W C]. split_and!; [done..|apply replay_held]. Qed.

(** C27: Compaction keeps the graph: replaying the compacted form of the state any
    log left rebuilds its nodes, edges, vectors, prepared transactions and
    heuristic outcomes, the same title and kind lookups, and the same neighbours
    in every direction and kind. *)
Theorem compaction_preserves_graph ops : kinds_fit (replay ops).2 ->
  let g := (replay ops).2 in
  let g' := (replay (to_wal_ops g)).2 in
  same_contents g g' /\ titles g' = titles g /\ kind_index g' = kind_index g /\ graph_wf g' /\
  forall x d k y, y ∈ neighbor_ids g' x d k <-> y ∈ neighbor_ids g x d k.
Proof.
  intros Hf g g'. destruct (replay_good ops Hf) as [W _]. pose proof (replay_held ops) as Hh.
  destruct (replay_dump_contents g W Hh) as [S _]. destruct (replay_dump_good g W Hh Hf) as [W' _].
  fold g' in S, W'. clearbody g'. destruct W as [WN WE], W' as [WN' WE'].
  pose proof S as (HN & HE & _). split_and!; [done| | |by split|].
  - eapply index_ok_unique; [apply (wf_titles _ _ _ _ _ WN')|]. rewrite HN. apply (wf_titles _ _ _ _ _ WN).
  - eapply index_ok_unique; [apply (wf_kinds _ _ _ _ _ WN')|]. rewrite HN. apply (wf_kinds _ _ _ _ _ WN).
  - intros x d k y. rewrite (proj2 (neighbor_ids_elem g' x d k WE')),
      (proj2 (neighbor_ids_elem g x d k WE)), HE. done.
Qed.

(** A prepared transaction changes no record until it is resolved: committing
    it applies its write set, in order, to the state of that moment; rolling it
    back discards it; resolving it a second time does nothing. *)
Theorem prepared_resolution gid at_ ops st : prepared st.2 !! gid = None -> gid ∉ heuristic st.2 ->
  let held := apply_wal_op (Prepare gid at_ ops) st in
  nodes held.2 = nodes st.2 /\ edges held.2 = edges st.2 /\ embeddings held.2 = embeddings st.2 /\
  apply_wal_op (CommitPrepared gid) held = apply_wal_ops ops st /\
  apply_wal_op (RollbackPrepared gid false) held = st /\
  apply_wal_op (CommitPrepared gid) (apply_wal_op (RollbackPrepared gid false) held) = st.
Proof.
  intros Hp Hh. cbv zeta. rewrite apply_prepare.
  assert (heuristic st.2 ∖ {[gid]} = heuristic st.2) as -> by set_solver.
  assert (forall p, (st.1, with_prepared (delete gid (prepared st.2)) (heuristic st.2)
    (with_prepared p (heuristic st.2) st.2)) = st) as Hback.
  { intros p. rewrite delete_id by done. by destruct st as [? []]. }
  split_and!; [done..| | |].
  - rewrite apply_commit. cbn [snd fst prepared with_prepared]. rewrite lookup_insert_eq.
    cbn [prepared_ops heuristic with_prepared]. rewrite delete_insert_eq. by rewrite Hback.
  - rewrite apply_rollback. cbn [snd fst prepared heuristic with_prepared].
    rewrite delete_insert_eq. by rewrite Hback.
  - rewrite apply_rollback. cbn [snd fst prepared heuristic with_prepared].
    rewrite delete_insert_eq, Hback, apply_commit. by rewrite Hp.
Qed.
End claims.

Section witnesses.
#[local] Existing Instance Sample.text.

Definition sample_log : list WalOp :=
  [UpsertNode (into_node Sample.env (mkNewNode "Person" "ann" "" "" ∅) 1);
   UpsertNode (into_node Sample.env (mkNewNode "Person" "bob" "" "" ∅) 9);
   UpsertEdge (into_edge Sample.env (mkNewEdge 1 9 "KNOWS" (mkF32 0) ∅) 4);
   Prepare "g1" 3 [DeleteNode 1; Prepare "g2" 4 [DeleteNode 9]];
   CommitPrepared "g1"; CommitPrepared "g2"; CommitPrepared "g2"].

Lemma sample_log_fits : kinds_fit (replay sample_log).2.
Proof. vm_compute. congruence. Qed.

Lemma replay_well_formed_witness : held_apart (replay sample_log).2.
Proof. exact (proj2 (proj2 (replay_well_formed sample_log sample_log_fits))). Defined.

Lemma compaction_preserves_graph_witness :
  same_contents (replay sample_log).2 (replay (to_wal_ops (replay sample_log).2)).2.
Proof. exact (proj1 (compaction_preserves_graph sample_log sample_log_fits)). Defined.

Lemma prepared_resolution_witness :
  let held := apply_wal_op (Prepare "g1" 3 [DeleteNode 1]) Sample.graph in
  nodes (apply_wal_op (CommitPrepared "g1") held).2 !! 1 = None /\
  apply_wal_op (RollbackPrepared "g1" false) held = Sample.graph.
Proof.
  destruct (prepared_resolution "g1" 3 [DeleteNode 1] Sample.graph) as (_ & _ & _ & Hc & Hr & _).
  - vm_compute. reflexivity.
  - apply (bool_decide_unpack _). vm_compute. exact I.
  - cbv zeta. rewrite Hc. split; [vm_compute; reflexivity|exact Hr].
Defined.
End witnesses.

(** ** What recovery does not keep *)
Section boundaries.
#[local] Existing Instance Sample.text.

(** The compacted form carries no counter: after the newest node is deleted and
    the log compacted, its id is handed out again. *)
Theorem compaction_reuses_ids :
  let st := (run_op Sample.env true (DoDeleteNode 2) Sample.graph).1 in
  last_node st.1 = 2 /\
  n_id <$> (match (create_node_checked Sample.env (mkNewNode "Person" "cid" "" "" ∅) true
    (replay (to_wal_ops st.2))).2 with Ok n => Some n | Err _ => None end) = Some 2.
Proof. split; vm_compute; reflexivity. Qed.

(** A record replayed under the largest id wraps the counter: the second node
    created after it overwrites node 1. *)
Theorem largest_id_wraps_counter :
  let big := UpsertNode (into_node Sample.env (mkNewNode "City" "x" "" "" ∅) (2 ^ 64 - 1)) in
  let st := apply_wal_op big Sample.graph in
  let st1 := (run_op Sample.env false (DoCreateNode (mkNewNode "City" "y" "" "" ∅)) st).1 in
  let st2 := (run_op Sample.env false (DoCreateNode (mkNewNode "City" "z" "" "" ∅)) st1).1 in
  n_title <$> nodes st1.2 !! 1 = Some "ann" /\ n_title <$> nodes st2.2 !! 1 = Some "z".
Proof. split; vm_compute; reflexivity. Qed.
End boundaries.
