(* ===== verification/NativeTx.v ===== *)
(** * The engine: direct writes, transactions, two-phase commit and the feed
    ([NativeGraph], [NativeTxEngine] of [src/drevo-core/src/native.rs])

    The live state sits behind [RwLock<Arc<Inner>>].  A commit compares the
    pointer of its snapshot with the live one, so the model gives every state it
    installs a number of its own: a transaction holds its snapshot's [Arc], so
    [Arc::make_mut] copies whenever a snapshot could tell and no number is ever
    seen twice.  What the log's encoder and the disk answer is an input of each
    call ([Sys]). *)
From S2P Require Import Prelude NativeModel Native NativeInv NativeOps Conflict.
Local Open Scope string_scope.
Local Open Scope list_scope.
Local Open Scope N_scope.

(** What a call reads from outside: the clock and uuid, whether the log record
    encodes, whether writing and syncing it succeeds. *)
Record Sys : Type := mkSys { sys_env : Env; sys_encodes : bool; sys_flushes : bool }.

Inductive Isolation : Type := Snapshot | Serializable.
#[global] Instance Isolation_eq_dec : EqDecision Isolation.
Proof. solve_decision. Defined.

Inductive CommitError : Type :=
| CConflict
| CConstraint (v : ConstraintViolation)
| CIo
| CPreparedPending (gids : list string)
| CReadOnly.

Inductive PrepareError : Type :=
| PUnknownTransaction
| PConflict
| PConstraint (v : ConstraintViolation)
| PDuplicateGid (gid : string)
| PPreparedPending (gids : list string)
| PIo
| PReadOnly.

Inductive ResolveError : Type :=
| RUnknownGid (gid : string)
| RHeuristicRollback (gid : string)
| RIo
| RReadOnly.

(** ** State *)
Record TxSlot : Type := mkSlot {
  base_ptr : N;
  base : Inner;
  working : Inner;
  tx_ops : list WalOp;
  tx_isolation : Isolation;
  limited : bool;
}.

Record ChangeFeed : Type := mkFeed { start_seq : N; feed_ops : list WalOp }.

(** The log: its durable records, one per committed batch, and whether a failed
    flush has closed it. *)
Record Wal : Type := mkWal { wal_records : list (list WalOp); wal_broken : bool }.

Record NativeGraph : Type := mkGraph {
  live_ptr : N;
  next_ptr : N;
  inner : Inner;
  g_ids : IdCounters;
  reg_txs : gmap N TxSlot;
  next_reg_tx : N;
  wal : option Wal;
  feed : ChangeFeed;
  history : CommitHistory;
  conflicts : ConflictStats;
  isolation : Isolation;
  max_tx_writes : N;
  read_only : bool;
  opened_read_only : bool;
}.

(** Installing a state: a new pointer. *)
Definition put_live (i : Inner) (g : NativeGraph) : NativeGraph :=
  mkGraph (next_ptr g) (next_ptr g + 1) i (g_ids g) (reg_txs g) (next_reg_tx g) (wal g) (feed g)
    (history g) (conflicts g) (isolation g) (max_tx_writes g) (read_only g) (opened_read_only g).
Definition put_ids (ids : IdCounters) (g : NativeGraph) : NativeGraph :=
  mkGraph (live_ptr g) (next_ptr g) (inner g) ids (reg_txs g) (next_reg_tx g) (wal g) (feed g)
    (history g) (conflicts g) (isolation g) (max_tx_writes g) (read_only g) (opened_read_only g).
Definition put_txs (txs : gmap N TxSlot) (next : N) (g : NativeGraph) : NativeGraph :=
  mkGraph (live_ptr g) (next_ptr g) (inner g) (g_ids g) txs next (wal g) (feed g)
    (history g) (conflicts g) (isolation g) (max_tx_writes g) (read_only g) (opened_read_only g).
Definition put_log (w : option Wal) (f : ChangeFeed) (g : NativeGraph) : NativeGraph :=
  mkGraph (live_ptr g) (next_ptr g) (inner g) (g_ids g) (reg_txs g) (next_reg_tx g) w f
    (history g) (conflicts g) (isolation g) (max_tx_writes g) (read_only g) (opened_read_only g).
Definition put_history (h : CommitHistory) (c : ConflictStats) (g : NativeGraph) : NativeGraph :=
  mkGraph (live_ptr g) (next_ptr g) (inner g) (g_ids g) (reg_txs g) (next_reg_tx g) (wal g) (feed g)
    h c (isolation g) (max_tx_writes g) (read_only g) (opened_read_only g).
Definition put_read_only (on : bool) (g : NativeGraph) : NativeGraph :=
  mkGraph (live_ptr g) (next_ptr g) (inner g) (g_ids g) (reg_txs g) (next_reg_tx g) (wal g) (feed g)
    (history g) (conflicts g) (isolation g) (max_tx_writes g) on (opened_read_only g).

(** A fresh engine; [durable] when it has a log. *)
Definition new_graph (durable : bool) : NativeGraph :=
  mkGraph 0 1 inner_default ids_default ∅ 0 (if durable then Some (mkWal [] false) else None)
    (mkFeed 0 []) (with_capacity DEFAULT_HISTORY) (mkStats 0 0 0 0) Snapshot 0 false false.

(** ** The log and the change feed *)

(** [record_split]; sequentially each call is its own group ([group_commit],
    [flush_group]): refused when the log is broken, flushed and then published. *)
Definition record_split (sys : Sys) (wal_ops ops : list WalOp) : ST NativeGraph unit unit := fun g =>
  match wal_ops, ops with
  | [], [] => (g, Ok tt)
  | _, _ =>
      let published := mkFeed (start_seq (feed g)) (feed_ops (feed g) ++ ops) in
      match wal g with
      | None => (put_log None published g, Ok tt)
      | Some w =>
          if negb (sys_encodes sys) then (g, Err tt)
          else if wal_broken w then (g, Err tt)
          else if sys_flushes sys
               then (put_log (Some (mkWal (wal_records w ++ [wal_ops]) false)) published g, Ok tt)
               else (put_log (Some (mkWal (wal_records w) true)) (feed g) g, Err tt)
      end
  end.

Definition record (sys : Sys) (ops : list WalOp) : ST NativeGraph unit unit := record_split sys ops ops.

(** Mapping the I/O error into the caller's error type. *)
Definition io_as {A E} (e : E) (m : ST NativeGraph unit A) : ST NativeGraph E A := fun g =>
  match m g with (g, Ok a) => (g, Ok a) | (g, Err _) => (g, Err e) end.

Definition change_head (g : NativeGraph) : N :=
  start_seq (feed g) + N.of_nat (length (feed_ops (feed g))).

Record ChangeBatch : Type := mkBatch { cb_cursor : N; cb_ops : list WalOp; cb_lagged : bool }.

Definition changes_since (g : NativeGraph) (cursor : N) : ChangeBatch :=
  let f := feed g in
  let head := change_head g in
  if cursor <? start_seq f then mkBatch head (feed_ops f) true
  else let from := N.min (cursor - start_seq f) (N.of_nat (length (feed_ops f))) in
       mkBatch head (drop (N.to_nat from) (feed_ops f)) false.

Definition trim_before (cursor : N) (g : NativeGraph) : NativeGraph * N :=
  let f := feed g in
  let target := N.min cursor (change_head g) in
  if target <=? start_seq f then (g, start_seq f)
  else (put_log (wal g) (mkFeed target (drop (N.to_nat (target - start_seq f)) (feed_ops f))) g, target).

(** ** Commit bookkeeping *)
Definition note_commit (i : Inner) (touched : ConflictSet) (g : NativeGraph) : Inner * NativeGraph :=
  let i := with_commit_seq (commit_seq i + 1) i in
  (i, put_history (push (commit_seq i) touched (history g)) (conflicts g) g).

(** A commit of [i]: noted, then installed. *)
Definition commit_inner (i : Inner) (touched : ConflictSet) (g : NativeGraph) : NativeGraph :=
  let '(i, g) := note_commit i touched g in put_live i g.

Definition count_conflict (reason : ConflictReason) (g : NativeGraph) : NativeGraph :=
  let c := conflicts g in
  put_history (history g)
    match reason with
    | Overlap => mkStats (s_overlap c + 1) (s_would_pass c) (s_history c) (s_merged c)
    | WouldPass => mkStats (s_overlap c) (s_would_pass c + 1) (s_history c) (s_merged c)
    | HistoryGone => mkStats (s_overlap c) (s_would_pass c) (s_history c + 1) (s_merged c)
    end g.

Definition note_conflict (b : Inner) (ops : list WalOp) (g : NativeGraph) : NativeGraph :=
  count_conflict (classify (history g) (commit_seq b) (from_ops ops)) g.

Definition count_merged (g : NativeGraph) : NativeGraph :=
  let c := conflicts g in
  put_history (history g) (mkStats (s_overlap c) (s_would_pass c) (s_history c) (s_merged c + 1)) g.

(** ** The prepared fence *)
Definition pending_gids (i : Inner) : list string := sorted_keys (dom (prepared i)).
Definition prepared_entries (i : Inner) : list PreparedEntry :=
  omap (fun gid => prepared i !! gid) (pending_gids i).
Definition has_prepared (i : Inner) : bool := negb (bool_decide (prepared i = ∅)).

Definition prepared_set (i : Inner) : ConflictSet :=
  foldl (fun set e => cs_extend set (from_ops (prepared_ops e))) cs_empty (prepared_entries i).

Section engine.
Context `{JsonText}.

(** The prepared transactions applied on top of [state]; the copy shares the id
    counters. *)
Definition with_prepared_applied (st : GState) : GState :=
  foldl (fun st e => apply_wal_ops (prepared_ops e) st) st (prepared_entries st.2).

Definition breaks_prepared (st : GState) : IdCounters * bool :=
  if negb (has_prepared st.2) || bool_decide (constraints st.2 = []) then (st.1, false)
  else let after := with_prepared_applied st in
       (after.1, negb (is_ok (validate_constraints after.2))).

Definition write_unless_read_only : ST NativeGraph CoreError unit := fun g =>
  (g, if read_only g then Err ReadOnlyErr else Ok tt).

Definition write_for_commit : ST NativeGraph CoreError unit := fun g =>
  match write_unless_read_only g with
  | (g, Err e) => (g, Err e)
  | (g, Ok _) => (g, if has_prepared (inner g) then Err (PreparedPendingErr (pending_gids (inner g)))
                     else Ok tt)
  end.

(** ** Direct writes *)

(** The operation and the log entry it leaves. *)
Definition log_op (env : Env) (require : bool) (op : GraphOp) : ST GState CoreError WalOp := fun st =>
  match op with
  | DoCreateNode n =>
      match create_node_checked env n require st with
      | (st, Ok node) => (st, Ok (UpsertNode node))
      | (st, Err e) => (st, Err e)
      end
  | DoUpdateNode id p =>
      match on_inner (update_node_checked env id p require) st with
      | (st, Ok node) => (st, Ok (UpsertNode node))
      | (st, Err e) => (st, Err e)
      end
  | DoDeleteNode id =>
      match on_inner (delete_node id) st with
      | (st, Ok _) => (st, Ok (DeleteNode id))
      | (st, Err e) => (st, Err e)
      end
  | DoCreateEdge e =>
      match create_edge env e st with
      | (st, Ok edge) => (st, Ok (UpsertEdge edge))
      | (st, Err e) => (st, Err e)
      end
  | DoUpdateEdge id p =>
      match on_inner (update_edge id p) st with
      | (st, Ok edge) => (st, Ok (UpsertEdge edge))
      | (st, Err e) => (st, Err e)
      end
  | DoDeleteEdge id =>
      match on_inner (delete_edge id) st with
      | (st, Ok _) => (st, Ok (DeleteEdge id))
      | (st, Err e) => (st, Err e)
      end
  end.

(** What the direct methods pass to [note_commit]. *)
Definition direct_touched (op : WalOp) : ConflictSet :=
  match op with
  | UpsertNode node => cs_node (n_id node)
  | DeleteNode id => cs_deleted_node id
  | UpsertEdge edge => cs_edge (e_id edge) (e_from edge) (e_to edge)
  | DeleteEdge id => cs_deleted_edge id
  | _ => cs_empty
  end.

(** The part of a direct write under the writer lock: the change is visible when
    it ends.  [Arc::make_mut] runs before the operation can fail. *)
Definition direct_apply (sys : Sys) (op : GraphOp) : ST NativeGraph CoreError WalOp := fun g =>
  match write_for_commit g with
  | (g, Err e) => (g, Err e)
  | (g, Ok _) =>
      match log_op (sys_env sys) true op (g_ids g, inner g) with
      | ((ids, i), Ok w) => (commit_inner i (direct_touched w) (put_ids ids g), Ok w)
      | ((ids, i), Err e) => (put_live i (put_ids ids g), Err e)
      end
  end.

(** The part after the lock is released: log and publish. *)
Definition direct_record (sys : Sys) (w : WalOp) : ST NativeGraph CoreError unit :=
  io_as IoErr (record sys [w]).

Definition direct_write (sys : Sys) (op : GraphOp) : ST NativeGraph CoreError unit :=
  let! w := direct_apply sys op in direct_record sys w.

Definition set_embedding (sys : Sys) (id : N) (v : list F32) : ST NativeGraph CoreError unit := fun g =>
  match write_for_commit g with
  | (g, Err e) => (g, Err e)
  | (g, Ok _) =>
      if bool_decide (is_Some (nodes (inner g) !! id))
      then let '(ids, i) := apply_wal_op (SetEmbedding id v) (g_ids g, inner g) in
           io_as IoErr (record sys [SetEmbedding id v]) (commit_inner i (cs_node id) (put_ids ids g))
      else (put_live (inner g) g, Err (NodeNotFound id))
  end.

Definition set_embeddings_batch (sys : Sys) (embs : list (N * list F32)) :
    ST NativeGraph CoreError unit := fun g =>
  match embs with
  | [] => (g, Ok tt)
  | _ =>
      match write_for_commit g with
      | (g, Err e) => (g, Err e)
      | (g, Ok _) =>
          match filter (fun x => nodes (inner g) !! x.1 = None) embs with
          | (id, _) :: _ => (put_live (inner g) g, Err (NodeNotFound id))
          | [] =>
              let ops := (fun x => SetEmbedding x.1 x.2) <$> embs in
              let '(ids, i) := apply_wal_ops ops (g_ids g, inner g) in
              io_as IoErr (record sys ops) (commit_inner i (from_ops ops) (put_ids ids g))
          end
      end
  end.

Definition delete_embedding (sys : Sys) (id : N) : ST NativeGraph CoreError unit := fun g =>
  match write_for_commit g with
  | (g, Err e) => (g, Err e)
  | (g, Ok _) =>
      let '(ids, i) := apply_wal_op (DeleteEmbedding id) (g_ids g, inner g) in
      io_as IoErr (record sys [DeleteEmbedding id]) (commit_inner i (cs_node id) (put_ids ids g))
  end.

(** ** Batches: built aside, logged, then installed *)

(** The loop of [create_nodes] and [create_edges]: the first failure ends it. *)
Fixpoint log_all (env : Env) (ops : list GraphOp) : ST GState CoreError (list WalOp) := fun st =>
  match ops with
  | [] => (st, Ok [])
  | op :: ops =>
      match log_op env true op st with
      | (st, Err e) => (st, Err e)
      | (st, Ok w) =>
          match log_all env ops st with
          | (st, Err e) => (st, Err e)
          | (st, Ok ws) => (st, Ok (w :: ws))
          end
      end
  end.

(** Their shared tail; a counter advanced on the way stays advanced. *)
Definition install_batch (sys : Sys) (ws : list WalOp) (st : GState) : ST NativeGraph CoreError unit := fun g =>
  match record sys ws (put_ids st.1 g) with
  | (g, Err _) => (g, Err IoErr)
  | (g, Ok _) => (commit_inner st.2 (from_ops ws) g, Ok tt)
  end.

Definition create_batch (sys : Sys) (ops : list GraphOp) : ST NativeGraph CoreError unit := fun g =>
  match ops with
  | [] => (g, Ok tt)
  | _ =>
      match write_for_commit g with
      | (g, Err e) => (g, Err e)
      | (g, Ok _) =>
          match log_all (sys_env sys) ops (g_ids g, inner g) with
          | ((ids, _), Err e) => (put_ids ids g, Err e)
          | (st, Ok ws) => install_batch sys ws st g
          end
      end
  end.

Definition create_nodes (sys : Sys) (new_nodes : list NewNode) : ST NativeGraph CoreError unit :=
  create_batch sys (DoCreateNode <$> new_nodes).
Definition create_edges (sys : Sys) (new_edges : list NewEdge) : ST NativeGraph CoreError unit :=
  create_batch sys (DoCreateEdge <$> new_edges).

(** Absent ids are skipped. *)
Fixpoint delete_each (ids : list N) (i : Inner) : Inner * list WalOp :=
  match ids with
  | [] => (i, [])
  | id :: ids =>
      match nodes i !! id with
      | None => delete_each ids i
      | Some node => let '(i, ws) := delete_each ids (drop_node id node i) in (i, DeleteNode id :: ws)
      end
  end.

Definition delete_nodes (sys : Sys) (ids : list N) : ST NativeGraph CoreError N := fun g =>
  match write_for_commit g with
  | (g, Err e) => (g, Err e)
  | (g, Ok _) =>
      match delete_each ids (inner g) with
      | (_, []) => (g, Ok 0)
      | (i, ws) =>
          match install_batch sys ws (g_ids g, i) g with
          | (g, Err e) => (g, Err e)
          | (g, Ok _) => (g, Ok (N.of_nat (length ws)))
          end
      end
  end.
End engine.

(** ** Transactions *)
Section transactions.
Context `{JsonText}.

(** [register_tx]; [NativeTx] is the same slot held by its owner, always
    limited. *)
Definition register_tx (iso : Isolation) (lim : bool) (g : NativeGraph) : NativeGraph * N :=
  let id := next_reg_tx g + 1 in
  (put_txs (<[id := mkSlot (live_ptr g) (inner g) (inner g) [] iso lim]> (reg_txs g)) id g, id).

Definition tx_begin (g : NativeGraph) : NativeGraph * N := register_tx (isolation g) true g.

(** Fail when one more write would go over the cap. *)
Definition check_tx_room (g : NativeGraph) (buffered : nat) : result CoreError unit :=
  if (negb (max_tx_writes g =? 0)) && (max_tx_writes g <=? N.of_nat buffered)
  then Err (TransactionTooLarge (max_tx_writes g)) else Ok tt.

Definition closed_tx : CoreError := Backend "the transaction has already been closed".

(** One write of a registered transaction. *)
Definition tx_write (env : Env) (id : N) (op : GraphOp) : ST NativeGraph CoreError unit := fun g =>
  match reg_txs g !! id with
  | None => (g, Err closed_tx)
  | Some slot =>
      match (if limited slot then check_tx_room g (length (tx_ops slot)) else Ok tt) with
      | Err e => (g, Err e)
      | Ok _ =>
          match log_op env false op (g_ids g, working slot) with
          | ((ids, i), r) =>
              let put ws := put_txs (<[id := mkSlot (base_ptr slot) (base slot) i ws (tx_isolation slot)
                (limited slot)]> (reg_txs g)) (next_reg_tx g) (put_ids ids g) in
              match r with
              | Err e => (put (tx_ops slot), Err e)
              | Ok w => (put (tx_ops slot ++ [w]), Ok tt)
              end
          end
      end
  end.

(** The tail of a commit whose state is decided: fence on the constraints, log,
    note, install. *)
Definition commit_state (sys : Sys) (i : Inner) (ops : list WalOp) (merged : bool) :
    ST NativeGraph CommitError unit := fun g =>
  let '(ids, broke) := breaks_prepared (g_ids g, i) in
  let g := put_ids ids g in
  if broke then (g, Err (CPreparedPending (pending_gids (inner g))))
  else match record sys ops g with
       | (g, Err _) => (g, Err CIo)
       | (g, Ok _) =>
           let '(i, g) := note_commit i (from_ops ops) g in
           (put_live i (if merged then count_merged g else g), Ok tt)
       end.

Definition commit_parts (sys : Sys) (slot : TxSlot) : ST NativeGraph CommitError unit := fun g =>
  let ops := tx_ops slot in
  match ops with
  | [] => (g, Ok tt)
  | _ =>
      if read_only g then (g, Err CReadOnly)
      else
        let mine := from_ops ops in
        if has_prepared (inner g) && intersects mine (prepared_set (inner g))
        then (g, Err (CPreparedPending (pending_gids (inner g))))
        else if live_ptr g =? base_ptr slot
        then match validate_constraints (working slot) with
             | Err v => (g, Err (CConstraint v))
             | Ok _ => commit_state sys (working slot) ops false g
             end
        else
          let reason := classify (history g) (commit_seq (base slot)) mine in
          if negb (bool_decide (reason = WouldPass)) || bool_decide (tx_isolation slot = Serializable)
          then (count_conflict reason g, Err CConflict)
          else match validate_constraints (working slot) with
               | Err v => (g, Err (CConstraint v))
               | Ok _ =>
                   let '(ids, m) := apply_wal_ops ops (g_ids g, inner g) in
                   let g := put_ids ids g in
                   match validate_constraints m with
                   | Err _ => (count_conflict Overlap g, Err CConflict)
                   | Ok _ => commit_state sys m ops true g
                   end
               end
  end.

Definition close_tx (id : N) (g : NativeGraph) : NativeGraph :=
  put_txs (delete id (reg_txs g)) (next_reg_tx g) g.

Definition tx_commit (sys : Sys) (id : N) : ST NativeGraph CommitError unit := fun g =>
  match reg_txs g !! id with
  | None => (g, Err CIo)
  | Some slot => commit_parts sys slot (close_tx id g)
  end.

Definition tx_rollback (id : N) (g : NativeGraph) : NativeGraph * bool :=
  (close_tx id g, bool_decide (is_Some (reg_txs g !! id))).

(** ** Two-phase commit *)
Definition tx_prepare (sys : Sys) (id : N) (gid : string) : ST NativeGraph PrepareError unit := fun g =>
  match reg_txs g !! id with
  | None => (g, Err PUnknownTransaction)
  | Some slot =>
      let g := close_tx id g in
      if read_only g then (g, Err PReadOnly)
      else if bool_decide (is_Some (prepared (inner g) !! gid)) then (g, Err (PDuplicateGid gid))
      else if has_prepared (inner g) then (g, Err (PPreparedPending (pending_gids (inner g))))
      else if negb (live_ptr g =? base_ptr slot)
      then (note_conflict (base slot) (tx_ops slot) g, Err PConflict)
      else match validate_constraints (working slot) with
           | Err v => (g, Err (PConstraint v))
           | Ok _ =>
               let at_ := env_now (sys_env sys) in
               match record_split sys [Prepare gid at_ (tx_ops slot)] [] g with
               | (g, Err _) => (g, Err PIo)
               | (g, Ok _) =>
                   let i := with_prepared (<[gid := mkPrepared at_ (tx_ops slot)]> (prepared (inner g)))
                              (heuristic (inner g) ∖ {[ gid ]}) (inner g) in
                   (commit_inner i cs_empty g, Ok tt)
               end
           end
  end.

Definition commit_prepared (sys : Sys) (gid : string) : ST NativeGraph ResolveError unit := fun g =>
  if read_only g then (g, Err RReadOnly)
  else match prepared (inner g) !! gid with
  | None => (g, Err (if bool_decide (gid ∈ heuristic (inner g)) then RHeuristicRollback gid
                     else RUnknownGid gid))
  | Some entry =>
      let ops := prepared_ops entry in
      match record_split sys [CommitPrepared gid] ops g with
      | (g, Err _) => (g, Err RIo)
      | (g, Ok _) =>
          let '(ids, i) := apply_wal_op (CommitPrepared gid) (g_ids g, inner g) in
          (commit_inner i (from_ops ops) (put_ids ids g), Ok tt)
      end
  end.

Definition rollback_prepared_as (sys : Sys) (gid : string) (heur : bool) :
    ST NativeGraph ResolveError unit := fun g =>
  if read_only g then (g, Err RReadOnly)
  else if negb (bool_decide (is_Some (prepared (inner g) !! gid)))
  then if negb heur && bool_decide (gid ∈ heuristic (inner g)) then (g, Ok tt)
       else (g, Err (RUnknownGid gid))
  else
    match record_split sys [RollbackPrepared gid heur] [] g with
    | (g, Err _) => (g, Err RIo)
    | (g, Ok _) =>
        let '(ids, i) := apply_wal_op (RollbackPrepared gid heur) (g_ids g, inner g) in
        (commit_inner i cs_empty (put_ids ids g), Ok tt)
    end.

Definition rollback_prepared (sys : Sys) (gid : string) := rollback_prepared_as sys gid false.
Definition heuristic_rollback_prepared (sys : Sys) (gid : string) := rollback_prepared_as sys gid true.

Record PreparedInfo : Type := mkInfo { pi_gid : string; pi_at : Z; pi_count : nat }.
Definition list_prepared (g : NativeGraph) : list PreparedInfo :=
  omap (fun gid => e ← prepared (inner g) !! gid;
    Some (mkInfo gid (prepared_at_ms e) (length (prepared_ops e)))) (pending_gids (inner g)).

(** ** Schema *)
Definition add_constraint (c : Constraint) : ST NativeGraph ConstraintViolation unit := fun g =>
  if bool_decide (c ∈ constraints (inner g)) then (put_live (inner g) g, Ok tt)
  else
    let i := with_constraints (constraints (inner g) ++ [c]) (unique (inner g)) (inner g) in
    match validate_constraints i with
    | Err v => (put_live (inner g) g, Err v)
    | Ok _ => (commit_inner (sync_unique i) cs_all g, Ok tt)
    end.

Definition remove_constraint (c : Constraint) (g : NativeGraph) : NativeGraph * bool :=
  let i := inner g in
  let cs := filter (fun d => d <> c) (constraints i) in
  let i' := sync_unique (with_constraints cs (unique i) i) in
  if bool_decide (length cs <> length (constraints i))
  then (commit_inner i' cs_all g, true) else (put_live i' g, false).

(** ** Replication and mode *)
Definition engine_apply_wal_ops (sys : Sys) (ops : list WalOp) : ST NativeGraph CoreError unit := fun g =>
  match ops with
  | [] => (g, Ok tt)
  | _ =>
      match write_unless_read_only g with
      | (g, Err e) => (g, Err e)
      | (g, Ok _) =>
          let '(ids, i) := apply_wal_ops ops (g_ids g, inner g) in
          io_as IoErr (record sys ops) (commit_inner i (from_ops ops) (put_ids ids g))
      end
  end.

Definition set_read_only (on : bool) : ST NativeGraph CoreError unit := fun g =>
  if negb on && opened_read_only g then (g, Err ReadOnlyErr) else (put_read_only on g, Ok tt).

(** ** Bulk import *)
Record Dump : Type := mkDump {
  d_next_node : N;
  d_next_edge : N;
  d_nodes : list Node;
  d_edges : list Edge;
}.

(** [max().map_or(1, |m| m + 1)]. *)
Definition next_after (ids : list N) : N :=
  match ids with [] => 1 | _ => wrap_u64 (foldr N.max 0 ids + 1) end.

Definition export_dump (i : Inner) : Dump :=
  mkDump (next_after (n_id <$> all_nodes i)) (next_after (e_id <$> all_edges i))
    (all_nodes i) (all_edges i).

(** Skip an equal record, refuse another one under its id. *)
Fixpoint import_nodes (ns : list Node) (same : Node -> Node -> bool) (st : GState) :
    GState * list WalOp * result CoreError unit :=
  match ns with
  | [] => (st, [], Ok tt)
  | n :: ns =>
      match nodes st.2 !! n_id n with
      | Some m => if same m n then import_nodes ns same st else (st, [], Err (IdCollision (n_id n)))
      | None =>
          let '(st, ws, r) := import_nodes ns same (apply_wal_op (UpsertNode n) st) in
          (st, UpsertNode n :: ws, r)
      end
  end.

Fixpoint import_edges (es : list Edge) (same : Edge -> Edge -> bool) (st : GState) :
    GState * list WalOp * result CoreError unit :=
  match es with
  | [] => (st, [], Ok tt)
  | e :: es =>
      match edges st.2 !! e_id e with
      | Some d => if same d e then import_edges es same st else (st, [], Err (IdCollision (e_id e)))
      | None =>
          if bool_decide (nodes st.2 !! e_from e = None) then (st, [], Err (NodeNotFound (e_from e)))
          else if bool_decide (nodes st.2 !! e_to e = None) then (st, [], Err (NodeNotFound (e_to e)))
          else let '(st, ws, r) := import_edges es same (apply_wal_op (UpsertEdge e) st) in
               (st, UpsertEdge e :: ws, r)
      end
  end.

(** [apply_dump]; [same] is the derived equality of records, a parameter because
    it compares [f32] weights and JSON values. *)
Definition apply_dump (sys : Sys) (same_node : Node -> Node -> bool) (same_edge : Edge -> Edge -> bool)
    (d : Dump) : ST NativeGraph CoreError unit := fun g =>
  match write_for_commit g with
  | (g, Err e) => (g, Err e)
  | (g, Ok _) =>
      let '(st, ws, r) := import_nodes (d_nodes d) same_node (g_ids g, inner g) in
      match r with
      | Err e => (put_live st.2 (put_ids st.1 g), Err e)
      | Ok _ =>
          let '(st, ws', r) := import_edges (d_edges d) same_edge st in
          match r with
          | Err e => (put_live st.2 (put_ids st.1 g), Err e)
          | Ok _ =>
              let ids := Ids.observe_edge (d_next_edge d - 1) (Ids.observe_node (d_next_node d - 1) st.1) in
              let g := put_ids ids g in
              match ws ++ ws' with
              | [] => (put_live st.2 g, Ok tt)
              | ops => io_as IoErr (record sys ops) (commit_inner st.2 (from_ops ops) g)
              end
          end
      end
  end.

(** ** What a transaction has changed *)
Definition node_ids_touched (ops : list WalOp) : gset N :=
  foldl (fun s op => match op with
    | UpsertNode n => {[ n_id n ]} ∪ s
    | DeleteNode id => {[ id ]} ∪ s
    | _ => s
    end) ∅ ops.

Definition edge_ids_touched (b : Inner) (ops : list WalOp) : gset N :=
  foldl (fun s op => match op with
    | DeleteNode id => list_to_set (a_edge <$> incident_entries b id Both) ∪ s
    | UpsertEdge e => {[ e_id e ]} ∪ s
    | DeleteEdge id => {[ id ]} ∪ s
    | _ => s
    end) ∅ ops.

(** The records of [ids] that differ, as (before, after); equality of records is
    a parameter. *)
Definition changes_at {A} (same : A -> A -> bool) (before after : gmap N A) (ids : gset N) :
    list (option A * option A) :=
  omap (fun id =>
    let b := before !! id in
    let a := after !! id in
    if match b, a with
       | None, None => true
       | Some b, Some a => same b a
       | _, _ => false
       end then None else Some (b, a)) (ascending ids).

Record TxChanges : Type := mkChanges {
  ch_nodes : list (option Node * option Node);
  ch_edges : list (option Edge * option Edge);
}.

Definition tx_changes (same_node : Node -> Node -> bool) (same_edge : Edge -> Edge -> bool)
    (id : N) (g : NativeGraph) : option TxChanges :=
  slot ← reg_txs g !! id;
  let b := base slot in
  let w := working slot in
  Some (mkChanges (changes_at same_node (nodes b) (nodes w) (node_ids_touched (tx_ops slot)))
          (changes_at same_edge (edges b) (edges w) (edge_ids_touched b (tx_ops slot)))).
End transactions.
