(* ===== verification/NativeMerge.v ===== *)
(** * What a batch of operations depends on and touches

    Two states that agree on what a batch writes agree on it afterwards, and a
    batch leaves what it does not write alone.  These are the facts behind the
    merge of concurrent transactions and behind recovery. *)
From S2P Require Import Prelude NativeModel Native NativeInv NativeOps Conflict NativeRecovery.
Local Open Scope string_scope.
Local Open Scope list_scope.
Local Open Scope N_scope.

(** The operations that change records: not the two-phase-commit markers. *)
Definition plain (op : WalOp) : bool :=
  match op with
  | Prepare _ _ _ | CommitPrepared _ | RollbackPrepared _ _ => false
  | _ => true
  end.

(** [a] and [b] hold the same under [k]; a node's vector goes with it. *)
Definition agree_at (a b : Inner) (k : Key) : Prop :=
  match k with
  | KNode i => nodes a !! i = nodes b !! i /\ embeddings a !! i = embeddings b !! i
  | KEdge i => edges a !! i = edges b !! i
  end.

Lemma agree_refl a k : agree_at a a k.
Proof. by destruct k. Qed.
Lemma agree_sym a b k : agree_at a b k -> agree_at b a k.
Proof. destruct k; simpl; intuition congruence. Qed.
Lemma agree_trans a b c k : agree_at a b k -> agree_at b c k -> agree_at a c k.
Proof. destruct k; simpl; intuition congruence. Qed.

Section merge.
Context `{JsonText}.

Lemma remove_edge_agree i g k : agree_at (remove_edge i g) g k \/ k = KEdge i.
Proof.
  destruct (remove_edge_nodes i g) as (Hn & _ & _ & _ & _ & _ & He & Hes).
  destruct k as [j|j]; simpl; [left; by rewrite Hn, He|].
  destruct (decide (j = i)) as [->|Hne]; [by right|left]. rewrite Hes. by apply lookup_delete_ne.
Qed.

(** The records after one plain operation. *)
Lemma op_nodes op st i : plain op = true ->
  nodes (apply_wal_op op st).2 !! i =
    match op with
    | UpsertNode n => if decide (n_id n = i) then Some n else nodes st.2 !! i
    | DeleteNode id => if decide (id = i) then None else nodes st.2 !! i
    | _ => nodes st.2 !! i
    end.
Proof.
  destruct op as [n|id|e|id|id v|id|gid at_ ops|gid|gid h]; try done; intros _.
  - rewrite apply_upsert_node. apply upsert_node_records.
  - rewrite apply_delete_node. destruct (nodes st.2 !! id) as [n|] eqn:Hn; cbn [snd].
    + unfold drop_node.
      pose proof (remove_edges_nodes (a_edge <$> incident_entries st.2 id Both) st.2) as (Hs & _).
      remember (remove_edges _ st.2) as g1 eqn:Eg. clear Eg. cbn -[unique_del].
      rewrite Hs. apply lookup_delete.
    + case_decide; [congruence|done].
  - rewrite apply_upsert_edge. destruct (upsert_edge_frame e st) as (-> & _). done.
  - rewrite apply_delete_edge. cbn [snd]. by destruct (remove_edge_nodes id st.2) as (-> & _).
  - by rewrite apply_set_embedding.
  - by rewrite apply_delete_embedding.
Qed.

Lemma op_embeddings op st i : plain op = true ->
  embeddings (apply_wal_op op st).2 !! i =
    match op with
    | DeleteNode id => if decide (id = i /\ is_Some (nodes st.2 !! id)) then None else embeddings st.2 !! i
    | SetEmbedding id v => if decide (id = i) then Some v else embeddings st.2 !! i
    | DeleteEmbedding id => if decide (id = i) then None else embeddings st.2 !! i
    | _ => embeddings st.2 !! i
    end.
Proof.
  destruct op as [n|id|e|id|id v|id|gid at_ ops|gid|gid h]; try done; intros _.
  - rewrite apply_upsert_node. by destruct (upsert_node_frame n st) as (_ & _ & -> & _).
  - rewrite apply_delete_node. destruct (nodes st.2 !! id) as [n|] eqn:Hn; cbn [snd].
    + unfold drop_node.
      pose proof (remove_edges_nodes (a_edge <$> incident_entries st.2 id Both) st.2)
        as (_ & _ & _ & _ & _ & _ & Hs).
      remember (remove_edges _ st.2) as g1 eqn:Eg. clear Eg. cbn -[unique_del].
      rewrite Hs, lookup_delete. apply decide_ext. split; [by split|tauto].
    + rewrite decide_False; [done|]. intros [_ [? ?]]. congruence.
  - rewrite apply_upsert_edge. by destruct (upsert_edge_frame e st) as (_ & -> & _).
  - rewrite apply_delete_edge. cbn [snd]. by destruct (remove_edge_nodes id st.2) as (_ & _ & _ & _ & _ & _ & -> & _).
  - rewrite apply_set_embedding. cbn. apply lookup_insert.
  - rewrite apply_delete_embedding. cbn. apply lookup_delete.
Qed.

Lemma op_edges op st i : g_edges_wf st.2 -> plain op = true ->
  edges (apply_wal_op op st).2 !! i =
    match op with
    | UpsertEdge e => if decide (e_id e = i) then Some e else edges st.2 !! i
    | DeleteEdge id => if decide (id = i) then None else edges st.2 !! i
    | DeleteNode id =>
        e ← edges st.2 !! i;
        if decide ((e_from e = id \/ e_to e = id) /\ is_Some (nodes st.2 !! id)) then None else Some e
    | _ => edges st.2 !! i
    end.
Proof.
  intros E. destruct op as [n|id|e|id|id v|id|gid at_ ops|gid|gid h]; try done; intros _.
  - rewrite apply_upsert_node. by destruct (upsert_node_frame n st) as (-> & _).
  - rewrite apply_delete_node. destruct (nodes st.2 !! id) as [n|] eqn:Hn; cbn [snd].
    + destruct (drop_node_records id n st.2 i E) as (_ & -> & _).
      destruct (edges st.2 !! i); [|done]. cbn [mbind option_bind]. apply decide_ext.
      split; [by split|tauto].
    + destruct (edges st.2 !! i); [|done]. cbn [mbind option_bind].
      rewrite decide_False; [done|]. intros [_ [? ?]]. congruence.
  - rewrite apply_upsert_edge. apply upsert_edge_records.
  - rewrite apply_delete_edge. cbn [snd].
    destruct (remove_edge_nodes id st.2) as (_ & _ & _ & _ & _ & _ & _ & ->). apply lookup_delete.
  - by rewrite apply_set_embedding.
  - by rewrite apply_delete_embedding.
Qed.

(** What is pending does not matter to a plain operation. *)
Lemma remove_edges_prepared l p h g :
  remove_edges l (with_prepared p h g) = with_prepared p h (remove_edges l g).
Proof.
  revert g. induction l as [|i l IH]; intros g; [done|]. simpl.
  assert (remove_edge i (with_prepared p h g) = with_prepared p h (remove_edge i g)) as ->; [|apply IH].
  unfold remove_edge. cbn. by destruct (edges g !! i).
Qed.

Lemma op_prepared op ids p h g : plain op = true ->
  apply_wal_op op (ids, with_prepared p h g) =
    ((apply_wal_op op (ids, g)).1, with_prepared p h (apply_wal_op op (ids, g)).2).
Proof.
  destruct op as [n|id|e|id|id v|id|gid at_ ops|gid|gid hh]; try done; intros _.
  - rewrite !apply_upsert_node. unfold upsert_node. cbn. by destruct (nodes g !! n_id n).
  - rewrite !apply_delete_node. cbn. destruct (nodes g !! id); [|done]. cbn [fst snd].
    unfold drop_node.
    change (incident_entries (with_prepared p h g) id Both) with (incident_entries g id Both).
    by rewrite remove_edges_prepared.
  - rewrite !apply_upsert_edge. unfold upsert_edge, link_edge, intern_kind.
    assert (remove_edge (e_id e) (with_prepared p h g) = with_prepared p h (remove_edge (e_id e) g)) as ->.
    { unfold remove_edge. cbn. by destruct (edges g !! e_id e). }
    cbn. by destruct (kind_ids (remove_edge (e_id e) g) !! e_kind e).
  - rewrite !apply_delete_edge. cbn. unfold remove_edge. cbn. by destruct (edges g !! id).
Qed.

Lemma ops_prepared ops ids p h g : Forall (fun op => plain op = true) ops ->
  (apply_wal_ops ops (ids, with_prepared p h g)).2 = with_prepared p h (apply_wal_ops ops (ids, g)).2.
Proof.
  revert ids g. induction ops as [|op ops IH]; intros ids g Hp; [done|].
  apply Forall_cons in Hp as [Hop Hp]. rewrite !apply_wal_ops_cons, op_prepared by done.
  destruct (apply_wal_op op (ids, g)) as [ids' g']. by apply IH.
Qed.

(** ** Runs of plain operations on well-formed states *)

(** The interned kinds of every state on the way fit, so each is well-formed. *)
Definition runs (ops : list WalOp) (st : GState) : Prop :=
  Forall (fun op => plain op = true) ops /\ good st /\ kinds_fit (apply_wal_ops ops st).2.

Lemma runs_cons op ops st : runs (op :: ops) st ->
  plain op = true /\ g_edges_wf st.2 /\ runs ops (apply_wal_op op st).
Proof.
  intros (Hp & Hg & Hf). apply Forall_cons in Hp as [Hop Hp].
  split; [done|]. split; [apply Hg|]. split; [done|]. split; [|done].
  destruct (apply_wal_op_grows op st) as [_ Hgood]. apply Hgood; [|done].
  destruct (apply_wal_ops_grows ops (apply_wal_op op st)) as [Hsz _].
  unfold kinds_fit in *. rewrite apply_wal_ops_cons in Hf. lia.
Qed.

Lemma agree_op (D : Key -> Prop) op a b :
  plain op = true -> g_edges_wf a.2 -> g_edges_wf b.2 ->
  (forall j, KNode j ∈ cs_deletes (from_op cs_empty op) -> D (KNode j)) ->
  (forall k, D k -> agree_at a.2 b.2 k) ->
  forall k, D k -> agree_at (apply_wal_op op a).2 (apply_wal_op op b).2 k.
Proof.
  intros Hp Ea Eb Hd Ha k Hk. pose proof (Ha k Hk) as Hak. destruct k as [i|i]; simpl in *.
  - destruct Hak as [Hn He]. rewrite !op_nodes, !op_embeddings by done. split.
    + destruct op; simpl; rewrite ?Hn; done.
    + destruct op; simpl; rewrite ?He; try done. apply decide_ext. split; intros [-> Hs]; (split; [done|]);
        by rewrite ?Hn in *.
  - rewrite !op_edges by done. destruct op as [n|id|e|id|id v|id|gid at_ ops|gid|gid h];
      simpl in *; rewrite ?Hak; try done.
    destruct (edges b.2 !! i); [|done]. cbn [mbind option_bind].
    destruct (Ha (KNode id) (Hd id ltac:(set_solver))) as [-> _]. done.
Qed.

Lemma deletes_cons op ops k : k ∈ cs_deletes (from_ops (op :: ops)) <->
  k ∈ cs_deletes (from_op cs_empty op) \/ k ∈ cs_deletes (from_ops ops).
Proof. rewrite from_ops_cons. cbn [cs_extend cs_deletes]. apply elem_of_union. Qed.
Lemma writes_cons op ops k : k ∈ cs_writes (from_ops (op :: ops)) <->
  k ∈ cs_writes (from_op cs_empty op) \/ k ∈ cs_writes (from_ops ops).
Proof. rewrite from_ops_cons. cbn [cs_extend cs_writes]. apply elem_of_union. Qed.
Lemma edge_writes op i : KEdge i ∈ cs_writes (from_op cs_empty op) ->
  match op with UpsertEdge d => i = e_id d | DeleteEdge j => i = j | _ => False end.
Proof. destruct op; simpl; set_solver. Qed.
Lemma deps_cons op ops k : k ∈ cs_deps (from_ops (op :: ops)) <->
  k ∈ cs_deps (from_op cs_empty op) \/ k ∈ cs_deps (from_ops ops).
Proof. rewrite from_ops_cons. cbn [cs_extend cs_deps]. apply elem_of_union. Qed.

(** What a batch writes depends only on what it writes. *)
Lemma agree_ops (D : Key -> Prop) ops a b : runs ops a -> runs ops b ->
  (forall j, KNode j ∈ cs_deletes (from_ops ops) -> D (KNode j)) ->
  (forall k, D k -> agree_at a.2 b.2 k) ->
  forall k, D k -> agree_at (apply_wal_ops ops a).2 (apply_wal_ops ops b).2 k.
Proof.
  revert a b. induction ops as [|op ops IH]; intros a b Ra Rb Hd Ha; [done|].
  apply runs_cons in Ra as (Hp & Ea & Ra), Rb as (_ & Eb & Rb).
  rewrite !apply_wal_ops_cons. apply IH; [done|done| |].
  - intros k Hk. apply Hd, deletes_cons. by right.
  - apply agree_op; [done..| |done]. intros k Hk. apply Hd, deletes_cons. by left.
Qed.

(** The edge [e] is attached to a node the batch deletes. *)
Definition cascaded (ops : list WalOp) (e : Edge) : Prop :=
  KNode (e_from e) ∈ cs_deletes (from_ops ops) \/ KNode (e_to e) ∈ cs_deletes (from_ops ops).

Lemma cascaded_cons op ops e : cascaded ops e -> cascaded (op :: ops) e.
Proof. unfold cascaded. rewrite !deletes_cons. tauto. Qed.

(** A batch leaves alone what it does not write, cascades apart. *)
Lemma frame_node ops st i : runs ops st -> KNode i ∉ cs_writes (from_ops ops) ->
  agree_at (apply_wal_ops ops st).2 st.2 (KNode i).
Proof.
  revert st. induction ops as [|op ops IH]; intros st R Hw; [by split|].
  apply runs_cons in R as (Hp & E & R). rewrite writes_cons in Hw.
  rewrite apply_wal_ops_cons. eapply agree_trans; [apply IH; [done|tauto]|].
  assert (KNode i ∉ cs_writes (from_op cs_empty op)) as Hi by tauto. simpl.
  rewrite op_nodes, op_embeddings by done.
  destruct op; simpl in *; (split; [try done|try done]);
    rewrite decide_False; try done; set_solver.
Qed.

Lemma frame_edge ops st i : runs ops st -> KEdge i ∉ cs_writes (from_ops ops) ->
  edges (apply_wal_ops ops st).2 !! i = edges st.2 !! i \/
  (edges (apply_wal_ops ops st).2 !! i = None /\ exists e, edges st.2 !! i = Some e /\ cascaded ops e).
Proof.
  revert st. induction ops as [|op ops IH]; intros st R Hw; [by left|].
  apply runs_cons in R as (Hp & E & R). rewrite writes_cons in Hw. rewrite apply_wal_ops_cons.
  assert (KEdge i ∉ cs_writes (from_op cs_empty op)) as Hi by tauto.
  pose proof (op_edges op st i E Hp) as Hop.
  assert (edges (apply_wal_op op st).2 !! i = edges st.2 !! i \/
    (edges (apply_wal_op op st).2 !! i = None /\
     exists e, edges st.2 !! i = Some e /\ cascaded (op :: ops) e)) as Hstep.
  { destruct op as [n|id|e|id|id v|id|gid at_ l|gid|gid h]; simpl in *; try (by left); try done.
    - destruct (edges st.2 !! i) as [e|]; cbn [mbind option_bind] in Hop; [|by left].
      case_decide as Hc; [|by left]. right. split; [done|]. exists e. split; [done|].
      unfold cascaded. rewrite !deletes_cons. simpl. destruct Hc as [[<-|<-] _]; set_solver.
    - rewrite decide_False in Hop by set_solver. by left.
    - rewrite decide_False in Hop by set_solver. by left. }
  destruct (IH (apply_wal_op op st) R ltac:(tauto)) as [->|(-> & e & He & Hc)].
  - done.
  - right. split; [done|]. destruct Hstep as [Hs|(Hs & _)]; [|congruence].
    exists e. split; [congruence|by apply cascaded_cons].
Qed.

(** An edge the batch wrote and left in place has its endpoints among what the
    batch depends on. *)
Lemma written_edge_deps ops st i e : runs ops st -> KEdge i ∈ cs_writes (from_ops ops) ->
  edges (apply_wal_ops ops st).2 !! i = Some e ->
  KNode (e_from e) ∈ cs_deps (from_ops ops) /\ KNode (e_to e) ∈ cs_deps (from_ops ops).
Proof.
  revert st. induction ops as [|op ops IH]; intros st R Hw He; [set_solver|].
  apply runs_cons in R as (Hp & E & R). rewrite apply_wal_ops_cons in He. rewrite !deps_cons.
  destruct (decide (KEdge i ∈ cs_writes (from_ops ops))) as [Hin|Hout].
  { destruct (IH _ R Hin He). tauto. }
  apply writes_cons in Hw as [Hw|?]; [|done].
  assert (edges (apply_wal_op op st).2 !! i = Some e) as Hop.
  { destruct (frame_edge ops _ i R Hout) as [<-|(Hn & _)]; [done|congruence]. }
  rewrite (op_edges op st i E Hp) in Hop.
  destruct op as [n|id|d|id|id v|id|gid at_ l|gid|gid h]; simpl in *; try set_solver.
  - rewrite decide_True in Hop by set_solver. injection Hop as <-. set_solver.
  - rewrite decide_True in Hop by set_solver. done.
Qed.
End merge.

(** ** What a change covers *)

(** Going from [a] to [b] touched at most what [set] says: other nodes keep their
    record and vector, other edges stay or went with a deleted node, a written
    edge depends on its endpoints, and no node disappeared unless deleted. *)
Record covered (set : ConflictSet) (a b : Inner) : Prop := {
  cov_node : forall i, KNode i ∉ cs_writes set -> agree_at b a (KNode i);
  cov_edge : forall i, KEdge i ∉ cs_writes set -> edges b !! i = edges a !! i \/
    (edges b !! i = None /\ exists e, edges a !! i = Some e /\
      (KNode (e_from e) ∈ cs_deletes set \/ KNode (e_to e) ∈ cs_deletes set));
  cov_deps : forall i e, KEdge i ∈ cs_writes set -> edges b !! i = Some e ->
    KNode (e_from e) ∈ cs_deps set /\ KNode (e_to e) ∈ cs_deps set;
  cov_kept : forall i, KNode i ∉ cs_deletes set -> is_Some (nodes a !! i) -> is_Some (nodes b !! i);
}.

Lemma covered_same set a b : cs_writes set = ∅ -> (forall k, agree_at b a k) -> covered set a b.
Proof.
  intros Hw Ha. split.
  - intros i _. exact (Ha (KNode i)).
  - intros i _. left. exact (Ha (KEdge i)).
  - rewrite Hw. set_solver.
  - intros i _ Hs. destruct (Ha (KNode i)) as [-> _]. done.
Qed.

Lemma covered_ext set a b b' : covered set a b -> (forall k, agree_at b' b k) -> covered set a b'.
Proof.
  intros [C1 C2 C3 C4] Ha. split.
  - intros i Hi. exact (agree_trans _ _ _ (KNode i) (Ha (KNode i)) (C1 i Hi)).
  - intros i Hi. pose proof (Ha (KEdge i)) as He. simpl in He. rewrite He. by apply C2.
  - intros i e Hi. pose proof (Ha (KEdge i)) as He. simpl in He. rewrite He. by apply C3.
  - intros i Hi Hs. destruct (Ha (KNode i)) as [-> _]. by apply C4.
Qed.

Lemma covered_trans_same set a b c : (forall k, agree_at b a k) -> covered set b c -> covered set a c.
Proof.
  intros Ha [C1 C2 C3 C4]. split.
  - intros i Hi. exact (agree_trans _ _ _ (KNode i) (C1 i Hi) (Ha (KNode i))).
  - intros i Hi. pose proof (Ha (KEdge i)) as He. simpl in He. rewrite <- He. by apply C2.
  - done.
  - intros i Hi Hs. apply C4; [done|]. destruct (Ha (KNode i)) as [-> _]. done.
Qed.

Lemma covered_trans s t a b c : covered s a b -> covered t b c -> covered (cs_extend s t) a c.
Proof.
  intros [A1 A2 A3 A4] [B1 B2 B3 B4]. split; simpl.
  - intros i Hi. refine (agree_trans _ _ _ (KNode i) (B1 i _) (A1 i _)); set_solver.
  - intros i Hi. destruct (B2 i ltac:(set_solver)) as [->|(Hn & e & He & Hd)].
    + destruct (A2 i ltac:(set_solver)) as [?|(Hn & e & He & Hd)]; [by left|right].
      split; [done|]. exists e. split; [done|]. set_solver.
    + destruct (A2 i ltac:(set_solver)) as [Hs|(Hn' & e' & He' & Hd')]; [|congruence].
      right. split; [done|]. exists e. split; [congruence|]. set_solver.
  - intros i e Hi He. destruct (decide (KEdge i ∈ cs_writes t)) as [Ht|Ht].
    + destruct (B3 i e Ht He). set_solver.
    + destruct (B2 i Ht) as [Hs|(Hn & _)]; [|congruence].
      destruct (A3 i e ltac:(set_solver) ltac:(congruence)). set_solver.
  - intros i Hi Hs. apply B4; [set_solver|]. apply A4; [set_solver|done].
Qed.

Section cover.
Context `{JsonText}.

Lemma kept_ops ops st i : runs ops st -> KNode i ∉ cs_deletes (from_ops ops) ->
  is_Some (nodes st.2 !! i) -> is_Some (nodes (apply_wal_ops ops st).2 !! i).
Proof.
  revert st. induction ops as [|op ops IH]; intros st R Hd Hs; [done|].
  apply runs_cons in R as (Hp & E & R). rewrite deletes_cons in Hd. rewrite apply_wal_ops_cons.
  apply IH; [done|tauto|]. rewrite op_nodes by done.
  destruct op; simpl in *; try done; [by case_decide|]. rewrite decide_False; [done|]. set_solver.
Qed.

Lemma covered_ops ops st : runs ops st -> covered (from_ops ops) st.2 (apply_wal_ops ops st).2.
Proof.
  intros R. split.
  - intros i. by apply frame_node.
  - intros i. by apply frame_edge.
  - intros i e. by apply written_edge_deps.
  - intros i. by apply kept_ops.
Qed.

(** An edge the batch does not write cannot keep a node it removes. *)
Lemma untouched_edge_linked ops st i e x : runs ops st -> KEdge i ∉ cs_writes (from_ops ops) ->
  edges (apply_wal_ops ops st).2 !! i = Some e -> e_from e = x \/ e_to e = x ->
  is_Some (nodes st.2 !! x) -> is_Some (nodes (apply_wal_ops ops st).2 !! x).
Proof.
  revert st. induction ops as [|op ops IH]; intros st R Hw He Hx Hs; [done|].
  apply runs_cons in R as (Hp & E & R). rewrite writes_cons in Hw. rewrite apply_wal_ops_cons in *.
  apply (IH (apply_wal_op op st)); [done|tauto|done|done|].
  rewrite op_nodes by done. destruct op as [n|id|d|id|id v|id|gid at_ l|gid|gid h]; try done;
    [by case_decide|]. case_decide as Hid; [|done]. subst id. exfalso.
  destruct (frame_edge ops _ i R ltac:(tauto)) as [Hf|(Hn & _)]; [|congruence].
  rewrite He, op_edges in Hf by done. destruct (edges st.2 !! i) as [e0|]; [|done].
  cbn [mbind option_bind] in Hf. case_decide as Hc; [done|]. injection Hf as ->. tauto.
Qed.

(** Whether a written edge is there afterwards, and what it is, does not depend
    on whether it was there before. *)
Lemma decided_edge ops a b i : runs ops a -> runs ops b ->
  (forall j, KNode j ∈ cs_deletes (from_ops ops) -> agree_at a.2 b.2 (KNode j)) ->
  KEdge i ∈ cs_writes (from_ops ops) ->
  edges (apply_wal_ops ops a).2 !! i = edges (apply_wal_ops ops b).2 !! i.
Proof.
  revert a b. induction ops as [|op ops IH]; intros a b Ra Rb Hd Hw; [set_solver|].
  apply runs_cons in Ra as (Hp & Ea & Ra), Rb as (_ & Eb & Rb). rewrite !apply_wal_ops_cons.
  set (D := fun k => exists j, k = KNode j /\ k ∈ cs_deletes (from_ops (op :: ops))).
  assert (forall k, D k -> agree_at (apply_wal_op op a).2 (apply_wal_op op b).2 k) as Hn.
  { apply agree_op; [done..| |].
    - intros j Hj. exists j. split; [done|]. apply deletes_cons. by left.
    - intros k (j & -> & Hk). by apply Hd. }
  assert (forall j, KNode j ∈ cs_deletes (from_ops ops) -> D (KNode j)) as Hsub.
  { intros j Hj. exists j. split; [done|]. apply deletes_cons. by right. }
  destruct (decide (KEdge i ∈ cs_writes (from_ops ops))) as [Hin|Hout].
  { apply IH; [done|done| |done]. intros j Hj. by apply Hn, Hsub. }
  apply writes_cons in Hw as [Hw|?]; [|done].
  apply (agree_ops (fun k => D k \/ k = KEdge i) ops _ _ Ra Rb (fun j Hj => or_introl (Hsub j Hj)))
    with (k := KEdge i); [|by right].
  intros k [Hk| ->]; [by apply Hn|]. simpl. rewrite !op_edges by done.
  apply edge_writes in Hw. destruct op; try done; by rewrite !decide_True.
Qed.

(** ** Merging *)

Lemma intersects_false a b : cs_everything a = false -> cs_everything b = false ->
  intersects a b = false ->
  (forall k, k ∈ cs_writes a -> k ∈ cs_writes b -> False) /\
  (forall k, k ∈ cs_deps a -> k ∈ cs_deletes b -> False) /\
  (forall k, k ∈ cs_deletes a -> k ∈ cs_deps b -> False).
Proof.
  unfold intersects. intros -> ->. rewrite !orb_false_iff, !meets_false. tauto.
Qed.

Lemma intersects_extend a b c : cs_everything a = false -> cs_everything b = false ->
  cs_everything c = false -> intersects a b = false -> intersects a c = false ->
  intersects a (cs_extend b c) = false.
Proof.
  intros Ea Eb Ec Hb Hc.
  destruct (intersects_false _ _ Ea Eb Hb) as (B1 & B2 & B3).
  destruct (intersects_false _ _ Ea Ec Hc) as (D1 & D2 & D3).
  unfold intersects. cbn [cs_extend cs_everything cs_writes cs_deletes cs_deps]. rewrite Ea, Eb, Ec.
  cbn [orb]. rewrite !orb_false_iff, !meets_false. split_and!; intros k Hk [?|?]%elem_of_union; eauto.
Qed.

Lemma deletes_writes ops k : k ∈ cs_deletes (from_ops ops) -> k ∈ cs_writes (from_ops ops).
Proof.
  induction ops as [|op ops IH]; [set_solver|]. rewrite deletes_cons, writes_cons.
  intros [Hk|?]; [left|right; auto]. destruct op; simpl in *; set_solver.
Qed.

(** [mine] ran on [base]; [live] is [base] after changes [theirs] covers; the two
    do not clash. *)
Record merges (mine : list WalOp) (theirs : ConflictSet) (base live : GState) : Prop := {
  m_base : runs mine base;
  m_live : runs mine live;
  m_cov : covered theirs base.2 live.2;
  m_every : cs_everything theirs = false;
  m_apart : intersects (from_ops mine) theirs = false;
}.

(** What the transaction wrote is what it saw. *)
Lemma merge_mine mine theirs base live k : merges mine theirs base live ->
  k ∈ cs_writes (from_ops mine) ->
  agree_at (apply_wal_ops mine live).2 (apply_wal_ops mine base).2 k.
Proof.
  intros [Rb Rl [C1 C2 C3 C4] Hev Hap] Hk.
  destruct (intersects_false _ _ (from_ops_everything mine) Hev Hap) as (W & _ & _).
  assert (forall j, KNode j ∈ cs_writes (from_ops mine) -> agree_at live.2 base.2 (KNode j)) as Hn.
  { intros j Hj. apply C1. intros Hj'. by eapply W. }
  destruct k as [i|i].
  - apply (agree_ops (fun k => exists j, k = KNode j /\ k ∈ cs_writes (from_ops mine)) mine);
      [done|done| | |eauto].
    + intros j Hj. exists j. split; [done|]. by apply deletes_writes.
    + intros k (j & -> & Hj). by apply Hn.
  - apply decided_edge; [done|done| |done]. intros j Hj. by apply Hn, deletes_writes.
Qed.

(** What the others wrote is kept. *)
Lemma merge_theirs mine theirs base live k : merges mine theirs base live ->
  k ∈ cs_writes theirs -> agree_at (apply_wal_ops mine live).2 live.2 k.
Proof.
  intros [Rb Rl [C1 C2 C3 C4] Hev Hap] Hk.
  destruct (intersects_false _ _ (from_ops_everything mine) Hev Hap) as (W & _ & D).
  destruct k as [i|i].
  - apply frame_node; [done|]. intros Hi. by eapply W.
  - destruct (frame_edge mine live i Rl) as [He|(Hn & e & He & Hc)]; [intros Hi; by eapply W|done|].
    exfalso. destruct (C3 i e Hk He) as [Hf Ht]. destruct Hc; eapply D; eauto.
Qed.

(** No edge of the merged state dangles. *)
Lemma merge_linked mine theirs base live : merges mine theirs base live ->
  linked live.2 -> linked (apply_wal_ops mine base).2 -> linked (apply_wal_ops mine live).2.
Proof.
  intros M Ll Lw i e He. pose proof (merge_mine mine theirs base live) as Hm.
  destruct M as [Rb Rl C Hev Hap] eqn:EM. clear EM.
  destruct (intersects_false _ _ (from_ops_everything mine) Hev Hap) as (W & D & _).
  assert (forall x, e_from e = x \/ e_to e = x -> is_Some (nodes (apply_wal_ops mine live).2 !! x)) as Hx;
    [|split; apply Hx; tauto].
  intros x Hx. destruct (decide (KEdge i ∈ cs_writes (from_ops mine))) as [Hin|Hout].
  - pose proof (Hm (KEdge i) ltac:(done) Hin) as Hag. simpl in Hag. rewrite He in Hag.
    assert (is_Some (nodes (apply_wal_ops mine base).2 !! x)) as Hw.
    { destruct (Lw i e (eq_sym Hag)). destruct Hx; congruence. }
    destruct (decide (KNode x ∈ cs_writes (from_ops mine))) as [Hxin|Hxout].
    + destruct (Hm (KNode x) ltac:(done) Hxin) as [-> _]. done.
    + destruct (written_edge_deps mine base i e Rb Hin (eq_sym Hag)) as [Df Dt].
      destruct (frame_node mine live x Rl Hxout) as [-> _].
      destruct (frame_node mine base x Rb Hxout) as [Hb _]. rewrite Hb in Hw.
      apply (cov_kept _ _ _ C); [|done]. intros Hd.
      destruct Hx; subst x; [exact (D _ Df Hd)|exact (D _ Dt Hd)].
  - destruct (frame_edge mine live i Rl Hout) as [Hf|(Hn & _)]; [|congruence].
    apply (untouched_edge_linked mine live i e x); [done..|].
    destruct (Ll i e ltac:(congruence)). destruct Hx; congruence.
Qed.
End cover.
