(* ===== verification/NativeEngine.v ===== *)
(** * The engine under any sequence of calls

    What holds of the live graph, the open transactions, the conflict history
    and the log in every state the engine can reach. *)
From S2P Require Import Prelude NativeModel Native NativeInv NativeOps Conflict NativeSpec NativeRecovery.
From S2P Require Import NativeTx NativeMerge.
Local Open Scope string_scope.
Local Open Scope list_scope.
Local Open Scope N_scope.

(** ** Counters only grow *)
Definition ids_le (a b : IdCounters) : Prop := last_node a <= last_node b /\ last_edge a <= last_edge b.

#[global] Instance ids_le_preorder : PreOrder ids_le.
Proof.
  split; [intros a; unfold ids_le; lia|]. intros a b c. unfold ids_le. lia.
Qed.

Lemma counted_mono a b g : ids_le a b -> counted a g -> counted b g.
Proof. intros [H1 H2] [C1 C2]. split; intros i Hi; [apply C1 in Hi|apply C2 in Hi]; lia. Qed.

Section engine.
Context `{JsonText}.

Lemma live_mono a b g : ids_le a b -> live (a, g) -> live (b, g).
Proof. intros Hle (W & L & C). split_and!; [done|done|]. by eapply counted_mono. Qed.

(** The counters of a state do not matter to what it holds. *)
Lemma live_good st : live st -> good st.
Proof. intros (W & _ & C). done. Qed.

Lemma apply_fuel_ids fuel op st st' : apply_wal_op_fuel fuel op st = Some st' -> ids_le st.1 st'.1.
Proof.
  revert op st st'. induction fuel as [|fuel IH]; intros op [ids g] st' Ha; [done|].
  destruct op as [n|id|e|id|id v|id|gid at_ ops|gid|gid h]; cbn [apply_wal_op_fuel] in Ha;
    try (injection Ha as <-; done).
  - injection Ha as <-. cbn. unfold ids_le. simpl. lia.
  - destruct (nodes g !! id); by injection Ha as <-.
  - injection Ha as <-. cbn. unfold ids_le. simpl. lia.
  - destruct (prepared g !! gid) as [e|]; [|by injection Ha as <-].
    eapply (fold_ops_ind _ (fun s => ids_le ids s.1) _ _ _ Ha); [done|].
    intros o s s' _ Hs Ho. etrans; [exact Hs|]. by eapply IH.
Qed.

Lemma apply_wal_op_ids op st : ids_le st.1 (apply_wal_op op st).1.
Proof.
  unfold apply_wal_op.
  destruct (apply_fuel_total (S (prepared_weight st.2 + op_weight op)) op st) as (s & Es & _); [lia|].
  rewrite Es. by eapply apply_fuel_ids.
Qed.

Lemma apply_wal_ops_ids ops st : ids_le st.1 (apply_wal_ops ops st).1.
Proof.
  revert st. induction ops as [|op ops IH]; intros st; [done|].
  etrans; [apply apply_wal_op_ids|apply IH].
Qed.

(** ** The log entry of an operation reproduces it *)

Lemma log_op_run env require op st :
  (log_op env require op st).1 = (run_op env require op st).1.
Proof.
  destruct op as [n|id p|id|e|id p|id]; unfold log_op, run_op.
  - by destruct (create_node_checked env n require st) as [? []].
  - by destruct (on_inner _ st) as [? []].
  - by destruct (on_inner _ st) as [? []].
  - by destruct (create_edge env e st) as [? []].
  - by destruct (on_inner _ st) as [? []].
  - by destruct (on_inner _ st) as [? []].
Qed.

(** Neither records nor the two-phase-commit state differ. *)
Definition same_as (a b : Inner) : Prop :=
  (forall k, agree_at a b k) /\ prepared a = prepared b /\ heuristic a = heuristic b.

Lemma same_as_contents a b : same_as a b <-> same_contents b a.
Proof.
  unfold same_as, same_contents. split.
  - intros (Ha & Hp & Hh). split_and!; [| | |done|done]; apply map_eq; intros i.
    + by destruct (Ha (KNode i)).
    + exact (Ha (KEdge i)).
    + by destruct (Ha (KNode i)).
  - intros (Hn & He & Hm & Hp & Hh). split_and!; [|done|done].
    intros [i|i]; simpl; by rewrite ?Hn, ?Hm, ?He.
Qed.

#[global] Instance same_as_equiv : Equivalence same_as.
Proof.
  split.
  - intros a. split_and!; [|done|done]. intros k. apply agree_refl.
  - intros a b (Ha & Hp & Hh). split_and!; [|done|done]. intros k. by apply agree_sym.
  - intros a b c (Ha & Hp & Hh) (Hb & Hp' & Hh'). split_and!; [|congruence|congruence].
    intros k. eapply agree_trans; eauto.
Qed.

Lemma op_two_phase op st : plain op = true ->
  prepared (apply_wal_op op st).2 = prepared st.2 /\ heuristic (apply_wal_op op st).2 = heuristic st.2.
Proof.
  destruct op as [n|id|e|id|id v|id|gid at_ ops|gid|gid h]; try done; intros _.
  - rewrite apply_upsert_node. by destruct (upsert_node_frame n st) as (_ & _ & _ & -> & ->).
  - rewrite apply_delete_node. destruct (nodes st.2 !! id) as [n|]; [|done]. cbn [snd].
    apply drop_node_two_phase.
  - rewrite apply_upsert_edge. by destruct (upsert_edge_frame e st) as (_ & _ & -> & ->).
  - rewrite apply_delete_edge. cbn [snd]. unfold remove_edge. by destruct (edges st.2 !! id).
  - by rewrite apply_set_embedding.
  - by rewrite apply_delete_embedding.
Qed.

Lemma ops_two_phase ops st : Forall (fun op => plain op = true) ops ->
  prepared (apply_wal_ops ops st).2 = prepared st.2 /\ heuristic (apply_wal_ops ops st).2 = heuristic st.2.
Proof.
  revert st. induction ops as [|op ops IH]; intros st Hp; [done|].
  apply Forall_cons in Hp as [Hop Hp]. rewrite apply_wal_ops_cons.
  destruct (IH (apply_wal_op op st) Hp) as [-> ->]. by apply op_two_phase.
Qed.

Lemma same_ops ops a b : runs ops a -> runs ops b -> same_as a.2 b.2 ->
  same_as (apply_wal_ops ops a).2 (apply_wal_ops ops b).2.
Proof.
  intros Ra Rb (Ha & Hp & Hh). pose proof (proj1 Ra) as Hpl.
  destruct (ops_two_phase ops a Hpl) as [Pa Qa], (ops_two_phase ops b Hpl) as [Pb Qb].
  split_and!; [|congruence|congruence]. intros k.
  by apply (agree_ops (fun _ => True) ops a b Ra Rb).
Qed.

Lemma log_op_replay env require op st st' w : live st -> room st.1 ->
  log_op env require op st = (st', Ok w) ->
  plain w = true /\ same_as st'.2 (apply_wal_op w st).2 /\ constraints st'.2 = constraints st.2.
Proof.
  destruct st as [ids g]. intros Hl Hr Hlog.
  pose proof (run_op_nodes env require op (ids, g) Hl Hr) as [Hc _]. rewrite <- log_op_run, Hlog in Hc.
  cbn [fst snd] in Hc. rewrite Hc. split_and!; [| |done].
  { destruct op; unfold log_op in Hlog.
    - destruct (create_node_checked env n require (ids, g)) as [? []]; by simplify_eq.
    - destruct (on_inner _ (ids, g)) as [? []]; by simplify_eq.
    - destruct (on_inner _ (ids, g)) as [? []]; by simplify_eq.
    - destruct (create_edge env e (ids, g)) as [? []]; by simplify_eq.
    - destruct (on_inner _ (ids, g)) as [? []]; by simplify_eq.
    - destruct (on_inner _ (ids, g)) as [? []]; by simplify_eq. }
  destruct Hl as ([W E] & L & [C1 C2]). cbn [fst snd] in *.
  destruct op as [nn|id p|id|ne|id p|id]; unfold log_op, on_inner in Hlog.
  - destruct (create_node_cases env nn require ids g) as [[err Hx]|(_ & _ & Hx)]; rewrite Hx in Hlog;
      [done|]. injection Hlog as <- <-. split_and!.
    + intros [i|i].
      * cbn [agree_at]. rewrite op_nodes, op_embeddings by done. cbn. by rewrite lookup_insert.
      * cbn [agree_at]. rewrite op_edges by done. done.
    + destruct (op_two_phase (UpsertNode (into_node env nn (wrap_u64 (last_node ids + 1)))) (ids, g) eq_refl)
        as [-> _]. done.
    + destruct (op_two_phase (UpsertNode (into_node env nn (wrap_u64 (last_node ids + 1)))) (ids, g) eq_refl)
        as [_ ->]. done.
  - destruct (update_node_cases env id p require g)
      as [[err Hx]|(old & n' & ts' & ks' & t & Ho & Hn' & _ & _ & _ & _ & _ & Hx)]; rewrite Hx in Hlog;
      [done|]. injection Hlog as <- <-.
    assert (n_id n' = id) as Hid by (subst n'; exact (wf_node_ids _ _ _ _ _ W _ _ Ho)).
    destruct (op_two_phase (UpsertNode n') (ids, g) eq_refl) as [Hp Hh]. split_and!; [|by rewrite Hp|by rewrite Hh].
    intros [i|i]; cbn [agree_at].
    + rewrite op_nodes, op_embeddings by done. cbn. rewrite Hid. by rewrite lookup_insert.
    + rewrite op_edges by done. done.
  - unfold delete_node in Hlog. destruct (nodes g !! id) as [n|] eqn:Hn; [|done].
    injection Hlog as <- <-. rewrite apply_delete_node. cbn [snd]. rewrite Hn. reflexivity.
  - destruct (create_edge_cases env ne ids g) as [[err Hx]|(_ & _ & _ & Hx)]; rewrite Hx in Hlog;
      [done|]. injection Hlog as <- <-. set (e := into_edge env ne (wrap_u64 (last_edge ids + 1))).
    destruct (op_two_phase (UpsertEdge e) (ids, g) eq_refl) as [Hp Hh].
    assert (prepared (store_edge e g) = prepared g /\ heuristic (store_edge e g) = heuristic g /\
      embeddings (store_edge e g) = embeddings g) as (Ep & Eh & Em).
    { unfold store_edge, link_edge, intern_kind. by destruct (kind_ids g !! e_kind e). }
    cbn [snd]. split_and!; [|by rewrite Hp, Ep|by rewrite Hh, Eh].
    intros [i|i]; cbn [agree_at]; destruct (store_edge_records e g i) as (He & Hn & _).
    + rewrite op_nodes, op_embeddings by done. cbn [snd]. by rewrite Hn, Em.
    + rewrite op_edges by done. exact He.
  - destruct (update_edge_cases id p g)
      as [[err Hx]|(old & e' & Ho & _ & _ & Hid & _ & _ & _ & Hx)]; rewrite Hx in Hlog; [done|].
    injection Hlog as <- <-. rewrite (wf_edge_ids _ _ _ _ E _ _ Ho) in Hid.
    destruct (op_two_phase (UpsertEdge e') (ids, g) eq_refl) as [Hp Hh]. cbn [snd] in *.
    assert (forall g1 : Inner, nodes g1 = nodes g -> embeddings g1 = embeddings g ->
      prepared g1 = prepared g -> heuristic g1 = heuristic g -> edges g1 = edges g ->
      same_as (with_edges (<[id := e']> (edges g1)) g1) (apply_wal_op (UpsertEdge e') (ids, g)).2) as Hsame.
    { intros g1 G1 G2 G3 G4 G5. split_and!; [|by rewrite Hp|by rewrite Hh].
      intros [i|i]; cbn [agree_at].
      - rewrite op_nodes, op_embeddings by done. cbn. by rewrite G1, G2.
      - rewrite op_edges by done. cbn. by rewrite G5, lookup_insert, Hid. }
    destruct (ep_kind p); [|by apply Hsame].
    unfold intern_kind. by destruct (kind_ids g !! e_kind e'); apply Hsame.
  - unfold delete_edge in Hlog. destruct (edges g !! id) as [e|]; [|done].
    injection Hlog as <- <-. rewrite apply_delete_edge. reflexivity.
Qed.
End engine.

(** ** Steps of the engine *)

(** One call; the result it returns is dropped.  Not a step is
    [engine_apply_wal_ops], the path on which a follower takes its leader's
    operations, which checks nothing; nor a pull from a peer ([Replication]), nor
    the compaction of the log ([NativeRecovery]). *)
Inductive Step : Type :=
| SDirect (op : GraphOp)
| SSetEmbedding (id : N) (v : list F32)
| SDeleteEmbedding (id : N)
| SDeleteNodes (ids : list N)
| SCreateNodes (new_nodes : list NewNode)
| SCreateEdges (new_edges : list NewEdge)
| SSetEmbeddings (embs : list (N * list F32))
| SImport (same_node : Node -> Node -> bool) (same_edge : Edge -> Edge -> bool) (d : Dump)
| SBegin (iso : Isolation) (lim : bool)
| STxWrite (id : N) (op : GraphOp)
| STxCommit (id : N)
| STxRollback (id : N)
| SPrepare (id : N) (gid : string)
| SCommitPrepared (gid : string)
| SRollbackPrepared (gid : string) (heur : bool)
| SAddConstraint (c : Constraint)
| SRemoveConstraint (c : Constraint)
| SReadOnly (on : bool)
| STrim (cursor : N)
| SHistory (commits : nat).

Section steps.
Context `{JsonText}.

Definition exec (sys : Sys) (s : Step) (g : NativeGraph) : NativeGraph :=
  match s with
  | SDirect op => (direct_write sys op g).1
  | SSetEmbedding id v => (set_embedding sys id v g).1
  | SDeleteEmbedding id => (delete_embedding sys id g).1
  | SDeleteNodes ids => (delete_nodes sys ids g).1
  | SCreateNodes new_nodes => (create_nodes sys new_nodes g).1
  | SCreateEdges new_edges => (create_edges sys new_edges g).1
  | SSetEmbeddings embs => (set_embeddings_batch sys embs g).1
  | SImport same_node same_edge d => (apply_dump sys same_node same_edge d g).1
  | SBegin iso lim => (register_tx iso lim g).1
  | STxWrite id op => (tx_write (sys_env sys) id op g).1
  | STxCommit id => (tx_commit sys id g).1
  | STxRollback id => (tx_rollback id g).1
  | SPrepare id gid => (tx_prepare sys id gid g).1
  | SCommitPrepared gid => (commit_prepared sys gid g).1
  | SRollbackPrepared gid heur => (rollback_prepared_as sys gid heur g).1
  | SAddConstraint c => (add_constraint c g).1
  | SRemoveConstraint c => (remove_constraint c g).1
  | SReadOnly on => (set_read_only on g).1
  | STrim cursor => (trim_before cursor g).1
  | SHistory commits => put_history (set_capacity commits (history g)) (conflicts g) g
  end.

Definition logged (g : NativeGraph) : list WalOp :=
  match wal g with Some w => concat (wal_records w) | None => [] end.

(** The 64-bit ids and 32-bit edge kinds have not run out: in the live graph, the
    open transactions, and what replaying them, the log or the prepared write
    sets interns. *)
Definition roomy (g : NativeGraph) : Prop :=
  room_for 1 (g_ids g, inner g) /\
  kinds_fit (replay (logged g)).2 /\
  map_Forall (fun _ s => room_for 1 (g_ids g, working s) /\
    kinds_fit (apply_wal_ops (tx_ops s) (g_ids g, base s)).2) (reg_txs g) /\
  map_Forall (fun _ e => kinds_fit (apply_wal_ops (prepared_ops e) (g_ids g, inner g)).2)
    (prepared (inner g)).

#[global] Instance room_for_dec k st : Decision (room_for k st).
Proof. unfold room_for. apply _. Defined.
#[global] Instance kinds_fit_dec g : Decision (kinds_fit g).
Proof. unfold kinds_fit. apply _. Defined.
#[global] Instance roomy_dec g : Decision (roomy g).
Proof. unfold roomy. apply _. Defined.

(** What a step needs beyond room for one more record: a batch as many ids as it
    is long, and an import that no record of it is refused. *)
Definition step_fits (sys : Sys) (s : Step) (g : NativeGraph) : Prop :=
  match s with
  | SCreateNodes new_nodes => room_for (length new_nodes) (g_ids g, inner g)
  | SCreateEdges new_edges => room_for (length new_edges) (g_ids g, inner g)
  | SImport same_node same_edge d =>
      match (apply_dump sys same_node same_edge d g).2 with
      | Err (IdCollision _) | Err (NodeNotFound _) => False
      | _ => True
      end
  | _ => True
  end.

#[global] Instance step_fits_dec sys s g : Decision (step_fits sys s g).
Proof. unfold step_fits. destruct s; try apply _. repeat case_match; apply _. Defined.

(** The states that steps allowed by [Q] lead to. *)
Inductive reached (Q : Sys -> Step -> NativeGraph -> Prop) (durable : bool) : NativeGraph -> Prop :=
| reach_new : reached Q durable (new_graph durable)
| reach_step sys s g : reached Q durable g -> Q sys s g -> step_fits sys s g -> roomy (exec sys s g) ->
    reached Q durable (exec sys s g).

(** Any sequence of steps, and one in which every record can be encoded. *)
Definition reachable : bool -> NativeGraph -> Prop := reached (fun _ _ _ => True).
Definition recorded : bool -> NativeGraph -> Prop := reached (fun sys _ _ => sys_encodes sys = true).

Lemma reached_weaken (Q Q' : Sys -> Step -> NativeGraph -> Prop) durable g :
  (forall sys s g, Q sys s g -> Q' sys s g) -> reached Q durable g -> reached Q' durable g.
Proof. intros HQ. induction 1; [constructor|]. apply reach_step; auto. Qed.

(** ** What the operations leave alone *)
Lemma log_op_seq env require op st : commit_seq (log_op env require op st).1.2 = commit_seq st.2.
Proof.
  rewrite log_op_run. destruct st as [ids g]. destruct op as [n|id p|id|e|id p|id]; unfold run_op, on_inner.
  - by destruct (create_node_cases env n require ids g) as [[err ->]|(_ & _ & ->)].
  - by destruct (update_node_cases env id p require g)
      as [[err ->]|(? & ? & ? & ? & ? & ? & ? & ? & ? & ? & ? & ? & ->)].
  - unfold delete_node. destruct (nodes g !! id) as [n|]; [|done]. cbn [fst snd].
    apply drop_node_seq.
  - destruct (create_edge_cases env e ids g) as [[err ->]|(_ & _ & _ & ->)]; [done|].
    unfold store_edge, link_edge, intern_kind. cbn [fst snd].
    by destruct (kind_ids g !! e_kind (into_edge env e (wrap_u64 (last_edge ids + 1)))).
  - destruct (update_edge_cases id p g)
      as [[err ->]|(old & e' & _ & _ & _ & _ & _ & _ & _ & ->)]; [done|]. cbn [fst snd].
    destruct (ep_kind p); [|done]. unfold intern_kind. by destruct (kind_ids g !! e_kind e').
  - unfold delete_edge. destruct (edges g !! id) as [e|] eqn:He; [|done]. cbn [fst snd].
    unfold remove_edge. by rewrite He.
Qed.

Lemma apply_fuel_seq fuel op st st' : apply_wal_op_fuel fuel op st = Some st' ->
  commit_seq st'.2 = commit_seq st.2.
Proof.
  revert op st st'. induction fuel as [|fuel IH]; intros op [ids g] st' Ha; [done|].
  destruct op as [n|id|e|id|id v|id|gid at_ ops|gid|gid h]; cbn [apply_wal_op_fuel] in Ha;
    try (injection Ha as <-; done).
  - injection Ha as <-. unfold upsert_node. by destruct (nodes g !! n_id n).
  - destruct (nodes g !! id) as [n|]; injection Ha as <-; [|done]. apply drop_node_seq.
  - injection Ha as <-. unfold upsert_edge, link_edge, intern_kind, remove_edge.
    destruct (edges g !! e_id e); simpl; by destruct (kind_ids g !! e_kind e).
  - injection Ha as <-. unfold remove_edge. by destruct (edges g !! id).
  - destruct (prepared g !! gid) as [e|]; [|by injection Ha as <-].
    eapply (fold_ops_ind _ (fun s => commit_seq s.2 = commit_seq g) _ _ _ Ha); [done|].
    intros o s s' _ Hs Ho. rewrite <- Hs. by eapply IH.
Qed.

Lemma apply_wal_ops_seq ops st : commit_seq (apply_wal_ops ops st).2 = commit_seq st.2.
Proof.
  revert st. induction ops as [|op ops IH]; intros st; [done|]. rewrite apply_wal_ops_cons, IH.
  unfold apply_wal_op.
  destruct (apply_fuel_total (S (prepared_weight st.2 + op_weight op)) op st) as (s & Es & _); [lia|].
  rewrite Es. by eapply apply_fuel_seq.
Qed.

(** The counters do not decide what a replayed operation does. *)
Lemma apply_fuel_other_ids fuel op ids ids' g st : apply_wal_op_fuel fuel op (ids, g) = Some st ->
  exists st', apply_wal_op_fuel fuel op (ids', g) = Some st' /\ st'.2 = st.2.
Proof.
  revert op ids ids' g st. induction fuel as [|fuel IH]; intros op ids ids' g st Ha; [done|].
  destruct op as [n|id|e|id|id v|id|gid at_ ops|gid|gid h]; cbn [apply_wal_op_fuel] in *;
    try (injection Ha as <-; eexists; split; [done|]; done).
  - destruct (nodes g !! id); injection Ha as <-; eexists; (split; [done|]); done.
  - destruct (prepared g !! gid) as [e|]; [|injection Ha as <-; eexists; (split; [done|]); done].
    revert Ha. generalize (with_prepared (delete gid (prepared g)) (heuristic g) g) as g0.
    clear g. revert ids ids'. induction (prepared_ops e) as [|o l IHl]; intros ids ids' g0 Ha; simpl in *.
    { injection Ha as <-. eexists. split; [done|]. done. }
    destruct (apply_wal_op_fuel fuel o (ids, g0)) as [[i1 g1]|] eqn:E1.
    + destruct (IH o ids ids' g0 _ E1) as ([i2 g2] & -> & Hg). simpl in Hg. subst g2. by eapply IHl.
    + exfalso. clear -Ha. induction l; simpl in *; [done|auto].
Qed.

Lemma apply_other_ids ops ids ids' g :
  (apply_wal_ops ops (ids, g)).2 = (apply_wal_ops ops (ids', g)).2.
Proof.
  revert ids ids' g. induction ops as [|op ops IH]; intros ids ids' g; [done|].
  rewrite !apply_wal_ops_cons. unfold apply_wal_op. cbn [snd].
  destruct (apply_fuel_total (S (prepared_weight g + op_weight op)) op (ids, g)) as ([i1 g1] & Es & _);
    [simpl; lia|].
  destruct (apply_fuel_other_ids _ _ _ ids' _ _ Es) as ([i2 g2] & Es' & Hg). rewrite Es, Es'.
  simpl in *. subst g2. apply IH.
Qed.

Lemma runs_other_ids ops ids ids' g : ids_le ids ids' -> runs ops (ids, g) -> runs ops (ids', g).
Proof.
  intros Hle (Hp & [W C] & Hf). split_and!; [done|split; [done|by eapply counted_mono]|].
  unfold kinds_fit in *. by rewrite (apply_other_ids ops ids' ids).
Qed.
End steps.

(** ** What was committed since a snapshot *)
Definition since (h : CommitHistory) (b : N) : ConflictSet :=
  foldl cs_extend cs_empty (filter (fun x => b < x.1) (recent h)).*2.

Lemma since_trim seq h b : history_ok seq h -> covers (trim h) b = true ->
  (recent h <> [] -> covers h b = true) /\ since (trim h) b = since h b.
Proof.
  unfold history_ok, covers, since, trim. cbn [recent capacity]. rewrite trim_front_spec.
  generalize (recent h) as l. set (k := fun l : list (N * ConflictSet) => (length l - capacity h)%nat).
  intros l. fold (k l). generalize (k l) as n. clear k. intros n Hh Hc.
  destruct (drop n l) as [|[o s] l'] eqn:Ed; [done|]. apply N.leb_le in Hc.
  assert (l !! n = Some (o, s)) as Hn.
  { rewrite <- (Nat.add_0_r n). rewrite <- lookup_drop, Ed. done. }
  pose proof (Hh n _ Hn) as H0. simpl in H0. split.
  - intros _. destruct l as [|[o1 s1] l1]; [by rewrite drop_nil in Ed|]. apply N.leb_le.
    pose proof (Hh 0%nat _ eq_refl) as H1. simpl in H1. simpl in H0. lia.
  - rewrite <- Ed. rewrite <- (take_drop n l) at 2. rewrite filter_app.
    assert (filter (fun x : N * ConflictSet => b < x.1) (take n l) = []) as ->; [|done].
    destruct (filter _ (take n l)) as [|x r] eqn:Ef; [done|]. exfalso.
    assert (x ∈ filter (fun x : N * ConflictSet => b < x.1) (take n l)) as Hx by (rewrite Ef; by left).
    apply list_elem_of_filter in Hx as [Hb Hx]. apply list_elem_of_lookup in Hx as [i Hi].
    apply lookup_take_Some in Hi as [Hi Hlt]. pose proof (Hh i _ Hi). lia.
Qed.

Lemma since_push seq set h b : history_ok seq h -> b <= seq -> covers (push (seq + 1) set h) b = true ->
  (b = seq \/ covers h b = true) /\ since (push (seq + 1) set h) b = cs_extend (since h b) set.
Proof.
  intros Hh Hb Hc. unfold push in *.
  assert (history_ok (seq + 1) (mkHistory (recent h ++ [(seq + 1, set)]) (capacity h))) as Hh'.
  { intros i x. cbn [recent]. rewrite length_app. simpl. intros [Hx|[Hlen Hx]]%lookup_app_Some.
    - specialize (Hh _ _ Hx). lia.
    - destruct (i - length (recent h))%nat as [|k] eqn:E; simpl in Hx; [|by rewrite lookup_nil in Hx].
      injection Hx as <-. simpl. lia. }
  destruct (since_trim _ _ b Hh' Hc) as [Hc' ->]. specialize (Hc' ltac:(by destruct (recent h))).
  split.
  - unfold covers in *. cbn [recent] in Hc'. destruct (recent h) as [|[o s] l]; simpl in Hc'.
    + apply N.leb_le in Hc'. left. lia.
    + by right.
  - unfold since. cbn [recent]. rewrite filter_app, fmap_app, foldl_app.
    rewrite filter_cons_True by (simpl; lia). rewrite filter_nil. done.
Qed.

Lemma since_none seq h b : history_ok seq h -> seq <= b -> since h b = cs_empty.
Proof.
  intros Hh Hb. unfold since. destruct (filter _ (recent h)) as [|x r] eqn:Ef; [done|]. exfalso.
  assert (x ∈ filter (fun x : N * ConflictSet => b < x.1) (recent h)) as Hx by (rewrite Ef; by left).
  apply list_elem_of_filter in Hx as [Hlt Hx]. apply list_elem_of_lookup in Hx as [i Hi].
  pose proof (lookup_lt_Some _ _ _ Hi). specialize (Hh _ _ Hi). lia.
Qed.

(** ** The invariant *)
Section invariant.
Context `{JsonText}.

Record slot_ok (g : NativeGraph) (s : TxSlot) : Prop := {
  so_base : live (g_ids g, base s);
  so_work : live (g_ids g, working s);
  so_runs : runs (tx_ops s) (g_ids g, base s);
  so_same : same_as (working s) (apply_wal_ops (tx_ops s) (g_ids g, base s)).2;
  so_wseq : commit_seq (working s) = commit_seq (base s);
  so_ptr : base_ptr s < next_ptr g;
  so_same_ptr : base_ptr s = live_ptr g -> base s = inner g;
  so_seq : commit_seq (base s) <= commit_seq (inner g);
  so_since : commit_seq (base s) = commit_seq (inner g) \/ covers (history g) (commit_seq (base s)) = true ->
    covered (since (history g) (commit_seq (base s))) (base s) (inner g);
  so_cons : constraints (working s) = constraints (base s);
}.

(** A prepared write set ran on some state that the commits since only changed
    elsewhere. *)
Definition entry_ok (ids : IdCounters) (i : Inner) (e : PreparedEntry) : Prop :=
  exists base0 set, runs (prepared_ops e) (ids, base0) /\ covered set base0 i /\
    cs_everything set = false /\ intersects (from_ops (prepared_ops e)) set = false /\
    linked (apply_wal_ops (prepared_ops e) (ids, base0)).2.

(** At most one transaction is prepared. *)
Record held_ok (ids : IdCounters) (i : Inner) : Prop := {
  ho_one : forall gid gid' e e', prepared i !! gid = Some e -> prepared i !! gid' = Some e' -> gid = gid';
  ho_entry : forall gid e, prepared i !! gid = Some e -> entry_ok ids i e;
}.

Record core_ok (g : NativeGraph) : Prop := {
  co_live : live (g_ids g, inner g);
  co_hist : history_ok (commit_seq (inner g)) (history g);
  co_held : held_ok (g_ids g) (inner g);
  co_ptr : live_ptr g < next_ptr g;
  co_slots : forall id s, reg_txs g !! id = Some s -> slot_ok g s;
}.

Definition wal_ok (g : NativeGraph) : Prop :=
  forall w, wal g = Some w -> wal_broken w = false ->
    same_as (inner g) (replay (concat (wal_records w))).2.

(** Parts of the graph the invariant does not read may change. *)
Lemma core_frame g g' : core_ok g -> inner g' = inner g -> history g' = history g ->
  reg_txs g' = reg_txs g -> g_ids g' = g_ids g -> live_ptr g' = live_ptr g ->
  next_ptr g' = next_ptr g -> core_ok g'.
Proof.
  intros [C1 C2 C3 C4 C5] E1 E2 E3 E4 E5 E6. split; rewrite ?E1, ?E2, ?E4, ?E5, ?E6; try done.
  intros id s. rewrite E3. intros Hs. destruct (C5 id s Hs) as [S1 S2 S3 S4 S5 S6 S7 S8 S9 S10].
  split; rewrite ?E1, ?E2, ?E4, ?E5, ?E6; done.
Qed.

Lemma entry_ids ids ids' i e : ids_le ids ids' -> entry_ok ids i e -> entry_ok ids' i e.
Proof.
  intros Hle (b & set & R & C & Ev & Ap & L). exists b, set. split_and!; try done.
  - by eapply runs_other_ids.
  - by rewrite (apply_other_ids _ ids' ids).
Qed.

(** A change that does not clash with what is prepared. *)
Lemma entry_covered ids i i' e set : entry_ok ids i e -> covered set i i' ->
  cs_everything set = false -> intersects (from_ops (prepared_ops e)) set = false -> entry_ok ids i' e.
Proof.
  intros (b & set0 & R & C & Ev & Ap & L) C' Ev' Ap'. exists b, (cs_extend set0 set).
  split_and!; try done; [by eapply covered_trans|simpl; by rewrite Ev|].
  apply intersects_extend; [apply from_ops_everything|done..].
Qed.

Lemma entry_same ids i i' e : entry_ok ids i e -> (forall k, agree_at i' i k) -> entry_ok ids i' e.
Proof.
  intros (b & set0 & R & C & Ev & Ap & L) Ha. exists b, set0. split_and!; try done.
  by eapply covered_ext.
Qed.

Lemma held_same ids i i' : held_ok ids i -> prepared i' = prepared i -> (forall k, agree_at i' i k) ->
  held_ok ids i'.
Proof.
  intros [H1 H2] Hp Ha. split; rewrite Hp; [done|]. intros gid e He.
  eapply entry_same; [by eapply H2|done].
Qed.

Lemma core_ids g ids : core_ok g -> ids_le (g_ids g) ids -> core_ok (put_ids ids g).
Proof.
  intros [C1 C2 C3 C4 C5] Hle. split; cbn; try done; [by eapply live_mono| |].
  { destruct C3 as [H1 H2]. split; [done|]. intros gid e He. eapply entry_ids; [done|by eapply H2]. }
  intros id s Hs. destruct (C5 id s Hs) as [S1 S2 S3 S4 S5 S6 S7 S8 S9 S10].
  split; cbn; try done; [by eapply live_mono|by eapply live_mono|by eapply runs_other_ids|].
  by rewrite (apply_other_ids _ ids (g_ids g)).
Qed.

(** A new pointer over the same state. *)
Lemma core_touch g : core_ok g -> core_ok (put_live (inner g) g).
Proof.
  intros [C1 C2 C3 C4 C5]. split; cbn; try done; [lia|].
  intros id s Hs. destruct (C5 id s Hs) as [S1 S2 S3 S4 S5 S6 S7 S8 S9 S10]. split; cbn; try done; lia.
Qed.

Lemma core_slots g txs n : core_ok g ->
  (forall id s, txs !! id = Some s -> slot_ok g s) -> core_ok (put_txs txs n g).
Proof.
  intros [C1 C2 C3 C4 C5] Hs. split; try done. intros id s Hid. destruct (Hs id s Hid). by split.
Qed.

Lemma core_close g id : core_ok g -> core_ok (close_tx id g).
Proof.
  intros C. apply core_slots; [done|]. intros i s. rewrite lookup_delete. case_decide; [done|].
  apply (co_slots _ C).
Qed.

(** Installing a commit. *)
Lemma core_commit g i set : core_ok g -> live (g_ids g, i) -> held_ok (g_ids g) i ->
  commit_seq i = commit_seq (inner g) -> covered set (inner g) i ->
  core_ok (commit_inner i set g).
Proof.
  intros [C1 C2 C3 C4 C5] Hl Hp Hseq Hcov. split; cbn [commit_inner note_commit]; cbn.
  - exact Hl.
  - rewrite Hseq. by apply history_ok_push.
  - apply (held_same _ i); [done|done|]. by intros [].
  - lia.
  - intros id s Hs. destruct (C5 id s Hs) as [S1 S2 S3 S4 S5 S6 S7 S8 S9 S10]. split; cbn; try done; try lia.
    rewrite Hseq. intros [Heq|Hc]; [lia|].
    destruct (since_push _ set _ _ C2 S8 Hc) as [Hor Hs'].
    change (covered (since (push (commit_seq (inner g) + 1) set (history g)) (commit_seq (base s)))
      (base s) (with_commit_seq (commit_seq (inner g) + 1) i)). rewrite Hs'.
    eapply covered_trans; [apply S9; naive_solver|].
    destruct Hcov as [K1 K2 K3 K4]. by split.
Qed.

Lemma core_history g c : core_ok g ->
  core_ok (put_history (set_capacity c (history g)) (conflicts g) g).
Proof.
  intros [C1 C2 C3 C4 C5]. split; cbn; try done; [by apply history_ok_capacity|].
  intros id s Hs. destruct (C5 id s Hs) as [S1 S2 S3 S4 S5 S6 S7 S8 S9 S10]. split; cbn; try done.
  assert (history_ok (commit_seq (inner g)) (mkHistory (recent (history g)) c)) as Hh by done.
  intros Hor. change (covered (since (set_capacity c (history g)) (commit_seq (base s))) (base s) (inner g)).
  assert (since (set_capacity c (history g)) (commit_seq (base s)) =
    since (history g) (commit_seq (base s))) as ->; [|].
  { destruct Hor as [Heq|Hc]; [|exact (proj2 (since_trim _ _ _ Hh Hc))].
    rewrite !(since_none (commit_seq (inner g))); [done|done|lia|by apply history_ok_capacity|lia]. }
  apply S9. destruct Hor as [Heq|Hc]; [by left|right].
  apply (proj1 (since_trim _ _ _ Hh Hc)). intros Hnil. cbn [recent] in Hnil.
  unfold set_capacity, covers, trim in Hc. cbn [recent capacity] in Hc. by rewrite Hnil in Hc.
Qed.
End invariant.
