(* ===== verification/NativeEngineSteps.v ===== *)
(** * Every call of the engine keeps its invariant, and its log in step

    The cases of the induction behind the engine's properties: direct writes,
    transactions, two-phase commit, schema changes; then the log. *)
From S2P Require Import Prelude NativeModel Native NativeInv NativeOps Conflict NativeSpec NativeRecovery.
From S2P Require Import NativeTx NativeMerge NativeEngine.
Local Open Scope string_scope.
Local Open Scope list_scope.
Local Open Scope N_scope.

Section steps.
Context `{JsonText}.

(** ** Single operations *)
Lemma run_op_ids env require op st : room st.1 -> ids_le st.1 (run_op env require op st).1.1.
Proof.
  destruct st as [ids g]. intros [R1 R2]. cbn [fst snd] in *.
  destruct op as [nn|id p|id|e|id p|id]; unfold run_op, on_inner.
  - destruct (create_node_cases env nn require ids g) as [[err ->]|(_ & _ & ->)]; cbn [fst];
      rewrite wrap_room by done; unfold ids_le; simpl; lia.
  - destruct (update_node_cases env id p require g)
      as [[err ->]|(? & ? & ? & ? & ? & ? & ? & ? & ? & ? & ? & ? & ->)]; done.
  - by destruct (delete_node id g).
  - destruct (create_edge_cases env e ids g) as [[err ->]|(_ & _ & _ & ->)]; cbn [fst]; [done|].
    rewrite wrap_room by done. unfold ids_le; simpl; lia.
  - by destruct (update_edge id p g).
  - by destruct (delete_edge id g).
Qed.

Lemma plain_kinds op st : plain op = true ->
  (size (kind_ids (apply_wal_op op st).2) <= S (size (kind_ids st.2)))%nat.
Proof.
  destruct op as [n|id|e|id|id v|id|gid at_ ops|gid|gid h]; try done; intros _.
  - rewrite apply_upsert_node. destruct (upsert_node_frame n st) as (_ & -> & _). lia.
  - rewrite apply_delete_node. destruct (nodes st.2 !! id); cbn [snd]; [rewrite drop_node_kinds|]; lia.
  - rewrite apply_upsert_edge. destruct (upsert_edge_records e st 0) as (_ & Hk).
    pose proof (subseteq_size _ _ Hk) as Hs. rewrite size_dom in Hs.
    pose proof (size_union_alt {[ e_kind e ]} (dom (kind_ids st.2))) as Hu.
    rewrite size_singleton in Hu.
    pose proof (subseteq_size (dom (kind_ids st.2) ∖ {[ e_kind e ]}) (dom (kind_ids st.2)) ltac:(set_solver)) as Hd.
    rewrite size_dom in Hd. lia.
  - rewrite apply_delete_edge. cbn [snd]. destruct (remove_edge_nodes id st.2) as (_ & _ & _ & _ & _ & -> & _). lia.
  - rewrite apply_set_embedding. cbn. lia.
  - rewrite apply_delete_embedding. cbn. lia.
Qed.

Lemma runs_one op st : plain op = true -> good st -> room_for 1 st -> runs [op] st.
Proof.
  intros Hp Hg (_ & _ & Hk). split_and!; [by constructor|done|].
  pose proof (plain_kinds op st Hp). unfold kinds_fit, apply_wal_ops. simpl. lia.
Qed.

Lemma room_for_room st : room_for 1 st -> room st.1.
Proof. intros (R1 & R2 & _). split; lia. Qed.

(** What one logged operation does to a state with room. *)
Lemma log_op_ok env require op st st' r : live st -> room_for 1 st ->
  log_op env require op st = (st', r) ->
  live st' /\ ids_le st.1 st'.1 /\ commit_seq st'.2 = commit_seq st.2 /\
  match r with
  | Ok w => runs [w] st /\ same_as st'.2 (apply_wal_ops [w] st).2
  | Err _ => st'.2 = st.2
  end.
Proof.
  intros Hl Hr Hlog. pose proof (room_for_room _ Hr) as Hroom.
  pose proof (log_op_run env require op st) as Hrun. rewrite Hlog in Hrun. cbn [fst] in Hrun.
  pose proof (log_op_seq env require op st) as Hseq. rewrite Hlog in Hseq. cbn [fst] in Hseq.
  pose proof (run_op_ids env require op st Hroom) as Hids. rewrite <- Hrun in Hids.
  split_and!; [|done|done|].
  - rewrite Hrun. apply run_op_live; [done|done|].
    destruct (run_op_steps env require op st Hroom) as (_ & _ & Hk). destruct Hr as (_ & _ & Hk').
    unfold kinds_fit. lia.
  - destruct r as [w|e].
    + destruct (log_op_replay env require op st st' w Hl Hroom Hlog) as (Hp & Hs & _).
      split; [|exact Hs]. apply runs_one; [done|by apply live_good|done].
    + assert (run_op env require op st = (st', Err e)) as He.
      { destruct op; unfold log_op, run_op in *.
        - destruct (create_node_checked env n require st) as [? []]; by simplify_eq/=.
        - destruct (on_inner _ st) as [? []]; by simplify_eq/=.
        - destruct (on_inner _ st) as [? []]; by simplify_eq/=.
        - destruct (create_edge env e0 st) as [? []]; by simplify_eq/=.
        - destruct (on_inner _ st) as [? []]; by simplify_eq/=.
        - destruct (on_inner _ st) as [? []]; by simplify_eq/=. }
      by destruct (run_op_error env require op st st' e He).
Qed.

Lemma direct_touched_ops w : plain w = true ->
  (forall id v, w <> SetEmbedding id v) -> (forall id, w <> DeleteEmbedding id) ->
  direct_touched w = from_ops [w].
Proof.
  destruct w as [n|id|e|id|id v|id|gid at_ ops|gid|gid h]; try done; intros _ H1 H2.
  - unfold direct_touched, cs_edge, from_ops. simpl. f_equal; set_solver.
  - by destruct (H1 id v).
  - by destruct (H2 id).
Qed.

Lemma log_op_no_embedding env require op st st' w : log_op env require op st = (st', Ok w) ->
  (forall id v, w <> SetEmbedding id v) /\ (forall id, w <> DeleteEmbedding id).
Proof.
  destruct op; unfold log_op.
  - destruct (create_node_checked env n require st) as [? []]; intros; by simplify_eq.
  - destruct (on_inner _ st) as [? []]; intros; by simplify_eq.
  - destruct (on_inner _ st) as [? []]; intros; by simplify_eq.
  - destruct (create_edge env e st) as [? []]; intros; by simplify_eq.
  - destruct (on_inner _ st) as [? []]; intros; by simplify_eq.
  - destruct (on_inner _ st) as [? []]; intros; by simplify_eq.
Qed.

Lemma log_op_cons env require op st : live st -> room st.1 ->
  constraints (log_op env require op st).1.2 = constraints st.2.
Proof. intros Hl Hr. rewrite log_op_run. by destruct (run_op_nodes env require op st Hl Hr). Qed.

(** A state reached by a plain batch from the live one, while nothing is
    prepared. *)
Lemma covered_same_as ops st i : runs ops st -> same_as i (apply_wal_ops ops st).2 ->
  covered (from_ops ops) st.2 i.
Proof. intros R [Ha _]. eapply covered_ext; [by apply covered_ops|done]. Qed.

Lemma held_none ids i : prepared i = ∅ -> held_ok ids i.
Proof. intros He. split; rewrite He; intros *; by rewrite lookup_empty. Qed.

Lemma has_prepared_false i : has_prepared i = false <-> prepared i = ∅.
Proof. unfold has_prepared. rewrite negb_false_iff, bool_decide_eq_true. done. Qed.

Lemma same_as_prepared ops st i : runs ops st -> same_as i (apply_wal_ops ops st).2 ->
  prepared i = prepared st.2.
Proof.
  intros [Hp _] (_ & -> & _). by destruct (ops_two_phase ops st Hp) as [-> _].
Qed.

(** ** The log and the guards leave the graph alone *)
Lemma record_frame sys ws ops g : let g' := (record_split sys ws ops g).1 in
  inner g' = inner g /\ history g' = history g /\ reg_txs g' = reg_txs g /\ g_ids g' = g_ids g /\
  live_ptr g' = live_ptr g /\ next_ptr g' = next_ptr g /\ read_only g' = read_only g.
Proof.
  unfold record_split. destruct ws, ops; cbn; try done;
    destruct (wal g) as [lg|]; cbn; try done;
    destruct (sys_encodes sys); cbn; try done; destruct (wal_broken lg); cbn; try done;
    by destruct (sys_flushes sys).
Qed.

Lemma core_record sys ws ops g : core_ok g -> core_ok (record_split sys ws ops g).1.
Proof.
  intros C. destruct (record_frame sys ws ops g) as (E1 & E2 & E3 & E4 & E5 & E6 & _).
  by apply (core_frame g).
Qed.

Lemma io_as_fst {A E} (e : E) (m : ST NativeGraph unit A) g : (io_as e m g).1 = (m g).1.
Proof. unfold io_as. by destruct (m g) as [? []]. Qed.

Lemma write_for_commit_cases g : write_for_commit g = (g, Ok tt) /\ prepared (inner g) = ∅ \/
  exists e, write_for_commit g = (g, Err e).
Proof.
  unfold write_for_commit, write_unless_read_only. destruct (read_only g); [right; eauto|].
  destruct (has_prepared (inner g)) eqn:Hp; [right; eauto|]. left. by rewrite <- has_prepared_false.
Qed.

Lemma breaks_prepared_ids st : ids_le st.1 (breaks_prepared st).1.
Proof.
  unfold breaks_prepared. destruct (_ || _); [done|]. cbn [fst]. unfold with_prepared_applied.
  generalize (prepared_entries st.2) as l. intros l. revert st.
  induction l as [|e l IH]; intros st; [done|]. simpl. etrans; [apply apply_wal_ops_ids|apply IH].
Qed.

(** ** Direct writes *)
Lemma direct_apply_core sys op g g' r : core_ok g -> room_for 1 (g_ids g, inner g) ->
  direct_apply sys op g = (g', r) -> core_ok g'.
Proof.
  intros C Hr. unfold direct_apply.
  destruct (write_for_commit_cases g) as [[-> Hnone]|[e ->]]; [|by intros [= <- <-]].
  destruct (log_op (sys_env sys) true op (g_ids g, inner g)) as [[ids i] r'] eqn:Hlog.
  destruct (log_op_ok _ _ _ _ _ _ (co_live _ C) Hr Hlog) as (Hl & Hids & Hseq & Hres).
  cbn [fst snd] in *. pose proof (core_ids g ids C Hids) as C'. destruct r' as [w|e].
  - intros [= <- <-]. destruct Hres as [Hruns Hsame].
    destruct (log_op_no_embedding _ _ _ _ _ _ Hlog) as [N1 N2].
    pose proof (proj1 Hruns) as Hp. apply Forall_cons in Hp as [Hp _].
    apply core_commit; [done|done| |done|].
    + apply held_none. by rewrite (same_as_prepared [w] (g_ids g, inner g) i).
    + rewrite direct_touched_ops by done.
      by apply (covered_same_as [w] (g_ids g, inner g)).
  - intros [= <- <-]. subst i. apply (core_touch (put_ids ids g)). done.
Qed.

Lemma direct_write_core sys op g : core_ok g -> room_for 1 (g_ids g, inner g) ->
  core_ok (direct_write sys op g).1.
Proof.
  intros C Hr. unfold direct_write, st_bind.
  destruct (direct_apply sys op g) as [g1 r] eqn:E. pose proof (direct_apply_core _ _ _ _ _ C Hr E) as C1.
  destruct r as [w|e]; [|done]. unfold direct_record, record. rewrite io_as_fst. by apply core_record.
Qed.

Lemma linked_same i i' : nodes i' = nodes i -> edges i' = edges i -> linked i -> linked i'.
Proof. intros Hn He L. unfold linked. by rewrite Hn, He. Qed.

(** One embedding write. *)
Lemma embedding_core g op set ids i : core_ok g -> room_for 1 (g_ids g, inner g) ->
  plain op = true -> prepared (inner g) = ∅ -> set = from_ops [op] ->
  (exists id v, op = SetEmbedding id v) \/ (exists id, op = DeleteEmbedding id) ->
  apply_wal_op op (g_ids g, inner g) = (ids, i) -> core_ok (commit_inner i set (put_ids ids g)).
Proof.
  intros C Hr Hp Hnone -> Hop Ha.
  pose proof (apply_wal_op_ids op (g_ids g, inner g)) as Hids. rewrite Ha in Hids. cbn [fst] in Hids.
  pose proof (runs_one op _ Hp (live_good _ (co_live _ C)) Hr) as R.
  assert (apply_wal_ops [op] (g_ids g, inner g) = (ids, i)) as Ha' by (rewrite <- Ha; done).
  assert (nodes i = nodes (inner g) /\ edges i = edges (inner g) /\
    graph_wf i /\ commit_seq i = commit_seq (inner g)) as (Hn & He & Hw & Hseq).
  { destruct (co_live _ C) as (W & _). cbn [snd] in W.
    destruct Hop as [(id & v & ->)|(id & ->)];
      [rewrite apply_set_embedding in Ha|rewrite apply_delete_embedding in Ha];
      injection Ha as <- <-; by split_and!. }
  apply core_commit; cbn.
  - by apply core_ids.
  - destruct (co_live _ C) as (W & L & Co). split_and!; [done|by eapply linked_same|].
    unfold counted. cbn [fst snd]. rewrite Hn, He. by eapply counted_mono.
  - apply held_none. rewrite (same_as_prepared [op] (g_ids g, inner g) i R); [done|].
    by rewrite Ha'.
  - done.
  - apply (covered_same_as [op] (g_ids g, inner g)); [done|]. by rewrite Ha'.
Qed.

Lemma set_embedding_core sys id v g : core_ok g -> room_for 1 (g_ids g, inner g) ->
  core_ok (set_embedding sys id v g).1.
Proof.
  intros C Hr. unfold set_embedding.
  destruct (write_for_commit_cases g) as [[-> Hnone]|[e ->]]; [|done].
  case_bool_decide; [|by apply core_touch].
  destruct (apply_wal_op (SetEmbedding id v) (g_ids g, inner g)) as [ids i] eqn:Ha.
  unfold record. rewrite io_as_fst. apply core_record.
  by apply (embedding_core g (SetEmbedding id v)); eauto.
Qed.

Lemma delete_embedding_core sys id g : core_ok g -> room_for 1 (g_ids g, inner g) ->
  core_ok (delete_embedding sys id g).1.
Proof.
  intros C Hr. unfold delete_embedding.
  destruct (write_for_commit_cases g) as [[-> Hnone]|[e ->]]; [|done].
  destruct (apply_wal_op (DeleteEmbedding id) (g_ids g, inner g)) as [ids i] eqn:Ha.
  unfold record. rewrite io_as_fst. apply core_record.
  by apply (embedding_core g (DeleteEmbedding id)); eauto.
Qed.
End steps.

Section more_steps.
Context `{JsonText}.

(** ** Batches *)
Lemma delete_each_ok ids i x i' ws : live (x, i) -> delete_each ids i = (i', ws) ->
  live (x, i') /\ i' = (apply_wal_ops ws (x, i)).2 /\ Forall (fun op => plain op = true) ws /\
  kind_ids i' = kind_ids i.
Proof.
  revert i i' ws. induction ids as [|id ids IH]; intros i i' ws Hl; simpl; [intros [= <- <-]; by split_and!|].
  destruct (nodes i !! id) as [n|] eqn:Hn; [|by apply IH].
  destruct (delete_each ids (drop_node id n i)) as [i1 ws1] eqn:Ed. intros [= <- <-].
  assert (live (x, drop_node id n i)) as Hl1.
  { pose proof (delete_node_live id x i Hl) as Hd. unfold delete_node in Hd. by rewrite Hn in Hd. }
  destruct (IH _ _ _ Hl1 Ed) as (L & E & P & K). split_and!; [done| |by constructor|].
  - rewrite apply_wal_ops_cons, apply_delete_node. cbn [fst snd]. by rewrite Hn.
  - by rewrite K, drop_node_kinds.
Qed.

Lemma install_core sys ws ids i g : core_ok g -> prepared (inner g) = ∅ -> ids_le (g_ids g) ids ->
  live (ids, i) -> runs ws (g_ids g, inner g) -> same_as i (apply_wal_ops ws (g_ids g, inner g)).2 ->
  commit_seq i = commit_seq (inner g) -> core_ok (install_batch sys ws (ids, i) g).1.
Proof.
  intros C Hnone Hids Hl R Hs Hseq. unfold install_batch, record. cbn [fst snd].
  pose proof (core_record sys ws ws _ (core_ids g ids C Hids)) as C1.
  destruct (record_frame sys ws ws (put_ids ids g)) as (E1 & E2 & E3 & E4 & E5 & E6 & _).
  destruct (record_split sys ws ws (put_ids ids g)) as [g1 [[]|[]]]; cbn [fst] in *; [|done].
  apply core_commit; [done| | | |].
  - rewrite E4. cbn. done.
  - apply held_none. by rewrite (same_as_prepared ws (g_ids g, inner g) i R Hs).
  - by rewrite E1.
  - rewrite E1. cbn. by apply (covered_same_as ws (g_ids g, inner g)).
Qed.

Lemma delete_nodes_core sys ids g : core_ok g -> room_for 1 (g_ids g, inner g) ->
  core_ok (delete_nodes sys ids g).1.
Proof.
  intros C Hr. unfold delete_nodes.
  destruct (write_for_commit_cases g) as [[-> Hnone]|[e ->]]; [|done].
  destruct (delete_each ids (inner g)) as [i ws] eqn:Ed.
  destruct (delete_each_ok ids (inner g) (g_ids g) i ws (co_live _ C) Ed) as (L & E & P & K).
  assert (core_ok (install_batch sys ws (g_ids g, i) g).1) as Hi.
  { apply install_core; [done|done|done|done| |by rewrite E|by rewrite E, apply_wal_ops_seq].
    split_and!; [done|by apply live_good, (co_live _ C)|].
    rewrite <- E. unfold kinds_fit. rewrite K. destruct Hr as (_ & _ & Hk). cbn [snd] in Hk. lia. }
  destruct ws as [|w ws]; [done|].
  destruct (install_batch sys (w :: ws) (g_ids g, i) g) as [g1 [[]|]]; done.
Qed.

(** Records interned by a batch, at most one per operation. *)
Lemma runs_many ops st : Forall (fun op => plain op = true) ops -> good st -> room_for (length ops) st ->
  runs ops st.
Proof.
  intros Hp Hg (_ & _ & Hk). split_and!; [done..|]. unfold kinds_fit.
  assert (size (kind_ids (apply_wal_ops ops st).2) <= size (kind_ids st.2) + length ops)%nat; [|lia].
  clear Hg Hk. revert st. induction Hp as [|op ops Hop _ IH]; intros st; [cbn; lia|].
  rewrite apply_wal_ops_cons. specialize (IH (apply_wal_op op st)). pose proof (plain_kinds op st Hop).
  cbn [length]. lia.
Qed.

(** The loop of [create_nodes] and [create_edges] does what its records say. *)
Lemma log_all_ok env ops st st' r : live st -> room_for (length ops) st -> log_all env ops st = (st', r) ->
  live st' /\ ids_le st.1 st'.1 /\ commit_seq st'.2 = commit_seq st.2 /\
  match r with
  | Ok ws => length ws = length ops /\ runs ws st /\ same_as st'.2 (apply_wal_ops ws st).2
  | Err _ => True
  end.
Proof.
  revert st st' r. induction ops as [|op ops IH]; intros st st' r Hl Hr; cbn [log_all].
  { intros [= <- <-]. split_and!; try done. apply runs_many; [constructor|by apply live_good|done]. }
  destruct Hr as (R1 & R2 & R3). cbn [length] in *.
  assert (room_for 1 st) as Hr1 by (unfold room_for; lia).
  assert (room_for (S (length ops)) st) as Hrs by (unfold room_for; lia).
  destruct (log_op env true op st) as [st1 r1] eqn:E1.
  destruct (log_op_ok env true op st st1 r1 Hl Hr1 E1) as (L1 & I1 & Q1 & H1).
  assert (room_for (length ops) st1) as Hr2.
  { destruct (run_op_steps env true op st (room_for_room _ Hr1)) as (S1 & S2 & S3).
    rewrite <- log_op_run, E1 in S1, S2, S3. cbn [fst] in *. unfold room_for. lia. }
  destruct r1 as [w|e]; [|intros [= <- <-]; by split_and!].
  destruct (log_all env ops st1) as [st2 r2] eqn:E2.
  destruct (IH st1 st2 r2 L1 Hr2 E2) as (L2 & I2 & Q2 & H2).
  assert (ids_le st.1 st2.1) as I by by etrans.
  destruct r2 as [ws|e]; intros [= <- <-]; [|split_and!; [done|done|congruence|done]].
  destruct H1 as [Rw Sw], H2 as (Hlen & Rws & Sws).
  assert (runs (w :: ws) st) as R.
  { apply runs_many; [|by apply live_good|cbn; by rewrite Hlen].
    apply Forall_cons. split; [exact (Forall_inv (proj1 Rw))|apply Rws]. }
  split_and!; [done|done|congruence|cbn; congruence|done|].
  rewrite apply_wal_ops_cons. etrans; [exact Sws|].
  destruct (runs_cons w ws st R) as (_ & _ & R'). by apply same_ops.
Qed.

Lemma create_batch_core sys ops g : core_ok g -> room_for (length ops) (g_ids g, inner g) ->
  core_ok (create_batch sys ops g).1.
Proof.
  intros C Hr. unfold create_batch. destruct ops as [|op ops]; [done|].
  destruct (write_for_commit_cases g) as [[-> Hnone]|[e ->]]; [|done].
  destruct (log_all (sys_env sys) (op :: ops) (g_ids g, inner g)) as [[ids i] r] eqn:E.
  destruct (log_all_ok _ _ _ _ _ (co_live _ C) Hr E) as (L & I & Q & H1). cbn [fst snd] in *.
  destruct r as [ws|e]; [|by apply core_ids]. destruct H1 as (_ & R & S). by apply install_core.
Qed.

(** A batch of records that is applied, noted and then logged. *)
Lemma batch_core g ops ids i : core_ok g -> prepared (inner g) = ∅ -> runs ops (g_ids g, inner g) ->
  ids_le (g_ids g) ids -> live (ids, i) -> same_as i (apply_wal_ops ops (g_ids g, inner g)).2 ->
  commit_seq i = commit_seq (inner g) -> core_ok (commit_inner i (from_ops ops) (put_ids ids g)).
Proof.
  intros C Hnone R Hids Hl Hs Hseq. apply core_commit; cbn.
  - by apply core_ids.
  - done.
  - apply held_none. by rewrite (same_as_prepared ops (g_ids g, inner g) i R Hs).
  - done.
  - by apply (covered_same_as ops (g_ids g, inner g)).
Qed.

Lemma set_embeddings_apply embs st : graph_wf st.2 ->
  let st' := apply_wal_ops ((fun x => SetEmbedding x.1 x.2) <$> embs) st in
  st'.1 = st.1 /\ nodes st'.2 = nodes st.2 /\ edges st'.2 = edges st.2 /\ graph_wf st'.2 /\
  kind_ids st'.2 = kind_ids st.2.
Proof.
  revert st. induction embs as [|[id v] embs IH]; intros [ids g] W; [by split_and!|]. cbn [fmap list_fmap].
  cbv zeta. rewrite apply_wal_ops_cons, apply_set_embedding. cbn [fst snd].
  destruct (IH (ids, with_embeddings (<[id := v]> (embeddings g)) g) W) as (-> & -> & -> & W' & ->).
  by split_and!.
Qed.

Lemma embeddings_runs embs st : good st -> kinds_fit st.2 -> runs ((fun x => SetEmbedding x.1 x.2) <$> embs) st.
Proof.
  intros Hg Hk. destruct (set_embeddings_apply embs st (proj1 Hg)) as (_ & _ & _ & _ & K).
  split_and!; [|done|by unfold kinds_fit; rewrite K]. apply Forall_fmap, Forall_true. done.
Qed.

Lemma set_embeddings_core sys embs g : core_ok g -> room_for 1 (g_ids g, inner g) ->
  core_ok (set_embeddings_batch sys embs g).1.
Proof.
  intros C Hr. unfold set_embeddings_batch. destruct embs as [|x embs]; [done|].
  destruct (write_for_commit_cases g) as [[-> Hnone]|[e ->]]; [|done].
  destruct (filter _ (x :: embs)) as [|[id v] l]; [|by apply core_touch].
  pose proof (co_live _ C) as Hl. pose proof Hl as (W & L & Co).
  assert (kinds_fit (inner g)) as Hk by (destruct Hr as (_ & _ & Hk); cbn in Hk; unfold kinds_fit; lia).
  pose proof (embeddings_runs (x :: embs) (g_ids g, inner g) (live_good _ Hl) Hk) as R.
  destruct (set_embeddings_apply (x :: embs) (g_ids g, inner g) W) as (E1 & E2 & E3 & W' & _).
  pose proof (apply_wal_ops_seq ((fun x => SetEmbedding x.1 x.2) <$> x :: embs) (g_ids g, inner g)) as Hseq.
  destruct (apply_wal_ops ((fun x => SetEmbedding x.1 x.2) <$> x :: embs) (g_ids g, inner g)) as [ids i] eqn:Ea.
  cbn [fst snd] in *. subst ids. unfold record. rewrite io_as_fst. apply core_record.
  apply batch_core; [done|done|done|done| |by rewrite Ea|done].
  split_and!; [done|by eapply linked_same|]. unfold counted. cbn [fst snd]. by rewrite E2, E3.
Qed.

(** ** Opening and writing in transactions *)
Lemma runs_nil st : good st -> kinds_fit st.2 -> runs [] st.
Proof. intros Hg Hk. split_and!; [constructor|done|done]. Qed.

Lemma register_tx_core iso lim g : core_ok g -> kinds_fit (inner g) -> core_ok (register_tx iso lim g).1.
Proof.
  intros C Hk. cbn. apply core_slots; [done|]. intros id s. rewrite lookup_insert.
  case_decide; [|apply (co_slots _ C)]. intros [= <-]. pose proof (co_live _ C) as Hl. split; cbn; try done.
  - apply runs_nil; [by apply live_good|done].
  - apply (co_ptr _ C).
  - intros _. rewrite (since_none (commit_seq (inner g))); [|apply (co_hist _ C)|done].
    apply covered_same; [done|]. intros k. apply agree_refl.
Qed.

Lemma runs_snoc ops op st : runs ops st -> plain op = true ->
  kinds_fit (apply_wal_ops (ops ++ [op]) st).2 ->
  runs (ops ++ [op]) st /\ runs [op] (apply_wal_ops ops st).
Proof.
  intros (Hp & Hg & Hf) Hop Hf'. split.
  { split_and!; [|done|done]. apply Forall_app. split; [done|by constructor]. }
  rewrite apply_wal_ops_app in Hf'. split_and!; [by constructor| |done].
  destruct (apply_wal_ops_grows ops st) as [_ Hgr]. by apply Hgr.
Qed.

Lemma runs_one_of w st : runs [w] st -> plain w = true.
Proof. intros [Hp _]. by apply Forall_cons in Hp as [? _]. Qed.

Lemma tx_write_core env id op g : core_ok g -> roomy g -> roomy (tx_write env id op g).1 ->
  core_ok (tx_write env id op g).1.
Proof.
  intros C (_ & _ & Hrs & _). unfold tx_write. destruct (reg_txs g !! id) as [slot|] eqn:Hslot; [|done].
  destruct (if limited slot then _ else _); [|done].
  pose proof (co_slots _ C id slot Hslot) as [S1 S2 S3 S4 S5 S6 S7 S8 S9 S10].
  destruct (Hrs id slot Hslot) as [Hroom _].
  destruct (log_op env false op (g_ids g, working slot)) as [[ids i] r] eqn:Hlog.
  destruct (log_op_ok _ _ _ _ _ _ S2 Hroom Hlog) as (Hl & Hids & Hseq & Hres). cbn [fst snd] in *.
  pose proof (core_ids g ids C Hids) as C'.
  assert (constraints i = constraints (working slot)) as Hcons.
  { pose proof (log_op_cons env false op (g_ids g, working slot) S2 (room_for_room _ Hroom)) as Hc.
    by rewrite Hlog in Hc. }
  assert (forall ws, runs ws (ids, base slot) -> same_as i (apply_wal_ops ws (ids, base slot)).2 ->
    core_ok (put_txs (<[id := mkSlot (base_ptr slot) (base slot) i ws (tx_isolation slot) (limited slot)]>
      (reg_txs g)) (next_reg_tx g) (put_ids ids g))) as Hput.
  { intros ws Hruns Hsame. apply core_slots; [done|]. intros j s. rewrite lookup_insert.
    case_decide; [|apply (co_slots _ C')]. intros [= <-]. split; cbn; try done.
    - by eapply live_mono.
    - congruence.
    - congruence. }
  destruct r as [w|e]; cbn [fst].
  - intros (_ & _ & Hrs' & _). destruct Hres as [Rw Sw].
    specialize (Hrs' id _ ltac:(apply lookup_insert_eq)) as [_ Hfit]. cbn [tx_ops base] in Hfit.
    cbn [g_ids put_txs put_ids] in Hfit.
    pose proof (runs_other_ids _ _ ids _ Hids S3) as R3.
    destruct (runs_snoc _ w _ R3 (runs_one_of _ _ Rw) Hfit) as [R1 R2].
    apply Hput; [done|]. rewrite apply_wal_ops_app. etrans; [exact Sw|].
    apply same_ops; [done|done|]. cbn [snd]. etrans; [exact S4|].
    rewrite (apply_other_ids _ (g_ids g) ids). reflexivity.
  - intros _. apply Hput; [by eapply runs_other_ids|]. rewrite Hres. etrans; [exact S4|].
    rewrite (apply_other_ids _ (g_ids g) ids). reflexivity.
Qed.

(** ** Committing *)
Lemma commit_state_core sys i ops mg g : core_ok g ->
  (kinds_fit i -> live (g_ids g, i) /\ held_ok (g_ids g) i /\ commit_seq i = commit_seq (inner g) /\
     covered (from_ops ops) (inner g) i) ->
  roomy (commit_state sys i ops mg g).1 -> core_ok (commit_state sys i ops mg g).1.
Proof.
  intros C Hi. unfold commit_state, record.
  pose proof (breaks_prepared_ids (g_ids g, i)) as Hids.
  destruct (breaks_prepared (g_ids g, i)) as [ids broke]. cbn [fst] in Hids.
  pose proof (core_ids g ids C Hids) as C1. destruct broke; [done|].
  pose proof (core_record sys ops ops _ C1) as C2.
  destruct (record_frame sys ops ops (put_ids ids g)) as (E1 & E2 & E3 & E4 & E5 & E6 & _).
  destruct (record_split sys ops ops (put_ids ids g)) as [g1 [[]|[]]]; cbn [fst] in *; [|done].
  intros (Hroom & _).
  assert (kinds_fit i) as Hk.
  { destruct Hroom as (_ & _ & Hk). unfold kinds_fit. destruct mg; cbn in Hk; lia. }
  destruct (Hi Hk) as (Hl & Hh & Hseq & Hcov).
  assert (core_ok (commit_inner i (from_ops ops) g1)) as C3.
  { apply core_commit; [done| | | |].
    - rewrite E4. by eapply live_mono.
    - rewrite E4. destruct Hh as [H1 H2]. split; [done|]. intros gid e He. eapply entry_ids; [done|by eapply H2].
    - by rewrite E1.
    - by rewrite E1. }
  destruct mg; [|done]. by apply (core_frame (commit_inner i (from_ops ops) g1)).
Qed.

(** What the fence let through keeps every prepared write set applicable. *)
Lemma prepared_set_everything i : cs_everything (prepared_set i) = false.
Proof.
  unfold prepared_set. assert (forall l s, cs_everything s = false ->
    cs_everything (foldl (fun set e => cs_extend set (from_ops (prepared_ops e))) s l) = false) as Hl.
  { induction l as [|e l IH]; intros s Hs; [done|]. apply IH. simpl. by rewrite Hs, from_ops_everything. }
  by apply Hl.
Qed.

Lemma elem_of_entries i gid e : prepared i !! gid = Some e -> e ∈ prepared_entries i.
Proof.
  intros He. unfold prepared_entries, pending_gids. apply list_elem_of_omap. exists gid.
  split; [|done]. apply elem_of_sorted_keys, elem_of_dom. eauto.
Qed.

Lemma prepared_set_contains i e : e ∈ prepared_entries i ->
  cs_writes (from_ops (prepared_ops e)) ⊆ cs_writes (prepared_set i) /\
  cs_deletes (from_ops (prepared_ops e)) ⊆ cs_deletes (prepared_set i) /\
  cs_deps (from_ops (prepared_ops e)) ⊆ cs_deps (prepared_set i).
Proof.
  unfold prepared_set. generalize (prepared_entries i) as l. intros l He.
  assert (forall l (s : ConflictSet), let r := foldl (fun set e => cs_extend set (from_ops (prepared_ops e))) s l in
    cs_writes s ⊆ cs_writes r /\ cs_deletes s ⊆ cs_deletes r /\ cs_deps s ⊆ cs_deps r) as Hmono.
  { clear. induction l as [|e l IH]; intros s; simpl; [done|].
    destruct (IH (cs_extend s (from_ops (prepared_ops e)))) as (I1 & I2 & I3). simpl in *. set_solver. }
  apply list_elem_of_split in He as (l1 & l2 & ->). rewrite foldl_app. simpl.
  destruct (Hmono l2 (cs_extend (foldl (fun set e => cs_extend set (from_ops (prepared_ops e))) cs_empty l1)
    (from_ops (prepared_ops e)))) as (M1 & M2 & M3). simpl in *. set_solver.
Qed.

Lemma fence_entry i mine gid e : prepared i !! gid = Some e -> cs_everything mine = false ->
  has_prepared i && intersects mine (prepared_set i) = false ->
  intersects (from_ops (prepared_ops e)) mine = false.
Proof.
  intros He Hev Hf. assert (has_prepared i = true) as Hp.
  { apply not_false_is_true. intros Hn%has_prepared_false. by rewrite Hn, lookup_empty in He. }
  rewrite Hp in Hf. simpl in Hf.
  destruct (intersects_false _ _ Hev (prepared_set_everything i) Hf) as (F1 & F2 & F3).
  destruct (prepared_set_contains i e (elem_of_entries _ _ _ He)) as (P1 & P2 & P3).
  unfold intersects. rewrite Hev, from_ops_everything, !orb_false_iff, !meets_false.
  split_and!; intros k H1 H2; [eapply F1|eapply F3|eapply F2]; eauto.
Qed.

Lemma held_covered ids i i' mine : held_ok ids i -> covered mine i i' -> prepared i' = prepared i ->
  cs_everything mine = false -> has_prepared i && intersects mine (prepared_set i) = false ->
  held_ok ids i'.
Proof.
  intros [H1 H2] Hc Hp Hev Hf. split; rewrite Hp; [done|]. intros gid e He.
  eapply entry_covered; [by eapply H2|done|done|]. by eapply fence_entry.
Qed.

(** A set that clashes with no later commit clashes with none of them together. *)
Lemma since_apart seq h b mine : history_ok seq h -> b < seq -> cs_everything mine = false ->
  cs_writes mine <> ∅ -> classify h b mine = WouldPass ->
  covers h b = true /\ cs_everything (since h b) = false /\ intersects mine (since h b) = false.
Proof.
  intros Hh Hb Hev Hw. unfold classify. destruct (covers h b); [|done]. simpl.
  destruct (existsb _ _) eqn:Ee; [done|]. intros _. split; [done|].
  assert (forall x, x ∈ (filter (fun x : N * ConflictSet => b < x.1) (recent h)).*2 ->
    intersects x mine = false) as Hall.
  { intros x Hx. apply list_elem_of_fmap in Hx as ([s x'] & -> & Hx).
    apply list_elem_of_filter in Hx as [Hlt Hx]. simpl in *. apply not_true_iff_false. intros Hi.
    rewrite <- not_true_iff_false in Ee. apply Ee, existsb_exists. exists (s, x').
    split; [|done]. apply list_elem_of_In. by apply (newer_than_rev seq). }
  unfold since. revert Hall. generalize ((filter (fun x : N * ConflictSet => b < x.1) (recent h)).*2) as l.
  assert (forall l s, cs_everything s = false -> intersects mine s = false ->
    (forall x, x ∈ l -> intersects x mine = false) ->
    cs_everything (foldl cs_extend s l) = false /\ intersects mine (foldl cs_extend s l) = false) as Hl.
  { induction l as [|x l IH]; intros s Hs Hms Hall; [done|]. simpl.
    pose proof (Hall x ltac:(by left)) as Hx.
    assert (cs_everything x = false) as Hxe.
    { apply not_true_iff_false. intros Ht. unfold intersects in Hx. rewrite Ht in Hx.
      unfold cs_is_empty in Hx. rewrite Hev in Hx. simpl in Hx.
      rewrite negb_false_iff, bool_decide_eq_true in Hx. done. }
    apply IH; [simpl; by rewrite Hs, Hxe| |intros y Hy; apply Hall; by right].
    apply intersects_extend; [done..|]. rewrite <- Hx. unfold intersects. rewrite Hev, Hxe.
    rewrite (meets_comm (cs_writes x)), (meets_comm (cs_deps x)), (meets_comm (cs_deletes x)).
    rewrite <- !orb_assoc. f_equal. apply orb_comm. }
  intros l Hall. apply Hl; [done| |done]. unfold intersects. rewrite Hev. simpl.
  rewrite !orb_false_iff, !meets_false. set_solver.
Qed.

Lemma plain_writes ops : Forall (fun op => plain op = true) ops -> ops <> [] ->
  cs_writes (from_ops ops) <> ∅.
Proof.
  destruct ops as [|op ops]; [done|]. intros [Hop _]%Forall_cons _ He.
  assert (exists k, k ∈ cs_writes (from_op cs_empty op)) as [k Hk].
  { destruct op; try done; simpl; eexists; apply elem_of_union; left; by apply elem_of_singleton. }
  assert (k ∈ cs_writes (from_ops (op :: ops))) by (apply writes_cons; by left). set_solver.
Qed.
End more_steps.

Section commit_steps.
Context `{JsonText}.

Lemma intersects_empty mine : cs_everything mine = false -> intersects mine cs_empty = false.
Proof.
  intros Hev. unfold intersects. rewrite Hev. simpl. rewrite !orb_false_iff, !meets_false. set_solver.
Qed.

Lemma slot_merges g s : core_ok g -> slot_ok g s -> tx_ops s <> [] ->
  classify (history g) (commit_seq (base s)) (from_ops (tx_ops s)) = WouldPass ->
  runs (tx_ops s) (g_ids g, inner g) ->
  merges (tx_ops s) (since (history g) (commit_seq (base s))) (g_ids g, base s) (g_ids g, inner g).
Proof.
  intros C S Hne Hcl Hruns. destruct S as [S1 S2 S3 S4 S5 S6 S7 S8 S9 S10].
  destruct (decide (commit_seq (base s) = commit_seq (inner g))) as [Heq|Hneq].
  - specialize (S9 (or_introl Heq)).
    rewrite (since_none (commit_seq (inner g))) in *; [|apply (co_hist _ C)|lia..|apply (co_hist _ C)|lia].
    split; try done. apply intersects_empty, from_ops_everything.
  - destruct (since_apart (commit_seq (inner g)) (history g) (commit_seq (base s)) (from_ops (tx_ops s)))
      as (Hcov & Hev & Hap); [apply (co_hist _ C)|lia|apply from_ops_everything| |done|].
    + apply plain_writes; [apply S3|done].
    + split; try done. apply S9. by right.
Qed.

Lemma merged_live g s : core_ok g -> slot_ok g s -> tx_ops s <> [] ->
  classify (history g) (commit_seq (base s)) (from_ops (tx_ops s)) = WouldPass ->
  kinds_fit (apply_wal_ops (tx_ops s) (g_ids g, inner g)).2 ->
  live (apply_wal_ops (tx_ops s) (g_ids g, inner g)) /\ runs (tx_ops s) (g_ids g, inner g).
Proof.
  intros C S Hne Hcl Hk.
  assert (runs (tx_ops s) (g_ids g, inner g)) as R.
  { split_and!; [apply (so_runs _ _ S)|by apply live_good, (co_live _ C)|done]. }
  split; [|done]. destruct (apply_wal_ops_grows (tx_ops s) (g_ids g, inner g)) as [_ Hg].
  destruct (Hg Hk (live_good _ (co_live _ C))) as [W Co].
  split_and!; [done| |done].
  eapply merge_linked; [by apply slot_merges|by destruct (co_live _ C) as (_ & ? & _)|].
  destruct (so_work _ _ S) as (_ & L & _). destruct (so_same _ _ S) as [Ha _].
  intros i e He. cbn [snd] in L. pose proof (Ha (KEdge i)) as Hae. simpl in Hae. rewrite <- Hae in He.
  destruct (Ha (KNode (e_from e))) as [<- _]. destruct (Ha (KNode (e_to e))) as [<- _]. by eapply L.
Qed.

Lemma count_conflict_core r g : core_ok g -> core_ok (count_conflict r g).
Proof. intros C. by apply (core_frame g). Qed.

Lemma commit_parts_core sys s g : core_ok g -> slot_ok g s -> roomy (commit_parts sys s g).1 ->
  core_ok (commit_parts sys s g).1.
Proof.
  intros C S. unfold commit_parts. destruct (tx_ops s) as [|op0 ops0] eqn:Eops; [done|].
  rewrite <- Eops. assert (tx_ops s <> []) as Hne by (rewrite Eops; done). clear Eops op0 ops0.
  destruct (read_only g); [done|].
  destruct (has_prepared (inner g) && intersects (from_ops (tx_ops s)) (prepared_set (inner g))) eqn:Hfence;
    [done|].
  destruct (N.eqb_spec (live_ptr g) (base_ptr s)) as [Hptr|Hptr].
  - destruct (validate_constraints (working s)); [|done].
    pose proof (so_same_ptr _ _ S (eq_sym Hptr)) as Hb. apply commit_state_core; [done|]. intros _.
    assert (covered (from_ops (tx_ops s)) (inner g) (working s)) as Hcov.
    { rewrite <- Hb. by apply (covered_same_as (tx_ops s) (g_ids g, base s)); [apply S|apply S]. }
    split_and!; [apply S| | |done].
    + eapply held_covered; [apply (co_held _ C)|done| |apply from_ops_everything|done].
      rewrite <- Hb. by apply (same_as_prepared (tx_ops s) (g_ids g, base s)); apply S.
    + rewrite (so_wseq _ _ S). by rewrite Hb.
  - destruct (negb (bool_decide _) || bool_decide _) eqn:Hrej; [intros _; by apply count_conflict_core|].
    apply orb_false_iff in Hrej as [Hcl _]. rewrite negb_false_iff, bool_decide_eq_true in Hcl.
    destruct (validate_constraints (working s)); [|done].
    pose proof (apply_wal_ops_ids (tx_ops s) (g_ids g, inner g)) as Hids. cbn [fst] in Hids.
    pose proof (merged_live g s C S Hne Hcl) as Hml.
    pose proof (apply_wal_ops_seq (tx_ops s) (g_ids g, inner g)) as Hseq. cbn [snd] in Hseq.
    remember (apply_wal_ops (tx_ops s) (g_ids g, inner g)) as r eqn:Er. destruct r as [ids m].
    cbn [fst snd] in *. pose proof (core_ids g ids C Hids) as C1.
    destruct (validate_constraints m); [|intros _; by apply count_conflict_core].
    apply commit_state_core; [done|]. intros Hk. destruct (Hml Hk) as [Hl R].
    assert (covered (from_ops (tx_ops s)) (inner g) m) as Hcov.
    { apply (covered_same_as (tx_ops s) (g_ids g, inner g)); [done|]. rewrite <- Er. reflexivity. }
    split_and!; [done| |done|done]. cbn [put_ids inner g_ids].
    eapply held_covered; [apply (co_held _ C1)|done| |apply from_ops_everything|done].
    apply (same_as_prepared (tx_ops s) (g_ids g, inner g)); [done|]. rewrite <- Er. reflexivity.
Qed.

Lemma slot_close g s id : slot_ok g s -> slot_ok (close_tx id g) s.
Proof. intros []. by split. Qed.

Lemma tx_commit_core sys id g : core_ok g -> roomy (tx_commit sys id g).1 ->
  core_ok (tx_commit sys id g).1.
Proof.
  intros C. unfold tx_commit. destruct (reg_txs g !! id) as [s|] eqn:Hs; [|done].
  apply commit_parts_core; [by apply core_close|]. by apply slot_close, (co_slots _ C id).
Qed.

(** ** Two-phase commit *)
Lemma two_phase_live ids i p h : live (ids, i) -> live (ids, with_prepared p h i).
Proof. by intros (W & L & C). Qed.

Lemma tx_prepare_core sys id gid g : core_ok g -> core_ok (tx_prepare sys id gid g).1.
Proof.
  intros C. unfold tx_prepare. destruct (reg_txs g !! id) as [s|] eqn:Hs; [|done].
  pose proof (slot_close g s id (co_slots _ C id s Hs)) as S.
  pose proof (core_close g id C) as C1. remember (close_tx id g) as g1 eqn:Eg. clear Eg C Hs g.
  destruct (read_only g1); [done|]. case_bool_decide; [done|].
  destruct (has_prepared (inner g1)) eqn:Hnone; [done|]. apply has_prepared_false in Hnone.
  destruct (N.eqb_spec (live_ptr g1) (base_ptr s)) as [Hptr|]; cbn [negb];
    [|by apply count_conflict_core].
  destruct (validate_constraints (working s)); [|done].
  set (e := mkPrepared (env_now (sys_env sys)) (tx_ops s)).
  pose proof (core_record sys [Prepare gid (env_now (sys_env sys)) (tx_ops s)] [] _ C1) as C2.
  destruct (record_frame sys [Prepare gid (env_now (sys_env sys)) (tx_ops s)] [] g1)
    as (E1 & E2 & E3 & E4 & E5 & E6 & _).
  destruct (record_split sys [Prepare gid (env_now (sys_env sys)) (tx_ops s)] [] g1) as [g2 [[]|[]]];
    cbn [fst] in *; [|done].
  pose proof (so_same_ptr _ _ S (eq_sym Hptr)) as Hb.
  assert (forall k, agree_at (with_prepared (<[gid := e]> (prepared (inner g2)))
    (heuristic (inner g2) ∖ {[ gid ]}) (inner g2)) (inner g2) k) as Hag by by intros [].
  apply core_commit; [done|by apply two_phase_live, (co_live _ C2)| |done|by apply covered_same].
  rewrite E1, E4, Hnone. split; cbn.
  - intros j j' x y. rewrite !lookup_insert, !lookup_empty. repeat case_decide; congruence.
  - intros j x. rewrite lookup_insert, lookup_empty. case_decide; [|done]. intros [= <-].
    exists (inner g1), cs_empty. split_and!; [|by apply covered_same; [|intros []]|done| |].
    + cbn. rewrite <- Hb. apply S.
    + apply intersects_empty, from_ops_everything.
    + cbn. destruct (so_work _ _ S) as (_ & L & _). destruct (so_same _ _ S) as [Ha _].
      rewrite Hb in Ha. intros i d Hd. cbn [snd] in *.
      pose proof (Ha (KEdge i)) as Hae. simpl in Hae.
      destruct (L i d ltac:(rewrite Hae; exact Hd)) as [Lf Lt].
      destruct (Ha (KNode (e_from d))) as [Hf _]. destruct (Ha (KNode (e_to d))) as [Ht _].
      rewrite Hf in Lf. rewrite Ht in Lt. by split.
Qed.

Lemma held_resolved ids i i' gid e : held_ok ids i -> prepared i !! gid = Some e ->
  prepared i' = delete gid (prepared i) -> held_ok ids i'.
Proof.
  intros [H1 H2] He Hp. apply held_none. rewrite Hp. apply map_eq. intros j.
  rewrite lookup_delete, lookup_empty. case_decide as Hj; [done|].
  destruct (prepared i !! j) as [x|] eqn:Hx; [|done]. by destruct (Hj (H1 _ _ _ _ He Hx)).
Qed.

Lemma commit_prepared_core sys gid g : core_ok g ->
  (forall e, prepared (inner g) !! gid = Some e ->
     kinds_fit (apply_wal_ops (prepared_ops e) (g_ids g, inner g)).2) ->
  core_ok (commit_prepared sys gid g).1.
Proof.
  intros C Hfit. unfold commit_prepared. destruct (read_only g); [done|].
  destruct (prepared (inner g) !! gid) as [e|] eqn:He; [|done]. specialize (Hfit e eq_refl).
  pose proof (core_record sys [CommitPrepared gid] (prepared_ops e) _ C) as C2.
  destruct (record_frame sys [CommitPrepared gid] (prepared_ops e) g)
    as (E1 & E2 & E3 & E4 & E5 & E6 & _).
  destruct (record_split sys [CommitPrepared gid] (prepared_ops e) g) as [g2 [[]|[]]];
    cbn [fst] in *; [|done].
  rewrite <- E1, <- E4 in Hfit. rewrite <- E1 in He. clear E1 E2 E3 E4 E5 E6 C g. rename g2 into g.
  pose proof (apply_commit gid (g_ids g, inner g)) as Ha. cbn [fst snd] in Ha. rewrite He in Ha.
  rewrite Ha. set (i0 := with_prepared (delete gid (prepared (inner g))) (heuristic (inner g)) (inner g)).
  destruct (ho_entry _ _ (co_held _ C2) _ _ He) as (b & set & R & Hc & Hev & Hap & L).
  assert (good (g_ids g, inner g)) as Hgood by apply live_good, (co_live _ C2).
  assert (runs (prepared_ops e) (g_ids g, inner g)) as R1 by (split_and!; [apply R|done|done]).
  pose proof (ops_prepared (prepared_ops e) (g_ids g) (delete gid (prepared (inner g)))
    (heuristic (inner g)) (inner g) (proj1 R)) as Hpk. fold i0 in Hpk.
  assert (runs (prepared_ops e) (g_ids g, i0)) as R0.
  { split_and!; [apply R|exact Hgood|]. rewrite Hpk. exact Hfit. }
  pose proof (apply_wal_ops_ids (prepared_ops e) (g_ids g, i0)) as Hids.
  pose proof (apply_wal_ops_seq (prepared_ops e) (g_ids g, i0)) as Hseq.
  destruct (apply_wal_ops_grows (prepared_ops e) (g_ids g, i0)) as [_ Hgrow].
  destruct (Hgrow (proj2 (proj2 R0)) (proj1 (proj2 R0))) as [W Co].
  assert (linked (apply_wal_ops (prepared_ops e) (g_ids g, i0)).2) as Ll.
  { eapply (merge_linked (prepared_ops e) set (g_ids g, b)); [split; try done| |done].
    - cbn. eapply covered_ext; [exact Hc|]. by intros [].
    - cbn. by destruct (co_live _ C2) as (_ & ? & _). }
  assert (covered (from_ops (prepared_ops e)) (inner g) (apply_wal_ops (prepared_ops e) (g_ids g, i0)).2) as Hcov.
  { eapply covered_trans_same; [|apply (covered_ops _ _ R0)]. by intros []. }
  destruct (ops_two_phase (prepared_ops e) (g_ids g, i0) (proj1 R)) as [Hp _].
  destruct (apply_wal_ops (prepared_ops e) (g_ids g, i0)) as [ids i]. cbn [fst snd] in *.
  apply core_commit; [by apply core_ids|done| |done|done].
  cbn. eapply held_resolved; [apply (co_held _ (core_ids g ids C2 Hids))|exact He|exact Hp].
Qed.
End commit_steps.

Section all_steps.
Context `{JsonText}.

Lemma rollback_prepared_core sys gid heur g : core_ok g ->
  core_ok (rollback_prepared_as sys gid heur g).1.
Proof.
  intros C. unfold rollback_prepared_as. destruct (read_only g); [done|].
  case_bool_decide as Hs; cbn [negb]; [|by destruct (negb heur && _)].
  pose proof (core_record sys [RollbackPrepared gid heur] [] _ C) as C2.
  destruct (record_frame sys [RollbackPrepared gid heur] [] g) as (E1 & _).
  destruct (record_split sys [RollbackPrepared gid heur] [] g) as [g2 [[]|[]]]; cbn [fst] in *; [|done].
  rewrite <- E1 in Hs. clear E1 C g. rename g2 into g. destruct Hs as [e He].
  rewrite apply_rollback. cbn [fst snd].
  apply core_commit; cbn.
  - by apply core_ids.
  - by apply two_phase_live, (co_live _ C2).
  - by eapply held_resolved; [apply (co_held _ C2)| |].
  - done.
  - apply covered_same; [done|]. by intros [].
Qed.

(** A schema change keeps the records. *)
Lemma schema_live ids i cs : live (ids, i) -> live (ids, sync_unique (with_constraints cs (unique i) i)).
Proof.
  intros ([W E] & L & C). split_and!; [split; [by apply sync_unique_wf|exact E]|exact L|exact C].
Qed.

Lemma schema_same i cs k : agree_at (sync_unique (with_constraints cs (unique i) i)) i k.
Proof. by destruct k. Qed.

Lemma schema_commit g cs : core_ok g ->
  core_ok (commit_inner (sync_unique (with_constraints cs (unique (inner g)) (inner g))) cs_all g).
Proof.
  intros C. apply core_commit; [done|by apply schema_live, (co_live _ C)| |done|].
  - eapply held_same; [apply (co_held _ C)|done|]. intros k. apply schema_same.
  - apply covered_same; [done|]. intros k. apply schema_same.
Qed.

Lemma add_constraint_core c g : core_ok g -> core_ok (add_constraint c g).1.
Proof.
  intros C. unfold add_constraint. case_bool_decide; [by apply core_touch|].
  destruct (validate_constraints _); [by apply schema_commit|by apply core_touch].
Qed.

(** Installing the same records without a commit. *)
Lemma core_put g i : core_ok g -> live (g_ids g, i) -> prepared i = prepared (inner g) ->
  (forall k, agree_at i (inner g) k) -> commit_seq i = commit_seq (inner g) -> core_ok (put_live i g).
Proof.
  intros [C1 C2 C3 C4 C5] Hl Hp Ha Hseq. split; cbn; try done.
  - by rewrite Hseq.
  - by eapply held_same.
  - lia.
  - intros id s Hs. destruct (C5 id s Hs) as [S1 S2 S3 S4 S5 S6 S7 S8 S9 S10]. split; cbn; try done; try lia.
    rewrite Hseq. intros Hor. eapply covered_ext; [by apply S9|done].
Qed.

Lemma remove_constraint_core c g : core_ok g -> core_ok (remove_constraint c g).1.
Proof.
  intros C. unfold remove_constraint. case_bool_decide; [by apply schema_commit|].
  apply core_put; [done|by apply schema_live, (co_live _ C)|done| |done]. intros k. apply schema_same.
Qed.

(** ** Bulk import *)
Definition import_error {A} (r : result CoreError A) : Prop :=
  match r with Ok _ | Err (IdCollision _) | Err (NodeNotFound _) => True | _ => False end.

Lemma import_nodes_ops ns same st st' ws r : import_nodes ns same st = (st', ws, r) ->
  st' = apply_wal_ops ws st /\ Forall (fun op => plain op = true) ws /\ import_error r.
Proof.
  revert st st' ws r. induction ns as [|n ns IH]; intros st st' ws r; cbn [import_nodes]; [intros [= <- <- <-]; by split_and!|].
  destruct (nodes st.2 !! n_id n) as [m|].
  - destruct (same m n); [by apply IH|]. intros [= <- <- <-]. by split_and!.
  - destruct (import_nodes ns same (apply_wal_op (UpsertNode n) st)) as [[st1 ws1] r1] eqn:E.
    intros [= <- <- <-]. destruct (IH _ _ _ _ E) as (-> & P & R). split_and!; [done|by constructor|done].
Qed.

Lemma import_nodes_linked ns same st st' ws r : import_nodes ns same st = (st', ws, r) -> runs ws st ->
  linked st.2 -> linked st'.2.
Proof.
  revert st st' ws r. induction ns as [|n ns IH]; intros st st' ws r; cbn [import_nodes]; [by intros [= <- <- <-]|].
  destruct (nodes st.2 !! n_id n) as [m|].
  - destruct (same m n); [by apply IH|]. by intros [= <- <- <-].
  - destruct (import_nodes ns same (apply_wal_op (UpsertNode n) st)) as [[st1 ws1] r1] eqn:E.
    intros [= <- <- <-] (Hp & He & R)%runs_cons L. apply (IH _ _ _ _ E R).
    intros i e. rewrite op_edges by done. intros [Lf Lt]%L. rewrite !op_nodes by done.
    split; case_decide; done.
Qed.

Lemma import_edges_ops es same st st' ws r : import_edges es same st = (st', ws, r) ->
  st' = apply_wal_ops ws st /\ Forall (fun op => plain op = true) ws /\ import_error r.
Proof.
  revert st st' ws r. induction es as [|e es IH]; intros st st' ws r; cbn [import_edges]; [intros [= <- <- <-]; by split_and!|].
  destruct (edges st.2 !! e_id e) as [d|].
  - destruct (same d e); [by apply IH|]. intros [= <- <- <-]. by split_and!.
  - repeat (case_bool_decide; [intros [= <- <- <-]; by split_and!|]).
    destruct (import_edges es same (apply_wal_op (UpsertEdge e) st)) as [[st1 ws1] r1] eqn:E.
    intros [= <- <- <-]. destruct (IH _ _ _ _ E) as (-> & P & R). split_and!; [done|by constructor|done].
Qed.

Lemma import_edges_linked es same st st' ws r : import_edges es same st = (st', ws, r) -> runs ws st ->
  linked st.2 -> linked st'.2.
Proof.
  revert st st' ws r. induction es as [|e es IH]; intros st st' ws r; cbn [import_edges]; [by intros [= <- <- <-]|].
  destruct (edges st.2 !! e_id e) as [d|].
  - destruct (same d e); [by apply IH|]. by intros [= <- <- <-].
  - case_bool_decide as Hf; [by intros [= <- <- <-]|]. case_bool_decide as Ht; [by intros [= <- <- <-]|].
    destruct (import_edges es same (apply_wal_op (UpsertEdge e) st)) as [[st1 ws1] r1] eqn:E.
    intros [= <- <- <-] (Hp & He & R)%runs_cons L. apply (IH _ _ _ _ E R).
    intros i d. rewrite op_edges by done. rewrite !op_nodes by done. case_decide; [|by apply L].
    intros [= <-]. by rewrite <- !not_eq_None_Some.
Qed.

(** What an import that went through has done. *)
Lemma import_live es ns same_node same_edge st st1 ws r st2 ws' r' : live st ->
  import_nodes ns same_node st = (st1, ws, r) -> import_edges es same_edge st1 = (st2, ws', r') ->
  kinds_fit st2.2 ->
  st2 = apply_wal_ops (ws ++ ws') st /\ runs (ws ++ ws') st /\ live st2 /\ ids_le st.1 st2.1.
Proof.
  intros Hl E1 E2 Hk. destruct (import_nodes_ops _ _ _ _ _ _ E1) as (S1 & P1 & _).
  destruct (import_edges_ops _ _ _ _ _ _ E2) as (S2 & P2 & _).
  assert (st2 = apply_wal_ops (ws ++ ws') st) as E by by rewrite apply_wal_ops_app, <- S1.
  assert (runs (ws ++ ws') st) as R.
  { split_and!; [by apply Forall_app|by apply live_good|by rewrite <- E]. }
  assert (kinds_fit st1.2) as Hk1.
  { destruct (apply_wal_ops_grows ws' st1) as [Hsz _]. rewrite <- S2 in Hsz. unfold kinds_fit in *. lia. }
  assert (runs ws st) as R1 by (split_and!; [done|by apply live_good|by rewrite <- S1]).
  assert (good st1) as G1.
  { destruct (apply_wal_ops_grows ws st) as [_ Hg]. rewrite <- S1 in Hg. apply Hg; [done|by apply live_good]. }
  assert (runs ws' st1) as R2 by (split_and!; [done..|by rewrite <- S2]).
  split_and!; [done..| |rewrite E; apply apply_wal_ops_ids].
  destruct (apply_wal_ops_grows ws' st1) as [_ Hg]. rewrite <- S2 in Hg. destruct (Hg Hk G1) as [W Co].
  split_and!; [done| |done]. eapply import_edges_linked; [done..|]. eapply import_nodes_linked; [done..|].
  by destruct Hl as (_ & ? & _).
Qed.

Lemma observe_ids a b ids : ids_le ids (Ids.observe_edge a (Ids.observe_node b ids)).
Proof. unfold ids_le. cbn. lia. Qed.

Lemma apply_dump_core sys same_node same_edge d g : core_ok g -> step_fits sys (SImport same_node same_edge d) g ->
  roomy (apply_dump sys same_node same_edge d g).1 -> core_ok (apply_dump sys same_node same_edge d g).1.
Proof.
  intros C. cbn [step_fits]. unfold apply_dump.
  destruct (write_for_commit_cases g) as [[-> Hnone]|[e ->]]; [|done].
  destruct (import_nodes (d_nodes d) same_node (g_ids g, inner g)) as [[st1 ws] r] eqn:E1.
  pose proof (import_nodes_ops _ _ _ _ _ _ E1) as (_ & _ & X1).
  destruct r as [[]|e]; [|by destruct e].
  destruct (import_edges (d_edges d) same_edge st1) as [[st2 ws'] r] eqn:E2.
  pose proof (import_edges_ops _ _ _ _ _ _ E2) as (_ & _ & X2).
  destruct r as [[]|e]; [|by destruct e].
  set (ids := Ids.observe_edge _ _). intros _ Hroom.
  assert (kinds_fit st2.2) as Hk.
  { destruct Hroom as ((_ & _ & Hk) & _). revert Hk. unfold kinds_fit. destruct (ws ++ ws') as [|op ops].
    - cbn. lia.
    - unfold record. rewrite io_as_fst.
      destruct (record_frame sys (op :: ops) (op :: ops)
        (commit_inner st2.2 (from_ops (op :: ops)) (put_ids ids g))) as (-> & _). cbn. lia. }
  destruct (import_live _ _ _ _ _ _ _ _ _ _ _ (co_live _ C) E1 E2 Hk) as (E & R & L & I).
  assert (ids_le (g_ids g) ids) as Hids by (etrans; [exact I|apply observe_ids]).
  destruct (ws ++ ws') as [|op ops] eqn:Eops.
  - cbn [apply_wal_ops foldl] in E. subst st2. cbn [fst snd]. apply (core_touch (put_ids ids g)). by apply core_ids.
  - rewrite <- Eops in *. unfold record. rewrite io_as_fst. apply core_record.
    apply batch_core; [done|done|done|done| |by rewrite E|by rewrite E, apply_wal_ops_seq].
    destruct st2 as [ids2 i2]. eapply live_mono; [apply observe_ids|exact L].
Qed.

Lemma exec_core sys s g : core_ok g -> roomy g -> step_fits sys s g -> roomy (exec sys s g) ->
  core_ok (exec sys s g).
Proof.
  intros C Hr Hfits Hr'. pose proof Hr as (R1 & R2 & R3 & R4).
  assert (kinds_fit (inner g)) as Hk by (destruct R1 as (_ & _ & Hk); cbn in Hk; unfold kinds_fit; lia).
  destruct s as [op|id v|id|ids|nns|nes|embs|same_node same_edge d|iso lim|id op|id|id|id gid|gid|gid heur|c|c|on|cursor|commits];
    unfold exec in *.
  - by apply direct_write_core.
  - by apply set_embedding_core.
  - by apply delete_embedding_core.
  - by apply delete_nodes_core.
  - apply create_batch_core; [done|]. by rewrite length_fmap.
  - apply create_batch_core; [done|]. by rewrite length_fmap.
  - by apply set_embeddings_core.
  - by apply apply_dump_core.
  - by apply register_tx_core.
  - by apply tx_write_core.
  - by apply tx_commit_core.
  - by apply core_close.
  - by apply tx_prepare_core.
  - apply commit_prepared_core; [done|]. intros e He. exact (R4 gid e He).
  - by apply rollback_prepared_core.
  - by apply add_constraint_core.
  - by apply remove_constraint_core.
  - unfold set_read_only. destruct (negb on && opened_read_only g); [done|]. by apply (core_frame g).
  - unfold trim_before. destruct (_ <=? _); [done|]. by apply (core_frame g).
  - by apply core_history.
Qed.

Lemma new_graph_core durable : core_ok (new_graph durable).
Proof.
  split; cbn; try done; try lia. apply default_live.
Qed.

Lemma new_graph_roomy durable : roomy (new_graph durable).
Proof.
  apply (bool_decide_unpack _). destruct durable; vm_compute; exact I.
Qed.

Lemma reached_roomy Q durable g : reached Q durable g -> roomy g.
Proof. destruct 1; [apply new_graph_roomy|done]. Qed.

Lemma reached_core Q durable g : reached Q durable g -> core_ok g.
Proof.
  induction 1 as [|sys s g Hreach IH HQ Hf Hr]; [apply new_graph_core|].
  apply exec_core; [done|by eapply reached_roomy|done|done].
Qed.
End all_steps.

(** ** The log follows *)
Section log_steps.
Context `{JsonText}.

(** Replaying the log, unless a failed flush closed it, rebuilds [i]. *)
Definition wal_at (i : Inner) (g : NativeGraph) : Prop :=
  forall w, wal g = Some w -> wal_broken w = false ->
    same_as i (replay (concat (wal_records w))).2.

Lemma wal_at_ext i i' g g' : wal_at i g -> same_as i' i -> wal g' = wal g -> wal_at i' g'.
Proof. intros Hw Hs He w. rewrite He. intros Hg Hb. etrans; [exact Hs|]. by apply Hw. Qed.

Lemma record_split_nonempty sys ws ops g : ws <> [] -> record_split sys ws ops g =
  let published := mkFeed (start_seq (feed g)) (feed_ops (feed g) ++ ops) in
  match wal g with
  | None => (put_log None published g, Ok tt)
  | Some w =>
      if negb (sys_encodes sys) then (g, Err tt)
      else if wal_broken w then (g, Err tt)
      else if sys_flushes sys
           then (put_log (Some (mkWal (wal_records w ++ [ws]) false)) published g, Ok tt)
           else (put_log (Some (mkWal (wal_records w) true)) (feed g) g, Err tt)
  end.
Proof. by destruct ws. Qed.

Lemma record_wal sys ws ops g i i' : sys_encodes sys = true -> ws <> [] -> wal_at i g ->
  (forall R, good R -> same_as i R.2 -> kinds_fit (apply_wal_ops ws R).2 ->
     same_as i' (apply_wal_ops ws R).2) ->
  let x := record_split sys ws ops g in
  kinds_fit (replay (logged x.1)).2 ->
  match x.2 with Ok _ => wal_at i' x.1 | Err _ => forall j, wal_at j x.1 end.
Proof.
  intros Henc Hne Hw Hstep. cbv zeta. rewrite record_split_nonempty by done. cbv zeta.
  destruct (wal g) as [lg|] eqn:Hg; [|by intros _ w].
  rewrite Henc. cbn [negb]. destruct (wal_broken lg) eqn:Hb.
  { intros _ j w. cbn [fst]. rewrite Hg. intros [= <-]. by rewrite Hb. }
  destruct (sys_flushes sys).
  - cbn [fst snd]. unfold logged. cbn [wal put_log wal_records]. rewrite concat_app. cbn [concat].
    rewrite app_nil_r. intros Hf w [= <-] _. cbn [wal_records]. rewrite concat_app. cbn [concat].
    rewrite app_nil_r. unfold replay in *. rewrite apply_wal_ops_app in *. apply Hstep; [|by apply Hw|done].
    apply replay_good. unfold replay.
    destruct (apply_wal_ops_grows ws (apply_wal_ops (concat (wal_records lg)) (ids_default, inner_default)))
      as [Hsz _]. unfold kinds_fit in *. lia.
  - intros _ j w. cbn. intros [= <-]. done.
Qed.

(** For plain records, what the state went through. *)
Lemma plain_step ws ids i i' : runs ws (ids, i) -> same_as i' (apply_wal_ops ws (ids, i)).2 ->
  forall R, good R -> same_as i R.2 -> kinds_fit (apply_wal_ops ws R).2 ->
    same_as i' (apply_wal_ops ws R).2.
Proof.
  intros R Hs R' Hg Hi Hf. etrans; [exact Hs|]. apply same_ops; [done| |done].
  split_and!; [apply R|done|done].
Qed.

Lemma direct_write_wal sys op g : core_ok g -> room_for 1 (g_ids g, inner g) ->
  sys_encodes sys = true -> wal_ok g ->
  kinds_fit (replay (logged (direct_write sys op g).1)).2 -> wal_ok (direct_write sys op g).1.
Proof.
  intros C Hr Henc Hw. unfold direct_write, st_bind, direct_apply.
  destruct (write_for_commit_cases g) as [[-> Hnone]|[e ->]]; [|done].
  destruct (log_op (sys_env sys) true op (g_ids g, inner g)) as [[ids i] r'] eqn:Hlog.
  destruct (log_op_ok _ _ _ _ _ _ (co_live _ C) Hr Hlog) as (Hl & Hids & Hseq & Hres).
  cbn [fst snd] in *. destruct r' as [w|e].
  - destruct Hres as [R Hs]. unfold direct_record, record. rewrite io_as_fst. intros Hf.
    set (g1 := commit_inner i (direct_touched w) (put_ids ids g)) in *.
    pose proof (record_wal sys [w] [w] g1 (inner g) (inner g1) Henc ltac:(done)
      ltac:(exact Hw) (plain_step [w] (g_ids g) (inner g) (inner g1) R ltac:(exact Hs)) Hf) as Hrec.
    destruct (record_frame sys [w] [w] g1) as (E1 & _). unfold wal_ok.
    destruct (record_split sys [w] [w] g1) as [g2 [[]|[]]]; cbn [fst snd] in *; rewrite E1; [exact Hrec|].
    exact (Hrec (inner g1)).
  - intros _. subst i. exact Hw.
Qed.

(** Applied, noted, then logged. *)
Lemma applied_wal sys ops set ids i g : sys_encodes sys = true -> wal_ok g -> ops <> [] ->
  runs ops (g_ids g, inner g) -> same_as i (apply_wal_ops ops (g_ids g, inner g)).2 ->
  let x := record sys ops (commit_inner i set (put_ids ids g)) in
  kinds_fit (replay (logged x.1)).2 -> wal_ok x.1.
Proof.
  intros Henc Hw Hne R Hs x Hf. unfold x, record in *. clear x.
  set (g1 := commit_inner i set (put_ids ids g)) in *.
  assert (same_as (inner g1) (apply_wal_ops ops (g_ids g, inner g)).2) as Hs1.
  { etrans; [|exact Hs]. split_and!; [by intros []|done|done]. }
  pose proof (record_wal sys ops ops g1 (inner g) (inner g1) Henc Hne
    ltac:(exact Hw) (plain_step ops (g_ids g) (inner g) (inner g1) R Hs1) Hf) as Hrec.
  destruct (record_frame sys ops ops g1) as (E1 & _). unfold wal_ok.
  destruct (record_split sys ops ops g1) as [g2 [[]|[]]]; cbn [fst snd] in *; rewrite E1; [exact Hrec|].
  exact (Hrec (inner g1)).
Qed.

Lemma embedding_wal sys op set ids i g : core_ok g -> room_for 1 (g_ids g, inner g) ->
  sys_encodes sys = true -> wal_ok g -> plain op = true ->
  apply_wal_op op (g_ids g, inner g) = (ids, i) ->
  let x := record sys [op] (commit_inner i set (put_ids ids g)) in
  kinds_fit (replay (logged x.1)).2 -> wal_ok x.1.
Proof.
  intros C Hr Henc Hw Hp Ha. apply applied_wal; [done..| |].
  - by apply runs_one; [|apply live_good, (co_live _ C)|].
  - change (apply_wal_ops [op] (g_ids g, inner g)) with (apply_wal_op op (g_ids g, inner g)). by rewrite Ha.
Qed.

(** Logged first, then installed. *)
Lemma record_then_install sys ws ops g i' : sys_encodes sys = true -> ws <> [] -> wal_ok g ->
  (forall R, good R -> same_as (inner g) R.2 -> kinds_fit (apply_wal_ops ws R).2 ->
     same_as i' (apply_wal_ops ws R).2) ->
  let x := record_split sys ws ops g in
  kinds_fit (replay (logged x.1)).2 ->
  match x.2 with Ok _ => wal_at i' x.1 | Err _ => wal_ok x.1 end.
Proof.
  intros Henc Hne Hw Hstep x Hf.
  pose proof (record_wal sys ws ops g (inner g) i' Henc Hne Hw Hstep Hf) as Hrec. fold x in Hrec.
  destruct x as [g1 [[]|[]]]; cbn [fst snd] in *; [done|]. exact (Hrec (inner g1)).
Qed.

Lemma install_wal sys ws ids i g : core_ok g -> sys_encodes sys = true -> wal_ok g -> ws <> [] ->
  runs ws (g_ids g, inner g) -> same_as i (apply_wal_ops ws (g_ids g, inner g)).2 ->
  kinds_fit (replay (logged (install_batch sys ws (ids, i) g).1)).2 ->
  wal_ok (install_batch sys ws (ids, i) g).1.
Proof.
  intros C Henc Hw Hne R Hs. unfold install_batch, record. cbn [fst snd].
  pose proof (record_then_install sys ws ws (put_ids ids g) i Henc Hne Hw
    (plain_step ws (g_ids g) (inner g) i R Hs)) as Hrec.
  destruct (record_split sys ws ws (put_ids ids g)) as [g1 [[]|[]]]; cbn [fst snd] in *; intros Hf.
  - eapply (wal_at_ext i); [by apply Hrec| |done]. split_and!; [by intros []|done|done].
  - by apply Hrec.
Qed.

Lemma delete_nodes_wal sys ids g : core_ok g -> room_for 1 (g_ids g, inner g) ->
  sys_encodes sys = true -> wal_ok g ->
  kinds_fit (replay (logged (delete_nodes sys ids g).1)).2 -> wal_ok (delete_nodes sys ids g).1.
Proof.
  intros C Hr Henc Hw. unfold delete_nodes.
  destruct (write_for_commit_cases g) as [[-> Hnone]|[e ->]]; [|done].
  destruct (delete_each ids (inner g)) as [i ws] eqn:Ed.
  destruct (delete_each_ok ids (inner g) (g_ids g) i ws (co_live _ C) Ed) as (L & E & P & K).
  destruct ws as [|w ws]; [done|].
  assert (runs (w :: ws) (g_ids g, inner g)) as R.
  { split_and!; [done|by apply live_good, (co_live _ C)|].
    rewrite <- E. unfold kinds_fit. rewrite K. destruct Hr as (_ & _ & Hk). cbn [snd] in Hk. lia. }
  pose proof (install_wal sys (w :: ws) (g_ids g) i g C Henc Hw ltac:(done) R ltac:(by rewrite E)) as Hi.
  destruct (install_batch sys (w :: ws) (g_ids g, i) g) as [g1 [[]|]]; exact Hi.
Qed.

Lemma create_batch_wal sys ops g : core_ok g -> room_for (length ops) (g_ids g, inner g) ->
  sys_encodes sys = true -> wal_ok g ->
  kinds_fit (replay (logged (create_batch sys ops g).1)).2 -> wal_ok (create_batch sys ops g).1.
Proof.
  intros C Hr Henc Hw. unfold create_batch. destruct ops as [|op ops]; [done|].
  destruct (write_for_commit_cases g) as [[-> Hnone]|[e ->]]; [|done].
  destruct (log_all (sys_env sys) (op :: ops) (g_ids g, inner g)) as [[ids i] r] eqn:E.
  destruct (log_all_ok _ _ _ _ _ (co_live _ C) Hr E) as (L & I & Q & H1). cbn [fst snd] in *.
  destruct r as [ws|e]; [|done]. destruct H1 as (Hlen & R & S).
  apply install_wal; [done..| |done|done]. by destruct ws.
Qed.

Lemma set_embeddings_wal sys embs g : core_ok g -> room_for 1 (g_ids g, inner g) ->
  sys_encodes sys = true -> wal_ok g ->
  kinds_fit (replay (logged (set_embeddings_batch sys embs g).1)).2 ->
  wal_ok (set_embeddings_batch sys embs g).1.
Proof.
  intros C Hr Henc Hw. unfold set_embeddings_batch. destruct embs as [|x embs]; [done|].
  destruct (write_for_commit_cases g) as [[-> Hnone]|[e ->]]; [|done].
  destruct (filter _ (x :: embs)) as [|[id v] l]; [|done].
  assert (kinds_fit (inner g)) as Hk by (destruct Hr as (_ & _ & Hk); cbn in Hk; unfold kinds_fit; lia).
  pose proof (embeddings_runs (x :: embs) (g_ids g, inner g) (live_good _ (co_live _ C)) Hk) as R.
  destruct (apply_wal_ops ((fun x => SetEmbedding x.1 x.2) <$> x :: embs) (g_ids g, inner g)) as [ids i] eqn:Ea.
  rewrite io_as_fst. apply applied_wal; [done..|]. by rewrite Ea.
Qed.

Lemma apply_dump_wal sys same_node same_edge d g : core_ok g -> step_fits sys (SImport same_node same_edge d) g ->
  sys_encodes sys = true -> wal_ok g -> roomy (apply_dump sys same_node same_edge d g).1 ->
  wal_ok (apply_dump sys same_node same_edge d g).1.
Proof.
  intros C Hfits Henc Hw Hr'. pose proof (proj1 Hr') as (_ & _ & Hroom).
  pose proof (proj1 (proj2 Hr')) as Hf. revert Hfits Hroom Hf. clear Hr'. cbn [step_fits]. unfold apply_dump.
  destruct (write_for_commit_cases g) as [[-> Hnone]|[e ->]]; [|done].
  destruct (import_nodes (d_nodes d) same_node (g_ids g, inner g)) as [[st1 ws] r] eqn:E1.
  pose proof (import_nodes_ops _ _ _ _ _ _ E1) as (_ & _ & X1).
  destruct r as [[]|e]; [|by destruct e].
  destruct (import_edges (d_edges d) same_edge st1) as [[st2 ws'] r] eqn:E2.
  pose proof (import_edges_ops _ _ _ _ _ _ E2) as (_ & _ & X2).
  destruct r as [[]|e]; [|by destruct e].
  set (ids := Ids.observe_edge _ _). intros _ Hroom Hf.
  assert (kinds_fit st2.2) as Hk.
  { revert Hroom. unfold kinds_fit. destruct (ws ++ ws') as [|op ops].
    - cbn. lia.
    - unfold record. rewrite io_as_fst.
      destruct (record_frame sys (op :: ops) (op :: ops)
        (commit_inner st2.2 (from_ops (op :: ops)) (put_ids ids g))) as (-> & _). cbn. lia. }
  destruct (import_live _ _ _ _ _ _ _ _ _ _ _ (co_live _ C) E1 E2 Hk) as (E & R & L & I).
  destruct (ws ++ ws') as [|op ops] eqn:Eops.
  - cbn [apply_wal_ops foldl] in E. subst st2. exact Hw.
  - rewrite io_as_fst in *. apply applied_wal; [done..|by rewrite E|done].
Qed.

Lemma commit_state_wal sys i ops mg g : sys_encodes sys = true -> wal_ok g -> ops <> [] ->
  (kinds_fit i -> exists ids0, runs ops (ids0, inner g) /\ same_as i (apply_wal_ops ops (ids0, inner g)).2) ->
  roomy (commit_state sys i ops mg g).1 -> wal_ok (commit_state sys i ops mg g).1.
Proof.
  intros Henc Hw Hne Hi. unfold commit_state, record.
  destruct (breaks_prepared (g_ids g, i)) as [ids broke]. destruct broke; [done|].
  pose proof (fun Hk => let '(ex_intro _ ids0 (conj R Hs)) := Hi Hk in
    record_then_install sys ops ops (put_ids ids g) i Henc Hne Hw
      (plain_step ops ids0 (inner g) i R Hs)) as Hrec.
  pose proof (record_then_install sys ops ops (put_ids ids g)) as Hany.
  assert (forall j, match (record_split sys ops ops (put_ids ids g)).2 with
    | Ok _ => True | Err _ => wal_at j (record_split sys ops ops (put_ids ids g)).1 end) as Herr.
  { intros j. rewrite record_split_nonempty by done. cbv zeta. destruct (wal (put_ids ids g)) as [lg|] eqn:Hg;
      [|done]. rewrite Henc. cbn [negb]. destruct (wal_broken lg) eqn:Hb.
    - intros w'. cbn [fst]. rewrite Hg. intros [= <-]. by rewrite Hb.
    - destruct (sys_flushes sys); cbn [snd fst]; [done|]. intros w'. cbn. by intros [= <-]. }
  destruct (record_split sys ops ops (put_ids ids g)) as [g1 [[]|[]]]; cbn [fst snd] in *.
  - intros (Hroom & Hf & _).
    assert (kinds_fit i) as Hk.
    { destruct Hroom as (_ & _ & Hk). unfold kinds_fit. destruct mg; cbn in Hk; lia. }
    assert (kinds_fit (replay (logged g1)).2) as Hf' by (destruct mg; exact Hf).
    eapply (wal_at_ext i _ g1); [exact (Hrec Hk Hf')| |by destruct mg].
    destruct mg; (split_and!; [by intros []|done|done]).
  - intros _. apply Herr.
Qed.
End log_steps.

Section log_commits.
Context `{JsonText}.

Lemma commit_parts_wal sys s g : core_ok g -> slot_ok g s -> sys_encodes sys = true -> wal_ok g ->
  roomy (commit_parts sys s g).1 -> wal_ok (commit_parts sys s g).1.
Proof.
  intros C S Henc Hw. unfold commit_parts. destruct (tx_ops s) as [|op0 ops0] eqn:Eops; [done|].
  rewrite <- Eops. assert (tx_ops s <> []) as Hne by (rewrite Eops; done). clear Eops op0 ops0.
  destruct (read_only g); [done|].
  destruct (has_prepared (inner g) && intersects (from_ops (tx_ops s)) (prepared_set (inner g)));
    [done|].
  destruct (N.eqb_spec (live_ptr g) (base_ptr s)) as [Hptr|Hptr].
  - destruct (validate_constraints (working s)); [|done].
    pose proof (so_same_ptr _ _ S (eq_sym Hptr)) as Hb.
    apply commit_state_wal; [done..|]. intros _. exists (g_ids g). rewrite <- Hb. split; apply S.
  - destruct (negb (bool_decide _) || bool_decide _) eqn:Hrej; [intros _; exact Hw|].
    apply orb_false_iff in Hrej as [Hcl _]. rewrite negb_false_iff, bool_decide_eq_true in Hcl.
    destruct (validate_constraints (working s)); [|done].
    pose proof (merged_live g s C S Hne Hcl) as Hml.
    remember (apply_wal_ops (tx_ops s) (g_ids g, inner g)) as r eqn:Er. destruct r as [ids m].
    cbn [fst snd] in *.
    destruct (validate_constraints m); [|intros _; exact Hw].
    apply commit_state_wal; [done|exact Hw|done|]. intros Hk. destruct (Hml Hk) as [Hl R].
    exists (g_ids g). split; [done|]. cbn [put_ids inner]. rewrite <- Er. reflexivity.
Qed.

Lemma tx_commit_wal sys id g : core_ok g -> sys_encodes sys = true -> wal_ok g ->
  roomy (tx_commit sys id g).1 -> wal_ok (tx_commit sys id g).1.
Proof.
  intros C Henc Hw. unfold tx_commit. destruct (reg_txs g !! id) as [s|] eqn:Hs; [|done].
  apply commit_parts_wal; [by apply core_close|by apply slot_close, (co_slots _ C id)|done|exact Hw].
Qed.

(** Marker records: what replaying one does to the same contents. *)
Lemma marker_wal sys ws ops g i' set ids : sys_encodes sys = true -> ws <> [] -> wal_ok g ->
  (forall R, good R -> same_as (inner g) R.2 -> kinds_fit (apply_wal_ops ws R).2 ->
     same_as i' (apply_wal_ops ws R).2) ->
  let x := record_split sys ws ops g in
  kinds_fit (replay (logged x.1)).2 ->
  match x with
  | (g1, Ok _) => wal_ok (commit_inner i' set (put_ids ids g1))
  | (g1, Err _) => wal_ok g1
  end.
Proof.
  intros Henc Hne Hw Hstep x Hf.
  pose proof (record_then_install sys ws ops g i' Henc Hne Hw Hstep Hf) as Hrec. fold x in Hrec.
  destruct x as [g1 [[]|[]]]; cbn [fst snd] in *; [|done].
  eapply wal_at_ext; [exact Hrec| |done]. split_and!; [by intros []|done|done].
Qed.

Lemma tx_prepare_wal sys id gid g : sys_encodes sys = true -> wal_ok g ->
  kinds_fit (replay (logged (tx_prepare sys id gid g).1)).2 -> wal_ok (tx_prepare sys id gid g).1.
Proof.
  intros Henc Hw. unfold tx_prepare. destruct (reg_txs g !! id) as [s|] eqn:Hs; [|done].
  assert (wal_ok (close_tx id g)) as Hw1 by exact Hw.
  remember (close_tx id g) as g1 eqn:Eg. clear Eg Hs Hw g.
  destruct (read_only g1); [done|]. case_bool_decide; [done|].
  destruct (has_prepared (inner g1)); [done|].
  destruct (negb (live_ptr g1 =? base_ptr s)); [done|].
  destruct (validate_constraints (working s)); [|done].
  set (e := mkPrepared (env_now (sys_env sys)) (tx_ops s)).
  set (i' := with_prepared (<[gid := e]> (prepared (inner g1))) (heuristic (inner g1) ∖ {[ gid ]}) (inner g1)).
  pose proof (marker_wal sys [Prepare gid (env_now (sys_env sys)) (tx_ops s)] [] g1 i' cs_empty
    (g_ids g1) Henc ltac:(done) Hw1) as Hm. cbv zeta in Hm.
  destruct (record_frame sys [Prepare gid (env_now (sys_env sys)) (tx_ops s)] [] g1) as (E1 & _ & _ & E4 & _).
  destruct (record_split sys [Prepare gid (env_now (sys_env sys)) (tx_ops s)] [] g1) as [g2 [[]|[]]];
    cbn [fst] in *; intros Hf.
  - rewrite E1. refine (Hm _ Hf). intros R Hg (Ha & Hp & Hh) _.
    rewrite (apply_wal_ops_cons _ []), apply_prepare. unfold i'.
    split_and!; cbn; [intros k; specialize (Ha k); by destruct k|by rewrite Hp|by rewrite Hh].
  - refine (Hm _ Hf). intros R Hg (Ha & Hp & Hh) _.
    rewrite (apply_wal_ops_cons _ []), apply_prepare. unfold i'.
    split_and!; cbn; [intros k; specialize (Ha k); by destruct k|by rewrite Hp|by rewrite Hh].
Qed.

Lemma rollback_prepared_wal sys gid heur g : sys_encodes sys = true -> wal_ok g ->
  kinds_fit (replay (logged (rollback_prepared_as sys gid heur g).1)).2 ->
  wal_ok (rollback_prepared_as sys gid heur g).1.
Proof.
  intros Henc Hw. unfold rollback_prepared_as. destruct (read_only g); [done|].
  case_bool_decide as Hs; cbn [negb]; [|by destruct (negb heur && _)].
  set (i' := with_prepared (delete gid (prepared (inner g)))
    (if heur then {[ gid ]} ∪ heuristic (inner g) else heuristic (inner g)) (inner g)).
  pose proof (marker_wal sys [RollbackPrepared gid heur] [] g i' cs_empty (g_ids g) Henc ltac:(done) Hw) as Hm.
  cbv zeta in Hm. destruct (record_frame sys [RollbackPrepared gid heur] [] g) as (E1 & _ & _ & E4 & _).
  assert (forall R, good R -> same_as (inner g) R.2 ->
    kinds_fit (apply_wal_ops [RollbackPrepared gid heur] R).2 ->
    same_as i' (apply_wal_ops [RollbackPrepared gid heur] R).2) as Hstep.
  { intros R Hg (Ha & Hp & Hh) _. rewrite (apply_wal_ops_cons _ []), apply_rollback. unfold i'.
    split_and!; cbn; [intros k; specialize (Ha k); by destruct k|by rewrite Hp|]. by destruct heur; rewrite Hh. }
  destruct (record_split sys [RollbackPrepared gid heur] [] g) as [g2 [[]|[]]]; cbn [fst] in *.
  - rewrite apply_rollback. cbn [fst snd]. intros Hf. rewrite E1, E4. exact (Hm Hstep Hf).
  - intros Hf. exact (Hm Hstep Hf).
Qed.

Lemma commit_prepared_wal sys gid g : core_ok g -> sys_encodes sys = true -> wal_ok g ->
  (forall e, prepared (inner g) !! gid = Some e ->
     kinds_fit (apply_wal_ops (prepared_ops e) (g_ids g, inner g)).2) ->
  kinds_fit (replay (logged (commit_prepared sys gid g).1)).2 -> wal_ok (commit_prepared sys gid g).1.
Proof.
  intros C Henc Hw Hfit. unfold commit_prepared. destruct (read_only g); [done|].
  destruct (prepared (inner g) !! gid) as [e|] eqn:He; [|done]. specialize (Hfit e eq_refl).
  pose proof (apply_commit gid (g_ids g, inner g)) as Ha. cbn [fst snd] in Ha. rewrite He in Ha.
  set (i0 := with_prepared (delete gid (prepared (inner g))) (heuristic (inner g)) (inner g)) in Ha.
  destruct (ho_entry _ _ (co_held _ C) _ _ He) as (b & set & R & _).
  assert (runs (prepared_ops e) (g_ids g, i0)) as R0.
  { pose proof (live_good _ (co_live _ C)) as Hg. split_and!; [apply R|exact Hg|].
    unfold i0. rewrite ops_prepared by apply R. exact Hfit. }
  set (i' := (apply_wal_ops (prepared_ops e) (g_ids g, i0)).2).
  assert (forall R, good R -> same_as (inner g) R.2 ->
    kinds_fit (apply_wal_ops [CommitPrepared gid] R).2 ->
    same_as i' (apply_wal_ops [CommitPrepared gid] R).2) as Hstep.
  { intros R' Hg (Hag & Hp & Hh) Hf. rewrite (apply_wal_ops_cons _ []) in *. cbn [apply_wal_ops foldl] in *.
    rewrite apply_commit in *. rewrite <- Hp, He in *. unfold i'. apply same_ops; [done| |].
    - split_and!; [apply R|exact Hg|exact Hf].
    - cbn. split_and!; cbn; [intros k; specialize (Hag k); by destruct k|by rewrite Hp|done]. }
  pose proof (fun set ids => marker_wal sys [CommitPrepared gid] (prepared_ops e) g i' set ids
    Henc ltac:(done) Hw Hstep) as Hm. cbv zeta in Hm.
  destruct (record_frame sys [CommitPrepared gid] (prepared_ops e) g) as (E1 & _ & _ & E4 & _).
  destruct (record_split sys [CommitPrepared gid] (prepared_ops e) g) as [g2 [[]|[]]]; cbn [fst] in *.
  - rewrite E1, E4, Ha. unfold i' in Hm.
    destruct (apply_wal_ops (prepared_ops e) (g_ids g, i0)) as [ids i]. cbn [fst snd] in *.
    intros Hf. exact (Hm _ _ Hf).
  - intros Hf. exact (Hm cs_empty (g_ids g) Hf).
Qed.

Lemma wal_same g g' : wal_ok g -> same_as (inner g') (inner g) -> wal g' = wal g -> wal_ok g'.
Proof. intros Hw Hs He. by eapply wal_at_ext. Qed.

Lemma schema_same_as i cs : same_as (sync_unique (with_constraints cs (unique i) i)) i.
Proof. split_and!; [by intros []|done|done]. Qed.

Lemma exec_wal sys s g : core_ok g -> roomy g -> sys_encodes sys = true -> wal_ok g ->
  step_fits sys s g -> roomy (exec sys s g) -> wal_ok (exec sys s g).
Proof.
  intros C Hr Henc Hw Hfits Hr'. pose proof Hr as (R1 & R2 & R3 & R4). pose proof Hr' as (R1' & R2' & _).
  destruct s as [op|id v|id|ids|nns|nes|embs|same_node same_edge d|iso lim|id op|id|id|id gid|gid|gid heur|c|c|on|cursor|commits];
    unfold exec in *.
  - by apply direct_write_wal.
  - unfold set_embedding in *. destruct (write_for_commit_cases g) as [[E Hnone]|[e E]]; rewrite E in *; [|done].
    case_bool_decide; [|by apply (wal_same g); [|reflexivity|]].
    destruct (apply_wal_op (SetEmbedding id v) (g_ids g, inner g)) as [ids i] eqn:Ha.
    rewrite io_as_fst in *. by apply (embedding_wal sys (SetEmbedding id v)).
  - unfold delete_embedding in *. destruct (write_for_commit_cases g) as [[E Hnone]|[e E]]; rewrite E in *; [|done].
    destruct (apply_wal_op (DeleteEmbedding id) (g_ids g, inner g)) as [ids i] eqn:Ha.
    rewrite io_as_fst in *. by apply (embedding_wal sys (DeleteEmbedding id)).
  - by apply delete_nodes_wal.
  - apply create_batch_wal; [done| |done..]. by rewrite length_fmap.
  - apply create_batch_wal; [done| |done..]. by rewrite length_fmap.
  - by apply set_embeddings_wal.
  - by apply apply_dump_wal.
  - exact Hw.
  - unfold tx_write in *. destruct (reg_txs g !! id) as [slot|]; [|done].
    destruct (if limited slot then _ else _); [|done].
    destruct (log_op (sys_env sys) _ _ _) as [[ids i] [w|e]]; exact Hw.
  - by apply tx_commit_wal.
  - exact Hw.
  - by apply tx_prepare_wal.
  - apply commit_prepared_wal; [done|done|done| |done]. intros e He. exact (R4 gid e He).
  - by apply rollback_prepared_wal.
  - unfold add_constraint. case_bool_decide; [by apply (wal_same g); [|reflexivity|]|].
    destruct (validate_constraints _); [|by apply (wal_same g); [|reflexivity|]].
    apply (wal_same g); [done| |done]. cbn. etrans; [|apply (schema_same_as (inner g) (constraints (inner g) ++ [c]))].
    split_and!; [by intros []|done|done].
  - unfold remove_constraint. case_bool_decide; apply (wal_same g); try done; cbn;
      (etrans; [|apply (schema_same_as (inner g) (filter (fun d => d <> c) (constraints (inner g))))]); (split_and!; [by intros []|done|done]).
  - unfold set_read_only. by destruct (negb on && opened_read_only g).
  - unfold trim_before. by destruct (_ <=? _).
  - exact Hw.
Qed.

Lemma recorded_wal durable g : recorded durable g -> wal_ok g.
Proof.
  unfold recorded. induction 1 as [|sys s g Hreach IH Henc Hf Hr].
  - intros w Hg _. destruct durable; [|done]. injection Hg as <-. split_and!; [by intros []|done|done].
  - apply exec_wal; [by eapply reached_core|by eapply reached_roomy|done..].
Qed.
End log_commits.
