(* ===== verification/NativePrepared.v ===== *)
(** * A prepared transaction and the declared constraints

    A transaction is prepared only when its writes satisfy every constraint, and
    [breaks_prepared] holds back a commit that would change that.  So while
    nobody declares a constraint, committing it leaves the constraints
    satisfied, whatever was committed in between. *)
From S2P Require Import Prelude NativeModel Native NativeInv NativeOps Conflict NativeSpec NativeRecovery.
From S2P Require Import NativeTx NativeMerge NativeEngine NativeEngineSteps.
Local Open Scope string_scope.
Local Open Scope list_scope.
Local Open Scope N_scope.

Section prepared.
Context `{JsonText}.

(** ** Replay, the commit sequence and the constraints *)
Lemma remove_edges_seq l k g : remove_edges l (with_commit_seq k g) = with_commit_seq k (remove_edges l g).
Proof.
  revert g. induction l as [|i l IH]; intros g; [done|]. cbn [remove_edges foldl].
  assert (remove_edge i (with_commit_seq k g) = with_commit_seq k (remove_edge i g)) as ->; [|apply IH].
  unfold remove_edge. cbn. by destruct (edges g !! i).
Qed.

Lemma op_with_seq op ids k g : plain op = true ->
  apply_wal_op op (ids, with_commit_seq k g) =
    ((apply_wal_op op (ids, g)).1, with_commit_seq k (apply_wal_op op (ids, g)).2).
Proof.
  destruct op as [n|id|e|id|id v|id|gid at_ ops|gid|gid hh]; try done; intros _.
  - rewrite !apply_upsert_node. unfold upsert_node. cbn. by destruct (nodes g !! n_id n).
  - rewrite !apply_delete_node. cbn. destruct (nodes g !! id); [|done]. cbn [fst snd].
    unfold drop_node.
    change (incident_entries (with_commit_seq k g) id Both) with (incident_entries g id Both).
    by rewrite remove_edges_seq.
  - rewrite !apply_upsert_edge. unfold upsert_edge, link_edge, intern_kind.
    assert (remove_edge (e_id e) (with_commit_seq k g) = with_commit_seq k (remove_edge (e_id e) g)) as ->.
    { unfold remove_edge. cbn. by destruct (edges g !! e_id e). }
    cbn. by destruct (kind_ids (remove_edge (e_id e) g) !! e_kind e).
  - rewrite !apply_delete_edge. cbn. unfold remove_edge. cbn. by destruct (edges g !! id).
Qed.

Lemma ops_with_seq ops ids k g : Forall (fun op => plain op = true) ops ->
  (apply_wal_ops ops (ids, with_commit_seq k g)).2 = with_commit_seq k (apply_wal_ops ops (ids, g)).2.
Proof.
  revert ids g. induction ops as [|op ops IH]; intros ids g Hp; [done|].
  apply Forall_cons in Hp as [Hop Hp]. rewrite !apply_wal_ops_cons, op_with_seq by done.
  destruct (apply_wal_op op (ids, g)) as [ids' g']. by apply IH.
Qed.

Lemma op_constraints op st : plain op = true -> constraints (apply_wal_op op st).2 = constraints st.2.
Proof.
  destruct st as [ids g]. destruct op as [n|id|e|id|id v|id|gid at_ ops|gid|gid hh]; try done; intros _.
  - rewrite apply_upsert_node. unfold upsert_node. cbn. by destruct (nodes g !! n_id n).
  - rewrite apply_delete_node. cbn. destruct (nodes g !! id) as [n|]; [|done]. cbn [snd].
    etrans; [|by apply (remove_edges_nodes (a_edge <$> incident_entries g id Both) g)]. done.
  - rewrite apply_upsert_edge. unfold upsert_edge, link_edge, intern_kind, remove_edge. cbn.
    by destruct (edges g !! e_id e); cbn; destruct (kind_ids g !! e_kind e).
  - rewrite apply_delete_edge. cbn. unfold remove_edge. by destruct (edges g !! id).
Qed.

Lemma ops_constraints ops st : Forall (fun op => plain op = true) ops ->
  constraints (apply_wal_ops ops st).2 = constraints st.2.
Proof.
  intros Hp. revert st. induction Hp as [|op ops Hop _ IH]; intros st; [done|].
  by rewrite apply_wal_ops_cons, IH, op_constraints.
Qed.

(** ** What committing the prepared transaction would leave *)
Definition after_prepared (e : PreparedEntry) (i : Inner) : Inner :=
  (apply_wal_ops (prepared_ops e) (ids_default, i)).2.

Definition settled (i : Inner) : Prop :=
  forall gid e, prepared i !! gid = Some e -> constraints_hold (after_prepared e i).

Lemma settled_none i : prepared i = ∅ -> settled i.
Proof. intros Hp gid e. by rewrite Hp, lookup_empty. Qed.

(** The constraints depend on the nodes alone. *)
Lemma holds_ext i i' : nodes i' = nodes i -> constraints i' ⊆ constraints i -> constraints_hold i ->
  constraints_hold i'.
Proof. intros Hn Hc H1 c Hin. rewrite Hn. by apply H1, Hc. Qed.

Lemma holding_plain g gid e : core_ok g -> prepared (inner g) !! gid = Some e ->
  Forall (fun op => plain op = true) (prepared_ops e).
Proof. intros C He. destruct (ho_entry _ _ (co_held _ C) _ _ He) as (b & set & R & _). apply R. Qed.

Lemma holding_runs g gid e : core_ok g -> roomy g -> prepared (inner g) !! gid = Some e ->
  runs (prepared_ops e) (g_ids g, inner g).
Proof.
  intros C (_ & _ & _ & Hfit) He. split_and!; [by eapply holding_plain|by apply live_good, (co_live _ C)|].
  exact (Hfit gid e He).
Qed.

(** A step that keeps the records, and declares nothing new. *)
Lemma settled_same g g' : core_ok g -> roomy g -> core_ok g' -> roomy g' ->
  same_as (inner g') (inner g) -> constraints (inner g') ⊆ constraints (inner g) ->
  settled (inner g) -> settled (inner g').
Proof.
  intros C Hr C' Hr' Hs Hc Hset gid e He. pose proof He as He0.
  rewrite (proj1 (proj2 Hs)) in He0. specialize (Hset gid e He0). unfold after_prepared in *.
  pose proof (holding_plain g gid e C He0) as Hp.
  rewrite (apply_other_ids _ _ (g_ids g')). rewrite (apply_other_ids _ _ (g_ids g)) in Hset.
  eapply holds_ext; [| |exact Hset].
  - destruct (same_ops _ _ _ (holding_runs g' gid e C' Hr' He) (holding_runs g gid e C Hr He0) Hs) as [Ha _].
    apply map_eq. intros i. by destruct (Ha (KNode i)).
  - by rewrite !ops_constraints.
Qed.

(** ** While nothing is prepared, only a preparation prepares *)
Lemma log_op_prepared env require op g ids i r : core_ok g -> room_for 1 (g_ids g, inner g) ->
  log_op env require op (g_ids g, inner g) = ((ids, i), r) -> prepared i = prepared (inner g).
Proof.
  intros C Hr Hlog. destruct (log_op_ok _ _ _ _ _ _ (co_live _ C) Hr Hlog) as (_ & _ & _ & Hres).
  destruct r as [w|e]; [|by cbn in Hres; subst i]. destruct Hres as [R S].
  exact (same_as_prepared [w] (g_ids g, inner g) i R S).
Qed.

Lemma record_inner sys ws ops g : inner (record_split sys ws ops g).1 = inner g.
Proof. by destruct (record_frame sys ws ops g) as (E & _). Qed.

Lemma install_prepared sys ws st g : prepared st.2 = prepared (inner g) ->
  prepared (inner (install_batch sys ws st g).1) = prepared (inner g).
Proof.
  intros Hp. unfold install_batch, record. pose proof (record_inner sys ws ws (put_ids st.1 g)) as E.
  destruct (record_split sys ws ws (put_ids st.1 g)) as [g1 [[]|[]]]; cbn in *; [done|by rewrite E].
Qed.

Lemma import_prepared ns es same_node same_edge st st1 ws r st2 ws' r' :
  import_nodes ns same_node st = (st1, ws, r) -> import_edges es same_edge st1 = (st2, ws', r') ->
  prepared st2.2 = prepared st.2.
Proof.
  intros E1 E2. destruct (import_nodes_ops _ _ _ _ _ _ E1) as (-> & P1 & _).
  destruct (import_edges_ops _ _ _ _ _ _ E2) as (-> & P2 & _).
  destruct (ops_two_phase ws' (apply_wal_ops ws st) P2) as [-> _]. by destruct (ops_two_phase ws st P1) as [-> _].
Qed.

Lemma batch_prepared sys ops g : core_ok g -> room_for (length ops) (g_ids g, inner g) ->
  prepared (inner (create_batch sys ops g).1) = prepared (inner g).
Proof.
  intros C Hr. unfold create_batch. destruct ops as [|op ops]; [done|].
  destruct (write_for_commit_cases g) as [[-> Hnone]|[e ->]]; [|done].
  destruct (log_all (sys_env sys) (op :: ops) (g_ids g, inner g)) as [[ids i] r] eqn:E.
  destruct (log_all_ok _ _ _ _ _ (co_live _ C) Hr E) as (_ & _ & _ & H1). cbn [fst snd] in *.
  destruct r as [ws|e]; [|done]. destruct H1 as (_ & R & S). apply install_prepared.
  exact (same_as_prepared ws (g_ids g, inner g) i R S).
Qed.

Lemma import_step_prepared sys same_node same_edge d g :
  step_fits sys (SImport same_node same_edge d) g ->
  prepared (inner (apply_dump sys same_node same_edge d g).1) = prepared (inner g).
Proof.
  cbn [step_fits]. unfold apply_dump.
  destruct (write_for_commit_cases g) as [[-> Hnone]|[e ->]]; [|done].
  destruct (import_nodes (d_nodes d) same_node (g_ids g, inner g)) as [[st1 ws] r] eqn:E1.
  pose proof (import_nodes_ops _ _ _ _ _ _ E1) as (_ & _ & X1).
  destruct r as [[]|e]; [|by destruct e].
  destruct (import_edges (d_edges d) same_edge st1) as [[st2 ws'] r] eqn:E2.
  pose proof (import_edges_ops _ _ _ _ _ _ E2) as (_ & _ & X2).
  destruct r as [[]|e]; [|by destruct e]. intros _.
  pose proof (import_prepared _ _ _ _ _ _ _ _ _ _ _ E1 E2) as Hp. cbn [snd] in Hp.
  destruct (ws ++ ws') as [|op ops]; [done|]. unfold record. rewrite io_as_fst, record_inner. done.
Qed.

Lemma embeddings_prepared sys embs g :
  prepared (inner (set_embeddings_batch sys embs g).1) = prepared (inner g).
Proof.
  unfold set_embeddings_batch. destruct embs as [|x embs]; [done|].
  destruct (write_for_commit_cases g) as [[-> Hnone]|[e ->]]; [|done].
  destruct (filter _ (x :: embs)) as [|[id v] l]; [|done].
  destruct (ops_two_phase ((fun x => SetEmbedding x.1 x.2) <$> x :: embs) (g_ids g, inner g)) as [Hp _].
  { by apply Forall_fmap, Forall_true. }
  destruct (apply_wal_ops _ _) as [ids i]. unfold record. rewrite io_as_fst, record_inner. exact Hp.
Qed.

(** ** Commits *)
Lemma sole_entries i gid e : prepared i !! gid = Some e ->
  (forall gid' e', prepared i !! gid' = Some e' -> gid = gid') -> prepared_entries i = [e].
Proof.
  intros He Hone. assert (prepared i = {[gid := e]}) as Hp.
  { apply map_eq. intros j. destruct (decide (gid = j)) as [<-|Hne]; [by rewrite lookup_singleton_eq|].
    rewrite lookup_singleton_ne by done. destruct (prepared i !! j) as [e'|] eqn:Hj; [|done].
    by destruct (Hne (Hone j e' Hj)). }
  unfold prepared_entries, pending_gids. rewrite Hp, dom_singleton_L. unfold sorted_keys.
  rewrite elements_singleton. cbn. by rewrite lookup_singleton_eq.
Qed.

(** What the guard accepted. *)
Lemma not_broken ids i ids' gid e : breaks_prepared (ids, i) = (ids', false) ->
  prepared i !! gid = Some e -> (forall gid' e', prepared i !! gid' = Some e' -> gid = gid') ->
  Forall (fun op => plain op = true) (prepared_ops e) -> constraints_hold (after_prepared e i).
Proof.
  intros Hb He Hone Hp. unfold breaks_prepared in Hb. cbn [fst snd] in Hb.
  assert (has_prepared i = true) as Hh.
  { apply not_false_is_true. intros Hn%has_prepared_false. by rewrite Hn, lookup_empty in He. }
  rewrite Hh in Hb. cbn [negb orb] in Hb. case_bool_decide as Hc.
  { intros c Hin. unfold after_prepared in Hin. rewrite ops_constraints in Hin by done. cbn in Hin.
    rewrite Hc in Hin. by apply not_elem_of_nil in Hin. }
  injection Hb as _ Hv. rewrite negb_false_iff in Hv. apply validate_ok.
  unfold with_prepared_applied in Hv. cbn [snd] in Hv. rewrite (sole_entries i gid e He Hone) in Hv.
  cbn [foldl] in Hv. unfold after_prepared. rewrite (apply_other_ids _ _ ids).
  by destruct (validate_constraints (apply_wal_ops (prepared_ops e) (ids, i)).2) as [[]|].
Qed.

Lemma with_seq_settled k i : (forall gid e, prepared i !! gid = Some e ->
    Forall (fun op => plain op = true) (prepared_ops e) /\ constraints_hold (after_prepared e i)) ->
  settled (with_commit_seq k i).
Proof.
  intros H1 gid e He. destruct (H1 gid e He) as [Hp Hc]. unfold after_prepared. by rewrite ops_with_seq.
Qed.

Lemma commit_state_settled sys i ops mg g : settled (inner g) -> core_ok (commit_state sys i ops mg g).1 ->
  settled (inner (commit_state sys i ops mg g).1).
Proof.
  intros Hs. unfold commit_state, record. destruct (breaks_prepared (g_ids g, i)) as [ids broke] eqn:Hb.
  destruct broke; [done|]. pose proof (record_inner sys ops ops (put_ids ids g)) as E.
  destruct (record_split sys ops ops (put_ids ids g)) as [g1 [[]|[]]]; cbn [fst snd] in *; [|by rewrite E].
  intros C.
  assert (settled (with_commit_seq (commit_seq i + 1) i)) as Hset; [|by destruct mg].
  apply with_seq_settled. intros gid e He.
  assert (held_ok (g_ids g1) (with_commit_seq (commit_seq i + 1) i)) as Hh by (destruct mg; apply (co_held _ C)).
  assert (Forall (fun op => plain op = true) (prepared_ops e)) as Hp.
  { destruct (ho_entry _ _ Hh gid e He) as (b & set & R & _). apply R. }
  split; [done|]. eapply not_broken; [exact Hb|exact He| |done].
  intros gid' e' He'. exact (ho_one _ _ Hh _ _ _ _ He He').
Qed.

Lemma commit_parts_settled sys s g : settled (inner g) -> core_ok (commit_parts sys s g).1 ->
  settled (inner (commit_parts sys s g).1).
Proof.
  intros Hs. unfold commit_parts. destruct (tx_ops s) as [|op0 ops0]; [done|].
  destruct (read_only g); [done|]. destruct (has_prepared (inner g) && _); [done|].
  destruct (live_ptr g =? base_ptr s).
  - destruct (validate_constraints (working s)); [|done]. by apply commit_state_settled.
  - destruct (negb (bool_decide _) || _); [done|]. destruct (validate_constraints (working s)); [|done].
    destruct (apply_wal_ops (op0 :: ops0) (g_ids g, inner g)) as [ids m].
    destruct (validate_constraints m); [|done]. by apply commit_state_settled.
Qed.

(** A transaction is prepared when its writes keep the constraints. *)
Lemma tx_prepare_settled sys id gid g : core_ok g -> settled (inner g) ->
  settled (inner (tx_prepare sys id gid g).1).
Proof.
  intros C0 Hset. unfold tx_prepare. destruct (reg_txs g !! id) as [s|] eqn:Hs; [|done].
  pose proof (slot_close g s id (co_slots _ C0 id s Hs)) as S.
  assert (settled (inner (close_tx id g))) as Hset1 by exact Hset.
  remember (close_tx id g) as g1 eqn:Eg. clear Eg C0 Hs Hset g.
  destruct (read_only g1); [done|]. case_bool_decide; [done|].
  destruct (has_prepared (inner g1)) eqn:Hnone; [done|]. apply has_prepared_false in Hnone.
  destruct (N.eqb_spec (live_ptr g1) (base_ptr s)) as [Hptr|]; cbn [negb]; [|done].
  destruct (validate_constraints (working s)) as [[]|] eqn:Hv; [|done].
  pose proof (record_inner sys [Prepare gid (env_now (sys_env sys)) (tx_ops s)] [] g1) as E1.
  destruct (record_split sys [Prepare gid (env_now (sys_env sys)) (tx_ops s)] [] g1) as [g2 [[]|[]]];
    cbn [fst] in *; [|by rewrite E1].
  apply validate_ok in Hv. pose proof (so_same_ptr _ _ S (eq_sym Hptr)) as Hb.
  unfold commit_inner, note_commit. cbn [fst snd inner put_live]. apply with_seq_settled.
  intros gid' e. rewrite E1, Hnone. cbn. rewrite lookup_insert, lookup_empty. case_decide; [|done].
  intros [= <-]. cbn [prepared_ops]. pose proof (proj1 (so_runs _ _ S)) as Hp. split; [done|].
  unfold after_prepared. cbn [prepared_ops]. rewrite ops_prepared by done.
  eapply (holds_ext (working s)); [| |exact Hv].
  - cbn. rewrite <- Hb. apply map_eq. intros i.
    destruct (so_same _ _ S) as [Ha _]. destruct (Ha (KNode i)) as [-> _].
    by rewrite (apply_other_ids _ (g_ids g1) ids_default).
  - cbn. rewrite ops_constraints by done. cbn. by rewrite (so_cons _ _ S), Hb.
Qed.

Lemma commit_prepared_inner sys gid g e : core_ok g -> prepared (inner g) !! gid = Some e ->
  match commit_prepared sys gid g with
  | (g', Ok _) => prepared (inner g') = ∅ /\ nodes (inner g') = nodes (after_prepared e (inner g)) /\
      constraints (inner g') = constraints (after_prepared e (inner g))
  | (g', Err _) => inner g' = inner g
  end.
Proof.
  intros C He. unfold commit_prepared. destruct (read_only g); [done|]. rewrite He.
  pose proof (record_frame sys [CommitPrepared gid] (prepared_ops e) g) as (E1 & _ & _ & E4 & _).
  destruct (record_split sys [CommitPrepared gid] (prepared_ops e) g) as [g1 [[]|[]]]; cbn [fst] in *; [|done].
  rewrite E1, E4. pose proof (apply_commit gid (g_ids g, inner g)) as Ha. cbn [fst snd] in Ha.
  rewrite He in Ha. rewrite Ha. pose proof (holding_plain g gid e C He) as Hp.
  destruct (ops_two_phase (prepared_ops e)
    (g_ids g, with_prepared (delete gid (prepared (inner g))) (heuristic (inner g)) (inner g)) Hp) as [Hd _].
  pose proof (ops_prepared (prepared_ops e) (g_ids g) (delete gid (prepared (inner g))) (heuristic (inner g))
    (inner g) Hp) as Hk.
  destruct (apply_wal_ops _ (g_ids g, with_prepared _ _ _)) as [ids i]. cbn [fst snd] in *.
  unfold commit_inner, note_commit. cbn. split_and!.
  - rewrite Hd. cbn. apply map_eq. intros j. rewrite lookup_delete, lookup_empty. case_decide as Hj; [done|].
    destruct (prepared (inner g) !! j) as [x|] eqn:Hx; [|done].
    by destruct (Hj (ho_one _ _ (co_held _ C) _ _ _ _ He Hx)).
  - rewrite Hk. unfold after_prepared. by rewrite (apply_other_ids _ ids_default (g_ids g)).
  - rewrite Hk. unfold after_prepared. by rewrite (apply_other_ids _ ids_default (g_ids g)).
Qed.

(** ** Every step *)

(** No constraint is declared while a transaction is prepared. *)
Definition undeclared (sys : Sys) (s : Step) (g : NativeGraph) : Prop :=
  match s with SAddConstraint _ => prepared (inner g) = ∅ | _ => True end.

#[global] Instance undeclared_dec sys s g : Decision (undeclared sys s g).
Proof. unfold undeclared. destruct s; apply _. Defined.

(** The calls the fence refuses while a transaction is prepared. *)
Definition fenced (s : Step) : bool :=
  match s with
  | SDirect _ | SSetEmbedding _ _ | SDeleteEmbedding _ | SDeleteNodes _ | SCreateNodes _ | SCreateEdges _
  | SSetEmbeddings _ | SImport _ _ _ => true
  | _ => false
  end.

Lemma fenced_same sys s g : fenced s = true -> prepared (inner g) <> ∅ -> exec sys s g = g.
Proof.
  intros Hf Hp. destruct (write_for_commit_cases g) as [[_ Hn]|[e Hw]]; [done|].
  destruct s; try done; unfold exec.
  - unfold direct_write, st_bind, direct_apply. by rewrite Hw.
  - unfold set_embedding. by rewrite Hw.
  - unfold delete_embedding. by rewrite Hw.
  - unfold delete_nodes. by rewrite Hw.
  - unfold create_nodes, create_batch. destruct (DoCreateNode <$> new_nodes); [done|]. by rewrite Hw.
  - unfold create_edges, create_batch. destruct (DoCreateEdge <$> new_edges); [done|]. by rewrite Hw.
  - unfold set_embeddings_batch. destruct embs; [done|]. by rewrite Hw.
  - unfold apply_dump. by rewrite Hw.
Qed.

Lemma direct_write_prepared sys op g : core_ok g -> room_for 1 (g_ids g, inner g) ->
  prepared (inner (direct_write sys op g).1) = prepared (inner g).
Proof.
  intros C Hr. unfold direct_write, st_bind, direct_apply.
  destruct (write_for_commit_cases g) as [[-> Hnone]|[e ->]]; [|done].
  destruct (log_op (sys_env sys) true op (g_ids g, inner g)) as [[ids i] r] eqn:Hlog.
  pose proof (log_op_prepared _ _ _ _ _ _ _ C Hr Hlog) as Hp. destruct r as [w|e]; [|exact Hp].
  unfold direct_record, record. rewrite io_as_fst, record_inner. exact Hp.
Qed.

Lemma delete_nodes_prepared sys ids g : core_ok g -> prepared (inner (delete_nodes sys ids g).1) = prepared (inner g).
Proof.
  intros C. unfold delete_nodes. destruct (write_for_commit_cases g) as [[-> Hnone]|[e ->]]; [|done].
  destruct (delete_each ids (inner g)) as [i ws] eqn:Ed.
  destruct (delete_each_ok ids (inner g) (g_ids g) i ws (co_live _ C) Ed) as (_ & E & P & _).
  destruct ws as [|w ws]; [done|].
  pose proof (install_prepared sys (w :: ws) (g_ids g, i) g) as Hi.
  destruct (install_batch sys (w :: ws) (g_ids g, i) g) as [g1 [[]|]]; apply Hi; cbn [snd];
    rewrite E; by apply (ops_two_phase (w :: ws) (g_ids g, inner g)).
Qed.

Lemma fenced_prepared sys s g : core_ok g -> roomy g -> step_fits sys s g -> fenced s = true ->
  prepared (inner (exec sys s g)) = prepared (inner g).
Proof.
  intros C (Hr & _) Hf Hs. destruct s; try done; unfold exec.
  - by apply direct_write_prepared.
  - unfold set_embedding. destruct (write_for_commit_cases g) as [[-> _]|[e ->]]; [|done].
    case_bool_decide; [|done]. rewrite apply_set_embedding. unfold record. by rewrite io_as_fst, record_inner.
  - unfold delete_embedding. destruct (write_for_commit_cases g) as [[-> _]|[e ->]]; [|done].
    rewrite apply_delete_embedding. unfold record. by rewrite io_as_fst, record_inner.
  - by apply delete_nodes_prepared.
  - apply batch_prepared; [done|]. by rewrite length_fmap.
  - apply batch_prepared; [done|]. by rewrite length_fmap.
  - apply embeddings_prepared.
  - by apply import_step_prepared.
Qed.

Lemma remove_constraint_same c g : same_as (inner (remove_constraint c g).1) (inner g) /\
  constraints (inner (remove_constraint c g).1) ⊆ constraints (inner g).
Proof.
  unfold remove_constraint. set (cs := filter (fun d => d <> c) (constraints (inner g))).
  assert (cs ⊆ constraints (inner g)) as Hc by (intros d Hd; by apply list_elem_of_filter in Hd as [_ ?]).
  case_bool_decide; split; try done; cbn; (etrans; [|apply (schema_same_as (inner g) cs)]);
    (split_and!; [by intros []|done|done]).
Qed.

Lemma exec_settled sys s g : core_ok g -> roomy g -> step_fits sys s g -> roomy (exec sys s g) ->
  undeclared sys s g -> settled (inner g) -> settled (inner (exec sys s g)).
Proof.
  intros C Hr Hf Hr' Hu Hset. pose proof (exec_core sys s g C Hr Hf Hr') as C'.
  destruct (fenced s) eqn:Hfen.
  { destruct (decide (prepared (inner g) = ∅)) as [Hn|Hn].
    - apply settled_none. by rewrite (fenced_prepared sys s g C Hr Hf Hfen).
    - by rewrite (fenced_same sys s g Hfen Hn). }
  destruct s as [op|id v|id|ids|nns|nes|embs|same_node same_edge d|iso lim|id op|id|id|id gid|gid|gid heur|c|c|on|cursor|commits];
    try done; unfold exec in *.
  - unfold tx_write. destruct (reg_txs g !! id) as [slot|]; [|done].
    destruct (if limited slot then _ else _); [|done]. by destruct (log_op (sys_env sys) _ _ _) as [[ids i] [w|e]].
  - unfold tx_commit in *. destruct (reg_txs g !! id) as [s|]; [|done]. by apply commit_parts_settled.
  - by apply tx_prepare_settled.
  - destruct (prepared (inner g) !! gid) as [e|] eqn:He.
    + pose proof (commit_prepared_inner sys gid g e C He) as Hc.
      destruct (commit_prepared sys gid g) as [g' [[]|]]; cbn [fst]; [|by rewrite Hc].
      apply settled_none. by destruct Hc as (-> & _).
    + unfold commit_prepared. destruct (read_only g); [done|]. by rewrite He.
  - unfold rollback_prepared_as. destruct (read_only g); [done|].
    case_bool_decide as Hs; cbn [negb]; [|by destruct (negb heur && _)].
    pose proof (record_inner sys [RollbackPrepared gid heur] [] g) as E1.
    destruct (record_split sys [RollbackPrepared gid heur] [] g) as [g2 [[]|[]]]; cbn [fst] in *; [|by rewrite E1].
    rewrite apply_rollback. cbn [fst snd]. apply settled_none. cbn. rewrite E1. destruct Hs as [e He].
    apply map_eq. intros j. rewrite lookup_delete, lookup_empty. case_decide as Hj; [done|].
    destruct (prepared (inner g) !! j) as [x|] eqn:Hx; [|done].
    by destruct (Hj (ho_one _ _ (co_held _ C) _ _ _ _ He Hx)).
  - apply settled_none. cbn [undeclared] in Hu. unfold add_constraint. case_bool_decide; [done|].
    by destruct (validate_constraints _).
  - destruct (remove_constraint_same c g) as [Hs Hc]. by apply (settled_same g).
  - unfold set_read_only. by destruct (negb on && opened_read_only g).
  - unfold trim_before. by destruct (_ <=? _).
Qed.

(** In a run that declares no constraint while one is prepared, the prepared
    transaction can be committed without breaking any. *)
Lemma reached_settled durable g : reached undeclared durable g -> settled (inner g).
Proof.
  induction 1 as [|sys s g Hreach IH HQ Hf Hr]; [by apply settled_none|].
  apply exec_settled; [by eapply reached_core|by eapply reached_roomy|done..].
Qed.

Lemma commit_prepared_holds durable sys gid g e : reached undeclared durable g ->
  prepared (inner g) !! gid = Some e -> (commit_prepared sys gid g).2 = Ok tt ->
  constraints_hold (inner (commit_prepared sys gid g).1).
Proof.
  intros Hr He Hok. pose proof (commit_prepared_inner sys gid g e (reached_core _ _ _ Hr) He) as Hc.
  destruct (commit_prepared sys gid g) as [g' r]. cbn [fst snd] in *. rewrite Hok in Hc.
  destruct Hc as (_ & Hn & Hcs).
  eapply holds_ext; [exact Hn|by rewrite Hcs|]. exact (reached_settled durable g Hr gid e He).
Qed.
End prepared.
