(* ===== verification/NativeTxSpec.v ===== *)
(** * What the engine guarantees its callers

    Transactions are atomic and durable and their merges keep both sides; two-phase commit resolves;
    the change feed loses nothing.  The last sections run the engine on small
    schedules, among them the ones where a guarantee ends. *)
From S2P Require Import Prelude NativeModel Native NativeInv NativeOps Conflict NativeSpec NativeRecovery.
From S2P Require Import NativeTx NativeMerge NativeEngine NativeEngineSteps NativePrepared.
Local Open Scope string_scope.
Local Open Scope list_scope.
Local Open Scope N_scope.

Section feed.

(** The feed of a graph that has published [all]. *)
Definition feed_of (all : list WalOp) (g : NativeGraph) : Prop :=
  start_seq (feed g) <= N.of_nat (length all) /\
  feed_ops (feed g) = drop (N.to_nat (start_seq (feed g))) all.

Lemma feed_head all g : feed_of all g -> change_head g = N.of_nat (length all).
Proof. intros [Hs Hf]. unfold change_head. rewrite Hf, length_drop. lia. Qed.

Lemma feed_trim all cursor g : feed_of all g -> feed_of all (trim_before cursor g).1.
Proof.
  intros F. pose proof (feed_head _ _ F) as Hh. destruct F as [Hs Hf]. unfold trim_before. rewrite Hh.
  destruct (N.leb_spec (N.min cursor (N.of_nat (length all))) (start_seq (feed g))) as [Hle|Hlt]; [done|].
  split; cbn; [lia|]. rewrite Hf, drop_drop. f_equal. lia.
Qed.

Lemma feed_record all sys ws ops g : feed_of all g ->
  match record_split sys ws ops g with
  | (g', Ok _) => feed_of (all ++ ops) g'
  | (g', Err _) => feed_of all g'
  end.
Proof.
  intros [Hs Hf]. unfold record_split.
  assert (forall w, feed_of (all ++ ops) (put_log w (mkFeed (start_seq (feed g)) (feed_ops (feed g) ++ ops)) g)) as Hok.
  { intros w. split; cbn; [rewrite length_app; lia|]. rewrite Hf, drop_app_le by lia. done. }
  destruct ws, ops; try (by rewrite app_nil_r in * ).
  all: destruct (wal g) as [lg|]; [|by apply Hok].
  all: destruct (negb (sys_encodes sys)); [done|].
  all: destruct (wal_broken lg); [done|].
  all: destruct (sys_flushes sys); [by apply Hok|done].
Qed.
End feed.

Section claims.
Context `{JsonText}.

(** C5: In every state the engine can reach -- through direct writes, batches,
    bulk imports that refuse no record, concurrent transactions merged or
    refused, two-phase commit, schema changes, log and encoding failures, as long
    as the counters of ids and kinds have room -- the live graph is well-formed, no edge dangles, the counters are past every id,
    the history runs up to the current commit, and at most one transaction is
    prepared. *)
Theorem engine_invariant durable g : reachable durable g ->
  live (g_ids g, inner g) /\ history_ok (commit_seq (inner g)) (history g) /\
  (forall gid gid', is_Some (prepared (inner g) !! gid) -> is_Some (prepared (inner g) !! gid') -> gid = gid').
Proof.
  intros Hr. pose proof (reached_core _ durable g Hr) as C. split_and!.
  - apply (co_live _ C).
  - apply (co_hist _ C).
  - intros gid gid' [e He] [e' He']. by eapply (ho_one _ _ (co_held _ C)).
Qed.

(** C1: Durability: take an engine that has run, from empty, any sequence of
    direct writes, batched creates and deletes, vector writes, bulk imports that
    refuse no record, transactions, two-phase commit, schema and mode changes,
    in which every record could be encoded.  Unless a failed flush has closed its
    log, replaying the log from nothing rebuilds the live graph -- nodes, edges,
    vectors, prepared transactions and heuristic outcomes -- well-formed and with
    every index.  A call and its log record are one step, and ids and kinds do
    not run out.  Outside it are the operations a follower takes from its leader,
    an import that fails half-way ([failed_import_applies_half]) and a record
    that cannot be encoded ([unencoded_write_unlogged]). *)
Theorem recovery_restores_engine durable g w : recorded durable g -> wal g = Some w ->
  wal_broken w = false ->
  same_contents (inner g) (replay (concat (wal_records w))).2 /\
  graph_wf (replay (concat (wal_records w))).2.
Proof.
  intros Hr Hw Hb. split.
  - apply same_as_contents. symmetry. by apply (recorded_wal durable g Hr).
  - pose proof (reached_roomy _ durable g Hr) as (_ & Hk & _). unfold logged in Hk. rewrite Hw in Hk.
    by apply replay_good.
Qed.

(** C3: Snapshot merge: when a transaction's writes do not clash with what was
    committed since it began, replaying them on the live graph keeps both -- each
    record it wrote is as it saw it, each record the others wrote is as they left
    it -- and no edge dangles. *)
Theorem merge_keeps_both mine theirs base live : merges mine theirs base live ->
  linked live.2 -> linked (apply_wal_ops mine base).2 ->
  let merged := (apply_wal_ops mine live).2 in
  (forall k, k ∈ cs_writes (from_ops mine) -> agree_at merged (apply_wal_ops mine base).2 k) /\
  (forall k, k ∈ cs_writes theirs -> agree_at merged live.2 k) /\
  linked merged.
Proof.
  intros M Ll Lw. split_and!.
  - intros k. by eapply merge_mine.
  - intros k. by eapply merge_theirs.
  - by eapply merge_linked.
Qed.

(** What a failed or refused commit must leave. *)
Definition commit_untouched (g g' : NativeGraph) : Prop :=
  inner g' = inner g /\ live_ptr g' = live_ptr g /\ feed g' = feed g /\ logged g' = logged g /\
  history g' = history g.

Lemma record_split_result sys ws ops g : ws <> [] ->
  match record_split sys ws ops g with
  | (g', Ok _) => feed g' = mkFeed (start_seq (feed g)) (feed_ops (feed g) ++ ops) /\
      (wal g <> None -> logged g' = logged g ++ ws) /\ history g' = history g
  | (g', Err _) => commit_untouched g g' /\ wal g <> None
  end.
Proof.
  intros Hne. rewrite record_split_nonempty by done. cbv zeta. unfold commit_untouched, logged.
  destruct (wal g) as [lg|] eqn:Hg; [|done].
  destruct (negb (sys_encodes sys)); [by rewrite Hg|].
  destruct (wal_broken lg) eqn:Hb; [by rewrite Hg|].
  destruct (sys_flushes sys); cbn; [|done].
  split_and!; [done| |done]. intros _. rewrite concat_app. simpl. by rewrite app_nil_r.
Qed.

Lemma commit_state_result sys i ops mg g : ops <> [] ->
  match commit_state sys i ops mg g with
  | (g', Ok _) => commit_seq (inner g') = commit_seq i + 1 /\
      inner g' = with_commit_seq (commit_seq i + 1) i /\
      feed_ops (feed g') = feed_ops (feed g) ++ ops /\
      (wal g <> None -> logged g' = logged g ++ ops)
  | (g', Err _) => commit_untouched g g'
  end.
Proof.
  intros Hne. unfold commit_state, record. destruct (breaks_prepared (g_ids g, i)) as [ids broke].
  destruct broke; [done|].
  pose proof (record_split_result sys ops ops (put_ids ids g) Hne) as Hrec.
  pose proof (record_frame sys ops ops (put_ids ids g)) as Hfr. cbv zeta in Hfr.
  destruct (record_split sys ops ops (put_ids ids g)) as [g1 [[]|[]]]; cbn [fst] in *.
  - destruct Hrec as (Hf & Hl & _). destruct mg; cbn; rewrite Hf; split_and!; try done; exact Hl.
  - destruct Hrec as [Hu _]. exact Hu.
Qed.

(** C2: A commit is atomic.  Failing -- conflict, constraint, fence, read-only,
    log -- it leaves the graph, its pointer, the log's records, the feed and the
    history as they were; succeeding with writes it advances the commit
    sequence by one and appends exactly its operations to the feed and the log. *)
Theorem commit_atomic sys s g : slot_ok g s ->
  match commit_parts sys s g with
  | (g', Err _) => commit_untouched g g'
  | (g', Ok _) =>
      if bool_decide (tx_ops s = []) then g' = g
      else commit_seq (inner g') = commit_seq (inner g) + 1 /\
           feed_ops (feed g') = feed_ops (feed g) ++ tx_ops s /\
           (wal g <> None -> logged g' = logged g ++ tx_ops s)
  end.
Proof.
  intros S. unfold commit_parts. destruct (tx_ops s) as [|op0 ops0] eqn:Eops; [done|].
  rewrite <- Eops. assert (tx_ops s <> []) as Hne by (rewrite Eops; done). clear Eops op0 ops0.
  rewrite (bool_decide_eq_false_2 (tx_ops s = [])) by done.
  destruct (read_only g); [done|].
  destruct (has_prepared (inner g) && _); [done|].
  destruct (N.eqb_spec (live_ptr g) (base_ptr s)) as [Hptr|Hptr].
  - destruct (validate_constraints (working s)); [|done].
    pose proof (commit_state_result sys (working s) (tx_ops s) false g Hne) as Hc.
    destruct (commit_state sys (working s) (tx_ops s) false g) as [g' [[]|e]]; [|done].
    destruct Hc as (Hseq & _ & Hf & Hl). split_and!; [|done|done].
    by rewrite Hseq, (so_wseq _ _ S), (so_same_ptr _ _ S (eq_sym Hptr)).
  - destruct (negb (bool_decide _) || _); [done|].
    destruct (validate_constraints (working s)); [|done].
    pose proof (apply_wal_ops_seq (tx_ops s) (g_ids g, inner g)) as Hseq. cbn [snd] in Hseq.
    destruct (apply_wal_ops (tx_ops s) (g_ids g, inner g)) as [ids m]. cbn [snd] in Hseq.
    destruct (validate_constraints m); [|done].
    pose proof (commit_state_result sys m (tx_ops s) true (put_ids ids g) Hne) as Hc.
    destruct (commit_state sys m (tx_ops s) true (put_ids ids g)) as [g' [[]|e]]; [|done].
    destruct Hc as (Hs & _ & Hf & Hl). split_and!; [by rewrite Hs, Hseq|exact Hf|exact Hl].
Qed.

(** A commit with writes succeeds only against a state its snapshot explains:
    either nothing was committed since it began, or -- never under serializable
    isolation -- the history still holds every commit since, and none of them
    clashes with it. *)
Theorem commit_needs_no_clash sys s g g' : core_ok g -> slot_ok g s -> tx_ops s <> [] ->
  commit_parts sys s g = (g', Ok tt) ->
  inner g = base s \/
  (tx_isolation s = Snapshot /\ forall seq set, (seq, set) ∈ recent (history g) ->
     commit_seq (base s) < seq -> intersects set (from_ops (tx_ops s)) = false).
Proof.
  intros C S Hne. unfold commit_parts. destruct (tx_ops s) as [|op0 ops0] eqn:Eops; [done|].
  rewrite <- Eops. clear Eops op0 ops0 Hne. destruct (read_only g); [done|].
  destruct (has_prepared (inner g) && _); [done|].
  destruct (N.eqb_spec (live_ptr g) (base_ptr s)) as [Hptr|Hptr].
  - intros _. left. symmetry. by apply (so_same_ptr _ _ S).
  - destruct (negb (bool_decide _) || _) eqn:Hrej; [done|]. intros _. right.
    apply orb_false_iff in Hrej as [Hcl Hiso].
    rewrite negb_false_iff, bool_decide_eq_true in Hcl. rewrite bool_decide_eq_false in Hiso.
    split; [by destruct (tx_isolation s)|]. intros seq set Hin Hlt.
    unfold classify in Hcl. destruct (covers (history g) (commit_seq (base s))); [|done]. cbn [negb] in Hcl.
    destruct (existsb _ _) eqn:Ee; [done|]. apply not_true_iff_false. intros Hi.
    rewrite <- not_true_iff_false in Ee. apply Ee, existsb_exists. exists (seq, set). split; [|done].
    apply list_elem_of_In. by apply (newer_than_rev _ _ _ (co_hist _ C)).
Qed.

(** C4: A prepared transaction can always be committed: in every state the
    engine can reach, on a writable store whose log works, [commit_prepared]
    succeeds, and the graph it leaves is well-formed with no dangling edge; and
    it satisfies every declared constraint, if none was declared while a
    transaction was prepared ([constraint_added_while_prepared]), whatever the
    other transactions committed in between: [breaks_prepared] held them back
    where they would have clashed.  The steps are those of the engine's
    invariant, with room left in its counters of ids and kinds and imports that
    refuse no record; replicated operations, which pass the fence, are not among
    them ([replicated_delete_breaks_prepared]). *)
Theorem prepared_commit_succeeds durable sys gid e g : reachable durable g ->
  prepared (inner g) !! gid = Some e -> read_only g = false ->
  sys_encodes sys = true -> sys_flushes sys = true ->
  (forall w, wal g = Some w -> wal_broken w = false) ->
  let r := commit_prepared sys gid g in
  r.2 = Ok tt /\ live (g_ids r.1, inner r.1) /\ prepared (inner r.1) !! gid = None /\
  (reached undeclared durable g -> constraints_hold (inner r.1)).
Proof.
  intros Hr He Hro Henc Hfl Hb. pose proof (reached_core _ durable g Hr) as C.
  pose proof (reached_roomy _ durable g Hr) as (_ & _ & _ & Hfit).
  assert (core_ok (commit_prepared sys gid g).1) as C'.
  { apply commit_prepared_core; [done|]. intros e' He'. exact (Hfit gid e' He'). }
  intros r. fold r in C'.
  assert (r.2 = Ok tt /\ prepared (inner r.1) = delete gid (prepared (inner g))) as [Hok Hp].
  { unfold r, commit_prepared. rewrite Hro, He.
    pose proof (record_frame sys [CommitPrepared gid] (prepared_ops e) g) as (E1 & _ & _ & E4 & _).
    assert ((record_split sys [CommitPrepared gid] (prepared_ops e) g).2 = Ok tt) as Hrec.
    { rewrite record_split_nonempty by done. cbv zeta. destruct (wal g) as [w|] eqn:Hw; [|done].
      rewrite Henc, (Hb w eq_refl), Hfl. done. }
    destruct (record_split sys [CommitPrepared gid] (prepared_ops e) g) as [g1 q]. cbn [fst snd] in *.
    subst q. rewrite E1, E4. pose proof (apply_commit gid (g_ids g, inner g)) as Ha. cbn [fst snd] in Ha.
    rewrite He in Ha. rewrite Ha.
    destruct (ho_entry _ _ (co_held _ C) _ _ He) as (b & set & R & _).
    destruct (ops_two_phase (prepared_ops e)
      (g_ids g, with_prepared (delete gid (prepared (inner g))) (heuristic (inner g)) (inner g)) (proj1 R)) as [Hp _].
    destruct (apply_wal_ops _ _) as [ids i]. cbn [fst snd] in *. cbn. split; [done|exact Hp]. }
  split_and!; [done|apply (co_live _ C')|rewrite Hp; apply lookup_delete_eq|].
  intros Hu. by apply (commit_prepared_holds durable sys gid g e).
Qed.

Lemma write_fenced g : prepared (inner g) <> ∅ -> read_only g = false ->
  write_for_commit g = (g, Err (PreparedPendingErr (pending_gids (inner g)))).
Proof.
  intros Hp Hro. unfold write_for_commit, write_unless_read_only, has_prepared.
  by rewrite Hro, bool_decide_eq_false_2.
Qed.

Lemma batch_fenced sys op ops g e : write_for_commit g = (g, Err e) ->
  create_batch sys (op :: ops) g = (g, Err e).
Proof. intros Hf. unfold create_batch. by rewrite Hf. Qed.

(** While a transaction is prepared the write fence holds at every entry
    point outside it: single writes, vector writes, batched creates and deletes
    and bulk import are all refused with the pending ids, and the engine --
    graph, log, feed, counters, history -- is exactly as it was. *)
Theorem fence_refuses_writes sys g : prepared (inner g) <> ∅ -> read_only g = false ->
  let refused := PreparedPendingErr (pending_gids (inner g)) in
  (forall op, direct_write sys op g = (g, Err refused)) /\
  (forall id v, set_embedding sys id v g = (g, Err refused)) /\
  (forall id, delete_embedding sys id g = (g, Err refused)) /\
  (forall embs, embs <> [] -> set_embeddings_batch sys embs g = (g, Err refused)) /\
  (forall ns, ns <> [] -> create_nodes sys ns g = (g, Err refused)) /\
  (forall es, es <> [] -> create_edges sys es g = (g, Err refused)) /\
  (forall ids, delete_nodes sys ids g = (g, Err refused)) /\
  (forall same_node same_edge d, apply_dump sys same_node same_edge d g = (g, Err refused)).
Proof.
  intros Hp Hro refused. pose proof (write_fenced g Hp Hro) as Hf. split_and!; intros.
  - unfold direct_write, st_bind, direct_apply. by rewrite Hf.
  - unfold set_embedding. by rewrite Hf.
  - unfold delete_embedding. by rewrite Hf.
  - unfold set_embeddings_batch. destruct embs; [by exfalso|]. by rewrite Hf.
  - destruct ns; [by exfalso|]. by apply batch_fenced.
  - destruct es; [by exfalso|]. by apply batch_fenced.
  - unfold delete_nodes. by rewrite Hf.
  - unfold apply_dump. by rewrite Hf.
Qed.

(** The feed loses nothing: of all that was ever published, a subscriber at
    [cursor] is given exactly what follows it and the new head to resume from;
    it is told to start over exactly when trimming has dropped changes it has
    not seen. *)
Theorem feed_complete all cursor g : feed_of all g -> cursor <= N.of_nat (length all) ->
  let b := changes_since g cursor in
  cb_cursor b = N.of_nat (length all) /\
  (cb_lagged b = true <-> cursor < start_seq (feed g)) /\
  (cb_lagged b = false -> cb_ops b = drop (N.to_nat cursor) all).
Proof.
  intros F Hc. pose proof (feed_head _ _ F) as Hh. destruct F as [Hs Hf].
  unfold changes_since. rewrite Hh. destruct (N.ltb_spec cursor (start_seq (feed g))) as [Hlt|Hge]; cbn.
  - split_and!; done.
  - split_and!; [done|split; [done|lia]|]. intros _. rewrite Hf, drop_drop, length_drop. f_equal. lia.
Qed.

(** The write limit is exact: a limited transaction that buffers as many
    writes as the limit has its next one refused, and nothing changes. *)
Theorem write_limit_enforced env id op slot g : reg_txs g !! id = Some slot -> limited slot = true ->
  max_tx_writes g <> 0 -> N.of_nat (length (tx_ops slot)) = max_tx_writes g ->
  tx_write env id op g = (g, Err (TransactionTooLarge (max_tx_writes g))).
Proof.
  intros Hs Hl Hm Hlen. unfold tx_write, check_tx_room. rewrite Hs, Hl, Hlen.
  rewrite (proj2 (N.eqb_neq _ _) Hm), N.leb_refl. done.
Qed.
End claims.

(** ** Schedules *)
Module Schedule.
#[local] Existing Instance Sample.text.

Definition ok : Sys := mkSys Sample.env true true.
Definition play (l : list Step) (g : NativeGraph) : NativeGraph := foldl (fun g s => exec ok s g) g l.

(** Every state on the way has room, and no constraint is declared late. *)
Fixpoint roomy_run (l : list Step) (g : NativeGraph) : bool :=
  match l with
  | [] => true
  | s :: l => bool_decide (undeclared ok s g /\ step_fits ok s g /\ roomy (exec ok s g)) &&
              roomy_run l (exec ok s g)
  end.

Definition proper (sys : Sys) (s : Step) (g : NativeGraph) : Prop := sys_encodes sys = true /\ undeclared sys s g.

Lemma play_reached l g : reached proper true g -> roomy_run l g = true -> reached proper true (play l g).
Proof.
  revert g. induction l as [|s l IH]; intros g Hr Hl; [done|]. simpl in *.
  apply andb_true_iff in Hl as [Hs Hl]. apply bool_decide_eq_true in Hs as (Hu & Hf & Hs).
  apply IH; [|done]. by apply reach_step.
Qed.

Definition retitle (id : N) (title : string) : GraphOp :=
  DoUpdateNode id (mkNodePatch None (Some title) None None None).

(** ann knows bob; a transaction renames ann while bob is renamed directly. *)
Definition opening : list Step :=
  [SDirect (Sample.person "ann"); SDirect (Sample.person "bob"); SDirect (Sample.knows 1 2);
   SBegin Snapshot true; STxWrite 1 (retitle 1 "anna"); SDirect (retitle 2 "bobby")].

Definition opened : NativeGraph := play opening (new_graph true).
Definition merged : NativeGraph := exec ok (STxCommit 1) opened.

(** Then titles are made unique, a batch adds two people, a transaction that
    creates one more is prepared, and another transaction is refused his name. *)
Definition held : NativeGraph :=
  play [SAddConstraint (UniqueNodeProperty "Person" "title");
        SCreateNodes [mkNewNode "Person" "dan" "" "" ∅; mkNewNode "Person" "eve" "" "" ∅];
        SBegin Snapshot true; STxWrite 2 (Sample.person "cid"); SPrepare 2 "g1";
        SBegin Snapshot true; STxWrite 3 (Sample.person "cid"); STxCommit 3] merged.

Lemma opened_reached : reached proper true opened.
Proof. apply play_reached; [constructor|vm_compute; reflexivity]. Qed.
Lemma merged_reached : reached proper true merged.
Proof. apply (play_reached [STxCommit 1]); [apply opened_reached|vm_compute; reflexivity]. Qed.
Lemma held_reached : reached proper true held.
Proof. apply play_reached; [apply merged_reached|vm_compute; reflexivity]. Qed.

Lemma proper_reachable g : reached proper true g -> reachable true g.
Proof. by apply reached_weaken. Qed.
Lemma proper_recorded g : reached proper true g -> recorded true g.
Proof. apply reached_weaken. by intros sys s g' [? _]. Qed.
Lemma proper_undeclared g : reached proper true g -> reached undeclared true g.
Proof. apply reached_weaken. by intros sys s g' [_ ?]. Qed.

Definition title_of (id : N) (i : Inner) : option string := n_title <$> nodes i !! id.

(** The slot of the transaction in [opened]. *)
Definition slot1 : TxSlot := default (mkSlot 0 inner_default inner_default [] Snapshot true) (reg_txs opened !! 1).
Lemma slot1_ok : slot_ok opened slot1.
Proof.
  apply (co_slots _ (reached_core _ true opened opened_reached) 1). vm_compute. reflexivity.
Qed.
End Schedule.

Section witnesses.
#[local] Existing Instance Sample.text.
Import Schedule.

Lemma engine_invariant_witness : live (g_ids merged, inner merged) /\
  title_of 1 (inner merged) = Some "anna" /\ title_of 2 (inner merged) = Some "bobby".
Proof.
  split; [exact (proj1 (engine_invariant true merged (proper_reachable _ merged_reached)))|split; vm_compute; reflexivity].
Defined.

Lemma recovery_restores_engine_witness : exists w, wal held = Some w /\
  same_contents (inner held) (replay (concat (wal_records w))).2.
Proof.
  destruct (wal held) as [w|] eqn:Hw; [|vm_compute in Hw; discriminate Hw].
  exists w. split; [reflexivity|].
  refine (proj1 (recovery_restores_engine true held w (proper_recorded _ held_reached) Hw _)).
  assert (Some (wal_broken w) = Some false) as Hb; [|congruence].
  change (Some (wal_broken w)) with (wal_broken <$> Some w). rewrite <- Hw. vm_compute. reflexivity.
Defined.

Definition mine : list WalOp := tx_ops slot1.
Definition others : list WalOp :=
  [UpsertNode (into_node Sample.env (mkNewNode "Person" "bobby" "" "" ∅) 2)].
Definition before : GState := (g_ids opened, base slot1).

Lemma merges_here : merges mine (from_ops others) before (apply_wal_ops others before).
Proof.
  assert (runs others before) as R.
  { split_and!; [repeat constructor|by apply live_good, (so_base _ _ slot1_ok)|vm_compute; congruence]. }
  split.
  - apply (so_runs _ _ slot1_ok).
  - split_and!; [apply (so_runs _ _ slot1_ok)| |vm_compute; congruence].
    destruct (apply_wal_ops_grows others before) as [_ Hg]. apply Hg; apply R.
  - by apply covered_ops.
  - apply from_ops_everything.
  - vm_compute. reflexivity.
Qed.

Lemma merge_keeps_both_witness : linked (apply_wal_ops mine (apply_wal_ops others before)).2.
Proof.
  refine (proj2 (proj2 (merge_keeps_both mine (from_ops others) before (apply_wal_ops others before)
    merges_here _ _))).
  - refine (bool_decide_unpack (map_Forall (fun _ e =>
      is_Some (nodes (apply_wal_ops others before).2 !! e_from e) /\
      is_Some (nodes (apply_wal_ops others before).2 !! e_to e))
      (edges (apply_wal_ops others before).2)) _). vm_compute. exact I.
  - refine (bool_decide_unpack (map_Forall (fun _ e =>
      is_Some (nodes (apply_wal_ops mine before).2 !! e_from e) /\
      is_Some (nodes (apply_wal_ops mine before).2 !! e_to e))
      (edges (apply_wal_ops mine before).2)) _). vm_compute. exact I.
Defined.

(** The log fails: nothing is committed. *)
Lemma commit_atomic_witness :
  let r := commit_parts (mkSys Sample.env true false) slot1 opened in
  is_ok r.2 = false /\ commit_untouched opened r.1.
Proof.
  intros r. pose proof (commit_atomic (mkSys Sample.env true false) slot1 opened slot1_ok) as Ha.
  fold r in Ha. assert (is_ok r.2 = false) as Hf by (vm_compute; reflexivity).
  destruct r as [g' [[]|e]]; [discriminate Hf|]. split; [reflexivity|exact Ha].
Defined.

Lemma commit_needs_no_clash_witness :
  let r := commit_parts ok slot1 opened in
  r.2 = Ok tt /\ (inner opened = base slot1 \/
    (tx_isolation slot1 = Snapshot /\ forall seq set, (seq, set) ∈ recent (history opened) ->
      commit_seq (base slot1) < seq -> intersects set (from_ops (tx_ops slot1)) = false)).
Proof.
  intros r. assert (r.2 = Ok tt) as Hr by (vm_compute; reflexivity). split; [exact Hr|].
  apply (commit_needs_no_clash ok slot1 opened r.1).
  - exact (reached_core _ true opened opened_reached).
  - exact slot1_ok.
  - vm_compute. discriminate.
  - unfold r in *. rewrite <- Hr. apply surjective_pairing.
Defined.

Lemma prepared_commit_succeeds_witness :
  (commit_prepared ok "g1" held).2 = Ok tt /\
  title_of 5 (inner (commit_prepared ok "g1" held).1) = Some "cid" /\
  constraints_hold (inner (commit_prepared ok "g1" held).1).
Proof.
  destruct (prepared (inner held) !! "g1") as [e|] eqn:He; [|vm_compute in He; discriminate He].
  assert (forall w, wal held = Some w -> wal_broken w = false) as Hw.
  { intros w Hw. assert (wal_broken <$> wal held = Some false) as Hb by (vm_compute; reflexivity).
    rewrite Hw in Hb. by injection Hb. }
  assert (read_only held = false) as Hro by (vm_compute; reflexivity).
  destruct (prepared_commit_succeeds true ok "g1" e held (proper_reachable _ held_reached) He Hro eq_refl eq_refl Hw)
    as (H1 & _ & _ & H2).
  split; [exact H1|]. split; [vm_compute; reflexivity|]. exact (H2 (proper_undeclared _ held_reached)).
Defined.

Lemma fence_refuses_writes_witness :
  direct_write ok (Sample.person "dot") held = (held, Err (PreparedPendingErr ["g1"])) /\
  delete_nodes ok [1; 2] held = (held, Err (PreparedPendingErr ["g1"])).
Proof.
  assert (pending_gids (inner held) = ["g1"]) as <- by (vm_compute; reflexivity).
  assert (prepared (inner held) <> ∅) as Hp by (apply (bool_decide_unpack _); vm_compute; exact I).
  assert (read_only held = false) as Hro by (vm_compute; reflexivity).
  destruct (fence_refuses_writes ok held Hp Hro) as (Hd & _ & _ & _ & _ & _ & Hn & _).
  split; [exact (Hd _)|exact (Hn _)].
Defined.

Definition published : list WalOp := sample_log ++ [DeleteEdge 4].
Definition trimmed : NativeGraph := (trim_before 3 (put_log None (mkFeed 0 published) (new_graph false))).1.

Lemma feed_complete_witness :
  cb_ops (changes_since trimmed 6) = drop 6 published /\ cb_lagged (changes_since trimmed 2) = true.
Proof.
  assert (feed_of published trimmed) as F by (split; [vm_compute; congruence|vm_compute; reflexivity]).
  split.
  - apply (feed_complete published 6 trimmed F); [vm_compute; congruence|vm_compute; reflexivity].
  - apply (feed_complete published 2 trimmed F); [vm_compute; congruence|vm_compute; reflexivity].
Defined.

Definition capped : NativeGraph :=
  mkGraph (live_ptr opened) (next_ptr opened) (inner opened) (g_ids opened) (reg_txs opened)
    (next_reg_tx opened) (wal opened) (feed opened) (history opened) (conflicts opened)
    (isolation opened) 1 false false.

Lemma write_limit_enforced_witness :
  tx_write Sample.env 1 (Sample.person "dot") capped = (capped, Err (TransactionTooLarge 1)).
Proof.
  apply (write_limit_enforced Sample.env 1 (Sample.person "dot") slot1 capped);
    [vm_compute; reflexivity|vm_compute; reflexivity|vm_compute; discriminate|vm_compute; reflexivity].
Defined.
End witnesses.

(** ** Where the guarantees end *)
Section boundaries.
#[local] Existing Instance Sample.text.
Import Schedule.

Definition op_of (r : result CoreError WalOp) : WalOp := match r with Ok w => w | Err _ => DeleteEdge 0 end.

(** A direct write logs after it has released the writer lock.  Two concurrent
    updates of one node can reach the log in the other order: the live graph
    ends with the second, a restart with the first. *)
Theorem log_order_inverted :
  let g := play [SDirect (Sample.person "ann")] (new_graph true) in
  let a := direct_apply ok (retitle 1 "first") g in
  let b := direct_apply ok (retitle 1 "second") a.1 in
  let g' := (direct_record ok (op_of a.2) (direct_record ok (op_of b.2) b.1).1).1 in
  title_of 1 (inner g') = Some "second" /\ title_of 1 (replay (logged g')).2 = Some "first".
Proof. split; vm_compute; reflexivity. Qed.

(** The same with a deletion: the node is gone, a restart brings it back. *)
Theorem log_order_resurrects :
  let g := play [SDirect (Sample.person "ann")] (new_graph true) in
  let a := direct_apply ok (retitle 1 "first") g in
  let b := direct_apply ok (DoDeleteNode 1) a.1 in
  let g' := (direct_record ok (op_of a.2) (direct_record ok (op_of b.2) b.1).1).1 in
  title_of 1 (inner g') = None /\ title_of 1 (replay (logged g')).2 = Some "first".
Proof. split; vm_compute; reflexivity. Qed.

(** Declaring a constraint is not fenced and checks the current records only, so
    committing what was prepared before it breaks the constraint. *)
Theorem constraint_added_while_prepared :
  let g := play [SBegin Snapshot true; STxWrite 1 (Sample.person "ann"); STxWrite 1 (Sample.person "ann");
                 SPrepare 1 "g1"] (new_graph true) in
  let c := UniqueNodeProperty "Person" "title" in
  let r := add_constraint c g in
  let r' := commit_prepared ok "g1" r.1 in
  r.2 = Ok tt /\ r'.2 = Ok tt /\ is_ok (validate_constraints (inner r'.1)) = false.
Proof. split_and!; vm_compute; reflexivity. Qed.

(** A direct write that fails still copies the state behind the pointer, so an
    open transaction is told of a conflict although nothing was committed. *)
Theorem failed_write_causes_conflict :
  let g := play [SDirect (Sample.person "ann"); SBegin Serializable true; STxWrite 1 (retitle 1 "anna")]
             (new_graph true) in
  let r := direct_write ok (DoDeleteNode 99) g in
  r.2 = Err (NodeNotFound 99) /\ commit_seq (inner r.1) = commit_seq (inner g) /\
  (tx_commit ok 1 g).2 = Ok tt /\ (tx_commit ok 1 r.1).2 = Err CConflict.
Proof. split_and!; vm_compute; reflexivity. Qed.

(** An import that fails half-way leaves what it had applied in the live graph,
    unlogged and unpublished. *)
Theorem failed_import_applies_half :
  let d := mkDump 2 5 [into_node Sample.env (mkNewNode "Person" "ann" "" "" ∅) 1]
             [into_edge Sample.env (mkNewEdge 1 7 "KNOWS" (mkF32 0) ∅) 4] in
  let r := apply_dump ok (fun _ _ => false) (fun _ _ => false) d (new_graph true) in
  r.2 = Err (NodeNotFound 7) /\ title_of 1 (inner r.1) = Some "ann" /\ logged r.1 = [] /\
  change_head r.1 = 0.
Proof. split_and!; vm_compute; reflexivity. Qed.

(** A replicated resolution is noted with an empty conflict set: a transaction
    open across it overwrites the record it changed. *)
Theorem replicated_commit_unseen :
  let ann t := into_node Sample.env (mkNewNode "Person" t "" "" ∅) 1 in
  let g := (engine_apply_wal_ops ok [UpsertNode (ann "ann"); Prepare "g1" 3 [UpsertNode (ann "theirs")]]
              (new_graph true)).1 in
  let g := play [SBegin Snapshot true; STxWrite 1 (retitle 1 "mine")] g in
  let g := (engine_apply_wal_ops ok [CommitPrepared "g1"] g).1 in
  title_of 1 (inner g) = Some "theirs" /\ (tx_commit ok 1 g).2 = Ok tt /\
  title_of 1 (inner (tx_commit ok 1 g).1) = Some "mine".
Proof. split_and!; vm_compute; reflexivity. Qed.

(** The operations a follower takes pass the fence: one that deletes a node a
    prepared transaction attaches an edge to leaves that edge dangling when the
    transaction is committed. *)
Theorem replicated_delete_breaks_prepared :
  let g := play [SDirect (Sample.person "ann"); SDirect (Sample.person "bob"); SBegin Snapshot true;
                 STxWrite 1 (Sample.knows 1 2); SPrepare 1 "g1"] (new_graph true) in
  let r := engine_apply_wal_ops ok [DeleteNode 1] g in
  let r' := commit_prepared ok "g1" r.1 in
  r.2 = Ok tt /\ r'.2 = Ok tt /\ e_from <$> edges (inner r'.1) !! 1 = Some 1 /\
  nodes (inner r'.1) !! 1 = None.
Proof. split_and!; vm_compute; reflexivity. Qed.

(** A direct write whose record cannot be encoded fails, but stays applied; the
    log goes on without it. *)
Theorem unencoded_write_unlogged :
  let r := direct_write (mkSys Sample.env false true) (Sample.person "ann") (new_graph true) in
  r.2 = Err IoErr /\ title_of 1 (inner r.1) = Some "ann" /\ logged r.1 = [] /\
  wal_broken <$> wal r.1 = Some false.
Proof. split_and!; vm_compute; reflexivity. Qed.
End boundaries.
