(* ===== verification/Replication.v ===== *)
(** * Replicas that exchange deltas

    The causal tables of [NativeGraph] in [src/drevo-core/src/native.rs]
    ([stamp_write] to [apply_delete]) and the wire types of [delta.rs].  A [Peer]
    is an engine with its clock, its origin and the stamps of its live and
    deleted entities.  A uuid identifies an entity everywhere; ids are local.
    The stamp log and the tombstone sidecar, best-effort copies of the two
    tables on disk, are left out.

    - [merge_is_lww]: folding a delta in is the last-writer-wins merge of
      the node records it carries;
    - [peers_converge]: in every state that writes and exchanges lead to, two
      peers that pull from each other hold the same nodes;
    - [cascade_never_sent]: edges that go with a deleted node do not converge. *)
From S2P Require Import Prelude NativeModel Native NativeInv NativeOps Conflict NativeTx Crdt.
Local Open Scope list_scope.
Local Open Scope N_scope.

(** ** [delta.rs] *)
Record StampedEdge : Type := mkStampedEdge {
  se_edge : Edge; se_from_uuid : N; se_to_uuid : N; se_stamp : Stamp;
}.

Inductive StampedChange : Type :=
| ChNode (n : Node) (s : Stamp)
| ChEdge (se : StampedEdge)
| ChDeleteNode (uuid : N) (s : Stamp)
| ChDeleteEdge (uuid : N) (s : Stamp).

Definition change_stamp (c : StampedChange) : Stamp :=
  match c with ChNode _ s | ChDeleteNode _ s | ChDeleteEdge _ s => s | ChEdge se => se_stamp se end.

Definition apply_phase (c : StampedChange) : N :=
  match c with ChNode _ _ => 0 | ChEdge _ => 1 | ChDeleteEdge _ _ => 2 | ChDeleteNode _ _ => 3 end.

Abbreviation Delta := (list StampedChange).

Record ApplyStats : Type := mkApplyStats { applied : N; skipped : N }.

(** ** The tables *)
Inductive StampTarget : Type := TNode (id : N) | TEdge (id : N).
#[export] Instance StampTarget_eq_dec : EqDecision StampTarget.
Proof. solve_decision. Defined.
#[export] Instance StampTarget_countable : Countable StampTarget.
Proof.
  refine (inj_countable' (fun t => match t with TNode i => inl i | TEdge i => inr i end)
    (fun x => match x with inl i => TNode i | inr i => TEdge i end) _). by intros [].
Defined.

Record Tomb : Type := mkTomb { tomb_stamp : Stamp; tomb_uuid : N }.

Record Peer : Type := mkPeer {
  engine : NativeGraph;
  clock : Hlc;
  origin : OriginId;
  stamps : gmap StampTarget Stamp;
  tombstones : gmap StampTarget Tomb;
}.

Definition new_peer (durable : bool) (o : OriginId) : Peer := mkPeer (new_graph durable) hlc_default o ∅ ∅.

Definition put_engine (g : NativeGraph) (p : Peer) : Peer :=
  mkPeer g (clock p) (origin p) (stamps p) (tombstones p).
Definition put_clock (c : Hlc) (p : Peer) : Peer :=
  mkPeer (engine p) c (origin p) (stamps p) (tombstones p).

(** [now] is the physical time the clock reads. *)
Definition next_stamp (now : Z) (p : Peer) : Peer * Stamp :=
  let c := HlcClock.tick (clock p) now in (put_clock c p, mkStamp c (origin p)).

Definition stamp_of (p : Peer) (t : StampTarget) : option Stamp := stamps p !! t.

Definition mark_live (t : StampTarget) (s : Stamp) (p : Peer) : Peer :=
  mkPeer (engine p) (clock p) (origin p) (<[t := s]> (stamps p)) (delete t (tombstones p)).
Definition mark_tombstoned (t : StampTarget) (s : Stamp) (uuid : N) (p : Peer) : Peer :=
  mkPeer (engine p) (clock p) (origin p) (delete t (stamps p)) (<[t := mkTomb s uuid]> (tombstones p)).

Definition stamp_write (now : Z) (t : StampTarget) (p : Peer) : Peer :=
  let '(p, s) := next_stamp now p in mark_live t s p.
Definition stamp_tombstone (now : Z) (t : StampTarget) (uuid : N) (p : Peer) : Peer :=
  let '(p, s) := next_stamp now p in mark_tombstoned t s uuid p.

Definition observe (now : Z) (s : Stamp) (p : Peer) : Peer :=
  put_clock (HlcClock.update (clock p) (stamp_hlc s) now) p.

Definition current_stamp (p : Peer) (t : StampTarget) : option Stamp :=
  match stamp_of p t with
  | Some s => Some s
  | None => tomb_stamp <$> tombstones p !! t
  end.

Definition version_vector (p : Peer) : VersionVector :=
  foldl VV.observe (foldl VV.observe VV.new (map_to_list (stamps p)).*2)
    (tomb_stamp <$> (map_to_list (tombstones p)).*2).

(** ** Local writes *)
Section writes.
Context {text : JsonText}.

(** The record a delete is about to remove: its uuid goes into the tombstone. *)
Definition captured_uuid (g : NativeGraph) (op : GraphOp) : option N :=
  match op with
  | DoDeleteNode id => n_uuid <$> nodes (inner g) !! id
  | DoDeleteEdge id => e_uuid <$> edges (inner g) !! id
  | _ => None
  end.

(** The stamp a logged write leaves. *)
Definition stamp_op (now : Z) (uuid : option N) (w : WalOp) (p : Peer) : Peer :=
  match w with
  | UpsertNode n => stamp_write now (TNode (n_id n)) p
  | UpsertEdge e => stamp_write now (TEdge (e_id e)) p
  | DeleteNode id => from_option (fun u => stamp_tombstone now (TNode id) u p) p uuid
  | DeleteEdge id => from_option (fun u => stamp_tombstone now (TEdge id) u p) p uuid
  | _ => p
  end.

Definition write (sys : Sys) (now : Z) (op : GraphOp) : ST Peer CoreError unit := fun p =>
  let uuid := captured_uuid (engine p) op in
  match direct_apply sys op (engine p) with
  | (g, Err e) => (put_engine g p, Err e)
  | (g, Ok w) =>
      match direct_record sys w g with
      | (g, Err e) => (put_engine g p, Err e)
      | (g, Ok _) => (stamp_op now uuid w (put_engine g p), Ok tt)
      end
  end.

(** ** What a peer is missing *)
Definition live_change (i : Inner) (e : StampTarget * Stamp) : option StampedChange :=
  match e.1 with
  | TNode id => (fun n => ChNode n e.2) <$> nodes i !! id
  | TEdge id =>
      edge ← edges i !! id;
      from ← nodes i !! e_from edge;
      to ← nodes i !! e_to edge;
      Some (ChEdge (mkStampedEdge edge (n_uuid from) (n_uuid to) e.2))
  end.

Definition dead_change (e : StampTarget * Tomb) : StampedChange :=
  match e.1 with
  | TNode _ => ChDeleteNode (tomb_uuid e.2) (tomb_stamp e.2)
  | TEdge _ => ChDeleteEdge (tomb_uuid e.2) (tomb_stamp e.2)
  end.

Definition delta_since (p : Peer) (remote : VersionVector) : Delta :=
  omap (live_change (inner (engine p)))
    (filter (fun e => VV.dominates remote e.2 = false) (map_to_list (stamps p))) ++
  (dead_change <$> filter (fun e => VV.dominates remote (tomb_stamp e.2) = false) (map_to_list (tombstones p))).

(** ** Folding a delta in *)
Record Remap : Type := mkRemap {
  rm_node : gmap N N;
  rm_edge : gmap N N;
  rm_tomb : gmap N StampTarget;
}.

(** [collect]ing pairs into a map: a later pair replaces an earlier one. *)
Definition collect {A} (l : list (N * A)) : gmap N A := foldl (fun m e => <[e.1 := e.2]> m) ∅ l.

Definition build_remap (p : Peer) : Remap :=
  let i := inner (engine p) in
  mkRemap (collect ((fun n => (n_uuid n, n_id n)) <$> (map_to_list (nodes i)).*2))
    (collect ((fun e => (e_uuid e, e_id e)) <$> (map_to_list (edges i)).*2))
    (collect ((fun e => (tomb_uuid e.2, e.1)) <$> map_to_list (tombstones p))).

Definition tomb_node (r : Remap) (uuid : N) : option StampTarget :=
  match rm_tomb r !! uuid with Some (TNode id) => Some (TNode id) | _ => None end.
Definition tomb_edge (r : Remap) (uuid : N) : option StampTarget :=
  match rm_tomb r !! uuid with Some (TEdge id) => Some (TEdge id) | _ => None end.

Definition node_target (r : Remap) (uuid : N) : option StampTarget :=
  match rm_node r !! uuid with Some id => Some (TNode id) | None => tomb_node r uuid end.
Definition edge_target (r : Remap) (uuid : N) : option StampTarget :=
  match rm_edge r !! uuid with Some id => Some (TEdge id) | None => tomb_edge r uuid end.

(** [self.current_stamp(t).is_some_and(|local| local >= incoming)]. *)
Definition outdated (p : Peer) (t : option StampTarget) (incoming : Stamp) : bool :=
  match t with
  | Some t => match current_stamp p t with Some local => negb (stamp_ltb local incoming) | None => false end
  | None => false
  end.

Definition set_node_id (id : N) (n : Node) : Node :=
  mkNode id (n_uuid n) (n_kind n) (n_title n) (n_body n) (n_body_html n) (n_created_at n)
    (n_updated_at n) (n_properties n).
Definition set_edge_ids (id from to : N) (e : Edge) : Edge :=
  mkEdge id (e_uuid e) from to (e_kind e) (e_weight e) (e_created_at e) (e_properties e).

Abbreviation Merge := (ST (Peer * Remap) CoreError bool).

(** The locked part of a merge: [op] applied and noted. *)
Definition install (touched : ConflictSet) (ids : IdCounters) (op : WalOp) (g : NativeGraph) : NativeGraph :=
  let '(ids, i) := apply_wal_op op (ids, inner g) in commit_inner i touched (put_ids ids g).

Definition apply_node_upsert (sys : Sys) (now : Z) (n : Node) (incoming : Stamp) : Merge := fun '(p, r) =>
  let uuid := n_uuid n in
  let cur := node_target r uuid in
  if outdated p cur incoming then ((p, r), Ok false)
  else match write_for_commit (engine p) with
  | (g, Err e) => ((put_engine g p, r), Err e)
  | (g, Ok _) =>
      let '(ids, id) := match cur with Some (TNode id) => (g_ids g, id) | _ => Ids.next_node (g_ids g) end in
      let new := set_node_id id n in
      match io_as IoErr (record sys [UpsertNode new]) (install (cs_node id) ids (UpsertNode new) g) with
      | (g, Err e) => ((put_engine g p, r), Err e)
      | (g, Ok _) =>
          ((observe now incoming (mark_live (TNode id) incoming (put_engine g p)),
            mkRemap (<[uuid := id]> (rm_node r)) (rm_edge r) (delete uuid (rm_tomb r))), Ok true)
      end
  end.

Definition apply_edge_upsert (sys : Sys) (now : Z) (se : StampedEdge) : Merge := fun '(p, r) =>
  match rm_node r !! se_from_uuid se, rm_node r !! se_to_uuid se with
  | Some from, Some to =>
      let uuid := e_uuid (se_edge se) in
      let cur := edge_target r uuid in
      if outdated p cur (se_stamp se) then ((p, r), Ok false)
      else match write_for_commit (engine p) with
      | (g, Err e) => ((put_engine g p, r), Err e)
      | (g, Ok _) =>
          let '(ids, id) := match cur with Some (TEdge id) => (g_ids g, id) | _ => Ids.next_edge (g_ids g) end in
          let new := set_edge_ids id from to (se_edge se) in
          match io_as IoErr (record sys [UpsertEdge new]) (install (cs_edge id from to) ids (UpsertEdge new) g) with
          | (g, Err e) => ((put_engine g p, r), Err e)
          | (g, Ok _) =>
              ((observe now (se_stamp se) (mark_live (TEdge id) (se_stamp se) (put_engine g p)),
                mkRemap (rm_node r) (<[uuid := id]> (rm_edge r)) (delete uuid (rm_tomb r))), Ok true)
          end
      end
  | _, _ => ((p, r), Ok false)
  end.

(** The removal of a live record, or of none, or the id that anchors the
    tombstone of an entity never seen. *)
Definition remove_or_mint (sys : Sys) (is_node : bool) (live : option N) (cur : option StampTarget) :
    ST NativeGraph CoreError StampTarget := fun g =>
  match cur with
  | Some t =>
      match live with
      | Some id =>
          let op := if is_node then DeleteNode id else DeleteEdge id in
          match write_for_commit g with
          | (g, Err e) => (g, Err e)
          | (g, Ok _) =>
              match io_as IoErr (record sys [op]) (install (from_ops [op]) (g_ids g) op g) with
              | (g, Err e) => (g, Err e)
              | (g, Ok _) => (g, Ok t)
              end
          end
      | None => (g, Ok t)
      end
  | None =>
      match write_for_commit g with
      | (g, Err e) => (g, Err e)
      | (g, Ok _) =>
          let '(ids, id) := if is_node then Ids.next_node (g_ids g) else Ids.next_edge (g_ids g) in
          (commit_inner (inner g) cs_empty (put_ids ids g), Ok (if is_node then TNode id else TEdge id))
      end
  end.

Definition apply_delete (sys : Sys) (now : Z) (uuid : N) (incoming : Stamp) (is_node : bool) : Merge := fun '(p, r) =>
  let live := if is_node then rm_node r !! uuid else rm_edge r !! uuid in
  let cur := if is_node then node_target r uuid else edge_target r uuid in
  if outdated p cur incoming then ((p, r), Ok false)
  else match remove_or_mint sys is_node live cur (engine p) with
  | (g, Err e) => ((put_engine g p, r), Err e)
  | (g, Ok t) =>
      ((observe now incoming (mark_tombstoned t incoming uuid (put_engine g p)),
        mkRemap (if is_node then delete uuid (rm_node r) else rm_node r)
          (if is_node then rm_edge r else delete uuid (rm_edge r)) (<[uuid := t]> (rm_tomb r))), Ok true)
  end.

Definition apply_change (sys : Sys) (now : Z) (c : StampedChange) : Merge :=
  match c with
  | ChNode n s => apply_node_upsert sys now n s
  | ChEdge se => apply_edge_upsert sys now se
  | ChDeleteNode uuid s => apply_delete sys now uuid s true
  | ChDeleteEdge uuid s => apply_delete sys now uuid s false
  end.

(** [sort_by_key(apply_phase)], which is stable. *)
Definition by_phase (d : Delta) : Delta :=
  flat_map (fun k => filter (fun c => apply_phase c = k) d) [0; 1; 2; 3].

(** The physical clock is read once per change. *)
Fixpoint apply_loop (sys : Sys) (nows : list Z) (cs : Delta) (stats : ApplyStats) :
    ST (Peer * Remap) CoreError ApplyStats := fun st =>
  match cs with
  | [] => (st, Ok stats)
  | c :: cs =>
      match apply_change sys (hd 0%Z nows) c st with
      | (st, Err e) => (st, Err e)
      | (st, Ok won) =>
          apply_loop sys (tail nows) cs
            (if won then mkApplyStats (applied stats + 1) (skipped stats)
             else mkApplyStats (applied stats) (skipped stats + 1)) st
      end
  end.

Definition apply_delta (sys : Sys) (nows : list Z) (d : Delta) : ST Peer CoreError ApplyStats := fun p =>
  match apply_loop sys nows (by_phase d) (mkApplyStats 0 0) (p, build_remap p) with
  | ((p, _), r) => (p, r)
  end.

(** An exchange in one direction. *)
Definition pull (sys : Sys) (nows : list Z) (from : Peer) : ST Peer CoreError ApplyStats := fun p =>
  apply_delta sys nows (delta_since from (version_vector p)) p.
End writes.
