(* ===== verification/ReplicationSpec.v ===== *)
(** * Deltas converge: what exchanges between peers guarantee

    [Replication] against last-writer-wins registers.  [registers p] is the
    register of every node uuid a peer holds, live or deleted; [tidy] is the
    invariant that ties the two tables to the graph. *)
From S2P Require Import Prelude NativeModel Native NativeInv NativeOps Conflict NativeTx Crdt Replication.
Local Open Scope list_scope.
Local Open Scope N_scope.

(** ** The engine under a peer *)

(** An engine that takes every write: its log works, it is not fenced. *)
Record plain (g : NativeGraph) : Prop := {
  plain_log : match wal g with Some w => wal_broken w = false | None => True end;
  plain_prepared : prepared (inner g) = ∅;
  plain_open : read_only g = false;
}.

Definition sys_ok (sys : Sys) : Prop := sys_encodes sys = true /\ sys_flushes sys = true.

(** Every edge has a uuid in [P]. *)
Definition edges_in (P : N -> Prop) (i : Inner) : Prop := forall id e, edges i !! id = Some e -> P (e_uuid e).

Section engine.
Context {text : JsonText}.

Lemma plain_write g : plain g -> write_for_commit g = (g, Ok tt).
Proof.
  intros [_ Hp Hr]. unfold write_for_commit, write_unless_read_only. rewrite Hr. simpl.
  unfold has_prepared. by rewrite Hp.
Qed.

Lemma plain_record sys ops g : sys_ok sys -> plain g -> exists g',
  record sys ops g = (g', Ok tt) /\ plain g' /\ inner g' = inner g /\ g_ids g' = g_ids g.
Proof.
  intros [He Hf] [Hl Hp Hr]. unfold record, record_split.
  destruct ops as [|o ops]; [by exists g|].
  destruct (wal g) as [w|] eqn:Hw.
  - rewrite He. cbn [negb]. rewrite Hl, Hf. eexists. split; [done|]. split; [by split|done].
  - eexists. split; [done|]. split; [by split|done].
Qed.

Lemma plain_install touched ids op g : plain g ->
  prepared (apply_wal_op op (ids, inner g)).2 = ∅ -> plain (install touched ids op g).
Proof.
  intros [Hl Hp Hr] Ha. unfold install. destruct (apply_wal_op op (ids, inner g)) as [ids' i]. by split.
Qed.

Lemma install_inner touched ids op g : let st := apply_wal_op op (ids, inner g) in
  nodes (inner (install touched ids op g)) = nodes st.2 /\ edges (inner (install touched ids op g)) = edges st.2 /\
  g_ids (install touched ids op g) = st.1.
Proof. unfold install. by destruct (apply_wal_op op (ids, inner g)). Qed.

(** *** Replayed operations *)
Lemma upsert_node_effect n ids i : let st := apply_wal_op (UpsertNode n) (ids, i) in
  nodes st.2 = <[n_id n := n]> (nodes i) /\ edges st.2 = edges i /\ prepared st.2 = prepared i /\
  last_node st.1 = N.max (last_node ids) (n_id n).
Proof.
  rewrite apply_upsert_node. unfold upsert_node.
  destruct (nodes i !! n_id n); cbn -[bucket_remove bucket_insert unique_del unique_add]; done.
Qed.

Lemma store_edge_effect e i : nodes (store_edge e i) = nodes i /\ prepared (store_edge e i) = prepared i /\
  edges (store_edge e i) = <[e_id e := e]> (edges i).
Proof. unfold store_edge, link_edge, intern_kind. by destruct (kind_ids i !! e_kind e). Qed.

Lemma remove_edge_effect id i : nodes (remove_edge id i) = nodes i /\ prepared (remove_edge id i) = prepared i /\
  edges (remove_edge id i) = delete id (edges i).
Proof.
  unfold remove_edge. destruct (edges i !! id) as [e|] eqn:He; [done|].
  split; [done|]. split; [done|]. by rewrite delete_id.
Qed.

Lemma upsert_edge_effect e ids i : let st := apply_wal_op (UpsertEdge e) (ids, i) in
  nodes st.2 = nodes i /\ edges st.2 = <[e_id e := e]> (delete (e_id e) (edges i)) /\
  prepared st.2 = prepared i /\ last_node st.1 = last_node ids.
Proof.
  rewrite apply_upsert_edge. change (upsert_edge e (ids, i)) with
    (Ids.observe_edge (e_id e) ids, store_edge e (remove_edge (e_id e) i)). cbn [fst snd].
  destruct (store_edge_effect e (remove_edge (e_id e) i)) as (-> & -> & ->).
  by destruct (remove_edge_effect (e_id e) i) as (-> & -> & ->).
Qed.

Lemma remove_edges_effect l i : nodes (remove_edges l i) = nodes i /\ prepared (remove_edges l i) = prepared i /\
  forall id, edges (remove_edges l i) !! id = None \/ edges (remove_edges l i) !! id = edges i !! id.
Proof.
  revert i. induction l as [|a l IH]; intros i; [by eauto|]. cbn [remove_edges foldl].
  destruct (IH (remove_edge a i)) as (Hn & Hp & He). unfold remove_edges in *. rewrite Hn, Hp.
  destruct (remove_edge_effect a i) as (H1 & H2 & H3). split; [done|]. split; [done|]. intros id.
  destruct (He id) as [->|Heq]; [by left|]. rewrite Heq, H3, lookup_delete. case_decide; eauto.
Qed.

Lemma drop_node_effect id n i : nodes (drop_node id n i) = delete id (nodes i) /\
  prepared (drop_node id n i) = prepared i /\
  forall k, edges (drop_node id n i) !! k = None \/ edges (drop_node id n i) !! k = edges i !! k.
Proof.
  unfold drop_node. destruct (remove_edges_effect (a_edge <$> incident_entries i id Both) i) as (Hn & Hp & He).
  remember (remove_edges _ i) as i' eqn:E. clear E. cbn -[unique_del bucket_remove]. by rewrite Hn, Hp.
Qed.

Lemma merge_delete_node id ids i : apply_wal_op (DeleteNode id) (ids, i) =
  (ids, match nodes i !! id with Some n => drop_node id n i | None => i end).
Proof. unfold apply_wal_op. simpl. by destruct (nodes i !! id). Qed.

Lemma merge_delete_edge id ids i : apply_wal_op (DeleteEdge id) (ids, i) = (ids, remove_edge id i).
Proof. done. Qed.

(** *** Direct operations *)

(** The node a logged operation stores or removes, and how the counter moves. *)
Definition node_change (env : Env) (op : GraphOp) (st st' : GState) (w : WalOp) : Prop :=
  match w with
  | UpsertNode n => nodes st'.2 = <[n_id n := n]> (nodes st.2) /\
      (((exists nn, op = DoCreateNode nn) /\ n_id n = wrap_u64 (last_node st.1 + 1) /\
        n_uuid n = env_uuid env /\ last_node st'.1 = n_id n) \/
       exists old, nodes st.2 !! n_id n = Some old /\ n_uuid n = n_uuid old /\ last_node st'.1 = last_node st.1)
  | DeleteNode id => op = DoDeleteNode id /\ nodes st'.2 = delete id (nodes st.2) /\ is_Some (nodes st.2 !! id) /\
      last_node st'.1 = last_node st.1
  | UpsertEdge e => nodes st'.2 = nodes st.2 /\ last_node st'.1 = last_node st.1
  | DeleteEdge id => op = DoDeleteEdge id /\ nodes st'.2 = nodes st.2 /\ last_node st'.1 = last_node st.1 /\
      is_Some (edges st.2 !! id)
  | _ => False
  end.

Definition keyed (ns : gmap N Node) : Prop := forall id n, ns !! id = Some n -> n_id n = id.

Lemma update_edge_effect id p i : let i' := (update_edge id p i).1 in
  nodes i' = nodes i /\ prepared i' = prepared i /\
  forall P, edges_in P i -> edges_in P i'.
Proof.
  intros i'. unfold i', update_edge.
  destruct (match ep_weight p with Some w => _ | None => _ end); [|done].
  destruct (edges i !! id) as [old|] eqn:Ho; [|done].
  set (new := mkEdge _ _ _ _ _ _ _ _).
  assert (He : forall P j, edges j = edges i -> edges_in P i -> edges_in P (with_edges (<[id := new]> (edges j)) j)).
  { intros P j Hj Hin k e. cbn. rewrite Hj, lookup_insert. case_decide; [|apply Hin].
    intros [= <-]. by apply (Hin id old). }
  destruct (ep_kind p); [|split; [done|]; split; [done|]; intros P; by apply He].
  unfold intern_kind. destruct (kind_ids i !! _); (split; [done|]; split; [done|]); intros P; by apply He.
Qed.

(** The uuid of a new edge is in [P]. *)
Definition brings (op : GraphOp) (env : Env) (P : N -> Prop) : Prop :=
  match op with DoCreateEdge _ => P (env_uuid env) | _ => True end.

Lemma log_op_effect env op ids i : keyed (nodes i) ->
  let r := log_op env true op (ids, i) in
  prepared r.1.2 = prepared i /\
  (forall P, brings op env P -> edges_in P i -> edges_in P r.1.2) /\
  match r.2 with
  | Err _ => nodes r.1.2 = nodes i /\
      (last_node r.1.1 = last_node ids \/ last_node r.1.1 = wrap_u64 (last_node ids + 1))
  | Ok w => node_change env op (ids, i) r.1 w
  end.
Proof.
  intros Hk. unfold log_op. destruct op as [n|id p|id|e|id p|id]; cbv zeta.
  - destruct (create_node_cases env n true ids i) as [[e ->]|(_ & _ & ->)]; cbn.
    + split; [done|]. split; [done|]. split; [done|by right].
    + split; [done|]. split; [done|]. split; [done|]. left. by split; [eexists|].
  - cbn [on_inner]. destruct (update_node_cases env id p true i)
      as [[e ->]|(old & n' & ts' & ks' & t & Ho & Hn' & _ & _ & _ & _ & _ & ->)]; cbn.
    + split; [done|]. split; [done|]. split; [done|by left].
    + split; [done|]. split; [done|]. pose proof (Hk _ _ Ho) as Hid.
      assert (n_id n' = id) as -> by by rewrite Hn'. split; [done|]. right. exists old.
      split; [done|]. split; [by rewrite Hn'|done].
  - cbn [on_inner]. unfold delete_node. destruct (nodes i !! id) as [n|] eqn:Hn; cbn [fst snd].
    + destruct (drop_node_effect id n i) as (H1 & H2 & H3). split; [done|]. split.
      * intros P _ Hin k e He. destruct (H3 k) as [Hnone|Heq]; [congruence|]. rewrite Heq in He. by eapply Hin.
      * split; [done|]. split; [done|]. split; [simpl; by rewrite Hn|done].
    + split; [done|]. split; [done|]. split; [done|by left].
  - destruct (create_edge_cases env e ids i) as [[err ->]|(_ & _ & _ & ->)]; cbn [fst snd].
    + split; [done|]. split; [done|]. split; [done|by left].
    + set (new := into_edge env e _). destruct (store_edge_effect new i) as (H1 & H2 & H3).
      split; [done|]. split; [|by split]. intros P Hp Hin k e'. rewrite H3, lookup_insert.
      case_decide; [intros [= <-]; done|apply Hin].
  - cbn [on_inner]. pose proof (update_edge_effect id p i) as (H1 & H2 & H3).
    destruct (update_edge id p i) as [i' [e|err]]; cbn [fst snd] in *.
    + split; [done|]. split; [by auto|]. by split.
    + split; [done|]. split; [by auto|]. split; [done|by left].
  - cbn [on_inner]. unfold delete_edge. destruct (edges i !! id) as [e|] eqn:He; cbn [fst snd].
    + destruct (remove_edge_effect id i) as (H1 & H2 & H3). split; [done|]. split.
      * intros P _ Hin k e'. rewrite H3, lookup_delete. case_decide; [done|apply Hin].
      * split; [done|]. split; [done|]. split; [done|simpl; by rewrite He].
    + split; [done|]. split; [done|]. split; [done|by left].
Qed.

Lemma direct_apply_effect sys op g : plain g -> keyed (nodes (inner g)) ->
  let r := direct_apply sys op g in
  plain r.1 /\
  (forall P, brings op (sys_env sys) P -> edges_in P (inner g) -> edges_in P (inner r.1)) /\
  match r.2 with
  | Err _ => nodes (inner r.1) = nodes (inner g) /\
      (last_node (g_ids r.1) = last_node (g_ids g) \/ last_node (g_ids r.1) = wrap_u64 (last_node (g_ids g) + 1))
  | Ok w => node_change (sys_env sys) op (g_ids g, inner g) (g_ids r.1, inner r.1) w
  end.
Proof.
  intros Hg Hk. pose proof (log_op_effect (sys_env sys) op (g_ids g) (inner g) Hk) as (Hp & He & Hm).
  unfold direct_apply. rewrite plain_write by done. destruct Hg as [H1 H2 H3].
  destruct (log_op _ _ _ _) as [[ids i] [w|e]]; cbn [fst snd] in *.
  - split; [split; [done|by rewrite <- H2, <- Hp|done]|]. split; [done|]. by destruct w.
  - split; [split; [done|by rewrite <- H2, <- Hp|done]|]. split; [done|]. done.
Qed.
End engine.

(** ** The registers of a peer *)
Abbreviation Reg := (LwwRegister (option Node)).

(** A record without its local id. *)
Definition body (n : Node) : Node := set_node_id 0 n.

Definition live_nodes (p : Peer) : gmap N Node := nodes (inner (engine p)).

(** What a peer knows of the node [u]: its record and stamp, or its deletion. *)
Definition holds (p : Peer) (u : N) (r : Reg) : Prop :=
  (exists id n s, live_nodes p !! id = Some n /\ n_uuid n = u /\ stamps p !! TNode id = Some s /\
     r = mkReg (Some (body n)) s) \/
  (exists id s, tombstones p !! TNode id = Some (mkTomb s u) /\ r = mkReg None s).

Definition live_register (p : Peer) (e : N * Node) : option (N * Reg) :=
  (fun s => (n_uuid e.2, mkReg (Some (body e.2)) s)) <$> stamps p !! TNode e.1.
Definition dead_register (e : StampTarget * Tomb) : option (N * Reg) :=
  match e.1 with TNode _ => Some (tomb_uuid e.2, mkReg None (tomb_stamp e.2)) | TEdge _ => None end.

Definition registers (p : Peer) : gmap N Reg :=
  list_to_map (omap (live_register p) (map_to_list (live_nodes p)) ++
               omap dead_register (map_to_list (tombstones p))).

(** All stamps of a peer. *)
Definition all_stamps (p : Peer) : list Stamp :=
  (map_to_list (stamps p)).*2 ++ (tomb_stamp <$> (map_to_list (tombstones p)).*2).

(** Peers by their origin. *)
Abbreviation Peers := (gmap OriginId Peer).

Section peers.
Context {text : JsonText}.
(** The uuids of nodes; those of edges are others. *)
Context (is_node : N -> bool).

Record tidy (p : Peer) : Prop := {
  t_plain : plain (engine p);
  t_keyed : keyed (live_nodes p);
  t_node : forall id n, live_nodes p !! id = Some n -> is_node (n_uuid n) = true;
  t_edges : edges_in (fun u => is_node u = false) (inner (engine p));
  t_unique : forall i j n m, live_nodes p !! i = Some n -> live_nodes p !! j = Some m ->
    n_uuid n = n_uuid m -> i = j;
  t_stamped : forall id, is_Some (live_nodes p !! id) <-> is_Some (stamps p !! TNode id);
  t_counted : forall id, is_Some (live_nodes p !! id) \/ is_Some (tombstones p !! TNode id) ->
    id <= last_node (g_ids (engine p));
  t_dead : forall id t, tombstones p !! TNode id = Some t -> live_nodes p !! id = None /\
    is_node (tomb_uuid t) = true /\ forall j n, live_nodes p !! j = Some n -> n_uuid n <> tomb_uuid t;
  t_dead_unique : forall i j t t', tombstones p !! TNode i = Some t -> tombstones p !! TNode j = Some t' ->
    tomb_uuid t = tomb_uuid t' -> i = j;
  t_dead_edge : forall id t, tombstones p !! TEdge id = Some t -> is_node (tomb_uuid t) = false;
}.

Lemma holds_unique p u r r' : tidy p -> holds p u r -> holds p u r' -> r = r'.
Proof.
  intros T [(i & n & s & Hn & Hu & Hs & ->)|(i & s & Ht & ->)] [(j & m & s' & Hm & Hu' & Hs' & ->)|(j & s' & Ht' & ->)].
  - assert (i = j) as <- by (eapply (t_unique _ T); [done|done|congruence]). congruence.
  - destruct (t_dead _ T _ _ Ht') as (_ & _ & Hno). by destruct (Hno i n Hn).
  - destruct (t_dead _ T _ _ Ht) as (_ & _ & Hno). by destruct (Hno j m Hm).
  - assert (i = j) as <- by (eapply (t_dead_unique _ T); done). congruence.
Qed.

Lemma registers_list p u r : (u, r) ∈ omap (live_register p) (map_to_list (live_nodes p)) ++
    omap dead_register (map_to_list (tombstones p)) <-> holds p u r.
Proof.
  rewrite elem_of_app, !list_elem_of_omap. unfold holds. split.
  - intros [([id n] & Hin & He)|([t tb] & Hin & He)]; apply elem_of_map_to_list in Hin.
    + left. unfold live_register in He. simpl in He. destruct (stamps p !! TNode id) as [s|] eqn:Hs; [|done].
      injection He as <- <-. eauto 10.
    + right. unfold dead_register in He. simpl in He. destruct t as [id|]; [|done]. injection He as <- <-.
      exists id, (tomb_stamp tb). by destruct tb.
  - intros [(id & n & s & Hn & <- & Hs & ->)|(id & s & Ht & ->)].
    + left. exists (id, n). split; [by apply elem_of_map_to_list|]. unfold live_register. simpl. by rewrite Hs.
    + right. exists (TNode id, mkTomb s u). split; [by apply elem_of_map_to_list|done].
Qed.

Lemma registers_holds p u r : tidy p -> registers p !! u = Some r <-> holds p u r.
Proof.
  intros T. rewrite <- registers_list. unfold registers. split.
  - apply elem_of_list_to_map_2.
  - intros Hin. destruct (list_to_map _ !! u) as [r'|] eqn:Hr.
    + apply elem_of_list_to_map_2, registers_list in Hr. apply registers_list in Hin.
      by rewrite (holds_unique p u r r' T Hin Hr).
    + apply not_elem_of_list_to_map_2 in Hr. destruct Hr. apply list_elem_of_fmap. by exists (u, r).
Qed.

Lemma registers_none p u : tidy p -> registers p !! u = None <-> forall r, ~ holds p u r.
Proof.
  intros T. split.
  - intros Hn r Hr%registers_holds; [congruence|done].
  - intros Hno. destruct (registers p !! u) as [r|] eqn:Hr; [|done]. apply registers_holds in Hr; [|done].
    by destruct (Hno r).
Qed.

Lemma registers_node p u r : tidy p -> registers p !! u = Some r -> is_node u = true.
Proof.
  intros T Hr. apply registers_holds in Hr as [(id & n & s & Hn & <- & _)|(id & s & Ht & _)]; [| |done].
  - by eapply (t_node _ T).
  - by apply (t_dead _ T) in Ht as (_ & ? & _).
Qed.

(** Two peers that hold the same. *)
Lemma registers_ext p q : tidy p -> tidy q -> (forall u r, holds p u r <-> holds q u r) -> registers p = registers q.
Proof.
  intros Tp Tq H. apply map_eq. intros u. apply option_eq. intros r. by rewrite !registers_holds, H.
Qed.

(** *** The remap tables *)
Record remap_ok (p : Peer) (r : Remap) : Prop := {
  rm_nodes : forall u id, rm_node r !! u = Some id <-> exists n, live_nodes p !! id = Some n /\ n_uuid n = u;
  rm_tombs : forall u id, is_node u = true ->
    tomb_node r u = Some (TNode id) <-> exists s, tombstones p !! TNode id = Some (mkTomb s u);
}.

Lemma collect_some {A} (l : list (N * A)) k a : NoDup l.*1 -> collect l !! k = Some a <-> (k, a) ∈ l.
Proof.
  unfold collect. intros Hnd.
  assert (H : forall m : gmap N A, foldl (fun m e => <[e.1 := e.2]> m) m l !! k = Some a <->
    (k, a) ∈ l \/ ((k ∉ l.*1) /\ m !! k = Some a)).
  { induction l as [|[k' a'] l IH]; intros m; simpl.
    - split; [intros H; right; split; [set_solver|done]|]. intros [H|[_ H]]; [by apply elem_of_nil in H|done].
    - apply NoDup_cons in Hnd as [Hk Hnd]. rewrite (IH Hnd). rewrite elem_of_cons, not_elem_of_cons, lookup_insert.
      split.
      + intros [?|[Hni Hl]]; [by left; right|]. case_decide as Hd; [injection Hl as ->; left; left; by subst|].
        right; split; [split; [by intros ->|done]|done].
      + intros [[[= <- <-]|?]|[[Hne Hni] Hl]]; [right; split; [done|by rewrite decide_True]|by left|].
        right. split; [done|]. by rewrite decide_False by (by intros <-). }
  rewrite H. split; [intros [?|[_ Hl]]; [done|]|by left]. by rewrite lookup_empty in Hl.
Qed.

Lemma collect_lookup {A} (l : list (N * A)) k a : collect l !! k = Some a -> (k, a) ∈ l.
Proof.
  unfold collect. assert (H : forall m : gmap N A, foldl (fun m e => <[e.1 := e.2]> m) m l !! k = Some a ->
    (k, a) ∈ l \/ m !! k = Some a).
  { induction l as [|[k' a'] l IH]; intros m; simpl; [by right|]. intros [?|Hl]%IH; [left; by right|].
    rewrite lookup_insert in Hl. case_decide; [|by right]. left. injection Hl as <-. subst. by left. }
  intros [?|Hl]%H; [done|]. by rewrite lookup_empty in Hl.
Qed.

Lemma collect_none {A} (l : list (N * A)) k : collect l !! k = None -> k ∉ l.*1.
Proof.
  unfold collect. assert (H : forall m : gmap N A, foldl (fun m e => <[e.1 := e.2]> m) m l !! k = None ->
    (k ∉ l.*1) /\ m !! k = None).
  { induction l as [|[k' a'] l IH]; intros m; simpl; [by split; [apply not_elem_of_nil|]|].
    intros [Hni Hl]%IH. rewrite lookup_insert in Hl. case_decide; [done|].
    split; [|done]. apply not_elem_of_cons. by split; [intros ->|]. }
  intros H'. by apply H in H' as [? _].
Qed.

Lemma build_remap_ok p : tidy p -> remap_ok p (build_remap p).
Proof.
  intros T. split.
  - intros u id. unfold build_remap. cbn [rm_node]. split.
    + intros Hc%collect_lookup. apply list_elem_of_fmap in Hc as (n & [= -> ->] & Hn).
      apply list_elem_of_fmap in Hn as ([i n'] & -> & Hn%elem_of_map_to_list). simpl.
      exists n'. by rewrite (t_keyed _ T i n' Hn).
    + intros (n & Hn & <-). destruct (collect _ !! n_uuid n) as [id'|] eqn:Hc.
      * apply collect_lookup in Hc. apply list_elem_of_fmap in Hc as (n' & [= Hu ->] & Hn').
        apply list_elem_of_fmap in Hn' as ([i n''] & -> & Hi%elem_of_map_to_list). simpl in *.
        rewrite (t_keyed _ T i n'' Hi). f_equal. by eapply (t_unique _ T).
      * apply collect_none in Hc. destruct Hc. apply list_elem_of_fmap. exists (n_uuid n, n_id n). split; [done|].
        apply list_elem_of_fmap. exists n. split; [done|]. apply list_elem_of_fmap. exists (id, n).
        split; [done|]. by apply elem_of_map_to_list.
  - intros u id Hu. unfold tomb_node, build_remap. cbn [rm_tomb].
    set (l := (fun e => (tomb_uuid e.2, e.1)) <$> map_to_list (tombstones p)).
    assert (Hl : forall t, (u, t) ∈ l -> exists j s, t = TNode j /\ tombstones p !! TNode j = Some (mkTomb s u)).
    { intros t Ht. apply list_elem_of_fmap in Ht as ([t' tb] & [= -> ->] & Hin%elem_of_map_to_list). simpl in *.
      destruct t' as [j|j].
      - exists j, (tomb_stamp tb). by destruct tb.
      - by rewrite (t_dead_edge _ T _ _ Hin) in Hu. }
    split.
    + destruct (collect l !! u) as [t|] eqn:Hc; [|done]. apply collect_lookup, Hl in Hc as (j & s & -> & Hj).
      intros [= <-]. eauto.
    + intros (s & Hs). destruct (collect l !! u) as [t|] eqn:Hc.
      * apply collect_lookup, Hl in Hc as (j & s' & -> & Hj). f_equal. f_equal. by eapply (t_dead_unique _ T).
      * apply collect_none in Hc. destruct Hc. apply list_elem_of_fmap. exists (u, TNode id). split; [done|].
        apply list_elem_of_fmap. exists (TNode id, mkTomb s u). split; [done|by apply elem_of_map_to_list].
Qed.

(** *** One entry of the tables changes *)

(** [id] is where the node [u] lives, where its tombstone is, or unused while
    [u] is unknown. *)
Definition owns (p : Peer) (id u : N) : Prop :=
  (exists n, live_nodes p !! id = Some n /\ n_uuid n = u) \/
  (exists s, tombstones p !! TNode id = Some (mkTomb s u)) \/
  (live_nodes p !! id = None /\ tombstones p !! TNode id = None /\ forall r, ~ holds p u r).

Lemma owns_live p id u j n : tidy p -> owns p id u -> live_nodes p !! j = Some n ->
  n_uuid n = u -> j = id.
Proof.
  intros T [(m & Hm & Hu)|[(s & Hs)|(_ & _ & Hno)]] Hn Hnu.
  - eapply (t_unique _ T); [done|done|congruence].
  - destruct (t_dead _ T _ _ Hs) as (_ & _ & Hd). by destruct (Hd j n Hn).
  - destruct (proj1 (t_stamped _ T j)) as [s Hs]; [by rewrite Hn|].
    destruct (Hno (mkReg (Some (body n)) s)). left. eauto 10.
Qed.

Lemma owns_dead p id u j s : tidy p -> owns p id u -> tombstones p !! TNode j = Some (mkTomb s u) -> j = id.
Proof.
  intros T [(m & Hm & Hu)|[(s' & Hs')|(_ & _ & Hno)]] Ht.
  - destruct (t_dead _ T _ _ Ht) as (_ & _ & Hd). by destruct (Hd id m Hm).
  - by eapply (t_dead_unique _ T).
  - destruct (Hno (mkReg None s)). right. eauto.
Qed.

(** Nobody else is at [id]. *)
Lemma owns_at p id u n : owns p id u -> tidy p -> live_nodes p !! id = Some n -> n_uuid n = u.
Proof.
  intros [(m & Hm & Hu)|[(s & Hs)|(Hno & _)]] T Hn; [congruence| |congruence].
  destruct (t_dead _ T _ _ Hs) as (Hd & _). congruence.
Qed.

Lemma owns_tomb p id u t : owns p id u -> tidy p -> tombstones p !! TNode id = Some t -> tomb_uuid t = u.
Proof.
  intros [(m & Hm & Hu)|[(s & Hs)|(_ & Hno & _)]] T Ht; [|by rewrite Hs in Ht; injection Ht as <-|congruence].
  destruct (t_dead _ T _ _ Ht) as (Hd & _). congruence.
Qed.

Lemma registers_insert p p' u r : tidy p -> tidy p' ->
  (forall u' r', holds p' u' r' <-> if decide (u' = u) then r' = r else holds p u' r') ->
  registers p' = <[u := r]> (registers p).
Proof.
  intros T T' H. apply map_eq. intros u'. apply option_eq. intros r'.
  rewrite registers_holds, H, lookup_insert by done.
  destruct (decide (u' = u)) as [->|Hne]; [rewrite decide_True by done; naive_solver|].
  rewrite decide_False by done. by rewrite registers_holds.
Qed.

Lemma put_holds p p' id n s : tidy p -> owns p id (n_uuid n) ->
  live_nodes p' = <[id := n]> (live_nodes p) -> stamps p' = <[TNode id := s]> (stamps p) ->
  tombstones p' = delete (TNode id) (tombstones p) ->
  forall u r, holds p' u r <-> if decide (u = n_uuid n) then r = mkReg (Some (body n)) s else holds p u r.
Proof.
  intros T Ho Hn Hs Ht u r. unfold holds. rewrite Hn, Hs, Ht. case_decide as Hu; [subst u; split|split].
  - intros [(j & m & s' & Hm & Hmu & Hst & ->)|(j & s' & Hd & ->)].
    + destruct (decide (id = j)) as [<-|Hj].
      * rewrite lookup_insert_eq in Hm. rewrite lookup_insert_eq in Hst. congruence.
      * rewrite lookup_insert_ne in Hm by done. destruct Hj. symmetry. by eapply owns_live.
    + rewrite lookup_delete in Hd. case_decide as Hj; [done|]. destruct Hj. f_equal.
      symmetry. by eapply owns_dead.
  - intros ->. left. exists id, n, s. by rewrite !lookup_insert_eq.
  - intros [(j & m & s' & Hm & Hmu & Hst & ->)|(j & s' & Hd & ->)].
    + destruct (decide (id = j)) as [<-|Hj]; [rewrite lookup_insert_eq in Hm; congruence|].
      rewrite lookup_insert_ne in Hm by done. rewrite lookup_insert_ne in Hst by congruence. left. eauto 10.
    + rewrite lookup_delete in Hd. case_decide; [done|]. right. eauto.
  - intros [(j & m & s' & Hm & Hmu & Hst & ->)|(j & s' & Hd & ->)].
    + left. exists j, m, s'. assert (j <> id) by (intros ->; rewrite (owns_at p id _ m Ho T Hm) in Hmu; done).
      rewrite !lookup_insert_ne by congruence. done.
    + right. exists j, s'. assert (j <> id) by (intros ->; by rewrite <- (owns_tomb p id _ _ Ho T Hd) in Hu).
      by rewrite lookup_delete_ne by congruence.
Qed.

Lemma del_holds p p' id u s : tidy p -> owns p id u ->
  live_nodes p' = delete id (live_nodes p) -> stamps p' = delete (TNode id) (stamps p) ->
  tombstones p' = <[TNode id := mkTomb s u]> (tombstones p) ->
  forall u' r, holds p' u' r <-> if decide (u' = u) then r = mkReg None s else holds p u' r.
Proof.
  intros T Ho Hn Hs Ht u' r. unfold holds. rewrite Hn, Hs, Ht. case_decide as Hu; [subst u'; split|split].
  - intros [(j & m & s' & Hm & Hmu & Hst & ->)|(j & s' & Hd & ->)].
    + rewrite lookup_delete in Hm. case_decide as Hj; [done|]. destruct Hj. symmetry. by eapply owns_live.
    + rewrite lookup_insert in Hd. case_decide as Hj; [congruence|]. destruct Hj. f_equal.
      symmetry. by eapply owns_dead.
  - intros ->. right. exists id, s. by rewrite lookup_insert_eq.
  - intros [(j & m & s' & Hm & Hmu & Hst & ->)|(j & s' & Hd & ->)].
    + rewrite lookup_delete in Hm. case_decide as Hj; [done|].
      rewrite lookup_delete_ne in Hst by congruence. left. eauto 10.
    + rewrite lookup_insert in Hd. case_decide as Hj; [congruence|]. right. eauto.
  - intros [(j & m & s' & Hm & Hmu & Hst & ->)|(j & s' & Hd & ->)].
    + left. exists j, m, s'. assert (j <> id) by (intros ->; rewrite (owns_at p id _ m Ho T Hm) in Hmu; done).
      rewrite !lookup_delete_ne by congruence. done.
    + right. exists j, s'. assert (j <> id) by (intros ->; by rewrite <- (owns_tomb p id _ _ Ho T Hd) in Hu).
      by rewrite lookup_insert_ne by congruence.
Qed.

(** What every change keeps. *)
Record carried (p p' : Peer) (id : N) : Prop := {
  c_plain : plain (engine p');
  c_edges : edges_in (fun u => is_node u = false) (inner (engine p'));
  c_counter : last_node (g_ids (engine p)) <= last_node (g_ids (engine p'));
  c_id : id <= last_node (g_ids (engine p'));
}.

Lemma put_node p p' id n s : tidy p -> owns p id (n_uuid n) -> is_node (n_uuid n) = true -> n_id n = id ->
  carried p p' id ->
  live_nodes p' = <[id := n]> (live_nodes p) -> stamps p' = <[TNode id := s]> (stamps p) ->
  tombstones p' = delete (TNode id) (tombstones p) ->
  tidy p' /\ registers p' = <[n_uuid n := mkReg (Some (body n)) s]> (registers p).
Proof.
  intros T Ho Hu Hid [C1 C2 C3 C4] Hn Hs Ht. assert (T' : tidy p').
  { split; [done| | |done| | | | | |]; rewrite ?Hn, ?Hs, ?Ht.
    - intros j m. rewrite lookup_insert. case_decide; [congruence|apply (t_keyed _ T)].
    - intros j m. rewrite lookup_insert. case_decide; [congruence|apply (t_node _ T)].
    - intros i j a b. rewrite !lookup_insert.
      destruct (decide (id = i)) as [<-|Hi], (decide (id = j)) as [<-|Hj]; [done| | |by apply (t_unique _ T)].
      + intros [= <-] Hb Hab. symmetry. by eapply owns_live.
      + intros Ha [= <-] Hab. by eapply owns_live.
    - intros j. rewrite !lookup_insert. destruct (decide (id = j)) as [<-|Hj].
      + rewrite decide_True by done. split; eauto.
      + rewrite decide_False by congruence. apply (t_stamped _ T).
    - intros j. rewrite lookup_insert, lookup_delete. destruct (decide (id = j)) as [<-|Hj]; [done|].
      rewrite decide_False by congruence. intros Hj'%(t_counted _ T). lia.
    - intros j t. rewrite lookup_delete. case_decide as Hj; [done|]. intros Htj.
      destruct (t_dead _ T _ _ Htj) as (H1 & H2 & H3). rewrite lookup_insert_ne by congruence. split; [done|].
      split; [done|]. intros k m. rewrite lookup_insert. case_decide; [|by apply H3]. intros [= <-] Heq.
      destruct Hj. f_equal. symmetry. apply (owns_dead p id (n_uuid n) j (tomb_stamp t)); [done|done|]. rewrite Htj, Heq. by destruct t.
    - intros i j a b. rewrite !lookup_delete. repeat case_decide; try done. apply (t_dead_unique _ T).
    - intros j t. rewrite lookup_delete. case_decide; [done|]. apply (t_dead_edge _ T). }
  split; [done|]. apply registers_insert; [done|done|]. by eapply put_holds.
Qed.

Lemma del_node p p' id u s : tidy p -> owns p id u -> is_node u = true -> carried p p' id ->
  live_nodes p' = delete id (live_nodes p) -> stamps p' = delete (TNode id) (stamps p) ->
  tombstones p' = <[TNode id := mkTomb s u]> (tombstones p) ->
  tidy p' /\ registers p' = <[u := mkReg None s]> (registers p).
Proof.
  intros T Ho Hu [C1 C2 C3 C4] Hn Hs Ht. assert (T' : tidy p').
  { split; [done| | |done| | | | | |]; rewrite ?Hn, ?Hs, ?Ht.
    - intros j m. rewrite lookup_delete. case_decide; [done|apply (t_keyed _ T)].
    - intros j m. rewrite lookup_delete. case_decide; [done|apply (t_node _ T)].
    - intros i j a b. rewrite !lookup_delete. repeat case_decide; try done. apply (t_unique _ T).
    - intros j. rewrite !lookup_delete. destruct (decide (id = j)) as [<-|Hj].
      + rewrite decide_True by done. by split; intros [? ?].
      + rewrite decide_False by congruence. apply (t_stamped _ T).
    - intros j. rewrite lookup_delete, lookup_insert. destruct (decide (id = j)) as [<-|Hj]; [done|].
      rewrite decide_False by congruence. intros Hj'%(t_counted _ T). lia.
    - intros j t. rewrite lookup_insert. case_decide as Hj.
      + intros [= <-]. injection Hj as <-. rewrite lookup_delete_eq. split; [done|]. split; [done|]. simpl.
        intros k m. rewrite lookup_delete. case_decide as Hk; [done|]. intros Hm Hmu. destruct Hk.
        symmetry. by eapply owns_live.
      + intros Htj. destruct (t_dead _ T _ _ Htj) as (H1 & H2 & H3). rewrite lookup_delete_ne by congruence.
        split; [done|]. split; [done|]. intros k m. rewrite lookup_delete. case_decide; [done|apply H3].
    - intros i j a b. rewrite !lookup_insert.
      destruct (decide (TNode id = TNode i)) as [Hi|Hi], (decide (TNode id = TNode j)) as [Hj|Hj];
        [congruence| | |by apply (t_dead_unique _ T)].
      + intros [= <-] Hb Hab. injection Hi as <-. symmetry. apply (owns_dead p id u j (tomb_stamp b)); [done|done|].
        rewrite Hb. simpl in Hab. rewrite Hab. by destruct b.
      + intros Ha [= <-] Hab. injection Hj as <-. apply (owns_dead p id u i (tomb_stamp a)); [done|done|].
        rewrite Ha. simpl in Hab. rewrite <- Hab. by destruct a.
    - intros j t. rewrite lookup_insert. case_decide; [done|]. apply (t_dead_edge _ T). }
  split; [done|]. apply registers_insert; [done|done|]. by eapply del_holds.
Qed.

(** Changes of edges leave the nodes alone. *)
Lemma frame_nodes p p' : tidy p -> carried p p' 0 -> live_nodes p' = live_nodes p ->
  (forall id, stamps p' !! TNode id = stamps p !! TNode id) ->
  (forall id, tombstones p' !! TNode id = tombstones p !! TNode id) ->
  (forall id t, tombstones p' !! TEdge id = Some t -> is_node (tomb_uuid t) = false) ->
  tidy p' /\ registers p' = registers p.
Proof.
  intros T [C1 C2 C3 _] Hn Hs Ht He. assert (T' : tidy p').
  { split; [done| | |done| | | | | |done]; rewrite ?Hn.
    - apply (t_keyed _ T).
    - apply (t_node _ T).
    - apply (t_unique _ T).
    - intros id. rewrite Hs. apply (t_stamped _ T).
    - intros id. rewrite Ht. intros Hid%(t_counted _ T). lia.
    - intros id t. rewrite Ht. apply (t_dead _ T).
    - intros i j a b. rewrite !Ht. apply (t_dead_unique _ T). }
  split; [done|]. apply registers_ext; [done|done|]. intros u r. unfold holds. rewrite Hn.
  by setoid_rewrite Hs; setoid_rewrite Ht.
Qed.

(** *** One change folded in *)
Lemma node_target_some p r u t : tidy p -> remap_ok p r -> is_node u = true -> node_target r u = Some t ->
  exists id reg, t = TNode id /\ owns p id u /\ id <= last_node (g_ids (engine p)) /\
    holds p u reg /\ current_stamp p t = Some (reg_stamp reg).
Proof.
  intros T R Hu. unfold node_target. destruct (rm_node r !! u) as [id|] eqn:Hn.
  - intros [= <-]. apply (rm_nodes _ _ R) in Hn as (n & Hn & Hnu).
    destruct (proj1 (t_stamped _ T id)) as [s Hs]; [by rewrite Hn|].
    exists id, (mkReg (Some (body n)) s). split; [done|]. split; [left; eauto|].
    split; [apply (t_counted _ T); left; by rewrite Hn|]. split; [left; eauto 10|].
    unfold current_stamp, stamp_of. by rewrite Hs.
  - intros Ht. assert (exists id, t = TNode id) as [id ->].
    { unfold tomb_node in Ht. destruct (rm_tomb r !! u) as [[]|]; [injection Ht as <-; eauto|done|done]. }
    apply (rm_tombs _ _ R _ _ Hu) in Ht as (s & Hs). exists id, (mkReg None s). split; [done|].
    split; [right; left; eauto|]. split; [apply (t_counted _ T); right; by rewrite Hs|].
    split; [right; eauto|]. unfold current_stamp, stamp_of.
    destruct (stamps p !! TNode id) as [s'|] eqn:Hst; [|by rewrite Hs].
    destruct (proj2 (t_stamped _ T id)) as [n Hn']; [by rewrite Hst|].
    destruct (t_dead _ T _ _ Hs) as (Hd & _). congruence.
Qed.

Lemma node_target_none p r u : tidy p -> remap_ok p r -> is_node u = true -> node_target r u = None ->
  forall reg, ~ holds p u reg.
Proof.
  intros T R Hu. unfold node_target. destruct (rm_node r !! u) as [id|] eqn:Hn; [done|]. intros Ht reg.
  intros [(id & n & s & Hl & Hnu & _)|(id & s & Hd & _)].
  - assert (rm_node r !! u = Some id) by (apply (rm_nodes _ _ R); eauto). congruence.
  - assert (tomb_node r u = Some (TNode id)) by (apply (rm_tombs _ _ R _ _ Hu); eauto). congruence.
Qed.

Lemma outdated_registers p r u s : tidy p -> remap_ok p r -> is_node u = true ->
  outdated p (node_target r u) s =
  match registers p !! u with Some reg => negb (stamp_ltb (reg_stamp reg) s) | None => false end.
Proof.
  intros T R Hu. destruct (node_target r u) as [t|] eqn:Ht.
  - destruct (node_target_some p r u t T R Hu Ht) as (id & reg & -> & _ & _ & Hh & Hc).
    apply registers_holds in Hh; [|done]. by rewrite Hh; simpl; rewrite Hc.
  - pose proof (node_target_none p r u T R Hu Ht) as Hno. apply registers_none in Hno; [|done]. by rewrite Hno.
Qed.

Definition change_register (c : StampedChange) : option (N * Reg) :=
  match c with
  | ChNode n s => Some (n_uuid n, mkReg (Some (body n)) s)
  | ChDeleteNode u s => Some (u, mkReg None s)
  | _ => None
  end.

Definition change_ok (c : StampedChange) : Prop :=
  match c with
  | ChNode n _ => is_node (n_uuid n) = true
  | ChDeleteNode u _ => is_node u = true
  | ChEdge se => is_node (e_uuid (se_edge se)) = false
  | ChDeleteEdge u _ => is_node u = false
  end.

Definition merged (m : gmap N Reg) (c : StampedChange) : gmap N Reg :=
  match change_register c with Some e => (merge_entry (m, false) e).1 | None => m end.

Lemma merge_entry_lookup (m : gmap N Reg) u (reg : Reg) : (merge_entry (m, false) (u, reg)).1 =
  match m !! u with
  | Some local => if stamp_ltb (reg_stamp local) (reg_stamp reg) then <[u := reg]> m else m
  | None => <[u := reg]> m
  end.
Proof.
  unfold merge_entry. cbn [fst snd]. destruct (m !! u) as [local|] eqn:Hm; [|done].
  rewrite register_merge_max. unfold reg_max. destruct (stamp_ltb _ _); [done|]. simpl. by apply insert_id.
Qed.

Lemma elem_all_stamps p s : s ∈ all_stamps p <->
  (exists t, stamps p !! t = Some s) \/ (exists t u, tombstones p !! t = Some (mkTomb s u)).
Proof.
  unfold all_stamps. rewrite elem_of_app, !list_elem_of_fmap. split.
  - intros [([t s'] & -> & Hin%elem_of_map_to_list)|(tb & -> & Hin)]; [left; eauto|]. right.
    apply list_elem_of_fmap in Hin as ([t tb'] & -> & Hin%elem_of_map_to_list). exists t, (tomb_uuid tb').
    by destruct tb'.
  - intros [(t & Ht)|(t & u & Ht)].
    + left. exists (t, s). split; [done|by apply elem_of_map_to_list].
    + right. exists (mkTomb s u). split; [done|]. apply list_elem_of_fmap. exists (t, mkTomb s u).
      split; [done|by apply elem_of_map_to_list].
Qed.

(** What a change does to the stamps and the clock. *)
Definition stamped_by (now : Z) (s : Stamp) (p p' : Peer) : Prop := origin p' = origin p /\
  ((all_stamps p' = all_stamps p /\ clock p' = clock p) \/
   ((forall s', s' ∈ all_stamps p' -> s' ∈ all_stamps p \/ s' = s) /\
    clock p' = HlcClock.update (clock p) (stamp_hlc s) now)).

Lemma stamped_live now t s g p :
  stamped_by now s p (observe now s (mark_live t s (put_engine g p))).
Proof.
  split; [done|]. right. split; [|done]. intros s'. rewrite !elem_all_stamps. cbn.
  intros [(t' & Ht)|(t' & u & Ht)].
  - rewrite lookup_insert in Ht. case_decide; [right; congruence|]. left. eauto.
  - rewrite lookup_delete in Ht. case_decide; [done|]. left. eauto.
Qed.

Lemma stamped_dead now t s u g p :
  stamped_by now s p (observe now s (mark_tombstoned t s u (put_engine g p))).
Proof.
  split; [done|]. right. split; [|done]. intros s'. rewrite !elem_all_stamps. cbn.
  intros [(t' & Ht)|(t' & u' & Ht)].
  - rewrite lookup_delete in Ht. case_decide; [done|]. left. eauto.
  - rewrite lookup_insert in Ht. case_decide; [injection Ht as <- _; by right|]. left. eauto 10.
Qed.

Record merges (sys : Sys) (now : Z) (c : StampedChange) (p : Peer) (r : Remap) (p' : Peer) (r' : Remap) : Prop := {
  m_tidy : tidy p';
  m_remap : remap_ok p' r';
  m_registers : registers p' = merged (registers p) c;
  m_counter : last_node (g_ids (engine p')) <= last_node (g_ids (engine p)) + 1;
  m_stamped : stamped_by now (change_stamp c) p p';
}.

Lemma merges_nothing sys now c p r : tidy p -> remap_ok p r -> merged (registers p) c = registers p ->
  merges sys now c p r p r.
Proof. intros T R H. split; [done|done|done|lia|]. split; [done|]. by left. Qed.

Lemma node_upsert_merges sys now n s p r : sys_ok sys -> tidy p -> remap_ok p r ->
  is_node (n_uuid n) = true -> last_node (g_ids (engine p)) + 1 < 2 ^ 64 ->
  exists p' r' won, apply_node_upsert sys now n s (p, r) = ((p', r'), Ok won) /\
    merges sys now (ChNode n s) p r p' r'.
Proof.
  intros Hsys T R Hu Hroom. unfold apply_node_upsert.
  pose proof (outdated_registers p r (n_uuid n) s T R Hu) as Hout. rewrite Hout.
  destruct (match registers p !! n_uuid n with Some _ => _ | None => _ end) eqn:Ho.
  { exists p, r, false. split; [done|]. apply merges_nothing; [done|done|]. unfold merged. cbn [change_register].
    rewrite merge_entry_lookup. destruct (registers p !! n_uuid n); [|done]. simpl.
    apply negb_true_iff in Ho. by rewrite Ho. }
  rewrite plain_write by apply T.
  set (target := match node_target r (n_uuid n) with Some (TNode id) => _ | _ => _ end).
  destruct target as [ids id] eqn:Htarget.
  assert (Hid : owns p id (n_uuid n) /\ last_node (g_ids (engine p)) <= last_node ids /\ id <= last_node ids /\
    last_node ids <= last_node (g_ids (engine p)) + 1).
  { unfold target in Htarget. clear target. destruct (node_target r (n_uuid n)) as [t|] eqn:Ht.
    - destruct (node_target_some _ _ _ _ T R Hu Ht) as (i & reg & -> & Hown & Hle & _).
      injection Htarget as <- <-. split; [done|lia].
    - unfold Ids.next_node in Htarget. rewrite wrap_room in Htarget by done. injection Htarget as <- <-. simpl.
      split; [|lia]. right. right. pose proof (t_counted _ T (last_node (g_ids (engine p)) + 1)) as Hc.
      split; [|split].
      + apply eq_None_not_Some. intros Hs. specialize (Hc (or_introl Hs)). lia.
      + apply eq_None_not_Some. intros Hs. specialize (Hc (or_intror Hs)). lia.
      + by eapply node_target_none. }
  destruct Hid as (Hown & Hle & Hidle & Hmax). clear Htarget target.
  set (new := set_node_id id n).
  destruct (upsert_node_effect new ids (inner (engine p))) as (E1 & E2 & E3 & E4).
  destruct (install_inner (cs_node id) ids (UpsertNode new) (engine p)) as (I1 & I2 & I3).
  set (g := install (cs_node id) ids (UpsertNode new) (engine p)) in *.
  assert (Hg : plain g).
  { apply plain_install; [apply T|]. rewrite E3. apply (t_plain _ T). }
  destruct (plain_record sys [UpsertNode new] g Hsys Hg) as (g' & Hrec & Hg' & Hi & Hids).
  unfold io_as. rewrite Hrec. eexists _, _, _. split; [done|].
  set (p' := observe _ _ _).
  assert (C : carried p p' id).
  { split; [done| | |]; cbn; rewrite ?Hi, ?Hids, ?I3, ?E4.
    - intros k e. rewrite I2, E2. apply (t_edges _ T).
    - simpl. lia.
    - simpl. lia. }
  destruct (put_node p p' id new s T Hown Hu eq_refl C) as [T' Hreg]; [|done|done|].
  { unfold live_nodes. cbn. by rewrite Hi, I1, E1. }
  split; [done| | |cbn; rewrite Hids, I3, E4; simpl; lia|apply stamped_live].
  - assert (Hlive : live_nodes p' = <[id := new]> (live_nodes p)) by (unfold live_nodes; cbn; by rewrite Hi, I1, E1).
    split.
    + intros u k. cbn [rm_node]. rewrite Hlive, lookup_insert. case_decide as Hd.
      * subst u. split; [intros [= <-]; exists new; by rewrite lookup_insert_eq|].
        intros (m & Hm & Hmu). rewrite lookup_insert in Hm. case_decide as Hk; [by subst|].
        f_equal. symmetry. exact (owns_live p id _ k m T Hown Hm Hmu).
      * rewrite (rm_nodes _ _ R). split; intros (m & Hm & Hmu); exists m.
        -- rewrite lookup_insert_ne; [done|]. intros <-. rewrite (owns_at p id _ m Hown T Hm) in Hmu. done.
        -- rewrite lookup_insert in Hm. case_decide; [|done]. injection Hm as <-. by destruct Hd.
    + intros u k Hku. unfold tomb_node. cbn. rewrite lookup_delete. case_decide as Hd.
      * split; [done|]. intros (s' & Hs'). rewrite lookup_delete in Hs'. case_decide as Hk; [done|].
        destruct Hk. f_equal. symmetry. rewrite <- Hd in Hs'. exact (owns_dead p id _ k s' T Hown Hs').
      * fold (tomb_node r u). rewrite (rm_tombs _ _ R u k Hku). split; intros (s' & Hs'); exists s'.
        -- rewrite lookup_delete_ne; [done|]. intros [= <-]. by rewrite <- (owns_tomb p id _ _ Hown T Hs') in Hd.
        -- rewrite lookup_delete in Hs'. by case_decide.
  - rewrite Hreg. unfold merged. cbn [change_register]. rewrite merge_entry_lookup.
    destruct (registers p !! n_uuid n); [|done]. apply negb_false_iff in Ho. simpl. by rewrite Ho.
Qed.

Lemma tombs_moved p r id u s : tidy p -> remap_ok p r -> owns p id u -> is_node u = true ->
  forall u' k, is_node u' = true ->
  tomb_node (mkRemap (delete u (rm_node r)) (rm_edge r) (<[u := TNode id]> (rm_tomb r))) u' = Some (TNode k) <->
  exists s', <[TNode id := mkTomb s u]> (tombstones p) !! TNode k = Some (mkTomb s' u').
Proof.
  intros T R Hown Hu u' k Hk. unfold tomb_node. cbn. rewrite lookup_insert. case_decide as Hd.
  - subst u'. split; [intros [= <-]; exists s; by rewrite lookup_insert_eq|].
    intros (s' & Hs'). rewrite lookup_insert in Hs'. case_decide as Hkk; [congruence|].
    do 2 f_equal. symmetry. exact (owns_dead p id u k s' T Hown Hs').
  - fold (tomb_node r u'). rewrite (rm_tombs _ _ R u' k Hk). split; intros (s' & Hs'); exists s'.
    + rewrite lookup_insert_ne; [done|]. intros [= <-]. by rewrite <- (owns_tomb p id _ _ Hown T Hs') in Hd.
    + rewrite lookup_insert in Hs'. case_decide; [congruence|done].
Qed.

Lemma nodes_moved p r id u : tidy p -> remap_ok p r -> owns p id u ->
  forall u' k, delete u (rm_node r) !! u' = Some k <->
  exists n, delete id (live_nodes p) !! k = Some n /\ n_uuid n = u'.
Proof.
  intros T R Hown u' k. rewrite lookup_delete. case_decide as Hd.
  - subst u'. split; [done|]. intros (m & Hm & Hmu). rewrite lookup_delete in Hm. case_decide as Hk; [done|].
    destruct Hk. symmetry. exact (owns_live p id u k m T Hown Hm Hmu).
  - rewrite (rm_nodes _ _ R). split; intros (m & Hm & Hmu); exists m.
    + rewrite lookup_delete_ne; [done|]. intros <-. by rewrite (owns_at p id _ m Hown T Hm) in Hmu.
    + rewrite lookup_delete in Hm. by case_decide.
Qed.

(** Removing the record, if there is one, or minting an anchor. *)
Lemma remove_node_effect sys p r u : sys_ok sys -> tidy p -> remap_ok p r -> is_node u = true ->
  last_node (g_ids (engine p)) + 1 < 2 ^ 64 ->
  exists g id, remove_or_mint sys true (rm_node r !! u) (node_target r u) (engine p) = (g, Ok (TNode id)) /\
    owns p id u /\ nodes (inner g) = delete id (live_nodes p) /\ plain g /\
    edges_in (fun u => is_node u = false) (inner g) /\
    last_node (g_ids (engine p)) <= last_node (g_ids g) /\ id <= last_node (g_ids g) /\
    last_node (g_ids g) <= last_node (g_ids (engine p)) + 1.
Proof.
  intros Hsys T R Hu Hroom. pose proof (t_plain _ T) as Hp. unfold remove_or_mint.
  destruct (node_target r u) as [t|] eqn:Ht.
  - destruct (node_target_some _ _ _ _ T R Hu Ht) as (id & reg & -> & Hown & Hle & _).
    destruct (rm_node r !! u) as [k|] eqn:Hk.
    + apply (rm_nodes _ _ R) in Hk as (n & Hn & Hnu).
      assert (k = id) as -> by exact (owns_live p id u k n T Hown Hn Hnu).
      rewrite plain_write by done. set (touched := from_ops [DeleteNode id]).
      destruct (install_inner touched (g_ids (engine p)) (DeleteNode id) (engine p)) as (I1 & I2 & I3).
      rewrite merge_delete_node in I1, I2, I3. cbn [fst snd] in I1, I2, I3.
      unfold live_nodes in Hn. rewrite Hn in I1, I2.
      destruct (drop_node_effect id n (inner (engine p))) as (D1 & D2 & D3).
      set (g := install touched _ _ _) in *.
      assert (Hg : plain g).
      { apply plain_install; [done|]. rewrite merge_delete_node, Hn. cbn [snd]. rewrite D2. apply Hp. }
      destruct (plain_record sys [DeleteNode id] g Hsys Hg) as (g' & Hrec & Hg' & Hi & Hids).
      unfold io_as. rewrite Hrec. exists g', id. split; [done|]. split; [done|].
      rewrite Hi, Hids, I1, I3, D1. split; [done|]. split; [done|]. split; [|lia].
      intros j e. rewrite I2. intros Hj. destruct (D3 j) as [Hnone|Heq]; [congruence|]. rewrite Heq in Hj.
      by apply (t_edges _ T j e).
    + exists (engine p), id. split; [done|]. split; [done|]. split; [|split; [done|split; [apply T|lia]]].
      symmetry. apply delete_id. apply eq_None_not_Some. intros [n Hn].
      assert (rm_node r !! u = Some id); [|congruence]. apply (rm_nodes _ _ R). exists n. split; [done|].
      exact (owns_at p id u n Hown T Hn).
  - rewrite plain_write by done. unfold Ids.next_node. rewrite wrap_room by done.
    eexists _, _. split; [done|]. cbn.
    pose proof (t_counted _ T (last_node (g_ids (engine p)) + 1)) as Hc.
    assert (Hfree : live_nodes p !! (last_node (g_ids (engine p)) + 1) = None).
    { apply eq_None_not_Some. intros Hs. specialize (Hc (or_introl Hs)). lia. }
    split; [|split; [by rewrite delete_id|split; [by split; apply Hp|split; [apply T|lia]]]].
    right. right. split; [done|]. split; [|by eapply node_target_none].
    apply eq_None_not_Some. intros Hs. specialize (Hc (or_intror Hs)). lia.
Qed.

Lemma node_delete_merges sys now u s p r : sys_ok sys -> tidy p -> remap_ok p r ->
  is_node u = true -> last_node (g_ids (engine p)) + 1 < 2 ^ 64 ->
  exists p' r' won, apply_delete sys now u s true (p, r) = ((p', r'), Ok won) /\
    merges sys now (ChDeleteNode u s) p r p' r'.
Proof.
  intros Hsys T R Hu Hroom. unfold apply_delete.
  rewrite (outdated_registers p r u s T R Hu).
  destruct (match registers p !! u with Some _ => _ | None => _ end) eqn:Ho.
  { exists p, r, false. split; [done|]. apply merges_nothing; [done|done|]. unfold merged.
    cbn [change_register]. rewrite merge_entry_lookup. destruct (registers p !! u); [|done].
    apply negb_true_iff in Ho. simpl. by rewrite Ho. }
  destruct (remove_node_effect sys p r u Hsys T R Hu Hroom) as (g & id & -> & Hown & Hn & Hg & He & H1 & H2 & H3).
  eexists _, _, _. split; [done|]. set (p' := observe _ _ _).
  assert (C : carried p p' id) by (split; done).
  destruct (del_node p p' id u s T Hown Hu C) as [T' Hreg]; [done|done|done|].
  split; [done| | |done|apply stamped_dead].
  - split; [|exact (tombs_moved p r id u s T R Hown Hu)].
    intros u' k. cbn [rm_node]. change (live_nodes p') with (nodes (inner g)). rewrite Hn. by apply nodes_moved.
  - rewrite Hreg. unfold merged. cbn [change_register]. rewrite merge_entry_lookup.
    destruct (registers p !! u); [|done]. apply negb_false_iff in Ho. simpl. by rewrite Ho.
Qed.

(** *** Changes of edges *)
Lemma edge_target_shape r u t : edge_target r u = Some t -> exists id, t = TEdge id.
Proof.
  unfold edge_target, tomb_edge. destruct (rm_edge r !! u); [intros [= <-]; eauto|].
  destruct (rm_tomb r !! u) as [[]|]; [done|intros [= <-]; eauto|done].
Qed.

Lemma remap_frame p p' r r' u t : is_node u = false -> tidy p -> remap_ok p r -> live_nodes p' = live_nodes p ->
  (forall id, tombstones p' !! TNode id = tombstones p !! TNode id) ->
  rm_node r' = rm_node r -> (rm_tomb r' = delete u (rm_tomb r) \/ rm_tomb r' = <[u := t]> (rm_tomb r)) ->
  remap_ok p' r'.
Proof.
  intros Hu T R Hn Ht Hr Hd. split.
  - intros u' id. rewrite Hn, Hr. apply R.
  - intros u' id Hu'. assert (u <> u') by congruence. rewrite Ht. rewrite <- (rm_tombs _ _ R u' id Hu').
    unfold tomb_node. destruct Hd as [->| ->]; [by rewrite lookup_delete_ne|by rewrite lookup_insert_ne].
Qed.

Lemma edge_upsert_merges sys now se p r : sys_ok sys -> tidy p -> remap_ok p r ->
  is_node (e_uuid (se_edge se)) = false ->
  exists p' r' won, apply_edge_upsert sys now se (p, r) = ((p', r'), Ok won) /\
    merges sys now (ChEdge se) p r p' r'.
Proof.
  intros Hsys T R Hu. unfold apply_edge_upsert. pose proof (t_plain _ T) as Hp.
  assert (Hskip : exists p' r' won, ((p, r), Ok false : result CoreError bool) = ((p', r'), Ok won) /\
    merges sys now (ChEdge se) p r p' r').
  { exists p, r, false. split; [done|]. by apply merges_nothing. }
  destruct (rm_node r !! se_from_uuid se) as [from|]; [|done].
  destruct (rm_node r !! se_to_uuid se) as [to|]; [|done].
  destruct (outdated p (edge_target r (e_uuid (se_edge se))) (se_stamp se)); [done|]. clear Hskip.
  rewrite plain_write by done.
  set (target := match edge_target r (e_uuid (se_edge se)) with Some (TEdge id) => _ | _ => _ end).
  destruct target as [ids id] eqn:Htarget.
  assert (Hids : last_node ids = last_node (g_ids (engine p))).
  { unfold target in Htarget. destruct (edge_target _ _) as [[]|]; unfold Ids.next_edge in Htarget;
      by injection Htarget as <- _. }
  set (new := set_edge_ids id from to (se_edge se)). set (touched := cs_edge id from to).
  destruct (upsert_edge_effect new ids (inner (engine p))) as (E1 & E2 & E3 & E4).
  destruct (install_inner touched ids (UpsertEdge new) (engine p)) as (I1 & I2 & I3).
  set (g := install touched ids (UpsertEdge new) (engine p)) in *.
  assert (Hg : plain g).
  { apply plain_install; [done|]. rewrite E3. apply Hp. }
  destruct (plain_record sys [UpsertEdge new] g Hsys Hg) as (g' & Hrec & Hg' & Hi & Hids').
  unfold io_as. rewrite Hrec. eexists _, _, _. split; [done|].
  set (p' := observe _ _ _).
  assert (Hlive : live_nodes p' = live_nodes p) by (unfold live_nodes; cbn; by rewrite Hi, I1, E1).
  assert (C : carried p p' 0).
  { split; [done| | |cbn; lia]; cbn; rewrite ?Hids', ?I3, ?E4, ?Hids; [|done].
    intros k e. rewrite Hi, I2, E2, lookup_insert. case_decide; [by intros [= <-]|].
    rewrite lookup_delete. case_decide; [done|]. apply (t_edges _ T). }
  assert (Ht : forall k, tombstones p' !! TNode k = tombstones p !! TNode k).
  { intros k. cbn. by rewrite lookup_delete_ne. }
  destruct (frame_nodes p p' T C Hlive) as [T' Hreg].
  { intros k. cbn. by rewrite lookup_insert_ne. }
  { done. }
  { intros k t. cbn. rewrite lookup_delete. case_decide; [done|]. apply (t_dead_edge _ T). }
  split; [done| |done|cbn; rewrite Hids', I3, E4, Hids; lia|apply stamped_live].
  eapply (remap_frame p p' r _ _ (TEdge 0) Hu T R Hlive Ht); [done|by left].
Qed.

Lemma edge_delete_merges sys now u s p r : sys_ok sys -> tidy p -> remap_ok p r -> is_node u = false ->
  exists p' r' won, apply_delete sys now u s false (p, r) = ((p', r'), Ok won) /\
    merges sys now (ChDeleteEdge u s) p r p' r'.
Proof.
  intros Hsys T R Hu. unfold apply_delete. pose proof (t_plain _ T) as Hp.
  destruct (outdated p (edge_target r u) s).
  { exists p, r, false. split; [done|]. by apply merges_nothing. }
  assert (Hrem : exists g id, remove_or_mint sys false (rm_edge r !! u) (edge_target r u) (engine p) = (g, Ok (TEdge id)) /\
    nodes (inner g) = live_nodes p /\ plain g /\ edges_in (fun u => is_node u = false) (inner g) /\
    last_node (g_ids g) = last_node (g_ids (engine p))).
  { unfold remove_or_mint. destruct (edge_target r u) as [t|] eqn:Ht.
    - apply edge_target_shape in Ht as [id ->]. destruct (rm_edge r !! u) as [k|].
      + rewrite plain_write by done. set (touched := from_ops [DeleteEdge k]).
        destruct (install_inner touched (g_ids (engine p)) (DeleteEdge k) (engine p)) as (I1 & I2 & I3).
        destruct (remove_edge_effect k (inner (engine p))) as (D1 & D2 & D3).
        rewrite merge_delete_edge in I1, I2, I3. cbn [fst snd] in I1, I2, I3.
        set (g := install touched _ _ _) in *.
        assert (Hg : plain g).
        { apply plain_install; [done|]. rewrite merge_delete_edge. cbn [snd]. rewrite D2. apply Hp. }
        destruct (plain_record sys [DeleteEdge k] g Hsys Hg) as (g' & Hrec & Hg' & Hi & Hids).
        unfold io_as. rewrite Hrec. exists g', id. split; [done|]. rewrite Hi, Hids, I1, I3, D1.
        split; [done|]. split; [done|]. split; [|done]. intros j e. rewrite I2, D3, lookup_delete.
        case_decide; [done|]. apply (t_edges _ T).
      + exists (engine p), id. split; [done|]. split; [done|]. split; [done|]. split; [apply T|done].
    - rewrite plain_write by done. eexists _, _. split; [done|]. cbn.
      split; [done|]. split; [by split; apply Hp|]. split; [apply T|done]. }
  destruct Hrem as (g & id & -> & Hn & Hg & He & Hids). eexists _, _, _. split; [done|].
  set (p' := observe _ _ _).
  assert (C : carried p p' 0) by (split; [done|done|cbn; lia|cbn; lia]).
  assert (Ht : forall k, tombstones p' !! TNode k = tombstones p !! TNode k).
  { intros k. cbn. by rewrite lookup_insert_ne. }
  destruct (frame_nodes p p' T C Hn) as [T' Hreg].
  { intros k. cbn. by rewrite lookup_delete_ne. }
  { done. }
  { intros k t. cbn. rewrite lookup_insert. case_decide; [by intros [= <-]|]. apply (t_dead_edge _ T). }
  split; [done| |done|cbn; lia|apply stamped_dead].
  eapply (remap_frame p p' r _ u (TEdge id) Hu T R Hn Ht); [done|by right].
Qed.

Lemma change_merges sys now c p r : sys_ok sys -> tidy p -> remap_ok p r -> change_ok c ->
  last_node (g_ids (engine p)) + 1 < 2 ^ 64 ->
  exists p' r' won, apply_change sys now c (p, r) = ((p', r'), Ok won) /\ merges sys now c p r p' r'.
Proof.
  intros Hsys T R Hc Hroom. destruct c as [n s|se|u s|u s]; simpl in Hc |- *.
  - by apply node_upsert_merges.
  - by apply edge_upsert_merges.
  - by apply node_delete_merges.
  - by apply edge_delete_merges.
Qed.

(** *** The clock *)
Lemma clock_bump w c : is_i64 w -> is_u32 c -> hlc_in_range (bump_same_wall w c) /\
  (w <= wall_ms (bump_same_wall w c))%Z /\
  ((wall_ms (bump_same_wall w c) < i64_max)%Z ->
   forall a, (wall_ms a < w \/ (wall_ms a = w /\ counter a <= c))%Z -> hlc_lt a (bump_same_wall w c)).
Proof.
  intros Hw Hc. destruct (decide (mkHlc w c = hlc_top)) as [[= -> ->]|Hne].
  - split; [by vm_compute|]. split; [by vm_compute|]. intros Hlt. exfalso. revert Hlt. by vm_compute.
  - destruct (bump_same_wall_spec w c Hw Hc Hne) as [H1 H2]. split; [done|]. split; [|by auto].
    specialize (H2 (mkHlc w c) ltac:(simpl; lia)). rewrite hlc_lt_spec in H2. simpl in H2. lia.
Qed.

Lemma clock_fresh w : is_i64 w -> hlc_in_range (mkHlc w 0).
Proof. intros Hw. by apply fresh_wall_spec. Qed.

Lemma clock_tick last now : hlc_in_range last -> is_i64 now -> let c := HlcClock.tick last now in
  hlc_in_range c /\ (wall_ms last <= wall_ms c)%Z /\ ((wall_ms c < i64_max)%Z -> hlc_lt last c).
Proof.
  intros [Hw Hc] Hn c. unfold c, HlcClock.tick.
  destruct (Z.eqb_spec (Z.max (wall_ms last) now) (wall_ms last)) as [->|Hne].
  - destruct (clock_bump _ _ Hw Hc) as (H1 & H2 & H3). split; [done|]. split; [done|]. intros H.
    apply H3; [done|]. lia.
  - assert (Z.max (wall_ms last) now = now) as -> by lia. split; [by apply clock_fresh|]. simpl.
    split; [lia|]. intros _. apply hlc_lt_spec. simpl. lia.
Qed.

Lemma clock_update last remote now : hlc_in_range last -> hlc_in_range remote -> is_i64 now ->
  let c := HlcClock.update last remote now in
  hlc_in_range c /\ (wall_ms last <= wall_ms c)%Z /\
  ((wall_ms c < i64_max)%Z -> hlc_lt last c /\ hlc_lt remote c).
Proof.
  intros [Hw Hc] [Hrw Hrc] Hn c. unfold c, HlcClock.update. cbv zeta.
  set (w := Z.max (Z.max (wall_ms last) (wall_ms remote)) now).
  assert (Hm : is_i64 w) by (unfold w, is_i64 in *; lia).
  destruct (Z.eqb_spec w (wall_ms last)) as [E1|E1], (Z.eqb_spec w (wall_ms remote)) as [E2|E2]; cbn [andb].
  - assert (Hmc : is_u32 (Z.max (counter last) (counter remote))) by (unfold is_u32 in *; lia).
    destruct (clock_bump _ _ Hm Hmc) as (H1 & H2 & H3). split; [done|]. split; [lia|]. intros H.
    split; apply H3; try done; right; split; lia.
  - destruct (clock_bump _ _ Hm Hc) as (H1 & H2 & H3). split; [done|]. split; [lia|]. intros H.
    split; apply H3; try done; [right; lia|left; lia].
  - destruct (clock_bump _ _ Hm Hrc) as (H1 & H2 & H3). split; [done|]. split; [lia|]. intros H.
    split; apply H3; try done; [left; lia|right; lia].
  - split; [by apply clock_fresh|]. simpl. split; [lia|]. intros _.
    split; apply hlc_lt_spec; simpl; lia.
Qed.

(** Stamps as peers issue them. *)
Definition stamp_ok (s : Stamp) : Prop := hlc_in_range (stamp_hlc s) /\ ~ hlc_lt (stamp_hlc s) hlc_default.

Record timed (p : Peer) : Prop := {
  td_clock : hlc_in_range (clock p);
  td_floor : ~ hlc_lt (clock p) hlc_default;
  td_stamps : forall s, s ∈ all_stamps p -> stamp_ok s /\ ~ hlc_lt (clock p) (stamp_hlc s);
}.

Definition calm (p : Peer) : Prop := (wall_ms (clock p) < i64_max)%Z.

Lemma stamp_not_lt_trans a b c : ~ hlc_lt b a -> hlc_lt b c -> ~ hlc_lt c a.
Proof. rewrite !hlc_lt_spec. lia. Qed.

(** The clock moved forward, unless it ran into its last millisecond. *)
Definition forward (p p' : Peer) : Prop :=
  (wall_ms (clock p) <= wall_ms (clock p'))%Z /\ (calm p' -> ~ hlc_lt (clock p') (clock p)).

Lemma forward_trans p q r : forward p q -> forward q r -> forward p r.
Proof.
  intros [H1 H2] [H3 H4]. split; [lia|]. intros Hr. assert (Hq : calm q) by (unfold calm in *; lia).
  specialize (H2 Hq). specialize (H4 Hr). rewrite !hlc_lt_spec in *. lia.
Qed.

Lemma stamped_timed now s p p' : stamped_by now s p p' -> hlc_in_range (clock p) -> stamp_ok s -> is_i64 now ->
  hlc_in_range (clock p') /\ forward p p' /\ (timed p -> calm p' -> timed p').
Proof.
  intros [_ [[Hs Hc]|[Hs Hc]]] T1 [S1 S2] Hn.
  - unfold forward. rewrite Hc. split; [done|]. split; [split; [lia|intros _; apply (irreflexivity hlc_lt)]|].
    intros [T2 T3 T4] _. split; rewrite ?Hc, ?Hs; done.
  - destruct (clock_update (clock p) (stamp_hlc s) now T1 S1 Hn) as (H1 & H2 & H3). unfold forward, calm. rewrite Hc.
    split; [done|]. split.
    { split; [done|]. intros Hcalm. destruct (H3 Hcalm) as [H4 _]. rewrite !hlc_lt_spec in *. lia. }
    intros [_ T2 T3] Hcalm. destruct (H3 Hcalm) as [H4 H5].
    split; rewrite ?Hc; [done|by eapply stamp_not_lt_trans|]. intros s' [Hin| ->]%Hs.
    + destruct (T3 s' Hin) as [? ?]. split; [done|by eapply stamp_not_lt_trans].
    + split; [done|]. intros Hlt. exact (irreflexivity hlc_lt _ (transitivity Hlt H5)).
Qed.

(** *** A whole delta *)
Lemma loop_merges sys nows cs p r stats : sys_ok sys -> tidy p -> remap_ok p r -> hlc_in_range (clock p) ->
  Forall change_ok cs -> Forall (fun c => stamp_ok (change_stamp c)) cs -> Forall is_i64 nows ->
  last_node (g_ids (engine p)) + N.of_nat (length cs) < 2 ^ 64 ->
  exists p' r' stats', apply_loop sys nows cs stats (p, r) = ((p', r'), Ok stats') /\
    tidy p' /\ registers p' = foldl merged (registers p) cs /\ origin p' = origin p /\
    (forall s, s ∈ all_stamps p' -> s ∈ all_stamps p \/ s ∈ change_stamp <$> cs) /\
    forward p p' /\ (timed p -> calm p' -> timed p').
Proof.
  intros Hsys. revert nows p r stats. induction cs as [|c cs IH]; intros nows p r stats T R Hr Hok Hst Hnow Hroom.
  { exists p, r, stats. split; [done|]. split; [done|]. split; [done|]. split; [done|]. split; [eauto|].
    split; [split; [lia|intros _; apply (irreflexivity hlc_lt)]|done]. }
  apply Forall_cons in Hok as [Hc Hok], Hst as [Hs Hst]. cbn [length] in Hroom.
  assert (Hn : is_i64 (hd 0%Z nows)) by (destruct Hnow; [by vm_compute|done]).
  assert (Hns : Forall is_i64 (tail nows)) by (destruct Hnow; done).
  destruct (change_merges sys (hd 0%Z nows) c p r Hsys T R Hc ltac:(lia)) as (p1 & r1 & won & Ha & [T1 R1 M1 C1 S1]).
  destruct (stamped_timed _ _ _ _ S1 Hr Hs Hn) as (Hr1 & Hw1 & Ht1). destruct S1 as [Ho1 Hs1].
  cbn [apply_loop]. rewrite Ha.
  destruct (IH (tail nows) p1 r1 (if won then mkApplyStats (applied stats + 1) (skipped stats)
    else mkApplyStats (applied stats) (skipped stats + 1)) T1 R1 Hr1 Hok Hst Hns ltac:(lia))
    as (p' & r' & stats' & -> & T' & M' & O' & S' & W' & D').
  exists p', r', stats'. split; [done|]. split; [done|]. split; [by rewrite M', M1|]. split; [congruence|].
  split; [|split; [by eapply forward_trans|]].
  - intros s Hin. cbn [fmap list_fmap]. rewrite elem_of_cons. destruct (S' s Hin) as [Hp1|?]; [|tauto].
    destruct Hs1 as [[He _]|[He _]]; [rewrite He in Hp1; tauto|]. apply He in Hp1 as [?| ->]; tauto.
  - intros Tp Hcalm. apply D'; [|done]. apply Ht1; [done|]. destruct W' as [W' _]. unfold calm in *. lia.
Qed.

Lemma by_phase_perm d : by_phase d ≡ₚ d.
Proof.
  induction d as [|c d IH]; [done|]. rewrite <- IH at 2. unfold by_phase. cbn [flat_map].
  rewrite !filter_cons, !app_nil_r. destruct c; cbn [apply_phase]; simpl; solve_Permutation.
Qed.

Lemma omap_cons {A B} (f : A -> option B) x (l : list A) :
  omap f (x :: l) = match f x with Some y => y :: omap f l | None => omap f l end.
Proof. done. Qed.

Lemma foldl_merged m cs : foldl merged m cs = (foldl merge_entry (m, false) (omap change_register cs)).1.
Proof.
  assert (Hflag : forall (l : list (N * Reg)) (m : gmap N Reg) c c', (foldl merge_entry (m, c) l).1 = (foldl merge_entry (m, c') l).1).
  { clear. intros l. induction l as [|e l IH]; intros m c c'; [done|]. cbn [foldl]. unfold merge_entry.
    destruct (m !! e.1); [destruct (Register.merge _ _)|]; apply IH. }
  revert m. induction cs as [|c cs IH]; intros m; [done|]. cbn [foldl]. rewrite IH. unfold merged.
  rewrite omap_cons. destruct (change_register c) as [e|]; [|done]. cbn [foldl].
  destruct (merge_entry (m, false) e) as [m' c'] eqn:E. cbn [fst]. apply Hflag.
Qed.

(** *** The delta a peer sends *)
Definition missing (vv : VersionVector) (m : gmap N Reg) : gmap N Reg :=
  filter (fun e => VV.dominates vv (reg_stamp e.2) = false) m.

Lemma elem_delta q vv c : c ∈ delta_since q vv <->
  (exists e, stamps q !! e.1 = Some e.2 /\ VV.dominates vv e.2 = false /\ live_change (inner (engine q)) e = Some c) \/
  (exists e, tombstones q !! e.1 = Some e.2 /\ VV.dominates vv (tomb_stamp e.2) = false /\ c = dead_change e).
Proof.
  unfold delta_since. rewrite elem_of_app, list_elem_of_omap, list_elem_of_fmap. split.
  - intros [([t s] & [Hd Hin%elem_of_map_to_list]%list_elem_of_filter & Hc)|([t tb] & -> & [Hd Hin%elem_of_map_to_list]%list_elem_of_filter)].
    + left. by exists (t, s).
    + right. by exists (t, tb).
  - intros [([t s] & Hin & Hd & Hc)|([t tb] & Hin & Hd & ->)].
    + left. exists (t, s). split; [|done]. apply list_elem_of_filter. by rewrite elem_of_map_to_list.
    + right. exists (t, tb). split; [done|]. apply list_elem_of_filter. by rewrite elem_of_map_to_list.
Qed.

Lemma live_change_stamp i e c : live_change i e = Some c -> change_stamp c = e.2.
Proof.
  destruct e as [[id|id] s]; unfold live_change; simpl.
  - destruct (nodes i !! id); [|done]. by intros [= <-].
  - destruct (edges i !! id) as [e|]; [simpl|done]. destruct (nodes i !! e_from e); [simpl|done].
    destruct (nodes i !! e_to e); [simpl|done]. by intros [= <-].
Qed.

Lemma delta_ok q vv : tidy q -> Forall change_ok (delta_since q vv) /\
  Forall (fun c => change_stamp c ∈ all_stamps q) (delta_since q vv).
Proof.
  intros T. split; apply Forall_forall; intros c [(e & He & _ & Hc)|(e & He & _ & ->)]%elem_delta.
  - destruct e as [[id|id] s]; unfold live_change in Hc; simpl in *.
    + destruct (nodes _ !! id) as [n|] eqn:Hn; [|done]. injection Hc as <-. by apply (t_node _ T id n).
    + destruct (edges _ !! id) as [e|] eqn:Hedge; [simpl in Hc|done].
      destruct (nodes _ !! e_from e); [simpl in Hc|done]. destruct (nodes _ !! e_to e); [simpl in Hc|done].
      injection Hc as <-. by apply (t_edges _ T id e).
  - destruct e as [[id|id] tb]; simpl in *.
    + by apply (t_dead _ T) in He as (_ & ? & _).
    + by apply (t_dead_edge _ T id).
  - rewrite (live_change_stamp _ _ _ Hc). apply elem_all_stamps. left. eauto.
  - apply elem_all_stamps. right. exists e.1, (tomb_uuid e.2). rewrite He.
    by destruct e as [[] []].
Qed.

Lemma elem_delta_registers q vv u reg : tidy q -> (u, reg) ∈ omap change_register (delta_since q vv) <->
  holds q u reg /\ VV.dominates vv (reg_stamp reg) = false.
Proof.
  intros T. rewrite list_elem_of_omap. split.
  - intros (c & [(e & He & Hd & Hc)|(e & He & Hd & ->)]%elem_delta & Hr).
    + destruct e as [[id|id] s]; unfold live_change in Hc; simpl in *.
      * destruct (nodes _ !! id) as [n|] eqn:Hn; [|done]. injection Hc as <-. injection Hr as <- <-.
        split; [|done]. left. eauto 10.
      * destruct (edges _ !! id) as [e|]; [simpl in Hc|done]. destruct (nodes _ !! e_from e); [simpl in Hc|done].
        destruct (nodes _ !! e_to e); [simpl in Hc|done]. by injection Hc as <-.
    + destruct e as [[id|id] tb]; simpl in *; [|done]. injection Hr as <- <-. split; [|done].
      right. exists id, (tomb_stamp tb). by destruct tb.
  - intros [[(id & n & s & Hn & <- & Hs & ->)|(id & s & Ht & ->)] Hd]; simpl in Hd.
    + exists (ChNode n s). split; [|done]. apply elem_delta. left. exists (TNode id, s). simpl.
      unfold live_change. simpl. unfold live_nodes in Hn. by rewrite Hn.
    + exists (ChDeleteNode u s). split; [|done]. apply elem_delta. right. exists (TNode id, mkTomb s u). done.
Qed.

Lemma NoDup_omap_key {A B} (f : A -> option (N * B)) l : NoDup l ->
  (forall x y a b, x ∈ l -> y ∈ l -> f x = Some a -> f y = Some b -> a.1 = b.1 -> x = y) ->
  NoDup (omap f l).*1.
Proof.
  induction l as [|x l IH]; intros Hnd Hinj; [constructor|]. apply NoDup_cons in Hnd as [Hx Hnd].
  assert (Hl : NoDup (omap f l).*1).
  { apply IH; [done|]. intros y z a b Hy Hz. apply Hinj; by right. }
  rewrite omap_cons. destruct (f x) as [a|] eqn:Hf; [|done]. cbn. apply NoDup_cons. split; [|done].
  intros Hin. apply list_elem_of_fmap in Hin as (b & Hab & Hb). apply list_elem_of_omap in Hb as (y & Hy & Hfy).
  assert (x = y) as <- by (eapply (Hinj x y a b); [by left|by right|done|done|done]). done.
Qed.

Lemma omap_omap {A B C} (f : A -> option B) (g : B -> option C) (l : list A) :
  omap g (omap f l) = omap (fun x => y ← f x; g y) l.
Proof.
  induction l as [|x l IH]; [done|]. rewrite !omap_cons. destruct (f x) as [b|]; [|exact IH].
  rewrite omap_cons. cbn [mbind option_bind]. by destruct (g b); rewrite IH.
Qed.

Lemma delta_registers_nodup q vv : tidy q -> NoDup (omap change_register (delta_since q vv)).*1.
Proof.
  intros T. unfold delta_since. rewrite (list_fmap_alt dead_change), omap_app, fmap_app, !omap_omap. apply NoDup_app. split; [|split].
  - apply NoDup_omap_key; [apply NoDup_filter, NoDup_map_to_list|].
    intros [[i|i] s] [[j|j] s'] a b [_ Hi%elem_of_map_to_list]%list_elem_of_filter
      [_ Hj%elem_of_map_to_list]%list_elem_of_filter; unfold live_change; simpl.
    + destruct (nodes _ !! i) as [n|] eqn:Hn; [|done]. destruct (nodes _ !! j) as [m|] eqn:Hm; [|done].
      intros [= <-] [= <-]. simpl. intros Hu. assert (i = j) as <- by (eapply (t_unique _ T); done). congruence.
    + intros _ Hb. destruct (edges _ !! j) as [e|]; [simpl in Hb|done]. destruct (nodes _ !! e_from e); [simpl in Hb|done].
      by destruct (nodes _ !! e_to e).
    + intros Ha. destruct (edges _ !! i) as [e|]; [simpl in Ha|done]. destruct (nodes _ !! e_from e); [simpl in Ha|done].
      by destruct (nodes _ !! e_to e).
    + intros Ha. destruct (edges _ !! i) as [e|]; [simpl in Ha|done]. destruct (nodes _ !! e_from e); [simpl in Ha|done].
      by destruct (nodes _ !! e_to e).
  - intros u Hu Hu'. apply list_elem_of_fmap in Hu as ([u1 r1] & -> & H1), Hu' as ([u2 r2] & Heq & H2). simpl in *. subst u2.
    apply list_elem_of_omap in H1 as ([t s] & Hin1 & Hf1). apply list_elem_of_omap in H2 as ([t' tb] & Hin2 & Hf2).
    apply list_elem_of_filter in Hin2 as [_ Hin2%elem_of_map_to_list].
    destruct t' as [j|j]; [|done]. injection Hf2 as <- <-.
    destruct (t_dead _ T _ _ Hin2) as (_ & _ & Hno). unfold live_change in Hf1. destruct t as [i|i]; simpl in Hf1.
    + destruct (nodes _ !! i) as [n|] eqn:Hn; [|done]. injection Hf1 as Hu _. by apply (Hno i n Hn).
    + destruct (edges _ !! i) as [e|]; [simpl in Hf1|done]. destruct (nodes _ !! e_from e); [simpl in Hf1|done].
      by destruct (nodes _ !! e_to e).
  - apply NoDup_omap_key; [apply NoDup_filter, NoDup_map_to_list|].
    intros [[i|i] t] [[j|j] t'] a b [_ Hi%elem_of_map_to_list]%list_elem_of_filter
      [_ Hj%elem_of_map_to_list]%list_elem_of_filter; simpl; try done.
    intros [= <-] [= <-]. simpl. intros Hu. assert (i = j) as <- by (eapply (t_dead_unique _ T); done). congruence.
Qed.

Lemma delta_merged p q vv : tidy q ->
  foldl merged (registers p) (by_phase (delta_since q vv)) = (LwwMap.merge (registers p) (missing vv (registers q))).1.
Proof.
  intros T. rewrite foldl_merged. apply map_eq. intros u.
  assert (Hperm : omap change_register (by_phase (delta_since q vv)) ≡ₚ omap change_register (delta_since q vv)).
  { by rewrite by_phase_perm. }
  assert (Hnd : NoDup (omap change_register (by_phase (delta_since q vv))).*1).
  { rewrite Hperm. by apply delta_registers_nodup. }
  rewrite (proj1 (merge_entry_fold _ (registers p) false Hnd)), merge_entries_lookup. f_equal.
  apply option_eq. intros reg. rewrite <- elem_of_list_to_map by done. rewrite Hperm, elem_delta_registers by done.
  unfold missing. rewrite map_lookup_filter_Some, registers_holds by done. done.
Qed.

(** What a pull needs: room for the ids it may mint, and a clock that reads
    machine integers. *)
Definition can_pull (nows : list Z) (p q : Peer) : Prop :=
  Forall is_i64 nows /\
  last_node (g_ids (engine p)) + N.of_nat (length (delta_since q (version_vector p))) < 2 ^ 64.

Lemma pull_merges sys nows p q : sys_ok sys -> tidy p -> tidy q -> timed p -> timed q -> can_pull nows p q ->
  exists p' stats, pull sys nows q p = (p', Ok stats) /\ tidy p' /\
    registers p' = (LwwMap.merge (registers p) (missing (version_vector p) (registers q))).1 /\
    origin p' = origin p /\ (forall s, s ∈ all_stamps p' -> s ∈ all_stamps p \/ s ∈ all_stamps q) /\
    forward p p' /\ (calm p' -> timed p').
Proof.
  intros Hsys Tp Tq Dp Dq [Hn Hroom]. unfold pull, apply_delta. set (vv := version_vector p) in *.
  pose proof (by_phase_perm (delta_since q vv)) as Hperm.
  destruct (delta_ok q vv Tq) as [Hok Hst].
  destruct (loop_merges sys nows (by_phase (delta_since q vv)) p (build_remap p) (mkApplyStats 0 0))
    as (p' & r' & stats & -> & T' & M' & O' & S' & W' & D'); try done.
  - by apply build_remap_ok.
  - apply Dp.
  - by rewrite Hperm.
  - rewrite Hperm. eapply Forall_impl; [exact Hst|]. intros c Hc. by apply (td_stamps _ Dq).
  - by rewrite Hperm.
  - exists p', stats. split; [done|]. split; [done|]. split; [by rewrite M', delta_merged|]. split; [done|].
    split; [|split; [done|auto]]. intros s [?|Hin]%S'; [by left|]. right.
    apply list_elem_of_fmap in Hin as (c & -> & Hc). rewrite Hperm in Hc.
    exact (proj1 (Forall_forall _ _) Hst c Hc).
Qed.

(** C7: A pull is a last-writer-wins merge of node registers.  Let both peers be
    tidy -- writable, with no transaction prepared and a log that works, every
    node stamped, no uuid in use twice, live or deleted, or for a node and an
    edge, the node counter past every id -- with clocks past every stamp they
    hold and stamps of 64-bit integers, let the pulling peer have ids left for
    the changes it is sent and read 64-bit times, and let its records be encoded
    and flushed.  Then the pull succeeds, the peer stays tidy, and it holds, for
    every node uuid, the later of what it held and what the other held beyond
    its version vector.  Ids, edges and the order of the changes play no part.
    (A fenced or read-only peer refuses the first change.) *)
Theorem merge_is_lww sys nows p q : sys_ok sys -> tidy p -> tidy q -> timed p -> timed q -> can_pull nows p q ->
  exists p' stats, pull sys nows q p = (p', Ok stats) /\ tidy p' /\
    registers p' = (LwwMap.merge (registers p) (missing (version_vector p) (registers q))).1.
Proof.
  intros Hsys Tp Tq Dp Dq Hc.
  destruct (pull_merges sys nows p q Hsys Tp Tq Dp Dq Hc) as (p' & stats & H1 & H2 & H3 & _). eauto.
Qed.

(** *** Local writes *)

(** A new uuid is of the right kind and unknown. *)
Definition fresh_uuid (u : N) (op : GraphOp) (p : Peer) : Prop :=
  match op with
  | DoCreateNode _ => is_node u = true /\ forall r, ~ holds p u r
  | DoCreateEdge _ => is_node u = false
  | _ => True
  end.

Definition can_write (sys : Sys) (now : Z) (op : GraphOp) (p : Peer) : Prop :=
  is_i64 now /\ last_node (g_ids (engine p)) + 1 < 2 ^ 64 /\ fresh_uuid (env_uuid (sys_env sys)) op p.

(** What a write leaves: nothing but a counter when it is refused; else a
    stamp, and with it the register of one node or of none. *)
Record writes (now : Z) (p p' : Peer) (done : bool) : Prop := {
  w_tidy : tidy p';
  w_origin : origin p' = origin p;
  w_clock : clock p' = if done then HlcClock.tick (clock p) now else clock p;
  w_stamps : forall s, s ∈ all_stamps p' ->
    s ∈ all_stamps p \/ (done = true /\ s = mkStamp (clock p') (origin p));
  w_registers : registers p' = registers p \/
    (done = true /\ exists u v, registers p' = <[u := mkReg v (mkStamp (clock p') (origin p))]> (registers p));
}.

Lemma stamp_write_stamps now t p s : s ∈ all_stamps (stamp_write now t p) ->
  s ∈ all_stamps p \/ s = mkStamp (HlcClock.tick (clock p) now) (origin p).
Proof.
  rewrite !elem_all_stamps. cbn. intros [(t' & Ht)|(t' & u & Ht)].
  - rewrite lookup_insert in Ht. case_decide; [right; congruence|]. left. eauto.
  - rewrite lookup_delete in Ht. case_decide; [done|]. left. eauto.
Qed.

Lemma stamp_tombstone_stamps now t u p s : s ∈ all_stamps (stamp_tombstone now t u p) ->
  s ∈ all_stamps p \/ s = mkStamp (HlcClock.tick (clock p) now) (origin p).
Proof.
  rewrite !elem_all_stamps. cbn. intros [(t' & Ht)|(t' & u' & Ht)].
  - rewrite lookup_delete in Ht. case_decide; [done|]. left. eauto.
  - rewrite lookup_insert in Ht. case_decide; [injection Ht as <- _; by right|]. left. eauto 10.
Qed.

Lemma write_effect sys now op p : sys_ok sys -> tidy p -> can_write sys now op p ->
  writes now p (write sys now op p).1 (is_ok (write sys now op p).2).
Proof.
  intros Hsys T (Hn & Hroom & Hfresh). unfold write. pose proof (t_plain _ T) as Hp.
  pose proof (direct_apply_effect sys op (engine p) Hp (t_keyed _ T)) as (Hp' & He' & Hch).
  assert (He : edges_in (fun u => is_node u = false) (inner (direct_apply sys op (engine p)).1)).
  { apply He'; [|apply T]. by destruct op. }
  clear He'. destruct (direct_apply sys op (engine p)) as [g [w|e]] eqn:Happ; cbn [fst snd] in *.
  2:{ destruct Hch as [Hns Hids].
      assert (Hle : last_node (g_ids (engine p)) <= last_node (g_ids g)).
      { rewrite wrap_room in Hids by done. lia. }
      destruct (frame_nodes p (put_engine g p) T) as [T' Hreg]; try done.
      { split; [done|done|done|cbn; lia]. }
      { apply (t_dead_edge _ T). }
      split; [done|done|done|auto|by left]. }
  unfold direct_record, io_as.
  destruct (plain_record sys [w] g Hsys Hp') as (g' & Hrec & Hg' & Hi & Hids). rewrite Hrec. cbn [fst snd is_ok].
  rewrite <- Hi, <- Hids in *. clear Hi Hids Hrec Hp' Happ g. rename g' into g.
  destruct w as [n|id|e|id| | | | |]; try done; cbn [stamp_op node_change] in *.
  - destruct Hch as [Hns Hcase]. cbn [fst snd] in *.
    set (p' := stamp_write now (TNode (n_id n)) (put_engine g p)).
    assert (Hown : owns p (n_id n) (n_uuid n) /\ is_node (n_uuid n) = true /\
      last_node (g_ids (engine p)) <= last_node (g_ids g) /\ n_id n <= last_node (g_ids g)).
    { destruct Hcase as [((nn & ->) & Hid & Hu & Hl)|(old & Ho & Hu & Hl)].
      - rewrite wrap_room in Hid by done. destruct Hfresh as [Hk Hno]. rewrite <- Hu in Hk, Hno.
        pose proof (t_counted _ T (n_id n)) as Hc. split; [|split; [done|lia]]. right. right.
        split; [|split; [|done]]; apply eq_None_not_Some; intros Hs;
          [specialize (Hc (or_introl Hs))|specialize (Hc (or_intror Hs))]; lia.
      - split; [left; eauto|]. rewrite Hu. split; [by apply (t_node _ T _ _ Ho)|].
        pose proof (t_counted _ T (n_id n) (or_introl (mk_is_Some _ _ Ho))). lia. }
    destruct Hown as (Hown & Hu & Hle & Hid).
    destruct (put_node p p' (n_id n) n (mkStamp (HlcClock.tick (clock p) now) (origin p)) T Hown Hu eq_refl)
      as [T' Hreg]; try done.
    split; [done|done|done| |].
    + intros s Hs. apply stamp_write_stamps in Hs as [?| ->]; [by left|by right].
    + right. split; [done|]. eauto.
  - destruct Hch as (-> & Hns & [old Ho] & Hl). cbn [fst snd captured_uuid] in *. rewrite Ho. cbn [fmap option_fmap option_map from_option].
    set (p' := stamp_tombstone now (TNode id) (n_uuid old) (put_engine g p)).
    assert (Hown : owns p id (n_uuid old)) by (left; eauto).
    pose proof (t_counted _ T id (or_introl (mk_is_Some _ _ Ho))) as Hc.
    destruct (del_node p p' id (n_uuid old) (mkStamp (HlcClock.tick (clock p) now) (origin p)) T Hown
      (t_node _ T _ _ Ho)) as [T' Hreg]; try done.
    { split; [done|done|cbn; lia|cbn; lia]. }
    split; [done|done|done| |].
    + intros s Hs. apply stamp_tombstone_stamps in Hs as [?| ->]; [by left|by right].
    + right. split; [done|]. eauto.
  - destruct Hch as [Hns Hl]. cbn [fst snd] in *.
    set (p' := stamp_write now (TEdge (e_id e)) (put_engine g p)).
    destruct (frame_nodes p p' T) as [T' Hreg]; try done.
    { split; [done|done|cbn; lia|cbn; lia]. }
    { intros k. cbn. by rewrite lookup_insert_ne. }
    { intros k. cbn. by rewrite lookup_delete_ne. }
    { intros k t. cbn. rewrite lookup_delete. case_decide; [done|]. apply (t_dead_edge _ T). }
    split; [done|done|done| |by left].
    intros s Hs. apply stamp_write_stamps in Hs as [?| ->]; [by left|by right].
  - destruct Hch as (-> & Hns & Hl & [old Ho]). cbn [fst snd captured_uuid] in *. rewrite Ho. cbn [fmap option_fmap option_map from_option].
    set (p' := stamp_tombstone now (TEdge id) (e_uuid old) (put_engine g p)).
    destruct (frame_nodes p p' T) as [T' Hreg]; try done.
    { split; [done|done|cbn; lia|cbn; lia]. }
    { intros k. cbn. by rewrite lookup_delete_ne. }
    { intros k. cbn. by rewrite lookup_insert_ne. }
    { intros k t. cbn. rewrite lookup_insert. case_decide; [intros [= <-]; by apply (t_edges _ T id old)|].
      apply (t_dead_edge _ T). }
    split; [done|done|done| |by left].
    intros s Hs. apply stamp_tombstone_stamps in Hs as [?| ->]; [by left|by right].
Qed.

(** ** Version vectors *)
Definition seen_in (l : list Stamp) (s : Stamp) : Prop :=
  exists s', s' ∈ l /\ stamp_origin s' = stamp_origin s /\ ~ hlc_lt (stamp_hlc s') (stamp_hlc s).

Lemma observe_dominates vv a s : stamp_ok a ->
  VV.dominates (VV.observe vv a) s = true <->
  VV.dominates vv s = true \/ (stamp_origin a = stamp_origin s /\ ~ hlc_lt (stamp_hlc a) (stamp_hlc s)).
Proof.
  intros [_ Ha]. unfold VV.dominates, VV.get, VV.observe. rewrite lookup_insert. case_decide as Ho.
  - rewrite Ho, negb_true_iff, hlc_ltb_false. destruct (vv !! stamp_origin s) as [h|]; cbn [default from_option]; unfold id.
    + rewrite negb_true_iff, hlc_ltb_false.
      assert (E : hlc_ltb h (stamp_hlc a) = true <-> hlc_lt h (stamp_hlc a)) by done.
      destruct (hlc_ltb h (stamp_hlc a)); rewrite !hlc_lt_spec in *.
      * destruct E as [E _]. specialize (E eq_refl). lia.
      * destruct E as [_ E]. assert (~ hlc_lt h (stamp_hlc a)) as E' by (rewrite hlc_lt_spec; intros H; by apply E in H).
        rewrite hlc_lt_spec in E'. lia.
    + destruct (hlc_ltb hlc_default (stamp_hlc a)) eqn:E.
      * split; [by right|]. intros [?|[_ ?]]; done.
      * apply hlc_ltb_false in E. destruct (hlc_total hlc_default (stamp_hlc a)) as [[?|<-]|?]; [done| |done].
        split; [by right|]. intros [?|[_ ?]]; done.
  - split; [by left|]. intros [?|[? _]]; done.
Qed.

Lemma foldl_dominates l vv s : (forall a, a ∈ l -> stamp_ok a) ->
  VV.dominates (foldl VV.observe vv l) s = true <-> VV.dominates vv s = true \/ seen_in l s.
Proof.
  unfold seen_in. revert vv. induction l as [|a l IH]; intros vv Hok; cbn [foldl].
  - split; [by left|]. intros [?|(s' & Hin & _)]; [done|]. by apply elem_of_nil in Hin.
  - rewrite IH by (intros b Hb; apply Hok; by right). rewrite observe_dominates by (apply Hok; by left). split.
    + intros [[?|[? ?]]|(s' & Hin & Hs)]; [by left|right; exists a; split; [by left|done]|right; exists s'; split; [by right|done]].
    + intros [?|(s' & [->|Hin]%elem_of_cons & Hs)]; [by left; left|by left; right|right; eauto].
Qed.

Lemma version_vector_seen p s : timed p ->
  VV.dominates (version_vector p) s = true <-> seen_in (all_stamps p) s.
Proof.
  intros T. unfold version_vector. rewrite <- foldl_app. fold (all_stamps p). rewrite foldl_dominates.
  - split; [intros [H|?]; [|done]|by right]. unfold VV.dominates, VV.get, VV.new in H. by rewrite lookup_empty in H.
  - intros a Ha. by apply (td_stamps _ T).
Qed.

Lemma register_stamp p u r : tidy p -> registers p !! u = Some r -> reg_stamp r ∈ all_stamps p.
Proof.
  intros T Hr. apply registers_holds in Hr; [|done]. apply elem_all_stamps.
  destruct Hr as [(id & n & s & _ & _ & Hs & ->)|(id & s & Ht & ->)]; [left|right]; eauto.
Qed.

(** ** Peers *)
Inductive exchange (ps : Peers) : Peers -> Prop :=
| exchange_write i p sys now op : ps !! i = Some p -> sys_ok sys -> can_write sys now op p ->
    calm (write sys now op p).1 -> exchange ps (<[i := (write sys now op p).1]> ps)
| exchange_pull i j p q sys nows : ps !! i = Some p -> ps !! j = Some q -> sys_ok sys -> can_pull nows p q ->
    calm (pull sys nows q p).1 -> exchange ps (<[i := (pull sys nows q p).1]> ps).

(** States that writes and pulls lead to, from peers that hold nothing. *)
Inductive exchanged : Peers -> Prop :=
| exchanged_new ps : (forall i p, ps !! i = Some p -> exists durable, p = new_peer durable i) -> exchanged ps
| exchanged_step ps ps' : exchanged ps -> exchange ps ps' -> exchanged ps'.

(** [H] names the write each stamp belongs to. *)
Abbreviation History := (Stamp -> option (N * option Node)).

(** [p] has the write of [s], or a later one to the same node. *)
Definition knows (p : Peer) (u : N) (s : Stamp) : Prop :=
  exists r, registers p !! u = Some r /\ ~ stamp_lt (reg_stamp r) s.

Record peer_ok (H : History) (p : Peer) : Prop := {
  p_tidy : tidy p;
  p_timed : timed p;
  p_history : forall u r, registers p !! u = Some r -> H (reg_stamp r) = Some (u, reg_value r);
  p_own_clock : forall s w, H s = Some w -> stamp_origin s = origin p -> ~ hlc_lt (clock p) (stamp_hlc s);
  p_seen : forall s u v, H s = Some (u, v) -> seen_in (all_stamps p) s -> knows p u s;
  p_own : forall s u v, H s = Some (u, v) -> stamp_origin s = origin p -> knows p u s;
}.

(** A stamp's origin has issued it. *)
Definition issued (ps : Peers) : Prop := forall i p j q s, ps !! i = Some p -> ps !! j = Some q ->
  s ∈ all_stamps p -> stamp_origin s = origin q -> ~ hlc_lt (clock q) (stamp_hlc s).

Definition system_ok (ps : Peers) : Prop := issued ps /\
  (forall i p, ps !! i = Some p -> origin p = i) /\
  exists H, forall i p, ps !! i = Some p -> peer_ok H p.

Lemma stamp_not_lt a b : stamp_origin a = stamp_origin b -> ~ hlc_lt (stamp_hlc a) (stamp_hlc b) -> ~ stamp_lt a b.
Proof. intros Ho Hn [?|[_ ?]]%stamp_lt_spec; [done|lia]. Qed.

Lemma stamp_ge_trans a b c : ~ stamp_lt a b -> ~ stamp_lt b c -> ~ stamp_lt a c.
Proof.
  intros H1 H2 H3. destruct (stamp_total a b) as [[?| ->]|Hba]; [done|done|].
  exact (H2 (transitivity Hba H3)).
Qed.

Lemma hlc_ge_trans a b c : ~ hlc_lt a b -> ~ hlc_lt b c -> ~ hlc_lt a c.
Proof. rewrite !hlc_lt_spec. lia. Qed.

Lemma new_peer_ok durable i : peer_ok (fun _ => None) (new_peer durable i) /\ all_stamps (new_peer durable i) = [].
Proof.
  assert (T : tidy (new_peer durable i)).
  { split; try done.
    - by destruct durable.
    - intros id. cbn. rewrite !lookup_empty. by split; intros [? ?].
    - intros id. cbn. rewrite !lookup_empty. by intros [[? ?]|[? ?]]. }
  split; [|done]. split; try done.
  split; [by vm_compute|by vm_compute|]. intros s Hs. by apply elem_of_nil in Hs.
Qed.

(** *** A step keeps the system *)

(** Registers only move forward. *)
Definition advances (p p' : Peer) : Prop := forall u s, knows p u s -> knows p' u s.

Lemma advances_same p p' : registers p' = registers p -> advances p p'.
Proof. intros Hr u s (r & H1 & H2). exists r. by rewrite Hr. Qed.

Lemma advances_insert p p' u r : registers p' = <[u := r]> (registers p) ->
  (forall r0, registers p !! u = Some r0 -> ~ stamp_lt (reg_stamp r) (reg_stamp r0)) -> advances p p'.
Proof.
  intros Hr Hle u' s (r0 & H1 & H2). unfold knows. rewrite Hr, lookup_insert. case_decide as Hd; [|eauto].
  subst u'. exists r. split; [done|]. eapply stamp_ge_trans; [by apply Hle|done].
Qed.

(** Replacing one peer in a system whose histories agree. *)
Lemma system_replace ps i p p' H H' : issued ps -> (forall j q, ps !! j = Some q -> origin q = j) ->
  (forall j q, ps !! j = Some q -> peer_ok H q) -> ps !! i = Some p -> origin p' = origin p ->
  ~ hlc_lt (clock p') (clock p) ->
  (forall s q, s ∈ all_stamps p' -> (origin q = i -> clock q = clock p') -> (q = p' \/ exists j, ps !! j = Some q) ->
     stamp_origin s = origin q -> ~ hlc_lt (clock q) (stamp_hlc s)) ->
  peer_ok H' p' -> (forall j q, j <> i -> ps !! j = Some q -> peer_ok H' q) ->
  system_ok (<[i := p']> ps).
Proof.
  intros Hiss Ho Hps Hp Hop Hclk Hst Hp' Hothers.
  assert (Hcase : forall j q, <[i := p']> ps !! j = Some q -> (j = i /\ q = p') \/ (j <> i /\ ps !! j = Some q)).
  { intros j q. rewrite lookup_insert. case_decide; [intros [= <-]; by left|by right]. }
  split; [|split].
  - intros j q k q' s Hq Hq' Hin Hso.
    destruct (Hcase _ _ Hq) as [[-> ->]|[Hj Hqj]], (Hcase _ _ Hq') as [[-> ->]|[Hk Hqk]].
    + apply (Hst s p'); auto.
    + apply (Hst s q'); eauto. intros Hoq. rewrite (Ho k q' Hqk) in Hoq. done.
    + rewrite Hop in Hso. pose proof (Hiss j q i p s Hqj Hp Hin Hso) as Hle.
      by eapply hlc_ge_trans.
    + by eapply (Hiss j q k q').
  - intros j q [[-> ->]|[Hj Hq]]%Hcase; [rewrite Hop|]; by apply Ho.
  - exists H'. intros j q [[-> ->]|[Hj Hq]]%Hcase; [done|by eapply Hothers].
Qed.

Lemma lt_not_lt a b : hlc_lt a b -> ~ hlc_lt b a.
Proof. rewrite !hlc_lt_spec. lia. Qed.

Lemma seen_in_own ps i p j q s : issued ps -> ps !! i = Some p -> ps !! j = Some q ->
  seen_in (all_stamps p) s -> stamp_origin s = origin q -> ~ hlc_lt (clock q) (stamp_hlc s).
Proof.
  intros Hiss Hp Hq (s' & Hin & Hso & Hle) Ho. eapply hlc_ge_trans; [|exact Hle].
  eapply (Hiss i p j q s'); [done|done|done|congruence].
Qed.

(** A write accepted at [p]: [s0] is its stamp, [H'] the longer history. *)
Section accepted.
Context (H H' : History) (p p' : Peer) (s0 : Stamp).
Context (Hok : peer_ok H p) (T' : tidy p') (Horigin : origin p' = origin p).
Context (Hs0 : s0 = mkStamp (clock p') (origin p)) (Hlt : hlc_lt (clock p) (clock p')).
Context (Hrange : hlc_in_range (clock p')).
Context (Hstamps : forall s, s ∈ all_stamps p' -> s ∈ all_stamps p \/ s = s0).
Context (Hkeep : forall s w, H s = Some w -> H' s = Some w).
Context (Hmore : forall s u v, H' s = Some (u, v) -> H s = Some (u, v) \/
  (s = s0 /\ registers p' !! u = Some (mkReg v s0))).
Context (Hadv : advances p p').
Context (Hreg : forall u r, registers p' !! u = Some r -> H' (reg_stamp r) = Some (u, reg_value r)).

Lemma accepted_knows u v s : s = s0 -> registers p' !! u = Some (mkReg v s0) -> knows p' u s.
Proof using Type. intros -> Hr. eexists. split; [exact Hr|]. apply (irreflexivity stamp_lt). Qed.

Lemma accepted_ok : peer_ok H' p'.
Proof using Type*.
  destruct Hok as [T D Hh Hoc Hseen Hown].
  assert (Hold : forall h, ~ hlc_lt (clock p) h -> ~ hlc_lt (clock p') h).
  { intros h Hh'. eapply hlc_ge_trans; [|exact Hh']. by apply lt_not_lt. }
  split; [done| |done| | |].
  - split; [done|apply Hold, D|]. intros s [Hin| ->]%Hstamps.
    + destruct (td_stamps _ D s Hin) as [? ?]. split; [done|by apply Hold].
    + subst s0. split; [|apply (irreflexivity hlc_lt)]. split; [done|]. apply Hold, D.
  - intros s [u v] Hs Hso. destruct (Hmore _ _ _ Hs) as [Hs'|[-> _]].
    + eapply Hold, Hoc; [done|congruence].
    + subst s0. apply (irreflexivity hlc_lt).
  - intros s u v Hs (s' & Hin & Hso & Hle). destruct (Hmore _ _ _ Hs) as [Hs'|[-> Hr]]; [|by eapply accepted_knows].
    apply Hadv. destruct (Hstamps s' Hin) as [Hin'| ->].
    + eapply Hseen; [done|]. by exists s'.
    + eapply Hown; [done|]. by subst s0.
  - intros s u v Hs Hso. destruct (Hmore _ _ _ Hs) as [Hs'|[-> Hr]]; [|by eapply accepted_knows].
    apply Hadv. eapply Hown; [done|congruence].
Qed.

Lemma accepted_other ps i j q : issued ps -> ps !! i = Some p -> ps !! j = Some q -> origin q <> origin p ->
  peer_ok H q -> peer_ok H' q.
Proof using Type*.
  intros Hiss Hp Hq Hne [Tq Dq Hhq Hocq Hseenq Hownq]. split; [done|done| | | |].
  - intros u r Hr. by apply Hkeep, Hhq.
  - intros s [u v] Hs Hso. destruct (Hmore _ _ _ Hs) as [Hs'|[-> _]]; [by eapply Hocq|].
    subst s0. by destruct Hne.
  - intros s u v Hs Hsee. destruct (Hmore _ _ _ Hs) as [Hs'|[-> _]]; [by eapply Hseenq|].
    destruct (seen_in_own ps j q i p s0 Hiss Hq Hp Hsee); [by subst s0|by subst s0].
  - intros s u v Hs Hso. destruct (Hmore _ _ _ Hs) as [Hs'|[-> _]]; [by eapply Hownq|].
    subst s0. by destruct Hne.
Qed.
End accepted.

Lemma write_keeps ps i p sys now op : system_ok ps -> ps !! i = Some p -> sys_ok sys -> can_write sys now op p ->
  calm (write sys now op p).1 -> system_ok (<[i := (write sys now op p).1]> ps).
Proof.
  intros (Hiss & Ho & H & Hps) Hp Hsys Hcan Hcalm.
  pose proof (Hps i p Hp) as Hok. destruct Hok as [T D Hh Hoc Hseen Hown]. pose proof (Ho i p Hp) as Hop.
  pose proof (write_effect sys now op p Hsys T Hcan) as [T' O' C' S' R'].
  set (p' := (write sys now op p).1) in *. set (b := is_ok (write sys now op p).2) in *. clearbody p' b.
  destruct Hcan as (Hnow & _).
  assert (Hlive : forall s q, s ∈ all_stamps p -> stamp_origin s = origin q -> (exists j, ps !! j = Some q) ->
    ~ hlc_lt (clock q) (stamp_hlc s)).
  { intros s q Hin Hso [j Hq]. by eapply (Hiss i p j q s). }
  destruct b.
  - destruct (clock_tick (clock p) now (td_clock _ D) Hnow) as (Hr & Hw & Hlt).
    rewrite <- C' in Hr, Hw, Hlt. specialize (Hlt Hcalm).
    set (s0 := mkStamp (clock p') (origin p)) in *.
    assert (Hnew : H s0 = None).
    { destruct (H s0) as [w|] eqn:E; [|done]. destruct (Hoc s0 w E eq_refl Hlt). }
    assert (Hst : forall s, s ∈ all_stamps p' -> s ∈ all_stamps p \/ s = s0).
    { intros s [?|[_ ->]]%S'; [by left|by right]. }
    assert (exists H', (forall s w, H s = Some w -> H' s = Some w) /\
      (forall s u v, H' s = Some (u, v) -> H s = Some (u, v) \/ (s = s0 /\ registers p' !! u = Some (mkReg v s0))) /\
      advances p p' /\
      (forall u r, registers p' !! u = Some r -> H' (reg_stamp r) = Some (u, reg_value r)))
      as (H' & Hk & Hm & Ha & Hg).
    { destruct R' as [Heq|(_ & u & v & Heq)].
      - exists H. split; [done|]. split; [by left|]. split; [by apply advances_same|]. by rewrite Heq.
      - exists (fun s => if decide (s = s0) then Some (u, v) else H s). split; [|split; [|split]].
        + intros s w Hs. rewrite decide_False; [done|]. congruence.
        + intros s u' v' Hs. case_decide as Hd; [|by left]. right. split; [done|]. injection Hs as <- <-.
          by rewrite Heq, lookup_insert_eq.
        + eapply advances_insert; [exact Heq|]. intros r0 Hr0. cbn [reg_stamp]. intros Hl.
          assert (Hle : ~ hlc_lt (clock p) (stamp_hlc (reg_stamp r0))).
          { apply (td_stamps _ D). by eapply register_stamp. }
          apply stamp_lt_spec in Hl as [Hl|[Hl _]]; simpl in Hl.
          * apply Hle. by etrans.
          * apply Hle. by rewrite <- Hl.
        + intros u' r. rewrite Heq, lookup_insert. case_decide as Hd.
          * intros [= <-]. cbn. by rewrite decide_True, Hd.
          * intros Hr'. pose proof (Hh u' r Hr') as Hhr. rewrite decide_False; [done|]. congruence. }
    assert (Hokp : peer_ok H p) by done.
    eapply (system_replace ps i p p' H H'); try done.
    + by apply lt_not_lt.
    + intros s q [Hin| ->]%Hst Hcq Hq Hso.
      * destruct Hq as [->|Hq]; [|by eapply Hlive]. rewrite O' in Hso.
        eapply hlc_ge_trans; [by apply lt_not_lt; exact Hlt|]. eapply (Hlive s p); [done|done|by eexists].
      * assert (clock q = clock p') as ->; [|apply (irreflexivity hlc_lt)].
        destruct Hq as [->|_]; [done|]. apply Hcq. rewrite <- Hso. done.
    + by eapply (accepted_ok H H' p p' s0).
    + intros j q Hj Hq. assert (Hne : origin q <> origin p) by (rewrite (Ho j q Hq), Hop; done).
      pose proof (Hps j q Hq) as Hokq. by eapply (accepted_other H H' p p' s0).
  - assert (Hreg : registers p' = registers p) by (destruct R' as [?|[? _]]; done).
    assert (Hst : forall s, s ∈ all_stamps p' -> s ∈ all_stamps p) by (intros s [?|[? _]]%S'; done).
    assert (Hclk : clock p' = clock p) by done.
    eapply (system_replace ps i p p' H H); try done; rewrite ?Hclk; [apply (irreflexivity hlc_lt)| | |].
    + intros s q Hin%Hst Hcq [->|Hq] Hso; [|by eapply Hlive]. rewrite Hclk. eapply (Hlive s p); [done| |by eexists].
      by rewrite <- O'.
    + split; [done| | | | |]; rewrite ?Hreg, ?O'.
      * split; rewrite ?Hclk; [apply D|apply D|]. intros s Hin%Hst. by apply (td_stamps _ D).
      * done.
      * rewrite Hclk. done.
      * intros s u v Hs (s' & Hin%Hst & Hrest). destruct (Hseen s u v Hs) as (r & Hr & Hle); [by exists s'|].
        exists r. by rewrite Hreg.
      * intros s u v Hs Hso. destruct (Hown s u v Hs Hso) as (r & Hr & Hle). exists r. by rewrite Hreg.
    + intros j q _. apply Hps.
Qed.

(** What a pull leaves out is known already: it merges all registers. *)
Lemma pull_whole H sys nows p q : sys_ok sys -> peer_ok H p -> peer_ok H q -> can_pull nows p q ->
  exists p' stats, pull sys nows q p = (p', Ok stats) /\ tidy p' /\
    (forall u, registers p' !! u = union_with (fun a b => Some (reg_max a b)) (registers p !! u) (registers q !! u)) /\
    origin p' = origin p /\ (forall s, s ∈ all_stamps p' -> s ∈ all_stamps p \/ s ∈ all_stamps q) /\
    forward p p' /\ (calm p' -> timed p').
Proof.
  intros Hsys [T D Hh _ Hseen _] [Tq Dq Hhq _ _ _] Hcan.
  destruct (pull_merges sys nows p q Hsys T Tq D Dq Hcan) as (p' & stats & Hpull & T' & Hreg & Hrest).
  exists p', stats. split; [done|]. split; [done|]. split; [|done]. intros u.
  rewrite Hreg. unfold LwwMap.merge. rewrite merge_entries_lookup.
  destruct (registers q !! u) as [rq|] eqn:Hq.
  - destruct (VV.dominates (version_vector p) (reg_stamp rq)) eqn:Hd.
    + assert (missing (version_vector p) (registers q) !! u = None) as ->.
      { apply map_lookup_filter_None. right. intros r Hr. simpl. congruence. }
      apply version_vector_seen in Hd; [|done].
      destruct (Hseen _ _ _ (Hhq u rq Hq) Hd) as (rp & -> & Hle). simpl. f_equal. unfold reg_max.
      destruct (stamp_ltb (reg_stamp rp) (reg_stamp rq)) eqn:E; [by destruct Hle|done].
    + assert (missing (version_vector p) (registers q) !! u = Some rq) as ->; [|done].
      apply map_lookup_filter_Some. by split.
  - assert (missing (version_vector p) (registers q) !! u = None) as ->; [|done].
    apply map_lookup_filter_None. by left.
Qed.

(** The later of two registers is at least each. *)
Lemma max_knows p q p' : (forall u, registers p' !! u =
    union_with (fun a b => Some (reg_max a b)) (registers p !! u) (registers q !! u)) ->
  advances p p' /\ advances q p'.
Proof.
  intros Hreg. split; intros u s (r & Hr & Hle); unfold knows; rewrite Hreg, Hr.
  - destruct (registers q !! u) as [rq|]; simpl; [|eauto]. eexists. split; [done|].
    eapply stamp_ge_trans; [apply reg_max_ge_l|done].
  - destruct (registers p !! u) as [rp|]; simpl; [|eauto]. eexists. split; [done|].
    eapply stamp_ge_trans; [apply reg_max_ge_r|done].
Qed.

Lemma reg_max_cases (a b : Reg) : reg_max a b = a \/ reg_max a b = b.
Proof. unfold reg_max. destruct (stamp_ltb _ _); eauto. Qed.

Lemma pull_ok H p q p' : peer_ok H p -> peer_ok H q -> tidy p' -> timed p' ->
  (forall u, registers p' !! u = union_with (fun a b => Some (reg_max a b)) (registers p !! u) (registers q !! u)) ->
  origin p' = origin p -> (forall s, s ∈ all_stamps p' -> s ∈ all_stamps p \/ s ∈ all_stamps q) ->
  ~ hlc_lt (clock p') (clock p) -> peer_ok H p'.
Proof.
  intros [T D Hh Hoc Hseen Hown] [Tq Dq Hhq Hocq Hseenq Hownq] T' D' Hreg O' S' W'.
  destruct (max_knows p q p' Hreg) as [Hap Haq]. split; [done|done| | | |].
  - intros u r. rewrite Hreg. destruct (registers p !! u) as [rp|] eqn:Hp, (registers q !! u) as [rq|] eqn:Hq;
      simpl; intros [= <-]; [|by apply Hh|by apply Hhq].
    destruct (reg_max_cases rp rq) as [->| ->]; [by apply Hh|by apply Hhq].
  - intros s w Hs Hso. rewrite O' in Hso. eapply hlc_ge_trans; [exact W'|by eapply Hoc].
  - intros s u v Hs (s' & Hin & Hrest). destruct (S' s' Hin) as [Hp|Hq].
    + apply Hap. eapply Hseen; [done|]. by exists s'.
    + apply Haq. eapply Hseenq; [done|]. by exists s'.
  - intros s u v Hs Hso. apply Hap. eapply Hown; [done|congruence].
Qed.

Lemma pull_keeps ps i j p q sys nows : system_ok ps -> ps !! i = Some p -> ps !! j = Some q ->
  sys_ok sys -> can_pull nows p q -> calm (pull sys nows q p).1 -> system_ok (<[i := (pull sys nows q p).1]> ps).
Proof.
  intros (Hiss & Ho & H & Hps) Hp Hq Hsys Hcan Hcalm.
  destruct (pull_whole H sys nows p q Hsys (Hps i p Hp) (Hps j q Hq) Hcan)
    as (p' & stats & Hpull & T' & Hreg & O' & S' & W' & D'). rewrite Hpull in *. cbn [fst] in *.
  specialize (D' Hcalm). destruct W' as [_ W']. specialize (W' Hcalm).
  assert (Hlive : forall s q', (s ∈ all_stamps p \/ s ∈ all_stamps q) -> stamp_origin s = origin q' ->
    (exists k, ps !! k = Some q') -> ~ hlc_lt (clock q') (stamp_hlc s)).
  { intros s q' [Hin|Hin] Hso [k Hk]; [by eapply (Hiss i p k q' s)|by eapply (Hiss j q k q' s)]. }
  apply (system_replace ps i p p' H H); try done.
  - intros s q' Hin%S' Hcq [->|Hk] Hso; [|by eapply Hlive]. rewrite O' in Hso.
    eapply hlc_ge_trans; [exact W'|]. eapply (Hlive s p); [done|done|by eexists].
  - by apply (pull_ok H p q p' (Hps i p Hp) (Hps j q Hq)).
  - intros k q' _. apply Hps.
Qed.

Lemma exchanged_ok ps : exchanged ps -> system_ok ps.
Proof.
  induction 1 as [ps Hnew|ps ps' _ IH Hstep].
  - split; [|split].
    + intros i p j q s Hp _ Hin. destruct (Hnew i p Hp) as [d ->]. rewrite (proj2 (new_peer_ok d i)) in Hin.
      by apply elem_of_nil in Hin.
    + intros i p Hp. by destruct (Hnew i p Hp) as [d ->].
    + exists (fun _ => None). intros i p Hp. destruct (Hnew i p Hp) as [d ->]. apply new_peer_ok.
  - destruct Hstep; [by eapply write_keeps|by eapply pull_keeps].
Qed.

End peers.

(** ** Exchanges by example *)
Module Exchange.
#[local] Instance text : JsonText := fun _ => ""%string.

(** Uuids below a thousand are nodes'. *)
Definition node_uuid (u : N) : bool := u <? 1000.

Definition sys (u : N) : Sys := mkSys (mkEnv 5 u) true true.

Inductive Event : Type := EWrite (i : OriginId) (now : Z) (u : N) (op : GraphOp) | EPull (i j : OriginId).

Definition writable (now : Z) (u : N) (op : GraphOp) (p : Peer) : bool :=
  bool_decide (i64_min <= now <= i64_max)%Z && (last_node (g_ids (engine p)) + 1 <? 2 ^ 64) &&
  match op with
  | DoCreateNode _ => node_uuid u && bool_decide (registers p !! u = None)
  | DoCreateEdge _ => negb (node_uuid u)
  | _ => true
  end.
Definition pullable (p q : Peer) : bool :=
  last_node (g_ids (engine p)) + N.of_nat (length (delta_since q (version_vector p))) <? 2 ^ 64.
Definition calm_now (p : Peer) : bool := (wall_ms (clock p) <? i64_max)%Z.

Definition play_event (ps : Peers) (e : Event) : option Peers :=
  match e with
  | EWrite i now u op =>
      p ← ps !! i;
      let p' := (write (sys u) now op p).1 in
      if writable now u op p && calm_now p' then Some (<[i := p']> ps) else None
  | EPull i j =>
      p ← ps !! i; q ← ps !! j;
      let p' := (pull (sys 0) [] q p).1 in
      if pullable p q && calm_now p' then Some (<[i := p']> ps) else None
  end.

Definition play (l : list Event) (ps : Peers) : option Peers :=
  foldl (fun acc e => ps ← acc; play_event ps e) (Some ps) l.

Lemma writable_ok now u op p : tidy node_uuid p -> writable now u op p = true -> can_write node_uuid (sys u) now op p.
Proof.
  intros T. unfold writable. rewrite !andb_true_iff, bool_decide_eq_true, N.ltb_lt. intros [[H1 H2] H3].
  split; [done|]. split; [done|]. destruct op; simpl in *; try done.
  - apply andb_true_iff in H3 as [Hk Hn%bool_decide_eq_true]. split; [done|]. by apply (registers_none node_uuid).
  - by apply negb_true_iff in H3.
Qed.

Lemma play_event_exchanged ps e ps' : exchanged node_uuid ps -> play_event ps e = Some ps' -> exchanged node_uuid ps'.
Proof.
  intros Hps He. pose proof (exchanged_ok node_uuid ps Hps) as (_ & _ & H & Hok). destruct e as [i now u op|i j]; simpl in He.
  - destruct (ps !! i) as [p|] eqn:Hp; simpl in He; [|done].
    destruct (writable now u op p && _) eqn:E; [|done]. apply andb_true_iff in E as [Hw Hc%Z.ltb_lt].
    injection He as <-. eapply exchanged_step; [exact Hps|]. apply exchange_write; [done|done| |done].
    apply writable_ok; [|done]. by eapply p_tidy, Hok.
  - destruct (ps !! i) as [p|] eqn:Hp; simpl in He; [|done]. destruct (ps !! j) as [q|] eqn:Hq; simpl in He; [|done].
    destruct (pullable p q && _) eqn:E; [|done]. apply andb_true_iff in E as [Hw%N.ltb_lt Hc%Z.ltb_lt].
    injection He as <-. eapply exchanged_step; [exact Hps|]. eapply exchange_pull; [done|done|done| |done]. by split.
Qed.

Lemma play_exchanged l ps ps' : exchanged node_uuid ps -> play l ps = Some ps' -> exchanged node_uuid ps'.
Proof.
  unfold play. revert ps. induction l as [|e l IH]; intros ps Hps; cbn [foldl]; [by intros [= <-]|].
  cbn [mbind option_bind]. destruct (play_event ps e) as [ps1|] eqn:E.
  - apply IH. by eapply play_event_exchanged.
  - intros Hno. exfalso. clear -Hno. induction l; [done|auto].
Qed.

Definition person (title : string) : GraphOp := DoCreateNode (mkNewNode "Person" title "" "" ∅).
Definition knows_edge (a b : N) : GraphOp := DoCreateEdge (mkNewEdge a b "KNOWS" (mkF32 0) ∅).
Definition retitle (id : N) (title : string) : GraphOp :=
  DoUpdateNode id (mkNodePatch None (Some title) None None None).

Definition start : Peers := {[ 1%Z := new_peer true 1%Z; 2%Z := new_peer false 2%Z ]}.

Lemma start_exchanged : exchanged node_uuid start.
Proof.
  apply exchanged_new. intros i p. unfold start. rewrite lookup_insert, lookup_singleton.
  repeat case_decide; try done; intros [= <-]; subst; eauto.
Qed.

Definition peer (ps : option Peers) (i : OriginId) : Peer :=
  default (new_peer false i) (ps ← ps; ps !! i).
Definition titles_at (p : Peer) : gmap N string :=
  list_to_map ((fun n => (n_uuid n, n_title n)) <$> (map_to_list (live_nodes p)).*2).

(** ann is made at 1 and bob at 2; they meet; then 1 renames ann while 2
    deletes bob and renames ann earlier. *)
Definition meeting : list Event :=
  [EWrite 1 1 101 (person "ann"); EWrite 2 1 102 (person "bob"); EPull 2 1;
   EWrite 1 9 0 (retitle 1 "anna"); EWrite 2 5 0 (DoDeleteNode 1); EWrite 2 6 0 (retitle 2 "anne")].
Definition met : option Peers := play meeting start.

Definition met_peers : Peers := default ∅ met.

Lemma met_exchanged : exchanged node_uuid met_peers.
Proof.
  apply (play_exchanged meeting start); [apply start_exchanged|]. unfold met_peers, met.
  destruct (play meeting start) eqn:E; [done|]. exfalso. revert E. by vm_compute.
Qed.

Lemma met_at i : i = 1%Z \/ i = 2%Z -> met_peers !! i = Some (peer met i).
Proof. intros [->| ->]; by vm_compute. Qed.

Lemma met_ok i : i = 1%Z \/ i = 2%Z -> tidy node_uuid (peer met i) /\ timed (peer met i).
Proof.
  intros Hi. destruct (exchanged_ok node_uuid _ met_exchanged) as (_ & _ & H & Hok).
  destruct (Hok i _ (met_at i Hi)) as [T D _ _ _ _]. done.
Qed.

Lemma merge_is_lww_witness : exists p' stats, pull (sys 0) [] (peer met 2) (peer met 1) = (p', Ok stats) /\
  tidy node_uuid p' /\ registers p' =
    (LwwMap.merge (registers (peer met 1)) (missing (version_vector (peer met 1)) (registers (peer met 2)))).1.
Proof.
  destruct (met_ok 1) as [T1 D1]; [by left|]. destruct (met_ok 2) as [T2 D2]; [by right|].
  apply (merge_is_lww node_uuid (sys 0) [] (peer met 1) (peer met 2)); [done|done|done|done|done|].
  split; [done|]. by vm_compute.
Defined.

Definition after_1 : Peer := (pull (sys 0) [] (peer met 2) (peer met 1)).1.
Definition after_2 : Peer := (pull (sys 0) [] after_1 (peer met 2)).1.


(** *** Edges *)
Definition edges_at (p : Peer) : list N := e_uuid <$> (map_to_list (edges (inner (engine p)))).*2.

(** 2 deletes ann, whom 1 knows to know bob; 1 renames ann later. *)
Definition parting : list Event :=
  [EWrite 1 1 101 (person "ann"); EWrite 1 1 102 (person "bob"); EWrite 1 1 1001 (knows_edge 1 2); EPull 2 1;
   EWrite 2 5 0 (DoDeleteNode 2); EWrite 1 9 0 (retitle 1 "anna"); EPull 2 1; EPull 1 2].

(** Deleting a node deletes its edges without tombstones and leaves their
    stamps.  When a later write brings the node back, the edge is gone at one
    peer and stays at the other; neither has anything left to send. *)
Theorem cascade_never_sent :
  let p := peer (play parting start) 1 in let q := peer (play parting start) 2 in
  registers p = registers q /\ edges_at p = [1001] /\ edges_at q = [] /\
  delta_since p (version_vector q) = [] /\ delta_since q (version_vector p) = [].
Proof. repeat split; by vm_compute. Qed.
End Exchange.
