(* ===== verification/Encryption.v ===== *)
(** * Files sealed at rest
    ([src/drevo-core/src/encryption.rs], [sealed_file.rs])

    XChaCha20-Poly1305 is a third-party cipher: [encrypt] and [decrypt] are
    parameters, with its correctness and the length of its tag as laws.  A
    nonce is what the system's randomness gives, or nothing.

    - [sidecar_opens_only_as_written]: a sidecar opens with the key and under
      the context it was written with, and as nothing else;
    - [sidecar_log_recovers]: an append-only sidecar cut short yields the
      records before the cut. *)
From S2P Require Import Prelude WireBytes.
Local Open Scope string_scope.
Local Open Scope list_scope.
Local Open Scope N_scope.

Definition NONCE_LEN : nat := 24.
Definition TAG_LEN : nat := 16.

(** A key is its 32 bytes. *)
Abbreviation Key := bytes (only parsing).

Inductive EncryptionError : Type := Authentication | Truncated | BadKey (why : string) | NoRandomness.

(** ** [Key::from_hex] *)
Definition is_hexdigit (b : N) : bool := within 48 57 b || within 65 70 b || within 97 102 b.
Definition digit_value (b : N) : N := if b <=? 57 then b - 48 else if b <=? 70 then b - 55 else b - 87.

(** The loop over the pairs of digits. *)
Fixpoint hex_pairs (text : bytes) : bytes :=
  match text with
  | a :: b :: text => digit_value a * 16 + digit_value b :: hex_pairs text
  | _ => []
  end.

Definition from_hex (text : bytes) : result EncryptionError Key :=
  let text := trim text in
  if negb (bool_decide (length text = 64%nat)) || negb (forallb is_hexdigit text)
  then Err (BadKey "a key is 64 hexadecimal digits (32 bytes)")
  else Ok (hex_pairs text).

(** ** Sealing *)

(** The cipher: key, nonce, authenticated context, and the message. *)
Class Aead : Type := {
  encrypt : Key -> bytes -> bytes -> bytes -> option bytes;
  decrypt : Key -> bytes -> bytes -> bytes -> option bytes;
}.

(** What the cipher promises: it undoes itself and adds a tag. *)
Class AeadLaws `{Aead} : Prop := {
  decrypt_encrypt : forall k n c m s, encrypt k n c m = Some s -> decrypt k n c s = Some m;
  encrypt_length : forall k n c m s, encrypt k n c m = Some s -> length s = (length m + TAG_LEN)%nat;
}.

Section seal.
Context {aead : Aead}.

Definition seal (nonce : option bytes) (k : Key) (context plaintext : bytes) : result EncryptionError bytes :=
  nonce ← ok_or NoRandomness nonce;
  sealed ← ok_or Authentication (encrypt k nonce context plaintext);
  Ok (nonce ++ sealed).

Definition open (k : Key) (context sealed : bytes) : result EncryptionError bytes :=
  if (length sealed <? NONCE_LEN + TAG_LEN)%nat then Err Truncated
  else ok_or Authentication (decrypt k (take NONCE_LEN sealed) context (drop NONCE_LEN sealed)).

(** ** Whole-file sidecars *)
Definition MAGIC : bytes := ascii_bytes "DRVSEAL1".

Inductive DecodeError : Type := IsEncrypted | NotEncrypted | DoesNotDecrypt.

Definition starts_with (p l : bytes) : bool := bool_decide (take (length p) l = p).

Definition encode (nonce : option bytes) (k : option Key) (context bs : bytes) : result EncryptionError bytes :=
  match k with
  | None => Ok bs
  | Some k => sealed ← seal nonce k context bs; Ok (MAGIC ++ sealed)
  end.

Definition decode (k : option Key) (context bs : bytes) : result DecodeError bytes :=
  let sealed := starts_with MAGIC bs in
  match k with
  | None => if sealed then Err IsEncrypted else Ok bs
  | Some k =>
      if negb sealed then Err NotEncrypted
      else match open k context (drop (length MAGIC) bs) with
           | Ok plain => Ok plain
           | Err _ => Err DoesNotDecrypt
           end
  end.

(** ** Append-only sidecars *)
Inductive RecordError : Type := SealFailed (e : EncryptionError) | TooLong.

Definition record (nonce : option bytes) (k : Key) (context bs : bytes) : result RecordError bytes :=
  match seal nonce k context bs with
  | Err e => Err (SealFailed e)
  | Ok sealed =>
      if N.of_nat (length sealed) <? 2 ^ 32
      then Ok (le_bytes 4 (N.of_nat (length sealed)) ++ sealed) else Err TooLong
  end.

(** The loop of [records]; every record takes four bytes at least. *)
Fixpoint records_loop (fuel : nat) (rest : bytes) (k : Key) (context : bytes) : list bytes :=
  match fuel with
  | O => []
  | S fuel =>
      if (length rest <? 4)%nat then []
      else
        let len := N.to_nat (from_le (take 4 rest)) in
        if (length rest <? 4 + len)%nat then []
        else match open k context (take len (drop 4 rest)) with
             | Err _ => []
             | Ok plain => plain :: records_loop fuel (drop (4 + len) rest) k context
             end
  end.

Definition records (bs : bytes) (k : Key) (context : bytes) : result DecodeError (list bytes) :=
  if starts_with MAGIC bs
  then let rest := drop (length MAGIC) bs in Ok (records_loop (S (length rest)) rest k context)
  else Err NotEncrypted.
End seal.

(** ** What opens *)
Section laws.
Context {aead : Aead} {laws : AeadLaws}.

Lemma seal_shape n k c m s : seal n k c m = Ok s -> exists nonce body, n = Some nonce /\
  encrypt k nonce c m = Some body /\ s = nonce ++ body.
Proof.
  unfold seal. destruct n as [nonce|]; [|done]. cbn.
  destruct (encrypt k nonce c m) as [body|] eqn:E; [|done]. cbn. intros [= <-]. eauto.
Qed.

Lemma open_nonce k c nonce body : length nonce = NONCE_LEN ->
  open k c (nonce ++ body) = if (length body <? TAG_LEN)%nat then Err Truncated
                             else ok_or Authentication (decrypt k nonce c body).
Proof.
  intros Hn. unfold open. rewrite take_app_length', drop_app_length' by done. rewrite length_app, Hn.
  destruct (Nat.ltb_spec (length body) TAG_LEN), (Nat.ltb_spec (NONCE_LEN + length body) (NONCE_LEN + TAG_LEN));
    done || lia.
Qed.

Lemma open_seal n k c m s : length (default [] n) = NONCE_LEN -> seal n k c m = Ok s -> open k c s = Ok m.
Proof using laws.
  intros Hn (nonce & body & -> & E & ->)%seal_shape. rewrite open_nonce by done.
  pose proof (encrypt_length _ _ _ _ _ E). destruct (Nat.ltb_spec (length body) TAG_LEN); [lia|].
  by rewrite (decrypt_encrypt _ _ _ _ _ E).
Qed.

Lemma magic_prefix l : starts_with MAGIC (MAGIC ++ l) = true /\ drop (length MAGIC) (MAGIC ++ l) = l.
Proof. split; [|by rewrite drop_app_length]. unfold starts_with. by rewrite take_app_length, bool_decide_true. Qed.

(** A sidecar file reads back with the key and context it was written
    with.  An encrypted one does not read without a key, and under another key
    or context only if the cipher accepts its body there; a plain one (that
    does not begin like an encrypted one) does not read with any key. *)
Theorem sidecar_opens_only_as_written n k c bs file : length (default [] n) = NONCE_LEN ->
  encode n k c bs = Ok file -> starts_with MAGIC bs = false ->
  decode k c file = Ok bs /\
  match k with
  | None => forall k' c', decode (Some k') c' file = Err NotEncrypted
  | Some k =>
      (forall c', decode None c' file = Err IsEncrypted) /\
      exists nonce body, encrypt k nonce c bs = Some body /\
        forall k' c', decode (Some k') c' file = ok_or DoesNotDecrypt (decrypt k' nonce c' body)
  end.
Proof using laws.
  intros Hn He Hplain. destruct k as [k|]; unfold encode in He.
  - destruct (seal n k c bs) as [s|] eqn:E; [|done].
    assert (file = MAGIC ++ s) as -> by (symmetry; by injection He).
    pose proof (magic_prefix s) as [M1 M2]. unfold decode. rewrite M1, M2. cbn [negb].
    rewrite (open_seal _ _ _ _ _ Hn E). split; [done|]. split; [done|].
    destruct (seal_shape _ _ _ _ _ E) as (nonce & body & -> & Hb & ->). exists nonce, body. split; [done|].
    intros k' c'. rewrite open_nonce by done. pose proof (encrypt_length _ _ _ _ _ Hb).
    destruct (Nat.ltb_spec (length body) TAG_LEN); [lia|]. by destruct (decrypt k' nonce c' body).
  - injection He as <-. unfold decode. by rewrite Hplain.
Qed.

(** ** Append-only sidecars cut short *)
Lemma record_shape n k c m r : record n k c m = Ok r -> exists s, seal n k c m = Ok s /\
  N.of_nat (length s) < 2 ^ 32 /\ r = le_bytes 4 (N.of_nat (length s)) ++ s.
Proof.
  unfold record. destruct (seal n k c m) as [s|] eqn:E; [|done].
  destruct (N.ltb_spec (N.of_nat (length s)) (2 ^ 32)); [|done]. intros [= <-]. eauto.
Qed.

Lemma records_step k c s rest fuel : N.of_nat (length s) < 2 ^ 32 ->
  records_loop (S fuel) ((le_bytes 4 (N.of_nat (length s)) ++ s) ++ rest) k c =
  match open k c s with Err _ => [] | Ok p => p :: records_loop fuel rest k c end.
Proof.
  intros Hs. set (h := le_bytes 4 (N.of_nat (length s))). assert (Hh : length h = 4%nat) by apply length_le_bytes.
  cbn [records_loop]. rewrite <- app_assoc. rewrite (take_app_length' h), (drop_app_length' h) by done.
  assert (Hlen : N.to_nat (from_le h) = length s).
  { unfold h. rewrite from_to_le, N.mod_small by done. lia. }
  rewrite Hlen, take_app_length. rewrite !length_app, Hh.
  destruct (Nat.ltb_spec (4 + (length s + length rest)) 4); [lia|].
  destruct (Nat.ltb_spec (4 + (length s + length rest)) (4 + length s)); [lia|].
  rewrite <- drop_drop, (drop_app_length' h), drop_app_length by done. done.
Qed.

Lemma records_cut k c r s cut fuel : N.of_nat (length s) < 2 ^ 32 ->
  r = le_bytes 4 (N.of_nat (length s)) ++ s -> (cut < length r)%nat -> records_loop fuel (take cut r) k c = [].
Proof.
  intros Hs -> Hc. set (h := le_bytes 4 (N.of_nat (length s))) in *.
  assert (Hh : length h = 4%nat) by apply length_le_bytes. rewrite length_app, Hh in Hc.
  destruct fuel as [|fuel]; [done|]. cbn [records_loop]. rewrite length_take, length_app, Hh.
  destruct (Nat.ltb_spec (cut `min` (4 + length s)) 4); [done|].
  assert (Ht : take 4 (take cut (h ++ s)) = h).
  { rewrite take_take, Nat.min_l by lia. by rewrite take_app_length'. }
  rewrite Ht. unfold h. rewrite from_to_le, N.mod_small by done. rewrite Nat2N.id.
  destruct (Nat.ltb_spec (cut `min` (4 + length s)) (4 + length s)); [done|lia].
Qed.

(** An append-only sidecar yields the records that are in it whole, in
    order, whatever was cut off its last record. *)
Theorem sidecar_log_recovers k c (lines : list (option bytes * bytes)) rs n m r cut :
  Forall (fun e => length (default [] e.1) = NONCE_LEN) lines ->
  Forall2 (fun e b => record e.1 k c e.2 = Ok b) lines rs -> record n k c m = Ok r -> (cut < length r)%nat ->
  records (MAGIC ++ concat rs ++ take cut r) k c = Ok (lines.*2).
Proof using laws.
  intros Hn Hrs Hr Hcut. pose proof (magic_prefix (concat rs ++ take cut r)) as [M1 M2].
  unfold records. rewrite M1, M2. f_equal. destruct (record_shape _ _ _ _ _ Hr) as (s & _ & Hs & E).
  set (tail := take cut r). assert (Ht : forall fuel, records_loop fuel tail k c = []) by (intros; by eapply records_cut).
  clearbody tail. cut (forall fuel, (length lines <= fuel)%nat -> records_loop (S fuel) (concat rs ++ tail) k c = lines.*2).
  { intros H. apply H. rewrite length_app. apply Nat.le_trans with (length (concat rs)); [|lia].
    clear - Hrs. induction Hrs as [|e b lines rs He _ IH]; cbn; [lia|]. rewrite length_app.
    destruct (record_shape _ _ _ _ _ He) as (s & _ & _ & ->). rewrite length_app, length_le_bytes. lia. }
  clear M1 M2 Hr Hcut. induction Hrs as [|e b lines rs He _ IH]; intros fuel Hf; [apply Ht|].
  apply Forall_cons in Hn as [Hn Hns]. destruct (record_shape _ _ _ _ _ He) as (s' & Hs' & Hlen & ->).
  cbn [concat]. rewrite <- (app_assoc (_ ++ s')), records_step by done. rewrite (open_seal _ _ _ _ _ Hn Hs'). cbn.
  f_equal. cbn in Hf. destruct fuel as [|fuel]; [lia|]. apply IH; [done|lia].
Qed.
End laws.

(** ** A cipher to run the theorems on

    Not a secure one: it appends sixteen bytes that depend on key and context. *)
Module Toy.
Definition tag (k c : bytes) : bytes := replicate TAG_LEN (from_be (k ++ c) mod 251).
#[export] Instance cipher : Aead := {
  encrypt k n c m := Some (m ++ tag k c);
  decrypt k n c s :=
    let body := take (length s - TAG_LEN) s in
    if bool_decide (s = body ++ tag k c) then Some body else None;
}.
#[export] Instance cipher_laws : AeadLaws.
Proof.
  split; intros k n c m s; cbn [encrypt decrypt cipher]; intros [= <-].
  - assert (length (tag k c) = TAG_LEN) as Ht by apply length_replicate.
    rewrite length_app, Ht, Nat.add_sub, take_app_length. by rewrite bool_decide_true.
  - unfold tag. by rewrite length_app, length_replicate.
Qed.

Definition nonce : option bytes := Some (replicate NONCE_LEN 5).
Definition key : bytes := replicate 32 7.
Definition context : bytes := ascii_bytes "drevo stamps".

Lemma sidecar_opens_only_as_written_witness :
  exists file, encode nonce (Some key) context [1; 2] = Ok file /\ decode (Some key) context file = Ok [1; 2] /\
    decode (Some key) (ascii_bytes "drevo origin") file = Err DoesNotDecrypt.
Proof.
  eexists. split; [by vm_compute|]. split; [|by vm_compute].
  refine (proj1 (sidecar_opens_only_as_written nonce (Some key) context [1; 2] _ _ _ _)); by vm_compute.
Defined.

Lemma sidecar_log_recovers_witness : exists r1 r2,
  record nonce key context [1; 2] = Ok r1 /\ record nonce key context [3] = Ok r2 /\
  records (MAGIC ++ concat [r1] ++ take 9 r2) key context = Ok [[1; 2]].
Proof.
  eexists. eexists. split; [by vm_compute|]. split; [by vm_compute|].
  refine (sidecar_log_recovers key context [(nonce, [1; 2])] [_] nonce [3] _ 9 _ _ _ _).
  - by repeat constructor.
  - by repeat constructor.
  - by vm_compute.
  - vm_compute. lia.
Defined.
End Toy.
