(* ===== verification/WalCompact.v ===== *)
(** * The compact encoding of a log record
    (module [compact] of [src/drevo-core/src/wal_format.rs])

    A record is a JSON value whose built-in field names become small integers
    in the CBOR value that is written.  [serde_json::Value] and
    [ciborium::Value] are modelled as data; their bytes are the libraries'.

    - [compact_roundtrip]: reading a compacted record back gives the record,
      property names and field names of later versions included. *)
From S2P Require Import Prelude.
#[local] Set Warnings "-register-all".
Local Open Scope string_scope.
Local Open Scope list_scope.
Local Open Scope N_scope.

(** ** [serde_json::Value]

    A number is a natural below 2^64, a negative [i64] or a finite [f64] given by
    its bits.  An object is a [BTreeMap]: its entries in the order of their
    keys. *)
Inductive Number : Type := PosInt (n : N) | NegInt (i : Z) | Float (bits : N).

Inductive Value : Type :=
| VNull
| VBool (b : bool)
| VNumber (n : Number)
| VString (s : string)
| VArray (l : list Value)
| VObject (l : list (string * Value)).

Definition f64_is_finite (bits : N) : bool := negb (N.land (N.shiftr bits 52) 2047 =? 2047).

Definition as_i64 (n : Number) : option Z :=
  match n with
  | PosInt n => if n <? 2 ^ 63 then Some (Z.of_N n) else None
  | NegInt i => Some i
  | Float _ => None
  end.
Definition as_u64 (n : Number) : option N := match n with PosInt n => Some n | _ => None end.
Definition from_i64 (i : Z) : Number := if (i <? 0)%Z then NegInt i else PosInt (Z.to_N i).
Definition from_f64 (bits : N) : option Number := if f64_is_finite bits then Some (Float bits) else None.

(** [BTreeMap::insert]. *)
Fixpoint map_insert {A} (k : string) (v : A) (l : list (string * A)) : list (string * A) :=
  match l with
  | [] => [(k, v)]
  | (k', v') :: l' =>
      match String.compare k k' with
      | Lt => (k, v) :: l
      | Eq => (k, v) :: l'
      | Gt => (k', v') :: map_insert k v l'
      end
  end.

(** ** [ciborium::Value] *)
Inductive Cbor : Type :=
| CInteger (i : Z)
| CBytes (l : list N)
| CFloat (bits : N)
| CText (s : string)
| CBool (b : bool)
| CNull
| CTag (tag : N) (v : Cbor)
| CArray (l : list Cbor)
| CMap (l : list (Cbor * Cbor)).

(** ** Field names *)
Definition FIELD_NAMES : list string :=
  ["UpsertNode"; "DeleteNode"; "UpsertEdge"; "DeleteEdge"; "SetEmbedding"; "DeleteEmbedding"; "Prepare";
   "CommitPrepared"; "RollbackPrepared"; "id"; "uuid"; "kind"; "title"; "body"; "body_html"; "created_at";
   "updated_at"; "properties"; "from_id"; "to_id"; "weight"; "gid"; "prepared_at_ms"; "ops"; "heuristic"].

Definition key (name : string) : Cbor :=
  match list_find (eq name) FIELD_NAMES with
  | Some (code, _) => CInteger (Z.of_nat code)
  | None => CText name
  end.

Definition name (k : Cbor) : option string :=
  match k with
  | CInteger code => if bool_decide (0 <= code < 2 ^ 64)%Z then FIELD_NAMES !! Z.to_nat code else None
  | CText s => Some s
  | _ => None
  end.

(** The variants whose payload has built-in fields. *)
Definition has_fields (variant : string) : bool :=
  bool_decide (variant ∈ ["UpsertNode"; "UpsertEdge"; "Prepare"; "CommitPrepared"; "RollbackPrepared"]).

(** ** Writing *)
Definition plain_number (n : Number) : Cbor :=
  match as_i64 n, as_u64 n, n with
  | Some i, _, _ => CInteger i
  | None, Some u, _ => CInteger (Z.of_N u)
  | None, None, Float bits => CFloat bits
  | None, None, _ => CNull
  end.

Fixpoint plain (v : Value) : Cbor :=
  match v with
  | VNull => CNull
  | VBool b => CBool b
  | VNumber n => plain_number n
  | VString s => CText s
  | VArray items => CArray (plain <$> items)
  | VObject map => CMap ((fun '(k, v) => (CText k, plain v)) <$> map)
  end.

Fixpoint ops (v : Value) : Cbor :=
  match v with
  | VArray items => CArray (op <$> items)
  | other => plain other
  end
with op (v : Value) : Cbor :=
  match v with
  | VObject map => CMap ((fun '(variant, payload) => (key variant, op_payload variant payload)) <$> map)
  | other => plain other
  end
with op_payload (variant : string) (payload : Value) : Cbor :=
  match payload with
  | VObject fields =>
      if has_fields variant
      then CMap ((fun '(field, v) => (key field, if bool_decide (field = "ops") then ops v else plain v)) <$> fields)
      else plain payload
  | _ => plain payload
  end.

(** ** Reading *)
Section entries.
Context {A : Type} (key_of : Cbor -> option string) (value_of : string -> Cbor -> option A).
Fixpoint collect_entries (acc : list (string * A)) (entries : list (Cbor * Cbor)) : option (list (string * A)) :=
  match entries with
  | [] => Some acc
  | (k, v) :: entries =>
      k ← key_of k;
      v ← value_of k v;
      collect_entries (map_insert k v acc) entries
  end.
End entries.

Definition text_of (k : Cbor) : option string := match k with CText s => Some s | _ => None end.

Definition unplain_integer (i : Z) : option Value :=
  if bool_decide (- 2 ^ 63 <= i < 2 ^ 63)%Z then Some (VNumber (from_i64 i))
  else if bool_decide (0 <= i < 2 ^ 64)%Z then Some (VNumber (PosInt (Z.to_N i)))
  else None.

Fixpoint unplain (v : Cbor) : option Value :=
  match v with
  | CNull => Some VNull
  | CBool b => Some (VBool b)
  | CInteger i => unplain_integer i
  | CFloat bits => VNumber <$> from_f64 bits
  | CText s => Some (VString s)
  | CArray items => VArray <$> mapM unplain items
  | CMap entries => VObject <$> collect_entries text_of (fun _ => unplain) [] entries
  | CBytes _ | CTag _ _ => None
  end.

Fixpoint unops (v : Cbor) : option Value :=
  match v with
  | CArray items => VArray <$> mapM unop items
  | other => unplain other
  end
with unop (v : Cbor) : option Value :=
  match v with
  | CMap entries => VObject <$> collect_entries name unop_payload [] entries
  | other => unplain other
  end
with unop_payload (variant : string) (payload : Cbor) : option Value :=
  match payload with
  | CMap entries =>
      if has_fields variant
      then VObject <$> collect_entries name
             (fun field v => if bool_decide (field = "ops") then unops v else unplain v) [] entries
      else unplain payload
  | _ => unplain payload
  end.

(** ** Round trip *)
Section value_ind.
Context (P : Value -> Prop).
Context (Hnull : P VNull) (Hbool : forall b, P (VBool b)) (Hnumber : forall n, P (VNumber n)).
Context (Hstring : forall s, P (VString s)) (Harray : forall l, Forall P l -> P (VArray l)).
Context (Hobject : forall l, Forall (fun e => P e.2) l -> P (VObject l)).
Fixpoint value_ind' (v : Value) : P v :=
  match v with
  | VNull => Hnull
  | VBool b => Hbool b
  | VNumber n => Hnumber n
  | VString s => Hstring s
  | VArray l => Harray l ((fix go l := match l as l return Forall P l with
      | [] => Forall_nil_2 _ | v :: l => Forall_cons_2 _ v l (value_ind' v) (go l) end) l)
  | VObject l => Hobject l ((fix go l := match l as l return Forall (fun e => P e.2) l with
      | [] => Forall_nil_2 _ | e :: l => Forall_cons_2 (fun e => P e.2) e l (value_ind' e.2) (go l) end) l)
  end.
End value_ind.

(** What a [serde_json::Value] can hold. *)
Definition number_ok (n : Number) : Prop :=
  match n with
  | PosInt n => n < 2 ^ 64
  | NegInt i => (- 2 ^ 63 <= i < 0)%Z
  | Float bits => f64_is_finite bits = true
  end.

Definition before {A} (a b : string * A) : Prop := String.compare a.1 b.1 = Lt.

Inductive value_ok : Value -> Prop :=
| ok_null : value_ok VNull
| ok_bool b : value_ok (VBool b)
| ok_number n : number_ok n -> value_ok (VNumber n)
| ok_string s : value_ok (VString s)
| ok_array l : Forall value_ok l -> value_ok (VArray l)
| ok_object l : StronglySorted before l -> Forall (fun e => value_ok e.2) l -> value_ok (VObject l).

Lemma name_key s : name (key s) = Some s.
Proof.
  unfold key. destruct (list_find (eq s) FIELD_NAMES) as [[i x]|] eqn:E; [|done].
  apply list_find_Some in E as (Hi & -> & _). pose proof (lookup_lt_Some _ _ _ Hi) as Hlt.
  cbn in Hlt. cbn [name]. rewrite bool_decide_true by lia. by rewrite Nat2Z.id.
Qed.

Lemma map_insert_last {A} k (v : A) acc : Forall (fun e => before e (k, v)) acc ->
  map_insert k v acc = acc ++ [(k, v)].
Proof.
  induction 1 as [|[k' v'] acc Hk Hacc IH]; [done|]. cbn [map_insert app]. unfold before in Hk. cbn in Hk.
  rewrite String.compare_antisym, Hk. cbn. by rewrite IH.
Qed.

Lemma collect_entries_exact {A B} key_of (value_of : string -> Cbor -> option A) (kf : string -> Cbor)
    (vf : string -> B -> Cbor) (val : B -> A) (l : list (string * B)) acc :
  (forall k, key_of (kf k) = Some k) -> Forall (fun e => value_of e.1 (vf e.1 e.2) = Some (val e.2)) l ->
  StronglySorted before (acc ++ (prod_map id val <$> l)) ->
  collect_entries key_of value_of acc ((fun '(k, v) => (kf k, vf k v)) <$> l) = Some (acc ++ (prod_map id val <$> l)).
Proof.
  intros Hkey Hval. revert acc. induction Hval as [|[k v] l Hv Hl IH]; intros acc Hs.
  - by rewrite app_nil_r.
  - cbn in Hv. cbn. rewrite Hkey. cbn. rewrite Hv. cbn.
    rewrite map_insert_last.
    + rewrite IH; [|cbn in Hs; by rewrite <- app_assoc]. by rewrite <- app_assoc.
    + apply Forall_forall. intros e He. clear - Hs He.
      induction acc as [|a acc IH]; [by apply elem_of_nil in He|].
      cbn in Hs. apply StronglySorted_inv in Hs as [Hs Ha]. apply elem_of_cons in He as [->|He]; [|by apply IH].
      eapply Forall_forall; [exact Ha|]. set_solver.
Qed.

Lemma collect_entries_id key_of value_of (kf : string -> Cbor) (vf : string -> Value -> Cbor)
    (l : list (string * Value)) :
  (forall k, key_of (kf k) = Some k) -> Forall (fun e => value_of e.1 (vf e.1 e.2) = Some e.2) l ->
  StronglySorted before l ->
  collect_entries key_of value_of [] ((fun '(k, v) => (kf k, vf k v)) <$> l) = Some l.
Proof.
  intros Hk Hv Hs. assert (Hid : prod_map id id <$> l = l).
  { transitivity (id <$> l); [|by apply list_fmap_id]. by apply list_fmap_ext; intros ? []. }
  rewrite (collect_entries_exact _ _ _ _ id); cbn [app]; by rewrite ?Hid.
Qed.

Lemma unplain_number n : number_ok n -> unplain (plain_number n) = Some (VNumber n).
Proof.
  destruct n as [n|i|bits]; unfold plain_number; cbn [number_ok as_i64 as_u64].
  - intros Hn. destruct (N.ltb_spec n (2 ^ 63)); cbn [unplain]; unfold unplain_integer, from_i64.
    + rewrite bool_decide_true by lia. destruct (Z.ltb_spec (Z.of_N n) 0); [lia|]. by rewrite N2Z.id.
    + rewrite bool_decide_false by lia. rewrite bool_decide_true by lia. by rewrite N2Z.id.
  - intros Hi. cbn [unplain]. unfold unplain_integer, from_i64. rewrite bool_decide_true by lia.
    destruct (Z.ltb_spec i 0); [done|lia].
  - cbn. unfold from_f64. by intros ->.
Qed.

Definition restored (v : Value) : Prop :=
  unplain (plain v) = Some v /\ unops (ops v) = Some v /\ unop (op v) = Some v /\
  forall s, unop_payload s (op_payload s v) = Some v.

Lemma mapM_id {A} (f : A -> Cbor) (g : Cbor -> option A) l : Forall (fun a => g (f a) = Some a) l ->
  mapM g (f <$> l) = Some l.
Proof. intros H. apply mapM_Some. induction H; constructor; auto. Qed.

Lemma scalar_restored v : value_ok v -> (forall l, v <> VArray l) -> (forall l, v <> VObject l) -> restored v.
Proof.
  intros Hv Ha Ho. unfold restored. destruct Hv as [| |n Hn| | |]; try by (repeat split).
  - pose proof (unplain_number n Hn) as E. change (plain (VNumber n)) with (plain_number n).
    change (ops (VNumber n)) with (plain_number n). change (op (VNumber n)) with (plain_number n).
    assert (Hs : forall s, op_payload s (VNumber n) = plain_number n) by done.
    split; [done|]. split; [|split; [|intros s; rewrite Hs]]; revert E; clear Hs;
      unfold plain_number; by destruct (as_i64 n), (as_u64 n), n.
  - by destruct (Ha l).
  - by destruct (Ho l).
Qed.

Lemma array_restored l : Forall restored l -> restored (VArray l).
Proof.
  intros H. unfold restored. cbn [plain ops op op_payload].
  assert (E : unplain (CArray (plain <$> l)) = Some (VArray l)).
  { cbn [unplain]. rewrite (mapM_id plain unplain); [done|]. by eapply Forall_impl; [exact H|]; intros ? []. }
  split; [exact E|]. split; [|split; [exact E|intros s; exact E]].
  cbn [unops]. rewrite (mapM_id op unop); [done|].
  by eapply Forall_impl; [exact H|]; intros ? (? & ? & ? & ?).
Qed.

Lemma object_restored l : StronglySorted before l -> Forall (fun e => restored e.2) l -> restored (VObject l).
Proof.
  intros Hs H. unfold restored. cbn [plain ops op].
  assert (E : VObject <$> collect_entries text_of (fun _ => unplain) []
                ((fun '(k, v) => (CText k, plain v)) <$> l) = Some (VObject l)).
  { rewrite (collect_entries_id _ _ CText (fun _ => plain)); [done|done| |done].
    by eapply Forall_impl; [exact H|]; intros ? []. }
  split; [exact E|]. split; [exact E|]. split.
  - cbn [unop]. rewrite (collect_entries_id _ _ key op_payload); [done|apply name_key| |done].
    by eapply Forall_impl; [exact H|]; intros ? (? & ? & ? & ?).
  - intros s. cbn [op_payload]. destruct (has_fields s) eqn:Hf; cbn [plain unop_payload]; rewrite Hf; [|exact E].
    rewrite (collect_entries_id _ _ key (fun field v => if bool_decide (field = "ops") then ops v else plain v));
      [done|apply name_key| |done].
    eapply Forall_impl; [exact H|]. intros [f v] (Hp & Ho & _). cbn in *. by case_bool_decide.
Qed.

Lemma compact_restores v : value_ok v -> unops (ops v) = Some v.
Proof.
  intros Hv. cut (restored v); [by intros (_ & ? & _)|]. revert Hv.
  induction v as [| | | |l IH|l IH] using value_ind'; intros Hv; try (by apply scalar_restored).
  - inversion Hv as [| | | |? Hl|]; subst. apply array_restored.
    clear Hv. induction IH; inversion Hl; subst; constructor; auto.
  - inversion Hv as [| | | | |? Hs Hl]; subst. apply object_restored; [done|].
    clear Hv Hs. induction IH; inversion Hl; subst; constructor; auto.
Qed.

(** C14: The compact log encoding loses nothing: whatever JSON value a record
    is, with property names that look like built-in fields or field names of a
    later version, the CBOR value written for it reads back as that value. *)
Theorem compact_roundtrip v : value_ok v -> unops (ops v) = Some v.
Proof. apply compact_restores. Qed.

(** A node whose properties are called as the record's own fields. *)
Definition sample : Value := VArray [VObject [("UpsertNode", VObject
  [("id", VNumber (PosInt (2 ^ 64 - 1))); ("properties", VObject [("ops", VArray [VObject [("id", VNull)]])]);
   ("zone", VNumber (NegInt (-3)))])]].
Lemma compact_roundtrip_witness : unops (ops sample) = Some sample.
Proof.
  apply (compact_roundtrip sample). unfold sample.
  repeat first [apply ok_array | apply ok_object | apply ok_string | apply ok_null | apply ok_number
    | apply Forall_nil_2 | apply Forall_cons_2 | apply SSorted_nil | apply SSorted_cons | reflexivity | cbn; lia].
Defined.
