(* ===== verification/WalFormat.v ===== *)
(** * The write-ahead log as bytes
    ([src/drevo-core/src/wal_format.rs])

    Formats and their names, the header, records with their length and CRC-32,
    sealed records, and the reader that replays a log chunk by chunk.  The
    serializers (serde_json, ciborium, rmp_serde) and zstd are third-party: their
    entry points are the class [Libs].  [borrow] and [own] stand for the
    module [wire]; borrowing leaves no trace, so one type serves both. *)
From S2P Require Import Prelude NativeModel WireBytes Encryption WalCompact.
Local Open Scope string_scope.
Local Open Scope list_scope.
Local Open Scope N_scope.

(** ** Formats *)
Inductive WalFormat : Type := JsonLines | Cbor | MsgPack | CborZstd | CborCompact | CborCompactZstd.
#[export] Instance WalFormat_eq_dec : EqDecision WalFormat.
Proof. solve_decision. Defined.

(** Why a log is refused ([std::io::ErrorKind::InvalidData] with a message). *)
Inductive Refusal : Type :=
| UnsupportedVersion (version : N)
| UnknownTag (tag : N)
| NotCompiledIn (format : WalFormat)
| LogIsEncrypted
| LogNotEncrypted
| KeyCheckDamaged
| WrongKey
| DoesNotDecryptAt (byte : N)
| CorruptAt (byte : N)
| QueuedRecordInvalid.

Inductive WalError : Type :=
| JsonError
| BackendError (why : string)
| InvalidData (why : Refusal)
| ReadFailed.

(** ** The wire types *)
Record NodeWire : Type := mkNodeWire {
  nw_id : N; nw_uuid : N; nw_kind : string; nw_title : string; nw_body : string; nw_body_html : string;
  nw_created_at : Z; nw_updated_at : Z; nw_properties : Properties;
}.
Record EdgeWire : Type := mkEdgeWire {
  ew_id : N; ew_uuid : N; ew_from_id : N; ew_to_id : N; ew_kind : string; ew_weight : F32;
  ew_created_at : Z; ew_properties : Properties;
}.
Inductive Op : Type :=
| OUpsertNode (n : NodeWire)
| ODeleteNode (id : N)
| OUpsertEdge (e : EdgeWire)
| ODeleteEdge (id : N)
| OSetEmbedding (id : N) (v : list F32)
| ODeleteEmbedding (id : N)
| OPrepare (gid : string) (prepared_at_ms : Z) (ops : list Op)
| OCommitPrepared (gid : string)
| ORollbackPrepared (gid : string) (heuristic : bool).

Fixpoint op_ref (op : WalOp) : Op :=
  match op with
  | UpsertNode n =>
      OUpsertNode (mkNodeWire (n_id n) (n_uuid n) (n_kind n) (n_title n) (n_body n) (n_body_html n)
        (n_created_at n) (n_updated_at n) (n_properties n))
  | DeleteNode id => ODeleteNode id
  | UpsertEdge e =>
      OUpsertEdge (mkEdgeWire (e_id e) (e_uuid e) (e_from e) (e_to e) (e_kind e) (e_weight e)
        (e_created_at e) (e_properties e))
  | DeleteEdge id => ODeleteEdge id
  | SetEmbedding id v => OSetEmbedding id v
  | DeleteEmbedding id => ODeleteEmbedding id
  | Prepare gid at_ms ops => OPrepare gid at_ms (op_ref <$> ops)
  | CommitPrepared gid => OCommitPrepared gid
  | RollbackPrepared gid heuristic => ORollbackPrepared gid heuristic
  end.

Fixpoint from_op (op : Op) : WalOp :=
  match op with
  | OUpsertNode n =>
      UpsertNode (mkNode (nw_id n) (nw_uuid n) (nw_kind n) (nw_title n) (nw_body n) (nw_body_html n)
        (nw_created_at n) (nw_updated_at n) (nw_properties n))
  | ODeleteNode id => DeleteNode id
  | OUpsertEdge e =>
      UpsertEdge (mkEdge (ew_id e) (ew_uuid e) (ew_from_id e) (ew_to_id e) (ew_kind e) (ew_weight e)
        (ew_created_at e) (ew_properties e))
  | ODeleteEdge id => DeleteEdge id
  | OSetEmbedding id v => SetEmbedding id v
  | ODeleteEmbedding id => DeleteEmbedding id
  | OPrepare gid at_ms ops => Prepare gid at_ms (from_op <$> ops)
  | OCommitPrepared gid => CommitPrepared gid
  | ORollbackPrepared gid heuristic => RollbackPrepared gid heuristic
  end.

Definition borrow (ops : list WalOp) : list Op := op_ref <$> ops.
Definition own (ops : list Op) : list WalOp := from_op <$> ops.

(** ** The libraries

    Each writer may fail; each reader says whether the bytes are one value. *)
Class Libs : Type := {
  wal_cbor : bool; wal_msgpack : bool; wal_zstd : bool;
  (* serde_json: one op, an array of ops, and trees *)
  json_op : WalOp -> option bytes;
  json_op_of : bytes -> option WalOp;
  json_ops : list WalOp -> option bytes;
  json_ops_of : bytes -> option (list WalOp);
  to_value : list WalOp -> option Value;
  from_value : Value -> option (list WalOp);
  json_value : Value -> option bytes;
  json_value_of : bytes -> option Value;
  (* ciborium and rmp_serde *)
  cbor_ops : list Op -> option bytes;
  cbor_ops_of : bytes -> option (list Op);
  cbor_json : Value -> option bytes;
  cbor_value : WalCompact.Cbor -> option bytes;
  cbor_value_of : bytes -> option WalCompact.Cbor;
  msgpack_ops : list Op -> option bytes;
  msgpack_ops_of : bytes -> option (list Op);
  msgpack_json : Value -> option bytes;
  (* zstd *)
  compress : bytes -> option bytes;
  frame_content_size : bytes -> option N;
  decompress : bytes -> N -> option bytes;
}.

Definition MAGIC : bytes := ascii_bytes "DRVWAL".
Definition HEADER_VERSION : N := 1.
Definition SEALED_VERSION : N := 2.
Definition HEADER_LEN : nat := 8.
Definition FRAME_LEN : nat := 8.
Definition ZSTD_MAX_RECORD : N := 2 ^ 30.
Definition RECORD_CONTEXT : bytes := ascii_bytes "drevo wal record".
Definition CHECK_CONTEXT : bytes := ascii_bytes "drevo wal key check".
Definition CHECK_TEXT : bytes := ascii_bytes "drevo".
Definition NEWLINE : N := 10.

Definition name (f : WalFormat) : string :=
  match f with
  | JsonLines => "json" | Cbor => "cbor" | MsgPack => "msgpack" | CborZstd => "cbor-zstd"
  | CborCompact => "cbor-compact" | CborCompactZstd => "cbor-compact-zstd"
  end.

Definition tag (f : WalFormat) : N :=
  match f with
  | JsonLines => 74 | Cbor => 67 | MsgPack => 77 | CborZstd => 90 | CborCompact => 75 | CborCompactZstd => 88
  end.

Definition header (f : WalFormat) : bytes :=
  if bool_decide (f = JsonLines) then [] else MAGIC ++ [HEADER_VERSION; tag f].

(** ** CRC-32 *)
Definition crc_bit (c : N) : N := if N.odd c then N.lxor 0xEDB88320 (N.shiftr c 1) else N.shiftr c 1.
Definition crc_entry (i : N) : N := Nat.iter 8 crc_bit i.
Definition TABLE : list N := Eval vm_compute in (fun i => crc_entry (N.of_nat i)) <$> seq 0 256.
Definition crc_step (crc b : N) : N :=
  N.lxor (nth (N.to_nat (N.land (N.lxor crc b) 255)) TABLE 0) (N.shiftr crc 8).
Definition crc32 (bs : bytes) : N := N.lxor (foldl crc_step 0xFFFFFFFF bs) 0xFFFFFFFF.

Section format.
Context {libs : Libs}.

Definition compiled_in (f : WalFormat) : bool :=
  match f with
  | JsonLines => true
  | Cbor | CborCompact => wal_cbor
  | MsgPack => wal_msgpack
  | CborZstd | CborCompactZstd => wal_zstd
  end.

(** [WalFormat::from_str]. *)
Inductive WalFormatError : Type := Unknown (text : bytes) | NotCompiled (text : bytes).
Definition ascii_lower (b : N) : N := if within 65 90 b then b + 32 else b.
Definition from_str (s : bytes) : result WalFormatError WalFormat :=
  let text := ascii_lower <$> trim s in
  match list_find (fun f => ascii_bytes (name f) = text)
          [JsonLines; Cbor; MsgPack; CborZstd; CborCompact; CborCompactZstd] with
  | None => Err (Unknown text)
  | Some (_, f) => if compiled_in f then Ok f else Err (NotCompiled text)
  end.

(** ** Payloads *)
Definition zstd_compress (bs : bytes) : result WalError bytes := ok_or (BackendError "zstd encode") (compress bs).

Definition zstd_decompress (bs : bytes) : option bytes :=
  size ← frame_content_size bs;
  if size <=? ZSTD_MAX_RECORD then decompress bs size else None.

Definition compact_encode (v : Value) : result WalError bytes :=
  ok_or (BackendError "CBOR encode") (cbor_value (WalCompact.ops v)).
Definition compact_decode (payload : bytes) : option Value :=
  value ← cbor_value_of payload; WalCompact.unops value.

Definition not_compiled {A} (f : WalFormat) : result WalError A :=
  Err (BackendError ("WAL format " +:+ name f +:+ " is not compiled in")).

Definition encode_value (f : WalFormat) (v : Value) : result WalError bytes :=
  match f with
  | JsonLines => ok_or JsonError (json_value v)
  | Cbor => if wal_cbor then ok_or (BackendError "CBOR encode") (cbor_json v) else not_compiled f
  | MsgPack => if wal_msgpack then ok_or (BackendError "MessagePack encode") (msgpack_json v) else not_compiled f
  | CborZstd =>
      if wal_zstd then bs ← ok_or (BackendError "CBOR encode") (cbor_json v); zstd_compress bs else not_compiled f
  | CborCompact => if wal_cbor then compact_encode v else not_compiled f
  | CborCompactZstd => if wal_zstd then bs ← compact_encode v; zstd_compress bs else not_compiled f
  end.

(** The last arm of [encode_ops]: through a tree. *)
Definition encode_tree (f : WalFormat) (ops : list WalOp) : result WalError bytes :=
  value ← ok_or JsonError (to_value ops); encode_value f value.
Definition encode_cbor (ops : list WalOp) : result WalError bytes :=
  if wal_cbor then ok_or (BackendError "CBOR encode") (cbor_ops (borrow ops)) else encode_tree Cbor ops.

Definition encode_ops (f : WalFormat) (ops : list WalOp) : result WalError bytes :=
  match f with
  | Cbor => encode_cbor ops
  | CborZstd => if wal_zstd then bs ← encode_cbor ops; zstd_compress bs else encode_tree f ops
  | MsgPack =>
      if wal_msgpack then ok_or (BackendError "MessagePack encode") (msgpack_ops (borrow ops))
      else encode_tree f ops
  | _ => encode_tree f ops
  end.

Definition decode_ops (f : WalFormat) (payload : bytes) : option (list WalOp) :=
  match f with
  | JsonLines => value ← json_value_of payload; from_value value
  | Cbor => if wal_cbor then own <$> cbor_ops_of payload else None
  | MsgPack => if wal_msgpack then own <$> msgpack_ops_of payload else None
  | CborZstd =>
      if wal_zstd then cbor ← zstd_decompress payload; own <$> cbor_ops_of cbor else None
  | CborCompact => if wal_cbor then value ← compact_decode payload; from_value value else None
  | CborCompactZstd =>
      if wal_zstd then cbor ← zstd_decompress payload; value ← compact_decode cbor; from_value value else None
  end.

(** ** Records *)
Definition frame (payload : bytes) : result WalError bytes :=
  if N.of_nat (length payload) <? 2 ^ 32
  then Ok (le_bytes 4 (N.of_nat (length payload)) ++ le_bytes 4 (crc32 payload) ++ payload)
  else Err (BackendError "WAL record over 4 GiB").

(** [WalFormat::encode_record]; its framing repeats that of [frame]. *)
Definition encode_record (f : WalFormat) (ops : list WalOp) : result WalError bytes :=
  if bool_decide (f = JsonLines) then
    match ops with
    | [] => Ok []
    | [op] => line ← ok_or JsonError (json_op op); Ok (line ++ [NEWLINE])
    | many => line ← ok_or JsonError (json_ops many); Ok (line ++ [NEWLINE])
    end
  else match ops with
  | [] => Ok []
  | _ => payload ← encode_ops f ops; frame payload
  end.

(** One record at a position: its operations and where the next starts. *)
Inductive RecordAt : Type :=
| Ops (ops : list WalOp) (next : nat)
| Invalid (next : nat)
| Incomplete
| Undecryptable (next : nat).

(** The frame that begins [rest], as [read_record] and [read_frame] find it:
    its payload if the checksum holds, and its length. *)
Inductive Frame : Type :=
| Whole (payload : bytes) (len : nat)
| BadSum (len : nat)
| Short.

Definition frame_at (rest : bytes) : Frame :=
  if (length rest <? FRAME_LEN)%nat then Short
  else
    let len := N.to_nat (from_le (take 4 rest)) in
    let crc := from_le (take 4 (drop 4 rest)) in
    let fin := (FRAME_LEN + len)%nat in
    if (length rest <? fin)%nat then Short
    else
      let payload := take len (drop FRAME_LEN rest) in
      if crc32 payload =? crc then Whole payload fin else BadSum fin.

Definition parse_json_line (line : bytes) : option (list WalOp) :=
  if from_utf8 line then
    match trim line with
    | [] => Some []
    | 91 :: _ => json_ops_of (trim line)
    | text => (fun op => [op]) <$> json_op_of text
    end
  else None.

Definition newline_at (rest : bytes) : option nat := fst <$> list_find (eq NEWLINE) rest.

Definition read_record (f : WalFormat) (bs : bytes) (pos : nat) : RecordAt :=
  let rest := drop pos bs in
  if bool_decide (f = JsonLines) then
    let '(line, next) := match newline_at rest with
      | Some i => (take i rest, (pos + i + 1)%nat)
      | None => (rest, length bs)
      end in
    match parse_json_line line with
    | Some ops => Ops ops next
    | None => Invalid next
    end
  else match frame_at rest with
  | Short => Incomplete
  | BadSum len => Invalid (pos + len)
  | Whole payload len =>
      match decode_ops f payload with
      | Some ops => Ops ops (pos + len)
      | None => Invalid (pos + len)
      end
  end.
End format.

(** ** Sealed logs *)
Section sealed.
Context {libs : Libs} {aead : Aead}.

(** [read_frame]: the payload and where the next frame starts. *)
Definition read_frame (bs : bytes) (pos : nat) : result RecordAt (bytes * nat) :=
  match frame_at (drop pos bs) with
  | Short => Err Incomplete
  | BadSum len => Err (Invalid (pos + len))
  | Whole payload len => Ok (payload, (pos + len)%nat)
  end.

Definition record_payload (f : WalFormat) (ops : list WalOp) : result WalError bytes :=
  if bool_decide (f = JsonLines) then ok_or JsonError (json_ops ops) else encode_ops f ops.

Definition seal_with (nonce : option bytes) (k : Key) (context plaintext : bytes) : result WalError bytes :=
  match seal nonce k context plaintext with
  | Ok s => Ok s
  | Err _ => Err (BackendError "cannot seal")
  end.
Definition open_with (k : Key) (context sealed : bytes) : option bytes :=
  match open k context sealed with Ok p => Some p | Err _ => None end.

Definition log_header (nonce : option bytes) (f : WalFormat) (k : option Key) : result WalError bytes :=
  match k with
  | None => Ok (header f)
  | Some k =>
      check ← seal_with nonce k CHECK_CONTEXT CHECK_TEXT;
      framed ← frame check;
      Ok (MAGIC ++ [SEALED_VERSION; tag f] ++ framed)
  end.

Definition encode_record_with (nonce : option bytes) (f : WalFormat) (k : option Key) (ops : list WalOp) :
    result WalError bytes :=
  match k with
  | None => encode_record f ops
  | Some k =>
      match ops with
      | [] => Ok []
      | _ =>
          payload ← record_payload f ops;
          sealed ← seal_with nonce k RECORD_CONTEXT payload;
          frame sealed
      end
  end.

Definition read_sealed_record (f : WalFormat) (k : Key) (bs : bytes) (pos : nat) : RecordAt :=
  match read_frame bs pos with
  | Err r => r
  | Ok (sealed, next) =>
      match open_with k RECORD_CONTEXT sealed with
      | None => Undecryptable next
      | Some plain =>
          match (if bool_decide (f = JsonLines) then json_ops_of plain else decode_ops f plain) with
          | Some ops => Ops ops next
          | None => Invalid next
          end
      end
  end.

Definition read_any (f : WalFormat) (sealed : option Key) (bs : bytes) (pos : nat) : RecordAt :=
  match sealed with
  | Some k => read_sealed_record f k bs pos
  | None => read_record f bs pos
  end.

Definition decode_record_with (f : WalFormat) (k : option Key) (bs : bytes) : result WalError (list WalOp) :=
  match read_any f k bs 0 with
  | Ops ops _ => Ok ops
  | _ => Err (InvalidData QueuedRecordInvalid)
  end.

(** ** The header of a log *)
Inductive Detected : Type :=
| Log (f : WalFormat) (body_start : nat) (is_sealed : bool)
| TornHeader.

Definition is_header_prefix (bs : bytes) : bool :=
  let n := Nat.min (length bs) (length MAGIC) in bool_decide (take n bs = take n MAGIC).

Definition format_of_tag (tag : N) (is_sealed : bool) : option WalFormat :=
  match tag with
  | 74 => if is_sealed then Some JsonLines else None
  | 67 => Some Cbor | 77 => Some MsgPack | 90 => Some CborZstd
  | 75 => Some CborCompact | 88 => Some CborCompactZstd
  | _ => None
  end.

Definition detect (bs : bytes) : result WalError Detected :=
  if (length bs <? HEADER_LEN)%nat then
    if negb (bool_decide (bs = [])) && is_header_prefix bs then Ok TornHeader else Ok (Log JsonLines 0 false)
  else if negb (bool_decide (take (length MAGIC) bs = MAGIC)) then Ok (Log JsonLines 0 false)
  else
    let version := nth (length MAGIC) bs 0 in
    let tag := nth (length MAGIC + 1) bs 0 in
    if negb ((version =? HEADER_VERSION) || (version =? SEALED_VERSION))
    then Err (InvalidData (UnsupportedVersion version))
    else
      let is_sealed := version =? SEALED_VERSION in
      match format_of_tag tag is_sealed with
      | None => Err (InvalidData (UnknownTag tag))
      | Some f => if compiled_in f then Ok (Log f HEADER_LEN is_sealed) else Err (InvalidData (NotCompiledIn f))
      end.
(** ** Replay

    A reader is what its calls will return: at most the bytes of one piece, or
    an error ([None]); no piece is left, or an empty one, at the end. *)
Abbreviation Source := (list (option bytes)) (only parsing).

(** The loop of the closure [fill]: up to [room] bytes, and whether the end was
    reached. *)
Fixpoint fill_loop (room : nat) (acc : bytes) (src : Source) : result WalError (bytes * bool * Source) :=
  match room with
  | O => Ok (acc, false, src)
  | _ =>
      match src with
      | [] => Ok (acc, true, [])
      | None :: _ => Err ReadFailed
      | Some [] :: src => Ok (acc, true, src)
      | Some l :: src =>
          if (room <? length l)%nat then Ok (acc ++ take room l, false, Some (drop room l) :: src)
          else fill_loop (room - length l) (acc ++ l) src
      end
  end.

(** The window [buf], where it starts in the log, the position in it, and what
    is still to be read. *)
Record Window : Type := mkWindow { buf : bytes; base : nat; pos : nat; eof : bool; source : Source }.

Definition fill (chunk : nat) (w : Window) : result WalError (Window * bool) :=
  if eof w then Ok (w, false)
  else
    match fill_loop chunk [] (source w) with
    | Err e => Err e
    | Ok (got, at_end, src) =>
        Ok (mkWindow (buf w ++ got) (base w) (pos w) at_end src, negb (bool_decide (got = [])))
    end.

(** [while buf.len() < want && fill()? {}]. *)
Fixpoint fill_to (fuel : nat) (chunk want : nat) (w : Window) : option (result WalError Window) :=
  match fuel with
  | O => None
  | S fuel =>
      if (length (buf w) <? want)%nat then
        match fill chunk w with
        | Err e => Some (Err e)
        | Ok (w, true) => fill_to fuel chunk want w
        | Ok (w, false) => Some (Ok w)
        end
      else Some (Ok w)
  end.

(** Dropping what was consumed, before reading on. *)
Definition drain (w : Window) : Window :=
  mkWindow (drop (pos w) (buf w)) (base w + pos w) 0 (eof w) (source w).
Definition clear (w : Window) : Window :=
  mkWindow [] (base w + pos w) 0 (eof w) (source w).

Inductive Replayed : Type :=
| ReplayedTornHeader
| ReplayedEmpty
| ReplayedLog (f : WalFormat) (valid_end : nat) (torn is_sealed : bool).

Definition is_ascii_whitespace (b : N) : bool := (b =? 32) || (b =? 9) || (b =? 10) || (b =? 12) || (b =? 13).

Definition follows (f : WalFormat) (seal : option Key) (bs : bytes) : bool :=
  match f, seal with
  | JsonLines, None => negb (forallb is_ascii_whitespace bs)
  | _, _ => negb (bool_decide (bs = []))
  end.

(** Whether anything follows an invalid record in the rest of the log. *)
Fixpoint more_follows (fuel : nat) (f : WalFormat) (seal : option Key) (chunk : nat) (w : Window) (more : bool) :
    option (result WalError bool) :=
  match fuel with
  | O => None
  | S fuel =>
      if more then Some (Ok true)
      else match fill chunk (mkWindow [] (base w) (pos w) (eof w) (source w)) with
      | Err e => Some (Err e)
      | Ok (_, false) => Some (Ok false)
      | Ok (w, true) => more_follows fuel f seal chunk w (follows f seal (buf w))
      end
  end.

(** The key check of a sealed log. *)
Fixpoint check_loop (fuel : nat) (k : Key) (chunk : nat) (w : Window) : option (result WalError (option Window)) :=
  match fuel with
  | O => None
  | S fuel =>
      match read_frame (buf w) (pos w) with
      | Err Incomplete =>
          if eof w then Some (Ok None)
          else match fill chunk w with
               | Err e => Some (Err e)
               | Ok (w, _) => check_loop fuel k chunk w
               end
      | Err _ => Some (Err (InvalidData KeyCheckDamaged))
      | Ok (check, next) =>
          if bool_decide (open_with k CHECK_CONTEXT check = Some CHECK_TEXT)
          then Some (Ok (Some (mkWindow (buf w) (base w) next (eof w) (source w))))
          else Some (Err (InvalidData WrongKey))
      end
  end.

(** The main loop.  [out] is what [apply] was given so far. *)
Fixpoint replay_loop (fuel : nat) (f : WalFormat) (seal : option Key) (chunk : nat) (w : Window)
    (valid_end : nat) (out : list WalOp) : option (list WalOp * result WalError Replayed) :=
  let is_sealed := bool_decide (is_Some seal) in
  match fuel with
  | O => None
  | S fuel =>
      if (length (buf w) <=? pos w)%nat then
        match fill chunk (clear w) with
        | Err e => Some (out, Err e)
        | Ok (_, false) => Some (out, Ok (ReplayedLog f valid_end false is_sealed))
        | Ok (w, true) => replay_loop fuel f seal chunk w valid_end out
        end
      else if negb is_sealed && bool_decide (f = JsonLines) && negb (eof w)
              && bool_decide (newline_at (drop (pos w) (buf w)) = None) then
        match fill chunk (drain w) with
        | Err e => Some (out, Err e)
        | Ok (w, _) => replay_loop fuel f seal chunk w valid_end out
        end
      else match read_any f seal (buf w) (pos w) with
      | Ops ops next =>
          replay_loop fuel f seal chunk (mkWindow (buf w) (base w) next (eof w) (source w)) (base w + next) (out ++ ops)
      | Undecryptable _ => Some (out, Err (InvalidData (DoesNotDecryptAt (N.of_nat (base w + pos w)))))
      | Incomplete =>
          if eof w then Some (out, Ok (ReplayedLog f valid_end true is_sealed))
          else match fill chunk (drain w) with
               | Err e => Some (out, Err e)
               | Ok (w, _) => replay_loop fuel f seal chunk w valid_end out
               end
      | Invalid next =>
          match more_follows fuel f seal chunk w (follows f seal (drop next (buf w))) with
          | None => None
          | Some (Err e) => Some (out, Err e)
          | Some (Ok false) => Some (out, Ok (ReplayedLog f valid_end true is_sealed))
          | Some (Ok true) => Some (out, Err (InvalidData (CorruptAt (N.of_nat (base w + pos w)))))
          end
      end
  end.

Definition source_bytes (src : Source) : nat := sum_list (fmap (from_option length 0%nat) src).

Definition replay (chunk : nat) (k : option Key) (src : Source) : option (list WalOp * result WalError Replayed) :=
  let chunk := Nat.max chunk 1 in
  let fuel := (2 * source_bytes src + 3)%nat in
  match fill_to fuel chunk HEADER_LEN (mkWindow [] 0 0 false src) with
  | None => None
  | Some (Err e) => Some ([], Err e)
  | Some (Ok w) =>
      match detect (buf w) with
      | Err e => Some ([], Err e)
      | Ok TornHeader => Some ([], Ok ReplayedTornHeader)
      | Ok (Log f body_start is_sealed) =>
          if bool_decide (buf w = []) then Some ([], Ok ReplayedEmpty)
          else
            let w := mkWindow (buf w) 0 body_start (eof w) (source w) in
            match is_sealed, k with
            | true, None => Some ([], Err (InvalidData LogIsEncrypted))
            | false, Some _ => Some ([], Err (InvalidData LogNotEncrypted))
            | false, None => replay_loop fuel f None chunk w body_start []
            | true, Some key =>
                match fill_to fuel chunk (body_start + FRAME_LEN) w with
                | None => None
                | Some (Err e) => Some ([], Err e)
                | Some (Ok w) =>
                    match check_loop fuel key chunk w with
                    | None => None
                    | Some (Err e) => Some ([], Err e)
                    | Some (Ok None) => Some ([], Ok ReplayedTornHeader)
                    | Some (Ok (Some w)) => replay_loop fuel f (Some key) chunk w (pos w) []
                    end
                end
            end
      end
  end.
End sealed.
