(* ===== verification/WalReplay.v ===== *)
(** * Replaying a log chunk by chunk

    [replay] of [WalFormat] keeps a window on the log.  Here it is compared with
    reading the log as one byte string: [scan] and [replay_whole].

    - [replay_reads_whole]: whatever the chunk size and the pieces a reader
      delivers, replay ends and gives what reading the whole log gives. *)
From S2P Require Import Prelude NativeModel WireBytes Encryption WalCompact WalFormat.
Local Open Scope list_scope.
Local Open Scope N_scope.

(** ** The reference *)
Section scan.
Context {libs : Libs} {aead : Aead}.

Fixpoint scan (fuel : nat) (f : WalFormat) (seal : option Key) (bs : bytes) (p : nat) (out : list WalOp) :
    option (list WalOp * result WalError Replayed) :=
  let is_sealed := bool_decide (is_Some seal) in
  match fuel with
  | O => None
  | S fuel =>
      if (length bs <=? p)%nat then Some (out, Ok (ReplayedLog f p false is_sealed))
      else match read_any f seal bs p with
      | Ops ops next => scan fuel f seal bs next (out ++ ops)
      | Undecryptable _ => Some (out, Err (InvalidData (DoesNotDecryptAt (N.of_nat p))))
      | Incomplete => Some (out, Ok (ReplayedLog f p true is_sealed))
      | Invalid next =>
          Some (out, if follows f seal (drop next bs) then Err (InvalidData (CorruptAt (N.of_nat p)))
                     else Ok (ReplayedLog f p true is_sealed))
      end
  end.

Definition replay_whole (k : option Key) (bs : bytes) : option (list WalOp * result WalError Replayed) :=
  match detect bs with
  | Err e => Some ([], Err e)
  | Ok TornHeader => Some ([], Ok ReplayedTornHeader)
  | Ok (Log f body_start is_sealed) =>
      if bool_decide (bs = []) then Some ([], Ok ReplayedEmpty)
      else match is_sealed, k with
      | true, None => Some ([], Err (InvalidData LogIsEncrypted))
      | false, Some _ => Some ([], Err (InvalidData LogNotEncrypted))
      | false, None => scan (S (length bs)) f None bs body_start []
      | true, Some key =>
          match read_frame bs body_start with
          | Err Incomplete => Some ([], Ok ReplayedTornHeader)
          | Err _ => Some ([], Err (InvalidData KeyCheckDamaged))
          | Ok (check, next) =>
              if bool_decide (open_with key CHECK_CONTEXT check = Some CHECK_TEXT)
              then scan (S (length bs)) f (Some key) bs next []
              else Some ([], Err (InvalidData WrongKey))
          end
      end
  end.
End scan.

(** ** What a reader delivers *)
Fixpoint content (src : list (option bytes)) : bytes :=
  match src with
  | [] | None :: _ | Some [] :: _ => []
  | Some l :: src => l ++ content src
  end.

(** No read fails before the end. *)
Fixpoint steady (src : list (option bytes)) : Prop :=
  match src with
  | None :: _ => False
  | [] | Some [] :: _ => True
  | Some _ :: src => steady src
  end.

Lemma content_bound src : (length (content src) <= source_bytes src)%nat.
Proof.
  unfold source_bytes. induction src as [|[[|b l]|] src IH]; cbn; [lia| |rewrite length_app; lia|].
  all: cbn in *; lia.
Qed.

Lemma fill_loop_spec src room acc : steady src -> exists at_end src',
  fill_loop room acc src = Ok (acc ++ take room (content src), at_end, src') /\
  if at_end then (length (content src) < room)%nat
  else steady src' /\ content src' = drop room (content src) /\ (room <= length (content src))%nat.
Proof.
  revert room acc. induction src as [|[[|b l]|] src IH]; intros room acc Hs; cbn [content steady] in *; try done.
  - destruct room; cbn; [exists false, []|exists true, []]; rewrite ?app_nil_r; split_and?; done || lia.
  - destruct room; cbn; [exists false, (Some [] :: src)|exists true, src]; rewrite ?app_nil_r; split_and?; done || lia.
  - destruct room as [|room]; [exists false, (Some (b :: l) :: src); rewrite app_nil_r; split_and?; done || lia|].
    cbn [fill_loop]. set (L := b :: l) in *. destruct (Nat.ltb_spec (S room) (length L)) as [Hlt|Hge].
    + exists false, (Some (drop (S room) L) :: src). rewrite take_app_le, drop_app_le by lia.
      split; [done|].
      assert (Hd : exists c m, drop (S room) L = c :: m).
      { destruct (drop (S room) L) eqn:E; [|eauto]. apply (f_equal length) in E. rewrite length_drop, length_nil in E. lia. }
      destruct Hd as (c & m & ->). rewrite length_app. split_and?; done || lia.
    + destruct (IH (S room - length L)%nat (acc ++ L) Hs) as (e & src' & -> & C').
      exists e, src'. rewrite take_app_ge, drop_app_ge by done. split; [by rewrite app_assoc|].
      rewrite length_app. destruct e; [lia|]. destruct C' as (? & ? & ?). split_and?; done || lia.
Qed.

(** ** Windows *)
Definition unread (w : Window) : bytes := if eof w then [] else content (source w).
Definition ready (w : Window) : Prop := eof w = false -> steady (source w).

(** What a turn of the loops spends. *)
Definition cost (w : Window) : nat :=
  2 * length (unread w) + (length (buf w) - pos w) + (if eof w then 0 else 1).

Lemma fill_spec chunk w : (0 < chunk)%nat -> ready w -> exists w', fill chunk w = Ok (w', negb (bool_decide (unread w = []))) /\
  base w' = base w /\ pos w' = pos w /\ buf w' = buf w ++ take chunk (unread w) /\
  unread w' = drop chunk (unread w) /\ ready w' /\ (unread w = [] -> eof w' = true) /\ (eof w = true -> eof w' = true).
Proof.
  intros Hc Hr. unfold fill, unread, ready in *. destruct (eof w) eqn:Ee.
  - exists w. rewrite Ee, take_nil, app_nil_r, drop_nil. split_and?; done.
  - destruct (fill_loop_spec (source w) chunk [] (Hr eq_refl)) as (e & src' & -> & C). cbn [app].
    exists (mkWindow (buf w ++ take chunk (content (source w))) (base w) (pos w) e src'). cbn [buf base pos eof source].
    assert (Hn : bool_decide (take chunk (content (source w)) = []) = bool_decide (content (source w) = [])).
    { apply bool_decide_ext. destruct chunk; [lia|]. by destruct (content (source w)). }
    rewrite Hn. split; [done|]. split; [done|]. split; [done|]. split; [done|].
    destruct e; split_and?; try done.
    + symmetry. apply drop_ge. lia.
    + by destruct C as (_ & ? & _).
    + intros _. by destruct C as (? & _ & _).
    + intros E0. destruct C as (_ & _ & Hl). rewrite E0 in Hl. cbn in Hl. lia.
Qed.

Lemma fill_cost chunk w w' b : (0 < chunk)%nat -> ready w -> fill chunk w = Ok (w', b) -> (pos w <= length (buf w))%nat ->
  eof w = false \/ b = true -> (cost w' < cost w)%nat.
Proof.
  intros Hc Hr Hf Hp Hb. destruct (fill_spec chunk w Hc Hr) as (w0 & E & Eb & Ep & Ebuf & Eu & _ & He & _).
  rewrite E in Hf. injection Hf as <- <-. unfold cost. rewrite Ep, Ebuf, Eu, length_app, length_drop, length_take.
  destruct (decide (unread w = [])) as [Hu|Hu].
  - rewrite Hu in *. rewrite (He eq_refl). cbn. rewrite bool_decide_true in Hb by done.
    destruct Hb as [->|?]; [lia|done].
  - assert (0 < length (unread w))%nat by (destruct (unread w); [done|cbn; lia]).
    destruct (eof w0), (eof w) eqn:Ew; try lia. unfold unread in Hu. by rewrite Ew in Hu.
Qed.

Lemma ready_drain w : ready w -> ready (drain w). Proof. done. Qed.
Lemma ready_clear w : ready w -> ready (clear w). Proof. done. Qed.
Lemma unread_drain w : unread (drain w) = unread w. Proof. done. Qed.
Lemma unread_clear w : unread (clear w) = unread w. Proof. done. Qed.
Lemma cost_drain w : cost (drain w) = cost w.
Proof. unfold cost. rewrite unread_drain. cbn. rewrite length_drop. lia. Qed.

Section records.
Context {libs : Libs} {aead : Aead}.

(** ** One record in a window and in the whole log *)
Definition shift (d : nat) (r : RecordAt) : RecordAt :=
  match r with
  | Ops ops n => Ops ops (d + n)
  | Invalid n => Invalid (d + n)
  | Incomplete => Incomplete
  | Undecryptable n => Undecryptable (d + n)
  end.

Lemma frame_at_app l r : frame_at l <> Short -> frame_at (l ++ r) = frame_at l.
Proof.
  unfold frame_at. rewrite length_app. destruct (Nat.ltb_spec (length l) FRAME_LEN) as [?|H8]; [done|].
  destruct (Nat.ltb_spec (length l + length r) FRAME_LEN); [lia|]. unfold FRAME_LEN in *.
  rewrite (take_app_le l r 4), (drop_app_le l r 4) by lia. rewrite (take_app_le (drop 4 l)) by (rewrite length_drop; lia).
  set (len := N.to_nat (from_le (take 4 l))). destruct (Nat.ltb_spec (length l) (8 + len)); [done|].
  destruct (Nat.ltb_spec (length l + length r) (8 + len)); [lia|].
  by rewrite (drop_app_le l r 8), (take_app_le (drop 8 l)) by (rewrite ?length_drop; lia).
Qed.

Lemma frame_at_bound l : match frame_at l with
  | Whole _ n | BadSum n => (8 <= n <= length l)%nat
  | Short => True end.
Proof.
  unfold frame_at, FRAME_LEN. destruct (Nat.ltb_spec (length l) 8); [done|].
  destruct (Nat.ltb_spec (length l) (8 + N.to_nat (from_le (take 4 l)))); [done|].
  destruct (_ =? _); lia.
Qed.

Definition next_of (r : RecordAt) : option nat :=
  match r with Ops _ n | Invalid n | Undecryptable n => Some n | Incomplete => None end.

Lemma newline_bound l i : newline_at l = Some i -> (i < length l)%nat.
Proof.
  unfold newline_at. destruct (list_find _ l) as [[j x]|] eqn:E; cbn; [|done]. intros [= <-].
  apply list_find_Some in E as (Hj & _). by eapply lookup_lt_Some.
Qed.

Lemma newline_app l r i : newline_at l = Some i -> newline_at (l ++ r) = Some i.
Proof.
  unfold newline_at. destruct (list_find (eq NEWLINE) l) as [[j x]|] eqn:E; cbn; [|done]. intros [= <-].
  by rewrite (list_find_app_l _ _ _ _ _ E).
Qed.

Lemma read_any_bound f seal bs p n : (p < length bs)%nat -> next_of (read_any f seal bs p) = Some n ->
  (p < n <= length bs)%nat.
Proof.
  intros Hp. pose proof (frame_at_bound (drop p bs)) as Hb. rewrite length_drop in Hb.
  unfold read_any, read_sealed_record, read_frame, read_record.
  destruct seal as [k|].
  - destruct (frame_at (drop p bs)); cbn; [|intros [= <-]; lia|done].
    destruct (open_with k _ _); [|cbn; intros [= <-]; lia].
    destruct (if bool_decide (f = JsonLines) then _ else _); cbn; intros [= <-]; lia.
  - case_bool_decide.
    + destruct (newline_at (drop p bs)) as [i|] eqn:E.
      * apply newline_bound in E. rewrite length_drop in E. destruct (parse_json_line _); cbn; intros [= <-]; lia.
      * destruct (parse_json_line _); cbn; intros [= <-]; lia.
    + destruct (frame_at (drop p bs)); cbn; [|intros [= <-]; lia|done].
      destruct (decode_ops f _); cbn; intros [= <-]; lia.
Qed.

(** The records of the log before [pre ++ l ++ r] are those of the window [l]. *)
Lemma read_any_window f seal pre l r p : (p < length l)%nat ->
  (seal = None -> f = JsonLines -> r = [] \/ newline_at (drop p l) <> None) ->
  read_any f seal l p <> Incomplete \/ r = [] ->
  read_any f seal (pre ++ l ++ r) (length pre + p) = shift (length pre) (read_any f seal l p).
Proof.
  intros Hp Hj Hi.
  assert (Hd : drop (length pre + p) (pre ++ l ++ r) = drop p l ++ r).
  { rewrite <- drop_drop, drop_app_length. by rewrite drop_app_le by lia. }
  assert (Hf : frame_at (drop p l) <> Short \/ r = [] -> frame_at (drop p l ++ r) = frame_at (drop p l)).
  { intros [?| ->]; [by apply frame_at_app|by rewrite app_nil_r]. }
  unfold read_any, read_sealed_record, read_frame, read_record in *. rewrite Hd.
  destruct seal as [k|].
  - rewrite Hf; [|destruct Hi as [Hi|]; [left|by right]; intros E; by rewrite E in Hi].
    destruct (frame_at (drop p l)); cbn; try done; [|f_equal; lia].
    destruct (open_with k _ _); cbn; [|f_equal; lia].
    destruct (if bool_decide (f = JsonLines) then _ else _); cbn; f_equal; lia.
  - case_bool_decide as Ej.
    + destruct (newline_at (drop p l)) as [i|] eqn:E.
      * rewrite (newline_app _ r i E). rewrite take_app_le by (apply newline_bound in E; lia).
        destruct (parse_json_line _); cbn; f_equal; lia.
      * destruct (Hj eq_refl Ej) as [->|]; [|done]. rewrite app_nil_r, E. rewrite !length_app, Nat.add_0_r.
        destruct (parse_json_line _); cbn; f_equal; lia.
    + rewrite Hf; [|destruct Hi as [Hi|]; [left|by right]; intros E; by rewrite E in Hi].
      destruct (frame_at (drop p l)); cbn; try done; [|f_equal; lia].
      destruct (decode_ops f _); cbn; f_equal; lia.
Qed.

Lemma follows_app f seal a b : follows f seal (a ++ b) = follows f seal a || follows f seal b.
Proof.
  assert (H : negb (bool_decide (a ++ b = [])) = negb (bool_decide (a = [])) || negb (bool_decide (b = []))).
  { destruct a, b; done. }
  unfold follows. destruct f, seal; try done. rewrite forallb_app. by destruct (forallb _ a), (forallb _ b).
Qed.
End records.

(** ** The loops *)
Section loops.
Context {libs : Libs} {aead : Aead} (chunk : nat) (Hchunk : (0 < chunk)%nat).

Lemma more_follows_spec fuel f seal w more : ready w -> (length (unread w) < fuel)%nat ->
  more_follows fuel f seal chunk w more = Some (Ok (more || follows f seal (unread w))).
Proof using Hchunk.
  revert w more. induction fuel as [|fuel IH]; intros w more Hr Hf; [lia|]. cbn [more_follows].
  destruct more; [done|]. set (w0 := mkWindow [] (base w) (pos w) (eof w) (source w)).
  destruct (fill_spec chunk w0 Hchunk Hr) as (w' & -> & _ & _ & Eb & Eu & Hr' & _ & _).
  change (unread w0) with (unread w) in *. cbn [orb]. destruct (decide (unread w = [])) as [E|E].
  - rewrite E. by destruct f, seal.
  - rewrite bool_decide_false by done. cbn [negb]. rewrite IH; [|done|].
    + rewrite Eb, Eu. cbn [w0 buf app]. by rewrite <- follows_app, take_drop.
    + rewrite Eu, length_drop. destruct (unread w); [done|]. cbn in *. lia.
Qed.

(** The log seen through a window that starts after [pre]. *)
Definition whole (pre : bytes) (w : Window) : bytes := pre ++ buf w ++ unread w.

Lemma refill pre w : ready w -> (pos w <= length (buf w))%nat -> length pre = base w -> exists w' pre',
  fill chunk (drain w) = Ok (w', negb (bool_decide (unread w = []))) /\ ready w' /\
  (pos w' <= length (buf w'))%nat /\ length pre' = base w' /\ whole pre' w' = whole pre w /\
  (base w' + pos w' = base w + pos w)%nat /\ (eof w = false \/ unread w <> [] -> (cost w' < cost w)%nat).
Proof using Hchunk.
  intros Hr Hp Hb. destruct (fill_spec chunk (drain w) Hchunk (ready_drain _ Hr)) as (w' & E & B & P & Ebuf & Eu & R & _).
  rewrite unread_drain in *. exists w', (pre ++ take (pos w) (buf w)). split; [done|]. split; [done|].
  cbn [drain base pos buf] in *. rewrite B, P, Ebuf. split; [lia|]. split; [|split; [|split; [lia|]]].
  - rewrite length_app, length_take. lia.
  - unfold whole. rewrite Ebuf, Eu, <- !app_assoc. f_equal. rewrite take_drop.
    rewrite (app_assoc (take _ _)), take_drop. done.
  - intros Hc. rewrite <- (cost_drain w). eapply fill_cost; [exact Hchunk|exact Hr|exact E|cbn; lia|].
    destruct Hc as [?|Hc]; [by left|right]. by rewrite bool_decide_false.
Qed.

Lemma replay_loop_spec fuel f seal w out fuel' pre : ready w -> (pos w <= length (buf w))%nat ->
  length pre = base w -> (cost w < fuel)%nat -> (length (whole pre w) - (base w + pos w) < fuel')%nat ->
  replay_loop fuel f seal chunk w (base w + pos w) out = scan fuel' f seal (whole pre w) (base w + pos w) out.
Proof using Hchunk.
  revert w out fuel' pre. induction fuel as [|fuel IH]; intros w out fuel' pre Hr Hp Hb Hc Hf; [lia|].
  assert (Hlen : length (whole pre w) = (base w + (length (buf w) + length (unread w)))%nat).
  { unfold whole. rewrite !length_app. lia. }
  destruct (refill pre w Hr Hp Hb) as (w' & pre' & Ef & Hr' & Hp' & Hb' & Hw & Hpos & Hcost).
  assert (Hgo : eof w = false \/ unread w <> [] -> replay_loop fuel f seal chunk w' (base w + pos w) out =
    scan fuel' f seal (whole pre w) (base w + pos w) out).
  { intros Hg. rewrite <- Hpos, <- Hw. apply IH; try done; [specialize (Hcost Hg); lia|]. rewrite Hw, Hpos. done. }
  cbn [replay_loop]. destruct (Nat.leb_spec (length (buf w)) (pos w)) as [Hend|Hin].
  { assert (Hclear : clear w = drain w) by (unfold clear, drain; by rewrite drop_ge).
    rewrite Hclear, Ef. case_bool_decide as Eu; cbn [negb].
    - destruct fuel' as [|fuel']; [lia|]. cbn [scan]. rewrite Hlen, Eu. cbn [length].
      destruct (Nat.leb_spec (base w + (length (buf w) + 0)) (base w + pos w)); [done|lia].
    - apply Hgo. by right. }
  destruct (negb (bool_decide (is_Some seal)) && bool_decide (f = JsonLines) && negb (eof w) &&
    bool_decide (newline_at (drop (pos w) (buf w)) = None)) eqn:Hjson.
  { rewrite Ef. apply Hgo. left. destruct (eof w); [|done]. cbn in Hjson. by rewrite andb_false_r in Hjson. }
  assert (Hlines : seal = None -> f = JsonLines ->
    unread w = [] \/ newline_at (drop (pos w) (buf w)) <> None).
  { intros -> ->. rewrite (bool_decide_true (JsonLines = JsonLines)) in Hjson by done.
    rewrite (bool_decide_false (is_Some None)) in Hjson by (by intros []).
    cbn in Hjson. unfold unread. destruct (eof w); [by left|]. right. cbn in Hjson. by case_bool_decide. }
  destruct fuel' as [|fuel']; [lia|].
  assert (Hstep : read_any f seal (buf w) (pos w) <> Incomplete \/ unread w = [] ->
    read_any f seal (whole pre w) (base w + pos w) = shift (base w) (read_any f seal (buf w) (pos w))).
  { intros H. unfold whole. rewrite <- Hb. by apply read_any_window. }
  pose proof (read_any_bound f seal (buf w) (pos w)) as Hbound.
  cbn [scan]. destruct (Nat.leb_spec (length (whole pre w)) (base w + pos w)) as [Hl|_]; [lia|].
  destruct (read_any f seal (buf w) (pos w)) as [ops next|next| |next] eqn:Er.
  - rewrite Hstep by (by left). cbn [shift].
    specialize (Hbound next Hin eq_refl). set (wn := mkWindow (buf w) (base w) next (eof w) (source w)).
    apply (IH wn (out ++ ops) fuel' pre); try done; cbn [wn pos base buf].
    + lia.
    + unfold cost in *. change (unread wn) with (unread w). cbn [wn pos base buf eof]. lia.
    + change (whole pre wn) with (whole pre w). lia.
  - rewrite Hstep by (by left). cbn [shift]. specialize (Hbound next Hin eq_refl).
    rewrite more_follows_spec; [|done|unfold cost in Hc; lia].
    rewrite <- follows_app. assert (drop (base w + next) (whole pre w) = drop next (buf w) ++ unread w) as ->.
    { unfold whole. rewrite <- drop_drop, <- Hb, drop_app_length. by rewrite drop_app_le by lia. }
    by destruct (follows _ _ _).
  - destruct (eof w) eqn:Ee.
    + rewrite Hstep by (right; unfold unread; by rewrite Ee). done.
    + rewrite Ef. rewrite Hgo by (by left). cbn [scan].
      destruct (Nat.leb_spec (length (whole pre w)) (base w + pos w)) as [Hl|_]; [lia|]. done.
  - rewrite Hstep by (by left). done.
Qed.

Lemma fill_to_spec fuel want w : ready w -> (pos w <= length (buf w))%nat -> (cost w < fuel)%nat -> exists w',
  fill_to fuel chunk want w = Some (Ok w') /\ ready w' /\ base w' = base w /\ pos w' = pos w /\
  (length (buf w) <= length (buf w'))%nat /\
  buf w' ++ unread w' = buf w ++ unread w /\ (want <= length (buf w') \/ unread w' = [])%nat /\ (cost w' <= cost w)%nat.
Proof using Hchunk.
  revert w. induction fuel as [|fuel IH]; intros w Hr Hp Hc; [lia|]. cbn [fill_to].
  destruct (Nat.ltb_spec (length (buf w)) want) as [Hlt|Hge]; [|exists w; split_and?; done || (by left) || lia].
  destruct (fill_spec chunk w Hchunk Hr) as (w1 & Ef & B1 & P1 & E1 & U1 & R1 & _).
  assert (Hsame : buf w1 ++ unread w1 = buf w ++ unread w) by (rewrite E1, U1, <- app_assoc; by rewrite take_drop).
  assert (Hmore : (length (buf w) <= length (buf w1))%nat) by (rewrite E1, length_app; lia).
  rewrite Ef. case_bool_decide as Eu; cbn [negb].
  - exists w1. rewrite Eu, drop_nil in U1. split_and?; try done; [by right|].
    unfold cost. rewrite U1, Eu, P1, E1, Eu, take_nil, app_nil_r.
    destruct (eof w) eqn:Ee; [|destruct (eof w1); lia].
    unfold fill in Ef. rewrite Ee in Ef. injection Ef as <-. rewrite Ee. lia.
  - assert (Hd : (cost w1 < cost w)%nat).
    { eapply fill_cost; [exact Hchunk|exact Hr|exact Ef|done|by right]. }
    destruct (IH w1 R1 ltac:(lia) ltac:(lia)) as (w' & -> & R' & B' & P' & L' & S' & W' & C').
    exists w'. split_and?; try done; try congruence; lia.
Qed.

Lemma check_loop_spec fuel k w : ready w -> (pos w < length (buf w) \/ pos w = length (buf w))%nat -> base w = 0%nat -> (cost w < fuel)%nat ->
  match read_frame (whole [] w) (pos w) with
  | Err Incomplete => check_loop fuel k chunk w = Some (Ok None)
  | Err _ => check_loop fuel k chunk w = Some (Err (InvalidData KeyCheckDamaged))
  | Ok (check, next) =>
      if bool_decide (open_with k CHECK_CONTEXT check = Some CHECK_TEXT)
      then exists w', check_loop fuel k chunk w = Some (Ok (Some w')) /\ ready w' /\ base w' = 0%nat /\
        pos w' = next /\ (pos w' <= length (buf w'))%nat /\ whole [] w' = whole [] w /\ (cost w' <= cost w)%nat
      else check_loop fuel k chunk w = Some (Err (InvalidData WrongKey))
  end.
Proof using Hchunk.
  revert w. induction fuel as [|fuel IH]; intros w Hr Hp Hb Hc; [lia|]. cbn [check_loop].
  assert (Hd : drop (pos w) (whole [] w) = drop (pos w) (buf w) ++ unread w).
  { unfold whole. cbn [app]. by rewrite drop_app_le by lia. }
  pose proof (frame_at_bound (drop (pos w) (buf w))) as Hbound. rewrite length_drop in Hbound.
  unfold read_frame in *. rewrite Hd in *.
  destruct (frame_at (drop (pos w) (buf w))) as [payload len|len|] eqn:Ef.
  - rewrite frame_at_app, Ef by (by rewrite Ef). case_bool_decide; [|done].
    exists (mkWindow (buf w) (base w) (pos w + len) (eof w) (source w)). split; [done|]. split; [done|].
    split; [done|]. split; [done|]. split; [cbn; lia|]. split; [done|]. unfold cost.
    change (unread (mkWindow _ _ _ _ _)) with (unread w). cbn. lia.
  - rewrite frame_at_app, Ef by (by rewrite Ef). done.
  - destruct (eof w) eqn:Ee.
    + assert (unread w = []) as -> by (unfold unread; by rewrite Ee). rewrite app_nil_r, Ef. done.
    + destruct (fill_spec chunk w Hchunk Hr) as (w1 & Ew & B1 & P1 & E1 & U1 & R1 & _). rewrite Ew.
      assert (Hcost : (cost w1 < cost w)%nat).
      { eapply fill_cost; [exact Hchunk|exact Hr|exact Ew|lia|by left]. }
      assert (Hw : whole [] w1 = whole [] w).
      { unfold whole. cbn [app]. rewrite E1, U1, <- app_assoc. by rewrite take_drop. }
      rewrite <- Hd. rewrite <- Hw, <- P1.
      assert (Hp1 : (pos w1 < length (buf w1) \/ pos w1 = length (buf w1))%nat) by (rewrite P1, E1, length_app; lia).
      specialize (IH w1 R1 Hp1 ltac:(congruence) ltac:(lia)).
      destruct (frame_at (drop (pos w1) (whole [] w1))) as [check ? | |]; try done.
      destruct (bool_decide (open_with k CHECK_CONTEXT check = _)); [|done].
      destruct IH as (w' & ? & ? & ? & ? & ? & ? & ?). exists w'. split_and?; try done. lia.
Qed.
End loops.

(** ** The theorem *)
Section whole.
Context {libs : Libs} {aead : Aead}.

Lemma detect_start l r : (HEADER_LEN <= length l)%nat -> detect (l ++ r) = detect l.
Proof.
  intros H. unfold detect, HEADER_LEN in *. rewrite length_app.
  destruct (Nat.ltb_spec (length l + length r) 8); [lia|]. destruct (Nat.ltb_spec (length l) 8); [lia|].
  assert (length MAGIC = 6%nat) as -> by done. rewrite (take_app_le l r) by lia.
  rewrite !app_nth1 by lia. done.
Qed.

Lemma detect_body l f n s : detect l = Ok (Log f n s) -> (n <= length l)%nat /\ (s = true -> n = HEADER_LEN).
Proof.
  unfold detect. destruct (Nat.ltb_spec (length l) HEADER_LEN).
  - destruct (_ && _); [done|]. intros [= <- <- <-]. split; [lia|done].
  - destruct (negb _); [intros [= <- <- <-]; split; [lia|done]|].
    destruct (negb _); [done|]. destruct (format_of_tag _ _) as [f'|]; [|done].
    destruct (compiled_in f'); [|done]. intros [= <- <- <-]. split; [done|done].
Qed.

Lemma scan_total fuel f seal bs p out : (length bs - p < fuel)%nat -> is_Some (scan fuel f seal bs p out).
Proof.
  revert p out. induction fuel as [|fuel IH]; intros p out Hf; [lia|]. cbn [scan].
  destruct (Nat.leb_spec (length bs) p) as [|Hp]; [by eexists|].
  pose proof (read_any_bound f seal bs p) as Hb.
  destruct (read_any f seal bs p); try by eexists. specialize (Hb _ Hp eq_refl). apply IH. lia.
Qed.

Lemma replay_reads_same chunk k src : steady src ->
  replay chunk k src = replay_whole k (content src) /\ is_Some (replay_whole k (content src)).
Proof.
  intros Hs. split.
  - unfold replay. set (c := Nat.max chunk 1). assert (Hc : (0 < c)%nat) by lia.
    set (w0 := mkWindow [] 0 0 false src). set (fuel := (2 * source_bytes src + 3)%nat).
    pose proof (content_bound src) as Hb.
    destruct (fill_to_spec c Hc fuel HEADER_LEN w0) as (w & -> & Rw & Bw & Pw & _ & Sw & Ww & Cw).
    { by intros _. } { cbn; lia. } { unfold cost, fuel. cbn. lia. }
    assert (Hcost0 : (cost w < fuel)%nat) by (unfold cost, fuel in *; cbn in *; lia).
    change (buf w0 ++ unread w0) with (content src) in Sw. rewrite <- Sw.
    cbn [w0 base pos] in Bw, Pw. unfold replay_whole.
    assert (Hdet : detect (buf w ++ unread w) = detect (buf w)).
    { destruct Ww as [?|E]; [by apply detect_start|]. by rewrite E, app_nil_r. }
    rewrite Hdet. destruct (detect (buf w)) as [[f n is_sealed|]|e] eqn:Ed; try done.
    apply detect_body in Ed as [Hn Hsn].
    assert (Hempty : bool_decide (buf w = []) = bool_decide (buf w ++ unread w = [])).
    { apply bool_decide_ext. destruct Ww as [Hl|E]; [|by rewrite E, app_nil_r].
      destruct (buf w); [cbn in Hl; unfold HEADER_LEN in Hl; lia|done]. }
    rewrite Hempty. clear Hempty. destruct (bool_decide (buf w ++ unread w = [])); [done|].
    set (w1 := mkWindow (buf w) 0 n (eof w) (source w)).
    assert (Hw1 : whole [] w1 = buf w ++ unread w) by done.
    assert (C1 : (cost w1 <= cost w)%nat).
    { unfold cost. change (unread w1) with (unread w). cbn [w1 buf pos eof]. lia. }
    destruct is_sealed, k as [key|]; try done.
    + destruct (fill_to_spec c Hc fuel (n + FRAME_LEN) w1) as (w2 & -> & R2 & B2 & P2 & L2 & S2 & _ & C2);
        [done|done|lia|].
      change (buf w1 ++ unread w1) with (buf w ++ unread w) in S2. cbn [w1 base pos buf] in B2, P2, L2.
      pose proof (check_loop_spec c Hc fuel key w2 R2 ltac:(lia) B2 ltac:(lia)) as Hk.
      assert (Hw2 : whole [] w2 = buf w ++ unread w) by done. rewrite Hw2, P2 in Hk.
      destruct (read_frame (buf w ++ unread w) n) as [[check next]|[]]; try by rewrite Hk.
      destruct (bool_decide (open_with key CHECK_CONTEXT check = _)); [|by rewrite Hk].
      destruct Hk as (w3 & -> & R3 & B3 & P3 & L3 & W3 & C3).
      rewrite <- W3, <- P3.
      pose proof (replay_loop_spec c Hc fuel f (Some key) w3 [] (S (length (whole [] w3))) []) as H3.
      rewrite B3 in H3. apply H3; try done; lia.
    + rewrite <- Hw1.
      apply (replay_loop_spec c Hc fuel f None w1 [] (S (length (whole [] w1))) []); try done; lia || (cbn; lia).
  - set (bs := content src). unfold replay_whole. destruct (detect bs) as [[f n is_sealed|]|]; try by eexists.
    case_bool_decide; [by eexists|]. destruct is_sealed, k as [key|]; try by eexists.
    + destruct (read_frame bs n) as [[check next]|[]]; try by eexists.
      case_bool_decide; [|by eexists]. apply scan_total. lia.
    + apply scan_total. lia.
Qed.

(** Replay ends, and whatever the chunk size and however the reader cuts
    the log into pieces, it hands on the operations, and reports the format,
    the end of the valid records, the torn tail or the refusal, that reading
    the log as one byte string gives. *)
Theorem replay_reads_whole chunk k src : steady src ->
  replay chunk k src = replay_whole k (content src) /\ is_Some (replay_whole k (content src)).
Proof. apply replay_reads_same. Qed.
End whole.
