(* ===== verification/WalRecovery.v ===== *)
(** * What a log gives back

    - [frame_detects_damage]: a record with up to four consecutive bytes of its
      payload changed no longer passes its checksum;
    - [torn_log_recovers]: a log cut anywhere in its last record yields the
      records before it, sealed or not, in every format. *)
From S2P Require Import Prelude NativeModel WireBytes Encryption WalCompact WalFormat WalReplay.
Local Open Scope list_scope.
Local Open Scope N_scope.

(** ** The checksum *)

(** A step without input. *)
Definition crc_shift (c : N) : N := N.lxor (nth (N.to_nat (N.land c 255)) TABLE 0) (N.shiftr c 8).

Lemma land_lxor a b c : N.land (N.lxor a b) c = N.lxor (N.land a c) (N.land b c).
Proof. apply N.bits_inj. intros i. rewrite N.land_spec, !N.lxor_spec, !N.land_spec. by destruct (N.testbit a i), (N.testbit b i), (N.testbit c i). Qed.

Lemma lxor_cancel_l a b c : N.lxor a b = N.lxor a c -> b = c.
Proof.
  intros E. apply (f_equal (N.lxor a)) in E. by rewrite <- !N.lxor_assoc, !N.lxor_nilpotent, !N.lxor_0_l in E.
Qed.
Lemma lxor_cancel_r a b c : N.lxor b a = N.lxor c a -> b = c.
Proof. rewrite !(N.lxor_comm _ a). apply lxor_cancel_l. Qed.

Lemma crc_step_shift c b : b < 256 -> crc_step c b = crc_shift (N.lxor c b).
Proof.
  intros Hb. unfold crc_step, crc_shift. rewrite N.shiftr_lxor.
  assert (N.shiftr b 8 = 0) as ->.
  { rewrite N.shiftr_div_pow2. by apply N.div_small. }
  by rewrite N.lxor_0_r.
Qed.

Lemma crc_shift_lxor c v : crc_shift (N.lxor c (N.shiftl v 8)) = N.lxor (crc_shift c) v.
Proof.
  unfold crc_shift. rewrite N.shiftr_lxor, N.shiftr_shiftl_l, N.sub_diag, N.shiftl_0_r by lia.
  rewrite land_lxor.
  assert (N.land (N.shiftl v 8) 255 = 0) as ->.
  { change 255 with (N.ones 8). rewrite N.land_ones, N.shiftl_mul_pow2. by apply N.Div0.mod_mul. }
  by rewrite N.lxor_0_r, N.lxor_assoc.
Qed.

Definition top_byte (i : nat) : N := N.shiftr (nth i TABLE 0) 24.
Definition top_bytes : list N := Eval vm_compute in top_byte <$> seq 0 256.
Lemma table_tops : forallb (fun i => forallb (fun j => negb (top_byte i =? top_byte j) || (i =? j)%nat)
  (seq 0 256)) (seq 0 256) = true.
Proof. vm_compute. reflexivity. Qed.
Lemma table_range : forallb (fun t => t <? 2 ^ 32) TABLE = true.
Proof. vm_compute. reflexivity. Qed.

Lemma top_byte_inj i j : (i < 256)%nat -> (j < 256)%nat -> top_byte i = top_byte j -> i = j.
Proof.
  intros Hi Hj E. pose proof table_tops as H. rewrite forallb_forall in H.
  specialize (H i ltac:(apply in_seq; lia)). rewrite forallb_forall in H.
  specialize (H j ltac:(apply in_seq; lia)). rewrite E, N.eqb_refl in H. cbn in H. by apply Nat.eqb_eq.
Qed.

Lemma low_byte c : (N.to_nat (N.land c 255) < 256)%nat.
Proof.
  change 255 with (N.ones 8). rewrite N.land_ones. pose proof (N.mod_upper_bound c (2 ^ 8)). lia.
Qed.

Lemma shiftr_small c n : c < 2 ^ (8 + n) -> N.shiftr c 8 < 2 ^ n.
Proof. intros H. rewrite N.shiftr_div_pow2. apply N.Div0.div_lt_upper_bound. by rewrite <- N.pow_add_r. Qed.

Lemma lxor_bound a b n : a < 2 ^ n -> b < 2 ^ n -> N.lxor a b < 2 ^ n.
Proof.
  intros Ha Hb. destruct (decide (N.lxor a b = 0)) as [->|H0]; [lia|].
  apply N.log2_lt_pow2; [lia|]. eapply N.le_lt_trans; [apply N.log2_lxor|].
  destruct (decide (n = 0)) as [->|]; [cbn in *; assert (a = 0) as -> by lia; assert (b = 0) as -> by lia; done|].
  apply N.max_lub_lt; [destruct (decide (a = 0)) as [->|]|destruct (decide (b = 0)) as [->|]];
    try (apply N.log2_lt_pow2; lia); cbn; lia.
Qed.

Lemma table_bound i : (i < 256)%nat -> nth i TABLE 0 < 2 ^ 32.
Proof.
  intros Hi. pose proof table_range as H. rewrite forallb_forall in H. apply N.ltb_lt, H, nth_In. exact Hi.
Qed.

Lemma crc_shift_bound c : c < 2 ^ 32 -> crc_shift c < 2 ^ 32.
Proof.
  intros H. apply lxor_bound; [apply table_bound, low_byte|].
  pose proof (shiftr_small c 24 H). lia.
Qed.

Lemma crc_shift_top c : c < 2 ^ 32 -> N.shiftr (crc_shift c) 24 = top_byte (N.to_nat (N.land c 255)).
Proof.
  intros H. unfold crc_shift, top_byte. rewrite N.shiftr_lxor. pose proof (shiftr_small c 24 H) as Hs.
  assert (N.shiftr (N.shiftr c 8) 24 = 0) as ->.
  { rewrite (N.shiftr_div_pow2 (N.shiftr c 8)). by apply N.div_small. }
  by rewrite N.lxor_0_r.
Qed.

Lemma crc_shift_inj a b : a < 2 ^ 32 -> b < 2 ^ 32 -> crc_shift a = crc_shift b -> a = b.
Proof.
  intros Ha Hb E. assert (Hlow : N.land a 255 = N.land b 255).
  { apply N2Nat.inj, top_byte_inj; try apply low_byte. by rewrite <- !crc_shift_top, E. }
  assert (Hhigh : N.shiftr a 8 = N.shiftr b 8).
  { unfold crc_shift in E. rewrite Hlow in E. by apply lxor_cancel_l in E. }
  rewrite (N.div_mod' a 256), (N.div_mod' b 256).
  change 255 with (N.ones 8) in Hlow. rewrite !N.land_ones in Hlow. rewrite !N.shiftr_div_pow2 in Hhigh.
  change (2 ^ 8) with 256 in *. by rewrite Hhigh, Hlow.
Qed.

(** The bytes of a block as one number, the first lowest. *)
Fixpoint block (m : bytes) : N :=
  match m with [] => 0 | b :: m => N.lxor b (N.shiftl (block m) 8) end.

Lemma crc_block m c : Forall is_byte m -> foldl crc_step c m = Nat.iter (length m) crc_shift (N.lxor c (block m)).
Proof.
  intros Hm. revert c. induction Hm as [|b m Hb _ IH]; intros c; cbn [foldl block length].
  - by rewrite N.lxor_0_r.
  - rewrite IH, crc_step_shift by done. rewrite Nat.iter_succ_r, <- crc_shift_lxor, N.lxor_assoc. done.
Qed.

Lemma block_bound m n : Forall is_byte m -> (length m <= n)%nat -> block m < 2 ^ (8 * N.of_nat n).
Proof.
  intros Hm. revert n. induction Hm as [|b m Hb _ IH]; intros n Hn; cbn [block].
  - apply N.neq_0_lt_0, N.pow_nonzero. lia.
  - cbn in Hn. destruct n as [|n]; [lia|]. specialize (IH n ltac:(lia)). apply lxor_bound.
    + eapply N.lt_le_trans; [exact Hb|]. change 256 with (2 ^ 8). apply N.pow_le_mono_r; lia.
    + rewrite N.shiftl_mul_pow2. replace (8 * N.of_nat (S n)) with (8 * N.of_nat n + 8) by lia.
      rewrite N.pow_add_r. apply N.mul_lt_mono_pos_r; [done|lia].
Qed.

Lemma block_inj m m' : Forall is_byte m -> Forall is_byte m' -> length m = length m' -> block m = block m' -> m = m'.
Proof.
  intros Hm. revert m'. induction Hm as [|b m Hb _ IH]; intros [|b' m'] Hm' Hl E; try done.
  apply Forall_cons in Hm' as [Hb' Hm']. cbn [block] in E.
  assert (Hlow : forall b v, is_byte b -> N.land (N.lxor b (N.shiftl v 8)) 255 = b /\ N.shiftr (N.lxor b (N.shiftl v 8)) 8 = v).
  { intros x v Hx. change 255 with (N.ones 8). unfold is_byte in Hx. split.
    - rewrite land_lxor, !N.land_ones, N.shiftl_mul_pow2, N.Div0.mod_mul, N.lxor_0_r. by apply N.mod_small.
    - rewrite N.shiftr_lxor, N.shiftr_shiftl_l, N.sub_diag, N.shiftl_0_r, (N.shiftr_div_pow2 x) by lia.
      by rewrite N.div_small, N.lxor_0_l. }
  destruct (Hlow b (block m) Hb) as [L1 R1], (Hlow b' (block m') Hb') as [L2 R2]. rewrite E in L1, R1.
  f_equal; [congruence|]. apply IH; [done|by injection Hl|congruence].
Qed.

Lemma iter_shift_inj n a b : a < 2 ^ 32 -> b < 2 ^ 32 -> Nat.iter n crc_shift a = Nat.iter n crc_shift b -> a = b.
Proof.
  intros Ha Hb. assert (Hbound : forall n c, c < 2 ^ 32 -> Nat.iter n crc_shift c < 2 ^ 32).
  { intros k c Hc. induction k; [done|]. by apply crc_shift_bound. }
  induction n as [|n IH]; [done|]. intros E. apply IH. apply crc_shift_inj; [by apply Hbound..|exact E].
Qed.

Lemma crc_run_bound l c : Forall is_byte l -> c < 2 ^ 32 -> foldl crc_step c l < 2 ^ 32.
Proof.
  intros Hl. revert c. induction Hl as [|b l Hb _ IH]; intros c Hc; [done|]. cbn. apply IH.
  rewrite crc_step_shift by done. apply crc_shift_bound, lxor_bound; [done|].
  unfold is_byte in Hb. eapply N.lt_trans; [exact Hb|]. reflexivity.
Qed.

Lemma crc_run_inj l a b : Forall is_byte l -> a < 2 ^ 32 -> b < 2 ^ 32 -> foldl crc_step a l = foldl crc_step b l -> a = b.
Proof.
  intros Hl. revert a b. induction Hl as [|x l Hx _ IH]; intros a b Ha Hb; [done|]. cbn. intros E.
  unfold is_byte in Hx. assert (Hx' : x < 2 ^ 32) by (eapply N.lt_trans; [exact Hx|reflexivity]).
  apply IH in E; rewrite ?crc_step_shift by done; try by apply crc_shift_bound, lxor_bound.
  rewrite !crc_step_shift in E by done. apply crc_shift_inj in E; try by apply lxor_bound.
  by apply lxor_cancel_r in E.
Qed.

Lemma crc32_burst p m m' s : Forall is_byte (p ++ m ++ m' ++ s) -> length m = length m' -> (length m <= 4)%nat ->
  crc32 (p ++ m ++ s) = crc32 (p ++ m' ++ s) -> m = m'.
Proof.
  rewrite !Forall_app. intros (Hp & Hm & Hm' & Hs) Hl H4 E. unfold crc32 in E. apply lxor_cancel_r in E.
  rewrite !foldl_app in E. set (c := foldl crc_step 0xFFFFFFFF p) in E.
  assert (Hc : c < 2 ^ 32) by (by apply crc_run_bound).
  apply crc_run_inj in E; try done; try (by apply crc_run_bound).
  rewrite !crc_block, Hl in E by done.
  assert (Hb : forall x, Forall is_byte x -> (length x <= 4)%nat -> block x < 2 ^ 32).
  { intros x Hx Hx4. exact (block_bound x 4 Hx Hx4). }
  apply iter_shift_inj in E; try (apply lxor_bound; [done|apply Hb; [done|lia]]).
  apply lxor_cancel_l in E. by apply block_inj.
Qed.

(** ** Frames *)
Section frames.
Context {libs : Libs} {aead : Aead}.

Lemma crc32_bound l : Forall is_byte l -> crc32 l < 2 ^ 32.
Proof. intros H. apply lxor_bound; [by apply crc_run_bound|done]. Qed.

Lemma frame_shape payload b : frame payload = Ok b -> N.of_nat (length payload) < 2 ^ 32 /\
  b = le_bytes 4 (N.of_nat (length payload)) ++ le_bytes 4 (crc32 payload) ++ payload.
Proof. unfold frame. destruct (N.ltb_spec (N.of_nat (length payload)) (2 ^ 32)); [|done]. by intros [= <-]. Qed.

Lemma frame_length payload b : frame payload = Ok b -> length b = (8 + length payload)%nat.
Proof. intros (_ & ->)%frame_shape. rewrite !length_app, !length_le_bytes. lia. Qed.

(** A frame whose payload may have changed. *)
Lemma frame_at_payload n crc payload rest : N.of_nat (length payload) < 2 ^ 32 -> crc < 2 ^ 32 ->
  n = N.of_nat (length payload) ->
  frame_at ((le_bytes 4 n ++ le_bytes 4 crc ++ payload) ++ rest) =
  if crc32 payload =? crc then Whole payload (8 + length payload) else BadSum (8 + length payload).
Proof.
  intros Hp Hc ->. unfold frame_at, FRAME_LEN. rewrite <- !app_assoc.
  set (h := le_bytes 4 (N.of_nat (length payload))). set (s := le_bytes 4 crc).
  assert (Hh : length h = 4%nat) by apply length_le_bytes. assert (Hs : length s = 4%nat) by apply length_le_bytes.
  assert (take 4 (h ++ s ++ payload ++ rest) = h) as -> by (by apply take_app_length').
  assert (drop 4 (h ++ s ++ payload ++ rest) = s ++ payload ++ rest) as -> by (by apply drop_app_length').
  assert (take 4 (s ++ payload ++ rest) = s) as -> by (by apply take_app_length').
  assert (drop 8 (h ++ s ++ payload ++ rest) = payload ++ rest) as ->.
  { rewrite app_assoc. apply drop_app_length'. rewrite length_app. lia. }
  assert (N.to_nat (from_le h) = length payload) as ->.
  { unfold h. rewrite from_to_le, N.mod_small by done. lia. }
  assert (from_le s = crc) as -> by (unfold s; rewrite from_to_le; by apply N.mod_small).
  rewrite take_app_length, !length_app, Hh, Hs.
  destruct (Nat.ltb_spec (4 + (4 + (length payload + length rest))) 8); [lia|].
  destruct (Nat.ltb_spec (4 + (4 + (length payload + length rest))) (8 + length payload)); [lia|]. done.
Qed.

Lemma frame_whole payload b rest : Forall is_byte payload -> frame payload = Ok b ->
  frame_at (b ++ rest) = Whole payload (length b).
Proof.
  intros Hb Hf. rewrite (frame_length _ _ Hf). destruct (frame_shape _ _ Hf) as [Hl ->].
  rewrite frame_at_payload; [|done|by apply crc32_bound|done]. by rewrite N.eqb_refl.
Qed.

Lemma frame_cut payload b cut : frame payload = Ok b -> (cut < length b)%nat -> frame_at (take cut b) = Short.
Proof.
  intros Hf Hc. rewrite (frame_length _ _ Hf) in Hc. destruct (frame_shape _ _ Hf) as [Hl ->].
  set (h := le_bytes 4 (N.of_nat (length payload))). set (s := le_bytes 4 (crc32 payload)).
  assert (Hh : length h = 4%nat) by apply length_le_bytes. assert (Hs : length s = 4%nat) by apply length_le_bytes.
  unfold frame_at, FRAME_LEN. rewrite length_take, !length_app, Hh, Hs.
  destruct (Nat.ltb_spec (cut `min` (4 + (4 + length payload))) 8) as [|H8]; [done|].
  assert (take 4 (take cut (h ++ s ++ payload)) = h) as ->.
  { rewrite take_take, Nat.min_l by lia. by apply take_app_length'. }
  assert (N.to_nat (from_le h) = length payload) as ->.
  { unfold h. rewrite from_to_le, N.mod_small by done. lia. }
  destruct (Nat.ltb_spec (cut `min` (4 + (4 + length payload))) (8 + length payload)); [done|lia].
Qed.

(** C13: A framed record reads back, whatever follows it; with up to four
    consecutive bytes of its payload replaced by others, the checksum fails. *)
Theorem frame_detects_damage p m m' s b rest : Forall is_byte (p ++ m ++ m' ++ s) ->
  length m = length m' -> (length m <= 4)%nat -> m <> m' -> frame (p ++ m ++ s) = Ok b ->
  frame_at (b ++ rest) = Whole (p ++ m ++ s) (length b) /\
  frame_at ((take 8 b ++ p ++ m' ++ s) ++ rest) = BadSum (length b).
Proof.
  intros Hb Hl H4 Hne Hf. assert (Hb' := Hb). rewrite !Forall_app in Hb'. destruct Hb' as (Hp & Hm & Hm' & Hs).
  assert (Hpay : Forall is_byte (p ++ m ++ s)) by (by rewrite !Forall_app).
  split; [by apply frame_whole|]. rewrite (frame_length _ _ Hf). destruct (frame_shape _ _ Hf) as [Hlen ->].
  set (h := le_bytes 4 (N.of_nat (length (p ++ m ++ s)))).
  assert (take 8 (h ++ le_bytes 4 (crc32 (p ++ m ++ s)) ++ p ++ m ++ s) = h ++ le_bytes 4 (crc32 (p ++ m ++ s))) as ->.
  { rewrite app_assoc. apply take_app_length'. unfold h. by rewrite length_app, !length_le_bytes. }
  assert (Hsame : length (p ++ m' ++ s) = length (p ++ m ++ s)) by (rewrite !length_app; lia).
  rewrite <- (app_assoc h). unfold h. rewrite frame_at_payload; [|by rewrite Hsame|by apply crc32_bound|by rewrite Hsame].
  rewrite Hsame. destruct (N.eqb_spec (crc32 (p ++ m' ++ s)) (crc32 (p ++ m ++ s))) as [E|]; [|done].
  exfalso. apply Hne. symmetry in E. by apply crc32_burst in E.
Qed.
End frames.

(** ** What the libraries promise

    For the operations a log can hold (finite floats, say): what was written
    reads back; JSON text is one line of UTF-8, an object or an array, and no
    proper prefix of it is JSON. *)
Definition json_text_ok (opening closing : N) (t : bytes) : Prop :=
  (exists m, t = opening :: m ++ [closing]) /\ from_utf8 t = true /\ NEWLINE ∉ t.

Class LibLaws `{Libs} (storable : WalOp -> Prop) : Prop := {
  json_op_text : forall op t, storable op -> json_op op = Some t -> json_text_ok 123 125 t /\ json_op_of t = Some op;
  json_op_cut : forall op t p, storable op -> json_op op = Some t -> p `prefix_of` t -> p <> t -> json_op_of p = None;
  json_ops_text : forall ops t, Forall storable ops -> json_ops ops = Some t ->
    json_text_ok 91 93 t /\ json_ops_of t = Some ops;
  json_ops_cut : forall ops t p, Forall storable ops -> json_ops ops = Some t -> p `prefix_of` t -> p <> t ->
    json_ops_of p = None;
  value_law : forall ops v, Forall storable ops -> to_value ops = Some v -> value_ok v /\ from_value v = Some ops;
  json_value_law : forall v t, value_ok v -> json_value v = Some t -> json_value_of t = Some v;
  cbor_value_law : forall v t, value_ok v -> cbor_value (WalCompact.ops v) = Some t ->
    cbor_value_of t = Some (WalCompact.ops v);
  cbor_ops_law : forall ops t, Forall storable ops -> cbor_ops (borrow ops) = Some t -> cbor_ops_of t = Some (borrow ops);
  msgpack_ops_law : forall ops t, Forall storable ops -> msgpack_ops (borrow ops) = Some t ->
    msgpack_ops_of t = Some (borrow ops);
  zstd_law : forall b z, compress b = Some z -> frame_content_size z = Some (N.of_nat (length b)) /\
    decompress z (N.of_nat (length b)) = Some b;
}.

Section recovery.
Context {libs : Libs} {aead : Aead} (storable : WalOp -> Prop) {laws : LibLaws storable} {sealing : AeadLaws}.

(** [own] undoes [borrow]. *)
Section op_ind.
Context (P : WalOp -> Prop).
Context (Hprepare : forall gid at_ms ops, Forall P ops -> P (Prepare gid at_ms ops)).
Context (Hother : forall op, (forall gid at_ms ops, op <> Prepare gid at_ms ops) -> P op).
Fixpoint walop_ind' (op : WalOp) : P op.
Proof using Hother Hprepare.
  destruct op as [| | | | | |gid at_ms ops| |]; try (apply Hother; done).
  apply Hprepare. induction ops as [|op ops IH]; constructor; [apply walop_ind'|exact IH].
Defined.
End op_ind.

Lemma from_op_ref op : from_op (op_ref op) = op.
Proof.
  induction op as [gid at_ms ops IH|op Hop] using walop_ind'.
  - cbn. f_equal. induction IH as [|op ops E _ IH]; cbn; [done|]. by rewrite E, IH.
  - destruct op as [[]| |[]| | | | | |]; try done. by destruct (Hop gid prepared_at_ms ops).
Qed.

Lemma own_borrow ops : own (borrow ops) = ops.
Proof. unfold own, borrow. induction ops as [|op ops IH]; cbn; [done|]. by rewrite from_op_ref, IH. Qed.

(** The largest record zstd frames are read back for. *)
Definition fits (f : WalFormat) (ops : list WalOp) : Prop :=
  match f with
  | CborZstd => forall b, encode_cbor ops = Ok b -> N.of_nat (length b) <= ZSTD_MAX_RECORD
  | CborCompactZstd => forall v b, to_value ops = Some v -> compact_encode v = Ok b ->
      N.of_nat (length b) <= ZSTD_MAX_RECORD
  | _ => True
  end.

Lemma zstd_round b z : zstd_compress b = Ok z -> N.of_nat (length b) <= ZSTD_MAX_RECORD -> zstd_decompress z = Some b.
Proof using laws.
  unfold zstd_compress, zstd_decompress. destruct (compress b) as [z'|] eqn:E; [|done]. intros [= ->] Hb.
  destruct (zstd_law _ _ E) as [-> Hd]. cbn. by rewrite (proj2 (N.leb_le _ _) Hb).
Qed.

Lemma compact_round ops v b : Forall storable ops -> to_value ops = Some v -> compact_encode v = Ok b ->
  (value ← compact_decode b; from_value value) = Some ops.
Proof using laws.
  intros Hs Hv. destruct (value_law _ _ Hs Hv) as [Hok Hf]. unfold compact_encode, compact_decode.
  destruct (cbor_value _) as [t|] eqn:E; [|done]. intros [= ->]. rewrite (cbor_value_law _ _ Hok E). cbn.
  rewrite compact_restores by done. done.
Qed.

Lemma decode_encoded f ops b : f <> JsonLines -> Forall storable ops -> fits f ops -> encode_ops f ops = Ok b ->
  decode_ops f b = Some ops.
Proof using laws.
  intros Hf Hs Hfit.
  assert (Hcbor : forall b, encode_cbor ops = Ok b -> wal_cbor = true /\ cbor_ops_of b = Some (borrow ops)).
  { intros b'. unfold encode_cbor. destruct wal_cbor eqn:E.
    - destruct (cbor_ops _) as [t|] eqn:Et; [|done]. intros [= ->]. split; [done|]. by apply cbor_ops_law.
    - unfold encode_tree. destruct (to_value ops); [|done]. cbn. by rewrite E. }
  destruct f; cbn [encode_ops decode_ops]; try done; unfold encode_tree.
  - intros E. destruct (Hcbor _ E) as [-> ->]. cbn. by rewrite own_borrow.
  - destruct wal_msgpack eqn:E.
    + destruct (msgpack_ops _) as [t|] eqn:Et; [|done]. intros [= ->]. rewrite (msgpack_ops_law _ _ Hs Et). cbn.
      by rewrite own_borrow.
    + destruct (to_value ops); [|done]. cbn. by rewrite E.
  - destruct wal_zstd eqn:E.
    + destruct (encode_cbor ops) as [c|] eqn:Ec; [|done]. cbn. intros Hz.
      rewrite (zstd_round _ _ Hz (Hfit _ Ec)). cbn. destruct (Hcbor _ eq_refl) as [_ ->]. cbn. by rewrite own_borrow.
    + destruct (to_value ops); [|done]. cbn. by rewrite E.
  - destruct (to_value ops) as [v|] eqn:Ev; [|done]. cbn [ok_or]. unfold mbind at 1, result_bind. cbn [encode_value].
    destruct wal_cbor; [|done]. by apply compact_round.
  - destruct (to_value ops) as [v|] eqn:Ev; [|done]. cbn [ok_or]. unfold mbind at 1, result_bind. cbn [encode_value].
    destruct wal_zstd; [|done]. destruct (compact_encode v) as [c|] eqn:Ec; [|done]. cbn [mbind result_bind]. intros Hz.
    rewrite (zstd_round _ _ Hz (Hfit _ _ Ev Ec)). cbn [mbind option_bind]. by eapply compact_round.
Qed.

(** *** JSON lines *)

Lemma space_before_text opening l : opening = 123 \/ opening = 91 -> space_before (opening :: l) = 0%nat.
Proof. by intros [-> | ->]; destruct l as [|x [|y l]]. Qed.

Lemma space_after_text closing l : closing = 125 \/ closing = 93 -> space_after (closing :: l) = 0%nat.
Proof.
  assert (H2 : forall x c, c = 125 \/ c = 93 -> is_space [x; c] = false).
  { intros x c [-> | ->]; unfold is_space; repeat case_match; done. }
  assert (H3 : forall x y c, c = 125 \/ c = 93 -> is_space [x; y; c] = false).
  { intros x y c [-> | ->]; unfold is_space; repeat case_match; done. }
  assert (H1 : closing = 125 \/ closing = 93 -> is_space [closing] = false) by (by intros [-> | ->]).
  intros Hc. unfold space_after. destruct l as [|x [|y l]].
  - change (take _ _) with [closing]. cbn [rev app]. by rewrite H1.
  - change (take 1 _) with [closing]. change (take _ _) with [closing; x]. cbn [rev app]. by rewrite H1, H2.
  - change (take 1 _) with [closing]. change (take 2 _) with [closing; x]. change (take 3 _) with [closing; x; y].
    cbn [rev app]. by rewrite H1, H2, H3.
Qed.

Lemma trim_text opening closing t : json_text_ok opening closing t -> opening = 123 \/ opening = 91 ->
  closing = 125 \/ closing = 93 -> trim t = t.
Proof.
  intros [(m & ->) _] Ho Hc. apply trim_id; [by apply space_before_text|].
  change (opening :: m ++ [closing]) with ((opening :: m) ++ [closing]). rewrite rev_app_distr. by apply space_after_text.
Qed.

(** What [trim] keeps of a text that starts with a character of JSON. *)
Lemma space_after_first opening r : opening = 123 \/ opening = 91 -> (space_after (r ++ [opening]) <= length r)%nat.
Proof.
  intros Ho. assert (H2 : forall x, is_space [opening; x] = false) by (intros x; by destruct Ho as [-> | ->]).
  assert (H3 : forall x y, is_space [opening; x; y] = false) by (intros x y; by destruct Ho as [-> | ->]).
  assert (H1 : is_space [opening] = false) by (by destruct Ho as [-> | ->]).
  unfold space_after. destruct r as [|a [|b [|c r]]].
  - change (take _ _) with [opening]. cbn [rev app]. by rewrite H1.
  - change (take 1 _) with [a]. change (take _ _) with [a; opening]. cbn [rev app]. rewrite H2.
    destruct (is_space [a]); cbn; lia.
  - change (take 1 _) with [a]. change (take 2 _) with [a; b]. change (take 3 _) with [a; b; opening].
    cbn [rev app]. rewrite H3. destruct (is_space [a]), (is_space [b; a]); cbn; lia.
  - cbn [length]. repeat case_match; lia.
Qed.

Lemma drop_spaces_first opening fuel r : opening = 123 \/ opening = 91 -> exists d,
  drop_spaces space_after fuel (r ++ [opening]) = drop d r ++ [opening].
Proof.
  intros Ho. revert r. induction fuel as [|fuel IH]; intros r; [by exists 0%nat|]. cbn [drop_spaces].
  pose proof (space_after_first opening r Ho) as Hn. destruct (space_after (r ++ [opening])) as [|n]; [by exists 0%nat|].
  rewrite drop_app_le by done. destruct (IH (drop (S n) r)) as [d ->]. exists (S n + d)%nat. by rewrite drop_drop.
Qed.

Lemma trim_prefix opening l : opening = 123 \/ opening = 91 -> exists n, trim (opening :: l) = opening :: take n l.
Proof.
  intros Ho. unfold trim, trim_start. cbn [length drop_spaces]. rewrite space_before_text by done.
  unfold trim_end. cbn [rev]. destruct (drop_spaces_first opening (length (opening :: l)) (rev l) Ho) as [d ->].
  rewrite rev_app_distr. cbn [rev app]. exists (length l - d)%nat. f_equal.
  assert (H : forall r : bytes, rev (drop d r) = take (length r - d) (rev r)).
  { intros r. rewrite <- (take_drop d r) at 3. rewrite rev_app_distr, take_app_le.
    - symmetry. apply take_ge. rewrite length_rev, length_drop. lia.
    - rewrite length_rev, length_drop. lia. }
  by rewrite H, length_rev, rev_involutive.
Qed.

(** One line of the log, whole and cut. *)
Definition line_of (ops : list WalOp) : option bytes := match ops with [op] => json_op op | _ => json_ops ops end.

Lemma line_text ops t : ops <> [] -> Forall storable ops -> line_of ops = Some t -> exists opening closing,
  (opening = 123 \/ opening = 91) /\ (closing = 125 \/ closing = 93) /\ json_text_ok opening closing t.
Proof using laws.
  intros Hne Hs. destruct ops as [|op [|op' ops]]; [done| |]; cbn [line_of]; intros Ht.
  - apply Forall_cons in Hs as [Hop _]. destruct (json_op_text _ _ Hop Ht) as [H _]. exists 123, 125. auto.
  - destruct (json_ops_text _ _ Hs Ht) as [H _]. exists 91, 93. auto.
Qed.

Lemma parse_line ops t : ops <> [] -> Forall storable ops -> line_of ops = Some t -> parse_json_line t = Some ops.
Proof using laws.
  intros Hne Hs Ht. destruct (line_text _ _ Hne Hs Ht) as (o & c & Ho & Hc & Hok).
  unfold parse_json_line. rewrite (trim_text _ _ _ Hok Ho Hc). destruct Hok as (_ & -> & _).
  destruct ops as [|op [|op' ops]]; [done| |]; cbn [line_of] in Ht.
  - apply Forall_cons in Hs as [Hop _]. destruct (json_op_text _ _ Hop Ht) as (((m & ->) & _) & Hof). by rewrite Hof.
  - destruct (json_ops_text _ _ Hs Ht) as (((m & ->) & _) & Hof). exact Hof.
Qed.

Lemma parse_cut ops t p : ops <> [] -> Forall storable ops -> line_of ops = Some t -> p `prefix_of` t -> p <> t -> p <> [] ->
  parse_json_line p = None.
Proof using laws.
  intros Hne Hs Ht Hp Hpt Hp0. destruct (line_text _ _ Hne Hs Ht) as (o & c & Ho & _ & ((m & Em) & _)).
  unfold parse_json_line. destruct (from_utf8 p); [|done]. destruct p as [|x p]; [done|].
  assert (x = o) as ->. { rewrite Em in Hp. by apply prefix_cons_inv_1 in Hp. }
  destruct (trim_prefix o p Ho) as [n ->].
  assert (Hq : o :: take n p `prefix_of` t /\ o :: take n p <> t).
  { split.
    - destruct Hp as [r ->]. exists (drop n p ++ r). cbn. f_equal. by rewrite app_assoc, take_drop.
    - intros E. apply Hpt. destruct Hp as [r Er]. rewrite Er in E. cbn in E. injection E as E.
      assert (Hl : length (take n p) = length (p ++ r)) by congruence. rewrite length_take, length_app in Hl.
      destruct r; [|cbn in Hl; lia]. by rewrite app_nil_r in Er. }
  destruct Hq as [Hq Hqt]. destruct ops as [|op [|op' ops]]; [done| |]; cbn [line_of] in Ht.
  - apply Forall_cons in Hs as [Hop _]. destruct (json_op_text _ _ Hop Ht) as (((m' & Em') & _) & _).
    assert (o = 123) as -> by congruence. by rewrite (json_op_cut _ _ _ Hop Ht Hq Hqt).
  - destruct (json_ops_text _ _ Hs Ht) as (((m' & Em') & _) & _).
    assert (o = 91) as -> by congruence. by apply (json_ops_cut _ _ _ Hs Ht).
Qed.

(** ** Records of a log *)
Record Entry : Type := mkEntry { en_nonce : option bytes; en_ops : list WalOp }.

Definition writable (f : WalFormat) (e : Entry) : Prop :=
  en_ops e <> [] /\ Forall storable (en_ops e) /\ fits f (en_ops e) /\ length (default [] (en_nonce e)) = NONCE_LEN.

(** [b] is the record of [e]. *)
Definition wrote (f : WalFormat) (k : option Key) (e : Entry) (b : bytes) : Prop :=
  writable f e /\ encode_record_with (en_nonce e) f k (en_ops e) = Ok b /\ Forall is_byte b.

(** A record is one line or one frame. *)
Lemma wrote_shape f k e b : wrote f k e b ->
  (f = JsonLines /\ k = None /\ exists t, line_of (en_ops e) = Some t /\ b = t ++ [NEWLINE]) \/
  (~ (f = JsonLines /\ k = None) /\ exists payload, Forall is_byte payload /\ frame payload = Ok b /\
    forall pre rest, read_any f k (pre ++ b ++ rest) (length pre) = Ops (en_ops e) (length pre + length b)).
Proof using laws sealing.
  intros ((Hne & Hs & Hfit & Hn) & He & Hb). destruct e as [n ops]. cbn [en_ops en_nonce] in *.
  assert (Hread : forall payload, frame payload = Ok b -> Forall is_byte payload).
  { intros payload Hf. destruct (frame_shape _ _ Hf) as [_ E]. rewrite E, !Forall_app in Hb. apply Hb. }
  assert (Hat : forall payload pre rest, frame payload = Ok b ->
    frame_at (drop (length pre) (pre ++ b ++ rest)) = Whole payload (length b)).
  { intros payload pre rest Hf. rewrite drop_app_length. apply frame_whole; auto. }
  unfold encode_record_with in He. destruct k as [k|].
  - right. split; [by intros []|]. destruct ops as [|op ops']; [done|]. set (ops := op :: ops') in *.
    destruct (record_payload f ops) as [p|] eqn:Ep; [|done]. unfold mbind, result_bind, seal_with in He.
    destruct (seal n k RECORD_CONTEXT p) as [s|] eqn:Es; [|done].
    exists s. split; [auto|]. split; [done|].
    intros pre rest. cbn [read_any]. unfold read_sealed_record, read_frame. rewrite (Hat _ _ _ He).
    unfold open_with. rewrite (open_seal _ _ _ _ _ Hn Es). unfold record_payload in Ep. case_bool_decide as Ej.
    + destruct (json_ops ops) as [t|] eqn:Et; [|done]. injection Ep as <-.
      by rewrite (proj2 (json_ops_text _ _ Hs Et)).
    + by rewrite (decode_encoded f ops p).
  - unfold encode_record in He. case_bool_decide as Ej.
    + left. split; [done|]. split; [done|]. destruct ops as [|op [|op' ops]]; [done| |]; cbn [line_of];
        [destruct (json_op op) as [t|]|destruct (json_ops _) as [t|]]; try done; injection He as <-; eauto.
    + right. split; [by intros []|]. destruct ops as [|op ops']; [done|]. set (ops := op :: ops') in *.
      destruct (encode_ops f ops) as [p|] eqn:Ep; [|done]. unfold mbind, result_bind in He. exists p. split; [auto|]. split; [done|].
      intros pre rest. cbn [read_any]. unfold read_record. rewrite bool_decide_false by done.
      rewrite (Hat _ _ _ He). by rewrite (decode_encoded f ops p).
Qed.

Lemma newline_after t rest : NEWLINE ∉ t -> newline_at (t ++ NEWLINE :: rest) = Some (length t).
Proof.
  intros Hn. unfold newline_at. rewrite list_find_app_r.
  - cbn. rewrite decide_True by done. cbn. done.
  - apply list_find_None, Forall_forall. by intros x Hx <-.
Qed.

Lemma newline_none t : NEWLINE ∉ t -> newline_at t = None.
Proof.
  intros Hn. unfold newline_at. rewrite (proj2 (list_find_None _ _)); [done|]. apply Forall_forall. by intros x Hx <-.
Qed.

Lemma wrote_read f k e b pre rest : wrote f k e b ->
  read_any f k (pre ++ b ++ rest) (length pre) = Ops (en_ops e) (length pre + length b) /\ (0 < length b)%nat.
Proof using laws sealing.
  intros Hw. destruct (wrote_shape _ _ _ _ Hw) as [(-> & -> & t & Ht & ->)|(_ & p & _ & Hf & Hread)].
  - destruct Hw as ((Hne & Hs & _) & _). split; [|rewrite length_app; cbn; lia].
    destruct (line_text _ _ Hne Hs Ht) as (_ & _ & _ & _ & (_ & _ & Hn)).
    cbn [read_any]. unfold read_record. rewrite bool_decide_true, drop_app_length, <- app_assoc by done. cbn [app].
    rewrite newline_after, take_app_length by done. rewrite (parse_line _ _ Hne Hs Ht), length_app. cbn [length].
    f_equal. lia.
  - split; [apply Hread|]. rewrite (frame_length _ _ Hf). lia.
Qed.

(** Where a record may be cut: anywhere in a frame, but a JSON line that
    lacks only its newline is whole. *)
Definition torn_at (f : WalFormat) (k : option Key) (b : bytes) (cut : nat) : Prop :=
  (cut < length b)%nat /\ (f = JsonLines -> k = None -> (cut + 1 < length b)%nat).

Lemma wrote_cut f k e b pre cut : wrote f k e b -> torn_at f k b cut -> (0 < cut)%nat ->
  match read_any f k (pre ++ take cut b) (length pre) with
  | Incomplete => True
  | Invalid next => follows f k (drop next (pre ++ take cut b)) = false
  | _ => False
  end.
Proof using laws sealing.
  intros Hw [Hc Hj] H0. destruct (wrote_shape _ _ _ _ Hw) as [(-> & -> & t & Ht & ->)|(Hnj & p & _ & Hf & _)].
  - specialize (Hj eq_refl eq_refl). rewrite length_app in Hj. cbn [length] in Hj.
    destruct Hw as ((Hne & Hs & _) & _). destruct (line_text _ _ Hne Hs Ht) as (_ & _ & _ & _ & (_ & _ & Hn)).
    rewrite take_app_le by lia. cbn [read_any]. unfold read_record. rewrite bool_decide_true, drop_app_length by done.
    rewrite newline_none by (intros Hin; apply Hn; rewrite <- (take_drop cut t); apply elem_of_app; by left).
    rewrite (parse_cut _ t (take cut t) Hne Hs Ht).
    + by rewrite drop_all.
    + exists (drop cut t). by rewrite take_drop.
    + intros E. apply (f_equal length) in E. rewrite length_take in E. lia.
    + intros E. apply (f_equal length) in E. rewrite length_take, length_nil in E. lia.
  - assert (Hshort : frame_at (drop (length pre) (pre ++ take cut b)) = Short).
    { rewrite drop_app_length. by eapply frame_cut. }
    unfold read_any. destruct k as [k|]; unfold read_sealed_record, read_frame, read_record; rewrite Hshort; [done|].
    rewrite bool_decide_false; [done|]. intros ->. by apply Hnj.
Qed.

Lemma scan_records f k es bs fuel pre tail out : Forall2 (wrote f k) es bs ->
  (length (concat bs ++ tail) < fuel)%nat -> exists fuel', (length tail < fuel')%nat /\
  scan fuel f k (pre ++ concat bs ++ tail) (length pre) out =
  scan fuel' f k ((pre ++ concat bs) ++ tail) (length (pre ++ concat bs)) (out ++ mjoin (en_ops <$> es)).
Proof using laws sealing.
  intros Hw. revert fuel pre out. induction Hw as [|e b es bs He _ IH]; intros fuel pre out Hf.
  - exists fuel. cbn [concat app fmap list_fmap mjoin list_join]. rewrite !app_nil_r. done.
  - cbn [concat] in *. destruct (wrote_read f k e b pre (concat bs ++ tail) He) as [Hr H0].
    rewrite <- !app_assoc in Hf |- *. destruct fuel as [|fuel]; [lia|].
    destruct (IH fuel (pre ++ b) (out ++ en_ops e)) as (fuel' & Hf' & E).
    { rewrite !length_app in *. lia. }
    exists fuel'. split; [done|]. cbn [scan]. rewrite Hr.
    destruct (Nat.leb_spec (length (pre ++ b ++ concat bs ++ tail)) (length pre)) as [Hl|_].
    { rewrite !length_app in Hl. lia. }
    rewrite <- (length_app pre b). rewrite <- !app_assoc in E. rewrite !app_assoc in E |- *. rewrite E.
    cbn [fmap list_fmap mjoin list_join]. by rewrite !app_assoc.
Qed.

(** What may be left of one more record. *)
Definition torn_tail (f : WalFormat) (k : option Key) (tail : bytes) : Prop :=
  tail = [] \/ exists e b cut, wrote f k e b /\ torn_at f k b cut /\ tail = take cut b.

(** Reading records and such a rest. *)
Lemma scan_torn f k es bs tail fuel pre : Forall2 (wrote f k) es bs -> torn_tail f k tail ->
  (length (concat bs ++ tail) < fuel)%nat ->
  scan fuel f k (pre ++ concat bs ++ tail) (length pre) [] =
  Some (mjoin (en_ops <$> es), Ok (ReplayedLog f (length (pre ++ concat bs)) (negb (bool_decide (tail = [])))
    (bool_decide (is_Some k)))).
Proof using laws sealing.
  intros Hes Htail Hf. destruct (scan_records f k es bs fuel pre tail [] Hes Hf) as (fuel' & Hf' & ->).
  destruct fuel' as [|fuel']; [lia|]. cbn [scan app]. rewrite (length_app (pre ++ concat bs)).
  destruct (decide (tail = [])) as [->|Hne].
  - destruct (Nat.leb_spec (length (pre ++ concat bs) + length (@nil N)) (length (pre ++ concat bs))); [done|].
    cbn in *. lia.
  - destruct Htail as [|(e & b & cut & He & Hcut & ->)]; [done|].
    assert (0 < cut)%nat by (destruct cut; [done|lia]).
    assert (Hl : (length (take cut b) = cut)%nat) by (rewrite length_take; destruct Hcut; lia).
    rewrite Hl. destruct (Nat.leb_spec (length (pre ++ concat bs) + cut) (length (pre ++ concat bs))); [lia|].
    pose proof (wrote_cut f k e b (pre ++ concat bs) cut He Hcut ltac:(lia)) as Hc.
    rewrite (bool_decide_eq_false_2 (take cut b = [])) by done.
    destruct (read_any f k _ _) as [| next | |]; try done. by rewrite Hc.
Qed.

(** ** Headers *)
Lemma detect_json x l : x = 123 \/ x = 91 -> detect (x :: l) = Ok (Log JsonLines 0 false).
Proof.
  intros Hx. unfold detect.
  assert (Hh : is_header_prefix (x :: l) = false).
  { unfold is_header_prefix. apply bool_decide_eq_false. assert (length MAGIC = 6%nat) as -> by done.
    cbn [length]. destruct (S (length l) `min` 6)%nat eqn:E; [lia|]. intros Ht. cbn in Ht. by destruct Hx as [-> | ->]. }
  rewrite Hh, andb_false_r. case_match; [done|].
  rewrite (bool_decide_eq_false_2 (_ = MAGIC)); [done|].
  intros Ht. assert (length MAGIC = 6%nat) as E by done. rewrite E in Ht. cbn in Ht. by destruct Hx as [-> | ->].
Qed.

Lemma detect_header version f rest : compiled_in f = true ->
  version = HEADER_VERSION /\ f <> JsonLines \/ version = SEALED_VERSION ->
  detect (MAGIC ++ [version; tag f] ++ rest) = Ok (Log f HEADER_LEN (version =? SEALED_VERSION)).
Proof.
  intros Hc Hv. unfold detect. cbv zeta. rewrite !length_app. cbn [length].
  assert (Hm : length MAGIC = 6%nat) by done.
  destruct (Nat.ltb_spec (length MAGIC + (2 + length rest)) HEADER_LEN) as [H|_]; [unfold HEADER_LEN in H; lia|].
  rewrite take_app_length, bool_decide_true by done. cbn [negb].
  change (nth (length MAGIC) (MAGIC ++ [version; tag f] ++ rest) 0) with version.
  change (nth (length MAGIC + 1) (MAGIC ++ [version; tag f] ++ rest) 0) with (tag f).
  assert (format_of_tag (tag f) (version =? SEALED_VERSION) = Some f) as ->.
  { destruct Hv as [[-> Hf]| ->]; by destruct f. }
  rewrite Hc. destruct Hv as [[-> _]| ->]; done.
Qed.

Lemma header_shape n f k hdr : length (default [] n) = NONCE_LEN -> log_header n f k = Ok hdr ->
  (k = None /\ f = JsonLines /\ hdr = []) \/
  (k = None /\ f <> JsonLines /\ hdr = MAGIC ++ [HEADER_VERSION; tag f]) \/
  (exists key check framed, k = Some key /\ hdr = MAGIC ++ [SEALED_VERSION; tag f] ++ framed /\
    frame check = Ok framed /\ open_with key CHECK_CONTEXT check = Some CHECK_TEXT).
Proof using sealing.
  intros Hn. unfold log_header. destruct k as [key|].
  - unfold seal_with. destruct (seal n key CHECK_CONTEXT CHECK_TEXT) as [check|] eqn:Es; [|done].
    unfold mbind, result_bind. destruct (frame check) as [framed|] eqn:Ef; [|done]. intros E. right. right.
    exists key, check, framed. split; [done|]. split; [by injection E|]. split; [done|].
    unfold open_with. by rewrite (open_seal _ _ _ _ _ Hn Es).
  - unfold header. case_bool_decide as Ej; intros [= <-]; auto.
Qed.

Lemma log_starts f es bs tail : Forall2 (wrote f None) es bs -> torn_tail f None tail -> f = JsonLines ->
  concat bs ++ tail <> [] -> exists x l, concat bs ++ tail = x :: l /\ (x = 123 \/ x = 91).
Proof using laws sealing.
  intros Hes Htail -> Hne.
  assert (Hfirst : forall e b, wrote JsonLines None e b -> exists x l, b = x :: l /\ (x = 123 \/ x = 91)).
  { intros e' b' Hw. pose proof Hw as ((Hn & Hs & _) & _).
    destruct (wrote_shape _ _ _ _ Hw) as [(_ & _ & t & Ht & ->)|([] & _)]; [|done].
    destruct (line_text _ _ Hn Hs Ht) as (o & c & Ho & _ & ((m & ->) & _)). cbn. eauto. }
  destruct Hes as [|e' b' es bs He' _].
  - cbn [concat app] in *. destruct Htail as [->|(e & b & cut & He & _ & ->)]; [done|].
    destruct (Hfirst _ _ He) as (x & l & -> & Hx). destruct cut; [done|]. cbn. eauto.
  - destruct (Hfirst _ _ He') as (x & l & -> & Hx). cbn. eauto.
Qed.

Lemma log_replays n f k hdr es bs tail chunk src :
  length (default [] n) = NONCE_LEN -> log_header n f k = Ok hdr -> Forall is_byte hdr -> compiled_in f = true ->
  Forall2 (wrote f k) es bs -> torn_tail f k tail ->
  steady src -> content src = hdr ++ concat bs ++ tail -> content src <> [] ->
  replay chunk k src = Some (mjoin (en_ops <$> es),
    Ok (ReplayedLog f (length (hdr ++ concat bs)) (negb (bool_decide (tail = []))) (bool_decide (is_Some k)))).
Proof using laws sealing.
  intros Hn Hh Hbytes Hc Hes Htail Hs Hsrc Hne. rewrite (proj1 (replay_reads_same chunk k src Hs)).
  unfold replay_whole. destruct (bool_decide (content src = [])) eqn:Ee; [by apply bool_decide_eq_true in Ee|].
  rewrite Hsrc in Hne |- *. destruct (header_shape n f k hdr Hn Hh) as [(-> & Ef & ->)|[(-> & Hf & ->)|(key & check & framed & -> & -> & Hframe & Hopen)]].
  - destruct (log_starts f es bs tail Hes Htail Ef Hne) as (x & l & El & Hx). cbn [app] in *.
    rewrite El, detect_json by done. rewrite <- El, <- Ef. change 0%nat with (length (@nil N)).
    change (concat bs ++ tail) with ([] ++ concat bs ++ tail) at 2. apply (scan_torn f None es bs tail); try done. lia.
  - rewrite <- app_assoc, detect_header by (by auto). cbn [N.eqb]. rewrite app_assoc.
    change HEADER_LEN with (length (MAGIC ++ [HEADER_VERSION; tag f])).
    apply (scan_torn f None es bs tail); try done. rewrite !length_app. lia.
  - rewrite <- !app_assoc, detect_header by (by auto). cbn [N.eqb].
    assert (Hfr : frame_at (drop HEADER_LEN (MAGIC ++ [SEALED_VERSION; tag f] ++ framed ++ concat bs ++ tail)) =
      Whole check (length framed)).
    { rewrite (app_assoc MAGIC). rewrite drop_app_length' by done. apply frame_whole; [|done].
      rewrite !Forall_app in Hbytes. destruct Hbytes as (_ & _ & Hb).
      destruct (frame_shape _ _ Hframe) as [_ E]. rewrite E, !Forall_app in Hb. apply Hb. }
    unfold read_frame. rewrite Hfr. rewrite bool_decide_true by done.
    set (hdr := MAGIC ++ [SEALED_VERSION; tag f] ++ framed).
    assert ((HEADER_LEN + length framed)%nat = length hdr) as -> by (unfold hdr; rewrite !length_app; done).
    rewrite <- (app_assoc hdr) || idtac.
    replace (MAGIC ++ [SEALED_VERSION; tag f] ++ framed ++ concat bs ++ tail) with (hdr ++ concat bs ++ tail)
      by (unfold hdr; by rewrite <- !app_assoc).
    apply (scan_torn f (Some key) es bs tail); try done. rewrite (length_app hdr). lia.
Qed.

(** C11: A log recovers what was written to it: cut at any byte of its last
    record (the last byte of a JSON line apart, whose line is then whole), read
    in chunks of any size from a reader that delivers it in any pieces, it
    yields the operations of every record before the cut, in order, and says
    where they end and whether a torn tail follows; in every format, plain or
    sealed. *)
Theorem torn_log_recovers n f k hdr es bs tail chunk src :
  length (default [] n) = NONCE_LEN -> log_header n f k = Ok hdr -> Forall is_byte hdr -> compiled_in f = true ->
  Forall2 (wrote f k) es bs -> torn_tail f k tail ->
  steady src -> content src = hdr ++ concat bs ++ tail -> content src <> [] ->
  replay chunk k src = Some (mjoin (en_ops <$> es),
    Ok (ReplayedLog f (length (hdr ++ concat bs)) (negb (bool_decide (tail = []))) (bool_decide (is_Some k)))).
Proof using laws sealing. apply log_replays. Qed.

Lemma header_replays n f k hdr cut chunk src : length (default [] n) = NONCE_LEN -> log_header n f k = Ok hdr ->
  compiled_in f = true -> (0 < cut < length hdr)%nat -> steady src -> content src = take cut hdr ->
  replay chunk k src = Some ([], Ok ReplayedTornHeader).
Proof using sealing.
  intros Hn Hh Hc Hcut Hs Hsrc. rewrite (proj1 (replay_reads_same chunk k src Hs)), Hsrc.
  assert (Hm : length MAGIC = 6%nat) by done.
  assert (Hshort : forall rest, (cut < 8)%nat -> (cut < length (MAGIC ++ rest))%nat ->
    detect (take cut (MAGIC ++ rest)) = Ok TornHeader).
  { intros rest H8 Hl. unfold detect. rewrite length_take, Nat.min_l by lia. unfold HEADER_LEN.
    destruct (Nat.ltb_spec cut 8); [|lia]. rewrite bool_decide_eq_false_2.
    - assert (is_header_prefix (take cut (MAGIC ++ rest)) = true) as ->; [|done].
      unfold is_header_prefix. rewrite length_take. apply bool_decide_eq_true.
      rewrite take_take, Nat.min_l, take_app_le by lia. done.
    - intros E. apply (f_equal length) in E. rewrite length_take, length_nil in E. lia. }
  unfold replay_whole. destruct (header_shape n f k hdr Hn Hh) as [(-> & Ef & ->)|[(-> & Hf & ->)|(key & check & framed & -> & -> & Hframe & Hopen)]].
  - cbn in Hcut. lia.
  - rewrite length_app in Hcut. cbn [length] in Hcut. rewrite Hshort; [done|lia|rewrite length_app; cbn [length]; lia].
  - destruct (Nat.ltb_spec cut 8) as [H8|H8]; [rewrite Hshort; [done|lia|lia]|].
    rewrite (app_assoc MAGIC). set (h := MAGIC ++ [SEALED_VERSION; tag f]). assert (Hl : length h = 8%nat) by done.
    rewrite !length_app in Hcut. rewrite take_app_ge, Hl by lia.
    unfold h. rewrite <- app_assoc, detect_header by (by auto). cbn [N.eqb].
    rewrite bool_decide_eq_false_2.
    2: { intros E. by apply (f_equal (take 1)) in E. }
    unfold read_frame. rewrite (app_assoc MAGIC). rewrite drop_app_length' by done.
    rewrite (frame_cut _ _ _ Hframe); [done|]. cbn [length] in Hcut. lia.
Qed.

(** A log whose header was being written when the process died is told
    from every other: nothing in it was acknowledged. *)
Theorem torn_header_recovers n f k hdr cut chunk src : length (default [] n) = NONCE_LEN -> log_header n f k = Ok hdr ->
  compiled_in f = true -> (0 < cut < length hdr)%nat -> steady src -> content src = take cut hdr ->
  replay chunk k src = Some ([], Ok ReplayedTornHeader).
Proof using sealing. apply header_replays. Qed.
End recovery.

(** ** Libraries to run the theorems on

    A node's deletion is a letter; JSON text is letters in braces or brackets;
    CBOR is letters; the other writers refuse. *)
Module Letters.
Definition is_letter (b : N) : bool := within 97 122 b.
Definition letter (op : WalOp) : option N := match op with DeleteNode id => if id <? 26 then Some (97 + id) else None | _ => None end.
Definition op_of (b : N) : option WalOp := if is_letter b then Some (DeleteNode (b - 97)) else None.
Definition wire_letter (op : Op) : option N := match op with ODeleteNode id => if id <? 26 then Some (97 + id) else None | _ => None end.
Definition wire_op_of (b : N) : option Op := if is_letter b then Some (ODeleteNode (b - 97)) else None.

#[export] Instance libs : Libs := {
  wal_cbor := true; wal_msgpack := false; wal_zstd := true;
  json_op op := c ← letter op; Some [123; c; 125];
  json_op_of t := match t with [123; c; 125] => op_of c | _ => None end;
  json_ops ops := l ← mapM letter ops; Some (91 :: l ++ [93]);
  json_ops_of t := match t with
    | 91 :: m => if bool_decide (last m = Some 93) then mapM op_of (take (length m - 1) m) else None
    | _ => None end;
  to_value _ := None; from_value _ := None; json_value _ := None; json_value_of _ := None;
  cbor_ops := mapM wire_letter; cbor_ops_of := mapM wire_op_of; cbor_json _ := None;
  cbor_value _ := None; cbor_value_of _ := None;
  msgpack_ops _ := None; msgpack_ops_of _ := None; msgpack_json _ := None;
  compress b := Some b; frame_content_size z := Some (N.of_nat (length z)); decompress z _ := Some z;
}.

Definition storable (op : WalOp) : Prop := is_Some (letter op).

Lemma letter_round op c : letter op = Some c -> op_of c = Some op /\ is_letter c = true.
Proof.
  destruct op as [|id| | | | | | |]; cbn; try done. destruct (N.ltb_spec id 26) as [H|]; [|done]. intros [= <-].
  unfold op_of, is_letter, within. destruct (N.leb_spec 97 (97 + id)); [|lia]. destruct (N.leb_spec (97 + id) 122); [|lia].
  cbn [andb]. split; [|done]. do 2 f_equal. lia.
Qed.

Lemma letters_round ops l : mapM letter ops = Some l -> mapM op_of l = Some ops /\ Forall (fun c => is_letter c = true) l.
Proof.
  intros H%mapM_Some. induction H as [|op c ops l Hc _ [IH1 IH2]]; [done|].
  destruct (letter_round _ _ Hc) as [E L]. split; [|by constructor]. cbn. rewrite E. cbn. by rewrite IH1.
Qed.

Lemma wire_round ops l : Forall storable ops -> mapM wire_letter (borrow ops) = Some l -> mapM wire_op_of l = Some (borrow ops).
Proof.
  intros Hs H%mapM_Some. remember (borrow ops) as wire eqn:Ew. revert ops Hs Ew.
  induction H as [|w c wire l Hc _ IH]; intros ops Hs Ew; [done|].
  destruct ops as [|op ops]; [done|]. injection Ew as -> ->. apply Forall_cons in Hs as [[c' Hop] Hs]. cbn.
  rewrite (IH ops Hs eq_refl). destruct op as [|id| | | | | | |]; try done. cbn in Hc.
  destruct (letter_round _ _ Hop) as [E _]. cbn in Hop. destruct (id <? 26); [|done]. injection Hc as <-. injection Hop as <-.
  unfold op_of in E. unfold wire_op_of. destruct (is_letter (97 + id)); [|done]. cbn. by injection E as ->.
Qed.

Lemma letter_text o c l : o < 128 -> c < 128 -> o <> 10 -> c <> 10 -> Forall (fun b => is_letter b = true) l ->
  json_text_ok o c (o :: l ++ [c]).
Proof.
  intros Ho Hc Ho' Hc' Hl. assert (Hsmall : forall b, is_letter b = true -> 97 <= b <= 122).
  { intros b. unfold is_letter, within. rewrite andb_true_iff, !N.leb_le. done. }
  split; [eauto|]. split.
  - cbn [from_utf8]. rewrite (proj2 (N.ltb_lt o 128) Ho). induction Hl as [|b l Hb _ IH]; cbn [app from_utf8].
    + by rewrite (proj2 (N.ltb_lt c 128) Hc).
    + apply Hsmall in Hb. by rewrite (proj2 (N.ltb_lt b 128) ltac:(lia)).
  - unfold NEWLINE. rewrite elem_of_cons, elem_of_app, list_elem_of_singleton. intros [?|[Hin|?]]; [lia| |lia].
    rewrite Forall_forall in Hl. specialize (Hsmall 10 (Hl 10 Hin)). lia.
Qed.

Lemma proper_prefix (p t : bytes) : p `prefix_of` t -> p <> t -> exists n, (n < length t)%nat /\ p = take n t.
Proof.
  intros [r ->] Hne. exists (length p). rewrite take_app_length, length_app. split; [|done].
  destruct r; [by rewrite app_nil_r in Hne|cbn; lia].
Qed.

#[export] Instance laws : LibLaws storable.
Proof.
  constructor; try done.
  - intros op t _. cbn. destruct (letter op) as [c|] eqn:E; [|done]. cbn. intros [= <-].
    destruct (letter_round _ _ E) as [E' L]. split; [|done]. apply (letter_text 123 125 [c]); try lia. by repeat constructor.
  - intros op t p _. cbn. destruct (letter op) as [c|] eqn:E; [|done]. cbn. intros [= <-] Hp Hne.
    destruct (proper_prefix _ _ Hp Hne) as (n & Hn & ->). cbn in Hn. by destruct n as [|[|[|n]]]; [| | |lia].
  - intros ops t _. cbn. destruct (mapM letter ops) as [l|] eqn:E; [|done]. cbn. intros [= <-].
    destruct (letters_round _ _ E) as [E' L]. split; [apply letter_text; try lia; done|].
    rewrite last_snoc, bool_decide_true by done. rewrite length_app, Nat.add_sub, take_app_length. done.
  - intros ops t p _. cbn. destruct (mapM letter ops) as [l|] eqn:E; [|done]. cbn. intros [= <-] Hp Hne.
    destruct (proper_prefix _ _ Hp Hne) as (n & Hn & ->). destruct n as [|n]; [done|]. cbn [take].
    cbn in Hn. rewrite length_app in Hn. cbn in Hn. rewrite take_app_le by lia.
    rewrite bool_decide_eq_false_2; [done|]. intros Hlast. apply last_Some in Hlast as [m Em].
    destruct (letters_round _ _ E) as [_ L]. assert (Hin : 93 ∈ l).
    { rewrite <- (take_drop n l), Em. rewrite !elem_of_app. left. right. by left. }
    rewrite Forall_forall in L. by specialize (L 93 Hin).
  - intros ops t. apply wire_round.
  - intros b z [= <-]. done.
Qed.
End Letters.

Module Recovered.
Import Encryption.Toy Letters.
Definition entry (ids : list N) : Entry := mkEntry Toy.nonce (DeleteNode <$> ids).
Definition key : bytes := Toy.key.
(** A sealed CBOR log of two records, the second cut after nine bytes. *)
Definition header_bytes : bytes := Eval vm_compute in
  match log_header Toy.nonce Cbor (Some key) with Ok h => h | Err _ => [] end.
Definition record_bytes (ids : list N) : bytes :=
  match encode_record_with Toy.nonce Cbor (Some key) (DeleteNode <$> ids) with Ok b => b | Err _ => [] end.
Definition first : bytes := Eval vm_compute in record_bytes [1; 2].
Definition second : bytes := Eval vm_compute in record_bytes [3].
Definition pieces : list (option bytes) := [Some (take 30 (header_bytes ++ first)); Some (drop 30 (header_bytes ++ first) ++ take 9 second)].

Lemma is_byte_list l : forallb (fun b => b <? 256) l = true -> Forall is_byte l.
Proof. rewrite forallb_forall. intros H. apply Forall_forall. intros b Hb. apply N.ltb_lt, H. by apply list_elem_of_In. Qed.

Lemma wrote_record ids b : ids <> [] -> forallb (fun id => id <? 26) ids = true ->
  encode_record_with Toy.nonce Cbor (Some key) (DeleteNode <$> ids) = Ok b -> forallb (fun b => b <? 256) b = true ->
  wrote storable Cbor (Some key) (entry ids) b.
Proof.
  intros Hne Hids He Hb. split; [|split; [done|by apply is_byte_list]]. split; [by destruct ids|].
  split; [|by split]. cbn [entry en_ops]. rewrite forallb_forall in Hids. apply Forall_forall. intros op Hop.
  apply list_elem_of_fmap in Hop as (id & -> & Hid). unfold storable, letter. rewrite Hids by (by apply list_elem_of_In). done.
Qed.

Lemma torn_log_recovers_witness :
  replay 16 (Some key) pieces = Some ([DeleteNode 1; DeleteNode 2],
    Ok (ReplayedLog Cbor (length (header_bytes ++ concat [first])) true true)).
Proof.
  etransitivity; [|by vm_compute].
  apply (torn_log_recovers storable Toy.nonce Cbor (Some key) header_bytes [entry [1; 2]] [first] (take 9 second) 16
    pieces).
  - by vm_compute.
  - by vm_compute.
  - apply is_byte_list. by vm_compute.
  - by vm_compute.
  - constructor; [by apply wrote_record; vm_compute|constructor].
  - right. exists (entry [3]), second, 9%nat.
    split; [by apply wrote_record; vm_compute|split; [split; [vm_compute; lia|done]|done]].
  - by vm_compute.
  - by vm_compute.
  - by vm_compute.
Defined.

Lemma torn_header_recovers_witness :
  replay 4 (Some key) [Some (take 9 header_bytes)] = Some ([], Ok ReplayedTornHeader).
Proof.
  refine (torn_header_recovers Toy.nonce Cbor (Some key) header_bytes 9 4 [Some (take 9 header_bytes)] _ _ _ _ _ _);
    try by vm_compute. split; vm_compute; lia.
Defined.

Lemma replay_reads_whole_witness :
  replay 3 None [Some [123; 98]; Some [125]; Some [10; 123]] = replay_whole None [123; 98; 125; 10; 123].
Proof. refine (proj1 (replay_reads_whole 3 None [Some [123; 98]; Some [125]; Some [10; 123]] _)). by vm_compute. Defined.

Lemma frame_detects_damage_witness : exists b, frame ([1; 2; 3] ++ [4] ++ [5]) = Ok b /\
  frame_at ((take 8 b ++ [1; 2; 3] ++ [9] ++ [5]) ++ [7]) = BadSum (length b).
Proof.
  eexists. split; [by vm_compute|].
  refine (proj2 (frame_detects_damage [1; 2; 3] [4] [9] [5] _ [7] _ _ _ _ _)); try by vm_compute.
  - by repeat constructor.
  - cbn. lia.
Defined.
End Recovered.
