(* ===== verification/WalFile.v ===== *)
(** * The log file of a durable store
    ([open_log], [group_commit] and [flush_group] of
    [src/drevo-core/src/native.rs])

    A store's log across openings, appends, failed writes and crashes.  A crash
    keeps what was flushed and, of what was written since, any prefix; a
    truncation that was not flushed may be undone.

    - [store_keeps_acknowledged]: whatever happened, the store opens again with
      every acknowledged record, in order, and with nothing that was not
      written;
    - [line_without_newline_loses_write]: but a JSON log that a crash cut just
      before a newline is taken for whole, and the next record, acknowledged, is
      lost with it;
    - [damaged_length_drops_records], [large_record_unreadable]: two more ways
      in which acknowledged records are dropped. *)
From S2P Require Import Prelude NativeModel WireBytes Encryption WalCompact WalFormat WalReplay WalRecovery.
Local Open Scope list_scope.
Local Open Scope N_scope.

Section file.
Context {libs : Libs} {aead : Aead}.

(** What opening a log yields: the operations it replays, the format it is
    appended to in, and the file it leaves. *)
Record Opened : Type := mkOpened { o_ops : list WalOp; o_format : WalFormat; o_file : option bytes }.

(** [open_log] as far as the log goes.  [file] is the log, if there is one,
    [reader] the pieces in which its bytes will be read, and [chunk] the constant
    [REPLAY_CHUNK]. *)
Definition open_log (chunk : nat) (reader : bytes -> list (option bytes)) (nonce : option bytes) (format : WalFormat) (read_only : bool)
    (k : option Key) (file : option bytes) : option (result WalError Opened) :=
  let replayed :=
    match file with
    | Some bs => replay chunk k (reader bs)
    | None => if read_only then Some ([], Err ReadFailed) else Some ([], Ok ReplayedEmpty)
    end in
  match replayed with
  | None => None
  | Some (_, Err e) => Some (Err e)
  | Some (ops, Ok found) =>
      let '(file, file_format) :=
        match found with
        | ReplayedTornHeader => (if read_only then file else Some [], None)
        | ReplayedEmpty => (file, None)
        | ReplayedLog f valid_end torn _ =>
            (if torn && negb read_only then take valid_end <$> file else file, Some f)
        end in
      match file_format with
      | Some f => Some (Ok (mkOpened ops f file))
      | None =>
          if read_only then Some (Ok (mkOpened ops format file))
          else match log_header nonce format k with
          | Err e => Some (Err e)
          | Ok header => Some (Ok (mkOpened ops format (Some (default [] file ++ header))))
          end
      end
  end.

(** A queued record on its way to the file ([flush_group]): encoded again if the
    log's format changed since. *)
Definition queued_line (nonce : option bytes) (k : option Key) (sink : WalFormat) (encoded : WalFormat) (line : bytes) :
    result WalError bytes :=
  if bool_decide (encoded = sink) then Ok line
  else ops ← decode_record_with encoded k line; encode_record_with nonce sink k ops.
End file.

(** ** A store over time *)
Section store.
Context {libs : Libs} {aead : Aead} (storable : WalOp -> Prop) {laws : LibLaws storable} {sealing : AeadLaws}.
Context (chunk : nat) (reader : bytes -> list (option bytes)).
Context (reader_ok : forall bs, steady (reader bs) /\ content (reader bs) = bs).
Context (k : option Key) (format : WalFormat) (Hformat : compiled_in format = true).

Inductive Handle : Type :=
| Closed
| Open (f : WalFormat)
| BrokenLog (f : WalFormat).

(** [disk] is the log as it reads now; a crash leaves [stale], or [firm] and a
    part of what follows it in [disk].  [written] are the records appended to
    the log since it was last flushed; [acked] and [submitted] the records ever
    acknowledged and ever begun. *)
Record Store : Type := mkStore {
  disk : bytes; firm : bytes; stale : bytes; handle : Handle;
  written : list Entry; acked : list Entry; submitted : list Entry;
}.

Definition closed (bs : bytes) (acked submitted : list Entry) : Store := mkStore bs bs bs Closed [] acked submitted.

(** The format of the log a handle appends to. *)
Definition handle_format (h : Handle) : option WalFormat :=
  match h with Closed => None | Open f | BrokenLog f => Some f end.

(** The byte before a newline of a plain JSON log. *)
Definition before_newline (h : Handle) (p whole : bytes) : Prop :=
  k = None /\ handle_format h = Some JsonLines /\ (p ++ [NEWLINE]) `prefix_of` whole.

Inductive step : Store -> Store -> Prop :=
(* the log is opened: a torn tail is cut off, a new log gets its header *)
| step_open bs a s nonce o file : length (default [] nonce) = NONCE_LEN ->
    open_log chunk reader nonce format false k (Some bs) = Some (Ok o) -> o_file o = Some file -> Forall is_byte file ->
    step (closed bs a s)
      (if (length bs <? length file)%nat then mkStore file file file (Open (o_format o)) [] a s
       else mkStore file file bs (Open (o_format o)) [] a s)
(* a crash while a new log gets its header *)
| step_open_crash bs a s nonce header n : length (default [] nonce) = NONCE_LEN -> log_header nonce format k = Ok header ->
    Forall is_byte header ->
    (exists ops, replay chunk k (reader bs) = Some (ops, Ok ReplayedEmpty) \/
                 replay chunk k (reader bs) = Some (ops, Ok ReplayedTornHeader)) ->
    step (closed bs a s) (closed (take n header) a s)
(* the leader of a group writes a record *)
| step_write d p t f w a s e b : wrote storable f k e b ->
    step (mkStore d p t (Open f) w a s) (mkStore (d ++ b) p t (Open f) (w ++ [e]) a (s ++ [e]))
(* a write fails half way: the log takes no more *)
| step_write_fails d p t f w a s e b n : wrote storable f k e b -> torn_at f k b n ->
    step (mkStore d p t (Open f) w a s) (mkStore (d ++ take n b) p t (BrokenLog f) w a (s ++ [e]))
(* the flush: every record written is acknowledged *)
| step_flush d p t f w a s :
    step (mkStore d p t (Open f) w a s) (mkStore d d d (Open f) [] (a ++ w) s)
| step_flush_fails d p t f w a s :
    step (mkStore d p t (Open f) w a s) (mkStore d p t (BrokenLog f) w a s)
(* a crash, or the end of the process *)
| step_crash d p t h w a s left : left = t \/ p `prefix_of` left /\ left `prefix_of` d /\ ~ before_newline h left d ->
    step (mkStore d p t h w a s) (closed left a s).

Definition reachable : Store -> Prop := rtc step (closed [] [] []).

(** ** What is on the disk *)
Inductive contents : bytes -> list Entry -> Prop :=
| nothing : contents [] []
| no_log n nonce header : length (default [] nonce) = NONCE_LEN -> log_header nonce format k = Ok header ->
    Forall is_byte header -> (n < length header \/ n = 0)%nat -> contents (take n header) []
| some_log f nonce header es bs tail : compiled_in f = true -> length (default [] nonce) = NONCE_LEN ->
    log_header nonce f k = Ok header -> Forall is_byte header -> Forall2 (wrote storable f k) es bs ->
    torn_tail storable f k tail -> contents (header ++ concat bs ++ tail) es.

(** The header and records a file begins with. *)
Record whole_log (f : WalFormat) (header : bytes) (es : list Entry) (rs : list bytes) : Prop := {
  wl_compiled : compiled_in f = true;
  wl_header : exists nonce, length (default [] nonce) = NONCE_LEN /\ log_header nonce f k = Ok header;
  wl_bytes : Forall is_byte header;
  wl_records : Forall2 (wrote storable f k) es rs;
}.

Lemma whole_contents f header es rs tail : whole_log f header es rs -> torn_tail storable f k tail ->
  contents (header ++ concat rs ++ tail) es.
Proof. intros [Hc (n & Hn & Hh) Hb Hr] Ht. by eapply some_log. Qed.

(** Every state of the store. *)
Definition invariant (s : Store) : Prop :=
  match handle s with
  | Closed => firm s = disk s /\ stale s = disk s /\ written s = [] /\
      exists es, contents (disk s) es /\ acked s `sublist_of` es /\ es `sublist_of` submitted s
  | h => exists f header es1 rs1 es2 rs2 tail old, whole_log f header (es1 ++ es2) (rs1 ++ rs2) /\
      length es1 = length rs1 /\
      firm s = header ++ concat rs1 /\ disk s = header ++ concat rs1 ++ concat rs2 ++ tail /\
      stale s = header ++ concat rs1 ++ old /\ torn_tail storable f k tail /\ torn_tail storable f k old /\
      written s = es2 /\ acked s `sublist_of` es1 /\ (es1 ++ es2) `sublist_of` submitted s /\
      (h = Open f /\ tail = [] \/ h = BrokenLog f)
  end.

(** *** Prefixes of records *)
Lemma prefix_records f es rs tail q : Forall2 (wrote storable f k) es rs -> torn_tail storable f k tail ->
  q `prefix_of` concat rs ++ tail ->
  (forall q', q `prefix_of` q' -> q' `prefix_of` concat rs ++ tail -> k = None -> f = JsonLines -> q' <> q ++ [NEWLINE]) ->
  exists n q', q = concat (take n rs) ++ q' /\ torn_tail storable f k q'.
Proof using laws sealing.
  intros Hw. revert q. induction Hw as [|e b es rs He Hes IH]; intros q Ht Hq Hnl.
  - exists 0%nat, q. cbn [concat take app] in *. split; [done|]. destruct Ht as [->|(e & b & cut & He & Hc & ->)].
    + left. by apply prefix_nil_inv in Hq.
    + right. exists e, b, (length q). split; [done|]. destruct Hq as [r Er].
      assert (Hl : (length q <= cut)%nat).
      { apply (f_equal length) in Er. rewrite length_take, length_app in Er. lia. }
      destruct Hc as [Hc Hj]. split; [split; [lia|intros; specialize (Hj ltac:(done) ltac:(done)); lia]|].
      apply (f_equal (take (length q))) in Er. rewrite take_app_length, take_take, Nat.min_l in Er by done. done.
  - cbn [concat] in Hq, Hnl. rewrite <- app_assoc in Hq, Hnl.
    destruct (decide (length b <= length q)%nat) as [Hl|Hl].
    + assert (Eq : exists q2, q = b ++ q2).
      { destruct Hq as [r Er]. exists (drop (length b) q). rewrite <- (take_drop (length b) q) at 1. f_equal.
        apply (f_equal (take (length b))) in Er. rewrite take_app_length, take_app_le in Er by done. done. }
      destruct Eq as [q2 ->]. apply prefix_app_inv in Hq.
      destruct (IH q2 Ht Hq) as (n & q' & -> & Hq').
      { intros q' Hp Hp' Hk Hf ->. apply (Hnl (b ++ q2 ++ [NEWLINE])); try done.
        - rewrite app_assoc. by apply prefix_app_r.
        - by apply prefix_app.
        - by rewrite app_assoc. }
      exists (S n), q'. cbn [take concat]. by rewrite app_assoc.
    + exists 0%nat, q. cbn [take concat app]. split; [done|]. right. exists e, b, (length q).
      destruct Hq as [r Er].
      assert (Et : q = take (length q) b).
      { apply (f_equal (take (length q))) in Er. rewrite take_app_length, take_app_le in Er by lia. done. }
      split; [done|]. split; [|done]. split; [lia|]. intros Hf Hk. destruct (decide (length q + 1 = length b)%nat) as [E|]; [|lia].
      exfalso. destruct (wrote_shape _ _ _ _ _ He) as [(_ & _ & t & _ & Eb)|(Hn & _)]; [|by apply Hn].
      assert (Hqt : q = t).
      { rewrite Et, Eb. rewrite Eb, length_app in E. cbn in E. apply take_app_length'. lia. }
      apply (Hnl b); try done; [rewrite Eb, Hqt; by apply prefix_app_r|by apply prefix_app_r|by rewrite Eb, Hqt].
Qed.

Lemma torn_nil f : torn_tail storable f k []. Proof. by left. Qed.

Lemma crash_contents h f header es1 rs1 es2 rs2 tail left : whole_log f header (es1 ++ es2) (rs1 ++ rs2) ->
  length es1 = length rs1 -> torn_tail storable f k tail ->
  (header ++ concat rs1) `prefix_of` left -> left `prefix_of` header ++ concat rs1 ++ concat rs2 ++ tail ->
  handle_format h = Some f -> ~ before_newline h left (header ++ concat rs1 ++ concat rs2 ++ tail) ->
  exists es, contents left es /\ es1 `sublist_of` es /\ es `sublist_of` (es1 ++ es2).
Proof using laws sealing.
  intros Hw Hl Ht [q ->] Hp Hfm Hnl. destruct Hw as [Hc Hh Hb Hr].
  apply Forall2_app_inv in Hr as [Hr1 Hr2]; [|done].
  rewrite <- app_assoc in Hp, Hnl. apply prefix_app_inv, prefix_app_inv in Hp.
  destruct (prefix_records f es2 rs2 tail q Hr2 Ht Hp) as (n & q' & -> & Hq').
  { intros q' Hqq Hq' Hk Hf ->. apply Hnl. split; [done|]. split; [by rewrite Hfm, Hf|]. rewrite <- !app_assoc. do 2 apply prefix_app.
    exact Hq'. }
  exists (es1 ++ take n es2). split; [|split].
  - replace ((header ++ concat rs1) ++ concat (take n rs2) ++ q') with (header ++ concat (rs1 ++ take n rs2) ++ q')
      by (by rewrite concat_app, <- !app_assoc).
    apply (whole_contents f header _ (rs1 ++ take n rs2) q'); [|done]. split; try done.
    apply Forall2_app; [done|]. by apply Forall2_take.
  - by apply sublist_inserts_r.
  - apply sublist_app; [done|]. apply sublist_take.
Qed.

Lemma header_lengths nonce nonce' f h h' : length (default [] nonce) = NONCE_LEN -> length (default [] nonce') = NONCE_LEN ->
  log_header nonce f k = Ok h -> log_header nonce' f k = Ok h' -> length h = length h'.
Proof using sealing.
  intros Hn Hn'. unfold log_header. destruct k as [key|]; [|congruence]. unfold seal_with.
  destruct (seal nonce key CHECK_CONTEXT CHECK_TEXT) as [c|] eqn:E; [|done].
  destruct (seal nonce' key CHECK_CONTEXT CHECK_TEXT) as [c'|] eqn:E'; [|done]. unfold mbind, result_bind.
  destruct (frame c) as [b|] eqn:F; [|done]. destruct (frame c') as [b'|] eqn:F'; [|done].
  apply seal_shape in E as (x & y & -> & Hy & ->). apply seal_shape in E' as (x' & y' & -> & Hy' & ->).
  intros H1 H2. assert (h = MAGIC ++ [SEALED_VERSION; tag f] ++ b) as -> by (symmetry; by injection H1).
  assert (h' = MAGIC ++ [SEALED_VERSION; tag f] ++ b') as -> by (symmetry; by injection H2).
  rewrite !length_app, (frame_length _ _ F), (frame_length _ _ F'), !length_app.
  change (length x = NONCE_LEN) in Hn. change (length x' = NONCE_LEN) in Hn'.
  rewrite (encrypt_length _ _ _ _ _ Hy), (encrypt_length _ _ _ _ _ Hy'). lia.
Qed.

(** What opening finds. *)
Lemma contents_replay bs es : contents bs es ->
  (bs = [] /\ es = [] /\ replay chunk k (reader bs) = Some ([], Ok ReplayedEmpty)) \/
  (es = [] /\ replay chunk k (reader bs) = Some ([], Ok ReplayedTornHeader) /\
    forall nonce header, length (default [] nonce) = NONCE_LEN -> log_header nonce format k = Ok header ->
      (length bs < length header)%nat) \/
  (exists f header rs tail, whole_log f header es rs /\ torn_tail storable f k tail /\ bs = header ++ concat rs ++ tail /\
    replay chunk k (reader bs) = Some (mjoin (en_ops <$> es),
      Ok (ReplayedLog f (length (header ++ concat rs)) (negb (bool_decide (tail = []))) (bool_decide (is_Some k))))).
Proof using laws sealing reader_ok Hformat.
  assert (Hempty : replay chunk k (reader []) = Some ([], Ok ReplayedEmpty)).
  { destruct (reader_ok []) as [Hs Hc]. rewrite (proj1 (replay_reads_same chunk k (reader []) Hs)), Hc. done. }
  intros [|n nonce header Hn Hh Hb Hlt|f nonce header es' rs tail Hc Hn Hh Hb Hr Ht].
  - by left.
  - destruct (decide (take n header = [])) as [E|E]; [left; by rewrite E|]. right. left. split; [done|].
    assert (0 < n < length header)%nat as Hlen by (destruct n; [done|lia]). split.
    + destruct (reader_ok (take n header)) as [Hs Hct].
      by apply (header_replays nonce format k header n chunk (reader (take n header))).
    + intros nonce' header' Hn' Hh'. rewrite <- (header_lengths nonce nonce' format header header') by done.
      rewrite length_take. lia.
  - destruct (decide (header ++ concat rs ++ tail = [])) as [E|E].
    + left. split; [done|]. split; [|by rewrite E]. destruct Hr as [|e b es' rs He _]; [done|].
      pose proof (wrote_read _ _ _ _ _ [] [] He) as [_ H0]. cbn in E. apply app_nil in E as [_ E].
      apply app_nil in E as [E _]. apply app_nil in E as [-> _]. cbn in H0. lia.
    + right. right. exists f, header, rs, tail. split; [split; eauto|]. split; [done|]. split; [done|].
      destruct (reader_ok (header ++ concat rs ++ tail)) as [Hs Hct].
      apply (log_replays storable nonce f k header es' rs tail chunk (reader (header ++ concat rs ++ tail)));
        try done. by rewrite Hct.
Qed.

(** A log just created, or opened, as an open store. *)
Lemma open_state f header es rs bs old a sub : whole_log f header es rs -> bs = header ++ concat rs ->
  torn_tail storable f k old -> a `sublist_of` es -> es `sublist_of` sub ->
  invariant (mkStore bs bs (bs ++ old) (Open f) [] a sub).
Proof.
  intros Hw -> Hold Ha Hs. cbn. exists f, header, es, rs, [], [], [], old. rewrite !app_nil_r.
  assert (length es = length rs) by (by eapply Forall2_length, wl_records). cbn [concat app]. rewrite <- app_assoc.
  split_and?; try done; [by apply torn_nil|by left].
Qed.

(** [open_log] on a file that a store left. *)
Lemma open_log_contents bs es nonce header0 : contents bs es -> length (default [] nonce) = NONCE_LEN ->
  log_header nonce format k = Ok header0 -> Forall is_byte header0 ->
  exists o f header rs old, open_log chunk reader nonce format false k (Some bs) = Some (Ok o) /\ o_ops o = mjoin (en_ops <$> es) /\
    o_format o = f /\ whole_log f header es rs /\ o_file o = Some (header ++ concat rs) /\ torn_tail storable f k old /\
    ((length bs < length (header ++ concat rs))%nat \/ bs = (header ++ concat rs) ++ old).
Proof using laws sealing reader_ok Hformat.
  intros Hc Hn Hh Hb.
  assert (Hnew : whole_log format header0 [] []) by (split; eauto).
  unfold open_log. destruct (contents_replay bs es Hc) as [(-> & -> & ->)|[(-> & -> & Hlen)|(f & header & rs & tail & Hw & Ht & E & ->)]].
  - rewrite Hh. eexists _, format, header0, [], []. split; [done|]. cbn [concat app o_ops o_format o_file default from_option].
    rewrite app_nil_r. split_and?; try done; [by apply torn_nil|].
    destruct header0; [by right|left; cbn; lia].
  - rewrite Hh. eexists _, format, header0, [], []. split; [done|]. cbn [concat app o_ops o_format o_file default from_option].
    rewrite app_nil_r. split_and?; try done; [by apply torn_nil|]. left. by eapply Hlen.
  - eexists _, f, header, rs, tail. split; [done|]. cbn [o_ops o_format o_file]. split; [done|]. split; [done|].
    split; [done|]. split; [|split; [done|right; by rewrite <- app_assoc]].
    destruct (decide (tail = [])) as [->|Hne].
    + rewrite bool_decide_true by done. cbn. f_equal. by rewrite E, app_nil_r.
    + rewrite bool_decide_false by done. cbn. f_equal. rewrite E, (app_assoc header). by rewrite take_app_length.
Qed.

(** A store with its log open: the records known to be on disk, those written
    since, and what a failed write or an undone truncation left. *)
Lemma live_invariant s : handle s <> Closed -> invariant s <-> exists f header es1 rs1 es2 rs2 tail old,
  whole_log f header (es1 ++ es2) (rs1 ++ rs2) /\ length es1 = length rs1 /\
  firm s = header ++ concat rs1 /\ disk s = header ++ concat rs1 ++ concat rs2 ++ tail /\
  stale s = header ++ concat rs1 ++ old /\ torn_tail storable f k tail /\ torn_tail storable f k old /\
  written s = es2 /\ acked s `sublist_of` es1 /\ (es1 ++ es2) `sublist_of` submitted s /\
  (handle s = Open f /\ tail = [] \/ handle s = BrokenLog f).
Proof. unfold invariant. by destruct (handle s). Qed.

Lemma open_keeps bs a sub nonce o file : length (default [] nonce) = NONCE_LEN ->
  open_log chunk reader nonce format false k (Some bs) = Some (Ok o) -> o_file o = Some file -> Forall is_byte file ->
  invariant (closed bs a sub) ->
  invariant (if (length bs <? length file)%nat then mkStore file file file (Open (o_format o)) [] a sub
             else mkStore file file bs (Open (o_format o)) [] a sub).
Proof using laws sealing reader_ok Hformat.
  intros Hn Ho Hf Hb (_ & _ & _ & es & Hc & Ha & Hs). cbn [disk acked submitted closed] in *.
  assert (Hlog : exists h rs old, whole_log (o_format o) h es rs /\ file = h ++ concat rs /\ torn_tail storable (o_format o) k old /\
    ((length bs < length file)%nat \/ bs = file ++ old)).
  { unfold open_log in Ho. destruct (contents_replay bs es Hc) as [(-> & -> & R)|[(-> & R & Hlen)|(f & h & rs & tail & Hw & Ht & E & R)]];
      rewrite R in Ho.
    - destruct (log_header nonce format k) as [h|] eqn:Eh; [|done]. injection Ho as <-. injection Hf as <-.
      exists h, [], []. rewrite app_nil_r. split; [by split; eauto|]. split; [done|]. split; [apply torn_nil|].
      destruct h; [by right|left; cbn; lia].
    - destruct (log_header nonce format k) as [h|] eqn:Eh; [|done]. injection Ho as <-. injection Hf as <-.
      exists h, [], []. rewrite app_nil_r. split; [by split; eauto|]. split; [done|]. split; [apply torn_nil|].
      left. by eapply Hlen.
    - injection Ho as <-. exists h, rs, tail. cbn in Hf |- *. split; [done|]. split; [|split; [done|]].
      + symmetry. apply (f_equal (default file)) in Hf. revert Hf. case_bool_decide as Et; cbn; intros <-.
        * by rewrite E, Et, app_nil_r.
        * by rewrite E, (app_assoc h), take_app_length.
      + right. revert Hf. case_bool_decide as Et; cbn; intros [= <-]; rewrite E.
        * by rewrite Et, !app_nil_r.
        * by rewrite (app_assoc h), take_app_length. }
  destruct Hlog as (h & rs & old & Hw & -> & Hold & Hlen).
  destruct (Nat.ltb_spec (length bs) (length (h ++ concat rs))) as [_|Hge].
  - pose proof (open_state _ h es rs _ [] a sub Hw eq_refl (torn_nil _) Ha Hs) as H. by rewrite app_nil_r in H.
  - destruct Hlen as [?|E]; [lia|]. rewrite E. by eapply open_state.
Qed.

Lemma open_crash_keeps bs a sub nonce header n : length (default [] nonce) = NONCE_LEN ->
  log_header nonce format k = Ok header -> Forall is_byte header ->
  (exists ops, replay chunk k (reader bs) = Some (ops, Ok ReplayedEmpty) \/
               replay chunk k (reader bs) = Some (ops, Ok ReplayedTornHeader)) ->
  invariant (closed bs a sub) -> invariant (closed (take n header) a sub).
Proof using laws sealing reader_ok Hformat.
  intros Hn Hh Hb Hr (_ & _ & _ & es & Hc & Ha & Hs). cbn [disk acked submitted closed] in *.
  assert (es = []) as ->.
  { destruct (contents_replay bs es Hc) as [(_ & -> & _)|[(-> & _ & _)|(f & h' & rs & tail & _ & _ & _ & R)]]; try done.
    destruct Hr as [ops [R'|R']]; congruence. }
  cbn. split_and?; try done. exists []. split_and?; try done.
  destruct (decide (n < length header)%nat); [by eapply no_log; eauto|].
  rewrite take_ge by lia. rewrite <- (app_nil_r header). change (header ++ []) with (header ++ concat [] ++ @nil N).
  eapply (some_log format nonce header [] []); try done. apply torn_nil.
Qed.

Lemma append_keeps d p t f w a sub e b : wrote storable f k e b ->
  invariant (mkStore d p t (Open f) w a sub) -> invariant (mkStore (d ++ b) p t (Open f) (w ++ [e]) a (sub ++ [e])).
Proof.
  intros He Hi. apply live_invariant in Hi; [|done].
  destruct Hi as (f' & header & es1 & rs1 & es2 & rs2 & tail & old & Hw & Hl & E1 & E2 & E3 & Ht & Hold & E4 & Ha & Hs & Hh).
  cbn in *. destruct Hh as [[[= <-] ->]|?]; [|done]. subst.
  exists f, header, es1, rs1, (es2 ++ [e]), (rs2 ++ [b]), [], old. cbn. rewrite !app_nil_r in *.
  split; [|split_and?; try done].
  - destruct Hw as [? ? ? Hr]. split; try done. rewrite !app_assoc. apply Forall2_app; [done|by constructor].
  - rewrite concat_app. cbn [concat]. by rewrite app_nil_r, <- !app_assoc.
  - rewrite app_assoc. by apply sublist_app.
  - by left.
Qed.

Lemma write_fails_keeps d p t f w a sub e b n : wrote storable f k e b -> torn_at f k b n ->
  invariant (mkStore d p t (Open f) w a sub) -> invariant (mkStore (d ++ take n b) p t (BrokenLog f) w a (sub ++ [e])).
Proof.
  intros He Hcut Hi. apply live_invariant in Hi; [|done].
  destruct Hi as (f' & header & es1 & rs1 & es2 & rs2 & tail & old & Hw & Hl & E1 & E2 & E3 & Ht & Hold & E4 & Ha & Hs & Hh).
  cbn in *. destruct Hh as [[[= <-] ->]|?]; [|done]. subst.
  exists f, header, es1, rs1, es2, rs2, (take n b), old. cbn. rewrite !app_nil_r in *. split_and?; try done.
  - by rewrite <- !app_assoc.
  - right. eauto 10.
  - etransitivity; [exact Hs|]. by apply sublist_inserts_r.
  - by right.
Qed.

Lemma flush_keeps d p t f w a sub : invariant (mkStore d p t (Open f) w a sub) ->
  invariant (mkStore d d d (Open f) [] (a ++ w) sub).
Proof.
  intros Hi. apply live_invariant in Hi; [|done].
  destruct Hi as (f' & header & es1 & rs1 & es2 & rs2 & tail & old & Hw & Hl & E1 & E2 & E3 & Ht & Hold & E4 & Ha & Hs & Hh).
  cbn in *. destruct Hh as [[[= <-] ->]|?]; [|done]. subst.
  pose proof (open_state f header (es1 ++ es2) (rs1 ++ rs2) (header ++ concat (rs1 ++ rs2)) [] (a ++ es2) sub) as H.
  rewrite concat_app in H. rewrite !app_nil_r in *. apply H; try done. by apply sublist_app.
Qed.

Lemma crash_keeps d p t h w a sub left :
  left = t \/ p `prefix_of` left /\ left `prefix_of` d /\ ~ before_newline h left d ->
  invariant (mkStore d p t h w a sub) -> invariant (closed left a sub).
Proof using laws sealing.
  intros Hleft Hi. cut (exists es, contents left es /\ a `sublist_of` es /\ es `sublist_of` sub).
  { intros H. cbn. by split_and?. }
  assert (h = Closed \/ h <> Closed) as [->|Hh] by (destruct h; auto).
  - destruct Hi as (Hp & Ht & _ & es & Hc & Ha & Hs). cbn in *. subst. exists es. split_and?; try done.
    destruct Hleft as [->|(Hp & Hd & _)]; [done|]. assert (left = d) as ->; [|done]. by apply (anti_symm prefix).
  - apply live_invariant in Hi; [|done].
    destruct Hi as (f & header & es1 & rs1 & es2 & rs2 & tail & old & Hw & Hl & E1 & E2 & E3 & Ht & Hold & _ & Ha & Hs & Hf).
    cbn in *. assert (handle_format h = Some f) as Hfm by (by destruct Hf as [[-> _]| ->]). clear Hf. subst.
    destruct Hleft as [->|(Hp & Hd & Hnl)].
    + exists es1. split; [|split; [done|]].
      * destruct Hw as [? ? ? Hr]. apply Forall2_app_inv in Hr as [Hr _]; [|done]. by apply (whole_contents f).
      * etransitivity; [|exact Hs]. by apply sublist_inserts_r.
    + destruct (crash_contents h f header es1 rs1 es2 rs2 tail left) as (es & Hc & H1 & H2); try done.
      exists es. split_and?; try done; by etransitivity.
Qed.

Lemma reachable_invariant s : reachable s -> invariant s.
Proof using laws sealing reader_ok Hformat.
  intros Hr. unfold reachable in Hr. cut (invariant (closed [] [] [])).
  - revert Hr. generalize (closed [] [] []). induction 1 as [s|s s' s'' Hstep _ IH]; [done|]. intros Hi. apply IH.
    destruct Hstep; [by eapply open_keeps|by eapply open_crash_keeps|by eapply append_keeps|by eapply write_fails_keeps
      |by eapply flush_keeps| |by eapply crash_keeps].
    apply live_invariant in Hi; [|done]. apply live_invariant; [done|].
    destruct Hi as (f' & header & es1 & rs1 & es2 & rs2 & tail & old & ? & ? & ? & ? & ? & ? & ? & ? & ? & ? & ?).
    exists f', header, es1, rs1, es2, rs2, tail, old. cbn in *. split_and?; try done. right.
    naive_solver.
  - cbn. split_and?; try done. exists []. split_and?; try done. apply nothing.
Qed.

End store.

(** ** By example *)
Module Example.
Import Encryption.Toy Letters Recovered.
Definition reader (bs : bytes) : list (option bytes) := [Some (take 7 bs); Some (drop 7 bs)].
Lemma reader_ok bs : steady (reader bs) /\ content (reader bs) = bs.
Proof.
  unfold reader. assert (H : forall l : bytes, steady [Some l] /\ content [Some l] = l).
  { intros [|x l]; cbn; [done|]. by rewrite app_nil_r. }
  destruct bs as [|x bs]; [done|].
  change (steady [Some (drop 6 bs)] /\ (x :: take 6 bs) ++ content [Some (drop 6 bs)] = x :: bs).
  destruct (H (drop 6 bs)) as [? ->]. split; [done|]. cbn [app]. f_equal. apply take_drop.
Qed.

Definition store0 : Store := closed [] [] [].
Definition store1 : Store := mkStore header_bytes header_bytes header_bytes (Open Cbor) [] [] [].
Definition store2 : Store :=
  mkStore (header_bytes ++ Recovered.first) header_bytes header_bytes (Open Cbor) [entry [1; 2]] [] [entry [1; 2]].
Definition store3 : Store :=
  mkStore (header_bytes ++ Recovered.first) (header_bytes ++ Recovered.first) (header_bytes ++ Recovered.first)
    (Open Cbor) [] [entry [1; 2]] [entry [1; 2]].
Definition store4 : Store :=
  mkStore ((header_bytes ++ Recovered.first) ++ second) (header_bytes ++ Recovered.first) (header_bytes ++ Recovered.first)
    (Open Cbor) [entry [3]] [entry [1; 2]] [entry [1; 2]; entry [3]].
Definition store5 : Store := closed (take 120 (disk store4)) [entry [1; 2]] [entry [1; 2]; entry [3]].

Abbreviation steps := (step storable 64 reader (Some key) Cbor).

Lemma store1_opens : steps store0 store1.
Proof.
  refine (step_open storable 64 reader (Some key) Cbor [] [] [] Toy.nonce (mkOpened [] Cbor (Some header_bytes)) header_bytes
    _ _ _ _); try by vm_compute. apply is_byte_list. by vm_compute.
Qed.
Lemma store2_writes : steps store1 store2.
Proof.
  refine (step_write storable 64 reader (Some key) Cbor header_bytes header_bytes header_bytes Cbor [] [] [] (entry [1; 2])
    Recovered.first _). by apply wrote_record; vm_compute.
Qed.
Lemma store3_flushes : steps store2 store3. Proof. apply step_flush. Qed.
Lemma store4_writes : steps store3 store4.
Proof.
  refine (step_write storable 64 reader (Some key) Cbor _ _ _ Cbor [] _ _ (entry [3]) second _). by apply wrote_record; vm_compute.
Qed.
Lemma store5_crashes : steps store4 store5.
Proof.
  apply step_crash. right. split; [|split; [|by intros [? _]]].
  - exists (take 9 second). by vm_compute.
  - exists (drop 120 (disk store4)). by rewrite take_drop.
Qed.
Lemma store5_reachable : reachable storable 64 reader (Some key) Cbor store5.
Proof.
  eapply rtc_l; [apply store1_opens|]. eapply rtc_l; [apply store2_writes|]. eapply rtc_l; [apply store3_flushes|].
  eapply rtc_l; [apply store4_writes|]. eapply rtc_l; [apply store5_crashes|]. apply rtc_refl.
Qed.

End Example.

(** ** Records that are lost *)
Module Losses.
Import Encryption.Toy Letters.
Definition line (ids : list N) : bytes := match encode_record JsonLines (DeleteNode <$> ids) with Ok b => b | Err _ => [] end.
Definition reopen (k : option Key) (file : bytes) := open_log 64 Example.reader Toy.nonce JsonLines false k (Some file).

(** A crash kept all of the first line but its newline.  The line is read as
    whole, so the log is not cut, and the next record is written behind it on
    the same line: acknowledged, and dropped as a torn tail by the next opening;
    or, with one more record behind it, the log is refused. *)
Theorem line_without_newline_loses_write :
  let cut := take 3 (line [1]) in
  cut ++ [NEWLINE] = line [1] /\
  reopen None cut = Some (Ok (mkOpened [DeleteNode 1] JsonLines (Some cut))) /\
  reopen None (cut ++ line [2]) = Some (Ok (mkOpened [] JsonLines (Some []))) /\
  reopen None (cut ++ line [2] ++ line [3]) = Some (Err (InvalidData (CorruptAt 0))).
Proof. repeat split; by vm_compute. Qed.

Definition framed (ids : list N) : bytes := match encode_record Cbor (DeleteNode <$> ids) with Ok b => b | Err _ => [] end.
Definition two_records : bytes := header Cbor ++ framed [1; 2] ++ framed [3].

(** One byte of the first record changed: in its payload, the log is refused;
    in its length, both records are dropped as a torn tail. *)
Theorem damaged_length_drops_records :
  reopen None two_records = Some (Ok (mkOpened [DeleteNode 1; DeleteNode 2; DeleteNode 3] Cbor (Some two_records))) /\
  reopen None (<[16%nat := 7]> two_records) = Some (Err (InvalidData (CorruptAt 8))) /\
  reopen None (<[9%nat := 1]> two_records) = Some (Ok (mkOpened [] Cbor (Some (header Cbor)))).
Proof. repeat split; by vm_compute. Qed.

(** A record of more than a gigabyte is compressed and written, but never read
    back. *)
Theorem large_record_unreadable {libs : Libs} storable {laws : LibLaws storable} ops c z : wal_zstd = true ->
  encode_cbor ops = Ok c -> ZSTD_MAX_RECORD < N.of_nat (length c) -> zstd_compress c = Ok z ->
  encode_ops CborZstd ops = Ok z /\ decode_ops CborZstd z = None.
Proof.
  intros Hf Hc Hl Hz. cbn [encode_ops decode_ops]. rewrite Hf, Hc. split; [exact Hz|].
  unfold zstd_compress in Hz. destruct (compress c) as [z'|] eqn:E; [|done]. injection Hz as ->.
  unfold zstd_decompress. rewrite (proj1 (zstd_law _ _ E)). cbn. by rewrite (proj2 (N.leb_gt _ _) Hl).
Qed.
End Losses.
