(* ===== verification/WalTailer.v ===== *)
(** * Following a log file
    ([WalTailer] of [src/drevo-core/src/replica.rs])

    A replica in another process polls the primary's log and takes the records
    that are whole by then.

    - [tailer_takes_each_record_once]: polls of a growing log hand on every
      record once, in order, and leave a record still being written for later;
    - [compaction_misleads_tailer]: a log that compaction replaced is read on
      from an offset that means nothing in it. *)
From S2P Require Import Prelude NativeModel WireBytes Encryption WalCompact WalFormat WalReplay WalRecovery.
Local Open Scope list_scope.
Local Open Scope N_scope.

Section tailer.
Context {libs : Libs} {aead : Aead}.

Record WalTailer : Type := mkTailer { offset : nat; format : option WalFormat }.

Definition new : WalTailer := mkTailer 0 None.
Definition resume_at (offset : nat) : WalTailer := mkTailer offset None.

(** The loop over framed records; every record is longer than nothing. *)
Fixpoint poll_frames (fuel : nat) (f : WalFormat) (buf : bytes) (pos : nat) (ops : list WalOp) : list WalOp * nat :=
  match fuel with
  | O => (ops, pos)
  | S fuel =>
      if (pos <? length buf)%nat then
        match read_record f buf pos with
        | Ops recs next => poll_frames fuel f buf next (ops ++ recs)
        | Invalid next | Undecryptable next => poll_frames fuel f buf next ops
        | Incomplete => (ops, pos)
        end
      else (ops, pos)
  end.

(** [split(|b| b == '\n')]. *)
Fixpoint split_lines (bs : bytes) : list bytes :=
  match bs with
  | [] => [[]]
  | b :: bs =>
      match split_lines bs with
      | l :: ls => if b =? NEWLINE then [] :: l :: ls else (b :: l) :: ls
      | [] => []
      end
  end.

(** [rposition] of a newline: the length of the text up to the last one. *)
Fixpoint last_newline (bs : bytes) : option nat :=
  match bs with
  | [] => None
  | b :: bs =>
      match last_newline bs with
      | Some i => Some (S i)
      | None => if b =? NEWLINE then Some 0%nat else None
      end
  end.

Definition line_ops (line : bytes) : list WalOp :=
  match line with [] => [] | _ => default [] (parse_json_line line) end.

(** Poll the file: [None] when there is none. *)
Definition poll (file : option bytes) (t : WalTailer) : WalTailer * result WalError (list WalOp) :=
  match file with
  | None => (t, Ok [])
  | Some bs =>
      let found : result WalError (option (WalTailer * WalFormat)) :=
        match format t with
        | Some f => Ok (Some (t, f))
        | None =>
            let head := take HEADER_LEN bs in
            match detect head with
            | Err e => Err e
            | Ok TornHeader => Ok None
            | Ok (Log f body_start is_sealed) =>
                if bool_decide (head = []) then Ok None
                else if is_sealed then Err (InvalidData LogIsEncrypted)
                else Ok (Some (mkTailer (Nat.max (offset t) body_start) (Some f), f))
            end
        end in
      match found with
      | Err e => (t, Err e)
      | Ok None => (t, Ok [])
      | Ok (Some (t, f)) =>
          let buf := drop (offset t) bs in
          if bool_decide (f = JsonLines) then
            match last_newline buf with
            | None => (t, Ok [])
            | Some i =>
                let complete := take (S i) buf in
                (mkTailer (offset t + length complete) (format t), Ok (flat_map line_ops (split_lines complete)))
            end
          else
            let '(ops, pos) := poll_frames (S (length buf)) f buf 0 [] in
            (mkTailer (offset t + pos) (format t), Ok ops)
      end
  end.
End tailer.

(** ** Lines *)
Lemma split_lines_ne l : split_lines l <> [].
Proof. induction l as [|b l IH]; [done|]. cbn. destruct (split_lines l); [done|]. by destruct (b =? NEWLINE). Qed.

Lemma split_lines_cons t rest : NEWLINE ∉ t -> split_lines (t ++ NEWLINE :: rest) = t :: split_lines rest.
Proof.
  induction t as [|b t IH]; intros Hn; cbn [split_lines app].
  - rewrite N.eqb_refl. destruct (split_lines rest) eqn:E; [by apply split_lines_ne in E|done].
  - rewrite IH by set_solver. destruct (N.eqb_spec b NEWLINE) as [->|]; [set_solver|done].
Qed.

Lemma last_newline_none t : NEWLINE ∉ t -> last_newline t = None.
Proof.
  induction t as [|b t IH]; [done|]. intros Hn. cbn. rewrite IH by set_solver.
  destruct (N.eqb_spec b NEWLINE) as [->|]; [set_solver|done].
Qed.

Lemma last_newline_app l t : NEWLINE ∉ t -> last_newline (l ++ NEWLINE :: t) = Some (length l).
Proof.
  intros Hn. induction l as [|b l IH]; cbn; [by rewrite last_newline_none|by rewrite IH].
Qed.

(** ** Polls of a growing log *)
Section growing.
Context {libs : Libs} {aead : Aead} (storable : WalOp -> Prop) {laws : LibLaws storable} {sealing : AeadLaws}.
Context (f : WalFormat).

(** What a record still being written shows. *)
Definition unfinished (tail : bytes) : Prop :=
  tail = [] \/ exists e b cut, wrote storable f None e b /\ (cut < length b)%nat /\ tail = take cut b.

(** The file at each poll: the records before, those written since the last
    poll, and the beginning of another. *)
Fixpoint files (before : list bytes) (growth : list (list bytes * bytes)) : list bytes :=
  match growth with
  | [] => []
  | (rs, tail) :: growth => (header f ++ concat (before ++ rs) ++ tail) :: files (before ++ rs) growth
  end.

Fixpoint poll_all (fs : list bytes) (t : WalTailer) : WalTailer * result WalError (list WalOp) :=
  match fs with
  | [] => (t, Ok [])
  | file :: fs =>
      match poll (Some file) t with
      | (t, Err e) => (t, Err e)
      | (t, Ok ops) => match poll_all fs t with
                       | (t, Ok ops') => (t, Ok (ops ++ ops'))
                       | failed => failed
                       end
      end
  end.

(** *** Lines *)
Lemma wrote_line e b : f = JsonLines -> wrote storable f None e b -> exists t, b = t ++ [NEWLINE] /\ (NEWLINE ∉ t) /\
  line_ops t = en_ops e /\ t <> [].
Proof using laws sealing.
  intros -> Hw. pose proof Hw as ((Hne & Hs & _) & _).
  destruct (wrote_shape _ _ _ _ _ Hw) as [(_ & _ & t & Ht & ->)|([] & _)]; [|done].
  destruct (line_text storable _ _ Hne Hs Ht) as (o & c & _ & _ & ((m & Em) & _ & Hn)). exists t. split; [done|]. split; [done|].
  assert (t <> []) by (by rewrite Em). split; [|done]. unfold line_ops. rewrite (parse_line storable _ _ Hne Hs Ht). by destruct t.
Qed.

Lemma lines_ops es rs : f = JsonLines -> Forall2 (wrote storable f None) es rs ->
  flat_map line_ops (split_lines (concat rs)) = mjoin (en_ops <$> es).
Proof using laws sealing.
  intros Hj. induction 1 as [|e b es rs He _ IH]; [done|].
  destruct (wrote_line e b Hj He) as (t & -> & Hn & Ho & _). cbn [concat]. rewrite <- app_assoc. cbn [app].
  rewrite split_lines_cons by done. cbn [flat_map]. by rewrite IH, Ho.
Qed.

Lemma lines_end es rs tail : f = JsonLines -> Forall2 (wrote storable f None) es rs -> NEWLINE ∉ tail ->
  last_newline (concat rs ++ tail) = if bool_decide (rs = []) then None else Some (length (concat rs) - 1)%nat.
Proof using laws sealing.
  intros Hj Hw Ht. destruct rs as [|r rs] using rev_ind; [by apply last_newline_none|].
  rewrite bool_decide_false by (by destruct rs). apply Forall2_app_inv_r in Hw as (es1 & es2 & _ & Hw & ->).
  apply Forall2_cons_inv_r in Hw as (e & es' & He & _ & ->). destruct (wrote_line _ _ Hj He) as (t & -> & _).
  rewrite concat_app. cbn [concat]. rewrite app_nil_r, <- !app_assoc. cbn [app]. rewrite app_assoc, last_newline_app by done.
  rewrite app_assoc, (length_app _ [NEWLINE]). cbn [length]. f_equal. lia.
Qed.

Lemma unfinished_line tail : f = JsonLines -> unfinished tail -> NEWLINE ∉ tail.
Proof using laws sealing.
  intros Hj [->|(e & b & cut & He & Hc & ->)]; [by apply not_elem_of_nil|].
  destruct (wrote_line e b Hj He) as (t & -> & Hn & _). rewrite length_app in Hc. cbn in Hc.
  rewrite take_app_le by lia. intros Hin. apply Hn. rewrite <- (take_drop cut t). apply elem_of_app. by left.
Qed.

(** *** Frames *)
Lemma poll_frames_spec es rs tail fuel pre out : f <> JsonLines -> Forall2 (wrote storable f None) es rs -> unfinished tail ->
  (length (concat rs ++ tail) < fuel)%nat ->
  poll_frames fuel f (pre ++ concat rs ++ tail) (length pre) out =
  (out ++ mjoin (en_ops <$> es), length (pre ++ concat rs)).
Proof using laws sealing.
  intros Hj Hw Ht. revert fuel pre out. induction Hw as [|e b es rs He _ IH]; intros fuel pre out Hfuel.
  - cbn [concat app fmap list_fmap mjoin list_join] in *. rewrite !app_nil_r. destruct fuel as [|fuel]; [lia|]. cbn [poll_frames].
    rewrite length_app. destruct (Nat.ltb_spec (length pre) (length pre + length tail)) as [Hlt|]; [|done].
    assert (Hr : read_record f (pre ++ tail) (length pre) = Incomplete); [|by rewrite Hr].
    destruct Ht as [->|(e & b & cut & He & Hc & ->)]; [cbn in Hlt; lia|].
    unfold read_record. rewrite bool_decide_false, drop_app_length by done.
    destruct (wrote_shape _ _ _ _ _ He) as [(? & _)|(_ & payload & _ & Hfr & _)]; [done|].
    by rewrite (frame_cut _ _ _ Hfr).
  - cbn [concat] in *. destruct (wrote_read _ _ _ _ _ pre (concat rs ++ tail) He) as [Hr H0]. cbn [read_any] in Hr.
    rewrite <- !app_assoc in *. destruct fuel as [|fuel]; [lia|]. cbn [poll_frames].
    destruct (Nat.ltb_spec (length pre) (length (pre ++ b ++ concat rs ++ tail))) as [_|Hge].
    2: { rewrite !length_app in Hge. lia. }
    rewrite Hr, <- (length_app pre b). rewrite (app_assoc pre b), IH by (rewrite !length_app in *; lia).
    cbn [fmap list_fmap mjoin list_join]. by rewrite <- !app_assoc.
Qed.

(** *** One poll *)
Definition tailing (t : WalTailer) (before : list bytes) : Prop :=
  t = new /\ before = [] \/ t = mkTailer (length (header f ++ concat before)) (Some f).

Lemma poll_grown t before es rs tail : compiled_in f = true -> tailing t before -> Forall2 (wrote storable f None) es rs -> unfinished tail ->
  exists t', poll (Some (header f ++ concat (before ++ rs) ++ tail)) t = (t', Ok (mjoin (en_ops <$> es))) /\ tailing t' (before ++ rs).
Proof using laws sealing.
  intros Hf Ht Hw Htail. set (bs := header f ++ concat (before ++ rs) ++ tail).
  set (off := length (header f ++ concat before)).
  assert (Hgo : forall t0, t0 = mkTailer off (Some f) ->
    exists t', (let buf := drop off bs in
          if bool_decide (f = JsonLines) then
            match last_newline buf with
            | None => (t0, Ok [])
            | Some i => (mkTailer (off + length (take (S i) buf)) (Some f), Ok (flat_map line_ops (split_lines (take (S i) buf))))
            end
          else let '(ops, pos) := poll_frames (S (length buf)) f buf 0 [] in (mkTailer (off + pos) (Some f), Ok ops))
      = (t', Ok (E := WalError) (mjoin (en_ops <$> es))) /\ tailing t' (before ++ rs)).
  { intros t0 ->. assert (Hbuf : drop off bs = concat rs ++ tail).
    { unfold off, bs. rewrite concat_app, <- !app_assoc, app_assoc. apply drop_app_length. }
    cbv zeta. rewrite Hbuf. assert (Hlen : (off + length (concat rs))%nat = length (header f ++ concat (before ++ rs))).
    { unfold off. rewrite concat_app, !length_app. lia. }
    case_bool_decide as Hj.
    - rewrite (lines_end es) by eauto using unfinished_line. case_bool_decide as Hrs.
      + subst rs. apply Forall2_nil_inv_r in Hw as ->. eexists. split; [done|]. right. by rewrite app_nil_r.
      + assert (H0 : (0 < length (concat rs))%nat).
        { destruct Hw as [|e b es rs He _]; [done|]. destruct (wrote_read _ _ _ _ _ [] [] He) as [_ ?].
          cbn. rewrite length_app. lia. }
        replace (S (length (concat rs) - 1)) with (length (concat rs)) by lia. rewrite take_app_length.
        rewrite (lines_ops es) by done. eexists. split; [done|]. right. by rewrite Hlen.
    - pose proof (poll_frames_spec es rs tail (S (length (concat rs ++ tail))) [] [] Hj Hw Htail ltac:(lia)) as E.
      cbn [app length] in E. rewrite E. eexists. split; [done|]. right. by rewrite Hlen. }
  unfold poll. destruct Ht as [[-> ->]| ->].
  - cbn [format new offset].
    destruct (decide (f = JsonLines)) as [Ej|Ej].
    + assert (Ebs : bs = concat rs ++ tail) by (unfold bs; by rewrite Ej).
      destruct (decide (bs = [])) as [E0|E0].
      * rewrite E0. cbn. exists new. assert (rs = []) as ->.
        { rewrite Ebs in E0. apply app_nil in E0 as [E0 _]. destruct Hw as [|e b es rs He _]; [done|].
          destruct (wrote_read _ _ _ _ _ [] [] He) as [_ H0]. cbn in E0. apply app_nil in E0 as [-> _]. cbn in H0. lia. }
        apply Forall2_nil_inv_r in Hw as ->. split; [done|by left].
      * assert (Hstart : exists x l, take HEADER_LEN bs = x :: l /\ (x = 123 \/ x = 91)).
        { assert (Hx : exists x l, bs = x :: l /\ (x = 123 \/ x = 91)).
          { destruct Htail as [->|(e & b & cut & He & Hc & Et)].
            - rewrite Ebs. apply (log_starts storable f es rs []); [done|by left|done|]. by rewrite <- Ebs.
            - rewrite Ebs. destruct Hw as [|e' b' es rs He' Hw].
              + rewrite Ej in He. destruct (log_starts storable JsonLines [e] [b] [] ltac:(by constructor) ltac:(by left) eq_refl) as (x & l & El & Hx).
                { cbn. rewrite !app_nil_r. intros ->. cbn in Hc. lia. }
                cbn in El. rewrite !app_nil_r in El. subst b tail. rewrite Ebs in E0. cbn in E0 |- *.
                destruct cut; [done|]. cbn. eauto.
              + destruct (log_starts storable f (e' :: es) (b' :: rs) []) as (x & l & El & Hx); try done; [by constructor|by left| |].
                * rewrite app_nil_r. destruct (wrote_read _ _ _ _ _ [] [] He') as [_ H0]. cbn. destruct b'; [cbn in H0; lia|done].
                * rewrite app_nil_r in El. rewrite El. cbn. eauto. }
          destruct Hx as (x & l & -> & Hx). exists x, (take 7 l). done. }
        destruct Hstart as (x & l & -> & Hx). rewrite detect_json by done. cbn [bool_decide]. rewrite bool_decide_false by done.
        cbv iota. assert (H0 : mkTailer 0 (Some JsonLines) = mkTailer off (Some f)) by (unfold off; by rewrite Ej).
        destruct (Hgo _ H0) as (t' & Ht' & ?). exists t'. split; [|done]. rewrite <- Ht'. clear Ht'.
        assert (off = 0%nat) as -> by (by injection H0). rewrite <- Ej. done.
    + assert (Hhead : take HEADER_LEN bs = header f).
      { unfold bs. unfold header. rewrite bool_decide_false by done. by apply take_app_length'. }
      rewrite Hhead. unfold header. rewrite bool_decide_false by done. rewrite <- (app_nil_r [HEADER_VERSION; tag f]).
      rewrite detect_header by auto. rewrite bool_decide_false by done. cbn [N.eqb]. cbv iota.
      assert (Hoff : off = 8%nat) by (unfold off, header; by rewrite bool_decide_false).
      destruct (Hgo _ eq_refl) as (t' & Ht' & ?). exists t'. split; [|done]. rewrite <- Ht'. by rewrite Hoff.
  - cbn [format offset]. by apply (Hgo (mkTailer off (Some f))).
Qed.

Lemma polls_grown growth ess t before : compiled_in f = true -> tailing t before ->
  Forall2 (fun es g => Forall2 (wrote storable f None) es g.1 /\ unfinished g.2) ess growth ->
  exists t', poll_all (files before growth) t = (t', Ok (mjoin (en_ops <$> mjoin ess))).
Proof using laws sealing.
  intros Hf Ht Hg. revert t before Ht. induction Hg as [|es [rs tail] ess growth [Hw Htail] _ IH]; intros t before Ht.
  - eexists. done.
  - cbn [files poll_all fst snd] in *. destruct (poll_grown t before es rs tail Hf Ht Hw Htail) as (t1 & -> & Ht1).
    destruct (IH t1 (before ++ rs) Ht1) as (t' & ->). eexists.
    change (mjoin (es :: ess)) with (es ++ mjoin ess). rewrite fmap_app.
    assert (Hj : forall a b : list (list WalOp), mjoin (a ++ b) = mjoin a ++ mjoin b).
    { intros a b. induction a as [|x a IHa]; [done|]. change (mjoin ((x :: a) ++ b)) with (x ++ mjoin (a ++ b)).
      rewrite IHa. apply app_assoc. }
    by rewrite Hj.
Qed.

(** C12: A tailer that follows a plain log from its start, in any format, takes
    from the polls of it, whatever was appended in between and wherever the
    record being written was cut each time, the operations of every whole
    record exactly once and in the order of the log. *)
Theorem tailer_takes_each_record_once growth ess : compiled_in f = true ->
  Forall2 (fun es g => Forall2 (wrote storable f None) es g.1 /\ unfinished g.2) ess growth ->
  exists t', poll_all (files [] growth) new = (t', Ok (mjoin (en_ops <$> mjoin ess))).
Proof using laws sealing. intros Hf Hg. apply (polls_grown growth ess new []); [done|by left|done]. Qed.
End growing.

(** ** By example *)
Module TailerExample.
Import Encryption.Toy Letters Recovered.
Definition line (ids : list N) : bytes := match encode_record JsonLines (DeleteNode <$> ids) with Ok b => b | Err _ => [] end.

Lemma wrote_a_line ids b : ids <> [] -> forallb (fun id => id <? 26) ids = true ->
  encode_record JsonLines (DeleteNode <$> ids) = Ok b -> forallb (fun b => b <? 256) b = true ->
  wrote storable JsonLines None (entry ids) b.
Proof.
  intros Hne Hids He Hb. split; [|split; [done|by apply is_byte_list]]. split; [by destruct ids|].
  split; [|by split]. cbn [entry en_ops]. rewrite forallb_forall in Hids. apply Forall_forall. intros op Hop.
  apply list_elem_of_fmap in Hop as (id & -> & Hid). unfold storable, letter. rewrite Hids by (by apply list_elem_of_In). done.
Qed.

(** Nothing yet; one line and half of another; that line whole. *)
Definition growth : list (list bytes * bytes) := [([], []); ([line [1]], take 3 (line [2; 3])); ([line [2; 3]], [])].
Definition entries : list (list Entry) := [[]; [entry [1]]; [entry [2; 3]]].

Lemma tailer_takes_each_record_once_witness :
  exists t, poll_all (files JsonLines [] growth) new = (t, Ok [DeleteNode 1; DeleteNode 2; DeleteNode 3]).
Proof.
  refine (tailer_takes_each_record_once storable JsonLines growth entries _ _); [done|].
  assert (H1 : wrote storable JsonLines None (entry [1]) (line [1])) by (by apply wrote_a_line; vm_compute).
  assert (H2 : wrote storable JsonLines None (entry [2; 3]) (line [2; 3])) by (by apply wrote_a_line; vm_compute).
  apply Forall2_cons; split; [split; [apply Forall2_nil_2|by left]|].
  apply Forall2_cons; split; [|apply Forall2_cons; split; [split; [|by left]|apply Forall2_nil_2]].
  - split; [apply Forall2_cons; split; [exact H1|apply Forall2_nil_2]|].
    right. exists (entry [2; 3]), (line [2; 3]), 3%nat. split; [exact H2|split; [vm_compute; lia|done]].
  - apply Forall2_cons; split; [exact H2|apply Forall2_nil_2].
Defined.

(** The primary compacts its log, which now begins with other records; the tailer
    reads on from where it was, and neither the log's new records nor the loss
    shows. *)
Theorem compaction_misleads_tailer :
  let before := line [1] ++ line [1] ++ line [2] in let compacted := line [2] ++ line [3] in
  let '(t, taken) := poll (Some before) new in
  taken = Ok [DeleteNode 1; DeleteNode 1; DeleteNode 2] /\ snd (poll (Some compacted) t) = Ok [] /\
  snd (poll (Some (compacted ++ line [4; 5])) t) = Ok [].
Proof. vm_compute. repeat split. Qed.
End TailerExample.
