(* ===== verification/CypherLexer.v ===== *)
(** * The Cypher lexer
    ([src/src/cypher/lexer.rs])

    A source is the list of its characters, each a Unicode scalar value; offsets
    of spans count the bytes of their UTF-8 encodings.  Numbers are read as
    [str::parse] does: an [i64], or the double nearest to the decimal.

    Unicode's tables of letters, digits and upper case, and the texts [Display]
    prints for doubles, are the class [Chars]. *)
From Stdlib Require Import SpecFloat Ascii.
From S2P Require Import Prelude.
Local Open Scope list_scope.
Local Open Scope N_scope.

Abbreviation text := (list N) (only parsing).
Definition ch (a : Ascii.ascii) : N := Ascii.N_of_ascii a.
Arguments ch a%_char_scope : simpl never.
Definition lit (s : string) : text := ch <$> String.list_ascii_of_string s.
Arguments lit s%_string_scope : simpl never.

(** ** Characters *)
Definition within (lo hi c : N) : bool := (lo <=? c) && (c <=? hi).
Definition is_ascii_digit (c : N) : bool := within 48 57 c.
Definition is_ascii_hexdigit (c : N) : bool := within 48 57 c || within 65 70 c || within 97 102 c.
Definition is_octal_digit (c : N) : bool := within 48 55 c.
Definition to_ascii_uppercase (c : N) : N := if within 97 122 c then c - 32 else c.
Definition is_ascii_letter (c : N) : bool := within 65 90 c || within 97 122 c.

(** [char::is_whitespace]: Unicode's [White_Space]. *)
Definition is_whitespace (c : N) : bool :=
  within 9 13 c || (c =? 32) || (c =? 133) || (c =? 160) || (c =? 5760) || within 8192 8202 c
  || (c =? 8232) || (c =? 8233) || (c =? 8239) || (c =? 8287) || (c =? 12288).

(** [char::len_utf8], and the bytes of a text. *)
Definition len_utf8 (c : N) : N := if c <? 128 then 1 else if c <? 2048 then 2 else if c <? 65536 then 3 else 4.
Definition text_len (t : text) : N := foldr (fun c n => len_utf8 c + n) 0 t.

(** [char::from_u32]. *)
Definition is_scalar (c : N) : bool := (c <? 55296) || within 57344 1114111 c.
Definition from_u32 (c : N) : option N := if is_scalar c then Some c else None.

Class Chars : Type := {
  is_alphabetic : N -> bool;
  is_numeric : N -> bool;
  is_printable : N -> bool;
  float_text : spec_float -> text;
  to_uppercase : text -> text;
}.
Class CharsLaws `{!Chars} : Prop := {
  ascii_alphabetic c : c < 128 -> is_alphabetic c = is_ascii_letter c;
  ascii_numeric c : c < 128 -> is_numeric c = is_ascii_digit c;
  letters_not_space c : is_alphabetic c = true -> is_whitespace c = false;
}.

(** ** Tokens *)
Record Span : Type := mkSpan { start : N; stop : N; sp_line : N; sp_column : N }.

Module TokenKind.
Inductive t : Type :=
| Integer (n : Z) | Float (x : spec_float) | String (s : text) | True | False | Null
| Identifier (s : text) | Param (s : text)
| Match | Optional | Create | Merge | Delete | Detach | Set_ | Remove | Where | Return | With | Order | By
| Asc | Desc | Limit | Skip | Union | All | As | Distinct | Unwind | Call | Yield | Foreach | On
| And | Or | Xor | Not | In | Is | Starts | Ends | Contains | Exists | Case | When | Then | Else | End_
| Eq | Ne | Lt | Le | Gt | Ge | RegexMatch
| Plus | Minus | Star | Slash | Percent | Caret | Bang | Ampersand | Dot | DotDot
| Arrow | LArrow | Pipe | Colon | LParen | RParen | LBracket | RBracket | LBrace | RBrace | Comma | Semicolon
| Eof.
End TokenKind.
Import (notations) TokenKind.
Abbreviation TokenKind := TokenKind.t.

Record Token : Type := mkToken { kind : TokenKind; span : Span }.

(** The words of [keyword_or_identifier]. *)
Definition keywords : list (string * TokenKind) :=
  [("MATCH", TokenKind.Match); ("OPTIONAL", TokenKind.Optional); ("CREATE", TokenKind.Create);
   ("MERGE", TokenKind.Merge); ("DELETE", TokenKind.Delete); ("DETACH", TokenKind.Detach);
   ("SET", TokenKind.Set_); ("REMOVE", TokenKind.Remove); ("WHERE", TokenKind.Where);
   ("RETURN", TokenKind.Return); ("WITH", TokenKind.With); ("ORDER", TokenKind.Order); ("BY", TokenKind.By);
   ("ASC", TokenKind.Asc); ("ASCENDING", TokenKind.Asc); ("DESC", TokenKind.Desc); ("DESCENDING", TokenKind.Desc);
   ("LIMIT", TokenKind.Limit); ("SKIP", TokenKind.Skip); ("UNION", TokenKind.Union); ("ALL", TokenKind.All);
   ("AS", TokenKind.As); ("DISTINCT", TokenKind.Distinct); ("UNWIND", TokenKind.Unwind);
   ("CALL", TokenKind.Call); ("YIELD", TokenKind.Yield); ("FOREACH", TokenKind.Foreach); ("ON", TokenKind.On);
   ("AND", TokenKind.And); ("OR", TokenKind.Or); ("XOR", TokenKind.Xor); ("NOT", TokenKind.Not);
   ("IN", TokenKind.In); ("IS", TokenKind.Is); ("STARTS", TokenKind.Starts); ("ENDS", TokenKind.Ends);
   ("CONTAINS", TokenKind.Contains); ("EXISTS", TokenKind.Exists); ("CASE", TokenKind.Case);
   ("WHEN", TokenKind.When); ("THEN", TokenKind.Then); ("ELSE", TokenKind.Else); ("END", TokenKind.End_);
   ("TRUE", TokenKind.True); ("FALSE", TokenKind.False); ("NULL", TokenKind.Null)]%string.

Fixpoint lookup_word (t : text) (words : list (string * TokenKind)) : option TokenKind :=
  match words with
  | [] => None
  | (w, k) :: words => if bool_decide (t = lit w) then Some k else lookup_word t words
  end.

Definition keyword_or_identifier (raw : text) : TokenKind :=
  default (TokenKind.Identifier raw) (lookup_word (to_ascii_uppercase <$> raw) keywords).

Definition is_keyword (k : TokenKind) : bool :=
  match k with
  | TokenKind.Match | TokenKind.Optional | TokenKind.Create | TokenKind.Merge | TokenKind.Delete | TokenKind.Detach
  | TokenKind.Set_ | TokenKind.Remove | TokenKind.Where | TokenKind.Return | TokenKind.With | TokenKind.Order
  | TokenKind.By | TokenKind.Asc | TokenKind.Desc | TokenKind.Limit | TokenKind.Skip | TokenKind.Union
  | TokenKind.All | TokenKind.As | TokenKind.Distinct | TokenKind.Unwind | TokenKind.Call | TokenKind.Yield
  | TokenKind.Foreach | TokenKind.On | TokenKind.And | TokenKind.Or | TokenKind.Xor | TokenKind.Not
  | TokenKind.In | TokenKind.Is | TokenKind.Starts | TokenKind.Ends | TokenKind.Contains | TokenKind.Exists
  | TokenKind.Case | TokenKind.When | TokenKind.Then | TokenKind.Else | TokenKind.End_ | TokenKind.True
  | TokenKind.False | TokenKind.Null => true
  | _ => false
  end.

Definition names_a_variable (k : TokenKind) : bool :=
  match k with
  | TokenKind.Starts | TokenKind.Ends | TokenKind.Contains | TokenKind.In | TokenKind.Is | TokenKind.On
  | TokenKind.By | TokenKind.Asc | TokenKind.Desc | TokenKind.And | TokenKind.Or | TokenKind.Xor => true
  | _ => false
  end.

(** ** Errors *)
Inductive LexError : Type :=
| UnterminatedString (sp : Span)
| UnterminatedBacktick (sp : Span)
| UnterminatedBlockComment (sp : Span)
| InvalidEscape (c : N) (sp : Span)
| InvalidUnicodeEscape (sp : Span)
| InvalidParameter (sp : Span)
| InvalidNumber (txt : text) (sp : Span)
| UnexpectedChar (c : N) (sp : Span).

(** [LexError::span]. *)
Definition error_span (e : LexError) : Span :=
  match e with
  | UnterminatedString sp | UnterminatedBacktick sp | UnterminatedBlockComment sp | InvalidEscape _ sp
  | InvalidUnicodeEscape sp | InvalidParameter sp | InvalidNumber _ sp | UnexpectedChar _ sp => sp
  end.

(** ** Numbers in texts *)
Definition digit_value (c : N) : N := if within 48 57 c then c - 48 else if within 97 102 c then c - 87 else c - 55.
Definition digits_value (radix : N) (ds : text) : N := foldl (fun n c => n * radix + digit_value c) 0 ds.

(** [i64::from_str_radix] and [u32::from_str_radix] of digits. *)
Definition from_str_radix (largest radix : N) (ds : text) : option N :=
  match ds with
  | [] => None
  | _ => let n := digits_value radix ds in if n <=? largest then Some n else None
  end.
Definition i64_digits (radix : N) (ds : text) : option Z := Z.of_N <$> from_str_radix (2 ^ 63 - 1) radix ds.

(** The double nearest to [m * 10 ^ e]. *)
Definition nearest (m : N) (e : Z) : spec_float :=
  match m with
  | 0 => S754_zero false
  | Npos p =>
      if (0 <=? e)%Z then binary_normalize 53 1024 (Zpos p * 10 ^ e) 0 false
      else SFdiv 53 1024 (S754_finite false p 0) (S754_finite false (10 ^ Z.to_pos (- e)) 0)
  end.

Fixpoint span_of (p : N -> bool) (t : text) : text * text :=
  match t with
  | c :: r => if p c then let '(a, b) := span_of p r in (c :: a, b) else ([], t)
  | [] => ([], [])
  end.

(** [str::parse::<f64>] of a text that begins with a digit or a point. *)
Definition parse_f64 (t : text) : option spec_float :=
  let '(int, r) := span_of is_ascii_digit t in
  let '(frac, r) := match r with c :: r' => if c =? ch "." then span_of is_ascii_digit r' else ([], r) | [] => ([], r) end in
  match int ++ frac with
  | [] => None
  | m =>
      let value (e : Z) := Some (nearest (digits_value 10 m) (e - Z.of_nat (length frac))) in
      match r with
      | [] => value 0%Z
      | c :: r =>
          if (c =? ch "e") || (c =? ch "E") then
            let '(neg, r) :=
              match r with
              | s :: r' => if s =? ch "-" then (true, r') else if s =? ch "+" then (false, r') else (false, r)
              | [] => (false, r)
              end in
            match span_of is_ascii_digit r with
            | ([], _) | (_, _ :: _) => None
            | (ds, []) => let e := Z.of_N (digits_value 10 ds) in value (if neg then - e else e)%Z
            end
          else None
      end
  end.

(** ** The lexer's state: what is left of the source, and where that begins *)
Record Lexer : Type := mkLexer { rest : text; cursor : N; line : N; column : N }.

(** The line and column counters are [u32]s. *)
Definition wrap_u32 (n : N) : N := n mod 2 ^ 32.

Definition new (source : text) : Lexer := mkLexer source 0 1 1.
Definition peek (s : Lexer) : option N := match rest s with c :: _ => Some c | [] => None end.
Definition peek2 (s : Lexer) : option N := match rest s with _ :: c :: _ => Some c | _ => None end.
Definition next_is (p : N -> bool) (c : option N) : bool := from_option p false c.
Definition peeks (s : Lexer) (a : Ascii.ascii) : bool := next_is (N.eqb (ch a)) (peek s).
Arguments peeks s a%_char_scope.

(** What [advance] returns is never used. *)
Definition advance (s : Lexer) : Lexer :=
  match rest s with
  | [] => s
  | c :: r =>
      if c =? 10 then mkLexer r (cursor s + len_utf8 c) (wrap_u32 (line s + 1)) 1
      else mkLexer r (cursor s + len_utf8 c) (line s) (wrap_u32 (column s + 1))
  end.

(** [while let Some(c) = self.peek() { if p(c) { self.advance(); } else { break; } }]. *)
Fixpoint advance_loop (p : N -> bool) (r : text) (s : Lexer) : Lexer :=
  match r with
  | c :: r => if p c then advance_loop p r (advance s) else s
  | [] => s
  end.
Definition advance_while (p : N -> bool) (s : Lexer) : Lexer := advance_loop p (rest s) s.

(** [&self.source[s.cursor..s'.cursor]]. *)
Definition slice (s s' : Lexer) : text := take (length (rest s) - length (rest s')) (rest s).

(** The span from [s] to [s']. *)
Definition span_from (s s' : Lexer) : Span := mkSpan (cursor s) (cursor s') (line s) (column s).
Definition span_of_len (s : Lexer) (n : N) : Span := mkSpan (cursor s) (cursor s + n) (line s) (column s).

(** The inner loop of a block comment, up to its end. *)
Fixpoint skip_block (r : text) (s : Lexer) : option Lexer :=
  match r with
  | [] => None
  | c :: r =>
      if (c =? ch "*") && next_is (N.eqb (ch "/")) (peek2 s) then Some (advance (advance s))
      else skip_block r (advance s)
  end.

(** Fallible steps of the lexer; [None] when the fuel has run out. *)
Definition Lexed (A : Type) : Type := option (result LexError A).
Definition lexed_bind {A B} (m : Lexed A) (f : A -> Lexed B) : Lexed B :=
  match m with
  | Some (Ok a) => f a
  | Some (Err e) => Some (Err e)
  | None => None
  end.
Notation "'lex!' x := m 'in' k" := (lexed_bind m (fun x => k))
  (at level 10, x pattern, m at level 100, k at level 200).

Fixpoint skip_trivia_loop (fuel : nat) (s : Lexer) : Lexed Lexer :=
  match fuel with
  | O => None
  | S fuel =>
      if next_is is_whitespace (peek s) then skip_trivia_loop fuel (advance s)
      else if peeks s "/" && next_is (N.eqb (ch "/")) (peek2 s) then
        skip_trivia_loop fuel (advance_while (fun c => negb (c =? 10)) s)
      else if peeks s "/" && next_is (N.eqb (ch "*")) (peek2 s) then
        let s' := advance (advance s) in
        match skip_block (rest s') s' with
        | None => Some (Err (UnterminatedBlockComment (span_of_len s 2)))
        | Some s' => skip_trivia_loop fuel s'
        end
      else Some (Ok s)
  end.
Definition skip_trivia (s : Lexer) : Lexed Lexer := skip_trivia_loop (S (length (rest s))) s.

(** Tokens of one character, whatever follows. *)
Definition punctuation : list (N * TokenKind) :=
  [(ch "(", TokenKind.LParen); (ch ")", TokenKind.RParen); (ch "[", TokenKind.LBracket);
   (ch "]", TokenKind.RBracket); (ch "{", TokenKind.LBrace); (ch "}", TokenKind.RBrace);
   (ch ",", TokenKind.Comma); (ch ";", TokenKind.Semicolon); (ch ":", TokenKind.Colon);
   (ch "|", TokenKind.Pipe); (ch "+", TokenKind.Plus); (ch "*", TokenKind.Star);
   (ch "/", TokenKind.Slash); (ch "%", TokenKind.Percent); (ch "!", TokenKind.Bang);
   (ch "&", TokenKind.Ampersand); (ch "^", TokenKind.Caret)].

Fixpoint lookup_char {A} (c : N) (l : list (N * A)) : option A :=
  match l with
  | [] => None
  | (d, a) :: l => if c =? d then Some a else lookup_char c l
  end.

(** Tokens of one character, or of two if a second one follows. *)
Definition operators : list (N * (TokenKind * list (N * TokenKind))) :=
  [(ch "-", (TokenKind.Minus, [(ch ">", TokenKind.Arrow)]));
   (ch "<", (TokenKind.Lt, [(ch "=", TokenKind.Le); (ch ">", TokenKind.Ne); (ch "-", TokenKind.LArrow)]));
   (ch ">", (TokenKind.Gt, [(ch "=", TokenKind.Ge)]));
   (ch "=", (TokenKind.Eq, [(ch "~", TokenKind.RegexMatch)]))].

(** The characters an escape of one letter stands for. *)
Definition escapes : list (N * N) :=
  [(92, 92); (39, 39); (34, 34); (ch "n", 10); (ch "r", 13); (ch "t", 9); (ch "b", 8); (ch "f", 12);
   (ch "0", 0); (ch "`", ch "`")].

Section lexer.
Context {chars : Chars}.

Definition is_alphanumeric (c : N) : bool := is_alphabetic c || is_numeric c.
Definition is_identifier_start (c : N) : bool := (c =? ch "_") || is_alphabetic c.
Definition is_identifier_continue (c : N) : bool := (c =? ch "_") || is_alphanumeric c.

Definition read_identifier_or_keyword (s : Lexer) : TokenKind * Lexer :=
  let s' := advance_while is_identifier_continue s in (keyword_or_identifier (slice s s'), s').

(** After the opening backtick; [value] is what was read so far. *)
Fixpoint backtick_loop (r : text) (value : text) (s : Lexer) : option (text * Lexer) :=
  match r with
  | [] => None
  | c :: r =>
      if c =? ch "`" then
        match r with
        | d :: r => if d =? ch "`" then backtick_loop r (value ++ [ch "`"]) (advance (advance s)) else Some (value, advance s)
        | [] => Some (value, advance s)
        end
      else backtick_loop r (value ++ [c]) (advance s)
  end.
Definition read_backtick_identifier (s : Lexer) : result LexError (text * Lexer) :=
  let s' := advance s in
  ok_or (UnterminatedBacktick (span_of_len s 1)) (backtick_loop (rest s') [] s').

Definition read_parameter (s : Lexer) : result LexError (TokenKind * Lexer) :=
  let s' := advance s in
  if next_is is_ascii_digit (peek s') then
    let s'' := advance_while is_ascii_digit s' in Ok (TokenKind.Param (slice s' s''), s'')
  else if peeks s' "`" then
    match read_backtick_identifier s' with
    | Ok (name, s'') => Ok (TokenKind.Param name, s'')
    | Err e => Err e
    end
  else if next_is is_identifier_start (peek s') then
    let s'' := advance_while is_identifier_continue s' in Ok (TokenKind.Param (slice s' s''), s'')
  else Err (InvalidParameter (span_from s s')).

(** [n] hexadecimal digits: the state after them, or at the first that is
    missing. *)
Fixpoint hex_digits (n : nat) (s : Lexer) : result Lexer Lexer :=
  match n with
  | O => Ok s
  | S n => if next_is is_ascii_hexdigit (peek s) then hex_digits n (advance s) else Err s
  end.

(** [esc] is the state before the backslash, [s] the one after the [u]. *)
Definition read_unicode_escape (esc s : Lexer) : result LexError (N * Lexer) :=
  let code (digits : text) (s : Lexer) :=
    match from_str_radix (2 ^ 32 - 1) 16 digits ≫= from_u32 with
    | Some c => Ok (c, s)
    | None => Err (InvalidUnicodeEscape (span_from esc s))
    end in
  if peeks s "{" then
    let s := advance s in
    let s' := advance_while is_ascii_hexdigit s in
    let digits := slice s s' in
    if bool_decide (digits = []) || negb (peeks s' "}") then Err (InvalidUnicodeEscape (span_from esc s'))
    else code digits (advance s')
  else
    match hex_digits 4 s with
    | Err s' => Err (InvalidUnicodeEscape (span_from esc s'))
    | Ok s' => code (slice s s') s'
    end.

(** [s0] is the state before the opening quote. *)
Fixpoint string_loop (fuel : nat) (s0 : Lexer) (quote : N) (value : text) (s : Lexer) : Lexed (text * Lexer) :=
  match fuel with
  | O => None
  | S fuel =>
      match peek s with
      | None => Some (Err (UnterminatedString (span_of_len s0 1)))
      | Some c =>
          if c =? quote then Some (Ok (value, advance s))
          else if c =? 92 then
            let s' := advance s in
            match peek s' with
            | None => Some (Err (UnterminatedString (span_of_len s0 1)))
            | Some e =>
                match lookup_char e escapes with
                | Some v => string_loop fuel s0 quote (value ++ [v]) (advance s')
                | None =>
                    if e =? ch "u" then
                      match read_unicode_escape s (advance s') with
                      | Ok (v, s') => string_loop fuel s0 quote (value ++ [v]) s'
                      | Err e => Some (Err e)
                      end
                    else Some (Err (InvalidEscape e (mkSpan (cursor s) (cursor s' + len_utf8 e) (line s) (column s))))
                end
            end
          else string_loop fuel s0 quote (value ++ [c]) (advance s)
      end
  end.
Definition read_string (quote : N) (s : Lexer) : Lexed (text * Lexer) :=
  let s' := advance s in string_loop (S (length (rest s'))) s quote [] s'.

(** An integer in another radix, after its two-character mark. *)
Definition read_radix (radix : N) (digit : N -> bool) (s : Lexer) : result LexError (TokenKind * Lexer) :=
  let s1 := advance (advance s) in
  let s' := advance_while digit s1 in
  match i64_digits radix (slice s1 s') with
  | Some n => Ok (TokenKind.Integer n, s')
  | None => Err (InvalidNumber (slice s s') (span_from s s'))
  end.

(** The fractional part after the digits from [s] to [s1], and whether there is
    one; a point that begins [..] is left. *)
Definition read_fraction (s s1 : Lexer) : Lexer * bool :=
  if peeks s1 "." && negb (next_is (N.eqb (ch ".")) (peek2 s1)) then (advance_while is_ascii_digit (advance s1), true)
  else if (cursor s1 =? cursor s) && peeks s1 "." then (advance_while is_ascii_digit (advance s1), true)
  else (s1, false).

(** The exponent; without digits, the cursor goes back. *)
Definition read_exponent (s : Lexer) (is_float : bool) : Lexer * bool :=
  if peeks s "e" || peeks s "E" then
    let e := advance s in
    let e := if peeks e "+" || peeks e "-" then advance e else e in
    let e' := advance_while is_ascii_digit e in
    if cursor e' =? cursor e then (s, is_float) else (e', true)
  else (s, is_float).

Definition read_number (s : Lexer) : result LexError (TokenKind * Lexer) :=
  if peeks s "0" && next_is (fun c => (c =? ch "x") || (c =? ch "X")) (peek2 s) then read_radix 16 is_ascii_hexdigit s
  else if peeks s "0" && next_is (fun c => (c =? ch "o") || (c =? ch "O")) (peek2 s) then read_radix 8 is_octal_digit s
  else
    let s1 := advance_while is_ascii_digit s in
    let '(s2, is_float) := read_fraction s s1 in
    let '(s3, is_float) := read_exponent s2 is_float in
    let txt := slice s s3 in
    match (if is_float then TokenKind.Float <$> parse_f64 txt else TokenKind.Integer <$> i64_digits 10 txt) with
    | Some k => Ok (k, s3)
    | None => Err (InvalidNumber txt (span_from s s3))
    end.

(** A token of one character, or of two if [second] follows. *)
Definition one_or_two (s : Lexer) (one : TokenKind) (second : list (N * TokenKind)) : TokenKind * Lexer :=
  let s' := advance s in
  match peek s' ≫= (fun c => lookup_char c second) with
  | Some two => (two, advance s')
  | None => (one, s')
  end.

Definition next_kind (s : Lexer) (c : N) : Lexed (TokenKind * Lexer) :=
  match lookup_char c punctuation with
  | Some k => Some (Ok (k, advance s))
  | None =>
      match lookup_char c operators with
      | Some (one, second) => Some (Ok (one_or_two s one second))
      | None =>
      if c =? ch "." then
        if next_is is_ascii_digit (peek2 s) then Some (read_number s)
        else Some (Ok (one_or_two s TokenKind.Dot [(ch ".", TokenKind.DotDot)]))
      else if (c =? 39) || (c =? 34) then
        lex! (v, s') := read_string c s in Some (Ok (TokenKind.String v, s'))
      else if c =? ch "`" then
        Some (match read_backtick_identifier s with Ok (v, s') => Ok (TokenKind.Identifier v, s') | Err e => Err e end)
      else if c =? ch "$" then Some (read_parameter s)
      else if is_ascii_digit c then Some (read_number s)
      else if is_identifier_start c then Some (Ok (read_identifier_or_keyword s))
      else Some (Err (UnexpectedChar c (span_from s (advance s))))
      end
  end.

Definition next_token (s : Lexer) : Lexed (option Token * Lexer) :=
  lex! s := skip_trivia s in
  match peek s with
  | None => Some (Ok (None, s))
  | Some c => lex! (k, s') := next_kind s c in Some (Ok (Some (mkToken k (span_from s s')), s'))
  end.

Fixpoint tokenize_loop (fuel : nat) (tokens : list Token) (s : Lexer) : Lexed (list Token * Lexer) :=
  match fuel with
  | O => None
  | S fuel =>
      lex! (tok, s) := next_token s in
      match tok with
      | Some tok => tokenize_loop fuel (tokens ++ [tok]) s
      | None => Some (Ok (tokens, s))
      end
  end.

Definition tokenize (source : text) : Lexed (list Token) :=
  lex! (tokens, s) := tokenize_loop (S (length source)) [] (new source) in
  Some (Ok (tokens ++ [mkToken TokenKind.Eof (mkSpan (text_len source) (text_len source) (line s) (column s))])).

(** ** [impl Display for TokenKind] *)
Fixpoint digits_of (fuel : nat) (radix n : N) (acc : text) : text :=
  match fuel with
  | O => acc
  | S fuel =>
      let d := n mod radix in
      let acc := (if d <? 10 then 48 + d else 87 + d) :: acc in
      if n <? radix then acc else digits_of fuel radix (n / radix) acc
  end.
Definition number_text (radix n : N) : text := digits_of (S (N.to_nat (N.log2 n))) radix n [].
Definition integer_text (z : Z) : text := if (z <? 0)%Z then ch "-" :: number_text 10 (Z.abs_N z) else number_text 10 (Z.abs_N z).

(** [{s:?}] of a [str]. *)
Definition escape_debug (c : N) : text :=
  if c =? 0 then lit "\0"
  else if c =? 9 then lit "\t"
  else if c =? 13 then lit "\r"
  else if c =? 10 then lit "\n"
  else if c =? 92 then [92; 92]
  else if c =? 34 then [92; 34]
  else if is_printable c then [c]
  else lit "\u{" ++ number_text 16 c ++ lit "}".
Definition string_debug (s : text) : text := 34 :: concat (escape_debug <$> s) ++ [34].

Definition fmt (k : TokenKind) : text :=
  match k with
  | TokenKind.Integer n => integer_text n
  | TokenKind.Float x => float_text x
  | TokenKind.String s => string_debug s
  | TokenKind.Identifier s => s
  | TokenKind.Param s => ch "$" :: s
  | TokenKind.Match => lit "MATCH" | TokenKind.Optional => lit "OPTIONAL" | TokenKind.Create => lit "CREATE"
  | TokenKind.Merge => lit "MERGE" | TokenKind.Delete => lit "DELETE" | TokenKind.Detach => lit "DETACH"
  | TokenKind.Set_ => lit "SET" | TokenKind.Remove => lit "REMOVE" | TokenKind.Where => lit "WHERE"
  | TokenKind.Return => lit "RETURN" | TokenKind.With => lit "WITH" | TokenKind.Order => lit "ORDER"
  | TokenKind.By => lit "BY" | TokenKind.Asc => lit "ASC" | TokenKind.Desc => lit "DESC"
  | TokenKind.Limit => lit "LIMIT" | TokenKind.Skip => lit "SKIP" | TokenKind.Union => lit "UNION"
  | TokenKind.All => lit "ALL" | TokenKind.As => lit "AS" | TokenKind.Distinct => lit "DISTINCT"
  | TokenKind.Unwind => lit "UNWIND" | TokenKind.Call => lit "CALL" | TokenKind.Yield => lit "YIELD"
  | TokenKind.Foreach => lit "FOREACH" | TokenKind.On => lit "ON" | TokenKind.And => lit "AND"
  | TokenKind.Or => lit "OR" | TokenKind.Xor => lit "XOR" | TokenKind.Not => lit "NOT" | TokenKind.In => lit "IN"
  | TokenKind.Is => lit "IS" | TokenKind.Starts => lit "STARTS" | TokenKind.Ends => lit "ENDS"
  | TokenKind.Contains => lit "CONTAINS" | TokenKind.Exists => lit "EXISTS" | TokenKind.Case => lit "CASE"
  | TokenKind.When => lit "WHEN" | TokenKind.Then => lit "THEN" | TokenKind.Else => lit "ELSE"
  | TokenKind.End_ => lit "END" | TokenKind.True => lit "TRUE" | TokenKind.False => lit "FALSE"
  | TokenKind.Null => lit "NULL"
  | TokenKind.Eq => lit "=" | TokenKind.Ne => lit "<>" | TokenKind.Lt => lit "<" | TokenKind.Le => lit "<="
  | TokenKind.Gt => lit ">" | TokenKind.Ge => lit ">=" | TokenKind.RegexMatch => lit "=~"
  | TokenKind.Plus => lit "+" | TokenKind.Minus => lit "-" | TokenKind.Star => lit "*" | TokenKind.Slash => lit "/"
  | TokenKind.Percent => lit "%" | TokenKind.Caret => lit "^" | TokenKind.Bang => lit "!"
  | TokenKind.Ampersand => lit "&" | TokenKind.Dot => lit "." | TokenKind.DotDot => lit ".."
  | TokenKind.Arrow => lit "->" | TokenKind.LArrow => lit "<-" | TokenKind.Pipe => lit "|"
  | TokenKind.Colon => lit ":" | TokenKind.LParen => lit "(" | TokenKind.RParen => lit ")"
  | TokenKind.LBracket => lit "[" | TokenKind.RBracket => lit "]" | TokenKind.LBrace => lit "{"
  | TokenKind.RBrace => lit "}" | TokenKind.Comma => lit "," | TokenKind.Semicolon => lit ";"
  | TokenKind.Eof => lit "<eof>"
  end.
End lexer.
