(* ===== verification/CypherTokens.v ===== *)
(** * What the Cypher lexer reads

    The lexical grammar of a source, declared: what may stand between tokens
    ([trivia]), how each kind of token is spelled and what may follow it
    ([spells]), and the tokens of a source with their places ([tokens_of]).

    - [tokenize_exact]: the lexer finds exactly the tokens of the grammar, and
      places them where they are;
    - [lex_error_located]: it always answers, and an error names a piece of the
      source;
    - [printed_tokens_read_back]: tokens that were printed are read back. *)
From Stdlib Require Import SpecFloat Ascii.
From S2P Require Import Prelude CypherLexer.
Local Open Scope list_scope.
Local Open Scope N_scope.

(** ** The grammar *)
Definition starts_with (p : N -> bool) (t : text) : bool := match t with c :: _ => p c | [] => false end.

(** What may stand between tokens, [after] being the source behind it. *)
Inductive trivia (after : text) : text -> Prop :=
| trivia_nil : trivia after []
| trivia_space c t : is_whitespace c = true -> trivia after t -> trivia after (c :: t)
| trivia_line l t : 10 ∉ l -> starts_with (fun c => negb (c =? 10)) (t ++ after) = false -> trivia after t ->
    trivia after (lit "//" ++ l ++ t)
| trivia_block b t : (forall x y, b ++ lit "*" <> x ++ lit "*/" ++ y) -> trivia after t ->
    trivia after (lit "/*" ++ b ++ lit "*/" ++ t).

Definition trivia_start (t : text) : bool :=
  match t with
  | c :: d :: _ => is_whitespace c || (c =? ch "/") && ((d =? ch "/") || (d =? ch "*"))
  | [c] => is_whitespace c
  | [] => false
  end.

(** The bodies of quoted names and of strings, and what they stand for. *)
Fixpoint double_backticks (v : text) : text :=
  match v with
  | [] => []
  | c :: v => if c =? ch "`" then c :: c :: double_backticks v else c :: double_backticks v
  end.

Inductive escape : text -> N -> Prop :=
| escape_letter e c : lookup_char e escapes = Some c -> escape [e] c
| escape_braces ds c : Forall (fun d => is_ascii_hexdigit d = true) ds ->
    from_str_radix (2 ^ 32 - 1) 16 ds ≫= from_u32 = Some c -> escape (lit "u{" ++ ds ++ lit "}") c
| escape_four ds c : length ds = 4%nat -> Forall (fun d => is_ascii_hexdigit d = true) ds ->
    from_str_radix (2 ^ 32 - 1) 16 ds ≫= from_u32 = Some c -> escape (ch "u" :: ds) c.

Inductive string_body (quote : N) : text -> text -> Prop :=
| body_nil : string_body quote [] []
| body_char c b v : c <> quote -> c <> 92 -> string_body quote b v -> string_body quote (c :: b) (c :: v)
| body_escape e c b v : escape e c -> string_body quote b v -> string_body quote (92 :: e ++ b) (c :: v).

(** A decimal number and whether it is a float. *)
Definition exponent_start (t : text) : bool :=
  match t with
  | e :: t => ((e =? ch "e") || (e =? ch "E")) &&
      match t with
      | s :: t' => if (s =? ch "+") || (s =? ch "-") then starts_with is_ascii_digit t' else is_ascii_digit s
      | [] => false
      end
  | [] => false
  end.
Definition all_digits (t : text) : Prop := Forall (fun c => is_ascii_digit c = true) t.
Definition fraction_start (t : text) : bool :=
  starts_with (N.eqb (ch ".")) t && negb (starts_with (N.eqb (ch ".")) (tail t)).

Definition radix_mark (t : text) : bool :=
  match t with
  | c :: x :: _ => (c =? ch "0") && ((x =? ch "x") || (x =? ch "X") || (x =? ch "o") || (x =? ch "O"))
  | _ => false
  end.

Inductive fraction (int : text) : text -> text -> Prop :=
| no_fraction after : int <> [] -> fraction_start after = false -> fraction int [] after
| point ds after : all_digits ds -> int <> [] \/ ds <> [] -> fraction_start (ch "." :: ds ++ after) = true ->
    starts_with is_ascii_digit after = false -> fraction int (ch "." :: ds) after.

Inductive exponent : text -> text -> Prop :=
| no_exponent after : exponent_start after = false -> exponent [] after
| an_exponent e sign ds after : e = ch "e" \/ e = ch "E" -> sign ∈ [[]; lit "+"; lit "-"] -> all_digits ds -> ds <> [] ->
    starts_with is_ascii_digit after = false -> exponent (e :: sign ++ ds) after.

Inductive decimal : text -> bool -> text -> Prop :=
| a_decimal int frac exp after : all_digits int -> starts_with is_ascii_digit (frac ++ exp ++ after) = false ->
    fraction int frac (exp ++ after) -> exponent exp after -> radix_mark (int ++ frac ++ exp ++ after) = false ->
    decimal (int ++ frac ++ exp) (negb (bool_decide (frac = [] /\ exp = []))) after.

Section grammar.
Context {chars : Chars}.

Definition is_name (t : text) : Prop :=
  starts_with is_identifier_start t = true /\ Forall (fun c => is_identifier_continue c = true) t.

(** [spells k t after]: [t], with [after] behind it, is a token of kind [k]. *)
Inductive spells : TokenKind -> text -> text -> Prop :=
| spells_punctuation c k after : lookup_char c punctuation = Some k -> trivia_start (c :: after) = false ->
    spells k [c] after
| spells_one c k second after : lookup_char c operators = Some (k, second) ->
    (match after with d :: _ => lookup_char d second | [] => None end) = None -> spells k [c] after
| spells_two c k second d k' after : lookup_char c operators = Some (k, second) -> lookup_char d second = Some k' ->
    spells k' [c; d] after
| spells_dot after : starts_with (fun d => is_ascii_digit d || (d =? ch ".")) after = false ->
    spells TokenKind.Dot [ch "."] after
| spells_dot_dot after : spells TokenKind.DotDot (lit "..") after
| spells_word t after : is_name t -> starts_with is_identifier_continue after = false ->
    spells (keyword_or_identifier t) t after
| spells_quoted v after : starts_with (N.eqb (ch "`")) after = false ->
    spells (TokenKind.Identifier v) (lit "`" ++ double_backticks v ++ lit "`") after
| spells_number_parameter ds after : all_digits ds -> ds <> [] -> starts_with is_ascii_digit after = false ->
    spells (TokenKind.Param ds) (lit "$" ++ ds) after
| spells_parameter t after : is_name t -> starts_with is_identifier_continue after = false ->
    spells (TokenKind.Param t) (lit "$" ++ t) after
| spells_quoted_parameter v after : starts_with (N.eqb (ch "`")) after = false ->
    spells (TokenKind.Param v) (lit "$`" ++ double_backticks v ++ lit "`") after
| spells_string q b v after : q ∈ [39; 34] -> string_body q b v -> spells (TokenKind.String v) (q :: b ++ [q]) after
| spells_hex x ds n after : x ∈ [ch "x"; ch "X"] -> Forall (fun c => is_ascii_hexdigit c = true) ds ->
    starts_with is_ascii_hexdigit after = false -> i64_digits 16 ds = Some n ->
    spells (TokenKind.Integer n) (ch "0" :: x :: ds) after
| spells_octal x ds n after : x ∈ [ch "o"; ch "O"] -> Forall (fun c => is_octal_digit c = true) ds ->
    starts_with is_octal_digit after = false -> i64_digits 8 ds = Some n ->
    spells (TokenKind.Integer n) (ch "0" :: x :: ds) after
| spells_integer t n after : decimal t false after -> i64_digits 10 t = Some n ->
    spells (TokenKind.Integer n) t after
| spells_float t x after : decimal t true after -> parse_f64 t = Some x -> spells (TokenKind.Float x) t after.

(** Where the text behind [p] begins, and the span of [t] there. *)
Definition line_at (p : text) : N := wrap_u32 (1 + N.of_nat (length (filter (fun c => c = 10) p))).
Definition column_at (p : text) : N :=
  wrap_u32 (1 + foldl (fun n c => if c =? 10 then 0 else n + 1) 0 p).
Definition span_at (p t : text) : Span := mkSpan (text_len p) (text_len p + text_len t) (line_at p) (column_at p).

(** The tokens of the source from [p] on. *)
Inductive tokens_of : text -> text -> list Token -> Prop :=
| tokens_end p tr : trivia [] tr -> tokens_of p tr [mkToken TokenKind.Eof (span_at (p ++ tr) [])]
| tokens_next p tr k t after toks : trivia (t ++ after) tr -> spells k t after ->
    tokens_of (p ++ tr ++ t) after toks ->
    tokens_of p (tr ++ t ++ after) (mkToken k (span_at (p ++ tr) t) :: toks).
End grammar.

(** ** Moving over the source *)
Definition over (t : text) (s : Lexer) : Lexer := foldl (fun s _ => advance s) s t.

(** [s'] is the state after [t] was read from [s]. *)
Definition consumes (s : Lexer) (t : text) (s' : Lexer) : Prop := rest s = t ++ rest s' /\ s' = over t s.

Lemma advance_rest s c r : rest s = c :: r -> rest (advance s) = r.
Proof. unfold advance. intros ->. by destruct (c =? 10). Qed.

Lemma over_rest t s r : rest s = t ++ r -> rest (over t s) = r.
Proof. revert s. induction t as [|c t IH]; intros s H; [done|]. cbn. apply IH. by apply (advance_rest _ c). Qed.

Lemma over_consumes t s r : rest s = t ++ r -> consumes s t (over t s).
Proof. intros H. split; [|done]. by rewrite (over_rest t s r). Qed.

Lemma over_app a b s : over (a ++ b) s = over b (over a s).
Proof. apply foldl_app. Qed.
Lemma consumes_nil s : consumes s [] s.
Proof. done. Qed.
Lemma consumes_one s c r : rest s = c :: r -> consumes s [c] (advance s).
Proof. intros H. by apply (over_consumes [c] s r). Qed.
Lemma consumes_app s t s' t' s'' : consumes s t s' -> consumes s' t' s'' -> consumes s (t ++ t') s''.
Proof. intros [H1 ->] [H2 ->]. split; [by rewrite H1, H2, app_assoc|]. unfold over. by rewrite foldl_app. Qed.
Lemma consumes_cons s c s' t s'' : rest s = c :: rest s' -> s' = advance s -> consumes s' t s'' -> consumes s (c :: t) s''.
Proof. intros H -> Hc. by apply (consumes_app s [c] (advance s) t). Qed.

Lemma slice_consumes s t s' : consumes s t s' -> slice s s' = t.
Proof. intros [H _]. unfold slice. rewrite H, length_app. apply take_app_length'. lia. Qed.

Lemma len_utf8_pos c : 1 <= len_utf8 c.
Proof. unfold len_utf8. repeat case_match; lia. Qed.
Lemma text_len_cons c t : text_len (c :: t) = len_utf8 c + text_len t.
Proof. done. Qed.
Lemma text_len_app a b : text_len (a ++ b) = text_len a + text_len b.
Proof. induction a as [|c a IH]; [done|]. rewrite <- app_comm_cons, !text_len_cons, IH. lia. Qed.
Lemma text_len_zero t : text_len t = 0 -> t = [].
Proof. destruct t as [|c t]; [done|]. rewrite text_len_cons. pose proof (len_utf8_pos c). lia. Qed.

(** [s] stands behind [p] in the source. *)
Definition behind (p : text) (s : Lexer) : Prop :=
  cursor s = text_len p /\ line s = line_at p /\ column s = column_at p.

Lemma behind_new source : behind [] (new source).
Proof. done. Qed.

Lemma behind_advance p s c r : behind p s -> rest s = c :: r -> behind (p ++ [c]) (advance s).
Proof.
  intros (Hc & Hl & Hk) E. unfold advance. rewrite E. unfold behind, line_at, column_at in *.
  rewrite text_len_app, filter_app, length_app, foldl_app. cbn [foldl].
  assert (Hw : forall n, wrap_u32 (wrap_u32 n + 1) = wrap_u32 (n + 1)).
  { intros n. unfold wrap_u32. by rewrite N.Div0.add_mod_idemp_l. }
  destruct (N.eqb_spec c 10) as [->|Hn]; cbn [cursor line column].
  - rewrite (filter_cons_True _ 10 []) by done. cbn [length]. split; [cbn; lia|]. split; [|done].
    rewrite Hl, Hw. f_equal. cbn. lia.
  - rewrite (filter_cons_False _ c []) by done. cbn [length]. split; [rewrite Hc; cbn; lia|]. split.
    + rewrite Hl. f_equal. cbn. lia.
    + rewrite Hk, Hw. f_equal. lia.
Qed.

Lemma behind_over p t s r : behind p s -> rest s = t ++ r -> behind (p ++ t) (over t s).
Proof.
  revert p s. induction t as [|c t IH]; intros p s Hb E; [by rewrite app_nil_r|].
  rewrite cons_middle, app_assoc. apply IH; [by eapply behind_advance|]. by apply (advance_rest _ c).
Qed.

Lemma behind_consumes p s t s' : behind p s -> consumes s t s' -> behind (p ++ t) s'.
Proof. intros Hb [E ->]. by eapply behind_over. Qed.

Lemma behind_span p s t s' : behind p s -> consumes s t s' -> span_from s s' = span_at p t.
Proof.
  intros Hb Hc. destruct (behind_consumes _ _ _ _ Hb Hc) as (E & _). destruct Hb as (Ec & El & Ek).
  unfold span_from, span_at. by rewrite E, Ec, El, Ek, text_len_app.
Qed.

Lemma consumes_cursor s t s' : consumes s t s' -> cursor s' = cursor s + text_len t.
Proof.
  revert s. induction t as [|c t IH]; intros s [E ->]; [cbn; lia|].
  change (over (c :: t) s) with (over t (advance s)) in *.
  assert (Ea : rest (advance s) = t ++ rest (over t (advance s))) by (by eapply advance_rest).
  rewrite (IH (advance s)) by done. unfold advance. rewrite E. cbn [app]. rewrite text_len_cons. destruct (c =? 10); cbn; lia.
Qed.

(** *** [while] loops *)
Lemma advance_while_spec p s : exists t, consumes s t (advance_while p s) /\ Forall (fun c => p c = true) t /\
  starts_with p (rest (advance_while p s)) = false.
Proof.
  unfold advance_while. remember (rest s) as r eqn:E. symmetry in E. revert s E. induction r as [|c r IH]; intros s E; cbn.
  - exists []. split; [done|]. split; [done|]. by rewrite E.
  - destruct (p c) eqn:Hp.
    + destruct (IH (advance s)) as (t & Hc & Ht & Hr); [by eapply advance_rest|].
      exists (c :: t). split; [|by split; [constructor|]]. eapply (consumes_app s [c]); [by eapply consumes_one|done].
    + exists []. split; [done|]. split; [done|]. by rewrite E.
Qed.

Lemma split_unique p t r t' r' : t ++ r = t' ++ r' -> Forall (fun c : N => p c = true) t -> Forall (fun c => p c = true) t' ->
  starts_with p r = false -> starts_with p r' = false -> t = t' /\ r = r'.
Proof.
  revert t'. induction t as [|c t IH]; intros [|c' t'] E Ht Ht' Hr Hr'; cbn in *; subst; try done.
  - inversion Ht' as [|? ? Hc]. cbn in Hr. congruence.
  - inversion Ht as [|? ? Hc]. cbn in Hr'. congruence.
  - injection E as -> E. apply Forall_cons in Ht as [_ Ht], Ht' as [_ Ht']. destruct (IH t') as [-> ->]; try done.
Qed.

Lemma advance_while_eq p s t s' : consumes s t s' -> Forall (fun c => p c = true) t -> starts_with p (rest s') = false ->
  advance_while p s = s'.
Proof.
  intros Hc Ht Hr. destruct (advance_while_spec p s) as (t' & Hc' & Ht' & Hr').
  destruct (split_unique p t' (rest (advance_while p s)) t (rest s')) as [-> _]; try done.
  { by rewrite <- (proj1 Hc), <- (proj1 Hc'). }
  destruct Hc as [_ ->], Hc' as [_ ->]. done.
Qed.

Lemma consumes_split s t t' r : rest s = t ++ t' ++ r -> consumes s t (over t s) /\ consumes (over t s) t' (over t' (over t s)).
Proof.
  intros E. split; [by eapply over_consumes|]. eapply over_consumes. by apply over_rest.
Qed.

(** *** Looking ahead *)
Lemma next_is_peek p s : next_is p (peek s) = starts_with p (rest s).
Proof. unfold peek. by destruct (rest s). Qed.
Lemma next_is_peek2 p s : next_is p (peek2 s) = starts_with p (tail (rest s)).
Proof. unfold peek2. by destruct (rest s) as [|c [|d r]]. Qed.
Lemma peeks_start s a : peeks s a = starts_with (N.eqb (ch a)) (rest s).
Proof. apply next_is_peek. Qed.

Ltac lit_lengths := repeat match goal with
  | H : context [length (lit ?w)] |- _ => let n := eval vm_compute in (length (lit w)) in change (length (lit w)) with n in H
  | |- context [length (lit ?w)] => let n := eval vm_compute in (length (lit w)) in change (length (lit w)) with n
  end.

(** ** Between tokens *)
Lemma close_cons c b x y : c :: b ++ lit "*" = x ++ lit "*/" ++ y ->
  (c = ch "*" /\ starts_with (N.eqb (ch "/")) b = true) \/ (exists x', b ++ lit "*" = x' ++ lit "*/" ++ y).
Proof.
  destruct x as [|c' x]; intros [= -> E].
  - left. split; [done|]. destruct b as [|d b]; [discriminate E|]. cbn [starts_with]. apply N.eqb_eq. symmetry. by apply (f_equal (hd 0)) in E.
  - right. by exists x.
Qed.

Lemma starts_with_app p a b : a <> [] -> starts_with p (a ++ b) = starts_with p a.
Proof. by destruct a. Qed.

Lemma skip_block_some r s s' : rest s = r -> skip_block r s = Some s' ->
  exists b, consumes s (b ++ lit "*/") s' /\ (forall x y, b ++ lit "*" <> x ++ lit "*/" ++ y).
Proof.
  revert s. induction r as [|c r IH]; intros s E; [done|]. cbn [skip_block]. rewrite next_is_peek2, E. cbn [tail].
  destruct ((c =? ch "*") && starts_with (N.eqb (ch "/")) r) eqn:H.
  - intros [= <-]. apply andb_true_iff in H as [->%N.eqb_eq H]. destruct r as [|d r]; [done|]. apply N.eqb_eq in H as <-.
    exists []. split; [by apply (over_consumes (lit "*/") s r)|]. intros [|? [|? ?]] y [=].
  - intros Hs. destruct (IH (advance s)) as (b & Hc & Hb); [by eapply advance_rest|done|].
    exists (c :: b). split; [by eapply (consumes_app s [c]); [eapply consumes_one|]|].
    intros x y [[-> Hs'] | [x' Ex]]%close_cons; [|by apply (Hb x' y)].
    assert (Er : r = b ++ lit "*/" ++ rest s').
    { destruct Hc as [Ec _]. rewrite (advance_rest _ _ _ E) in Ec. by rewrite Ec, <- app_assoc. }
    assert (b <> []) by (by destruct b). rewrite Er, starts_with_app, Hs' in H by done. done.
Qed.

Lemma skip_block_none r s : rest s = r -> skip_block r s = None -> forall b a, r <> b ++ lit "*/" ++ a.
Proof.
  revert s. induction r as [|c r IH]; intros s E; cbn [skip_block]; [by intros _ [|]|].
  rewrite next_is_peek2, E. cbn [tail].
  destruct ((c =? ch "*") && starts_with (N.eqb (ch "/")) r) eqn:H; [done|].
  intros Hs [|c' b] a [= -> Er]; [by subst r|]. by apply (IH (advance s) (advance_rest _ _ _ E) Hs b a).
Qed.

Lemma skip_block_eq b s r : rest s = b ++ lit "*/" ++ r -> (forall x y, b ++ lit "*" <> x ++ lit "*/" ++ y) ->
  skip_block (b ++ lit "*/" ++ r) s = Some (over (b ++ lit "*/") s).
Proof.
  revert s. induction b as [|c b IH]; intros s E Hb.
  { change ([] ++ lit "*/" ++ r) with (ch "*" :: ch "/" :: r). cbn [skip_block]. by rewrite next_is_peek2, E. }
  cbn [skip_block app]. rewrite next_is_peek2, E. cbn [tail app].
  destruct ((c =? ch "*") && starts_with (N.eqb (ch "/")) (b ++ lit "*/" ++ r)) eqn:H.
  - apply andb_true_iff in H as [->%N.eqb_eq H]. destruct b as [|d b]; [done|]. apply N.eqb_eq in H as <-.
    by destruct (Hb [] (b ++ lit "*")).
  - apply (IH (advance s)); [by eapply advance_rest|]. intros x y Ex. apply (Hb (c :: x) y). cbn. by f_equal.
Qed.

Lemma trivia_start_next s : trivia_start (rest s) =
  next_is is_whitespace (peek s) || peeks s "/" && (next_is (N.eqb (ch "/")) (peek2 s) || next_is (N.eqb (ch "*")) (peek2 s)).
Proof.
  rewrite peeks_start, !next_is_peek2, next_is_peek. destruct (rest s) as [|c [|d r]]; cbn [trivia_start starts_with tail].
  - done.
  - by rewrite andb_false_r, orb_false_r.
  - by rewrite !(N.eqb_sym (ch _)).
Qed.

Lemma two_first s a b l : rest s = lit (String a (String b EmptyString)) ++ l -> forall p, next_is p (peek s) = p (ch a).
Proof. intros E p. rewrite next_is_peek, E. done. Qed.
Lemma two_both s a b l : rest s = lit (String a (String b EmptyString)) ++ l ->
  forall x y, peeks s x && next_is (N.eqb (ch y)) (peek2 s) = (ch x =? ch a) && (ch y =? ch b).
Proof. intros E x y. rewrite peeks_start, next_is_peek2, E. done. Qed.

(** What [skip_trivia] answers: it passes all trivia, or stops at a block
    comment that is not closed. *)
Definition trivia_skipped (s : Lexer) (r : Lexed Lexer) : Prop :=
  match r with
  | None => False
  | Some (Ok s') => exists t, consumes s t s' /\ trivia (rest s') t /\ trivia_start (rest s') = false
  | Some (Err e) => exists t r, rest s = t ++ lit "/*" ++ r /\ trivia (lit "/*" ++ r) t /\
      e = UnterminatedBlockComment (span_of_len (over t s) 2)
  end.

Lemma trivia_skipped_more s t s' r : consumes s t s' -> (forall a u, rest s' = u ++ a -> trivia a u -> trivia a (t ++ u)) ->
  trivia_skipped s' r -> trivia_skipped s r.
Proof.
  intros Hc Ht. destruct r as [[s''|e]|]; cbn; [| |done].
  - intros (u & Hu & Htr & Hs). exists (t ++ u). split; [by eapply consumes_app|]. split; [|done]. apply Ht; [|done]. apply Hu.
  - intros (u & r & E & Htr & ->). exists (t ++ u), r. destruct Hc as [Ec ->]. split; [|split].
    + by rewrite Ec, E, <- app_assoc.
    + by apply Ht.
    + unfold over. by rewrite foldl_app.
Qed.

Lemma rest_two s a b : peeks s a && next_is (N.eqb (ch b)) (peek2 s) = true -> exists r, rest s = ch a :: ch b :: r.
Proof.
  rewrite peeks_start, next_is_peek2.
  destruct (rest s) as [|c [|d r]]; cbn [starts_with tail]; try by rewrite ?andb_false_r.
  rewrite andb_true_iff, !N.eqb_eq. intros [<- <-]. by exists r.
Qed.

Lemma skip_trivia_spec fuel s : (length (rest s) < fuel)%nat -> trivia_skipped s (skip_trivia_loop fuel s).
Proof.
  revert s. induction fuel as [|fuel IH]; intros s Hf; [lia|]. cbn [skip_trivia_loop].
  destruct (next_is is_whitespace (peek s)) eqn:Hw.
  { rewrite next_is_peek in Hw. destruct (rest s) as [|c r] eqn:E; [done|]. cbn in Hf.
    eapply (trivia_skipped_more s [c]); [by eapply consumes_one| |apply IH; rewrite (advance_rest _ _ _ E); lia].
    intros a u _ Hu. by apply trivia_space. }
  destruct (peeks s "/" && next_is (N.eqb (ch "/")) (peek2 s)) eqn:Hl.
  { destruct (rest_two _ _ _ Hl) as [r E].
    destruct (advance_while_spec (fun c => negb (c =? 10)) s) as (t & Hc & Ht & Hr).
    assert (exists l, t = lit "//" ++ l) as [l ->].
    { destruct Hc as [Ec _]. rewrite E in Ec. destruct t as [|x [|y t]]; cbn in Ec.
      - rewrite <- Ec in Hr. done.
      - injection Ec as <- Ec. rewrite <- Ec in Hr. done.
      - injection Ec as <- <- _. by exists t. }
    eapply trivia_skipped_more; [done| |apply IH; destruct Hc as [Ec _]; rewrite Ec, !length_app in Hf; lit_lengths; cbn in Hf; lia].
    intros a u Eu Hu. rewrite <- app_assoc. apply trivia_line; [| |done].
    - intros Hin. apply Forall_app in Ht as [_ Ht]. rewrite Forall_forall in Ht. by specialize (Ht 10 Hin).
    - by rewrite <- Eu. }
  destruct (peeks s "/" && next_is (N.eqb (ch "*")) (peek2 s)) eqn:Hb.
  { destruct (rest_two _ _ _ Hb) as [r E]. pose proof (over_consumes (lit "/*") s r E) as Hc.
    change (advance (advance s)) with (over (lit "/*") s).
    destruct (skip_block _ _) as [s'|] eqn:Hs.
    - destruct (skip_block_some _ _ _ eq_refl Hs) as (b & Hcb & Hnb).
      eapply trivia_skipped_more; [eapply consumes_app; [exact Hc|exact Hcb]| |].
      + intros a u _ Hu. rewrite <- !app_assoc. by apply trivia_block.
      + apply IH. destruct Hc as [Ec _], Hcb as [Eb _]. rewrite Ec, Eb, !length_app in Hf. lit_lengths. cbn in Hf. lia.
    - exists [], r. split; [done|]. split; [constructor|done]. }
  exists []. split; [done|]. split; [constructor|]. by rewrite trivia_start_next, Hw, andb_orb_distrib_r, Hl, Hb.
Qed.

Lemma skip_trivia_eq a t s fuel : trivia a t -> trivia_start a = false -> rest s = t ++ a -> (length (rest s) < fuel)%nat ->
  skip_trivia_loop fuel s = Some (Ok (over t s)).
Proof.
  intros Ht Ha. revert s fuel. induction Ht as [|c t Hc Ht IH|l t Hl Hn Ht IH|b t Hb Ht IH]; intros s [|fuel] E Hf; try lia;
    cbn [skip_trivia_loop].
  - cbn in E. rewrite <- E, trivia_start_next in Ha. apply orb_false_iff in Ha as [-> Ha].
    rewrite andb_orb_distrib_r in Ha. apply orb_false_iff in Ha as [H1 H2]. by rewrite H1, H2.
  - rewrite next_is_peek, E. cbn [starts_with app]. rewrite Hc. rewrite E in Hf. cbn in Hf.
    apply (IH (advance s)); rewrite (advance_rest s c (t ++ a)) by done; [done|lia].
  - rewrite <- !app_assoc in E. rewrite (two_first _ _ _ _ E), !(two_both _ _ _ _ E).
    change (is_whitespace (ch "/")) with false. change ((ch "/" =? ch "/") && (ch "/" =? ch "/")) with true. cbv iota.
    rewrite app_assoc in E. rewrite (advance_while_eq _ s (lit "//" ++ l) (over (lit "//" ++ l) s)).
    + rewrite IH; [by rewrite <- over_app, <- app_assoc| |]; rewrite (over_rest (lit "//" ++ l) s (t ++ a)) by done; [done|].
      rewrite E, !length_app in Hf. rewrite length_app. lit_lengths. cbn in Hf. lia.
    + by eapply over_consumes.
    + apply Forall_app. split; [by repeat constructor|]. rewrite Forall_forall. intros x Hx.
      destruct (N.eqb_spec x 10); [subst|]; done.
    + by rewrite (over_rest (lit "//" ++ l) s (t ++ a)).
  - rewrite <- !app_assoc in E. rewrite (two_first _ _ _ _ E), !(two_both _ _ _ _ E).
    change (is_whitespace (ch "/")) with false. change ((ch "/" =? ch "/") && (ch "/" =? ch "*")) with false.
    change ((ch "/" =? ch "/") && (ch "*" =? ch "*")) with true. cbv iota.
    change (advance (advance s)) with (over (lit "/*") s).
    assert (E2 : rest (over (lit "/*") s) = b ++ lit "*/" ++ t ++ a) by (by apply over_rest).
    cbv zeta. rewrite E2, (skip_block_eq b _ (t ++ a)) by done.
    assert (E3 : rest (over (b ++ lit "*/") (over (lit "/*") s)) = t ++ a) by (apply over_rest; by rewrite E2, <- app_assoc).
    rewrite IH; [by rewrite <- !over_app, <- !app_assoc|done|].
    rewrite E3, length_app. rewrite E, !length_app in Hf. lit_lengths. cbn in Hf. lia.
Qed.

(** ** Tokens

    What an error shows: the piece [x] of the source its span covers. *)
Definition error_shows (e : LexError) (x : text) : Prop :=
  match e with
  | UnterminatedString _ => x = [39] \/ x = [34]
  | UnterminatedBacktick _ => x = lit "`"
  | UnterminatedBlockComment _ => x = lit "/*"
  | InvalidEscape c _ => x = [92; c] /\ lookup_char c escapes = None
  | InvalidUnicodeEscape _ => exists ds, x = 92 :: ch "u" :: ds
  | InvalidParameter _ => x = lit "$"
  | InvalidNumber t _ => x = t
  | UnexpectedChar c _ => x = [c]
  end.
Definition error_at (s : Lexer) (e : LexError) : Prop :=
  exists p x r, rest s = p ++ x ++ r /\ error_span e = span_of_len (over p s) (text_len x) /\ error_shows e x.

Lemma error_over s t s' e : consumes s t s' -> error_at s' e -> error_at s e.
Proof.
  intros [E ->] (p & x & r & E' & Hs & Hx). exists (t ++ p), x, r. rewrite over_app. split; [|done].
  by rewrite E, E', <- app_assoc.
Qed.

Lemma error_here s t s' e r : consumes s t s' -> rest s' = r -> error_span e = span_from s s' -> error_shows e t -> error_at s e.
Proof.
  intros Hc <- Hs Hx. exists [], t, (rest s'). split; [apply Hc|]. split; [|done].
  rewrite Hs. unfold span_from, span_of_len. cbn. by rewrite (consumes_cursor _ _ _ Hc).
Qed.

(** *** Quoted names *)
Lemma backtick_loop_spec n r value s : (length r <= n)%nat -> rest s = r ->
  match backtick_loop r value s with
  | Some (v, s') => exists w, v = value ++ w /\ consumes s (double_backticks w ++ lit "`") s' /\
      starts_with (N.eqb (ch "`")) (rest s') = false
  | None => True
  end.
Proof.
  revert r value s. induction n as [|n IH]; intros [|c r] value s Hn E; cbn in Hn; try lia; [done..|]. cbn [backtick_loop].
  destruct (N.eqb_spec c (ch "`")) as [->|Hc].
  - destruct r as [|d r].
    { exists []. rewrite app_nil_r. split; [done|]. split; [by eapply consumes_one|]. by rewrite (advance_rest _ _ _ E). }
    destruct (N.eqb_spec d (ch "`")) as [->|Hd].
    + assert (E2 : rest (advance (advance s)) = r) by (do 2 eapply advance_rest; done).
      specialize (IH r (value ++ [ch "`"]) (advance (advance s)) ltac:(cbn in Hn; lia) E2).
      destruct (backtick_loop r _ _) as [[v s']|]; [|done]. destruct IH as (w & -> & Hw & Hr).
      exists (ch "`" :: w). rewrite <- app_assoc. split; [done|]. split; [|done].
      change (double_backticks (ch "`" :: w)) with (lit "``" ++ double_backticks w). rewrite <- app_assoc.
      eapply consumes_app; [by apply (over_consumes (lit "``") s r)|done].
    + exists []. rewrite app_nil_r. split; [done|]. split; [by eapply consumes_one|]. rewrite (advance_rest _ _ _ E).
      cbn [starts_with]. by apply N.eqb_neq.
  - specialize (IH r (value ++ [c]) (advance s) ltac:(lia) (advance_rest _ _ _ E)).
    destruct (backtick_loop r _ _) as [[v s']|]; [|done]. destruct IH as (w & -> & Hw & Hr).
    exists (c :: w). rewrite <- app_assoc. split; [done|]. split; [|done].
    cbn [double_backticks]. rewrite (proj2 (N.eqb_neq c (ch "`")) Hc).
    eapply (consumes_app s [c]); [by eapply consumes_one|done].
Qed.

Lemma backtick_loop_eq w value s a : rest s = double_backticks w ++ lit "`" ++ a ->
  starts_with (N.eqb (ch "`")) a = false ->
  backtick_loop (rest s) value s = Some (value ++ w, over (double_backticks w ++ lit "`") s).
Proof.
  intros E Ha. rewrite E. revert value s E. induction w as [|c w IH]; intros value s E.
  - rewrite app_nil_r. change (double_backticks [] ++ lit "`" ++ a) with (ch "`" :: a). cbn [backtick_loop].
    rewrite N.eqb_refl. destruct a as [|d a]; [done|]. cbn in Ha. rewrite (N.eqb_sym d). by rewrite Ha.
  - cbn [double_backticks] in *. destruct (N.eqb_spec c (ch "`")) as [->|Hc].
    + cbn [app backtick_loop]. rewrite !N.eqb_refl, IH by (by apply (over_rest (lit "``"))). by rewrite <- app_assoc.
    + cbn [app backtick_loop]. rewrite (proj2 (N.eqb_neq _ _) Hc), IH by (by eapply advance_rest). by rewrite <- app_assoc.
Qed.

Lemma read_backtick_spec s r : rest s = ch "`" :: r ->
  match read_backtick_identifier s with
  | Ok (v, s') => consumes s (lit "`" ++ double_backticks v ++ lit "`") s' /\ starts_with (N.eqb (ch "`")) (rest s') = false
  | Err e => error_at s e
  end.
Proof.
  intros E. unfold read_backtick_identifier. pose proof (advance_rest _ _ _ E) as E'. cbv zeta.
  pose proof (backtick_loop_spec (length (rest (advance s))) _ [] (advance s) ltac:(done) eq_refl) as H.
  destruct (backtick_loop _ _ _) as [[v s']|]; cbn [ok_or].
  - destruct H as (w & -> & Hw & Hr). split; [|done]. eapply consumes_app; [by eapply consumes_one|done].
  - by exists [], (lit "`"), r.
Qed.

Lemma read_backtick_eq v s a : rest s = lit "`" ++ double_backticks v ++ lit "`" ++ a ->
  starts_with (N.eqb (ch "`")) a = false ->
  read_backtick_identifier s = Ok (v, over (lit "`" ++ double_backticks v ++ lit "`") s).
Proof.
  intros E Ha. unfold read_backtick_identifier. cbv zeta.
  rewrite (backtick_loop_eq v [] (advance s) a); [done| |done]. exact (advance_rest s (ch "`") _ E).
Qed.

(** *** Names, parameters *)
Section readers.
Context {chars : Chars} {laws : CharsLaws}.

(** What a reader answers: a token of the grammar, or an error in its place. *)
Definition kind_read (s : Lexer) (r : result LexError (TokenKind * Lexer)) : Prop :=
  match r with
  | Ok (k, s') => exists t, consumes s t s' /\ spells k t (rest s')
  | Err e => error_at s e
  end.

Lemma within_iff lo hi c : within lo hi c = true <-> lo <= c <= hi.
Proof. unfold within. by rewrite andb_true_iff, !N.leb_le. Qed.

Lemma start_continues c : is_identifier_start c = true -> is_identifier_continue c = true.
Proof.
  unfold is_identifier_start, is_identifier_continue, is_alphanumeric. rewrite !orb_true_iff. intuition.
Qed.

Lemma word_read s : starts_with is_identifier_start (rest s) = true ->
  exists t, consumes s t (advance_while is_identifier_continue s) /\ is_name t /\
    starts_with is_identifier_continue (rest (advance_while is_identifier_continue s)) = false.
Proof.
  intros Hs. destruct (advance_while_spec is_identifier_continue s) as (t & Hc & Ht & Hr). exists t. split; [done|]. split; [|done].
  split; [|done]. destruct t as [|c t].
  - destruct Hc as [E _]. cbn in E. rewrite <- E in Hr. destruct (rest s) as [|c r]; [done|]. cbn in Hs, Hr.
    apply start_continues in Hs. congruence.
  - destruct Hc as [E _]. by rewrite E in Hs.
Qed.

Lemma read_identifier_spec s : starts_with is_identifier_start (rest s) = true -> kind_read s (Ok (read_identifier_or_keyword s)).
Proof.
  intros Hs. destruct (word_read s Hs) as (t & Hc & Hn & Hr). exists t. split; [done|].
  unfold read_identifier_or_keyword. cbn. rewrite (slice_consumes _ _ _ Hc). by apply spells_word.
Qed.

Lemma read_identifier_eq t a s : is_name t -> starts_with is_identifier_continue a = false -> rest s = t ++ a ->
  read_identifier_or_keyword s = (keyword_or_identifier t, over t s).
Proof.
  intros [_ Ht] Ha E. pose proof (over_consumes _ _ _ E) as Hc. unfold read_identifier_or_keyword. cbv zeta.
  rewrite (advance_while_eq _ _ _ _ Hc Ht) by (by rewrite (over_rest _ _ _ E)). by rewrite (slice_consumes _ _ _ Hc).
Qed.

Lemma read_parameter_spec s r : rest s = ch "$" :: r -> kind_read s (read_parameter s).
Proof.
  intros E. pose proof (advance_rest _ _ _ E) as E'. pose proof (consumes_one _ _ _ E) as Hc.
  unfold read_parameter. cbv zeta. rewrite !next_is_peek, peeks_start.
  destruct (starts_with is_ascii_digit (rest (advance s))) eqn:Hd.
  { destruct (advance_while_spec is_ascii_digit (advance s)) as (t & Ht & Hds & Hr). exists (lit "$" ++ t).
    split; [by eapply consumes_app|]. rewrite (slice_consumes _ _ _ Ht). apply spells_number_parameter; try done.
    intros ->. destruct Ht as [Et _]. cbn in Et. by rewrite Et, Hr in Hd. }
  destruct (starts_with (N.eqb (ch "`")) (rest (advance s))) eqn:Hb.
  { destruct (rest (advance s)) as [|c r'] eqn:E2; [done|]. apply N.eqb_eq in Hb as <-.
    pose proof (read_backtick_spec _ _ E2) as H. destruct (read_backtick_identifier _) as [[v s']|e].
    - destruct H as [H Hr]. exists (lit "$`" ++ double_backticks v ++ lit "`").
      split; [by eapply (consumes_app _ (lit "$"))|by apply spells_quoted_parameter].
    - by eapply error_over. }
  destruct (starts_with is_identifier_start (rest (advance s))) eqn:Hn.
  { destruct (word_read _ Hn) as (t & Ht & Hname & Hr). exists (lit "$" ++ t). split; [by eapply consumes_app|].
    rewrite (slice_consumes _ _ _ Ht). by apply spells_parameter. }
  by eapply (error_here s (lit "$")).
Qed.

Lemma name_not p t a : is_name t -> (forall c, is_identifier_start c = true -> p c = false) -> starts_with p (t ++ a) = false.
Proof. intros [Hs _] Hp. destruct t as [|c t]; [done|]. by apply Hp. Qed.

Lemma ascii_letter_only c : c < 128 -> is_identifier_start c = true -> (c = 95 \/ is_ascii_letter c = true).
Proof using chars laws. intros Hc. unfold is_identifier_start. rewrite orb_true_iff, N.eqb_eq, (ascii_alphabetic c) by done. done. Qed.

Lemma ascii_word_only c : c < 128 -> is_identifier_continue c = true -> (c = 95 \/ is_ascii_letter c = true \/ is_ascii_digit c = true).
Proof using chars laws.
  intros Hc. unfold is_identifier_continue, is_alphanumeric.
  rewrite !orb_true_iff, N.eqb_eq, (ascii_alphabetic c), (ascii_numeric c) by done. done.
Qed.

Lemma start_not_digit c : is_identifier_start c = true -> is_ascii_digit c = false.
Proof using chars laws.
  intros Hs. destruct (is_ascii_digit c) eqn:Hd; [|done]. apply within_iff in Hd.
  apply ascii_letter_only in Hs; [|lia]. unfold is_ascii_letter in Hs. rewrite orb_true_iff, !within_iff in Hs. lia.
Qed.

Lemma start_not_char a c : (ch a < 128) -> ch a <> 95 -> is_ascii_letter (ch a) = false -> is_identifier_start c = true ->
  (ch a =? c) = false.
Proof using chars laws. intros Ha Hu Hl Hs. apply N.eqb_neq. intros <-. apply ascii_letter_only in Hs; [|done]. by destruct Hs as [|Hs]; [|rewrite Hl in Hs]. Qed.

Lemma read_parameter_number ds a s : all_digits ds -> ds <> [] -> starts_with is_ascii_digit a = false -> rest s = lit "$" ++ ds ++ a ->
  read_parameter s = Ok (TokenKind.Param ds, over (lit "$" ++ ds) s).
Proof.
  intros Hd Hne Ha E. pose proof (advance_rest s (ch "$") _ E) as E'. pose proof (over_consumes ds _ _ E') as Hc.
  unfold read_parameter. cbv zeta. rewrite next_is_peek, E', starts_with_app by done.
  destruct ds as [|d ds]; [done|]. cbn [starts_with]. rewrite (Forall_inv Hd).
  rewrite (advance_while_eq _ _ _ _ Hc Hd) by (by rewrite (over_rest _ _ _ E')). by rewrite (slice_consumes _ _ _ Hc).
Qed.

Lemma read_parameter_name t a s : is_name t -> starts_with is_identifier_continue a = false -> rest s = lit "$" ++ t ++ a ->
  read_parameter s = Ok (TokenKind.Param t, over (lit "$" ++ t) s).
Proof using chars laws.
  intros Hn Ha E. pose proof (advance_rest s (ch "$") _ E) as E'. pose proof (over_consumes t _ _ E') as Hc.
  unfold read_parameter. cbv zeta. rewrite !next_is_peek, peeks_start, E'.
  rewrite (name_not is_ascii_digit) by (done || apply start_not_digit).
  rewrite (name_not (N.eqb (ch "`"))) by (try done; intros c; by apply start_not_char).
  destruct Hn as [Hs Ht]. rewrite starts_with_app, Hs by (by destruct t).
  rewrite (advance_while_eq _ _ _ _ Hc Ht) by (by rewrite (over_rest _ _ _ E')). by rewrite (slice_consumes _ _ _ Hc).
Qed.

Lemma read_parameter_quoted v a s : starts_with (N.eqb (ch "`")) a = false -> rest s = lit "$`" ++ double_backticks v ++ lit "`" ++ a ->
  read_parameter s = Ok (TokenKind.Param v, over (lit "$`" ++ double_backticks v ++ lit "`") s).
Proof.
  intros Ha E. pose proof (advance_rest s (ch "$") _ E) as E'.
  unfold read_parameter. cbv zeta. rewrite !next_is_peek, peeks_start, E'.
  change (starts_with is_ascii_digit _) with false. change (starts_with (N.eqb (ch "`")) _) with true. cbv iota.
  by rewrite (read_backtick_eq v _ a).
Qed.

(** *** Strings *)
Lemma hex_digits_spec n s :
  match hex_digits n s with
  | Ok s' => exists ds, length ds = n /\ Forall (fun d => is_ascii_hexdigit d = true) ds /\ consumes s ds s'
  | Err s' => exists ds, consumes s ds s'
  end.
Proof.
  revert s. induction n as [|n IH]; intros s; cbn [hex_digits]; [by exists []|].
  rewrite next_is_peek. destruct (rest s) as [|c r] eqn:E; cbn [starts_with]; [by exists []|].
  destruct (is_ascii_hexdigit c) eqn:Hc; [|by exists []]. specialize (IH (advance s)). pose proof (consumes_one _ _ _ E) as H1.
  destruct (hex_digits n (advance s)) as [s'|s'].
  - destruct IH as (ds & Hl & Hds & Hcs). exists (c :: ds). cbn. split; [by f_equal|]. split; [by constructor|].
    by apply (consumes_app s [c] (advance s)).
  - destruct IH as (ds & Hcs). exists (c :: ds). by apply (consumes_app s [c] (advance s)).
Qed.

Lemma hex_digits_eq ds a s : Forall (fun d => is_ascii_hexdigit d = true) ds -> rest s = ds ++ a ->
  hex_digits (length ds) s = Ok (over ds s).
Proof.
  intros Hds. revert s. induction Hds as [|d ds Hd Hds IH]; intros s E; [done|]. cbn [hex_digits length].
  rewrite next_is_peek, E. cbn [starts_with app]. rewrite Hd. apply IH. by eapply advance_rest.
Qed.

Lemma error_span_here esc s' t e : consumes esc t s' -> error_span e = span_from esc s' -> error_shows e t -> error_at esc e.
Proof. intros Hc. by apply (error_here esc t s' e (rest s')). Qed.

Lemma read_unicode_escape_spec esc s : consumes esc [92; ch "u"] s ->
  match read_unicode_escape esc s with
  | Ok (c, s') => exists t, consumes s t s' /\ escape (ch "u" :: t) c
  | Err e => error_at esc e
  end.
Proof.
  intros Hesc. unfold read_unicode_escape. cbv zeta. rewrite !peeks_start.
  assert (Hfail : forall t s', consumes s t s' -> error_at esc (InvalidUnicodeEscape (span_from esc s'))).
  { intros t s' Hc. eapply (error_span_here esc s'); [by eapply consumes_app|done|]. by exists t. }
  destruct (starts_with (N.eqb (ch "{")) (rest s)) eqn:Hb.
  - destruct (rest s) as [|x r] eqn:E; [done|]. apply N.eqb_eq in Hb as <-.
    destruct (advance_while_spec is_ascii_hexdigit (advance s)) as (ds & Hc & Hds & Hr).
    pose proof (consumes_one _ _ _ E) as H1. rewrite (slice_consumes _ _ _ Hc).
    destruct (bool_decide (ds = []) || _) eqn:Hf; [by eapply Hfail, consumes_app|].
    apply orb_false_iff in Hf as [_ Hf]. apply negb_false_iff in Hf.
    destruct (rest (advance_while _ _)) as [|y r'] eqn:E2; [done|]. apply N.eqb_eq in Hf as <-.
    assert (Hall : consumes s (lit "{" ++ ds ++ lit "}") (advance (advance_while is_ascii_hexdigit (advance s)))).
    { eapply consumes_app; [done|]. eapply consumes_app; [done|]. by eapply consumes_one. }
    destruct (from_str_radix _ 16 ds ≫= from_u32) as [c|] eqn:Hv; [|by eapply Hfail].
    exists (lit "{" ++ ds ++ lit "}"). split; [done|]. by apply (escape_braces ds).
  - pose proof (hex_digits_spec 4 s) as H. destruct (hex_digits 4 s) as [s'|s'].
    + destruct H as (ds & Hl & Hds & Hc). rewrite (slice_consumes _ _ _ Hc).
      destruct (from_str_radix _ 16 ds ≫= from_u32) as [c|] eqn:Hv; [|by eapply Hfail].
      exists ds. split; [done|]. by apply escape_four.
    + destruct H as (ds & Hc). by eapply Hfail.
Qed.

Lemma read_unicode_escape_eq t c a esc s : escape (ch "u" :: t) c -> rest s = t ++ a ->
  read_unicode_escape esc s = Ok (c, over t s).
Proof.
  intros He E. remember (ch "u" :: t) as t' eqn:Et. destruct He as [e c He|ds c Hds Hv|ds c Hl Hds Hv].
  - injection Et as -> _. done.
  - assert (t = lit "{" ++ ds ++ lit "}") as -> by (by apply (f_equal tail) in Et). clear Et.
    rewrite <- !app_assoc in E. unfold read_unicode_escape. cbv zeta. rewrite !peeks_start, E.
    change (starts_with (N.eqb (ch "{")) _) with true. cbv iota.
    pose proof (advance_rest s (ch "{") _ E) as E'. pose proof (over_rest ds _ _ E') as E2. pose proof (over_consumes ds _ _ E') as Hc.
    rewrite (advance_while_eq is_ascii_hexdigit _ ds (over ds (advance s))) by (try done; by rewrite E2).
    rewrite (slice_consumes _ _ _ Hc), E2. rewrite bool_decide_false by (by intros ->).
    change (starts_with (N.eqb (ch "}")) _) with true. cbn [orb negb]. rewrite Hv. f_equal. f_equal.
    change (lit "{" ++ ds ++ lit "}") with (ch "{" :: (ds ++ lit "}")).
    change (over (ch "{" :: ?x) s) with (over x (advance s)). by rewrite over_app.
  - assert (t = ds) as -> by (by injection Et). unfold read_unicode_escape. cbv zeta. rewrite !peeks_start, E.
    destruct ds as [|d ds]; [done|]. cbn [starts_with app].
    destruct (N.eqb_spec (ch "{") d) as [<-|_]; [by apply Forall_inv in Hds|].
    rewrite <- Hl, (hex_digits_eq (d :: ds) a) by done.
    by rewrite (slice_consumes s (d :: ds)), Hv by (by eapply over_consumes).
Qed.

Lemma escape_not_empty t c : escape t c -> t <> [].
Proof. by intros []. Qed.

Lemma string_loop_spec fuel s0 q t0 value s : (length (rest s) < fuel)%nat -> q = 39 \/ q = 34 -> consumes s0 (q :: t0) s ->
  match string_loop fuel s0 q value s with
  | None => False
  | Some (Ok (v', s')) => exists b v, v' = value ++ v /\ consumes s (b ++ [q]) s' /\ string_body q b v
  | Some (Err e) => error_at s0 e
  end.
Proof.
  intros Hf Hq. revert t0 value s Hf. induction fuel as [|fuel IH]; intros t0 value s Hf H0; [lia|].
  cbn [string_loop]. unfold peek at 1. destruct (rest s) as [|c r] eqn:E.
  { exists [], [q], (t0). rewrite <- (app_nil_r t0). split; [|split; [|by destruct Hq as [-> | ->]; [left|right]]].
    - destruct H0 as [E0 _]. by rewrite E0, E.
    - cbn. unfold text_len. cbn. by destruct Hq as [-> | ->]. }
  pose proof (consumes_one _ _ _ E) as H1. pose proof (advance_rest _ _ _ E) as E1. cbn in Hf.
  destruct (N.eqb_spec c q) as [->|Hcq].
  { exists [], []. rewrite app_nil_r. split; [done|]. split; [done|constructor]. }
  assert (Hnext : forall t u v' s', consumes s t s' -> t <> [] -> (forall b v, string_body q b v -> string_body q (t ++ b) (v' :: v)) ->
    u = value ++ [v'] ->
    match string_loop fuel s0 q u s' with
    | None => False
    | Some (Ok (v', s')) => exists b v, v' = value ++ v /\ consumes s (b ++ [q]) s' /\ string_body q b v
    | Some (Err e) => error_at s0 e
    end).
  { intros t u v' s' Hc Hne Hb ->.
    assert (Hlen : (length (rest s') < fuel)%nat).
    { destruct Hc as [Ec _]. rewrite E in Ec. apply (f_equal length) in Ec. rewrite length_app in Ec. destruct t; [done|].
      cbn in Ec. lia. }
    specialize (IH (t0 ++ t) (value ++ [v']) s' Hlen (consumes_app s0 (q :: t0) s _ _ H0 Hc)).
    destruct (string_loop fuel s0 q _ s') as [[[v'' s'']|e]|]; [|done..]. destruct IH as (b & v & -> & Hc' & Hbody).
    exists (t ++ b), (v' :: v). rewrite <- app_assoc. split; [done|]. split; [|by apply Hb]. rewrite <- app_assoc.
    by eapply consumes_app. }
  destruct (N.eqb_spec c 92) as [->|Hc92].
  - cbv zeta. unfold peek at 1. rewrite E1. destruct r as [|e r].
    { destruct H0 as [E0 _]. exists [], [q], (t0 ++ [92]). split; [|split; [|by destruct Hq as [-> | ->]; [left|right]]].
      - by rewrite E0, E.
      - by destruct Hq as [-> | ->]. }
    pose proof (consumes_one _ _ _ E1) as H2. pose proof (consumes_app _ _ _ _ _ H1 H2) as H12.
    destruct (lookup_char e escapes) as [v|] eqn:He.
    { eapply (Hnext [92; e]); [exact H12|done| |done]. intros b v0 Hb. apply (body_escape q [e]); [by constructor|done]. }
    destruct (N.eqb_spec e (ch "u")) as [->|Heu].
    + pose proof (read_unicode_escape_spec s _ H12) as Hu. destruct (read_unicode_escape _ _) as [[v s']|e].
      * destruct Hu as (t & Ht & Hesc). apply (Hnext ([92; ch "u"] ++ t) _ v); try done; [by eapply consumes_app|].
        intros b v0 Hb. by apply (body_escape q (ch "u" :: t)).
      * by eapply error_over.
    + eapply error_over; [exact H0|]. exists [], [92; e], r. split; [done|]. split; [|done]. unfold span_of_len. cbn.
      rewrite (consumes_cursor _ _ _ H1). unfold text_len. cbn. f_equal. lia.
  - apply (Hnext [c] _ c); try done. intros b v Hb. by apply body_char.
Qed.

Lemma string_loop_eq q b v : string_body q b v -> q = 39 \/ q = 34 -> forall fuel s0 value s a, rest s = b ++ q :: a ->
  (length b < fuel)%nat -> string_loop fuel s0 q value s = Some (Ok (value ++ v, over (b ++ [q]) s)).
Proof.
  intros Hb Hq. induction Hb as [|c b v Hcq Hc Hb IH|e c b v He Hb IH]; intros [|fuel] s0 value s a E Hf; try (cbn in Hf; lia).
  - cbn [string_loop]. unfold peek. rewrite E. cbn [app]. by rewrite N.eqb_refl, app_nil_r.
  - cbn [string_loop]. unfold peek at 1. rewrite E. cbn [app]. rewrite (proj2 (N.eqb_neq _ _) Hcq), (proj2 (N.eqb_neq _ _) Hc).
    rewrite (IH _ _ _ _ a); [by rewrite <- app_assoc|by eapply advance_rest|cbn in Hf; lia].
  - cbn [string_loop]. unfold peek at 1. rewrite E. cbn [app].
    rewrite (proj2 (N.eqb_neq 92 q)) by (by destruct Hq as [-> | ->]). change (92 =? 92) with true. cbv iota zeta.
    assert (E1 : rest (advance s) = e ++ b ++ q :: a) by (rewrite app_assoc; by eapply advance_rest).
    assert (Hfb : (length b < fuel)%nat) by (cbn in Hf; rewrite length_app in Hf; lia).
    destruct (lookup_char (hd 0 e) escapes) as [c'|] eqn:Hl.
    + destruct He as [x c He|ds c Hds Hv|ds c Hlen Hds Hv]; [|done..]. cbn [hd] in Hl. unfold peek. rewrite E1. cbn [app].
      rewrite Hl. assert (c' = c) as -> by congruence. rewrite (IH _ _ _ _ a); [by rewrite <- app_assoc|by eapply advance_rest|done].
    + assert (exists t, e = ch "u" :: t) as [t ->].
      { destruct He as [x c He|ds c Hds Hv|ds c Hlen Hds Hv]; [by cbn [hd] in Hl; rewrite He in Hl|by eexists..]. }
      unfold peek. rewrite E1. cbn [app hd] in *. rewrite Hl, N.eqb_refl.
      rewrite (read_unicode_escape_eq t c (b ++ q :: a)) by (done || by eapply advance_rest).
      rewrite (IH _ _ _ _ a); [by rewrite <- app_assoc, <- over_app, <- app_assoc| |done].
      apply over_rest. by eapply advance_rest.
Qed.

Lemma read_string_spec s q r : q = 39 \/ q = 34 -> rest s = q :: r ->
  match read_string q s with
  | None => False
  | Some (Ok (v, s')) => exists b, consumes s (q :: b ++ [q]) s' /\ string_body q b v
  | Some (Err e) => error_at s e
  end.
Proof.
  intros Hq E. unfold read_string. cbv zeta.
  pose proof (string_loop_spec (S (length (rest (advance s)))) s q [] [] (advance s) ltac:(lia) Hq (consumes_one _ _ _ E)) as H.
  destruct (string_loop _ _ _ _ _) as [[[v s']|e]|]; [|done..]. destruct H as (b & v' & -> & Hc & Hb). exists b.
  split; [|done]. eapply (consumes_app s [q]); [by eapply consumes_one|done].
Qed.

Lemma read_string_eq s q b v a : q = 39 \/ q = 34 -> string_body q b v -> rest s = q :: b ++ [q] ++ a ->
  read_string q s = Some (Ok (v, over (q :: b ++ [q]) s)).
Proof.
  intros Hq Hb E. unfold read_string. cbv zeta. pose proof (advance_rest _ _ _ E) as E1.
  rewrite (string_loop_eq q b v Hb Hq _ _ _ _ a) by (done || rewrite E1, length_app; lia). done.
Qed.

(** *** Numbers *)
Lemma consumes_same s t s' : consumes s t s' -> (cursor s' =? cursor s) = bool_decide (t = []).
Proof.
  intros Hc. rewrite (consumes_cursor _ _ _ Hc). destruct (decide (t = [])) as [->|Hne].
  - by rewrite bool_decide_true, N.add_0_r, N.eqb_refl by done.
  - rewrite bool_decide_false by done. apply N.eqb_neq. intros H. apply Hne, text_len_zero. lia.
Qed.

Lemma fraction_peeks s : peeks s "." && negb (next_is (N.eqb (ch ".")) (peek2 s)) = fraction_start (rest s).
Proof. unfold fraction_start. by rewrite peeks_start, next_is_peek2. Qed.

Lemma read_fraction_spec s int s1 : consumes s int s1 -> int <> [] \/ fraction_start (rest s1) = true /\ starts_with is_ascii_digit (tail (rest s1)) = true ->
  exists frac, consumes s1 frac (read_fraction s s1).1 /\ fraction int frac (rest (read_fraction s s1).1) /\
    (read_fraction s s1).2 = negb (bool_decide (frac = [])).
Proof.
  intros Hc Hint. unfold read_fraction. rewrite fraction_peeks. destruct (fraction_start (rest s1)) eqn:Hf; cbn [fst snd].
  - destruct (rest s1) as [|c r] eqn:E; [done|]. pose proof Hf as Hdot. apply andb_true_iff in Hf as [<-%N.eqb_eq _].
    destruct (advance_while_spec is_ascii_digit (advance s1)) as (ds & Hds & Hd & Hr).
    pose proof (consumes_one _ _ _ E) as H1. exists (ch "." :: ds).
    split; [by apply (consumes_app s1 [ch "."] (advance s1))|]. split; [|done]. apply point; try done.
    + destruct Hint as [?|[_ Hs]]; [by left|]. right. intros ->. destruct Hds as [Ed _]. cbn in Ed.
      rewrite <- Ed, (advance_rest _ _ _ E) in Hr. cbn [tail] in Hs. congruence.
    + destruct Hds as [Ed _]. by rewrite <- Ed, (advance_rest _ _ _ E).
  - rewrite (consumes_same _ _ _ Hc). destruct Hint as [Hne|[? _]]; [|done]. rewrite bool_decide_false by done.
    exists []. split; [done|]. split; [|done]. by constructor.
Qed.

Lemma read_fraction_eq s int s1 frac a : consumes s int s1 -> fraction int frac a -> rest s1 = frac ++ a ->
  read_fraction s s1 = (over frac s1, negb (bool_decide (frac = []))).
Proof.
  intros Hc Hf E. unfold read_fraction. rewrite fraction_peeks. destruct Hf as [a Hne Hs|ds a Hd Hor Hs Ha].
  - cbn [app] in E. by rewrite E, Hs, (consumes_same _ _ _ Hc), bool_decide_false.
  - rewrite E, <- app_comm_cons, Hs. f_equal. change (over (ch "." :: ds) s1) with (over ds (advance s1)).
    assert (E1 : rest (advance s1) = ds ++ a) by (by eapply advance_rest).
    apply advance_while_eq with ds; [by apply over_consumes with a|done|by rewrite (over_rest _ _ _ E1)].
Qed.

Definition sign_of (t : text) : text :=
  match t with c :: _ => if (c =? ch "+") || (c =? ch "-") then [c] else [] | [] => [] end.

Lemma sign_read s : let s' := if peeks s "+" || peeks s "-" then advance s else s in
  consumes s (sign_of (rest s)) s'.
Proof.
  cbv zeta. rewrite !peeks_start. destruct (rest s) as [|c r] eqn:E; cbn [starts_with sign_of orb]; [done|].
  rewrite !(N.eqb_sym (ch _)). destruct ((c =? ch "+") || (c =? ch "-")); [by eapply consumes_one|done].
Qed.

Lemma sign_of_cases t : sign_of t ∈ [[]; lit "+"; lit "-"].
Proof using chars laws.
  destruct t as [|c t]; cbn; [set_solver|]. destruct (N.eqb_spec c (ch "+")) as [->|]; [set_solver|].
  destruct (N.eqb_spec c (ch "-")) as [->|]; set_solver.
Qed.

Lemma exponent_start_cons e t : exponent_start (e :: t) =
  ((e =? ch "e") || (e =? ch "E")) && starts_with is_ascii_digit (drop (length (sign_of t)) t).
Proof.
  cbn [exponent_start]. f_equal. destruct t as [|c t]; [done|]. cbn [sign_of]. by destruct ((c =? ch "+") || (c =? ch "-")).
Qed.

Lemma e_peeks s : peeks s "e" || peeks s "E" = starts_with (fun c => (c =? ch "e") || (c =? ch "E")) (rest s).
Proof. rewrite !peeks_start. destruct (rest s); [done|]. cbn [starts_with]. by rewrite !(N.eqb_sym (ch _)). Qed.

Lemma sign_drop s s' : consumes s (sign_of (rest s)) s' -> rest s' = drop (length (sign_of (rest s))) (rest s).
Proof. intros [E _]. rewrite E at 2. symmetry. by apply drop_app_length'. Qed.

Lemma read_exponent_spec s fl : exists exp, consumes s exp (read_exponent s fl).1 /\
  exponent exp (rest (read_exponent s fl).1) /\ (read_exponent s fl).2 = fl || negb (bool_decide (exp = [])).
Proof using chars laws.
  unfold read_exponent. rewrite e_peeks. destruct (starts_with _ (rest s)) eqn:He; cbn [fst snd].
  - destruct (rest s) as [|e r] eqn:E; [done|]. cbn [starts_with] in He.
    pose proof (consumes_one _ _ _ E) as H1. pose proof (sign_read (advance s)) as H2. cbv zeta in H2 |- *.
    set (s2 := if peeks (advance s) "+" || peeks (advance s) "-" then advance (advance s) else advance s) in *.
    destruct (advance_while_spec is_ascii_digit s2) as (ds & H3 & Hd & Hr). rewrite (consumes_same _ _ _ H3).
    rewrite (advance_rest _ _ _ E) in H2. case_bool_decide as Hds; cbn [fst snd].
    + exists []. split; [done|]. rewrite orb_false_r. split; [|done]. constructor. rewrite E, exponent_start_cons.
      apply andb_false_iff. right. pose proof (sign_drop (advance s) s2) as Hsd. rewrite (advance_rest _ _ _ E) in Hsd.
      rewrite <- Hsd by done. subst ds. destruct H3 as [E3 _]. cbn in E3. by rewrite E3.
    + exists (e :: sign_of r ++ ds). split; [|split].
      * apply (consumes_app s [e] (advance s)); [done|]. by eapply consumes_app.
      * apply an_exponent; try done; [|apply sign_of_cases]. apply orb_true_iff in He as [->%N.eqb_eq | ->%N.eqb_eq]; auto.
      * by rewrite orb_true_r.
  - exists []. split; [done|]. rewrite orb_false_r. split; [|done]. constructor. destruct (rest s) as [|e r]; [done|].
    rewrite exponent_start_cons. cbn [starts_with] in He. by rewrite He.
Qed.

Lemma sign_of_app sign ds a : sign ∈ [[]; lit "+"; lit "-"] -> all_digits ds -> ds <> [] -> sign_of (sign ++ ds ++ a) = sign.
Proof.
  intros Hs Hd Hne. destruct ds as [|d ds]; [done|]. apply Forall_inv in Hd.
  apply elem_of_cons in Hs as [-> | [-> | ->%list_elem_of_singleton]%elem_of_cons]; [|done..]. cbn.
  destruct (N.eqb_spec d (ch "+")) as [->|]; [done|]. destruct (N.eqb_spec d (ch "-")) as [->|]; done.
Qed.

Lemma read_exponent_eq s fl exp a : exponent exp a -> rest s = exp ++ a ->
  read_exponent s fl = (over exp s, fl || negb (bool_decide (exp = []))).
Proof.
  intros He E. unfold read_exponent. rewrite e_peeks. destruct He as [a He|e sign ds a He Hs Hd Hne Ha].
  - cbn [app] in E. rewrite orb_false_r. cbn [over foldl]. destruct (starts_with _ (rest s)) eqn:Hst; [|done].
    rewrite <- E in He. destruct (rest s) as [|e r] eqn:Er; [done|]. cbn [starts_with] in Hst.
    rewrite exponent_start_cons, Hst in He. cbn [andb] in He. cbv zeta.
    pose proof (sign_read (advance s)) as H2. cbv zeta in H2.
    set (s2 := if peeks (advance s) "+" || peeks (advance s) "-" then advance (advance s) else advance s) in *.
    pose proof (sign_drop _ _ H2) as E2. rewrite (advance_rest _ _ _ Er) in E2.
    rewrite (advance_while_eq is_ascii_digit s2 [] s2) by (try done; by rewrite E2). by rewrite N.eqb_refl.
  - rewrite E. cbn [app starts_with]. rewrite (proj2 (orb_true_iff _ _)) by (rewrite !N.eqb_eq; exact He). cbv zeta.
    assert (E1 : rest (advance s) = sign ++ ds ++ a) by (rewrite app_assoc; by eapply advance_rest).
    pose proof (sign_read (advance s)) as H2. cbv zeta in H2.
    set (s2 := if peeks (advance s) "+" || peeks (advance s) "-" then advance (advance s) else advance s) in *.
    rewrite E1, sign_of_app in H2 by done. destruct H2 as [_ ->]. pose proof (over_rest _ _ _ E1) as E2.
    pose proof (over_consumes _ _ _ E2) as H3.
    rewrite (advance_while_eq is_ascii_digit _ ds _ H3) by (done || by rewrite (over_rest _ _ _ E2)).
    rewrite (consumes_same _ _ _ H3), bool_decide_false, orb_true_r by done. f_equal.
    change (over (e :: sign ++ ds) s) with (over (sign ++ ds) (advance s)). by rewrite over_app.
Qed.

Lemma read_radix_spec radix digit s x r : rest s = ch "0" :: x :: r ->
  match read_radix radix digit s with
  | Ok (k, s') => exists ds n, k = TokenKind.Integer n /\ consumes s (ch "0" :: x :: ds) s' /\
      Forall (fun c => digit c = true) ds /\ starts_with digit (rest s') = false /\ i64_digits radix ds = Some n
  | Err e => error_at s e
  end.
Proof.
  intros E. unfold read_radix. cbv zeta. pose proof (over_consumes [ch "0"; x] s r E) as H2.
  change (over [ch "0"; x] s) with (advance (advance s)) in H2.
  destruct (advance_while_spec digit (advance (advance s))) as (ds & H3 & Hd & Hr). rewrite (slice_consumes _ _ _ H3).
  pose proof (consumes_app _ _ _ _ _ H2 H3) as H4. cbn [app] in H4.
  destruct (i64_digits radix ds) as [n|] eqn:Hn; [by exists ds, n|].
  rewrite (slice_consumes _ _ _ H4). by eapply error_here.
Qed.

Lemma read_radix_eq radix digit s x ds n a : rest s = ch "0" :: x :: ds ++ a -> Forall (fun c => digit c = true) ds ->
  starts_with digit a = false -> i64_digits radix ds = Some n ->
  read_radix radix digit s = Ok (TokenKind.Integer n, over (ch "0" :: x :: ds) s).
Proof.
  intros E Hd Ha Hn. unfold read_radix. cbv zeta. change (over (ch "0" :: x :: ds) s) with (over ds (advance (advance s))).
  assert (E2 : rest (advance (advance s)) = ds ++ a) by (do 2 eapply advance_rest; done).
  pose proof (over_consumes _ _ _ E2) as H3. rewrite (advance_while_eq _ _ _ _ H3) by (done || by rewrite (over_rest _ _ _ E2)).
  by rewrite (slice_consumes _ _ _ H3), Hn.
Qed.

Lemma marks s : radix_mark (rest s) =
  peeks s "0" && next_is (fun c => (c =? ch "x") || (c =? ch "X")) (peek2 s)
  || peeks s "0" && next_is (fun c => (c =? ch "o") || (c =? ch "O")) (peek2 s).
Proof.
  rewrite !peeks_start, !next_is_peek2. destruct (rest s) as [|c [|x r]]; cbn [radix_mark starts_with tail].
  - done.
  - by rewrite !andb_false_r.
  - by rewrite !(N.eqb_sym (ch _)), <- andb_orb_distrib_r, !orb_assoc.
Qed.

Lemma mark_rest s (p : N -> bool) : peeks s "0" && next_is p (peek2 s) = true -> exists x r, rest s = ch "0" :: x :: r /\ p x = true.
Proof.
  rewrite peeks_start, next_is_peek2. destruct (rest s) as [|c [|x r]]; cbn [starts_with tail]; [done|by rewrite andb_false_r|].
  rewrite andb_true_iff, N.eqb_eq. intros [<- Hx]. by exists x, r.
Qed.

Lemma one_of (x : N) a b : (x =? a) || (x =? b) = true <-> x ∈ [a; b].
Proof using chars laws. rewrite orb_true_iff, !N.eqb_eq. set_solver. Qed.

Lemma read_number_spec s : starts_with is_ascii_digit (rest s) = true \/
    fraction_start (rest s) = true /\ starts_with is_ascii_digit (tail (rest s)) = true ->
  kind_read s (read_number s).
Proof using chars laws.
  intros Hs. unfold read_number.
  destruct (peeks s "0" && next_is (fun c => (c =? ch "x") || (c =? ch "X")) (peek2 s)) eqn:Hx.
  { destruct (mark_rest _ _ Hx) as (x & r & E & Hxx%one_of). pose proof (read_radix_spec 16 is_ascii_hexdigit s x r E) as H.
    destruct (read_radix _ _ _) as [[k s']|e]; [|done]. destruct H as (ds & n & -> & Hc & Hd & Hr & Hn).
    exists (ch "0" :: x :: ds). split; [done|]. by apply spells_hex. }
  destruct (peeks s "0" && next_is (fun c => (c =? ch "o") || (c =? ch "O")) (peek2 s)) eqn:Ho.
  { destruct (mark_rest _ _ Ho) as (x & r & E & Hxx%one_of). pose proof (read_radix_spec 8 is_octal_digit s x r E) as H.
    destruct (read_radix _ _ _) as [[k s']|e]; [|done]. destruct H as (ds & n & -> & Hc & Hd & Hr & Hn).
    exists (ch "0" :: x :: ds). split; [done|]. by apply spells_octal. }
  pose proof (marks s) as Hm. rewrite Hx, Ho in Hm. cbn [orb] in Hm. clear Hx Ho. cbv zeta.
  destruct (advance_while_spec is_ascii_digit s) as (int & H1 & Hd1 & Hr1). set (s1 := advance_while is_ascii_digit s) in *.
  assert (Hint : int <> [] \/ fraction_start (rest s1) = true /\ starts_with is_ascii_digit (tail (rest s1)) = true).
  { destruct int as [|c int]; [right|by left]. destruct H1 as [E1 _]. cbn [app] in E1. rewrite <- E1 in Hr1 |- *.
    destruct Hs as [Hs|Hs]; [congruence|done]. }
  destruct (read_fraction_spec _ _ _ H1 Hint) as (frac & H2 & Hf & Hb2).
  destruct (read_fraction s s1) as [s2 fl]. cbn [fst snd] in *. subst fl.
  destruct (read_exponent_spec s2 (negb (bool_decide (frac = [])))) as (exp & H3 & He & Hb3).
  destruct (read_exponent s2 _) as [s3 fl]. cbn [fst snd] in *. subst fl.
  assert (Hc : consumes s (int ++ frac ++ exp) s3) by (eapply consumes_app; [done|by eapply consumes_app]).
  rewrite (slice_consumes _ _ _ Hc).
  assert (Hdec : decimal (int ++ frac ++ exp) (negb (bool_decide (frac = [] /\ exp = []))) (rest s3)).
  { destruct H1 as [E1 _], H2 as [E2 _], H3 as [E3 _]. constructor; try done.
    - by rewrite <- E3, <- E2.
    - by rewrite <- E3.
    - by rewrite <- E3, <- E2, <- E1. }
  assert (Hfl : negb (bool_decide (frac = [])) || negb (bool_decide (exp = [])) = negb (bool_decide (frac = [] /\ exp = []))).
  { rewrite <- negb_andb, <- bool_decide_and. done. }
  rewrite Hfl. destruct (negb (bool_decide (frac = [] /\ exp = []))).
  - destruct (parse_f64 _) as [x|] eqn:Hp; cbn.
    + exists (int ++ frac ++ exp). split; [done|]. by apply spells_float.
    + by eapply error_here.
  - destruct (i64_digits 10 _) as [n|] eqn:Hp; cbn.
    + exists (int ++ frac ++ exp). split; [done|]. by apply spells_integer.
    + by eapply error_here.
Qed.

Lemma read_number_eq t fl a s k : decimal t fl a -> rest s = t ++ a ->
  (if fl then TokenKind.Float <$> parse_f64 t else TokenKind.Integer <$> i64_digits 10 t) = Some k ->
  read_number s = Ok (k, over t s).
Proof.
  intros Hdec E Hk. destruct Hdec as [int frac exp a Hd Hr Hf He Hm]. rewrite <- !app_assoc in E.
  unfold read_number. pose proof (marks s) as Hms. rewrite E, Hm in Hms. symmetry in Hms.
  apply orb_false_iff in Hms as [-> ->]. cbv zeta.
  pose proof (over_consumes _ _ _ E) as H1. pose proof (over_rest _ _ _ E) as E1.
  rewrite (advance_while_eq _ _ _ _ H1) by (done || by rewrite E1).
  rewrite (read_fraction_eq _ _ _ _ _ H1 Hf E1). pose proof (over_rest _ _ _ E1) as E2.
  rewrite (read_exponent_eq _ _ _ _ He E2).
  assert (Hfl : negb (bool_decide (frac = [])) || negb (bool_decide (exp = [])) = negb (bool_decide (frac = [] /\ exp = []))).
  { rewrite <- negb_andb, <- bool_decide_and. done. }
  rewrite Hfl, <- !over_app. rewrite (slice_consumes s (int ++ frac ++ exp)), Hk; [done|].
  apply over_consumes with a. by rewrite E, <- !app_assoc.
Qed.

(** *** The first character decides *)
Lemma lookup_char_key {A} c (l : list (N * A)) a : lookup_char c l = Some a -> c ∈ l.*1.
Proof using chars laws.
  induction l as [|[d b] l IH]; cbn; [done|]. destruct (N.eqb_spec c d) as [->|]; [set_solver|]. intros H%IH. set_solver.
Qed.

Definition specials : list N := punctuation.*1 ++ operators.*1 ++ [ch "."; 39; 34; ch "`"; ch "$"].
Definition plain_special (c : N) : bool :=
  (c <? 128) && negb (c =? 95) && negb (is_ascii_letter c) && negb (is_ascii_digit c) && negb (is_whitespace c).
Lemma specials_plain c : c ∈ specials -> plain_special c = true.
Proof.
  assert (H : forallb plain_special specials = true) by (by vm_compute).
  rewrite forallb_forall in H. intros Hc. apply H. by apply list_elem_of_In.
Qed.

Lemma special_not_start c : c ∈ specials -> is_identifier_start c = false.
Proof using chars laws.
  intros Hc%specials_plain. unfold plain_special in Hc. rewrite !andb_true_iff, !negb_true_iff, N.ltb_lt in Hc.
  destruct Hc as [[[[Hc Hu] Hl] _] _]. destruct (is_identifier_start c) eqn:Hs; [|done].
  apply ascii_letter_only in Hs as [->|Hs]; [done|congruence|done].
Qed.
Lemma special_not_digit c : c ∈ specials -> is_ascii_digit c = false.
Proof. intros Hc%specials_plain. unfold plain_special in Hc. rewrite !andb_true_iff, !negb_true_iff in Hc. by destruct Hc as [[_ Hc] _]. Qed.

Lemma not_trivia c r : is_whitespace c = false -> c <> ch "/" -> trivia_start (c :: r) = false.
Proof. intros Hw Hc. cbn [trivia_start]. rewrite Hw, (proj2 (N.eqb_neq c (ch "/")) Hc). by destruct r. Qed.

Lemma special_not_trivia c r : c ∈ specials -> c <> ch "/" -> trivia_start (c :: r) = false.
Proof.
  intros Hc%specials_plain Hn. apply not_trivia; [|done]. unfold plain_special in Hc. rewrite !andb_true_iff, !negb_true_iff in Hc.
  by destruct Hc as [_ Hc].
Qed.

Lemma digit_not_trivia c r : is_ascii_digit c = true -> trivia_start (c :: r) = false.
Proof.
  intros Hd%within_iff. apply not_trivia; [|intros ->; by destruct Hd].
  destruct (is_whitespace c) eqn:Hw; [|done]. unfold is_whitespace in Hw.
  rewrite !orb_true_iff, !within_iff, !N.eqb_eq in Hw. lia.
Qed.

Lemma start_not_trivia c r : is_identifier_start c = true -> trivia_start (c :: r) = false.
Proof using chars laws.
  intros Hs. apply not_trivia; [|intros ->; by rewrite special_not_start in Hs by set_solver].
  unfold is_identifier_start in Hs. apply orb_true_iff in Hs as [->%N.eqb_eq|Hs]; [done|]. by apply letters_not_space.
Qed.

Lemma not_special c s : c ∉ specials -> next_kind s c =
  if is_ascii_digit c then Some (read_number s)
  else if is_identifier_start c then Some (Ok (read_identifier_or_keyword s))
  else Some (Err (UnexpectedChar c (span_from s (advance s)))).
Proof using chars laws.
  intros Hc. unfold specials in Hc. rewrite !elem_of_app in Hc. unfold next_kind.
  destruct (lookup_char c punctuation) eqn:H1; [apply lookup_char_key in H1; set_solver|].
  destruct (lookup_char c operators) eqn:H2; [apply lookup_char_key in H2; set_solver|].
  do 5 (rewrite (proj2 (N.eqb_neq c _)) by set_solver). done.
Qed.

Lemma one_or_two_spec s c r k second : rest s = c :: r -> lookup_char c operators = Some (k, second) \/ c = ch "." /\
    k = TokenKind.Dot /\ second = [(ch ".", TokenKind.DotDot)] /\ starts_with is_ascii_digit r = false ->
  kind_read s (Ok (one_or_two s k second)).
Proof.
  intros E Hop. unfold one_or_two. cbv zeta. unfold peek. pose proof (advance_rest _ _ _ E) as E1. pose proof (consumes_one _ _ _ E) as H1.
  assert (Hone : (match r with d :: _ => lookup_char d second | [] => None end) = None -> kind_read s (Ok (k, advance s))).
  { intros Hn. exists [c]. split; [done|]. rewrite E1. destruct Hop as [Hop|(-> & -> & -> & Hd)]; [by eapply spells_one|].
    apply spells_dot. destruct r as [|d r]; [done|]. cbn in *. rewrite Hd. by destruct (d =? ch "."). }
  rewrite E1. destruct r as [|d r]; [by apply Hone|]. cbn. destruct (lookup_char d second) as [k'|] eqn:Hd; [|by apply Hone].
  exists [c; d]. split; [by eapply (consumes_app s [c]); [|eapply consumes_one]|]. rewrite (advance_rest _ _ _ E1).
  destruct Hop as [Hop|(-> & -> & -> & _)]; [by eapply spells_two|]. cbn in Hd. destruct (N.eqb_spec d (ch ".")) as [->|]; [|done].
  injection Hd as <-. apply spells_dot_dot.
Qed.

Lemma one_or_two_one s c r k second : rest s = c :: r -> (match r with d :: _ => lookup_char d second | [] => None end) = None ->
  one_or_two s k second = (k, over [c] s).
Proof. intros E Hn. unfold one_or_two, peek. rewrite (advance_rest _ _ _ E). destruct r; cbn; [done|]. by rewrite Hn. Qed.
Lemma one_or_two_two s c d r k second k' : rest s = c :: d :: r -> lookup_char d second = Some k' ->
  one_or_two s k second = (k', over [c; d] s).
Proof. intros E Hd. unfold one_or_two, peek. rewrite (advance_rest _ _ _ E). cbn. by rewrite Hd. Qed.

Lemma next_kind_spec s c r : rest s = c :: r -> trivia_start (rest s) = false ->
  match next_kind s c with None => False | Some k => kind_read s k end.
Proof using chars laws.
  intros E Ht. unfold next_kind. destruct (lookup_char c punctuation) as [k|] eqn:Hp.
  { exists [c]. split; [by eapply consumes_one|]. apply spells_punctuation; [done|]. by rewrite (advance_rest _ _ _ E), <- E. }
  destruct (lookup_char c operators) as [[one second]|] eqn:Ho; [by eapply one_or_two_spec; [|left]|].
  destruct (N.eqb_spec c (ch ".")) as [->|Hdot].
  { rewrite next_is_peek2, E. cbn [tail]. destruct (starts_with is_ascii_digit r) eqn:Hd.
    - apply read_number_spec. right. rewrite E. cbn [tail]. split; [|done]. unfold fraction_start. cbn [starts_with tail].
      rewrite N.eqb_refl. destruct r as [|d r]; [done|]. cbn in Hd |- *. by destruct (N.eqb_spec (ch ".") d) as [<-|].
    - eapply one_or_two_spec; [done|]. by right. }
  destruct ((c =? 39) || (c =? 34)) eqn:Hq.
  { apply orb_true_iff in Hq. rewrite !N.eqb_eq in Hq. pose proof (read_string_spec s c r Hq E) as H. unfold lexed_bind.
    destruct (read_string c s) as [[[v s']|e]|]; [|done..]. destruct H as (b & Hc & Hb). exists (c :: b ++ [c]). split; [done|].
    apply spells_string; [|done]. destruct Hq as [-> | ->]; set_solver. }
  destruct (N.eqb_spec c (ch "`")) as [->|Hb].
  { pose proof (read_backtick_spec _ _ E) as H. destruct (read_backtick_identifier s) as [[v s']|e]; [|done].
    destruct H as [Hc Hr]. eexists. split; [done|]. by apply spells_quoted. }
  destruct (N.eqb_spec c (ch "$")) as [->|Hd]; [by eapply read_parameter_spec|].
  destruct (is_ascii_digit c) eqn:Hdig; [apply read_number_spec; left; by rewrite E|].
  destruct (is_identifier_start c) eqn:Hst; [apply read_identifier_spec; by rewrite E|].
  by eapply (error_here s [c]); [eapply consumes_one| | |].
Qed.

(** *** Every spelling is read *)
Lemma operator_special c x : lookup_char c operators = Some x -> c ∈ specials /\ lookup_char c punctuation = None.
Proof using chars laws.
  intros H. assert (Hk : c ∈ operators.*1) by (by eapply lookup_char_key). split; [unfold specials; set_solver|].
  assert (Hall : forallb (fun c => bool_decide (lookup_char c punctuation = None)) operators.*1 = true) by done.
  rewrite forallb_forall in Hall. by eapply bool_decide_eq_true, Hall, list_elem_of_In.
Qed.

Lemma digit_not_special c : is_ascii_digit c = true -> c ∉ specials.
Proof. intros Hd Hc. by rewrite special_not_digit in Hd. Qed.
Lemma start_not_special c : is_identifier_start c = true -> c ∉ specials.
Proof using chars laws. intros Hd Hc. by rewrite special_not_start in Hd. Qed.

Lemma decimal_first t fl a : decimal t fl a -> exists c r, t = c :: r /\
  (is_ascii_digit c = true \/ c = ch "." /\ starts_with is_ascii_digit r = true).
Proof.
  intros [int frac exp a' Hd Hr Hf He Hm]. destruct int as [|c int]; [|exists c, (int ++ frac ++ exp); split; [done|]; left; by apply Forall_inv in Hd].
  inversion Hf as [? Hne|ds ? Hds Hor Hs Ha]; [done|]. subst. exists (ch "."), (ds ++ exp). split; [done|]. right.
  split; [done|]. destruct Hor as [|Hne]; [done|]. destruct ds as [|d ds]; [done|]. by apply Forall_inv in Hds.
Qed.

Lemma spells_ne k t a : spells k t a -> t <> [].
Proof.
  intros [| | | | |t' a' [Hs _] _| | | | | | | |t' n a' Hd _|t' x a' Hd _]; try done.
  - intros ->. done.
  - apply decimal_first in Hd as (c & r & -> & _). done.
  - apply decimal_first in Hd as (c & r & -> & _). done.
Qed.

Lemma spells_not_trivia k t a : spells k t a -> trivia_start (t ++ a) = false.
Proof using chars laws.
  assert (Hop : forall c x r, lookup_char c operators = Some x -> trivia_start (c :: r) = false).
  { intros c x r H. apply special_not_trivia; [by eapply operator_special|]. by intros ->. }
  assert (Hdec : forall t fl a, decimal t fl a -> trivia_start (t ++ a) = false).
  { intros t' fl a' (c & r & -> & [Hd | [-> _]])%decimal_first; [by apply digit_not_trivia|by apply not_trivia]. }
  intros [| | | | |t' a' [Hs _] _| | | | |q b v a' Hq| | | |]; try done; try (by eapply Hop); try (by eapply Hdec).
  - by apply not_trivia.
  - destruct t' as [|c t']; [done|]. by apply start_not_trivia.
  - by apply (not_trivia (ch "`")).
  - by apply (not_trivia (ch "$")).
  - by apply (not_trivia (ch "$")).
  - apply elem_of_cons in Hq as [-> | ->%list_elem_of_singleton]; by apply not_trivia.
Qed.

Lemma next_kind_eq k t a s : spells k t a -> rest s = t ++ a -> exists c, peek s = Some c /\ next_kind s c = Some (Ok (k, over t s)).
Proof using chars laws.
  intros Hs E. destruct t as [|c t]; [by apply spells_ne in Hs|]. exists c. split; [unfold peek; by rewrite E|].
  assert (Hdec : forall fl, decimal (c :: t) fl a ->
    (if fl then TokenKind.Float <$> parse_f64 (c :: t) else TokenKind.Integer <$> i64_digits 10 (c :: t)) = Some k ->
    next_kind s c = Some (Ok (k, over (c :: t) s))).
  { intros fl Hd Hk. pose proof (read_number_eq _ _ _ s _ Hd E Hk) as Hn. apply decimal_first in Hd as (c' & r & [= <- <-] & [Hd|[-> Hd]]).
    - rewrite not_special by (by apply digit_not_special). by rewrite Hd, Hn.
    - change (next_kind s (ch ".")) with (if next_is is_ascii_digit (peek2 s) then Some (read_number s) else
        Some (Ok (one_or_two s TokenKind.Dot [(ch ".", TokenKind.DotDot)]))).
      rewrite next_is_peek2, E. cbn [app tail]. rewrite starts_with_app, Hd, Hn by (by destruct t). done. }
  remember (c :: t) as w eqn:Ew. destruct Hs as [c' k a Hp Ht|c' k second a Ho Hn|c' k second d k' a Ho Hd|a Ha|a|w a Hw Ha|v a Ha
    |ds a Hd Hne Ha|w a Hw Ha|v a Ha|q b v a Hq Hb|x ds n a Hx Hd Ha Hn|x ds n a Hx Hd Ha Hn|w n a Hd Hn|w x a Hd Hx].
  - injection Ew as -> <-. unfold next_kind. by rewrite Hp.
  - injection Ew as -> <-. unfold next_kind. rewrite (proj2 (operator_special _ _ Ho)), Ho. by rewrite (one_or_two_one s c a).
  - injection Ew as -> <-. unfold next_kind. rewrite (proj2 (operator_special _ _ Ho)), Ho. by rewrite (one_or_two_two s c d a k second k').
  - injection Ew as <- <-. change (next_kind s (ch ".")) with (if next_is is_ascii_digit (peek2 s) then Some (read_number s) else
        Some (Ok (one_or_two s TokenKind.Dot [(ch ".", TokenKind.DotDot)]))).
    rewrite next_is_peek2, E. cbn [app tail].
    assert (starts_with is_ascii_digit a = false) as -> by (destruct a as [|d a]; [done|]; cbn in *; by destruct (is_ascii_digit d)).
    rewrite (one_or_two_one s (ch ".") a); [done|done|]. destruct a as [|d a]; [done|]. cbn in *. destruct (d =? ch "."); [|done].
    by rewrite orb_true_r in Ha.
  - injection Ew as <- <-. change (next_kind s (ch ".")) with (if next_is is_ascii_digit (peek2 s) then Some (read_number s) else
        Some (Ok (one_or_two s TokenKind.Dot [(ch ".", TokenKind.DotDot)]))).
    rewrite next_is_peek2, E. change (starts_with is_ascii_digit _) with false. cbv iota.
    by rewrite (one_or_two_two s (ch ".") (ch ".") a _ _ TokenKind.DotDot).
  - subst w. pose proof Hw as [Hst _]. cbn in Hst. rewrite not_special by (by apply start_not_special).
    rewrite (start_not_digit _ Hst), Hst. by rewrite (read_identifier_eq (c :: t) a).
  - injection Ew as <- _. change (next_kind s (ch "`")) with (Some (match read_backtick_identifier s with
      Ok (v, s') => Ok (TokenKind.Identifier v, s') | Err e => Err e end)). rewrite <- !app_assoc in E. by rewrite (read_backtick_eq v s a).
  - injection Ew as <- _. change (next_kind s (ch "$")) with (Some (read_parameter s)). rewrite <- app_assoc in E.
    by rewrite (read_parameter_number ds a).
  - injection Ew as <- _. change (next_kind s (ch "$")) with (Some (read_parameter s)). rewrite <- app_assoc in E.
    by rewrite (read_parameter_name w a).
  - injection Ew as <- _. change (next_kind s (ch "$")) with (Some (read_parameter s)). rewrite <- !app_assoc in E.
    by rewrite (read_parameter_quoted v a).
  - injection Ew as <- _. assert (next_kind s q = lexed_bind (read_string q s) (fun '(v, s') => Some (Ok (TokenKind.String v, s')))) as ->.
    { apply elem_of_cons in Hq as [-> | ->%list_elem_of_singleton]; done. }
    assert (q = 39 \/ q = 34) by set_solver. cbn [app] in E. rewrite <- app_assoc in E. by rewrite (read_string_eq s q b v a).
  - injection Ew as <- _. change (next_kind s (ch "0")) with (Some (read_number s)). unfold read_number. cbn [app] in E.
    rewrite peeks_start, !next_is_peek2, E. cbn [starts_with tail]. rewrite (proj2 (one_of x _ _) Hx). cbn [andb].
    change (ch "0" =? ch "0") with true. cbn [andb]. by rewrite (read_radix_eq 16 is_ascii_hexdigit s x ds n a).
  - injection Ew as <- _. change (next_kind s (ch "0")) with (Some (read_number s)). unfold read_number. cbn [app] in E.
    rewrite peeks_start, !next_is_peek2, E. cbn [starts_with tail]. rewrite (proj2 (one_of x _ _) Hx). cbn [andb].
    change (ch "0" =? ch "0") with true. cbn [andb].
    assert ((x =? ch "x") || (x =? ch "X") = false) as -> by (apply elem_of_cons in Hx as [-> | ->%list_elem_of_singleton]; done).
    by rewrite (read_radix_eq 8 is_octal_digit s x ds n a).
  - subst w. apply (Hdec false); [done|]. by rewrite Hn.
  - subst w. apply (Hdec true); [done|]. by rewrite Hx.
Qed.

(** *** The whole source *)
Lemma next_token_spec s : match next_token s with
  | None => False
  | Some (Err e) => error_at s e
  | Some (Ok (None, s')) => consumes s (rest s) s' /\ trivia [] (rest s)
  | Some (Ok (Some tok, s')) => exists tr t, consumes s (tr ++ t) s' /\ trivia (t ++ rest s') tr /\ spells (kind tok) t (rest s') /\
      t <> [] /\ span tok = span_from (over tr s) s'
  end.
Proof using chars laws.
  unfold next_token. pose proof (skip_trivia_spec (S (length (rest s))) s ltac:(lia)) as H. unfold skip_trivia.
  destruct (skip_trivia_loop _ s) as [[s1|e]|]; cbn [lexed_bind] in *; [| |done].
  - destruct H as (tr & Hc & Htr & Hs). unfold peek. destruct (rest s1) as [|c r] eqn:E.
    + assert (rest s = tr) as -> by (destruct Hc as [-> _]; by rewrite E, app_nil_r). done.
    + pose proof (next_kind_spec s1 c r E ltac:(by rewrite E)) as Hk. destruct (next_kind s1 c) as [[[k s2]|e]|]; [| |done].
      * destruct Hk as (t & Ht & Hsp). exists tr, t. cbn [kind span]. split; [by eapply consumes_app|]. split; [|split; [done|]].
        -- destruct Ht as [<- _]. by rewrite E.
        -- split; [by eapply spells_ne|]. by destruct Hc as [_ ->].
      * by eapply error_over.
  - destruct H as (t & r & E & Htr & ->). exists t, (lit "/*"), r. done.
Qed.

Lemma next_token_end s : trivia [] (rest s) -> next_token s = Some (Ok (None, over (rest s) s)).
Proof.
  intros Ht. unfold next_token, skip_trivia. rewrite (skip_trivia_eq [] (rest s)) by (done || (by rewrite app_nil_r) || lia).
  cbn [lexed_bind]. unfold peek. by rewrite (over_rest (rest s) s []) by (by rewrite app_nil_r).
Qed.

Lemma next_token_eq tr k t a s : trivia (t ++ a) tr -> spells k t a -> rest s = tr ++ t ++ a ->
  next_token s = Some (Ok (Some (mkToken k (span_from (over tr s) (over t (over tr s)))), over t (over tr s))).
Proof using chars laws.
  intros Ht Hs E. unfold next_token, skip_trivia. pose proof (over_rest _ _ _ E) as E1.
  rewrite (skip_trivia_eq (t ++ a) tr) by (done || (by eapply spells_not_trivia) || lia). cbn [lexed_bind].
  destruct (next_kind_eq _ _ _ _ Hs E1) as (c & -> & Hk). by rewrite Hk.
Qed.

Lemma tokenize_loop_spec fuel p toks s : (length (rest s) < fuel)%nat -> behind p s ->
  match tokenize_loop fuel toks s with
  | None => False
  | Some (Err e) => error_at s e
  | Some (Ok (toks', s')) => exists new, toks' = toks ++ new /\ consumes s (rest s) s' /\
      tokens_of p (rest s) (new ++ [mkToken TokenKind.Eof (span_at (p ++ rest s) [])])
  end.
Proof using chars laws.
  revert p toks s. induction fuel as [|fuel IH]; intros p toks s Hf Hp; [lia|]. cbn [tokenize_loop].
  pose proof (next_token_spec s) as H. destruct (next_token s) as [[[[tok|] s']|e]|]; cbn [lexed_bind]; [| |done..].
  - destruct H as (tr & t & Hc & Htr & Hsp & Hne & Hspan). pose proof (behind_consumes _ _ _ _ Hp Hc) as Hp'.
    assert (Hlen : (length (rest s') < fuel)%nat).
    { destruct Hc as [Ec _]. rewrite Ec, !length_app in Hf. destruct t; [done|]. cbn in Hf. lia. }
    specialize (IH (p ++ tr ++ t) (toks ++ [tok]) s' Hlen Hp'). pose proof Hc as [Ec Es]. rewrite <- app_assoc in Ec.
    destruct (tokenize_loop fuel _ s') as [[[toks' s'']|e]|]; [|by eapply error_over|done].
    destruct IH as (new & -> & Hc' & Htok). exists (tok :: new). rewrite <- app_assoc. split; [done|].
    assert (Hspan' : span tok = span_at (p ++ tr) t).
    { rewrite Hspan. apply behind_span; [by eapply behind_over|]. rewrite over_app in Es. split; [|done]. by apply over_rest. }
    split.
    + rewrite Ec, app_assoc. by eapply consumes_app.
    + rewrite Ec. cbn [app]. destruct tok as [k sp]. cbn [kind span] in *. rewrite Hspan'. apply tokens_next; [done..|].
      rewrite <- !app_assoc in Htok. exact Htok.
  - destruct H as [Hc Ht]. exists []. rewrite app_nil_r. split; [done|]. split; [done|]. by apply tokens_end.
Qed.

Lemma tokenize_loop_eq fuel p t toks toks0 s : tokens_of p t toks -> rest s = t -> behind p s -> (length t < fuel)%nat ->
  exists toks' , toks = toks' ++ [mkToken TokenKind.Eof (span_at (p ++ t) [])] /\
    tokenize_loop fuel toks0 s = Some (Ok (toks0 ++ toks', over t s)).
Proof using chars laws.
  intros Ht. revert fuel toks0 s. induction Ht as [p tr Htr|p tr k t a toks Htr Hs Ht IH]; intros [|fuel] toks0 s E Hp Hf; try lia.
  - exists []. split; [done|]. cbn [tokenize_loop]. rewrite next_token_end by (by rewrite E). cbn [lexed_bind].
    by rewrite app_nil_r, E.
  - cbn [tokenize_loop]. rewrite (next_token_eq _ _ _ _ _ Htr Hs E). cbn [lexed_bind]. pose proof (over_rest _ _ _ E) as E1.
    pose proof (over_rest _ _ _ E1) as E2. destruct (IH fuel (toks0 ++ [mkToken k (span_from (over tr s) (over t (over tr s)))])
      (over t (over tr s))) as (toks' & Et & Hl).
    + done.
    + rewrite app_assoc. eapply behind_over; [by eapply behind_over|done].
    + rewrite !length_app in Hf. apply spells_ne in Hs. destruct t; [done|]. cbn in Hf. lia.
    + exists (mkToken k (span_at (p ++ tr) t) :: toks'). split.
      * rewrite Et. by rewrite <- !app_assoc.
      * assert (Hsp : span_from (over tr s) (over t (over tr s)) = span_at (p ++ tr) t).
        { apply behind_span; [by eapply behind_over|by eapply over_consumes]. }
        rewrite Hl, <- app_assoc, Hsp. by rewrite !over_app.
Qed.

Lemma tokenize_some source : tokenize source <> None.
Proof using laws.
  unfold tokenize. pose proof (tokenize_loop_spec (S (length source)) [] [] (new source) ltac:(cbn; lia) (behind_new source)) as H.
  by destruct (tokenize_loop _ _ _) as [[[toks' s']|e]|].
Qed.

Lemma tokens_tokenize source toks : tokens_of [] source toks -> tokenize source = Some (Ok toks).
Proof using laws.
  unfold tokenize. intros Ht. destruct (tokenize_loop_eq (S (length source)) [] source toks [] (new source)) as (toks' & -> & ->);
    [done..|lia|]. cbn [lexed_bind]. unfold span_at. rewrite N.add_0_r.
  destruct (behind_over [] source (new source) []) as (_ & -> & ->); [done|by rewrite app_nil_r|done].
Qed.

Lemma tokenize_tokens source toks : tokenize source = Some (Ok toks) -> tokens_of [] source toks.
Proof using laws.
  unfold tokenize.
  pose proof (tokenize_loop_spec (S (length source)) [] [] (new source) ltac:(cbn; lia) (behind_new source)) as H.
  destruct (tokenize_loop _ _ _) as [[[toks' s']|e]|]; cbn [lexed_bind]; [|done..]. destruct H as (nw & -> & Hc & Ht).
  intros [= <-]. destruct (behind_consumes _ _ _ _ (behind_new source) Hc) as (_ & -> & ->). cbn [rest new app] in *.
  unfold span_at in Ht. by rewrite N.add_0_r in Ht.
Qed.

(** C24: The lexer reads exactly the tokens of the lexical grammar: a source
    has a list of tokens just when it is trivia and spellings in turn, each as
    long as its kind allows (a name up to the next character that cannot
    continue it, [..] never as two points, [1..3] never as a float), and then
    each token has the bytes, line and column of its spelling, and [Eof] those
    of the end. *)
Theorem tokenize_exact source toks : tokenize source = Some (Ok toks) <-> tokens_of [] source toks.
Proof using laws. split; [apply tokenize_tokens|apply tokens_tokenize]. Qed.

(** The lexer always answers.  An error shows a piece of the source: its
    span is that piece's bytes, line and column, and the piece is what the
    error is about, such as the character no token begins with, the opening
    quote that is never closed, or the number that does not fit. *)
Theorem lex_error_located source : exists r, tokenize source = Some r /\
  forall e, r = Err e -> exists p x q, source = p ++ x ++ q /\ error_span e = span_at p x /\ error_shows e x.
Proof using laws.
  unfold tokenize.
  pose proof (tokenize_loop_spec (S (length source)) [] [] (new source) ltac:(cbn; lia) (behind_new source)) as H.
  destruct (tokenize_loop _ _ _) as [[[toks' s']|e]|]; cbn [lexed_bind]; [|eexists; split; [done|]|done].
  { eexists. split; [done|]. by intros. }
  intros ? [= <-]. destruct H as (p & x & q & E & Hs & Hx). exists p, x, q. split; [done|]. split; [|done].
  rewrite Hs. destruct (behind_over [] p (new source) (x ++ q) (behind_new source) E) as (Hc & Hl & Hk).
  unfold span_of_len, span_at. by rewrite Hc, Hl, Hk.
Qed.
End readers.

(** ** Printed tokens *)
Lemma digits_value_app radix a b : digits_value radix (a ++ b) = digits_value radix a * radix ^ N.of_nat (length b) + digits_value radix b.
Proof.
  unfold digits_value. rewrite foldl_app. generalize (foldl (fun n c => n * radix + digit_value c) 0 a). intros x. revert x.
  induction b as [|c b IH] using rev_ind; intros x; [cbn; lia|]. rewrite !foldl_app. cbn [foldl]. rewrite IH, length_app. cbn [length].
  rewrite Nat.add_1_r, Nat2N.inj_succ, N.pow_succ_r'. lia.
Qed.

Definition digit_char (d : N) : N := if d <? 10 then 48 + d else 87 + d.
Lemma digit_char_value d : d < 16 -> digit_value (digit_char d) = d.
Proof.
  intros Hd. assert (H : forallb (fun d => digit_value (digit_char d) =? d) (N.of_nat <$> seq 0 16) = true) by done.
  rewrite forallb_forall in H. apply N.eqb_eq, H, list_elem_of_In, list_elem_of_fmap. exists (N.to_nat d).
  rewrite N2Nat.id, elem_of_seq. split; [done|lia].
Qed.

Lemma digits_of_spec radix fuel n acc : 2 <= radix <= 16 -> n < 2 ^ N.of_nat (S fuel) ->
  exists ds, digits_of (S fuel) radix n acc = ds ++ acc /\ ds <> [] /\ digits_value radix ds = n /\
    Forall (fun c => exists d, d < radix /\ c = digit_char d) ds.
Proof.
  intros Hr. revert n acc. induction fuel as [|fuel IH]; intros n acc Hn;
    (assert (Hm : n mod radix < radix) by (apply N.mod_lt; lia));
    rewrite (eq_refl : digits_of (S _) radix n acc =
      if n <? radix then digit_char (n mod radix) :: acc else digits_of _ radix (n / radix) (digit_char (n mod radix) :: acc));
    (destruct (N.ltb_spec n radix) as [Hlt|Hge];
    [exists [digit_char (n mod radix)]; split; [done|]; split; [done|]; rewrite N.mod_small by done; split;
      [cbn; rewrite digit_char_value; lia|constructor; [by exists n|done]]|]).
  - cbn in Hn. lia.
  - destruct (IH (n / radix) (digit_char (n mod radix) :: acc)) as (ds & E & Hne & Hv & Hd).
    { rewrite Nat2N.inj_succ, N.pow_succ_r' in Hn. apply N.Div0.div_lt_upper_bound. nia. }
    exists (ds ++ [digit_char (n mod radix)]). split; [|split; [by destruct ds|split]].
    + rewrite <- app_assoc. exact E.
    + rewrite digits_value_app, Hv. cbn. rewrite digit_char_value by lia. pose proof (N.div_mod' n radix). lia.
    + apply Forall_app. split; [done|]. constructor; [|done]. by exists (n mod radix).
Qed.

Lemma number_text_spec radix n : 2 <= radix <= 16 -> number_text radix n <> [] /\ digits_value radix (number_text radix n) = n /\
  Forall (fun c => exists d, d < radix /\ c = digit_char d) (number_text radix n).
Proof.
  intros Hr. unfold number_text. destruct (digits_of_spec radix (N.to_nat (N.log2 n)) n [] Hr) as (ds & E & H).
  - rewrite Nat2N.inj_succ, N2Nat.id. destruct (decide (n = 0)) as [->|Hn]; [done|]. apply N.log2_spec. lia.
  - by rewrite E, app_nil_r.
Qed.

Lemma number_digits radix (p : N -> bool) n : 2 <= radix <= 16 -> forallb (fun d => p (digit_char d)) (N.of_nat <$> seq 0 (N.to_nat radix)) = true ->
  Forall (fun c => p c = true) (number_text radix n).
Proof.
  intros Hr Hp. destruct (number_text_spec radix n Hr) as (_ & _ & H). rewrite forallb_forall in Hp.
  eapply Forall_impl; [exact H|]. intros c (d & Hd & ->). apply Hp, list_elem_of_In, list_elem_of_fmap. exists (N.to_nat d).
  rewrite N2Nat.id, elem_of_seq. split; [done|lia].
Qed.

Lemma from_str_radix_number largest radix n : 2 <= radix <= 16 -> n <= largest -> from_str_radix largest radix (number_text radix n) = Some n.
Proof.
  intros Hr Hn. destruct (number_text_spec radix n Hr) as (Hne & Hv & _). unfold from_str_radix.
  destruct (number_text radix n); [done|]. by rewrite Hv, (proj2 (N.leb_le _ _) Hn).
Qed.

Section printing.
Context {chars : Chars} {laws : CharsLaws}.

(** The tokens that can be printed: names that are no keywords, integers that
    are not negative, strings of characters; no floats. *)
Definition displayable (k : TokenKind) : Prop :=
  match k with
  | TokenKind.Integer n => (0 <= n < 2 ^ 63)%Z
  | TokenKind.Float _ | TokenKind.Eof => False
  | TokenKind.Identifier s => is_name s /\ lookup_word (to_ascii_uppercase <$> s) keywords = None
  | TokenKind.Param s => is_name s \/ all_digits s /\ s <> []
  | TokenKind.String s => Forall (fun c => is_scalar c = true) s
  | _ => True
  end.

Definition print_tokens (ks : list TokenKind) : text := concat ((fun k => fmt k ++ [32]) <$> ks).

Lemma escape_debug_body c b v : is_scalar c = true -> string_body 34 b v -> string_body 34 (escape_debug c ++ b) (c :: v).
Proof.
  intros Hc Hb. unfold escape_debug.
  assert (Hl : forall e c, lookup_char e escapes = Some c -> string_body 34 ([92; e] ++ b) (c :: v)).
  { intros e c' He. apply (body_escape 34 [e]); [by constructor|done]. }
  destruct (N.eqb_spec c 0) as [->|]; [by apply (Hl 48)|]. destruct (N.eqb_spec c 9) as [->|]; [by apply (Hl 116)|].
  destruct (N.eqb_spec c 13) as [->|]; [by apply (Hl 114)|]. destruct (N.eqb_spec c 10) as [->|]; [by apply (Hl 110)|].
  destruct (N.eqb_spec c 92) as [->|]; [by apply (Hl 92)|]. destruct (N.eqb_spec c 34) as [->|]; [by apply (Hl 34)|].
  destruct (is_printable c); [by apply body_char|].
  change (lit "\u{" ++ number_text 16 c ++ lit "}") with (92 :: (lit "u{" ++ number_text 16 c ++ lit "}")).
  rewrite <- app_comm_cons. apply (body_escape 34 (lit "u{" ++ number_text 16 c ++ lit "}")); [|done].
  apply escape_braces; [by apply number_digits|].
  rewrite from_str_radix_number; [|lia|]; cbn.
  - unfold from_u32. by rewrite Hc.
  - unfold is_scalar in Hc. apply orb_true_iff in Hc as [Hc%N.ltb_lt|Hc%within_iff]; lia.
Qed.

Lemma string_debug_body s : Forall (fun c => is_scalar c = true) s -> string_body 34 (concat (escape_debug <$> s)) s.
Proof. induction 1 as [|c s Hc Hs IH]; cbn; [constructor|]. by apply escape_debug_body. Qed.

Lemma ascii_name t : t <> [] -> forallb (fun c => (c <? 128) && is_ascii_letter c) t = true -> is_name t.
Proof using laws.
  intros Hne Ht. assert (H : Forall (fun c => is_identifier_start c = true) t).
  { rewrite forallb_forall in Ht. apply Forall_forall. intros c Hc%list_elem_of_In%Ht. apply andb_true_iff in Hc as [Hc Hl].
    unfold is_identifier_start. rewrite ascii_alphabetic by (by apply N.ltb_lt). by rewrite Hl, orb_true_r. }
  split; [destruct t; [done|by apply Forall_inv in H]|]. eapply Forall_impl; [exact H|]. apply start_continues.
Qed.

Lemma space_ends after : starts_with is_identifier_continue (32 :: after) = false.
Proof using laws.
  cbn. unfold is_identifier_continue, is_alphanumeric. by rewrite ascii_alphabetic, ascii_numeric.
Qed.

Lemma keyword_spells w k after : keyword_or_identifier (lit w) = k -> forallb (fun c => (c <? 128) && is_ascii_letter c) (lit w) = true ->
  lit w <> [] -> spells k (lit w) (32 :: after).
Proof using laws. intros <- Ht Hne. apply spells_word; [by apply ascii_name|apply space_ends]. Qed.

Lemma integer_decimal n after : decimal (number_text 10 n) false (32 :: after).
Proof.
  pose proof (a_decimal (number_text 10 n) [] [] (32 :: after)) as H. rewrite !app_nil_r in H. cbn [app] in H.
  destruct (number_text_spec 10 n) as (Hne & _ & _); [lia|]. apply H; try done.
  - by apply number_digits.
  - by apply no_fraction.
  - by apply no_exponent.
  - assert (Hd : all_digits (number_text 10 n)) by (by apply number_digits). destruct (number_text 10 n) as [|c [|x t]]; [done| |].
    + cbn. by rewrite andb_false_r.
    + apply Forall_cons in Hd as [_ [Hx%within_iff _]%Forall_cons]. cbn [app radix_mark].
      apply andb_false_iff. right. rewrite !orb_false_iff, !N.eqb_neq. unfold ch. cbn. lia.
Qed.

Lemma fmt_spells k after : displayable k -> spells k (fmt k) (32 :: after).
Proof using laws.
  destruct k; cbn [displayable fmt]; intros H;
    try (by apply keyword_spells); try (by apply spells_punctuation); try (by eapply spells_one); try (by eapply spells_two);
    try (by apply spells_dot); try apply spells_dot_dot; try done.
  - unfold integer_text. rewrite (proj2 (Z.ltb_ge _ _)) by lia. apply spells_integer; [apply integer_decimal|].
    unfold i64_digits. rewrite from_str_radix_number by lia. cbn. f_equal. lia.
  - apply spells_string; [set_solver|]. by apply string_debug_body.
  - destruct H as [Hn Hk]. pose proof (spells_word s (32 :: after) Hn (space_ends after)) as Hs. unfold keyword_or_identifier in Hs.
    by rewrite Hk in Hs.
  - destruct H as [Hn|[Hd Hne]]; [apply spells_parameter; [done|apply space_ends]|by apply spells_number_parameter].
Qed.

(** Tokens printed with [Display], a space behind each, are read back as
    they were: keywords in any place, names that are no keywords, parameters,
    integers up to the largest, strings with their escapes. *)
Theorem printed_tokens_read_back ks : Forall displayable ks ->
  exists toks, tokenize (print_tokens ks) = Some (Ok toks) /\ kind <$> toks = ks ++ [TokenKind.Eof].
Proof using laws.
  intros Hks. assert (H : forall p tr, trivia (print_tokens ks) tr ->
    exists toks, tokens_of p (tr ++ print_tokens ks) toks /\ kind <$> toks = ks ++ [TokenKind.Eof]).
  { induction Hks as [|k ks Hk Hks IH]; intros p tr Htr.
    - eexists. split; [rewrite app_nil_r; by apply tokens_end|done].
    - change (print_tokens (k :: ks)) with ((fmt k ++ [32]) ++ print_tokens ks) in *. rewrite <- app_assoc in *.
      destruct (IH (p ++ tr ++ fmt k) [32]) as (toks & Ht & Hkind); [by apply trivia_space; [|constructor]|].
      exists (mkToken k (span_at (p ++ tr) (fmt k)) :: toks). split; [|cbn; by rewrite Hkind].
      apply tokens_next; [done|by apply fmt_spells|done]. }
  destruct (H [] [] ltac:(constructor)) as (toks & Ht & Hk). exists toks. split; [by apply tokens_tokenize|done].
Qed.
End printing.

(** ** By example *)
Module AsciiOnly.
#[export] Instance chars : Chars := {| is_alphabetic := is_ascii_letter; is_numeric := is_ascii_digit;
  is_printable := fun c => 32 <=? c; float_text := fun _ => []; to_uppercase := fmap to_ascii_uppercase |}.
#[export] Instance laws : CharsLaws.
Proof.
  split; [done|done|]. intros c. cbn. unfold is_ascii_letter, is_whitespace.
  rewrite orb_true_iff, !within_iff, !orb_false_iff, !N.eqb_neq, <- !not_true_iff_false, !within_iff. lia.
Qed.
End AsciiOnly.

Module Sources.
Import AsciiOnly.

Definition kinds_of (source : string) : list TokenKind :=
  match tokenize (lit source) with Some (Ok toks) => kind <$> toks | _ => [] end.

Lemma tokenize_exact_witness : exists toks, tokenize (lit "n.age<=0x1F // x") = Some (Ok toks) /\
  tokens_of [] (lit "n.age<=0x1F // x") toks /\
  kind <$> toks = [TokenKind.Identifier (lit "n"); TokenKind.Dot; TokenKind.Identifier (lit "age"); TokenKind.Le;
    TokenKind.Integer 31; TokenKind.Eof].
Proof.
  destruct (tokenize (lit "n.age<=0x1F // x")) as [[toks|]|] eqn:E; [|by vm_compute in E..].
  exists toks. split; [done|]. split; [by apply (tokenize_exact (lit "n.age<=0x1F // x") toks)|].
  vm_compute in E. injection E as <-. done.
Defined.

Lemma lex_error_located_witness : exists e p x q, tokenize (lit "RETURN 'a") = Some (Err e) /\
  lit "RETURN 'a" = p ++ x ++ q /\ error_span e = span_at p x /\ error_shows e x.
Proof.
  destruct (lex_error_located (lit "RETURN 'a")) as (r & Hr & H).
  destruct r as [toks|e]; [by vm_compute in Hr|]. destruct (H e eq_refl) as (p & x & q & E). exists e, p, x, q. exact (conj Hr E).
Defined.

Lemma printed_tokens_read_back_witness : exists toks,
  tokenize (print_tokens [TokenKind.Return; TokenKind.String [10; 34; 7]; TokenKind.Comma; TokenKind.Integer 12]) = Some (Ok toks) /\
  kind <$> toks = [TokenKind.Return; TokenKind.String [10; 34; 7]; TokenKind.Comma; TokenKind.Integer 12; TokenKind.Eof].
Proof.
  apply (printed_tokens_read_back [TokenKind.Return; TokenKind.String [10; 34; 7]; TokenKind.Comma; TokenKind.Integer 12]).
  repeat first [done | lia | constructor].
Defined.

(** A number too large for a double is read as infinity. *)
Theorem float_overflows_to_infinity : kinds_of "1e999" = [TokenKind.Float (S754_infinity false); TokenKind.Eof].
Proof. by vm_compute. Qed.

(** The smallest integer cannot be written: its digits are an error, whatever
    stands before them. *)
Theorem smallest_integer_refused : exists sp, tokenize (lit "-9223372036854775808") = Some (Err (InvalidNumber (lit "9223372036854775808") sp)).
Proof. eexists. by vm_compute. Qed.

(** An escape in braces may have any number of digits. *)
Theorem long_escape_accepted : kinds_of "'\u{0000000041}'" = [TokenKind.String (lit "A"); TokenKind.Eof].
Proof. by vm_compute. Qed.
End Sources.
