(* ===== verification/CypherAst.v ===== *)
(** * The Cypher syntax tree
    ([src/src/cypher/ast.rs], with [PropertyPath] of
    [src/drevo-core/src/native_path_index.rs] and the kinds of
    [src/src/path_index_registry.rs] and [src/src/constraint_registry.rs])

    Every node of the tree carries the [Span] it was read from. *)
From Stdlib Require Import SpecFloat.
From S2P Require Import Prelude CypherLexer.
Local Open Scope list_scope.

Inductive UnaryOp : Type := Neg | UPlus | UNot.
Inductive BinaryOp : Type :=
| Add | Sub | Mul | Div | Mod | Pow | BEq | BNe | BLt | BLe | BGt | BGe | BRegexMatch | BAnd | BOr | BXor
| StartsWith | EndsWith | BContains.
Inductive Direction : Type := Outgoing | Incoming | Undirected.
Inductive RelLength : Type := AnyLength | Exact (n : Z) | RangeLength (from to : option Z).
Inductive ListPredicateKind : Type := PAll | PAny | PNone | PSingle.
Inductive ShortestKind : Type := ShortestSingle | ShortestAll.
Inductive OrderDirection : Type := OAsc | ODesc.
Inductive UnionKind : Type := UnionDistinct | UnionAll.
Inductive IndexKind : Type := IndexRange | IndexText | IndexPoint.
Inductive ConstraintKind : Type := ConstraintUnique | ConstraintNotNull | ConstraintNodeKey.

#[export] Instance UnaryOp_eq_dec : EqDecision UnaryOp. Proof. solve_decision. Defined.
#[export] Instance BinaryOp_eq_dec : EqDecision BinaryOp. Proof. solve_decision. Defined.
#[export] Instance IndexKind_eq_dec : EqDecision IndexKind. Proof. solve_decision. Defined.

(** ** Label expressions *)
Module LabelExpr.
Inductive t : Type :=
| Name (n : text)
| Any
| Not (e : t)
| And (a b : t)
| Or (a b : t).

(** Whether a node with the labels [have] is meant. *)
Fixpoint matches (e : t) (have : list text) : bool :=
  match e with
  | Name n => existsb (fun h => bool_decide (h = n)) have
  | Any => negb (bool_decide (have = []))
  | Not e => negb (matches e have)
  | And a b => matches a have && matches b have
  | Or a b => matches a have || matches b have
  end.

Fixpoint as_conjunction (e : t) : option (list text) :=
  match e with
  | Name n => Some [n]
  | And a b => v ← as_conjunction a; w ← as_conjunction b; Some (v ++ w)
  | Any | Not _ | Or _ _ => None
  end.

Fixpoint required_labels (e : t) : list text :=
  match e with
  | Name n => [n]
  | And a b => required_labels a ++ required_labels b
  | Any | Not _ | Or _ _ => []
  end.

(** [impl Display for LabelExpr]; [operand] puts a compound in parentheses. *)
Definition is_atom (e : t) : bool := match e with Name _ | Any | Not _ => true | And _ _ | Or _ _ => false end.
Fixpoint fmt (e : t) : text :=
  let operand (e : t) (shown : text) := if is_atom e then shown else lit "(" ++ shown ++ lit ")" in
  match e with
  | Name n => n
  | Any => lit "%"
  | Not e => lit "!" ++ operand e (fmt e)
  | And a b => operand a (fmt a) ++ lit "&" ++ operand b (fmt b)
  | Or a b => operand a (fmt a) ++ lit "|" ++ operand b (fmt b)
  end.
End LabelExpr.

(** ** Expressions and patterns *)
Module Expression.
Inductive t : Type :=
| Integer (n : Z) (sp : Span)
| Float (x : spec_float) (sp : Span)
| String (s : text) (sp : Span)
| True_ (sp : Span)
| False_ (sp : Span)
| Null (sp : Span)
| Var (name : text) (sp : Span)
| Param (name : text) (sp : Span)
| Property (base : t) (name : text) (sp : Span)
| List (items : list t) (sp : Span)
| Map (m : map_literal)
| FunctionCall (name : list text) (distinct : bool) (args : list t) (sp : Span)
| Unary (op : UnaryOp) (e : t) (sp : Span)
| Binary (op : BinaryOp) (lhs rhs : t) (sp : Span)
| IsNull (e : t) (negated : bool) (sp : Span)
| HasLabels (e : t) (labels : LabelExpr.t) (sp : Span)
| In (e l : t) (sp : Span)
| Index (base index : t) (sp : Span)
| Slice (base : t) (from to : option t) (sp : Span)
| Case (scrutinee : option t) (arms : list (t * t)) (else_branch : option t) (sp : Span)
| ListComprehension (variable : text) (l : t) (predicate projection : option t) (sp : Span)
| ListPredicate (k : ListPredicateKind) (variable : text) (l predicate : t) (sp : Span)
| Reduce (accumulator : text) (init : t) (variable : text) (l e : t) (sp : Span)
| MapProjection (base : t) (selectors : list selector) (sp : Span)
| PatternComprehension (pattern : path) (predicate : option t) (projection : t) (sp : Span)
| PatternPredicate (pattern : path) (sp : Span)
| ExistsSubquery (pattern : path) (predicate : option t) (sp : Span)
| CountSubquery (pattern : path) (predicate : option t) (sp : Span)
| Star (sp : Span)
with map_literal : Type := mkMap (entries : list (text * t)) (sp : Span)
with selector : Type :=
| SelProperty (name : text)
| SelAllProperties
| SelLiteral (name : text) (value : t)
| SelVariable (name : text)
with path : Type := mkPath (head : node) (tail : list segment)
with segment : Type := mkSegment (relationship : relationship) (seg_node : node)
with node : Type :=
  mkNode (variable : option text) (labels : list text) (label_expr : option LabelExpr.t) (properties : option map_literal) (sp : Span)
with relationship : Type :=
  mkRelationship (direction : Direction) (variable : option text) (types : list text) (length : option RelLength)
    (properties : option map_literal) (sp : Span).

Definition span (e : t) : Span :=
  match e with
  | Integer _ sp | Float _ sp | String _ sp | True_ sp | False_ sp | Null sp | Var _ sp | Param _ sp | Star sp
  | Property _ _ sp | List _ sp | FunctionCall _ _ _ sp | Unary _ _ sp | Binary _ _ _ sp | IsNull _ _ sp | HasLabels _ _ sp
  | In _ _ sp | Index _ _ sp | Slice _ _ _ sp | Case _ _ _ sp | ListComprehension _ _ _ _ sp | ListPredicate _ _ _ _ sp
  | Reduce _ _ _ _ _ sp | MapProjection _ _ sp | PatternComprehension _ _ _ sp | PatternPredicate _ sp
  | ExistsSubquery _ _ sp | CountSubquery _ _ sp => sp
  | Map (mkMap _ sp) => sp
  end.

Definition path_tail (p : path) : list segment := match p with mkPath _ tl => tl end.
Definition path_nodes (p : path) : list node :=
  match p with mkPath h tl => h :: ((fun s => match s with mkSegment _ n => n end) <$> tl) end.
Definition node_label_expr (n : node) : option LabelExpr.t := match n with mkNode _ _ e _ _ => e end.
Definition node_span (n : node) : Span := match n with mkNode _ _ _ _ sp => sp end.
End Expression.
Abbreviation Expression := Expression.t.
Abbreviation MapLiteral := Expression.map_literal.
Abbreviation PathPattern := Expression.path.
Abbreviation NodePattern := Expression.node.
Abbreviation RelationshipPattern := Expression.relationship.
Abbreviation PathSegment := Expression.segment.
Abbreviation MapProjectionSelector := Expression.selector.

Record NamedPattern : Type := mkNamedPattern { np_variable : option text; np_path : PathPattern; np_shortest : option ShortestKind }.

(** ** Property paths of an index *)
Record PropertyPath : Type := mkPropertyPath { segments : list text; wildcard : bool }.
Inductive PathError : Type := EmptyPath | EmptySegment.
#[export] Instance PropertyPath_eq_dec : EqDecision PropertyPath. Proof. solve_decision. Defined.

Definition property_path (segs : list text) (wild : bool) : result PathError PropertyPath :=
  if bool_decide (segs = []) && negb wild then Err EmptyPath
  else if existsb (fun s => bool_decide (s = [])) segs then Err EmptySegment
  else Ok (mkPropertyPath segs wild).
Definition is_nested (p : PropertyPath) : bool := wildcard p || (1 <? length (segments p))%nat.

(** ** Clauses *)
Inductive SetItem : Type :=
| SetProperty (target value : Expression)
| SetReplace (target value : Expression)
| SetMerge (target value : Expression)
| SetLabels (target : Expression) (labels : list text).
Inductive RemoveItem : Type :=
| RemoveProperty (e : Expression)
| RemoveLabels (target : Expression) (labels : list text).
Inductive ProjectionItem : Type :=
| ProjectStar
| ProjectExpression (e : Expression) (alias : option text).
Record OrderItem : Type := mkOrderItem { oi_expression : Expression; oi_direction : OrderDirection }.
Record YieldItem : Type := mkYieldItem { yi_name : text; yi_alias : option text; yi_span : Span }.

Record CreateConstraintClause : Type := mkCreateConstraint {
  cc_name : option text; cc_label : text; cc_kind : ConstraintKind; cc_properties : list text;
  cc_if_not_exists : bool; cc_span : Span;
}.

Module Clause.
Inductive t : Type :=
| Match (optional : bool) (patterns : list NamedPattern) (where_clause : option Expression) (sp : Span)
| Create (patterns : list NamedPattern) (sp : Span)
| Merge (pattern : NamedPattern) (on_create on_match : list SetItem) (sp : Span)
| Delete (detach : bool) (targets : list Expression) (sp : Span)
| Set_ (items : list SetItem) (sp : Span)
| Remove (items : list RemoveItem) (sp : Span)
| With (distinct : bool) (items : list ProjectionItem) (order_by : list OrderItem) (skip limit where_clause : option Expression)
    (sp : Span)
| Return (distinct : bool) (items : list ProjectionItem) (order_by : list OrderItem) (skip limit : option Expression) (sp : Span)
| Unwind (e : Expression) (alias : text) (sp : Span)
| Foreach (variable : text) (l : Expression) (clauses : list t) (sp : Span)
| Call (name : list text) (args : list Expression) (yields : option (list YieldItem)) (where_clause : option Expression) (sp : Span)
| Search_ (variable index_label index_property : text) (query_vector : Expression) (where_clause : option Expression)
    (limit : Expression) (score_alias : option text) (sp : Span)
| CreateVectorIndex (name label property : text) (relationship if_not_exists : bool) (sp : Span)
| CreatePathIndex (name : option text) (kind : IndexKind) (label : option text) (paths : list PropertyPath) (if_not_exists : bool)
    (sp : Span)
| DropIndex (name : text) (if_exists : bool) (sp : Span)
| CreateConstraint (c : CreateConstraintClause)
| DropConstraint (name : text) (if_exists : bool) (sp : Span)
| SchemaNoop (kind : string) (sp : Span).
End Clause.
Abbreviation Clause := Clause.t.

Record UnionPart : Type := mkUnionPart { up_union : option UnionKind; up_clauses : list Clause }.
Abbreviation Query := (list UnionPart).
