(* ===== verification/CypherParser.v ===== *)
(** * The Cypher parser
    ([src/src/cypher/parser.rs])

    A parser's state is what is left of the token stream, the depth of
    expressions and the count of comprehension filters around the cursor; going
    back to a checkpoint puts the tokens back.  All recursion of expressions
    goes through [parse_expression_bp], so the other functions take it as an
    argument and it ties the knot at the end of the section; likewise
    [parse_clause] for the bodies of [FOREACH].  A loop has fuel for every token
    left. *)
From Stdlib Require Import SpecFloat.
From S2P Require Import Prelude CypherLexer CypherAst.
Local Open Scope list_scope.
Local Open Scope N_scope.

Inductive ParseError : Type :=
| Expected (expected found : text) (sp : Span)
| ExpectedIdentifier (sp : Span)
| ExpectedExpression (sp : Span)
| Malformed (message : text) (sp : Span)
| UnexpectedEof (sp : Span)
| EmptyQuery
| NestingTooDeep (sp : Span)
| Lex (e : LexError).

(** [ParseError::span]. *)
Definition parse_error_span (e : ParseError) : option Span :=
  match e with
  | Expected _ _ sp | ExpectedIdentifier sp | ExpectedExpression sp | Malformed _ sp | UnexpectedEof sp | NestingTooDeep sp => Some sp
  | EmptyQuery => None
  | Lex e => Some (error_span e)
  end.

Definition MAX_EXPRESSION_DEPTH : N := 64.
Definition PREFIX_BP : N := 45.
Definition NOT_BP : N := 18.

Record Parser : Type := mkParser { toks : list Token; depth : N; no_label_pipe : N }.

(** A step of the parser; [None] when the fuel has run out. *)
Definition P (A : Type) : Type := Parser -> option (Parser * result ParseError A).
Definition p_ret {A} (a : A) : P A := fun s => Some (s, Ok a).
Definition p_err {A} (e : ParseError) : P A := fun s => Some (s, Err e).
Definition p_bind {A B} (m : P A) (f : A -> P B) : P B := fun s =>
  match m s with
  | Some (s', Ok a) => f a s'
  | Some (s', Err e) => Some (s', Err e)
  | None => None
  end.
Declare Scope parser_scope.
Delimit Scope parser_scope with parser.
Notation "'do' x := m 'in' k" := (p_bind m (fun x => k))
  (at level 10, x pattern, m at level 100, k at level 200) : parser_scope.
Notation "'run' m 'in' k" := (p_bind m (fun _ => k))
  (at level 10, m at level 100, k at level 200) : parser_scope.
Local Open Scope parser_scope.

(** [loop { .. }] with a value it carries, until the body breaks. *)
Fixpoint loop_fuel {A B} (fuel : nat) (body : A -> P (A + B)) (a : A) : P B := fun s =>
  match fuel with
  | O => None
  | S fuel =>
      match body a s with
      | Some (s', Ok (inl a')) => loop_fuel fuel body a' s'
      | Some (s', Ok (inr b)) => Some (s', Ok b)
      | Some (s', Err e) => Some (s', Err e)
      | None => None
      end
  end.
Definition loop {A B} (body : A -> P (A + B)) (a : A) : P B := fun s => loop_fuel (S (length (toks s))) body a s.

(** [std::mem::discriminant], as a number. *)
Definition discriminant (k : TokenKind) : N :=
  match k with
  | TokenKind.Integer _ => 0 | TokenKind.Float _ => 1 | TokenKind.String _ => 2 | TokenKind.True => 3 | TokenKind.False => 4
  | TokenKind.Null => 5 | TokenKind.Identifier _ => 6 | TokenKind.Param _ => 7 | TokenKind.Match => 8 | TokenKind.Optional => 9
  | TokenKind.Create => 10 | TokenKind.Merge => 11 | TokenKind.Delete => 12 | TokenKind.Detach => 13 | TokenKind.Set_ => 14
  | TokenKind.Remove => 15 | TokenKind.Where => 16 | TokenKind.Return => 17 | TokenKind.With => 18 | TokenKind.Order => 19
  | TokenKind.By => 20 | TokenKind.Asc => 21 | TokenKind.Desc => 22 | TokenKind.Limit => 23 | TokenKind.Skip => 24
  | TokenKind.Union => 25 | TokenKind.All => 26 | TokenKind.As => 27 | TokenKind.Distinct => 28 | TokenKind.Unwind => 29
  | TokenKind.Call => 30 | TokenKind.Yield => 31 | TokenKind.Foreach => 32 | TokenKind.On => 33 | TokenKind.And => 34
  | TokenKind.Or => 35 | TokenKind.Xor => 36 | TokenKind.Not => 37 | TokenKind.In => 38 | TokenKind.Is => 39
  | TokenKind.Starts => 40 | TokenKind.Ends => 41 | TokenKind.Contains => 42 | TokenKind.Exists => 43 | TokenKind.Case => 44
  | TokenKind.When => 45 | TokenKind.Then => 46 | TokenKind.Else => 47 | TokenKind.End_ => 48 | TokenKind.Eq => 49
  | TokenKind.Ne => 50 | TokenKind.Lt => 51 | TokenKind.Le => 52 | TokenKind.Gt => 53 | TokenKind.Ge => 54
  | TokenKind.RegexMatch => 55 | TokenKind.Plus => 56 | TokenKind.Minus => 57 | TokenKind.Star => 58 | TokenKind.Slash => 59
  | TokenKind.Percent => 60 | TokenKind.Caret => 61 | TokenKind.Bang => 62 | TokenKind.Ampersand => 63 | TokenKind.Dot => 64
  | TokenKind.DotDot => 65 | TokenKind.Arrow => 66 | TokenKind.LArrow => 67 | TokenKind.Pipe => 68 | TokenKind.Colon => 69
  | TokenKind.LParen => 70 | TokenKind.RParen => 71 | TokenKind.LBracket => 72 | TokenKind.RBracket => 73
  | TokenKind.LBrace => 74 | TokenKind.RBrace => 75 | TokenKind.Comma => 76 | TokenKind.Semicolon => 77 | TokenKind.Eof => 78
  end.
Definition same_kind (a b : TokenKind) : bool := discriminant a =? discriminant b.

(** ** Token-stream primitives

    The stream ends in [Eof], which is never consumed. *)
Definition peek_kind (s : Parser) : TokenKind := match toks s with t :: _ => kind t | [] => TokenKind.Eof end.
Definition peek_at (n : nat) (s : Parser) : TokenKind := match toks s !! n with Some t => kind t | None => TokenKind.Eof end.
Definition peek_span (s : Parser) : Span := match toks s with t :: _ => span t | [] => mkSpan 0 0 0 0 end.
Definition consume (s : Parser) : Parser :=
  match toks s with
  | t :: r => if same_kind (kind t) TokenKind.Eof then s else mkParser r (depth s) (no_label_pipe s)
  | [] => s
  end.
Definition at_eof (s : Parser) : bool := same_kind (peek_kind s) TokenKind.Eof.
Definition check (k : TokenKind) (s : Parser) : bool := same_kind (peek_kind s) k.

Definition p_get : P Parser := fun s => Some (s, Ok s).
Definition p_consume : P unit := fun s => Some (consume s, Ok tt).
Definition p_span : P Span := fun s => Some (s, Ok (peek_span s)).
Definition p_if {A} (c : Parser -> bool) (t e : P A) : P A := fun s => if c s then t s else e s.
Definition p_back (s0 : Parser) : P unit := fun s => Some (mkParser (toks s0) (depth s) (no_label_pipe s), Ok tt).
(** The outcome of [m], an error included. *)
Definition p_try {A} (m : P A) : P (result ParseError A) := fun s =>
  match m s with Some (s', r) => Some (s', Ok r) | None => None end.

Definition match_kind (k : TokenKind) : P bool := p_if (check k) (run p_consume in p_ret true) (p_ret false).

Section parser.
Context {chars : Chars} (source : text).

(** The error [Expected] at the next token. *)
Definition expected {A} (what : text) : P A := fun s => Some (s, Err (Expected what (fmt (peek_kind s)) (peek_span s))).

Definition eat (k : TokenKind) (what : string) : P unit := p_if (check k) p_consume (expected (lit what)).
Definition ensure_eof : P unit := p_if at_eof (p_ret tt) (expected (lit "end of input")).

(** ** Identifiers *)
Definition at_variable (s : Parser) : bool :=
  match peek_kind s with TokenKind.Identifier _ => true | k => names_a_variable k end.

(** The characters whose bytes begin in [a..b]. *)
Fixpoint bytes_slice (off a b : N) (t : text) : text :=
  match t with
  | [] => []
  | c :: t =>
      let r := bytes_slice (off + len_utf8 c) a b t in
      if (a <=? off) && (off <? b) then c :: r else r
  end.
Definition written (sp : Span) : text := bytes_slice 0 (start sp) (stop sp) source.

Definition consume_if (p : TokenKind -> bool) : P (text * Span) := fun s =>
  match peek_kind s with
  | TokenKind.Identifier n => Some (consume s, Ok (n, peek_span s))
  | k => if p k then Some (consume s, Ok (written (peek_span s), peek_span s)) else Some (s, Err (ExpectedIdentifier (peek_span s)))
  end.
Definition consume_variable : P (text * Span) := consume_if names_a_variable.
Definition consume_name : P (text * Span) := consume_if is_keyword.
Definition variable_name : P text := do x := consume_variable in p_ret x.1.
Definition plain_name : P text := do x := consume_name in p_ret x.1.

Definition eq_ignore_ascii_case (s : text) (w : string) : bool := bool_decide (to_ascii_uppercase <$> s = to_ascii_uppercase <$> lit w).
Definition is_word (k : TokenKind) (w : string) : bool :=
  match k with TokenKind.Identifier s => eq_ignore_ascii_case s w | _ => false end.
Definition is_soft_keyword (w : string) (s : Parser) : bool := is_word (peek_kind s) w.
Definition is_soft_keyword_at (n : nat) (w : string) (s : Parser) : bool := is_word (peek_at n s) w.
Definition expect_soft_keyword (w : string) : P unit := p_if (is_soft_keyword w) p_consume (expected (lit w)).

(** [if matches!(self.peek_kind(), K) { self.consume(); Some(..) } else { None }]. *)
Definition optional {A} (k : TokenKind) (m : P A) : P (option A) :=
  p_if (check k) (run p_consume in do a := m in p_ret (Some a)) (p_ret None).

(** [x, x, ..]: a first item and those behind commas. *)
Definition items_after {A} (item : P A) (first : A) : P (list A) :=
  loop (fun acc => p_if (check TokenKind.Comma) (run p_consume in do x := item in p_ret (inl (acc ++ [x]))) (p_ret (inr acc))) [first].
Definition comma_list {A} (item : P A) : P (list A) := do x := item in items_after item x.
(** The items before a closing token, if there are any. *)
Definition items_until {A} (close : TokenKind) (item : P A) : P (list A) := p_if (check close) (p_ret []) (comma_list item).

(** ** Label expressions *)
Definition nested {A} (m : P A) : P A := fun s =>
  let s := mkParser (toks s) (depth s + 1) (no_label_pipe s) in
  let leave (s : Parser) := mkParser (toks s) (depth s - 1) (no_label_pipe s) in
  if MAX_EXPRESSION_DEPTH <? depth s then Some (leave s, Err (NestingTooDeep (peek_span s)))
  else match m s with Some (s', r) => Some (leave s', r) | None => None end.

(** Operands joined by an operator, to the left. *)
Definition joined {A} (op : Parser -> bool) (build : A -> A -> A) (operand : P A) : P A :=
  do x := operand in
  loop (fun acc => p_if op (run p_consume in do y := operand in p_ret (inl (build acc y))) (p_ret (inr acc))) x.

Section labels.
Context (parse_label_not : P LabelExpr.t).
Definition label_and_of : P LabelExpr.t := joined (check TokenKind.Ampersand) LabelExpr.And parse_label_not.
Definition label_or_of (pipe_ok : bool) : P LabelExpr.t :=
  joined (fun s => pipe_ok && check TokenKind.Pipe s) LabelExpr.Or label_and_of.
Definition parse_label_atom : P LabelExpr.t :=
  p_if (check TokenKind.Bang) (run p_consume in do e := parse_label_not in p_ret (LabelExpr.Not e))
  (p_if (check TokenKind.Percent) (run p_consume in p_ret LabelExpr.Any)
  (p_if (check TokenKind.LParen)
    (run p_consume in do e := label_or_of true in run eat TokenKind.RParen "`)` to close a label expression group" in p_ret e)
  (do n := plain_name in p_ret (LabelExpr.Name n)))).
End labels.

(** The fuel for the recursion the depth bounds. *)
Definition deepest : nat := S (N.to_nat MAX_EXPRESSION_DEPTH).
Fixpoint parse_label_not_fuel (fuel : nat) : P LabelExpr.t :=
  match fuel with
  | O => fun _ => None
  | S fuel => nested (parse_label_atom (parse_label_not_fuel fuel))
  end.
Definition parse_label_not : P LabelExpr.t := parse_label_not_fuel deepest.
Definition parse_label_and : P LabelExpr.t := label_and_of parse_label_not.
Definition parse_label_or (pipe_ok : bool) : P LabelExpr.t := label_or_of parse_label_not pipe_ok.
Definition parse_label_expression (pipe_ok : bool) : P LabelExpr.t :=
  run eat TokenKind.Colon "`:` before a label" in joined (check TokenKind.Colon) LabelExpr.And (parse_label_or pipe_ok).

Definition parse_label_chain : P (list text) :=
  do labels := loop (fun acc => p_if (check TokenKind.Colon) (run p_consume in do n := plain_name in p_ret (inl (acc ++ [n]))) (p_ret (inr acc))) [] in
  match labels with
  | [] => expected (lit "at least one `:Label`")
  | _ => p_ret labels
  end.

Definition try_parse_int_literal : P (option Z) := fun s =>
  match peek_kind s with
  | TokenKind.Integer n => Some (consume s, Ok (Some n))
  | _ => Some (s, Ok None)
  end.
Definition parse_rel_length : P RelLength := fun s =>
  match peek_kind s with
  | TokenKind.RBracket | TokenKind.LBrace => Some (s, Ok AnyLength)
  | TokenKind.DotDot => (run p_consume in do to := try_parse_int_literal in p_ret (RangeLength None to)) s
  | TokenKind.Integer n =>
      (run p_consume in
       p_if (check TokenKind.DotDot) (run p_consume in do to := try_parse_int_literal in p_ret (RangeLength (Some n) to))
         (p_ret (Exact n))) s
  | _ => expected (lit "integer, `..`, or `]` after `*` in relationship length") s
  end.

(** ** Expressions and patterns, for a way to read their parts *)
Section expressions.
Context (parse_expression_bp : N -> P Expression).
Definition parse_expression : P Expression := parse_expression_bp 0.

Definition parse_map_entry : P (text * Expression) :=
  do key := plain_name in
  run eat TokenKind.Colon "`:` between map key and value" in
  do value := parse_expression in p_ret (key, value).
Definition parse_map_literal : P MapLiteral :=
  do sp := p_span in
  run eat TokenKind.LBrace "`{` to open map literal" in
  do entries := items_until TokenKind.RBrace parse_map_entry in
  run eat TokenKind.RBrace "`}` to close map literal" in
  p_ret (Expression.mkMap entries sp).

(** *** Patterns *)
Definition parse_node_pattern : P NodePattern :=
  do sp := p_span in
  run eat TokenKind.LParen "`(` to open node pattern" in
  do variable := p_if at_variable (do v := variable_name in p_ret (Some v)) (p_ret None) in
  do labels := p_if (check TokenKind.Colon)
    (do e := parse_label_expression true in
     p_ret (match LabelExpr.as_conjunction e with
            | Some names => (names, None)
            | None => (LabelExpr.required_labels e, Some e)
            end))
    (p_ret ([], None)) in
  do properties := p_if (check TokenKind.LBrace) (do m := parse_map_literal in p_ret (Some m)) (p_ret None) in
  run eat TokenKind.RParen "`)` to close node pattern" in
  p_ret (Expression.mkNode variable labels.1 labels.2 properties sp).

Definition relationship_types : P (list text) :=
  do t := plain_name in
  loop (fun acc => p_if (check TokenKind.Pipe)
    (run p_consume in run match_kind TokenKind.Colon in do t := plain_name in p_ret (inl (acc ++ [t]))) (p_ret (inr acc))) [t].

Definition relationship_detail : P (option text * list text * option RelLength * option MapLiteral) :=
  p_if (check TokenKind.LBracket)
    (run p_consume in
     do variable := p_if at_variable (do v := variable_name in p_ret (Some v)) (p_ret None) in
     do types := p_if (check TokenKind.Colon) (run p_consume in relationship_types) (p_ret []) in
     do len := optional TokenKind.Star parse_rel_length in
     do properties := p_if (check TokenKind.LBrace) (do m := parse_map_literal in p_ret (Some m)) (p_ret None) in
     run eat TokenKind.RBracket "`]` to close relationship detail" in
     p_ret (variable, types, len, properties))
    (p_ret (None, [], None, None)).

Definition parse_relationship_pattern : P RelationshipPattern :=
  do sp := p_span in
  do left_incoming := p_if (check TokenKind.LArrow) (run p_consume in p_ret true) (run p_consume in p_ret false) in
  do detail := relationship_detail in
  do right_outgoing := p_if (check TokenKind.Minus) (run p_consume in p_ret false)
    (p_if (check TokenKind.Arrow) (run p_consume in p_ret true) (expected (lit "`-` or `->` to close relationship pattern"))) in
  let '(variable, types, len, properties) := detail in
  match left_incoming, right_outgoing with
  | false, true => p_ret (Expression.mkRelationship Outgoing variable types len properties sp)
  | true, false => p_ret (Expression.mkRelationship Incoming variable types len properties sp)
  | false, false => p_ret (Expression.mkRelationship Undirected variable types len properties sp)
  | true, true => p_err (Malformed (lit "relationship has both `<-` and `->`") sp)
  end.

Definition at_relationship_start (s : Parser) : bool := check TokenKind.Minus s || check TokenKind.LArrow s.
Definition parse_path_pattern : P PathPattern :=
  do h := parse_node_pattern in
  do tl := loop (fun acc => p_if at_relationship_start
    (do r := parse_relationship_pattern in do n := parse_node_pattern in p_ret (inl (acc ++ [Expression.mkSegment r n])))
    (p_ret (inr acc))) [] in
  p_ret (Expression.mkPath h tl).

(** *** Forms with their own brackets *)
Definition parse_comprehension_filter : P Expression := fun s =>
  match parse_expression (mkParser (toks s) (depth s) (no_label_pipe s + 1)) with
  | Some (s', r) => Some (mkParser (toks s') (depth s') (no_label_pipe s' - 1), r)
  | None => None
  end.

(** Inside parentheses label disjunctions are allowed again. *)
Definition parse_in_parens : P Expression := fun s =>
  match parse_expression (mkParser (toks s) (depth s) 0) with
  | Some (s', r) => Some (mkParser (toks s') (depth s') (no_label_pipe s), r)
  | None => None
  end.

Definition parse_map_projection_selector : P MapProjectionSelector :=
  p_if (check TokenKind.Dot)
    (run p_consume in
     p_if (check TokenKind.Star) (run p_consume in p_ret Expression.SelAllProperties)
       (do n := plain_name in p_ret (Expression.SelProperty n)))
    (do n := plain_name in
     p_if (check TokenKind.Colon) (run p_consume in do v := parse_expression in p_ret (Expression.SelLiteral n v))
       (p_ret (Expression.SelVariable n))).

Definition parse_map_projection (base : Expression) : P Expression :=
  do sp := p_span in
  run eat TokenKind.LBrace "`{` to open map projection" in
  do selectors := items_until TokenKind.RBrace parse_map_projection_selector in
  run eat TokenKind.RBrace "`}` to close map projection" in
  p_ret (Expression.MapProjection base selectors sp).

Definition finish_list_comprehension (first : Expression) (sp : Span) : P Expression :=
  match first with
  | Expression.In (Expression.Var variable _) l _ =>
      do predicate := optional TokenKind.Where parse_comprehension_filter in
      do projection := optional TokenKind.Pipe parse_expression in
      run eat TokenKind.RBracket "`]` to close list comprehension" in
      p_ret (Expression.ListComprehension variable l predicate projection sp)
  | Expression.In _ _ _ => p_err (Malformed (lit "list comprehension variable must be a simple identifier") sp)
  | _ => p_err (Malformed (lit "list comprehension must start with `variable IN list`") sp)
  end.

Definition try_parse_pattern_comprehension (sp : Span) : P (option Expression) :=
  do checkpoint := p_get in
  do r := p_try parse_path_pattern in
  match r with
  | Err _ => run p_back checkpoint in p_ret None
  | Ok pattern =>
      p_if (fun s => bool_decide (length (Expression.path_tail pattern) = 0%nat)
                     || negb (check TokenKind.Where s || check TokenKind.Pipe s))
        (run p_back checkpoint in p_ret None)
        (do predicate := optional TokenKind.Where parse_comprehension_filter in
         run eat TokenKind.Pipe "`|` before the pattern-comprehension projection" in
         do projection := parse_expression in
         run eat TokenKind.RBracket "`]` to close pattern comprehension" in
         p_ret (Some (Expression.PatternComprehension pattern predicate projection sp)))
  end.

Definition try_parse_pattern_predicate (sp : Span) : P (option Expression) :=
  do checkpoint := p_get in
  do r := p_try parse_path_pattern in
  match r with
  | Err _ => run p_back checkpoint in p_ret None
  | Ok pattern =>
      if bool_decide (length (Expression.path_tail pattern) = 0%nat) then run p_back checkpoint in p_ret None
      else p_ret (Some (Expression.PatternPredicate pattern sp))
  end.

Definition parse_list_literal : P Expression :=
  do sp := p_span in
  run p_consume in
  p_if (check TokenKind.RBracket) (run p_consume in p_ret (Expression.List [] sp))
  (do comprehension := p_if (check TokenKind.LParen) (try_parse_pattern_comprehension sp) (p_ret None) in
   match comprehension with
   | Some e => p_ret e
   | None =>
       do first := parse_expression in
       p_if (fun s => check TokenKind.Where s || check TokenKind.Pipe s) (finish_list_comprehension first sp)
         (do items := items_after parse_expression first in
          run eat TokenKind.RBracket "`]` to close list literal" in
          p_ret (Expression.List items sp))
   end).

(** [{ [MATCH] pattern [WHERE predicate] }], after [EXISTS] or [COUNT]. *)
Definition subquery (opening closing : string) : P (PathPattern * option Expression) :=
  run eat TokenKind.LBrace opening in
  run match_kind TokenKind.Match in
  do pattern := parse_path_pattern in
  do predicate := optional TokenKind.Where parse_expression in
  run eat TokenKind.RBrace closing in
  p_ret (pattern, predicate).
Definition parse_exists_subquery (sp : Span) : P Expression :=
  do q := subquery "`{` after EXISTS" "`}` to close EXISTS subquery" in p_ret (Expression.ExistsSubquery q.1 q.2 sp).
Definition parse_count_subquery (sp : Span) : P Expression :=
  do q := subquery "`{` after COUNT" "`}` to close COUNT subquery" in p_ret (Expression.CountSubquery q.1 q.2 sp).

Definition parse_list_predicate (k : ListPredicateKind) (sp : Span) : P Expression :=
  run eat TokenKind.LParen "`(` after list predicate function" in
  do variable := variable_name in
  run eat TokenKind.In "`IN` in list predicate" in
  do l := parse_expression in
  run eat TokenKind.Where "`WHERE` in list predicate" in
  do predicate := parse_expression in
  run eat TokenKind.RParen "`)` to close list predicate" in
  p_ret (Expression.ListPredicate k variable l predicate sp).

Definition parse_reduce (sp : Span) : P Expression :=
  run eat TokenKind.LParen "`(` after `reduce`" in
  do accumulator := variable_name in
  run eat TokenKind.Eq "`=` after the reduce accumulator" in
  do init := parse_expression in
  run eat TokenKind.Comma "`,` after the reduce initial value" in
  do variable := variable_name in
  run eat TokenKind.In "`IN` in reduce" in
  do l := parse_expression in
  run eat TokenKind.Pipe "`|` before the reduce expression" in
  do e := parse_expression in
  run eat TokenKind.RParen "`)` to close reduce" in
  p_ret (Expression.Reduce accumulator init variable l e sp).

Definition parse_case : P Expression :=
  do sp := p_span in
  run p_consume in
  do scrutinee := p_if (check TokenKind.When) (p_ret None) (do e := parse_expression in p_ret (Some e)) in
  do arms := loop (fun acc => p_if (check TokenKind.When)
    (run p_consume in
     do cond := parse_expression in
     run eat TokenKind.Then "THEN after WHEN condition" in
     do val := parse_expression in p_ret (inl (acc ++ [(cond, val)])))
    (p_ret (inr acc))) [] in
  match arms with
  | [] => p_err (Malformed (lit "CASE requires at least one WHEN arm") sp)
  | _ =>
      do else_branch := optional TokenKind.Else parse_expression in
      run eat TokenKind.End_ "END to close CASE" in
      p_ret (Expression.Case scrutinee arms else_branch sp)
  end.

Definition list_predicate_kind (name : text) : option ListPredicateKind :=
  if eq_ignore_ascii_case name "any" then Some PAny
  else if eq_ignore_ascii_case name "none" then Some PNone
  else if eq_ignore_ascii_case name "single" then Some PSingle
  else None.

(** The names behind points, as far as they are identifiers. *)
Fixpoint dotted_names (ts : list Token) : list text :=
  match ts with
  | d :: i :: ts =>
      if same_kind (kind d) TokenKind.Dot then
        match kind i with TokenKind.Identifier n => n :: dotted_names ts | _ => [] end
      else []
  | _ => []
  end.

(** A call of [first] and the names behind it, if a parenthesis follows them. *)
Definition parse_call_or_variable (first : text) (sp : Span) : P Expression := fun s =>
  let names := dotted_names (toks s) in
  let probe := (2 * length names)%nat in
  if same_kind (peek_at probe s) TokenKind.LParen then
    (run (fun s => Some (Nat.iter (S probe) consume s, Ok tt)) in
     do distinct := match_kind TokenKind.Distinct in
     do args := items_until TokenKind.RParen parse_expression in
     run eat TokenKind.RParen "`)` to close function call" in
     p_ret (Expression.FunctionCall (first :: names) distinct args sp)) s
  else Some (s, Ok (Expression.Var first sp)).

Definition parse_identifier_or_call : P Expression :=
  do v := consume_variable in
  let '(first, sp) := v in
  p_if (fun s => eq_ignore_ascii_case first "count" && check TokenKind.LBrace s) (parse_count_subquery sp)
  (p_if (check TokenKind.LParen)
    (match list_predicate_kind first with
     | Some k => parse_list_predicate k sp
     | None => if eq_ignore_ascii_case first "reduce" then parse_reduce sp else parse_call_or_variable first sp
     end)
    (parse_call_or_variable first sp)).

(** *** Operators *)
Definition atom (e : Span -> Expression) : P Expression := do sp := p_span in run p_consume in p_ret (e sp).
Definition prefix_operator (op : UnaryOp) (bp : N) : P Expression :=
  do sp := p_span in run p_consume in do e := parse_expression_bp bp in p_ret (Expression.Unary op e sp).

Definition parse_parenthesis : P Expression :=
  do sp := p_span in
  do predicate := try_parse_pattern_predicate sp in
  match predicate with
  | Some e => p_ret e
  | None =>
      run p_consume in
      do e := parse_in_parens in
      run eat TokenKind.RParen "`)` to close grouped expression" in p_ret e
  end.

Definition parse_primary : P Expression := fun s =>
  match peek_kind s with
  | TokenKind.Integer n => atom (Expression.Integer n) s
  | TokenKind.Float x => atom (Expression.Float x) s
  | TokenKind.String t => atom (Expression.String t) s
  | TokenKind.True => atom Expression.True_ s
  | TokenKind.False => atom Expression.False_ s
  | TokenKind.Null => atom Expression.Null s
  | TokenKind.Param n => atom (Expression.Param n) s
  | TokenKind.Star => atom Expression.Star s
  | TokenKind.Minus => prefix_operator Neg PREFIX_BP s
  | TokenKind.Plus => prefix_operator UPlus PREFIX_BP s
  | TokenKind.Not => prefix_operator UNot NOT_BP s
  | TokenKind.LParen => parse_parenthesis s
  | TokenKind.LBracket => parse_list_literal s
  | TokenKind.LBrace => (do m := parse_map_literal in p_ret (Expression.Map m)) s
  | TokenKind.Case => parse_case s
  | TokenKind.All =>
      if same_kind (peek_at 1 s) TokenKind.LParen then
        (do sp := p_span in run p_consume in parse_list_predicate PAll sp) s
      else Some (s, Err (ExpectedExpression (peek_span s)))
  | TokenKind.Exists => (do sp := p_span in run p_consume in parse_exists_subquery sp) s
  | TokenKind.Identifier _ => parse_identifier_or_call s
  | k => if names_a_variable k then parse_identifier_or_call s else Some (s, Err (ExpectedExpression (peek_span s)))
  end.

(** The end of a slice, after its [..]. *)
Definition slice_to (base : Expression) (from : option Expression) (sp : Span) : P Expression :=
  run p_consume in
  do to := p_if (check TokenKind.RBracket) (p_ret None) (do e := parse_expression in p_ret (Some e)) in
  run eat TokenKind.RBracket "`]` to close slice" in
  p_ret (Expression.Slice base from to sp).

Definition parse_subscript (base : Expression) : P Expression :=
  do sp := p_span in
  run p_consume in
  p_if (check TokenKind.DotDot) (slice_to base None sp)
    (do first := parse_expression in
     p_if (check TokenKind.DotDot) (slice_to base (Some first) sp)
       (run eat TokenKind.RBracket "`]` to close index" in p_ret (Expression.Index base first sp))).

Definition parse_postfix (e : Expression) : P (Expression + Expression) :=
  p_if (check TokenKind.Dot)
    (run p_consume in do n := consume_name in p_ret (inl (Expression.Property e n.1 n.2)))
  (p_if (check TokenKind.LBracket) (do e := parse_subscript e in p_ret (inl e))
  (p_if (check TokenKind.LBrace) (do e := parse_map_projection e in p_ret (inl e))
    (p_ret (inr e)))).

Definition parse_prefix : P Expression := do e := parse_primary in loop parse_postfix e.

Inductive InfixOp : Type := InfixBinary (op : BinaryOp) | IsNullPrefix | InPrefix.

Definition peek_infix_op (s : Parser) : option (InfixOp * N * N) :=
  match peek_kind s with
  | TokenKind.Or => Some (InfixBinary BOr, 10, 11)
  | TokenKind.Xor => Some (InfixBinary BXor, 12, 13)
  | TokenKind.And => Some (InfixBinary BAnd, 14, 15)
  | TokenKind.Eq => Some (InfixBinary BEq, 20, 21)
  | TokenKind.Ne => Some (InfixBinary BNe, 20, 21)
  | TokenKind.Lt => Some (InfixBinary BLt, 20, 21)
  | TokenKind.Le => Some (InfixBinary BLe, 20, 21)
  | TokenKind.Gt => Some (InfixBinary BGt, 20, 21)
  | TokenKind.Ge => Some (InfixBinary BGe, 20, 21)
  | TokenKind.RegexMatch => Some (InfixBinary BRegexMatch, 20, 21)
  | TokenKind.Is => Some (IsNullPrefix, 20, 21)
  | TokenKind.In => Some (InPrefix, 20, 21)
  | TokenKind.Starts => Some (InfixBinary StartsWith, 20, 21)
  | TokenKind.Ends => Some (InfixBinary EndsWith, 20, 21)
  | TokenKind.Contains => Some (InfixBinary BContains, 20, 21)
  | TokenKind.Plus => Some (InfixBinary Add, 30, 31)
  | TokenKind.Minus => Some (InfixBinary Sub, 30, 31)
  | TokenKind.Star => Some (InfixBinary Mul, 40, 41)
  | TokenKind.Slash => Some (InfixBinary Div, 40, 41)
  | TokenKind.Percent => Some (InfixBinary Mod, 40, 41)
  | TokenKind.Caret => Some (InfixBinary Pow, 51, 50)
  | _ => None
  end.

(** An infix operator that binds to the right as tightly as [rbp]. *)
Definition parse_infix (op : InfixOp) (rbp : N) (lhs : Expression) : P Expression :=
  do sp := p_span in
  match op with
  | IsNullPrefix =>
      run p_consume in
      do negated := match_kind TokenKind.Not in
      run eat TokenKind.Null "NULL after IS [NOT]" in
      p_ret (Expression.IsNull lhs negated sp)
  | InPrefix => run p_consume in do l := parse_expression_bp rbp in p_ret (Expression.In lhs l sp)
  | InfixBinary op =>
      run (if bool_decide (op = StartsWith \/ op = EndsWith) then run p_consume in eat TokenKind.With "WITH after STARTS/ENDS"
           else p_consume) in
      do rhs := parse_expression_bp rbp in p_ret (Expression.Binary op lhs rhs sp)
  end.

Definition infix_step (min_bp : N) (lhs : Expression) : P (Expression + Expression) := fun s =>
  match peek_infix_op s with
  | Some (op, lbp, rbp) =>
      if lbp <? min_bp then Some (s, Ok (inr lhs)) else (do e := parse_infix op rbp lhs in p_ret (inl e)) s
  | None => Some (s, Ok (inr lhs))
  end.

(** [n:Label], behind a prefix expression. *)
Definition parse_has_labels (e : Expression) : P Expression :=
  p_if (check TokenKind.Colon)
    (do sp := p_span in
     do labels := (fun s => parse_label_expression (no_label_pipe s =? 0) s) in
     p_ret (Expression.HasLabels e labels sp))
    (p_ret e).

Definition parse_expression_bp_inner (min_bp : N) : P Expression :=
  do e := parse_prefix in do lhs := parse_has_labels e in loop (infix_step min_bp) lhs.
End expressions.

(** The one funnel of expression recursion. *)
Fixpoint parse_expression_bp_fuel (fuel : nat) (min_bp : N) : P Expression :=
  match fuel with
  | O => fun _ => None
  | S fuel => nested (parse_expression_bp_inner (parse_expression_bp_fuel fuel) min_bp)
  end.
Definition parse_expression_bp : N -> P Expression := parse_expression_bp_fuel deepest.

(** ** Clauses *)
Abbreviation expression := (parse_expression parse_expression_bp).
Abbreviation expression_after k := (optional k expression).
Abbreviation path_pattern := (parse_path_pattern parse_expression_bp).
Abbreviation postfix_chain := (parse_prefix parse_expression_bp).

(** Names of index types, statement ends, and the words [IF NOT EXISTS]. *)
Definition at_statement_end (s : Parser) : bool := at_eof s || check TokenKind.Semicolon s || check TokenKind.Union s.
Definition consume_to_statement_end : P unit :=
  loop (fun _ => p_if at_statement_end (p_ret (inr tt)) (run p_consume in p_ret (inl tt))) tt.
Definition is_index_type_keyword (s : Parser) : bool :=
  existsb (is_word (peek_kind s)) ["RANGE"; "TEXT"; "POINT"; "LOOKUP"; "FULLTEXT"; "BTREE"]%string.
Definition if_not_exists : P bool :=
  p_if (is_soft_keyword "IF")
    (run p_consume in run eat TokenKind.Not "NOT after IF" in run eat TokenKind.Exists "EXISTS after IF NOT" in p_ret true)
    (p_ret false).
Definition if_exists : P bool :=
  p_if (is_soft_keyword "IF") (run p_consume in run eat TokenKind.Exists "EXISTS after IF" in p_ret true) (p_ret false).

(** *** Patterns of clauses *)
Definition shortest_kind (s : Parser) : option ShortestKind :=
  match peek_kind s with
  | TokenKind.Identifier n =>
      if same_kind (peek_at 1 s) TokenKind.LParen then
        if eq_ignore_ascii_case n "shortestpath" then Some ShortestSingle
        else if eq_ignore_ascii_case n "allshortestpaths" then Some ShortestAll else None
      else None
  | _ => None
  end.
Definition parse_named_pattern : P NamedPattern :=
  do variable := p_if (fun s => at_variable s && same_kind (peek_at 1 s) TokenKind.Eq)
    (do n := variable_name in run p_consume in p_ret (Some n)) (p_ret None) in
  do shortest := (fun s => Some (s, Ok (shortest_kind s))) in
  do path := match shortest with
    | Some _ =>
        run p_consume in
        run eat TokenKind.LParen "`(` after shortestPath/allShortestPaths" in
        do p := path_pattern in
        run eat TokenKind.RParen "`)` to close shortestPath/allShortestPaths" in p_ret p
    | None => path_pattern
    end in
  p_ret (mkNamedPattern variable path shortest).
Definition parse_pattern_list : P (list NamedPattern) := comma_list parse_named_pattern.

(** CREATE and MERGE write labels, so no label expressions. *)
Fixpoint reject_nodes (nodes : list NodePattern) (clause : string) : result ParseError unit :=
  match nodes with
  | [] => Ok tt
  | n :: nodes =>
      match Expression.node_label_expr n with
      | Some e => Err (Malformed (lit "label expression `:" ++ LabelExpr.fmt e ++ lit "` is not allowed in " ++ lit clause
          ++ lit "; only `:A:B` or `:A&B` can be written") (Expression.node_span n))
      | None => reject_nodes nodes clause
      end
  end.
Definition reject_label_expressions (p : NamedPattern) (clause : string) : P unit :=
  fun s => Some (s, reject_nodes (Expression.path_nodes (np_path p)) clause).

(** *** Updates *)
Definition is_property (e : Expression) : bool := match e with Expression.Property _ _ _ => true | _ => false end.
Definition parse_set_item : P SetItem :=
  do target := postfix_chain in
  p_if (check TokenKind.Eq)
    (run p_consume in do v := expression in
     p_ret (if is_property target then SetProperty target v else SetReplace target v))
  (p_if (fun s => check TokenKind.Plus s && same_kind (peek_at 1 s) TokenKind.Eq)
    (run p_consume in run p_consume in do v := expression in p_ret (SetMerge target v))
  (p_if (check TokenKind.Colon) (do labels := parse_label_chain in p_ret (SetLabels target labels))
    (expected (lit "`=`, `+=`, or `:Label` in SET item")))).
Definition parse_set_items : P (list SetItem) := comma_list parse_set_item.
Definition parse_set : P Clause := do sp := p_span in run p_consume in do items := parse_set_items in p_ret (Clause.Set_ items sp).

Definition parse_remove_item : P RemoveItem :=
  do target := postfix_chain in
  p_if (check TokenKind.Colon) (do labels := parse_label_chain in p_ret (RemoveLabels target labels))
    (if is_property target then p_ret (RemoveProperty target)
     else p_err (Malformed (lit "REMOVE expects a property or labels") (Expression.span target))).
Definition parse_remove : P Clause :=
  do sp := p_span in run p_consume in do items := comma_list parse_remove_item in p_ret (Clause.Remove items sp).

Definition parse_delete_with_span (detach : bool) (sp : Span) : P Clause :=
  run p_consume in do targets := comma_list expression in p_ret (Clause.Delete detach targets sp).
Definition parse_delete (detach : bool) : P Clause := do sp := p_span in parse_delete_with_span detach sp.

Definition parse_merge : P Clause :=
  do sp := p_span in
  run p_consume in
  do pattern := parse_named_pattern in
  run reject_label_expressions pattern "MERGE" in
  do sets := loop (fun '(on_create, on_match) => p_if (check TokenKind.On)
    (run p_consume in
     p_if (check TokenKind.Create)
       (run p_consume in run eat TokenKind.Set_ "SET after ON CREATE" in
        do items := parse_set_items in p_ret (inl (on_create ++ items, on_match)))
     (p_if (check TokenKind.Match)
       (run p_consume in run eat TokenKind.Set_ "SET after ON MATCH" in
        do items := parse_set_items in p_ret (inl (on_create, on_match ++ items)))
       (expected (lit "CREATE or MATCH after ON"))))
    (p_ret (inr (on_create, on_match)))) ([], []) in
  p_ret (Clause.Merge pattern sets.1 sets.2 sp).

(** *** Reading and projecting *)
Definition parse_match (opt : bool) : P Clause :=
  do sp := p_span in
  run p_consume in
  do patterns := parse_pattern_list in
  do where_clause := expression_after TokenKind.Where in
  p_ret (Clause.Match opt patterns where_clause sp).

Definition parse_projection_item : P ProjectionItem :=
  p_if (check TokenKind.Star) (run p_consume in p_ret ProjectStar)
    (do e := expression in do alias := optional TokenKind.As variable_name in p_ret (ProjectExpression e alias)).
Definition parse_order_item : P OrderItem :=
  do e := expression in
  p_if (check TokenKind.Asc) (run p_consume in p_ret (mkOrderItem e OAsc))
  (p_if (check TokenKind.Desc) (run p_consume in p_ret (mkOrderItem e ODesc))
    (p_ret (mkOrderItem e OAsc))).
Definition parse_post_projection : P (list OrderItem * option Expression * option Expression) :=
  do order_by := p_if (check TokenKind.Order)
    (run p_consume in run eat TokenKind.By "BY after ORDER" in comma_list parse_order_item) (p_ret []) in
  do skip := expression_after TokenKind.Skip in
  do limit := expression_after TokenKind.Limit in
  p_ret (order_by, skip, limit).

Definition parse_with : P Clause :=
  do sp := p_span in
  run p_consume in
  do distinct := match_kind TokenKind.Distinct in
  do items := comma_list parse_projection_item in
  do post := parse_post_projection in
  do where_clause := expression_after TokenKind.Where in
  let '(order_by, skip, limit) := post in p_ret (Clause.With distinct items order_by skip limit where_clause sp).
Definition parse_return : P Clause :=
  do sp := p_span in
  run p_consume in
  do distinct := match_kind TokenKind.Distinct in
  do items := comma_list parse_projection_item in
  do post := parse_post_projection in
  let '(order_by, skip, limit) := post in p_ret (Clause.Return distinct items order_by skip limit sp).

Definition parse_unwind : P Clause :=
  do sp := p_span in
  run p_consume in
  do e := expression in
  run eat TokenKind.As "AS in UNWIND" in
  do alias := variable_name in
  p_ret (Clause.Unwind e alias sp).

(** *** Procedures and commands *)
Definition parse_yield_item : P YieldItem :=
  do n := consume_variable in
  do alias := optional TokenKind.As variable_name in
  p_ret (mkYieldItem n.1 alias n.2).
Definition procedure_name : P (list text) :=
  do first := variable_name in
  loop (fun acc => p_if (check TokenKind.Dot) (run p_consume in do n := plain_name in p_ret (inl (acc ++ [n]))) (p_ret (inr acc))) [first].
Definition parse_call : P Clause :=
  do sp := p_span in
  run p_consume in
  do name := procedure_name in
  run eat TokenKind.LParen "( after procedure name" in
  do args := items_until TokenKind.RParen expression in
  run eat TokenKind.RParen ") to close procedure arguments" in
  p_if (check TokenKind.Yield)
    (run p_consume in
     do items := comma_list parse_yield_item in
     do where_clause := expression_after TokenKind.Where in
     p_ret (Clause.Call name args (Some items) where_clause sp))
    (p_ret (Clause.Call name args None None sp)).

Definition finish_show_call (namespace procedure : string) (args : list Expression) (sp : Span) : P Clause :=
  let call yields where_clause := Clause.Call [lit namespace; lit procedure] args yields where_clause sp in
  p_if (check TokenKind.Yield)
    (run p_consume in
     do items := p_if (check TokenKind.Star) (run p_consume in p_ret []) (comma_list parse_yield_item) in
     do where_clause := expression_after TokenKind.Where in
     p_ret (call (Some items) where_clause))
  (p_if (check TokenKind.Where)
    (run p_consume in do e := expression in p_ret (call (Some []) (Some e)))
    (p_ret (call None None))).

Definition starts_id (s : Parser) : bool :=
  match peek_kind s with TokenKind.String _ | TokenKind.Param _ | TokenKind.LBracket => true | _ => false end.
Definition parse_transaction_ids : P (list Expression) := p_if starts_id (comma_list expression) (p_ret []).

Definition either_word (a b : string) (s : Parser) : bool := is_soft_keyword a s || is_soft_keyword b s.

(** The type words up to [INDEX] or [CONSTRAINT], and the procedure; upper case
    is [str::to_uppercase]. *)
Definition show_words : P (list text * string) :=
  loop (fun words => fun s =>
    match (match peek_kind s with TokenKind.Identifier n => Some (to_uppercase n) | TokenKind.All => Some (lit "ALL") | _ => None end) with
    | None => expected (lit "INDEXES or CONSTRAINTS after SHOW") s
    | Some word =>
        Some (consume s, Ok (
          if bool_decide (word = lit "INDEX" \/ word = lit "INDEXES") then inr (words, "showIndexes"%string)
          else if bool_decide (word = lit "CONSTRAINT" \/ word = lit "CONSTRAINTS") then inr (words, "showConstraints"%string)
          else inl (words ++ [word])))
    end) [].
Fixpoint join_words (ws : list text) : text :=
  match ws with
  | [] => []
  | [w] => w
  | w :: ws => w ++ lit " " ++ join_words ws
  end.
Definition parse_show : P Clause :=
  do sp := p_span in
  run p_consume in
  p_if (either_word "TRANSACTION" "TRANSACTIONS")
    (run p_consume in
     do ids := parse_transaction_ids in
     finish_show_call "dbms" "showTransactions" [Expression.List ids sp] sp)
  (p_if (either_word "CONNECTION" "CONNECTIONS")
    (run p_consume in finish_show_call "dbms" "listConnections" [] sp)
    (do found := show_words in
     let filter := match found.1 with [] => lit "ALL" | ws => join_words ws end in
     finish_show_call "db" found.2 [Expression.String filter sp] sp)).

Definition terminate_ids (what procedure : string) (sp : Span) : P Clause :=
  run p_consume in
  do ids := parse_transaction_ids in
  match ids with
  | [] => expected (lit "an id after TERMINATE " ++ lit what)
  | _ => finish_show_call "dbms" procedure [Expression.List ids sp] sp
  end.
Definition parse_terminate : P Clause :=
  do sp := p_span in
  run p_consume in
  p_if (either_word "TRANSACTION" "TRANSACTIONS") (terminate_ids "TRANSACTIONS" "terminateTransactions" sp)
  (p_if (either_word "CONNECTION" "CONNECTIONS") (terminate_ids "CONNECTIONS" "killConnections" sp)
    (expected (lit "TRANSACTIONS or CONNECTIONS after TERMINATE"))).

Definition parse_search : P Clause :=
  do sp := p_span in
  run p_consume in
  do variable := variable_name in
  run eat TokenKind.In "IN after the SEARCH variable" in
  run eat TokenKind.LParen "`(` after IN" in
  run expect_soft_keyword "VECTOR" in
  run expect_soft_keyword "INDEX" in
  do label := plain_name in
  run eat TokenKind.Dot "`.` in the vector index name (Label.property)" in
  do property := plain_name in
  run expect_soft_keyword "FOR" in
  do query_vector := expression in
  do where_clause := expression_after TokenKind.Where in
  run eat TokenKind.Limit "LIMIT in the SEARCH clause" in
  do limit := expression in
  run eat TokenKind.RParen "`)` to close the SEARCH clause" in
  do score_alias := p_if (is_soft_keyword "SCORE")
    (run p_consume in run eat TokenKind.As "AS after SCORE" in do a := variable_name in p_ret (Some a)) (p_ret None) in
  p_ret (Clause.Search_ variable label property query_vector where_clause limit score_alias sp).

(** *** Schema commands *)
Definition malformed {A} (message : text) (sp : Span) : P A := p_err (Malformed message sp).

(** One path of an index: [var.a.b] or [var.a.*], and its place. *)
Definition index_segments : P (list text * bool) :=
  loop (fun segs => p_if (check TokenKind.Dot)
    (run p_consume in
     p_if (check TokenKind.Star) (run p_consume in p_ret (inr (segs, true)))
       (do n := plain_name in p_ret (inl (segs ++ [n]))))
    (p_ret (inr (segs, false)))) [].
Definition index_path (var : text) : P (PropertyPath * Span) :=
  do owner := consume_name in
  if bool_decide (owner.1 <> var)
  then malformed (lit "index property must belong to `" ++ var ++ lit "`, found `" ++ owner.1 ++ lit "`") owner.2
  else
    do segs := index_segments in
    match property_path segs.1 segs.2 with
    | Err EmptyPath => malformed (lit "a property path needs at least one segment") owner.2
    | Err EmptySegment => malformed (lit "a property path segment cannot be empty") owner.2
    | Ok p => p_ret (p, owner.2)
    end.
Definition index_paths (k : IndexKind) (var : text) : P (list PropertyPath) :=
  loop (fun paths =>
    do p := index_path var in
    do paths := (if bool_decide (k = IndexRange) && negb (is_nested p.1) then p_ret paths
                 else if bool_decide (k = IndexText) && wildcard p.1
                 then malformed (lit "a text index covers one property, not a wildcard") p.2
                 else p_ret (paths ++ [p.1])) in
    p_if (check TokenKind.Comma)
      (if bool_decide (k = IndexText) then fun s => malformed (lit "a text index covers exactly one property") (peek_span s) s
       else run p_consume in p_ret (inl paths))
      (p_ret (inr paths))) [].

(** [Ok(None)] where the statement is no index of drevo's. *)
Definition path_index_clause (name : option text) (k : IndexKind) (label : option text) (paths : list PropertyPath)
    (ine : bool) (sp : Span) : P (option Clause) :=
  let clause := p_ret (Some (Clause.CreatePathIndex name k label paths ine sp)) in
  match paths with
  | [] => p_ret None
  | _ =>
      if bool_decide (k = IndexPoint) then
        match paths with
        | [_] => p_ret None
        | [lat; lon] =>
            if is_nested lat || is_nested lon then malformed (lit "a point index covers top-level properties") sp
            else if bool_decide (lat <> lon) then clause
            else malformed (lit "a point index covers two different properties, the latitude then the longitude: ON (n.lat, n.lon)") sp
        | _ => malformed (lit "a point index covers two different properties, the latitude then the longitude: ON (n.lat, n.lon)") sp
        end
      else clause
  end.

Definition parse_create_path_index (sp : Span) (k : IndexKind) : P (option Clause) :=
  run p_if (is_soft_keyword "INDEX") (p_ret tt) p_consume in
  run expect_soft_keyword "INDEX" in
  do name := p_if (either_word "IF" "FOR") (p_ret None) (do n := plain_name in p_ret (Some n)) in
  do ine := if_not_exists in
  run expect_soft_keyword "FOR" in
  run eat TokenKind.LParen "`(` after FOR" in
  p_if (check TokenKind.RParen) (p_ret None)
  (do var := plain_name in
   do label := optional TokenKind.Colon plain_name in
   do pattern_end := p_span in
   run eat TokenKind.RParen "`)` after the index pattern" in
   if bool_decide (k = IndexPoint) && bool_decide (label = None)
   then malformed (lit "a point index needs a label: FOR (n:Label)") pattern_end
   else
     run eat TokenKind.On "ON after the FOR pattern" in
     run eat TokenKind.LParen "`(` after ON" in
     do paths := index_paths k var in
     run eat TokenKind.RParen "`)` after the index properties" in
     run p_if (is_soft_keyword "OPTIONS") consume_to_statement_end (p_ret tt) in
     p_if at_statement_end (path_index_clause name k label paths ine sp)
       (expected (lit "end of the CREATE INDEX statement"))).

Definition parse_drop : P Clause :=
  do sp := p_span in
  run p_consume in
  p_if (is_soft_keyword "CONSTRAINT")
    (run p_consume in
     do dropped := p_if (check TokenKind.On) (p_ret None)
       (do start := p_get in
        do name := p_try plain_name in
        match name with
        | Ok name =>
            do ie := if_exists in
            p_if at_statement_end (p_ret (Some (Clause.DropConstraint name ie sp))) (run p_back start in p_ret None)
        | Err _ => run p_back start in p_ret None
        end) in
     match dropped with
     | Some c => p_ret c
     | None => run consume_to_statement_end in p_ret (Clause.SchemaNoop "constraint" sp)
     end)
    (run expect_soft_keyword "INDEX" in
     do name := plain_name in
     do ie := if_exists in
     p_ret (Clause.DropIndex name ie sp)).

(** [var.property], or [None] where the tokens are something else. *)
Definition constraint_property (var : text) : P (option text) :=
  do owner := plain_name in
  p_if (fun s => bool_decide (owner <> var) || negb (check TokenKind.Dot s)) (p_ret None)
    (run p_consume in do n := plain_name in p_ret (Some n)).
Definition finish_constraint (c : CreateConstraintClause) : P (option Clause) :=
  run p_if (is_soft_keyword "OPTIONS") consume_to_statement_end (p_ret tt) in
  p_if at_statement_end (p_ret (Some (Clause.CreateConstraint c))) (p_ret None).

(** Properties in parentheses, or one without; [None] where it is another form. *)
Definition constraint_properties (var : text) : P (option (list text)) :=
  p_if (check TokenKind.LParen)
    (run p_consume in
     do props := loop (fun acc =>
       do p := constraint_property var in
       match p with
       | None => p_ret (inr None)
       | Some p => p_if (check TokenKind.Comma) (run p_consume in p_ret (inl (acc ++ [p]))) (p_ret (inr (Some (acc ++ [p]))))
       end) [] in
     match props with
     | None => p_ret None
     | Some props => p_if (check TokenKind.RParen) (run p_consume in p_ret (Some props)) (p_ret None)
     end)
    (do p := constraint_property var in p_ret ((fun p => [p]) <$> p)).

Definition constraint_rule (props : list text) : P (option ConstraintKind) :=
  p_if (is_soft_keyword "UNIQUE") (run p_consume in p_ret (Some ConstraintUnique))
  (p_if (check TokenKind.Not)
    (run p_consume in run eat TokenKind.Null "NULL after IS NOT" in
     p_ret (if bool_decide (length props = 1%nat) then Some ConstraintNotNull else None))
  (p_if (either_word "NODE" "KEY")
    (run p_if (is_soft_keyword "NODE") p_consume (p_ret tt) in
     p_if (is_soft_keyword "KEY") (run p_consume in p_ret (Some ConstraintNodeKey)) (p_ret None))
    (p_ret None))).

Definition at_for (s : Parser) : bool := is_soft_keyword "FOR" s || check TokenKind.On s.
Definition constraint_body (name : option text) (ine : bool) (var label : text) (sp : Span) : P (option Clause) :=
  p_if (check TokenKind.Exists)
    (run p_consume in
     run eat TokenKind.LParen "`(` after exists" in
     do p := constraint_property var in
     match p with
     | None => p_ret None
     | Some p =>
         run eat TokenKind.RParen "`)` after the property" in
         finish_constraint (mkCreateConstraint name label ConstraintNotNull [p] ine sp)
     end)
    (do props := constraint_properties var in
     match props with
     | None => p_ret None
     | Some props =>
         p_if (check TokenKind.Is)
           (run p_consume in
            do rule := constraint_rule props in
            match rule with
            | None => p_ret None
            | Some k => finish_constraint (mkCreateConstraint name label k props ine sp)
            end)
           (p_ret None)
     end).
Definition parse_create_unique_constraint (sp : Span) : P (option Clause) :=
  run expect_soft_keyword "CONSTRAINT" in
  do name := p_if (fun s => is_soft_keyword "IF" s || at_for s) (p_ret None) (do n := plain_name in p_ret (Some n)) in
  do ine := if_not_exists in
  p_if at_for
    (run p_consume in
     run eat TokenKind.LParen "`(` after FOR" in
     p_if (check TokenKind.RParen) (p_ret None)
     (do var := plain_name in
      p_if (check TokenKind.Colon)
        (run p_consume in
         do label := plain_name in
         run eat TokenKind.RParen "`)` after the constraint pattern" in
         p_if (either_word "REQUIRE" "ASSERT") (run p_consume in constraint_body name ine var label sp) (p_ret None))
        (p_ret None)))
    (p_ret None).

(** [FOR ()-[r:TYPE]-()], after its first parenthesis, or [FOR (n:Label)]. *)
Definition vector_index_target : P (text * bool) :=
  p_if (check TokenKind.RParen)
    (run p_consume in
     run p_if (fun s => check TokenKind.Minus s || check TokenKind.LArrow s) p_consume
       (expected (lit "`-[` after `()` in a relationship index pattern")) in
     run eat TokenKind.LBracket "`[` in the relationship index pattern" in
     do _ := consume_variable in
     run eat TokenKind.Colon "`:` before the relationship type" in
     do rel_type := plain_name in
     run eat TokenKind.RBracket "`]` after the relationship type" in
     run p_if (fun s => check TokenKind.Minus s || check TokenKind.Arrow s) p_consume
       (expected (lit "`-` or `->` after `]` in a relationship index pattern")) in
     run eat TokenKind.LParen "`(` closing the relationship index pattern" in
     run eat TokenKind.RParen "`)` closing the relationship index pattern" in
     p_ret (rel_type, true))
    (do _ := consume_variable in
     run eat TokenKind.Colon "`:` before the index label" in
     do label := plain_name in
     run eat TokenKind.RParen "`)` after the index label" in
     p_ret (label, false)).
Definition skip_to_for : P bool :=
  p_if (is_soft_keyword "IF")
    (run p_consume in
     loop (fun _ => p_if (fun s => is_soft_keyword "FOR" s || at_eof s) (p_ret (inr true)) (run p_consume in p_ret (inl tt))) tt)
    (p_ret false).
Definition parse_create_vector_index (sp : Span) : P Clause :=
  run expect_soft_keyword "INDEX" in
  p_if (either_word "IF" "FOR") (expected (lit "a name after CREATE VECTOR INDEX"))
  (do name := plain_name in
   do ine := skip_to_for in
   run expect_soft_keyword "FOR" in
   run eat TokenKind.LParen "`(` after FOR" in
   do target := vector_index_target in
   run eat TokenKind.On "ON after the FOR pattern" in
   run eat TokenKind.LParen "`(` after ON" in
   do _ := consume_variable in
   run eat TokenKind.Dot "`.` before the index property" in
   do property := plain_name in
   run eat TokenKind.RParen "`)` after the index property" in
   run consume_to_statement_end in
   p_ret (Clause.CreateVectorIndex name target.1 property target.2 ine sp)).

(** An index of drevo's, or [None] with the cursor put back. *)
Definition try_index (words : Parser -> bool) (skip : bool) (errors : bool) (sp : Span) (k : IndexKind) : P (option Clause) :=
  p_if words
    (do start := p_get in
     run (if skip then p_consume else p_ret tt) in
     do r := p_try (parse_create_path_index sp k) in
     match r with
     | Ok (Some c) => p_ret (Some c)
     | Ok None => run p_back start in p_ret None
     | Err e => if errors then p_err e else run p_back start in p_ret None
     end)
    (p_ret None).

Definition first_clause (m : P (option Clause)) (next : P Clause) : P Clause :=
  do r := m in match r with Some c => p_ret c | None => next end.

Definition parse_create : P Clause :=
  do sp := p_span in
  run p_consume in
  p_if (is_soft_keyword "CONSTRAINT")
    (first_clause
      (do start := p_get in
       do r := p_try (parse_create_unique_constraint sp) in
       match r with
       | Ok (Some c) => p_ret (Some c)
       | _ => run p_back start in p_ret None
       end)
      (run consume_to_statement_end in p_ret (Clause.SchemaNoop "constraint" sp)))
  (p_if (fun s => is_soft_keyword "VECTOR" s && is_soft_keyword_at 1 "INDEX" s)
    (run p_consume in parse_create_vector_index sp)
  (first_clause (try_index (fun s => is_soft_keyword "POINT" s && is_soft_keyword_at 1 "INDEX" s) true true sp IndexPoint)
  (first_clause (try_index (fun s => is_soft_keyword "TEXT" s && is_soft_keyword_at 1 "INDEX" s) true true sp IndexText)
  (first_clause
    (try_index (fun s => is_soft_keyword "INDEX" s || either_word "RANGE" "BTREE" s && is_soft_keyword_at 1 "INDEX" s) false false
      sp IndexRange)
    (p_if (fun s => is_soft_keyword "INDEX" s || is_index_type_keyword s && is_soft_keyword_at 1 "INDEX" s)
      (run consume_to_statement_end in p_ret (Clause.SchemaNoop "index" sp))
      (do patterns := parse_pattern_list in
       run (fun s => Some (s, reject_nodes (concat ((fun p => Expression.path_nodes (np_path p)) <$> patterns)) "CREATE")) in
       p_ret (Clause.Create patterns sp))))))).

(** *** FOREACH, and any clause *)
Definition is_update_clause (c : Clause) : bool :=
  match c with
  | Clause.Create _ _ | Clause.Merge _ _ _ _ | Clause.Set_ _ _ | Clause.Remove _ _ | Clause.Delete _ _ _ | Clause.Foreach _ _ _ _ => true
  | _ => false
  end.
Definition clause_keyword (c : Clause) : string :=
  match c with
  | Clause.Match _ _ _ _ => "MATCH" | Clause.Create _ _ => "CREATE" | Clause.Merge _ _ _ _ => "MERGE"
  | Clause.Delete _ _ _ => "DELETE" | Clause.Set_ _ _ => "SET" | Clause.Remove _ _ => "REMOVE"
  | Clause.With _ _ _ _ _ _ _ => "WITH" | Clause.Return _ _ _ _ _ _ => "RETURN" | Clause.Unwind _ _ _ => "UNWIND"
  | Clause.Search_ _ _ _ _ _ _ _ _ => "SEARCH" | Clause.Foreach _ _ _ _ => "FOREACH" | Clause.Call _ _ _ _ _ => "CALL"
  | Clause.CreateVectorIndex _ _ _ _ _ _ => "CREATE VECTOR INDEX" | Clause.CreatePathIndex _ _ _ _ _ _ => "CREATE INDEX"
  | Clause.DropIndex _ _ _ => "DROP INDEX" | Clause.CreateConstraint _ => "CREATE CONSTRAINT"
  | Clause.DropConstraint _ _ _ => "DROP CONSTRAINT" | Clause.SchemaNoop _ _ => "CREATE"
  end%string.

Section clauses.
Context (parse_clause : P Clause).
Definition parse_foreach : P Clause :=
  do sp := p_span in
  run p_consume in
  run eat TokenKind.LParen "( after FOREACH" in
  do variable := variable_name in
  run eat TokenKind.In "IN in FOREACH" in
  do l := expression in
  run eat TokenKind.Pipe "| in FOREACH" in
  do clauses := loop (fun acc =>
    p_if (check TokenKind.RParen) (p_ret (inr acc))
    (p_if at_eof (expected (lit ") to close FOREACH body"))
      (do c := parse_clause in
       if is_update_clause c then p_ret (inl (acc ++ [c]))
       else p_err (Expected (lit "update clause inside FOREACH (CREATE, MERGE, SET, REMOVE, DELETE, FOREACH)")
              (lit (clause_keyword c)) sp)))) [] in
  run eat TokenKind.RParen ") to close FOREACH" in
  match clauses with
  | [] => p_err (Expected (lit "at least one update clause inside FOREACH") (lit ")") sp)
  | _ => p_ret (Clause.Foreach variable l clauses sp)
  end.

Definition parse_clause_body : P Clause := fun s =>
  match peek_kind s with
  | TokenKind.Match => parse_match false s
  | TokenKind.Optional =>
      (run p_consume in p_if (check TokenKind.Match) (parse_match true) (expected (lit "MATCH after OPTIONAL"))) s
  | TokenKind.Create => parse_create s
  | TokenKind.Merge => parse_merge s
  | TokenKind.Delete => parse_delete false s
  | TokenKind.Detach =>
      (do sp := p_span in run p_consume in
       p_if (check TokenKind.Delete) (parse_delete_with_span true sp) (expected (lit "DELETE after DETACH"))) s
  | TokenKind.Set_ => parse_set s
  | TokenKind.Remove => parse_remove s
  | TokenKind.With => parse_with s
  | TokenKind.Return => parse_return s
  | TokenKind.Unwind => parse_unwind s
  | TokenKind.Foreach => parse_foreach s
  | TokenKind.Call => parse_call s
  | k =>
      if is_word k "SEARCH" then parse_search s
      else if is_word k "SHOW" then parse_show s
      else if is_word k "TERMINATE" then parse_terminate s
      else if is_word k "DROP" then parse_drop s
      else expected (lit "clause keyword (MATCH, CREATE, MERGE, DELETE, SET, REMOVE, WITH, RETURN, UNWIND, FOREACH, CALL, SEARCH, SHOW, OPTIONAL, DETACH)") s
  end.
End clauses.

Fixpoint parse_clause_fuel (fuel : nat) : P Clause :=
  match fuel with
  | O => fun _ => None
  | S fuel => parse_clause_body (parse_clause_fuel fuel)
  end.
(** The nesting of [FOREACH] has no bound but the tokens. *)
Definition parse_clause : P Clause := fun s => parse_clause_fuel (S (length (toks s))) s.

(** *** Queries *)
Definition parse_single_query : P (list Clause) :=
  do clauses := loop (fun acc => p_if at_statement_end (p_ret (inr acc)) (do c := parse_clause in p_ret (inl (acc ++ [c])))) [] in
  match clauses with
  | [] => p_err EmptyQuery
  | _ => p_ret clauses
  end.

Definition parse_query : P Query :=
  p_if at_eof (p_err EmptyQuery)
  (do first := parse_single_query in
   do parts := loop (fun acc => p_if (check TokenKind.Union)
     (run p_consume in
      do k := p_if (check TokenKind.All) (run p_consume in p_ret UnionAll) (p_ret UnionDistinct) in
      do q := parse_single_query in p_ret (inl (acc ++ [mkUnionPart (Some k) q])))
     (p_ret (inr acc))) [mkUnionPart None first] in
   run match_kind TokenKind.Semicolon in
   p_ret parts).
End parser.

(** [None] when the fuel has run out. *)
Definition parse {chars : Chars} (source : text) : option (result ParseError Query) :=
  match tokenize source with
  | None => None
  | Some (Err e) => Some (Err (Lex e))
  | Some (Ok tokens) =>
      match (do q := parse_query source in run ensure_eof in p_ret q) (mkParser tokens 0 0) with
      | Some (_, r) => Some r
      | None => None
      end
  end.
