(* ===== verification/CypherTotal.v ===== *)
(** * The Cypher parser always answers
    ([src/src/cypher/parser.rs])

    Every function of the parser takes tokens from the front of the stream and
    leaves the depth and the label mode as they were, whether it succeeds or
    fails and whatever it tried in between ([steady]); those that loops repeat
    take at least one token when they succeed ([eager]).  Hence the fuel of the
    loops, of the expression depth and of nested [FOREACH]s is enough:
    [parse_always_answers]. *)
From S2P Require Import Prelude CypherLexer CypherTokens CypherAst CypherParser.
Local Open Scope list_scope.
Local Open Scope parser_scope.

(** ** Steps that only go on *)
Record keeps (s s' : Parser) : Prop := {
  kp_toks : toks s' `suffix_of` toks s;
  kp_depth : depth s' = depth s;
  kp_pipe : no_label_pipe s' = no_label_pipe s;
}.

Lemma keeps_refl s : keeps s s.
Proof. by split. Qed.
Lemma keeps_trans s1 s2 s3 : keeps s1 s2 -> keeps s2 s3 -> keeps s1 s3.
Proof. intros [H1 H2 H3] [H4 H5 H6]. split; [by etransitivity|congruence..]. Qed.

Definition shorter (s s' : Parser) : Prop := (length (toks s') < length (toks s))%nat.
Lemma keeps_length s s' : keeps s s' -> (length (toks s') <= length (toks s))%nat.
Proof. intros [H _ _]. by apply suffix_length. Qed.
Lemma keeps_shorter s1 s2 s3 : keeps s1 s2 -> shorter s2 s3 -> shorter s1 s3.
Proof. unfold shorter. intros H%keeps_length. lia. Qed.
Lemma shorter_keeps s1 s2 s3 : shorter s1 s2 -> keeps s2 s3 -> shorter s1 s3.
Proof. unfold shorter. intros ? H%keeps_length. lia. Qed.

(** The states a claim is about; going on stays among them, and the label mode
    is not their concern. *)
Record states : Type := {
  among :> Parser -> Prop;
  among_keeps : forall s s', among s -> keeps s s' -> among s';
  among_pipe : forall s n, among s -> among (mkParser (toks s) (depth s) n);
}.
Definition anywhere : states := {| among _ := True; among_keeps _ _ _ _ := I; among_pipe _ _ _ := I |}.
Lemma depth_keeps d s s' : (d <= depth s)%N -> keeps s s' -> (d <= depth s')%N.
Proof. by intros ? [_ -> _]. Qed.
Definition at_depth (d : N) : states := {| among s := (d <= depth s)%N; among_keeps := depth_keeps d; among_pipe _ _ H := H |}.
Lemma length_keeps n s s' : (length (toks s) <= n)%nat -> keeps s s' -> (length (toks s') <= n)%nat.
Proof. intros ? ?%keeps_length. lia. Qed.
Definition within (n : nat) : states := {| among s := (length (toks s) <= n)%nat; among_keeps := length_keeps n; among_pipe _ _ H := H |}.

(** [m] answers from [s], and [Q] holds of its answer. *)
Definition runs {A} (m : P A) (Q : Parser -> result ParseError A -> Prop) (s : Parser) : Prop :=
  match m s with Some (s', r) => Q s' r | None => False end.

Definition steady {A} (I : states) (m : P A) : Prop := forall s, I s -> runs m (fun s' _ => keeps s s') s.
Definition eager {A} (I : states) (m : P A) : Prop := forall s, I s ->
  runs m (fun s' r => keeps s s' /\ (is_ok r = true -> shorter s s')) s.
(** Eager where there is a token to take. *)
Definition takes {A} (I : states) (m : P A) : Prop := forall s, I s -> at_eof s = false ->
  runs m (fun s' r => keeps s s' /\ (is_ok r = true -> shorter s s')) s.
(** A loop's body: it takes a token if the loop goes on. *)
Definition body_ok {A B} (I : states) (m : P (A + B)) : Prop := forall s, I s ->
  runs m (fun s' r => keeps s s' /\ (forall a, r = Ok (inl a) -> shorter s s')) s.
(** Going on from [s0], with steps back to it allowed. *)
Definition from {A} (s0 : Parser) (m : P A) : Prop := forall s, keeps s0 s -> runs m (fun s' _ => keeps s0 s') s.

Lemma runs_mono {A} (m : P A) (Q R : Parser -> result ParseError A -> Prop) s :
  runs m Q s -> (forall s' r, Q s' r -> R s' r) -> runs m R s.
Proof. unfold runs. destruct (m s) as [[s' r]|]; [|done]. auto. Qed.
Lemma runs_bind {A B} (m : P A) (f : A -> P B) Q (R : Parser -> result ParseError B -> Prop) s :
  runs m Q s -> (forall s' a, Q s' (Ok a) -> runs (f a) R s') -> (forall s' e, Q s' (Err e) -> R s' (Err e)) ->
  runs (p_bind m f) R s.
Proof. unfold runs, p_bind. destruct (m s) as [[s' [a|e]]|]; [|by auto..]. intros H Hf _. by specialize (Hf s' a H). Qed.

(** ** Rules *)
Section rules.
Context {A B : Type} (I : states).

Lemma eager_steady (m : P A) : eager I m -> steady I m.
Proof. intros H s Hs. eapply runs_mono; [by apply H|]. by intros ?? [? _]. Qed.
Lemma eager_takes (m : P A) : eager I m -> takes I m.
Proof. intros H s Hs _. by apply H. Qed.
Lemma steady_from s0 (m : P A) : I s0 -> steady I m -> from s0 m.
Proof. intros Hs H s Hk. eapply runs_mono; [apply H; by eapply among_keeps|]. intros ???. by eapply keeps_trans. Qed.

Lemma steady_pure s (r : result ParseError A) : runs (fun s => Some (s, r)) (fun s' _ => keeps s s') s.
Proof. apply keeps_refl. Qed.
Lemma steady_ret (a : A) : steady I (p_ret a). Proof. intros s _. apply keeps_refl. Qed.
Lemma steady_err e : steady I (p_err (A := A) e). Proof. intros s _. apply keeps_refl. Qed.
Lemma eager_err e : eager I (p_err (A := A) e). Proof. intros s _. by split; [apply keeps_refl|]. Qed.
Lemma body_err e : body_ok I (p_err (A := A + B) e). Proof. intros s _. by split; [apply keeps_refl|]. Qed.
Lemma steady_expected {chars : Chars} w : steady I (expected (A := A) w). Proof. intros s _. apply keeps_refl. Qed.
Lemma eager_expected {chars : Chars} w : eager I (expected (A := A) w). Proof. intros s _. by split; [apply keeps_refl|]. Qed.
Lemma body_expected {chars : Chars} w : body_ok I (expected (A := A + B) w). Proof. intros s _. by split; [apply keeps_refl|]. Qed.
Lemma steady_read (f : Parser -> result ParseError A) : steady I (fun s => Some (s, f s)).
Proof. intros s _. apply keeps_refl. Qed.

(** A step that looks at the state before it chooses what to do. *)
Definition settled (s : Parser) (x : option (Parser * result ParseError A)) : Prop :=
  match x with Some (s', _) => keeps s s' | None => False end.
Definition settled_eager (s : Parser) (x : option (Parser * result ParseError A)) : Prop :=
  match x with Some (s', r) => keeps s s' /\ (is_ok r = true -> shorter s s') | None => False end.
Lemma steady_look (f : P A) : (forall s, I s -> settled s (f s)) -> steady I f.
Proof. done. Qed.
Lemma eager_look (f : P A) : (forall s, I s -> settled_eager s (f s)) -> eager I f.
Proof. done. Qed.
Lemma settled_by s (m : P A) : I s -> steady I m -> settled s (m s).
Proof. intros Hs H. exact (H s Hs). Qed.
Lemma settled_err s e : settled s (Some (s, Err e)). Proof. apply keeps_refl. Qed.
Lemma settled_ok s a : settled s (Some (s, Ok a)). Proof. apply keeps_refl. Qed.
Lemma settled_eager_err s e : settled_eager s (Some (s, Err e)). Proof. by split; [apply keeps_refl|]. Qed.
Lemma settled_eager_by s (m : P A) : I s -> eager I m -> settled_eager s (m s).
Proof. intros Hs H. exact (H s Hs). Qed.
Lemma settled_takes_by s (m : P A) : I s -> at_eof s = false -> takes I m -> settled_eager s (m s).
Proof. intros Hs Ht H. exact (H s Hs Ht). Qed.

Lemma steady_bind (m : P A) (f : A -> P B) : steady I m -> (forall a, steady I (f a)) -> steady I (p_bind m f).
Proof.
  intros Hm Hf s Hs. eapply runs_bind; [by apply Hm|cbn; intros s' a Hk|done].
  eapply runs_mono; [apply Hf; by eapply among_keeps|]. intros ???. by eapply keeps_trans.
Qed.
Lemma eager_bind_l (m : P A) (f : A -> P B) : eager I m -> (forall a, steady I (f a)) -> eager I (p_bind m f).
Proof.
  intros Hm Hf s Hs. eapply runs_bind; [by apply Hm|cbn; intros s' a [Hk Hl]|by intros ?? [? _]].
  eapply runs_mono; [apply Hf; by eapply among_keeps|]. cbn. intros s'' r Hk'. split; [by eapply keeps_trans|].
  intros _. eapply shorter_keeps; [by apply Hl|done].
Qed.
Lemma takes_bind_l (m : P A) (f : A -> P B) : takes I m -> (forall a, steady I (f a)) -> takes I (p_bind m f).
Proof.
  intros Hm Hf s Hs Ht. eapply runs_bind; [by apply Hm|cbn; intros s' a [Hk Hl]|by intros ?? [? _]].
  eapply runs_mono; [apply Hf; by eapply among_keeps|]. cbn. intros s'' r Hk'. split; [by eapply keeps_trans|].
  intros _. eapply shorter_keeps; [by apply Hl|done].
Qed.
Lemma eager_bind_r (m : P A) (f : A -> P B) : steady I m -> (forall a, eager I (f a)) -> eager I (p_bind m f).
Proof.
  intros Hm Hf s Hs. eapply runs_bind; [by apply Hm|cbn; intros s' a Hk|done].
  eapply runs_mono; [apply Hf; by eapply among_keeps|]. cbn. intros s'' r [Hk' Hl]. split; [by eapply keeps_trans|].
  intros Hr. eapply keeps_shorter; [done|by apply Hl].
Qed.
Lemma steady_if c (t e : P A) : steady I t -> steady I e -> steady I (p_if c t e).
Proof. intros Ht He s Hs. unfold runs, p_if. destruct (c s); [by apply Ht|by apply He]. Qed.

Lemma steady_get (f : Parser -> P A) : (forall s0, I s0 -> from s0 (f s0)) -> steady I (p_bind p_get f).
Proof. intros Hf s Hs. apply (Hf s Hs s), keeps_refl. Qed.
Lemma from_bind s0 (m : P A) (f : A -> P B) : from s0 m -> (forall a, from s0 (f a)) -> from s0 (p_bind m f).
Proof. intros Hm Hf s Hs. eapply runs_bind; [by apply Hm|cbn; intros s' a Hk; by apply Hf|done]. Qed.
Lemma from_if s0 c (t e : P A) : from s0 t -> from s0 e -> from s0 (p_if c t e).
Proof. intros Ht He s Hs. unfold runs, p_if. destruct (c s); [by apply Ht|by apply He]. Qed.
Lemma from_try s0 (m : P A) : from s0 m -> from s0 (p_try m).
Proof. intros Hm s Hs. specialize (Hm s Hs). unfold runs, p_try in *. by destruct (m s) as [[s' r]|]. Qed.
Lemma from_back s0 : from s0 (p_back s0).
Proof. intros s [_ H1 H2]. by split. Qed.
Lemma from_err s0 e : from s0 (p_err (A := A) e). Proof. by intros s Hs. Qed.
End rules.

Lemma steady_anywhere {A} I (m : P A) : steady (at_depth 0) m -> steady I m.
Proof. intros H s _. apply H. cbn. lia. Qed.

(** *** Conditions under which there is a token to take *)
Definition sees (c : Parser -> bool) : Prop := forall s, c s = true -> at_eof s = false.

Lemma consume_keeps s : keeps s (consume s).
Proof.
  unfold consume. destruct (toks s) as [|t r] eqn:E; [apply keeps_refl|]. destruct (same_kind _ _); [apply keeps_refl|].
  split; [|done..]. cbn. rewrite E. by exists [t].
Qed.
Lemma consume_shorter s : at_eof s = false -> shorter s (consume s).
Proof.
  unfold at_eof, consume, peek_kind, shorter. destruct (toks s) as [|t r] eqn:E; [done|]. intros ->. cbn. lia.
Qed.
Lemma check_sees k : same_kind k TokenKind.Eof = false -> sees (check k).
Proof.
  intros Hk s. change (at_eof s) with (same_kind (peek_kind s) TokenKind.Eof). revert Hk.
  unfold check, same_kind. by intros Hk ->%N.eqb_eq.
Qed.
Lemma and_sees c c' : sees c' -> sees (fun s => c s && c' s).
Proof. intros H s. rewrite andb_true_iff. by intros [_ ?%H]. Qed.
Lemma or_sees c c' : sees c -> sees c' -> sees (fun s => c s || c' s).
Proof. intros H H' s. rewrite orb_true_iff. intros [?|?]; auto. Qed.

Section conditions.
Context {A B : Type} (I : states).
Lemma steady_consume : steady I p_consume. Proof. intros s _. apply consume_keeps. Qed.
Lemma takes_consume : takes I p_consume.
Proof. intros s _ H. split; [apply consume_keeps|intros _; by apply consume_shorter]. Qed.
Lemma steady_span : steady I p_span. Proof. intros s _. apply keeps_refl. Qed.
Lemma takes_span (f : Span -> P A) : (forall sp, takes I (f sp)) -> takes I (p_bind p_span f).
Proof. intros H s Hs Ht. by apply (H (peek_span s) s). Qed.
Lemma takes_bind_r {C} (m : P C) (f : C -> P A) : steady I m -> (forall a, eager I (f a)) -> takes I (p_bind m f).
Proof. intros. by apply eager_takes, eager_bind_r. Qed.
Lemma takes_if c (t e : P A) : takes I t -> takes I e -> takes I (p_if c t e).
Proof. intros Ht He s Hs Hn. unfold runs, p_if. destruct (c s); [by apply Ht|by apply He]. Qed.

Lemma eager_if c (t e : P A) : sees c -> takes I t -> eager I e -> eager I (p_if c t e).
Proof. intros Hc Ht He s Hs. unfold runs, p_if. destruct (c s) eqn:E; [apply Ht; auto|by apply He]. Qed.

Lemma steady_sees c (t e : P A) : sees c -> takes I t -> steady I e -> steady I (p_if c t e).
Proof. intros Hc Ht He s Hs. unfold runs, p_if. destruct (c s) eqn:E; [|by apply He]. eapply runs_mono; [apply Ht; auto|]. by intros ?? [? _]. Qed.

Lemma body_stop (b : B) : body_ok I (p_ret (@inr A B b)). Proof. intros s _. by split; [apply keeps_refl|]. Qed.
Lemma body_eager (m : P (A + B)) : eager I m -> body_ok I m.
Proof. intros H s Hs. eapply runs_mono; [by apply H|]. intros s' r [Hk Hl]. split; [done|]. intros a ->. by apply Hl. Qed.
Lemma body_bind {C} (m : P C) (f : C -> P (A + B)) : steady I m -> (forall a, body_ok I (f a)) -> body_ok I (p_bind m f).
Proof.
  intros Hm Hf s Hs. eapply runs_bind; [by apply Hm|cbn; intros s' a Hk|done].
  eapply runs_mono; [apply Hf; by eapply among_keeps|]. cbn. intros s'' r [Hk' Hl]. split; [by eapply keeps_trans|].
  intros a' Hr. eapply keeps_shorter; [done|by eapply Hl].
Qed.
Lemma body_if c (t e : P (A + B)) : body_ok I t -> body_ok I e -> body_ok I (p_if c t e).
Proof. intros Ht He s Hs. unfold runs, p_if. destruct (c s); [by apply Ht|by apply He]. Qed.
Lemma body_sees c (t e : P (A + B)) : sees c -> takes I t -> body_ok I e -> body_ok I (p_if c t e).
Proof.
  intros Hc Ht He s Hs. unfold runs, p_if. destruct (c s) eqn:E; [|by apply He].
  specialize (Ht s Hs (Hc s E)). unfold runs in Ht. destruct (t s) as [[s' r]|]; [|done]. destruct Ht as [Hk Hl].
  split; [done|]. intros a ->. by apply Hl.
Qed.
Lemma body_unless c (t e : P (A + B)) : (forall s, c s = false -> at_eof s = false) -> body_ok I t -> takes I e -> body_ok I (p_if c t e).
Proof.
  intros Hc Ht He s Hs. unfold runs, p_if. destruct (c s) eqn:E; [by apply Ht|].
  specialize (He s Hs (Hc s E)). unfold runs in He. destruct (e s) as [[s' r]|]; [|done]. destruct He as [Hk Hl].
  split; [done|]. intros a ->. by apply Hl.
Qed.

Lemma steady_loop (body : A -> P (A + B)) a : (forall a, body_ok I (body a)) -> steady I (loop body a).
Proof.
  intros Hb s Hs. change (runs (loop_fuel (S (length (toks s))) body a) (fun s' _ => keeps s s') s). assert (Hf : (length (toks s) < S (length (toks s)))%nat) by lia. revert a Hs Hf.
  generalize (S (length (toks s))) as fuel. intros fuel. revert s. induction fuel as [|fuel IH]; intros s a Hs Hf; [lia|].
  specialize (Hb a s Hs). unfold runs in Hb. unfold runs at 1. cbn [loop_fuel]. destruct (body a s) as [[s' [[a'|b]|e]]|]; [|by destruct Hb..|done].
  destruct Hb as [Hk Hl]. specialize (Hl a' eq_refl). unfold shorter in Hl.
  eapply runs_mono; [apply (IH s' a'); [by eapply among_keeps|lia]|]. intros ???. by eapply keeps_trans.
Qed.
Lemma steady_iter n : steady I (fun s => Some (Nat.iter n consume s, Ok tt)).
Proof.
  intros s _. cbn. induction n as [|n IH]; [apply keeps_refl|]. cbn. eapply keeps_trans; [done|apply consume_keeps].
Qed.
End conditions.

(** ** Following a function's own steps *)
Create HintDb steady.
#[export] Hint Resolve steady_ret steady_err steady_expected steady_consume steady_span steady_read steady_iter
  eager_err eager_expected body_stop body_err body_expected takes_consume eager_steady eager_takes : steady.
#[export] Hint Extern 1 (sees (check _)) => apply check_sees; reflexivity : steady.
#[export] Hint Resolve and_sees or_sees : steady.
Lemma stops_not c s : (c s || at_eof s) = false -> at_eof s = false.
Proof. rewrite orb_false_iff. tauto. Qed.
Lemma at_statement_end_not s : at_statement_end s = false -> at_eof s = false.
Proof. unfold at_statement_end. rewrite !orb_false_iff. tauto. Qed.
#[export] Hint Resolve stops_not at_statement_end_not : steady.

Ltac known := solve [auto with steady].
Ltac going :=
  lazymatch goal with
  | |- forall _, _ => intros ?
  | |- at_eof _ = false => solve [eauto with steady]
  | |- steady _ (match ?x with _ => _ end) => destruct x
  | |- steady _ (p_bind p_get _) => apply steady_get; intros ? ?
  | |- steady _ (p_bind _ _) => first [known | apply steady_bind]
  | |- steady _ (p_if _ _ _) => first [apply steady_sees; [known|known|] | apply steady_if]
  | |- steady _ (loop _ _) => apply steady_loop
  | |- steady _ (fun s => Some (s, _)) => apply steady_read
  | |- steady _ _ => known
  | |- eager _ (match ?x with _ => _ end) => destruct x
  | |- eager _ (p_bind p_span _) => apply eager_bind_r
  | |- eager _ (p_bind _ _) => first [apply eager_bind_l; [known|] | apply eager_bind_r]
  | |- eager _ (p_if _ _ _) => first [apply eager_if; [known| |]]
  | |- eager _ _ => known
  | |- takes _ (match ?x with _ => _ end) => destruct x
  | |- takes _ (p_bind p_span _) => apply takes_span
  | |- takes _ (p_bind _ _) => first [apply takes_bind_l; [known|] | apply takes_bind_r]
  | |- takes _ (p_if _ _ _) => apply takes_if
  | |- takes _ _ => known
  | |- body_ok _ (match ?x with _ => _ end) => destruct x
  | |- body_ok _ (p_bind p_span _) => apply body_bind
  | |- body_ok _ (p_bind _ _) => first [apply body_eager, eager_bind_l; [known|] | apply body_bind]
  | |- body_ok _ (p_if _ (p_ret (inr _)) (p_bind p_consume _)) => apply body_unless
  | |- body_ok _ (p_if _ (p_ret (inr _)) _) => apply body_if
  | |- body_ok _ (p_if _ _ _) => first [apply body_sees; [known| |] | apply body_if]
  | |- body_ok _ _ => known
  | |- from _ (match ?x with _ => _ end) => destruct x
  | |- from _ (p_bind _ _) => apply from_bind
  | |- from _ (p_if _ _ _) => apply from_if
  | |- from _ (p_try _) => apply from_try
  | |- from _ (p_back _) => apply from_back
  | |- from _ (p_err _) => apply from_err
  | |- from _ _ => eapply steady_from; [eassumption|]
  end.
Ltac go := repeat (going; cbv zeta beta).
(** A branch of a step that chose by what it sees. *)
Ltac looked :=
  first [apply settled_err | apply settled_ok | apply settled_eager_err
        | eapply settled_by; [eassumption|solve [go]] | eapply settled_eager_by; [eassumption|solve [go]]
        | eapply settled_takes_by; [eassumption|done|solve [go]]].

Section primitives.
Context {chars : Chars} (source : text) (I : states).

Lemma match_kind_steady k : steady I (match_kind k).
Proof. unfold match_kind. go. Qed.
Lemma eat_eager k what : same_kind k TokenKind.Eof = false -> eager I (eat k what).
Proof. intros H. unfold eat. apply eager_if; [by apply check_sees|known..]. Qed.
Lemma peek_sees (c : TokenKind -> bool) : c TokenKind.Eof = false -> sees (fun s => c (peek_kind s)).
Proof. intros H s Hc. change (same_kind (peek_kind s) TokenKind.Eof = false). destruct (peek_kind s); done || congruence. Qed.
Lemma eat_steady k what : steady I (eat k what).
Proof. unfold eat. go. Qed.
End primitives.
#[export] Hint Resolve match_kind_steady eat_steady : steady.
#[export] Hint Extern 1 (eager _ (eat _ _)) => apply eat_eager; reflexivity : steady.

Section primitives.
Context {chars : Chars} (source : text) (I : states).

Lemma consume_if_eager p : p TokenKind.Eof = false -> eager I (consume_if source p).
Proof.
  intros Hp s _. unfold runs, consume_if. pose proof (consume_keeps s) as Hk. pose proof (consume_shorter s) as Hl.
  assert (Hr : keeps s s) by apply keeps_refl. change (at_eof s) with (same_kind (peek_kind s) TokenKind.Eof) in Hl.
  destruct (peek_kind s); try match goal with |- context [p ?k] => destruct (p k) eqn:E end; (split; [done|]); intros Hok; try done; apply Hl; try done; congruence.
Qed.
Lemma consume_variable_eager : eager I (consume_variable source).
Proof. by apply consume_if_eager. Qed.
Lemma consume_name_eager : eager I (consume_name source).
Proof. by apply consume_if_eager. Qed.
Lemma variable_name_eager : eager I (variable_name source).
Proof. apply eager_bind_l; [apply consume_variable_eager|]. go. Qed.
Lemma plain_name_eager : eager I (plain_name source).
Proof. apply eager_bind_l; [apply consume_name_eager|]. go. Qed.
End primitives.
#[export] Hint Resolve consume_variable_eager consume_name_eager variable_name_eager plain_name_eager : steady.

Lemma is_word_sees w : sees (is_soft_keyword w).
Proof. apply (peek_sees (fun k => is_word k w)). done. Qed.
Lemma either_word_sees a b : sees (either_word a b).
Proof. apply or_sees; apply is_word_sees. Qed.
#[export] Hint Resolve is_word_sees either_word_sees : steady.

Section combinators.
Context {chars : Chars} (source : text) (I : states) {A : Type}.

Lemma expect_soft_keyword_steady w : steady I (expect_soft_keyword w).
Proof. unfold expect_soft_keyword. go. Qed.
Lemma optional_steady k (m : P A) : steady I m -> steady I (optional k m).
Proof. intros. unfold optional. go. Qed.
Lemma items_after_steady (item : P A) a : steady I item -> steady I (items_after item a).
Proof. intros. unfold items_after. go. Qed.
Lemma comma_list_steady (item : P A) : steady I item -> steady I (comma_list item).
Proof. intros. unfold comma_list. apply steady_bind; [done|]. intros a. by apply items_after_steady. Qed.
Lemma items_until_steady k (item : P A) : steady I item -> steady I (items_until k item).
Proof. intros. apply steady_if; [apply steady_ret|by apply comma_list_steady]. Qed.
Lemma joined_steady op (build : A -> A -> A) (operand : P A) : sees op -> steady I operand -> steady I (joined op build operand).
Proof. intros. unfold joined. go. Qed.
Lemma try_int_steady : steady I try_parse_int_literal.
Proof. apply steady_look. intros s _. unfold try_parse_int_literal. destruct (peek_kind s); apply consume_keeps || apply keeps_refl. Qed.
End combinators.
#[export] Hint Resolve expect_soft_keyword_steady optional_steady items_after_steady comma_list_steady items_until_steady
  joined_steady try_int_steady : steady.

(** ** Label expressions, and the depth *)
Section nesting.
Context {A : Type} (d : N).
Lemma nested_too_deep (m : P A) : (MAX_EXPRESSION_DEPTH <= d)%N -> steady (at_depth d) (nested m).
Proof.
  intros Hd s Hs. cbn in Hs. unfold runs, nested. cbn. destruct (N.ltb_spec MAX_EXPRESSION_DEPTH (depth s + 1)); [|lia].
  split; cbn; [done|lia|done].
Qed.
Lemma nested_steady (m : P A) : steady (at_depth (d + 1)) m -> steady (at_depth d) (nested m).
Proof.
  intros Hm s Hs. cbn in Hs. unfold runs, nested. cbn. destruct (N.ltb_spec MAX_EXPRESSION_DEPTH (depth s + 1)).
  { split; cbn; [done|lia|done]. }
  specialize (Hm (mkParser (toks s) (depth s + 1) (no_label_pipe s)) ltac:(cbn; lia)). unfold runs in Hm.
  destruct (m _) as [[s' r]|]; [|done]. destruct Hm as [H1 H2 H3]. cbn in *. split; cbn; [done|lia|done].
Qed.
End nesting.

(** With fuel for every level up to the deepest, a recursion that nests at each
    step answers. *)
Lemma fuelled_steady {A X : Type} (body : (X -> P A) -> X -> P A) (f : nat -> X -> P A) :
  (forall n x, f (S n) x = nested (body (f n) x)) ->
  (forall I g, (forall x, steady I (g x)) -> forall x, steady I (body g x)) ->
  forall n d, (MAX_EXPRESSION_DEPTH <= N.of_nat n + d)%N -> forall x, steady (at_depth d) (f (S n) x).
Proof.
  intros HS Hb n. induction n as [|n IH]; intros d Hd x; rewrite HS; [apply nested_too_deep; lia|].
  apply nested_steady, Hb. apply IH. lia.
Qed.

Section label_steps.
Context {chars : Chars} (source : text) (I : states) (inner : P LabelExpr.t) (Hinner : steady I inner).
Lemma label_and_of_steady : steady I (label_and_of inner).
Proof using Hinner. apply joined_steady; [known|done]. Qed.
Lemma label_or_of_steady pipe_ok : steady I (label_or_of inner pipe_ok).
Proof using Hinner. apply joined_steady; [|apply label_and_of_steady]. intros s. rewrite andb_true_iff. intros [_ H]. revert H. by apply check_sees. Qed.
Lemma parse_label_atom_steady : steady I (parse_label_atom source inner).
Proof using Hinner. pose proof label_or_of_steady. unfold parse_label_atom. go. Qed.
End label_steps.

Section labels.
Context {chars : Chars} (source : text) (I : states).
Lemma parse_label_not_steady : steady I (parse_label_not source).
Proof.
  apply steady_anywhere. unfold parse_label_not.
  apply (fuelled_steady (fun g (_ : unit) => parse_label_atom source (g tt)) (fun n _ => parse_label_not_fuel source n)) with (x := tt).
  - done.
  - intros J g Hg _. apply parse_label_atom_steady, Hg.
  - done.
Qed.
Lemma parse_label_or_steady pipe_ok : steady I (parse_label_or source pipe_ok).
Proof. apply label_or_of_steady, parse_label_not_steady. Qed.
Lemma parse_label_expression_steady pipe_ok : steady I (parse_label_expression source pipe_ok).
Proof. pose proof (parse_label_or_steady pipe_ok). unfold parse_label_expression. go. Qed.
Lemma parse_label_chain_steady : steady I (parse_label_chain source).
Proof. unfold parse_label_chain. go. Qed.
Lemma parse_rel_length_steady : steady I parse_rel_length.
Proof.
  apply steady_look. intros s Hs. unfold parse_rel_length. destruct (peek_kind s); looked.
Qed.
Lemma relationship_types_steady : steady I (relationship_types source).
Proof. unfold relationship_types. go. Qed.
End labels.
#[export] Hint Resolve parse_label_expression_steady parse_label_chain_steady parse_rel_length_steady relationship_types_steady : steady.

(** ** Expressions, for parts that answer *)
Section expressions.
Context {chars : Chars} (source : text) (I : states) (bp : N -> P Expression) (Hbp : forall n, steady I (bp n)).

Lemma parse_expression_steady : steady I (parse_expression bp).
Proof using Hbp. apply Hbp. Qed.
Hint Resolve parse_expression_steady : steady.
Lemma parse_map_entry_steady : steady I (parse_map_entry source bp).
Proof using Hbp. unfold parse_map_entry. go. Qed.
Hint Resolve parse_map_entry_steady : steady.
Lemma parse_map_literal_steady : steady I (parse_map_literal source bp).
Proof using Hbp. unfold parse_map_literal. go. Qed.
Hint Resolve parse_map_literal_steady : steady.
Lemma parse_node_pattern_eager : eager I (parse_node_pattern source bp).
Proof using Hbp. unfold parse_node_pattern. go. Qed.
Lemma relationship_detail_steady : steady I (relationship_detail source bp).
Proof using Hbp. unfold relationship_detail. go. Qed.
Hint Resolve parse_node_pattern_eager relationship_detail_steady : steady.
Lemma parse_relationship_pattern_steady : steady I (parse_relationship_pattern source bp).
Proof using Hbp. unfold parse_relationship_pattern. go. Qed.
Hint Resolve parse_relationship_pattern_steady : steady.
Lemma parse_path_pattern_steady : steady I (parse_path_pattern source bp).
Proof using Hbp. unfold parse_path_pattern. go. Qed.
Hint Resolve parse_path_pattern_steady : steady.

Lemma parse_comprehension_filter_steady : steady I (parse_comprehension_filter bp).
Proof using Hbp.
  intros s Hs. unfold runs, parse_comprehension_filter. pose proof (parse_expression_steady _ (among_pipe _ _ (no_label_pipe s + 1) Hs)) as H.
  unfold runs in H. destruct (parse_expression bp _) as [[s' r]|]; [|done]. destruct H as [H1 H2 H3]. cbn in *.
  split; cbn; [done..|lia].
Qed.
Lemma parse_in_parens_steady : steady I (parse_in_parens bp).
Proof using Hbp.
  intros s Hs. unfold runs, parse_in_parens. pose proof (parse_expression_steady _ (among_pipe _ _ 0 Hs)) as H.
  unfold runs in H. destruct (parse_expression bp _) as [[s' r]|]; [|done]. by destruct H as [H1 H2 H3].
Qed.
Hint Resolve parse_comprehension_filter_steady parse_in_parens_steady : steady.
Lemma parse_map_projection_selector_steady : steady I (parse_map_projection_selector source bp).
Proof using Hbp. unfold parse_map_projection_selector. go. Qed.
Hint Resolve parse_map_projection_selector_steady : steady.
Lemma parse_map_projection_eager e : eager I (parse_map_projection source bp e).
Proof using Hbp. unfold parse_map_projection. go. Qed.
Hint Resolve parse_map_projection_eager : steady.
Lemma finish_list_comprehension_steady e sp : steady I (finish_list_comprehension bp e sp).
Proof using Hbp. unfold finish_list_comprehension. go. Qed.
Hint Resolve finish_list_comprehension_steady : steady.
Lemma try_parse_pattern_comprehension_steady sp : steady I (try_parse_pattern_comprehension source bp sp).
Proof using Hbp. unfold try_parse_pattern_comprehension. go. Qed.
Lemma try_parse_pattern_predicate_steady sp : steady I (try_parse_pattern_predicate source bp sp).
Proof using Hbp. unfold try_parse_pattern_predicate. go. Qed.
Hint Resolve try_parse_pattern_comprehension_steady try_parse_pattern_predicate_steady : steady.
Lemma parse_list_literal_steady : steady I (parse_list_literal source bp).
Proof using Hbp. unfold parse_list_literal. go. Qed.
Lemma subquery_steady a b : steady I (subquery source bp a b).
Proof using Hbp. unfold subquery. go. Qed.
Hint Resolve parse_list_literal_steady subquery_steady : steady.
Lemma parse_list_predicate_steady k sp : steady I (parse_list_predicate source bp k sp).
Proof using Hbp. unfold parse_list_predicate. go. Qed.
Lemma parse_reduce_steady sp : steady I (parse_reduce source bp sp).
Proof using Hbp. unfold parse_reduce. go. Qed.
Lemma parse_case_steady : steady I (parse_case bp).
Proof using Hbp. unfold parse_case. go. Qed.
Lemma parse_call_or_variable_steady n sp : steady I (parse_call_or_variable bp n sp).
Proof using Hbp. apply steady_look. intros s Hs. unfold parse_call_or_variable. cbv zeta. destruct (same_kind _ _); looked. Qed.
Hint Resolve parse_list_predicate_steady parse_reduce_steady parse_case_steady parse_call_or_variable_steady : steady.
Lemma parse_identifier_or_call_steady : steady I (parse_identifier_or_call source bp).
Proof using Hbp. unfold parse_identifier_or_call, parse_count_subquery. go. Qed.
Lemma parse_parenthesis_steady : steady I (parse_parenthesis source bp).
Proof using Hbp. unfold parse_parenthesis. go. Qed.
Hint Resolve parse_identifier_or_call_steady parse_parenthesis_steady : steady.
Lemma parse_primary_steady : steady I (parse_primary source bp).
Proof using Hbp.
  apply steady_look. intros s Hs. unfold parse_primary, parse_exists_subquery, atom, prefix_operator.
  destruct (peek_kind s); try destruct (names_a_variable _); try destruct (same_kind _ _); looked.
Qed.
Hint Resolve parse_primary_steady : steady.
Lemma slice_to_steady b f sp : steady I (slice_to bp b f sp).
Proof using Hbp. unfold slice_to. go. Qed.
Hint Resolve slice_to_steady : steady.
Lemma parse_subscript_takes b : takes I (parse_subscript bp b).
Proof using Hbp. unfold parse_subscript. go. Qed.
Hint Resolve parse_subscript_takes : steady.
Lemma parse_postfix_body e : body_ok I (parse_postfix source bp e).
Proof using Hbp. unfold parse_postfix. go. Qed.
Hint Resolve parse_postfix_body : steady.
Lemma parse_prefix_steady : steady I (parse_prefix source bp).
Proof using Hbp. unfold parse_prefix. go. Qed.
Lemma peek_infix_op_sees s op : peek_infix_op s = Some op -> at_eof s = false.
Proof. unfold peek_infix_op. intros H. change (same_kind (peek_kind s) TokenKind.Eof = false). by destruct (peek_kind s). Qed.
Lemma parse_infix_takes op n lhs : takes I (parse_infix bp op n lhs).
Proof using Hbp.
  unfold parse_infix. apply takes_span. intros sp. destruct op as [op| |]; [|go..].
  apply takes_bind_l; [|go]. destruct (bool_decide _); go.
Qed.
Hint Resolve parse_infix_takes : steady.
Lemma infix_step_body n lhs : body_ok I (infix_step bp n lhs).
Proof using Hbp.
  intros s Hs. unfold runs, infix_step. destruct (peek_infix_op s) as [[[op lbp] rbp]|] eqn:E; [|by split; [apply keeps_refl|]].
  destruct (lbp <? n)%N; [by split; [apply keeps_refl|]|].
  assert (H : takes I (do e := parse_infix bp op rbp lhs in p_ret (@inl _ Expression e))) by go.
  eapply runs_mono; [apply H; [done|by eapply peek_infix_op_sees]|]. intros s' r [Hk Hl]. split; [done|]. intros a ->. by apply Hl.
Qed.
Lemma parse_has_labels_steady e : steady I (parse_has_labels source e).
Proof using Hbp.
  unfold parse_has_labels. go. apply steady_look. intros s Hs. by apply (settled_by I), parse_label_expression_steady.
Qed.
Hint Resolve parse_prefix_steady infix_step_body parse_has_labels_steady : steady.
Lemma parse_expression_bp_inner_steady n : steady I (parse_expression_bp_inner source bp n).
Proof using Hbp. unfold parse_expression_bp_inner. go. Qed.
End expressions.

Lemma parse_expression_bp_steady {chars : Chars} source I n : steady I (parse_expression_bp source n).
Proof.
  apply steady_anywhere. unfold parse_expression_bp.
  apply (fuelled_steady (parse_expression_bp_inner source) (parse_expression_bp_fuel source)); [done| |done].
  intros J g Hg x. by apply parse_expression_bp_inner_steady.
Qed.
#[export] Hint Resolve parse_expression_bp_steady parse_expression_steady parse_prefix_steady parse_path_pattern_steady : steady.

(** ** Clauses *)
Section clauses.
Context {chars : Chars} (source : text) (I : states).
Lemma consume_to_statement_end_steady : steady I consume_to_statement_end.
Proof. unfold consume_to_statement_end. go. Qed.
Lemma if_not_exists_steady : steady I if_not_exists.
Proof. unfold if_not_exists. go. Qed.
Lemma if_exists_steady : steady I if_exists.
Proof. unfold if_exists. go. Qed.
Lemma shortest_steady : steady I (fun s => Some (s, Ok (shortest_kind s))).
Proof. go. Qed.
Lemma parse_named_pattern_steady : steady I (parse_named_pattern source).
Proof. unfold parse_named_pattern. go. Qed.
Hint Resolve parse_named_pattern_steady : steady.
Lemma parse_pattern_list_steady : steady I (parse_pattern_list source).
Proof. unfold parse_pattern_list. go. Qed.
Lemma reject_label_expressions_steady p c : steady I (reject_label_expressions p c).
Proof. unfold reject_label_expressions. go. Qed.
Lemma parse_set_item_steady : steady I (parse_set_item source).
Proof. unfold parse_set_item. go. Qed.
Hint Resolve parse_set_item_steady : steady.
Lemma parse_set_items_steady : steady I (parse_set_items source).
Proof. unfold parse_set_items. go. Qed.
Lemma parse_remove_item_steady : steady I (parse_remove_item source).
Proof. unfold parse_remove_item. go. Qed.
Lemma parse_projection_item_steady : steady I (parse_projection_item source).
Proof. unfold parse_projection_item. go. Qed.
Lemma parse_order_item_steady : steady I (parse_order_item source).
Proof. unfold parse_order_item. go. Qed.
Hint Resolve parse_pattern_list_steady reject_label_expressions_steady parse_set_items_steady parse_remove_item_steady
  parse_projection_item_steady parse_order_item_steady : steady.
Lemma parse_post_projection_steady : steady I (parse_post_projection source).
Proof. unfold parse_post_projection. go. Qed.
Lemma parse_yield_item_steady : steady I (parse_yield_item source).
Proof. unfold parse_yield_item. go. Qed.
Lemma procedure_name_steady : steady I (procedure_name source).
Proof. unfold procedure_name. go. Qed.
Hint Resolve parse_post_projection_steady parse_yield_item_steady procedure_name_steady : steady.
Lemma finish_show_call_steady a b c sp : steady I (finish_show_call source a b c sp).
Proof. unfold finish_show_call. go. Qed.
Lemma parse_transaction_ids_steady : steady I (parse_transaction_ids source).
Proof. unfold parse_transaction_ids. go. Qed.
Hint Resolve finish_show_call_steady parse_transaction_ids_steady : steady.

Lemma parse_match_takes o : takes I (parse_match source o).
Proof. unfold parse_match. go. Qed.
Lemma parse_merge_takes : takes I (parse_merge source).
Proof. unfold parse_merge. go. Qed.
Lemma parse_delete_takes d sp : takes I (parse_delete_with_span source d sp).
Proof. unfold parse_delete_with_span. go. Qed.
Lemma parse_set_takes : takes I (parse_set source).
Proof. unfold parse_set. go. Qed.
Lemma parse_remove_takes : takes I (parse_remove source).
Proof. unfold parse_remove. go. Qed.
Lemma parse_with_takes : takes I (parse_with source).
Proof. unfold parse_with. go. Qed.
Lemma parse_return_takes : takes I (parse_return source).
Proof. unfold parse_return. go. Qed.
Lemma parse_unwind_takes : takes I (parse_unwind source).
Proof. unfold parse_unwind. go. Qed.
Lemma parse_call_takes : takes I (parse_call source).
Proof. unfold parse_call. go. Qed.
Lemma show_words_steady : steady I show_words.
Proof.
  unfold show_words. apply steady_loop. intros words s Hs. unfold runs. cbv zeta.
  assert (Ht : forall r : list text + list text * string, at_eof s = false ->
    match Some (consume s, @Ok ParseError _ r) with
    | Some (s', r) => keeps s s' /\ (forall a, r = Ok (inl a) -> shorter s s') | None => False end).
  { intros r H. split; [apply consume_keeps|]. intros _ _. by apply consume_shorter. }
  change (at_eof s) with (same_kind (peek_kind s) TokenKind.Eof) in Ht.
  destruct (peek_kind s); first [by apply Ht | by apply (body_expected I)].
Qed.
Hint Resolve show_words_steady : steady.
Lemma parse_show_takes : takes I (parse_show source).
Proof. unfold parse_show. go. Qed.
Lemma terminate_ids_steady a b sp : steady I (terminate_ids source a b sp).
Proof. unfold terminate_ids. go. Qed.
Hint Resolve terminate_ids_steady : steady.
Lemma parse_terminate_takes : takes I (parse_terminate source).
Proof. unfold parse_terminate. go. Qed.
Lemma parse_search_takes : takes I (parse_search source).
Proof. unfold parse_search. go. Qed.
End clauses.
#[export] Hint Resolve consume_to_statement_end_steady if_not_exists_steady if_exists_steady parse_named_pattern_steady
  parse_pattern_list_steady parse_match_takes parse_merge_takes parse_delete_takes parse_set_takes parse_remove_takes
  parse_with_takes parse_return_takes parse_unwind_takes parse_call_takes parse_show_takes parse_terminate_takes
  parse_search_takes : steady.

(** *** Schema commands *)
Section schema.
Context {chars : Chars} (source : text) (I : states).
Lemma malformed_steady {A} m sp : steady I (malformed (A := A) m sp).
Proof. apply steady_err. Qed.
Lemma malformed_eager {A} m sp : eager I (malformed (A := A) m sp).
Proof. apply eager_err. Qed.
Hint Resolve malformed_steady malformed_eager : steady.
Lemma index_segments_steady : steady I (index_segments source).
Proof. unfold index_segments. go. Qed.
Hint Resolve index_segments_steady : steady.
Lemma index_path_eager v : eager I (index_path source v).
Proof. unfold index_path. go. Qed.
Hint Resolve index_path_eager : steady.
Lemma index_paths_steady k v : steady I (index_paths source k v).
Proof.
  unfold index_paths. go. apply steady_look. intros s Hs. by apply (settled_by I), malformed_steady.
Qed.
Lemma path_index_clause_steady n k l ps ine sp : steady I (path_index_clause n k l ps ine sp).
Proof. unfold path_index_clause. go. Qed.
Hint Resolve index_paths_steady path_index_clause_steady : steady.
Lemma parse_create_path_index_steady sp k : steady I (parse_create_path_index source sp k).
Proof. unfold parse_create_path_index. go. Qed.
Hint Resolve parse_create_path_index_steady : steady.
Lemma parse_drop_takes : takes I (parse_drop source).
Proof. unfold parse_drop. go. Qed.
Lemma constraint_property_eager v : eager I (constraint_property source v).
Proof. unfold constraint_property. go. Qed.
Lemma finish_constraint_steady c : steady I (finish_constraint c).
Proof. unfold finish_constraint. go. Qed.
Lemma constraint_rule_steady ps : steady I (constraint_rule ps).
Proof. unfold constraint_rule. go. Qed.
Hint Resolve constraint_property_eager finish_constraint_steady constraint_rule_steady : steady.
Lemma constraint_properties_steady v : steady I (constraint_properties source v).
Proof. unfold constraint_properties. go. Qed.
Hint Resolve constraint_properties_steady : steady.
Lemma constraint_body_steady n ine v l sp : steady I (constraint_body source n ine v l sp).
Proof. unfold constraint_body. go. Qed.
Hint Resolve constraint_body_steady : steady.
Lemma parse_create_unique_constraint_steady sp : steady I (parse_create_unique_constraint source sp).
Proof. unfold parse_create_unique_constraint. go. Qed.
Lemma vector_index_target_steady : steady I (vector_index_target source).
Proof. unfold vector_index_target. go. Qed.
Lemma skip_to_for_steady : steady I skip_to_for.
Proof. unfold skip_to_for. go. Qed.
Hint Resolve parse_create_unique_constraint_steady vector_index_target_steady skip_to_for_steady : steady.
Lemma parse_create_vector_index_steady sp : steady I (parse_create_vector_index source sp).
Proof. unfold parse_create_vector_index. go. Qed.
Lemma try_index_steady w a b sp k : steady I (try_index source w a b sp k).
Proof. unfold try_index. go. Qed.
Lemma first_clause_steady m n : steady I m -> steady I n -> steady I (first_clause m n).
Proof. intros. unfold first_clause. go. Qed.
Hint Resolve parse_create_vector_index_steady try_index_steady first_clause_steady : steady.
Lemma parse_create_takes : takes I (parse_create source).
Proof. unfold parse_create. go; repeat (apply first_clause_steady; go); go. Qed.
End schema.
#[export] Hint Resolve parse_drop_takes parse_create_takes : steady.

(** *** Nested [FOREACH]s *)
Section foreach.
Context {chars : Chars} (source : text) (n : nat) (inner : P Clause) (Hinner : eager (within n) inner).
Lemma takes_consume_within {A} (m : P A) : steady (within n) m -> takes (within (S n)) (run p_consume in m).
Proof.
  intros Hm s Hs Ht. unfold runs, p_bind, p_consume. pose proof (consume_keeps s) as Hk. pose proof (consume_shorter s Ht) as Hl.
  cbn in Hs. unfold shorter in Hl. eapply runs_mono; [apply Hm; cbn; lia|]. cbn. intros s' r Hk'. split; [by eapply keeps_trans|].
  intros _. by eapply shorter_keeps.
Qed.
Lemma parse_foreach_takes : takes (within (S n)) (parse_foreach source inner).
Proof using Hinner. unfold parse_foreach. apply takes_span. intros sp. apply takes_consume_within. go. Qed.
Hint Resolve parse_foreach_takes : steady.

Lemma parse_clause_body_eager : eager (within (S n)) (parse_clause_body source inner).
Proof using Hinner.
  apply eager_look. intros s Hs. unfold parse_clause_body, parse_delete.
  assert (Ht : same_kind (peek_kind s) TokenKind.Eof = false -> at_eof s = false) by done.
  destruct (peek_kind s); try specialize (Ht eq_refl);
    repeat match goal with |- context [is_word ?k ?w] => change (is_word k w) with false || destruct (is_word k w) end; looked.
Qed.
End foreach.

Section queries.
Context {chars : Chars} (source : text) (I : states).
Lemma no_clause (inner : P Clause) s : peek_kind s = TokenKind.Eof -> settled_eager s (parse_clause_body source inner s).
Proof. unfold parse_clause_body. intros ->. cbn [is_word]. by apply (settled_eager_by anywhere), eager_expected. Qed.
Lemma parse_clause_fuel_eager n : eager (within n) (parse_clause_fuel source (S n)).
Proof.
  induction n as [|n IH].
  - intros s Hs. change (settled_eager s (parse_clause_fuel source 1 s)). cbn [parse_clause_fuel].
    apply no_clause. destruct s as [[|t ts] d np]; [done|cbn in Hs; lia].
  - apply (parse_clause_body_eager source n _ IH).
Qed.
Lemma parse_clause_eager : eager I (parse_clause source).
Proof.
  apply eager_look. intros s _. unfold parse_clause. pose proof (parse_clause_fuel_eager (length (toks s)) s (Nat.le_refl _)) as H.
  unfold runs in H. exact H.
Qed.
Hint Resolve parse_clause_eager : steady.
Lemma parse_single_query_steady : steady I (parse_single_query source).
Proof. unfold parse_single_query. go. Qed.
Hint Resolve parse_single_query_steady : steady.
Lemma parse_query_steady : steady I (parse_query source).
Proof. unfold parse_query. go. Qed.
End queries.

Section answers.
Context {chars : Chars} {laws : CharsLaws}.

(** C15: The parser always answers: for any source at all it returns a query or
    an error, however deeply expressions nest and however often it tries a
    pattern and goes back. *)
Theorem parse_always_answers source : exists r, parse source = Some r.
Proof using laws.
  unfold parse. destruct (tokenize source) as [[tokens|e]|] eqn:E; [|by eexists|by destruct (tokenize_some source)].
  pose proof (steady_bind anywhere (parse_query source) (fun q => run ensure_eof in p_ret q) (parse_query_steady _ _)) as H.
  assert (Hr : forall q, steady anywhere (run ensure_eof in p_ret q : P Query)) by (intros q; unfold ensure_eof; go).
  specialize (H Hr (mkParser tokens 0 0) Logic.I). unfold runs in H.
  destruct (p_bind _ _ _) as [[s r]|]; [by eexists|done].
Qed.
End answers.

(** ** Concrete queries *)
Module Queries.
Import AsciiOnly.

Lemma parse_always_answers_witness : exists r, parse (lit "RETURN [(a)-->(b) | {k: (a.x + 1) * 2}], ((((1") = Some r.
Proof. exact (parse_always_answers (laws := AsciiOnly.laws) (lit "RETURN [(a)-->(b) | {k: (a.x + 1) * 2}], ((((1")). Defined.

(** The error of a source, as it was written. *)
Definition refused (source : string) : option (result ParseError unit) :=
  (fun r => match r with Ok _ => Ok tt | Err e => Err e end) <$> parse (lit source).

(** [a < -1] written without spaces is refused: the lexer reads [<-] as the
    arrow of a relationship. *)
Theorem less_than_minus_refused :
  (exists clause_keyword, refused "RETURN 1 <-1" = Some (Err (Expected clause_keyword (lit "<-") (mkSpan 9 11 1 10)))) /\
  refused "RETURN 1 < -1" = Some (Ok tt).
Proof. split; vm_compute; [eexists|]; reflexivity. Qed.

(** [FOREACH]s nest deeper than the depth allowed to expressions. *)
Definition nested_foreach (n : nat) : text :=
  concat (replicate n (lit "FOREACH(x IN y|")) ++ lit "SET a.b=1" ++ concat (replicate n (lit ")")).
Theorem nested_foreach_unbounded : (MAX_EXPRESSION_DEPTH < 200)%N /\ exists q, parse (nested_foreach 200) = Some (Ok q).
Proof. split; [done|]. vm_compute. eexists. reflexivity. Qed.
End Queries.
