(* ===== verification/CypherGrammar.v ===== *)
(** * A grammar of Cypher expressions
    ([src/src/cypher/parser.rs])

    What the parser of expressions is for, without its loops, binding powers
    held in variables, look-ahead and steps back: derivations of a tree from
    tokens.  [expr k m ts e ed] says that [ts] is written as an operand of at
    least the binding power [m], nests at most [k] levels and means [e]; [ed]
    says what may stand behind.  The one form left out is a bare [|] between
    the labels of an expression, whose reading depends on what is around it:
    here [n:(A|B)] has its parentheses.  *)
From S2P Require Import Prelude CypherLexer CypherAst CypherParser.
Local Open Scope list_scope.

Section grammar.
Context (source : text).

(** ** Words *)
Inductive variable : Token -> text -> Prop :=
| variable_identifier n sp : variable (mkToken (TokenKind.Identifier n) sp) n
| variable_word k sp : names_a_variable k = true -> variable (mkToken k sp) (written source sp).
Inductive name : Token -> text -> Prop :=
| name_identifier n sp : name (mkToken (TokenKind.Identifier n) sp) n
| name_word k sp : is_keyword k = true -> name (mkToken k sp) (written source sp).

(** The tokens that are an expression of their own. *)
Definition atom_of (k : TokenKind) : option (Span -> Expression) :=
  match k with
  | TokenKind.Integer n => Some (Expression.Integer n)
  | TokenKind.Float x => Some (Expression.Float x)
  | TokenKind.String t => Some (Expression.String t)
  | TokenKind.True => Some Expression.True_
  | TokenKind.False => Some Expression.False_
  | TokenKind.Null => Some Expression.Null
  | TokenKind.Param n => Some (Expression.Param n)
  | TokenKind.Star => Some Expression.Star
  | _ => None
  end.
Definition prefix_of (k : TokenKind) : option (UnaryOp * N) :=
  match k with
  | TokenKind.Minus => Some (Neg, PREFIX_BP)
  | TokenKind.Plus => Some (UPlus, PREFIX_BP)
  | TokenKind.Not => Some (UNot, NOT_BP)
  | _ => None
  end.
(** Operators by their powers to the left and to the right. *)
Definition to_the_left (op : InfixOp) (n : N) : option (InfixOp * N * N) := Some (op, n, n + 1)%N.
Definition infix_of (k : TokenKind) : option (InfixOp * N * N) :=
  match k with
  | TokenKind.Or => to_the_left (InfixBinary BOr) 10
  | TokenKind.Xor => to_the_left (InfixBinary BXor) 12
  | TokenKind.And => to_the_left (InfixBinary BAnd) 14
  | TokenKind.Eq => to_the_left (InfixBinary BEq) 20 | TokenKind.Ne => to_the_left (InfixBinary BNe) 20
  | TokenKind.Lt => to_the_left (InfixBinary BLt) 20 | TokenKind.Le => to_the_left (InfixBinary BLe) 20
  | TokenKind.Gt => to_the_left (InfixBinary BGt) 20 | TokenKind.Ge => to_the_left (InfixBinary BGe) 20
  | TokenKind.RegexMatch => to_the_left (InfixBinary BRegexMatch) 20
  | TokenKind.Starts => to_the_left (InfixBinary StartsWith) 20 | TokenKind.Ends => to_the_left (InfixBinary EndsWith) 20
  | TokenKind.Contains => to_the_left (InfixBinary BContains) 20
  | TokenKind.Is => to_the_left IsNullPrefix 20 | TokenKind.In => to_the_left InPrefix 20
  | TokenKind.Plus => to_the_left (InfixBinary Add) 30 | TokenKind.Minus => to_the_left (InfixBinary Sub) 30
  | TokenKind.Star => to_the_left (InfixBinary Mul) 40 | TokenKind.Slash => to_the_left (InfixBinary Div) 40
  | TokenKind.Percent => to_the_left (InfixBinary Mod) 40
  | TokenKind.Caret => Some (InfixBinary Pow, 51, 50)
  | _ => None
  end%N.

(** ** Label expressions *)
Inductive joined_by {A} (op : TokenKind) (build : A -> A -> A) (operand : list Token -> A -> Prop) : list Token -> A -> Prop :=
| joined_one ts x : operand ts x -> joined_by op build operand ts x
| joined_more ts x sp ts' y : joined_by op build operand ts x -> operand ts' y ->
    joined_by op build operand (ts ++ mkToken op sp :: ts') (build x y).

(** An operand of a label expression, nested at most [k] levels. *)
Inductive label : nat -> list Token -> LabelExpr.t -> Prop :=
| label_not k sp ts e : label k ts e -> label (S k) (mkToken TokenKind.Bang sp :: ts) (LabelExpr.Not e)
| label_any k sp : label (S k) [mkToken TokenKind.Percent sp] LabelExpr.Any
| label_group k sp ts e sp' :
    joined_by TokenKind.Pipe LabelExpr.Or (joined_by TokenKind.Ampersand LabelExpr.And (label k)) ts e ->
    label (S k) (mkToken TokenKind.LParen sp :: ts ++ [mkToken TokenKind.RParen sp']) e
| label_name k t n : name t n -> label (S k) [t] (LabelExpr.Name n).

(** [:] and labels; [|] stands for itself only where [p] allows it. *)
Definition label_and (k : nat) : list Token -> LabelExpr.t -> Prop := joined_by TokenKind.Ampersand LabelExpr.And (label k).
Definition label_or (k : nat) (p : bool) : list Token -> LabelExpr.t -> Prop :=
  if p then joined_by TokenKind.Pipe LabelExpr.Or (label_and k) else label_and k.
Inductive label_expression (k : nat) (p : bool) : list Token -> LabelExpr.t -> Prop :=
| labels_of sp ts e : joined_by TokenKind.Colon LabelExpr.And (label_or k p) ts e ->
    label_expression k p (mkToken TokenKind.Colon sp :: ts) e.

(** ** Small parts of patterns and calls *)
Inductive dotted : list Token -> list text -> Prop :=
| dotted_nil : dotted [] []
| dotted_cons sp sp' n ts ns : dotted ts ns ->
    dotted (mkToken TokenKind.Dot sp :: mkToken (TokenKind.Identifier n) sp' :: ts) (n :: ns).
Inductive optional_token (k : TokenKind) : list Token -> bool -> Prop :=
| token_there sp : optional_token k [mkToken k sp] true
| token_missing : optional_token k [] false.
Inductive optional_variable : list Token -> option text -> Prop :=
| variable_there t n : variable t n -> optional_variable [t] (Some n)
| variable_missing : optional_variable [] None.
Inductive more_types : list Token -> list text -> Prop :=
| types_end : more_types [] []
| types_more sp c b t n ts ns : optional_token TokenKind.Colon c b -> name t n -> more_types ts ns ->
    more_types (mkToken TokenKind.Pipe sp :: c ++ t :: ts) (n :: ns).
Inductive types : list Token -> list text -> Prop :=
| types_none : types [] []
| types_some sp t n ts ns : name t n -> more_types ts ns -> types (mkToken TokenKind.Colon sp :: t :: ts) (n :: ns).
Inductive bound : list Token -> option Z -> Prop :=
| bound_there n sp : bound [mkToken (TokenKind.Integer n) sp] (Some n)
| bound_missing : bound [] None.
Inductive rel_length : list Token -> option RelLength -> Prop :=
| length_missing : rel_length [] None
| length_any sp : rel_length [mkToken TokenKind.Star sp] (Some AnyLength)
| length_exact sp n sp' : rel_length [mkToken TokenKind.Star sp; mkToken (TokenKind.Integer n) sp'] (Some (Exact n))
| length_to sp sp' ts to : bound ts to ->
    rel_length (mkToken TokenKind.Star sp :: mkToken TokenKind.DotDot sp' :: ts) (Some (RangeLength None to))
| length_from sp n sp' sp'' ts to : bound ts to ->
    rel_length (mkToken TokenKind.Star sp :: mkToken (TokenKind.Integer n) sp' :: mkToken TokenKind.DotDot sp'' :: ts)
      (Some (RangeLength (Some n) to)).
Inductive node_labels (k : nat) : list Token -> list text -> option LabelExpr.t -> Prop :=
| node_unlabelled : node_labels k [] [] None
| node_labelled ts e ns : label_expression k true ts e -> LabelExpr.as_conjunction e = Some ns -> node_labels k ts ns None
| node_label_expr ts e : label_expression k true ts e -> LabelExpr.as_conjunction e = None ->
    node_labels k ts (LabelExpr.required_labels e) (Some e).
(** The two ends of a relationship, and its direction. *)
Inductive arrows : TokenKind -> TokenKind -> Direction -> Prop :=
| arrows_right : arrows TokenKind.Minus TokenKind.Arrow Outgoing
| arrows_left : arrows TokenKind.LArrow TokenKind.Minus Incoming
| arrows_none : arrows TokenKind.Minus TokenKind.Minus Undirected.

(** What could be read as the inside of a node pattern. *)
Definition node_like (e : Expression) : bool :=
  match e with
  | Expression.Var _ _ | Expression.HasLabels (Expression.Var _ _) _ _ | Expression.Map _
  | Expression.MapProjection (Expression.Var _ _) _ _ => true
  | _ => false
  end.
(** Names that a parenthesis makes something else than a call of a function. *)
Definition special_call (n : text) : bool := is_ok (ok_or tt (list_predicate_kind n)) || eq_ignore_ascii_case n "reduce".
(** The words of a list predicate. *)
Inductive predicate_word : Token -> ListPredicateKind -> Prop :=
| predicate_all sp : predicate_word (mkToken TokenKind.All sp) PAll
| predicate_named t n k : variable t n -> list_predicate_kind n = Some k -> predicate_word t k.
(** [WITH], which [STARTS] and [ENDS] have behind them. *)
Inductive with_word : BinaryOp -> list Token -> Prop :=
| with_there op sp : op = StartsWith \/ op = EndsWith -> with_word op [mkToken TokenKind.With sp]
| with_missing op : op <> StartsWith -> op <> EndsWith -> with_word op [].
(** What an operator behind an expression must keep to to stay outside of it:
    its power to the left below [power]; behind labels no [|] that they could
    take for theirs; behind what reads as a pattern no [-], which would go on with it. *)
Record edge : Type := mkEdge { power : N; labelled : bool; patterned : bool }.
Definition closed : edge := mkEdge 255 false false.
Definition under (n : N) (ed : edge) : edge := mkEdge (N.min n (power ed)) (labelled ed) (patterned ed).
Definition outside (ed : edge) (kd : TokenKind) (lbp : N) : Prop :=
  (lbp < power ed)%N /\ (patterned ed = true -> kd <> TokenKind.Minus).
End grammar.

(** ** Expressions *)
Section expressions.
Context (source : text).
Local Abbreviation tok := mkToken.
Local Abbreviation lparen := (mkToken TokenKind.LParen).
Local Abbreviation rparen := (mkToken TokenKind.RParen).
Local Abbreviation lbracket := (mkToken TokenKind.LBracket).
Local Abbreviation rbracket := (mkToken TokenKind.RBracket).
Local Abbreviation lbrace := (mkToken TokenKind.LBrace).
Local Abbreviation rbrace := (mkToken TokenKind.RBrace).

Inductive prim : nat -> list Token -> Expression -> bool -> Prop :=
| prim_atom k kd sp f : atom_of kd = Some f -> prim k [tok kd sp] (f sp) false
| prim_variable k t n : variable source t n -> prim k [t] (Expression.Var n (span t)) false
| prim_call k t n ds ns sp dt distinct ts args sp' :
    variable source t n -> dotted ds ns -> (ns = [] -> special_call n = false) ->
    optional_token TokenKind.Distinct dt distinct -> listed k ts args ->
    prim k (t :: ds ++ lparen sp :: dt ++ ts ++ [rparen sp']) (Expression.FunctionCall (n :: ns) distinct args (span t)) false
| prim_predicate k t kd sp v n sp1 ts1 l ed1 sp2 ts2 e ed2 sp' :
    predicate_word source t kd -> variable source v n ->
    expr k 0 ts1 l ed1 -> expr k 0 ts2 e ed2 ->
    prim k (t :: lparen sp :: v :: tok TokenKind.In sp1 :: ts1 ++ tok TokenKind.Where sp2 :: ts2 ++ [rparen sp'])
      (Expression.ListPredicate kd n l e (span t)) false
| prim_reduce k t w sp a an sp1 ts1 init ed1 sp2 v n sp3 ts2 l ed2 sp4 ts3 e ed3 sp' :
    variable source t w -> list_predicate_kind w = None -> eq_ignore_ascii_case w "reduce" = true ->
    variable source a an -> variable source v n ->
    expr k 0 ts1 init ed1 -> expr k 0 ts2 l ed2 -> labelled ed2 = false -> expr k 0 ts3 e ed3 ->
    prim k (t :: lparen sp :: a :: tok TokenKind.Eq sp1 :: ts1 ++ tok TokenKind.Comma sp2 :: v :: tok TokenKind.In sp3 ::
              ts2 ++ tok TokenKind.Pipe sp4 :: ts3 ++ [rparen sp'])
      (Expression.Reduce an init n l e (span t)) false
| prim_case k sp cs c arms es ets els sp' :
    maybe k cs c -> arms_of k arms es -> es <> [] -> opt k TokenKind.Else ets els ->
    prim k (tok TokenKind.Case sp :: cs ++ arms ++ ets ++ [tok TokenKind.End_ sp']) (Expression.Case c es els sp) false
| prim_list k sp ts es sp' : listed k ts es -> prim k (lbracket sp :: ts ++ [rbracket sp']) (Expression.List es sp) false
| prim_comprehension k sp ts n nsp l isp ed wts w pts proj sp' :
    expr k 0 ts (Expression.In (Expression.Var n nsp) l isp) ed -> filter k wts w -> opt k TokenKind.Pipe pts proj ->
    (w <> None \/ proj <> None /\ labelled ed = false) ->
    prim k (lbracket sp :: ts ++ wts ++ pts ++ [rbracket sp']) (Expression.ListComprehension n l w proj sp) false
| prim_pattern_comprehension k sp ts h s tl wts w sp1 pts proj ed sp' :
    path k ts (Expression.mkPath h (s :: tl)) -> filter k wts w -> expr k 0 pts proj ed ->
    prim k (lbracket sp :: ts ++ wts ++ tok TokenKind.Pipe sp1 :: pts ++ [rbracket sp'])
      (Expression.PatternComprehension (Expression.mkPath h (s :: tl)) w proj sp) false
| prim_map k ts m : map_of k ts m -> prim k ts (Expression.Map m) false
| prim_exists k sp sp1 mt b ts pt wts w sp2 :
    optional_token TokenKind.Match mt b -> path k ts pt -> opt k TokenKind.Where wts w ->
    prim k (tok TokenKind.Exists sp :: lbrace sp1 :: mt ++ ts ++ wts ++ [rbrace sp2]) (Expression.ExistsSubquery pt w sp) false
| prim_count k t n sp1 mt b ts pt wts w sp2 :
    variable source t n -> eq_ignore_ascii_case n "count" = true ->
    optional_token TokenKind.Match mt b -> path k ts pt -> opt k TokenKind.Where wts w ->
    prim k (t :: lbrace sp1 :: mt ++ ts ++ wts ++ [rbrace sp2]) (Expression.CountSubquery pt w (span t)) false
| prim_pattern k sp ts h s tl : path k (lparen sp :: ts) (Expression.mkPath h (s :: tl)) ->
    prim k (lparen sp :: ts) (Expression.PatternPredicate (Expression.mkPath h (s :: tl)) sp) true
| prim_group k sp ts e ed sp' : expr k 0 ts e ed ->
    prim k (lparen sp :: ts ++ [rparen sp']) e (node_like e)

(** Primaries and what is written behind them. *)
with post : nat -> list Token -> Expression -> bool -> Prop :=
| post_prim k ts e pat : prim k ts e pat -> post k ts e pat
| post_property k ts e pat sp t n : post k ts e pat -> name source t n ->
    post k (ts ++ [tok TokenKind.Dot sp; t]) (Expression.Property e n (span t)) false
| post_index k ts e pat sp its i edi sp' : post k ts e pat -> expr k 0 its i edi ->
    post k (ts ++ lbracket sp :: its ++ [rbracket sp']) (Expression.Index e i sp) false
| post_slice k ts e pat sp fts from sp1 tts to sp' : post k ts e pat -> maybe k fts from -> maybe k tts to ->
    post k (ts ++ lbracket sp :: fts ++ tok TokenKind.DotDot sp1 :: tts ++ [rbracket sp']) (Expression.Slice e from to sp) false
| post_projection k ts e pat sp sts ss sp' : post k ts e pat ->
    (forall n nsp, e = Expression.Var n nsp -> eq_ignore_ascii_case n "count" = false) -> selectors k sts ss ->
    post k (ts ++ lbrace sp :: sts ++ [rbrace sp']) (Expression.MapProjection e ss sp) false

(** Operands and operators. *)
with bin : nat -> N -> list Token -> Expression -> edge -> Prop :=
| bin_post k m ts e pat : post k ts e pat -> bin k m ts e (mkEdge 255 false pat)
| bin_labels k m ts e pat t lts l : post k ts e pat -> label_expression source k false (t :: lts) l ->
    bin k m (ts ++ t :: lts) (Expression.HasLabels e l (span t)) (mkEdge 255 true false)
| bin_prefix k m kd sp op n ts e ed : prefix_of kd = Some (op, n) -> expr k n ts e ed ->
    bin k m (tok kd sp :: ts) (Expression.Unary op e sp) (under n ed)
| bin_binary k m ts e ed kd sp op lbp rbp wts ts' e' ed' : bin k m ts e ed ->
    infix_of kd = Some (InfixBinary op, lbp, rbp) -> (m <= lbp)%N -> outside ed kd lbp -> with_word op wts ->
    expr k rbp ts' e' ed' ->
    bin k m (ts ++ tok kd sp :: wts ++ ts') (Expression.Binary op e e' sp) (under rbp ed')
| bin_is_null k m ts e ed sp nts neg sp' lbp rbp : bin k m ts e ed ->
    infix_of TokenKind.Is = Some (IsNullPrefix, lbp, rbp) -> (m <= lbp)%N -> outside ed TokenKind.Is lbp ->
    optional_token TokenKind.Not nts neg ->
    bin k m (ts ++ tok TokenKind.Is sp :: nts ++ [tok TokenKind.Null sp']) (Expression.IsNull e neg sp) closed
| bin_in k m ts e ed sp lbp rbp ts' l ed' : bin k m ts e ed ->
    infix_of TokenKind.In = Some (InPrefix, lbp, rbp) -> (m <= lbp)%N -> outside ed TokenKind.In lbp -> expr k rbp ts' l ed' ->
    bin k m (ts ++ tok TokenKind.In sp :: ts') (Expression.In e l sp) (under rbp ed')

with expr : nat -> N -> list Token -> Expression -> edge -> Prop :=
| expr_of k m ts e ed : bin k m ts e ed -> expr (S k) m ts e ed

(** *** Lists, clauses and entries *)
with more_exprs : nat -> list Token -> list Expression -> Prop :=
| exprs_end k : more_exprs k [] []
| exprs_more k sp ts e ed ts' es : expr k 0 ts e ed -> more_exprs k ts' es ->
    more_exprs k (tok TokenKind.Comma sp :: ts ++ ts') (e :: es)
with listed : nat -> list Token -> list Expression -> Prop :=
| listed_none k : listed k [] []
| listed_some k ts e ed ts' es : expr k 0 ts e ed -> more_exprs k ts' es -> listed k (ts ++ ts') (e :: es)
with arms_of : nat -> list Token -> list (Expression * Expression) -> Prop :=
| arms_end k : arms_of k [] []
| arms_more k sp ts c ed sp' ts' v ed' ats es : expr k 0 ts c ed -> expr k 0 ts' v ed' -> arms_of k ats es ->
    arms_of k (tok TokenKind.When sp :: ts ++ tok TokenKind.Then sp' :: ts' ++ ats) ((c, v) :: es)
with opt : nat -> TokenKind -> list Token -> option Expression -> Prop :=
| opt_none k kw : opt k kw [] None
| opt_some k kw sp ts e ed : expr k 0 ts e ed -> opt k kw (tok kw sp :: ts) (Some e)
(** The filter of a comprehension, which a [|] ends. *)
with filter : nat -> list Token -> option Expression -> Prop :=
| filter_none k : filter k [] None
| filter_some k sp ts e ed : expr k 0 ts e ed -> filter k (tok TokenKind.Where sp :: ts) (Some e)
with maybe : nat -> list Token -> option Expression -> Prop :=
| maybe_none k : maybe k [] None
| maybe_some k ts e ed : expr k 0 ts e ed -> maybe k ts (Some e)
with map_of : nat -> list Token -> MapLiteral -> Prop :=
| map_empty k sp sp' : map_of k [lbrace sp; rbrace sp'] (Expression.mkMap [] sp)
| map_some k sp ts kv ts' es sp' : entry k ts kv -> more_entries k ts' es ->
    map_of k (lbrace sp :: ts ++ ts' ++ [rbrace sp']) (Expression.mkMap (kv :: es) sp)
with entry : nat -> list Token -> text * Expression -> Prop :=
| entry_of k t n sp ts e ed : name source t n -> expr k 0 ts e ed -> entry k (t :: tok TokenKind.Colon sp :: ts) (n, e)
with more_entries : nat -> list Token -> list (text * Expression) -> Prop :=
| entries_end k : more_entries k [] []
| entries_more k sp ts kv ts' es : entry k ts kv -> more_entries k ts' es ->
    more_entries k (tok TokenKind.Comma sp :: ts ++ ts') (kv :: es)
with selectors : nat -> list Token -> list MapProjectionSelector -> Prop :=
| selectors_none k : selectors k [] []
| selectors_some k ts s ts' ss : selector k ts s -> more_selectors k ts' ss -> selectors k (ts ++ ts') (s :: ss)
with selector : nat -> list Token -> MapProjectionSelector -> Prop :=
| selector_property k sp t n : name source t n -> selector k [tok TokenKind.Dot sp; t] (Expression.SelProperty n)
| selector_all k sp sp' : selector k [tok TokenKind.Dot sp; tok TokenKind.Star sp'] Expression.SelAllProperties
| selector_literal k t n sp ts e ed : name source t n -> expr k 0 ts e ed ->
    selector k (t :: tok TokenKind.Colon sp :: ts) (Expression.SelLiteral n e)
| selector_variable k t n : name source t n -> selector k [t] (Expression.SelVariable n)
with more_selectors : nat -> list Token -> list MapProjectionSelector -> Prop :=
| more_selectors_end k : more_selectors k [] []
| more_selectors_more k sp ts s ts' ss : selector k ts s -> more_selectors k ts' ss ->
    more_selectors k (tok TokenKind.Comma sp :: ts ++ ts') (s :: ss)

(** *** Patterns *)
with props : nat -> list Token -> option MapLiteral -> Prop :=
| props_none k : props k [] None
| props_some k ts m : map_of k ts m -> props k ts (Some m)
with node : nat -> list Token -> NodePattern -> Prop :=
| node_of k sp vts v lts ns le mts m sp' : optional_variable source vts v -> node_labels source k lts ns le -> props k mts m ->
    node k (lparen sp :: vts ++ lts ++ mts ++ [rparen sp']) (Expression.mkNode v ns le m sp)
with relationship : nat -> list Token -> RelationshipPattern -> Prop :=
| relationship_bare k l lsp r rsp d : arrows l r d ->
    relationship k [tok l lsp; tok r rsp] (Expression.mkRelationship d None [] None None lsp)
| relationship_detailed k l lsp r rsp d sp vts v tts tys nts len mts m sp' : arrows l r d ->
    optional_variable source vts v -> types source tts tys -> rel_length nts len -> props k mts m ->
    relationship k (tok l lsp :: lbracket sp :: vts ++ tts ++ nts ++ mts ++ [rbracket sp'; tok r rsp])
      (Expression.mkRelationship d v tys len m lsp)
with path : nat -> list Token -> PathPattern -> Prop :=
| path_of k ts h ts' tl : node k ts h -> segments_of k ts' tl -> path k (ts ++ ts') (Expression.mkPath h tl)
with segments_of : nat -> list Token -> list PathSegment -> Prop :=
| segments_end k : segments_of k [] []
| segments_more k ts rl ts' n ts'' tl : relationship k ts rl -> node k ts' n -> segments_of k ts'' tl ->
    segments_of k (ts ++ ts' ++ ts'') (Expression.mkSegment rl n :: tl).

Scheme prim_ind' := Minimality for prim Sort Prop
with post_ind' := Minimality for post Sort Prop
with bin_ind' := Minimality for bin Sort Prop
with expr_ind' := Minimality for expr Sort Prop
with more_exprs_ind' := Minimality for more_exprs Sort Prop
with listed_ind' := Minimality for listed Sort Prop
with arms_of_ind' := Minimality for arms_of Sort Prop
with opt_ind' := Minimality for opt Sort Prop
with filter_ind' := Minimality for filter Sort Prop
with maybe_ind' := Minimality for maybe Sort Prop
with map_of_ind' := Minimality for map_of Sort Prop
with entry_ind' := Minimality for entry Sort Prop
with more_entries_ind' := Minimality for more_entries Sort Prop
with selectors_ind' := Minimality for selectors Sort Prop
with selector_ind' := Minimality for selector Sort Prop
with more_selectors_ind' := Minimality for more_selectors Sort Prop
with props_ind' := Minimality for props Sort Prop
with node_ind' := Minimality for node Sort Prop
with relationship_ind' := Minimality for relationship Sort Prop
with path_ind' := Minimality for path Sort Prop
with segments_of_ind' := Minimality for segments_of Sort Prop.
Combined Scheme derivation_ind from prim_ind', post_ind', bin_ind', expr_ind', more_exprs_ind', listed_ind', arms_of_ind', opt_ind',
  filter_ind', maybe_ind', map_of_ind', entry_ind', more_entries_ind', selectors_ind', selector_ind', more_selectors_ind',
  props_ind', node_ind', relationship_ind', path_ind', segments_of_ind'.
End expressions.
