(* ===== verification/CypherReads.v ===== *)
(** * The parser reads the grammar of expressions
    ([src/src/cypher/parser.rs])

    Each function of the parser, given tokens that begin with a derivation of
    [CypherGrammar], returns the tree derived and stands behind it. *)
From S2P Require Import Prelude CypherLexer CypherAst CypherParser CypherGrammar.
Local Open Scope list_scope.
Local Open Scope parser_scope.
Local Abbreviation at_ := mkParser.

(** ** Steps on known tokens *)
Definition next (rest : list Token) : TokenKind := match rest with t :: _ => kind t | [] => TokenKind.Eof end.

Lemma bind_ok {A B} (m : P A) (f : A -> P B) s s' a : m s = Some (s', Ok a) -> p_bind m f s = f a s'.
Proof. unfold p_bind. by intros ->. Qed.
Lemma bind_err {A B} (m : P A) (f : A -> P B) s s' e : m s = Some (s', Err e) -> p_bind m f s = Some (s', Err e).
Proof. unfold p_bind. by intros ->. Qed.
Lemma if_eq {A} c (t e : P A) s : p_if c t e s = if c s then t s else e s.
Proof. done. Qed.
Lemma check_next k ts d np : check k (at_ ts d np) = same_kind (next ts) k.
Proof. done. Qed.
Lemma same_kind_refl k : same_kind k k = true.
Proof. apply N.eqb_refl. Qed.
Lemma consume_next t ts d np : same_kind (kind t) TokenKind.Eof = false -> consume (at_ (t :: ts) d np) = at_ ts d np.
Proof. unfold consume. cbn [toks]. by intros ->. Qed.
Lemma infix_next ts d np : peek_infix_op (at_ ts d np) = infix_of (next ts).
Proof. unfold peek_infix_op. change (peek_kind (at_ ts d np)) with (next ts). by destruct (next ts). Qed.

Ltac shrinks := cbn [toks app length]; repeat (rewrite !length_app; cbn [length]); lia.

Section steps.
Context {chars : Chars} (source : text).

Lemma eat_next k what sp ts d np : same_kind k TokenKind.Eof = false ->
  eat k what (at_ (mkToken k sp :: ts) d np) = Some (at_ ts d np, Ok tt).
Proof.
  intros Hk. unfold eat. rewrite if_eq, check_next. cbn [next kind]. rewrite same_kind_refl. unfold p_consume.
  by rewrite consume_next.
Qed.
Lemma eat_err k what ts d np : same_kind (next ts) k = false -> exists e, eat k what (at_ ts d np) = Some (at_ ts d np, Err e).
Proof. intros Hk. unfold eat. rewrite if_eq, check_next, Hk. by eexists. Qed.

Lemma variable_not_eof t n : variable source t n -> same_kind (kind t) TokenKind.Eof = false.
Proof. intros [m sp|k sp H]; [done|]. by destruct k. Qed.
Lemma name_not_eof t n : name source t n -> same_kind (kind t) TokenKind.Eof = false.
Proof. intros [m sp|k sp H]; [done|]. by destruct k. Qed.
Lemma variable_consumed t n ts d np : variable source t n ->
  consume_variable source (at_ (t :: ts) d np) = Some (at_ ts d np, Ok (n, span t)).
Proof.
  intros H. rewrite <- (consume_next t ts d np) by (by eapply variable_not_eof).
  destruct H as [m sp|k sp H]; [done|]. unfold consume_variable, consume_if. cbn [peek_kind toks kind peek_span span].
  destruct k; try discriminate H; reflexivity.
Qed.
Lemma variable_reads t n ts d np : variable source t n -> variable_name source (at_ (t :: ts) d np) = Some (at_ ts d np, Ok n).
Proof. intros H. unfold variable_name. by rewrite (bind_ok _ _ _ _ _ (variable_consumed t n ts d np H)). Qed.
Lemma name_consumed t n ts d np : name source t n -> consume_name source (at_ (t :: ts) d np) = Some (at_ ts d np, Ok (n, span t)).
Proof.
  intros H. rewrite <- (consume_next t ts d np) by (by eapply name_not_eof).
  destruct H as [m sp|k sp H]; [done|]. unfold consume_name, consume_if. cbn [peek_kind toks kind peek_span span].
  destruct k; try discriminate H; reflexivity.
Qed.
Lemma any_name_reads t n ts d np : name source t n -> plain_name source (at_ (t :: ts) d np) = Some (at_ ts d np, Ok n).
Proof. intros H. unfold plain_name. by rewrite (bind_ok _ _ _ _ _ (name_consumed t n ts d np H)). Qed.
Lemma name_err ts d np : is_keyword (next ts) = false -> (forall n, next ts <> TokenKind.Identifier n) ->
  exists e, plain_name source (at_ ts d np) = Some (at_ ts d np, Err e).
Proof.
  intros Hk Hn. assert (Hc : exists e, consume_name source (at_ ts d np) = Some (at_ ts d np, Err e)).
  { unfold consume_name, consume_if. destruct ts as [|[k sp] ts]; [by eexists|]. cbn [peek_kind toks kind next peek_span] in *.
    destruct k; try (rewrite Hk; by eexists). by edestruct Hn. }
  destruct Hc as [e Hc]. exists e. unfold plain_name. by rewrite (bind_err _ _ _ _ _ Hc).
Qed.
Lemma variable_at t n ts d np : variable source t n -> at_variable (at_ (t :: ts) d np) = true.
Proof. by intros [m sp|k sp H]; [|destruct k]. Qed.

(** ** Loops *)
Lemma loop_fuel_more {A B} (body : A -> P (A + B)) f f' a s r : (f <= f')%nat ->
  loop_fuel f body a s = Some r -> loop_fuel f' body a s = Some r.
Proof.
  revert f' a s. induction f as [|f IH]; intros [|f'] a s Hf; [done..|lia|]. cbn [loop_fuel].
  destruct (body a s) as [[s' [[a'|b]|e]]|]; [|done..]. apply IH. lia.
Qed.
Lemma loop_next {A B} (body : A -> P (A + B)) a a' s s' r : body a s = Some (s', Ok (inl a')) ->
  (length (toks s') < length (toks s))%nat -> loop body a' s' = Some r -> loop body a s = Some r.
Proof.
  unfold loop. intros Hb Hl Hr. cbn [loop_fuel]. rewrite Hb. eapply loop_fuel_more; [|done]. lia.
Qed.
Lemma loop_done {A B} (body : A -> P (A + B)) a b s s' : body a s = Some (s', Ok (inr b)) -> loop body a s = Some (s', Ok b).
Proof. unfold loop. cbn [loop_fuel]. by intros ->. Qed.

(** ** Labels *)
Lemma nested_reads {A} (m : P A) ts d np ts' r : (d + 1 <= MAX_EXPRESSION_DEPTH)%N ->
  m (at_ ts (d + 1) np) = Some (at_ ts' (d + 1) np, r) -> nested m (at_ ts d np) = Some (at_ ts' d np, r).
Proof.
  intros Hd Hm. unfold nested. cbn [toks depth no_label_pipe]. rewrite (proj2 (N.ltb_ge _ _)) by done. rewrite Hm.
  cbn [toks depth no_label_pipe]. by rewrite N.add_sub.
Qed.

Lemma joined_reads {A} k (op : Parser -> bool) (build : A -> A -> A) (operand : P A) (P : list Token -> A -> Prop)
    (after : list Token -> Prop) d np ts x rest :
  same_kind k TokenKind.Eof = false -> (forall sp ts, op (at_ (mkToken k sp :: ts) d np) = true) ->
  (forall sp ts, after (mkToken k sp :: ts)) ->
  (forall ts x rest, P ts x -> after rest -> operand (at_ (ts ++ rest) d np) = Some (at_ rest d np, Ok x)) ->
  joined_by k build P ts x -> after rest -> op (at_ rest d np) = false ->
  joined op build operand (at_ (ts ++ rest) d np) = Some (at_ rest d np, Ok x).
Proof.
  intros Hk Hop Hafter Hread Hts Hrest Hstop. unfold joined.
  enough (forall rest r, after rest ->
    loop (fun acc => p_if op (run p_consume in do y := operand in p_ret (inl (build acc y))) (p_ret (inr acc))) x (at_ rest d np) = Some r ->
    (do x := operand in loop (fun acc => p_if op (run p_consume in do y := operand in p_ret (inl (build acc y))) (p_ret (inr acc))) x)
      (at_ (ts ++ rest) d np) = Some r) as H.
  { apply H; [done|]. apply loop_done. by rewrite if_eq, Hstop. }
  clear rest Hrest Hstop. induction Hts as [ts x H|ts x sp ts' y Hts IH H]; intros rest r Hrest Hr.
  { by rewrite (bind_ok _ _ _ _ _ (Hread _ _ _ H Hrest)). }
  rewrite <- app_assoc. apply IH; [apply Hafter|]. eapply (loop_next _ _ (build x y) _ (at_ rest d np)); [|shrinks|done].
  - rewrite if_eq. cbn [app]. rewrite Hop. unfold p_bind at 1, p_consume. rewrite consume_next by done.
    by rewrite (bind_ok _ _ _ _ _ (Hread _ _ _ H Hrest)).
Qed.
End steps.

(** Choices by the kind of a known token, and tokens taken. *)
Ltac decide_kind :=
  repeat match goal with
  | |- context [same_kind ?a ?b] =>
      let v := eval vm_compute in (same_kind a b) in
      lazymatch v with true => idtac | false => idtac end; change (same_kind a b) with v
  end.
Ltac look := rewrite ?if_eq, ?check_next; cbn [next kind app]; decide_kind; cbn iota beta.
Ltac take :=
  lazymatch goal with
  | |- p_bind p_span _ (at_ (?t :: ?ts) _ _) = _ => unfold p_bind at 1, p_span at 1; cbn [peek_span toks span]
  | |- p_bind p_consume _ (at_ (?t :: ?ts) _ _) = _ => unfold p_bind at 1, p_consume at 1; rewrite consume_next by reflexivity
  | |- p_bind (eat _ _) _ _ = _ => erewrite bind_ok by (apply eat_next; reflexivity)
  | |- p_bind (p_if _ _ _) _ _ = _ => unfold p_bind at 1
  end; cbn iota beta.

Section words.
Context {chars : Chars} (source : text).
Lemma name_is_not t n k : name source t n -> is_keyword k = false -> discriminant k <> 6%N -> same_kind (kind t) k = false.
Proof.
  intros [m sp|kd sp H] Hk Hi; unfold same_kind; apply N.eqb_neq; cbn [kind]; [done|]. intros E.
  destruct kd; try discriminate H; destruct k; discriminate.
Qed.
Lemma variable_is_not t n k : variable source t n -> names_a_variable k = false -> discriminant k <> 6%N -> same_kind (kind t) k = false.
Proof.
  intros [m sp|kd sp H] Hk Hi; unfold same_kind; apply N.eqb_neq; cbn [kind]; [done|]. intros E.
  destruct kd; try discriminate H; destruct k; discriminate.
Qed.

Lemma label_reads k n d np ts e rest : label source k ts e -> (k <= n)%nat -> (N.of_nat k + d <= MAX_EXPRESSION_DEPTH)%N ->
  parse_label_not_fuel source n (at_ (ts ++ rest) d np) = Some (at_ rest d np, Ok e).
Proof.
  revert n d ts e rest. induction k as [|k IH]; intros n d ts e rest H Hn Hd; [inversion H|]. destruct n as [|n]; [lia|].
  cbn [parse_label_not_fuel]. apply nested_reads; [lia|]. unfold parse_label_atom.
  inversion H as [k' sp ts' e' H'|k' sp|k' sp ts' e' sp' H'|k' t m Hm]; subst; cbn [app].
  - look. take. rewrite (bind_ok _ _ _ _ _ (IH n (d + 1)%N _ _ rest H' ltac:(lia) ltac:(lia))). done.
  - look. by take.
  - look. take. rewrite <- app_assoc. cbn [app].
    assert (Hl : label_or_of (parse_label_not_fuel source n) true (at_ (ts' ++ mkToken TokenKind.RParen sp' :: rest) (d + 1) np)
      = Some (at_ (mkToken TokenKind.RParen sp' :: rest) (d + 1) np, Ok e)).
    { eapply (joined_reads TokenKind.Pipe) with (after := fun r => same_kind (next r) TokenKind.Ampersand = false); try done.
      intros ts2 x r Hx Hr. eapply (joined_reads TokenKind.Ampersand) with (after := fun _ => True); try done.
      intros ts3 y r' Hy _. apply IH; [done|lia..]. }
    rewrite (bind_ok _ _ _ _ _ Hl). by take.
  - look. rewrite !(name_is_not _ _ _ Hm) by done. by rewrite (bind_ok _ _ _ _ _ (any_name_reads source t m _ _ _ Hm)).
Qed.

Lemma label_or_reads k p pipe_ok d np ts e rest : label_or source k p ts e -> (p = true -> pipe_ok = true) ->
  (N.of_nat k + d <= MAX_EXPRESSION_DEPTH)%N -> same_kind (next rest) TokenKind.Ampersand = false ->
  pipe_ok && same_kind (next rest) TokenKind.Pipe = false ->
  parse_label_or source pipe_ok (at_ (ts ++ rest) d np) = Some (at_ rest d np, Ok e).
Proof.
  intros H Hp Hd Ha Hpipe. unfold parse_label_or, label_or_of.
  assert (Hand : forall ts x r, label_and source k ts x -> same_kind (next r) TokenKind.Ampersand = false ->
    label_and_of (parse_label_not source) (at_ (ts ++ r) d np) = Some (at_ r d np, Ok x)).
  { intros ts' x r Hx Hr. eapply (joined_reads TokenKind.Ampersand) with (after := fun _ => True); try done.
    intros ts2 y r' Hy _. apply (label_reads k); [done|unfold deepest, MAX_EXPRESSION_DEPTH in *; lia|done]. }
  destruct p; cbn [label_or] in H.
  - rewrite (Hp eq_refl) in *.
    by eapply (joined_reads TokenKind.Pipe) with (after := fun r => same_kind (next r) TokenKind.Ampersand = false).
  - unfold joined. rewrite (bind_ok _ _ _ _ _ (Hand _ _ _ H Ha)). apply loop_done. by rewrite if_eq, check_next, Hpipe.
Qed.

Definition after_labels (pipe_ok : bool) (k : TokenKind) : Prop :=
  same_kind k TokenKind.Ampersand = false /\ same_kind k TokenKind.Colon = false /\ pipe_ok && same_kind k TokenKind.Pipe = false.
Lemma label_expression_reads k p pipe_ok d np ts e rest : label_expression source k p ts e -> (p = true -> pipe_ok = true) ->
  (N.of_nat k + d <= MAX_EXPRESSION_DEPTH)%N -> after_labels pipe_ok (next rest) ->
  parse_label_expression source pipe_ok (at_ (ts ++ rest) d np) = Some (at_ rest d np, Ok e).
Proof.
  intros [sp ts' e' H] Hp Hd (Ha & Hc & Hpipe). unfold parse_label_expression. cbn [app]. take.
  eapply (joined_reads TokenKind.Colon) with (after := fun r => same_kind (next r) TokenKind.Ampersand = false /\
    pipe_ok && same_kind (next r) TokenKind.Pipe = false); try done.
  { intros sp' r. split; [done|]. cbn [next kind]. by rewrite andb_false_r. }
  intros ts2 x r Hx [Hr1 Hr2]. by apply (label_or_reads k p).
Qed.

(** ** Small parts *)
Definition optional_variable_step : P (option text) := p_if at_variable (do v := variable_name source in p_ret (Some v)) (p_ret None).
Lemma optional_variable_reads vts v d np rest : optional_variable source vts v -> (vts = [] -> at_variable (at_ rest d np) = false) ->
  optional_variable_step (at_ (vts ++ rest) d np) = Some (at_ rest d np, Ok v).
Proof.
  intros [t n H|] Hr; unfold optional_variable_step; rewrite if_eq; cbn [app]; [|by rewrite Hr].
  rewrite (variable_at source t n) by done. by rewrite (bind_ok _ _ _ _ _ (variable_reads source _ _ _ _ _ H)).
Qed.

Lemma match_kind_reads k ts b d np rest : optional_token k ts b -> same_kind k TokenKind.Eof = false ->
  (ts = [] -> same_kind (next rest) k = false) -> match_kind k (at_ (ts ++ rest) d np) = Some (at_ rest d np, Ok b).
Proof.
  intros [sp|] Hk Hr; unfold match_kind; rewrite if_eq, check_next; cbn [app next kind]; [|by rewrite Hr].
  rewrite same_kind_refl. unfold p_bind, p_consume. by rewrite consume_next.
Qed.

Lemma more_types_read ts ns acc d np rest : more_types source ts ns -> same_kind (next rest) TokenKind.Pipe = false ->
  loop (fun acc => p_if (check TokenKind.Pipe)
    (run p_consume in run match_kind TokenKind.Colon in do t := plain_name source in p_ret (inl (acc ++ [t]))) (p_ret (inr acc)))
    acc (at_ (ts ++ rest) d np) = Some (at_ rest d np, Ok (acc ++ ns)).
Proof.
  intros H Hr. revert acc. induction H as [|sp c b t n ts ns Hc Hn H IH]; intros acc.
  { rewrite app_nil_r. apply loop_done. cbn [app]. by rewrite if_eq, check_next, Hr. }
  eapply (loop_next _ _ (acc ++ [n]) _ (at_ (ts ++ rest) d np)); cycle 1.
  { shrinks. }
  { by rewrite IH, <- app_assoc. }
  look. take. rewrite <- app_assoc. cbn [app]. erewrite bind_ok by (eapply match_kind_reads; [done..|]; intros _; by apply (name_is_not _ n)).
  by rewrite (bind_ok _ _ _ _ _ (any_name_reads source _ _ _ _ _ Hn)).
Qed.

Definition types_step : P (list text) := p_if (check TokenKind.Colon) (run p_consume in relationship_types source) (p_ret []).
Lemma types_read ts ns d np rest : types source ts ns -> same_kind (next rest) TokenKind.Pipe = false ->
  same_kind (next rest) TokenKind.Colon = false -> types_step (at_ (ts ++ rest) d np) = Some (at_ rest d np, Ok ns).
Proof.
  intros [|sp t n ts' ns' Hn H] Hp Hc; unfold types_step; cbn [app]; [by rewrite if_eq, check_next, Hc|].
  look. take. unfold relationship_types. rewrite (bind_ok _ _ _ _ _ (any_name_reads source _ _ _ _ _ Hn)). by apply (more_types_read _ _ [n]).
Qed.

Lemma bound_reads ts b d np rest : bound ts b -> (forall n, next rest <> TokenKind.Integer n) ->
  try_parse_int_literal (at_ (ts ++ rest) d np) = Some (at_ rest d np, Ok b).
Proof.
  intros [n sp|] Hr; [done|]. unfold try_parse_int_literal. change (peek_kind (at_ ([] ++ rest) d np)) with (next rest).
  destruct (next rest); try done. by edestruct Hr.
Qed.
Lemma rel_length_reads ts len d np rest : rel_length ts len -> next rest = TokenKind.RBracket \/ next rest = TokenKind.LBrace ->
  optional TokenKind.Star parse_rel_length (at_ (ts ++ rest) d np) = Some (at_ rest d np, Ok len).
Proof.
  intros H Hr. assert (Hb : forall ts b, bound ts b -> try_parse_int_literal (at_ (ts ++ rest) d np) = Some (at_ rest d np, Ok b)).
  { intros ts' b Hb. apply bound_reads; [done|]. intros n. by destruct Hr as [-> | ->]. }
  assert (Hdots : same_kind (next rest) TokenKind.DotDot = false) by (by destruct Hr as [-> | ->]).
  unfold optional. destruct H as [|sp|sp n sp'|sp sp' ts to H|sp n sp' sp'' ts to H]; cbn [app]; look.
  - by destruct Hr as [-> | ->].
  - take. erewrite bind_ok; [done|]. unfold parse_rel_length. change (peek_kind (at_ rest d np)) with (next rest).
    by destruct Hr as [-> | ->].
  - take. erewrite bind_ok; [done|]. unfold parse_rel_length. cbn [peek_kind toks kind]. take. by rewrite if_eq, check_next, Hdots.
  - take. erewrite bind_ok; [done|]. unfold parse_rel_length. cbn [peek_kind toks kind]. take. by rewrite (bind_ok _ _ _ _ _ (Hb _ _ H)).
  - take. erewrite bind_ok; [done|]. unfold parse_rel_length. cbn [peek_kind toks kind]. take. look. take.
    by rewrite (bind_ok _ _ _ _ _ (Hb _ _ H)).
Qed.
End words.

(** ** What may stand around an expression *)
Definition starter (k : TokenKind) : bool :=
  match atom_of k, prefix_of k, k with
  | Some _, _, _ | _, Some _, _ => true
  | _, _, (TokenKind.LParen | TokenKind.LBracket | TokenKind.LBrace | TokenKind.Case | TokenKind.All | TokenKind.Exists
          | TokenKind.Identifier _) => true
  | _, _, k => names_a_variable k
  end.
Definition starts (ts : list Token) : Prop := exists t ts', ts = t :: ts' /\ starter (kind t) = true.

(** Tokens that go on with what is before them and are no operators. *)
Definition goes_on (k : TokenKind) : bool :=
  match k with
  | TokenKind.Dot | TokenKind.LBracket | TokenKind.LBrace | TokenKind.Colon | TokenKind.LParen | TokenKind.LArrow
  | TokenKind.Ampersand => true
  | _ => false
  end.
(** What may follow an expression with the edge [ed] for it to end there. *)
Record follows (np : N) (ed : edge) (k : TokenKind) : Prop := {
  fol_ends : goes_on k = false;
  fol_outside : forall op lbp rbp, infix_of k = Some (op, lbp, rbp) -> outside ed k lbp;
  fol_pipe : labelled ed = true -> same_kind k TokenKind.Pipe = true -> np <> 0%N;
}.
Definition stops (m : N) (k : TokenKind) : Prop := forall op lbp rbp, infix_of k = Some (op, lbp, rbp) -> (lbp < m)%N.
(** A token that ends any expression. *)
Definition soft (k : TokenKind) : bool :=
  negb (goes_on k) && negb (same_kind k TokenKind.Pipe) && bool_decide (infix_of k = None).

Lemma soft_follows k np ed : soft k = true -> follows np ed k.
Proof.
  unfold soft. rewrite !andb_true_iff, !negb_true_iff, bool_decide_eq_true. intros [[H1 H2] H3].
  split; [done|by rewrite H3|congruence].
Qed.
Lemma soft_stops k m : soft k = true -> stops m k.
Proof. unfold soft. rewrite !andb_true_iff, bool_decide_eq_true. intros [_ H] ???. by rewrite H. Qed.
Lemma pipe_follows np ed : (labelled ed = true -> np <> 0%N) -> follows np ed TokenKind.Pipe.
Proof. intros H. split; [done|by intros ??? [=]|auto]. Qed.
Lemma pipe_stops m : stops m TokenKind.Pipe.
Proof. by intros ??? [=]. Qed.
Lemma starts_next ts rest : starts ts -> starter (next (ts ++ rest)) = true.
Proof. by intros (t & ts' & -> & H). Qed.
Lemma starter_is_not k k' : starter k = true -> starter k' = false -> same_kind k k' = false.
Proof.
  intros H H'. unfold same_kind. apply N.eqb_neq. intros E.
  destruct k; try discriminate H; destruct k'; (discriminate E || discriminate H').
Qed.

(** Names behind points are no call. *)
Definition callfree (rest : list Token) : Prop :=
  same_kind (peek_at (2 * length (dotted_names rest)) (at_ rest 0 0)) TokenKind.LParen = false.
Lemma callfree_plain rest : same_kind (next rest) TokenKind.Dot = false -> same_kind (next rest) TokenKind.LParen = false -> callfree rest.
Proof.
  unfold callfree. destruct rest as [|t rest]; [done|]. cbn [next]. intros Hd Hl. cbn [dotted_names].
  destruct rest as [|i rest]; [done|]. by rewrite Hd.
Qed.
Lemma callfree_property sp t n rest source : name source t n -> callfree rest -> callfree (mkToken TokenKind.Dot sp :: t :: rest).
Proof.
  unfold callfree. intros [m sp'|k sp' Hk] Hr; cbn [dotted_names kind]; decide_kind.
  - cbn [length]. rewrite Nat.mul_succ_r, Nat.add_comm. exact Hr.
  - by destruct k.
Qed.
