(* ===== verification/CypherRecognise.v ===== *)
(** * Every derivation is read as its tree
    ([src/src/cypher/parser.rs])

    By induction on derivations of [CypherGrammar]: what each part of the parser
    does on tokens that begin with a derivation, whatever stands behind.  A
    parenthesis is tried as a pattern first, so with what an expression is
    goes what that attempt comes to ([inside], [harmless]). *)
From S2P Require Import Prelude CypherLexer CypherAst CypherParser CypherGrammar CypherReads.
Local Open Scope list_scope.
Local Open Scope parser_scope.
Local Abbreviation at_ := mkParser.
Local Abbreviation lparen := (mkToken TokenKind.LParen).
Local Abbreviation rparen := (mkToken TokenKind.RParen).
Local Abbreviation lbrace := (mkToken TokenKind.LBrace).
Local Abbreviation rbrace := (mkToken TokenKind.RBrace).
Local Abbreviation lbracket := (mkToken TokenKind.LBracket).
Local Abbreviation rbracket := (mkToken TokenKind.RBracket).

Section recognise.
Context {chars : Chars} (source : text).
Local Abbreviation g := (parse_expression_bp_fuel source).

(** Levels that fit: [k] more of them at the depth [d], with fuel [n]. *)
Definition fits (k n : nat) (d : N) : Prop := (k <= n)%nat /\ (N.of_nat k + d <= MAX_EXPRESSION_DEPTH)%N.
Definition begins (k : TokenKind) (rest : list Token) : bool := same_kind (next rest) k.

Lemma check_begins k ts d np : check k (at_ ts d np) = begins k ts.
Proof. done. Qed.

Lemma starts_begins ts rest k : starts ts -> starter k = false -> begins k (ts ++ rest) = false.
Proof. intros H Hk. by apply starter_is_not; [apply starts_next|]. Qed.

(** ** What is shown of the derivations *)
Definition fails {A} (d np : N) (x : option (Parser * result ParseError A)) : Prop := exists ts e, x = Some (at_ ts d np, Err e).
Definition reads {A} (k : nat) (m : nat -> P A) (ts : list Token) (a : A) (follow : N -> list Token -> Prop) : Prop :=
  forall n d np rest, fits k n d -> follow np rest -> m n (at_ (ts ++ rest) d np) = Some (at_ rest d np, Ok a).
Definition softly (np : N) (rest : list Token) : Prop := soft (next rest) = true.
Definition anyhow (np : N) (rest : list Token) : Prop := True.

(** Read as the inside of a node pattern, it fails or is one as a whole. *)
Definition variable_alone (ts : list Token) (e : Expression) : Prop :=
  exists t x, ts = [t] /\ variable source t x /\ e = Expression.Var x (span t).
Definition inside_ok (n : nat) (d np : N) (sp : Span) (ts rest : list Token) (e : Expression) : Prop :=
  let r := parse_node_pattern source (g n) (at_ (lparen sp :: ts ++ rest) d np) in
  fails d np r \/ exists sp' rest' nd, rest = rparen sp' :: rest' /\ node_like e = true /\ r = Some (at_ rest' d np, Ok nd).
Definition inside (k : nat) (ts : list Token) (e : Expression) (follow : list Token -> Prop) : Prop :=
  variable_alone ts e \/ forall n d np sp rest, fits k n d -> follow rest -> inside_ok n d np sp ts rest e.

(** Read as a path, it fails, or is one node, or a path that no comprehension
    goes on with, or is a pattern itself. *)
Definition is_pattern (e : Expression) : bool := match e with Expression.PatternPredicate _ _ => true | _ => false end.
Definition harmless (e : Expression) (rest : list Token) (d np : N) (x : option (Parser * result ParseError PathPattern)) : Prop :=
  fails d np x \/ exists ts p, x = Some (at_ ts d np, Ok p) /\
    (Expression.path_tail p = [] \/ begins TokenKind.Where ts || begins TokenKind.Pipe ts = false \/ is_pattern e = true /\ ts = rest).
Definition no_path (k : nat) (ts : list Token) (e : Expression) (follow : N -> list Token -> Prop) : Prop :=
  forall n d np rest, fits k n d -> follow np rest ->
  harmless e rest d np (parse_path_pattern source (g n) (at_ (ts ++ rest) d np)).

Definition no_relationship (rest : list Token) : Prop := begins TokenKind.Minus rest = false /\ begins TokenKind.LArrow rest = false.
Definition behind_pattern (pat : bool) (np : N) (rest : list Token) : Prop := pat = true -> no_relationship rest.
(** A variable [count] is not followed by a brace. *)
Definition no_count (e : Expression) (rest : list Token) : Prop :=
  forall x sp, e = Expression.Var x sp -> eq_ignore_ascii_case x "count" = true -> begins TokenKind.LBrace rest = false.
Definition behind_prim (e : Expression) (pat : bool) (np : N) (rest : list Token) : Prop :=
  behind_pattern pat np rest /\ callfree rest /\ no_count e rest.
Definition ends_bin (ed : edge) (np : N) (rest : list Token) : Prop := follows np ed (next rest).

Definition good_prim (k : nat) (ts : list Token) (e : Expression) (pat : bool) : Prop :=
  starts ts /\ reads k (fun n => parse_primary source (g n)) ts e (behind_prim e pat) /\
  inside k ts e (fun _ => True) /\ no_path k ts e (behind_pattern pat).

(** A form that a loop goes on with: what the loop makes of it is the result. *)
Definition continues {A B} (k : nat) (m : nat -> P A) (body : nat -> B -> P (B + A)) (ts : list Token) (b : B)
    (follow : N -> list Token -> Prop) : Prop :=
  forall n d np rest r, fits k n d -> follow np rest -> loop (body n) b (at_ rest d np) = Some r ->
    m n (at_ (ts ++ rest) d np) = Some r.

Definition good_post (k : nat) (ts : list Token) (e : Expression) (pat : bool) : Prop :=
  starts ts /\
  continues k (fun n => parse_prefix source (g n)) (fun n => parse_postfix source (g n)) ts e (behind_prim e pat) /\
  inside k ts e (fun _ => True) /\ no_path k ts e (behind_pattern pat).
Definition behind_labels (rest : list Token) : Prop := goes_on (next rest) = false /\ begins TokenKind.Pipe rest = false.
Definition good_bin (k : nat) (m : N) (ts : list Token) (e : Expression) (ed : edge) : Prop :=
  starts ts /\
  continues k (fun n => parse_expression_bp_inner source (g n) m) (fun n => infix_step (g n) m) ts e (ends_bin ed) /\
  inside k ts e behind_labels /\ no_path k ts e (ends_bin ed).
Definition ends_expr (m : N) (ed : edge) (np : N) (rest : list Token) : Prop := follows np ed (next rest) /\ stops m (next rest).
Definition good_expr (k : nat) (m : N) (ts : list Token) (e : Expression) (ed : edge) : Prop :=
  starts ts /\ reads k (fun n => g n m) ts e (ends_expr m ed) /\
  inside k ts e behind_labels /\ no_path k ts e (ends_bin ed).

(** *** Lists *)
Definition reads_more {A} (k : nat) (item : nat -> P A) (ts : list Token) (l : list A) (close : list Token -> Prop) : Prop :=
  forall n d np rest acc, fits k n d -> close rest ->
    loop (fun acc => p_if (check TokenKind.Comma) (run p_consume in do x := item n in p_ret (inl (acc ++ [x]))) (p_ret (inr acc)))
      acc (at_ (ts ++ rest) d np) = Some (at_ rest d np, Ok (acc ++ l)).
Definition closes (rest : list Token) : Prop := soft (next rest) = true /\ begins TokenKind.Comma rest = false.
Definition comma_led {A} (ts : list Token) (l : list A) : Prop := ts = [] /\ l = [] \/ exists sp ts', ts = mkToken TokenKind.Comma sp :: ts'.
Definition good_more (k : nat) (ts : list Token) (es : list Expression) : Prop :=
  comma_led ts es /\
  reads_more k (fun n => parse_expression (g n)) ts es closes.
Definition good_listed (k : nat) (ts : list Token) (es : list Expression) : Prop :=
  (forall n d np sp rest, fits k n d -> items_until TokenKind.RParen (parse_expression (g n)) (at_ (ts ++ rparen sp :: rest) d np)
    = Some (at_ (rparen sp :: rest) d np, Ok es)) /\
  (ts = [] \/ starts ts) /\
  (forall n d np sp sp' rest, fits k n d -> parse_list_literal source (g n) (at_ (lbracket sp :: ts ++ rbracket sp' :: rest) d np)
    = Some (at_ rest d np, Ok (Expression.List es sp))).
Definition good_arms (k : nat) (ts : list Token) (arms : list (Expression * Expression)) : Prop :=
  (ts = [] /\ arms = [] \/ exists sp ts', ts = mkToken TokenKind.When sp :: ts') /\
  forall n d np rest acc, fits k n d -> soft (next rest) = true -> begins TokenKind.When rest = false ->
    loop (fun acc => p_if (check TokenKind.When)
      (run p_consume in
       do cond := parse_expression (g n) in
       run eat TokenKind.Then "THEN after WHEN condition" in
       do val := parse_expression (g n) in p_ret (inl (acc ++ [(cond, val)])))
      (p_ret (inr acc))) acc (at_ (ts ++ rest) d np) = Some (at_ rest d np, Ok (acc ++ arms)).
Definition good_opt (k : nat) (kw : TokenKind) (ts : list Token) (oe : option Expression) : Prop :=
  same_kind kw TokenKind.Eof = false ->
  (ts = [] /\ oe = None \/ exists sp ts', ts = mkToken kw sp :: ts') /\
  reads k (fun n => optional kw (parse_expression (g n))) ts oe (fun _ rest => soft (next rest) = true /\ begins kw rest = false).
Definition good_filter (k : nat) (ts : list Token) (oe : option Expression) : Prop :=
  (ts = [] /\ oe = None \/ (exists sp ts', ts = mkToken TokenKind.Where sp :: ts') /\ oe <> None) /\
  reads k (fun n => optional TokenKind.Where (parse_comprehension_filter (g n))) ts oe
    (fun _ rest => (soft (next rest) = true \/ begins TokenKind.Pipe rest = true) /\ begins TokenKind.Where rest = false).
Definition good_maybe (k : nat) (ts : list Token) (oe : option Expression) : Prop :=
  ts = [] /\ oe = None \/
  exists e, oe = Some e /\ starts ts /\ reads k (fun n => parse_expression (g n)) ts e softly.

(** *** Maps and selectors *)
Definition good_map (k : nat) (ts : list Token) (m : MapLiteral) : Prop :=
  (exists sp ts', ts = lbrace sp :: ts') /\ reads k (fun n => parse_map_literal source (g n)) ts m anyhow.
Definition good_entry (k : nat) (ts : list Token) (kv : text * Expression) : Prop :=
  (forall rest, begins TokenKind.RBrace (ts ++ rest) = false) /\
  reads k (fun n => parse_map_entry source (g n)) ts kv softly.
Definition good_entries (k : nat) (ts : list Token) (es : list (text * Expression)) : Prop :=
  comma_led ts es /\
  reads_more k (fun n => parse_map_entry source (g n)) ts es closes.
(** A selector is read as one, and as an entry of a map it is one or fails. *)
Definition or_fails {A} (k : nat) (m : nat -> P A) (ts : list Token) (follow : list Token -> Prop) : Prop :=
  forall n d np rest, fits k n d -> follow rest ->
    let r := m n (at_ (ts ++ rest) d np) in fails d np r \/ exists a, r = Some (at_ rest d np, Ok a).
Definition between (rest : list Token) : Prop := begins TokenKind.Comma rest || begins TokenKind.RBrace rest = true.
Definition good_selector (k : nat) (ts : list Token) (s : MapProjectionSelector) : Prop :=
  (forall rest, begins TokenKind.RBrace (ts ++ rest) = false) /\
  reads k (fun n => parse_map_projection_selector source (g n)) ts s (fun _ => between) /\
  or_fails k (fun n => parse_map_entry source (g n)) ts between.
Definition good_more_selectors (k : nat) (ts : list Token) (ss : list MapProjectionSelector) : Prop :=
  (forall rest, begins TokenKind.RBrace rest = true -> between (ts ++ rest)) /\
  reads_more k (fun n => parse_map_projection_selector source (g n)) ts ss (fun rest => begins TokenKind.RBrace rest = true) /\
  forall n d np rest acc, fits k n d -> begins TokenKind.RBrace rest = true ->
    let r := loop (fun acc => p_if (check TokenKind.Comma)
      (run p_consume in do x := parse_map_entry source (g n) in p_ret (inl (acc ++ [x]))) (p_ret (inr acc))) acc (at_ (ts ++ rest) d np) in
    fails d np r \/ exists es, r = Some (at_ rest d np, Ok es).
Definition good_selectors (k : nat) (ts : list Token) (ss : list MapProjectionSelector) : Prop :=
  (forall n d np sp rest, fits k n d ->
    items_until TokenKind.RBrace (parse_map_projection_selector source (g n)) (at_ (ts ++ rbrace sp :: rest) d np)
    = Some (at_ (rbrace sp :: rest) d np, Ok ss)) /\
  (forall n d np sp sp' rest, fits k n d ->
    let r := parse_map_literal source (g n) (at_ (lbrace sp :: ts ++ rbrace sp' :: rest) d np) in
    fails d np r \/ exists m, r = Some (at_ rest d np, Ok m)).

(** *** Patterns *)
Definition good_props (k : nat) (ts : list Token) (m : option MapLiteral) : Prop :=
  (ts = [] \/ exists sp ts', ts = lbrace sp :: ts') /\
  reads k (fun n => p_if (check TokenKind.LBrace) (do m := parse_map_literal source (g n) in p_ret (Some m)) (p_ret None)) ts m
    (fun _ rest => begins TokenKind.LBrace rest = false).
Definition good_node (k : nat) (ts : list Token) (nd : NodePattern) : Prop :=
  (exists sp ts', ts = lparen sp :: ts') /\ reads k (fun n => parse_node_pattern source (g n)) ts nd anyhow.
Definition good_relationship (k : nat) (ts : list Token) (r : RelationshipPattern) : Prop :=
  (forall d np rest, at_relationship_start (at_ (ts ++ rest) d np) = true) /\
  reads k (fun n => parse_relationship_pattern source (g n)) ts r anyhow.
Definition good_path (k : nat) (ts : list Token) (p : PathPattern) : Prop :=
  (exists sp ts', ts = lparen sp :: ts') /\ reads k (fun n => parse_path_pattern source (g n)) ts p (fun _ => no_relationship).
Definition good_segments (k : nat) (ts : list Token) (tl : list PathSegment) : Prop :=
  forall n d np rest acc, fits k n d -> no_relationship rest ->
    loop (fun acc => p_if at_relationship_start
      (do r := parse_relationship_pattern source (g n) in do n := parse_node_pattern source (g n) in
       p_ret (inl (acc ++ [Expression.mkSegment r n]))) (p_ret (inr acc))) acc (at_ (ts ++ rest) d np)
    = Some (at_ rest d np, Ok (acc ++ tl)).

Ltac flat := cbn [app]; repeat (rewrite <- app_assoc; cbn [app]).
(** Read what [H] says is there. *)
Ltac next_by H := erewrite bind_ok by (eapply H; first [eassumption | done]); cbn iota beta.

(** ** Node patterns *)
Definition labels_step : P (list text * option LabelExpr.t) :=
  p_if (check TokenKind.Colon)
    (do e := parse_label_expression source true in
     p_ret (match LabelExpr.as_conjunction e with
            | Some names => (names, None)
            | None => (LabelExpr.required_labels e, Some e)
            end)) (p_ret ([], None)).
Definition props_step (n : nat) : P (option MapLiteral) :=
  p_if (check TokenKind.LBrace) (do m := parse_map_literal source (g n) in p_ret (Some m)) (p_ret None).

Lemma node_pattern_eq n sp ts d np : parse_node_pattern source (g n) (at_ (lparen sp :: ts) d np) =
  (do variable := optional_variable_step source in
   do labels := labels_step in
   do properties := props_step n in
   run eat TokenKind.RParen "`)` to close node pattern" in
   p_ret (Expression.mkNode variable labels.1 labels.2 properties sp)) (at_ ts d np).
Proof. unfold parse_node_pattern. take. by take. Qed.

Lemma node_labels_read k lts ns le n d np rest : node_labels source k lts ns le -> fits k n d ->
  after_labels true (next rest) -> labels_step (at_ (lts ++ rest) d np) = Some (at_ rest d np, Ok (ns, le)).
Proof.
  intros H [_ Hd] Hr. unfold labels_step.
  assert (Hl : forall ts e, label_expression source k true ts e ->
    parse_label_expression source true (at_ (ts ++ rest) d np) = Some (at_ rest d np, Ok e)).
  { intros ts e He. by apply (label_expression_reads source k true). }
  destruct H as [|ts e ns H E|ts e H E].
  - destruct Hr as (_ & Hc & _). cbn [app]. by rewrite if_eq, check_next, Hc.
  - destruct H as [sp ts e H]. cbn [app]. look. erewrite bind_ok by (by apply (Hl (mkToken TokenKind.Colon sp :: ts))). by rewrite E.
  - destruct H as [sp ts e H]. cbn [app]. look. erewrite bind_ok by (by apply (Hl (mkToken TokenKind.Colon sp :: ts))). by rewrite E.
Qed.


Lemma props_none_step n rest d np : begins TokenKind.LBrace rest = false -> props_step n (at_ rest d np) = Some (at_ rest d np, Ok None).
Proof. intros H. unfold props_step. by rewrite if_eq, check_begins, H. Qed.
Lemma no_variable_step rest d np : at_variable (at_ rest d np) = false ->
  optional_variable_step source (at_ rest d np) = Some (at_ rest d np, Ok None).
Proof. intros H. unfold optional_variable_step. by rewrite if_eq, H. Qed.
Lemma no_labels_step rest d np : begins TokenKind.Colon rest = false -> labels_step (at_ rest d np) = Some (at_ rest d np, Ok ([], None)).
Proof. intros H. unfold labels_step. by rewrite if_eq, check_begins, H. Qed.
Lemma variable_step t x rest d np : variable source t x ->
  optional_variable_step source (at_ (t :: rest) d np) = Some (at_ rest d np, Ok (Some x)).
Proof. intros H. by apply (optional_variable_reads source [t] (Some x)); [apply variable_there|]. Qed.

(** The end of a node pattern, or what fails for want of it. *)
Definition node_end (v : option text) (ls : list text * option LabelExpr.t) (m : option MapLiteral) (sp : Span) : P NodePattern :=
  run eat TokenKind.RParen "`)` to close node pattern" in p_ret (Expression.mkNode v ls.1 ls.2 m sp).
Lemma node_end_fails v ls m sp rest d np : begins TokenKind.RParen rest = false -> fails d np (node_end v ls m sp (at_ rest d np)).
Proof.
  intros H. destruct (eat_err TokenKind.RParen "`)` to close node pattern" rest d np H) as [e He].
  unfold node_end. rewrite (bind_err _ _ _ _ _ He). by exists rest, e.
Qed.
Lemma node_end_reads v ls m sp sp' rest d np :
  node_end v ls m sp (at_ (rparen sp' :: rest) d np) = Some (at_ rest d np, Ok (Expression.mkNode v ls.1 ls.2 m sp)).
Proof. unfold node_end. by take. Qed.

Lemma not_a_node n sp ts d np : starter (next ts) = true -> at_variable (at_ ts d np) = false -> begins TokenKind.LBrace ts = false ->
  fails d np (parse_node_pattern source (g n) (at_ (lparen sp :: ts) d np)).
Proof.
  intros Hs Hv Hb. rewrite node_pattern_eq. rewrite (bind_ok _ _ _ _ _ (no_variable_step _ _ _ Hv)).
  rewrite (bind_ok _ _ _ _ _ (no_labels_step _ _ _ (starter_is_not _ TokenKind.Colon Hs eq_refl))).
  rewrite (bind_ok _ _ _ _ _ (props_none_step _ _ _ _ Hb)). apply node_end_fails. by apply starter_is_not.
Qed.
(** A variable and something that is in no node pattern. *)
Lemma variable_then n sp t x rest d np : variable source t x ->
  begins TokenKind.Colon rest = false -> begins TokenKind.LBrace rest = false -> begins TokenKind.RParen rest = false ->
  fails d np (parse_node_pattern source (g n) (at_ (lparen sp :: t :: rest) d np)).
Proof.
  intros H Hc Hb Hr. rewrite node_pattern_eq. rewrite (bind_ok _ _ _ _ _ (variable_step _ _ _ _ _ H)).
  rewrite (bind_ok _ _ _ _ _ (no_labels_step _ _ _ Hc)). rewrite (bind_ok _ _ _ _ _ (props_none_step _ _ _ _ Hb)).
  by apply node_end_fails.
Qed.
Lemma variable_end n sp t x sp' rest d np : variable source t x -> exists nd,
  parse_node_pattern source (g n) (at_ (lparen sp :: t :: rparen sp' :: rest) d np) = Some (at_ rest d np, Ok nd).
Proof.
  intros H. rewrite node_pattern_eq. rewrite (bind_ok _ _ _ _ _ (variable_step _ _ _ _ _ H)).
  rewrite (bind_ok _ _ _ _ _ (no_labels_step (rparen sp' :: rest) d np eq_refl)).
  rewrite (bind_ok _ _ _ _ _ (props_none_step n (rparen sp' :: rest) d np eq_refl)). eexists. apply node_end_reads.
Qed.

(** What is left of a node pattern after its map. *)
Lemma after_map n v ls sp (x : option (Parser * result ParseError MapLiteral)) ts rest d np :
  begins TokenKind.LBrace ts = true -> parse_map_literal source (g n) (at_ ts d np) = x ->
  (fails d np x \/ exists m, x = Some (at_ rest d np, Ok m)) ->
  let r := (do properties := props_step n in node_end v ls properties sp) (at_ ts d np) in
  fails d np r \/ exists sp' rest' nd, rest = rparen sp' :: rest' /\ r = Some (at_ rest' d np, Ok nd).
Proof.
  intros Hb Hx H r. assert (Hp : props_step n (at_ ts d np) = match x with Some (s, Ok m) => Some (s, Ok (Some m)) | Some (s, Err e) => Some (s, Err e) | None => None end).
  { unfold props_step. rewrite if_eq, check_begins, Hb. unfold p_bind. rewrite Hx. by destruct x as [[? []]|]. }
  unfold r. destruct H as [(ts' & e & ->)|[m ->]].
  - left. rewrite (bind_err _ _ _ _ _ Hp). by eexists _, _.
  - rewrite (bind_ok _ _ _ _ _ Hp). destruct (begins TokenKind.RParen rest) eqn:E; [|left; by apply node_end_fails].
    right. destruct rest as [|[k sp'] rest]; [done|]. unfold begins in E. cbn [next kind] in E.
    assert (k = TokenKind.RParen) as ->.
    { unfold same_kind in E. apply N.eqb_eq in E. destruct k; done. }
    eexists _, _, _. split; [done|]. apply node_end_reads.
Qed.

(** No path where there is no parenthesis, or no node. *)
Lemma path_of_failed_node n ts d np : fails d np (parse_node_pattern source (g n) (at_ ts d np)) ->
  fails d np (parse_path_pattern source (g n) (at_ ts d np)).
Proof. intros (ts' & e & H). unfold parse_path_pattern. rewrite (bind_err _ _ _ _ _ H). by eexists _, _. Qed.
Lemma no_paren_fails n ts d np : begins TokenKind.LParen ts = false -> fails d np (parse_path_pattern source (g n) (at_ ts d np)).
Proof.
  intros H. apply path_of_failed_node. destruct (eat_err TokenKind.LParen "`(` to open node pattern" ts d np H) as [e He].
  unfold parse_node_pattern. unfold p_bind at 1, p_span. rewrite (bind_err _ _ _ _ _ He). by eexists _, _.
Qed.
Lemma path_of_lone_node n ts nd rest d np : parse_node_pattern source (g n) (at_ ts d np) = Some (at_ rest d np, Ok nd) ->
  no_relationship rest -> parse_path_pattern source (g n) (at_ ts d np) = Some (at_ rest d np, Ok (Expression.mkPath nd [])).
Proof.
  intros H [Hm Ha]. unfold parse_path_pattern. rewrite (bind_ok _ _ _ _ _ H).
  erewrite bind_ok; [done|]. apply loop_done. rewrite if_eq. unfold at_relationship_start. rewrite !check_begins.
  by rewrite Hm, Ha.
Qed.

(** ** Primaries *)
Lemma plain_prim k t ts e pat : starter (kind t) = true -> (forall rest d np, at_variable (at_ (t :: rest) d np) = false) ->
  same_kind (kind t) TokenKind.LBrace = false -> same_kind (kind t) TokenKind.LParen = false ->
  reads k (fun n => parse_primary source (g n)) (t :: ts) e (behind_prim e pat) -> good_prim k (t :: ts) e pat.
Proof.
  intros Hs Hv Hb Hp Hr. split; [by exists t, ts|]. split; [done|]. split.
  - right. intros n d np sp rest _ _. left. apply not_a_node; [exact Hs|apply Hv|exact Hb].
  - intros n d np rest _ _. left. apply no_paren_fails. exact Hp.
Qed.
Lemma named_prim k t x ts e pat : variable source t x ->
  (forall rest, begins TokenKind.Colon (ts ++ rest) = false /\ begins TokenKind.LBrace (ts ++ rest) = false /\
    begins TokenKind.RParen (ts ++ rest) = false) ->
  reads k (fun n => parse_primary source (g n)) (t :: ts) e (behind_prim e pat) -> good_prim k (t :: ts) e pat.
Proof.
  intros Hv Hn Hr. split; [exists t, ts; split; [done|]; by destruct Hv as [|[] ? Hv]|]. split; [done|]. split.
  - right. intros n d np sp rest _ _. left. destruct (Hn rest) as (? & ? & ?). by eapply variable_then.
  - intros n d np rest _ _. left. apply no_paren_fails. unfold begins. cbn [app next]. by eapply variable_is_not.
Qed.

Lemma rule_atom k kd sp f : atom_of kd = Some f -> good_prim k [mkToken kd sp] (f sp) false.
Proof.
  intros H. apply plain_prim; try (by destruct kd).
  intros n d np rest _ _. unfold parse_primary. cbn [app peek_kind toks kind].
  destruct kd; try discriminate H; injection H as <-; unfold atom; take; by take.
Qed.

Lemma primary_of_variable t x n ts d np : variable source t x ->
  parse_primary source (g n) (at_ (t :: ts) d np) = parse_identifier_or_call source (g n) (at_ (t :: ts) d np).
Proof. intros [m sp|kd sp H]; [done|]. by destruct kd. Qed.
Lemma call_of_variable t x n ts d np : variable source t x ->
  parse_primary source (g n) (at_ (t :: ts) d np) =
  (if eq_ignore_ascii_case x "count" && begins TokenKind.LBrace ts then parse_count_subquery source (g n) (span t)
   else if begins TokenKind.LParen ts then
     match list_predicate_kind x with
     | Some k => parse_list_predicate source (g n) k (span t)
     | None => if eq_ignore_ascii_case x "reduce" then parse_reduce source (g n) (span t) else parse_call_or_variable (g n) x (span t)
     end
   else parse_call_or_variable (g n) x (span t)) (at_ ts d np).
Proof.
  intros H. rewrite (primary_of_variable t x) by done. unfold parse_identifier_or_call.
  rewrite (bind_ok _ _ _ _ _ (variable_consumed source t x ts d np H)). cbn iota beta.
  rewrite if_eq, check_begins. destruct (_ && _); [done|]. rewrite if_eq, check_begins. by destruct (begins _ _).
Qed.

Lemma callfree_no_paren rest : callfree rest -> begins TokenKind.LParen rest = false.
Proof.
  unfold callfree, begins. destruct rest as [|t rest]; [done|]. cbn [dotted_names next].
  destruct rest as [|i rest]; [done|]. destruct (same_kind (kind t) TokenKind.Dot) eqn:E; [|done].
  intros _. unfold same_kind in *. apply N.eqb_eq in E. by rewrite E.
Qed.

Lemma rule_variable k t x : variable source t x -> good_prim k [t] (Expression.Var x (span t)) false.
Proof.
  intros H. split; [exists t, []; split; [done|]; by destruct H as [|[] ? H]|]. split.
  - intros n d np rest _ (_ & Hc & Hn). cbn [app]. rewrite (call_of_variable t x) by done.
    rewrite (callfree_no_paren _ Hc). assert (Hb : eq_ignore_ascii_case x "count" && begins TokenKind.LBrace rest = false).
    { destruct (eq_ignore_ascii_case x "count") eqn:E; [|done]. by rewrite (Hn x (span t)). }
    rewrite Hb. unfold parse_call_or_variable. cbn [toks]. cbv zeta. unfold callfree, peek_at in *. cbn [toks] in *. by rewrite Hc.
  - split; [left; by exists t, x|]. intros n d np rest _ _. left. apply no_paren_fails. unfold begins. cbn [app next].
    by eapply variable_is_not.
Qed.

Lemma dotted_probe ds ns sp rest : dotted ds ns -> dotted_names (ds ++ mkToken TokenKind.LParen sp :: rest) = ns /\ length ds = (2 * length ns)%nat.
Proof.
  intros H. induction H as [|sp1 sp2 n ds ns H [IH1 IH2]]; [by destruct rest|]. cbn [app dotted_names kind]. decide_kind. cbn iota.
  cbn [length]. split; [by f_equal|lia].
Qed.
Lemma iter_consume ds ns sp rest d np : dotted ds ns ->
  Nat.iter (S (length ds)) consume (at_ (ds ++ mkToken TokenKind.LParen sp :: rest) d np) = at_ rest d np.
Proof.
  intros H. induction H as [|sp1 sp2 n ds ns H IH]; [done|].
  cbn [app length]. rewrite Nat.iter_succ_r. rewrite consume_next by done. rewrite Nat.iter_succ_r. rewrite consume_next by done. apply IH.
Qed.

Lemma rule_call k t n ds ns sp dt distinct ts args sp' : variable source t n -> dotted ds ns -> (ns = [] -> special_call n = false) ->
  optional_token TokenKind.Distinct dt distinct -> good_listed k ts args ->
  good_prim k (t :: ds ++ lparen sp :: dt ++ ts ++ [rparen sp']) (Expression.FunctionCall (n :: ns) distinct args (span t)) false.
Proof.
  intros Hv Hd Hs Hdt (Ha & Hst & _). eapply named_prim; [done|by destruct Hd|].
  intros m d np rest Hf _. flat. rewrite (call_of_variable t n) by done.
  destruct (dotted_probe ds ns sp (dt ++ ts ++ rparen sp' :: rest) Hd) as [Hn Hl].
  assert (Hcall : parse_call_or_variable (g m) n (span t) (at_ (ds ++ lparen sp :: dt ++ ts ++ rparen sp' :: rest) d np)
    = Some (at_ rest d np, Ok (Expression.FunctionCall (n :: ns) distinct args (span t)))).
  { unfold parse_call_or_variable. cbn [toks]. rewrite Hn. cbv zeta. unfold peek_at. cbn [toks].
    rewrite lookup_app_r by lia. rewrite <- Hl, Nat.sub_diag. cbn [lookup list_lookup kind]. decide_kind. cbn iota.
    erewrite bind_ok by (rewrite (iter_consume ds ns) by done; reflexivity).
    erewrite bind_ok.
    2:{ eapply match_kind_reads; [done..|]. intros ->. destruct Hst as [-> |Hst]; [done|].
        apply starter_is_not; [by apply starts_next|done]. }
    erewrite bind_ok by (by apply Ha). by take. }
  replace (eq_ignore_ascii_case n "count" && _) with false.
  2:{ rewrite andb_comm. by destruct Hd. }
  destruct Hd as [|sp1 sp2 n' ds ns Hd]; [|exact Hcall].
  unfold begins. cbn [app next kind]. decide_kind. cbn iota. specialize (Hs eq_refl). unfold special_call in Hs.
  apply orb_false_iff in Hs as [Hs1 ->]. by destruct (list_predicate_kind n).
Qed.

Lemma soft_reads k ts e ed : good_expr k 0 ts e ed -> reads k (fun n => parse_expression (g n)) ts e softly.
Proof.
  intros (_ & H & _) n d np rest Hf Hs. apply H; [done|]. split; [by apply soft_follows|by apply soft_stops].
Qed.
(** Read the expression [H] says is there. *)
Ltac expr_by H := erewrite bind_ok by (eapply (soft_reads _ _ _ _ H); first [eassumption | reflexivity]); cbn iota beta.
Ltac var_by H := rewrite (bind_ok _ _ _ _ _ (variable_reads source _ _ _ _ _ H)); cbn iota beta.
Ltac name_by H := rewrite (bind_ok _ _ _ _ _ (any_name_reads source _ _ _ _ _ H)); cbn iota beta.

Lemma rule_predicate k t kd sp v n sp1 ts1 l ed1 sp2 ts2 e ed2 sp' : predicate_word source t kd -> variable source v n ->
  good_expr k 0 ts1 l ed1 -> good_expr k 0 ts2 e ed2 ->
  good_prim k (t :: lparen sp :: v :: mkToken TokenKind.In sp1 :: ts1 ++ mkToken TokenKind.Where sp2 :: ts2 ++ [rparen sp'])
    (Expression.ListPredicate kd n l e (span t)) false.
Proof.
  intros Hw Hv H1 H2.
  assert (Hread : forall m d np rest, fits k m d -> parse_list_predicate source (g m) kd (span t)
    (at_ (lparen sp :: v :: mkToken TokenKind.In sp1 :: ts1 ++ mkToken TokenKind.Where sp2 :: ts2 ++ rparen sp' :: rest) d np)
    = Some (at_ rest d np, Ok (Expression.ListPredicate kd n l e (span t)))).
  { intros m d np rest Hf. unfold parse_list_predicate. take. var_by Hv. take. expr_by H1. take. expr_by H2. by take. }
  destruct Hw as [sp0|t x kd Hx Hk].
  - apply plain_prim; [done..|]. intros m d np rest Hf _. flat. unfold parse_primary. cbn [peek_kind toks kind].
    change (peek_at 1 _) with TokenKind.LParen. decide_kind. cbn iota. take. take. by apply Hread.
  - eapply named_prim; [done..|]. intros m d np rest Hf _. flat. rewrite (call_of_variable t x) by done. rewrite Hk.
    rewrite andb_comm. unfold begins. cbn [next kind]. decide_kind. cbn [andb]. by apply Hread.
Qed.

Lemma rule_reduce k t w sp a an sp1 ts1 init ed1 sp2 v n sp3 ts2 l ed2 sp4 ts3 e ed3 sp' :
  variable source t w -> list_predicate_kind w = None -> eq_ignore_ascii_case w "reduce" = true ->
  variable source a an -> variable source v n ->
  good_expr k 0 ts1 init ed1 -> good_expr k 0 ts2 l ed2 -> labelled ed2 = false -> good_expr k 0 ts3 e ed3 ->
  good_prim k (t :: lparen sp :: a :: mkToken TokenKind.Eq sp1 :: ts1 ++ mkToken TokenKind.Comma sp2 :: v ::
    mkToken TokenKind.In sp3 :: ts2 ++ mkToken TokenKind.Pipe sp4 :: ts3 ++ [rparen sp'])
    (Expression.Reduce an init n l e (span t)) false.
Proof.
  intros Hw Hk Hr Ha Hv H1 (_ & H2 & _) Hl H3. eapply named_prim; [done..|]. intros m d np rest Hf _. flat.
  rewrite (call_of_variable t w) by done. rewrite Hk, Hr, andb_comm. unfold begins. cbn [next kind]. decide_kind. cbn [andb].
  unfold parse_reduce. take. var_by Ha. take. expr_by H1. take. var_by Hv. take.
  erewrite bind_ok by (apply H2; [done|]; split; [apply pipe_follows; congruence|apply pipe_stops]).
  take. expr_by H3. by take.
Qed.

Lemma rule_case k sp cs c arms es ets els sp' : good_maybe k cs c -> good_arms k arms es -> es <> [] ->
  good_opt k TokenKind.Else ets els ->
  good_prim k (mkToken TokenKind.Case sp :: cs ++ arms ++ ets ++ [mkToken TokenKind.End_ sp']) (Expression.Case c es els sp) false.
Proof.
  intros Hc [Has Ha] Hne Hopt. destruct (Hopt eq_refl) as [Hshape Ho]. apply plain_prim; [done..|].
  intros m d np rest Hf _. flat. unfold parse_primary. cbn [peek_kind toks kind]. unfold parse_case. take. take.
  destruct Has as [[-> ->]|(sp1 & arms' & ->)]; [done|].
  assert (Hend : soft (next (ets ++ mkToken TokenKind.End_ sp' :: rest)) = true /\
    begins TokenKind.When (ets ++ mkToken TokenKind.End_ sp' :: rest) = false).
  { destruct Hshape as [[-> _]|(sp2 & ts' & ->)]; split; reflexivity. }
  assert (Hsc : forall r sp2, let when := mkToken TokenKind.When sp2 :: r in
    p_if (check TokenKind.When) (p_ret None) (do e := parse_expression (g m) in p_ret (Some e)) (at_ (cs ++ when) d np)
    = Some (at_ when d np, Ok c)).
  { intros r sp2. cbv zeta. destruct Hc as [[-> ->]|(e & -> & Hst & Hr)]; rewrite if_eq, check_begins; [done|].
    rewrite (starts_begins _ _ TokenKind.When Hst eq_refl). erewrite bind_ok by (apply Hr; [done|reflexivity]). done. }
  erewrite bind_ok by apply Hsc. cbn iota beta.
  destruct Hend as [Hend1 Hend2]. erewrite bind_ok by (by apply (Ha m d np _ [])). cbn [app]. cbn iota beta.
  destruct es as [|e0 es]; [done|]. erewrite bind_ok by (apply Ho; [done|split; reflexivity]). by take.
Qed.

(** *** Lists *)
Lemma not_paren_list k n d np ts e sp rest : fits k n d -> no_path k ts e (fun np r => r = rest) ->
  is_pattern e = false \/ begins TokenKind.Where rest || begins TokenKind.Pipe rest = false ->
  p_if (check TokenKind.LParen) (try_parse_pattern_comprehension source (g n) sp) (p_ret None) (at_ (ts ++ rest) d np)
  = Some (at_ (ts ++ rest) d np, Ok None).
Proof.
  intros Hf Hp Hw. rewrite if_eq, check_begins. destruct (begins TokenKind.LParen (ts ++ rest)); [|done].
  unfold try_parse_pattern_comprehension. unfold p_bind at 1, p_get. unfold p_bind at 1, p_try.
  destruct (Hp n d np rest Hf eq_refl) as [(ts' & e' & ->)|(ts' & p & -> & Hq)]; cbn iota beta; [done|].
  rewrite if_eq, !check_begins. destruct Hq as [-> |[-> |[He ->]]]; [done|by rewrite orb_true_r|].
  destruct Hw as [Hw| ->]; [congruence|by rewrite orb_true_r].
Qed.

Lemma comma_led_soft {A} ts (l : list A) rest : comma_led ts l -> soft (next rest) = true -> soft (next (ts ++ rest)) = true.
Proof. by intros [[-> _]|(sp & ts' & ->)]. Qed.
Lemma comma_led_no {A} ts (l : list A) rest k : comma_led ts l -> begins k rest = false -> same_kind TokenKind.Comma k = false ->
  begins k (ts ++ rest) = false.
Proof. by intros [[-> _]|(sp & ts' & ->)]. Qed.

Lemma read_more {A} (item : P A) sp ts x rest acc d np r :
  item (at_ (ts ++ rest) d np) = Some (at_ rest d np, Ok x) ->
  loop (fun acc => p_if (check TokenKind.Comma) (run p_consume in do x := item in p_ret (inl (acc ++ [x]))) (p_ret (inr acc)))
    (acc ++ [x]) (at_ rest d np) = Some r ->
  loop (fun acc => p_if (check TokenKind.Comma) (run p_consume in do x := item in p_ret (inl (acc ++ [x]))) (p_ret (inr acc)))
    acc (at_ (mkToken TokenKind.Comma sp :: ts ++ rest) d np) = Some r.
Proof.
  intros H Hr. eapply (loop_next _ _ (acc ++ [x]) _ (at_ rest d np)); [|shrinks|done]. look. take. by rewrite (bind_ok _ _ _ _ _ H).
Qed.
Lemma no_more {A} (item : P A) rest acc d np : begins TokenKind.Comma rest = false ->
  loop (fun acc => p_if (check TokenKind.Comma) (run p_consume in do x := item in p_ret (inl (acc ++ [x]))) (p_ret (inr acc)))
    acc (at_ rest d np) = Some (at_ rest d np, Ok acc).
Proof. intros H. apply loop_done. by rewrite if_eq, check_begins, H. Qed.

Lemma rule_exprs_end k : good_more k [] [].
Proof. split; [by left|]. intros n d np rest acc _ [_ H]. rewrite app_nil_r. by apply no_more. Qed.
Lemma rule_exprs_more k sp ts e ed ts' es : good_expr k 0 ts e ed -> good_more k ts' es ->
  good_more k (mkToken TokenKind.Comma sp :: ts ++ ts') (e :: es).
Proof.
  intros H [Hl Hm]. split; [by right; eexists _, _|]. intros n d np rest acc Hf Hc. flat. eapply read_more.
  - apply (soft_reads _ _ _ _ H); [done|]. eapply comma_led_soft; [done|apply Hc].
  - cbn beta. rewrite Hm by done. by rewrite <- app_assoc.
Qed.

Lemma rule_listed_none k : good_listed k [] [].
Proof.
  split; [|split; [by left|]].
  - intros n d np sp rest _. unfold items_until. by look.
  - intros n d np sp sp' rest _. unfold parse_list_literal. cbn [app]. take. take. look. by take.
Qed.
Lemma rule_listed_some k ts e ed ts' es : good_expr k 0 ts e ed -> good_more k ts' es -> good_listed k (ts ++ ts') (e :: es).
Proof.
  intros H [Hl Hm]. pose proof H as (Hst & _ & _ & Hp). split; [|split].
  - intros n d np sp rest Hf. unfold items_until. rewrite if_eq, check_begins. flat. rewrite (starts_begins _ _ _ Hst) by done.
    unfold comma_list. erewrite bind_ok by (apply (soft_reads _ _ _ _ H); [done|]; by eapply comma_led_soft).
    unfold items_after. by rewrite Hm.
  - right. destruct Hst as (t & ts1 & -> & Hst). by eexists _, _.
  - intros n d np sp sp' rest Hf. unfold parse_list_literal. take. take. flat. rewrite if_eq, check_begins.
    rewrite (starts_begins _ _ _ Hst) by done.
    assert (Hs : soft (next (ts' ++ rbracket sp' :: rest)) = true) by (by eapply comma_led_soft).
    erewrite bind_ok.
    2:{ eapply (not_paren_list k _ _ _ _ e); [done| |right].
        - intros n' d' np' r Hf' ->. apply Hp; [done|]. by apply soft_follows.
        - rewrite !(comma_led_no _ _ _ _ Hl) by done. done. }
    cbn iota beta. erewrite bind_ok by (by apply (soft_reads _ _ _ _ H)). rewrite if_eq, !check_begins.
    rewrite !(comma_led_no _ _ _ _ Hl) by done. cbn [orb]. unfold items_after.
    erewrite bind_ok by (by apply (Hm n d np (rbracket sp' :: rest) [e])). by take.
Qed.

Lemma rule_list k sp ts es sp' : good_listed k ts es -> good_prim k (lbracket sp :: ts ++ [rbracket sp']) (Expression.List es sp) false.
Proof.
  intros (_ & _ & H). apply plain_prim; [done..|]. intros n d np rest Hf _. flat. unfold parse_primary. cbn [peek_kind toks kind].
  by apply H.
Qed.

Lemma rule_filter_none k : good_filter k [] None.
Proof. split; [by left|]. intros n d np rest _ [_ H]. unfold optional. cbn [app]. by rewrite if_eq, check_begins, H. Qed.
Lemma rule_filter_some k sp ts e ed : good_expr k 0 ts e ed -> good_filter k (mkToken TokenKind.Where sp :: ts) (Some e).
Proof.
  intros (_ & H & _). split; [right; split; [by eexists _, _|done]|]. intros n d np rest Hf [Hr _].
  unfold optional. cbn [app]. look. take.
  assert (He : parse_expression (g n) (at_ (ts ++ rest) d (np + 1)) = Some (at_ rest d (np + 1), Ok e)).
  { apply H; [done|]. destruct Hr as [Hr|Hr]; [split; [by apply soft_follows|by apply soft_stops]|].
    unfold begins, same_kind in Hr. apply N.eqb_eq in Hr. destruct (next rest) eqn:E; try discriminate Hr.
    split; rewrite E; [apply pipe_follows; lia|apply pipe_stops]. }
  erewrite bind_ok; [done|]. unfold parse_comprehension_filter. cbn [toks depth no_label_pipe]. rewrite He.
  cbn [toks depth no_label_pipe]. by rewrite N.add_sub.
Qed.
Lemma rule_opt_none k kw : good_opt k kw [] None.
Proof. intros _. split; [by left|]. intros n d np rest _ [_ H]. unfold optional. cbn [app]. by rewrite if_eq, check_begins, H. Qed.
Lemma rule_opt_some k kw sp ts e ed : good_expr k 0 ts e ed -> good_opt k kw (mkToken kw sp :: ts) (Some e).
Proof.
  intros H Hk. split; [right; by eexists _, _|]. intros n d np rest Hf [Hr _]. unfold optional. cbn [app].
  rewrite if_eq, check_next. cbn [next kind]. rewrite same_kind_refl. unfold p_bind at 1, p_consume. rewrite consume_next by done.
  cbn iota beta. by erewrite bind_ok by (by apply (soft_reads _ _ _ _ H)).
Qed.
Lemma rule_maybe_none k : good_maybe k [] None.
Proof. by left. Qed.
Lemma rule_maybe_some k ts e ed : good_expr k 0 ts e ed -> good_maybe k ts (Some e).
Proof. intros H. right. exists e. split; [done|]. split; [apply H|]. by apply (soft_reads _ _ _ _ H). Qed.

Lemma opt_shape k kw ts oe : good_opt k kw ts oe -> same_kind kw TokenKind.Eof = false -> ts = [] \/ exists sp ts', ts = mkToken kw sp :: ts'.
Proof. intros H Hk. destruct (H Hk) as [[[-> _]|?] _]; auto. Qed.

Lemma rule_comprehension k sp ts n nsp l isp ed wts w pts proj sp' :
  good_expr k 0 ts (Expression.In (Expression.Var n nsp) l isp) ed -> good_filter k wts w -> good_opt k TokenKind.Pipe pts proj ->
  w <> None \/ proj <> None /\ labelled ed = false ->
  good_prim k (lbracket sp :: ts ++ wts ++ pts ++ [rbracket sp']) (Expression.ListComprehension n l w proj sp) false.
Proof.
  intros (Hst & Hr & _ & Hp) [Hws Hw] Ho Hc. destruct (Ho eq_refl) as [Hos Hor].
  apply plain_prim; [done..|]. intros m d np rest Hf _. flat. unfold parse_primary. cbn [peek_kind toks kind].
  unfold parse_list_literal. take. take. rewrite if_eq, check_begins, (starts_begins _ _ _ Hst) by done.
  set (after := wts ++ pts ++ rbracket sp' :: rest).
  assert (Hafter : begins TokenKind.Where after || begins TokenKind.Pipe after = true /\ (begins TokenKind.Where after = false -> labelled ed = false)).
  { unfold after. destruct Hws as [[-> ->]|[(sp1 & ts' & ->) _]]; [|done]. destruct Hc as [|[Hproj Hl]]; [done|].
    by destruct Hos as [[_ ->]|(sp1 & ts' & ->)]. }
  destruct Hafter as [Hafter Hlab].
  assert (Hfol : forall np, ends_expr 0 ed np after).
  { intros np'. unfold ends_expr. destruct (begins TokenKind.Where after) eqn:E.
    - unfold begins, same_kind in E. apply N.eqb_eq in E. assert (next after = TokenKind.Where) as -> by (destruct (next after); done).
      split; [by apply soft_follows|by apply soft_stops].
    - cbn [orb] in Hafter. unfold begins, same_kind in Hafter. apply N.eqb_eq in Hafter.
      assert (next after = TokenKind.Pipe) as -> by (destruct (next after); done).
      split; [|apply pipe_stops]. apply pipe_follows. rewrite Hlab by done. done. }
  erewrite bind_ok.
  2:{ eapply (not_paren_list k _ _ _ _ (Expression.In (Expression.Var n nsp) l isp)); [done| |by left]. intros n' d' np' r Hf' ->. apply Hp; [done|]. apply Hfol. }
  cbn iota beta. erewrite bind_ok by (apply Hr; [done|apply Hfol]). cbn iota beta. rewrite if_eq, !check_begins, Hafter.
  unfold finish_list_comprehension. unfold after. erewrite bind_ok.
  2:{ apply Hw; [done|]. destruct Hos as [[-> ->]|(sp1 & ts' & ->)]; [split; [by left|done]|split; [by right|done]]. }
  cbn iota beta. erewrite bind_ok by (apply Hor; done). by take.
Qed.

Lemma rule_pattern_comprehension k sp ts h s tl wts w sp1 pts proj ed sp' :
  good_path k ts (Expression.mkPath h (s :: tl)) -> good_filter k wts w -> good_expr k 0 pts proj ed ->
  good_prim k (lbracket sp :: ts ++ wts ++ mkToken TokenKind.Pipe sp1 :: pts ++ [rbracket sp'])
    (Expression.PatternComprehension (Expression.mkPath h (s :: tl)) w proj sp) false.
Proof.
  intros [(sp2 & ts' & ->) Hp] [Hws Hw] He. apply plain_prim; [done..|]. intros m d np rest Hf _. flat.
  unfold parse_primary. cbn [peek_kind toks kind]. unfold parse_list_literal. take. take. look.
  set (after := wts ++ mkToken TokenKind.Pipe sp1 :: pts ++ rbracket sp' :: rest).
  assert (Hafter : begins TokenKind.Where after || begins TokenKind.Pipe after = true /\ no_relationship after).
  { unfold after. destruct Hws as [[-> ->]|[(sp3 & ts3 & ->) _]]; (split; [|split]; reflexivity). }
  destruct Hafter as [Hafter Hno].
  pose proof (Hp m d np after Hf Hno) as Hpath. cbn [app] in Hpath. 
  erewrite bind_ok; cycle 1.
  { look. unfold try_parse_pattern_comprehension. unfold p_bind at 1, p_get. unfold p_bind at 1, p_try. rewrite Hpath. cbn iota beta.
    rewrite if_eq, !check_begins, Hafter. rewrite bool_decide_false by done. cbn [orb negb]. unfold after.
    erewrite bind_ok by (apply Hw; [done|split; [by right|done]]). cbn iota beta. take. expr_by He. by take. }
  done.
Qed.

(** *** Maps *)
Lemma rule_entry k t n sp ts e ed : name source t n -> good_expr k 0 ts e ed -> good_entry k (t :: mkToken TokenKind.Colon sp :: ts) (n, e).
Proof.
  intros Hn H. split; [intros rest; by apply (name_is_not source _ _ TokenKind.RBrace Hn)|]. intros m d np rest Hf Hr.
  unfold parse_map_entry. cbn [app]. name_by Hn. take. by expr_by H.
Qed.
Lemma rule_entries_end k : good_entries k [] [].
Proof. split; [by left|]. intros n d np rest acc _ [_ H]. rewrite app_nil_r. by apply no_more. Qed.
Lemma rule_entries_more k sp ts kv ts' es : good_entry k ts kv -> good_entries k ts' es ->
  good_entries k (mkToken TokenKind.Comma sp :: ts ++ ts') (kv :: es).
Proof.
  intros [_ H] [Hl Hm]. split; [by right; eexists _, _|]. intros n d np rest acc Hf Hc. flat. eapply read_more.
  - apply H; [done|]. eapply comma_led_soft; [done|apply Hc].
  - cbn beta. rewrite Hm by done. by rewrite <- app_assoc.
Qed.
Lemma rule_map_empty k sp sp' : good_map k [lbrace sp; rbrace sp'] (Expression.mkMap [] sp).
Proof.
  split; [by eexists _, _|]. intros n d np rest _ _. unfold parse_map_literal. cbn [app]. take. take.
  erewrite bind_ok by (unfold items_until; by look). cbn iota beta. by take.
Qed.
Lemma rule_map_some k sp ts kv ts' es sp' : good_entry k ts kv -> good_entries k ts' es ->
  good_map k (lbrace sp :: ts ++ ts' ++ [rbrace sp']) (Expression.mkMap (kv :: es) sp).
Proof.
  intros [Hb H] [Hl Hm]. split; [by eexists _, _|]. intros n d np rest Hf _. unfold parse_map_literal. flat. take. take.
  erewrite bind_ok; cycle 1.
  { unfold items_until. rewrite if_eq, check_begins, Hb. unfold comma_list.
    erewrite bind_ok by (apply H; [done|]; by eapply comma_led_soft). unfold items_after. by apply (Hm n d np (rbrace sp' :: rest) [kv]). }
  cbn iota beta. by take.
Qed.

Lemma rule_map k ts m : good_map k ts m -> good_prim k ts (Expression.Map m) false.
Proof.
  intros [(sp & ts' & ->) H]. split; [by eexists _, _|]. split.
  - intros n d np rest Hf _. unfold parse_primary. cbn [app peek_kind toks kind].
    pose proof (H n d np rest Hf Logic.I) as Hr. cbn [app] in Hr. by rewrite (bind_ok _ _ _ _ _ Hr).
  - split.
    + right. intros n d np sp' rest Hf _. unfold inside_ok. rewrite node_pattern_eq.
      rewrite (bind_ok _ _ _ _ _ (no_variable_step (lbrace sp :: ts' ++ rest) d np eq_refl)).
      rewrite (bind_ok _ _ _ _ _ (no_labels_step (lbrace sp :: ts' ++ rest) d np eq_refl)).
      pose proof (after_map n None ([], None) sp' _ ((lbrace sp :: ts') ++ rest) rest d np eq_refl (H n d np rest Hf Logic.I)
        (or_intror (ex_intro _ m eq_refl))) as [Hfail|(sp2 & rest' & nd & -> & Hr)]; [by left|right].
      eexists _, _, _. split; [done|]. split; [done|]. exact Hr.
    + intros n d np rest _ _. left. by apply no_paren_fails.
Qed.

(** *** Subqueries *)
Lemma subquery_reads k mt b ts pt wts w sp2 opening closing sp1 n d np rest : optional_token TokenKind.Match mt b -> good_path k ts pt ->
  good_opt k TokenKind.Where wts w -> fits k n d ->
  subquery source (g n) opening closing (at_ (lbrace sp1 :: mt ++ ts ++ wts ++ rbrace sp2 :: rest) d np) = Some (at_ rest d np, Ok (pt, w)).
Proof.
  intros Hmt [(sp3 & ts' & ->) Hp] Ho Hf. destruct (Ho eq_refl) as [Hs Hr]. unfold subquery. take.
  erewrite bind_ok by (eapply match_kind_reads; [done..|]; by intros ->). cbn iota beta.
  erewrite bind_ok by (apply Hp; [done|]; by destruct Hs as [[-> _]|(sp4 & ts4 & ->)]). cbn iota beta.
  erewrite bind_ok by (by apply Hr). by take.
Qed.
Ltac takef :=
  lazymatch goal with
  | |- fails _ _ (p_bind p_span _ (at_ (_ :: _) _ _)) => unfold p_bind at 1, p_span at 1; cbn [peek_span toks span]
  | |- fails _ _ (p_bind (eat _ _) _ _) => erewrite bind_ok by (apply eat_next; reflexivity)
  end; cbn iota beta.
Lemma fails_bind {A B} (m : P A) (f : A -> P B) d np s : fails d np (m s) -> fails d np (p_bind m f s).
Proof. intros (ts & e & H). rewrite (bind_err _ _ _ _ _ H). by exists ts, e. Qed.
(** A brace in which no map is. *)
Lemma no_map n sp mt b ts rest d np : optional_token TokenKind.Match mt b -> (exists sp3 ts', ts = lparen sp3 :: ts') ->
  fails d np (parse_map_literal source (g n) (at_ (lbrace sp :: mt ++ ts ++ rest) d np)).
Proof.
  intros Hmt (sp3 & ts' & ->). unfold parse_map_literal. takef. takef. apply fails_bind.
  unfold items_until, comma_list. destruct Hmt as [sp4|]; cbn [app]; look; apply fails_bind; unfold parse_map_entry.
  - rewrite (bind_ok _ _ _ _ _ (any_name_reads source _ _ _ _ _ (name_word source TokenKind.Match sp4 eq_refl))). apply fails_bind.
    by destruct (eat_err TokenKind.Colon "`:` between map key and value" (lparen sp3 :: ts' ++ rest) d np eq_refl) as [e He];
      eexists _, e.
  - apply fails_bind. destruct (name_err source (lparen sp3 :: ts' ++ rest) d np eq_refl) as [e He]; [done|]. by eexists _, e.
Qed.

Lemma rule_exists k sp sp1 mt b ts pt wts w sp2 : optional_token TokenKind.Match mt b -> good_path k ts pt ->
  good_opt k TokenKind.Where wts w ->
  good_prim k (mkToken TokenKind.Exists sp :: lbrace sp1 :: mt ++ ts ++ wts ++ [rbrace sp2]) (Expression.ExistsSubquery pt w sp) false.
Proof.
  intros Hmt Hp Ho. apply plain_prim; [done..|]. intros n d np rest Hf _. flat. unfold parse_primary. cbn [peek_kind toks kind].
  take. take. unfold parse_exists_subquery. by erewrite bind_ok by (by eapply subquery_reads).
Qed.
Lemma rule_count k t x sp1 mt b ts pt wts w sp2 : variable source t x -> eq_ignore_ascii_case x "count" = true ->
  optional_token TokenKind.Match mt b -> good_path k ts pt -> good_opt k TokenKind.Where wts w ->
  good_prim k (t :: lbrace sp1 :: mt ++ ts ++ wts ++ [rbrace sp2]) (Expression.CountSubquery pt w (span t)) false.
Proof.
  intros Hv Hx Hmt Hp Ho. split; [eexists _, _; split; [done|]; by destruct Hv as [|[] ? Hv]|]. split.
  - intros n d np rest Hf _. flat. rewrite (call_of_variable t x) by done. rewrite Hx. unfold begins. cbn [next kind]. decide_kind.
    cbn [andb]. unfold parse_count_subquery. by erewrite bind_ok by (by eapply subquery_reads).
  - split.
    + right. intros n d np sp rest Hf _. left. flat. rewrite node_pattern_eq.
      rewrite (bind_ok _ _ _ _ _ (variable_step _ _ _ _ _ Hv)).
      rewrite (bind_ok _ _ _ _ _ (no_labels_step (lbrace sp1 :: _) d np eq_refl)).
      destruct Hp as [Hhead _].
      destruct (after_map n (Some x) ([], None) sp _ (lbrace sp1 :: mt ++ ts ++ wts ++ rbrace sp2 :: rest) [] d np eq_refl eq_refl)
        as [H|(? & ? & ? & ? & _)]; [left; by eapply no_map|exact H|done].
    + intros n d np rest _ _. left. apply no_paren_fails. unfold begins. cbn [app next]. by eapply variable_is_not.
Qed.

(** *** Parentheses *)
Lemma rule_pattern k sp ts h s tl : good_path k (lparen sp :: ts) (Expression.mkPath h (s :: tl)) ->
  good_prim k (lparen sp :: ts) (Expression.PatternPredicate (Expression.mkPath h (s :: tl)) sp) true.
Proof.
  intros [_ Hp]. split; [by eexists _, _|]. split; [|split].
  - intros n d np rest Hf (Hno & _ & _). unfold parse_primary. cbn [app peek_kind toks kind]. unfold parse_parenthesis. take.
    pose proof (Hp n d np rest Hf (Hno eq_refl)) as Hr. cbn [app] in Hr.
    erewrite bind_ok; cycle 1.
    { unfold try_parse_pattern_predicate. unfold p_bind at 1, p_get. unfold p_bind at 1, p_try. rewrite Hr. cbn iota beta.
      by rewrite bool_decide_false. }
    done.
  - right. intros n d np sp' rest Hf _. left. by apply not_a_node.
  - intros n d np rest Hf Hno. right. exists rest, (Expression.mkPath h (s :: tl)). split; [by apply Hp, Hno|]. auto.
Qed.

Lemma group_path k sp ts e ed sp' n d np rest : good_expr k 0 ts e ed -> fits k n d ->
  fails d np (parse_path_pattern source (g n) (at_ (lparen sp :: ts ++ rparen sp' :: rest) d np)) \/
  node_like e = true /\ exists nd, parse_node_pattern source (g n) (at_ (lparen sp :: ts ++ rparen sp' :: rest) d np) = Some (at_ rest d np, Ok nd).
Proof.
  intros (_ & _ & [(t & x & -> & Hv & ->)|Hin] & _) Hf.
  - right. split; [done|]. cbn [app]. by eapply variable_end.
  - destruct (Hin n d np sp (rparen sp' :: rest) Hf) as [H|(sp2 & rest' & nd & [= _ ->] & Hn & H)]; [done| |right; eauto].
    left. by apply path_of_failed_node.
Qed.
Lemma rule_group k sp ts e ed sp' : good_expr k 0 ts e ed -> good_prim k (lparen sp :: ts ++ [rparen sp']) e (node_like e).
Proof.
  intros H. pose proof H as (Hst & Hr & _). split; [by eexists _, _|]. split; [|split].
  - intros n d np rest Hf (Hno & _ & _). flat. unfold parse_primary. cbn [peek_kind toks kind]. unfold parse_parenthesis. take.
    assert (Htry : try_parse_pattern_predicate source (g n) sp (at_ (lparen sp :: ts ++ rparen sp' :: rest) d np)
      = Some (at_ (lparen sp :: ts ++ rparen sp' :: rest) d np, Ok None)).
    { unfold try_parse_pattern_predicate. unfold p_bind at 1, p_get. unfold p_bind at 1, p_try.
      destruct (group_path k sp ts e ed sp' n d np rest H Hf) as [(ts' & e' & ->)|[Hl [nd Hnd]]]; [done|].
      by rewrite (path_of_lone_node _ _ _ _ _ _ Hnd (Hno Hl)). }
    rewrite (bind_ok _ _ _ _ _ Htry). cbn iota beta. take.
    assert (He : parse_expression (g n) (at_ (ts ++ rparen sp' :: rest) d 0) = Some (at_ (rparen sp' :: rest) d 0, Ok e)).
    { apply (soft_reads _ _ _ _ H); done. }
    erewrite bind_ok; cycle 1.
    { unfold parse_in_parens. cbn [toks depth no_label_pipe]. by rewrite He. }
    cbn iota beta. by take.
  - right. intros n d np sp2 rest Hf _. left. by apply not_a_node.
  - intros n d np rest Hf Hno. flat.
    destruct (group_path k sp ts e ed sp' n d np rest H Hf) as [Hp|[Hl [nd Hnd]]]; [by left|right].
    rewrite (path_of_lone_node _ _ _ _ _ _ Hnd (Hno Hl)). by eexists _, _; auto.
Qed.

(** ** Primaries with what is behind them *)
Lemma soft_outside k : soft k = true -> goes_on k = false.
Proof. unfold soft. rewrite !andb_true_iff, !negb_true_iff. tauto. Qed.

Lemma rule_post_prim k ts e pat : good_prim k ts e pat -> good_post k ts e pat.
Proof.
  intros (Hs & Hr & Hi & Hp). split; [done|]. split; [|done]. intros n d np rest r Hf Hb Hl. unfold parse_prefix.
  by rewrite (bind_ok _ _ _ _ _ (Hr n d np rest Hf Hb)).
Qed.

(** Something behind a primary that makes another of it. *)
Lemma behind_post k ts e pat more e' : good_post k ts e pat ->
  (forall rest, begins TokenKind.RParen (more ++ rest) = false /\ begins TokenKind.Colon (more ++ rest) = false /\
    no_relationship (more ++ rest) /\ begins TokenKind.Where (more ++ rest) || begins TokenKind.Pipe (more ++ rest) = false) ->
  (forall n d np rest, fits k n d -> behind_prim e' false np rest ->
    parse_postfix source (g n) e (at_ (more ++ rest) d np) = Some (at_ rest d np, Ok (inl e'))) ->
  (forall rest, callfree rest -> callfree (more ++ rest)) -> (forall rest, no_count e (more ++ rest)) -> more <> [] ->
  (variable_alone ts e -> forall n d np sp rest, fits k n d -> inside_ok n d np sp (ts ++ more) rest e') ->
  good_post k (ts ++ more) e' false.
Proof.
  intros (Hs & Hr & Hi & Hp) Hmore Hread Hcall Hcount Hne Hvar. split; [|split; [|split]].
  - destruct Hs as (t & ts' & -> & Hs). by eexists _, _.
  - intros n d np rest r Hf Hb Hl. rewrite <- app_assoc. apply Hr; [done| |].
    + split; [intros _; apply Hmore|]. split; [apply Hcall, Hb|apply Hcount].
    + eapply (loop_next _ _ e' _ (at_ rest d np)); [by apply Hread| |done].
      destruct more; [done|]. shrinks.
  - right. intros n d np sp rest Hf _. destruct Hi as [Hi|Hi]; [by apply Hvar|].
    destruct (Hi n d np sp (more ++ rest) Hf Logic.I) as [H|(sp' & rest' & nd & E & _)].
    + left. by rewrite <- app_assoc.
    + destruct (Hmore rest) as [H _]. rewrite E in H. done.
  - intros n d np rest Hf _. rewrite <- app_assoc. destruct (Hmore rest) as (_ & _ & Hno & Hw).
    destruct (Hp n d np (more ++ rest) Hf (fun _ => Hno)) as [H|(ts' & p & H & Hq)]; [by left|right].
    exists ts', p. split; [done|]. destruct Hq as [Hq|[Hq|[_ ->]]]; auto.
Qed.

Lemma variable_alone_fails ts e more : variable_alone ts e ->
  (forall rest, begins TokenKind.RParen (more ++ rest) = false /\ begins TokenKind.Colon (more ++ rest) = false) ->
  (forall rest, begins TokenKind.LBrace (more ++ rest) = false) ->
  forall e' n d np sp rest, inside_ok n d np sp (ts ++ more) rest e'.
Proof.
  intros (t & x & -> & Hv & _) Hm Hb e' n d np sp rest. left. cbn [app]. destruct (Hm rest). by eapply variable_then.
Qed.

Lemma rule_post_property k ts e pat sp t x : good_post k ts e pat -> name source t x ->
  good_post k (ts ++ [mkToken TokenKind.Dot sp; t]) (Expression.Property e x (span t)) false.
Proof.
  intros H Hn. eapply behind_post; [exact H|done| | |by intros ? ? ?|done|].
  - intros n d np rest _ _. cbn [app]. unfold parse_postfix. look. take.
    by rewrite (bind_ok _ _ _ _ _ (name_consumed source _ _ _ _ _ Hn)).
  - intros rest Hc. by eapply callfree_property.
  - intros Hv n d np sp' rest _. by apply (variable_alone_fails _ _ _ Hv).
Qed.

Lemma subscript_post k ts e pat sp ts' e' : good_post k ts e pat ->
  (forall n d np rest, fits k n d -> parse_subscript (g n) e (at_ (lbracket sp :: ts' ++ rest) d np) = Some (at_ rest d np, Ok e')) ->
  good_post k (ts ++ lbracket sp :: ts') e' false.
Proof.
  intros H Hr. eapply behind_post; [exact H|done| | |by intros ? ? ?|done|].
  - intros n d np rest Hf _. unfold parse_postfix. cbn [app]. look. by rewrite (bind_ok _ _ _ _ _ (Hr n d np rest Hf)).
  - intros rest _. by apply callfree_plain.
  - intros Hv n d np sp' rest _. by apply (variable_alone_fails _ _ _ Hv).
Qed.
Lemma rule_post_index k ts e pat sp its i edi sp' : good_post k ts e pat -> good_expr k 0 its i edi ->
  good_post k (ts ++ lbracket sp :: its ++ [rbracket sp']) (Expression.Index e i sp) false.
Proof.
  intros H Hi. eapply subscript_post; [exact H|]. intros n d np rest Hf. flat. unfold parse_subscript. take. take.
  rewrite if_eq, check_begins, (starts_begins _ _ _ (proj1 Hi)) by done. expr_by Hi. look. by take.
Qed.
Lemma rule_post_slice k ts e pat sp fts from sp1 tts to sp' : good_post k ts e pat -> good_maybe k fts from -> good_maybe k tts to ->
  good_post k (ts ++ lbracket sp :: fts ++ mkToken TokenKind.DotDot sp1 :: tts ++ [rbracket sp']) (Expression.Slice e from to sp) false.
Proof.
  intros H Hfrom Hto. eapply subscript_post; [exact H|]. intros n d np rest Hf. flat.
  assert (Hend : forall f, slice_to (g n) e f sp (at_ (mkToken TokenKind.DotDot sp1 :: tts ++ rbracket sp' :: rest) d np)
    = Some (at_ rest d np, Ok (Expression.Slice e f to sp))).
  { intros f. unfold slice_to. take. erewrite bind_ok; cycle 1.
    { instantiate (1 := to). instantiate (1 := at_ (rbracket sp' :: rest) d np). rewrite if_eq, check_begins.
      destruct Hto as [[-> ->]|(x & -> & Hst & Hr)]; [done|]. rewrite (starts_begins _ _ _ Hst) by done.
      by erewrite bind_ok by (by apply Hr). }
    cbn iota beta. by take. }
  unfold parse_subscript. take. take. rewrite if_eq, check_begins.
  destruct Hfrom as [[-> ->]|(x & -> & Hst & Hr)]; [apply Hend|]. rewrite (starts_begins _ _ _ Hst) by done.
  erewrite bind_ok by (by apply Hr). cbn iota beta. look. apply Hend.
Qed.

Lemma rule_post_projection k ts e pat sp sts ss sp' : good_post k ts e pat ->
  (forall n nsp, e = Expression.Var n nsp -> eq_ignore_ascii_case n "count" = false) -> good_selectors k sts ss ->
  good_post k (ts ++ lbrace sp :: sts ++ [rbrace sp']) (Expression.MapProjection e ss sp) false.
Proof.
  intros H Hc [Hs Hm]. eapply behind_post; [exact H|done| | | |done|].
  - intros n d np rest Hf _. unfold parse_postfix. flat. look. unfold parse_map_projection.
    erewrite bind_ok; [done|]. take. take. erewrite bind_ok by (by apply Hs). cbn iota beta. by take.
  - intros rest _. by apply callfree_plain.
  - intros rest x xsp -> E. by rewrite (Hc x xsp) in E.
  - intros (t & x & -> & Hv & ->) n d np sp2 rest Hf. unfold inside_ok. flat. rewrite node_pattern_eq.
    rewrite (bind_ok _ _ _ _ _ (variable_step _ _ _ _ _ Hv)).
    rewrite (bind_ok _ _ _ _ _ (no_labels_step (lbrace sp :: _) d np eq_refl)).
    destruct (after_map n (Some x) ([], None) sp2 _ (lbrace sp :: sts ++ rbrace sp' :: rest) rest d np eq_refl eq_refl) as [Hfail|(sp3 & rest' & nd & -> & Hr)];
      [by apply Hm|by left|right]. eexists _, _, _. split; [done|]. split; [done|]. exact Hr.
Qed.

(** ** Operands and operators *)
Lemma goes_on_no rest k : goes_on (next rest) = false -> goes_on k = true -> begins k rest = false.
Proof.
  intros H Hk. unfold begins, same_kind. apply N.eqb_neq. intros E. destruct k; try discriminate Hk; destruct (next rest); done.
Qed.
Lemma follows_no_relationship np ed rest : follows np ed (next rest) -> patterned ed = true -> no_relationship rest.
Proof.
  intros [Hg Ho _] Hp. split; [|by apply goes_on_no]. unfold begins, same_kind. apply N.eqb_neq. intros E.
  assert (Hm : next rest = TokenKind.Minus) by (destruct (next rest); done). rewrite Hm in Ho.
  destruct (Ho _ _ _ eq_refl) as [_ H]. by apply H.
Qed.
Lemma follows_prim np ed e rest : follows np ed (next rest) -> behind_prim e (patterned ed) np rest.
Proof.
  intros H. pose proof (fol_ends _ _ _ H) as Hg. split; [intros Hp; by eapply follows_no_relationship|]. split.
  - by apply callfree_plain; apply goes_on_no.
  - intros x sp _ _. by apply goes_on_no.
Qed.
Lemma postfix_stops n e rest d np : goes_on (next rest) = false \/ begins TokenKind.Colon rest = true ->
  loop (parse_postfix source (g n)) e (at_ rest d np) = Some (at_ rest d np, Ok e).
Proof.
  intros H. apply loop_done. unfold parse_postfix. rewrite !if_eq, !check_begins.
  assert (Hk : begins TokenKind.Dot rest = false /\ begins TokenKind.LBracket rest = false /\ begins TokenKind.LBrace rest = false).
  { destruct H as [H|H]; [by split_and!; apply goes_on_no|]. unfold begins, same_kind in H. apply N.eqb_eq in H. unfold begins.
    by destruct (next rest). }
  destruct Hk as (-> & -> & ->). done.
Qed.
Lemma no_labels e rest d np : begins TokenKind.Colon rest = false -> parse_has_labels source e (at_ rest d np) = Some (at_ rest d np, Ok e).
Proof. intros H. unfold parse_has_labels. by rewrite if_eq, check_begins, H. Qed.
(** The loop over operators, from what [parse_prefix] read. *)
Lemma inner_from_prefix n m e ts rest d np r : parse_prefix source (g n) (at_ ts d np) = Some (at_ rest d np, Ok e) ->
  begins TokenKind.Colon rest = false -> loop (infix_step (g n) m) e (at_ rest d np) = Some r ->
  parse_expression_bp_inner source (g n) m (at_ ts d np) = Some r.
Proof.
  intros H Hc Hl. unfold parse_expression_bp_inner. rewrite (bind_ok _ _ _ _ _ H). by rewrite (bind_ok _ _ _ _ _ (no_labels _ _ _ _ Hc)).
Qed.

Lemma rule_bin_post k m ts e pat : good_post k ts e pat -> good_bin k m ts e (mkEdge 255 false pat).
Proof.
  intros (Hs & Hr & Hi & Hp). split; [done|]. split; [|split].
  - intros n d np rest r Hf Hfol Hl. pose proof (fol_ends _ _ _ Hfol) as Hg. eapply inner_from_prefix; [|by apply goes_on_no|done].
    apply Hr; [done|by apply (follows_prim _ _ _ _ Hfol)|]. by apply postfix_stops; left.
  - destruct Hi as [Hi|Hi]; [by left|right]. intros n d np sp rest Hf _. by apply Hi.
  - intros n d np rest Hf Hfol. apply Hp; [done|]. intros Hpat. by eapply follows_no_relationship.
Qed.

Lemma rule_bin_labels k m ts e pat t lts l : good_post k ts e pat -> label_expression source k false (t :: lts) l ->
  good_bin k m (ts ++ t :: lts) (Expression.HasLabels e l (span t)) (mkEdge 255 true false).
Proof.
  intros (Hs & Hr & Hi & Hp) Hl. assert (Ht : kind t = TokenKind.Colon) by (by inversion Hl).
  assert (Hcolon : forall r, begins TokenKind.Colon (t :: r) = true) by (intros r; unfold begins; cbn [next]; by rewrite Ht).
  assert (Hnot : forall k r, same_kind TokenKind.Colon k = false -> begins k (t :: r) = false).
  { intros k' r H. unfold begins. cbn [next]. by rewrite Ht. }
  assert (Hread : forall pipe_ok d np rest n, fits k n d -> after_labels pipe_ok (next rest) ->
    parse_label_expression source pipe_ok (at_ ((t :: lts) ++ rest) d np) = Some (at_ rest d np, Ok l)).
  { intros pipe_ok d np rest n [_ Hd] Ha. by apply (label_expression_reads source k false). }
  split; [destruct Hs as (t0 & ts' & -> & Hs); by eexists _, _|]. split; [|split].
  - intros n d np rest r Hf Hfol Hloop. rewrite <- app_assoc. unfold parse_expression_bp_inner.
    erewrite bind_ok; cycle 1.
    { apply Hr; [done| |apply postfix_stops; right; apply Hcolon].
      split; [intros _; split; by apply Hnot|]. split; [by apply callfree_plain; apply Hnot|]. intros ? ? _ _. by apply Hnot. }
    cbn iota beta. erewrite bind_ok; [exact Hloop|]. unfold parse_has_labels. rewrite if_eq, check_begins. cbn [app]. rewrite Hcolon.
    take. erewrite bind_ok; [done|]. cbn [no_label_pipe]. apply (Hread _ d np rest n); [done|].
    destruct Hfol as [Hg _ Hpipe]. split; [by apply goes_on_no|]. split; [by apply goes_on_no|].
    destruct (N.eqb_spec np 0); [|done]. cbn [andb]. destruct (same_kind _ _) eqn:E; [|done]. by destruct (Hpipe eq_refl eq_refl).
  - right. intros n d np sp rest Hf [Hg Hpipe]. unfold inside_ok. rewrite <- app_assoc.
    destruct Hi as [(t0 & x & -> & Hv & ->)|Hi].
    + cbn [app]. rewrite node_pattern_eq. rewrite (bind_ok _ _ _ _ _ (variable_step _ _ _ _ _ Hv)).
      assert (Hstep : exists ls, labels_step (at_ (t :: lts ++ rest) d np) = Some (at_ rest d np, Ok ls)).
      { unfold labels_step. rewrite if_eq, check_begins, Hcolon. pose proof (Hread true d np rest n Hf) as Hx. cbn [app] in Hx.
        rewrite (bind_ok _ _ _ _ _ (Hx (conj (goes_on_no rest TokenKind.Ampersand Hg eq_refl) (conj (goes_on_no rest TokenKind.Colon Hg eq_refl) Hpipe)))). by eexists. }
      destruct Hstep as [ls Hstep]. rewrite (bind_ok _ _ _ _ _ Hstep).
      rewrite (bind_ok _ _ _ _ _ (props_none_step n rest d np (goes_on_no rest TokenKind.LBrace Hg eq_refl))).
      destruct (begins TokenKind.RParen rest) eqn:E; [right|left; by apply node_end_fails].
      destruct rest as [|[kd sp'] rest]; [done|]. unfold begins, same_kind in E. cbn [next kind] in E. apply N.eqb_eq in E.
      assert (kd = TokenKind.RParen) as -> by (by destruct kd). eexists _, _, _. split; [done|]. split; [done|]. apply node_end_reads.
    + destruct (Hi n d np sp ((t :: lts) ++ rest) Hf Logic.I) as [H|(sp' & rest' & nd & E & _)]; [by left|].
      cbn [app] in E. injection E as -> _. done.
  - intros n d np rest Hf _. rewrite <- app_assoc. cbn [app].
    destruct (Hp n d np (t :: lts ++ rest) Hf) as [H|(ts' & p & H & Hq)]; [intros _; split; by apply Hnot|by left|right].
    exists ts', p. split; [done|]. destruct Hq as [Hq|[Hq|[_ ->]]]; [by left|by right; left|].
    right. left. by rewrite !Hnot.
Qed.

Lemma follows_under np n ed k : follows np (under n ed) k -> follows np ed k /\ stops n k.
Proof.
  intros [Hg Ho Hp]. split; [split; [done| |done]|]; intros op lbp rbp H; destruct (Ho op lbp rbp H) as [H1 H2]; cbn in H1, H2.
  - split; [lia|done].
  - lia.
Qed.
Lemma infix_no kd op lbp rbp : infix_of kd = Some (op, lbp, rbp) ->
  goes_on kd = false /\ same_kind kd TokenKind.Pipe = false /\ same_kind kd TokenKind.RParen = false /\ same_kind kd TokenKind.Where = false /\
  same_kind kd TokenKind.Eof = false.
Proof. by destruct kd. Qed.

Lemma rule_bin_prefix k m kd sp op n ts e ed : prefix_of kd = Some (op, n) -> good_expr k n ts e ed ->
  good_bin k m (mkToken kd sp :: ts) (Expression.Unary op e sp) (under n ed).
Proof.
  intros Hop (Hs & Hr & _). assert (Hkd : starter kd = true /\ same_kind kd TokenKind.LParen = false) by (by destruct kd).
  destruct Hkd as [Hkd Hkp]. split; [by eexists _, _|]. split; [|split].
  - intros f d np rest r Hf Hfol Hl. destruct (follows_under _ _ _ _ Hfol) as [Hfol' Hstop].
    pose proof (fol_ends _ _ _ Hfol) as Hg. eapply inner_from_prefix; [|by apply goes_on_no|done]. unfold parse_prefix.
    erewrite bind_ok; [by apply postfix_stops; left|]. cbn [app].
    assert (He : prefix_operator (g f) op n (at_ (mkToken kd sp :: ts ++ rest) d np) = Some (at_ rest d np, Ok (Expression.Unary op e sp))).
    { unfold prefix_operator. take. unfold p_bind at 1, p_consume. rewrite consume_next by (by destruct kd). cbn iota beta.
      by erewrite bind_ok by (by apply Hr). }
    unfold parse_primary. cbn [peek_kind toks kind]. destruct kd; try discriminate Hop; injection Hop as <- <-; exact He.
  - right. intros f d np sp' rest _ _. left. apply not_a_node; [exact Hkd|by destruct kd|by destruct kd].
  - intros f d np rest _ _. left. apply no_paren_fails. exact Hkp.
Qed.

(** An operator behind an operand. *)
Lemma behind_bin k m ts e ed kd sp op lbp rbp more e' ed' : good_bin k m ts e ed -> infix_of kd = Some (op, lbp, rbp) ->
  (m <= lbp)%N -> outside ed kd lbp ->
  (forall n d np rest, fits k n d -> follows np ed' (next rest) ->
    parse_infix (g n) op rbp e (at_ (mkToken kd sp :: more ++ rest) d np) = Some (at_ rest d np, Ok e')) ->
  good_bin k m (ts ++ mkToken kd sp :: more) e' ed'.
Proof.
  intros (Hs & Hr & Hi & Hp) Hkd Hm Ho Hread. destruct (infix_no _ _ _ _ Hkd) as (Hg & Hpipe & Hrp & Hw & He).
  assert (Hfol : forall np, follows np ed kd).
  { intros np. split; [done| |congruence]. intros op' lbp' rbp' E. rewrite Hkd in E. by injection E as <- <- <-. }
  split; [destruct Hs as (t0 & ts' & -> & Hs); by eexists _, _|]. split; [|split].
  - intros n d np rest r Hf Hfr Hl. rewrite <- app_assoc. apply Hr; [done|apply Hfol|]. cbn [app].
    eapply (loop_next _ _ e' _ (at_ rest d np)); [|shrinks|done]. unfold infix_step. rewrite infix_next. cbn [next kind].
    rewrite Hkd, (proj2 (N.ltb_ge _ _)) by done. by rewrite (bind_ok _ _ _ _ _ (Hread n d np rest Hf Hfr)).
  - right. intros n d np sp' rest Hf _. unfold inside_ok. rewrite <- app_assoc. cbn [app]. left.
    destruct Hi as [(t0 & x & -> & Hv & ->)|Hi].
    + cbn [app]. eapply variable_then; [done|unfold begins; cbn [next kind]; by destruct kd..].
    + destruct (Hi n d np sp' (mkToken kd sp :: more ++ rest) Hf) as [H|(sp2 & rest' & nd & [= -> _] & _)]; [by split|done|done].
  - intros n d np rest Hf _. rewrite <- app_assoc. cbn [app].
    destruct (Hp n d np (mkToken kd sp :: more ++ rest) Hf (Hfol np)) as [H|(ts' & p & H & Hq)]; [by left|right].
    exists ts', p. split; [done|]. destruct Hq as [Hq|[Hq|[_ ->]]]; [by left|by right; left|]. right. left.
    unfold begins. cbn [next kind]. by rewrite Hw, Hpipe.
Qed.

Lemma rule_bin_binary k m ts e ed kd sp op lbp rbp wts ts' e' ed' : good_bin k m ts e ed ->
  infix_of kd = Some (InfixBinary op, lbp, rbp) -> (m <= lbp)%N -> outside ed kd lbp -> with_word op wts ->
  good_expr k rbp ts' e' ed' ->
  good_bin k m (ts ++ mkToken kd sp :: wts ++ ts') (Expression.Binary op e e' sp) (under rbp ed').
Proof.
  intros H Hkd Hm Ho Hw (_ & Hr & _). eapply behind_bin; [done..|]. intros n d np rest Hf Hfol.
  destruct (follows_under _ _ _ _ Hfol) as [Hfol' Hstop]. destruct (infix_no _ _ _ _ Hkd) as (_ & _ & _ & _ & He).
  rewrite <- app_assoc. unfold parse_infix. take.
  erewrite bind_ok; cycle 1.
  { instantiate (1 := tt). instantiate (1 := at_ (ts' ++ rest) d np). destruct Hw as [op wsp Hop|op Hs He'].
    - rewrite bool_decide_true by done. unfold p_bind at 1, p_consume. rewrite consume_next by done. cbn iota beta.
      by apply eat_next.
    - rewrite bool_decide_false by (by intros [?|?]). unfold p_consume. by rewrite consume_next. }
  cbn iota beta. by erewrite bind_ok by (by apply Hr).
Qed.
Lemma rule_bin_is_null k m ts e ed sp nts neg sp' lbp rbp : good_bin k m ts e ed ->
  infix_of TokenKind.Is = Some (IsNullPrefix, lbp, rbp) -> (m <= lbp)%N -> outside ed TokenKind.Is lbp ->
  optional_token TokenKind.Not nts neg ->
  good_bin k m (ts ++ mkToken TokenKind.Is sp :: nts ++ [mkToken TokenKind.Null sp']) (Expression.IsNull e neg sp) closed.
Proof.
  intros H Hkd Hm Ho Hn. eapply behind_bin; [done..|]. intros n d np rest Hf _. rewrite <- app_assoc. unfold parse_infix. take. take.
  erewrite bind_ok by (eapply match_kind_reads; [done..|]; by intros ->). cbn [app]. cbn iota beta. by take.
Qed.
Lemma rule_bin_in k m ts e ed sp lbp rbp ts' l ed' : good_bin k m ts e ed ->
  infix_of TokenKind.In = Some (InPrefix, lbp, rbp) -> (m <= lbp)%N -> outside ed TokenKind.In lbp -> good_expr k rbp ts' l ed' ->
  good_bin k m (ts ++ mkToken TokenKind.In sp :: ts') (Expression.In e l sp) (under rbp ed').
Proof.
  intros H Hkd Hm Ho (_ & Hr & _). eapply behind_bin; [done..|]. intros n d np rest Hf Hfol.
  destruct (follows_under _ _ _ _ Hfol) as [Hfol' Hstop]. unfold parse_infix. take. take. by erewrite bind_ok by (by apply Hr).
Qed.

Lemma rule_expr k m ts e ed : good_bin k m ts e ed -> good_expr (S k) m ts e ed.
Proof.
  intros (Hs & Hr & Hi & Hp). assert (Hfit : forall n d, fits (S k) n d -> fits k n d) by (unfold fits; lia).
  split; [done|]. split; [|split].
  - intros n d np rest [Hn Hd] [Hfol Hstop]. destruct n as [|n]; [lia|]. cbn [parse_expression_bp_fuel]. apply nested_reads; [lia|].
    apply Hr; [split; lia|done|]. apply loop_done. unfold infix_step. rewrite infix_next.
    destruct (infix_of (next rest)) as [[[op lbp] rbp]|] eqn:E; [|done]. by rewrite (proj2 (N.ltb_lt _ _)) by (by eapply Hstop).
  - destruct Hi as [Hi|Hi]; [by left|right]. intros n d np sp rest Hf. by apply Hi, Hfit.
  - intros n d np rest Hf. by apply Hp, Hfit.
Qed.

(** ** Arms and selectors *)
Lemma rule_arms_end k : good_arms k [] [].
Proof.
  split; [by left|]. intros n d np rest acc _ _ Hw. rewrite app_nil_r. apply loop_done. cbn [app].
  by rewrite if_eq, check_begins, Hw.
Qed.
Lemma rule_arms_more k sp ts c ed sp' ts' v ed' ats es : good_expr k 0 ts c ed -> good_expr k 0 ts' v ed' -> good_arms k ats es ->
  good_arms k (mkToken TokenKind.When sp :: ts ++ mkToken TokenKind.Then sp' :: ts' ++ ats) ((c, v) :: es).
Proof.
  intros H1 H2 [Hs H]. split; [right; by eexists _, _|]. intros n d np rest acc Hf Hsoft Hw. flat.
  assert (Ha : soft (next (ats ++ rest)) = true) by (by destruct Hs as [[-> _]|(sp3 & ts3 & ->)]).
  eapply (loop_next _ _ (acc ++ [(c, v)]) _ (at_ (ats ++ rest) d np)); [|shrinks|].
  - look. take. expr_by H1. take. by expr_by H2.
  - rewrite H by done. by rewrite <- app_assoc.
Qed.

Lemma between_soft rest : between rest -> soft (next rest) = true.
Proof. unfold between, begins, same_kind. intros H. apply orb_true_iff in H as [H|H]; apply N.eqb_eq in H; by destruct (next rest). Qed.
Lemma between_no rest k : between rest -> same_kind TokenKind.Comma k = false -> same_kind TokenKind.RBrace k = false -> begins k rest = false.
Proof.
  unfold between, begins. intros H H1 H2. apply orb_true_iff in H as [H|H]; unfold same_kind in *; apply N.eqb_eq in H; by rewrite H.
Qed.

(** What every selector does: as a selector by [Hs], as an entry by [He]. *)
Lemma rule_selector_property k sp t n : name source t n -> good_selector k [mkToken TokenKind.Dot sp; t] (Expression.SelProperty n).
Proof.
  intros Hn. split; [done|]. split; intros m d np rest Hf Hb.
  - cbn [app]. unfold parse_map_projection_selector. look. take. rewrite if_eq, check_begins.
    replace (begins TokenKind.Star (t :: rest)) with false by (symmetry; by apply (name_is_not source _ _ TokenKind.Star Hn)).
    by name_by Hn.
  - left. unfold parse_map_entry. apply fails_bind. destruct (name_err source (mkToken TokenKind.Dot sp :: t :: rest) d np eq_refl) as [e He]; [done|].
    by eexists _, e.
Qed.
Lemma rule_selector_all k sp sp' : good_selector k [mkToken TokenKind.Dot sp; mkToken TokenKind.Star sp'] Expression.SelAllProperties.
Proof.
  split; [done|]. split; intros m d np rest Hf Hb.
  - cbn [app]. unfold parse_map_projection_selector. look. take. look. by take.
  - left. unfold parse_map_entry. apply fails_bind.
    destruct (name_err source (mkToken TokenKind.Dot sp :: mkToken TokenKind.Star sp' :: rest) d np eq_refl) as [e He]; [done|]. by eexists _, e.
Qed.
Lemma selector_name k t n ts s : name source t n ->
  (forall m d np rest, fits k m d -> between rest ->
    p_if (check TokenKind.Colon) (run p_consume in do v := parse_expression (g m) in p_ret (Expression.SelLiteral n v))
      (p_ret (Expression.SelVariable n)) (at_ (ts ++ rest) d np) = Some (at_ rest d np, Ok s)) ->
  reads k (fun m => parse_map_projection_selector source (g m)) (t :: ts) s (fun _ => between).
Proof.
  intros Hn H m d np rest Hf Hb. unfold parse_map_projection_selector. cbn [app]. rewrite if_eq, check_begins.
  replace (begins TokenKind.Dot (t :: ts ++ rest)) with false by (symmetry; by apply (name_is_not source _ _ TokenKind.Dot Hn)).
  name_by Hn. by apply H.
Qed.
Lemma rule_selector_literal k t n sp ts e ed : name source t n -> good_expr k 0 ts e ed ->
  good_selector k (t :: mkToken TokenKind.Colon sp :: ts) (Expression.SelLiteral n e).
Proof.
  intros Hn H. destruct (rule_entry k t n sp ts e ed Hn H) as [Hb He]. split; [exact Hb|]. split.
  - apply (selector_name k t n _ _ Hn). intros m d np rest Hf Hr. cbn [app]. look. take.
    by erewrite bind_ok by (apply (soft_reads _ _ _ _ H); [done|by apply between_soft]).
  - intros m d np rest Hf Hr. right. exists (n, e). apply He; [done|]. by apply between_soft.
Qed.
Lemma rule_selector_variable k t n : name source t n -> good_selector k [t] (Expression.SelVariable n).
Proof.
  intros Hn. split; [intros rest; by apply (name_is_not source _ _ TokenKind.RBrace Hn)|]. split.
  - apply (selector_name k t n _ _ Hn). intros m d np rest Hf Hr. cbn [app]. rewrite if_eq, check_begins.
    by rewrite (between_no _ TokenKind.Colon Hr).
  - intros m d np rest Hf Hr. left. unfold parse_map_entry. cbn [app].
    rewrite (bind_ok _ _ _ _ _ (any_name_reads source _ _ _ _ _ Hn)). apply fails_bind.
    destruct (eat_err TokenKind.Colon "`:` between map key and value" rest d np (between_no _ TokenKind.Colon Hr eq_refl eq_refl)) as [e He].
    by eexists _, e.
Qed.
Lemma rule_more_selectors_end k : good_more_selectors k [] [].
Proof.
  assert (Hc : forall rest, begins TokenKind.RBrace rest = true -> begins TokenKind.Comma rest = false).
  { intros rest. unfold begins, same_kind. intros H%N.eqb_eq. by rewrite H. }
  split; [intros rest H; unfold between; cbn [app]; by rewrite H, orb_true_r|]. split.
  - intros n d np rest acc _ H. rewrite app_nil_r. apply no_more. by apply Hc.
  - intros n d np rest acc _ H. right. exists acc. apply no_more. by apply Hc.
Qed.
Lemma rule_more_selectors_more k sp ts s ts' ss : good_selector k ts s -> good_more_selectors k ts' ss ->
  good_more_selectors k (mkToken TokenKind.Comma sp :: ts ++ ts') (s :: ss).
Proof.
  intros (_ & Hs & He) (Hb & Hm & Hme). split; [done|]. split.
  - intros n d np rest acc Hf H. flat. eapply read_more; [by apply Hs; [|apply Hb]|]. cbn beta. rewrite Hm by done. by rewrite <- app_assoc.
  - intros n d np rest acc Hf H. flat. destruct (He n d np (ts' ++ rest) Hf (Hb _ H)) as [(ts2 & e & Hfail)|[kv Hkv]].
    + left. eexists ts2, e. unfold loop. cbn [loop_fuel]. rewrite if_eq. cbn [check peek_kind toks kind]. decide_kind. cbn iota.
      unfold p_bind at 1, p_consume. rewrite consume_next by done. cbn iota beta. by rewrite (bind_err _ _ _ _ _ Hfail).
    + destruct (Hme n d np rest (acc ++ [kv]) Hf H) as [(ts2 & e & Hfail)|[es Hes]]; [left; exists ts2, e|right; exists es]; by eapply read_more.
Qed.
Lemma rule_selectors_none k : good_selectors k [] [].
Proof.
  split; intros n d np sp.
  - intros rest _. unfold items_until. by look.
  - intros sp' rest Hf. right. exists (Expression.mkMap [] sp). by apply (rule_map_empty k sp sp').
Qed.
Lemma rule_selectors_some k ts s ts' ss : good_selector k ts s -> good_more_selectors k ts' ss -> good_selectors k (ts ++ ts') (s :: ss).
Proof.
  intros (Hbr & Hs & He) (Hb & Hm & Hme). split.
  - intros n d np sp rest Hf. unfold items_until. flat. rewrite if_eq, check_begins, Hbr. unfold comma_list.
    erewrite bind_ok by (by apply Hs; [|apply Hb]). unfold items_after. by rewrite Hm.
  - intros n d np sp sp' rest Hf. flat. unfold parse_map_literal.
    assert (Hitems : let r := items_until TokenKind.RBrace (parse_map_entry source (g n)) (at_ (ts ++ ts' ++ rbrace sp' :: rest) d np) in
      fails d np r \/ exists es, r = Some (at_ (rbrace sp' :: rest) d np, Ok es)).
    { unfold items_until. rewrite if_eq, check_begins, Hbr. unfold comma_list.
      destruct (He n d np (ts' ++ rbrace sp' :: rest) Hf (Hb (rbrace sp' :: rest) eq_refl)) as [Hfail|[kv Hkv]]; [left; by apply fails_bind|].
      rewrite (bind_ok _ _ _ _ _ Hkv). unfold items_after. by apply Hme. }
    destruct Hitems as [Hfail|[es Hes]]; [left|right].
    + takef. takef. by apply fails_bind.
    + exists (Expression.mkMap es sp). take. take. rewrite (bind_ok _ _ _ _ _ Hes). by take.
Qed.

(** ** Patterns *)
Lemma rule_props_none k : good_props k [] None.
Proof. split; [by left|]. intros n d np rest _ H. by apply (props_none_step n). Qed.
Lemma rule_props_some k ts m : good_map k ts m -> good_props k ts (Some m).
Proof.
  intros [(sp & ts' & ->) H]. split; [right; by eexists _, _|]. intros n d np rest Hf _. cbn [app]. look.
  pose proof (H n d np rest Hf Logic.I) as Hr. cbn [app] in Hr. by rewrite (bind_ok _ _ _ _ _ Hr).
Qed.
(** What is left of a pattern in its brackets begins with none of these. *)
Lemma props_next k ts m rest : good_props k ts m -> next (ts ++ rest) = next rest \/ next (ts ++ rest) = TokenKind.LBrace.
Proof. intros [[-> |(sp & ts' & ->)] _]; [by left|by right]. Qed.
Lemma at_variable_not ts d np : names_a_variable (next ts) = false -> discriminant (next ts) <> 6%N -> at_variable (at_ ts d np) = false.
Proof.
  unfold at_variable. change (peek_kind (at_ ts d np)) with (next ts). intros H Hi. destruct (next ts); try done.
Qed.

Lemma rule_node k sp vts v lts ns le mts m sp' : optional_variable source vts v -> node_labels source k lts ns le -> good_props k mts m ->
  good_node k (lparen sp :: vts ++ lts ++ mts ++ [rparen sp']) (Expression.mkNode v ns le m sp).
Proof.
  intros Hv Hl Hm. split; [by eexists _, _|]. intros n d np rest Hf _. flat. rewrite node_pattern_eq.
  assert (Hnext : next (mts ++ rparen sp' :: rest) = TokenKind.RParen \/ next (mts ++ rparen sp' :: rest) = TokenKind.LBrace).
  { destruct (props_next k mts m (rparen sp' :: rest) Hm) as [-> | ->]; auto. }
  erewrite bind_ok; cycle 1.
  { apply optional_variable_reads; [done|]. intros _. destruct Hl as [|ts e ns [sp2 ts2 e2 _]|ts e [sp2 ts2 e2 _]]; cbn [app]; [|done..].
    by apply at_variable_not; destruct Hnext as [-> | ->]. }
  cbn iota beta. erewrite bind_ok; cycle 1.
  { eapply node_labels_read; [done..|]. by destruct Hnext as [-> | ->]. }
  cbn iota beta. erewrite bind_ok by (apply Hm; [done|reflexivity]). apply node_end_reads.
Qed.

Lemma rule_relationship_bare k l lsp r rsp d : arrows l r d ->
  good_relationship k [mkToken l lsp; mkToken r rsp] (Expression.mkRelationship d None [] None None lsp).
Proof.
  intros H. split; [by destruct H|]. intros n dp np rest _ _. cbn [app]. unfold parse_relationship_pattern. take.
  destruct H; erewrite bind_ok by (look; by take); cbn iota beta; unfold relationship_detail;
    (erewrite bind_ok by (by look)); cbn iota beta; erewrite bind_ok by (look; by take); done.
Qed.
Lemma rule_relationship_detailed k l lsp r rsp d sp vts v tts tys nts len mts m sp' : arrows l r d ->
  optional_variable source vts v -> types source tts tys -> rel_length nts len -> good_props k mts m ->
  good_relationship k (mkToken l lsp :: lbracket sp :: vts ++ tts ++ nts ++ mts ++ [rbracket sp'; mkToken r rsp])
    (Expression.mkRelationship d v tys len m lsp).
Proof.
  intros H Hv Ht Hn Hm. split; [by destruct H|]. intros n dp np rest Hf _. flat.
  set (tail := mkToken r rsp :: rest).
  assert (H3 : forall k', begins k' (mts ++ rbracket sp' :: tail) = true -> same_kind TokenKind.RBracket k' = true \/ same_kind TokenKind.LBrace k' = true).
  { intros k'. unfold begins. destruct (props_next k mts m (rbracket sp' :: tail) Hm) as [-> | ->]; auto. }
  assert (Hmn : next (mts ++ rbracket sp' :: tail) = TokenKind.RBracket \/ next (mts ++ rbracket sp' :: tail) = TokenKind.LBrace).
  { destruct (props_next k mts m (rbracket sp' :: tail) Hm) as [-> | ->]; auto. }
  assert (Hnn : forall k', same_kind TokenKind.RBracket k' = false -> same_kind TokenKind.LBrace k' = false -> same_kind TokenKind.Star k' = false ->
    begins k' (nts ++ mts ++ rbracket sp' :: tail) = false).
  { intros k' E1 E2 E3. unfold begins. destruct Hn; cbn [app next kind]; [by destruct Hmn as [-> | ->]|done..]. }
  assert (Hdetail : relationship_detail source (g n) (at_ (lbracket sp :: vts ++ tts ++ nts ++ mts ++ rbracket sp' :: tail) dp np)
    = Some (at_ tail dp np, Ok (v, tys, len, m))).
  { unfold relationship_detail. look. take. erewrite bind_ok; cycle 1.
    { apply (optional_variable_reads source); [done|]. intros _. destruct Ht; cbn [app]; [|done].
      apply at_variable_not; destruct Hn; cbn [app next kind]; try done; by destruct Hmn as [-> | ->]. }
    cbn iota beta. erewrite bind_ok by (apply (types_read source); [done|by apply Hnn..]). cbn iota beta.
    erewrite bind_ok by (by apply rel_length_reads). cbn iota beta.
    erewrite bind_ok by (apply Hm; [done|reflexivity]). cbn iota beta. by take. }
  unfold parse_relationship_pattern. take.
  destruct H; erewrite bind_ok by (look; by take); cbn iota beta; rewrite (bind_ok _ _ _ _ _ Hdetail); cbn iota beta; unfold tail;
    erewrite bind_ok by (look; by take); done.
Qed.

Lemma rule_segments_end k : good_segments k [] [].
Proof.
  intros n d np rest acc _ [Hm Hl]. rewrite app_nil_r. apply loop_done. cbn [app]. rewrite if_eq. unfold at_relationship_start.
  by rewrite !check_begins, Hm, Hl.
Qed.
Lemma rule_segments_more k ts rl ts' nd ts'' tl : good_relationship k ts rl -> good_node k ts' nd -> good_segments k ts'' tl ->
  good_segments k (ts ++ ts' ++ ts'') (Expression.mkSegment rl nd :: tl).
Proof.
  intros [Hs Hr] [(sp & ts0 & ->) Hn] H n d np rest acc Hf Hno. flat.
  eapply (loop_next _ _ (acc ++ [Expression.mkSegment rl nd]) _ (at_ (ts'' ++ rest) d np)); [|shrinks|].
  - rewrite if_eq, Hs. erewrite bind_ok by (by apply Hr). cbn iota beta.
    pose proof (Hn n d np (ts'' ++ rest) Hf Logic.I) as Hread. cbn [app] in Hread. by rewrite (bind_ok _ _ _ _ _ Hread).
  - rewrite H by done. by rewrite <- app_assoc.
Qed.
Lemma rule_path k ts h ts' tl : good_node k ts h -> good_segments k ts' tl -> good_path k (ts ++ ts') (Expression.mkPath h tl).
Proof.
  intros [(sp & ts0 & ->) Hn] H. split; [by eexists _, _|]. intros n d np rest Hf Hno. rewrite <- app_assoc. unfold parse_path_pattern.
  erewrite bind_ok by (by apply Hn). cbn iota beta. by erewrite bind_ok by (by apply (H n d np rest [])).
Qed.

(** ** All of it *)
Create HintDb reading.
Hint Resolve rule_atom rule_variable rule_call rule_predicate rule_reduce rule_case rule_exprs_end
  rule_exprs_more rule_listed_none rule_listed_some rule_list rule_filter_none rule_filter_some rule_opt_none
  rule_opt_some rule_maybe_none rule_maybe_some rule_comprehension rule_pattern_comprehension rule_entry
  rule_entries_end rule_entries_more rule_map_empty rule_map_some rule_map rule_exists rule_count rule_pattern
  rule_group rule_post_prim rule_post_property rule_post_index rule_post_slice rule_post_projection
  rule_bin_post rule_bin_labels rule_bin_prefix rule_bin_binary rule_bin_is_null rule_bin_in rule_expr
  rule_arms_end rule_arms_more rule_selector_property rule_selector_all rule_selector_literal
  rule_selector_variable rule_more_selectors_end rule_more_selectors_more rule_selectors_none
  rule_selectors_some rule_props_none rule_props_some rule_node rule_relationship_bare
  rule_relationship_detailed rule_segments_end rule_segments_more rule_path : reading.
Lemma derivations_good :
  (forall k ts e pat, prim source k ts e pat -> good_prim k ts e pat) /\
  (forall k ts e pat, post source k ts e pat -> good_post k ts e pat) /\
  (forall k m ts e ed, bin source k m ts e ed -> good_bin k m ts e ed) /\
  (forall k m ts e ed, expr source k m ts e ed -> good_expr k m ts e ed) /\
  (forall k ts es, more_exprs source k ts es -> good_more k ts es) /\
  (forall k ts es, listed source k ts es -> good_listed k ts es) /\
  (forall k ts arms, arms_of source k ts arms -> good_arms k ts arms) /\
  (forall k kw ts oe, opt source k kw ts oe -> good_opt k kw ts oe) /\
  (forall k ts oe, filter source k ts oe -> good_filter k ts oe) /\
  (forall k ts oe, maybe source k ts oe -> good_maybe k ts oe) /\
  (forall k ts m, map_of source k ts m -> good_map k ts m) /\
  (forall k ts kv, entry source k ts kv -> good_entry k ts kv) /\
  (forall k ts es, more_entries source k ts es -> good_entries k ts es) /\
  (forall k ts ss, selectors source k ts ss -> good_selectors k ts ss) /\
  (forall k ts s, selector source k ts s -> good_selector k ts s) /\
  (forall k ts ss, more_selectors source k ts ss -> good_more_selectors k ts ss) /\
  (forall k ts m, props source k ts m -> good_props k ts m) /\
  (forall k ts nd, node source k ts nd -> good_node k ts nd) /\
  (forall k ts r, relationship source k ts r -> good_relationship k ts r) /\
  (forall k ts p, path source k ts p -> good_path k ts p) /\
  (forall k ts tl, segments_of source k ts tl -> good_segments k ts tl).
Proof.
  apply (derivation_ind source); intros; eauto with reading.
Qed.
End recognise.
