(* ===== verification/CypherQueries.v ===== *)
(** * What is written is what is read
    ([src/src/cypher/parser.rs])

    From the derivations of expressions to those of queries that match and
    return, and from the tokens to the source: a query phrase by the grammar is
    parsed to its tree.  The grammar gives no list of tokens two meanings. *)
From S2P Require Import Prelude CypherLexer CypherTokens CypherAst CypherParser CypherGrammar CypherReads CypherRecognise.
Local Open Scope list_scope.
Local Open Scope parser_scope.
Local Abbreviation at_ := mkParser.
Local Abbreviation tok := mkToken.

Section expressions.
Context {chars : Chars} (source : text).

Lemma expr_reads k m ts e ed d np rest : expr source k m ts e ed -> (N.of_nat k + d <= MAX_EXPRESSION_DEPTH)%N ->
  ends_expr m ed np rest -> parse_expression_bp source m (at_ (ts ++ rest) d np) = Some (at_ rest d np, Ok e).
Proof.
  intros H Hd He. destruct (derivations_good source) as (_ & _ & _ & Hexpr & _).
  destruct (Hexpr k m ts e ed H) as (_ & Hr & _). apply (Hr deepest d np rest); [|done].
  split; [unfold deepest, MAX_EXPRESSION_DEPTH in *; lia|done].
Qed.
Lemma path_reads k ts p d np rest : path source k ts p -> (N.of_nat k + d <= MAX_EXPRESSION_DEPTH)%N -> no_relationship rest ->
  parse_path_pattern source (parse_expression_bp source) (at_ (ts ++ rest) d np) = Some (at_ rest d np, Ok p).
Proof.
  intros H Hd He. destruct (derivations_good source) as (_ & _ & _ & _ & _ & _ & _ & _ & _ & _ & _ & _ & _ & _ & _ & _ & _ & _ & _ & Hp & _).
  destruct (Hp k ts p H) as (_ & Hr). apply (Hr deepest d np rest); [|done].
  split; [unfold deepest, MAX_EXPRESSION_DEPTH in *; lia|done].
Qed.
Lemma path_starts k ts p : path source k ts p -> exists sp ts', ts = mkToken TokenKind.LParen sp :: ts'.
Proof using chars source.
  intros H. destruct (derivations_good source) as (_ & _ & _ & _ & _ & _ & _ & _ & _ & _ & _ & _ & _ & _ & _ & _ & _ & _ & _ & Hp & _).
  apply (Hp k ts p H).
Qed.
Lemma expr_starts k m ts e ed : expr source k m ts e ed -> starts ts.
Proof using chars source. intros H. destruct (derivations_good source) as (_ & _ & _ & Hexpr & _). apply (Hexpr k m ts e ed H). Qed.

(** C17: The parser reads every expression the grammar derives: an operand of
    at least the power [m] nested no deeper than the levels left is parsed to
    the tree derived, with the spans of its tokens, whatever follows that an
    operand of that edge ends before.  So operators bind by their powers and
    to their side, prefix operators reach as far as theirs, a parenthesis is
    a group unless what is in it goes on as a pattern, and a form in brackets
    is the one its own tokens tell. *)
Theorem expression_read k m ts e ed d np rest : expr source k m ts e ed -> (N.of_nat k + d <= MAX_EXPRESSION_DEPTH)%N ->
  ends_expr m ed np rest -> parse_expression_bp source m (at_ (ts ++ rest) d np) = Some (at_ rest d np, Ok e).
Proof. apply expr_reads. Qed.

(** The grammar of expressions gives no list of tokens two meanings, for
    all its operators, brackets and patterns. *)
Theorem expression_unambiguous k k' ts e e' ed ed' : expr source k 0 ts e ed -> expr source k' 0 ts e' ed' ->
  (N.of_nat k <= MAX_EXPRESSION_DEPTH)%N -> (N.of_nat k' <= MAX_EXPRESSION_DEPTH)%N -> e = e'.
Proof using chars source.
  intros H H' Hk Hk'. assert (Hend : forall ed, ends_expr 0 ed 0 []) by (intros x; split; [by apply soft_follows|by apply soft_stops]).
  pose proof (expr_reads k 0 ts e ed 0 0 [] H ltac:(lia) (Hend ed)) as H1.
  pose proof (expr_reads k' 0 ts e' ed' 0 0 [] H' ltac:(lia) (Hend ed')) as H2. congruence.
Qed.
End expressions.

(** ** Queries that match and return *)
Section queries.
Context {chars : Chars} {laws : CharsLaws} (source : text).

(** Expressions of queries nest up to the bound. *)
Definition levels : nat := N.to_nat MAX_EXPRESSION_DEPTH.
Inductive phrase : list Token -> Expression -> Prop :=
| phrase_of ts e ed : expr source levels 0 ts e ed -> phrase ts e.

Inductive listed_by {A} (item : list Token -> A -> Prop) : list Token -> list A -> Prop :=
| listed_one ts x : item ts x -> listed_by item ts [x]
| listed_more ts x sp ts' l : item ts x -> listed_by item ts' l -> listed_by item (ts ++ tok TokenKind.Comma sp :: ts') (x :: l).
Inductive after_word (k : TokenKind) : list Token -> option Expression -> Prop :=
| word_none : after_word k [] None
| word_some sp ts e : phrase ts e -> after_word k (tok k sp :: ts) (Some e).

Inductive projection : list Token -> ProjectionItem -> Prop :=
| projection_star sp : projection [tok TokenKind.Star sp] ProjectStar
| projection_plain ts e : phrase ts e -> begins TokenKind.Star ts = false -> projection ts (ProjectExpression e None)
| projection_alias ts e sp t n : phrase ts e -> begins TokenKind.Star ts = false -> variable source t n ->
    projection (ts ++ [tok TokenKind.As sp; t]) (ProjectExpression e (Some n)).
Inductive ordering : list Token -> OrderItem -> Prop :=
| ordering_plain ts e : phrase ts e -> ordering ts (mkOrderItem e OAsc)
| ordering_asc ts e sp : phrase ts e -> ordering (ts ++ [tok TokenKind.Asc sp]) (mkOrderItem e OAsc)
| ordering_desc ts e sp : phrase ts e -> ordering (ts ++ [tok TokenKind.Desc sp]) (mkOrderItem e ODesc).
Inductive ordered : list Token -> list OrderItem -> Prop :=
| ordered_none : ordered [] []
| ordered_by sp sp' ts l : listed_by ordering ts l -> ordered (tok TokenKind.Order sp :: tok TokenKind.By sp' :: ts) l.

Inductive pattern : list Token -> NamedPattern -> Prop :=
| pattern_plain ts p : path source levels ts p -> pattern ts (mkNamedPattern None p None)
| pattern_named t n sp ts p : variable source t n -> path source levels ts p ->
    pattern (t :: tok TokenKind.Eq sp :: ts) (mkNamedPattern (Some n) p None).

Inductive clause : list Token -> Clause -> Prop :=
| clause_match sp ts ps wts w : listed_by pattern ts ps -> after_word TokenKind.Where wts w ->
    clause (tok TokenKind.Match sp :: ts ++ wts) (Clause.Match false ps w sp)
| clause_optional sp0 sp ts ps wts w : listed_by pattern ts ps -> after_word TokenKind.Where wts w ->
    clause (tok TokenKind.Optional sp0 :: tok TokenKind.Match sp :: ts ++ wts) (Clause.Match true ps w sp)
| clause_unwind sp ts e sp' t n : phrase ts e -> variable source t n ->
    clause (tok TokenKind.Unwind sp :: ts ++ [tok TokenKind.As sp'; t]) (Clause.Unwind e n sp)
| clause_with sp dts d ts items ots order sts skip lts limit wts w : optional_token TokenKind.Distinct dts d ->
    listed_by projection ts items -> ordered ots order -> after_word TokenKind.Skip sts skip -> after_word TokenKind.Limit lts limit ->
    after_word TokenKind.Where wts w ->
    clause (tok TokenKind.With sp :: dts ++ ts ++ ots ++ sts ++ lts ++ wts) (Clause.With d items order skip limit w sp)
| clause_return sp dts d ts items ots order sts skip lts limit : optional_token TokenKind.Distinct dts d ->
    listed_by projection ts items -> ordered ots order -> after_word TokenKind.Skip sts skip -> after_word TokenKind.Limit lts limit ->
    clause (tok TokenKind.Return sp :: dts ++ ts ++ ots ++ sts ++ lts) (Clause.Return d items order skip limit sp)
| clause_delete sp ts es : listed_by phrase ts es -> clause (tok TokenKind.Delete sp :: ts) (Clause.Delete false es sp)
| clause_detach sp sp' ts es : listed_by phrase ts es ->
    clause (tok TokenKind.Detach sp :: tok TokenKind.Delete sp' :: ts) (Clause.Delete true es sp).
Inductive clauses : list Token -> list Clause -> Prop :=
| clauses_end : clauses [] []
| clauses_more ts c ts' cs : clause ts c -> clauses ts' cs -> clauses (ts ++ ts') (c :: cs).
Inductive unions : list Token -> list UnionPart -> Prop :=
| unions_end : unions [] []
| unions_all sp sp' ts cs ts' ps : clauses ts cs -> cs <> [] -> unions ts' ps ->
    unions (tok TokenKind.Union sp :: tok TokenKind.All sp' :: ts ++ ts') (mkUnionPart (Some UnionAll) cs :: ps)
| unions_distinct sp ts cs ts' ps : clauses ts cs -> cs <> [] -> unions ts' ps ->
    unions (tok TokenKind.Union sp :: ts ++ ts') (mkUnionPart (Some UnionDistinct) cs :: ps).
Inductive query : list Token -> Query -> Prop :=
| query_of ts cs uts ps sts b sp : clauses ts cs -> cs <> [] -> unions uts ps -> optional_token TokenKind.Semicolon sts b ->
    query (ts ++ uts ++ sts ++ [tok TokenKind.Eof sp]) (mkUnionPart None cs :: ps).

(** *** Reading them *)
(** What ends a part of a clause: a word, a comma or the end. *)
Definition ender (k : TokenKind) : bool :=
  soft k && negb (same_kind k TokenKind.Minus) && negb (same_kind k TokenKind.LArrow).
Lemma ender_softly rest : ender (next rest) = true -> soft (next rest) = true.
Proof. unfold ender. rewrite !andb_true_iff. tauto. Qed.
Lemma ender_path rest : ender (next rest) = true -> no_relationship rest.
Proof. unfold ender. rewrite !andb_true_iff, !negb_true_iff. by intros [[_ ?] ?]. Qed.

Lemma phrase_reads ts e rest : phrase ts e -> soft (next rest) = true ->
  parse_expression (parse_expression_bp source) (at_ (ts ++ rest) 0 0) = Some (at_ rest 0 0, Ok e).
Proof.
  intros [ts' e' ed H] Hs. eapply (expr_reads source levels 0); [done|done|]. split; [by apply soft_follows|by apply soft_stops].
Qed.
Lemma phrase_starts ts e : phrase ts e -> starts ts.
Proof using chars source. intros [ts' e' ed H]. by eapply expr_starts. Qed.
Lemma word_reads k ts oe rest : after_word k ts oe -> same_kind k TokenKind.Eof = false -> soft (next rest) = true -> begins k rest = false ->
  optional k (parse_expression (parse_expression_bp source)) (at_ (ts ++ rest) 0 0) = Some (at_ rest 0 0, Ok oe).
Proof.
  intros [|sp ts' e H] Hk Hs Hn; unfold optional; cbn [app]; rewrite if_eq, check_begins; [by rewrite Hn|].
  unfold begins. cbn [next kind]. rewrite same_kind_refl. unfold p_bind at 1, p_consume. rewrite consume_next by done. cbn iota beta.
  by erewrite bind_ok by (by apply phrase_reads).
Qed.
(** What the word of an optional part is does not matter to what is before it. *)
Definition fenced (l : list TokenKind) (k : TokenKind) : bool := ender k && forallb (fun x => negb (same_kind k x)) l.
Lemma word_fenced l k ts oe rest : after_word k ts oe -> fenced l k = true -> fenced l (next rest) = true -> fenced l (next (ts ++ rest)) = true.
Proof. by intros [|sp ts' e H]. Qed.
Lemma fenced_softly l rest : fenced l (next rest) = true -> soft (next rest) = true.
Proof. unfold fenced. rewrite andb_true_iff. intros [H _]. by apply ender_softly. Qed.
Lemma fenced_begins l k rest : fenced l (next rest) = true -> existsb (same_kind k) l = true -> begins k rest = false.
Proof.
  unfold fenced. rewrite andb_true_iff, forallb_forall, existsb_exists. intros [_ H] (x & Hx & Hk). specialize (H x Hx).
  unfold begins, same_kind in *. apply negb_true_iff, N.eqb_neq in H. apply N.eqb_eq in Hk. apply N.eqb_neq. congruence.
Qed.

Lemma fenced_part l l' k : fenced l k = true -> forallb (fun x => existsb (same_kind x) l) l' = true -> fenced l' k = true.
Proof.
  unfold fenced. rewrite !andb_true_iff, !forallb_forall. intros [He H] Hl. split; [done|]. intros x Hx.
  specialize (Hl x Hx). apply existsb_exists in Hl as (y & Hy & Hk). specialize (H y Hy). unfold same_kind in *.
  apply N.eqb_eq in Hk. by rewrite Hk.
Qed.

Lemma list_reads {A} (item : list Token -> A -> Prop) (m : P A) l ts xs rest :
  (forall ts x r, item ts x -> fenced l (next r) = true -> m (at_ (ts ++ r) 0 0) = Some (at_ r 0 0, Ok x)) ->
  fenced l TokenKind.Comma = true -> listed_by item ts xs -> fenced (TokenKind.Comma :: l) (next rest) = true ->
  comma_list m (at_ (ts ++ rest) 0 0) = Some (at_ rest 0 0, Ok xs).
Proof.
  intros Hitem Hcomma H Hr. unfold comma_list. assert (Hc : begins TokenKind.Comma rest = false) by (by eapply fenced_begins).
  assert (Hl : fenced l (next rest) = true).
  { unfold fenced in *. cbn [forallb] in Hr. rewrite !andb_true_iff in *. tauto. }
  assert (Hmore : forall ts xs, listed_by item ts xs -> forall sp acc,
    loop (fun acc => p_if (check TokenKind.Comma) (run p_consume in do x := m in p_ret (inl (acc ++ [x]))) (p_ret (inr acc)))
      acc (at_ (tok TokenKind.Comma sp :: ts ++ rest) 0 0) = Some (at_ rest 0 0, Ok (acc ++ xs))).
  { clear ts xs H. intros ts xs H. induction H as [ts x H|ts x sp ts' xs H Hx IH]; intros sp0 acc.
    - eapply read_more; [by apply Hitem|]. by apply no_more.
    - rewrite <- app_assoc. eapply read_more; [by apply Hitem|]. cbn [app]. rewrite IH. by rewrite <- app_assoc. }
  destruct H as [ts x H|ts x sp ts' xs H Hx].
  - erewrite bind_ok by (by apply Hitem). by apply no_more.
  - rewrite <- app_assoc. erewrite bind_ok by (by apply Hitem). cbn [app]. by apply (Hmore ts' xs Hx sp [x]).
Qed.

Lemma phrase_begins ts e k r : phrase ts e -> begins k ts = false -> begins k (ts ++ r) = false.
Proof using chars source. intros H Hk. by destruct (phrase_starts _ _ H) as (t & ts' & -> & _). Qed.
Lemma projection_reads ts x r : projection ts x -> fenced [TokenKind.As] (next r) = true ->
  parse_projection_item source (at_ (ts ++ r) 0 0) = Some (at_ r 0 0, Ok x).
Proof.
  intros H Hr. unfold parse_projection_item. destruct H as [sp|ts e H Hb|ts e sp t n H Hb Hn].
  - look. by take.
  - rewrite if_eq, check_begins, (phrase_begins ts e) by done.
    erewrite bind_ok by (apply phrase_reads; [done|by eapply fenced_softly]). unfold optional, p_bind.
    rewrite if_eq, check_begins. by rewrite (fenced_begins _ TokenKind.As _ Hr) by done.
  - rewrite if_eq, check_begins, <- app_assoc, (phrase_begins ts e) by done.
    erewrite bind_ok by (by apply phrase_reads). cbn [app].
    assert (Ho : optional TokenKind.As (variable_name source) (at_ (tok TokenKind.As sp :: t :: r) 0 0) = Some (at_ r 0 0, Ok (Some n))).
    { unfold optional. look. take. by erewrite bind_ok by (by apply variable_reads). }
    by rewrite (bind_ok _ _ _ _ _ Ho).
Qed.
Lemma ordering_reads ts x r : ordering ts x -> fenced [TokenKind.Asc; TokenKind.Desc] (next r) = true ->
  parse_order_item source (at_ (ts ++ r) 0 0) = Some (at_ r 0 0, Ok x).
Proof.
  intros H Hr. unfold parse_order_item. destruct H as [ts e H|ts e sp H|ts e sp H].
  - erewrite bind_ok by (apply phrase_reads; [done|by eapply fenced_softly]). rewrite !if_eq, !check_begins.
    by rewrite !(fenced_begins _ _ _ Hr) by done.
  - rewrite <- app_assoc. erewrite bind_ok by (by apply phrase_reads). cbn [app]. look. by take.
  - rewrite <- app_assoc. erewrite bind_ok by (by apply phrase_reads). cbn [app]. look. look. by take.
Qed.
Lemma pattern_reads ts x r : pattern ts x -> fenced [] (next r) = true ->
  parse_named_pattern source (at_ (ts ++ r) 0 0) = Some (at_ r 0 0, Ok x).
Proof.
  intros H Hr. assert (Hpath : forall ts p, path source levels ts p ->
    parse_path_pattern source (parse_expression_bp source) (at_ (ts ++ r) 0 0) = Some (at_ r 0 0, Ok p)).
  { intros ts' p Hp. apply (path_reads source levels); [done|done|]. apply ender_path. by apply andb_true_iff in Hr as [Hr _]. }
  unfold parse_named_pattern. destruct H as [ts p H|t n sp ts p Hn H].
  - destruct (path_starts source _ _ _ H) as (sp & ts' & ->). cbn [app]. do 2 erewrite (bind_ok _ _ _ _ None) by reflexivity.
    by erewrite bind_ok by (by apply (Hpath _ _ H)).
  - destruct (path_starts source _ _ _ H) as (sp' & ts' & ->). cbn [app]. erewrite (bind_ok _ _ _ _ (Some n)).
    2: { rewrite if_eq, (variable_at source t n) by done. cbn. erewrite bind_ok by (by apply variable_reads). by take. }
    erewrite (bind_ok _ _ _ _ None) by reflexivity.
    by erewrite bind_ok by (by apply (Hpath _ _ H)).
Qed.

Lemma order_reads ts l r : ordered ts l -> fenced [TokenKind.Comma; TokenKind.Asc; TokenKind.Desc; TokenKind.Order] (next r) = true ->
  p_if (check TokenKind.Order) (run p_consume in run eat TokenKind.By "BY after ORDER" in comma_list (parse_order_item source)) (p_ret [])
    (at_ (ts ++ r) 0 0) = Some (at_ r 0 0, Ok l).
Proof.
  intros [|sp sp' ts' l' H] Hr; rewrite if_eq, check_begins; cbn [app].
  - by rewrite (fenced_begins _ _ _ Hr).
  - unfold begins. cbn [next kind]. rewrite same_kind_refl. take. take.
    by eapply (list_reads ordering _ [TokenKind.Asc; TokenKind.Desc]); [apply ordering_reads| |done|by eapply fenced_part].
Qed.
(** What follows a clause, behind all its parts. *)
Definition boundary : list TokenKind := [TokenKind.Comma; TokenKind.As; TokenKind.Asc; TokenKind.Desc; TokenKind.Order;
  TokenKind.Skip; TokenKind.Limit; TokenKind.Where].
Lemma after_order ts l r l' : ordered ts l -> fenced l' TokenKind.Order = true -> fenced l' (next r) = true -> fenced l' (next (ts ++ r)) = true.
Proof. by intros [|]. Qed.
Lemma post_reads ots order sts skip lts limit r : ordered ots order -> after_word TokenKind.Skip sts skip ->
  after_word TokenKind.Limit lts limit ->
  fenced [TokenKind.Comma; TokenKind.As; TokenKind.Asc; TokenKind.Desc; TokenKind.Order; TokenKind.Skip; TokenKind.Limit] (next r) = true ->
  parse_post_projection source (at_ (ots ++ sts ++ lts ++ r) 0 0) = Some (at_ r 0 0, Ok (order, skip, limit)).
Proof.
  intros Ho Hs Hl Hr. unfold parse_post_projection.
  erewrite bind_ok by (apply order_reads; [done|]; do 2 (eapply word_fenced; [done..|]); by eapply fenced_part).
  assert (Hr' : fenced [TokenKind.Skip] (next (lts ++ r)) = true) by (eapply word_fenced; [done..|]; by eapply fenced_part).
  erewrite bind_ok by (apply word_reads; [done|done|by eapply fenced_softly|by eapply fenced_begins]).
  erewrite bind_ok by (apply word_reads; [done|done|by eapply fenced_softly|by eapply fenced_begins]). done.
Qed.

Lemma projections_reads {B} (f : bool -> list ProjectionItem -> list OrderItem * option Expression * option Expression -> P B) ts items dts d ots order sts skip lts limit r :
  optional_token TokenKind.Distinct dts d -> listed_by projection ts items -> ordered ots order ->
  after_word TokenKind.Skip sts skip -> after_word TokenKind.Limit lts limit ->
  fenced [TokenKind.Comma; TokenKind.As; TokenKind.Asc; TokenKind.Desc; TokenKind.Order; TokenKind.Skip; TokenKind.Limit] (next r) = true ->
  (do distinct := match_kind TokenKind.Distinct in do items := comma_list (parse_projection_item source) in
   do post := parse_post_projection source in f distinct items post) (at_ (dts ++ ts ++ ots ++ sts ++ lts ++ r) 0 0)
  = f d items (order, skip, limit) (at_ r 0 0).
Proof.
  intros Hd Hi Ho Hs Hl Hr. assert (Hfirst : begins TokenKind.Distinct (ts ++ ots ++ sts ++ lts ++ r) = false).
  { assert (Hp : forall ts x r, projection ts x -> begins TokenKind.Distinct (ts ++ r) = false).
    { intros ts' x r' [sp|ts2 e H _|ts2 e sp t n H _ Hn]; [done|..]; rewrite <- ?app_assoc; by eapply starts_begins; [eapply phrase_starts|]. }
    destruct Hi; rewrite <- ?app_assoc; by eapply Hp. }
  erewrite bind_ok by (by eapply match_kind_reads).
  erewrite bind_ok; [|eapply (list_reads projection _ [TokenKind.As]); [apply projection_reads|done|done|];
    eapply after_order; [done..|]; do 2 (eapply word_fenced; [done..|]); by eapply fenced_part].
  by erewrite bind_ok by (by apply post_reads).
Qed.

Definition opener (k : TokenKind) : bool :=
  match k with
  | TokenKind.Match | TokenKind.Optional | TokenKind.Unwind | TokenKind.With | TokenKind.Return | TokenKind.Delete | TokenKind.Detach => true
  | _ => false
  end.
Lemma clause_opens ts c r : clause ts c -> opener (next (ts ++ r)) = true.
Proof. by intros []. Qed.
Lemma opener_is_not k k' : opener k = true -> opener k' = false -> same_kind k k' = false.
Proof.
  intros H H'. unfold same_kind. apply N.eqb_neq. intros E. destruct k; try discriminate H; destruct k'; (discriminate E || discriminate H').
Qed.
Lemma clauses_begin ts cs k r : clauses ts cs -> cs <> [] -> opener k = false -> begins k (ts ++ r) = false.
Proof.
  intros [|ts' c ts2 cs2 H _] Hne Hk; [done|]. rewrite <- app_assoc. apply opener_is_not; [by eapply clause_opens|done].
Qed.
Lemma opener_fenced k : opener k = true -> fenced boundary k = true.
Proof. by destruct k. Qed.

Lemma match_reads b sp ts ps wts w r : listed_by pattern ts ps -> after_word TokenKind.Where wts w -> fenced boundary (next r) = true ->
  parse_match source b (at_ (tok TokenKind.Match sp :: (ts ++ wts) ++ r) 0 0) = Some (at_ r 0 0, Ok (Clause.Match b ps w sp)).
Proof.
  intros Hp Hw Hr. unfold parse_match. take. take. rewrite <- app_assoc.
  erewrite bind_ok; [|eapply (list_reads pattern _ []); [apply pattern_reads|done|done|]; eapply word_fenced; [done..|by eapply fenced_part]].
  erewrite bind_ok by (apply word_reads; [done|done|by eapply fenced_softly|by eapply fenced_begins]). done.
Qed.
Lemma delete_reads b sp sp' ts es r : listed_by phrase ts es -> fenced boundary (next r) = true ->
  parse_delete_with_span source b sp (at_ (tok TokenKind.Delete sp' :: ts ++ r) 0 0) = Some (at_ r 0 0, Ok (Clause.Delete b es sp)).
Proof.
  intros H Hr. unfold parse_delete_with_span. take. erewrite bind_ok; [done|].
  eapply (list_reads phrase _ []); [|done|done|by eapply fenced_part].
  intros ts' e r' He Hr'. apply phrase_reads; [done|by eapply fenced_softly].
Qed.

Lemma clause_reads pc ts c r : clause ts c -> fenced boundary (next r) = true ->
  parse_clause_body source pc (at_ (ts ++ r) 0 0) = Some (at_ r 0 0, Ok c).
Proof.
  intros H Hr. destruct H as [sp ts ps wts w Hp Hw|sp0 sp ts ps wts w Hp Hw|sp ts e sp' t n He Hn
    |sp dts d ts items ots order sts skip lts limit wts w Hd Hi Ho Hs Hl Hw|sp dts d ts items ots order sts skip lts limit Hd Hi Ho Hs Hl
    |sp ts es H|sp sp' ts es H]; unfold parse_clause_body; cbn [app peek_kind toks kind].
  - by apply match_reads.
  - take. look. by apply match_reads.
  - unfold parse_unwind. take. take. rewrite <- app_assoc. erewrite bind_ok by (by apply phrase_reads). cbn [app]. take.
    by erewrite bind_ok by (by apply variable_reads).
  - unfold parse_with. take. take. rewrite <- !app_assoc.
    rewrite (projections_reads _ ts items dts d ots order sts skip lts limit) by (first [done|eapply word_fenced; [done..|by eapply fenced_part]]).
    erewrite bind_ok by (apply word_reads; [done|done|by eapply fenced_softly|by eapply fenced_begins]). done.
  - unfold parse_return. take. take. rewrite <- !app_assoc.
    by rewrite (projections_reads _ ts items dts d ots order sts skip lts limit) by (first [done|by eapply fenced_part]).
  - unfold parse_delete. take. by apply delete_reads.
  - take. take. look. by apply delete_reads.
Qed.

(** A list of clauses ends where a statement does. *)
Lemma single_reads ts cs r : clauses ts cs -> cs <> [] -> at_statement_end (at_ r 0 0) = true -> fenced boundary (next r) = true ->
  parse_single_query source (at_ (ts ++ r) 0 0) = Some (at_ r 0 0, Ok cs).
Proof.
  intros H Hne He Hr. unfold parse_single_query. rewrite (bind_ok _ _ _ (at_ r 0 0) cs); [by destruct cs|]. clear Hne.
  enough (forall acc, loop (fun acc => p_if at_statement_end (p_ret (inr acc))
    (do c := parse_clause source in p_ret (inl (acc ++ [c])))) acc (at_ (ts ++ r) 0 0) = Some (at_ r 0 0, Ok (acc ++ cs))) as Hl by apply Hl.
  induction H as [|ts c ts' cs H Hcs IH]; intros acc; rewrite <- ?app_assoc.
  - rewrite app_nil_r. apply loop_done. cbn [app]. by rewrite if_eq, He.
  - assert (Hn : fenced boundary (next (ts' ++ r)) = true).
    { destruct Hcs; [done|]. rewrite <- app_assoc. apply opener_fenced. by eapply clause_opens. }
    eapply (loop_next _ _ (acc ++ [c]) _ (at_ (ts' ++ r) 0 0)).
    + rewrite if_eq. pose proof (clause_opens ts c (ts' ++ r) H) as Ho. unfold at_statement_end, at_eof.
      change (peek_kind (at_ (ts ++ ts' ++ r) 0 0)) with (next (ts ++ ts' ++ r)). rewrite !check_next, !(opener_is_not _ _ Ho) by done.
      erewrite bind_ok; [done|]. unfold parse_clause. cbn [parse_clause_fuel]. by apply clause_reads.
    + pose proof (clause_opens ts c [] H) as Ho. destruct ts; [done|]. shrinks.
    + rewrite IH. by rewrite <- app_assoc.
Qed.

Lemma unions_next uts ps r : unions uts ps -> at_statement_end (at_ r 0 0) = true -> fenced boundary (next r) = true ->
  at_statement_end (at_ (uts ++ r) 0 0) = true /\ fenced boundary (next (uts ++ r)) = true.
Proof. by intros [|sp sp' ts cs ts' ps' H|sp ts cs ts' ps' H]. Qed.
Lemma unions_read uts ps acc r : unions uts ps -> at_statement_end (at_ r 0 0) = true -> fenced boundary (next r) = true ->
  begins TokenKind.Union r = false ->
  loop (fun acc => p_if (check TokenKind.Union)
     (run p_consume in
      do k := p_if (check TokenKind.All) (run p_consume in p_ret UnionAll) (p_ret UnionDistinct) in
      do q := parse_single_query source in p_ret (inl (acc ++ [mkUnionPart (Some k) q])))
     (p_ret (inr acc))) acc (at_ (uts ++ r) 0 0) = Some (at_ r 0 0, Ok (acc ++ ps)).
Proof.
  intros H He Hr Hu. revert acc. induction H as [|sp sp' ts cs ts' ps H Hne H' IH|sp ts cs ts' ps H Hne H' IH]; intros acc.
  - rewrite app_nil_r. apply loop_done. cbn [app]. by rewrite if_eq, check_begins, Hu.
  - destruct (unions_next _ _ _ H' He Hr) as [He' Hr'].
    eapply (loop_next _ _ (acc ++ [mkUnionPart (Some UnionAll) cs]) _ (at_ (ts' ++ r) 0 0)); [|shrinks|by rewrite IH, <- app_assoc].
    look. take. erewrite (bind_ok _ _ _ (at_ (ts ++ ts' ++ r) 0 0) UnionAll) by (look; take; by rewrite app_assoc).
    by erewrite bind_ok by (by apply single_reads).
  - destruct (unions_next _ _ _ H' He Hr) as [He' Hr'].
    eapply (loop_next _ _ (acc ++ [mkUnionPart (Some UnionDistinct) cs]) _ (at_ (ts' ++ r) 0 0)); [|shrinks|by rewrite IH, <- app_assoc].
    look. take. rewrite <- app_assoc. erewrite (bind_ok _ _ _ (at_ (ts ++ ts' ++ r) 0 0) UnionDistinct).
    + by erewrite bind_ok by (by apply single_reads).
    + by rewrite if_eq, check_begins, (clauses_begin ts cs) by done.
Qed.

Lemma query_reads ts q : query ts q ->
  exists s, (do q := parse_query source in run ensure_eof in p_ret q) (at_ ts 0 0) = Some (s, Ok q).
Proof.
  intros [ts' cs uts ps sts b sp H Hne Hu Hs].
  set (eof := [tok TokenKind.Eof sp]).
  exists (at_ eof 0 0).
  assert (Hend : at_statement_end (at_ (sts ++ eof) 0 0) = true /\ fenced boundary (next (sts ++ eof)) = true) by (by destruct Hs).
  destruct Hend as [He Hr]. destruct (unions_next _ _ _ Hu He Hr) as [He' Hr'].
  unfold parse_query. rewrite (bind_ok _ _ _ (at_ eof 0 0) (mkUnionPart None cs :: ps)); [done|]. rewrite if_eq.
  change (at_eof (at_ (ts' ++ uts ++ sts ++ eof) 0 0)) with (begins TokenKind.Eof (ts' ++ uts ++ sts ++ eof)). rewrite (clauses_begin ts' cs) by done.
  erewrite bind_ok by (by apply single_reads).
  erewrite bind_ok by (apply unions_read; [done..|by destruct Hs]).
  by erewrite bind_ok by (eapply match_kind_reads; [done|done|]; by intros ->).
Qed.

(** C16: Of a source whose tokens are a query phrase of the grammar (clauses
    that match, unwind, project, return or delete, joined by [UNION], perhaps
    with a semicolon), [parse] returns the tree of that phrase and no error:
    the patterns, filters, projections, orders and bounds each in its place
    and every expression as the grammar derives it. *)
Theorem query_read ts q : tokens_of [] source ts -> query ts q -> parse source = Some (Ok q).
Proof using chars laws source.
  intros Ht Hq. unfold parse. rewrite (tokens_tokenize source ts Ht). by destruct (query_reads ts q Hq) as [s ->].
Qed.
End queries.

(** ** Phrases *)
Module Phrases.
Import AsciiOnly.
Local Open Scope N_scope.
Definition place (a b : N) : Span := mkSpan a b 1 (a + 1).
Definition at_place (k : TokenKind) (a b : N) : Token := tok k (place a b).
Definition name_token (s : string) (a b : N) : Token := at_place (TokenKind.Identifier (lit s)) a b.
Definition source : text := lit "MATCH (n) RETURN n.age+1 LIMIT 2;".
Definition n_node : list Token := [at_place TokenKind.LParen 6 7; name_token "n" 7 8; at_place TokenKind.RParen 8 9].
Definition n_age : list Token := [name_token "n" 17 18; at_place TokenKind.Dot 18 19; name_token "age" 19 22].
Definition sum : list Token := n_age ++ [at_place TokenKind.Plus 22 23; at_place (TokenKind.Integer 1) 23 24].
Definition two : list Token := [at_place (TokenKind.Integer 2) 31 32].
Definition all : list Token := at_place TokenKind.Match 0 5 :: n_node ++ at_place TokenKind.Return 10 16 :: sum ++
  at_place TokenKind.Limit 25 30 :: two ++ [at_place TokenKind.Semicolon 32 33; at_place TokenKind.Eof 33 33].

Definition the_sum : Expression :=
  Expression.Binary Add (Expression.Property (Expression.Var (lit "n") (place 17 18)) (lit "age") (place 19 22))
    (Expression.Integer 1 (place 23 24)) (place 22 23).
Definition sum_edge : edge := under 31 (mkEdge 255 false false).
Lemma sum_derived k : (1 <= k)%nat -> expr source (S k) 0 sum the_sum sum_edge.
Proof.
  destruct k as [|k]; [lia|]. intros _. apply expr_of.
  apply (bin_binary source (S k) 0 n_age _ closed TokenKind.Plus (place 22 23) Add 30 31 [] _ _ (mkEdge 255 false false)); try done.
  - apply (bin_post source _ 0 n_age _ false).
    apply (post_property source _ [name_token "n" 17 18] _ false (place 18 19) (name_token "age" 19 22) (lit "age")).
    + apply (post_prim source _ _ _ false), (prim_variable source _ (name_token "n" 17 18) (lit "n")). constructor.
    + constructor.
  - by apply with_missing.
  - apply expr_of, (bin_post source k 31 _ _ false), (post_prim source _ _ _ false).
    by apply (prim_atom source k (TokenKind.Integer 1) (place 23 24) (Expression.Integer 1)).
Qed.
Lemma two_derived : phrase source two (Expression.Integer 2 (place 31 32)).
Proof.
  apply (phrase_of source _ _ closed), (expr_of source 63), (bin_post source 63 0 _ _ false), (post_prim source _ _ _ false).
  by apply (prim_atom source 63 (TokenKind.Integer 2) (place 31 32) (Expression.Integer 2)).
Qed.
Definition the_node : PathPattern := Expression.mkPath (Expression.mkNode (Some (lit "n")) [] None None (place 6 7)) [].
Lemma node_derived : path source levels n_node the_node.
Proof.
  apply (path_of source _ n_node _ [] []); [|constructor].
  apply (node_of source _ (place 6 7) [name_token "n" 7 8] (Some (lit "n")) [] [] None [] None (place 8 9)); try constructor. constructor.
Qed.
Definition the_query : Query :=
  [mkUnionPart None [Clause.Match false [mkNamedPattern None the_node None] None (place 0 5);
     Clause.Return false [ProjectExpression the_sum None] [] None (Some (Expression.Integer 2 (place 31 32))) (place 10 16)]].
Lemma query_derived : query source all the_query.
Proof.
  apply (query_of source (at_place TokenKind.Match 0 5 :: n_node ++ at_place TokenKind.Return 10 16 :: sum ++
    at_place TokenKind.Limit 25 30 :: two) _ [] [] [at_place TokenKind.Semicolon 32 33] true (place 33 33)); [|done|constructor|constructor].
  apply (clauses_more source (at_place TokenKind.Match 0 5 :: n_node) _ (at_place TokenKind.Return 10 16 :: sum ++
    at_place TokenKind.Limit 25 30 :: two)).
  { apply (clause_match source (place 0 5) n_node _ [] None); [|constructor]. apply listed_one, pattern_plain, node_derived. }
  apply (clauses_more source (at_place TokenKind.Return 10 16 :: sum ++ at_place TokenKind.Limit 25 30 :: two) _ []); [|constructor].
  apply (clause_return source (place 10 16) [] false sum _ [] [] [] None (at_place TokenKind.Limit 25 30 :: two));
    [constructor| |constructor|constructor|constructor; apply two_derived].
  apply listed_one, projection_plain; [|done]. apply (phrase_of source _ _ sum_edge), (sum_derived 63). lia.
Qed.

Lemma expression_read_witness :
  parse_expression_bp source 0 (at_ (sum ++ two) 3 0) = Some (at_ two 3 0, Ok the_sum).
Proof.
  apply (expression_read source 3 0 sum the_sum sum_edge 3 0 two); [apply (sum_derived 2); lia|done|].
  split; [by apply soft_follows|by apply soft_stops].
Defined.
Lemma expression_unambiguous_witness : expr source 2 0 sum the_sum sum_edge /\ the_sum = the_sum.
Proof.
  split; [apply (sum_derived 1); lia|].
  apply (expression_unambiguous source 2 3 sum the_sum the_sum sum_edge sum_edge); [apply sum_derived; lia..|done|done].
Defined.
Lemma query_read_witness : tokens_of [] source all /\ parse source = Some (Ok the_query).
Proof.
  assert (Ht : tokens_of [] source all) by (apply tokenize_tokens; by vm_compute).
  split; [exact Ht|]. apply (query_read source all the_query Ht), query_derived.
Defined.
End Phrases.
