(* ===== verification/CypherRegex.v ===== *)
(** * Regular expressions of [=~]
    ([src/src/cypher/regex.rs])

    The parser of patterns, and the matcher: continuations over positions,
    backtracking, with a budget of steps.  A pattern means a relation between
    positions ([matches]); [CypherRegexSpec] shows that the matcher decides it. *)
From Stdlib Require Import Ascii.
From S2P Require Import Prelude CypherLexer.
Local Open Scope list_scope.
Local Open Scope N_scope.

Module Regex.
Definition MATCH_BUDGET : N := 2000000.
Inductive RegexError : Type := Syntax (message : text) | Complexity.

(** ** Patterns *)
Inductive ClassItem : Type :=
| CChar (c : N) | CRange (a b : N) | Digit | NotDigit | Word | NotWord | Space | NotSpace.

Definition to_ascii_lowercase (c : N) : N := if within 65 90 c then c + 32 else c.
Definition is_word (c : N) : bool := is_ascii_letter c || is_ascii_digit c || (c =? ch "_").
(** [char::is_ascii_whitespace]. *)
Definition is_ascii_whitespace (c : N) : bool := (c =? 32) || (c =? 9) || (c =? 10) || (c =? 12) || (c =? 13).
Definition char_eq (pat c : N) (ci : bool) : bool :=
  if ci then to_ascii_lowercase pat =? to_ascii_lowercase c else pat =? c.

Definition item_matches (it : ClassItem) (c : N) (ci : bool) : bool :=
  match it with
  | CChar x => char_eq x c ci
  | CRange a b =>
      let inr x := (a <=? x) && (x <=? b) in
      inr c || ci && (inr (to_ascii_lowercase c) || inr (to_ascii_uppercase c))
  | Digit => is_ascii_digit c
  | NotDigit => negb (is_ascii_digit c)
  | Word => is_word c
  | NotWord => negb (is_word c)
  | Space => is_ascii_whitespace c
  | NotSpace => negb (is_ascii_whitespace c)
  end.

Inductive Node : Type :=
| Empty
| Literal (c : N)
| AnyChar
| Start
| End_
| Class_ (negated : bool) (items : list ClassItem)
| Concat (nodes : list Node)
| Alternate (alts : list Node)
| Repeat (node : Node) (min : N) (max : option N) (greedy : bool).

Record t : Type := mkRegex { root : Node; case_insensitive : bool }.

(** ** Matching *)
Record MatchCtx : Type := mkCtx { budget : N; overflowed : bool }.
Definition Step (A : Type) : Type := MatchCtx -> A * MatchCtx.
Definition answer {A} (a : A) : Step A := fun st => (a, st).
Definition tick : Step bool := fun st =>
  if budget st =? 0 then (false, mkCtx 0 true) else (true, mkCtx (budget st - 1) (overflowed st)).
(** [&&] and [||] of Rust, which leave out their right side. *)
Definition both (a b : Step bool) : Step bool := fun st => let '(r, st) := a st in if r then b st else (false, st).
Definition either (a b : Step bool) : Step bool := fun st => let '(r, st) := a st in if r then (true, st) else b st.
Definition guard_ (c : bool) (b : Step bool) : Step bool := both (answer c) b.

Section matching.
Context (chars : text) (ci : bool).
Definition Matcher : Type := nat -> (nat -> Step bool) -> Step bool.

(** A character the test lets through. *)
Definition one_char (test : N -> bool) : Matcher := fun pos k =>
  match chars !! pos with Some c => guard_ (test c) (k (S pos)) | None => answer false end.

Section parts.
Context (m : Node -> Matcher).
Definition m_concat : list Node -> Matcher :=
  fix m_concat nodes pos k :=
    match nodes with
    | [] => k pos
    | first :: rest => m first pos (fun p => m_concat rest p k)
    end.
Definition m_any : list Node -> Matcher :=
  fix m_any alts pos k :=
    match alts with
    | [] => answer false
    | a :: alts => either (m a pos k) (m_any alts pos k)
    end.
End parts.

(** The fuel counts the positions left: a repetition that goes on is further. *)
Definition m_repeat (inner : Matcher) (min : N) (max : option N) (greedy : bool) : nat -> N -> Matcher :=
  fix m_repeat fuel count pos k :=
    match fuel with
    | O => answer false
    | S fuel =>
        let can_more := match max with None => true | Some m => count <? m end in
        let try_more := guard_ can_more (inner pos (fun p =>
          if Nat.eqb p pos then guard_ (min <=? count + 1) (k p) else m_repeat fuel (count + 1) p k)) in
        let try_stop := guard_ (min <=? count) (k pos) in
        if greedy then either try_more try_stop else either try_stop try_more
    end.

Fixpoint m (node : Node) (pos : nat) (k : nat -> Step bool) {struct node} : Step bool :=
  both tick
    match node with
    | Empty => k pos
    | Literal c => one_char (fun x => char_eq c x ci) pos k
    | AnyChar => one_char (fun x => negb (x =? 10)) pos k
    | Start => guard_ (Nat.eqb pos 0) (k pos)
    | End_ => guard_ (Nat.eqb pos (length chars)) (k pos)
    | Class_ negated items => one_char (fun c => negb (Bool.eqb (existsb (fun it => item_matches it c ci) items) negated)) pos k
    | Concat nodes => m_concat m nodes pos k
    | Alternate alts => m_any m alts pos k
    | Repeat node min max greedy => m_repeat (m node) min max greedy (S (length chars - pos)) 0 pos k
    end.
End matching.

Definition is_match (r : t) (input : text) : result RegexError bool :=
  let '(matched, st) := m input (case_insensitive r) (root r) 0 (fun p => answer (Nat.eqb p (length input))) (mkCtx MATCH_BUDGET false) in
  if overflowed st then Err Complexity else Ok matched.

(** ** Parsing *)
Record Parser : Type := mkParser { rest : text; pos : N; ci : bool }.
(** [None] when the fuel of a loop or of the nesting has run out. *)
Definition P (A : Type) : Type := Parser -> option (result RegexError (A * Parser)).
Definition p_ret {A} (a : A) : P A := fun s => Some (Ok (a, s)).
Definition p_err {A} (msg : text) : P A := fun _ => Some (Err (Syntax msg)).
Definition p_bind {A B} (x : P A) (f : A -> P B) : P B := fun s =>
  match x s with
  | Some (Ok (a, s)) => f a s
  | Some (Err e) => Some (Err e)
  | None => None
  end.
Declare Scope regex_scope.
Notation "'do' x := m 'in' f" := (p_bind m (fun x => f)) (at level 10, x name, m at level 100, f at level 200) : regex_scope.
Notation "'run' m 'in' f" := (p_bind m (fun _ => f)) (at level 10, m at level 100, f at level 200) : regex_scope.
Local Open Scope regex_scope.

Definition peek (s : Parser) : option N := head (rest s).
Definition peek_at (n : nat) (s : Parser) : option N := rest s !! n.
Definition advance (s : Parser) : Parser := mkParser (tail (rest s)) (pos s + 1) (ci s).
Definition p_peek : P (option N) := fun s => p_ret (peek s) s.
Definition p_advance : P unit := fun s => Some (Ok (tt, advance s)).
Definition p_fold_case : P unit := fun s => Some (Ok (tt, mkParser (rest s) (pos s) true)).
Definition is_char (a : Ascii.ascii) (o : option N) : bool := match o with Some c => c =? ch a | None => false end.
Definition at_char (a : Ascii.ascii) (s : Parser) : bool := is_char a (peek s).
Definition p_if {A} (c : Parser -> bool) (t e : P A) : P A := fun s => if c s then t s else e s.

(** A body that goes on with [inl] or ends with [inr]; fuel for every character left. *)
Fixpoint loop_fuel {A B} (fuel : nat) (body : A -> P (A + B)) (a : A) : P B := fun s =>
  match fuel with
  | O => None
  | S fuel =>
      match body a s with
      | Some (Ok (inl a, s)) => loop_fuel fuel body a s
      | Some (Ok (inr b, s)) => Some (Ok (b, s))
      | Some (Err e) => Some (Err e)
      | None => None
      end
  end.
Definition loop {A B} (body : A -> P (A + B)) (a : A) : P B := fun s => loop_fuel (S (length (rest s))) body a s.

Definition escape_char (c : N) : N :=
  if c =? ch "n" then 10 else if c =? ch "t" then 9 else if c =? ch "r" then 13 else if c =? ch "f" then 12
  else if c =? ch "0" then 0 else c.
Definition shortcut (c : N) : option ClassItem :=
  if c =? ch "d" then Some Digit else if c =? ch "D" then Some NotDigit
  else if c =? ch "w" then Some Word else if c =? ch "W" then Some NotWord
  else if c =? ch "s" then Some Space else if c =? ch "S" then Some NotSpace else None.

(** [saturating_mul(10).saturating_add(d)] on [usize]. *)
Definition USIZE_MAX : N := 2 ^ 64 - 1.
Definition add_digit (val d : N) : N := N.min USIZE_MAX (N.min USIZE_MAX (val * 10) + d).
Fixpoint read_digits (val : N) (t : text) : N * nat :=
  match t with
  | c :: t => if is_ascii_digit c then let '(v, n) := read_digits (add_digit val (c - 48)) t in (v, S n) else (val, 0%nat)
  | [] => (val, 0%nat)
  end.
Definition advance_by (n : nat) (s : Parser) : Parser := mkParser (drop n (rest s)) (pos s + N.of_nat n) (ci s).
Definition read_number (s : Parser) : option N * Parser :=
  let '(v, n) := read_digits 0 (rest s) in
  match n with O => (None, s) | _ => (Some v, advance_by n s) end.

(** The bounds of [{n}], [{n,}] or [{n,m}], or [None] and no step. *)
Definition try_parse_brace (start : Parser) : option (N * option N) * Parser :=
  let '(min, s) := read_number (advance start) in
  let parsed :=
    if at_char "}" s then match min with Some n => Some ((n, Some n), advance s) | None => None end
    else if at_char "," s then
      let '(max, s) := read_number (advance s) in
      match min with Some n => if at_char "}" s then Some ((n, max), advance s) else None | None => None end
    else None in
  match parsed with Some (b, s) => (Some b, s) | None => (None, start) end.

Definition finish_quant (atom : Node) (min : N) (max : option N) : P Node :=
  p_if (at_char "?") (run p_advance in p_ret (Repeat atom min max false))
  (p_if (at_char "+") (run p_advance in p_ret (Repeat atom min max true))
    (p_ret (Repeat atom min max true))).

Inductive ClassAtom : Type := Shortcut (it : ClassItem) | Ch (c : N).
Definition read_class_atom : P ClassAtom :=
  do c := p_peek in
  match c with
  | None => p_err (lit "unclosed character class `[`")
  | Some c =>
      run p_advance in
      if c =? ch "\" then
        do e := p_peek in
        match e with
        | None => p_err (lit "dangling escape in character class")
        | Some e => run p_advance in p_ret (match shortcut e with Some s => Shortcut s | None => Ch (escape_char e) end)
        end
      else p_ret (Ch c)
  end.

(** Whether a [-] here makes a range. *)
Definition at_range (s : Parser) : bool :=
  at_char "-" s && match peek_at 1 s with Some c => negb (c =? ch "]") | None => false end.
Definition class_step (acc : list ClassItem * bool) : P ((list ClassItem * bool) + list ClassItem) :=
  let '(items, first) := acc in
  do c := p_peek in
  match c with
  | None => p_err (lit "unclosed character class `[`")
  | Some c =>
      if (c =? ch "]") && negb first then run p_advance in p_ret (inr items)
      else
        do atom := read_class_atom in
        match atom with
        | Shortcut s => p_ret (inl (items ++ [s], false))
        | Ch lo =>
            p_if at_range
              (run p_advance in
               do hi := read_class_atom in
               match hi with
               | Ch hi =>
                   if hi <? lo then p_err (lit "character class range out of order: " ++ [lo] ++ lit "-" ++ [hi])
                   else p_ret (inl (items ++ [CRange lo hi], false))
               | Shortcut s => p_ret (inl (items ++ [CChar lo; CChar (ch "-"); s], false))
               end)
              (p_ret (inl (items ++ [CChar lo], false)))
        end
  end.
Definition parse_class : P Node :=
  run p_advance in
  do negated := p_if (at_char "^") (run p_advance in p_ret true) (p_ret false) in
  do items := loop class_step ([], true) in
  p_ret (Class_ negated items).

Definition parse_escape : P Node :=
  run p_advance in
  do c := p_peek in
  match c with
  | None => p_err (lit "dangling escape `\` at end of pattern")
  | Some c => run p_advance in p_ret (match shortcut c with Some s => Class_ false [s] | None => Literal (escape_char c) end)
  end.

(** One node as it is, several in a list. *)
Definition concat_of (items : list Node) : Node := match items with [] => Empty | [only] => only | _ => Concat items end.
Definition alternate_of (branches : list Node) : Node := match branches with [only] => only | _ => Alternate branches end.

Section groups.
Context (parse_alternation : P Node).

Definition close_group : P Node :=
  do inner := parse_alternation in
  p_if (at_char ")") (run p_advance in p_ret inner) (p_err (lit "unclosed group `(`")).
Definition parse_group : P Node :=
  run p_advance in
  p_if (at_char "?")
    (run p_advance in
     p_if (at_char ":") (run p_advance in close_group)
     (p_if (at_char "i")
       (run p_advance in run p_fold_case in
        p_if (at_char ")") (run p_advance in p_ret Empty)
        (p_if (at_char ":") (run p_advance in close_group) (p_err (lit "unsupported inline flag group"))))
       (p_err (lit "unsupported `(?...)` group construct"))))
    close_group.

Definition parse_atom : P Node :=
  do c := p_peek in
  match c with
  | None => p_err (lit "unexpected end of pattern")
  | Some c =>
      if c =? ch "(" then parse_group
      else if c =? ch "[" then parse_class
      else if c =? ch "." then run p_advance in p_ret AnyChar
      else if c =? ch "^" then run p_advance in p_ret Start
      else if c =? ch "$" then run p_advance in p_ret End_
      else if c =? ch "\" then parse_escape
      else if (c =? ch "*") || (c =? ch "+") || (c =? ch "?")
      then p_err (lit "dangling quantifier `" ++ [c] ++ lit "` with nothing to repeat")
      else run p_advance in p_ret (Literal c)
  end.

Definition parse_repeat : P Node :=
  do atom := parse_atom in
  p_if (at_char "*") (run p_advance in finish_quant atom 0 None)
  (p_if (at_char "+") (run p_advance in finish_quant atom 1 None)
  (p_if (at_char "?") (run p_advance in finish_quant atom 0 (Some 1))
  (p_if (at_char "{")
    (fun s => let '(b, s) := try_parse_brace s in
      match b with Some (min, max) => finish_quant atom min max s | None => p_ret atom s end)
    (p_ret atom)))).

Definition parse_concat : P Node :=
  do items := loop (fun items =>
    do c := p_peek in
    match c with
    | None => p_ret (inr items)
    | Some c =>
        if (c =? ch "|") || (c =? ch ")") then p_ret (inr items)
        else do n := parse_repeat in p_ret (inl (items ++ [n]))
    end) [] in
  p_ret (concat_of items).

Definition parse_alternation_body : P Node :=
  do first := parse_concat in
  do branches := loop (fun branches =>
    p_if (at_char "|") (run p_advance in do n := parse_concat in p_ret (inl (branches ++ [n]))) (p_ret (inr branches))) [first] in
  p_ret (alternate_of branches).
End groups.

Fixpoint parse_alternation (fuel : nat) : P Node :=
  match fuel with
  | O => fun _ => None
  | S fuel => parse_alternation_body (parse_alternation fuel)
  end.

(** Groups nest no deeper than there are characters. *)
Definition compile (pattern : text) : option (result RegexError t) :=
  match parse_alternation (S (length pattern)) (mkParser pattern 0 false) with
  | Some (Ok (root, s)) =>
      Some (match rest s with
            | [] => Ok (mkRegex root (ci s))
            | c :: _ => Err (Syntax (lit "unexpected `" ++ [c] ++ lit "` at position " ++ number_text 10 (pos s)))
            end)
  | Some (Err e) => Some (Err e)
  | None => None
  end.
Definition full_match (pattern input : text) : option (result RegexError bool) :=
  match compile pattern with
  | Some (Ok r) => Some (is_match r input)
  | Some (Err e) => Some (Err e)
  | None => None
  end.
End Regex.
