(* ===== verification/CypherRegexSpec.v ===== *)
(** * What a pattern matches
    ([src/src/cypher/regex.rs])

    The meaning of a pattern as a relation between positions of the input, as
    [java.util.regex] has it, and the theorems on the matcher and the parser of
    [CypherRegex]:

    - the matcher, when its budget lasts, answers [true] only for inputs that
      the pattern means, and for all of them unless a part that can be empty is
      to be repeated at least twice;
    - a pattern printed is parsed back to itself, and the parser always answers. *)
From Stdlib Require Import Ascii.
From S2P Require Import Prelude CypherLexer CypherRegex.
Import Regex.
Local Open Scope list_scope.
Local Open Scope N_scope.

(** ** Meaning *)
Section meaning.
Context (chars : text) (ci : bool).

Definition reads (test : N -> bool) (p q : nat) : Prop := exists c, chars !! p = Some c /\ test c = true /\ q = S p.
Fixpoint times (R : nat -> nat -> Prop) (n : nat) (p q : nat) : Prop :=
  match n with
  | O => p = q
  | S n => exists r, R p r /\ times R n r q
  end.
Definition at_most (max : option N) (n : N) : Prop := match max with Some m => n <= m | None => True end.
Section parts.
Context (matches : Node -> nat -> nat -> Prop).
Definition in_turn : list Node -> nat -> nat -> Prop :=
  fix in_turn nodes p q :=
    match nodes with
    | [] => p = q
    | n :: nodes => exists r, matches n p r /\ in_turn nodes r q
    end.
Definition one_of : list Node -> nat -> nat -> Prop :=
  fix one_of alts p q :=
    match alts with
    | [] => False
    | a :: alts => matches a p q \/ one_of alts p q
    end.
End parts.
Fixpoint matches (node : Node) (p q : nat) {struct node} : Prop :=
  match node with
  | Empty => p = q
  | Literal c => reads (fun x => char_eq c x ci) p q
  | AnyChar => reads (fun x => negb (x =? 10)) p q
  | Start => p = 0%nat /\ q = p
  | End_ => p = length chars /\ q = p
  | Class_ negated items => reads (fun c => xorb (existsb (fun it => item_matches it c ci) items) negated) p q
  | Concat nodes => in_turn matches nodes p q
  | Alternate alts => one_of matches alts p q
  | Repeat node min max _ => exists n, min <= N.of_nat n /\ at_most max (N.of_nat n) /\ times (matches node) n p q
  end.
End meaning.

(** Whether a pattern can match without a character, and whether nothing that
    can is to be repeated twice or more. *)
Fixpoint nullable (node : Node) : bool :=
  match node with
  | Empty | Start | End_ => true
  | Literal _ | AnyChar | Class_ _ _ => false
  | Concat nodes => forallb nullable nodes
  | Alternate alts => existsb nullable alts
  | Repeat node min _ _ => (min =? 0) || nullable node
  end.
Fixpoint repeats_advance (node : Node) : bool :=
  match node with
  | Concat nodes | Alternate nodes => forallb repeats_advance nodes
  | Repeat node min _ _ => ((min <=? 1) || negb (nullable node)) && repeats_advance node
  | _ => true
  end.

Lemma Node_ind_nested (Q : Node -> Prop) :
  Q Empty -> (forall c, Q (Literal c)) -> Q AnyChar -> Q Start -> Q End_ -> (forall b items, Q (Class_ b items)) ->
  (forall nodes, Forall Q nodes -> Q (Concat nodes)) -> (forall alts, Forall Q alts -> Q (Alternate alts)) ->
  (forall n min max g, Q n -> Q (Repeat n min max g)) -> forall n, Q n.
Proof.
  intros H1 H2 H3 H4 H5 H6 H7 H8 H9. fix IH 1. intros [|c| | | |b items|nodes|alts|n min max g];
    [done|apply H2|done..|apply H6|apply H7|apply H8|apply H9, IH]; by induction nodes || induction alts; constructor.
Qed.

(** ** Positions *)
Section positions.
Context (chars : text) (ci : bool).
Local Abbreviation matches := (matches chars ci).

Lemma times_mono (R : nat -> nat -> Prop) n p q : (forall p q, R p q -> (p <= q)%nat) -> times R n p q -> (p <= q)%nat.
Proof.
  intros HR. revert p. induction n as [|n IH]; intros p; [by intros ->|]. intros (r & Hr & H). apply HR in Hr. apply IH in H. lia.
Qed.
Lemma reads_next test p q : reads chars test p q -> q = S p /\ (q <= length chars)%nat.
Proof. intros (c & Hc & _ & ->). apply lookup_lt_Some in Hc. lia. Qed.

Lemma matches_mono node p q : matches node p q -> (p <= q)%nat.
Proof.
  revert p q. induction node as [|c| | | |b items|nodes IH|alts IH|n min max g IH] using Node_ind_nested; cbn; intros p q.
  - lia.
  - intros [-> _]%reads_next. lia.
  - intros [-> _]%reads_next. lia.
  - lia.
  - lia.
  - intros [-> _]%reads_next. lia.
  - revert p. induction IH as [|n nodes Hn _ IHl]; intros p; [by intros ->|]. intros (r & Hr & H). apply Hn in Hr. apply IHl in H. lia.
  - induction IH as [|a alts Ha _ IHl]; [done|]. intros [H|H]; [by apply Ha|by apply IHl].
  - intros (k & _ & _ & H). by eapply times_mono.
Qed.
Lemma matches_within node p q : matches node p q -> (p <= length chars)%nat -> (q <= length chars)%nat.
Proof.
  revert p q. induction node as [|c| | | |b items|nodes IH|alts IH|n min max g IH] using Node_ind_nested; cbn; intros p q.
  - lia.
  - intros [_ ?]%reads_next. lia.
  - intros [_ ?]%reads_next. lia.
  - lia.
  - lia.
  - intros [_ ?]%reads_next. lia.
  - revert p. induction IH as [|n nodes Hn _ IHl]; intros p; [by intros ->|]. intros (r & Hr & H) Hp. eapply IHl; [done|]. by eapply Hn.
  - induction IH as [|a alts Ha _ IHl]; [done|]. intros [H|H]; [by apply Ha|by apply IHl].
  - intros (k & _ & _ & H). revert p H. induction k as [|k IHk]; intros p; [by intros <-|]. intros (r & Hr & H) Hp.
    eapply IHk; [done|]. by eapply IH.
Qed.
(** Nothing that cannot be empty matches without a character. *)
Lemma matches_empty node p : matches node p p -> nullable node = true.
Proof.
  revert p. induction node as [|c| | | |b items|nodes IH|alts IH|n min max g IH] using Node_ind_nested; cbn; intros p; [done| | |done..| | | |].
  - intros [? _]%reads_next. lia.
  - intros [? _]%reads_next. lia.
  - intros [? _]%reads_next. lia.
  - enough (forall q, q = p -> in_turn matches nodes p q -> forallb nullable nodes = true) as H by by apply H.
    intros q ->. induction IH as [|n nodes Hn _ IHl]; [done|]. intros (r & Hr & H). assert (r = p) as ->.
    { apply matches_mono in Hr. enough (r <= p)%nat by lia. clear -H. revert r H.
      induction nodes as [|n' nodes IHn]; cbn; intros r; [lia|]. intros (r' & Hr' & H). apply matches_mono in Hr'. apply IHn in H. lia. }
    cbn. by rewrite (Hn p Hr), (IHl H).
  - induction IH as [|a alts Ha _ IHl]; [done|]. intros [H|H]; cbn; [by rewrite (Ha p H)|by rewrite (IHl H), orb_true_r].
  - intros (k & Hk & _ & H). destruct (N.eqb_spec min 0) as [|Hmin]; [done|]. destruct k as [|k]; [lia|]. cbn [orb].
    destruct H as (r & Hr & H). assert (r = p) as ->; [|by eapply IH]. apply times_mono in H; [|apply matches_mono].
    apply matches_mono in Hr. lia.
Qed.
End positions.

(** ** Computations that decide *)
(** With its budget, [c] answers [true] only when [A] holds, and also when it
    does if [exact]; an answer for which the budget did not last says nothing. *)
Definition decides (exact : Prop) (c : Step bool) (A : Prop) : Prop :=
  forall st, let '(b, st') := c st in
  (overflowed st = true -> overflowed st' = true) /\
  (overflowed st' = false -> (b = true -> A) /\ (exact -> A -> b = true)).

Section decides.
Context (exact : Prop).
Local Abbreviation decides := (decides exact).

Lemma decides_iff c A B : decides c A -> (A -> B) -> (exact -> B -> A) -> decides c B.
Proof. intros H HA HB st. specialize (H st). destruct (c st) as [b st']. naive_solver. Qed.
Lemma decides_answer b A : (b = true -> A) -> (exact -> A -> b = true) -> decides (answer b) A.
Proof. intros H1 H2 st. cbn. naive_solver. Qed.
Lemma decides_guard c b B : (c = true -> decides b B) -> decides (guard_ c b) (c = true /\ B).
Proof.
  destruct c; intros H; [|by apply decides_answer; [|intros _ []]].
  eapply decides_iff; [by apply H|by split|by intros _ []].
Qed.
Lemma decides_either a b A B : decides a A -> decides b B -> decides (either a b) (A \/ B).
Proof.
  intros Ha Hb st. unfold either. specialize (Ha st). destruct (a st) as [r st1]. destruct Ha as [Hm Ha]. destruct r.
  - split; [done|]. intros Ho. split; [left; by apply Ha|done].
  - specialize (Hb st1). destruct (b st1) as [r st2]. destruct Hb as [Hm2 Hb]. split; [auto|]. intros Ho.
    assert (Ho1 : overflowed st1 = false) by (destruct (overflowed st1); [by rewrite Hm2 in Ho|done]). naive_solver.
Qed.
Lemma decides_tick b B : decides b B -> decides (both tick b) B.
Proof.
  intros Hb st. unfold both, tick. destruct (budget st =? 0); [by split|]. cbn.
  specialize (Hb (mkCtx (budget st - 1) (overflowed st))). cbn in Hb. exact Hb.
Qed.
End decides.

(** ** The matcher decides the meaning *)
Section matcher.
Context (exact : Prop) (chars : text) (ci : bool).
Local Abbreviation decides := (decides exact).
Local Abbreviation matches := (matches chars ci).

(** What stands behind a match is decided at each position from [p] on. *)
Definition decides_from (p : nat) (k : nat -> Step bool) (K : nat -> Prop) : Prop :=
  forall q, (p <= q <= length chars)%nat -> decides (k q) (K q).
Definition good (mt : Matcher) (R : nat -> nat -> Prop) : Prop :=
  forall p k K, (p <= length chars)%nat -> decides_from p k K -> decides (mt p k) (exists q, R p q /\ K q).

Lemma decides_from_later p r k K : decides_from p k K -> (p <= r)%nat -> decides_from r k K.
Proof. intros H Hr q Hq. apply H. lia. Qed.
Lemma good_here p k K (A : Prop) c : (p <= length chars)%nat -> decides_from p k K -> (c = true <-> A) ->
  decides (guard_ c (k p)) (exists q, (A /\ q = p) /\ K q).
Proof.
  intros Hp Hk Hc. eapply decides_iff; [apply decides_guard; intros _; by apply Hk|naive_solver..].
Qed.
Lemma good_char test : good (one_char chars test) (reads chars test).
Proof.
  intros p k K Hp Hk. unfold one_char, reads. destruct (chars !! p) as [c|] eqn:Hc.
  - assert (S p <= length chars)%nat by (by apply lookup_lt_Some in Hc).
    eapply decides_iff; [apply decides_guard; intros _; apply Hk; lia|naive_solver..].
  - apply decides_answer; [done|]. intros _ (q & (? & ? & _) & _). congruence.
Qed.
Lemma good_same mt R R' : good mt R -> (forall p q, R p q <-> R' p q) -> good mt R'.
Proof.
  intros H HR p k K Hp Hk. eapply decides_iff; [by apply H|..]; [|intros _]; intros (q & Hq & HK); exists q; (split; [by apply HR|done]).
Qed.

Lemma good_concat mt nodes : Forall (fun n => good (mt n) (matches n)) nodes -> good (m_concat mt nodes) (in_turn matches nodes).
Proof.
  intros H. induction H as [|n nodes Hn _ IH]; intros p k K Hp Hk; cbn.
  - eapply decides_iff; [apply Hk; lia|naive_solver..].
  - eapply decides_iff; [apply (Hn p _ (fun r => exists q, in_turn matches nodes r q /\ K q)); [done|]|naive_solver..].
    intros r Hr. apply IH; [lia|]. eapply decides_from_later; [done|lia].
Qed.
Lemma good_any mt alts : Forall (fun n => good (mt n) (matches n)) alts -> good (m_any mt alts) (one_of matches alts).
Proof.
  intros H. induction H as [|a alts Ha _ IH]; intros p k K Hp Hk; cbn.
  - apply decides_answer; [done|]. naive_solver.
  - eapply decides_iff; [apply decides_either; [by apply Ha|by apply IH]|naive_solver..].
Qed.

(** *** Repetition *)
(** Behind [count] repetitions, those that may follow. *)
Definition more_times (R : nat -> nat -> Prop) (min : N) (max : option N) (count : N) (K : nat -> Prop) (p : nat) : Prop :=
  exists n q, times R n p q /\ min <= count + N.of_nat n /\ at_most max (count + N.of_nat n) /\ K q.
(** What the matcher does of it: no repetition without a character but as the last one. *)
Definition goes_on (R : nat -> nat -> Prop) (min : N) (max : option N) (count : N) (K : nat -> Prop) (p : nat) : Prop :=
  match max with None => true | Some m => count <? m end = true /\
  exists r, R p r /\ (r = p /\ min <= count + 1 /\ K r \/ r <> p /\ more_times R min max (count + 1) K r).

Lemma more_times_sound R min max count K p : at_most max count ->
  goes_on R min max count K p \/ min <= count /\ K p -> more_times R min max count K p.
Proof.
  intros Hmax [[Hc (r & Hr & Hk)]|[Hmin HK]].
  - assert (Hle : at_most max (count + 1)) by (destruct max; cbn [at_most] in *; [apply N.ltb_lt in Hc; lia|done]).
    destruct Hk as [(-> & Hmin & HK)|(_ & n & q & Hn & Hmin & Hle' & HK)].
    + exists 1%nat, p. repeat split; [by exists p|lia|done..].
    + exists (S n), q. repeat split; [by exists r|lia| |done]. by replace (count + N.of_nat (S n)) with (count + 1 + N.of_nat n) by lia.
  - exists 0%nat, p. rewrite N.add_0_r. by repeat split.
Qed.
Lemma more_times_complete R min max count K p : min <= 1 \/ (forall p, ~ R p p) ->
  more_times R min max count K p -> goes_on R min max count K p \/ min <= count /\ K p.
Proof.
  intros HW (n & q & Hn & Hmin & Hmax & HK). revert Hn Hmin Hmax. induction n as [|n IH]; intros Hn Hmin Hmax.
  { cbn in Hn. subst q. right. by rewrite N.add_0_r in Hmin. }
  destruct Hn as (r & Hr & Hn).
  assert (Hc : match max with None => true | Some m => count <? m end = true)
    by (destruct max; cbn [at_most] in *; [apply N.ltb_lt; lia|done]).
  destruct (decide (r = p)) as [->|Hne].
  - destruct HW as [HW|HW]; [|by edestruct HW].
    destruct (decide (min <= count + N.of_nat n)) as [Hle|Hgt].
    + apply IH; [done|done|]. destruct max; cbn [at_most] in *; [lia|done].
    + left. split; [done|]. exists p. split; [done|]. left. assert (n = 0%nat) as -> by lia. cbn in Hn. subst q. split; [done|].
      split; [lia|done].
  - left. split; [done|]. exists r. split; [done|]. right. split; [done|]. exists n, q.
    replace (count + 1 + N.of_nat n) with (count + N.of_nat (S n)) by lia. by repeat split.
Qed.

Lemma good_repeat mt R min max g : good mt R -> (forall p q, R p q -> (p <= q)%nat) ->
  (exact -> min <= 1 \/ forall p, ~ R p p) ->
  forall fuel count p k K, (length chars - p < fuel)%nat -> (p <= length chars)%nat -> at_most max count -> decides_from p k K ->
  decides (m_repeat mt min max g fuel count p k) (more_times R min max count K p).
Proof.
  intros Hmt Hmono HW. induction fuel as [|fuel IH]; intros count p k K Hf Hp Hmax Hk; [lia|]. cbn [m_repeat].
  eapply (decides_iff _ _ (goes_on R min max count K p \/ min <= count /\ K p));
    [|by apply more_times_sound|intros Hx; apply more_times_complete; auto].
  assert (Hstop : decides (guard_ (min <=? count) (k p)) (min <= count /\ K p)).
  { eapply decides_iff; [apply decides_guard; intros _; apply Hk; lia|..]; [|intros _]; by rewrite N.leb_le. }
  assert (Hmore : decides (guard_ match max with None => true | Some m => count <? m end (mt p (fun r =>
    if Nat.eqb r p then guard_ (min <=? count + 1) (k r) else m_repeat mt min max g fuel (count + 1) r k))) (goes_on R min max count K p)).
  { apply decides_guard. intros Hc. apply Hmt; [done|]. intros r Hr. destruct (Nat.eqb_spec r p) as [->|Hne].
    - eapply decides_iff; [apply decides_guard; intros _; apply Hk; lia|..]; [|intros _]; rewrite N.leb_le; naive_solver lia.
    - eapply decides_iff; [apply IH; [lia|lia| |eapply decides_from_later; [done|lia]]|..]; [|naive_solver..].
      destruct max; cbn [at_most] in *; [apply N.ltb_lt in Hc; lia|done]. }
  destruct g; [by apply decides_either|]. eapply decides_iff; [by apply decides_either|naive_solver..].
Qed.

Lemma good_ticked mt R : good mt R -> good (fun p k => both tick (mt p k)) R.
Proof. intros H p k K Hp Hk. by apply decides_tick, H. Qed.
Lemma forallb_Forall_impl {A} (f : A -> bool) (Q : A -> Prop) l :
  Forall (fun x => (exact -> f x = true) -> Q x) l -> (exact -> forallb f l = true) -> Forall Q l.
Proof.
  intros H Hf. induction H as [|x l Hx _ IH]; [done|]. constructor; [apply Hx|apply IH]; intros Hex; by apply andb_true_iff in Hf as [].
Qed.
Lemma good_node node : (exact -> repeats_advance node = true) -> good (m chars ci node) (matches node).
Proof.
  induction node as [|c| | | |b items|nodes IH|alts IH|n min max g IH] using Node_ind_nested; intros Hok;
    apply (good_ticked (fun p k => _)).
  - intros p k K Hp Hk. eapply decides_iff; [apply Hk; lia|naive_solver..].
  - apply good_char.
  - apply good_char.
  - intros p k K Hp Hk. eapply decides_iff; [by apply (good_here p k K (p = 0%nat)); [..|apply Nat.eqb_eq]|cbn; naive_solver..].
  - intros p k K Hp Hk. eapply decides_iff; [by apply (good_here p k K (p = length chars)); [..|apply Nat.eqb_eq]|cbn; naive_solver..].
  - eapply good_same; [apply good_char|]. intros p q. unfold reads. split; intros (c & Hc & Ht & ->); exists c; (split; [done|]);
      (split; [|done]); by destruct (existsb _ _), b.
  - eapply good_concat, forallb_Forall_impl; [exact IH|exact Hok].
  - eapply good_any, forallb_Forall_impl; [exact IH|exact Hok].
  - intros p k K Hp Hk. assert (Hn : exact -> repeats_advance n = true) by (intros Hex; by apply andb_true_iff in Hok as []).
    eapply decides_iff; [apply (good_repeat (m chars ci n) (matches n) min max g); [by apply IH| | |lia|done| |done]|..].
    + apply matches_mono.
    + intros Hex. specialize (Hok Hex). cbn in Hok. apply andb_true_iff in Hok as [Hok _]. apply orb_true_iff in Hok as [Hok|Hok].
      * left. by apply N.leb_le.
      * right. intros q Hq. apply matches_empty in Hq. by rewrite Hq in Hok.
    + destruct max; [cbn [at_most]; lia|done].
    + intros (j & q & Hj & Hmin & Hmax & HK). rewrite N.add_0_l in Hmin, Hmax. exists q. split; [by exists j|done].
    + intros _ (q & (j & Hmin & Hmax & Hj) & HK). exists j, q. by rewrite N.add_0_l.
Qed.
End matcher.

Section full_match.
Context (r : Regex.t) (input : text).
Definition means : Prop := matches input (case_insensitive r) (root r) 0 (length input).

Lemma is_match_decides (exact : Prop) b : (exact -> repeats_advance (root r) = true) -> is_match r input = Ok b ->
  (b = true -> means) /\ (exact -> means -> b = true).
Proof.
  intros Hok. unfold is_match.
  pose proof (good_node exact input (case_insensitive r) (root r) Hok 0%nat (fun p => answer (Nat.eqb p (length input)))
    (fun p => p = length input) ltac:(lia)) as H.
  specialize (H ltac:(intros q _; apply decides_answer; by rewrite Nat.eqb_eq) (mkCtx MATCH_BUDGET false)).
  destruct (m _ _ _ _ _ _) as [b' st]. destruct H as [_ H]. destruct (overflowed st); [done|]. intros [= <-].
  unfold means. naive_solver.
Qed.

(** C22: When the budget lasts, the matcher decides what a pattern means: if no
    part that can match without a character is to be repeated twice or more, it
    answers [true] for exactly the inputs that match as a whole, whatever is
    greedy or lazy, nested or alternative. *)
Theorem match_exact b : repeats_advance (root r) = true -> is_match r input = Ok b -> b = true <-> means.
Proof. intros Hok Hb. destruct (is_match_decides True b ltac:(done) Hb). naive_solver. Qed.
(** It never answers [true] for an input that does not match. *)
Theorem match_sound : is_match r input = Ok true -> means.
Proof. intros Hb. destruct (is_match_decides False true ltac:(done) Hb). auto. Qed.
End full_match.

(** ** Examples *)
Module Patterns.
Definition a_or_b_c : Regex.t := mkRegex (Concat [Repeat (Alternate [Literal (ch "a"); Literal (ch "b")]) 0 None true; Literal (ch "c")]) false.
Lemma match_exact_witness : is_match a_or_b_c (lit "abac") = Ok true /\ (true = true <-> means a_or_b_c (lit "abac")).
Proof.
  assert (H : is_match a_or_b_c (lit "abac") = Ok true) by (by vm_compute). split; [exact H|].
  apply (match_exact a_or_b_c (lit "abac") true); [reflexivity|exact H].
Defined.

(** A part that may be empty, to be repeated three times: the matcher gives up
    at the first repetition without a character, although the pattern matches. *)
Definition thrice : Regex.t := mkRegex (Repeat (Repeat (Literal (ch "a")) 0 (Some 1) true) 3 (Some 3) true) false.
Theorem empty_repetition_lost :
  compile (lit "(a?){3}") = Some (Ok thrice) /\ is_match thrice (lit "a") = Ok false /\ means thrice (lit "a").
Proof.
  split; [by vm_compute|]. split; [by vm_compute|]. exists 3%nat. split; [done|]. split; [done|].
  exists 1%nat. split.
  { exists 1%nat. split; [done|]. split; [done|]. exists 1%nat. split; [|done]. by exists (ch "a"). }
  exists 1%nat. split; [by exists 0%nat|]. exists 1%nat. split; [by exists 0%nat|done].
Qed.
End Patterns.
