(* ===== verification/CypherRegexPrint.v ===== *)
(** * Patterns printed and parsed
    ([src/src/cypher/regex.rs])

    A text for every pattern, which the parser reads back to that pattern, and
    the totality of the parser. *)
From Stdlib Require Import Ascii.
From S2P Require Import Prelude CypherLexer CypherTokens CypherRegex CypherRegexSpec.
Import Regex.
Local Open Scope list_scope.
Local Open Scope N_scope.
Local Open Scope regex_scope.

(** ** Steps of the parser *)
Lemma bind_answer {A B} (x : P A) (f : A -> P B) s s' a : x s = Some (Ok (a, s')) -> p_bind x f s = f a s'.
Proof. unfold p_bind. by intros ->. Qed.
Lemma peek_bind {B} (f : option N -> P B) s : p_bind p_peek f s = f (peek s) s.
Proof. done. Qed.
Lemma advance_bind {B} (f : unit -> P B) s : p_bind p_advance f s = f tt (advance s).
Proof. done. Qed.
Lemma choice_eq {A} c (t e : P A) s : p_if c t e s = if c s then t s else e s.
Proof. done. Qed.

(** ** Every pattern is answered *)
(** A parser that answers when fuel for [n] characters is left, and leaves no
    more characters than it found (fewer, if [strict]). *)
Definition answers {A} (strict : bool) (n : nat) (x : P A) : Prop :=
  forall s, (length (rest s) <= n)%nat -> match x s with
  | Some (Ok (_, s')) => (length (rest s') + (if strict then 1 else 0) <= length (rest s))%nat
  | Some (Err _) => True
  | None => False
  end.
Section answers.
Context {A B : Type}.
Lemma answers_weaken b n (x : P A) : answers b n x -> answers false n x.
Proof. intros H s Hs. specialize (H s Hs). destruct (x s) as [[[]|]|]; [|done..]. destruct b; lia. Qed.
Lemma answers_ret n (a : A) : answers false n (p_ret a).
Proof. intros s Hs. cbn. lia. Qed.
Lemma answers_err b n msg : answers b n (p_err (A := A) msg).
Proof. by intros s Hs. Qed.
Lemma answers_if b n c (t e : P A) : answers b n t -> answers b n e -> answers b n (p_if c t e).
Proof. intros Ht He s Hs. unfold p_if. by destruct (c s); [apply Ht|apply He]. Qed.
Lemma answers_bind b c n (x : P A) (f : A -> P B) : answers b n x -> (forall a, answers c n (f a)) -> answers (b || c) n (p_bind x f).
Proof.
  intros Hx Hf s Hs. unfold p_bind. specialize (Hx s Hs). destruct (x s) as [[[a s1]|]|]; [|done..].
  specialize (Hf a s1 ltac:(lia)). destruct (f a s1) as [[[b' s2]|]|]; [|done..]. destruct b, c; cbn [orb]; lia.
Qed.
Lemma answers_loop n (body : A -> P (A + B)) a : (forall a s, (length (rest s) <= n)%nat -> match body a s with
    | Some (Ok (inl _, s')) => (length (rest s') < length (rest s))%nat
    | Some (Ok (inr _, s')) => (length (rest s') <= length (rest s))%nat
    | Some (Err _) => True
    | None => False end) -> answers false n (loop body a).
Proof.
  intros Hb s Hs. unfold loop. enough (forall fuel a s, (length (rest s) <= n)%nat -> (length (rest s) < fuel)%nat ->
    match loop_fuel fuel body a s with Some (Ok (_, s')) => (length (rest s') + 0 <= length (rest s))%nat | Some (Err _) => True | None => False end)
    as H by (apply H; lia).
  clear a s Hs. induction fuel as [|fuel IH]; intros a s Hn Hf; [lia|]. cbn [loop_fuel]. specialize (Hb a s Hn).
  destruct (body a s) as [[[[a'|b] s']|]|]; [|lia|done..]. specialize (IH a' s' ltac:(lia) ltac:(lia)).
  destruct (loop_fuel _ _ _ _) as [[[]|]|]; [lia|done..].
Qed.
End answers.

(** The same of a parser at a character, which it takes. *)
Definition takes {A} (n : nat) (x : P A) : Prop :=
  forall s, rest s <> [] -> (length (rest s) <= S n)%nat -> match x s with
  | Some (Ok (_, s')) => (length (rest s') < length (rest s))%nat
  | Some (Err _) => True
  | None => False
  end.
Lemma takes_advance {A} n (x : P A) : answers false n x -> takes n (run p_advance in x).
Proof.
  intros H s Hne Hs. rewrite advance_bind. specialize (H (advance s)). destruct s as [[|c r] p b]; [done|]. cbn in *.
  specialize (H ltac:(lia)). destruct (x _) as [[[a s1]|]|]; [lia|done..].
Qed.
Lemma takes_choice {A} n c (t e : P A) : takes n t -> takes n e -> takes n (p_if c t e).
Proof. intros Ht He s Hne Hs. unfold p_if. by destruct (c s); [apply Ht|apply He]. Qed.
Lemma takes_err {A} n msg : takes n (p_err (A := A) msg).
Proof. by intros s. Qed.
Lemma takes_then {A B} n (x : P A) (f : A -> P B) : takes n x -> (forall a, answers false n (f a)) -> takes n (p_bind x f).
Proof.
  intros Hx Hf s Hne Hs. unfold p_bind. specialize (Hx s Hne Hs). destruct (x s) as [[[a s1]|]|]; [|done..].
  specialize (Hf a s1 ltac:(lia)). destruct (f a s1) as [[[b' s2]|]|]; [lia|done..].
Qed.
Lemma answers_peek {A} n msg (g : N -> P A) : (forall c, takes n (g c)) ->
  answers true (S n) (do c := p_peek in match c with None => p_err msg | Some c => g c end).
Proof.
  intros H s Hs. rewrite peek_bind. unfold peek. destruct (rest s) as [|c r] eqn:E; [done|]. cbn [head].
  specialize (H c s ltac:(by rewrite E) ltac:(by rewrite E)). rewrite E in H. destruct (g c s) as [[[]|]|]; [lia|done..].
Qed.
Lemma answers_at {A} n a (t e : P A) : takes (pred n) t -> answers false n e -> answers false n (p_if (at_char a) t e).
Proof.
  intros Ht He s Hs. unfold p_if. destruct (at_char a s) eqn:E; [|by apply He]. specialize (Ht s).
  unfold at_char, is_char, peek in E. destruct (rest s) as [|c r] eqn:Er; [done|]. specialize (Ht ltac:(done) ltac:(cbn in *; lia)).
  destruct (t s) as [[[]|]|]; [cbn in *; lia|done..].
Qed.
Lemma answers_fewer {A} b n n' (x : P A) : answers b n x -> (n' <= n)%nat -> answers b n' x.
Proof. intros H Hn s Hs. apply H. lia. Qed.
Lemma answers_then {A B} b n (x : P A) (f : A -> P B) : answers b n x -> (forall a, answers false n (f a)) -> answers b n (p_bind x f).
Proof. intros Hx Hf. pose proof (answers_bind b false n x f Hx Hf) as H. by rewrite orb_false_r in H. Qed.

Lemma read_number_shrinks s : (length (rest (read_number s).2) <= length (rest s))%nat.
Proof.
  unfold read_number. destruct (read_digits 0 (rest s)) as [v [|n]]; cbn [snd]; [done|]. unfold advance_by. cbn [rest]. rewrite length_drop. lia.
Qed.
Lemma advance_shrinks s : (length (rest (advance s)) <= length (rest s))%nat.
Proof. destruct s as [[|c r] p b]; cbn; lia. Qed.
Lemma brace_shrinks s : (length (rest (try_parse_brace s).2) <= length (rest s))%nat.
Proof.
  unfold try_parse_brace. pose proof (read_number_shrinks (advance s)) as H1. pose proof (advance_shrinks s) as H0.
  destruct (read_number (advance s)) as [mn s1]. cbn [snd] in H1. pose proof (advance_shrinks s1) as H2.
  destruct (at_char "}" s1); [destruct mn; cbn [snd]; lia|]. destruct (at_char "," s1); [|done].
  pose proof (read_number_shrinks (advance s1)) as H3. destruct (read_number (advance s1)) as [mx s2]. cbn [snd] in H3.
  pose proof (advance_shrinks s2) as H4. destruct mn; [|done]. destruct (at_char "}" s2); cbn [snd]; [lia|done].
Qed.
Lemma quant_answers n a mn mx : answers false n (finish_quant a mn mx).
Proof.
  unfold finish_quant. repeat (apply answers_at; [apply takes_advance, answers_ret|]). apply answers_ret.
Qed.

Lemma class_atom_answers n : answers true (S n) read_class_atom.
Proof.
  unfold read_class_atom. apply answers_peek. intros c. apply takes_advance. destruct (c =? ch "\"); [|apply answers_ret].
  apply answers_fewer with (n := S n); [|lia]. eapply answers_weaken. apply answers_peek. intros e. apply takes_advance, answers_ret.
Qed.
Lemma class_answers n : takes n parse_class.
Proof.
  unfold parse_class. apply takes_advance.
  apply answers_then; [apply answers_at; [apply takes_advance|]; apply answers_ret|]. intros neg. apply answers_fewer with (n := S n); [|lia].
  apply answers_then; [|intros; apply answers_ret]. apply answers_loop. intros [items first] s Hs. unfold class_step. rewrite peek_bind.
  destruct (peek s) as [c|] eqn:Ec; [|done]. destruct ((c =? ch "]") && negb first).
  - rewrite advance_bind. cbn. apply advance_shrinks.
  - unfold p_bind at 1. pose proof (class_atom_answers n s Hs) as Ha. destruct (read_class_atom s) as [[[[it|lo] s1]|]|]; [cbn; lia| |done..].
    rewrite choice_eq. destruct (at_range s1); [|cbn; lia]. rewrite advance_bind. unfold p_bind at 1. pose proof (advance_shrinks s1).
    pose proof (class_atom_answers n (advance s1) ltac:(lia)) as Hb.
    destruct (read_class_atom (advance s1)) as [[[[it|hi] s2]|]|]; [cbn; lia| |done..]. destruct (hi <? lo); [done|cbn; lia].
Qed.
Lemma escape_answers n : takes n parse_escape.
Proof.
  apply takes_advance. apply answers_fewer with (n := S n); [|lia]. eapply answers_weaken. apply answers_peek. intros e. apply takes_advance, answers_ret.
Qed.

Section alternation.
Context (alt : P Node) (n : nat) (Halt : answers false n alt).
Lemma close_answers k : (k <= n)%nat -> answers false k (close_group alt).
Proof using Halt.
  intros Hk. apply answers_then; [by eapply answers_fewer|]. intros a.
  apply answers_at; [apply takes_advance, answers_ret|apply answers_err].
Qed.
Lemma group_answers : takes n (parse_group alt).
Proof using Halt.
  assert (Hc : forall k, (k <= n)%nat -> takes k (run p_advance in close_group alt)) by (intros; by apply takes_advance, close_answers).
  apply takes_advance, answers_at; [|by apply close_answers].
  apply takes_advance, answers_at; [apply Hc; lia|]. apply answers_at; [|apply answers_err]. apply takes_advance.
  intros s Hs. unfold p_bind, p_fold_case. set (s' := mkParser _ _ _). enough (answers false (pred (pred n)) (p_if (at_char ")")
    (run p_advance in p_ret Empty) (p_if (at_char ":") (run p_advance in close_group alt) (p_err (lit "unsupported inline flag group"))))) as H
    by exact (H s' Hs).
  apply answers_at; [apply takes_advance, answers_ret|]. apply answers_at; [apply Hc; lia|apply answers_err].
Qed.
Lemma atom_answers : answers true (S n) (parse_atom alt).
Proof using Halt.
  apply answers_peek. intros c. repeat (destruct (_ =? _); [first [apply group_answers|apply class_answers|apply escape_answers
    |apply takes_advance, answers_ret]|]). destruct (_ || _); [apply takes_err|apply takes_advance, answers_ret].
Qed.
Lemma repeat_answers : answers true (S n) (parse_repeat alt).
Proof using Halt.
  apply answers_then; [apply atom_answers|]. intros a.
  repeat (apply answers_at; [apply takes_advance, quant_answers|]).
  intros s Hs. rewrite choice_eq. destruct (at_char "{" s); [|cbn; lia]. pose proof (brace_shrinks s) as Hb.
  destruct (try_parse_brace s) as [[[mn mx]|] s']; cbn [snd] in Hb; [|cbn; lia].
  pose proof (quant_answers (S n) a mn mx s' ltac:(lia)) as H. destruct (finish_quant a mn mx s') as [[[]|]|]; [lia|done..].
Qed.
Lemma concat_answers : answers false (S n) (parse_concat alt).
Proof using Halt.
  apply answers_then; [|intros; apply answers_ret]. apply answers_loop. intros items s Hs. rewrite peek_bind.
  destruct (peek s) as [c|]; [|cbn; lia]. destruct (_ || _); [cbn; lia|].
  pose proof (repeat_answers s Hs) as H. unfold p_bind. destruct (parse_repeat alt s) as [[[a s']|]|]; [cbn; lia|done..].
Qed.
Lemma alternation_answers : answers false (S n) (parse_alternation_body alt).
Proof using Halt.
  apply answers_then; [apply concat_answers|]. intros first. apply answers_then; [|intros; apply answers_ret].
  apply answers_loop. intros branches s Hs. rewrite choice_eq. destruct (at_char "|" s) eqn:E; [|cbn; lia].
  rewrite advance_bind. assert (Hl : (length (rest (advance s)) < length (rest s))%nat).
  { unfold at_char, is_char, peek in E. destruct s as [[|c r] p b]; [done|cbn; lia]. }
  pose proof (concat_answers (advance s) ltac:(lia)) as H. unfold p_bind.
  destruct (parse_concat alt (advance s)) as [[[a s']|]|]; [cbn; lia|done..].
Qed.
End alternation.

Lemma pattern_answers fuel n : (n < fuel)%nat -> answers false n (parse_alternation fuel).
Proof.
  revert n. induction fuel as [|fuel IH]; intros n Hn; [lia|]. cbn [parse_alternation]. destruct n as [|n].
  - intros [[|c r] p b] Hs; [cbn; lia|cbn in Hs; lia].
  - apply alternation_answers, IH. lia.
Qed.

(** The parser answers on every pattern, with a tree or an error. *)
Theorem compile_answers pattern : is_Some (compile pattern).
Proof.
  unfold compile. pose proof (pattern_answers (S (length pattern)) (length pattern) ltac:(lia) (mkParser pattern 0 false) ltac:(done)) as H.
  by destruct (parse_alternation _ _) as [[[]|]|].
Qed.

(** ** Printing *)
Definition among (cs : string) (c : N) : bool := existsb (fun x => c =? x) (lit cs).
Definition show_char (c : N) : text := if among "()[]{}.*+?|^$\" c then [ch "\"; c] else [c].
Definition show_class_char (c : N) : text := if among "\]^-" c then [ch "\"; c] else [c].
Definition show_item (it : ClassItem) : text :=
  match it with
  | CChar c => show_class_char c
  | CRange a b => show_class_char a ++ lit "-" ++ show_class_char b
  | Digit => lit "\d" | NotDigit => lit "\D" | Word => lit "\w" | NotWord => lit "\W" | Space => lit "\s" | NotSpace => lit "\S"
  end.
Definition lazily (greedy : bool) : text := if greedy then [] else lit "?".
Definition show_quant (min : N) (max : option N) (greedy : bool) : text :=
  lit "{" ++ number_text 10 min ++ lit "," ++ match max with Some m => number_text 10 m | None => [] end ++ lit "}" ++ lazily greedy.
Definition group (t : text) : text := lit "(?:" ++ t ++ lit ")".
Definition is_leaf (n : Node) : bool :=
  match n with Literal _ | AnyChar | Start | End_ | Class_ _ _ => true | _ => false end.
Definition show_atom (show : Node -> text) (n : Node) : text := if is_leaf n then show n else group (show n).
Definition show_part (show : Node -> text) (n : Node) : text :=
  match n with Repeat _ _ _ _ => show n | _ => show_atom show n end.
Definition show_branch (show : Node -> text) (n : Node) : text :=
  match n with Alternate _ => group (show n) | _ => show n end.
Definition join_branches (ts : list text) : text :=
  match ts with [] => [] | t :: ts => t ++ concat ((fun t => lit "|" ++ t) <$> ts) end.
Fixpoint show (n : Node) : text :=
  match n with
  | Empty => []
  | Literal c => show_char c
  | AnyChar => lit "."
  | Start => lit "^"
  | End_ => lit "$"
  | Class_ negated items => lit "[" ++ (if negated then lit "^" else []) ++ concat (map show_item items) ++ lit "]"
  | Concat nodes => concat (map (show_part show) nodes)
  | Alternate alts => join_branches (map (show_branch show) alts)
  | Repeat n min max greedy => show_atom show n ++ show_quant min max greedy
  end.

(** Patterns as the parser builds them. *)
Definition item_ok (it : ClassItem) : bool := match it with CRange a b => a <=? b | _ => true end.
Fixpoint built (n : Node) : bool :=
  match n with
  | Class_ _ items => negb (bool_decide (items = [])) && forallb item_ok items
  | Concat nodes => (2 <=? length nodes)%nat && forallb built nodes
  | Alternate alts => (2 <=? length alts)%nat && forallb built alts
  | Repeat n min max _ => built n && (min <=? USIZE_MAX) && match max with Some m => m <=? USIZE_MAX | None => true end
  | _ => true
  end.

Definition yields {A} (x : P A) (t rest : text) (a : A) : Prop :=
  forall p c, exists p', x (mkParser (t ++ rest) p c) = Some (Ok (a, mkParser rest p' c)).
Lemma yields_ret {A} (a : A) rest : yields (p_ret a) [] rest a.
Proof. intros p c. by exists p. Qed.
Lemma yields_bind {A B} (x : P A) (f : A -> P B) t t' rest a b : yields x t (t' ++ rest) a -> yields (f a) t' rest b ->
  yields (p_bind x f) (t ++ t') rest b.
Proof.
  intros Hx Hf p c. destruct (Hx p c) as [p1 H1]. destruct (Hf p1 c) as [p2 H2]. exists p2.
  rewrite <- app_assoc. by rewrite (bind_answer _ _ _ _ _ H1).
Qed.
Lemma yields_advance {A} (x : P A) c t rest a : yields x t rest a -> yields (run p_advance in x) (c :: t) rest a.
Proof. intros H p b. rewrite advance_bind. apply H. Qed.
Lemma yields_peek {A} (g : option N -> P A) t rest a : yields (g (head (t ++ rest))) t rest a -> yields (do c := p_peek in g c) t rest a.
Proof. intros H p b. rewrite peek_bind. apply H. Qed.
Lemma yields_then {A} (c : Parser -> bool) (x y : P A) t rest a : (forall p b, c (mkParser (t ++ rest) p b) = true) -> yields x t rest a ->
  yields (p_if c x y) t rest a.
Proof. intros Hc H p b. rewrite choice_eq, Hc. apply H. Qed.
Lemma yields_else {A} (c : Parser -> bool) (x y : P A) t rest a : (forall p b, c (mkParser (t ++ rest) p b) = false) -> yields y t rest a ->
  yields (p_if c x y) t rest a.
Proof. intros Hc H p b. rewrite choice_eq, Hc. apply H. Qed.

(** *** Numbers *)
Definition value_from (v : N) (ds : text) : N := foldl (fun n c => n * 10 + digit_value c) v ds.
Lemma value_from_mono v ds : v <= value_from v ds.
Proof. revert v. induction ds as [|c ds IH]; intros v; cbn; [lia|]. specialize (IH (v * 10 + digit_value c)). unfold value_from in IH. lia. Qed.
Lemma read_digits_all v ds rest : Forall (fun c => is_ascii_digit c = true) ds ->
  match rest with c :: _ => is_ascii_digit c = false | [] => True end -> value_from v ds <= USIZE_MAX ->
  read_digits v (ds ++ rest) = (value_from v ds, length ds).
Proof.
  intros Hds Hr. revert v. induction Hds as [|c ds Hc _ IH]; intros v Hv; cbn [app read_digits].
  - destruct rest as [|c r]; [done|]. cbn [read_digits]. by rewrite Hr.
  - rewrite Hc. assert (Hd : digit_value c = c - 48) by (unfold digit_value; unfold is_ascii_digit in Hc; by rewrite Hc).
    assert (Hadd : add_digit v (c - 48) = v * 10 + digit_value c).
    { pose proof (value_from_mono (v * 10 + digit_value c) ds) as H. unfold value_from in *. cbn [foldl] in Hv.
      unfold add_digit. rewrite Hd in *. rewrite !N.min_r; lia. }
    rewrite Hadd, IH by (unfold value_from in *; exact Hv). done.
Qed.
Lemma read_number_text n c rest p b : n <= USIZE_MAX -> is_ascii_digit c = false ->
  exists p', read_number (mkParser (number_text 10 n ++ c :: rest) p b) = (Some n, mkParser (c :: rest) p' b).
Proof.
  intros Hn Hc. destruct (number_text_spec 10 n ltac:(lia)) as (Hne & Hv & _).
  assert (Hd : Forall (fun c => is_ascii_digit c = true) (number_text 10 n)) by (by apply number_digits).
  unfold read_number. cbn [CypherRegex.Regex.rest]. rewrite (read_digits_all 0) by (try done; unfold digits_value in Hv; unfold value_from; by rewrite Hv).
  unfold value_from. unfold digits_value in Hv. rewrite Hv. destruct (length (number_text 10 n)) eqn:El; [by destruct (number_text 10 n)|].
  eexists. unfold advance_by. cbn [CypherRegex.Regex.rest]. rewrite <- El, drop_app_length. done.
Qed.
Lemma brace_shown min max rest p b : min <= USIZE_MAX -> match max with Some m => m <= USIZE_MAX | None => True end ->
  exists p', try_parse_brace (mkParser (lit "{" ++ number_text 10 min ++ lit "," ++ match max with Some m => number_text 10 m | None => [] end
    ++ lit "}" ++ rest) p b) = (Some (min, max), mkParser rest p' b).
Proof.
  intros Hmin Hmax. unfold try_parse_brace, advance. cbn [CypherRegex.Regex.rest tail pos ci app lit fmap list_fmap].
  change (tail (lit "{" ++ ?x)) with x.
  destruct (read_number_text min (ch ",") (match max with Some m => number_text 10 m | None => [] end ++ lit "}" ++ rest) (p + 1) b Hmin eq_refl)
    as [p1 H1].
  change (lit "," ++ ?x) with (ch "," :: x). rewrite H1. cbn [at_char is_char peek head]. change (at_char "}" (mkParser (ch "," :: ?x) _ _)) with false.
  change (at_char "," (mkParser (ch "," :: ?x) _ _)) with true. cbn iota. cbn [CypherRegex.Regex.rest tail pos ci].
  destruct max as [mx|].
  - destruct (read_number_text mx (ch "}") rest (p1 + 1) b Hmax eq_refl) as [p2 H2]. change (lit "}" ++ rest) with (ch "}" :: rest). rewrite H2.
    change (at_char "}" (mkParser (ch "}" :: rest) p2 b)) with true. by eexists.
  - cbn [app]. change (lit "}" ++ rest) with (ch "}" :: rest).
    change (read_number (mkParser (ch "}" :: rest) (p1 + 1) b)) with (@None N, mkParser (ch "}" :: rest) (p1 + 1) b). cbn iota.
    change (at_char "}" (mkParser (ch "}" :: rest) (p1 + 1) b)) with true. by eexists.
Qed.

(** *** Loops *)
Lemma loop_more_fuel {A B} (body : A -> P (A + B)) f f' a s r : (f <= f')%nat -> loop_fuel f body a s = Some r -> loop_fuel f' body a s = Some r.
Proof.
  revert f' a s. induction f as [|f IH]; intros [|f'] a s Hf; [done..|lia|]. cbn [loop_fuel].
  destruct (body a s) as [[[[a'|b] s']|e]|]; [|done..]. apply IH. lia.
Qed.
Lemma yields_more {A B} (body : A -> P (A + B)) a a' t t' rest b : yields (body a) t (t' ++ rest) (inl a') -> t <> [] ->
  yields (loop body a') t' rest b -> yields (loop body a) (t ++ t') rest b.
Proof.
  intros Hb Ht Hl p c. destruct (Hb p c) as [p1 H1]. destruct (Hl p1 c) as [p2 H2]. exists p2. rewrite <- app_assoc.
  unfold loop in *. cbn [loop_fuel]. rewrite H1. eapply loop_more_fuel; [|exact H2]. cbn [Regex.rest]. destruct t; [done|].
  cbn [app length]. rewrite !length_app. lia.
Qed.
Lemma yields_done {A B} (body : A -> P (A + B)) a t rest b : yields (body a) t rest (inr b) -> yields (loop body a) t rest b.
Proof. intros Hb p c. destruct (Hb p c) as [p1 H1]. exists p1. unfold loop. cbn [loop_fuel]. by rewrite H1. Qed.

(** *** Quantifiers *)
(** No quantifier stands here. *)
Definition quiet (rest : text) : Prop := match rest with c :: _ => among "*+?{" c = false | [] => True end.
Lemma quiet_at a rest p b : quiet rest -> among "*+?{" (ch a) = true -> at_char a (mkParser rest p b) = false.
Proof.
  unfold quiet, at_char, peek, is_char. cbn [Regex.rest]. destruct rest as [|c r]; [done|]. cbn [head]. intros Hc Ha.
  destruct (N.eqb_spec c (ch a)) as [->|]; [by rewrite Ha in Hc|done].
Qed.
Lemma quant_yields n min max g rest : quiet rest ->
  yields (finish_quant n min max) (lazily g) rest (Repeat n min max g).
Proof.
  intros Hr. unfold finish_quant, lazily. destruct g.
  - apply yields_else; [intros; by apply quiet_at|]. apply yields_else; [intros; by apply quiet_at|]. apply yields_ret.
  - apply yields_then; [done|]. apply yields_advance, yields_ret.
Qed.
Section repeats.
Context (alt : P Node).
Lemma repeat_plain t rest n : yields (parse_atom alt) t rest n -> quiet rest -> yields (parse_repeat alt) t rest n.
Proof.
  intros H Hr. rewrite <- (app_nil_r t). apply yields_bind with (a := n); [done|].
  do 4 (apply yields_else; [intros; by apply quiet_at|]). apply yields_ret.
Qed.
Lemma repeat_quant t rest n min max g : (forall rest, yields (parse_atom alt) t rest n) -> quiet rest ->
  min <= USIZE_MAX -> match max with Some m => m <= USIZE_MAX | None => True end ->
  yields (parse_repeat alt) (t ++ show_quant min max g) rest (Repeat n min max g).
Proof.
  intros H Hr Hmin Hmax. apply yields_bind with (a := n); [apply H|].
  do 3 (apply yields_else; [done|]). apply yields_then; [done|]. intros p b. unfold show_quant. rewrite <- !app_assoc.
  destruct (brace_shown min max (lazily g ++ rest) p b Hmin Hmax) as [p1 ->]. by apply quant_yields.
Qed.
End repeats.

(** *** Classes *)
Lemma among_cases cs c : among cs c = true -> exists a, In a (String.list_ascii_of_string cs) /\ c = ch a.
Proof.
  unfold among, lit. rewrite existsb_exists. intros (x & Hx & ->%N.eqb_eq). apply list_elem_of_In, list_elem_of_fmap in Hx as (a & -> & Ha).
  exists a. split; [by apply list_elem_of_In|done].
Qed.
Lemma among_not cs c a : among cs c = false -> among cs (ch a) = true -> (c =? ch a) = false.
Proof. intros Hc Ha. destruct (N.eqb_spec c (ch a)) as [->|]; [by rewrite Ha in Hc|done]. Qed.
Ltac among_all H := apply among_cases in H as (? & H & ->); cbn in H; repeat (destruct H as [<-|H]); [..|done].

Lemma class_char_yields c rest : yields read_class_atom (show_class_char c) rest (Ch c).
Proof.
  unfold read_class_atom, show_class_char. destruct (among "\]^-" c) eqn:Hc.
  - among_all Hc; (apply yields_peek; cbn [app head]; apply yields_advance; cbn; apply yields_peek; apply yields_advance, yields_ret).
  - apply yields_peek. cbn [app head]. apply yields_advance. rewrite (among_not _ _ "\" Hc) by done. apply yields_ret.
Qed.
Lemma class_char_head c : exists c' t, show_class_char c = c' :: t /\ (c' =? ch "]") = false /\ (c' =? ch "-") = false /\ (c' =? ch "^") = false.
Proof.
  unfold show_class_char. destruct (among "\]^-" c) eqn:Hc; eexists _, _; (split; [done|]); [done|].
  by rewrite !(among_not _ _ _ Hc).
Qed.
Lemma item_head it : exists c' t, show_item it = c' :: t /\ (c' =? ch "]") = false /\ (c' =? ch "-") = false /\ (c' =? ch "^") = false.
Proof.
  destruct it as [c|a b| | | | | |]; [apply class_char_head| |by eexists _, _..]. cbn.
  destruct (class_char_head a) as (c' & t & -> & H). by eexists _, _.
Qed.
Lemma at_range_off c r p b : (c =? ch "-") = false -> at_range (mkParser (c :: r) p b) = false.
Proof. intros H. unfold at_range, at_char, is_char, peek. cbn [Regex.rest head]. by rewrite H. Qed.
Lemma class_step_opens {B} (f : option N -> P B) c t rest a : yields (f (Some c)) (c :: t) rest a -> yields (do c := p_peek in f c) (c :: t) rest a.
Proof. exact (yields_peek f (c :: t) rest a). Qed.
Lemma shortcut_yields it c rest : show_item it = [ch "\"; c] -> shortcut c = Some it -> yields read_class_atom (show_item it) rest (Shortcut it).
Proof.
  intros -> Hs. unfold read_class_atom. apply yields_peek. cbn [app head]. apply yields_advance. rewrite N.eqb_refl.
  apply yields_peek. cbn [app head]. rewrite Hs. apply yields_advance, yields_ret.
Qed.
Lemma item_yields items first it c rest : item_ok it = true -> (c =? ch "-") = false ->
  yields (class_step (items, first)) (show_item it) (c :: rest) (inl (items ++ [it], false)).
Proof.
  intros Hok Hc. unfold class_step. destruct (item_head it) as (c' & t & Et & Hc' & _ & _).
  rewrite Et. apply class_step_opens. rewrite Hc'. cbn [andb]. rewrite <- Et. rewrite <- (app_nil_r (show_item it)). destruct it as [x|x y| | | | | |].
  1: { eapply yields_bind; [apply class_char_yields|]. apply yields_else; [intros; by apply at_range_off|]. apply yields_ret. }
  1: { cbn in Hok. cbn [show_item]. rewrite <- !app_assoc. eapply yields_bind; [apply class_char_yields|]. rewrite app_nil_r.
    destruct (class_char_head y) as (y' & ty & Ey & Hy & _). apply yields_then.
    { intros p b. unfold at_range. rewrite <- ?app_assoc, Ey. change (negb (y' =? ch "]") = true). by rewrite Hy. }
    apply yields_advance. rewrite <- (app_nil_r (show_class_char y)). eapply yields_bind; [apply class_char_yields|].
    cbn iota. rewrite (proj2 (N.ltb_ge _ _)) by (by apply N.leb_le). apply yields_ret. }
  all: match goal with |- context [show_item ?it] => eapply (yields_bind _ _ _ _ _ (Shortcut it)) end;
    [by eapply shortcut_yields|apply yields_ret].
Qed.
Lemma class_yields negated items rest : items <> [] -> forallb item_ok items = true ->
  yields parse_class (show (Class_ negated items)) rest (Class_ negated items).
Proof.
  intros Hne Hok. cbn [show]. unfold parse_class. apply yields_advance.
  destruct items as [|it items]; [done|]. cbn [forallb map concat] in *. apply andb_true_iff in Hok as [Hit Hok].
  assert (Htail : forall acc, yields (loop class_step (acc, false)) (concat (map show_item items) ++ lit "]") rest (acc ++ items)).
  { clear it Hit Hne. induction items as [|it items IH]; intros acc; cbn [map concat].
    - rewrite app_nil_r. apply yields_done. intros p b. unfold class_step. by eexists.
    - cbn [forallb] in Hok. apply andb_true_iff in Hok as [Hit Hok]. rewrite <- app_assoc. specialize (IH Hok (acc ++ [it])). rewrite <- app_assoc in IH.
      eapply yields_more; [|by destruct (item_head it) as (? & ? & -> & _)|exact IH].
      destruct items as [|it' items]; [by apply item_yields|]. cbn [map concat]. destruct (item_head it') as (c & t & -> & _ & Hc & _).
      cbn [app]. by apply item_yields. }
  eapply (yields_bind _ _ (if negated then lit "^" else []) _ rest negated).
  - destruct negated; [apply yields_then; [done|]; apply yields_advance, yields_ret|]. apply yields_else; [|apply yields_ret].
    intros p b. cbn [app]. destruct (item_head it) as (c & t & -> & _ & _ & Hc). exact Hc.
  - rewrite <- (app_nil_r ((_ ++ _) ++ _)). eapply yields_bind; [|apply yields_ret]. rewrite <- app_assoc.
    eapply yields_more; [|by destruct (item_head it) as (? & ? & -> & _)|exact (Htail [it])].
    destruct items as [|it' items']; [by apply item_yields|]. cbn [map concat]. destruct (item_head it') as (c & t & -> & _ & Hc & _).
    cbn [app]. by apply item_yields.
Qed.

(** *** Atoms, parts, branches *)
Lemma leaf_yields alt n rest : is_leaf n = true -> built n = true -> yields (parse_atom alt) (show n) rest n.
Proof.
  destruct n as [|c| | | |negated items| | |]; try done; intros _ Hb; unfold parse_atom.
  - cbn [show]. unfold show_char. destruct (among "()[]{}.*+?|^$\" c) eqn:Hc.
    + apply yields_peek. cbn [app head]. change (yields parse_escape [ch "\"; c] rest (Literal c)).
      unfold parse_escape. apply yields_advance, yields_peek. cbn [app head]. apply yields_advance.
      among_all Hc; apply yields_ret.
    + apply yields_peek. cbn [app head]. cbn iota beta. rewrite !(among_not _ _ _ Hc) by done. cbn [orb]. apply yields_advance, yields_ret.
  - apply yields_peek. apply yields_advance, yields_ret.
  - apply yields_peek. apply yields_advance, yields_ret.
  - apply yields_peek. apply yields_advance, yields_ret.
  - cbn [built] in Hb. apply andb_true_iff in Hb as [Hne Hok]. apply negb_true_iff, bool_decide_eq_false in Hne.
    apply yields_peek. change (yields parse_class (show (Class_ negated items)) rest (Class_ negated items)). by apply class_yields.
Qed.
Lemma group_yields alt t rest n : yields alt t (lit ")" ++ rest) n -> yields (parse_atom alt) (group t) rest n.
Proof.
  intros H. unfold parse_atom. apply yields_peek. change (yields (parse_group alt) (group t) rest n). unfold parse_group, group.
  apply yields_advance, yields_then; [done|]. apply yields_advance, yields_then; [done|]. apply yields_advance.
  unfold close_group. eapply yields_bind; [exact H|]. apply yields_then; [done|]. apply yields_advance, yields_ret.
Qed.

(** What may follow the parts of a branch, and the branches of a group. *)
Definition ends_branch (rest : text) : Prop := match rest with c :: _ => among "|)" c = true | [] => True end.
Definition ends_group (rest : text) : Prop := match rest with c :: _ => c = ch ")" | [] => True end.
Definition opens (t : text) : Prop := exists c t', t = c :: t' /\ among "*+?{|)" c = false.
Lemma ends_branch_quiet rest : ends_branch rest -> quiet rest.
Proof. unfold ends_branch, quiet. destruct rest as [|c r]; [done|]. intros Hc. by among_all Hc. Qed.
Lemma ends_group_branch rest : ends_group rest -> ends_branch rest.
Proof. unfold ends_group, ends_branch. destruct rest as [|c r]; [done|]. by intros ->. Qed.
Lemma opens_quiet t rest : opens t -> quiet (t ++ rest).
Proof.
  intros (c & t' & -> & Hc). cbn [app quiet]. destruct (among "*+?{" c) eqn:E; [|done]. by among_all E.
Qed.
Lemma opens_app t t' : opens t -> opens (t ++ t').
Proof. intros (c & r & -> & H). by exists c, (r ++ t'). Qed.
Lemma atom_opens n : opens (show_atom show n).
Proof.
  unfold show_atom. destruct n as [|c| | | |negated items| | |]; cbn [is_leaf]; try (by eexists _, _).
  cbn [show]. unfold show_char. destruct (among "()[]{}.*+?|^$\" c) eqn:Hc; [by eexists _, _|]. eexists _, _; split; [done|].
  destruct (among "*+?{|)" c) eqn:E; [|done]. by among_all E.
Qed.
Lemma part_opens n : opens (show_part show n).
Proof. destruct n; try apply atom_opens. cbn [show_part show]. apply opens_app, atom_opens. Qed.

Section parts.
Context (alt : P Node).
Definition part_ok (n : Node) : Prop := forall rest, quiet rest -> yields (parse_repeat alt) (show_part show n) rest n.
Lemma parts_yield nodes rest : Forall part_ok nodes -> ends_branch rest ->
  yields (parse_concat alt) (concat (map (show_part show) nodes)) rest (concat_of nodes).
Proof.
  intros H Hr. unfold parse_concat. rewrite <- (app_nil_r (concat _)). eapply yields_bind; [|apply yields_ret]. cbn [app].
  enough (forall acc, yields (loop (fun items => do c := p_peek in match c with
    | None => p_ret (inr items)
    | Some c => if (c =? ch "|") || (c =? ch ")") then p_ret (inr items) else do n := parse_repeat alt in p_ret (inl (items ++ [n])) end) acc)
    (concat (map (show_part show) nodes)) rest (acc ++ nodes)) as Hl by exact (Hl []).
  induction H as [|n nodes Hn _ IH]; intros acc; cbn [map concat].
  - rewrite app_nil_r. apply yields_done. intros p b. rewrite peek_bind. cbn [app]. unfold peek. cbn [Regex.rest].
    destruct rest as [|c r]; [by eexists|]. cbn [head]. cbn in Hr. replace (_ || _) with true by (by among_all Hr). by eexists.
  - specialize (IH (acc ++ [n])). rewrite <- app_assoc in IH. eapply yields_more; [|by destruct (part_opens n) as (? & ? & -> & _)|exact IH].
    destruct (part_opens n) as (c & t & Et & Hc). apply yields_peek. rewrite Et. cbn [app head]. cbn iota beta.
    rewrite !(among_not _ _ _ Hc) by done. cbn [orb]. rewrite <- Et. rewrite <- (app_nil_r (show_part show n)).
    eapply yields_bind; [|apply yields_ret]. cbn [app]. apply Hn. destruct nodes as [|n' nodes]; [by apply ends_branch_quiet|].
    cbn [map concat]. rewrite <- app_assoc. apply opens_quiet, part_opens.
Qed.
Definition branch_ok (n : Node) : Prop := forall rest, ends_branch rest -> yields (parse_concat alt) (show_branch show n) rest n.
Lemma branches_yield a alts rest : Forall branch_ok (a :: alts) -> ends_group rest ->
  yields (parse_alternation_body alt) (join_branches (map (show_branch show) (a :: alts))) rest (alternate_of (a :: alts)).
Proof.
  intros Ha Hr. inversion_clear Ha as [|? ? Ha' H]. unfold parse_alternation_body. cbn [map join_branches].
  assert (Hnext : forall alts, ends_branch (concat ((fun t => lit "|" ++ t) <$> map (show_branch show) alts) ++ rest)).
  { intros [|b l]; [by apply ends_group_branch|done]. }
  eapply yields_bind; [by apply Ha'|]. rewrite <- (app_nil_r (concat _)). eapply yields_bind; [|apply yields_ret]. cbn [app]. clear Ha'.
  enough (forall acc, yields (loop (fun branches => p_if (at_char "|")
    (run p_advance in do n := parse_concat alt in p_ret (inl (branches ++ [n]))) (p_ret (inr branches))) acc)
    (concat ((fun t => lit "|" ++ t) <$> map (show_branch show) alts)) rest (acc ++ alts)) as Hl by exact (Hl [a]).
  induction H as [|b alts Hb _ IH]; intros acc; cbn [map fmap list_fmap concat].
  - rewrite app_nil_r. apply yields_done. apply yields_else; [|apply yields_ret]. intros p c. cbn [app]. unfold at_char, peek. cbn [Regex.rest].
    destruct rest as [|x r]; [done|]. cbn in Hr. by rewrite Hr.
  - specialize (IH (acc ++ [b])). rewrite <- app_assoc in IH. eapply yields_more; [|done|exact IH].
    apply yields_then; [done|]. apply yields_advance. rewrite <- (app_nil_r (show_branch show b)).
    eapply yields_bind; [|apply yields_ret]. cbn [app]. apply Hb, Hnext.
Qed.
End parts.

(** *** The round trip *)
Definition shown_ok (n : Node) : Prop :=
  (forall fuel, (length (show_part show n) <= fuel)%nat -> part_ok (parse_alternation fuel) n) /\
  (forall fuel, (length (show_branch show n) <= fuel)%nat -> branch_ok (parse_alternation fuel) n) /\
  (forall fuel rest, (length (show n) < fuel)%nat -> ends_group rest -> yields (parse_alternation fuel) (show n) rest n).

Lemma length_group t : length (group t) = (length t + 4)%nat.
Proof.
  unfold group. rewrite !length_app. change (length (lit "(?:")) with 3%nat. change (length (lit ")")) with 1%nat. lia.
Qed.
(** What is in a group is shown whole; leaves are by themselves. *)
Lemma atom_yields n fuel rest : built n = true ->
  (forall fuel rest, (length (show n) < fuel)%nat -> ends_group rest -> yields (parse_alternation fuel) (show n) rest n) ->
  (length (show_atom show n) <= fuel)%nat -> yields (parse_atom (parse_alternation fuel)) (show_atom show n) rest n.
Proof.
  intros Hb Hs Hf. unfold show_atom in *. destruct (is_leaf n) eqn:Hl; [by apply leaf_yields|].
  rewrite length_group in Hf. apply group_yields, Hs; [lia|done].
Qed.
Lemma alone n : (forall fuel, (length (show_branch show n) <= fuel)%nat -> branch_ok (parse_alternation fuel) n) ->
  show_branch show n = show n ->
  forall fuel rest, (length (show n) < fuel)%nat -> ends_group rest -> yields (parse_alternation fuel) (show n) rest n.
Proof.
  intros Hb Heq [|fuel] rest Hf Hr; [lia|]. cbn [parse_alternation]. rewrite <- Heq.
  pose proof (branches_yield (parse_alternation fuel) n [] rest) as H. cbn [map join_branches fmap list_fmap concat alternate_of] in H.
  rewrite app_nil_r in H. apply H; [|done]. constructor; [|constructor]. apply Hb. rewrite Heq. lia.
Qed.
Lemma one_part n fuel : part_ok (parse_alternation fuel) n -> show_branch show n = show_part show n ->
  branch_ok (parse_alternation fuel) n.
Proof.
  intros Hp Heq rest Hr. rewrite Heq. pose proof (parts_yield (parse_alternation fuel) [n] rest) as H.
  cbn [map concat concat_of] in H. rewrite app_nil_r in H. apply H; [by constructor|done].
Qed.
Lemma grouped_part n : is_leaf n = false -> show_part show n = show_atom show n -> built n = true ->
  (forall fuel rest, (length (show n) < fuel)%nat -> ends_group rest -> yields (parse_alternation fuel) (show n) rest n) ->
  forall fuel, (length (show_part show n) <= fuel)%nat -> part_ok (parse_alternation fuel) n.
Proof.
  intros Hl Heq Hb Hs fuel Hf rest Hr. rewrite Heq in *. apply repeat_plain; [|done]. by apply atom_yields.
Qed.
Lemma leaf_ok n : is_leaf n = true -> built n = true -> shown_ok n.
Proof.
  intros Hl Hb. assert (Hp : forall fuel, part_ok (parse_alternation fuel) n).
  { intros fuel rest Hr. assert (show_part show n = show n) as -> by (by destruct n). apply repeat_plain; [|done]. by apply leaf_yields. }
  assert (Hbr : forall fuel, branch_ok (parse_alternation fuel) n) by (intros fuel; apply one_part; [done|by destruct n]).
  split; [done|]. split; [done|]. apply alone; [done|by destruct n].
Qed.

Lemma concat_length (f : Node -> text) nodes n : In n nodes -> (length (f n) <= length (concat (map f nodes)))%nat.
Proof.
  induction nodes as [|x nodes IH]; [done|]. cbn [map concat]. rewrite length_app. intros [->|H]; [lia|]. specialize (IH H). lia.
Qed.
Lemma branch_length alts n : In n alts -> (length (show_branch show n) <= length (show (Alternate alts)))%nat.
Proof.
  cbn [show]. destruct alts as [|a alts]; [done|]. cbn [map join_branches]. rewrite length_app. intros [->|H]; [lia|].
  enough (length (show_branch show n) <= length (concat ((fun t : list N => lit "|" ++ t) <$> map (show_branch show) alts)))%nat by lia.
  induction alts as [|x alts IH]; [done|]. cbn [map fmap list_fmap concat]. rewrite !length_app. destruct H as [->|H]; [lia|].
  specialize (IH H). lia.
Qed.
Lemma Forall_all {A} (Q R : A -> Prop) (f : A -> bool) l : Forall (fun x => f x = true -> Q x) l -> forallb f l = true ->
  (forall x, In x l -> Q x -> R x) -> Forall R l.
Proof.
  rewrite !Forall_forall, forallb_forall. intros H Hf HR x Hx. apply list_elem_of_In in Hx as Hx'. auto.
Qed.

Lemma shown_yields n : built n = true -> shown_ok n.
Proof.
  induction n as [|c| | | |negated items|nodes IH|alts IH|n min max g IH] using Node_ind_nested; intros Hb;
    [|by apply leaf_ok..| | |].
  - assert (Hbr : forall fuel, branch_ok (parse_alternation fuel) Empty) by (intros fuel rest; by apply (parts_yield _ [] rest)).
    assert (Ha := alone Empty (fun fuel _ => Hbr fuel) eq_refl). split; [by apply grouped_part|]. by split.
  - cbn [built] in Hb. apply andb_true_iff in Hb as [Hlen Hall].
    assert (Hbr : forall fuel, (length (show_branch show (Concat nodes)) <= fuel)%nat -> branch_ok (parse_alternation fuel) (Concat nodes)).
    { intros fuel Hf rest Hr. replace (Concat nodes) with (concat_of nodes) at 2 by (by destruct nodes as [|? []]).
      apply parts_yield; [|done]. eapply Forall_all; [exact IH|exact Hall|]. intros n Hn (Hp & _). apply Hp. cbn [show_branch show] in Hf.
      pose proof (concat_length (show_part show) nodes n Hn). lia. }
    assert (Ha := alone (Concat nodes) Hbr eq_refl). split; [|by split].
    apply grouped_part; [done|done| |exact Ha]. cbn [built]. by rewrite Hlen, Hall.
  - assert (Hb' := Hb). cbn [built] in Hb. apply andb_true_iff in Hb as [Hlen Hall].
    assert (Ha : forall fuel rest, (length (show (Alternate alts)) < fuel)%nat -> ends_group rest ->
      yields (parse_alternation fuel) (show (Alternate alts)) rest (Alternate alts)).
    { intros [|fuel] rest Hf Hr; [lia|]. cbn [parse_alternation]. destruct alts as [|a [|b alts]]; [done|done|].
      change (Alternate (a :: b :: alts)) with (alternate_of (a :: b :: alts)) at 2. cbn [show]. apply branches_yield; [|done].
      eapply Forall_all; [exact IH|exact Hall|]. intros n Hn (_ & Hp & _). apply Hp.
      pose proof (branch_length (a :: b :: alts) n Hn). lia. }
    assert (Hp := grouped_part (Alternate alts) eq_refl eq_refl Hb' Ha). split; [done|]. split; [|done].
    intros fuel Hf. apply one_part; [by apply Hp|done].
  - assert (Hp : forall fuel, (length (show_part show (Repeat n min max g)) <= fuel)%nat -> part_ok (parse_alternation fuel) (Repeat n min max g)).
    { cbn [built] in Hb. rewrite !andb_true_iff in Hb. destruct Hb as [[Hb Hmin] Hmax]. destruct (IH Hb) as (_ & _ & Hs).
      intros fuel Hf rest Hr. cbn [show_part show] in *. rewrite length_app in Hf. apply repeat_quant; [|done|by apply N.leb_le|].
      - intros r. apply atom_yields; [done|done|lia].
      - destruct max; [by apply N.leb_le|done]. }
    assert (Hbr : forall fuel, (length (show_branch show (Repeat n min max g)) <= fuel)%nat -> branch_ok (parse_alternation fuel) (Repeat n min max g)).
    { intros fuel Hf. apply one_part; [by apply Hp|done]. }
    split; [done|]. split; [done|]. by apply alone.
Qed.

(** C23: A pattern printed is compiled back to itself, whatever it is made of:
    characters that are operators of patterns, classes with any items, groups,
    branches and bounds of repetition. *)
Theorem pattern_roundtrip n : built n = true -> compile (show n) = Some (Ok (mkRegex n false)).
Proof.
  intros Hb. destruct (shown_yields n Hb) as (_ & _ & Hs).
  destruct (Hs (S (length (show n))) [] ltac:(lia) I 0 false) as [p Hp]. unfold compile. rewrite app_nil_r in Hp. by rewrite Hp.
Qed.

Lemma pattern_roundtrip_witness :
  compile (show (Alternate [Concat [Literal (ch "*"); Class_ true [CChar (ch "]"); CRange (ch "a") (ch "z")]]; Repeat End_ 2 None false]))
  = Some (Ok (mkRegex (Alternate [Concat [Literal (ch "*"); Class_ true [CChar (ch "]"); CRange (ch "a") (ch "z")]]; Repeat End_ 2 None false]) false)).
Proof. apply pattern_roundtrip. by vm_compute. Defined.
