(* ===== verification/CypherValue.v ===== *)
(** * Values of the Cypher executor
    ([src/src/cypher/executor.rs]: [Value], [ExecError] and the operators)

    The values a query computes with, their equality and order, and the
    operators of expressions.  Integers are those of [i64], floats IEEE doubles
    ([spec_float] at 53 bits of precision), texts lists of Unicode scalar
    values.  Arithmetic on [i64] is that of a release build: it wraps.  What
    would panic there is the outcome [Panic].

    [f64::powf] is a parameter: the class [Libm]. *)
From Stdlib Require Import SpecFloat.
From S2P Require NativeModel.
From S2P Require Import Prelude CypherLexer CypherAst CypherRegex.
Local Open Scope list_scope.
Local Open Scope Z_scope.

(** ** Errors *)
Inductive UnresolvedPrepared : Type := UnknownGid | HeuristicRollback.
Definition code (r : UnresolvedPrepared) : string :=
  match r with
  | UnknownGid => "Neo.ClientError.Transaction.UnknownPreparedTransaction"
  | HeuristicRollback => "Neo.ClientError.Transaction.HeuristicRollback"
  end.
Inductive ExecError : Type :=
| Unsupported (feature : text) (sp : Span)
| UnboundVariable (name : text) (sp : Span)
| MissingParameter (name : text)
| TypeMismatch (expected got : text) (sp : Span)
| InvalidCreate (message : text)
| InvalidMutation (message : text)
| InvalidFunctionCall (name message : text) (sp : Span)
| InvalidProcedureCall (name message : text) (sp : Span)
| PreparedTransactionUnresolved (name : text) (reason : UnresolvedPrepared) (message : text) (sp : Span)
| ForbiddenInTransaction (procedure : text) (sp : Span)
| Forbidden (message : text)
| IndexBehindWrites (feature : text)
| UnionMismatch (message : text) (sp : Span)
| InvalidRegex (message : text) (sp : Span)
| Storage (e : NativeModel.CoreError)
| EngineCapability (feature : text)
| Timeout (limit_ms : N)
| ClientTimeout (limit_ms : N)
| Terminated
| TriggerFailed (name message : text).
(** [ExecError::span]. *)
Definition exec_error_span (e : ExecError) : option Span :=
  match e with
  | Unsupported _ sp | UnboundVariable _ sp | TypeMismatch _ _ sp | InvalidFunctionCall _ _ sp | InvalidProcedureCall _ _ sp
  | PreparedTransactionUnresolved _ _ _ sp | ForbiddenInTransaction _ sp | UnionMismatch _ sp | InvalidRegex _ sp => Some sp
  | MissingParameter _ | InvalidCreate _ | InvalidMutation _ | EngineCapability _ | IndexBehindWrites _ | Forbidden _ | Timeout _
  | ClientTimeout _ | Terminated | TriggerFailed _ _ | Storage _ => None
  end.
(** What ends a computation: an error, a panic, or that the fuel of the model was not enough. *)
Inductive Stop : Type := Raise (e : ExecError) | Panic | Deeper.
Abbreviation Exec := (result Stop).
Definition raise {A} (e : ExecError) : result Stop A := Err (Raise e).

(** ** Machine numbers *)

Module F64.
Definition t : Type := spec_float.
Definition add : t -> t -> t := SFadd 53 1024.
Definition sub : t -> t -> t := SFsub 53 1024.
Definition mul : t -> t -> t := SFmul 53 1024.
Definition div : t -> t -> t := SFdiv 53 1024.
Definition zero : t := S754_zero false.
Definition is_nan (x : t) : bool := match x with S754_nan => true | _ => false end.
Definition is_finite (x : t) : bool := match x with S754_zero _ | S754_finite _ _ _ => true | _ => false end.
(** [as f64]. *)
Definition of_int (z : Z) : t := binary_normalize 53 1024 z 0 false.
(** The integer part, towards zero. *)
Definition scaled (m : Z) (e : Z) : Z := if 0 <=? e then m * 2 ^ e else m / 2 ^ (- e).
(** [as i64]: towards zero, saturating, zero for NaN. *)
Definition to_i64 (x : t) : Z :=
  match x with
  | S754_zero _ | S754_nan => 0
  | S754_infinity s => if s then i64_min else i64_max
  | S754_finite s m e => sat_i64 (if s then - scaled (Zpos m) e else scaled (Zpos m) e)
  end.
(** [%] on doubles, which is exact. *)
Definition rem (x y : t) : t :=
  match x, y with
  | S754_nan, _ | _, S754_nan | S754_infinity _, _ | _, S754_zero _ => S754_nan
  | S754_zero _, _ | _, S754_infinity _ => x
  | S754_finite sx mx ex, S754_finite _ my ey =>
      let e := Z.min ex ey in
      let r := (Zpos mx * 2 ^ (ex - e)) mod (Zpos my * 2 ^ (ey - e)) in
      binary_normalize 53 1024 (if sx then - r else r) e sx
  end.
(** [f64::rem_euclid]. *)
Definition rem_euclid (x y : t) : t := let r := rem x y in if SFltb r zero then add r (SFabs y) else r.
(** [partial_cmp]. *)
Definition cmp : t -> t -> option comparison := SFcompare.
Definition eqb : t -> t -> bool := SFeqb.
End F64.

Class Libm := { powf : F64.t -> F64.t -> F64.t }.

(** ** Values *)
Module Value.
Inductive t : Type :=
| Null
| Bool (b : bool)
| Integer (i : Z)
| Float (x : F64.t)
| String (s : text)
| List (items : list t)
| Map (m : list (text * t))
| Node (nv : node)
| Relationship (rv : relationship)
| Path (nodes : list node) (relationships : list relationship)
with node : Type := mkNode (id : N) (uuid : text) (labels : list text) (properties : list (text * t))
with relationship : Type :=
  mkRelationship (id : N) (uuid : text) (from_id to_id : N) (kind : text) (properties : list (text * t)).

Definition node_id (n : node) : N := match n with mkNode i _ _ _ => i end.
Definition node_labels (n : node) : list text := match n with mkNode _ _ l _ => l end.
Definition node_properties (n : node) : list (text * t) := match n with mkNode _ _ _ p => p end.
Definition rel_id (r : relationship) : N := match r with mkRelationship i _ _ _ _ _ => i end.
Definition rel_from (r : relationship) : N := match r with mkRelationship _ _ f _ _ _ => f end.
Definition rel_to (r : relationship) : N := match r with mkRelationship _ _ _ o _ _ => o end.
Definition rel_kind (r : relationship) : text := match r with mkRelationship _ _ _ _ k _ => k end.
Definition rel_properties (r : relationship) : list (text * t) := match r with mkRelationship _ _ _ _ _ p => p end.
Definition path_length (relationships : list relationship) : nat := length relationships.

Definition type_name (v : t) : text :=
  lit match v with
  | Null => "Null" | Bool _ => "Boolean" | Integer _ => "Integer" | Float _ => "Float" | String _ => "String" | List _ => "List"
  | Map _ => "Map" | Node _ => "Node" | Relationship _ => "Relationship" | Path _ _ => "Path"
  end.
Definition is_null (v : t) : bool := match v with Null => true | _ => false end.
Definition as_number (v : t) : option F64.t :=
  match v with Integer i => Some (F64.of_int i) | Float f => Some f | _ => None end.
Definition mismatch {A} (expected : string) (got : t) (sp : Span) : Exec A := raise (TypeMismatch (lit expected) (type_name got) sp).
Definition as_string (v : t) (sp : Span) : Exec text :=
  match v with String s => Ok s | other => mismatch "String" other sp end.
End Value.
Abbreviation Value := Value.t.
Abbreviation NodeValue := Value.node.
Abbreviation RelationshipValue := Value.relationship.

(** ** Texts and maps in order *)
(** [str::cmp]: the order of UTF-8 is that of the scalar values. *)
Fixpoint text_cmp (a b : text) : comparison :=
  match a, b with
  | [], [] => Eq
  | [], _ => Lt
  | _, [] => Gt
  | x :: a, y :: b => match (x ?= y)%N with Eq => text_cmp a b | c => c end
  end.
Definition text_eqb (a b : text) : bool := match text_cmp a b with Eq => true | _ => false end.

(** [BTreeMap]: entries by key. *)
Section btree.
Context {A : Type}.
Fixpoint map_get (k : text) (m : list (text * A)) : option A :=
  match m with
  | [] => None
  | (k', v) :: m => if text_eqb k k' then Some v else map_get k m
  end.
Fixpoint map_insert (k : text) (v : A) (m : list (text * A)) : list (text * A) :=
  match m with
  | [] => [(k, v)]
  | (k', v') :: rest =>
      match text_cmp k k' with
      | Lt => (k, v) :: m
      | Eq => (k, v) :: rest
      | Gt => (k', v') :: map_insert k v rest
      end
  end.
End btree.

(** ** Equality *)
Section lists.
Context {A : Type} (eqb : A -> A -> bool).
Definition list_eqb : list A -> list A -> bool :=
  fix list_eqb a b :=
    match a, b with
    | [], [] => true
    | x :: a, y :: b => eqb x y && list_eqb a b
    | _, _ => false
    end.
(** [zip(..).all(..)]. *)
Definition zip_all : list A -> list A -> bool :=
  fix zip_all a b := match a, b with x :: a, y :: b => eqb x y && zip_all a b | _, _ => true end.
End lists.
Definition same_paths (a b : list NodeValue * list RelationshipValue) : bool :=
  (length a.2 =? length b.2)%nat && bool_decide (Value.node_id <$> head a.1 = Value.node_id <$> head b.1)
  && zip_all (fun x y => Value.rel_id x =? Value.rel_id y)%N a.2 b.2.

(** [impl PartialEq for Value]. *)
Fixpoint value_eq (a b : Value) {struct a} : bool :=
  match a, b with
  | Value.Null, Value.Null => true
  | Value.Bool a, Value.Bool b => Bool.eqb a b
  | Value.Integer a, Value.Integer b => a =? b
  | Value.Float a, Value.Float b => F64.eqb a b
  | Value.Integer a, Value.Float b => F64.eqb (F64.of_int a) b
  | Value.Float b, Value.Integer a => F64.eqb (F64.of_int a) b
  | Value.String a, Value.String b => text_eqb a b
  | Value.List a, Value.List b => list_eqb value_eq a b
  | Value.Map a, Value.Map b => (fix map_eqb (a b : list (text * Value)) : bool :=
      match a, b with
      | [], [] => true
      | (k, x) :: a, (k', y) :: b => text_eqb k k' && value_eq x y && map_eqb a b
      | _, _ => false
      end) a b
  | Value.Node a, Value.Node b => (Value.node_id a =? Value.node_id b)%N
  | Value.Relationship a, Value.Relationship b => (Value.rel_id a =? Value.rel_id b)%N
  | Value.Path n r, Value.Path n' r' => same_paths (n, r) (n', r')
  | _, _ => false
  end.

(** ** Order *)
Definition or_equal (o : option comparison) : comparison := match o with Some c => c | None => Eq end.
Fixpoint compare_values (a b : Value) {struct a} : comparison :=
  match a, b with
  | Value.Null, Value.Null => Eq
  | Value.Null, _ => Gt
  | _, Value.Null => Lt
  | Value.Bool a, Value.Bool b => Bool.compare a b
  | Value.Integer a, Value.Integer b => a ?= b
  | Value.Float a, Value.Float b => or_equal (F64.cmp a b)
  | Value.Integer a, Value.Float b => or_equal (F64.cmp (F64.of_int a) b)
  | Value.Float a, Value.Integer b => or_equal (F64.cmp a (F64.of_int b))
  | Value.String a, Value.String b => text_cmp a b
  | Value.List a, Value.List b => (fix compare_lists (a b : list Value) : comparison :=
      match a, b with
      | x :: a, y :: b => match compare_values x y with Eq => compare_lists a b | c => c end
      | [], [] => Eq
      | [], _ => Lt
      | _, [] => Gt
      end) a b
  | Value.Node a, Value.Node b => (Value.node_id a ?= Value.node_id b)%N
  | Value.Relationship a, Value.Relationship b => (Value.rel_id a ?= Value.rel_id b)%N
  | _, _ => Eq
  end.

Definition reverse (c : comparison) : comparison := CompOpp c.
Fixpoint compare_keys (a b : list (Value * OrderDirection)) : comparison :=
  match a, b with
  | (av, dir) :: a, (bv, _) :: b =>
      match compare_values av bv with
      | Eq => compare_keys a b
      | c => match dir with OAsc => c | ODesc => reverse c end
      end
  | _, _ => Eq
  end.

(** The first of those that are equal stay. *)
Definition dedup {A} (eqb : A -> A -> bool) (l : list A) : list A :=
  foldl (fun seen x => if existsb (fun s => eqb s x) seen then seen else seen ++ [x]) [] l.
Definition dedup_rows : list (list Value) -> list (list Value) := dedup (list_eqb value_eq).
Definition dedup_values : list Value -> list Value := dedup value_eq.

(** ** Properties, elements and slices *)
Definition or_null (v : option Value) : Value := match v with Some v => v | None => Value.Null end.
Definition get_property (base : Value) (name : text) : Value :=
  match base with
  | Value.Node nv => or_null (map_get name (Value.node_properties nv))
  | Value.Relationship rv => or_null (map_get name (Value.rel_properties rv))
  | Value.Map m => or_null (map_get name m)
  | _ => Value.Null
  end.
Definition base_properties (base : Value) : option (list (text * Value)) :=
  match base with
  | Value.Node nv => Some (Value.node_properties nv)
  | Value.Relationship rv => Some (Value.rel_properties rv)
  | Value.Map m => Some m
  | _ => None
  end.

Definition list_element (items : list Value) (i : Z) : Value :=
  let len := Z.of_nat (length items) in
  let idx := if i <? 0 then i + len else i in
  if (idx <? 0) || (len <=? idx) then Value.Null else or_null (items !! Z.to_nat idx).
Definition eval_index (base index : Value) (sp : Span) : Exec Value :=
  if Value.is_null base || Value.is_null index then Ok Value.Null
  else
    match base with
    | Value.List items =>
        match index with Value.Integer i => Ok (list_element items i) | _ => Value.mismatch "Integer (list index)" index sp end
    | Value.Map _ | Value.Node _ | Value.Relationship _ =>
        match index with Value.String key => Ok (get_property base key) | _ => Value.mismatch "String (map key)" index sp end
    | other => Value.mismatch "List or Map" other sp
    end.

Definition slice_bound (v : Value) (sp : Span) : Exec Z :=
  match v with Value.Integer i => Ok i | other => Value.mismatch "Integer (slice bound)" other sp end.
Definition clamp_slice_bound (i len : Z) : Z :=
  let idx := if i <? 0 then i + len else i in Z.max 0 (Z.min len idx).
Definition eval_slice (base : Value) (from to : option Value) (sp : Span) : Exec Value :=
  if Value.is_null base then Ok Value.Null
  else if existsb Value.is_null (option_list from ++ option_list to) then Ok Value.Null
  else
    match base with
    | Value.List items =>
        let len := Z.of_nat (length items) in
        lo ← match from with Some v => (fun b => clamp_slice_bound b len) <$> slice_bound v sp | None => Ok 0 end;
        hi ← match to with Some v => (fun b => clamp_slice_bound b len) <$> slice_bound v sp | None => Ok len end;
        if hi <=? lo then Ok (Value.List [])
        else Ok (Value.List (take (Z.to_nat (hi - lo)) (drop (Z.to_nat lo) items)))
    | _ => Value.mismatch "List" base sp
    end.

(** ** Operators *)
Definition eval_unary (op : UnaryOp) (v : Value) (sp : Span) : Exec Value :=
  match op, v with
  | Neg, Value.Integer i => Ok (Value.Integer (wrap_i64 (- i)))
  | Neg, Value.Float f => Ok (Value.Float (SFopp f))
  | UPlus, (Value.Integer _ | Value.Float _) => Ok v
  | UNot, Value.Bool b => Ok (Value.Bool (negb b))
  | _, Value.Null => Ok Value.Null
  | UNot, other => Value.mismatch "Boolean" other sp
  | _, other => Value.mismatch "Integer or Float" other sp
  end.

Definition both_integers (a b : Value) : bool := match a, b with Value.Integer _, Value.Integer _ => true | _, _ => false end.
Definition mismatched {A} (expected : string) (a b : Value) (between : string) (sp : Span) : Exec A :=
  raise (TypeMismatch (lit expected) (Value.type_name a ++ lit between ++ Value.type_name b) sp).
(** Arithmetic on two numbers, integers among them as the doubles next to them. *)
Definition number_op `{Libm} (op : BinaryOp) (both_int : bool) (a b : F64.t) (sp : Span) : Exec Value :=
  let finish (whole : bool) (r : F64.t) : Exec Value := Ok (if whole then Value.Integer (F64.to_i64 r) else Value.Float r) in
  match op with
  | Add => finish both_int (F64.add a b)
  | Sub => finish both_int (F64.sub a b)
  | Mul => finish both_int (F64.mul a b)
  | Div =>
      if both_int then
        if F64.eqb b F64.zero then raise (TypeMismatch (lit "non-zero divisor") (lit "zero") sp)
        else
          let x := F64.to_i64 a in let y := F64.to_i64 b in
          if (y =? 0) || (x =? i64_min) && (y =? -1) then Err Panic else Ok (Value.Integer (Z.quot x y))
      else finish false (F64.div a b)
  | Mod => finish both_int (F64.rem_euclid a b)
  | Pow => finish false (powf a b)
  | _ => Err Panic
  end.
Definition arith `{Libm} (op : BinaryOp) (lhs rhs : Value) (sp : Span) : Exec Value :=
  if Value.is_null lhs || Value.is_null rhs then Ok Value.Null
  else
    match op, lhs, rhs with
    | Add, Value.String a, Value.String b => Ok (Value.String (a ++ b))
    | Add, Value.List a, Value.List b => Ok (Value.List (a ++ b))
    | _, _, _ =>
        match Value.as_number lhs, Value.as_number rhs with
        | Some a, Some b => number_op op (both_integers lhs rhs) a b sp
        | _, _ => mismatched "numeric operands" lhs rhs " " sp
        end
    end.

(** The order of values that can be compared. *)
Definition ordering_of (a b : Value) : option comparison :=
  match a, b with
  | Value.Integer a, Value.Integer b => Some (a ?= b)
  | Value.Float a, Value.Float b => F64.cmp a b
  | Value.Integer a, Value.Float b => F64.cmp (F64.of_int a) b
  | Value.Float a, Value.Integer b => F64.cmp a (F64.of_int b)
  | Value.String a, Value.String b => Some (text_cmp a b)
  | Value.Bool a, Value.Bool b => Some (Bool.compare a b)
  | Value.Node a, Value.Node b => Some (Value.node_id a ?= Value.node_id b)%N
  | Value.Relationship a, Value.Relationship b => Some (Value.rel_id a ?= Value.rel_id b)%N
  | _, _ => None
  end.
Definition compare (op : BinaryOp) (lhs rhs : Value) (sp : Span) : Exec Value :=
  if Value.is_null lhs || Value.is_null rhs then Ok Value.Null
  else
    match op with
    | BEq => Ok (Value.Bool (value_eq lhs rhs))
    | BNe => Ok (Value.Bool (negb (value_eq lhs rhs)))
    | _ =>
        match ordering_of lhs rhs with
        | None => mismatched "comparable types" lhs rhs " vs " sp
        | Some ord =>
            match op with
            | BLt => Ok (Value.Bool match ord with Lt => true | _ => false end)
            | BLe => Ok (Value.Bool match ord with Gt => false | _ => true end)
            | BGt => Ok (Value.Bool match ord with Gt => true | _ => false end)
            | BGe => Ok (Value.Bool match ord with Lt => false | _ => true end)
            | _ => Err Panic
            end
        end
    end.

Definition truth (v : Value) (sp : Span) : Exec (option bool) :=
  match v with
  | Value.Bool b => Ok (Some b)
  | Value.Null => Ok None
  | other => Value.mismatch "Boolean" other sp
  end.
Definition boolean (op : BinaryOp) (lhs rhs : Value) (sp : Span) : Exec Value :=
  l ← truth lhs sp;
  r ← truth rhs sp;
  match op with
  | BAnd =>
      Ok match l, r with
         | Some true, Some true => Value.Bool true
         | Some false, _ | _, Some false => Value.Bool false
         | _, _ => Value.Null
         end
  | BOr =>
      Ok match l, r with
         | Some true, _ | _, Some true => Value.Bool true
         | Some false, Some false => Value.Bool false
         | _, _ => Value.Null
         end
  | BXor => Ok match l, r with Some a, Some b => Value.Bool (xorb a b) | _, _ => Value.Null end
  | _ => Err Panic
  end.

(** [str::starts_with], [ends_with], [contains]. *)
Fixpoint starts_with (needle t : text) : bool :=
  match needle, t with
  | [], _ => true
  | x :: needle, y :: t => (x =? y)%N && starts_with needle t
  | _, [] => false
  end.
Definition ends_with (needle t : text) : bool := starts_with (rev needle) (rev t).
Fixpoint contains (needle t : text) : bool :=
  starts_with needle t || match t with [] => false | _ :: t => contains needle t end.
Definition string_test (op : BinaryOp) (lhs rhs : Value) (sp : Span) : Exec Value :=
  if Value.is_null lhs || Value.is_null rhs then Ok Value.Null
  else
    needle ← Value.as_string rhs sp;
    haystack ← Value.as_string lhs sp;
    match op with
    | StartsWith => Ok (Value.Bool (starts_with needle haystack))
    | EndsWith => Ok (Value.Bool (ends_with needle haystack))
    | BContains => Ok (Value.Bool (contains needle haystack))
    | _ => Err Panic
    end.

(** [RegexError]'s [Display]. *)
Definition regex_message (e : Regex.RegexError) : text :=
  match e with
  | Regex.Syntax m => lit "invalid regular expression: " ++ m
  | Regex.Complexity => lit "regular expression too complex to evaluate"
  end.
(** The engine always answers ([CypherRegexPrint.compile_answers]). *)
Definition regex_match (lhs rhs : Value) (sp : Span) : Exec Value :=
  if Value.is_null lhs || Value.is_null rhs then Ok Value.Null
  else
    match lhs, rhs with
    | Value.String t, Value.String pattern =>
        match Regex.full_match pattern t with
        | Some (Ok matched) => Ok (Value.Bool matched)
        | Some (Err e) => raise (InvalidRegex (regex_message e) sp)
        | None => Err Panic
        end
    | _, _ => mismatched "String =~ String" lhs rhs " =~ " sp
    end.

Definition eval_binary `{Libm} (op : BinaryOp) (lhs rhs : Value) (sp : Span) : Exec Value :=
  match op with
  | Add | Sub | Mul | Div | Mod | Pow => arith op lhs rhs sp
  | BEq | BNe | BLt | BLe | BGt | BGe => compare op lhs rhs sp
  | BAnd | BOr | BXor => boolean op lhs rhs sp
  | StartsWith | EndsWith | BContains => string_test op lhs rhs sp
  | BRegexMatch => regex_match lhs rhs sp
  end.

Definition eval_has_labels (v : Value) (labels : LabelExpr.t) (sp : Span) : Exec Value :=
  match v with
  | Value.Null => Ok Value.Null
  | Value.Node nv => Ok (Value.Bool (LabelExpr.matches labels (Value.node_labels nv)))
  | Value.Relationship rv => Ok (Value.Bool (LabelExpr.matches labels [Value.rel_kind rv]))
  | other => raise (TypeMismatch (lit "Node or Relationship for `:" ++ LabelExpr.fmt labels ++ lit "`") (Value.type_name other) sp)
  end.
