(* ===== verification/CypherNumbers.v ===== *)
(** * Integers in doubles
    ([src/src/cypher/executor.rs]: [Value::as_number], [arith])

    The executor computes [+], [-], [*], [/] and [%] of integers in doubles.
    An integer of at most 2^53 is a double exactly, and what the double
    operations give for two of them is exact while it is that small too. *)
From Stdlib Require Import SpecFloat Zquot.
From S2P Require Import Prelude CypherLexer CypherAst CypherValue.
Local Open Scope list_scope.
Local Open Scope Z_scope.

(** ** Rounding what need not be rounded *)
Lemma digits_bounds p : 2 ^ (Zpos (digits2_pos p) - 1) <= Zpos p < 2 ^ Zpos (digits2_pos p).
Proof.
  induction p as [p IH|p IH|]; cbn [digits2_pos]; [| |done]; rewrite Pos2Z.inj_succ;
    replace (Z.succ (Zpos (digits2_pos p)) - 1) with (Z.succ (Zpos (digits2_pos p) - 1)) by lia; rewrite !Z.pow_succ_r by lia; lia.
Qed.
Lemma digits_unique p d : 2 ^ (d - 1) <= Zpos p < 2 ^ d -> 0 < d -> Zpos (digits2_pos p) = d.
Proof.
  intros [Hl Hu] Hd. destruct (digits_bounds p) as [Hl' Hu'].
  apply (Z.le_antisymm (Zpos (digits2_pos p)) d); apply Z.le_ngt; intros Hlt.
  - assert (2 ^ d <= 2 ^ (Zpos (digits2_pos p) - 1)) by (apply Z.pow_le_mono_r; lia). lia.
  - assert (2 ^ Zpos (digits2_pos p) <= 2 ^ (d - 1)) by (apply Z.pow_le_mono_r; lia). lia.
Qed.

Lemma iter_pos_nat {A} (f : A -> A) n x : SpecFloat.iter_pos f n x = Nat.iter (Pos.to_nat n) f x.
Proof.
  revert x. induction n as [n IH|n IH|]; intros x; cbn [SpecFloat.iter_pos]; [| |done].
  - rewrite !IH, Pos2Nat.inj_xI, Nat.iter_succ_r. replace (2 * Pos.to_nat n)%nat with (Pos.to_nat n + Pos.to_nat n)%nat by lia.
    by rewrite Nat.iter_add.
  - rewrite !IH, Pos2Nat.inj_xO. replace (2 * Pos.to_nat n)%nat with (Pos.to_nat n + Pos.to_nat n)%nat by lia. by rewrite Nat.iter_add.
Qed.
(** Shifting out zeros loses nothing. *)
Lemma shr_zeros c k : Nat.iter k shr_1 (Build_shr_record (Zpos c * 2 ^ Z.of_nat k) false false) = Build_shr_record (Zpos c) false false.
Proof.
  induction k as [|k IH]; [by rewrite Z.mul_1_r|]. rewrite Nat.iter_succ_r, Nat2Z.inj_succ, Z.pow_succ_r by lia.
  replace (Zpos c * (2 * 2 ^ Z.of_nat k)) with (2 * (Zpos c * 2 ^ Z.of_nat k)) by ring.
  assert (Hp : 0 < Zpos c * 2 ^ Z.of_nat k) by lia. destruct (Zpos c * 2 ^ Z.of_nat k) as [|q|q] eqn:E; [lia| |lia].
  exact IH.
Qed.
Lemma shr_exact c j e : 0 <= j -> shr (Build_shr_record (Zpos c * 2 ^ j) false false) e j = (Build_shr_record (Zpos c) false false, e + j).
Proof.
  intros Hj. destruct j as [|j|j]; [by rewrite Z.mul_1_r, Z.add_0_r| |lia]. unfold shr. rewrite iter_pos_nat.
  rewrite <- (positive_nat_Z j). by rewrite shr_zeros.
Qed.

Definition full (c : positive) : Prop := digits2_pos c = 53%positive.
Lemma full_bounds c : full c -> 2 ^ 52 <= Zpos c < 2 ^ 53.
Proof. intros H. pose proof (digits_bounds c) as Hb. by rewrite H in Hb. Qed.
Lemma full_shifted c j m : full c -> 0 <= j -> Zpos m = Zpos c * 2 ^ j -> Zpos (digits2_pos m) = 53 + j.
Proof.
  intros Hc%full_bounds Hj Hm. apply digits_unique; [|lia]. rewrite Hm. replace (53 + j - 1) with (52 + j) by lia.
  rewrite !Z.pow_add_r by lia. split; [apply Z.mul_le_mono_nonneg_r; lia|apply Z.mul_lt_mono_pos_r; lia].
Qed.
Lemma fexp_full e : -1074 <= e -> fexp 53 1024 (53 + e) = e.
Proof. intros H. unfold fexp, emin. lia. Qed.

Lemma round_aux_exact s m e c j : full c -> 0 <= j -> -1074 <= e + j <= 971 -> Zpos m = Zpos c * 2 ^ j ->
  binary_round_aux 53 1024 s (Zpos m) e loc_Exact = S754_finite s c (e + j).
Proof.
  intros Hc Hj He Hm. unfold binary_round_aux, shr_fexp. cbn [shr_record_of_loc Zdigits2].
  rewrite (full_shifted c j m) by done. replace (53 + j + e) with (53 + (e + j)) by lia. rewrite fexp_full by lia.
  replace (e + j - e) with j by lia. rewrite Hm, shr_exact by done. cbn [shr_m loc_of_shr_record round_nearest_even Zdigits2].
  rewrite Hc. rewrite fexp_full by lia. replace (e + j - (e + j)) with 0 by lia. cbn [shr shr_m]. by rewrite (proj2 (Z.leb_le _ _)) by lia.
Qed.

Lemma shl_align_mantissa m e e' : e' <= e -> Zpos (fst (shl_align m e e')) = Zpos m * 2 ^ (e - e').
Proof.
  intros He. unfold shl_align. destruct (e' - e) as [|d|d] eqn:E; [|lia|].
  - replace (e - e') with 0 by lia. cbn [fst]. lia.
  - cbn [fst]. replace (e - e') with (Zpos d) by lia. rewrite Pos2Nat.inj_iter, <- (positive_nat_Z d).
    induction (Pos.to_nat d) as [|n IH]; [cbn; lia|]. rewrite Nat2Z.inj_succ, Z.pow_succ_r by lia. etransitivity; [exact (Pos2Z.inj_xO _)|].
    etransitivity; [exact (f_equal (Z.mul 2) IH)|]. ring.
Qed.
Lemma round_exact s m e c j : full c -> -1074 <= e + j <= 971 ->
  (0 <= j -> Zpos m = Zpos c * 2 ^ j) -> (j < 0 -> Zpos m * 2 ^ (- j) = Zpos c) ->
  binary_round 53 1024 s m e = S754_finite s c (e + j).
Proof.
  intros Hc He Hge Hlt. unfold binary_round. destruct (Z.le_gt_cases 0 j) as [Hj|Hj].
  - specialize (Hge Hj). rewrite (full_shifted c j m) by done. replace (53 + j + e) with (53 + (e + j)) by lia. rewrite fexp_full by lia.
    assert (shl_align m e (e + j) = (m, e)) as ->; [|by apply round_aux_exact].
    unfold shl_align. replace (e + j - e) with j by lia. by destruct j.
  - specialize (Hlt Hj). pose proof (full_bounds c Hc) as Hcb. assert (Hj53 : - j < 53).
    { apply (Z.pow_lt_mono_r_iff 2); [lia|lia|]. rewrite <- Hlt in Hcb. assert (0 < 2 ^ (- j)) by lia. nia. }
    assert (Hd : Zpos (digits2_pos m) = 53 + j).
    { destruct Hcb as [Hl Hu]. rewrite <- Hlt in *. assert (0 < 2 ^ (- j)) by lia. apply digits_unique.
      - split.
        + apply (Z.mul_le_mono_pos_r _ _ (2 ^ (- j))); [done|]. rewrite <- Z.pow_add_r by lia.
          replace (53 + j - 1 + - j) with 52 by lia. done.
        + apply (Z.mul_lt_mono_pos_r (2 ^ (- j))); [done|]. rewrite <- Z.pow_add_r by lia.
          replace (53 + j + - j) with 53 by lia. done.
      - lia. }
    rewrite Hd. replace (53 + j + e) with (53 + (e + j)) by lia. rewrite fexp_full by lia.
    pose proof (shl_align_mantissa m e (e + j) ltac:(lia)) as Ha. unfold shl_align in *.
    replace (e + j - e) with j in * by lia. destruct j as [|j|j]; [lia|lia|]. cbn [fst] in Ha.
    pose proof (round_aux_exact s (Pos.iter xO m j) (e + Z.neg j) c 0 Hc ltac:(lia) ltac:(lia)) as H. rewrite Z.add_0_r in H. apply H.
    rewrite Ha, Z.mul_1_r. rewrite <- Hlt. do 2 f_equal. lia.
Qed.

(** ** Integers as doubles *)
Definition small (z : Z) : Prop := Z.abs z <= 2 ^ 53.
(** The double [x] is the integer [z]. *)
Definition value (x : F64.t) (z : Z) : Prop :=
  match x with
  | S754_zero _ => z = 0
  | S754_finite s c f => full c /\ -52 <= f <= 1 /\ Zpos c * 2 ^ (f + 52) = Z.abs z * 2 ^ 52 /\ s = (z <? 0) /\ z <> 0
  | _ => False
  end.

(** The mantissa and exponent of a small integer. *)
Lemma small_mantissa z : small z -> z <> 0 -> exists c f, full c /\ -52 <= f <= 1 /\ Zpos c * 2 ^ (f + 52) = Z.abs z * 2 ^ 52.
Proof.
  intros Hz Hne. destruct (Z.eq_dec (Z.abs z) (2 ^ 53)) as [->|Hlt]; [by exists (2 ^ 52)%positive, 1|].
  unfold small in Hz. set (f := Z.log2 (Z.abs z) - 52). pose proof (Z.log2_spec (Z.abs z) ltac:(lia)) as [Hl Hu].
  assert (Hlog : 0 <= Z.log2 (Z.abs z) <= 52).
  { split; [apply Z.log2_nonneg|]. apply Z.lt_succ_r, Z.log2_lt_pow2; lia. }
  assert (Hp : 0 < Z.abs z * 2 ^ (- f)) by lia. exists (Z.to_pos (Z.abs z * 2 ^ (- f))), f. rewrite Z2Pos.id by done.
  split; [|split; [lia|]].
  - unfold full. apply (inj Zpos). apply digits_unique; [|lia]. rewrite Z2Pos.id by done.
    replace (53 - 1) with (Z.log2 (Z.abs z) + - f) by lia. rewrite Z.pow_succ_r in Hu by lia. split.
    + rewrite Z.pow_add_r by lia. apply Z.mul_le_mono_nonneg_r; lia.
    + replace 53 with (Z.succ (Z.log2 (Z.abs z) + - f)) by lia. rewrite Z.pow_succ_r, Z.pow_add_r by lia.
      rewrite Z.mul_assoc. apply Z.mul_lt_mono_pos_r; lia.
  - rewrite <- Z.mul_assoc, <- Z.pow_add_r by lia. by replace (- f + (f + 52)) with 52 by lia.
Qed.

Lemma scale_cancel a b k l : 0 <= k -> 0 <= l -> a * 2 ^ (k + l) = b * 2 ^ l -> a * 2 ^ k = b.
Proof. intros Hk Hl H. rewrite Z.pow_add_r, Z.mul_assoc in H by done. apply Z.mul_cancel_r in H; [done|lia]. Qed.
(** A mantissa and an exponent that make a small integer are rounded to it. *)
Lemma normalized_value M E K b z : small z -> 0 <= K -> 0 <= E + K -> M * 2 ^ (E + K) = z * 2 ^ K ->
  value (binary_normalize 53 1024 M E b) z.
Proof.
  intros Hz HK HEK HM. assert (HKp : 0 < 2 ^ K) by lia. assert (HEKp : 0 < 2 ^ (E + K)) by lia.
  destruct (Z.eq_dec z 0) as [->|Hne].
  { assert (M = 0) as -> by nia. done. }
  destruct (small_mantissa z Hz Hne) as (c & f & Hc & Hf & Hcf).
  assert (HMa : Z.abs M * 2 ^ (E + K) = Z.abs z * 2 ^ K) by (rewrite <- (Z.abs_eq (2 ^ (E + K))), <- (Z.abs_eq (2 ^ K)), <- !Z.abs_mul by lia; by rewrite HM).
  (* the two scaled to one exponent *)
  assert (Hboth : Z.abs M * 2 ^ (E + K + 52) = Zpos c * 2 ^ (f + 52 + K)).
  { rewrite (Z.pow_add_r 2 (E + K)), (Z.pow_add_r 2 (f + 52)), !Z.mul_assoc by lia. rewrite HMa, Hcf. ring. }
  assert (Hround : forall s m, Zpos m = Z.abs M -> binary_round 53 1024 s m E = S754_finite s c f).
  { intros s m Hm. replace f with (E + (f - E)) by lia. apply round_exact; [done|lia|intros Hj|intros Hj]; rewrite Hm.
    - symmetry. apply (scale_cancel _ _ (f - E) (E + K + 52)); [lia|lia|]. replace (f - E + (E + K + 52)) with (f + 52 + K) by lia. done.
    - apply (scale_cancel _ _ (- (f - E)) (f + 52 + K)); [lia|lia|]. replace (- (f - E) + (f + 52 + K)) with (E + K + 52) by lia. done. }
  assert (Hsign : (M <? 0) = (z <? 0)).
  { destruct (Z.ltb_spec M 0), (Z.ltb_spec z 0); [done|nia|nia|done]. }
  destruct M as [|m|m]; cbn [binary_normalize]; [lia| |]; rewrite Hround by done; cbn [value]; by rewrite <- Hsign.
Qed.

Lemma of_int_value z : small z -> value (F64.of_int z) z.
Proof. intros Hz. by apply (normalized_value z 0 0). Qed.
Lemma to_i64_value x z : value x z -> small z -> F64.to_i64 x = z.
Proof.
  intros Hx Hz. unfold small in Hz. destruct x as [s|s| |s c f]; cbn in Hx; [by rewrite Hx|done..|].
  destruct Hx as (Hc & Hf & Hcf & -> & Hne). cbn [F64.to_i64]. assert (Hs : F64.scaled (Zpos c) f = Z.abs z).
  { unfold F64.scaled. destruct (Z.leb_spec 0 f) as [Hf0|Hf0].
    - by apply (scale_cancel _ _ f 52).
    - rewrite <- (Z.div_mul (Z.abs z) (2 ^ (- f))) by lia. f_equal. symmetry.
      apply (scale_cancel _ _ (- f) (f + 52)); [lia|lia|]. replace (- f + (f + 52)) with 52 by lia. done. }
  rewrite Hs. unfold sat_i64, i64_min, i64_max. destruct (Z.ltb_spec z 0); lia.
Qed.

(** ** Operations *)
Lemma value_finite s c f z : value (S754_finite s c f) z ->
  -52 <= f <= 1 /\ cond_Zopp s (Zpos c) * 2 ^ (f + 52) = z * 2 ^ 52 /\ z <> 0.
Proof.
  intros (Hc & Hf & Hcf & -> & Hne). split; [done|]. split; [|done]. destruct (Z.ltb_spec z 0); cbn [cond_Zopp]; [|lia].
  rewrite Z.mul_opp_l, Hcf. lia.
Qed.
(** A mantissa shifted to a smaller exponent. *)
Lemma aligned s c f e z : value (S754_finite s c f) z -> -52 <= e <= f ->
  cond_Zopp s (Zpos (fst (shl_align c f e))) * 2 ^ (e + 52) = z * 2 ^ 52.
Proof.
  intros (Hf & Hv & _)%value_finite He. rewrite shl_align_mantissa by lia. rewrite <- Hv.
  replace (f + 52) with ((f - e) + (e + 52)) by lia. rewrite (Z.pow_add_r 2 (f - e)) by lia. destruct s; cbn [cond_Zopp]; ring.
Qed.
Lemma value_unique_zero s z : value (S754_zero s) z -> z = 0.
Proof. done. Qed.

Lemma add_value x y a b : value x a -> value y b -> small (a + b) -> value (F64.add x y) (a + b).
Proof.
  intros Hx Hy Hab. destruct x as [s|s| |s c f]; [|done|done|]; destruct y as [s'|s'| |s' c' f']; try done.
  - cbn in Hx, Hy. subst. by destruct s, s'.
  - cbn in Hx. subst a. exact Hy.
  - cbn [value] in Hy. subst b. rewrite Z.add_0_r. exact Hx.
  - pose proof (value_finite _ _ _ _ Hx) as (Hf & _). pose proof (value_finite _ _ _ _ Hy) as (Hf' & _).
    apply (normalized_value _ _ 52); [done|lia|lia|]. rewrite Z.mul_add_distr_r.
    rewrite (aligned _ _ _ _ a Hx), (aligned _ _ _ _ b Hy) by lia. ring.
Qed.
Lemma opp_value x a : value x a -> value (SFopp x) (- a).
Proof.
  destruct x as [s|s| |s c f]; [cbn; lia|done..|]. intros (Hc & Hf & Hcf & -> & Hne). cbn [SFopp value]. rewrite Z.abs_opp.
  repeat split; [done|lia|lia|done| |lia]. destruct (Z.ltb_spec a 0), (Z.ltb_spec (- a) 0); cbn [negb]; lia.
Qed.
Lemma abs_value x a : value x a -> value (SFabs x) (Z.abs a).
Proof.
  destruct x as [s|s| |s c f]; [cbn; lia|done..|]. intros (Hc & Hf & Hcf & -> & Hne). cbn [SFabs value]. rewrite Z.abs_idemp.
  repeat split; [done|lia|lia|done| |lia]. symmetry. apply Z.ltb_ge. lia.
Qed.
Lemma sub_value x y a b : value x a -> value y b -> small (a - b) -> value (F64.sub x y) (a - b).
Proof.
  intros Hx Hy Hab. destruct x as [s|s| |s c f]; [|done|done|]; destruct y as [s'|s'| |s' c' f']; try done.
  - cbn in Hx, Hy. subst. by destruct s, s'.
  - cbn in Hx. subst a. exact (opp_value _ _ Hy).
  - cbn [value] in Hy. subst b. rewrite Z.sub_0_r. exact Hx.
  - pose proof (value_finite _ _ _ _ Hx) as (Hf & _). pose proof (value_finite _ _ _ _ Hy) as (Hf' & _).
    apply (normalized_value _ _ 52); [done|lia|lia|]. rewrite Z.mul_sub_distr_r.
    rewrite (aligned _ _ _ _ a Hx), (aligned _ _ _ _ b Hy) by lia. ring.
Qed.

Lemma mul_value x y a b : value x a -> value y b -> small (a * b) -> value (F64.mul x y) (a * b).
Proof.
  intros Hx Hy Hab. destruct x as [s|s| |s c f]; [|done|done|]; destruct y as [s'|s'| |s' c' f']; try done.
  - cbn in Hx. subst. done.
  - cbn [value] in Hx. subst. done.
  - cbn [value] in Hy. subst. rewrite Z.mul_0_r. done.
  - pose proof Hx as (Hc & Hf & Hcf & -> & Hne). pose proof Hy as (Hc' & Hf' & Hcf' & -> & Hne').
    destruct (small_mantissa (a * b) Hab ltac:(nia)) as (d & g & Hd & Hg & Hdg).
    assert (Hprod : Zpos (c * c') * 2 ^ (f + f' + 104) = Zpos d * 2 ^ (g + 104)).
    { replace (f + f' + 104) with ((f + 52) + (f' + 52)) by lia. replace (g + 104) with ((g + 52) + 52) by lia.
      rewrite Pos2Z.inj_mul, (Z.pow_add_r 2 (f + 52)), (Z.pow_add_r 2 (g + 52)) by lia.
      rewrite (Z.mul_assoc (Zpos d)), Hdg, Z.abs_mul.
      transitivity ((Zpos c * 2 ^ (f + 52)) * (Zpos c' * 2 ^ (f' + 52))); [ring|]. rewrite Hcf, Hcf'. ring. }
    assert (Hj : 0 <= g - (f + f')).
    { apply Z.le_ngt. intros Hlt. pose proof (full_bounds _ Hc). pose proof (full_bounds _ Hc'). pose proof (full_bounds _ Hd).
      assert (Hl1 : 2 ^ (g + 104) < 2 ^ (f + f' + 104)) by (apply Z.pow_lt_mono_r; lia).
      assert (Hl2 : 2 ^ 104 <= Zpos (c * c')) by (rewrite Pos2Z.inj_mul; change (2 ^ 104) with (2 ^ 52 * 2 ^ 52); apply Z.mul_le_mono_nonneg; lia).
      assert (2 ^ 53 < 2 ^ 104) by done. assert (0 < 2 ^ (g + 104)) by lia. nia. }
    cbn [F64.mul SFmul]. unfold F64.mul, SFmul. rewrite (round_aux_exact _ _ _ d (g - (f + f'))); [|done|done|lia|].
    + replace (f + f' + (g - (f + f'))) with g by lia. repeat split; [done|lia|lia|done| |nia].
      destruct (Z.ltb_spec a 0), (Z.ltb_spec b 0), (Z.ltb_spec (a * b) 0); cbn [xorb]; nia.
    + symmetry. apply (scale_cancel _ _ _ (f + f' + 104)); [done|lia|]. by replace (g - (f + f') + (f + f' + 104)) with (g + 104) by lia.
Qed.

Lemma full_order c c' f f' n : full c -> full c' -> 0 <= f + n -> 0 <= f' + n -> f < f' -> Zpos c * 2 ^ (f + n) < Zpos c' * 2 ^ (f' + n).
Proof.
  intros Hc%full_bounds Hc'%full_bounds Hf Hf' Hlt. apply (Z.lt_le_trans _ (2 ^ 53 * 2 ^ (f + n))).
  - apply Z.mul_lt_mono_pos_r; lia.
  - transitivity (2 ^ 52 * 2 ^ (f' + n)); [|apply Z.mul_le_mono_nonneg_r; lia]. rewrite <- !Z.pow_add_r by lia.
    apply Z.pow_le_mono_r; lia.
Qed.
Lemma cmp_value x y a b : value x a -> value y b -> F64.cmp x y = Some (a ?= b).
Proof.
  assert (Hpos : forall c c' f f' p q, full c -> full c' -> -52 <= f -> -52 <= f' -> Zpos c * 2 ^ (f + 52) = p * 2 ^ 52 ->
    Zpos c' * 2 ^ (f' + 52) = q * 2 ^ 52 ->
    match f ?= f' with Lt => Lt | Gt => Gt | Eq => Pos.compare_cont Eq c c' end = (p ?= q)).
  { intros c c' f f' p q Hc Hc' Hf Hf' Hp Hq. rewrite (Zmult_compare_compat_r p q (2 ^ 52)) by lia. rewrite <- Hp, <- Hq.
    destruct (Z.compare_spec f f') as [->|Hlt|Hlt].
    - by rewrite <- (Zmult_compare_compat_r (Zpos c) (Zpos c')) by lia.
    - symmetry. apply Z.compare_lt_iff. by apply full_order; [..|lia|lia|].
    - symmetry. apply Z.compare_gt_iff. by apply full_order; [..|lia|lia|]. }
  intros Hx Hy. destruct x as [s|s| |s c f]; [|done|done|]; destruct y as [s'|s'| |s' c' f']; try done.
  - cbn in Hx, Hy. by subst.
  - cbn [value] in Hx. subst a. destruct Hy as (_ & _ & _ & -> & Hne). unfold F64.cmp, SFcompare. f_equal. destruct (Z.ltb_spec b 0), (Z.compare_spec 0 b); first [done | exfalso; lia].
  - cbn [value] in Hy. subst b. destruct Hx as (_ & _ & _ & -> & Hne). unfold F64.cmp, SFcompare. f_equal. destruct (Z.ltb_spec a 0), (Z.compare_spec a 0); first [done | exfalso; lia].
  - destruct Hx as (Hc & Hf & Hcf & -> & Hne). destruct Hy as (Hc' & Hf' & Hcf' & -> & Hne'). unfold F64.cmp, SFcompare. f_equal.
    specialize (Hpos c c' f f' (Z.abs a) (Z.abs b) Hc Hc' ltac:(lia) ltac:(lia) Hcf Hcf').
    destruct (Z.ltb_spec a 0) as [Ha|Ha], (Z.ltb_spec b 0) as [Hb|Hb].
    + rewrite (Z.abs_neq a), (Z.abs_neq b), Z.compare_opp in Hpos by lia. rewrite (Z.compare_antisym b a), <- Hpos.
      by destruct (f ?= f').
    + symmetry. apply Z.compare_lt_iff. lia.
    + symmetry. apply Z.compare_gt_iff. lia.
    + by rewrite (Z.abs_eq a), (Z.abs_eq b) in Hpos by lia.
Qed.

(** The remainder has the sign of the dividend. *)
Lemma small_rem a b : small a -> small (Z.rem a b).
Proof.
  intros Ha. unfold small in *. destruct (Z.eq_dec b 0) as [->|Hb]; [by rewrite Zrem_0_r|].
  pose proof (Z.rem_le (Z.abs a) (Z.abs b) ltac:(lia) ltac:(lia)) as Hle. pose proof (Z.rem_abs a b Hb). lia.
Qed.
Lemma rem_value x y a b : value x a -> value y b -> small a -> b <> 0 -> value (F64.rem x y) (Z.rem a b).
Proof.
  intros Hx Hy Ha Hb. destruct x as [s|s| |s c f]; [|done|done|]; destruct y as [s'|s'| |s' c' f']; try done.
  - cbn in Hx. subst. done.
  - pose proof (value_finite _ _ _ _ Hx) as (Hf & Hv & _). pose proof (value_finite _ _ _ _ Hy) as (Hf' & Hv' & _).
    unfold F64.rem. set (e := Z.min f f'). set (m := Zpos c * 2 ^ (f - e)). set (m' := Zpos c' * 2 ^ (f' - e)).
    assert (Hm : m * 2 ^ (e + 52) = Z.abs a * 2 ^ 52).
    { unfold m. rewrite <- Z.mul_assoc, <- Z.pow_add_r by lia. replace (f - e + (e + 52)) with (f + 52) by lia. apply Hx. }
    assert (Hm' : m' * 2 ^ (e + 52) = Z.abs b * 2 ^ 52).
    { unfold m'. rewrite <- Z.mul_assoc, <- Z.pow_add_r by lia. replace (f' - e + (e + 52)) with (f' + 52) by lia. apply Hy. }
    assert (Hmpos : 0 < m') by (unfold m'; lia). assert (0 <= m) by (unfold m; lia).
    assert (Hr : (m mod m') * 2 ^ (e + 52) = (Z.abs a mod Z.abs b) * 2 ^ 52).
    { rewrite <- !Z.mul_mod_distr_r, Hm, Hm' by lia. done. }
    pose proof (Z.rem_abs a b Hb) as Habs. rewrite Z.rem_mod_nonneg in Habs by lia.
    assert (Hsg : Z.rem a b = cond_Zopp s (Z.abs a mod Z.abs b)).
    { rewrite Habs. destruct Hx as (_ & _ & _ & -> & Hne). pose proof (Z.rem_sign_nz a b Hb).
      destruct (Z.ltb_spec a 0); cbn [cond_Zopp]; pose proof (Zrem_sgn2 a b); nia. }
    apply (normalized_value _ _ 52); [by apply small_rem|lia|lia|]. rewrite Hsg.
    destruct s; cbn [cond_Zopp]; rewrite ?Z.mul_opp_l, Hr; done.
Qed.
Lemma rem_euclid_value x y a b : value x a -> value y b -> small a -> small b -> b <> 0 ->
  value (F64.rem_euclid x y) (a mod Z.abs b).
Proof.
  intros Hx Hy Ha Hb Hne. pose proof (rem_value x y a b Hx Hy Ha Hne) as Hr. unfold F64.rem_euclid, SFltb.
  change (SFcompare (F64.rem x y) F64.zero) with (F64.cmp (F64.rem x y) F64.zero).
  rewrite (cmp_value _ F64.zero _ 0 Hr) by done. pose proof (Z.rem_abs a b Hne) as Habs.
  pose proof (Z.mod_pos_bound a (Z.abs b) ltac:(lia)). pose proof (Zrem_sgn2 a b).
  pose proof (Z.quot_rem' a b) as Hq.
  assert (Hlt : Z.abs (Z.rem a b) < Z.abs b) by (rewrite <- Habs; pose proof (Z.rem_bound_pos (Z.abs a) (Z.abs b)); lia).
  assert (Hmod : forall q, a = Z.abs b * q + (if Z.rem a b <? 0 then Z.rem a b + Z.abs b else Z.rem a b) ->
    a mod Z.abs b = if Z.rem a b <? 0 then Z.rem a b + Z.abs b else Z.rem a b).
  { intros q Hqq. symmetry. apply (Z.mod_unique _ _ q); [left|done]. destruct (Z.ltb_spec (Z.rem a b) 0); lia. }
  destruct (Z.compare_spec (Z.rem a b) 0) as [He|Hl|Hg].
  - rewrite (Hmod (Z.sgn b * Z.quot a b)); destruct (Z.ltb_spec (Z.rem a b) 0); [lia|done|lia|]. rewrite <- Z.sgn_abs at 1. nia.
  - rewrite (Hmod (Z.sgn b * Z.quot a b - 1)); destruct (Z.ltb_spec (Z.rem a b) 0); [|lia| |lia].
    + apply add_value; [done|by apply abs_value|]. unfold small in *. lia.
    + pose proof (Z.sgn_abs b). nia.
  - rewrite (Hmod (Z.sgn b * Z.quot a b)); destruct (Z.ltb_spec (Z.rem a b) 0); [lia|done|lia|]. pose proof (Z.sgn_abs b). nia.
Qed.
Lemma eqb_value x y a b : value x a -> value y b -> F64.eqb x y = (a =? b).
Proof.
  intros Hx Hy. unfold F64.eqb, SFeqb. change (SFcompare x y) with (F64.cmp x y). rewrite (cmp_value x y a b Hx Hy).
  by destruct (Z.compare_spec a b), (Z.eqb_spec a b); try lia.
Qed.
