(* ===== verification/CypherOperators.v ===== *)
(** * The operators of expressions
    ([src/src/cypher/executor.rs]: [arith], [boolean], [eval_index], [eval_slice])

    What the operators of [CypherValue] compute: integer arithmetic is that of
    the integers while the numbers are doubles exactly, the connectives are
    those of Kleene's three-valued logic, an index and a slice are what
    the positions of the list say. *)
From Stdlib Require Import SpecFloat.
From S2P Require Import Prelude CypherLexer CypherAst CypherValue CypherNumbers.
Local Open Scope list_scope.
Local Open Scope Z_scope.

(** ** Arithmetic *)
(** What the operators mean on integers; the remainder is that of Euclid. *)
Definition integer_op (op : BinaryOp) (a b : Z) : option Z :=
  match op with
  | Add => Some (a + b)
  | Sub => Some (a - b)
  | Mul => Some (a * b)
  | Div => if b =? 0 then None else Some (Z.quot a b)
  | Mod => if b =? 0 then None else Some (a mod Z.abs b)
  | _ => None
  end.

Section operators.
Context `{Libm}.

(** Integer arithmetic is exact up to 2^53.  While the operands and the
    result of [+], [-], [*], [/] and [%] are at most 2^53 in size, [arith],
    which computes in doubles, answers the integer the operator means:
    the quotient truncated, the remainder Euclid's. *)
Theorem arith_exact op a b r sp : small a -> small b -> small r -> integer_op op a b = Some r ->
  arith op (Value.Integer a) (Value.Integer b) sp = Ok (Value.Integer r).
Proof.
  intros Ha Hb Hr Hop. pose proof (of_int_value a Ha) as Hxa. pose proof (of_int_value b Hb) as Hxb.
  assert (Hfin : forall x, value x r -> Ok (Value.Integer (F64.to_i64 x)) = Ok (Value.Integer r) :> Exec Value).
  { intros x Hx. by rewrite (to_i64_value x r). }
  destruct op; try done; cbn [integer_op] in Hop; unfold arith; cbn [Value.is_null orb Value.as_number both_integers number_op];
    try (destruct (Z.eqb_spec b 0) as [|Hb0]; [done|]); injection Hop as <-.
  - by apply Hfin, add_value.
  - by apply Hfin, sub_value.
  - by apply Hfin, mul_value.
  - rewrite (eqb_value _ F64.zero b 0 Hxb) by done. rewrite (proj2 (Z.eqb_neq b 0) Hb0). cbn zeta.
    rewrite (to_i64_value _ a Hxa Ha), (to_i64_value _ b Hxb Hb), (proj2 (Z.eqb_neq b 0) Hb0).
    rewrite (proj2 (Z.eqb_neq a i64_min)); [done|]. unfold small, i64_min in *. lia.
  - by apply Hfin, rem_euclid_value.
Qed.

(** Past it the last digits go. *)
Lemma arith_past_exact sp :
  arith Add (Value.Integer (2 ^ 53)) (Value.Integer 1) sp = Ok (Value.Integer (2 ^ 53)).
Proof. reflexivity. Qed.
(** What does not fit is the nearest end of [i64]. *)
Lemma arith_saturates sp : arith Mul (Value.Integer (2 ^ 62)) (Value.Integer 2) sp = Ok (Value.Integer i64_max).
Proof. reflexivity. Qed.
(** The remainder by zero is zero, the quotient an error. *)
Lemma remainder_by_zero a sp : small a -> arith Mod (Value.Integer a) (Value.Integer 0) sp = Ok (Value.Integer 0).
Proof.
  intros Ha. unfold arith. cbn [Value.is_null orb Value.as_number both_integers number_op]. pose proof (of_int_value a Ha) as Hx.
  change (F64.of_int 0) with (S754_zero false). by destruct (F64.of_int a).
Qed.
Lemma quotient_by_zero a sp :
  arith Div (Value.Integer a) (Value.Integer 0) sp = raise (TypeMismatch (lit "non-zero divisor") (lit "zero") sp).
Proof. reflexivity. Qed.
(** The least integer by minus one stops the query. *)
Lemma least_quotient sp : arith Div (Value.Integer i64_min) (Value.Integer (-1)) sp = Err Panic.
Proof. reflexivity. Qed.
Lemma arith_null op a sp : arith op Value.Null a sp = Ok Value.Null /\ arith op a Value.Null sp = Ok Value.Null.
Proof. unfold arith. cbn [Value.is_null orb]. by rewrite orb_true_r. Qed.

(** ** Connectives *)
(** A truth value: false, unknown, true. *)
Definition truth_value (t : option bool) : Value := match t with Some b => Value.Bool b | None => Value.Null end.
Definition degree (t : option bool) : nat := match t with Some false => 0 | None => 1 | Some true => 2 end.
Definition of_degree (n : nat) : option bool := match n with O => Some false | S O => None | _ => Some true end.
Definition connective (op : BinaryOp) (x y : option bool) : option (option bool) :=
  match op with
  | BAnd => Some (of_degree (Nat.min (degree x) (degree y)))
  | BOr => Some (of_degree (Nat.max (degree x) (degree y)))
  | BXor => Some (of_degree (Nat.max (Nat.min (degree x) (2 - degree y)) (Nat.min (2 - degree x) (degree y))))
  | _ => None
  end.
Lemma truth_truth_value t sp : truth (truth_value t) sp = Ok t.
Proof. by destruct t. Qed.
Lemma truth_ok v t sp : truth v sp = Ok t <-> v = truth_value t.
Proof. split; [destruct v; cbn; intros [=<-]; done|intros ->; apply truth_truth_value]. Qed.

(** The connectives are Kleene's.  On truth values, null being the
    unknown one, [AND] is the least, [OR] the greatest and [XOR] the exclusive
    disjunction these two give, with [NOT] turning the order round; anything
    else is refused with the type it has, the left operand first. *)
Theorem connectives_kleene op x y sp t : connective op x y = Some t ->
  eval_binary op (truth_value x) (truth_value y) sp = Ok (truth_value t)
  /\ eval_unary UNot (truth_value x) sp = Ok (truth_value (of_degree (2 - degree x)))
  /\ forall v, (forall z, v <> truth_value z) -> forall w,
       eval_binary op v w sp = Value.mismatch "Boolean" v sp
       /\ eval_binary op (truth_value x) v sp = Value.mismatch "Boolean" v sp
       /\ eval_unary UNot v sp = Value.mismatch "Boolean" v sp.
Proof.
  intros Hop. repeat apply conj.
  - destruct op; try done; injection Hop as <-; unfold eval_binary, boolean; rewrite !truth_truth_value; by destruct x as [[]|], y as [[]|].
  - by destruct x as [[]|].
  - intros v Hv w. assert (Hb : forall b, v <> Value.Bool b) by (intros b; exact (Hv (Some b))). assert (Hn : v <> Value.Null) by exact (Hv None).
    repeat apply conj; (destruct op; try done); unfold eval_binary, boolean; rewrite ?truth_truth_value;
      destruct v; try done; solve [by destruct (Hb b)|by destruct Hn].
Qed.

(** ** Positions of lists *)
Lemma clamp_bounds i len : 0 <= len -> 0 <= clamp_slice_bound i len <= len.
Proof. unfold clamp_slice_bound. lia. Qed.
Lemma slice_answer items from to sp :
  let len := Z.of_nat (length items) in
  let bound (d : Z) (v : option Z) := match v with Some i => clamp_slice_bound i len | None => d end in
  eval_slice (Value.List items) (Value.Integer <$> from) (Value.Integer <$> to) sp
  = Ok (Value.List (take (Z.to_nat (bound len to) - Z.to_nat (bound 0 from)) (drop (Z.to_nat (bound 0 from)) items))).
Proof.
  cbn zeta. set (len := Z.of_nat (length items)). unfold eval_slice. cbn [Value.is_null].
  assert (Hnn : existsb Value.is_null (option_list (Value.Integer <$> from) ++ option_list (Value.Integer <$> to)) = false) by (by destruct from, to).
  rewrite Hnn. fold len. assert (Hcut : forall lo hi, 0 <= lo -> (if hi <=? lo then Ok (Value.List []) else
      Ok (Value.List (take (Z.to_nat (hi - lo)) (drop (Z.to_nat lo) items))))
    = Ok (Value.List (take (Z.to_nat hi - Z.to_nat lo) (drop (Z.to_nat lo) items))) :> Exec Value).
  { intros lo hi Hlo. destruct (Z.leb_spec hi lo) as [Hle|Hgt].
    - by replace (Z.to_nat hi - Z.to_nat lo)%nat with 0%nat by lia.
    - by replace (Z.to_nat (hi - lo)) with (Z.to_nat hi - Z.to_nat lo)%nat by lia. }
  destruct from as [i|], to as [j|]; cbn; apply Hcut; try done; apply clamp_bounds; lia.
Qed.

(** Slices cut a list at positions.  For any two integers, negative ones
    counting from the end and those past an end standing for it,
    [xs[..i]], [xs[i..j]] and [xs[j..]] put together are the list when the
    second bound is not before the first, [xs[i..j]] is empty otherwise, and
    the element [xs[i]] is the first of [xs[i..]] when [i] is a position. *)
Theorem slices_cut items i j sp :
  let len := Z.of_nat (length items) in
  exists a b c d,
    eval_slice (Value.List items) None (Some (Value.Integer i)) sp = Ok (Value.List a)
    /\ eval_slice (Value.List items) (Some (Value.Integer i)) (Some (Value.Integer j)) sp = Ok (Value.List b)
    /\ eval_slice (Value.List items) (Some (Value.Integer j)) None sp = Ok (Value.List c)
    /\ eval_slice (Value.List items) (Some (Value.Integer i)) None sp = Ok (Value.List d)
    /\ Z.of_nat (length a) = clamp_slice_bound i len
    /\ (if clamp_slice_bound i len <=? clamp_slice_bound j len then a ++ b ++ c = items else b = [])
    /\ eval_index (Value.List items) (Value.Integer i) sp
       = Ok (if (- len <=? i) && (i <? len) then or_null (head d) else Value.Null).
Proof.
  cbn zeta. pose proof (slice_answer items None (Some i) sp) as Ha. pose proof (slice_answer items (Some i) (Some j) sp) as Hb.
  pose proof (slice_answer items (Some j) None sp) as Hc. pose proof (slice_answer items (Some i) None sp) as Hd. cbn in Ha, Hb, Hc, Hd.
  set (len := Z.of_nat (length items)) in *. pose proof (clamp_bounds i len ltac:(lia)) as Hi. pose proof (clamp_bounds j len ltac:(lia)) as Hj.
  set (p := Z.to_nat (clamp_slice_bound i len)) in *. set (q := Z.to_nat (clamp_slice_bound j len)) in *.
  eexists _, _, _, _. split; [exact Ha|]. split; [exact Hb|]. split; [exact Hc|]. split; [exact Hd|].
  rewrite !drop_0, !Nat.sub_0_r. assert (Hrest : forall n, take (Z.to_nat len - n) (drop n items) = drop n items).
  { intros n. apply take_ge. rewrite length_drop. lia. }
  rewrite !Hrest. split; [rewrite length_take; lia|]. split.
  - destruct (Z.leb_spec (clamp_slice_bound i len) (clamp_slice_bound j len)) as [Hle|Hgt].
    + rewrite <- (take_drop p items) at 4. f_equal. rewrite <- (take_drop (q - p) (drop p items)) at 2. f_equal.
      rewrite drop_drop. f_equal. lia.
    + by replace (q - p)%nat with 0%nat by lia.
  - unfold eval_index. cbn [Value.is_null orb]. f_equal. unfold list_element. fold len. rewrite head_lookup, lookup_drop, Nat.add_0_r. subst p.
    unfold clamp_slice_bound. set (idx := if i <? 0 then i + len else i).
    assert (Hin : (- len <=? i) && (i <? len) = negb ((idx <? 0) || (len <=? idx))).
    { unfold idx. destruct (Z.ltb_spec i 0); apply eq_true_iff_eq; rewrite negb_true_iff, andb_true_iff, orb_false_iff; lia. }
    rewrite Hin. destruct ((idx <? 0) || (len <=? idx)) eqn:Hout; [done|]. cbn [negb].
    apply orb_false_iff in Hout as [?%Z.ltb_ge ?%Z.leb_gt]. do 3 f_equal. lia.
Qed.
End operators.

(** ** By example *)
Module Operands.
Definition no_span : Span := mkSpan 0 0 1 1.
#[local] Instance libm : Libm := {| powf := fun x _ => x |}.
(** [-7 % 3] is 2. *)
Lemma arith_exact_witness : arith Mod (Value.Integer (-7)) (Value.Integer 3) no_span = Ok (Value.Integer 2).
Proof.
  apply (arith_exact Mod (-7) 3 2 no_span); [unfold small; lia..|reflexivity].
Defined.
(** [false AND null] is false. *)
Lemma connectives_kleene_witness : eval_binary BAnd (Value.Bool false) Value.Null no_span = Ok (Value.Bool false).
Proof. exact (proj1 (connectives_kleene BAnd (Some false) None no_span (Some false) eq_refl)). Defined.
End Operands.
