(* ===== verification/CypherPipeline.v ===== *)
(** * Projections, order and cuts
    ([src/src/cypher/executor.rs]: [RETURN], [WITH], [UNWIND], [TopK])

    What the clauses that reshape a query's rows do, over the evaluation of
    expressions as an argument: projecting, grouping, ordering, [SKIP] and
    [LIMIT], and the two caps by which a [MATCH] learns what the clause after
    it keeps.  A row of bindings is a map from names to values.

    [sort_by] of the standard library is the stable sort of a total preorder;
    on keys that are not ordered by one it promises nothing.  [BinaryHeap] is
    kept as its elements in order. *)
From Stdlib Require Import Ascii.
From S2P Require Import Prelude CypherLexer CypherAst CypherParser CypherValue.
Local Open Scope list_scope.
Local Open Scope Z_scope.

Abbreviation Bindings := (gmap text Value).
Abbreviation KeyedRows := (list (list Value * Bindings)).
Abbreviation SortKey := (list (Value * OrderDirection)).

(** ** Sorting *)
Section sort.
Context {A : Type} (cmp : A -> A -> comparison).
Fixpoint insert_sorted (x : A) (l : list A) : list A :=
  match l with
  | [] => [x]
  | y :: l' => match cmp x y with Gt => y :: insert_sorted x l' | _ => x :: l end
  end.
(** [sort_by]. *)
Definition sort_by (l : list A) : list A := foldr insert_sorted [] l.
End sort.

(** ** The rows that sort first *)
Record TopSpec : Type := mkTopSpec { ts_keep : Z; ts_order_by : list OrderItem; ts_items : list ProjectionItem }.
Record Ranked : Type := mkRanked { rk_key : SortKey; rk_seq : N; rk_row : Bindings }.
(** [impl Ord for Ranked]. *)
Definition ranked_cmp (a b : Ranked) : comparison :=
  match compare_keys (rk_key a) (rk_key b) with Eq => (rk_seq a ?= rk_seq b)%N | c => c end.

(** [heap]: the elements of the max-heap, the top last. *)
Record TopK : Type := mkTopK { tk_keep : Z; tk_heap : list Ranked; tk_seq : N }.
Definition topk_new (keep : Z) : TopK := mkTopK keep [] 0.
Definition topk_push (t : TopK) (key : SortKey) (row : Bindings) : TopK :=
  let seq := (tk_seq t + 1)%N in
  if tk_keep t =? 0 then mkTopK (tk_keep t) (tk_heap t) seq
  else
    let ranked := mkRanked key seq row in
    if Z.of_nat (length (tk_heap t)) =? tk_keep t then
      match last (tk_heap t) with
      | Some worst =>
          match ranked_cmp ranked worst with
          | Lt => mkTopK (tk_keep t) (insert_sorted ranked_cmp ranked (removelast (tk_heap t))) seq
          | _ => mkTopK (tk_keep t) (tk_heap t) seq
          end
      | None => mkTopK (tk_keep t) (insert_sorted ranked_cmp ranked (removelast (tk_heap t))) seq
      end
    else mkTopK (tk_keep t) (insert_sorted ranked_cmp ranked (tk_heap t)) seq.
Definition into_rows (t : TopK) : list Bindings := rk_row <$> tk_heap t.

(** ** Projections *)
Definition is_aggregation_name (name : list text) : bool :=
  match name with
  | [n] => existsb (fun w => eq_ignore_ascii_case n w)
             ["count"; "sum"; "avg"; "min"; "max"; "collect"; "stdev"; "stdevp"; "percentilecont"; "percentiledisc"]%string
  | _ => false
  end.
Fixpoint contains_aggregation (e : Expression) : bool :=
  match e with
  | Expression.FunctionCall name _ args _ => is_aggregation_name name || existsb contains_aggregation args
  | Expression.Binary _ lhs rhs _ => contains_aggregation lhs || contains_aggregation rhs
  | Expression.Unary _ e _ | Expression.IsNull e _ _ | Expression.HasLabels e _ _ => contains_aggregation e
  | Expression.In e l _ => contains_aggregation e || contains_aggregation l
  | Expression.Property base _ _ => contains_aggregation base
  | Expression.List items _ => existsb contains_aggregation items
  | Expression.Map (Expression.mkMap entries _) => existsb (fun '(_, e) => contains_aggregation e) entries
  | Expression.Case scrutinee arms else_branch _ =>
      match scrutinee with Some e => contains_aggregation e | None => false end
      || existsb (fun '(w, t) => contains_aggregation w || contains_aggregation t) arms
      || match else_branch with Some e => contains_aggregation e | None => false end
  | Expression.Index base index _ => contains_aggregation base || contains_aggregation index
  | Expression.Slice base from to _ =>
      contains_aggregation base || match from with Some e => contains_aggregation e | None => false end
      || match to with Some e => contains_aggregation e | None => false end
  | Expression.ListComprehension _ l _ _ _ | Expression.ListPredicate _ _ l _ _ => contains_aggregation l
  | Expression.Reduce _ init _ l _ _ => contains_aggregation init || contains_aggregation l
  | _ => false
  end.

Fixpoint default_column_name `{!Chars} (e : Expression) : text :=
  match e with
  | Expression.Var name _ => name
  | Expression.Property base name _ => default_column_name base ++ ch "." :: name
  | Expression.Param name _ => ch "$" :: name
  | Expression.Integer i _ => integer_text i
  | Expression.Float f _ => float_text f
  | Expression.String s _ => ch "034" :: s ++ [ch "034"]
  | Expression.True_ _ => lit "true"
  | Expression.False_ _ => lit "false"
  | Expression.Null _ => lit "NULL"
  | _ => lit "expr"
  end.

(** The names a row binds, in order. *)
Definition sorted_names (row : Bindings) : list text := sort_by text_cmp (elements (dom row)).
Definition no_span : Span := mkSpan 0 0 0 0.
(** [RETURN *] names what the first row binds. *)
Definition resolve_item `{!Chars} (rows : list Bindings) (item : ProjectionItem) : list (text * Expression) :=
  match item with
  | ProjectStar =>
      match rows with
      | row :: _ => (fun name => (name, Expression.Var name no_span)) <$> sorted_names row
      | [] => []
      end
  | ProjectExpression e alias => [(match alias with Some a => a | None => default_column_name e end, e)]
  end.
Definition resolve_projections `{!Chars} (rows : list Bindings) (items : list ProjectionItem) : list (text * Expression) :=
  flat_map (resolve_item rows) items.

(** [entry(..).or_insert(..)] of each. *)
Definition add_missing (row : Bindings) (entries : list (text * Value)) : Bindings :=
  foldl (fun scope '(k, v) => match scope !! k with Some _ => scope | None => <[k := v]> scope end) row entries.
Definition bind_all (row : Bindings) (entries : list (text * Value)) : Bindings :=
  foldl (fun scope '(k, v) => <[k := v]> scope) row entries.

(** [drain(..n)] and [truncate(n)]. *)
Definition skip_rows {A} (n : Z) (rows : list A) : list A := if Z.of_nat (length rows) <=? n then [] else drop (Z.to_nat n) rows.
Definition limit_rows {A} (n : Z) (rows : list A) : list A := if Z.of_nat (length rows) <=? n then rows else take (Z.to_nat n) rows.

Section evaluation.
Context `{!Chars} (ev : Expression -> Bindings -> Exec Value).
(** [eval_with_agg]: an expression over the rows of a group. *)
Context (ev_group : Expression -> list Bindings -> Exec Value).

Definition eval_usize (e : Expression) (row : Bindings) : Exec Z :=
  v ← ev e row;
  match v with
  | Value.Integer i =>
      if 0 <=? i then Ok i
      else raise (TypeMismatch (lit "non-negative Integer") (lit "negative Integer") (Expression.span e))
  | other => Value.mismatch "Integer" other (Expression.span e)
  end.

(** A condition of a [WHERE]: null is not a reason to keep a row. *)
Definition eval_where (expected : string) (e : Expression) (sp : Span) (row : Bindings) : Exec bool :=
  v ← ev e row;
  match v with
  | Value.Bool b => Ok b
  | Value.Null => Ok false
  | other => Value.mismatch expected other sp
  end.
Fixpoint filter_where (e : Expression) (rows : list Bindings) : Exec (list Bindings) :=
  match rows with
  | [] => Ok []
  | row :: rows =>
      keep ← eval_where "Boolean" e (Expression.span e) row;
      rest ← filter_where e rows;
      Ok (if keep : bool then row :: rest else rest)
  end.

Definition project (projections : list Expression) (rows : list Bindings) : Exec KeyedRows :=
  mapM (fun binding => row ← mapM (fun p => ev p binding) projections; Ok (row, binding)) rows.

(** The key of a row by which a clause orders it. *)
Definition order_key (order_by : list OrderItem) (scope : Bindings) : Exec SortKey :=
  mapM (fun item => v ← ev (oi_expression item) scope; Ok (v, oi_direction item)) order_by.
Definition keyed_key (order_by : list OrderItem) (columns : list text) (keyed : list Value * Bindings) : Exec SortKey :=
  order_key order_by (add_missing keyed.2 (zip columns keyed.1)).
Definition sort_keyed (order_by : list OrderItem) (columns : list text) (keyed : KeyedRows) : Exec KeyedRows :=
  sortable ← mapM (fun kr => key ← keyed_key order_by columns kr; Ok (key, kr)) keyed;
  Ok (snd <$> sort_by (fun a b => compare_keys a.1 b.1) sortable).

(** Rows with equal keys, in order of the first of each. *)
Definition add_to_group (groups : list (list Value * list Bindings)) (key : list Value) (binding : Bindings) :=
  match list_find (fun g => list_eqb value_eq g.1 key = true) groups with
  | Some (pos, g) => <[pos := (g.1, g.2 ++ [binding])]> groups
  | None => groups ++ [(key, [binding])]
  end.
Definition group_rows (projections : list Expression) (rows : list Bindings) : Exec (list (list Value * list Bindings)) :=
  let grouping := List.filter (fun p => negb (contains_aggregation p)) projections in
  groups ← foldl (fun acc binding =>
      groups ← acc;
      key ← mapM (fun p => ev p binding) grouping;
      Ok (add_to_group groups key binding)) (Ok []) rows;
  Ok (if bool_decide (grouping = []) && bool_decide (groups = []) then [([], [])] else groups).
(** The columns of a group: its key in the columns that group, the folds in the others. *)
Fixpoint group_columns (projections : list Expression) (key : list Value) (rows : list Bindings) : Exec (list Value) :=
  match projections with
  | [] => Ok []
  | p :: projections =>
      if contains_aggregation p then
        v ← ev_group p rows;
        rest ← group_columns projections key rows;
        Ok (v :: rest)
      else
        rest ← group_columns projections (tail key) rows;
        Ok (or_null (head key) :: rest)
  end.
Definition aggregate_rows (columns : list text) (projections : list Expression) (rows : list Bindings) : Exec KeyedRows :=
  groups ← group_rows projections rows;
  mapM (fun '(key, rows) => row ← group_columns projections key rows; Ok (row, bind_all ∅ (zip columns row))) groups.

(** The rows of a [RETURN] or a [WITH]. *)
Definition projected_rows (distinct : bool) (projected : list (text * Expression)) (order_by : list OrderItem)
    (skip limit : option Expression) (rows : list Bindings) : Exec (list (list Value)) :=
  let columns := projected.*1 in
  let projections := projected.*2 in
  keyed ← if existsb contains_aggregation projections then aggregate_rows columns projections rows else project projections rows;
  keyed ← match order_by with [] => Ok keyed | _ => sort_keyed order_by columns keyed end;
  let rows := keyed.*1 in
  let rows := if distinct then dedup_rows rows else rows in
  rows ← match skip with Some e => n ← eval_usize e ∅; Ok (skip_rows n rows) | None => Ok rows end;
  match limit with Some e => n ← eval_usize e ∅; Ok (limit_rows n rows) | None => Ok rows end.

Definition run_return (distinct : bool) (items : list ProjectionItem) (order_by : list OrderItem) (skip limit : option Expression)
    (rows : list Bindings) : Exec (list text * list (list Value)) :=
  let projected := resolve_projections rows items in
  out ← projected_rows distinct projected order_by skip limit rows;
  Ok (projected.*1, out).
Definition run_with (distinct : bool) (items : list ProjectionItem) (order_by : list OrderItem)
    (skip limit where_clause : option Expression) (rows : list Bindings) : Exec (list Bindings) :=
  let projected := resolve_projections rows items in
  out ← projected_rows distinct projected order_by skip limit rows;
  let scopes := (fun row => bind_all ∅ (zip projected.*1 row)) <$> out in
  match where_clause with Some e => filter_where e scopes | None => Ok scopes end.

Fixpoint run_unwind (e : Expression) (alias : text) (rows : list Bindings) : Exec (list Bindings) :=
  match rows with
  | [] => Ok []
  | row :: rows =>
      v ← ev e row;
      match v with
      | Value.List items =>
          rest ← run_unwind e alias rows;
          Ok (((fun item => <[alias := item]> row) <$> items) ++ rest)
      | Value.Null => run_unwind e alias rows
      | other => Value.mismatch "List" other (Expression.span e)
      end
  end.

(** ** What the next clause keeps *)
Definition next_projection (next : option Clause) :
    option (bool * list ProjectionItem * list OrderItem * option Expression * option Expression * bool) :=
  match next with
  | Some (Clause.With distinct items order_by skip limit where_clause _) =>
      Some (distinct, items, order_by, skip, limit, bool_decide (is_Some where_clause))
  | Some (Clause.Return distinct items order_by skip limit _) => Some (distinct, items, order_by, skip, limit, false)
  | _ => None
  end.
Definition aggregates (items : list ProjectionItem) : bool :=
  existsb (fun item => match item with ProjectExpression e _ => contains_aggregation e | ProjectStar => false end) items.
(** A constant count; what is not one is for the projection to report. *)
Definition count (e : option Expression) : Exec (option Z) :=
  match e with
  | None => Ok (Some 0)
  | Some e =>
      match ev e ∅ with
      | Ok (Value.Integer n) => Ok (if 0 <=? n then Some n else None)
      | Ok _ | Err (Raise _) => Ok None
      | Err stop => Err stop
      end
  end.
Definition checked_add (a b : Z) : option Z := if a + b <=? u64_max then Some (a + b) else None.
Definition cap_of (skip limit : option Expression) : Exec (option Z) :=
  match limit with
  | None => Ok None
  | Some _ =>
      s ← count skip;
      match s with
      | None => Ok None
      | Some s => l ← count limit; Ok (l ≫= checked_add s)
      end
  end.
Definition limit_cap (next : option Clause) : Exec (option Z) :=
  match next_projection next with
  | Some (distinct, items, order_by, skip, limit, filtered) =>
      if distinct || filtered || negb (bool_decide (length order_by = 0%nat)) || aggregates items then Ok None
      else cap_of skip limit
  | None => Ok None
  end.
Definition top_cap (next : option Clause) : Exec (option TopSpec) :=
  match next_projection next with
  | Some (distinct, items, order_by, skip, limit, filtered) =>
      if distinct || filtered || bool_decide (length order_by = 0%nat) || aggregates items then Ok None
      else
        match cap_of skip limit with
        | Ok cap => Ok (option_map (fun keep => mkTopSpec keep order_by items) cap)
        | Err e => Err e
        end
  | None => Ok None
  end.

(** The names the projection adds to a row. *)
Fixpoint top_scope (projected : list (text * Expression)) (row scope : Bindings) : Exec Bindings :=
  match projected with
  | [] => Ok scope
  | (col, proj) :: projected =>
      match scope !! col with
      | Some _ => top_scope projected row scope
      | None => v ← ev proj row; top_scope projected row (<[col := v]> scope)
      end
  end.
Definition top_key (spec : TopSpec) (projected : list (text * Expression)) (row : Bindings) : Exec SortKey :=
  scope ← top_scope projected row row;
  order_key (ts_order_by spec) scope.
Fixpoint push_rows (spec : TopSpec) (projected : list (text * Expression)) (t : TopK) (rows : list Bindings) : Exec TopK :=
  match rows with
  | [] => Ok t
  | row :: rows =>
      key ← top_key spec projected row;
      push_rows spec projected (topk_push t key row) rows
  end.
End evaluation.
