(* ===== verification/CypherOrder.v ===== *)
(** * Order and cuts of rows
    ([src/src/cypher/executor.rs]: [compare_values], [compare_keys], [TopK], [limit_cap], [top_cap])

    On values of one kind [compare_values] is a total preorder; on keys of such
    values so is [compare_keys], and the rows a [MATCH] keeps for the clause
    after it are those that clause would keep. *)
From Stdlib Require Import SpecFloat Sorting.Sorted.
From S2P Require Import Prelude CypherLexer CypherAst CypherValue CypherNumbers CypherPipeline.
Local Open Scope list_scope.
Local Open Scope Z_scope.

(** ** Total preorders *)
Record preorder_on {A} (P : A -> Prop) (cmp : A -> A -> comparison) : Prop := {
  pre_opp a b : P a -> P b -> cmp b a = CompOpp (cmp a b);
  pre_le a b c : P a -> P b -> P c -> cmp a b <> Gt -> cmp b c <> Gt -> cmp a c <> Gt;
}.
Section preorder.
Context {A : Type} {P : A -> Prop} {cmp : A -> A -> comparison} (Hpre : preorder_on P cmp).
Lemma pre_refl a : P a -> cmp a a = Eq.
Proof using A Hpre P cmp. intros Ha. pose proof (pre_opp _ _ Hpre a a Ha Ha) as H. by destruct (cmp a a). Qed.
Lemma pre_gt a b : P a -> P b -> cmp a b = Gt -> cmp b a = Lt.
Proof using A Hpre P cmp. intros Ha Hb H. by rewrite (pre_opp _ _ Hpre a b Ha Hb), H. Qed.
(** Equal values compare alike. *)
Lemma pre_eq_l a b c : P a -> P b -> P c -> cmp a b = Eq -> cmp a c = cmp b c.
Proof using A Hpre P cmp.
  intros Ha Hb Hc Hab. assert (Hba : cmp b a = Eq) by (by rewrite (pre_opp _ _ Hpre a b Ha Hb), Hab).
  pose proof (pre_opp _ _ Hpre a c Ha Hc) as Hca. pose proof (pre_opp _ _ Hpre b c Hb Hc) as Hcb.
  pose proof (pre_le _ _ Hpre a b c Ha Hb Hc) as L1. pose proof (pre_le _ _ Hpre b a c Hb Ha Hc) as L2.
  pose proof (pre_le _ _ Hpre c a b Hc Ha Hb) as L3. pose proof (pre_le _ _ Hpre c b a Hc Hb Ha) as L4.
  rewrite Hab, Hba, Hca, Hcb in *. destruct (cmp a c), (cmp b c); cbn in *; try done; exfalso; naive_solver.
Qed.
Lemma pre_lt_le a b c : P a -> P b -> P c -> cmp a b = Lt -> cmp b c <> Gt -> cmp a c = Lt.
Proof using A Hpre P cmp.
  intros Ha Hb Hc Hab Hbc. pose proof (pre_le _ _ Hpre a b c Ha Hb Hc) as L. pose proof (pre_opp _ _ Hpre a c Ha Hc) as Hca.
  pose proof (pre_le _ _ Hpre b c a Hb Hc Ha) as L'. rewrite (pre_opp _ _ Hpre a b Ha Hb), Hab, Hca in *.
  destruct (cmp a c); cbn in *; naive_solver.
Qed.
Lemma pre_le_lt a b c : P a -> P b -> P c -> cmp a b <> Gt -> cmp b c = Lt -> cmp a c = Lt.
Proof using A Hpre P cmp.
  intros Ha Hb Hc Hab Hbc. pose proof (pre_le _ _ Hpre a b c Ha Hb Hc) as L. pose proof (pre_opp _ _ Hpre a c Ha Hc) as Hca.
  pose proof (pre_le _ _ Hpre c a b Hc Ha Hb) as L'. rewrite (pre_opp _ _ Hpre b c Hb Hc), Hbc, Hca in *.
  destruct (cmp a c); cbn in *; naive_solver.
Qed.
End preorder.

Lemma preorder_weaken {A} (P Q : A -> Prop) cmp : (forall a, Q a -> P a) -> preorder_on P cmp -> preorder_on Q cmp.
Proof. intros HQ [H1 H2]. split; eauto. Qed.
(** The order of what a function gives. *)
Lemma preorder_image {A B} (f : A -> B) (P : A -> Prop) (Q : B -> Prop) cmp cmp' :
  (forall a, P a -> Q (f a)) -> (forall a b, P a -> P b -> cmp a b = cmp' (f a) (f b)) -> preorder_on Q cmp' -> preorder_on P cmp.
Proof.
  intros HPQ Hc [H1 H2]. split.
  - intros a b Ha Hb. rewrite !Hc by done. auto.
  - intros a b c Ha Hb Hc'. rewrite !Hc by done. eauto.
Qed.
(** Of pairs, the first that differ. *)
Definition lex_cmp {A B} (c : A -> A -> comparison) (d : B -> B -> comparison) (x y : A * B) : comparison :=
  match c x.1 y.1 with Eq => d x.2 y.2 | o => o end.
Lemma preorder_lex {A B} (P : A -> Prop) (Q : B -> Prop) c d : preorder_on P c -> preorder_on Q d ->
  preorder_on (fun x => P x.1 /\ Q x.2) (lex_cmp c d).
Proof.
  intros Hc Hd. split.
  - intros [a x] [b y] [Ha Hx] [Hb Hy]. unfold lex_cmp. cbn in *. rewrite (pre_opp _ _ Hc a b), (pre_opp _ _ Hd x y) by done.
    by destruct (c a b).
  - intros [a x] [b y] [e z] [Ha Hx] [Hb Hy] [He Hz]. unfold lex_cmp. cbn in *.
    destruct (c a b) eqn:Hab; [|intros _|done].
    + rewrite (pre_eq_l Hc a b e) by done. destruct (c b e); [|done|done]. by apply (pre_le _ _ Hd).
    + intros Hbe. rewrite (pre_lt_le Hc a b e); [done..|by destruct (c b e)].
Qed.
Lemma preorder_Z : preorder_on (fun _ => True) Z.compare.
Proof. split; [intros a b _ _; by rewrite <- Z.compare_antisym|]. intros a b c _ _ _. rewrite !Z.compare_le_iff. lia. Qed.
Lemma preorder_N : preorder_on (fun _ => True) N.compare.
Proof. split; [intros a b _ _; by rewrite <- N.compare_antisym|]. intros a b c _ _ _. rewrite !N.compare_le_iff. lia. Qed.
Lemma preorder_bool : preorder_on (fun _ => True) Bool.compare.
Proof. split; [by intros [] []|by intros [] [] []]. Qed.

(** Lists, element by element. *)
Section lists.
Context {A : Type} (P : A -> Prop) (cmp : A -> A -> comparison).
Fixpoint lists_cmp (a b : list A) : comparison :=
  match a, b with
  | x :: a, y :: b => match cmp x y with Eq => lists_cmp a b | c => c end
  | [], [] => Eq
  | [], _ => Lt
  | _, [] => Gt
  end.
Lemma preorder_lists (Hpre : preorder_on P cmp) : preorder_on (Forall P) lists_cmp.
Proof.
  split.
  - intros a b Ha. revert b. induction Ha as [|x a Hx Ha IH]; intros b Hb; destruct Hb as [|y b Hy Hb]; try done. cbn.
    rewrite (pre_opp _ _ Hpre x y Hx Hy). destruct (cmp x y); cbn; [by apply IH|done..].
  - intros a b c Ha. revert b c. induction Ha as [|x a Hx Ha IH]; intros b c Hb Hc; destruct Hb as [|y b Hy Hb], Hc as [|z c Hz Hc]; try done.
    cbn. destruct (cmp x y) eqn:Hxy; [|intros _|done].
    + rewrite (pre_eq_l Hpre x y z) by done. destruct (cmp y z); [by apply IH|done..].
    + intros Hyz. rewrite (pre_lt_le Hpre x y z); [done..|by destruct (cmp y z)].
Qed.
End lists.
Lemma text_cmp_lists a b : text_cmp a b = lists_cmp N.compare a b.
Proof. revert b. induction a as [|x a IH]; intros [|y b]; cbn; [done..|]. by rewrite IH. Qed.
Lemma preorder_text : preorder_on (fun _ => True) text_cmp.
Proof.
  apply (preorder_image id _ (Forall (fun _ => True)) _ (lists_cmp N.compare)); [intros; by apply Forall_true|intros; apply text_cmp_lists|].
  apply preorder_lists, preorder_N.
Qed.

(** ** Doubles *)
(** Where a double stands: the sign, the exponent and the mantissa in turn. *)
Definition place (x : F64.t) : Z * (Z * Z) :=
  match x with
  | S754_infinity s => (if s then -2 else 2, (0, 0))
  | S754_finite s m e => if s then (-1, (- e, Zneg m)) else (1, (e, Zpos m))
  | _ => (0, (0, 0))
  end.
Lemma cmp_place x y : F64.is_nan x = false -> F64.is_nan y = false ->
  F64.cmp x y = Some (lex_cmp Z.compare (lex_cmp Z.compare Z.compare) (place x) (place y)).
Proof.
  intros Hx Hy. unfold F64.cmp, lex_cmp. destruct x as [[]|[]| |[] m e], y as [[]|[]| |[] m' e']; try done; cbn.
  - rewrite Z.compare_opp, (Z.compare_antisym e e'). f_equal. by destruct (e ?= e').
Qed.
Lemma preorder_F64 : preorder_on (fun x => F64.is_nan x = false) (fun x y => or_equal (F64.cmp x y)).
Proof.
  apply (preorder_image place _ (fun _ => True) _ (lex_cmp Z.compare (lex_cmp Z.compare Z.compare))); [done|intros; by rewrite cmp_place|].
  apply (preorder_weaken (fun x => True /\ (True /\ True))); [done|].
  apply (preorder_lex (fun _ => True) (fun x => True /\ True)); [apply preorder_Z|]. apply (preorder_lex (fun _ => True) (fun _ => True)); apply preorder_Z.
Qed.

(** ** Values of a kind *)
(** Values that can be told apart by order: numbers are doubles, or integers
    that are doubles exactly, or integers only; the items of lists are of one
    kind in turn.  Null is of every kind. *)
Inductive Kind : Type := KBool | KInteger | KNumber | KText | KNode | KRelationship | KList (k : Kind).
Fixpoint of_kind (k : Kind) (v : Value) {struct k} : Prop :=
  match v with
  | Value.Null => True
  | Value.Bool _ => k = KBool
  | Value.Integer i => k = KInteger \/ k = KNumber /\ small i
  | Value.Float x => k = KNumber /\ F64.is_nan x = false
  | Value.String _ => k = KText
  | Value.Node _ => k = KNode
  | Value.Relationship _ => k = KRelationship
  | Value.List items => match k with KList k => Forall (of_kind k) items | _ => False end
  | Value.Map _ | Value.Path _ _ => False
  end.

Definition null_last (cmp : Value -> Value -> comparison) (a b : Value) : comparison :=
  match a, b with
  | Value.Null, Value.Null => Eq
  | Value.Null, _ => Gt
  | _, Value.Null => Lt
  | _, _ => cmp a b
  end.
Lemma preorder_null_last (P : Value -> Prop) cmp : preorder_on (fun v => P v /\ v <> Value.Null) cmp -> preorder_on (fun v => v = Value.Null \/ P v) (null_last cmp).
Proof.
  intros Hpre. split.
  - intros a b Ha Hb. destruct a, b; try done; cbn [null_last]; apply (pre_opp _ _ Hpre); naive_solver.
  - intros a b c Ha Hb Hc. destruct a, b, c; try done; cbn [null_last]; apply (pre_le _ _ Hpre); naive_solver.
Qed.

Definition bool_of (v : Value) : bool := match v with Value.Bool b => b | _ => false end.
Definition integer_of (v : Value) : Z := match v with Value.Integer i => i | _ => 0 end.
Definition number_of (v : Value) : F64.t := match Value.as_number v with Some x => x | None => F64.zero end.
Definition text_of (v : Value) : text := match v with Value.String s => s | _ => [] end.
Definition id_of (v : Value) : N := match v with Value.Node n => Value.node_id n | Value.Relationship r => Value.rel_id r | _ => 0%N end.
Definition items_of (v : Value) : list Value := match v with Value.List l => l | _ => [] end.
Lemma number_of_ordered v : of_kind KNumber v -> v <> Value.Null -> F64.is_nan (number_of v) = false.
Proof.
  destruct v; try (by cbn; naive_solver). intros [|[_ Hs]] _; [done|]. cbn. pose proof (of_int_value i Hs) as Hv.
  by destruct (F64.of_int i).
Qed.
Lemma compare_numbers a b : of_kind KNumber a -> of_kind KNumber b -> a <> Value.Null -> b <> Value.Null ->
  compare_values a b = or_equal (F64.cmp (number_of a) (number_of b)).
Proof.
  destruct a, b; cbn; try (naive_solver || done). intros [|[_ Ha]] [|[_ Hb]] _ _; try done.
  unfold number_of. cbn. by rewrite (cmp_value _ _ i i0) by (by apply of_int_value).
Qed.
Lemma kind_ordered k : preorder_on (of_kind k) compare_values.
Proof.
  induction k as [| | | | | |k IH];
    match goal with |- preorder_on ?P _ => apply (preorder_image id P (fun v => v = Value.Null \/ P v) _ (null_last compare_values));
      [by right|by intros [] []|apply preorder_null_last] end.
  - apply (preorder_image bool_of _ (fun _ => True) _ Bool.compare); [done| |apply preorder_bool].
    intros [] [] [] []; cbn in *; naive_solver.
  - apply (preorder_image integer_of _ (fun _ => True) _ Z.compare); [done| |apply preorder_Z].
    intros [] [] [] []; cbn in *; naive_solver.
  - apply (preorder_image number_of _ (fun x => F64.is_nan x = false) _ (fun x y => or_equal (F64.cmp x y))); [| |apply preorder_F64].
    + intros v []. by apply number_of_ordered.
    + intros a b [] []. by apply compare_numbers.
  - apply (preorder_image text_of _ (fun _ => True) _ text_cmp); [done| |apply preorder_text].
    intros [] [] [] []; cbn in *; naive_solver.
  - apply (preorder_image id_of _ (fun _ => True) _ N.compare); [done| |apply preorder_N].
    intros [] [] [] []; cbn in *; naive_solver.
  - apply (preorder_image id_of _ (fun _ => True) _ N.compare); [done| |apply preorder_N].
    intros [] [] [] []; cbn in *; naive_solver.
  - apply (preorder_image items_of _ (Forall (of_kind k)) _ (lists_cmp compare_values)); [| |by apply preorder_lists].
    + intros [] []; cbn in *; naive_solver.
    + intros [] [] [] []; cbn [of_kind] in *; naive_solver.
Qed.
(** Values of one kind are ordered.  On booleans, on integers, on numbers
    (doubles that are not NaN and integers up to 2^53), on texts, nodes,
    relationships and on lists of one kind, with nulls among them,
    [compare_values] is a total preorder in which null is last. *)
Theorem values_ordered k :
  preorder_on (of_kind k) compare_values /\ forall v, of_kind k v -> compare_values v Value.Null <> Gt.
Proof. split; [apply kind_ordered|by intros []]. Qed.

(** ** Keys *)
(** A key whose values are of the kinds [ks], in the directions [ds]. *)
Definition key_of (ks : list (Kind * OrderDirection)) (key : SortKey) : Prop :=
  Forall2 (fun kd vd => of_kind kd.1 vd.1 /\ vd.2 = kd.2) ks key.
Lemma keys_ordered ks : preorder_on (key_of ks) compare_keys.
Proof.
  induction ks as [|[k d] ks IH].
  - split; intros a b; intros; destruct a, b; try done; by match goal with H : key_of [] (_ :: _) |- _ => inversion H end.
  - apply (preorder_image (fun key => (hd (Value.Null, OAsc) key, tail key)) _ (fun x => (of_kind k x.1.1 /\ x.1.2 = d) /\ key_of ks x.2) _
      (lex_cmp (fun a b => match d with OAsc => compare_values a.1 b.1 | ODesc => CompOpp (compare_values a.1 b.1) end) compare_keys)).
    + intros key Hk. by inversion Hk; subst.
    + intros a b Ha Hb. inversion Ha as [|? [v dv] ? a' [Hv Hdv] Ha']; subst. inversion Hb as [|? [w dw] ? b' [Hw Hdw] Hb']; subst.
      cbn in *. subst. unfold lex_cmp, reverse. cbn. by destruct d, (compare_values v w).
    + apply (preorder_lex (fun x => of_kind k x.1 /\ x.2 = d) (key_of ks)); [|done]. pose proof (kind_ordered k) as [Ho Hl]. destruct d.
      * split; [intros a b [] []; by apply Ho|]. intros a b c [] [] []. by apply Hl.
      * split; [intros a b [] []; by rewrite (Ho a.1 b.1)|]. intros a b c [] [] [] Hab Hbc.
        rewrite <- (Ho a.1 b.1), <- (Ho b.1 c.1), <- (Ho a.1 c.1) in * by done. by apply (Hl c.1 b.1 a.1).
Qed.

(** ** Sorting *)
Section sorting.
Context {A : Type} (cmp : A -> A -> comparison).
Lemma sort_cons x l : sort_by cmp (x :: l) = insert_sorted cmp x (sort_by cmp l).
Proof. done. Qed.
Lemma insert_perm x l : insert_sorted cmp x l ≡ₚ x :: l.
Proof. induction l as [|y l IH]; [done|]. cbn. destruct (cmp x y); [done..|]. rewrite IH. by apply Permutation_swap. Qed.
Lemma sort_perm l : sort_by cmp l ≡ₚ l.
Proof. induction l as [|x l IH]; [done|]. by rewrite sort_cons, insert_perm, IH. Qed.
Lemma insert_map {B} (f : B -> A) x l : insert_sorted cmp (f x) (f <$> l) = f <$> insert_sorted (fun a b => cmp (f a) (f b)) x l.
Proof. induction l as [|y l IH]; [done|]. cbn. destruct (cmp (f x) (f y)); [done..|]. cbn. by rewrite <- IH. Qed.
Lemma sort_map {B} (f : B -> A) l : sort_by cmp (f <$> l) = f <$> sort_by (fun a b => cmp (f a) (f b)) l.
Proof. 
  induction l as [|x l IH]; [done|].
  change (sort_by cmp (f <$> x :: l)) with (insert_sorted cmp (f x) (sort_by cmp (f <$> l))). by rewrite IH, insert_map.
Qed.
(** What is inserted into the first [n] of a list. *)
Lemma take_insert n x l : take n (insert_sorted cmp x (take n l)) = take n (insert_sorted cmp x l).
Proof.
  assert (Htt : forall n (y : A) l, take n (y :: take n l) = take n (y :: l)).
  { intros [|m] y k; [done|]. cbn. f_equal. rewrite take_take. f_equal. lia. }
  revert l. induction n as [|n IH]; intros l; [done|]. destruct l as [|y l]; [done|]. cbn. destruct (cmp x y); cbn; f_equal; [apply Htt..|apply IH].
Qed.
(** Before the last of them, or past it. *)
Lemma insert_before_last x l w : cmp x w <> Gt -> insert_sorted cmp x (l ++ [w]) = insert_sorted cmp x l ++ [w].
Proof. intros Hw. induction l as [|y l IH]; cbn; [by destruct (cmp x w)|]. destruct (cmp x y); [done..|]. cbn. by rewrite IH. Qed.
Lemma insert_last x l : Forall (fun y => cmp x y = Gt) l -> insert_sorted cmp x l = l ++ [x].
Proof. induction 1 as [|y l Hy Hl IH]; [done|]. cbn. by rewrite Hy, IH. Qed.
Lemma length_insert x l : length (insert_sorted cmp x l) = S (length l).
Proof. by rewrite insert_perm. Qed.
Lemma length_sort l : length (sort_by cmp l) = length l.
Proof. by rewrite sort_perm. Qed.

(** In order. *)
Definition in_order : list A -> Prop := StronglySorted (fun a b => cmp a b <> Gt).
Context (P : A -> Prop) (Hpre : preorder_on P cmp).
Lemma insert_in_order x l : P x -> Forall P l -> in_order l -> in_order (insert_sorted cmp x l).
Proof using A Hpre P cmp.
  intros Hx Hl Ho. induction Ho as [|y l Ho IH Hy]; [repeat constructor|]. inversion Hl as [|? ? HPy HPl]; subst. cbn.
  destruct (cmp x y) eqn:Hxy.
  - constructor; [by constructor|]. constructor; [by rewrite Hxy|]. rewrite Forall_forall in *. intros z Hz. apply (pre_le _ _ Hpre x y z); try done; [by apply HPl|by rewrite Hxy|by apply Hy].
  - constructor; [by constructor|]. constructor; [by rewrite Hxy|]. rewrite Forall_forall in *. intros z Hz. apply (pre_le _ _ Hpre x y z); try done; [by apply HPl|by rewrite Hxy|by apply Hy].
  - constructor; [by apply IH|]. rewrite insert_perm. constructor; [|done]. by rewrite (pre_gt Hpre x y).
Qed.
Lemma sort_in_order l : Forall P l -> in_order (sort_by cmp l).
Proof using A Hpre P cmp. induction 1 as [|x l Hx Hl IH]; [constructor|]. rewrite sort_cons. apply insert_in_order; [done| |done]. by rewrite sort_perm. Qed.
Lemma sort_of_ordered l : in_order l -> sort_by cmp l = l.
Proof.
  induction 1 as [|x l Ho IH Hx]; [done|]. rewrite sort_cons, IH. destruct Hx as [|y l Hy Hl]; [done|]. cbn. by destruct (cmp x y).
Qed.
Lemma take_in_order n l : in_order l -> in_order (take n l).
Proof.
  intros Ho. revert n. induction Ho as [|x l Ho IH Hx]; intros [|n]; cbn; [constructor..|]. constructor; [apply IH|]. by apply Forall_take.
Qed.
Lemma in_order_last l w : in_order (l ++ [w]) -> Forall (fun y => cmp y w <> Gt) l.
Proof.
  induction l as [|x l IH]; [constructor|]. cbn [app]. intros Ho. inversion Ho as [|? ? Ho' Hx]; subst. constructor; [|by apply IH].
  by apply Forall_app in Hx as [_ [? _]%Forall_cons].
Qed.
(** Two of which the second is not before the first may be inserted either way round. *)
Lemma insert_comm x y l : P x -> P y -> Forall P l -> cmp x y = Lt ->
  insert_sorted cmp x (insert_sorted cmp y l) = insert_sorted cmp y (insert_sorted cmp x l).
Proof using A Hpre P cmp.
  intros Hx Hy Hl Hxy. assert (Hyx : cmp y x = Gt) by (by rewrite (pre_opp _ _ Hpre x y), Hxy).
  induction Hl as [|z l Hz Hl IH]; cbn; [by rewrite Hxy, Hyx|].
  destruct (cmp y z) eqn:Hyz; cbn.
  - rewrite Hxy. rewrite (pre_lt_le Hpre x y z) by first [done | by rewrite Hyz]. cbn. by rewrite Hyx, Hyz.
  - rewrite Hxy. rewrite (pre_lt_le Hpre x y z) by first [done | by rewrite Hyz]. cbn. by rewrite Hyx, Hyz.
  - destruct (cmp x z) eqn:Hxz; cbn; rewrite ?Hyx, ?Hyz; [done|done|]. by rewrite IH.
Qed.
(** One that comes after all it is equal to, inserted after they were sorted. *)
Lemma sort_snoc l x : P x -> Forall (fun y => P y /\ cmp y x <> Eq) l -> sort_by cmp (l ++ [x]) = insert_sorted cmp x (sort_by cmp l).
Proof using A Hpre P cmp.
  intros Hx Hl. induction Hl as [|y l [Hy Hne] Hl IH]; [done|]. cbn [app]. rewrite !sort_cons, IH.
  assert (HP : Forall P (sort_by cmp l)) by (rewrite sort_perm; eapply Forall_impl; [exact Hl|by intros ? []]).
  destruct (cmp y x) eqn:Hyx; [done|by apply insert_comm|]. symmetry. apply insert_comm; [done..|by apply (pre_gt Hpre)].
Qed.
End sorting.

(** ** The rows that sort first *)
Definition keys_cmp {A} (a b : SortKey * A) : comparison := compare_keys a.1 b.1.
(** Rows pushed one after the other. *)
Definition topk_rows (keep : Z) (rows : list (SortKey * Bindings)) : TopK := foldl (fun t kr => topk_push t kr.1 kr.2) (topk_new keep) rows.
Fixpoint ranked (n : N) (rows : list (SortKey * Bindings)) : list Ranked :=
  match rows with [] => [] | kr :: rows => mkRanked kr.1 (n + 1) kr.2 :: ranked (n + 1) rows end.
Definition unranked (r : Ranked) : SortKey * Bindings := (rk_key r, rk_row r).

Lemma ranked_later n rows : Forall (fun r => (n < rk_seq r)%N) (ranked n rows).
Proof.
  revert n. induction rows as [|kr rows IH]; intros n; constructor; [cbn; lia|].
  eapply Forall_impl; [apply IH|]. cbn. lia.
Qed.
Lemma ranked_snoc n rows kr : ranked n (rows ++ [kr]) = ranked n rows ++ [mkRanked kr.1 (n + N.of_nat (length rows) + 1) kr.2].
Proof.
  revert n. induction rows as [|kr' rows IH]; intros n; cbn [ranked app length].
  - by rewrite N.add_0_r.
  - rewrite IH. do 4 f_equal. lia.
Qed.
Lemma ranked_before n rows : Forall (fun r => (rk_seq r < n + N.of_nat (length rows) + 1)%N) (ranked n rows).
Proof.
  revert n. induction rows as [|kr rows IH]; intros n; constructor; [cbn; lia|].
  eapply Forall_impl; [apply IH|]. intros r. cbn [length]. lia.
Qed.
Lemma ranked_keys (P : SortKey -> Prop) n rows : Forall (fun kr => P kr.1) rows -> Forall (fun r => P (rk_key r)) (ranked n rows).
Proof. intros H. revert n. induction H; intros n; constructor; eauto. Qed.
Lemma insert_unranked x l : Forall (fun y => (rk_seq x < rk_seq y)%N) l ->
  unranked <$> insert_sorted ranked_cmp x l = insert_sorted keys_cmp (unranked x) (unranked <$> l).
Proof.
  induction 1 as [|y l Hy Hl IH]; [done|]. rewrite fmap_cons. cbn [insert_sorted].
  change (keys_cmp (unranked x) (unranked y)) with (compare_keys (rk_key x) (rk_key y)). unfold ranked_cmp at 1.
  destruct (compare_keys (rk_key x) (rk_key y)); [|done|by rewrite fmap_cons, IH].
  by rewrite (proj2 (N.compare_lt_iff _ _) Hy).
Qed.
Lemma sort_unranked n rows : unranked <$> sort_by ranked_cmp (ranked n rows) = sort_by keys_cmp rows.
Proof.
  revert n. induction rows as [|[k r] rows IH]; intros n; [done|]. cbn [ranked]. rewrite !sort_cons, insert_unranked, IH; [done|].
  rewrite sort_perm. apply ranked_later.
Qed.

Section top.
Context (P : SortKey -> Prop) (Hpre : preorder_on P compare_keys).
Lemma ranked_ordered : preorder_on (fun r => P (rk_key r)) ranked_cmp.
Proof using Hpre P.
  apply (preorder_image (fun r => (rk_key r, rk_seq r)) _ (fun x => P x.1 /\ True) _ (lex_cmp compare_keys N.compare)); [by intros|done|].
  apply (preorder_lex P (fun _ => True)); [done|apply preorder_N].
Qed.
Lemma topk_heap keep rows : 0 <= keep -> Forall (fun kr => P kr.1) rows ->
  topk_rows keep rows = mkTopK keep (take (Z.to_nat keep) (sort_by ranked_cmp (ranked 0 rows))) (N.of_nat (length rows)).
Proof using Hpre P.
  intros Hk. induction rows as [|kr rows IH] using rev_ind; [by destruct (Z.to_nat keep)|]. intros [HP [Hkr _]%Forall_cons]%Forall_app.
  unfold topk_rows in *. rewrite foldl_snoc, IH by done. rewrite ranked_snoc, N.add_0_l, length_app. set (x := mkRanked _ _ _).
  pose proof ranked_ordered as Hro. pose proof (ranked_keys P 0 rows HP) as Hkeys.
  assert (Hsnoc : sort_by ranked_cmp (ranked 0 rows ++ [x]) = insert_sorted ranked_cmp x (sort_by ranked_cmp (ranked 0 rows))).
  { apply (sort_snoc _ _ Hro); [done|]. apply Forall_and. split; [done|].
    eapply Forall_impl; [apply (ranked_before 0)|]. cbn beta. intros r Hr. unfold ranked_cmp. destruct (compare_keys _ _); [|done..].
    rewrite N.compare_eq_iff. unfold x. cbn [rk_seq]. lia. }
  rewrite Hsnoc, <- take_insert. set (s := sort_by ranked_cmp (ranked 0 rows)) in *. set (h := take (Z.to_nat keep) s).
  assert (Hh : Forall (fun r => P (rk_key r)) h) by (apply Forall_take; unfold s; by rewrite sort_perm).
  assert (Hho : in_order ranked_cmp h) by (by apply take_in_order, (sort_in_order _ _ Hro)).
  assert (Hseq : Forall (fun r => ranked_cmp x r <> Eq) h).
  { apply Forall_take. unfold s. rewrite sort_perm. eapply Forall_impl; [apply (ranked_before 0)|]. cbn beta. intros r Hr. unfold ranked_cmp.
    destruct (compare_keys _ _); [|done..]. rewrite N.compare_eq_iff. unfold x. cbn [rk_seq]. lia. }
  assert (Hlen : (length h <= Z.to_nat keep)%nat) by (unfold h; rewrite length_take; lia).
  replace (N.of_nat (length rows + length [kr])) with (N.of_nat (length rows) + 1)%N by (cbn; lia).
  unfold topk_push. cbn [tk_keep tk_heap tk_seq]. fold x. destruct (Z.eqb_spec keep 0) as [->|Hk0]; [done|].
  destruct (Z.eqb_spec (Z.of_nat (length h)) keep) as [Hfull|Hroom].
  2: { f_equal. symmetry. apply take_ge. rewrite length_insert. lia. }
  destruct (last h) as [w|] eqn:Hw; [|apply last_None in Hw; rewrite Hw in Hfull; cbn in Hfull; lia].
  apply last_Some in Hw as [h' Hw]. rewrite Hw in *. rewrite removelast_last. rewrite length_app in *. cbn in Hfull, Hlen.
  apply Forall_app in Hh as [Hh [Hkw _]%Forall_cons]. apply Forall_app in Hseq as [Hseq [Hne _]%Forall_cons].
  destruct (ranked_cmp x w) eqn:Hxw; [done| |].
  - f_equal. rewrite insert_before_last by (by rewrite Hxw). rewrite take_app_le by (rewrite length_insert; lia).
    symmetry. apply take_ge. rewrite length_insert. lia.
  - f_equal. rewrite insert_last; [rewrite take_app_le by (rewrite length_app; cbn; lia); symmetry; apply take_ge; rewrite length_app; cbn; lia|].
    apply Forall_app. split; [|by repeat constructor]. apply in_order_last in Hho. rewrite Forall_forall in *. intros y Hy.
    pose proof (pre_gt Hro x w Hkr Hkw Hxw) as Hwx. pose proof (pre_le_lt Hro y w x (Hh y Hy) Hkw Hkr (Hho y Hy) Hwx) as Hyx.
    rewrite (pre_opp _ _ Hro y x); [by rewrite Hyx|by apply Hh|done].
Qed.
Lemma topk_first keep rows : 0 <= keep -> Forall (fun kr => P kr.1) rows ->
  into_rows (topk_rows keep rows) = snd <$> take (Z.to_nat keep) (sort_by keys_cmp rows).
Proof using Hpre P.
  intros Hk HP. rewrite topk_heap by done. unfold into_rows. cbn [tk_heap]. rewrite <- (sort_unranked 0 rows), <- fmap_take, <- list_fmap_compose.
  by apply list_fmap_ext.
Qed.
(** The heap keeps the rows that sort first.  Whatever rows are pushed, one
    after the other, with keys that a total preorder orders, the rows of a
    [TopK] at the end are the first [keep] of the stable sort of all of them,
    and it never holds more than [keep]. *)
Theorem topk_keeps_first keep rows : 0 <= keep -> Forall (fun kr => P kr.1) rows ->
  into_rows (topk_rows keep rows) = snd <$> take (Z.to_nat keep) (sort_by keys_cmp rows)
  /\ Z.of_nat (length (tk_heap (topk_rows keep rows))) <= keep.
Proof using Hpre P.
  intros Hk HP. split; [|rewrite topk_heap by done; cbn; rewrite length_take; lia]. by apply topk_first.
Qed.
End top.

(** ** By example *)
Module Keys.
Definition row (i : Z) : Bindings := {[ lit "n" := Value.Integer i ]}.
(** Rows by their number. *)
Definition keyed : list (SortKey * Bindings) :=
  (fun i => ([(Value.Integer i, OAsc)], row i)) <$> [3; 1; 2].
Lemma topk_keeps_first_witness : into_rows (topk_rows 2 keyed) = [row 1; row 2].
Proof.
  refine (eq_trans (proj1 (topk_keeps_first (key_of [(KInteger, OAsc)]) (keys_ordered _) 2 keyed _ _)) _).
  - lia.
  - repeat constructor.
  - vm_compute. reflexivity.
Defined.
End Keys.
