(* ===== verification/CypherCaps.v ===== *)
(** * What a [MATCH] may leave out
    ([src/src/cypher/executor.rs]: [limit_cap], [top_cap], [top_key])

    The rows a [MATCH] keeps under a cap give the clause after it the answer
    all of them give.  Expressions are evaluated by any [ev] that looks
    variables up in the row. *)
From S2P Require Import Prelude CypherLexer CypherAst CypherValue CypherPipeline CypherOrder.
Local Open Scope list_scope.
Local Open Scope Z_scope.

(** ** Fallible maps *)
Lemma mapM_ok {A B} (f : A -> Exec B) l k : mapM f l = Ok k <-> Forall2 (fun x y => f x = Ok y) l k.
Proof.
  split.
  - revert k. induction l as [|x l IH]; intros k; cbn; [by intros [= <-]|].
    destruct (f x) as [y|] eqn:Hf; [|done]. cbn. destruct (mapM f l) as [k'|] eqn:Hm; [|done]. intros [= <-]. constructor; eauto.
  - induction 1 as [|x y l k Hf Hl IH]; [done|]. cbn. rewrite Hf. cbn. by rewrite IH.
Qed.
Lemma mapM_fmap {A B C} (g : A -> B) (f : B -> Exec C) l : mapM f (g <$> l) = mapM (fun x => f (g x)) l.
Proof. induction l as [|x l IH]; [done|]. cbn. by rewrite IH. Qed.
(** Of elements whose results are known. *)
Lemma mapM_known {A B} (f : A -> Exec B) (g : A -> B) l : Forall (fun x => f x = Ok (g x)) l -> mapM f l = Ok (g <$> l).
Proof. intros H. apply mapM_ok. induction H; constructor; done. Qed.

Lemma skip_drop {A} n (l : list A) : 0 <= n -> skip_rows n l = drop (Z.to_nat n) l.
Proof. intros Hn. unfold skip_rows. destruct (Z.leb_spec (Z.of_nat (length l)) n); [|done]. symmetry. apply drop_ge. lia. Qed.
Lemma limit_take {A} n (l : list A) : 0 <= n -> limit_rows n l = take (Z.to_nat n) l.
Proof. intros Hn. unfold limit_rows. destruct (Z.leb_spec (Z.of_nat (length l)) n); [|done]. symmetry. apply take_ge. lia. Qed.
(** A skip and a limit look at the first [s + l] only. *)
Lemma cut_take {A} s l (rows : list A) : 0 <= s -> 0 <= l ->
  limit_rows l (skip_rows s (take (Z.to_nat (s + l)) rows)) = limit_rows l (skip_rows s rows).
Proof.
  intros Hs Hl. rewrite !limit_take, !skip_drop by done. rewrite Z2Nat.inj_add, <- take_drop_commute by done.
  rewrite take_take. f_equal. lia.
Qed.

(** The clauses that project. *)
Section caps.
Context `{!Chars} (ev : Expression -> Bindings -> Exec Value) (ev_group : Expression -> list Bindings -> Exec Value).
Definition run_projection (c : Clause) (rows : list Bindings) : Exec (list text * list (list Value) + list Bindings) :=
  match c with
  | Clause.Return distinct items order_by skip limit _ => inl <$> run_return ev ev_group distinct items order_by skip limit rows
  | Clause.With distinct items order_by skip limit where_clause _ =>
      inr <$> run_with ev ev_group distinct items order_by skip limit where_clause rows
  | _ => Err Panic
  end.
Definition clause_items (c : Clause) : list ProjectionItem :=
  match c with Clause.Return _ items _ _ _ _ | Clause.With _ items _ _ _ _ _ => items | _ => [] end.

#[local] Arguments count : simpl never.
(** A cap comes from a constant skip and limit. *)
Lemma count_ok e n : count ev e = Ok (Some n) -> 0 <= n /\ match e with Some e => eval_usize ev e ∅ = Ok n | None => n = 0 end.
Proof.
  unfold count, eval_usize. destruct e as [e|]; [|intros [= <-]; split; [lia|done]]. destruct (ev e ∅) as [v|[]]; [|done..].
  destruct v; try done. destruct (Z.leb_spec 0 i) as [Hi|Hi]; [|done]. intros [= <-]. split; [lia|]. cbn. by rewrite (proj2 (Z.leb_le 0 i) Hi).
Qed.
Lemma cap_of_ok skip limit cap : cap_of ev skip limit = Ok (Some cap) -> exists e s l,
  limit = Some e /\ cap = s + l /\ 0 <= s /\ 0 <= l /\ eval_usize ev e ∅ = Ok l
  /\ match skip with Some e => eval_usize ev e ∅ = Ok s | None => s = 0 end.
Proof.
  unfold cap_of. destruct limit as [e|]; [|done]. destruct (count ev skip) as [[s|]|] eqn:Hs; [|done..]. cbn.
  destruct (count ev (Some e)) as [[l|]|] eqn:Hl; cbn; [|by intros [=]|done]. unfold checked_add. destruct (s + l <=? u64_max); [|done]. intros [= <-].
  apply count_ok in Hs as [Hs0 Hs], Hl as [Hl0 Hl]. by exists e, s, l.
Qed.

(** ** Projecting some of the rows *)
Lemma resolve_same rows rows' items :
  (forall r r', head rows = Some r -> head rows' = Some r' -> dom r = dom r') ->
  (rows = [] <-> rows' = []) \/ ProjectStar ∉ items ->
  resolve_projections rows items = resolve_projections rows' items.
Proof.
  intros Hdom Hempty. unfold resolve_projections. rewrite !flat_map_concat_map. f_equal. apply map_ext_in. intros [|e a] Hin; [|done]. unfold resolve_item.
  destruct Hempty as [Hempty|Hno]; [|by destruct Hno; apply list_elem_of_In].
  destruct rows as [|r rows], rows' as [|r' rows']; [done|naive_solver|naive_solver|]. unfold sorted_names.
  by rewrite (Hdom r r').
Qed.
(** A name that is bound is not added. *)
Lemma add_bound scope entries : Forall (fun kv => is_Some (scope !! kv.1)) entries -> add_missing scope entries = scope.
Proof. induction 1 as [|[k v] entries [w Hw] _ IH]; [done|]. cbn in *. by rewrite Hw. Qed.
Lemma add_missing_app scope e e' : add_missing scope (e ++ e') = add_missing (add_missing scope e) e'.
Proof. apply foldl_app. Qed.

Lemma add_keeps scope entries x : is_Some (scope !! x) -> is_Some (add_missing scope entries !! x).
Proof.
  revert scope. induction entries as [|[k v] entries IH]; intros scope Hx; [done|]. cbn. apply IH. destruct (scope !! k); [done|].
  destruct (decide (k = x)) as [->|Hne]; [by rewrite lookup_insert_eq|by rewrite lookup_insert_ne].
Qed.
(** The scope of a key is what the projection would make it: what [*] stands for is bound already. *)
Lemma top_scope_adds rows items row scope vals :
  (forall r, head rows = Some r -> dom r = dom row) -> (forall x, is_Some (row !! x) -> is_Some (scope !! x)) ->
  mapM (fun p => ev p row) (resolve_projections rows items).*2 = Ok vals ->
  top_scope ev (resolve_projections [] items) row scope = Ok (add_missing scope (zip (resolve_projections rows items).*1 vals)).
Proof.
  intros Hdom. revert scope vals. induction items as [|item items IH]; intros scope vals Hscope; [by intros [= <-]|].
  change (resolve_projections rows (item :: items)) with (resolve_item rows item ++ resolve_projections rows items).
  change (resolve_projections [] (item :: items)) with (resolve_item [] item ++ resolve_projections [] items).
  rewrite !fmap_app. intros Hv%mapM_ok. apply Forall2_app_inv_l in Hv as (v1 & v2 & Hv1 & Hv2 & ->).
  rewrite zip_with_app by (rewrite length_fmap; by apply Forall2_length in Hv1; rewrite length_fmap in Hv1). rewrite add_missing_app.
  apply mapM_ok in Hv2. destruct item as [|e a]; cbn [resolve_item app].
  - rewrite (add_bound scope); [by apply IH|]. destruct rows as [|r rows]; [constructor|].
    apply Forall_forall. intros [x w] Hin%elem_of_zip_l. cbn [fst]. apply Hscope, elem_of_dom. rewrite <- (Hdom r) by done.
    unfold resolve_item in Hin. rewrite <- list_fmap_compose in Hin. apply list_elem_of_fmap in Hin as (y & -> & Hy).
    unfold sorted_names in Hy. rewrite sort_perm in Hy. by apply elem_of_elements in Hy.
  - cbn in Hv1. inversion Hv1 as [|? v ? ? Hev Hnil]; subst. inversion Hnil; subst. cbn [top_scope].
    set (col := match a with Some a => a | None => default_column_name e end). cbn.
    destruct (scope !! col) eqn:Hc; rewrite ?Hev; cbn; fold col; rewrite ?Hc; apply IH; try done.
    intros x Hx. destruct (decide (col = x)) as [->|Hne]; [by rewrite lookup_insert_eq|rewrite lookup_insert_ne by done; auto].
Qed.

(** ** Tables *)
(** A row with what the clause makes of it: its key and its columns. *)
Abbreviation Entry := (SortKey * (list Value * Bindings))%type.
Definition computed (projected : list (text * Expression)) (order_by : list OrderItem) (t : Entry) : Prop :=
  mapM (fun p => ev p t.2.2) projected.*2 = Ok t.2.1 /\ keyed_key ev order_by projected.*1 t.2 = Ok t.1.
Definition row_of (t : Entry) : Bindings := t.2.2.

Lemma sort_keyed_table (projected : list (text * Expression)) (order_by : list OrderItem) (T : list Entry) : Forall (computed projected order_by) T ->
  match order_by with [] => Ok (snd <$> T) | _ => sort_keyed ev order_by projected.*1 (snd <$> T) end = Ok (snd <$> sort_by keys_cmp T).
Proof.
  intros HT. destruct order_by as [|o order_by].
  - do 2 f_equal. symmetry. induction HT as [|[k [v r]] T [_ Hk] HT IH]; [done|]. rewrite sort_cons, IH. injection Hk as <-.
    destruct T as [|[k' [v' r']] T]; [done|]. inversion HT as [|? ? [_ Hk'] _]; subst. by injection Hk' as <-.
  - unfold sort_keyed. rewrite mapM_fmap, (mapM_known _ id); [cbn; by rewrite list_fmap_id|].
    eapply Forall_impl; [exact HT|]. intros [k kr] [_ Hk]. cbn in *. by rewrite Hk.
Qed.
Lemma project_table (projected : list (text * Expression)) (order_by : list OrderItem) (T : list Entry) : Forall (computed projected order_by) T ->
  project ev projected.*2 (row_of <$> T) = Ok (snd <$> T).
Proof.
  intros HT. unfold project. rewrite mapM_fmap. rewrite (mapM_known _ snd); [done|]. eapply Forall_impl; [exact HT|].
  intros [k [v r]] [Hv _]. cbn in *. by rewrite Hv.
Qed.

Section cut.
Context (projected : list (text * Expression)) (order_by : list OrderItem) (skip limit : option Expression) (s l : Z).
Context (Hplain : existsb contains_aggregation projected.*2 = false).
Context (Hskip : match skip with Some e => eval_usize ev e ∅ = Ok s | None => s = 0 end).
Context (Hlimit : exists e, limit = Some e /\ eval_usize ev e ∅ = Ok l).
Definition cut_table (T : list Entry) : list (list Value) :=
  limit_rows l (skip_rows s ((fun t => t.2.1) <$> sort_by keys_cmp T)).
Lemma projected_table T : Forall (computed projected order_by) T ->
  projected_rows ev ev_group false projected order_by skip limit (row_of <$> T) = Ok (cut_table T).
Proof using Hlimit Hplain Hskip ev ev_group l limit order_by projected s skip.
  intros HT. unfold projected_rows. rewrite Hplain, (project_table _ _ _ HT). cbn [mbind result_bind]. rewrite (sort_keyed_table _ _ _ HT).
  cbn [mbind result_bind]. rewrite <- list_fmap_compose. destruct Hlimit as (e & -> & ->). unfold cut_table.
  destruct skip as [e'|]; [rewrite Hskip; done|]. subst s. cbn. by rewrite skip_drop.
Qed.
(** The table of rows that were answered. *)
Lemma answered_table rows out : projected_rows ev ev_group false projected order_by skip limit rows = Ok out ->
  exists T, row_of <$> T = rows /\ Forall (computed projected order_by) T /\ out = cut_table T.
Proof using Hlimit Hplain Hskip ev ev_group l limit order_by projected s skip.
  intros Hout. assert (exists T, row_of <$> T = rows /\ Forall (computed projected order_by) T) as (T & <- & HT).
  { unfold projected_rows in Hout. rewrite Hplain in Hout. destruct (project ev projected.*2 rows) as [keyed|] eqn:Hp; [|done].
    cbn [mbind result_bind] in Hout. apply mapM_ok in Hp.
    assert (Hkeys : Forall (fun kr => exists key, keyed_key ev order_by projected.*1 kr = Ok key) keyed).
    { destruct order_by as [|o os]; [apply Forall_true; by exists []|]. destruct (sort_keyed _ _ _ _) as [sorted|] eqn:Hs; [|done].
      unfold sort_keyed in Hs. destruct (mapM _ keyed) as [sortable|] eqn:Hm; [|done]. apply mapM_ok in Hm. clear Hs Hp Hout.
      induction Hm as [|kr ? keyed ? Hkr Hm IH]; constructor; [|done]. destruct (keyed_key _ _ _ kr) as [key|]; [by exists key|done]. }
    clear Hout. revert Hkeys. induction Hp as [|row kr rows keyed Hkr Hp IH]; intros Hkeys; [by exists []|].
    inversion Hkeys as [|? ? [key Hkey] Hkeys']; subst. destruct (IH Hkeys') as (T & <- & HT).
    destruct (mapM _ projected.*2) as [vals|] eqn:Hv; [|done]. injection Hkr as <-. by exists ((key, (vals, row)) :: T); repeat constructor. }
  exists T. split; [done|]. split; [done|]. rewrite projected_table in Hout by done. by injection Hout.
Qed.
End cut.

(** ** The caps *)
(** What follows the cut. *)
Definition finish (c : Clause) (columns : list text) (out : list (list Value)) : Exec (list text * list (list Value) + list Bindings) :=
  match c with
  | Clause.Return _ _ _ _ _ _ => Ok (inl (columns, out))
  | Clause.With _ _ _ _ _ where_clause _ =>
      let scopes := (fun row => bind_all ∅ (zip columns row)) <$> out in
      inr <$> match where_clause with Some e => filter_where ev e scopes | None => Ok scopes end
  | _ => Err Panic
  end.
Lemma run_projection_finish c d items order_by skip limit f rows :
  next_projection (Some c) = Some (d, items, order_by, skip, limit, f) ->
  run_projection c rows = (let projected := resolve_projections rows items in
    out ← projected_rows ev ev_group d projected order_by skip limit rows; finish c projected.*1 out).
Proof.
  intros Hn. cbn zeta. destruct c; try done; injection Hn as <- <- <- <- <- <-; unfold run_projection, run_return, run_with; cbn zeta;
    by destruct (projected_rows _ _ _ _ _ _ _ _).
Qed.
Lemma resolve_plain rows items : aggregates items = false -> existsb contains_aggregation (resolve_projections rows items).*2 = false.
Proof.
  induction items as [|item items IH]; [done|]. intros [Hi Hrest]%orb_false_iff.
  change (resolve_projections rows (item :: items)) with (resolve_item rows item ++ resolve_projections rows items). rewrite fmap_app, existsb_app, IH by done.
  rewrite orb_false_r. destruct item as [|e a]; cbn; [|by rewrite Hi]. destruct rows as [|row rows]; [done|].
  by induction (sorted_names row) as [|x xs IHx].
Qed.

Section kept.
Context (items : list ProjectionItem) (order_by : list OrderItem) (skip limit : option Expression) (s l : Z) (rows : list Bindings).
Context (Hplain : aggregates items = false) (Hs : 0 <= s) (Hl : 0 <= l).
Context (Hskip : match skip with Some e => eval_usize ev e ∅ = Ok s | None => s = 0 end).
Context (Hlimit : exists e, limit = Some e /\ eval_usize ev e ∅ = Ok l).
Context (Hdom : forall r r', r ∈ rows -> r' ∈ rows -> dom r = dom r').
Context (Hstar : 0 < s + l \/ ProjectStar ∉ items).
Context (P : SortKey -> Prop) (Hpre : preorder_on P compare_keys).
Let projected := resolve_projections rows items.

Lemma head_elem {A} (rs : list A) r : head rs = Some r -> r ∈ rs.
Proof. destruct rs; [done|]. intros [= ->]. by left. Qed.
Lemma keys_cmp_ordered : preorder_on (fun t : Entry => P t.1) keys_cmp.
Proof using Hpre P. by apply (preorder_image fst _ P _ compare_keys). Qed.
(** The first rows of the table, in order, are answered alike. *)
Lemma kept_answer T : row_of <$> T = rows -> Forall (computed projected order_by) T -> Forall (fun t => P t.1) T ->
  let kept := row_of <$> take (Z.to_nat (s + l)) (sort_by keys_cmp T) in
  resolve_projections kept items = projected
  /\ projected_rows ev ev_group false projected order_by skip limit kept = projected_rows ev ev_group false projected order_by skip limit rows.
Proof using H Hdom Hl Hlimit Hplain Hpre Hs Hskip Hstar P ev ev_group items l.
  intros Hrows HT HP kept. split.
  - apply resolve_same.
    + intros r r' Hr Hr'. apply Hdom; [|by apply head_elem]. apply head_elem in Hr. unfold kept in Hr. rewrite <- Hrows.
      apply list_elem_of_fmap in Hr as (t & -> & Ht). apply elem_of_take in Ht as (i & Ht%list_elem_of_lookup_2 & _). rewrite sort_perm in Ht. by apply list_elem_of_fmap_2.
    + destruct Hstar as [Hpos|Hno]; [left|by right]. unfold kept. rewrite <- Hrows. 
      pose proof (length_sort keys_cmp T) as Hlen. split; intros Hn.
      * apply fmap_nil_inv in Hn. apply (f_equal length) in Hn. rewrite length_take, Hlen in Hn. cbn in Hn. destruct T; [done|cbn in Hn; lia].
      * apply fmap_nil_inv in Hn as ->. by destruct (Z.to_nat _).
  - unfold kept, projected. rewrite <- Hrows at 3. assert (Hpl := resolve_plain rows items Hplain).
    rewrite !(projected_table _ _ _ _ _ _ Hpl Hskip Hlimit); [|done|]; [f_equal|by apply Forall_take; rewrite sort_perm].
    unfold cut_table. rewrite (sort_of_ordered _ (take _ _)).
    + rewrite fmap_take. by apply cut_take.
    + apply take_in_order, (sort_in_order _ _ keys_cmp_ordered), HP.
Qed.

(** The heap a [MATCH] fills. *)
Lemma top_key_computed k t : row_of t ∈ rows -> computed projected order_by t ->
  top_key ev (mkTopSpec k order_by items) (resolve_projections [] items) (row_of t) = Ok t.1.
Proof using H Hdom ev items order_by projected rows.
  intros Hin [Hv Hk]. unfold top_key. rewrite (top_scope_adds rows items (row_of t) (row_of t) t.2.1); [done| |done|done].
  intros r Hr. apply Hdom; [by apply head_elem|done].
Qed.
Lemma push_computed (k : Z) (t0 : TopK) (T : list Entry) : Forall (fun t => row_of t ∈ rows) T -> Forall (computed projected order_by) T ->
  push_rows ev (mkTopSpec k order_by items) (resolve_projections [] items) t0 (row_of <$> T)
  = Ok (foldl (fun h kr => topk_push h kr.1 kr.2) t0 ((fun t => (t.1, row_of t)) <$> T)).
Proof using H Hdom ev items order_by projected rows.
  intros Hin HT. revert t0. induction HT as [|t T Ht HT IH]; intros t0; [done|]. inversion Hin; subst.
  cbn [fmap list_fmap push_rows foldl]. rewrite top_key_computed by done. cbn. by apply IH.
Qed.
Lemma pushed_rows T : row_of <$> T = rows -> Forall (computed projected order_by) T -> Forall (fun t => P t.1) T ->
  exists h, push_rows ev (mkTopSpec (s + l) order_by items) (resolve_projections [] items) (topk_new (s + l)) rows = Ok h
    /\ into_rows h = row_of <$> take (Z.to_nat (s + l)) (sort_by keys_cmp T).
Proof using H Hdom Hl Hpre Hs P ev items l order_by projected rows s.
  intros Hrows HT HP. eexists. split.
  - rewrite <- Hrows. apply push_computed; [|done]. rewrite <- Hrows. apply Forall_forall. intros t Ht. by apply list_elem_of_fmap_2.
  - fold (topk_rows (s + l) ((fun t => (t.1, row_of t)) <$> T)). rewrite (topk_first P Hpre); [|lia|by apply Forall_fmap].
    rewrite sort_map, <- fmap_take, <- list_fmap_compose. done.
Qed.
End kept.

(** A [MATCH] may keep the first rows only.  When the clause after a
    [MATCH] sorts its rows and cuts them ([top_cap] is the spec of it) and all
    of them give it an answer, then the rows the heap of the [MATCH] holds at
    the end give it the same answer, columns included: provided the rows bind
    the same names, their keys are ordered by a total preorder, and either
    something is kept or the clause has no [*]. *)
Lemma top_cap_answer c spec rows (P : SortKey -> Prop) out :
  top_cap ev (Some c) = Ok (Some spec) ->
  (forall r r', r ∈ rows -> r' ∈ rows -> dom r = dom r') ->
  0 < ts_keep spec \/ ProjectStar ∉ clause_items c ->
  preorder_on P compare_keys ->
  (forall row key, row ∈ rows -> top_key ev spec (resolve_projections [] (ts_items spec)) row = Ok key -> P key) ->
  run_projection c rows = Ok out ->
  exists h, push_rows ev spec (resolve_projections [] (ts_items spec)) (topk_new (ts_keep spec)) rows = Ok h
    /\ run_projection c (into_rows h) = Ok out.
Proof.
  intros Hcap Hdom Hstar Hpre HP Hrun. unfold top_cap in Hcap. destruct (next_projection (Some c)) as [[[[[[d items] order_by] skip] limit] f]|] eqn:Hn; [|done].
  destruct (d || f || bool_decide (length order_by = 0%nat) || aggregates items) eqn:Hplain; [done|].
  apply orb_false_iff in Hplain as [[[-> _]%orb_false_iff _]%orb_false_iff Hplain].
  destruct (cap_of ev skip limit) as [[keep|]|] eqn:Hkeep; [|done..]. injection Hcap as <-. cbn [ts_keep ts_items] in *.
  apply cap_of_ok in Hkeep as (e & s & l & Hlim & -> & Hs & Hl & He & Hskip). assert (Hlimit : exists e, limit = Some e /\ eval_usize ev e ∅ = Ok l) by eauto.
  assert (Hitems : clause_items c = items) by (destruct c; try done; by injection Hn).  rewrite Hitems in Hstar.
  rewrite (run_projection_finish _ _ _ _ _ _ _ _ Hn) in Hrun. cbn zeta in Hrun.
  destruct (projected_rows _ _ _ _ _ _ _ rows) as [rs|] eqn:Hrs; [|done]. pose proof Hrs as Hans.
  apply (answered_table _ _ _ _ s l (resolve_plain rows items Hplain) Hskip Hlimit) in Hans as (T & Hrows & HT & _).
  assert (HPT : Forall (fun t => P t.1) T).
  { apply Forall_forall. intros t Ht. apply (HP (row_of t)); [rewrite <- Hrows; by apply list_elem_of_fmap_2|].
    apply (top_key_computed items order_by rows Hdom); [rewrite <- Hrows; by apply list_elem_of_fmap_2|]. rewrite Forall_forall in HT. by apply HT. }
  destruct (pushed_rows items order_by s l rows Hs Hl Hdom P Hpre T Hrows HT HPT) as (h & Hh & Hkept). exists h. split; [done|].
  destruct (kept_answer items order_by skip limit s l rows Hplain Hs Hl Hskip Hlimit Hdom Hstar P Hpre T Hrows HT HPT) as [Hres Hsame].
  rewrite (run_projection_finish _ _ _ _ _ _ _ _ Hn). cbn zeta. rewrite Hkept, Hres, Hsame, Hrs. done.
Qed.
End caps.
Section limit.
Context `{!Chars} (ev : Expression -> Bindings -> Exec Value) (ev_group : Expression -> list Bindings -> Exec Value).
(** A [MATCH] may stop at a limit.  When the clause after a [MATCH] only
    cuts its rows ([limit_cap] is how many it looks at) and all of them give it
    an answer, then the first so many give it the same answer, columns
    included: provided the rows bind the same names, and either something is
    kept or the clause has no [*]. *)
Lemma limit_cap_answer c cap rows out :
  limit_cap ev (Some c) = Ok (Some cap) ->
  (forall r r', r ∈ rows -> r' ∈ rows -> dom r = dom r') ->
  0 < cap \/ ProjectStar ∉ clause_items c ->
  run_projection ev ev_group c rows = Ok out ->
  run_projection ev ev_group c (limit_rows cap rows) = Ok out.
Proof.
  intros Hcap Hdom Hstar Hrun. unfold limit_cap in Hcap. destruct (next_projection (Some c)) as [[[[[[d items] order_by] skip] limit] f]|] eqn:Hn; [|done].
  destruct (d || f || negb (bool_decide (length order_by = 0%nat)) || aggregates items) eqn:Hplain; [done|].
  apply orb_false_iff in Hplain as [[[-> _]%orb_false_iff Hord%negb_false_iff%bool_decide_eq_true]%orb_false_iff Hplain].
  apply nil_length_inv in Hord as ->. apply cap_of_ok in Hcap as (e & s & l & Hlim & -> & Hs & Hl & He & Hskip).
  assert (Hlimit : exists e, limit = Some e /\ eval_usize ev e ∅ = Ok l) by eauto.
  assert (Hitems : clause_items c = items) by (destruct c; try done; by injection Hn). rewrite Hitems in Hstar.
  rewrite (run_projection_finish _ _ _ _ _ _ _ _ _ _ Hn) in Hrun. rewrite (run_projection_finish _ _ _ _ _ _ _ _ _ _ Hn). cbn zeta in Hrun |- *.
  destruct (projected_rows _ _ _ _ _ _ _ rows) as [rs|] eqn:Hrs; [|done]. pose proof Hrs as Hans.
  apply (answered_table _ _ _ _ _ _ s l (resolve_plain rows items Hplain) Hskip Hlimit) in Hans as (T & Hrows & HT & _).
  assert (Hnil : Forall (fun t => t.1 = []) T) by (eapply Forall_impl; [exact HT|]; intros t [_ [= <-]]; done).
  assert (Hpre : preorder_on (fun k : SortKey => k = []) compare_keys) by (split; [by intros ? ? -> ->|by intros ? ? ? -> -> ->]).
  assert (Hsorted : sort_by keys_cmp T = T).
  { apply sort_of_ordered. clear -Hnil. induction Hnil as [|t T Ht HT IH]; constructor; [done|].
    eapply Forall_impl; [exact HT|]. intros t' Ht'. unfold keys_cmp. by rewrite Ht, Ht'. }
  destruct (kept_answer ev ev_group items [] skip limit s l rows Hplain Hs Hl Hskip Hlimit Hdom Hstar _ Hpre T Hrows HT Hnil) as [Hres Hsame].
  rewrite Hsorted, fmap_take, Hrows, <- limit_take in Hres, Hsame by lia. by rewrite Hres, Hsame, Hrs.
Qed.
End limit.

(** ** Rows of one name *)
Module Rows.
(** Numbers and variables. *)
Definition look (e : Expression) (row : Bindings) : Exec Value :=
  match e with
  | Expression.Integer i _ => Ok (Value.Integer i)
  | Expression.Var name sp => match row !! name with Some v => Ok v | None => raise (UnboundVariable name sp) end
  | _ => Err Panic
  end.
Definition look_group (e : Expression) (rows : list Bindings) : Exec Value := Err Panic.
Definition row (i : Z) : Bindings := {[ lit "n" := Value.Integer i ]}.
Definition n : Expression := Expression.Var (lit "n") no_span.
Definition int (i : Z) : Expression := Expression.Integer i no_span.
Definition chars : Chars :=
  {| is_alphabetic := is_ascii_letter; is_numeric := is_ascii_digit; is_printable := fun _ => true; float_text := fun _ => []; to_uppercase := id |}.
#[local] Existing Instance chars.
Definition rows : list Bindings := [row 1; row 3; row 2].

(** [RETURN * LIMIT 0] names no columns once the [MATCH] stops at none. *)
Lemma star_columns_lost :
  let c := Clause.Return false [ProjectStar] [] None (Some (int 0)) no_span in
  limit_cap look (Some c) = Ok (Some 0)
  /\ run_projection look look_group c rows = Ok (inl ([lit "n"], []))
  /\ run_projection look look_group c (limit_rows 0 rows) = Ok (inl ([], [])).
Proof. vm_compute. repeat split. Qed.
End Rows.
