(* ===== verification/CypherFunctions.v ===== *)
(** * The scalar functions of Cypher
    ([src/src/cypher/executor.rs]: [call_scalar] and the functions it calls)

    Every built-in function on values, by its name in lower case.  The
    elementary functions of the platform ([Libm]), the case tables of Unicode
    and the shortest decimal of a double ([Chars]) are the standard library's;
    what a function reads of the machine (the clock, the random generators)
    and the cosine of two embeddings are parameters ([Machine]). *)
From Stdlib Require Import SpecFloat Ascii.
From S2P Require Levenshtein.
From S2P Require Import Prelude CypherLexer CypherAst CypherParser CypherValue CypherPipeline.
Local Open Scope list_scope.
Local Open Scope Z_scope.

Class Machine := {
  unary_math : string -> F64.t -> F64.t;
  atan2 : F64.t -> F64.t -> F64.t;
  to_lowercase : text -> text;
  cosine_similarity : list F64.t -> list F64.t -> result text F64.t;
  rand_bits : Z;
  random_uuid : text;
  unix_millis : Z;
}.

(** ** Texts *)
Definition trim_start (t : text) : text := (span_of is_whitespace t).2.
Definition trim_end (t : text) : text := rev (trim_start (rev t)).
Definition trim (t : text) : text := trim_end (trim_start t).
(** [str::split] by a text that is not empty; [passed] more belong to the last one found. *)
Fixpoint split_from (d : text) (passed : nat) (part : text) (t : text) : list text :=
  match t with
  | [] => [rev part]
  | c :: t' =>
      match passed with
      | S passed => split_from d passed part t'
      | O => if starts_with d t then rev part :: split_from d (length d - 1) [] t' else split_from d 0 (c :: part) t'
      end
  end.
Definition split_on (d t : text) : list text := split_from d 0 [] t.
Fixpoint join (sep : text) (parts : list text) : text :=
  match parts with
  | [] => []
  | [p] => p
  | p :: parts => p ++ sep ++ join sep parts
  end.
(** [str::replace] of a text that is not empty. *)
Definition replace_all (search replacement t : text) : text := join replacement (split_on search t).

(** [str::parse::<i64>]. *)
Definition parse_i64 (t : text) : option Z :=
  let digits (neg : bool) (ds : text) :=
    match ds with
    | [] => None
    | _ => if forallb is_ascii_digit ds then
             let n := Z.of_N (digits_value 10 ds) in checked_i64 (if neg then - n else n)
           else None
    end in
  match t with
  | c :: r => if (c =? ch "-")%N then digits true r else if (c =? ch "+")%N then digits false r else digits false t
  | [] => None
  end.
(** [str::parse::<f64>]. *)
Definition parse_float (t : text) : option F64.t :=
  let number (neg : bool) (t : text) :=
    let signed (x : F64.t) := if neg then SFopp x else x in
    if eq_ignore_ascii_case t "inf" || eq_ignore_ascii_case t "infinity" then Some (signed (S754_infinity false))
    else if eq_ignore_ascii_case t "nan" then Some S754_nan
    else
      match t with
      | c :: _ => if is_ascii_digit c || (c =? ch ".")%N then signed <$> parse_f64 t else None
      | [] => None
      end in
  match t with
  | c :: r => if (c =? ch "-")%N then number true r else if (c =? ch "+")%N then number false r else number false t
  | [] => None
  end.

(** [f64::trunc], [floor] and [ceil]. *)
Definition round_to (up : bool -> bool) (x : F64.t) : F64.t :=
  match x with
  | S754_finite s m e =>
      if 0 <=? e then x
      else
        let q := Zpos m / 2 ^ (- e) in
        let q := if up s && negb (Zpos m mod 2 ^ (- e) =? 0) then q + 1 else q in
        if q =? 0 then S754_zero s else F64.of_int (if s then - q else q)
  | _ => x
  end.
Definition f64_trunc : F64.t -> F64.t := round_to (fun _ => false).
Definition f64_floor : F64.t -> F64.t := round_to (fun neg => neg).
Definition f64_ceil : F64.t -> F64.t := round_to negb.
Definition f64_sign (x : F64.t) : bool :=
  match x with S754_zero s | S754_infinity s | S754_finite s _ _ => s | S754_nan => false end.
Definition pi : F64.t := S754_finite false 7074237752028440 (-51).
Definition e_constant : F64.t := S754_finite false 6121026514868073 (-51).

Section functions.
Context `{!Chars, !Machine}.

(** [format!("{f:.1}")] of a double that is whole, [format!("{f}")] of another. *)
Definition format_float (f : F64.t) : text :=
  match f with
  | S754_zero s => (if s then lit "-" else []) ++ lit "0.0"
  | S754_finite s m e =>
      if F64.eqb f (f64_trunc f) then (if s then lit "-" else []) ++ number_text 10 (Z.to_N (F64.scaled (Zpos m) e)) ++ lit ".0"
      else float_text f
  | _ => float_text f
  end.

(** ** Arguments *)
Definition fn_err {A} (name : text) (message : text) (sp : Span) : Exec A := raise (InvalidFunctionCall name message sp).
Definition nat_text (n : nat) : text := number_text 10 (N.of_nat n).
Definition expect_arity (name : text) (args : list Value) (want : nat) (sp : Span) : Exec unit :=
  if (length args =? want)%nat then Ok tt
  else fn_err name (lit "expected " ++ nat_text want ++ lit " argument(s), got " ++ nat_text (length args)) sp.
Definition take_one (name : text) (args : list Value) (sp : Span) : Exec Value :=
  match args with
  | [v] => Ok v
  | [] => fn_err name (lit "expected 1 argument, got 0") sp
  | _ => fn_err name (lit "expected 1 argument, got 2 or more") sp
  end.
Definition must_be {A} (name : text) (what : string) (got : Value) (sp : Span) : Exec A :=
  fn_err name (lit what ++ lit ", got " ++ Value.type_name got) sp.
Definition one_string (name : text) (args : list Value) (sp : Span) : Exec text :=
  v ← take_one name args sp;
  match v with Value.String s => Ok s | other => must_be name "argument must be a String" other sp end.
Definition string_arg (name : text) (v : Value) (which : string) (sp : Span) : Exec text :=
  match v with
  | Value.String s => Ok s
  | other => fn_err name (lit which ++ lit " argument must be a String, got " ++ Value.type_name other) sp
  end.
Definition int_arg (name : text) (v : Value) (which : string) (sp : Span) : Exec Z :=
  match v with
  | Value.Integer i => Ok i
  | other => fn_err name (lit which ++ lit " argument must be an Integer, got " ++ Value.type_name other) sp
  end.
Definition number_arg (name : text) (v : Value) (sp : Span) : Exec F64.t :=
  match Value.as_number v with Some x => Ok x | None => must_be name "argument must be a number" v sp end.
Definition arg (args : list Value) (i : nat) : Value := or_null (args !! i).
Definition two_strings (name : text) (args : list Value) (sp : Span) : Exec (text * text) :=
  _ ← expect_arity name args 2 sp;
  a ← string_arg name (arg args 0) "first" sp;
  b ← string_arg name (arg args 1) "second" sp;
  Ok (a, b).
Definition str_map (f : text -> text) (name : text) (args : list Value) (sp : Span) : Exec Value :=
  s ← one_string name args sp; Ok (Value.String (f s)).
Definition float_map (f : F64.t -> F64.t) (name : text) (args : list Value) (sp : Span) : Exec Value :=
  _ ← expect_arity name args 1 sp;
  n ← number_arg name (arg args 0) sp;
  Ok (Value.Float (f n)).
Definition scalar_const (x : F64.t) (name : text) (args : list Value) (sp : Span) : Exec Value :=
  _ ← expect_arity name args 0 sp; Ok (Value.Float x).

(** ** Strings *)
Definition scalar_coalesce (args : list Value) (sp : Span) : Exec Value :=
  match args with
  | [] => fn_err (lit "coalesce") (lit "expected at least one argument") sp
  | _ => Ok (or_null (List.find (fun v => negb (Value.is_null v)) args))
  end.
Definition scalar_reverse (args : list Value) (sp : Span) : Exec Value :=
  v ← take_one (lit "reverse") args sp;
  match v with
  | Value.String s => Ok (Value.String (rev s))
  | Value.List items => Ok (Value.List (rev items))
  | other => must_be (lit "reverse") "argument must be a String or List" other sp
  end.
Definition arity_2_3 (name : text) (args : list Value) (sp : Span) : Exec unit :=
  if (length args =? 2)%nat || (length args =? 3)%nat then Ok tt
  else fn_err name (lit "expected 2 or 3 arguments, got " ++ nat_text (length args)) sp.
(** [(n as usize).min(len)] of a position that is not negative. *)
Definition position (n : Z) (len : nat) : nat := Z.to_nat (Z.min n (Z.of_nat len)).
Definition scalar_substring (args : list Value) (sp : Span) : Exec Value :=
  let name := lit "substring" in
  _ ← arity_2_3 name args sp;
  match arg args 0 with
  | Value.String s =>
      start ← int_arg name (arg args 1) "start" sp;
      if start <? 0 then fn_err name (lit "start must be non-negative") sp
      else
        let start := position start (length s) in
        stop ← match args !! 2%nat with
               | None => Ok (length s)
               | Some v =>
                   len ← int_arg name v "length" sp;
                   if len <? 0 then fn_err name (lit "length must be non-negative") sp
                   else Ok (position (Z.of_nat start + len) (length s))
               end;
        Ok (Value.String (take (stop - start) (drop start s)))
  | other => must_be name "first argument must be a String" other sp
  end.
Definition scalar_replace (args : list Value) (sp : Span) : Exec Value :=
  let name := lit "replace" in
  _ ← expect_arity name args 3 sp;
  original ← string_arg name (arg args 0) "original" sp;
  search ← string_arg name (arg args 1) "search" sp;
  replacement ← string_arg name (arg args 2) "replacement" sp;
  Ok (Value.String match search with [] => original | _ => replace_all search replacement original end).
Definition scalar_split (args : list Value) (sp : Span) : Exec Value :=
  let name := lit "split" in
  _ ← expect_arity name args 2 sp;
  original ← string_arg name (arg args 0) "original" sp;
  delimiter ← string_arg name (arg args 1) "delimiter" sp;
  Ok (Value.List (Value.String <$> match delimiter with [] => (fun c => [c]) <$> original | _ => split_on delimiter original end)).
Definition scalar_left_right (from_left : bool) (name : text) (args : list Value) (sp : Span) : Exec Value :=
  _ ← expect_arity name args 2 sp;
  s ← string_arg name (arg args 0) "string" sp;
  n ← int_arg name (arg args 1) "length" sp;
  if n <? 0 then fn_err name (lit "length must be non-negative") sp
  else
    let n := position n (length s) in
    Ok (Value.String (if from_left then take n s else drop (length s - n) s)).
Definition bool_text (b : bool) : text := if b then lit "true" else lit "false".
Definition scalar_tostring (args : list Value) (sp : Span) : Exec Value :=
  v ← take_one (lit "toString") args sp;
  match v with
  | Value.Bool b => Ok (Value.String (bool_text b))
  | Value.Integer i => Ok (Value.String (integer_text i))
  | Value.Float f => Ok (Value.String (format_float f))
  | Value.String s => Ok (Value.String s)
  | other => fn_err (lit "toString") (lit "cannot convert " ++ Value.type_name other ++ lit " to a String") sp
  end.
(** [levenshtein::distance] and [similarity]. *)
Definition scalar_levenshtein_distance (args : list Value) (sp : Span) : Exec Value :=
  '(a, b) ← two_strings (lit "apoc.text.levenshteinDistance") args sp;
  Ok (Value.Integer (Z.min (Z.of_nat (Levenshtein.distance a b)) i64_max)).
Definition similarity (a b : text) : F64.t :=
  let longest := Nat.max (length a) (length b) in
  if (longest =? 0)%nat then F64.of_int 1
  else F64.sub (F64.of_int 1) (F64.div (F64.of_int (Z.of_nat (Levenshtein.distance a b))) (F64.of_int (Z.of_nat longest))).
Definition scalar_levenshtein_similarity (args : list Value) (sp : Span) : Exec Value :=
  '(a, b) ← two_strings (lit "apoc.text.levenshteinSimilarity") args sp; Ok (Value.Float (similarity a b)).

(** ** Numbers *)
Fixpoint operand_numbers (name : text) (which : string) (index : nat) (items : list Value) (sp : Span) : Exec (list F64.t) :=
  match items with
  | [] => Ok []
  | item :: items =>
      match Value.as_number item with
      | Some n => rest ← operand_numbers name which (S index) items sp; Ok (n :: rest)
      | None => fn_err name (lit which ++ lit " argument element at index " ++ nat_text index ++ lit " is not a number (got "
                  ++ Value.type_name item ++ lit ")") sp
      end
  end.
Definition similar_operand (name : text) (which : string) (v : Value) (sp : Span) : Exec (list F64.t) :=
  match v with
  | Value.List items => operand_numbers name which 0 items sp
  | other => fn_err name (lit which ++ lit " argument must be a list of numbers, got " ++ Value.type_name other) sp
  end.
Definition scalar_cosine_similarity (args : list Value) (sp : Span) : Exec Value :=
  let name := lit "cosine_similarity" in
  _ ← expect_arity name args 2 sp;
  a ← similar_operand name "first" (arg args 0) sp;
  b ← similar_operand name "second" (arg args 1) sp;
  match cosine_similarity a b with Ok score => Ok (Value.Float score) | Err m => fn_err name m sp end.
Definition scalar_abs (args : list Value) (sp : Span) : Exec Value :=
  let name := lit "abs" in
  _ ← expect_arity name args 1 sp;
  match arg args 0 with
  | Value.Integer i => match checked_i64 (Z.abs i) with Some a => Ok (Value.Integer a) | None => fn_err name (lit "integer overflow") sp end
  | Value.Float f => Ok (Value.Float (SFabs f))
  | other => must_be name "argument must be a number" other sp
  end.
Definition scalar_sign (args : list Value) (sp : Span) : Exec Value :=
  let name := lit "sign" in
  _ ← expect_arity name args 1 sp;
  n ← number_arg name (arg args 0) sp;
  Ok (Value.Integer (if SFltb F64.zero n then 1 else if SFltb n F64.zero then -1 else 0)).
Definition scalar_is_nan (args : list Value) (sp : Span) : Exec Value :=
  let name := lit "isNaN" in
  _ ← expect_arity name args 1 sp;
  match arg args 0 with
  | Value.Integer _ => Ok (Value.Bool false)
  | Value.Float f => Ok (Value.Bool (F64.is_nan f))
  | other => must_be name "argument must be a number" other sp
  end.
Definition scalar_atan2 (args : list Value) (sp : Span) : Exec Value :=
  let name := lit "atan2" in
  _ ← expect_arity name args 2 sp;
  y ← number_arg name (arg args 0) sp;
  x ← number_arg name (arg args 1) sp;
  Ok (Value.Float (atan2 y x)).

(** ** Conversions *)
Definition parse_integer (t : text) : Value :=
  let trimmed := trim t in
  match parse_i64 trimmed with
  | Some i => Value.Integer i
  | None =>
      match parse_float trimmed with
      | Some f => if F64.is_finite f then Value.Integer (F64.to_i64 (f64_trunc f)) else Value.Null
      | None => Value.Null
      end
  end.
Definition convert_to_integer_value (v : Value) : Value :=
  match v with
  | Value.Integer i => Value.Integer i
  | Value.Float f => if F64.is_finite f then Value.Integer (F64.to_i64 (f64_trunc f)) else Value.Null
  | Value.String s => parse_integer s
  | _ => Value.Null
  end.
Definition convert_to_float_value (v : Value) : Value :=
  match v with
  | Value.Integer i => Value.Float (F64.of_int i)
  | Value.Float f => Value.Float f
  | Value.String s => match parse_float (trim s) with Some f => Value.Float f | None => Value.Null end
  | _ => Value.Null
  end.
Definition convert_to_boolean_value (v : Value) : Value :=
  match v with
  | Value.Bool b => Value.Bool b
  | Value.Integer 0 => Value.Bool false
  | Value.Integer 1 => Value.Bool true
  | Value.String s =>
      if eq_ignore_ascii_case (trim s) "true" then Value.Bool true
      else if eq_ignore_ascii_case (trim s) "false" then Value.Bool false else Value.Null
  | _ => Value.Null
  end.
Definition convert_to_string_value (v : Value) : Value :=
  match v with
  | Value.Bool b => Value.String (bool_text b)
  | Value.Integer i => Value.String (integer_text i)
  | Value.Float f => Value.String (format_float f)
  | Value.String s => Value.String s
  | _ => Value.Null
  end.
(** [toInteger], [toFloat], [toBoolean] and the [*OrNull] functions. *)
Definition scalar_convert (shown : string) (convert : Value -> Value) (args : list Value) (sp : Span) : Exec Value :=
  v ← take_one (lit shown) args sp; Ok (convert v).
Definition scalar_to_list (convert : Value -> Value) (name : text) (args : list Value) (sp : Span) : Exec Value :=
  v ← take_one name args sp;
  match v with
  | Value.List items => Ok (Value.List (convert <$> items))
  | other => must_be name "argument must be a List" other sp
  end.

(** ** Rounding to a decimal place *)
Inductive RoundingMode : Type := Up | Down | Ceiling | Floor | HalfUp | HalfDown | HalfEven.
Definition rounding_mode (s : text) : option RoundingMode :=
  (fun '(_, m) => m) <$> List.find (fun '(w, _) => eq_ignore_ascii_case s w)
    [("UP", Up); ("DOWN", Down); ("CEILING", Ceiling); ("FLOOR", Floor); ("HALF_UP", HalfUp); ("HALF_DOWN", HalfDown);
     ("HALF_EVEN", HalfEven)]%string.
Definition should_increment (mode : RoundingMode) (neg : bool) (round_digit : N) (any_after last_kept_odd : bool) : bool :=
  let any_dropped := negb (round_digit =? 0)%N || any_after in
  match mode with
  | Up => any_dropped
  | Down => false
  | Ceiling => negb neg && any_dropped
  | Floor => neg && any_dropped
  | HalfUp => (5 <=? round_digit)%N
  | HalfDown => (5 <? round_digit)%N || (round_digit =? 5)%N && any_after
  | HalfEven => (5 <? round_digit)%N || (round_digit =? 5)%N && (any_after || last_kept_odd)
  end.
(** The digits from the last one on. *)
Fixpoint increment_rev (digits : list N) : list N :=
  match digits with
  | [] => [1%N]
  | d :: digits => if (d =? 9)%N then 0%N :: increment_rev digits else (d + 1)%N :: digits
  end.
Definition increment_digits (digits : list N) : list N := rev (increment_rev (rev digits)).
Definition digit_text (digits : list N) : text := (fun d => (d + 48)%N) <$> digits.
Definition round_decimal (value : F64.t) (precision : Z) (mode : RoundingMode) : Exec F64.t :=
  if negb (F64.is_finite value) then Ok value
  else
    let neg := f64_sign value in
    let s := float_text (SFabs value) in
    let int_str := (span_of (fun c => negb (c =? ch ".")%N) s).1 in
    let frac_str := tail (span_of (fun c => negb (c =? ch ".")%N) s).2 in
    let digits := (fun c => (c - 48)%N) <$> int_str ++ frac_str in
    let keep := wrap_i64 (Z.of_nat (length int_str) + precision) in
    let pad := if keep <? 1 then 1 - keep else 0 in
    if i64_max <? pad then Err Panic
    else
      let digits := repeat 0%N (Z.to_nat pad) ++ digits in
      let cut := keep + pad in
      if Z.of_nat (length digits) <=? cut then Ok value
      else
        let cut := Z.to_nat cut in
        let round_digit := default 0%N (digits !! cut) in
        let any_after := existsb (fun d => negb (d =? 0)%N) (drop (S cut) digits) in
        let kept := take cut digits in
        let last_kept_odd := N.odd (default 0%N (last kept)) in
        let kept := if should_increment mode neg round_digit any_after last_kept_odd then increment_digits kept else kept in
        let out := (if neg then lit "-" else []) ++ digit_text kept ++ lit "e" ++ integer_text (wrap_i64 (- precision)) in
        Ok (default value (parse_float out)).
Definition scalar_round (args : list Value) (sp : Span) : Exec Value :=
  let name := lit "round" in
  _ ← (if (length args =? 0)%nat || (3 <? length args)%nat
       then fn_err name (lit "expected 1 to 3 arguments, got " ++ nat_text (length args)) sp else Ok tt);
  value ← number_arg name (arg args 0) sp;
  precision ← match args !! 1%nat with None => Ok 0 | Some v => int_arg name v "precision" sp end;
  mode ← match args !! 2%nat with
         | None => Ok HalfUp
         | Some v =>
             m ← string_arg name v "mode" sp;
             match rounding_mode m with
             | Some mode => Ok mode
             | None => fn_err name (lit "unknown rounding mode `" ++ m
                         ++ lit "` (expected one of UP, DOWN, CEILING, FLOOR, HALF_UP, HALF_DOWN, HALF_EVEN)") sp
             end
         end;
  f ← round_decimal value precision mode;
  Ok (Value.Float f).

(** ** Lists, maps and entities *)
Definition scalar_size (name : text) (args : list Value) (sp : Span) : Exec Value :=
  _ ← expect_arity name args 1 sp;
  match arg args 0 with
  | Value.List items => Ok (Value.Integer (Z.of_nat (length items)))
  | Value.String s => Ok (Value.Integer (Z.of_nat (length s)))
  | Value.Path _ relationships => Ok (Value.Integer (Z.of_nat (Value.path_length relationships)))
  | other => must_be name "argument must be a List, String, or Path" other sp
  end.
Definition is_empty {A} (l : list A) : bool := match l with [] => true | _ => false end.
Definition scalar_is_empty (args : list Value) (sp : Span) : Exec Value :=
  v ← take_one (lit "isEmpty") args sp;
  match v with
  | Value.String s => Ok (Value.Bool (is_empty s))
  | Value.List items => Ok (Value.Bool (is_empty items))
  | Value.Map entries => Ok (Value.Bool (is_empty entries))
  | other => must_be (lit "isEmpty") "argument must be a String, List, or Map" other sp
  end.
Definition scalar_nodes (args : list Value) (sp : Span) : Exec Value :=
  v ← take_one (lit "nodes") args sp;
  match v with
  | Value.Path nodes _ => Ok (Value.List (Value.Node <$> nodes))
  | other => must_be (lit "nodes") "argument must be a Path" other sp
  end.
Definition scalar_relationships (args : list Value) (sp : Span) : Exec Value :=
  v ← take_one (lit "relationships") args sp;
  match v with
  | Value.Path _ relationships => Ok (Value.List (Value.Relationship <$> relationships))
  | other => must_be (lit "relationships") "argument must be a Path" other sp
  end.
(** [head], [last] and [tail]. *)
Definition scalar_of_list (shown : string) (f : list Value -> Value) (args : list Value) (sp : Span) : Exec Value :=
  v ← take_one (lit shown) args sp;
  match v with
  | Value.List items => Ok (f items)
  | other => must_be (lit shown) "argument must be a List" other sp
  end.

Definition RANGE_MAX_ELEMENTS : Z := 10000000.
(** [end - start] wraps before it is widened. *)
Definition range_len (start stop step : Z) : Z :=
  if (0 <? step) && (stop <? start) || (step <? 0) && (start <? stop) then 0
  else wrap_i64 (wrap_i64 (Z.quot (wrap_i64 (stop - start)) step) + 1).
Fixpoint range_from (count : nat) (current step : Z) : list Value :=
  match count with
  | O => []
  | S count => Value.Integer current :: range_from count (sat_i64 (current + step)) step
  end.
Definition scalar_range (args : list Value) (sp : Span) : Exec Value :=
  let name := lit "range" in
  _ ← arity_2_3 name args sp;
  start ← int_arg name (arg args 0) "start" sp;
  stop ← int_arg name (arg args 1) "end" sp;
  step ← match args !! 2%nat with None => Ok 1 | Some v => int_arg name v "step" sp end;
  if step =? 0 then fn_err name (lit "step must not be zero") sp
  else
    let count := range_len start stop step in
    if RANGE_MAX_ELEMENTS <? count then
      fn_err name (lit "range of " ++ integer_text count ++ lit " elements exceeds the " ++ integer_text RANGE_MAX_ELEMENTS
        ++ lit " limit") sp
    else if count <? 0 then Err Panic
    else Ok (Value.List (range_from (Z.to_nat count) start step)).

Definition scalar_keys (args : list Value) (sp : Span) : Exec Value :=
  let name := lit "keys" in
  _ ← expect_arity name args 1 sp;
  match base_properties (arg args 0) with
  | Some m => Ok (Value.List (Value.String <$> m.*1))
  | None => must_be name "argument must be a Node, Relationship, or Map" (arg args 0) sp
  end.
Definition scalar_labels (args : list Value) (sp : Span) : Exec Value :=
  let name := lit "labels" in
  _ ← expect_arity name args 1 sp;
  match arg args 0 with
  | Value.Node nv => Ok (Value.List (Value.String <$> Value.node_labels nv))
  | other => must_be name "argument must be a Node" other sp
  end.
Definition scalar_type (args : list Value) (sp : Span) : Exec Value :=
  let name := lit "type" in
  _ ← expect_arity name args 1 sp;
  match arg args 0 with
  | Value.Relationship rv => Ok (Value.String (Value.rel_kind rv))
  | other => must_be name "argument must be a Relationship" other sp
  end.
Definition scalar_id (args : list Value) (sp : Span) : Exec Value :=
  let name := lit "id" in
  _ ← expect_arity name args 1 sp;
  match arg args 0 with
  | Value.Node nv => Ok (Value.Integer (wrap_i64 (Z.of_N (Value.node_id nv))))
  | Value.Relationship rv => Ok (Value.Integer (wrap_i64 (Z.of_N (Value.rel_id rv))))
  | other => must_be name "argument must be a Node or Relationship" other sp
  end.
Definition scalar_element_id (args : list Value) (sp : Span) : Exec Value :=
  let name := lit "elementId" in
  v ← take_one name args sp;
  match v with
  | Value.Node nv => Ok (Value.String (number_text 10 (Value.node_id nv)))
  | Value.Relationship rv => Ok (Value.String (number_text 10 (Value.rel_id rv)))
  | Value.Null => Ok Value.Null
  | other => must_be name "argument must be a Node or Relationship" other sp
  end.
Definition scalar_properties (args : list Value) (sp : Span) : Exec Value :=
  let name := lit "properties" in
  v ← take_one name args sp;
  match base_properties v with
  | Some m => Ok (Value.Map m)
  | None => must_be name "argument must be a Node, Relationship, or Map" v sp
  end.

(** ** What is read of the machine *)
(** [iso8601_utc]: the civil date of the proleptic Gregorian calendar. *)
Definition civil (days : Z) : Z * Z * Z :=
  let z := days + 719468 in
  let era := Z.quot (if 0 <=? z then z else z - 146096) 146097 in
  let doe := z - era * 146097 in
  let yoe := Z.quot (doe - Z.quot doe 1460 + Z.quot doe 36524 - Z.quot doe 146096) 365 in
  let year := yoe + era * 400 in
  let doy := doe - (365 * yoe + Z.quot yoe 4 - Z.quot yoe 100) in
  let mp := Z.quot (5 * doy + 2) 153 in
  let day := doy - Z.quot (153 * mp + 2) 5 + 1 in
  let month := if mp <? 10 then mp + 3 else mp - 9 in
  (if month <=? 2 then year + 1 else year, month, day).
(** [{:0w$}]: the sign is one of the [w] places. *)
Definition padded (w : nat) (z : Z) : text :=
  let digits := number_text 10 (Z.abs_N z) in
  let sign := if z <? 0 then lit "-" else [] in
  sign ++ repeat (ch "0") (w - length sign - length digits) ++ digits.
Definition iso8601_utc (epoch_ms : Z) : text :=
  let secs := epoch_ms / 1000 in
  let millis := epoch_ms mod 1000 in
  let tod := secs mod 86400 in
  let '(year, month, day) := civil (secs / 86400) in
  padded 4 year ++ lit "-" ++ padded 2 month ++ lit "-" ++ padded 2 day ++ lit "T" ++ padded 2 (Z.quot tod 3600) ++ lit ":"
  ++ padded 2 (Z.quot (Z.rem tod 3600) 60) ++ lit ":" ++ padded 2 (Z.rem tod 60) ++ lit "." ++ padded 3 millis ++ lit "Z".
(** [splitmix64]: the state it leaves and what it draws. *)
Definition u64_mix (z : N) (shift : N) (factor : N) : N := wrap_u64 (N.lxor z (N.shiftr z shift) * factor).
Definition next_rand_u64 (state : N) : N * N :=
  let z := wrap_u64 (state + 11400714819323198485) in
  let m := u64_mix z 30 13787848793156543929 in
  let m := u64_mix m 27 10723151780598845931 in
  (z, N.lxor m (N.shiftr m 31)).
(** The next draw is [rand_bits]. *)
Definition unit_float (bits : Z) : F64.t := F64.div (F64.of_int bits) (F64.of_int (2 ^ 53)).
Definition scalar_rand (args : list Value) (sp : Span) : Exec Value :=
  _ ← expect_arity (lit "rand") args 0 sp; Ok (Value.Float (unit_float (Z.shiftr rand_bits 11))).
Definition scalar_random_uuid (args : list Value) (sp : Span) : Exec Value :=
  _ ← expect_arity (lit "randomUUID") args 0 sp; Ok (Value.String random_uuid).
Definition scalar_timestamp (args : list Value) (sp : Span) : Exec Value :=
  _ ← expect_arity (lit "timestamp") args 0 sp; Ok (Value.Integer unix_millis).
Definition scalar_datetime (args : list Value) (sp : Span) : Exec Value :=
  _ ← expect_arity (lit "datetime") args 0 sp; Ok (Value.String (iso8601_utc unix_millis)).

(** ** The functions by name *)
Definition of_args (f : list Value -> Span -> Exec Value) (name : text) : list Value -> Span -> Exec Value := f.
Definition math_map (w : string) : text -> list Value -> Span -> Exec Value := float_map (unary_math w).
Definition haversin (x : F64.t) : F64.t := F64.div (F64.sub (F64.of_int 1) (unary_math "cos" x)) (F64.of_int 2).
Definition scalar_functions : list (string * (text -> list Value -> Span -> Exec Value)) :=
  [("tolower", str_map to_lowercase); ("toupper", str_map to_uppercase); ("trim", str_map trim); ("ltrim", str_map trim_start);
   ("rtrim", str_map trim_end); ("reverse", of_args scalar_reverse); ("cosine_similarity", of_args scalar_cosine_similarity);
   ("substring", of_args scalar_substring); ("replace", of_args scalar_replace); ("split", of_args scalar_split);
   ("left", scalar_left_right true); ("right", scalar_left_right false); ("tostring", of_args scalar_tostring);
   ("apoc.text.levenshteindistance", of_args scalar_levenshtein_distance);
   ("apoc.text.levenshteinsimilarity", of_args scalar_levenshtein_similarity);
   ("abs", of_args scalar_abs); ("ceil", float_map f64_ceil); ("floor", float_map f64_floor); ("round", of_args scalar_round);
   ("sqrt", float_map (SFsqrt 53 1024)); ("sign", of_args scalar_sign);
   ("tointeger", of_args (scalar_convert "toInteger" convert_to_integer_value));
   ("tofloat", of_args (scalar_convert "toFloat" convert_to_float_value));
   ("toboolean", of_args (scalar_convert "toBoolean" convert_to_boolean_value));
   ("tointegerlist", scalar_to_list convert_to_integer_value); ("tofloatlist", scalar_to_list convert_to_float_value);
   ("tobooleanlist", scalar_to_list convert_to_boolean_value); ("tostringlist", scalar_to_list convert_to_string_value);
   ("tointegerornull", of_args (scalar_convert "toIntegerOrNull" convert_to_integer_value));
   ("tofloatornull", of_args (scalar_convert "toFloatOrNull" convert_to_float_value));
   ("tobooleanornull", of_args (scalar_convert "toBooleanOrNull" convert_to_boolean_value));
   ("tostringornull", of_args (scalar_convert "toStringOrNull" convert_to_string_value));
   ("e", scalar_const e_constant); ("pi", scalar_const pi); ("exp", math_map "exp"); ("log", math_map "ln"); ("log10", math_map "log10");
   ("sin", math_map "sin"); ("cos", math_map "cos"); ("tan", math_map "tan");
   ("cot", float_map (fun x => F64.div (F64.of_int 1) (unary_math "tan" x)));
   ("asin", math_map "asin"); ("acos", math_map "acos"); ("atan", math_map "atan"); ("atan2", of_args scalar_atan2);
   ("degrees", math_map "to_degrees"); ("radians", math_map "to_radians"); ("haversin", float_map haversin);
   ("size", scalar_size); ("length", scalar_size);
   ("head", of_args (scalar_of_list "head" (fun items => or_null (head items))));
   ("last", of_args (scalar_of_list "last" (fun items => or_null (last items))));
   ("tail", of_args (scalar_of_list "tail" (fun items => Value.List (tail items))));
   ("range", of_args scalar_range); ("keys", of_args scalar_keys); ("labels", of_args scalar_labels); ("type", of_args scalar_type);
   ("id", of_args scalar_id); ("elementid", of_args scalar_element_id); ("properties", of_args scalar_properties);
   ("isempty", of_args scalar_is_empty); ("isnan", of_args scalar_is_nan); ("nodes", of_args scalar_nodes);
   ("relationships", of_args scalar_relationships); ("rand", of_args scalar_rand); ("randomuuid", of_args scalar_random_uuid);
   ("timestamp", of_args scalar_timestamp); ("datetime", of_args scalar_datetime)]%string.
Definition call_scalar (name : text) (args : list Value) (sp : Span) : Exec Value :=
  if bool_decide (name = lit "coalesce") then scalar_coalesce args sp
  else if existsb Value.is_null args then Ok Value.Null
  else
    match List.find (fun f => bool_decide (name = lit f.1)) scalar_functions with
    | Some f => f.2 name args sp
    | None => raise (Unsupported (lit "function call `" ++ name ++ lit "`") sp)
    end.
End functions.

(** The names the validation sweep lets through. *)
Definition is_builtin_scalar_function (lower : text) : bool :=
  existsb (fun w => bool_decide (lower = lit w))
    ["tolower"; "toupper"; "trim"; "ltrim"; "rtrim"; "substring"; "replace"; "split"; "left"; "right"; "reverse"; "tostring";
     "apoc.text.levenshteindistance"; "apoc.text.levenshteinsimilarity"; "abs"; "ceil"; "floor"; "round"; "sign"; "sqrt";
     "tointeger"; "tofloat"; "toboolean"; "tointegerlist"; "tofloatlist"; "tobooleanlist"; "tostringlist"; "tointegerornull";
     "tofloatornull"; "tobooleanornull"; "tostringornull"; "e"; "exp"; "log"; "log10"; "sin"; "cos"; "tan"; "cot"; "asin"; "acos";
     "atan"; "atan2"; "degrees"; "radians"; "pi"; "haversin"; "size"; "length"; "head"; "last"; "tail"; "coalesce"; "range"; "keys";
     "labels"; "type"; "id"; "elementid"; "properties"; "isempty"; "isnan"; "nodes"; "relationships"; "rand"; "randomuuid";
     "timestamp"; "datetime"; "cosine_similarity"]%string.
