(* ===== verification/CypherFunctionsSpec.v ===== *)
(** * What the scalar functions promise
    ([src/src/cypher/executor.rs]: [call_scalar] and the functions it calls)

    A misuse is an error of the call, where the call is; [range] gives the
    progression it names; the date of [datetime] is the calendar's. *)
From Stdlib Require Import SpecFloat.
From S2P Require Import Prelude CypherLexer CypherAst CypherParser CypherValue CypherPipeline CypherFunctions.
Local Open Scope list_scope.
Local Open Scope Z_scope.

(** ** Errors *)
(** The outcomes a call at [sp] may have; [panics] when it may panic. *)
Definition misuse {A} (panics : bool) (sp : Span) (r : Exec A) : Prop :=
  match r with
  | Ok _ => True
  | Err Panic => panics = true
  | Err (Raise (InvalidFunctionCall _ _ at_)) => at_ = sp
  | Err _ => False
  end.
Create HintDb misuse.
Lemma misuse_bind {A B} p sp (m : Exec A) (f : A -> Exec B) : misuse p sp m -> (forall a, misuse p sp (f a)) -> misuse p sp (m ≫= f).
Proof. by destruct m as [a|[]]; cbn; auto. Qed.
Lemma misuse_fn_err {A} p name m sp : misuse p sp (fn_err name m sp : Exec A).
Proof. done. Qed.
Lemma misuse_must_be {A} p name what v sp : misuse p sp (must_be name what v sp : Exec A).
Proof. done. Qed.
Lemma misuse_ok {A} p sp (a : A) : misuse p sp (Ok a : Exec A).
Proof. done. Qed.
Lemma misuse_panic {A} sp : misuse true sp (Err Panic : Exec A).
Proof. done. Qed.
#[export] Hint Resolve misuse_ok misuse_fn_err misuse_must_be misuse_panic : misuse.
Ltac misuse := repeat first [progress intros | apply misuse_bind | solve [eauto with misuse] | case_match].

Section errors.
Context `{!Chars, !Machine}.
Lemma misuse_arity p name args n sp : misuse p sp (expect_arity name args n sp).
Proof. unfold expect_arity. misuse. Qed.
Lemma misuse_take_one p name args sp : misuse p sp (take_one name args sp).
Proof. unfold take_one. misuse. Qed.
Lemma misuse_arity_2_3 p name args sp : misuse p sp (arity_2_3 name args sp).
Proof. unfold arity_2_3. misuse. Qed.
#[local] Hint Resolve misuse_arity misuse_arity_2_3 misuse_take_one : misuse.
Lemma misuse_string p name v which sp : misuse p sp (string_arg name v which sp).
Proof. unfold string_arg. misuse. Qed.
Lemma misuse_int p name v which sp : misuse p sp (int_arg name v which sp).
Proof. unfold int_arg. misuse. Qed.
Lemma misuse_number p name v sp : misuse p sp (number_arg name v sp).
Proof. unfold number_arg. misuse. Qed.
#[local] Hint Resolve misuse_string misuse_int misuse_number : misuse.
Lemma misuse_operand p name which v sp : misuse p sp (similar_operand name which v sp).
Proof.
  unfold similar_operand. destruct v; try done. generalize 0%nat. induction items as [|item items IH]; intros n; [done|]. cbn [operand_numbers].
  destruct (Value.as_number item); [|done]. apply misuse_bind; [apply IH|done].
Qed.
Lemma misuse_round value n mode sp : misuse true sp (round_decimal value n mode).
Proof. unfold round_decimal. misuse. Qed.
#[local] Hint Resolve misuse_operand misuse_round : misuse.

(** The functions that may panic. *)
Definition may_panic (name : text) : bool := bool_decide (name = lit "range") || bool_decide (name = lit "round").
Lemma misuse_functions : Forall (fun f => forall name args sp, misuse (may_panic (lit f.1)) sp (f.2 name args sp)) scalar_functions.
Proof.
  unfold scalar_functions. repeat constructor; intros name args sp; cbn [fst snd];
    match goal with |- misuse ?b _ _ => let v := eval vm_compute in b in change b with v end;
    unfold of_args, str_map, math_map, float_map, scalar_const, one_string, scalar_convert, scalar_to_list, scalar_of_list, two_strings,
      scalar_reverse, scalar_cosine_similarity, scalar_substring, scalar_replace, scalar_split, scalar_left_right,
      scalar_tostring, scalar_levenshtein_distance, scalar_levenshtein_similarity, scalar_abs, scalar_round, scalar_sign, scalar_atan2,
      scalar_size, scalar_range, scalar_keys, scalar_labels, scalar_type, scalar_id, scalar_element_id, scalar_properties,
      scalar_is_empty, scalar_is_nan, scalar_nodes, scalar_relationships, scalar_rand, scalar_random_uuid, scalar_timestamp,
      scalar_datetime; misuse.
Qed.
Lemma find_accepted name : is_builtin_scalar_function name = true ->
  name = lit "coalesce" \/ is_Some (List.find (fun f => bool_decide (name = lit f.1)) scalar_functions).
Proof.
  unfold is_builtin_scalar_function. rewrite existsb_exists. intros (w & Hin & Hw%bool_decide_eq_true). subst name.
  repeat (destruct Hin as [<-|Hin]; [first [by left|right; by eexists]|]). destruct Hin.
Qed.
Lemma accepted_misuse name args sp : is_builtin_scalar_function name = true -> misuse (may_panic name) sp (call_scalar name args sp).
Proof.
  intros Hname. unfold call_scalar. destruct (bool_decide_reflect (name = lit "coalesce")) as [->|Hco].
  - unfold scalar_coalesce. misuse.
  - destruct (existsb Value.is_null args); [done|]. destruct (find_accepted name Hname) as [|[f Hf]]; [done|]. rewrite Hf.
    apply find_some in Hf as [Hin ->%bool_decide_eq_true]. pose proof misuse_functions as Hall. rewrite List.Forall_forall in Hall. by apply Hall.
Qed.
(** A call that is let through is never refused.  For every name the
    validation sweep accepts and whatever the arguments, the function answers a
    value, or fails as an invalid call where the call stands, or panics if it is
    [range] or [round]; it is null as soon as an argument is, [coalesce]
    alone excepted. *)
Theorem scalar_errors name args sp : is_builtin_scalar_function name = true ->
  misuse (may_panic name) sp (call_scalar name args sp)
  /\ (name <> lit "coalesce" -> Value.Null ∈ args -> call_scalar name args sp = Ok Value.Null).
Proof.
  intros Hname. split; [by apply accepted_misuse|]. unfold call_scalar.
  - intros Hco Hnull. rewrite bool_decide_eq_false_2 by done.
    assert (existsb Value.is_null args = true) as -> by (apply existsb_exists; exists Value.Null; split; [by apply list_elem_of_In|done]). done.
Qed.
End errors.

(** ** Ranges *)
(** Whether the [i]th number of the progression is not past the end. *)
Definition reaches (start stop step : Z) (i : Z) : bool :=
  if 0 <? step then start + i * step <=? stop else stop <=? start + i * step.
Lemma wrap_small z : is_i64 z -> wrap_i64 z = z.
Proof. unfold is_i64, wrap_i64, i64_min, i64_max. intros Hz. rewrite Z.mod_small; lia. Qed.
Lemma quot_bound a b : b <> 0 -> Z.abs (Z.quot a b) <= Z.abs a.
Proof. intros Hb. rewrite <- Z.quot_abs by done. apply Z.quot_le_upper_bound; nia. Qed.
(** How many of them there are. *)
Definition range_count (start stop step : Z) : Z := if reaches start stop step 0 then Z.quot (stop - start) step + 1 else 0.
Lemma range_len_count start stop step : step <> 0 -> is_i64 (stop - start) -> is_i64 (range_count start stop step) ->
  range_len start stop step = range_count start stop step /\ 0 <= range_count start stop step.
Proof.
  intros Hs Hd. unfold range_len, range_count, reaches. rewrite Z.mul_0_l, Z.add_0_r. rewrite (wrap_small (stop - start)) by done.
  pose proof (quot_bound (stop - start) step Hs) as Hq.
  assert (Hpos : forall b : bool, (b = true -> 0 <= Z.quot (stop - start) step) -> is_i64 (if b then Z.quot (stop - start) step + 1 else 0) ->
    (if negb b then 0 else wrap_i64 (wrap_i64 (Z.quot (stop - start) step) + 1)) = (if b then Z.quot (stop - start) step + 1 else 0)
    /\ 0 <= (if b then Z.quot (stop - start) step + 1 else 0)).
  { intros [] Hnn Hi; [|done]. specialize (Hnn eq_refl). cbn [negb]. rewrite (wrap_small (Z.quot _ _)) by (unfold is_i64, i64_min, i64_max in *; lia).
    rewrite wrap_small by done. lia. }
  destruct (Z.ltb_spec 0 step) as [Hp|Hp].
  - rewrite (proj2 (Z.ltb_ge step 0)) by lia. cbn [andb]. rewrite orb_false_r, Z.ltb_antisym. apply Hpos.
    intros Hle%Z.leb_le. apply Z.quot_pos; lia.
  - rewrite (proj2 (Z.ltb_lt step 0)) by lia. cbn [andb orb]. rewrite Z.ltb_antisym. apply Hpos.
    intros Hle%Z.leb_le. rewrite <- Z.quot_opp_opp by done. apply Z.quot_pos; lia.
Qed.
(** Which numbers are reached. *)
Lemma reaches_count start stop step i : step <> 0 -> 0 <= i -> reaches start stop step i = (i <? range_count start stop step).
Proof.
  intros Hs Hi. apply eq_true_iff_eq. rewrite Z.ltb_lt. unfold range_count, reaches. rewrite Z.mul_0_l, Z.add_0_r.
  destruct (Z.ltb_spec 0 step) as [Hp|Hp].
  - rewrite Z.leb_le. destruct (Z.leb_spec start stop); [|split; nia]. rewrite Z.quot_div_nonneg by lia.
    pose proof (Z.div_mod (stop - start) step ltac:(lia)). pose proof (Z.mod_pos_bound (stop - start) step ltac:(lia)). split; nia.
  - rewrite Z.leb_le. destruct (Z.leb_spec stop start); [|split; nia]. rewrite <- Z.quot_opp_opp, Z.quot_div_nonneg by lia.
    pose proof (Z.div_mod (- (stop - start)) (- step) ltac:(lia)). pose proof (Z.mod_pos_bound (- (stop - start)) (- step) ltac:(lia)). split; nia.
Qed.
Lemma range_from_lookup count current step (i : nat) : step <> 0 -> is_i64 current ->
  (forall j : nat, (j < count)%nat -> is_i64 (current + Z.of_nat j * step)) ->
  range_from count current step !! i = (if (i <? count)%nat then Some (Value.Integer (current + Z.of_nat i * step)) else None).
Proof.
  intros Hs. revert current i. induction count as [|count IH]; intros current i Hc Hall; [done|]. destruct i as [|i]; cbn [range_from].
  - cbn. do 2 f_equal. lia.
  - destruct count as [|count]; [by destruct i|]. assert (Hnext : is_i64 (current + step)) by (pose proof (Hall 1%nat ltac:(lia)); by replace (current + step) with (current + Z.of_nat 1 * step) by lia).
    change ((Value.Integer current :: range_from (S count) (sat_i64 (current + step)) step) !! S i) with (range_from (S count) (sat_i64 (current + step)) step !! i).
    assert (sat_i64 (current + step) = current + step) as -> by (unfold sat_i64, is_i64 in *; lia).
    rewrite IH; [|done|].
    + change (S i <? S (S count))%nat with (i <? S count)%nat. destruct (i <? S count)%nat; [|done]. do 2 f_equal. lia.
    + intros j Hj. replace (current + step + Z.of_nat j * step) with (current + Z.of_nat (S j) * step) by lia. apply Hall. lia.
Qed.
Section range.
Context `{!Chars, !Machine}.
(** [range] is the progression.  From [start] to [stop] by a [step] that is
    not zero, while the distance between them and the number of elements are
    64-bit integers, [range] answers the list of [start], [start + step], and
    so on up to the last that is not past [stop], when these are at most ten
    million, and is an invalid call when they are more. *)
Theorem range_exact start stop step sp :
  is_i64 start -> is_i64 stop -> step <> 0 -> is_i64 (stop - start) -> is_i64 (range_count start stop step) ->
  let call := call_scalar (lit "range") [Value.Integer start; Value.Integer stop; Value.Integer step] sp in
  (range_count start stop step <= RANGE_MAX_ELEMENTS -> exists items, call = Ok (Value.List items) /\
     forall i : nat, items !! i = (if reaches start stop step (Z.of_nat i) then Some (Value.Integer (start + Z.of_nat i * step)) else None))
  /\ (RANGE_MAX_ELEMENTS < range_count start stop step -> exists m, call = raise (InvalidFunctionCall (lit "range") m sp)).
Proof.
  intros Hstart Hstop Hs Hd Hc. destruct (range_len_count start stop step Hs Hd Hc) as [Hlen Hnn]. cbn zeta.
  assert (Hcall : call_scalar (lit "range") [Value.Integer start; Value.Integer stop; Value.Integer step] sp
    = scalar_range [Value.Integer start; Value.Integer stop; Value.Integer step] sp) by reflexivity.
  rewrite Hcall. unfold scalar_range. cbn [mbind result_bind arity_2_3 length Nat.eqb orb arg lookup list_lookup or_null int_arg].
  rewrite (proj2 (Z.eqb_neq step 0) Hs), Hlen. split; intros Hmax.
  - rewrite (proj2 (Z.ltb_ge _ _) Hmax), (proj2 (Z.ltb_ge _ _) Hnn). eexists. split; [done|]. intros i.
    rewrite range_from_lookup; [|done|done|].
    + rewrite reaches_count by lia. destruct (Nat.ltb_spec i (Z.to_nat (range_count start stop step))), (Z.ltb_spec (Z.of_nat i) (range_count start stop step)); done || lia.
    + intros j Hj. assert (Hr : reaches start stop step (Z.of_nat j) = true) by (rewrite reaches_count by lia; apply Z.ltb_lt; lia).
      unfold reaches in Hr. unfold is_i64 in *. destruct (Z.ltb_spec 0 step); apply Z.leb_le in Hr; nia.
  - rewrite (proj2 (Z.ltb_lt _ _) Hmax). by eexists.
Qed.
(** A distance or a number that is not a 64-bit integer wraps before the limit is looked at. *)
Lemma range_panics sp : call_scalar (lit "range") [Value.Integer 0; Value.Integer i64_max] sp = Err Panic.
Proof. reflexivity. Qed.
Lemma range_of_all_empty sp : call_scalar (lit "range") [Value.Integer i64_min; Value.Integer i64_max] sp = Ok (Value.List []).
Proof. reflexivity. Qed.
(** As does the number of digits [round] keeps. *)
Lemma round_panics sp f : float_text (SFabs f) = lit "1" -> F64.is_finite f = true ->
  call_scalar (lit "round") [Value.Float f; Value.Integer i64_max] sp = Err Panic.
Proof.
  intros Ht Hf. transitivity (f ← round_decimal f i64_max HalfUp; Ok (Value.Float f)); [reflexivity|].
  unfold round_decimal. rewrite Hf, Ht. reflexivity.
Qed.
End range.

(** ** The calendar *)
(** The Gregorian calendar, a day at a time. *)
Definition leap (y : Z) : bool := (y mod 4 =? 0) && (negb (y mod 100 =? 0) || (y mod 400 =? 0)).
Definition month_days (y m : Z) : Z :=
  if m =? 2 then if leap y then 29 else 28 else if (m =? 4) || (m =? 6) || (m =? 9) || (m =? 11) then 30 else 31.
Definition next_day (date : Z * Z * Z) : Z * Z * Z :=
  let '(y, m, d) := date in
  if d <? month_days y m then (y, m, d + 1) else if m <? 12 then (y, m + 1, 1) else (y + 1, 1, 1).

(** The year that begins in March of a day of the 400 years, the days before
    the year, and the date of a day of the year. *)
Definition year_of (doe : Z) : Z := Z.quot (doe - Z.quot doe 1460 + Z.quot doe 36524 - Z.quot doe 146096) 365.
Definition days_before (y : Z) : Z := 365 * y + Z.quot y 4 - Z.quot y 100.
Definition month_day (doy : Z) : Z * Z :=
  let mp := Z.quot (5 * doy + 2) 153 in (if mp <? 10 then mp + 3 else mp - 9, doy - Z.quot (153 * mp + 2) 5 + 1).
Definition march_date (y doy : Z) : Z * Z * Z := let '(m, d) := month_day doy in (if m <=? 2 then y + 1 else y, m, d).
Definition year_days (y : Z) : Z := if leap (y + 1) then 366 else 365.
Lemma civil_march days : let z := days + 719468 in let doe := z mod 146097 in
  civil days = march_date (year_of doe + z / 146097 * 400) (doe - days_before (year_of doe)).
Proof.
  cbn zeta. unfold civil. assert (Hera : forall z, Z.quot (if 0 <=? z then z else z - 146096) 146097 = z / 146097).
  { intros z. destruct (Z.leb_spec 0 z); [by rewrite Z.quot_div_nonneg by lia|].
    replace (z - 146096) with (- (146096 - z)) by lia. rewrite Z.quot_opp_l, Z.quot_div_nonneg by lia.
    pose proof (Z.div_mod z 146097 ltac:(lia)). pose proof (Z.mod_pos_bound z 146097 ltac:(lia)).
    assert ((146096 - z) / 146097 = - (z / 146097)); [|lia]. symmetry. apply (Z.div_unique _ _ _ (146096 - z mod 146097)); lia. }
  rewrite Hera. set (z := days + 719468). replace (z - z / 146097 * 146097) with (z mod 146097) by (rewrite Z.mod_eq by lia; lia).
  reflexivity.
Qed.
Lemma quot_spec a b : 0 <= a -> 0 < b -> a = b * Z.quot a b + a mod b /\ 0 <= a mod b < b.
Proof. intros Ha Hb. rewrite Z.quot_div_nonneg by lia. pose proof (Z.mod_pos_bound a b Hb). split; [|lia]. apply Z.div_mod. lia. Qed.
Lemma year_days_before y : 0 <= y < 399 -> days_before (y + 1) = days_before y + year_days y.
Proof.
  intros Hy. unfold days_before, year_days, leap.
  pose proof (quot_spec y 4 ltac:(lia) ltac:(lia)). pose proof (quot_spec y 100 ltac:(lia) ltac:(lia)).
  pose proof (quot_spec (y + 1) 4 ltac:(lia) ltac:(lia)). pose proof (quot_spec (y + 1) 100 ltac:(lia) ltac:(lia)).
  rewrite (Z.mod_small (y + 1) 400) by lia.
  destruct (Z.eqb_spec ((y + 1) mod 4) 0), (Z.eqb_spec ((y + 1) mod 100) 0), (Z.eqb_spec (y + 1) 0); cbn [andb orb negb]; lia.
Qed.
(** The year of a day is the one its day falls in. *)
Lemma year_of_spec doe : 0 <= doe < 146097 ->
  0 <= year_of doe < 400 /\ days_before (year_of doe) <= doe < days_before (year_of doe) + year_days (year_of doe).
Proof.
  intros Hd. pose proof (quot_spec doe 1460 ltac:(lia) ltac:(lia)). pose proof (quot_spec doe 36524 ltac:(lia) ltac:(lia)).
  pose proof (quot_spec doe 146096 ltac:(lia) ltac:(lia)).
  pose proof (quot_spec (doe - Z.quot doe 1460 + Z.quot doe 36524 - Z.quot doe 146096) 365 ltac:(lia) ltac:(lia)).
  fold (year_of doe) in *. set (y := year_of doe) in *. assert (Hy : 0 <= y < 400) by lia. split; [done|].
  pose proof (quot_spec y 4 ltac:(lia) ltac:(lia)). pose proof (quot_spec y 100 ltac:(lia) ltac:(lia)).
  assert (Hlow : days_before y <= doe) by (unfold days_before; lia). split; [done|].
  destruct (Z.eq_dec y 399) as [He|Hne].
  - rewrite He. change (days_before 399 + year_days 399) with 146097. lia.
  - rewrite <- year_days_before by lia. unfold days_before.
    pose proof (quot_spec (y + 1) 4 ltac:(lia) ltac:(lia)). pose proof (quot_spec (y + 1) 100 ltac:(lia) ltac:(lia)). lia.
Qed.
Lemma days_before_mono y y' : 0 <= y -> y < y' -> days_before (y + 1) <= days_before y'.
Proof.
  intros Hy Hlt. unfold days_before. pose proof (quot_spec (y + 1) 4 ltac:(lia) ltac:(lia)). pose proof (quot_spec (y + 1) 100 ltac:(lia) ltac:(lia)).
  pose proof (quot_spec y' 4 ltac:(lia) ltac:(lia)). pose proof (quot_spec y' 100 ltac:(lia) ltac:(lia)). lia.
Qed.
Lemma year_of_next doe : 0 <= doe < 146096 ->
  let y := year_of doe in
  (doe + 1 < days_before y + year_days y -> year_of (doe + 1) = y)
  /\ (doe + 1 = days_before y + year_days y -> year_of (doe + 1) = y + 1 /\ days_before (y + 1) = doe + 1).
Proof.
  intros Hd y. destruct (year_of_spec doe ltac:(lia)) as [Hy Hin], (year_of_spec (doe + 1) ltac:(lia)) as [Hy' Hin']. fold y in Hy, Hin.
  set (y' := year_of (doe + 1)) in *. assert (H399 : y = 399 -> days_before y + year_days y = 146097) by (by intros ->).
  assert (Hge : y <= y').
  { apply Z.le_ngt. intros Hlt. pose proof (days_before_mono y' y ltac:(lia) Hlt). rewrite year_days_before in * by lia. lia. }
  split.
  - intros Hlt. destruct (Z.eq_dec y' y) as [|Hne]; [done|]. pose proof (days_before_mono y y' ltac:(lia) ltac:(lia)). rewrite year_days_before in * by lia. lia.
  - intros He. assert (Hlt : y < 399) by lia. rewrite year_days_before by lia. split; [|lia].
    destruct (Z.eq_dec y' (y + 1)) as [|Hne]; [done|]. destruct (Z.eq_dec y' y) as [Heq|]; [rewrite Heq in *; lia|].
    pose proof (days_before_mono (y + 1) y' ltac:(lia) ltac:(lia)) as Hm. destruct (Z.eq_dec y 398) as [He398|]; [lia|].
    rewrite (year_days_before (y + 1)), (year_days_before y) in Hm by lia.
    assert (365 <= year_days (y + 1)) by (unfold year_days; destruct (leap _); lia). lia.
Qed.

(** The days of a year that begins in March, but for the last ones. *)
Definition steps (doy : Z) : bool :=
  let '(m, d) := month_day doy in
  let '(m', d') := month_day (doy + 1) in
  (m' =? m) && (d' =? d + 1) && (if m =? 2 then d <? 28 else d <? month_days 1 m)
  || (m' =? m + 1) && (d' =? 1) && (negb (m =? 2) && (month_days 1 m <=? d) && (m <? 12))
  || (m' =? 1) && (d' =? 1) && ((m =? 12) && (31 <=? d)).
Lemma year_steps : forallb (fun n => steps (Z.of_nat n)) (seq 0 364) = true.
Proof. vm_compute. reflexivity. Qed.
Lemma month_days_other y m : m <> 2 -> month_days y m = month_days 1 m.
Proof. intros Hm. unfold month_days. by rewrite (proj2 (Z.eqb_neq m 2) Hm). Qed.
Lemma march_steps y doy : steps doy = true -> next_day (march_date y doy) = march_date y (doy + 1).
Proof.
  unfold steps, march_date. destruct (month_day doy) as [m d], (month_day (doy + 1)) as [m' d']. cbn [next_day].
  set (Y := if m <=? 2 then y + 1 else y).
  intros [[[[?%Z.eqb_eq ?%Z.eqb_eq]%andb_true_iff Hd]%andb_true_iff|[[?%Z.eqb_eq ?%Z.eqb_eq]%andb_true_iff Hd]%andb_true_iff]%orb_true_iff
    |[[?%Z.eqb_eq ?%Z.eqb_eq]%andb_true_iff Hd]%andb_true_iff]%orb_true_iff; subst m' d'.
  - assert (Hlt : (d <? month_days Y m) = true); [|by rewrite Hlt].
    destruct (Z.eqb_spec m 2) as [->|Hm]; [|by rewrite month_days_other]. apply Z.ltb_lt in Hd. apply Z.ltb_lt.
    change (month_days Y 2) with (if leap Y then 29 else 28). destruct (leap Y); lia.
  - apply andb_true_iff in Hd as [[Hm%negb_true_iff%Z.eqb_neq Hd%Z.leb_le]%andb_true_iff H12].
    rewrite (month_days_other Y m Hm), (proj2 (Z.ltb_ge d _) Hd), H12. f_equal. f_equal. unfold Y.
    destruct (Z.leb_spec m 2), (Z.leb_spec (m + 1) 2); lia.
  - apply andb_true_iff in Hd as [->%Z.eqb_eq Hd%Z.leb_le]. change (month_days Y 12) with 31. by rewrite (proj2 (Z.ltb_ge d 31) Hd).
Qed.
Lemma march_next y doy : 0 <= doy < year_days y ->
  next_day (march_date y doy) = (if doy + 1 <? year_days y then march_date y (doy + 1) else march_date (y + 1) 0).
Proof.
  intros Hd. destruct (Z_lt_le_dec doy 364) as [Hlt|Hge].
  - rewrite (proj2 (Z.ltb_lt _ _)) by (unfold year_days; destruct (leap _); lia). apply march_steps.
    pose proof year_steps as Hall. rewrite forallb_forall in Hall. specialize (Hall (Z.to_nat doy)). rewrite Z2Nat.id in Hall by lia.
    apply Hall, in_seq. lia.
  - unfold year_days in *. change (march_date (y + 1) 0) with (y + 1, 3, 1).
    assert (doy = 364 \/ doy = 365) as [->| ->] by (destruct (leap _); lia).
    + change (march_date y 364) with (y + 1, 2, 28). change (march_date y (364 + 1)) with (y + 1, 2, 29). cbn [next_day].
      change (month_days (y + 1) 2) with (if leap (y + 1) then 29 else 28). by destruct (leap (y + 1)).
    + change (march_date y 365) with (y + 1, 2, 29). cbn [next_day]. change (month_days (y + 1) 2) with (if leap (y + 1) then 29 else 28).
      by destruct (leap (y + 1)).
Qed.
Lemma year_days_period y n : year_days (y + n * 400) = year_days y.
Proof.
  unfold year_days, leap. replace (y + n * 400 + 1) with (y + 1 + (100 * n) * 4) at 1 by lia. rewrite Z.mod_add by lia.
  replace (y + n * 400 + 1) with (y + 1 + (4 * n) * 100) at 1 by lia. rewrite Z.mod_add by lia.
  replace (y + n * 400 + 1) with (y + 1 + n * 400) by lia. by rewrite Z.mod_add.
Qed.
(** The date of [datetime] is the calendar's.  The date computed from the
    number of days since the epoch is the first of January 1970 on day 0 and,
    for every day before or after, the next day of the Gregorian calendar on
    the next day, leap years included. *)
Theorem calendar_exact : civil 0 = (1970, 1, 1) /\ forall days, civil (days + 1) = next_day (civil days).
Proof.
  split; [reflexivity|]. intros days. rewrite !civil_march. cbn zeta.
  replace (days + 1 + 719468) with (days + 719468 + 1) by lia. set (z := days + 719468).
  pose proof (Z.div_mod z 146097 ltac:(lia)) as Hdm. pose proof (Z.mod_pos_bound z 146097 ltac:(lia)) as Hb. set (doe := z mod 146097) in *.
  destruct (year_of_spec doe ltac:(lia)) as [Hy Hin].
  rewrite march_next by (rewrite year_days_period; lia). rewrite year_days_period. destruct (Z_lt_le_dec doe 146096) as [Hlt|Hge].
  - assert ((z + 1) / 146097 = z / 146097) as -> by (symmetry; apply (Z.div_unique _ _ _ (doe + 1)); lia).
    assert ((z + 1) mod 146097 = doe + 1) as -> by (symmetry; apply (Z.mod_unique _ _ (z / 146097)); lia).
    destruct (year_of_next doe ltac:(lia)) as [Hsame Hnext].
    destruct (Z.ltb_spec (doe - days_before (year_of doe) + 1) (year_days (year_of doe))).
    + rewrite Hsame by lia. f_equal. lia.
    + destruct (Hnext ltac:(lia)) as [-> ->]. f_equal; lia.
  - assert (Hdoe : doe = 146096) by lia.
    assert ((z + 1) / 146097 = z / 146097 + 1) as -> by (symmetry; apply (Z.div_unique _ _ _ 0); lia).
    assert ((z + 1) mod 146097 = 0) as -> by (symmetry; apply (Z.mod_unique _ _ (z / 146097 + 1)); lia).
    rewrite Hdoe. change (year_of 146096) with 399. change (year_of 0) with 0.
    change (146096 - days_before 399 + 1 <? year_days 399) with false. cbv iota. f_equal; lia.
Qed.

(** ** By example *)
Module Calls.
Definition no_span : Span := mkSpan 0 0 1 1.
#[local] Instance chars : Chars :=
  {| is_alphabetic := is_ascii_letter; is_numeric := is_ascii_digit; is_printable := fun _ => true; float_text := fun _ => []; to_uppercase := id |}.
#[local] Instance machine : Machine :=
  {| unary_math := fun _ x => x; atan2 := fun y _ => y; to_lowercase := id; cosine_similarity := fun _ _ => Ok F64.zero;
     rand_bits := 0; random_uuid := []; unix_millis := 0 |}.
(** [size] of a missing value. *)
Lemma scalar_errors_witness : call_scalar (lit "size") [Value.Null] no_span = Ok Value.Null.
Proof.
  refine (proj2 (scalar_errors (lit "size") [Value.Null] no_span _) _ _).
  - vm_compute. reflexivity.
  - intros [=].
  - by left.
Defined.
(** [range(10, 1, -4)] is 10, 6, 2. *)
Lemma range_exact_witness : exists items,
  call_scalar (lit "range") [Value.Integer 10; Value.Integer 1; Value.Integer (-4)] no_span = Ok (Value.List items)
  /\ items !! 2%nat = Some (Value.Integer 2) /\ items !! 3%nat = None.
Proof.
  assert (H : forall P Q : Prop, (is_i64 10 -> is_i64 1 -> -4 <> 0 -> is_i64 (1 - 10) -> is_i64 (range_count 10 1 (-4)) -> P /\ Q) -> P).
  { intros P Q HPQ. apply HPQ; vm_compute; first [discriminate | split; discriminate]. }
  destruct (H _ _ (range_exact 10 1 (-4) no_span)) as (items & Hcall & Hitems); [vm_compute; discriminate|].
  exists items. split; [exact Hcall|]. by rewrite !Hitems.
Defined.
End Calls.
