(* ===== verification/CypherMatch.v ===== *)
(** * Matching patterns
    ([src/src/cypher/executor.rs]: [match_path], [match_segment], [for_each_node_match], [extract_pushdown_constraints])

    How a path pattern is matched from a row of bindings: the head among the
    candidates an index, an id or a scan gives, then segment by segment along
    the relationships, a variable-length segment breadth first.  The graph, the
    view of the signed-in user ([ReadFilter] shows it is a function of the
    value) and the native indexes are interfaces; expressions are evaluated by
    an argument, which [CypherEval] closes.

    Time limits are left out: [deadline::tick] never stops a statement here. *)
From Stdlib Require Import Ascii.
From S2P Require Import Prelude CypherLexer CypherAst CypherParser CypherValue CypherPipeline CypherFunctions.
Local Open Scope list_scope.
Local Open Scope Z_scope.

(** ** The graph a query runs on *)
(** The nodes and relationships of the engine, as values. *)
Class GraphEngine := {
  get_node : N -> Exec (option NodeValue);
  edges_of : N -> Direction -> Exec (list RelationshipValue);
  all_nodes : Exec (list NodeValue);
  nodes_by_kind : text -> Exec (list NodeValue);
}.
(** What the signed-in user sees of it. *)
Class View := {
  visible_node : NodeValue -> option NodeValue;
  traversable_kind : text -> bool;
  redact_relationship : RelationshipValue -> RelationshipValue;
}.
Inductive RangeOp : Type := RGt | RGe | RLt | RLe.
Inductive TextMatch : Type := TContains | TStartsWith | TEndsWith.
(** The postings of one property path: the ids an equality or a bound allows,
    when the value is one the index holds. *)
Record Posting : Type := mkPosting {
  eq_ids : Value -> option (gset N);
  range_ids : RangeOp -> Value -> option (gset N);
}.
Class Indexes := {
  label_ids : option (text -> list N);
  top_postings : option (text -> Posting);
  path_postings : list text -> list text -> option Posting;
  text_candidates : list text -> list text -> TextMatch -> text -> option (gset N);
}.

(** ** Constraints of a [WHERE] *)
Inductive PushConstraint : Type :=
| PEq (path : list text) (value : Expression)
| PIn (path : list text) (l : Expression)
| PRange (path : list text) (op : RangeOp) (bound : Expression)
| PText (path : list text) (op : TextMatch) (needle : Expression)
| PIdEq (value : Expression)
| PIdIn (l : Expression).
Abbreviation Pushdown := (gmap text (list PushConstraint)).

Definition id_call_var (e : Expression) : option text :=
  match e with
  | Expression.FunctionCall [name] false [Expression.Var v _] _ =>
      if eq_ignore_ascii_case name "id" || eq_ignore_ascii_case name "elementId" then Some v else None
  | _ => None
  end.
(** The names of a chain of properties, the last one first. *)
Fixpoint property_chain (e : Expression) : list text * Expression :=
  match e with
  | Expression.Property base name _ => let '(path, root) := property_chain base in (path ++ [name], root)
  | _ => ([], e)
  end.
Definition property_var_path (e : Expression) : option (text * list text) :=
  match property_chain e with
  | (name :: path, Expression.Var v _) => Some (v, name :: path)
  | _ => None
  end.
Definition binary_to_range_op (op : BinaryOp) : option RangeOp :=
  match op with BGt => Some RGt | BGe => Some RGe | BLt => Some RLt | BLe => Some RLe | _ => None end.
Definition flip_range_op (op : RangeOp) : RangeOp :=
  match op with RGt => RLt | RGe => RLe | RLt => RGt | RLe => RGe end.
Definition text_op (op : BinaryOp) : TextMatch := match op with BContains => TContains | StartsWith => TStartsWith | _ => TEndsWith end.
Definition push (v : text) (c : PushConstraint) (out : Pushdown) : Pushdown := <[v := default [] (out !! v) ++ [c]]> out.

Fixpoint extract_pushdown_constraints (e : Expression) (out : Pushdown) : Pushdown :=
  match e with
  | Expression.Binary op lhs rhs _ =>
      match op with
      | BAnd => extract_pushdown_constraints rhs (extract_pushdown_constraints lhs out)
      | BEq =>
          match id_call_var lhs, id_call_var rhs, property_var_path lhs, property_var_path rhs with
          | Some v, _, _, _ => push v (PIdEq rhs) out
          | _, Some v, _, _ => push v (PIdEq lhs) out
          | _, _, Some (v, path), _ => push v (PEq path rhs) out
          | _, _, _, Some (v, path) => push v (PEq path lhs) out
          | _, _, _, _ => out
          end
      | BContains | StartsWith | EndsWith =>
          match property_var_path lhs with Some (v, path) => push v (PText path (text_op op) rhs) out | None => out end
      | BGt | BGe | BLt | BLe =>
          match property_var_path lhs, property_var_path rhs, binary_to_range_op op with
          | Some (v, path), _, Some op => push v (PRange path op rhs) out
          | None, Some (v, path), Some op => push v (PRange path (flip_range_op op) lhs) out
          | _, _, _ => out
          end
      | _ => out
      end
  | Expression.In e l _ =>
      match id_call_var e, property_var_path e with
      | Some v, _ => push v (PIdIn l) out
      | _, Some (v, path) => push v (PIn path l) out
      | _, _ => out
      end
  | _ => out
  end.

(** [str::parse::<u64>]. *)
Definition parse_u64 (t : text) : option N :=
  let ds := match t with c :: r => if (c =? ch "+")%N then r else t | [] => [] end in
  match ds with
  | [] => None
  | _ => if forallb is_ascii_digit ds then let n := digits_value 10 ds in if (n <? 2 ^ 64)%N then Some n else None else None
  end.
Definition element_id_number (t : text) : option N := parse_u64 t.

(** ** Paths being matched *)
Definition PATH_ACCUM_KEY : text := lit "  path".
Definition seed_path (row : Bindings) (head : NodeValue) : Bindings := <[PATH_ACCUM_KEY := Value.Path [head] []]> row.
Definition extend_path_multi (row : Bindings) (rels : list RelationshipValue) (nodes : list NodeValue) : Bindings :=
  match row !! PATH_ACCUM_KEY with
  | Some (Value.Path ns rs) => <[PATH_ACCUM_KEY := Value.Path (ns ++ nodes) (rs ++ rels)]> row
  | _ => row
  end.
Definition extend_path (row : Bindings) (rel : RelationshipValue) (node : NodeValue) : Bindings := extend_path_multi row [rel] [node].

Definition VARLEN_DEFAULT_UPPER : nat := 25.

(** What the executor knows while a clause runs. *)
Record Statement : Type := mkStatement { st_pushdown : Pushdown; st_has_written : bool; st_tx_written : list N }.

Section matching.
Context `{!GraphEngine, !View, !Indexes}.
Context (ev : Expression -> Bindings -> Exec Value).

(** An evaluation whose error is no reason to stop. *)
Definition attempt (e : Expression) (row : Bindings) : Exec (option Value) :=
  match ev e row with Ok v => Ok (Some v) | Err (Raise _) => Ok None | Err stop => Err stop end.

Fixpoint properties_match (have : text -> option Value) (entries : list (text * Expression)) (row : Bindings) : Exec bool :=
  match entries with
  | [] => Ok true
  | (k, e) :: entries =>
      expected ← ev e row;
      if value_eq (or_null (have k)) expected then properties_match have entries row else Ok false
  end.
Definition node_matches_pattern (nv : NodeValue) (pattern : NodePattern) (row : Bindings) : Exec bool :=
  match pattern with
  | Expression.mkNode _ labels label_expr properties _ =>
      let have := Value.node_labels nv in
      if negb (forallb (fun l => existsb (fun h => bool_decide (h = l)) have) labels) then Ok false
      else if match label_expr with Some e => negb (LabelExpr.matches e have) | None => false end then Ok false
      else
        match properties with
        | Some (Expression.mkMap entries _) => properties_match (fun k => map_get k (Value.node_properties nv)) entries row
        | None => Ok true
        end
  end.
Definition edge_matches_pattern (edge : RelationshipValue) (pattern : RelationshipPattern) (row : Bindings) : Exec bool :=
  match pattern with
  | Expression.mkRelationship _ _ types _ properties _ =>
      if negb (is_empty types) && negb (existsb (fun t => bool_decide (t = Value.rel_kind edge)) types) then Ok false
      else
        match properties with
        | Some (Expression.mkMap entries _) =>
            properties_match (fun k => map_get k (Value.rel_properties (redact_relationship edge))) entries row
        | None => Ok true
        end
  end.
Definition edge_traversable (edge : RelationshipValue) : bool := traversable_kind (Value.rel_kind edge).

(** ** Candidates *)
Definition ids_in_order (s : gset N) : list N := sort_by N.compare (elements s).
Fixpoint get_nodes (ids : list N) : Exec (list NodeValue) :=
  match ids with
  | [] => Ok []
  | id :: ids =>
      node ← get_node id;
      rest ← get_nodes ids;
      Ok (option_list node ++ rest)
  end.
(** The ids a list of ids and element ids names. *)
Fixpoint id_items (items : list Value) (acc : gset N) : option (gset N) :=
  match items with
  | [] => Some acc
  | Value.Integer i :: items => id_items items (if 0 <=? i then {[ Z.to_N i ]} ∪ acc else acc)
  | Value.String s :: items => id_items items (match element_id_number s with Some n => {[ n ]} ∪ acc | None => acc end)
  | _ :: _ => None
  end.
(** The ids a constraint allows; [None] when it cannot narrow. *)
Definition id_allowed (c : PushConstraint) (row : Bindings) : Exec (option (gset N)) :=
  match c with
  | PIdEq value =>
      v ← attempt value row;
      Ok match v with
         | Some (Value.Integer i) => Some (if 0 <=? i then {[ Z.to_N i ]} else ∅)
         | Some (Value.String s) => Some (match element_id_number s with Some n => {[ n ]} | None => ∅ end)
         | _ => None
         end
  | PIdIn l =>
      v ← attempt l row;
      Ok match v with Some (Value.List items) => id_items items ∅ | _ => None end
  | _ => Ok None
  end.
Definition narrow (acc : option (gset N)) (allowed : gset N) : option (gset N) :=
  Some match acc with None => allowed | Some prev => prev ∩ allowed end.
Fixpoint id_narrowed (cs : list PushConstraint) (row : Bindings) (acc : option (gset N)) : Exec (option (gset N)) :=
  match cs with
  | [] => Ok acc
  | c :: cs =>
      allowed ← id_allowed c row;
      id_narrowed cs row (match allowed with Some s => narrow acc s | None => acc end)
  end.
Definition id_seek_candidates (st : Statement) (pattern : NodePattern) (row : Bindings) : Exec (option (list NodeValue)) :=
  match pattern with
  | Expression.mkNode (Some v) _ _ _ _ =>
      match st_pushdown st !! v with
      | Some cs =>
          ids ← id_narrowed cs row None;
          match ids with
          | Some ids => nodes ← get_nodes (ids_in_order ids); Ok (Some nodes)
          | None => Ok None
          end
      | None => Ok None
      end
  | _ => Ok None
  end.

Definition index_for (labels path : list text) : option Posting :=
  match path with
  | [key] => (fun idx => idx key) <$> top_postings
  | _ => path_postings labels path
  end.
(** [in_allowed]: all of the items, or no narrowing. *)
Fixpoint in_ids (p : Posting) (items : list Value) : option (gset N) :=
  match items with
  | [] => Some ∅
  | v :: items => s ← eq_ids p v; r ← in_ids p items; Some (s ∪ r)
  end.
Definition property_allowed (labels : list text) (c : PushConstraint) (row : Bindings) : Exec (option (gset N)) :=
  match c with
  | PEq path value =>
      match index_for labels path with
      | Some p => v ← attempt value row; Ok (v ≫= eq_ids p)
      | None => Ok None
      end
  | PIn path l =>
      match index_for labels path with
      | Some p => v ← attempt l row; Ok match v with Some (Value.List items) => in_ids p items | _ => None end
      | None => Ok None
      end
  | PRange path op bound =>
      match index_for labels path with
      | Some p => v ← attempt bound row; Ok (v ≫= range_ids p op)
      | None => Ok None
      end
  | PText path op needle =>
      v ← attempt needle row;
      Ok match v with Some (Value.String s) => text_candidates labels path op s | _ => None end
  | PIdEq _ | PIdIn _ => Ok None
  end.
(** The postings of the inline properties; [None] gives the index up. *)
Fixpoint inline_narrowed (idx : text -> Posting) (entries : list (text * Expression)) (row : Bindings) (acc : option (gset N)) :
    Exec (option (option (gset N))) :=
  match entries with
  | [] => Ok (Some acc)
  | (key, e) :: entries =>
      v ← attempt e row;
      match v with
      | None => Ok None
      | Some v =>
          match eq_ids (idx key) v with
          | Some allowed =>
              let acc := narrow acc allowed in
              if bool_decide (acc = Some ∅) then Ok (Some acc) else inline_narrowed idx entries row acc
          | None => inline_narrowed idx entries row acc
          end
      end
  end.
Fixpoint property_narrowed (labels : list text) (cs : list PushConstraint) (row : Bindings) (acc : option (gset N)) :
    Exec (option (gset N)) :=
  match cs with
  | [] => Ok acc
  | c :: cs =>
      allowed ← property_allowed labels c row;
      match allowed with
      | Some s =>
          let acc := narrow acc s in
          if bool_decide (acc = Some ∅) then Ok acc else property_narrowed labels cs row acc
      | None => property_narrowed labels cs row acc
      end
  end.
Definition native_property_candidates (st : Statement) (pattern : NodePattern) (row : Bindings) : Exec (option (list NodeValue)) :=
  match pattern with
  | Expression.mkNode variable labels _ properties _ =>
      inline ← match properties, top_postings with
               | Some (Expression.mkMap entries _), Some idx => inline_narrowed idx entries row None
               | _, _ => Ok (Some None)
               end;
      match inline with
      | None => Ok None
      | Some acc =>
          if bool_decide (acc = Some ∅) then Ok (Some [])
          else
            acc ← match variable ≫= (fun v => st_pushdown st !! v) with
                  | Some cs => property_narrowed labels cs row acc
                  | None => Ok acc
                  end;
            match acc with
            | Some ids => nodes ← get_nodes (ids_in_order ids); Ok (Some nodes)
            | None => Ok None
            end
      end
  end.
Fixpoint label_rest (seen : gset N) (ids : list N) : Exec (list NodeValue) :=
  match ids with
  | [] => Ok []
  | id :: ids =>
      if bool_decide (id ∈ seen) then label_rest seen ids
      else
        node ← get_node id;
        rest ← label_rest ({[ id ]} ∪ seen) ids;
        Ok (option_list node ++ rest)
  end.
Definition native_label_candidates (idx : text -> list N) (label : text) : Exec (list NodeValue) :=
  nodes ← nodes_by_kind label;
  rest ← label_rest (list_to_set (Value.node_id <$> nodes)) (idx label);
  Ok (nodes ++ rest).
Definition with_tx_written (st : Statement) (nodes : list NodeValue) : Exec (list NodeValue) :=
  let have := list_to_set (Value.node_id <$> nodes) : gset N in
  extra ← get_nodes (List.filter (fun id => negb (bool_decide (id ∈ have))) (st_tx_written st));
  match extra with
  | [] => Ok nodes
  | _ => Ok (sort_by (fun a b => (Value.node_id a ?= Value.node_id b)%N) (nodes ++ extra))
  end.
Definition intersect_nodes_by_id (a b : list NodeValue) : list NodeValue :=
  let keep := list_to_set (Value.node_id <$> b) : gset N in
  List.filter (fun n => bool_decide (Value.node_id n ∈ keep)) a.

(** The nodes a pattern is looked for among, before the exact test. *)
Definition candidate_nodes (st : Statement) (pattern : NodePattern) (row : Bindings) : Exec (list NodeValue) :=
  seek ← id_seek_candidates st pattern row;
  match seek with
  | Some nodes => Ok nodes
  | None =>
      let trusted := negb (st_has_written st) in
      prop_cands ← (if trusted then native_property_candidates st pattern row else Ok None);
      label_cands ← match label_ids, pattern with
                    | Some idx, Expression.mkNode _ (label :: _) _ _ _ =>
                        if trusted && negb (bool_decide (is_Some prop_cands)) then Some <$> native_label_candidates idx label else Ok None
                    | _, _ => Ok None
                    end;
      label_cands ← match label_cands with Some c => Some <$> with_tx_written st c | None => Ok None end;
      prop_cands ← match prop_cands with Some c => Some <$> with_tx_written st c | None => Ok None end;
      match label_cands, prop_cands with
      | Some l, Some p => Ok (intersect_nodes_by_id l p)
      | Some l, None => Ok l
      | None, Some p => Ok p
      | None, None => all_nodes
      end
  end.
(** Each candidate the user sees and the pattern takes, until [f] has enough. *)
Fixpoint for_each_of {S : Type} (nodes : list NodeValue) (pattern : NodePattern) (row : Bindings) (f : S -> NodeValue -> Exec (S * bool))
    (s : S) : Exec S :=
  match nodes with
  | [] => Ok s
  | node :: nodes =>
      match visible_node node with
      | None => for_each_of nodes pattern row f s
      | Some nv =>
          found ← node_matches_pattern nv pattern row;
          if found : bool then
            '(s, more) ← f s nv;
            if more : bool then for_each_of nodes pattern row f s else Ok s
          else for_each_of nodes pattern row f s
      end
  end.
Definition for_each_node_match {S : Type} (st : Statement) (pattern : NodePattern) (row : Bindings) (f : S -> NodeValue -> Exec (S * bool))
    (s : S) : Exec S :=
  nodes ← candidate_nodes st pattern row;
  for_each_of nodes pattern row f s.
Definition enumerate_nodes (st : Statement) (pattern : NodePattern) (row : Bindings) : Exec (list NodeValue) :=
  for_each_node_match st pattern row (fun out nv => Ok (out ++ [nv], true)) [].

(** ** Paths *)
Definition var_node_check (name : text) (nv : NodeValue) (sp : Span) (row : Bindings) : Exec bool :=
  match row !! name with
  | None => Ok true
  | Some (Value.Node bound) => Ok (Value.node_id bound =? Value.node_id nv)%N
  | Some other => Value.mismatch "Node" other sp
  end.
(** The target of a segment, bound to its variable when it agrees with what the variable has. *)
Definition bind_node (variable : option text) (nv : NodeValue) (sp : Span) (existing row : Bindings) : Exec (option Bindings) :=
  match variable with
  | None => Ok (Some row)
  | Some name =>
      agrees ← var_node_check name nv sp existing;
      Ok (if agrees : bool then Some (<[name := Value.Node nv]> row) else None)
  end.
Definition bind_relationship (variable : option text) (rv : RelationshipValue) (sp : Span) (existing row : Bindings) :
    Exec (option Bindings) :=
  match variable with
  | None => Ok (Some row)
  | Some name =>
      let bound := Some (<[name := Value.Relationship (redact_relationship rv)]> row) in
      match existing !! name with
      | None => Ok bound
      | Some (Value.Relationship r) => Ok (if (Value.rel_id r =? Value.rel_id rv)%N then bound else None)
      | Some other => Value.mismatch "Relationship" other sp
      end
  end.

Definition match_head (st : Statement) (head : NodePattern) (existing : Bindings) (build_path : bool) : Exec (list (Bindings * NodeValue)) :=
  match head with
  | Expression.mkNode variable _ _ _ sp =>
      let enumerated : Exec (list (Bindings * NodeValue)) :=
        nodes ← enumerate_nodes st head existing;
        Ok (List.map (fun nv =>
              let row := if build_path then seed_path existing nv else existing in
              (match variable with Some name => <[name := Value.Node nv]> row | None => row end, nv)) nodes) in
      match variable ≫= (fun name => existing !! name) with
      | Some (Value.Node nv) =>
          found ← node_matches_pattern nv head existing;
          Ok (if found : bool then [(if build_path then seed_path existing nv else existing, nv)] else [])
      | Some other => Value.mismatch "Node" other sp
      | None => enumerated
      end
  end.

Definition rel_direction (r : RelationshipPattern) : Direction := match r with Expression.mkRelationship d _ _ _ _ _ => d end.
Definition rel_variable (r : RelationshipPattern) : option text := match r with Expression.mkRelationship _ v _ _ _ _ => v end.
Definition rel_length (r : RelationshipPattern) : option RelLength := match r with Expression.mkRelationship _ _ _ l _ _ => l end.
Definition rel_span (r : RelationshipPattern) : Span := match r with Expression.mkRelationship _ _ _ _ _ sp => sp end.
Definition node_variable (n : NodePattern) : option text := match n with Expression.mkNode v _ _ _ _ => v end.

(** Whether a relationship may be followed from [id]. *)
Definition follows (dir : Direction) (id : N) (edge : RelationshipValue) : bool :=
  match dir with
  | Outgoing => (Value.rel_from edge =? id)%N
  | Incoming => (Value.rel_to edge =? id)%N
  | Undirected => true
  end.
Definition other_end (id : N) (edge : RelationshipValue) : N := if (Value.rel_from edge =? id)%N then Value.rel_to edge else Value.rel_from edge.
Definition seen_target (id : N) : Exec (option NodeValue) := node ← get_node id; Ok (node ≫= visible_node).

(** One relationship of a single hop: the row it gives, if any. *)
Definition hop_row (id : N) (edge : RelationshipValue) (rel : RelationshipPattern) (target : NodePattern) (existing : Bindings)
    (build_path : bool) : Exec (list (Bindings * NodeValue)) :=
  found ← edge_matches_pattern edge rel existing;
  if negb (found : bool) then Ok []
  else if negb (edge_traversable edge) then Ok []
  else if negb (follows (rel_direction rel) id edge) then Ok []
  else
    node ← seen_target (other_end id edge);
    match node with
    | None => Ok []
    | Some nv =>
        found ← node_matches_pattern nv target existing;
        if negb (found : bool) then Ok []
        else
          row ← bind_relationship (rel_variable rel) edge (rel_span rel) existing existing;
          match row with
          | None => Ok []
          | Some row =>
              row ← bind_node (node_variable target) nv (Expression.node_span target) existing row;
              match row with
              | None => Ok []
              | Some row => Ok [(if build_path then extend_path row (redact_relationship edge) nv else row, nv)]
              end
          end
    end.
Fixpoint concat_map {A B} (f : A -> Exec (list B)) (l : list A) : Exec (list B) :=
  match l with
  | [] => Ok []
  | x :: l => r ← f x; rest ← concat_map f l; Ok (r ++ rest)
  end.
Definition match_hop (prev : NodeValue) (rel : RelationshipPattern) (target : NodePattern) (existing : Bindings) (build_path : bool) :
    Exec (list (Bindings * NodeValue)) :=
  edges ← edges_of (Value.node_id prev) (rel_direction rel);
  concat_map (fun edge => hop_row (Value.node_id prev) edge rel target existing build_path) edges.

(** ** Variable length *)
(** A trail from the source: the node it ends at, and what it went through. *)
Record Trail : Type := mkTrail { tr_node : NodeValue; tr_edges : list RelationshipValue; tr_nodes : list NodeValue; tr_ids : list N }.
Definition trail_row (rel : RelationshipPattern) (target : NodePattern) (existing : Bindings) (build_path : bool)
    (t : Trail) : Exec (list (Bindings * NodeValue)) :=
  found ← node_matches_pattern (tr_node t) target existing;
  if negb (found : bool) then Ok []
  else
    let bound : Exec (option Bindings) :=
      match rel_variable rel with
      | None => Ok (Some existing)
      | Some name =>
          let row := <[name := Value.List (Value.Relationship <$> tr_edges t)]> existing in
          match existing !! name with
          | None => Ok (Some row)
          | Some (Value.List prev) => Ok (if (length prev =? length (tr_edges t))%nat then Some row else None)
          | Some other => Value.mismatch "List" other (rel_span rel)
          end
      end in
    row ← bound;
    match row with
    | None => Ok []
    | Some row =>
        row ← bind_node (node_variable target) (tr_node t) (Expression.node_span target) existing row;
        match row with
        | None => Ok []
        | Some row => Ok [(if build_path then extend_path_multi row (tr_edges t) (tr_nodes t) else row, tr_node t)]
        end
    end.
(** A trail one relationship longer. *)
Definition extend_trail (t : Trail) (rel : RelationshipPattern) (existing : Bindings) (edge : RelationshipValue) : Exec (list Trail) :=
  if bool_decide (Value.rel_id edge ∈ tr_ids t) then Ok []
  else
    found ← edge_matches_pattern edge rel existing;
    if negb (found : bool) then Ok []
    else if negb (edge_traversable edge) then Ok []
    else if negb (follows (rel_direction rel) (Value.node_id (tr_node t)) edge) then Ok []
    else
      node ← seen_target (other_end (Value.node_id (tr_node t)) edge);
      Ok match node with
         | None => []
         | Some nv => [mkTrail nv (tr_edges t ++ [redact_relationship edge]) (tr_nodes t ++ [nv]) (tr_ids t ++ [Value.rel_id edge])]
         end.
Definition expand (rel : RelationshipPattern) (existing : Bindings) (t : Trail) : Exec (list Trail) :=
  edges ← edges_of (Value.node_id (tr_node t)) (rel_direction rel);
  concat_map (extend_trail t rel existing) edges.
(** The levels [depth], [depth + 1], ..., [depth + more] of the search. *)
Fixpoint varlen_levels (more depth lower : nat) (rel : RelationshipPattern) (target : NodePattern) (existing : Bindings)
    (build_path : bool) (frontier : list Trail) : Exec (list (Bindings * NodeValue)) :=
  here ← (if (lower <=? depth)%nat then concat_map (trail_row rel target existing build_path) frontier else Ok []);
  match more with
  | O => Ok here
  | S more =>
      next ← concat_map (expand rel existing) frontier;
      match next with
      | [] => Ok here
      | _ =>
          rest ← varlen_levels more (S depth) lower rel target existing build_path next;
          Ok (here ++ rest)
      end
  end.
Definition match_varlen_segment (src : NodeValue) (rel : RelationshipPattern) (target : NodePattern) (existing : Bindings) (lo : Z)
    (hi : option Z) (build_path : bool) : Exec (list (Bindings * NodeValue)) :=
  let upper := match hi with Some h => Z.to_nat h | None => VARLEN_DEFAULT_UPPER end in
  varlen_levels upper 0 (Z.to_nat lo) rel target existing build_path [mkTrail src [] [] []].

Definition match_segment (prev : NodeValue) (segment : PathSegment) (existing : Bindings) (build_path : bool) :
    Exec (list (Bindings * NodeValue)) :=
  match segment with
  | Expression.mkSegment rel target =>
      let bounds :=
        match rel_length rel with
        | None => None
        | Some (Exact n) => Some (n, Some n)
        | Some AnyLength => Some (1, None)
        | Some (RangeLength from to) => Some (default 1 from, to)
        end in
      match bounds with
      | None => match_hop prev rel target existing build_path
      | Some (lo, hi) =>
          if (lo =? 1) && bool_decide (hi = Some 1) then match_hop prev rel target existing build_path
          else match_varlen_segment prev rel target existing lo hi build_path
      end
  end.
Fixpoint match_tail (tail : list PathSegment) (build_path : bool) (rows : list (Bindings * NodeValue)) : Exec (list (Bindings * NodeValue)) :=
  match tail with
  | [] => Ok rows
  | segment :: tail =>
      next ← concat_map (fun '(row, prev) => match_segment prev segment row build_path) rows;
      match_tail tail build_path next
  end.
Definition match_path (st : Statement) (path : PathPattern) (existing : Bindings) (build_path : bool) : Exec (list Bindings) :=
  match path with
  | Expression.mkPath head tail =>
      rows ← match_head st head existing build_path;
      rows ← match_tail tail build_path rows;
      Ok rows.*1
  end.
End matching.
