(* ===== verification/CypherEval.v ===== *)
(** * Evaluating expressions
    ([src/src/cypher/executor.rs]: [eval] and the functions it calls)

    [eval_body] is one step of [eval] over the evaluation of what is below, and
    [eval] closes it with fuel: the depth of the expression is enough unless a
    pushed constraint itself looks for a pattern ([CypherAnswers]).  The
    functions that reach other components, [similar], [keywords] and the
    sequences, are a parameter ([Outside]). *)
From Stdlib Require Import SpecFloat Ascii.
From S2P Require Import Prelude CypherLexer CypherAst CypherParser CypherRegex CypherValue CypherPipeline CypherFunctions CypherMatch.
Local Open Scope list_scope.
Local Open Scope Z_scope.

Class Outside := { outside : text -> list Expression -> (Expression -> Exec Value) -> Span -> Exec Value }.

Inductive Endpoint : Type := Start | End.

Section evaluation.
Context `{!Chars, !Libm, !Machine, !GraphEngine, !View, !Indexes, !Outside}.
Context (st : Statement) (params : gmap text Value).

Section body.
Context (ev : Expression -> Bindings -> Exec Value).

(** [needle IN items]. *)
Fixpoint in_items (needle : Value) (items : list Value) (saw_null : bool) : Value :=
  match items with
  | [] => if saw_null then Value.Null else Value.Bool false
  | Value.Null :: items => in_items needle items true
  | item :: items => if value_eq needle item then Value.Bool true else in_items needle items saw_null
  end.
Definition eval_in (needle haystack : Value) (sp : Span) : Exec Value :=
  match haystack with
  | Value.List items => Ok (in_items needle items false)
  | Value.Null => Ok Value.Null
  | other => Value.mismatch "List" other sp
  end.

Fixpoint project_selectors (base : Value) (selectors : list MapProjectionSelector) (row : Bindings) (sp : Span)
    (out : list (text * Value)) : Exec (list (text * Value)) :=
  match selectors with
  | [] => Ok out
  | Expression.SelProperty key :: selectors => project_selectors base selectors row sp (map_insert key (get_property base key) out)
  | Expression.SelAllProperties :: selectors =>
      match base_properties base with
      | Some props => project_selectors base selectors row sp (foldl (fun out '(k, v) => map_insert k v out) out props)
      | None => Value.mismatch "Node, Relationship, or Map" base sp
      end
  | Expression.SelLiteral key e :: selectors =>
      v ← ev e row;
      project_selectors base selectors row sp (map_insert key v out)
  | Expression.SelVariable name :: selectors =>
      match row !! name with
      | Some v => project_selectors base selectors row sp (map_insert name v out)
      | None => raise (UnboundVariable name sp)
      end
  end.
Definition eval_map_projection (base : Expression) (selectors : list MapProjectionSelector) (row : Bindings) (sp : Span) : Exec Value :=
  base ← ev base row;
  if Value.is_null base then Ok Value.Null
  else
    out ← project_selectors base selectors row sp [];
    match base_properties base with
    | Some _ => Ok (Value.Map out)
    | None => Value.mismatch "Node, Relationship, or Map" base sp
    end.

(** ** Patterns in expressions *)
Definition null_anchor (pattern : PathPattern) (row : Bindings) : bool :=
  match pattern with
  | Expression.mkPath head _ =>
      match node_variable head ≫= (fun name => row !! name) with Some Value.Null => true | _ => false end
  end.
Definition condition (predicate : option Expression) (row : Bindings) (sp : Span) : Exec bool :=
  match predicate with None => Ok true | Some e => eval_where ev "Bool" e sp row end.
Fixpoint comprehend (predicate : option Expression) (projection : Expression) (rows : list Bindings) (sp : Span) : Exec (list Value) :=
  match rows with
  | [] => Ok []
  | row :: rows =>
      keep ← condition predicate row sp;
      if keep : bool then
        v ← ev projection row;
        rest ← comprehend predicate projection rows sp;
        Ok (v :: rest)
      else comprehend predicate projection rows sp
  end.
Fixpoint any_row (predicate : option Expression) (rows : list Bindings) (sp : Span) : Exec bool :=
  match rows with
  | [] => Ok false
  | row :: rows =>
      keep ← condition predicate row sp;
      if keep : bool then Ok true else any_row predicate rows sp
  end.
Fixpoint count_rows (predicate : option Expression) (rows : list Bindings) (sp : Span) : Exec Z :=
  match rows with
  | [] => Ok 0
  | row :: rows =>
      keep ← condition predicate row sp;
      rest ← count_rows predicate rows sp;
      Ok (if keep : bool then rest + 1 else rest)
  end.
Definition eval_pattern_comprehension (pattern : PathPattern) (predicate : option Expression) (projection : Expression) (row : Bindings)
    (sp : Span) : Exec Value :=
  if null_anchor pattern row then Ok (Value.List [])
  else
    rows ← match_path ev st pattern row false;
    out ← comprehend predicate projection rows sp;
    Ok (Value.List out).
Definition eval_pattern_predicate (pattern : PathPattern) (row : Bindings) : Exec Value :=
  if null_anchor pattern row then Ok Value.Null
  else rows ← match_path ev st pattern row false; Ok (Value.Bool (negb (is_empty rows))).
Definition eval_exists_subquery (pattern : PathPattern) (predicate : option Expression) (row : Bindings) (sp : Span) : Exec Value :=
  if null_anchor pattern row then Ok Value.Null
  else
    rows ← match_path ev st pattern row false;
    found ← any_row predicate rows sp;
    Ok (Value.Bool found).
Definition eval_count_subquery (pattern : PathPattern) (predicate : option Expression) (row : Bindings) (sp : Span) : Exec Value :=
  if null_anchor pattern row then Ok Value.Null
  else
    rows ← match_path ev st pattern row false;
    n ← count_rows predicate rows sp;
    Ok (Value.Integer n).

(** ** Lists in expressions *)
Definition eval_items (l : Expression) (row : Bindings) (sp : Span) : Exec (option (list Value)) :=
  v ← ev l row;
  match v with
  | Value.List items => Ok (Some items)
  | Value.Null => Ok None
  | other => Value.mismatch "List" other sp
  end.
Fixpoint comprehend_items (variable : text) (predicate projection : option Expression) (items : list Value) (row : Bindings) (sp : Span) :
    Exec (list Value) :=
  match items with
  | [] => Ok []
  | item :: items =>
      let scope := <[variable := item]> row in
      keep ← condition predicate scope sp;
      if keep : bool then
        v ← match projection with Some e => ev e scope | None => Ok item end;
        rest ← comprehend_items variable predicate projection items row sp;
        Ok (v :: rest)
      else comprehend_items variable predicate projection items row sp
  end.
Definition eval_list_comprehension (variable : text) (l : Expression) (predicate projection : option Expression) (row : Bindings)
    (sp : Span) : Exec Value :=
  items ← eval_items l row sp;
  match items with
  | None => Ok Value.Null
  | Some items => out ← comprehend_items variable predicate projection items row sp; Ok (Value.List out)
  end.

(** How many items the predicate holds for, how many it does not, and of how many it says nothing. *)
Record Tally : Type := mkTally { trues : nat; falses : nat; nulls : nat }.
Fixpoint tally (variable : text) (predicate : Expression) (items : list Value) (row : Bindings) (sp : Span) (t : Tally) : Exec Tally :=
  match items with
  | [] => Ok t
  | item :: items =>
      v ← ev predicate (<[variable := item]> row);
      match v with
      | Value.Bool true => tally variable predicate items row sp (mkTally (S (trues t)) (falses t) (nulls t))
      | Value.Bool false => tally variable predicate items row sp (mkTally (trues t) (S (falses t)) (nulls t))
      | Value.Null => tally variable predicate items row sp (mkTally (trues t) (falses t) (S (nulls t)))
      | other => Value.mismatch "Bool" other sp
      end
  end.
Definition verdict (k : ListPredicateKind) (t : Tally) : Value :=
  match k with
  | PAll => if (0 <? falses t)%nat then Value.Bool false else if (0 <? nulls t)%nat then Value.Null else Value.Bool true
  | PAny => if (0 <? trues t)%nat then Value.Bool true else if (0 <? nulls t)%nat then Value.Null else Value.Bool false
  | PNone => if (0 <? trues t)%nat then Value.Bool false else if (0 <? nulls t)%nat then Value.Null else Value.Bool true
  | PSingle => if (1 <? trues t)%nat then Value.Bool false else if (0 <? nulls t)%nat then Value.Null else Value.Bool (trues t =? 1)%nat
  end.
Definition eval_list_predicate (k : ListPredicateKind) (variable : text) (l predicate : Expression) (row : Bindings) (sp : Span) : Exec Value :=
  items ← eval_items l row sp;
  match items with
  | None => Ok Value.Null
  | Some items => t ← tally variable predicate items row sp (mkTally 0 0 0); Ok (verdict k t)
  end.
Fixpoint reduce_items (accumulator variable : text) (e : Expression) (items : list Value) (row : Bindings) (acc : Value) : Exec Value :=
  match items with
  | [] => Ok acc
  | item :: items =>
      acc ← ev e (<[variable := item]> (<[accumulator := acc]> row));
      reduce_items accumulator variable e items row acc
  end.
Definition eval_reduce (accumulator : text) (init : Expression) (variable : text) (l e : Expression) (row : Bindings) (sp : Span) : Exec Value :=
  acc ← ev init row;
  items ← eval_items l row sp;
  match items with
  | None => Ok Value.Null
  | Some items => reduce_items accumulator variable e items row acc
  end.

(** ** [CASE], over any evaluation [at_row] of its parts *)
Section case.
Context (at_row : Expression -> Exec Value).
Fixpoint simple_arms (scrutinee : Value) (arms : list (Expression * Expression)) : Exec (option Expression) :=
  match arms with
  | [] => Ok None
  | (when, then_) :: arms =>
      v ← at_row when;
      equal ← compare BEq scrutinee v (Expression.span when);
      match equal with Value.Bool true => Ok (Some then_) | _ => simple_arms scrutinee arms end
  end.
Fixpoint generic_arms (arms : list (Expression * Expression)) : Exec (option Expression) :=
  match arms with
  | [] => Ok None
  | (when, then_) :: arms =>
      v ← at_row when;
      match v with
      | Value.Bool true => Ok (Some then_)
      | Value.Bool false | Value.Null => generic_arms arms
      | other => Value.mismatch "Boolean" other (Expression.span when)
      end
  end.
Definition eval_case (scrutinee : option Expression) (arms : list (Expression * Expression)) (else_branch : option Expression) : Exec Value :=
  taken ← match scrutinee with Some e => v ← at_row e; simple_arms v arms | None => generic_arms arms end;
  match taken, else_branch with
  | Some e, _ | None, Some e => at_row e
  | None, None => Ok Value.Null
  end.
End case.

(** ** Functions *)
Definition eval_endpoint_node (shown : string) (which : Endpoint) (args : list Expression) (row : Bindings) (sp : Span) : Exec Value :=
  match args with
  | [e] =>
      v ← ev e row;
      match v with
      | Value.Null => Ok Value.Null
      | Value.Relationship rv =>
          node ← seen_target (match which with Start => Value.rel_from rv | End => Value.rel_to rv end);
          Ok match node with Some nv => Value.Node nv | None => Value.Null end
      | other => must_be (lit shown) "argument must be a Relationship" other sp
      end
  | _ => fn_err (lit shown) (lit "expected 1 argument (relationship), got " ++ nat_text (length args)) sp
  end.
Definition is_sequence_function (lower : text) : bool :=
  bool_decide (lower = lit "drevo.sequence.next") || bool_decide (lower = lit "drevo.sequence.current").
Definition eval_scalar_function (name : list text) (args : list Expression) (row : Bindings) (sp : Span) : Exec Value :=
  let named (w : string) := match name with [n] => eq_ignore_ascii_case n w | _ => false end in
  let lower := Regex.to_ascii_lowercase <$> join (lit ".") name in
  if named "similar"%string || named "keywords"%string then outside lower args (fun e => ev e row) sp
  else if named "startNode"%string then eval_endpoint_node "startNode" Start args row sp
  else if named "endNode"%string then eval_endpoint_node "endNode" End args row sp
  else if is_sequence_function lower then outside lower args (fun e => ev e row) sp
  else if is_builtin_scalar_function lower then
    values ← mapM (fun e => ev e row) args;
    call_scalar lower values sp
  else raise (Unsupported (lit "function call `" ++ join (lit ".") name ++ lit "`") sp).

(** ** [eval] *)
Definition opt_value (e : option Expression) (row : Bindings) : Exec (option Value) :=
  match e with Some e => v ← ev e row; Ok (Some v) | None => Ok None end.
Fixpoint eval_entries (entries : list (text * Expression)) (row : Bindings) (out : list (text * Value)) : Exec (list (text * Value)) :=
  match entries with
  | [] => Ok out
  | (k, e) :: entries => v ← ev e row; eval_entries entries row (map_insert k v out)
  end.
Definition eval_body (e : Expression) (row : Bindings) : Exec Value :=
  match e with
  | Expression.Integer i _ => Ok (Value.Integer i)
  | Expression.Float f _ => Ok (Value.Float f)
  | Expression.String s _ => Ok (Value.String s)
  | Expression.True_ _ => Ok (Value.Bool true)
  | Expression.False_ _ => Ok (Value.Bool false)
  | Expression.Null _ => Ok Value.Null
  | Expression.Var name sp => match row !! name with Some v => Ok v | None => raise (UnboundVariable name sp) end
  | Expression.Param name _ => match params !! name with Some v => Ok v | None => raise (MissingParameter name) end
  | Expression.Property base name _ => v ← ev base row; Ok (get_property v name)
  | Expression.List items _ => out ← mapM (fun e => ev e row) items; Ok (Value.List out)
  | Expression.Map (Expression.mkMap entries _) => out ← eval_entries entries row []; Ok (Value.Map out)
  | Expression.Unary op e sp => v ← ev e row; eval_unary op v sp
  | Expression.Binary op lhs rhs sp => l ← ev lhs row; r ← ev rhs row; eval_binary op l r sp
  | Expression.IsNull e negated _ => v ← ev e row; Ok (Value.Bool (if negated then negb (Value.is_null v) else Value.is_null v))
  | Expression.HasLabels e labels sp => v ← ev e row; eval_has_labels v labels sp
  | Expression.In e l sp => needle ← ev e row; haystack ← ev l row; eval_in needle haystack sp
  | Expression.FunctionCall name _ args sp => eval_scalar_function name args row sp
  | Expression.Case scrutinee arms else_branch _ => eval_case (fun e => ev e row) scrutinee arms else_branch
  | Expression.Star sp => raise (Unsupported (lit "`*` outside `count(*)`") sp)
  | Expression.Index base index sp => b ← ev base row; i ← ev index row; eval_index b i sp
  | Expression.Slice base from to sp => b ← ev base row; f ← opt_value from row; t ← opt_value to row; eval_slice b f t sp
  | Expression.ListComprehension variable l predicate projection sp => eval_list_comprehension variable l predicate projection row sp
  | Expression.ListPredicate k variable l predicate sp => eval_list_predicate k variable l predicate row sp
  | Expression.Reduce accumulator init variable l e sp => eval_reduce accumulator init variable l e row sp
  | Expression.MapProjection base selectors sp => eval_map_projection base selectors row sp
  | Expression.PatternComprehension pattern predicate projection sp => eval_pattern_comprehension pattern predicate projection row sp
  | Expression.PatternPredicate pattern _ => eval_pattern_predicate pattern row
  | Expression.ExistsSubquery pattern predicate sp => eval_exists_subquery pattern predicate row sp
  | Expression.CountSubquery pattern predicate sp => eval_count_subquery pattern predicate row sp
  end.
End body.

Fixpoint eval (fuel : nat) (e : Expression) (row : Bindings) : Exec Value :=
  match fuel with
  | O => Err Deeper
  | S fuel => eval_body (eval fuel) e row
  end.
End evaluation.
