(* ===== verification/CypherEvalSpec.v ===== *)
(** * What expressions mean
    ([src/src/cypher/executor.rs]: [eval] and the functions it calls)

    The list predicates decide what every way of settling the unknown
    conditions agrees on. *)
From S2P Require Import Prelude CypherLexer CypherAst CypherParser CypherValue CypherOperators CypherPipeline CypherFunctions CypherMatch CypherEval.
Local Open Scope list_scope.
Local Open Scope Z_scope.

(** ** List predicates *)
(** A predicate over conditions that are all known. *)
Definition settled (k : ListPredicateKind) (bs : list bool) : bool :=
  match k with
  | PAll => forallb id bs
  | PAny => existsb id bs
  | PNone => negb (existsb id bs)
  | PSingle => (count_occ bool_dec bs true =? 1)%nat
  end.
(** [bs] settles what is unknown in [ts]. *)
Definition settles (ts : list (option bool)) (bs : list bool) : Prop := Forall2 (fun t b => t = None \/ t = Some b) ts bs.
Definition same_truth (t u : option bool) : bool := match t, u with Some a, Some b => Bool.eqb a b | None, None => true | _, _ => false end.
Definition occurs (t : option bool) (ts : list (option bool)) : nat := length (List.filter (same_truth t) ts).
Definition tally_of (ts : list (option bool)) : Tally := mkTally (occurs (Some true) ts) (occurs (Some false) ts) (occurs None ts).

Section settling.
Implicit Types (ts : list (option bool)) (bs : list bool).
Lemma occurs_cons t u ts : occurs t (u :: ts) = ((if same_truth t u then 1 else 0) + occurs t ts)%nat.
Proof. unfold occurs. cbn. by destruct (same_truth t u). Qed.

(** How many of the settled conditions hold. *)
Lemma settles_count ts bs : settles ts bs ->
  (occurs (Some true) ts <= count_occ bool_dec bs true <= occurs (Some true) ts + occurs None ts)%nat
  /\ (occurs (Some false) ts <= count_occ bool_dec bs false <= occurs (Some false) ts + occurs None ts)%nat.
Proof.
  induction 1 as [|t b ts bs Ht Hs IH]; [done|]. rewrite !occurs_cons.
  destruct Ht as [->| ->], b; cbn -[Nat.add]; repeat (destruct (bool_dec _ _); try done); cbn -[Nat.add]; lia.
Qed.
(** Any number of the unknown ones may hold. *)
Lemma settle_some m ts : (m <= occurs None ts)%nat -> exists bs, settles ts bs
  /\ count_occ bool_dec bs true = (occurs (Some true) ts + m)%nat
  /\ (count_occ bool_dec bs false + m = occurs (Some false) ts + occurs None ts)%nat.
Proof.
  revert m. induction ts as [|t ts IH]; intros m; [exists []; cbn in *; repeat split; [constructor|lia|lia]|]. rewrite !occurs_cons.
  destruct t as [b|]; cbn -[Nat.add]; intros Hm.
  - destruct (IH m ltac:(lia)) as (bs & Hs & Ht & Hf). exists (b :: bs). split; [constructor; [by right|done]|].
    destruct b; cbn -[Nat.add]; repeat (destruct (bool_dec _ _); try done); lia.
  - destruct m as [|m].
    + destruct (IH 0%nat ltac:(lia)) as (bs & Hs & Ht & Hf). exists (false :: bs). split; [constructor; [by left|done]|].
      cbn -[Nat.add]; repeat (destruct (bool_dec _ _); try done); lia.
    + destruct (IH m ltac:(lia)) as (bs & Hs & Ht & Hf). exists (true :: bs). split; [constructor; [by left|done]|].
      cbn -[Nat.add]; repeat (destruct (bool_dec _ _); try done); lia.
Qed.
(** A predicate is a question about the number of conditions that hold and do not. *)
Definition decided (k : ListPredicateKind) (holds fails : nat) : bool :=
  match k with PAll => (fails =? 0)%nat | PAny => (0 <? holds)%nat | PNone => (holds =? 0)%nat | PSingle => (holds =? 1)%nat end.
Lemma settled_decided k bs : settled k bs = decided k (count_occ bool_dec bs true) (count_occ bool_dec bs false).
Proof.
  assert (Hall : forallb id bs = (count_occ bool_dec bs false =? 0)%nat).
  { induction bs as [|[] bs IH]; cbn [forallb id count_occ]; [done| |]; destruct (bool_dec _ _); try done. }
  assert (Hany : existsb id bs = (0 <? count_occ bool_dec bs true)%nat).
  { clear Hall. induction bs as [|[] bs IH]; cbn [existsb id count_occ]; [done| |]; destruct (bool_dec _ _); try done. }
  destruct k; cbn [settled decided]; [done|done| |done]. rewrite Hany. by destruct (count_occ bool_dec bs true).
Qed.
Lemma verdict_settled k ts :
  (forall b, verdict k (tally_of ts) = Value.Bool b -> forall bs, settles ts bs -> settled k bs = b)
  /\ (verdict k (tally_of ts) = Value.Null -> exists bs bs', settles ts bs /\ settles ts bs' /\ settled k bs <> settled k bs')
  /\ (verdict k (tally_of ts) = Value.Null \/ exists b, verdict k (tally_of ts) = Value.Bool b).
Proof.
  repeat apply conj.
  - intros b Hv bs Hs. destruct (settles_count ts bs Hs) as [Ht Hf]. rewrite settled_decided. unfold verdict, tally_of in Hv. cbn [trues falses nulls] in Hv.
    destruct k; cbn [decided];
      repeat match type of Hv with context [(?x <? ?y)%nat] => destruct (Nat.ltb_spec x y) end; try done;
      injection Hv as <-; try (apply Nat.eqb_neq; lia); try (apply Nat.eqb_eq; lia); try (apply Nat.ltb_lt; lia); try (apply Nat.ltb_ge; lia).
    by replace (count_occ bool_dec bs true) with (occurs (Some true) ts) by lia.
  - intros Hv. unfold verdict, tally_of in Hv. cbn [trues falses nulls] in Hv.
    assert (Hnull : (0 < occurs None ts)%nat) by (destruct k; repeat match type of Hv with context [(?x <? ?y)%nat] => destruct (Nat.ltb_spec x y) end; done).
    destruct (settle_some 0 ts ltac:(lia)) as (bs & Hs & Ht & Hf), (settle_some 1 ts ltac:(lia)) as (bs' & Hs' & Ht' & Hf').
    destruct (settle_some (occurs None ts) ts ltac:(lia)) as (bs'' & Hs'' & Ht'' & Hf'').
    exists bs, (match k with PAll => bs'' | _ => bs' end). split; [done|]. split; [by destruct k|]. rewrite !settled_decided.
    destruct k; cbn [decided]; repeat match type of Hv with context [(?x <? ?y)%nat] => destruct (Nat.ltb_spec x y) end; try done;
      intros Heq; repeat match type of Heq with context [(?x =? ?y)%nat] => destruct (Nat.eqb_spec x y) | context [(?x <? ?y)%nat] => destruct (Nat.ltb_spec x y) end;
      try done; lia.
  - unfold verdict. destruct k; repeat (case_match; [by eauto|]); eauto.
Qed.
End settling.

Section list_predicate.
Context (ev : Expression -> Bindings -> Exec Value).
Lemma tally_counts variable predicate items ts row sp t :
  Forall2 (fun item u => ev predicate (<[variable := item]> row) = Ok (truth_value u)) items ts ->
  tally ev variable predicate items row sp t
  = Ok (mkTally (trues t + occurs (Some true) ts) (falses t + occurs (Some false) ts) (nulls t + occurs None ts)).
Proof.
  intros H. revert t. induction H as [|item u items ts Hu H IH]; intros t; [destruct t; cbn; by rewrite !Nat.add_0_r|].
  cbn [tally]. rewrite Hu, !occurs_cons. destruct t as [a b c]. destruct u as [[]|]; cbn -[Nat.add]; rewrite IH; cbn -[Nat.add]; f_equal; f_equal; lia.
Qed.
(** A list predicate answers what is certain.  When the predicate is true,
    false or unknown of each item of a list, [all], [any], [none] and [single]
    answer a truth value exactly when every way of settling what is unknown
    gives that one, and null exactly when two ways differ. *)
Theorem list_predicate_exact k variable l predicate row sp items ts :
  ev l row = Ok (Value.List items) ->
  Forall2 (fun item u => ev predicate (<[variable := item]> row) = Ok (truth_value u)) items ts ->
  let answer := eval_list_predicate ev k variable l predicate row sp in
  (forall b, answer = Ok (Value.Bool b) <-> forall bs, settles ts bs -> settled k bs = b)
  /\ (answer = Ok Value.Null <-> exists bs bs', settles ts bs /\ settles ts bs' /\ settled k bs <> settled k bs').
Proof.
  intros Hl Hts. cbn zeta. unfold eval_list_predicate, eval_items. rewrite Hl. cbn [mbind result_bind].
  rewrite (tally_counts _ _ _ _ _ _ _ Hts). cbn [mbind result_bind trues falses nulls Nat.add].
  change (mkTally (occurs (Some true) ts) (occurs (Some false) ts) (occurs None ts)) with (tally_of ts).
  destruct (verdict_settled k ts) as (Hb & Hn & Hcase). destruct (settle_some 0 ts ltac:(lia)) as (bs0 & Hs0 & _). split.
  - intros b. split; [intros [= Hv]; by apply Hb|]. intros Hall. destruct Hcase as [Hv|[b' Hv]].
    + destruct (Hn Hv) as (bs & bs' & Hs & Hs' & []). by rewrite (Hall bs), (Hall bs').
    + rewrite Hv. by rewrite <- (Hall bs0), (Hb b' Hv bs0).
  - split; [intros [= Hv]; by apply Hn|]. intros (bs & bs' & Hs & Hs' & Hne). destruct Hcase as [Hv|[b' Hv]]; [by rewrite Hv|].
    destruct Hne. by rewrite (Hb b' Hv bs), (Hb b' Hv bs').
Qed.
End list_predicate.


(** ** By example *)
Module Predicates.
Definition no_span : Span := mkSpan 0 0 1 1.
Definition look (e : Expression) (row : Bindings) : Exec Value :=
  match e with
  | Expression.List _ _ => Ok (Value.List [Value.Bool true; Value.Null])
  | Expression.Var name sp => match row !! name with Some v => Ok v | None => raise (UnboundVariable name sp) end
  | _ => Err Panic
  end.
(** [all(x IN [true, null] WHERE x)] is unknown. *)
Lemma list_predicate_exact_witness :
  eval_list_predicate look PAll (lit "x") (Expression.List [] no_span) (Expression.Var (lit "x") no_span) ∅ no_span = Ok Value.Null.
Proof.
  refine (proj2 (proj2 (list_predicate_exact look PAll (lit "x") (Expression.List [] no_span) (Expression.Var (lit "x") no_span) ∅ no_span
    [Value.Bool true; Value.Null] [Some true; None] eq_refl _)) _).
  - repeat constructor.
  - exists [true; true], [true; false]. split; [|split]; [repeat constructor; by auto..|done].
Defined.
End Predicates.
