(* ===== verification/CypherAggregate.v ===== *)
(** * Aggregations
    ([src/src/cypher/executor.rs]: [eval_with_agg], [eval_around_aggregations], [eval_aggregate])

    An expression over the rows of a group: the aggregations in it are folds of
    the rows, the rest is evaluated on the first row of the group.  Evaluation
    on one row is an argument; [eval_with_agg] is closed with fuel for the
    depth of the expression. *)
From Stdlib Require Import SpecFloat Ascii.
From S2P Require Import Prelude CypherLexer CypherAst CypherParser CypherRegex CypherValue CypherPipeline CypherFunctions CypherMatch CypherEval.
Local Open Scope list_scope.
Local Open Scope Z_scope.

(** ** The folds *)
Section folds.
Context `{!Chars, !Machine}.

(** [min] and [max]: a later value replaces the best when that compares as [worse]. *)
Fixpoint best_of (worse : comparison) (best : Value) (values : list Value) : Value :=
  match values with
  | [] => best
  | v :: values =>
      let replace := match compare_values best v, worse with Gt, Gt | Lt, Lt => true | _, _ => false end in
      best_of worse (if replace then v else best) values
  end.
Definition extreme (worse : comparison) (values : list Value) : Value :=
  match values with [] => Value.Null | v :: values => best_of worse v values end.
(** [sum]: in doubles, an integer when all are. *)
Fixpoint sum_values (values : list Value) (all_int : bool) (acc : F64.t) (sp : Span) : Exec Value :=
  match values with
  | [] => Ok (if all_int then Value.Integer (F64.to_i64 acc) else Value.Float acc)
  | Value.Integer i :: values => sum_values values all_int (F64.add acc (F64.of_int i)) sp
  | Value.Float f :: values => sum_values values false (F64.add acc f) sp
  | other :: _ => Value.mismatch "Integer or Float" other sp
  end.
Definition numeric_fold_values (values : list Value) (sp : Span) : Exec (list F64.t) :=
  mapM (fun v => match Value.as_number v with Some x => Ok x | None => Value.mismatch "Integer or Float" v sp end) values.
Definition sum_floats (xs : list F64.t) : F64.t := foldl F64.add F64.zero xs.
Definition of_nat (n : nat) : F64.t := F64.of_int (Z.of_nat n).
Definition avg_values (values : list Value) (sp : Span) : Exec Value :=
  match values with
  | [] => Ok Value.Null
  | _ => nums ← numeric_fold_values values sp; Ok (Value.Float (F64.div (sum_floats nums) (of_nat (length values))))
  end.
Definition stdev_values (sample : bool) (values : list Value) (sp : Span) : Exec Value :=
  nums ← numeric_fold_values values sp;
  let n := length nums in
  if (n =? 0)%nat || sample && (n <? 2)%nat then Ok (Value.Float F64.zero)
  else
    let mean := F64.div (sum_floats nums) (of_nat n) in
    let ss := sum_floats ((fun x => F64.mul (F64.sub x mean) (F64.sub x mean)) <$> nums) in
    let divisor := of_nat (if sample then n - 1 else n) in
    Ok (Value.Float (unary_math "sqrt" (F64.div ss divisor))).

(** Whether [a <= b]; false when one is not a number. *)
Definition float_le (a b : F64.t) : bool := match F64.cmp a b with Some Lt | Some Eq => true | _ => false end.
(** [as usize]. *)
Definition to_index (x : F64.t) : nat := Z.to_nat (F64.to_i64 x).
Definition percentile_disc_index (fraction : F64.t) (count : nat) : nat :=
  if float_le (F64.of_int 1) fraction then count - 1
  else
    let float_idx := F64.mul fraction (of_nat count) in
    let idx := to_index float_idx in
    let idx := if F64.eqb float_idx (of_nat idx) && negb (idx =? 0)%nat then (idx - 1)%nat else idx in
    Nat.min idx (count - 1).
(** [None] is an index past the end. *)
Definition percentile_cont (sorted : list F64.t) (fraction : F64.t) : option F64.t :=
  let count := length sorted in
  if float_le (F64.of_int 1) fraction then sorted !! (count - 1)%nat
  else
    let float_idx := F64.mul fraction (of_nat (count - 1)) in
    let lo := to_index (f64_floor float_idx) in
    lo_val ← sorted !! lo;
    if (S lo <? count)%nat then
      hi_val ← sorted !! S lo;
      let frac := F64.sub float_idx (of_nat lo) in
      Some (F64.add (F64.mul lo_val (F64.sub (F64.of_int 1) frac)) (F64.mul hi_val frac))
    else Some lo_val.
Definition number_or_zero (v : Value) : F64.t := match Value.as_number v with Some x => x | None => F64.zero end.
(** The order percentiles sort by; numbers that do not compare are taken for equal. *)
Definition percentile_cmp (a b : Value) : comparison := or_equal (F64.cmp (number_or_zero a) (number_or_zero b)).
Definition percentile (disc : bool) (fraction : F64.t) (values : list Value) (sp : Span) : Exec Value :=
  _ ← numeric_fold_values values sp;
  match values with
  | [] => Ok Value.Null
  | _ =>
      let sorted := sort_by percentile_cmp values in
      if disc then
        match sorted !! percentile_disc_index fraction (length sorted) with Some v => Ok v | None => Err Panic end
      else
        match percentile_cont (number_or_zero <$> sorted) fraction with Some x => Ok (Value.Float x) | None => Err Panic end
  end.
End folds.

Section aggregates.
Context `{!Chars, !Libm, !Machine}.
Context (ev : Expression -> Bindings -> Exec Value).
Definition first_row (rows : list Bindings) : Bindings := match rows with row :: _ => row | [] => ∅ end.

Definition eval_percentile_fraction (func : text) (args : list Expression) (rows : list Bindings) (sp : Span) : Exec F64.t :=
  match args with
  | [_; fraction] =>
      raw ← ev fraction (first_row rows);
      match Value.as_number raw with
      | None => fn_err func (lit "percentile fraction must be a number between 0.0 and 1.0, got " ++ Value.type_name raw) sp
      | Some x =>
          if float_le F64.zero x && float_le x (F64.of_int 1) then Ok x
          else fn_err func (lit "percentile fraction must be between 0.0 and 1.0, got " ++ float_text x) sp
      end
  | _ => fn_err func (lit "`" ++ func ++ lit "` takes exactly two arguments (value, fraction)") sp
  end.
(** The values of the argument that are not null, row by row. *)
Fixpoint arg_values (arg : Expression) (rows : list Bindings) : Exec (list Value) :=
  match rows with
  | [] => Ok []
  | row :: rows =>
      v ← ev arg row;
      rest ← arg_values arg rows;
      Ok (if Value.is_null v then rest else v :: rest)
  end.
Definition is_star (e : Expression) : bool := match e with Expression.Star _ => true | _ => false end.
Definition eval_aggregate (name : list text) (distinct : bool) (args : list Expression) (rows : list Bindings) (sp : Span) : Exec Value :=
  let func := Regex.to_ascii_lowercase <$> hd [] name in
  let is_func (w : string) := bool_decide (func = lit w) in
  match args with
  | [] => Err Panic
  | arg :: more =>
      if is_func "count" && is_empty more && is_star arg then Ok (Value.Integer (Z.of_nat (length rows)))
      else
        values ← arg_values arg rows;
        let values := if distinct then dedup_values values else values in
        if is_func "count" then Ok (Value.Integer (Z.of_nat (length values)))
        else if is_func "sum" then sum_values values true F64.zero sp
        else if is_func "avg" then avg_values values sp
        else if is_func "min" then Ok (extreme Gt values)
        else if is_func "max" then Ok (extreme Lt values)
        else if is_func "collect" then Ok (Value.List values)
        else if is_func "stdev" then stdev_values true values sp
        else if is_func "stdevp" then stdev_values false values sp
        else if is_func "percentilecont" || is_func "percentiledisc" then
          fraction ← eval_percentile_fraction func args rows sp;
          percentile (is_func "percentiledisc") fraction values sp
        else Err Panic
  end.

(** ** Around aggregations *)
(** A name no query can write. *)
Definition fold_name (scope : Bindings) : text := 0%N :: lit "aggregation" ++ nat_text (size scope).
Section body.
Context (evg : Expression -> list Bindings -> Exec Value).
(** An operand, its aggregations folded and bound in the scope. *)
Definition fold_operand (rows : list Bindings) (scope : Bindings) (e : Expression) : Exec (Expression * Bindings) :=
  if negb (contains_aggregation e) then Ok (e, scope)
  else
    v ← evg e rows;
    let name := fold_name scope in
    Ok (Expression.Var name (Expression.span e), <[name := v]> scope).
Fixpoint fold_operands (rows : list Bindings) (scope : Bindings) (es : list Expression) : Exec (list Expression * Bindings) :=
  match es with
  | [] => Ok ([], scope)
  | e :: es =>
      '(e, scope) ← fold_operand rows scope e;
      '(es, scope) ← fold_operands rows scope es;
      Ok (e :: es, scope)
  end.
Definition fold_option (rows : list Bindings) (scope : Bindings) (e : option Expression) : Exec (option Expression * Bindings) :=
  match e with
  | None => Ok (None, scope)
  | Some e => '(e, scope) ← fold_operand rows scope e; Ok (Some e, scope)
  end.
Definition rewrite_operands (e : Expression) (rows : list Bindings) : Exec (Expression * Bindings) :=
  let scope := first_row rows in
  match e with
  | Expression.FunctionCall name distinct args sp =>
      '(args, scope) ← fold_operands rows scope args;
      Ok (Expression.FunctionCall name distinct args sp, scope)
  | Expression.Index base index sp =>
      '(base, scope) ← fold_operand rows scope base;
      '(index, scope) ← fold_operand rows scope index;
      Ok (Expression.Index base index sp, scope)
  | Expression.Slice base from to sp =>
      '(base, scope) ← fold_operand rows scope base;
      '(from, scope) ← fold_option rows scope from;
      '(to, scope) ← fold_option rows scope to;
      Ok (Expression.Slice base from to sp, scope)
  | Expression.Map (Expression.mkMap entries sp) =>
      '(es, scope) ← fold_operands rows scope entries.*2;
      Ok (Expression.Map (Expression.mkMap (zip entries.*1 es) sp), scope)
  | Expression.ListComprehension variable l predicate projection sp =>
      '(l, scope) ← fold_operand rows scope l;
      Ok (Expression.ListComprehension variable l predicate projection sp, scope)
  | Expression.ListPredicate k variable l predicate sp =>
      '(l, scope) ← fold_operand rows scope l;
      Ok (Expression.ListPredicate k variable l predicate sp, scope)
  | Expression.Reduce accumulator init variable l e sp =>
      '(init, scope) ← fold_operand rows scope init;
      '(l, scope) ← fold_operand rows scope l;
      Ok (Expression.Reduce accumulator init variable l e sp, scope)
  | e => Ok (e, scope)
  end.
Definition eval_around_aggregations (e : Expression) (rows : list Bindings) : Exec Value :=
  '(e, scope) ← rewrite_operands e rows;
  ev e scope.

Definition eval_with_agg_body (e : Expression) (rows : list Bindings) : Exec Value :=
  match e with
  | Expression.FunctionCall name distinct args sp =>
      if is_aggregation_name name then eval_aggregate name distinct args rows sp
      else if contains_aggregation e then eval_around_aggregations e rows
      else ev e (first_row rows)
  | Expression.Binary op lhs rhs sp => l ← evg lhs rows; r ← evg rhs rows; eval_binary op l r sp
  | Expression.Unary op e sp => v ← evg e rows; eval_unary op v sp
  | Expression.IsNull e negated _ =>
      v ← evg e rows; Ok (Value.Bool (if negated then negb (Value.is_null v) else Value.is_null v))
  | Expression.HasLabels e labels sp => v ← evg e rows; eval_has_labels v labels sp
  | Expression.In e l sp => needle ← evg e rows; haystack ← evg l rows; eval_in needle haystack sp
  | Expression.Property base name _ => v ← evg base rows; Ok (get_property v name)
  | Expression.List items _ => out ← mapM (fun e => evg e rows) items; Ok (Value.List out)
  | Expression.Case scrutinee arms else_branch _ => eval_case (fun e => evg e rows) scrutinee arms else_branch
  | e => if contains_aggregation e then eval_around_aggregations e rows else ev e (first_row rows)
  end.
End body.

Fixpoint eval_with_agg (fuel : nat) (e : Expression) (rows : list Bindings) : Exec Value :=
  match fuel with
  | O => Err Deeper
  | S fuel => eval_with_agg_body (eval_with_agg fuel) e rows
  end.
End aggregates.
