(* ===== verification/CypherAggregateSpec.v ===== *)
(** * What aggregations promise
    ([src/src/cypher/executor.rs]: [aggregate_rows], [eval_aggregate])

    Groups are a partition of the rows by their keys; [min] and [max] are the
    least and the greatest of the values. *)
From S2P Require Import Prelude CypherLexer CypherAst CypherValue CypherPipeline CypherOrder CypherCaps CypherAggregate.
Local Open Scope list_scope.
Local Open Scope Z_scope.

(** ** Groups *)
Section groups.
Context (ev : Expression -> Bindings -> Exec Value) (projections : list Expression).
Implicit Types (groups : list (list Value * list Bindings)).
Definition grouping : list Expression := List.filter (fun p => negb (contains_aggregation p)) projections.
(** What a row is grouped by. *)
Definition row_key (row : Bindings) : Exec (list Value) := mapM (fun p => ev p row) grouping.
(** [row] is in a group of key [key]: its own, or one equal to it. *)
Definition in_group (key : list Value) (row : Bindings) : Prop := exists k, row_key row = Ok k /\ (key = k \/ list_eqb value_eq key k = true).
(** Keys of which no two are equal. *)
Definition keys_differ groups : Prop := forall i j g g', (i < j)%nat -> groups !! i = Some g -> groups !! j = Some g' -> list_eqb value_eq g.1 g'.1 = false.
Definition partition groups (rows : list Bindings) : Prop :=
  concat groups.*2 ≡ₚ rows
  /\ Forall (fun g => g.2 <> [] /\ g.2 `sublist_of` rows /\ Forall (in_group g.1) g.2) groups
  /\ keys_differ groups.
Lemma sublist_more groups (rows : list Bindings) row :
  Forall (fun g => g.2 <> [] /\ g.2 `sublist_of` rows /\ Forall (in_group g.1) g.2) groups ->
  Forall (fun g => g.2 <> [] /\ g.2 `sublist_of` rows ++ [row] /\ Forall (in_group g.1) g.2) groups.
Proof. intros Hin. eapply Forall_impl; [exact Hin|]. intros g (? & Hs & ?). split; [done|]. split; [by apply sublist_inserts_r|done]. Qed.

Lemma add_partition groups rows row key : partition groups rows -> row_key row = Ok key -> partition (add_to_group groups key row) (rows ++ [row]).
Proof.
  intros (Hperm & Hin & Hdiff) Hkey. unfold add_to_group.
  destruct (list_find (fun g => list_eqb value_eq g.1 key = true) groups) as [[pos g]|] eqn:Hfind.
  - apply list_find_Some in Hfind as (Hpos & Heq & _). pose proof (take_drop_middle groups pos g Hpos) as Hsplit.
    assert (Hlt : (pos < length groups)%nat) by (by apply lookup_lt_Some in Hpos). rewrite insert_take_drop by done. split; [|split].
    + rewrite <- Hsplit, fmap_app, concat_app in Hperm. cbn in Hperm. rewrite fmap_app, concat_app. cbn. rewrite <- Hperm. solve_Permutation.
    + rewrite <- Hsplit in Hin. apply Forall_app in Hin as [Ht [(_ & Hs & Hg) Hd]%Forall_cons].
      apply Forall_app. split; [by apply sublist_more|]. constructor; [|by apply sublist_more].
      split; [by destruct (g.2)|]. split; [by apply sublist_app|]. apply Forall_app. split; [done|]. constructor; [|constructor]. exists key. split; [done|by right].
    + rewrite <- insert_take_drop by done. intros i j h h' Hij Hi Hj.
      assert (Hkeys : forall n x, <[pos := (g.1, g.2 ++ [row])]> groups !! n = Some x -> exists y, groups !! n = Some y /\ y.1 = x.1).
      { intros n x. destruct (decide (n = pos)) as [->|Hne]; [rewrite list_lookup_insert_eq by done; intros [= <-]; by exists g|].
        rewrite list_lookup_insert_ne by done. by exists x. }
      destruct (Hkeys _ _ Hi) as (y & Hy & <-), (Hkeys _ _ Hj) as (y' & Hy' & <-). by apply (Hdiff i j).
  - apply list_find_None in Hfind. split; [|split].
    + rewrite fmap_app, concat_app, Hperm. done.
    + apply Forall_app. split; [by apply sublist_more|]. constructor; [|constructor]. split; [done|]. split; [by apply sublist_inserts_l|].
      constructor; [|constructor]. exists key. split; [done|by left].
    + intros i j h h' Hij Hi Hj. apply lookup_app_Some in Hj as [Hj|[Hge Hj]].
      * apply (Hdiff i j); [done| |done]. by rewrite lookup_app_l in Hi by (apply lookup_lt_Some in Hj; lia).
      * destruct (j - length groups)%nat as [|?] eqn:E; [|done]. injection Hj as <-. rewrite lookup_app_l in Hi by lia.
        apply (proj1 (Forall_lookup _ _) Hfind) in Hi. cbn in Hi. by apply not_true_is_false.
Qed.
End groups.

(** ** [min] and [max] *)
Section extremes.
Context (k : Kind).
Lemma best_of_least best values : of_kind k best -> Forall (of_kind k) values ->
  let m := best_of Gt best values in
  m ∈ best :: values /\ Forall (fun v => compare_values m v <> Gt) (best :: values).
Proof.
  pose proof (kind_ordered k) as Hpre. intros Hb Hv. revert best Hb. induction Hv as [|v values Hv Hvs IH]; intros best Hb; cbn [best_of].
  - split; [by left|]. repeat constructor. by rewrite (pre_refl Hpre).
  - match goal with |- context [best_of _ ?x values] => set (b := x) end. assert (Hbk : of_kind k b) by (unfold b; by destruct (compare_values best v)).
    assert (Hle : compare_values b best <> Gt /\ compare_values b v <> Gt).
    { unfold b. destruct (compare_values best v) eqn:E; rewrite ?(pre_refl Hpre) by done; split; try done; try (by rewrite E).
      by rewrite (pre_gt Hpre best v). }
    destruct (IH b Hbk) as [Hin Hall]. inversion Hall as [|? ? Hmb Hrest]; subst.
    assert (Hmk : of_kind k (best_of Gt b values)). { apply elem_of_cons in Hin as [->|Hin]; [done|]. by apply (proj1 (Forall_forall _ _) Hvs). }
    split.
    + apply elem_of_cons in Hin as [Hin|Hin]; [|by do 2 right]. rewrite Hin. unfold b. destruct (compare_values best v); [by left|by left|right; by left].
    + constructor; [|constructor; [|done]]; eapply (pre_le _ _ Hpre _ b); try done; by destruct Hle.
Qed.
Lemma best_of_greatest best values : of_kind k best -> Forall (of_kind k) values ->
  let m := best_of Lt best values in
  m ∈ best :: values /\ Forall (fun v => compare_values v m <> Gt) (best :: values).
Proof.
  pose proof (kind_ordered k) as Hpre. intros Hb Hv. revert best Hb. induction Hv as [|v values Hv Hvs IH]; intros best Hb; cbn [best_of].
  - split; [by left|]. repeat constructor. by rewrite (pre_refl Hpre).
  - match goal with |- context [best_of _ ?x values] => set (b := x) end. assert (Hbk : of_kind k b) by (unfold b; by destruct (compare_values best v)).
    assert (Hle : compare_values best b <> Gt /\ compare_values v b <> Gt).
    { unfold b. destruct (compare_values best v) eqn:E; rewrite ?(pre_refl Hpre) by done; split; try done; try (by rewrite E).
      - rewrite (pre_opp _ _ Hpre best v) by done. by rewrite E.
      - by rewrite (pre_gt Hpre best v). }
    destruct (IH b Hbk) as [Hin Hall]. inversion Hall as [|? ? Hmb Hrest]; subst.
    assert (Hmk : of_kind k (best_of Lt b values)). { apply elem_of_cons in Hin as [->|Hin]; [done|]. by apply (proj1 (Forall_forall _ _) Hvs). }
    split.
    + apply elem_of_cons in Hin as [Hin|Hin]; [|by do 2 right]. rewrite Hin. unfold b. destruct (compare_values best v); [by left|right; by left|by left].
    + constructor; [|constructor; [|done]]; eapply (pre_le _ _ Hpre _ b); try done; by destruct Hle.
Qed.
(** [min] is the least and [max] the greatest.  Of values of one kind,
    nulls left out, each is one of them and no other is before it, or after;
    of none at all both are null. *)
Theorem extremes_exact values : Forall (of_kind k) values ->
  (extreme Gt [] = Value.Null /\ extreme Lt [] = Value.Null)
  /\ (values <> [] -> extreme Gt values ∈ values /\ Forall (fun v => compare_values (extreme Gt values) v <> Gt) values)
  /\ (values <> [] -> extreme Lt values ∈ values /\ Forall (fun v => compare_values v (extreme Lt values) <> Gt) values).
Proof.
  intros Hv. split; [done|]. split; intros Hne; destruct Hv as [|v values Hk Hv]; try done; [by apply best_of_least|by apply best_of_greatest].
Qed.
End extremes.

(** ** By example *)
Module Groups.
Definition look (e : Expression) (row : Bindings) : Exec Value :=
  match e with
  | Expression.Var name sp => match row !! name with Some v => Ok v | None => raise (UnboundVariable name sp) end
  | _ => Err Panic
  end.
Definition row (x y : Z) : Bindings := <[lit "x" := Value.Integer x]> {[ lit "y" := Value.Integer y ]}.
Definition x : Expression := Expression.Var (lit "x") no_span.
Lemma extremes_exact_witness : extreme Gt [Value.Integer 3; Value.Integer 1] = Value.Integer 1
  /\ Forall (fun v => compare_values (Value.Integer 1) v <> Gt) [Value.Integer 3; Value.Integer 1].
Proof.
  split; [reflexivity|]. refine (proj2 (proj1 (proj2 (extremes_exact KInteger [Value.Integer 3; Value.Integer 1] _)) _)).
  - repeat constructor.
  - done.
Defined.
End Groups.
