(* ===== verification/CypherValidate.v ===== *)
(** * The sweep before a query runs
    ([src/src/cypher/executor.rs]: [validate_clause_supported] and the functions it calls)

    What the executor does not support is refused before the first clause runs.
    The procedures are those of a build with the [http] feature, the default. *)
From S2P Require Import Prelude CypherLexer CypherAst CypherParser CypherRegex CypherValue CypherPipeline CypherFunctions CypherEval.
Local Open Scope list_scope.
Local Open Scope Z_scope.

(** ** Procedures *)
Definition column_table : list (list string * list string) := [
  (["db.labels"], ["label"]);
  (["db.relationshipTypes"], ["relationshipType"]);
  (["db.propertyKeys"], ["propertyKey"]);
  (["drevo.vector.query"], ["node"; "score"]);
  (["drevo.semantic.query"], ["node"; "score"]);
  (["drevo.semantic.embed"], ["vector"]);
  (["drevo.semantic.reindex"], ["scanned"; "embedded"; "skipped"; "remaining"]);
  (["drevo.semantic.queryRel"], ["rel"; "score"]);
  (["drevo.semantic.reindexRel"], ["scanned"; "embedded"; "skipped"; "remaining"]);
  (["drevo.semantic.register"; "drevo.semantic.registerRel"], ["label"; "text_property"; "embedding_property"; "state"; "mode"]);
  (["drevo.tx.listPrepared"], ["gid"; "preparedAt"; "opCount"]);
  (["drevo.indexes.secondary"; "drevo.indexes.setSecondary"], ["enabled"]);
  (["drevo.sequence.create"; "drevo.sequence.drop"; "drevo.sequence.list"], ["name"; "start"; "step"; "current"]);
  (["apoc.trigger.install"; "apoc.trigger.add"; "apoc.trigger.list"; "apoc.trigger.drop"; "apoc.trigger.remove"; "apoc.trigger.dropAll";
    "apoc.trigger.removeAll"; "apoc.trigger.stop"; "apoc.trigger.pause"; "apoc.trigger.start"; "apoc.trigger.resume"], ["name"; "query";
    "selector"; "params"; "installed"; "paused"]);
  (["drevo.events.post"], ["name"]);
  (["drevo.tx.commitPrepared"; "drevo.tx.rollbackPrepared"; "drevo.tx.heuristicRollback"; "drevo.tx.prepare"], ["gid"]);
  (["drevo.semantic.status"], ["label"; "text_property"; "embedding_property"; "state"; "mode"; "pending_count"; "failed_count";
    "last_error"; "target_kind"]);
  (["drevo.semantic.info"], ["embedder_present"; "model"; "dimension"; "upstream"]);
  (["drevo.info"], ["version"; "git_sha"; "build_date"; "protocol"]);
  (["drevo.pagerank"], ["node"; "score"]);
  (["drevo.louvain"], ["node"; "community"]);
  (["drevo.wcc"], ["node"; "component"]);
  (["drevo.scc"], ["node"; "component"]);
  (["drevo.triangles"], ["node"; "triangles"; "coefficient"]);
  (["drevo.betweenness"], ["node"; "score"]);
  (["drevo.closeness"], ["node"; "score"]);
  (["drevo.ricciCurvature"], ["from"; "to"; "curvature"]);
  (["drevo.stableMatching"], ["proposer"; "acceptor"; "proposerRank"; "acceptorRank"]);
  (["drevo.path.weighted"], ["path"; "cost"]);
  (["drevo.path.timetable"], ["arriveAt"; "departAt"; "transfers"; "legs"]);
  (["drevo.path.reachable"], ["node"; "cost"; "path"]);
  (["drevo.spatial.nearest"], ["node"; "meters"]);
  (["drevo.text.fuzzy"], ["node"; "distance"]);
  (["drevo.engine.status"], ["engine"; "mirror_fresh"; "native_hits"; "kv_fallbacks"; "kv_routed"; "rebuild_errors"]);
  (["fts.search"], ["node"; "score"]);
  (["fts.searchRelationships"], ["rel"; "score"]);
  (["db.index.vector.queryNodes"; "db.index.fulltext.queryNodes"], ["node"; "score"]);
  (["db.index.vector.queryRelationships"], ["relationship"; "score"]);
  (["dbms.showTransactions"], ["database"; "transactionId"; "currentQueryId"; "connectionId"; "clientAddress"; "username";
    "currentQuery"; "startTime"; "status"; "elapsedTime"; "protocol"; "isExplicit"; "elapsedTimeMillis";
    "currentQueryElapsedTimeMillis"; "bufferedWrites"]);
  (["dbms.terminateTransactions"], ["transactionId"; "username"; "message"]);
  (["dbms.listConnections"], ["connectionId"; "connectTime"; "connector"; "username"; "userAgent"; "clientAddress"]);
  (["dbms.killConnections"], ["connectionId"; "username"; "message"]);
  (["db.showIndexes"], ["id"; "name"; "state"; "populationPercent"; "type"; "entityType"; "labelsOrTypes"; "properties";
    "indexProvider"; "owningConstraint"; "options"]);
  (["db.showConstraints"], ["id"; "name"; "type"; "entityType"; "labelsOrTypes"; "properties"; "ownedIndex"; "propertyType"]);
  (["drevo.memory.recall"], ["node"; "score"]);
  (["drevo.memory.recallVector"], ["node"; "score"]);
  (["drevo.memory.recallSemantic"], ["node"; "score"]);
  (["drevo.memory.getConversation"], ["node"]);
  (["drevo.memory.addMessage"; "drevo.memory.recordReasoning"], ["node"]);
  (["drevo.memory.rememberEntity"], ["node"]);
  (["drevo.memory.assertFact"; "drevo.memory.retractFact"], ["rel"]);
  (["drevo.memory.factsAt"], ["subject"; "relation"; "object"; "valid_from"; "valid_until"]);
  (["drevo.cypher.fromText"], ["cypher"])
]%string.
Definition arity_table : list (list string * nat) := [
  (["drevo.vector.query"], 4%nat);
  (["drevo.semantic.query"], 4%nat);
  (["drevo.semantic.embed"], 1%nat);
  (["drevo.semantic.reindex"], 3%nat);
  (["drevo.semantic.info"], 0%nat);
  (["drevo.semantic.registerRel"], 4%nat);
  (["drevo.semantic.queryRel"], 4%nat);
  (["drevo.semantic.reindexRel"], 3%nat);
  (["drevo.semantic.register"], 4%nat);
  (["drevo.semantic.status"], 0%nat);
  (["drevo.tx.listPrepared"], 0%nat);
  (["drevo.indexes.secondary"], 0%nat);
  (["drevo.indexes.setSecondary"], 1%nat);
  (["apoc.trigger.install"], 5%nat);
  (["apoc.trigger.add"], 4%nat);
  (["apoc.trigger.drop"; "apoc.trigger.stop"; "apoc.trigger.start"], 2%nat);
  (["apoc.trigger.dropAll"; "apoc.trigger.remove"; "apoc.trigger.pause"; "apoc.trigger.resume"], 1%nat);
  (["apoc.trigger.list"; "apoc.trigger.removeAll"], 0%nat);
  (["drevo.sequence.create"], 2%nat);
  (["drevo.sequence.drop"], 1%nat);
  (["drevo.sequence.list"], 0%nat);
  (["drevo.events.post"], 2%nat);
  (["drevo.tx.commitPrepared"; "drevo.tx.rollbackPrepared"; "drevo.tx.heuristicRollback"; "drevo.tx.prepare"], 1%nat);
  (["drevo.info"], 0%nat);
  (["drevo.pagerank"], 0%nat);
  (["drevo.louvain"], 0%nat);
  (["drevo.wcc"], 0%nat);
  (["drevo.scc"], 0%nat);
  (["drevo.triangles"], 0%nat);
  (["drevo.betweenness"], 0%nat);
  (["drevo.closeness"], 0%nat);
  (["drevo.ricciCurvature"], 0%nat);
  (["drevo.stableMatching"], 4%nat);
  (["drevo.path.weighted"], 3%nat);
  (["drevo.path.timetable"], 3%nat);
  (["drevo.path.reachable"], 2%nat);
  (["drevo.spatial.nearest"], 3%nat);
  (["drevo.text.fuzzy"], 3%nat);
  (["drevo.engine.status"], 0%nat);
  (["fts.search"; "fts.searchRelationships"], 2%nat);
  (["db.index.vector.queryNodes"], 3%nat);
  (["db.index.fulltext.queryNodes"], 2%nat);
  (["db.index.vector.queryRelationships"], 3%nat);
  (["db.showIndexes"; "db.showConstraints"], 1%nat);
  (["dbms.showTransactions"; "dbms.terminateTransactions"], 1%nat);
  (["dbms.listConnections"], 0%nat);
  (["dbms.killConnections"], 1%nat);
  (["drevo.memory.recall"], 3%nat);
  (["drevo.memory.recallVector"], 3%nat);
  (["drevo.memory.recallSemantic"], 3%nat);
  (["drevo.memory.getConversation"], 2%nat);
  (["drevo.memory.addMessage"], 3%nat);
  (["drevo.memory.recordReasoning"], 4%nat);
  (["drevo.memory.rememberEntity"], 4%nat);
  (["drevo.memory.assertFact"], 4%nat);
  (["drevo.memory.retractFact"], 3%nat);
  (["drevo.memory.factsAt"], 2%nat);
  (["drevo.cypher.fromText"], 1%nat);
  (["_"], 0%nat)
]%string.
Definition has_name (names : list string) (name : text) : bool := existsb (fun w => bool_decide (name = lit w)) names.
Definition procedure_columns (name : text) : option (list string) := snd <$> find (fun row => has_name row.1 name) column_table.
Definition procedure_arity (name : text) : nat :=
  match find (fun row => has_name row.1 name) arity_table with Some row => row.2 | None => 0 end.
Definition procedure_optional_args (name : text) : nat :=
  if has_name ["apoc.trigger.install"; "apoc.trigger.add"; "drevo.sequence.create"; "drevo.spatial.nearest"]%string name then 1 else 0.

(** ** Expressions *)
(** The first that is refused refuses all. *)
Section all.
Context {A : Type} (f : A -> Exec unit).
Fixpoint check_all (l : list A) : Exec unit := match l with [] => Ok tt | x :: l => _ ← f x; check_all l end.
Definition check_option (o : option A) : Exec unit := match o with Some x => f x | None => Ok tt end.
End all.

Definition is_scalar_function_name (name : list text) : bool :=
  match name with
  | [n] =>
      let lower := Regex.to_ascii_lowercase <$> n in
      has_name ["similar"; "keywords"; "startnode"; "endnode"]%string lower || is_builtin_scalar_function lower
  | _ =>
      let lower := Regex.to_ascii_lowercase <$> join (lit ".") name in
      is_sequence_function lower || is_builtin_scalar_function lower
  end.
Definition unsupported_call {A} (name : list text) (sp : Span) : Exec A :=
  raise (Unsupported (lit "function call `" ++ join (lit ".") name ++ lit "`") sp).
Definition star_alone {A} (sp : Span) : Exec A := raise (Unsupported (lit "`*` outside `count(*)`") sp).

Fixpoint validate_expr_supported (e : Expression) : Exec unit :=
  match e with
  | Expression.FunctionCall name _ args sp =>
      if is_scalar_function_name name then check_all validate_expr_supported args else unsupported_call name sp
  | Expression.Case scrutinee arms else_branch _ =>
      _ ← check_option validate_expr_supported scrutinee;
      _ ← check_all (fun '(w, t) => _ ← validate_expr_supported w; validate_expr_supported t) arms;
      check_option validate_expr_supported else_branch
  | Expression.Star sp => star_alone sp
  | Expression.Index base index _ => _ ← validate_expr_supported base; validate_expr_supported index
  | Expression.Slice base from to _ =>
      _ ← validate_expr_supported base;
      _ ← check_option validate_expr_supported from;
      check_option validate_expr_supported to
  | Expression.Binary _ lhs rhs _ => _ ← validate_expr_supported lhs; validate_expr_supported rhs
  | Expression.Unary _ e _ | Expression.IsNull e _ _ | Expression.HasLabels e _ _ => validate_expr_supported e
  | Expression.In e l _ => _ ← validate_expr_supported e; validate_expr_supported l
  | Expression.Property base _ _ => validate_expr_supported base
  | Expression.List items _ => check_all validate_expr_supported items
  | Expression.Map (Expression.mkMap entries _) => check_all (fun '(_, e) => validate_expr_supported e) entries
  | Expression.ListComprehension _ l predicate projection _ =>
      _ ← validate_expr_supported l;
      _ ← check_option validate_expr_supported predicate;
      check_option validate_expr_supported projection
  | Expression.ListPredicate _ _ l predicate _ => _ ← validate_expr_supported l; validate_expr_supported predicate
  | Expression.Reduce _ init _ l e _ =>
      _ ← validate_expr_supported init; _ ← validate_expr_supported l; validate_expr_supported e
  | Expression.MapProjection base selectors _ =>
      _ ← validate_expr_supported base;
      check_all (fun s => match s with Expression.SelLiteral _ e => validate_expr_supported e | _ => Ok tt end) selectors
  | Expression.PatternComprehension _ predicate projection _ =>
      _ ← check_option validate_expr_supported predicate; validate_expr_supported projection
  | Expression.ExistsSubquery _ predicate _ | Expression.CountSubquery _ predicate _ => check_option validate_expr_supported predicate
  | Expression.PatternPredicate _ _ | Expression.Integer _ _ | Expression.Float _ _ | Expression.String _ _ | Expression.True_ _
  | Expression.False_ _ | Expression.Null _ | Expression.Var _ _ | Expression.Param _ _ => Ok tt
  end.

Definition is_percentile_aggregation (lower : text) : bool := has_name ["percentilecont"; "percentiledisc"]%string lower.
Definition validate_aggregation (name : list text) (distinct : bool) (args : list Expression) : Exec unit :=
  let lower := Regex.to_ascii_lowercase <$> hd [] name in
  if bool_decide (lower = lit "count") && match args with [Expression.Star _] => true | _ => false end then
    if distinct then raise (InvalidMutation (lit "DISTINCT is not allowed with count(*)")) else Ok tt
  else
    let expected_arity := if is_percentile_aggregation lower then 2%nat else 1%nat in
    if negb (length args =? expected_arity)%nat then
      raise (InvalidMutation (lit "aggregate `" ++ lower ++ lit "` takes exactly " ++ nat_text expected_arity ++ lit " argument"
        ++ (if (expected_arity =? 1)%nat then [] else lit "s")))
    else if existsb contains_aggregation args then
      raise (InvalidMutation (lit "nested aggregations are not allowed inside `" ++ lower ++ lit "`"))
    else check_all validate_expr_supported args.
Fixpoint validate_expr_supported_in_projection (e : Expression) : Exec unit :=
  match e with
  | Expression.FunctionCall name distinct args sp =>
      if negb (is_aggregation_name name) then
        if is_scalar_function_name name then check_all validate_expr_supported_in_projection args else unsupported_call name sp
      else validate_aggregation name distinct args
  | Expression.Star sp => star_alone sp
  | Expression.Binary _ lhs rhs _ => _ ← validate_expr_supported_in_projection lhs; validate_expr_supported_in_projection rhs
  | Expression.Unary _ e _ | Expression.IsNull e _ _ | Expression.HasLabels e _ _ => validate_expr_supported_in_projection e
  | Expression.In e l _ => _ ← validate_expr_supported_in_projection e; validate_expr_supported_in_projection l
  | Expression.Property base _ _ => validate_expr_supported_in_projection base
  | Expression.List items _ => check_all validate_expr_supported_in_projection items
  | Expression.Map (Expression.mkMap entries _) => check_all (fun '(_, e) => validate_expr_supported_in_projection e) entries
  | Expression.Case scrutinee arms else_branch _ =>
      _ ← check_option validate_expr_supported_in_projection scrutinee;
      _ ← check_all (fun '(w, t) => _ ← validate_expr_supported_in_projection w; validate_expr_supported_in_projection t) arms;
      check_option validate_expr_supported_in_projection else_branch
  | Expression.Index base index _ => _ ← validate_expr_supported_in_projection base; validate_expr_supported_in_projection index
  | Expression.Slice base from to _ =>
      _ ← validate_expr_supported_in_projection base;
      _ ← check_option validate_expr_supported_in_projection from;
      check_option validate_expr_supported_in_projection to
  | Expression.ListComprehension _ l predicate projection _ =>
      _ ← validate_expr_supported_in_projection l;
      _ ← check_option validate_expr_supported predicate;
      check_option validate_expr_supported projection
  | Expression.ListPredicate _ _ l predicate _ => _ ← validate_expr_supported_in_projection l; validate_expr_supported predicate
  | Expression.Reduce _ init _ l e _ =>
      _ ← validate_expr_supported_in_projection init; _ ← validate_expr_supported_in_projection l; validate_expr_supported e
  | Expression.MapProjection base selectors _ =>
      _ ← validate_expr_supported base;
      check_all (fun s => match s with Expression.SelLiteral _ e => validate_expr_supported e | _ => Ok tt end) selectors
  | Expression.PatternComprehension _ predicate projection _ =>
      _ ← check_option validate_expr_supported predicate; validate_expr_supported projection
  | Expression.ExistsSubquery _ predicate _ | Expression.CountSubquery _ predicate _ => check_option validate_expr_supported predicate
  | Expression.PatternPredicate _ _ | Expression.Integer _ _ | Expression.Float _ _ | Expression.String _ _ | Expression.True_ _
  | Expression.False_ _ | Expression.Null _ | Expression.Var _ _ | Expression.Param _ _ => Ok tt
  end.

(** ** Patterns *)
Definition validate_varlen_bounds (len : RelLength) : Exec unit :=
  match len with
  | AnyLength => Ok tt
  | Exact n =>
      if n <? 0 then raise (InvalidMutation (lit "variable-length range [*" ++ integer_text n ++ lit "] must be non-negative")) else Ok tt
  | RangeLength from to =>
      let lo := default 1 from in
      if lo <? 0 then
        raise (InvalidMutation (lit "variable-length range [*" ++ integer_text lo ++ lit "..] must have non-negative lower bound"))
      else
        match to with
        | None => Ok tt
        | Some hi =>
            if hi <? lo then
              raise (InvalidMutation (lit "variable-length range [*" ++ integer_text lo ++ lit ".." ++ integer_text hi
                ++ lit "] is invalid: lower bound exceeds upper"))
            else if hi <? 0 then
              raise (InvalidMutation (lit "variable-length range [*.." ++ integer_text hi ++ lit "] must have non-negative upper bound"))
            else Ok tt
        end
  end.
Definition validate_entries (properties : option MapLiteral) : Exec unit :=
  match properties with
  | Some (Expression.mkMap entries _) => check_all (fun '(_, e) => validate_expr_supported e) entries
  | None => Ok tt
  end.
Definition validate_segment (creating : bool) (segment : PathSegment) : Exec unit :=
  match segment with
  | Expression.mkSegment (Expression.mkRelationship _ _ _ len rel_properties sp) (Expression.mkNode _ _ _ properties _) =>
      _ ← (if creating && match len with None | Some (Exact 1) => false | Some _ => true end then
             raise (Unsupported (lit "variable-length CREATE") sp)
           else Ok tt);
      _ ← (if creating then Ok tt else check_option validate_varlen_bounds len);
      _ ← validate_entries rel_properties;
      validate_entries properties
  end.
Definition validate_path_supported (path : PathPattern) (creating : bool) : Exec unit :=
  match path with
  | Expression.mkPath (Expression.mkNode _ _ _ properties _) tail =>
      _ ← validate_entries properties; check_all (validate_segment creating) tail
  end.
Definition shortest_fn_name (k : ShortestKind) : text :=
  match k with ShortestSingle => lit "shortestPath" | ShortestAll => lit "allShortestPaths" end.
Definition not_one_segment {A} (k : ShortestKind) (path : PathPattern) : Exec A :=
  match path with
  | Expression.mkPath head _ =>
      fn_err (shortest_fn_name k) (lit "requires exactly one relationship between two nodes") (Expression.node_span head)
  end.
Definition not_varlen {A} (k : ShortestKind) (sp : Span) : Exec A :=
  fn_err (shortest_fn_name k) (lit "requires a variable-length relationship, e.g. -[*]-") sp.
Definition validate_shortest_supported (pattern : NamedPattern) : Exec unit :=
  match np_shortest pattern with
  | None => Ok tt
  | Some k =>
      match Expression.path_tail (np_path pattern) with
      | [Expression.mkSegment (Expression.mkRelationship _ _ _ len _ sp) _] =>
          match len with None => not_varlen k sp | Some _ => Ok tt end
      | _ => not_one_segment k (np_path pattern)
      end
  end.
Definition validate_set_item_supported (item : SetItem) : Exec unit :=
  match item with
  | SetProperty target value | SetReplace target value | SetMerge target value =>
      _ ← validate_expr_supported target; validate_expr_supported value
  | SetLabels target _ => validate_expr_supported target
  end.

(** ** Clauses *)
Definition validate_order (order_by : list OrderItem) (skip limit : option Expression) : Exec unit :=
  _ ← check_all (fun item => validate_expr_supported (oi_expression item)) order_by;
  _ ← check_option validate_expr_supported skip;
  check_option validate_expr_supported limit.
Definition validate_with_item (item : ProjectionItem) : Exec unit :=
  match item with
  | ProjectStar => Ok tt
  | ProjectExpression e alias =>
      let named := match alias, e with None, Expression.Var _ _ => true | None, _ => false | Some _, _ => true end in
      if negb named then
        raise (InvalidMutation (lit "WITH projection requires an alias for non-variable expression (use `expr AS name`)"))
      else validate_expr_supported_in_projection e
  end.
Definition no_such_procedure : text :=
  lit "no such procedure " ++ [8212%N] ++ lit " "
  ++ lit "built-in procedures are db.labels, db.relationshipTypes, db.propertyKeys, drevo.vector.query, "
  ++ lit "drevo.semantic.query, drevo.semantic.embed, drevo.semantic.reindex, drevo.semantic.register, "
  ++ lit "drevo.semantic.status, drevo.semantic.info, drevo.info, drevo.tx.prepare, drevo.tx.commitPrepared, "
  ++ lit "drevo.tx.rollbackPrepared, drevo.tx.listPrepared, drevo.tx.heuristicRollback, drevo.semantic.registerRel, "
  ++ lit "drevo.semantic.queryRel, drevo.semantic.reindexRel, drevo.cypher.fromText, db.index.vector.queryNodes, "
  ++ lit "db.index.fulltext.queryNodes, db.index.vector.queryRelationships, db.showIndexes (SHOW INDEXES), "
  ++ lit "db.showConstraints (SHOW CONSTRAINTS), drevo.memory.recall, drevo.memory.recallVector, "
  ++ lit "drevo.memory.recallSemantic, drevo.memory.getConversation, drevo.memory.addMessage, "
  ++ lit "drevo.memory.recordReasoning, drevo.memory.rememberEntity, drevo.memory.assertFact, drevo.memory.retractFact, "
  ++ lit "drevo.memory.factsAt, drevo.events.post, apoc.trigger.install, apoc.trigger.list, apoc.trigger.drop, "
  ++ lit "apoc.trigger.dropAll, apoc.trigger.stop, apoc.trigger.start, drevo.sequence.create, drevo.sequence.drop, "
  ++ lit "drevo.sequence.list, drevo.indexes.secondary, drevo.indexes.setSecondary, fts.search, fts.searchRelationships".
Definition yield_exists (name : text) (columns : list string) (item : YieldItem) : Exec unit :=
  if has_name columns (yi_name item) then Ok tt
  else
    raise (InvalidProcedureCall name (lit "procedure does not yield a column `" ++ yi_name item ++ lit "` (available: "
      ++ join (lit ", ") (lit <$> columns) ++ lit ")") (yi_span item)).
Definition validate_call (name : list text) (args : list Expression) (yields : option (list YieldItem)) (where_clause : option Expression)
    (sp : Span) : Exec unit :=
  _ ← check_all validate_expr_supported args;
  let name := join (lit ".") name in
  match procedure_columns name with
  | None => raise (InvalidProcedureCall name no_such_procedure sp)
  | Some columns =>
      let expected_args := procedure_arity name in
      let required_args := (expected_args - procedure_optional_args name)%nat in
      if negb ((required_args <=? length args) && (length args <=? expected_args))%nat then
        let expected :=
          if (required_args =? expected_args)%nat then nat_text expected_args
          else nat_text required_args ++ lit " or " ++ nat_text expected_args in
        raise (InvalidProcedureCall name (lit "expected " ++ expected ++ lit " arguments, got " ++ nat_text (length args)) sp)
      else
        _ ← check_option (check_all (yield_exists name columns)) yields;
        check_option validate_expr_supported where_clause
  end.
Fixpoint validate_clause_supported (c : Clause) : Exec unit :=
  match c with
  | Clause.Match _ patterns where_clause _ =>
      _ ← check_option validate_expr_supported where_clause;
      check_all (fun p => _ ← validate_shortest_supported p; validate_path_supported (np_path p) false) patterns
  | Clause.Create patterns _ => check_all (fun p => validate_path_supported (np_path p) true) patterns
  | Clause.Return _ items order_by skip limit _ =>
      _ ← check_all (fun item => match item with ProjectExpression e _ => validate_expr_supported_in_projection e | ProjectStar => Ok tt end) items;
      validate_order order_by skip limit
  | Clause.Merge pattern on_create on_match _ =>
      _ ← validate_path_supported (np_path pattern) true;
      check_all validate_set_item_supported (on_create ++ on_match)
  | Clause.Delete _ targets _ => check_all validate_expr_supported targets
  | Clause.Set_ items _ => check_all validate_set_item_supported items
  | Clause.Remove items _ =>
      check_all (fun item => match item with RemoveProperty e => validate_expr_supported e | RemoveLabels e _ => validate_expr_supported e end) items
  | Clause.With _ items order_by skip limit where_clause _ =>
      _ ← check_all validate_with_item items;
      _ ← validate_order order_by skip limit;
      check_option validate_expr_supported where_clause
  | Clause.Unwind e _ _ => validate_expr_supported e
  | Clause.Foreach _ l clauses _ => _ ← validate_expr_supported l; check_all validate_clause_supported clauses
  | Clause.Call name args yields where_clause sp => validate_call name args yields where_clause sp
  | Clause.Search_ _ _ _ query_vector where_clause limit _ _ =>
      _ ← validate_expr_supported query_vector;
      _ ← check_option validate_expr_supported where_clause;
      validate_expr_supported limit
  | Clause.CreateVectorIndex _ _ _ _ _ _ | Clause.CreatePathIndex _ _ _ _ _ _ | Clause.DropIndex _ _ _ | Clause.CreateConstraint _
  | Clause.DropConstraint _ _ _ | Clause.SchemaNoop _ _ => Ok tt
  end.
Definition first_clause_span (clauses : list Clause) : Span :=
  match clauses with
  | [] => no_span
  | c :: _ =>
      match c with
      | Clause.Match _ _ _ sp | Clause.Create _ sp | Clause.Merge _ _ _ sp | Clause.Delete _ _ sp | Clause.Set_ _ sp | Clause.Remove _ sp
      | Clause.With _ _ _ _ _ _ sp | Clause.Return _ _ _ _ _ sp | Clause.Unwind _ _ sp | Clause.Foreach _ _ _ sp | Clause.Call _ _ _ _ sp
      | Clause.Search_ _ _ _ _ _ _ _ sp | Clause.CreateVectorIndex _ _ _ _ _ sp | Clause.CreatePathIndex _ _ _ _ _ sp
      | Clause.DropIndex _ _ sp | Clause.DropConstraint _ _ sp | Clause.SchemaNoop _ sp => sp
      | Clause.CreateConstraint c => cc_span c
      end
  end.
