(* ===== verification/CypherShortest.v ===== *)
(** * Shortest paths
    ([src/src/cypher/executor.rs]: [match_shortest_pattern], [bfs_shortest_from], [bfs_shortest_paths])

    A [shortestPath] or [allShortestPaths] pattern: one breadth-first pass from
    a source answers every target at once, a search over trails the shapes it
    does not cover. *)
From S2P Require Import Prelude CypherLexer CypherAst CypherParser CypherValue CypherPipeline CypherFunctions CypherMatch CypherValidate.
Local Open Scope list_scope.
Local Open Scope Z_scope.

(** The relationships of a path and the nodes after its first. *)
Abbreviation ShortestPath := (list RelationshipValue * list NodeValue)%type.
(** A node the pass has reached: how deep, what it is, and the hops that lead to it. *)
Record Reached : Type := mkReached { r_depth : nat; r_value : NodeValue; r_preds : list (N * RelationshipValue) }.
Record Pass : Type := mkPass { p_seen : gmap N Reached; p_remaining : Z; p_next : list N }.
Definition is_single (k : ShortestKind) : bool := match k with ShortestSingle => true | ShortestAll => false end.

Section shortest.
Context `{!GraphEngine, !View, !Indexes}.
Context (ev : Expression -> Bindings -> Exec Value).

Section pass.
Context (wanted : gset N) (rel : RelationshipPattern) (existing : Bindings) (k : ShortestKind).
(** One relationship of a node of the layer before [depth]. *)
Definition visit_edge (depth : nat) (from : N) (edge : RelationshipValue) (s : Pass) : Exec Pass :=
  if negb (follows (rel_direction rel) from edge) then Ok s
  else
    let to := other_end from edge in
    let reached := p_seen s !! to in
    if match reached with Some r => (r_depth r <? depth)%nat || is_single k | None => false end then Ok s
    else
      found ← edge_matches_pattern ev edge rel existing;
      if negb (found : bool) then Ok s
      else if negb (edge_traversable edge) then Ok s
      else
        let pred := (from, redact_relationship edge) in
        match reached with
        | Some r => Ok (mkPass (<[to := mkReached (r_depth r) (r_value r) (r_preds r ++ [pred])]> (p_seen s)) (p_remaining s) (p_next s))
        | None =>
            node ← seen_target to;
            Ok match node with
               | None => s
               | Some nv =>
                   mkPass (<[to := mkReached depth nv [pred]]> (p_seen s))
                     (if bool_decide (to ∈ wanted) then p_remaining s - 1 else p_remaining s) (p_next s ++ [to])
               end
        end.
Fixpoint visit_edges (depth : nat) (from : N) (edges : list RelationshipValue) (s : Pass) : Exec Pass :=
  match edges with
  | [] => Ok s
  | edge :: edges => s ← visit_edge depth from edge s; visit_edges depth from edges s
  end.
Fixpoint visit_layer (depth : nat) (frontier : list N) (s : Pass) : Exec Pass :=
  match frontier with
  | [] => Ok s
  | from :: frontier =>
      edges ← edges_of from (rel_direction rel);
      s ← visit_edges depth from edges s;
      visit_layer depth frontier s
  end.
(** The layers after [depth], at most [more] of them. *)
Fixpoint pass_layers (more depth : nat) (frontier : list N) (seen : gmap N Reached) (remaining : Z) : Exec (gmap N Reached) :=
  match more with
  | O => Ok seen
  | S more =>
      if is_empty frontier || (remaining <=? 0) then Ok seen
      else
        s ← visit_layer (S depth) frontier (mkPass seen remaining []);
        pass_layers more (S depth) (p_next s) (p_seen s) (p_remaining s)
  end.
(** The paths back to the source, by the hops that lead to each node, in the
    order they were found; a node is [depth] hops away. *)
Fixpoint paths_back (depth : nat) (seen : gmap N Reached) (source node : N) (rels : list RelationshipValue) (nodes : list NodeValue) :
    list ShortestPath :=
  if (node =? source)%N then [(rels, nodes)]
  else
    match depth, seen !! node with
    | S depth, Some r =>
        flat_map (fun pred => paths_back depth seen source pred.1 (pred.2 :: rels) (r_value r :: nodes)) (r_preds r)
    | _, _ => []
    end.
Definition rebuilt (seen : gmap N Reached) (source target : N) : list ShortestPath :=
  match seen !! target with
  | None => []
  | Some r =>
      let paths := paths_back (r_depth r) seen source target [] [] in
      if is_single k then take 1 paths else paths
  end.
(** The paths by target. *)
Definition bfs_shortest_from (source : NodeValue) (upper : nat) : Exec (N -> list ShortestPath) :=
  let id := Value.node_id source in
  seen ← pass_layers upper 0 [id] {[ id := mkReached 0 source [] ]} (Z.of_nat (size wanted));
  Ok (rebuilt seen id).
End pass.

(** ** The search over trails *)
Fixpoint trail_levels (more depth lower : nat) (rel : RelationshipPattern) (existing : Bindings) (k : ShortestKind) (target : N)
    (frontier : list Trail) : Exec (list ShortestPath) :=
  let found :=
    if (lower <=? depth)%nat then
      (fun t => (tr_edges t, tr_nodes t)) <$> List.filter (fun t => Value.node_id (tr_node t) =? target)%N frontier
    else [] in
  match found with
  | _ :: _ => Ok (if is_single k then take 1 found else found)
  | [] =>
      match more with
      | O => Ok []
      | S more =>
          next ← concat_map (expand ev rel existing) frontier;
          match next with
          | [] => Ok []
          | _ => trail_levels more (S depth) lower rel existing k target next
          end
      end
  end.
Definition bfs_shortest_paths (source target : NodeValue) (rel : RelationshipPattern) (existing : Bindings) (lower upper : nat)
    (k : ShortestKind) : Exec (list ShortestPath) :=
  trail_levels upper 0 lower rel existing k (Value.node_id target) [mkTrail source [] [] []].

(** ** The pattern *)
Definition shortest_row (variable : option text) (rel : RelationshipPattern) (target_pattern : NodePattern) (source target : NodeValue)
    (row : Bindings) (found : ShortestPath) : Bindings :=
  let '(rels, nodes) := found in
  let row := match node_variable target_pattern with Some name => <[name := Value.Node target]> row | None => row end in
  let row := match rel_variable rel with Some name => <[name := Value.List (Value.Relationship <$> rels)]> row | None => row end in
  match variable with Some var => <[var := Value.Path (source :: nodes) rels]> row | None => row end.
(** The nodes the path may end at; [None] when the one it must end at does not match. *)
Definition shortest_targets (st : Statement) (target : NodePattern) (row : Bindings) : Exec (option (list NodeValue)) :=
  match node_variable target ≫= (fun name => row !! name) with
  | Some (Value.Node nv) =>
      found ← node_matches_pattern ev nv target row;
      Ok (if found : bool then Some [nv] else None)
  | Some other => Value.mismatch "Node" other (Expression.node_span target)
  | None => Some <$> enumerate_nodes ev st target row
  end.
Definition match_from (st : Statement) (variable : option text) (rel : RelationshipPattern) (target : NodePattern) (k : ShortestKind)
    (lower upper : nat) (row : Bindings) (source : NodeValue) : Exec (list Bindings) :=
  targets ← shortest_targets st target row;
  match targets with
  | None => Ok []
  | Some targets =>
      let source_id := Value.node_id source in
      let wanted := list_to_set (List.filter (fun id => negb (id =? source_id)%N) (List.map Value.node_id targets)) : gset N in
      shared ← (if (lower <=? 1)%nat then Some <$> bfs_shortest_from wanted rel row k source upper else Ok None);
      concat_map (fun t =>
        let found : Exec (list ShortestPath) :=
          match shared with
          | Some by_target =>
              if (Value.node_id t =? source_id)%N then bfs_shortest_paths source t rel row lower upper k
              else Ok (by_target (Value.node_id t))
          | None => bfs_shortest_paths source t rel row lower upper k
          end in
        found ← found;
        Ok (List.map (shortest_row variable rel target source t row) found)) targets
  end.
Definition match_shortest_pattern (st : Statement) (pattern : NamedPattern) (k : ShortestKind) (existing : Bindings) : Exec (list Bindings) :=
  match np_path pattern with
  | Expression.mkPath head [Expression.mkSegment rel target] =>
      let bounds :=
        match rel_length rel with
        | None => None
        | Some (Exact n) => Some (n, Some n)
        | Some AnyLength => Some (1, None)
        | Some (RangeLength from to) => Some (default 1 from, to)
        end in
      match bounds with
      | None => not_varlen k (rel_span rel)
      | Some (lo, hi) =>
          let upper := match hi with Some h => Z.to_nat h | None => VARLEN_DEFAULT_UPPER end in
          heads ← match_head ev st head existing false;
          concat_map (fun '(row, source) => match_from st (np_variable pattern) rel target k (Z.to_nat lo) upper row source) heads
      end
  | path => not_one_segment k path
  end.
End shortest.
