(* ===== verification/CypherRun.v ===== *)
(** * Running a query that reads
    ([src/src/cypher/executor.rs]: [run_match], [run_clause], [execute_single], [execute_inner])

    The clauses [MATCH], [UNWIND], [WITH] and [RETURN] over the rows of the
    query, what the clause after a [MATCH] lets it leave out, the count that
    needs no rows, and [UNION].  A clause that writes or calls is not run here:
    of a query with one, [run_clause] says nothing. *)
From S2P Require Import Prelude CypherLexer CypherAst CypherParser CypherValue CypherPipeline CypherCaps CypherFunctions CypherMatch CypherEval CypherAggregate CypherValidate CypherShortest.
Local Open Scope list_scope.
Local Open Scope Z_scope.

(** ** [OPTIONAL MATCH] *)
Definition push_unique (name : option text) (out : list text) : list text :=
  match name with
  | Some n => if existsb (fun m => bool_decide (m = n)) out then out else out ++ [n]
  | None => out
  end.
Definition collect_pattern_variables (patterns : list NamedPattern) : list text :=
  foldl (fun out p =>
    match np_path p with
    | Expression.mkPath head tail =>
        foldl (fun out segment =>
          match segment with Expression.mkSegment rel target => push_unique (node_variable target) (push_unique (rel_variable rel) out) end)
          (push_unique (node_variable head) out) tail
    end) [] patterns.
Definition synthesise_null_row (existing : Bindings) (new_variables : list text) : Bindings :=
  add_missing existing ((fun name => (name, Value.Null)) <$> new_variables).

(** ** The state *)
Record Executor : Type := mkExecutor {
  x_pushdown : Pushdown;
  x_bindings : list Bindings;
  x_columns : list text;
  x_rows : list (list Value);
}.
Record ExecStats : Type := mkStats {
  nodes_created : Z; relationships_created : Z; properties_set : Z; nodes_deleted : Z; relationships_deleted : Z;
  labels_added : Z; labels_removed : Z;
}.
Definition no_stats : ExecStats := mkStats 0 0 0 0 0 0 0.
Definition add_stats (a b : ExecStats) : ExecStats :=
  mkStats (nodes_created a + nodes_created b) (relationships_created a + relationships_created b) (properties_set a + properties_set b)
    (nodes_deleted a + nodes_deleted b) (relationships_deleted a + relationships_deleted b) (labels_added a + labels_added b)
    (labels_removed a + labels_removed b).
Record ExecResult : Type := mkResult { res_columns : list text; res_rows : list (list Value); res_stats : ExecStats }.
Definition fresh_executor : Executor := mkExecutor ∅ [∅] [] [].
Definition take_result (x : Executor) : ExecResult := mkResult (x_columns x) (x_rows x) no_stats.

(** How many nodes the engine has. *)
Class Cardinality := { count_nodes : Exec Z; count_nodes_by_kind : text -> Exec Z }.

(** ** [MATCH] *)
(** The rows a [MATCH] has so far: all, or the ones that sort first. *)
Record Sink : Type := mkSink { sk_rows : list Bindings; sk_top : option TopK }.

Section matching.
Context `{!Chars, !GraphEngine, !View, !Indexes}.
Context (ev : Expression -> Bindings -> Exec Value) (st : Statement).

Definition match_named_pattern (pattern : NamedPattern) (existing : Bindings) : Exec (list Bindings) :=
  match np_shortest pattern with
  | Some k => match_shortest_pattern ev st pattern k existing
  | None =>
      rows ← match_path ev st (np_path pattern) existing (bool_decide (is_Some (np_variable pattern)));
      Ok match np_variable pattern with
         | None => rows
         | Some var =>
             List.map (fun row : Bindings =>
               match row !! PATH_ACCUM_KEY with Some path => <[var := path]> (delete PATH_ACCUM_KEY row) | None => row end) rows
         end
  end.
Fixpoint match_patterns (patterns : list NamedPattern) (rows : list Bindings) : Exec (list Bindings) :=
  match patterns with
  | [] => Ok rows
  | pattern :: patterns => next ← concat_map (match_named_pattern pattern) rows; match_patterns patterns next
  end.

Section match_clause.
Context (optional : bool) (patterns : list NamedPattern) (where_clause : option Expression) (cap : option Z) (top : option TopSpec).
Definition top_projected : list (text * Expression) := match top with Some spec => resolve_projections [] (ts_items spec) | None => [] end.
Definition put_row (s : Sink) (row : Bindings) : Exec Sink :=
  match top, sk_top s with
  | Some spec, Some t => key ← top_key ev spec top_projected row; Ok (mkSink (sk_rows s) (Some (topk_push t key row)))
  | _, _ => Ok (mkSink (sk_rows s ++ [row]) (sk_top s))
  end.
Fixpoint put_rows (s : Sink) (rows : list Bindings) : Exec Sink :=
  match rows with [] => Ok s | row :: rows => s ← put_row s row; put_rows s rows end.
(** Whether the cap is met. *)
Definition full (s : Sink) : bool := match cap with Some c => c <=? Z.of_nat (length (sk_rows s)) | None => false end.
(** One node and no path, not bound: its head. *)
Definition lone_node (existing : Bindings) : option NodePattern :=
  match patterns with
  | [mkNamedPattern None (Expression.mkPath head []) None] =>
      let bound := match node_variable head with Some v => bool_decide (is_Some (existing !! v)) | None => false end in
      if (bool_decide (is_Some cap) || bool_decide (is_Some top)) && negb optional && negb bound then Some head else None
  | _ => None
  end.
Definition lone_row (head : NodePattern) (existing : Bindings) (s : Sink) (nv : NodeValue) : Exec (Sink * bool) :=
  let row := match node_variable head with Some name => <[name := Value.Node nv]> existing | None => existing end in
  keep ← match where_clause with Some e => eval_where ev "Boolean" e (Expression.span e) row | None => Ok true end;
  s ← (if keep : bool then put_row s row else Ok s);
  Ok (s, negb (full s)).
(** The rows one row gives. *)
Definition expand_row (existing : Bindings) : Exec (list Bindings) :=
  rows ← match_patterns patterns [existing];
  rows ← match where_clause with Some e => filter_where ev e rows | None => Ok rows end;
  Ok (if optional && is_empty rows then [synthesise_null_row existing (collect_pattern_variables patterns)] else rows).
Fixpoint match_rows (prior : list Bindings) (s : Sink) : Exec Sink :=
  match prior with
  | [] => Ok s
  | existing :: prior =>
      if full s then Ok s
      else
        s ← match lone_node existing with
            | Some head => for_each_node_match ev st head existing (lone_row head existing) s
            | None => rows ← expand_row existing; put_rows s rows
            end;
        match_rows prior s
  end.
Definition run_match (prior : list Bindings) : Exec (list Bindings) :=
  s ← match_rows prior (mkSink [] (topk_new ∘ ts_keep <$> top));
  Ok match sk_top s with
     | Some t => into_rows t
     | None => match cap with Some c => limit_rows c (sk_rows s) | None => sk_rows s end
     end.
End match_clause.
End matching.

(** ** A query *)
Section query.
Context `{!Chars, !Libm, !Machine, !GraphEngine, !View, !Indexes, !Outside, !Cardinality}.
(** The parameters, the nodes the transaction has written, and whether the user sees everything. *)
Context (params : gmap text Value) (tx_written : list N) (reads_everything : bool) (fuel : nat).

Definition statement (pushdown : Pushdown) : Statement := mkStatement pushdown false tx_written.
Definition ev_under (pushdown : Pushdown) : Expression -> Bindings -> Exec Value := eval (statement pushdown) params fuel.
Definition ev_group_under (pushdown : Pushdown) : Expression -> list Bindings -> Exec Value := eval_with_agg (ev_under pushdown) fuel.

Definition run_match_clause (optional : bool) (patterns : list NamedPattern) (where_clause : option Expression) (cap : option Z)
    (top : option TopSpec) (x : Executor) : Exec Executor :=
  let pushdown := match where_clause with Some e => extract_pushdown_constraints e ∅ | None => ∅ end in
  rows ← run_match (ev_under pushdown) (statement pushdown) optional patterns where_clause cap top (x_bindings x);
  Ok (mkExecutor pushdown rows (x_columns x) (x_rows x)).
(** A clause of a query that reads; [None] when it does something else. *)
Definition run_clause (c : Clause) (cap : option Z) (top : option TopSpec) (x : Executor) : option (Exec Executor) :=
  let ev := ev_under (x_pushdown x) in
  let ev_group := ev_group_under (x_pushdown x) in
  match c with
  | Clause.Match optional patterns where_clause _ => Some (run_match_clause optional patterns where_clause cap top x)
  | Clause.Return _ _ _ _ _ _ | Clause.With _ _ _ _ _ _ _ =>
      Some (out ← run_projection ev ev_group c (x_bindings x);
            Ok match out with
               | inl (columns, rows) => mkExecutor (x_pushdown x) (x_bindings x) columns rows
               | inr rows => mkExecutor (x_pushdown x) rows (x_columns x) (x_rows x)
               end)
  | Clause.Unwind e alias _ =>
      Some (rows ← run_unwind ev e alias (x_bindings x);
            Ok (mkExecutor (x_pushdown x) rows (x_columns x) (x_rows x)))
  | _ => None
  end.
Definition caps (c : Clause) (next : option Clause) (x : Executor) : Exec (option Z * option TopSpec) :=
  match c with
  | Clause.Match _ _ _ _ =>
      cap ← limit_cap (ev_under (x_pushdown x)) next;
      top ← top_cap (ev_under (x_pushdown x)) next;
      Ok (cap, top)
  | _ => Ok (None, None)
  end.
Fixpoint run_clauses (clauses : list Clause) (x : Executor) : option (Exec Executor) :=
  match clauses with
  | [] => Some (Ok x)
  | c :: rest =>
      match caps c (head rest) x with
      | Err e => Some (Err e)
      | Ok (cap, top) =>
          match run_clause c cap top x with
          | Some (Ok x) => run_clauses rest x
          | Some (Err e) => Some (Err e)
          | None => None
          end
      end
  end.

(** ** The count that needs no rows *)
Definition counted_alone (node : NodePattern) (e : Expression) : bool :=
  match node, e with
  | Expression.mkNode variable labels None None _, Expression.FunctionCall [name] false [arg] _ =>
      (length labels <=? 1)%nat && eq_ignore_ascii_case name "count"
      && match arg with Expression.Star _ => true | Expression.Var v _ => bool_decide (variable = Some v) | _ => false end
  | _, _ => false
  end.
Fixpoint count_carriers (label : text) (ids : list N) (n : Z) : Exec Z :=
  match ids with
  | [] => Ok n
  | id :: ids =>
      carrier ← get_node id;
      count_carriers label ids
        match carrier with
        | Some nv => if bool_decide (head (Value.node_labels nv) = Some label) then n else n + 1
        | None => n
        end
  end.
Definition try_count_pushdown (clauses : list Clause) (labels : option (text -> list N)) : Exec (option ExecResult) :=
  match clauses with
  | [Clause.Match false [mkNamedPattern None (Expression.mkPath node []) None] None _;
     Clause.Return false [ProjectExpression e alias] [] None None _] =>
      if negb (counted_alone node e) then Ok None
      else
        let answer (n : Z) : option ExecResult :=
          Some (mkResult [match alias with Some a => a | None => default_column_name e end] [[Value.Integer (wrap_i64 n)]] no_stats) in
        match node with
        | Expression.mkNode _ [] _ _ _ => n ← count_nodes; Ok (answer n)
        | Expression.mkNode _ (label :: _) _ _ _ =>
            match labels with
            | None => Ok None
            | Some idx => n ← count_nodes_by_kind label; n ← count_carriers label (idx label) n; Ok (answer n)
            end
        end
  | _ => Ok None
  end.

Definition execute_single (clauses : list Clause) : option (Exec ExecResult) :=
  match check_all validate_clause_supported clauses with
  | Err e => Some (Err e)
  | Ok _ =>
      let counted :=
        if reads_everything then try_count_pushdown clauses (if is_empty tx_written then label_ids else None) else Ok None in
      match counted with
      | Err e => Some (Err e)
      | Ok (Some r) => Some (Ok r)
      | Ok None =>
          match run_clauses clauses fresh_executor with
          | Some (Ok x) => Some (Ok (take_result x))
          | Some (Err e) => Some (Err e)
          | None => None
          end
      end
  end.

(** ** [UNION] *)
Definition mixed_unions {A} (clauses : list Clause) : Exec A :=
  raise (UnionMismatch (lit "a query cannot mix UNION and UNION ALL " ++ [8212%N] ++ lit " use one or the other for every arm")
    (first_clause_span clauses)).
Fixpoint union_kind (parts : list UnionPart) (agreed : option UnionKind) : Exec (option UnionKind) :=
  match parts with
  | [] => Ok agreed
  | mkUnionPart None _ :: parts => union_kind parts agreed
  | mkUnionPart (Some this) clauses :: parts =>
      match agreed, this with
      | None, _ | Some UnionDistinct, UnionDistinct | Some UnionAll, UnionAll => union_kind parts (Some this)
      | Some _, _ => mixed_unions clauses
      end
  end.
(** [{names:?}]. *)
Definition names_debug (names : list text) : text := lit "[" ++ join (lit ", ") (string_debug <$> names) ++ lit "]".
Definition other_columns {A} (expected got : list text) (clauses : list Clause) : Exec A :=
  raise (UnionMismatch (lit "all arms of a UNION must return the same columns " ++ [8212%N] ++ lit " expected " ++ names_debug expected
    ++ lit ", this arm returns " ++ names_debug got) (first_clause_span clauses)).
Fixpoint run_arms (parts : list UnionPart) (columns : option (list text)) (rows : list (list Value)) (stats : ExecStats) :
    option (Exec ExecResult) :=
  match parts with
  | [] => Some (Ok (mkResult (default [] columns) rows stats))
  | part :: parts =>
      match execute_single (up_clauses part) with
      | None => None
      | Some (Err e) => Some (Err e)
      | Some (Ok arm) =>
          let expected := default (res_columns arm) columns in
          if bool_decide (expected = res_columns arm) then
            run_arms parts (Some expected) (rows ++ res_rows arm) (add_stats stats (res_stats arm))
          else Some (other_columns expected (res_columns arm) (up_clauses part))
      end
  end.
Definition execute_inner (query : Query) : option (Exec ExecResult) :=
  match query with
  | [part] => execute_single (up_clauses part)
  | _ =>
      match union_kind (tail query) None with
      | Err e => Some (Err e)
      | Ok kind =>
          match run_arms query None [] no_stats with
          | Some (Ok r) =>
              let distinct := match kind with Some UnionDistinct => true | _ => false end in
              Some (Ok (mkResult (res_columns r) (if distinct then dedup_rows (res_rows r) else res_rows r) (res_stats r)))
          | r => r
          end
      end
  end.
End query.
