(* ===== verification/CypherAnswers.v ===== *)
(** * An expression always has an answer
    ([src/src/cypher/executor.rs]: [eval] after [validate_expr_supported])

    What the sweep lets through is evaluated to a value or to an error the
    query reports: never to a construct that is not supported, and never
    without end, provided what a [WHERE] pushes down looks for no pattern
    itself.  Where it does, the search may never end. *)
From S2P Require Import Prelude CypherLexer CypherAst CypherParser CypherRegex CypherRegexSpec CypherRegexPrint CypherValue CypherPipeline CypherFunctions CypherFunctionsSpec CypherMatch CypherEval CypherValidate.
Local Open Scope list_scope.
Local Open Scope Z_scope.

(** ** Sub-expressions *)
Definition opt_list (o : option Expression) : list Expression := match o with Some e => [e] | None => [] end.
Definition entry_subs (properties : option MapLiteral) : list Expression :=
  match properties with Some (Expression.mkMap entries _) => entries.*2 | None => [] end.
Definition node_subs (n : NodePattern) : list Expression := match n with Expression.mkNode _ _ _ properties _ => entry_subs properties end.
Definition rel_subs (r : RelationshipPattern) : list Expression :=
  match r with Expression.mkRelationship _ _ _ _ properties _ => entry_subs properties end.
Definition segment_subs (s : PathSegment) : list Expression := match s with Expression.mkSegment r n => rel_subs r ++ node_subs n end.
Definition path_subs (p : PathPattern) : list Expression :=
  match p with Expression.mkPath head tail => node_subs head ++ concat (segment_subs <$> tail) end.
Definition selector_subs (s : MapProjectionSelector) : list Expression := match s with Expression.SelLiteral _ e => [e] | _ => [] end.
Definition subs (e : Expression) : list Expression :=
  match e with
  | Expression.Property e _ _ | Expression.Unary _ e _ | Expression.IsNull e _ _ | Expression.HasLabels e _ _ => [e]
  | Expression.List es _ | Expression.FunctionCall _ _ es _ => es
  | Expression.Map m => entry_subs (Some m)
  | Expression.Binary _ a b _ | Expression.In a b _ | Expression.Index a b _ => [a; b]
  | Expression.Slice base from to _ => base :: opt_list from ++ opt_list to
  | Expression.Case scrutinee arms else_branch _ => opt_list scrutinee ++ concat ((fun a => [a.1; a.2]) <$> arms) ++ opt_list else_branch
  | Expression.ListComprehension _ l predicate projection _ => l :: opt_list predicate ++ opt_list projection
  | Expression.ListPredicate _ _ l predicate _ => [l; predicate]
  | Expression.Reduce _ init _ l e _ => [init; l; e]
  | Expression.MapProjection base selectors _ => base :: concat (selector_subs <$> selectors)
  | Expression.PatternComprehension p predicate projection _ => path_subs p ++ opt_list predicate ++ [projection]
  | Expression.PatternPredicate p _ => path_subs p
  | Expression.ExistsSubquery p predicate _ | Expression.CountSubquery p predicate _ => path_subs p ++ opt_list predicate
  | _ => []
  end.
Definition is_pattern (e : Expression) : bool :=
  match e with
  | Expression.PatternComprehension _ _ _ _ | Expression.PatternPredicate _ _ | Expression.ExistsSubquery _ _ _
  | Expression.CountSubquery _ _ _ => true
  | _ => false
  end.
(** An expression at most [n] deep whose parts, the properties of patterns among
    them, pass the sweep; one without [patterns] has none in it. *)
Fixpoint supported (patterns : bool) (n : nat) (e : Expression) : Prop :=
  match n with
  | O => False
  | S n => validate_expr_supported e = Ok tt /\ (is_pattern e = true -> patterns = true) /\ Forall (supported patterns n) (subs e)
  end.
Lemma supported_deeper patterns n m e : (n <= m)%nat -> supported patterns n e -> supported patterns m e.
Proof.
  revert m e. induction n as [|n IH]; intros m e Hm He; [done|]. destruct m as [|m]; [lia|]. destruct He as (Hv & Hp & Hs).
  split; [done|]. split; [done|]. eapply Forall_impl; [exact Hs|]. intros e'. apply IH. lia.
Qed.

(** ** Outcomes *)
Definition tame {A} (r : Exec A) : Prop :=
  match r with Err Deeper | Err (Raise (Unsupported _ _)) => False | _ => True end.
Create HintDb tame.
Lemma tame_bind {A B} (m : Exec A) (f : A -> Exec B) : tame m -> (forall a, tame (f a)) -> tame (m ≫= f).
Proof. destruct m as [a|[[]| |]]; cbn; auto. Qed.
Lemma tame_fmap {A B} (f : A -> B) (m : Exec A) : tame m -> tame (f <$> m).
Proof. by destruct m as [a|[[]| |]]. Qed.
Lemma tame_ok {A} (a : A) : tame (Ok a : Exec A).
Proof. done. Qed.
Lemma tame_mismatch {A} w v sp : tame (Value.mismatch w v sp : Exec A).
Proof. done. Qed.
Lemma tame_fn_err {A} name m sp : tame (fn_err name m sp : Exec A).
Proof. done. Qed.
Lemma tame_misuse {A} p sp (r : Exec A) : misuse p sp r -> tame r.
Proof. by destruct r as [|[[]| |]]. Qed.
Lemma tame_mapM {A B} (f : A -> Exec B) l : Forall (fun x => tame (f x)) l -> tame (mapM f l).
Proof. induction 1 as [|x l Hx Hl IH]; [done|]. cbn. apply tame_bind; [done|]. intros y. by apply tame_bind. Qed.
Lemma tame_concat_map {A B} (f : A -> Exec (list B)) l : Forall (fun x => tame (f x)) l -> tame (concat_map f l).
Proof. induction 1 as [|x l Hx Hl IH]; [done|]. cbn. apply tame_bind; [done|]. intros y. by apply tame_bind. Qed.
#[export] Hint Resolve tame_ok tame_mismatch tame_fn_err : tame.
Ltac tame := repeat first [progress intros | apply tame_bind | apply tame_fmap | exact I | solve [eauto with tame] | case_match].

Lemma tame_unary op v sp : tame (eval_unary op v sp).
Proof. by destruct op, v. Qed.
Lemma tame_number_op `{Libm} op b x y sp : tame (number_op op b x y sp).
Proof. unfold number_op. destruct op; tame. Qed.
Lemma tame_binary `{Libm} op a b sp : tame (eval_binary op a b sp).
Proof.
  unfold eval_binary. destruct op; unfold arith, compare, boolean, truth, string_test, Value.as_string, regex_match, mismatched; try (by tame);
    tame; auto using tame_number_op.
Qed.
Lemma tame_labels v labels sp : tame (eval_has_labels v labels sp).
Proof. by destruct v. Qed.
Lemma tame_index b i sp : tame (eval_index b i sp).
Proof. unfold eval_index. tame. Qed.
Lemma tame_slice b f t sp : tame (eval_slice b f t sp).
Proof. unfold eval_slice, slice_bound. tame. Qed.
#[export] Hint Resolve tame_unary tame_binary tame_labels tame_index tame_slice : tame.

(** ** Where the sweep looks *)
Lemma check_all_ok {A} (f : A -> Exec unit) l : check_all f l = Ok tt <-> Forall (fun x => f x = Ok tt) l.
Proof.
  induction l as [|x l IH]; [by split|]. cbn. rewrite Forall_cons, <- IH. destruct (f x) as [[]|]; cbn; naive_solver.
Qed.
Lemma check_option_ok f o : check_option f o = Ok tt <-> Forall (fun x => f x = Ok tt) (opt_list o).
Proof. destruct o as [e|]; cbn; [by rewrite Forall_singleton|]. done. Qed.
Lemma both_ok (m n : Exec unit) : (_ ← m; n) = Ok tt <-> m = Ok tt /\ n = Ok tt.
Proof. destruct m as [[]|]; cbn; naive_solver. Qed.
(** What passes has parts that pass. *)
Lemma validated_subs e : validate_expr_supported e = Ok tt -> is_pattern e = false ->
  Forall (fun e => validate_expr_supported e = Ok tt) (subs e).
Proof.
  destruct e; cbn -[is_scalar_function_name]; try done; rewrite ?both_ok, ?check_all_ok, ?check_option_ok; intros Hv _;
    rewrite ?Forall_cons, ?Forall_app; try (naive_solver constructor).
  - destruct m as [entries sp]. cbn in *. apply check_all_ok in Hv. apply Forall_fmap. eapply Forall_impl; [exact Hv|]. by intros [].
  - destruct (is_scalar_function_name name); [by apply check_all_ok|done].
  - destruct Hv as (Hs & Ha & He). split; [done|]. split; [|done]. apply Forall_concat, Forall_fmap. eapply Forall_impl; [exact Ha|].
    intros [w t]. cbn. rewrite both_ok, !Forall_cons. naive_solver.
  - destruct Hv as (Hb & Hs). split; [done|]. apply Forall_concat, Forall_fmap. eapply Forall_impl; [exact Hs|]. intros []; cbn; auto.
Qed.

(** ** Evaluation *)
Section answers.
Context `{!Chars, !Libm, !Machine, !GraphEngine, !View, !Indexes, !Outside}.
Context (st : Statement) (params : gmap text Value).
Context (Hnode : forall id, tame (get_node id)) (Hedges : forall id d, tame (edges_of id d)) (Hall : tame all_nodes)
  (Hkind : forall label, tame (nodes_by_kind label))
  (Houtside : forall f args ev sp, Forall (fun e => tame (ev e)) args -> tame (outside f args ev sp)).
#[local] Hint Resolve Hnode Hedges Hall Hkind : tame.

Section body.
Context (ev : Expression -> Bindings -> Exec Value).
Definition good (e : Expression) : Prop := forall row, tame (ev e row).

Lemma tame_attempt e row : good e -> tame (attempt ev e row).
Proof. intros He. unfold attempt. specialize (He row). by destruct (ev e row) as [|[[]| |]]. Qed.
#[local] Hint Resolve tame_attempt : tame.
Lemma tame_properties have entries row : Forall good entries.*2 -> tame (properties_match ev have entries row).
Proof. induction entries as [|[k e] entries IH]; intros Hs; [done|]. inversion Hs; subst. cbn. tame. Qed.
Lemma tame_node_matches nv pattern row : Forall good (node_subs pattern) -> tame (node_matches_pattern ev nv pattern row).
Proof. intros Hs. unfold node_matches_pattern. destruct pattern as [? ? ? [[entries ?]|] ?]; repeat case_match; first [exact I | by apply tame_properties]. Qed.
Lemma tame_edge_matches edge pattern row : Forall good (rel_subs pattern) -> tame (edge_matches_pattern ev edge pattern row).
Proof. intros Hs. unfold edge_matches_pattern. destruct pattern as [? ? ? ? [[entries ?]|] ?]; repeat case_match; first [exact I | by apply tame_properties]. Qed.
#[local] Hint Resolve tame_node_matches tame_edge_matches : tame.
Lemma tame_get_nodes ids : tame (get_nodes ids).
Proof using Hnode. induction ids as [|id ids IH]; [done|]. cbn. tame. Qed.
#[local] Hint Resolve tame_get_nodes : tame.

(** What the [WHERE] pushes down. *)
Definition constraint_value (c : PushConstraint) : Expression :=
  match c with PEq _ e | PIn _ e | PRange _ _ e | PText _ _ e | PIdEq e | PIdIn e => e end.
Context (Hpush : forall v cs, st_pushdown st !! v = Some cs -> Forall (fun c => good (constraint_value c)) cs).
Lemma tame_id_seek pattern row : tame (id_seek_candidates ev st pattern row).
Proof using Hnode Hpush.
  unfold id_seek_candidates. destruct pattern as [[v|] ? ? ? ?]; [|done]. destruct (st_pushdown st !! v) as [cs|] eqn:Hv; [|done].
  apply tame_bind; [|tame]. generalize (@None (gset N)). apply Hpush in Hv. induction Hv as [|c cs Hc Hcs IH]; intros acc; [done|]. cbn.
  apply tame_bind; [|intros; apply IH]. unfold id_allowed. destruct c; tame.
Qed.
Lemma tame_property_seek pattern row : Forall good (node_subs pattern) -> tame (native_property_candidates ev st pattern row).
Proof using Hnode Hpush.
  intros Hs. unfold native_property_candidates. destruct pattern as [variable labels ? properties ?]. apply tame_bind.
  - destruct properties as [[entries ?]|], top_postings as [idx|]; try done. cbn in Hs. generalize (@None (gset N)).
    induction entries as [|[k e] entries IH]; intros acc; [done|]. inversion Hs; subst. cbn. tame.
  - intros [acc|]; [|done]. destruct (bool_decide (acc = Some ∅)); [done|]. apply tame_bind; [|tame].
    destruct (variable ≫= _) as [cs|] eqn:Hcs; [|done]. apply bind_Some in Hcs as (v & _ & Hv%Hpush).
    revert acc. induction Hv as [|c cs Hc Hcs IH]; intros acc; [done|]. cbn. apply tame_bind; [|tame].
    unfold property_allowed. destruct c; tame.
Qed.
Lemma tame_label_rest seen ids : tame (label_rest seen ids).
Proof using Hnode. revert seen. induction ids as [|id ids IH]; intros seen; [done|]. cbn. tame. Qed.
#[local] Hint Resolve tame_id_seek tame_property_seek tame_label_rest : tame.
Lemma tame_candidates pattern row : Forall good (node_subs pattern) -> tame (candidate_nodes ev st pattern row).
Proof using Hnode Hpush Hall Hkind. intros Hs. unfold candidate_nodes, native_label_candidates, with_tx_written. tame. Qed.
Lemma tame_enumerate pattern row : Forall good (node_subs pattern) -> tame (enumerate_nodes ev st pattern row).
Proof using Hnode Hpush Hall Hkind.
  intros Hs. unfold enumerate_nodes, for_each_node_match. apply tame_bind; [by apply tame_candidates|]. intros nodes.
  assert (H' : forall out, tame (for_each_of ev nodes pattern row (fun out nv => Ok (out ++ [nv], true)) out)); [|apply H'].
  induction nodes as [|node nodes IH]; intros out; [done|]. cbn. destruct (visible_node node); [|done].
  apply tame_bind; [by apply tame_node_matches|]. intros []; apply IH.
Qed.
Lemma tame_bind_node v nv sp existing row : tame (bind_node v nv sp existing row).
Proof. unfold bind_node, var_node_check. tame. Qed.
#[local] Hint Resolve tame_bind_node : tame.
Lemma tame_head head existing b : Forall good (node_subs head) -> tame (match_head ev st head existing b).
Proof using Hnode Hpush Hall Hkind.
  intros Hs. unfold match_head. destruct head as [variable labels le props sp]. cbn zeta.
  pose proof (tame_enumerate _ existing Hs) as He. destruct (variable ≫= _) as [[]|]; try exact I; (apply tame_bind; [|done]); [|done].
  by apply tame_node_matches.
Qed.
Lemma tame_segment prev segment existing b : Forall good (segment_subs segment) -> tame (match_segment ev prev segment existing b).
Proof using Hnode Hedges.
  destruct segment as [rel target]. intros [Hr Ht]%Forall_app.
  assert (Hhop : tame (match_hop ev prev rel target existing b)).
  { unfold match_hop. apply tame_bind; [done|]. intros edges. apply tame_concat_map, Forall_true. intros edge. unfold hop_row, seen_target, bind_relationship. tame. }
  assert (Hvar : forall lo hi, tame (match_varlen_segment ev prev rel target existing lo hi b)).
  { intros lo hi. unfold match_varlen_segment. generalize 0%nat, [mkTrail prev [] [] []].
    induction (match hi with Some h => Z.to_nat h | None => VARLEN_DEFAULT_UPPER end) as [|more IH]; intros depth frontier; cbn [varlen_levels].
    - apply tame_bind; [|done]. case_match; [|done]. apply tame_concat_map, Forall_true. intros t. unfold trail_row. tame.
    - apply tame_bind.
      + case_match; [|done]. apply tame_concat_map, Forall_true. intros t. unfold trail_row. tame.
      + intros here. apply tame_bind.
        * apply tame_concat_map, Forall_true. intros t. unfold expand. apply tame_bind; [done|]. intros edges. apply tame_concat_map, Forall_true.
          intros edge. unfold extend_trail, seen_target. tame.
        * intros [|]; [done|]. apply tame_bind; [apply IH|done]. }
  unfold match_segment. repeat case_match; auto.
Qed.
Lemma tame_path path existing b : Forall good (path_subs path) -> tame (match_path ev st path existing b).
Proof using Hnode Hedges Hpush Hall Hkind.
  destruct path as [head tail]. intros [Hh Ht]%Forall_app. unfold match_path. apply tame_bind; [by apply tame_head|]. intros rows.
  apply tame_bind; [|done].
  assert (Hsegs : Forall (fun s => Forall good (segment_subs s)) tail) by (by rewrite Forall_concat, Forall_fmap in Ht).
  clear Ht. revert rows. induction Hsegs as [|segment rest Hseg Ht IH]; intros rows; [exact I|]. cbn.
  apply tame_bind; [|intros; apply IH]. apply tame_concat_map, Forall_true. intros [row prev]. by apply tame_segment.
Qed.

(** The forms of expressions. *)
Lemma tame_where w e sp row : good e -> tame (eval_where ev w e sp row).
Proof. intros He. unfold eval_where. apply tame_bind; [apply He|]. intros []; exact I. Qed.
Lemma tame_condition predicate row sp : Forall good (opt_list predicate) -> tame (condition ev predicate row sp).
Proof. intros Hs. unfold condition. destruct predicate; [|done]. inversion Hs; subst. by apply tame_where. Qed.
Lemma tame_items l row sp : good l -> tame (eval_items ev l row sp).
Proof. intros Hl. unfold eval_items. apply tame_bind; [apply Hl|]. intros []; exact I. Qed.
Lemma tame_case scrutinee arms else_branch row : Forall good (subs (Expression.Case scrutinee arms else_branch no_span)) ->
  tame (eval_case (fun e => ev e row) scrutinee arms else_branch).
Proof using H0 ev.
  intros [Hs [Ha He]%Forall_app]%Forall_app. rewrite Forall_concat, Forall_fmap in Ha.
  assert (Hout : forall m : Exec (option Expression), tame m -> (forall e, m = Ok (Some e) -> good e) ->
    tame (taken ← m; match taken, else_branch with Some e, _ | None, Some e => ev e row | None, None => Ok Value.Null end)).
  { intros m Hm Hgood. destruct m as [[e|]|[[]| |]]; cbn; try done; [by apply (Hgood e)|]. destruct else_branch as [e|]; [|done].
    inversion He as [|? ? Hgo]; subst. apply Hgo. }
  unfold eval_case. apply Hout.
  - destruct scrutinee as [e|].
    + inversion Hs as [|? ? Hgo]; subst. apply tame_bind; [apply Hgo|]. intros v.
      induction Ha as [|[w t] arms [Hw Ht]%Forall_cons Harms IH]; [done|]. cbn in *. apply tame_bind; [apply Hw|]. intros u.
      apply tame_bind; [apply (tame_binary BEq)|]. intros [|[]| | | | | | | |]; done.
    + induction Ha as [|[w t] arms [Hw Ht]%Forall_cons Harms IH]; [done|]. cbn in *. apply tame_bind; [apply Hw|]. intros []; try done. by destruct b.
  - intros e. assert (Hin : forall e, e ∈ arms.*2 -> good e).
    { intros e' ([w t] & -> & Hin)%list_elem_of_fmap. rewrite Forall_forall in Ha. specialize (Ha _ Hin). cbn in Ha. inversion Ha as [|? ? _ Hr]; subst. by inversion Hr. }
    intros Hm. apply Hin. clear Hout Ha Hs Hin. destruct scrutinee as [s|].
    + destruct (ev s row) as [v|]; [|done]. cbn in Hm. induction arms as [|[w t] arms IH]; [done|]. cbn [simple_arms] in Hm.
      destruct (ev w row) as [u|]; [|done]. cbn [mbind result_bind] in Hm. destruct (compare BEq v u _) as [[|[]| | | | | | | |]|]; try done; cbn [mbind result_bind] in Hm;
        try (right; by apply IH). injection Hm as ->. by left.
    + induction arms as [|[w t] arms IH]; [done|]. cbn [generic_arms] in Hm. destruct (ev w row) as [u|]; [|done]. cbn [mbind result_bind] in Hm.
      destruct u as [|[]| | | | | | | |]; try done; try (right; by apply IH). injection Hm as ->. by left.
Qed.

Lemma upper_lower c : to_ascii_uppercase (Regex.to_ascii_lowercase c) = to_ascii_uppercase c.
Proof.
  unfold Regex.to_ascii_lowercase, to_ascii_uppercase, within. destruct (N.leb_spec 65 c), (N.leb_spec c 90); cbn [andb]; try done.
  repeat match goal with |- context [N.leb ?a ?b] => destruct (N.leb_spec a b) end; cbn [andb]; lia.
Qed.
Lemma named_lower n w w' : Regex.to_ascii_lowercase <$> n = lit w -> to_ascii_uppercase <$> lit w = to_ascii_uppercase <$> lit w' ->
  eq_ignore_ascii_case n w' = true.
Proof.
  intros Hn Hw. unfold eq_ignore_ascii_case. apply bool_decide_eq_true. rewrite <- Hw, <- Hn, <- list_fmap_compose.
  apply list_fmap_ext. intros i c _. symmetry. apply upper_lower.
Qed.
Lemma tame_function name args row sp : is_scalar_function_name name = true -> Forall good args -> tame (eval_scalar_function ev name args row sp).
Proof using Hnode Houtside.
  intros Hname Hargs. assert (Hrow : Forall (fun e => tame (ev e row)) args) by (eapply Forall_impl; [exact Hargs|]; intros e He; apply He).
  assert (Hend : forall shown which, tame (eval_endpoint_node ev shown which args row sp)).
  { intros shown which. unfold eval_endpoint_node. destruct args as [|e [|]]; try done. inversion Hrow; subst. apply tame_bind; [done|].
    intros []; try done. apply tame_bind; [|done]. unfold seen_target. tame. }
  unfold eval_scalar_function. cbv zeta. set (lower := _ <$> _).
  assert (Hcall : is_builtin_scalar_function lower = true -> tame (values ← mapM (fun e => ev e row) args; call_scalar lower values sp)).
  { intros Hb. apply tame_bind; [by apply tame_mapM|]. intros values. eapply tame_misuse, accepted_misuse, Hb. }
  set (named := fun w => match name with [n] => eq_ignore_ascii_case n w | _ => false end).
  assert (Hone : named "similar"%string || named "keywords"%string || named "startNode"%string || named "endNode"%string
    || is_sequence_function lower || is_builtin_scalar_function lower = true).
  { unfold is_scalar_function_name in Hname. destruct name as [|n [|]]; [fold lower in Hname; by rewrite <- !orb_assoc, Hname, !orb_true_r| |]; fold lower in Hname.
    - assert (lower = Regex.to_ascii_lowercase <$> n) as Hl by done. rewrite <- Hl in Hname. apply orb_true_iff in Hname as [Hn|Hn]; [|by rewrite Hn, orb_true_r].
      apply existsb_exists in Hn as (w & Hin & Hw%bool_decide_eq_true). unfold named.
      assert (Hcase : forall w', to_ascii_uppercase <$> lit w = to_ascii_uppercase <$> lit w' -> eq_ignore_ascii_case n w' = true).
      { intros w'. apply named_lower. by rewrite <- Hl, Hw. }
      repeat destruct Hin as [<-|Hin]; [by rewrite (Hcase "similar"%string)|by rewrite (Hcase "keywords"%string), orb_true_r
        |by rewrite (Hcase "startNode"%string), ?orb_true_r|by rewrite (Hcase "endNode"%string), ?orb_true_r|done].
    - by rewrite <- !orb_assoc, Hname, !orb_true_r. }
  change (tame (if named "similar"%string || named "keywords"%string then outside lower args (fun e => ev e row) sp
    else if named "startNode"%string then eval_endpoint_node ev "startNode" Start args row sp
    else if named "endNode"%string then eval_endpoint_node ev "endNode" End args row sp
    else if is_sequence_function lower then outside lower args (fun e => ev e row) sp
    else if is_builtin_scalar_function lower then values ← mapM (fun e => ev e row) args; call_scalar lower values sp
    else raise (Unsupported (lit "function call `" ++ join (lit ".") name ++ lit "`") sp))).
  destruct (named "similar"%string || named "keywords"%string); [by apply Houtside|].
  destruct (named "startNode"%string); [apply Hend|]. destruct (named "endNode"%string); [apply Hend|].
  destruct (is_sequence_function lower); [by apply Houtside|]. cbn [orb] in Hone. rewrite Hone. by apply Hcall.
Qed.

Lemma tame_entries entries row out : Forall good entries.*2 -> tame (eval_entries ev entries row out).
Proof. revert out. induction entries as [|[k e] entries IH]; intros out Hs; [done|]. inversion Hs as [|? ? Hgo]; subst. cbn. apply tame_bind; [apply Hgo|]. intros; by apply IH. Qed.
Lemma tame_selectors base selectors row sp out : Forall good (concat (selector_subs <$> selectors)) ->
  tame (project_selectors ev base selectors row sp out).
Proof.
  revert out. induction selectors as [|s selectors IH]; intros out Hs; [done|]. cbn [fmap list_fmap concat] in Hs. apply Forall_app in Hs as [Hh Ht].
  destruct s; cbn.
  - by apply IH.
  - destruct (base_properties base); [by apply IH|done].
  - inversion Hh as [|? ? Hgo]; subst. apply tame_bind; [apply Hgo|]. intros; by apply IH.
  - destruct (row !! name); [by apply IH|done].
Qed.
Lemma tame_comprehend predicate projection rows sp : Forall good (opt_list predicate) -> good projection ->
  tame (comprehend ev predicate projection rows sp).
Proof.
  intros Hp Hj. induction rows as [|row rows IH]; [done|]. cbn. apply tame_bind; [by apply tame_condition|]. intros []; [|done].
  apply tame_bind; [apply Hj|]. intros v. by apply tame_bind.
Qed.
Lemma tame_any predicate rows sp : Forall good (opt_list predicate) -> tame (any_row ev predicate rows sp).
Proof. intros Hp. induction rows as [|row rows IH]; [done|]. cbn. apply tame_bind; [by apply tame_condition|]. by intros []. Qed.
Lemma tame_count predicate rows sp : Forall good (opt_list predicate) -> tame (count_rows ev predicate rows sp).
Proof. intros Hp. induction rows as [|row rows IH]; [done|]. cbn. apply tame_bind; [by apply tame_condition|]. intros b. by apply tame_bind. Qed.
Lemma tame_comprehend_items x predicate projection items row sp : Forall good (opt_list predicate) -> Forall good (opt_list projection) ->
  tame (comprehend_items ev x predicate projection items row sp).
Proof.
  intros Hp Hj. induction items as [|item items IH]; [done|]. cbn. apply tame_bind; [by apply tame_condition|]. intros []; [|done].
  apply tame_bind; [destruct projection; [inversion Hj as [|? ? Hgo]; subst; apply Hgo|done]|]. intros v. by apply tame_bind.
Qed.
Lemma tame_tally x predicate items row sp t : good predicate -> tame (tally ev x predicate items row sp t).
Proof.
  intros Hp. revert t. induction items as [|item items IH]; intros t; [done|]. cbn. apply tame_bind; [apply Hp|]. intros [|[]| | | | | | | |]; try done; apply IH.
Qed.
Lemma tame_reduce a x e items row acc : good e -> tame (reduce_items ev a x e items row acc).
Proof. intros He. revert acc. induction items as [|item items IH]; intros acc; [done|]. cbn. apply tame_bind; [apply He|]. intros; apply IH. Qed.
Lemma tame_option e row : Forall good (opt_list e) -> tame (opt_value ev e row).
Proof. destruct e; [|done]. intros Hs. inversion Hs as [|? ? Hgo]; subst. apply tame_bind; [apply Hgo|done]. Qed.

End body.

Ltac go := apply tame_bind; [match goal with H : good _ ?e |- tame (_ ?e _) => apply H end|intros; eauto with tame].
Lemma tame_body ev e row : validate_expr_supported e = Ok tt -> Forall (good ev) (subs e) ->
  (is_pattern e = true -> forall v cs, st_pushdown st !! v = Some cs -> Forall (fun c => good ev (constraint_value c)) cs) ->
  tame (eval_body st params ev e row).
Proof using Hnode Hedges Hall Hkind Houtside.
  intros Hv Hs Hpush. destruct e; try exact I; unfold eval_body; cbn [subs] in Hs;
    repeat first [rewrite Forall_app in Hs | rewrite Forall_cons in Hs | rewrite Forall_nil in Hs]; destruct_and?.
  - by destruct (row !! name).
  - by destruct (params !! name).
  - go.
  - apply tame_bind; [|done]. apply tame_mapM. eapply Forall_impl; [exact Hs|]. intros e He. apply He.
  - destruct m as [entries sp]. apply tame_bind; [|done]. by apply tame_entries.
  - cbn -[is_scalar_function_name] in Hv. destruct (is_scalar_function_name name) eqn:Hname; [|done]. by apply tame_function.
  - go.
  - go. go.
  - go.
  - go.
  - go. go. unfold eval_in. by case_match.
  - go. go.
  - go. apply tame_bind; [by apply tame_option|]. intros. apply tame_bind; [by apply tame_option|]. intros. apply tame_slice.
  - apply tame_case. cbn [subs]. rewrite !Forall_app. naive_solver.
  - apply tame_bind; [by apply tame_items|]. intros [items|]; [|done]. apply tame_bind; [by apply tame_comprehend_items|done].
  - apply tame_bind; [by apply tame_items|]. intros [items|]; [|done]. apply tame_bind; [by apply tame_tally|done].
  - go. apply tame_bind; [by apply tame_items|]. intros [items|]; [|done]. by apply tame_reduce.
  - go. case_match; [done|]. apply tame_bind; [by apply tame_selectors|]. intros. by case_match.
  - specialize (Hpush eq_refl). unfold eval_pattern_comprehension. case_match; [done|]. apply tame_bind; [by apply tame_path|]. intros rows. apply tame_bind; [by apply tame_comprehend|done].
  - specialize (Hpush eq_refl). unfold eval_pattern_predicate. case_match; [done|]. apply tame_bind; [by apply tame_path|done].
  - specialize (Hpush eq_refl). unfold eval_exists_subquery. case_match; [done|]. apply tame_bind; [by apply tame_path|]. intros rows. apply tame_bind; [by apply tame_any|done].
  - specialize (Hpush eq_refl). unfold eval_count_subquery. case_match; [done|]. apply tame_bind; [by apply tame_path|]. intros rows. apply tame_bind; [by apply tame_count|done].
  - done.
Qed.

(** ** Fuel *)
Lemma eval_tame h fuel e row :
  (forall v cs, st_pushdown st !! v = Some cs -> Forall (fun c => supported false h (constraint_value c)) cs) ->
  (exists n, (n <= fuel)%nat /\ supported false n e) \/ (exists n, (n + h <= fuel)%nat /\ supported true n e) ->
  tame (eval st params fuel e row).
Proof using Hnode Hedges Hall Hkind Houtside.
  intros Hpush. revert e row. induction fuel as [|fuel IH]; intros e row He.
  { destruct He as [([|n] & Hn & He)|([|n] & Hn & He)]; cbn in He; lia || done. }
  destruct He as [([|n] & Hn & He)|([|n] & Hn & He)]; try done; destruct He as (Hv & Hp & Hs); cbn [eval]; apply tame_body; try done.
  - eapply Forall_impl; [exact Hs|]. intros e' He' row'. apply IH. left. exists n. split; [lia|done].
  - intros Hpat. by apply Hp in Hpat.
  - eapply Forall_impl; [exact Hs|]. intros e' He' row'. apply IH. right. exists n. split; [lia|done].
  - intros _ v cs Hcs%Hpush. eapply Forall_impl; [exact Hcs|]. intros c Hc row'. apply IH. left. exists h. split; [lia|done].
Qed.
(** C19: An expression that passes the sweep is answered.  When the expression
    and all its parts, the properties of the patterns in it included, pass
    [validate_expr_supported], and what the [WHERE] pushed down passes it too and
    holds no pattern, then on any row [eval] ends with fuel for the depth of the
    one and that of the other together, with a value, a panic or an error, and
    the error is never that something is not supported; provided that the
    engine's reads, and the functions that reach other components wherever their
    arguments do, end so as well.  What is pushed down and holds a pattern may
    never end ([self_seek_diverges]). *)
Theorem eval_answers h n fuel e row :
  (forall v cs, st_pushdown st !! v = Some cs -> Forall (fun c => supported false h (constraint_value c)) cs) ->
  supported true n e -> (n + h <= fuel)%nat ->
  match eval st params fuel e row with Err Deeper | Err (Raise (Unsupported _ _)) => False | _ => True end.
Proof using Hnode Hedges Hall Hkind Houtside. intros Hpush He Hfuel. apply (eval_tame h); [done|]. right. by exists n. Qed.
End answers.

(** ** A search that never ends *)
(** [MATCH (n) WHERE id(n) = COUNT { (n) }]: to look for [n] by its id the
    executor evaluates the count, which looks for [n], by its id. *)
Module SelfSeek.
Definition sp : Span := mkSpan 0 0 1 1.
Definition v : text := lit "n".
Definition count_n : Expression := Expression.CountSubquery (Expression.mkPath (Expression.mkNode (Some v) [] None None sp) []) None sp.
Definition condition_n : Expression :=
  Expression.Binary BEq (Expression.FunctionCall [lit "id"] false [Expression.Var v sp] sp) count_n sp.
Definition st : Statement := mkStatement (extract_pushdown_constraints condition_n ∅) false [].
Lemma self_seek_diverges `{!Chars, !Libm, !Machine, !GraphEngine, !View, !Indexes, !Outside} params fuel :
  eval st params fuel count_n ∅ = Err Deeper.
Proof.
  induction fuel as [|fuel IH]; [done|].
  change (eval st params (S fuel) count_n ∅) with (eval_body st params (eval st params fuel) count_n ∅).
  unfold count_n at 1. unfold eval_body, eval_count_subquery. change (null_anchor _ ∅) with false. cbv iota.
  unfold match_path, match_head, enumerate_nodes, for_each_node_match, candidate_nodes, id_seek_candidates.
  change (st_pushdown st !! v) with (Some [PIdEq count_n]). cbn [mbind option_bind id_narrowed id_allowed].
  unfold attempt. by rewrite IH.
Qed.
End SelfSeek.

(** ** What the sweep does not look at *)
(** [EXISTS { ({x: nosuch()}) }] passes the sweep and is refused when it is evaluated. *)
Module LateRefusal.
Definition sp : Span := mkSpan 0 0 1 1.
Definition nosuch : Expression := Expression.FunctionCall [lit "nosuch"] false [] sp.
Definition exists_nosuch : Expression :=
  Expression.ExistsSubquery
    (Expression.mkPath (Expression.mkNode None [] None (Some (Expression.mkMap [(lit "x", nosuch)] sp)) sp) []) None sp.
Lemma refused_late `{!Chars, !Libm, !Machine, !GraphEngine, !View, !Indexes, !Outside} params nv nodes :
  top_postings = None -> all_nodes = Ok (nv :: nodes) -> visible_node nv = Some nv ->
  validate_expr_supported exists_nosuch = Ok tt
  /\ eval (mkStatement ∅ false []) params 3 exists_nosuch ∅ = raise (Unsupported (lit "function call `nosuch`") sp).
Proof.
  intros Hidx Hnodes Hseen. split; [done|]. cbn [eval].
  unfold exists_nosuch at 1. unfold eval_body at 1, eval_exists_subquery. change (null_anchor _ ∅) with false. cbv iota.
  unfold match_path, match_head, enumerate_nodes, for_each_node_match, candidate_nodes, id_seek_candidates, native_property_candidates.
  rewrite Hidx. cbn [mbind option_bind result_bind st_has_written negb]. rewrite bool_decide_false by done. cbn [mbind result_bind].
  destruct label_ids; cbn [mbind result_bind]; rewrite Hnodes; cbn [mbind result_bind for_each_of]; rewrite Hseen; reflexivity.
Qed.
End LateRefusal.

(** ** A small graph *)
(** Two nodes and a relationship from the first to the second, all visible, with an index of labels only. *)
Module Small.
#[export] Instance chars : Chars :=
  {| is_alphabetic := is_ascii_letter; is_numeric := is_ascii_digit; is_printable := fun _ => true; float_text := fun _ => []; to_uppercase := id |}.
#[export] Instance libm : Libm := {| powf := fun x _ => x |}.
#[export] Instance machine : Machine :=
  {| unary_math := fun _ x => x; atan2 := fun y _ => y; to_lowercase := id; cosine_similarity := fun _ _ => Ok F64.zero;
     rand_bits := 0; random_uuid := []; unix_millis := 0 |}.
#[export] Instance outside_ : Outside := {| outside := fun _ _ _ _ => Ok Value.Null |}.
Definition node (id : N) : NodeValue := Value.mkNode id [] [lit "A"] [].
Definition edge : RelationshipValue := Value.mkRelationship 10 [] 1 2 (lit "R") [].
#[export] Instance engine : GraphEngine := {|
  get_node id := Ok (if (id =? 1)%N || (id =? 2)%N then Some (node id) else None);
  edges_of id d := Ok (match d with
    | Outgoing => if (id =? 1)%N then [edge] else []
    | Incoming => if (id =? 2)%N then [edge] else []
    | Undirected => if (id =? 1)%N || (id =? 2)%N then [edge] else [] end);
  all_nodes := Ok [node 1; node 2];
  nodes_by_kind label := Ok (if bool_decide (label = lit "A") then [node 1; node 2] else []);
|}.
#[export] Instance view : View := {| visible_node := Some; traversable_kind := fun _ => true; redact_relationship := id |}.
#[export] Instance indexes : Indexes := {|
  label_ids := Some (fun label => if bool_decide (label = lit "A") then [1; 2]%N else []); top_postings := None; path_postings := fun _ _ => None; text_candidates := fun _ _ _ _ => None
|}.
Definition sp : Span := mkSpan 0 0 1 1.
Definition v : text := lit "n".
Definition count_n : Expression := Expression.CountSubquery (Expression.mkPath (Expression.mkNode (Some v) [] None None sp) []) None sp.
Definition under (id : Z) : Statement := mkStatement {[ v := [PIdEq (Expression.Integer id sp)] ]} false [].
(** [COUNT { (n) }] where [id(n) = 1] was pushed down. *)
Lemma eval_answers_witness : eval (under 1) ∅ 2 count_n ∅ <> Err Deeper.
Proof.
  intros Hr. refine (_ (eval_answers (under 1) ∅ (fun _ => I) (fun _ _ => I) I (fun _ => I) (fun _ _ _ _ _ => I) 1 1 2 count_n ∅ _ _ _)).
  - by rewrite Hr.
  - intros x cs Hcs. cbn in Hcs. apply lookup_singleton_Some in Hcs as [<- <-]. repeat constructor. done.
  - repeat constructor.
  - lia.
Defined.
(** Of the two nodes it counts one. *)
Lemma narrowed_count : eval (under 1) ∅ 2 count_n ∅ = Ok (Value.Integer 1).
Proof. vm_compute. reflexivity. Qed.
End Small.
