(* ===== verification/CypherRunSpec.v ===== *)
(** * What a query promises
    ([src/src/cypher/executor.rs]: [run_match], [limit_cap], [top_cap])

    What a [MATCH] leaves out under the caps of the clause after it changes
    nothing in the answer. *)
From S2P Require Import Prelude CypherLexer CypherAst CypherParser CypherValue CypherPipeline CypherOrder CypherCaps CypherFunctions CypherMatch CypherEval CypherAggregate CypherValidate CypherShortest CypherRun CypherAnswers.
Local Open Scope list_scope.
Local Open Scope Z_scope.

(** ** Walks over candidates *)
Section walk.
Context `{!GraphEngine, !View, !Indexes} (ev : Expression -> Bindings -> Exec Value).
(** [f] over a list, until it has enough. *)
Fixpoint until {S A} (f : S -> A -> Exec (S * bool)) (s : S) (l : list A) : Exec S :=
  match l with
  | [] => Ok s
  | x :: l => '(s, more) ← f s x; if more : bool then until f s l else Ok s
  end.
Lemma for_each_until nodes pattern row out res :
  for_each_of ev nodes pattern row (fun out nv => Ok (out ++ [nv], true)) out = Ok res ->
  exists nvs, res = out ++ nvs /\ forall S (f : S -> NodeValue -> Exec (S * bool)) s, for_each_of ev nodes pattern row f s = until f s nvs.
Proof.
  revert out. induction nodes as [|node nodes IH]; intros out Hres; cbn [for_each_of] in *.
  { injection Hres as <-. exists []. by rewrite app_nil_r. }
  destruct (visible_node node) as [nv|]; [|by apply IH]. destruct (node_matches_pattern ev nv pattern row) as [[]|]; cbn in Hres |- *; [| |done].
  - destruct (IH _ Hres) as (nvs & -> & Hf). exists (nv :: nvs). split; [by rewrite <- app_assoc|]. intros S f s. cbn [until].
    destruct (f s nv) as [[s' []]|]; cbn; [apply Hf|done..].
  - destruct (IH _ Hres) as (nvs & -> & Hf). by exists nvs.
Qed.
Lemma until_app {S A} (f : S -> A -> Exec (S * bool)) s l l' : (forall s x s' m, x ∈ l -> f s x = Ok (s', m) -> m = true) ->
  until f s (l ++ l') = (s ← until f s l; until f s l').
Proof.
  revert s. induction l as [|x l IH]; intros s Hf; [done|]. cbn [app until]. destruct (f s x) as [[s' m]|] eqn:Hx; [|done]. cbn.
  rewrite (Hf s x s' m) by (done || by left). apply IH. intros ? y ? ? Hy. apply Hf. by right.
Qed.
End walk.

(** ** [MATCH] under a cap *)
Section match_caps.
Context `{!Chars, !GraphEngine, !View, !Indexes} (ev : Expression -> Bindings -> Exec Value) (st : Statement).
Context (optional : bool) (patterns : list NamedPattern) (where_clause : option Expression).
#[local] Abbreviation expand := (expand_row ev st optional patterns where_clause).

(** Without a cap. *)
Lemma put_all rows s : put_rows ev None s rows = Ok (mkSink (sk_rows s ++ rows) (sk_top s)).
Proof.
  revert s. induction rows as [|row rows IH]; intros [r t]; cbn [put_rows put_row sk_rows sk_top]; [by rewrite app_nil_r|].
  cbn. rewrite IH. cbn. by rewrite <- app_assoc.
Qed.
Lemma uncapped prior s s' : match_rows ev st optional patterns where_clause None None prior s = Ok s' ->
  exists rss, Forall2 (fun existing rs => expand existing = Ok rs) prior rss /\ sk_rows s' = sk_rows s ++ concat rss /\ sk_top s' = sk_top s.
Proof.
  revert s. induction prior as [|existing prior IH]; intros s Hs; cbn [match_rows] in Hs.
  { injection Hs as <-. exists []. by rewrite app_nil_r. }
  cbn [full] in Hs. assert (Hlone : lone_node optional patterns None None existing = None).
  { unfold lone_node. repeat (case_match; try done). }
  rewrite Hlone in Hs. destruct (expand existing) as [rs|] eqn:Hrs; [|done]. cbn in Hs. rewrite put_all in Hs. cbn in Hs.
  destruct (IH _ Hs) as (rss & Hall & Hrows & Htop). exists (rs :: rss). split; [by constructor|]. cbn in *. by rewrite Hrows, <- app_assoc.
Qed.

(** A lone node: its rows, and the walk that makes them. *)
Definition lone_bound (head : NodePattern) (existing : Bindings) (nv : NodeValue) : Bindings :=
  match node_variable head with Some name => <[name := Value.Node nv]> existing | None => existing end.
Lemma filter_where_cons e row rows out : filter_where ev e (row :: rows) = Ok out -> exists keep rest,
  eval_where ev "Boolean" e (Expression.span e) row = Ok keep /\ filter_where ev e rows = Ok rest /\ out = if keep : bool then row :: rest else rest.
Proof. cbn. destruct (eval_where _ _ _ _ row) as [keep|]; [|done]. destruct (filter_where ev e rows) as [rest|]; [|done]. intros [= <-]. eauto. Qed.
Lemma lone_step cap top head existing s nv : lone_row ev where_clause cap top head existing s nv
  = (keep ← match where_clause with Some e => eval_where ev "Boolean" e (Expression.span e) (lone_bound head existing nv) | None => Ok true end;
     s ← (if keep : bool then put_row ev top s (lone_bound head existing nv) else Ok s);
     Ok (s, negb (full cap s))).
Proof. done. Qed.
Lemma lone_pattern cap top existing head : lone_node optional patterns cap top existing = Some head ->
  exists sp v, patterns = [mkNamedPattern None (Expression.mkPath head []) None] /\ optional = false
    /\ (is_Some cap \/ is_Some top) /\ node_variable head = v /\ Expression.node_span head = sp /\ v ≫= (fun name => existing !! name) = None.
Proof.
  unfold lone_node. destruct patterns as [|[[] [h []] []] []]; try done.
  destruct ((bool_decide (is_Some cap) || bool_decide (is_Some top)) && _ && _) eqn:Hc; [|done]. intros [= ->].
  apply andb_true_iff in Hc as [[Hc Ho%negb_true_iff]%andb_true_iff Hb%negb_true_iff].
  eexists _, _. repeat split; [done| |]. { by apply orb_true_iff in Hc as [Hc%bool_decide_eq_true|Hc%bool_decide_eq_true]; [left|right]. }
  destruct (node_variable head) as [name|]; [|done]. cbn. apply bool_decide_eq_false in Hb. by rewrite eq_None_not_Some.
Qed.
Lemma lone_rows cap top existing head rs : lone_node optional patterns cap top existing = Some head -> expand existing = Ok rs ->
  exists nvs, (forall S (f : S -> NodeValue -> Exec (S * bool)) s, for_each_node_match ev st head existing f s = until f s nvs)
    /\ match where_clause with Some e => filter_where ev e (lone_bound head existing <$> nvs) | None => Ok (lone_bound head existing <$> nvs) end = Ok rs.
Proof.
  intros (sp & v & -> & -> & _ & Hv & _ & Hfree)%lone_pattern Hrs. unfold expand_row in Hrs. cbn [match_patterns concat_map] in Hrs.
  unfold match_named_pattern in Hrs. cbn [np_shortest np_variable np_path] in Hrs. rewrite bool_decide_false in Hrs by (intros [? [=]]).
  unfold match_path, match_head in Hrs. destruct head as [variable labels le props nsp]. cbn in Hv. subst v. rewrite Hfree in Hrs.
  unfold enumerate_nodes, for_each_node_match in Hrs |- *. destruct (candidate_nodes _ _ _ _) as [nodes|]; [|done]. cbn [mbind result_bind] in Hrs |- *.
  destruct (for_each_of _ _ _ _ _ []) as [res|] eqn:Hres; [|done]. apply for_each_until in Hres as (nvs & -> & Hf). exists nvs. split; [done|].
  cbn in Hrs. rewrite !app_nil_r in Hrs. rewrite map_map in Hrs. cbn in Hrs. unfold lone_bound. cbn [node_variable].
  destruct where_clause as [e|]; [|done]. destruct (filter_where _ _ _); [|done]. done.
Qed.

(** Under a limit: the first rows are there. *)
Section limit.
Context (c : Z).
Lemma capped_lone head existing nvs rs s : full (Some c) s = false ->
  match where_clause with Some e => filter_where ev e (lone_bound head existing <$> nvs) | None => Ok (lone_bound head existing <$> nvs) end = Ok rs ->
  exists s', until (lone_row ev where_clause (Some c) None head existing) s nvs = Ok s' /\ sk_top s' = sk_top s
    /\ take (Z.to_nat c) (sk_rows s') = take (Z.to_nat c) (sk_rows s ++ rs).
Proof.
  revert rs s. induction nvs as [|nv nvs IH]; intros rs s Hfull Hrs.
  { exists s. split; [done|]. split; [done|]. destruct where_clause; injection Hrs as <-; by rewrite app_nil_r. }
  cbn [until]. rewrite lone_step. rewrite fmap_cons in Hrs.
  assert (Hkeep : exists keep rest,
    match where_clause with Some e => eval_where ev "Boolean" e (Expression.span e) (lone_bound head existing nv) | None => Ok true end = Ok keep
    /\ match where_clause with Some e => filter_where ev e (lone_bound head existing <$> nvs) | None => Ok (lone_bound head existing <$> nvs) end = Ok rest
    /\ rs = if keep : bool then lone_bound head existing nv :: rest else rest).
  { destruct where_clause as [e|]; [by apply filter_where_cons in Hrs|]. injection Hrs as <-. by eexists true, _. }
  destruct Hkeep as (keep & rest & -> & Hrest & ->). cbn [mbind result_bind]. destruct keep.
  - cbn [put_row mbind result_bind]. set (s1 := mkSink _ _). destruct (full (Some c) s1) eqn:Hs1; cbn [negb].
    + exists s1. split; [done|]. split; [done|]. cbn in Hs1 |- *. apply Z.leb_le in Hs1.
      change (lone_bound head existing nv :: rest) with ([lone_bound head existing nv] ++ rest). rewrite app_assoc.
      by rewrite (take_app_le (sk_rows s ++ [lone_bound head existing nv]) rest) by lia.
    + destruct (IH _ s1 Hs1 Hrest) as (s' & Hu & Ht & Hrows). exists s'. split; [done|]. split; [done|]. rewrite Hrows. cbn. by rewrite <- app_assoc.
  - cbn [mbind result_bind]. rewrite Hfull. cbn [negb]. by apply IH.
Qed.
Lemma take_app_again {A} n (a x : list A) : take n (take n a ++ x) = take n (a ++ x).
Proof.
  destruct (decide (n <= length a)%nat).
  - rewrite !take_app_le by (rewrite ?length_take; lia). rewrite take_take. f_equal. lia.
  - by rewrite (take_ge a) by lia.
Qed.
Lemma capped prior rss s : Forall2 (fun existing rs => expand existing = Ok rs) prior rss ->
  exists s', match_rows ev st optional patterns where_clause (Some c) None prior s = Ok s' /\ sk_top s' = sk_top s
    /\ take (Z.to_nat c) (sk_rows s') = take (Z.to_nat c) (sk_rows s ++ concat rss).
Proof.
  intros Hall. revert s. induction Hall as [|existing rs prior rss Hrs Hall IH]; intros s; cbn [match_rows].
  { exists s. by rewrite app_nil_r. }
  destruct (full (Some c) s) eqn:Hfull.
  { exists s. split; [done|]. split; [done|]. cbn in Hfull. apply Z.leb_le in Hfull. by rewrite take_app_le by lia. }
  assert (Hstep : exists s1, match lone_node optional patterns (Some c) None existing with
      | Some head => for_each_node_match ev st head existing (lone_row ev where_clause (Some c) None head existing) s
      | None => rows ← expand existing; put_rows ev None s rows
      end = Ok s1 /\ sk_top s1 = sk_top s /\ take (Z.to_nat c) (sk_rows s1) = take (Z.to_nat c) (sk_rows s ++ rs)).
  { destruct (lone_node _ _ _ _ existing) as [head|] eqn:Hlone.
    - destruct (lone_rows _ _ _ _ _ Hlone Hrs) as (nvs & -> & Hf). by apply capped_lone.
    - rewrite Hrs. cbn [mbind result_bind]. rewrite put_all. by eexists. }
  destruct Hstep as (s1 & -> & Ht & Hrows). cbn [mbind result_bind]. destruct (IH s1) as (s' & -> & Ht' & Hrows'). exists s'.
  split; [done|]. split; [congruence|]. rewrite Hrows'. cbn. by rewrite <- (take_app_again _ (sk_rows s1)), Hrows, take_app_again, <- app_assoc.
Qed.
End limit.

(** Under a sort and a cut: the heap has seen every row. *)
Section sorted.
Context (spec : TopSpec).
Let projected := resolve_projections [] (ts_items spec).
Lemma push_rows_app rows rows' t : push_rows ev spec projected t (rows ++ rows')
  = (t ← push_rows ev spec projected t rows; push_rows ev spec projected t rows').
Proof. revert t. induction rows as [|row rows IH]; intros t; [done|]. cbn [push_rows app]. destruct (top_key ev spec projected row); [|done]. apply IH. Qed.
Lemma put_pushed rows t h : push_rows ev spec projected t rows = Ok h ->
  put_rows ev (Some spec) (mkSink [] (Some t)) rows = Ok (mkSink [] (Some h)).
Proof.
  revert t. induction rows as [|row rows IH]; intros t; [by intros [= ->]|]. cbn [push_rows put_rows put_row sk_top].
  change (top_projected (Some spec)) with projected. destruct (top_key ev spec projected row); [|done]. cbn [mbind result_bind]. apply IH.
Qed.
Lemma sorted_lone head existing nvs rs t h :
  match where_clause with Some e => filter_where ev e (lone_bound head existing <$> nvs) | None => Ok (lone_bound head existing <$> nvs) end = Ok rs ->
  push_rows ev spec projected t rs = Ok h ->
  until (lone_row ev where_clause None (Some spec) head existing) (mkSink [] (Some t)) nvs = Ok (mkSink [] (Some h)).
Proof.
  revert rs t. induction nvs as [|nv nvs IH]; intros rs t Hrs Hh.
  { destruct where_clause; injection Hrs as <-; by injection Hh as <-. }
  cbn [until]. rewrite lone_step. rewrite fmap_cons in Hrs. destruct where_clause as [e|].
  - apply filter_where_cons in Hrs as (keep & rest & -> & Hrest & ->). cbn [mbind result_bind]. destruct keep; [|by apply (IH rest)].
    cbn [push_rows] in Hh. cbn [put_row sk_top]. change (top_projected (Some spec)) with projected.
    destruct (top_key ev spec projected _); [|done]. cbn [mbind result_bind full negb] in *. by apply (IH rest).
  - injection Hrs as <-. cbn [push_rows] in Hh. cbn [mbind result_bind put_row sk_top]. change (top_projected (Some spec)) with projected.
    destruct (top_key ev spec projected _); [|done]. cbn [mbind result_bind full negb] in *. by apply (IH (lone_bound head existing <$> nvs)).
Qed.
Lemma sorted prior rss t h : Forall2 (fun existing rs => expand existing = Ok rs) prior rss ->
  push_rows ev spec projected t (concat rss) = Ok h ->
  match_rows ev st optional patterns where_clause None (Some spec) prior (mkSink [] (Some t)) = Ok (mkSink [] (Some h)).
Proof.
  intros Hall. revert t. induction Hall as [|existing rs prior rss Hrs Hall IH]; intros t Hh; cbn [match_rows full concat] in *.
  { by injection Hh as ->. }
  rewrite push_rows_app in Hh. destruct (push_rows ev spec projected t rs) as [t'|] eqn:Ht; [|done]. cbn in Hh.
  destruct (lone_node _ _ _ _ existing) as [head|] eqn:Hlone.
  - destruct (lone_rows _ _ _ _ _ Hlone Hrs) as (nvs & -> & Hf). rewrite (sorted_lone _ _ _ _ _ _ Hf Ht). by apply IH.
  - rewrite Hrs. cbn [mbind result_bind]. rewrite (put_pushed _ _ _ Ht). by apply IH.
Qed.
End sorted.
End match_caps.

(** ** The caps *)
Section caps.
Context `{!Chars, !GraphEngine, !View, !Indexes} (ev : Expression -> Bindings -> Exec Value) (ev_group : Expression -> list Bindings -> Exec Value).
Lemma limit_not_sorted c cap top : limit_cap ev (Some c) = Ok (Some cap) -> top_cap ev (Some c) = Ok top -> top = None.
Proof.
  unfold limit_cap, top_cap. destruct (next_projection (Some c)) as [[[[[[d items] order_by] skip] limit] f]|]; [|done].
  destruct (bool_decide_reflect (length order_by = 0%nat)); cbn [negb]; rewrite !orb_true_r; cbn [orb]; [|done]. by intros _ [= <-].
Qed.
Lemma limit_cap_nonneg c cap : limit_cap ev (Some c) = Ok (Some cap) -> 0 <= cap.
Proof.
  unfold limit_cap. destruct (next_projection (Some c)) as [[[[[[d items] order_by] skip] limit] f]|]; [|done].
  destruct (_ || _); [done|]. intros (e & s & l & _ & -> & Hs & Hl & _)%cap_of_ok. lia.
Qed.
End caps.

(** ** By example *)
Module Clauses.
Import CypherAnswers.Small.
Definition var (x : string) : Expression := Expression.Var (lit x) sp.
Definition int (i : Z) : Expression := Expression.Integer i sp.
Definition node_n : PathPattern := Expression.mkPath (Expression.mkNode (Some v) [] None None sp) [].
Definition match_n : list NamedPattern := [mkNamedPattern None node_n None].
Definition ev0 : Expression -> Bindings -> Exec Value := ev_under ∅ [] 3 ∅.
Definition ev_group0 : Expression -> list Bindings -> Exec Value := ev_group_under ∅ [] 3 ∅.
(** [MATCH (n) RETURN n ORDER BY n DESC LIMIT 1]. *)
Definition last_one : Clause := Clause.Return false [ProjectExpression (var "n") None] [mkOrderItem (var "n") ODesc] None (Some (int 1)) sp.
Definition last_spec : TopSpec := mkTopSpec 1 [mkOrderItem (var "n") ODesc] [ProjectExpression (var "n") None].

(** [MATCH (n) WHERE id(n) = 1 WITH 1 AS one RETURN COUNT { (n) }]: the count is
    of a new [n], and the graph has two nodes, but what the [WHERE] pushed down
    still narrows it. *)
Definition id_is (i : Z) : Expression := Expression.Binary BEq (Expression.FunctionCall [lit "id"] false [var "n"] sp) (int i) sp.
Definition with_one : Clause := Clause.With false [ProjectExpression (int 1) (Some (lit "one"))] [] None None None sp.
Definition count_nodes_named : Clause := Clause.Return false [ProjectExpression (Expression.CountSubquery node_n None sp) (Some (lit "c"))] [] None None sp.
Definition answer (clauses : list Clause) : option (Exec (list (list Value))) :=
  match run_clauses ∅ [] 4 clauses fresh_executor with Some (Ok x) => Some (Ok (x_rows x)) | Some (Err e) => Some (Err e) | None => None end.
Lemma pushdown_leaks :
  answer [with_one; count_nodes_named] = Some (Ok [[Value.Integer 2]])
  /\ answer [Clause.Match false match_n (Some (id_is 1)) sp; with_one; count_nodes_named] = Some (Ok [[Value.Integer 1]]).
Proof. vm_compute. split; reflexivity. Qed.

(** [OPTIONAL MATCH p = (m:B) RETURN p], of which nothing matches: [p] is not bound to null. *)
Lemma path_variable_lost :
  answer [Clause.Match true [mkNamedPattern (Some (lit "p")) (Expression.mkPath (Expression.mkNode (Some (lit "m")) [lit "B"] None None sp) []) None] None sp;
          Clause.Return false [ProjectExpression (var "p") None] [] None None sp]
  = Some (raise (UnboundVariable (lit "p") sp)).
Proof. vm_compute. reflexivity. Qed.
End Clauses.
