(* ===== verification/CypherCount.v ===== *)
(** * The count that needs no rows
    ([src/src/cypher/executor.rs]: [try_count_pushdown])

    A lone [MATCH] and a count of its rows is answered from how many nodes the
    engine has; it is the answer of the ordinary run. *)
From S2P Require Import Prelude CypherLexer CypherAst CypherParser CypherValue CypherPipeline CypherCaps CypherRegex CypherFunctions CypherFunctionsSpec CypherMatch CypherEval CypherAggregate CypherValidate CypherShortest CypherRun CypherRunSpec CypherAnswers.
Local Open Scope list_scope.
Local Open Scope Z_scope.

(** What the engine, its cardinalities and the label index promise a user who
    sees everything. *)
Class Agreement `{!GraphEngine, !View, !Indexes, !Cardinality} (nodes : list NodeValue) : Prop := {
  sees_all nv : visible_node nv = Some nv;
  lists_all : all_nodes = Ok nodes;
  counts_all : count_nodes = Ok (Z.of_nat (length nodes));
  kind_nodes label : exists ks, nodes_by_kind label = Ok ks /\ count_nodes_by_kind label = Ok (Z.of_nat (length ks))
    /\ Forall (fun nv => head (Value.node_labels nv) = Some label) ks
    /\ forall idx, label_ids = Some idx -> NoDup (idx label) /\ forall id, id ∈ idx label ->
         exists carrier, get_node id = Ok carrier /\ forall nv, carrier = Some nv ->
           Value.node_id nv = id /\ label ∈ Value.node_labels nv
           /\ (head (Value.node_labels nv) = Some label <-> id ∈ Value.node_id <$> ks);
  few_nodes label ks idx : nodes_by_kind label = Ok ks -> label_ids = Some idx ->
    Z.of_nat (length ks) + Z.of_nat (length (idx label)) <= i64_max;
  few_all : Z.of_nat (length nodes) <= i64_max;
}.

Section count.
Context `{!Chars, !Libm, !Machine, !GraphEngine, !View, !Indexes, !Outside, !Cardinality}.
Context (params : gmap text Value).

(** ** Counting the rows of a group *)
Definition bound (v : option text) (nv : NodeValue) : Bindings := match v with Some name => {[ name := Value.Node nv ]} | None => ∅ end.
Lemma one_group (e : Expression) (rows : list Bindings) (ev : Expression -> Bindings -> Exec Value) : contains_aggregation e = true -> group_rows ev [e] rows = Ok [([], rows)].
Proof.
  intros He. unfold group_rows. cbn [List.filter]. rewrite He. cbn [negb].
  assert (Hf : forall rows groups seen, groups = (if is_empty seen then [] else [([], seen)]) ->
    foldl (fun acc binding => groups ← acc; key ← mapM (fun p => ev p binding) []; Ok (add_to_group groups key binding)) (Ok groups) rows
    = Ok (if is_empty (seen ++ rows) then [] else [([] : list Value, seen ++ rows)]) :> Exec _).
  { clear. induction rows as [|row rows IH]; intros groups seen ->; [by rewrite app_nil_r|]. cbn [foldl].
    replace (seen ++ row :: rows) with ((seen ++ [row]) ++ rows) by by rewrite <- app_assoc. rewrite <- (IH _ (seen ++ [row]) eq_refl). f_equal.
    cbn [mbind result_bind mapM]. f_equal. by destruct seen. }
  rewrite (Hf rows [] []) by done. cbn [app mbind result_bind]. by destruct rows.
Qed.
Lemma count_lower name : eq_ignore_ascii_case name "count" = true -> Regex.to_ascii_lowercase <$> name = lit "count".
Proof.
  intros Hn%bool_decide_eq_true. transitivity (Regex.to_ascii_lowercase <$> (to_ascii_uppercase <$> name)).
  - rewrite <- list_fmap_compose. apply list_fmap_ext. intros i c _. cbn. unfold Regex.to_ascii_lowercase, to_ascii_uppercase, within.
    destruct (N.leb_spec 97 c), (N.leb_spec c 122); cbn [andb]; try done.
    repeat match goal with |- context [N.leb ?a ?b] => destruct (N.leb_spec a b) end; cbn [andb]; lia.
  - rewrite Hn. reflexivity.
Qed.
Lemma arg_values_nodes (ev : Expression -> Bindings -> Exec Value) v nsp nvs : (forall row, ev (Expression.Var v nsp) row = match row !! v with Some w => Ok w | None => raise (UnboundVariable v nsp) end) ->
  arg_values ev (Expression.Var v nsp) (bound (Some v) <$> nvs) = Ok (Value.Node <$> nvs).
Proof. intros Hev. induction nvs as [|nv nvs IH]; [done|]. cbn [fmap list_fmap arg_values]. rewrite Hev. cbn [bound]. rewrite lookup_singleton_eq. cbn [mbind result_bind]. by rewrite IH. Qed.

(** ** The rows of the [MATCH] *)
Context {nodes : list NodeValue} `{!Agreement nodes}.
Definition has_labels (labels : list text) (nv : NodeValue) : bool :=
  forallb (fun l => existsb (fun h => bool_decide (h = l)) (Value.node_labels nv)) labels.
Lemma walk (ev : Expression -> Bindings -> Exec Value) v labels sp row (nvs out : list NodeValue) : Forall (fun nv => has_labels labels nv = true) nvs ->
  for_each_of ev nvs (Expression.mkNode v labels None None sp) row (fun out nv => Ok (out ++ [nv], true)) out = Ok (out ++ nvs).
Proof using Agreement0.
  intros Hl. revert out. induction Hl as [|nv nvs Hnv Hl IH]; intros out; cbn [for_each_of]; [by rewrite app_nil_r|]. rewrite sees_all.
  unfold node_matches_pattern. fold (has_labels labels nv). rewrite Hnv. cbn [negb mbind result_bind]. by rewrite IH, <- app_assoc.
Qed.
Lemma label_rest_count (label : text) (idx : list N) (ks : list NodeValue) (n : Z) : (forall id, id ∈ idx -> exists carrier, get_node id = Ok carrier /\ forall nv, carrier = Some nv ->
    Value.node_id nv = id /\ label ∈ Value.node_labels nv /\ (head (Value.node_labels nv) = Some label <-> id ∈ Value.node_id <$> ks)) ->
  NoDup idx -> forall seen : gset N, (forall id, id ∈ idx -> id ∈ seen <-> id ∈ Value.node_id <$> ks) ->
  exists rest, label_rest seen idx = Ok rest /\ Forall (fun nv => label ∈ Value.node_labels nv) rest /\ (length rest <= length idx)%nat
    /\ count_carriers label idx n = Ok (n + Z.of_nat (length rest)).
Proof.
  intros Hidx Hdup. revert n. induction Hdup as [|id idx Hid Hdup IH]; intros n seen Hseen.
  { exists []. cbn. by rewrite Z.add_0_r. }
  destruct (Hidx id) as (carrier & Hc & Hnv); [by left|]. cbn [label_rest count_carriers]. rewrite Hc. cbn [mbind result_bind].
  assert (Hrec : forall id', id' ∈ idx -> exists carrier, get_node id' = Ok carrier /\ forall nv, carrier = Some nv ->
    Value.node_id nv = id' /\ label ∈ Value.node_labels nv /\ (head (Value.node_labels nv) = Some label <-> id' ∈ Value.node_id <$> ks)).
  { intros id' Hin. apply Hidx. by right. }
  destruct (bool_decide_reflect (id ∈ seen)) as [Hin|Hout].
  - destruct (IH Hrec n seen) as (rest & Hr & Hl & Hlen & Hn); [intros id' Hid'; apply Hseen; by right|]. exists rest. split; [done|]. split; [done|].
    split; [cbn; lia|]. rewrite <- Hn. destruct carrier as [nv|]; [|done]. destruct (Hnv nv eq_refl) as (_ & _ & Hk).
    rewrite bool_decide_true; [done|]. apply Hk, Hseen; [by left|done].
  - destruct carrier as [nv|].
    + destruct (Hnv nv eq_refl) as (_ & Hlab & Hk). destruct (IH Hrec (n + 1) ({[id]} ∪ seen)) as (rest & Hr & Hl & Hlen & Hn).
      { intros id' Hid'. rewrite elem_of_union, elem_of_singleton, (Hseen id') by by right. split; [|by right]. by intros [->|]. }
      exists (nv :: rest). rewrite Hr. split; [done|]. split; [by constructor|]. split; [cbn; lia|].
      rewrite bool_decide_false. { rewrite Hn. cbn [length]. f_equal. lia. }
      intros Hh. apply Hout, Hseen; [by left|]. by apply Hk.
    + destruct (IH Hrec n ({[id]} ∪ seen)) as (rest & Hr & Hl & Hlen & Hn).
      { intros id' Hid'. rewrite elem_of_union, elem_of_singleton, (Hseen id') by by right. split; [|by right]. by intros [->|]. }
      exists rest. rewrite Hr. cbn [length]. by repeat split; try lia.
Qed.

(** The nodes a pattern of at most one label is matched by, and how many they are. *)
Lemma lone_count ev st v labels sp idx n : st_pushdown st = ∅ -> st_has_written st = false -> st_tx_written st = [] -> (length labels <= 1)%nat ->
  match labels with
  | [] => n = Z.of_nat (length nodes)
  | label :: _ => label_ids = Some idx /\ exists m, count_nodes_by_kind label = Ok m /\ count_carriers label (idx label) m = Ok n
  end ->
  exists nvs, candidate_nodes ev st (Expression.mkNode v labels None None sp) ∅ = Ok nvs /\ Forall (fun nv => has_labels labels nv = true) nvs
    /\ n = Z.of_nat (length nvs) /\ n <= i64_max.
Proof using Agreement0.
  intros Hp Hw Ht Hlen Hn. unfold candidate_nodes, id_seek_candidates, native_property_candidates, with_tx_written. rewrite Hw, Hp, Ht.
  assert (Hseek : forall X (f : text -> list PushConstraint -> Exec (option X)),
    match v with Some v => match (∅ : Pushdown) !! v with Some cs => f v cs | None => Ok None end | None => Ok None end = Ok None).
  { intros X f. destruct v; [|done]. by rewrite lookup_empty. }
  assert (Hbind : (v ≫= fun v => (∅ : Pushdown) !! v) = None) by (destruct v; [apply lookup_empty|done]).
  rewrite Hseek. cbn [mbind result_bind negb]. rewrite Hbind. rewrite bool_decide_false by done. cbn [mbind result_bind get_nodes List.filter].
  destruct labels as [|label [|]]; cbn in Hlen; try lia.
  - exists nodes. destruct label_ids; cbn [mbind result_bind]; rewrite lists_all; subst n;
      (repeat split; [apply Forall_true; done|apply few_all]).
  - destruct Hn as (Hidx & m & Hm & Hn). rewrite Hidx. rewrite bool_decide_false by (by intros []). cbn [negb andb].
    destruct (kind_nodes label) as (ks & Hks & Hcount & Hkind & Hcar). destruct (Hcar idx Hidx) as [Hdup Hall]. rewrite Hcount in Hm. injection Hm as <-.
    unfold native_label_candidates. rewrite Hks. cbn [mbind result_bind].
    destruct (label_rest_count label (idx label) ks (Z.of_nat (length ks)) Hall Hdup (list_to_set (Value.node_id <$> ks))) as (rest & Hr & Hl & Hrl & Hc).
    { intros id _. apply elem_of_list_to_set. }
    rewrite Hr. cbn. exists (ks ++ rest). split; [done|]. rewrite Hc in Hn. injection Hn as <-. pose proof (few_nodes label ks idx Hks Hidx).
    split; [|rewrite length_app; lia]. apply Forall_app. unfold has_labels. split.
    + eapply Forall_impl; [exact Hkind|]. intros nv Hh. cbn [forallb]. rewrite andb_true_r. apply existsb_exists. exists label.
      split; [|by apply bool_decide_eq_true]. cbv beta in Hh. destruct (Value.node_labels nv); [done|]. injection Hh as ->. by left.
    + eapply Forall_impl; [exact Hl|]. cbv beta. intros nv Hin. cbn [forallb]. rewrite andb_true_r. apply existsb_exists. exists label.
      split; [by apply list_elem_of_In|by apply bool_decide_eq_true].
Qed.
(** What the detector recognises. *)
Lemma recognised clauses labels r : try_count_pushdown clauses labels = Ok (Some r) -> exists v ls nsp name arg asp alias msp rsp n,
  clauses = [Clause.Match false [mkNamedPattern None (Expression.mkPath (Expression.mkNode v ls None None nsp) []) None] None msp;
             Clause.Return false [ProjectExpression (Expression.FunctionCall [name] false [arg] asp) alias] [] None None rsp]
  /\ (length ls <= 1)%nat /\ eq_ignore_ascii_case name "count" = true
  /\ match arg with Expression.Star _ => True | Expression.Var x _ => v = Some x | _ => False end
  /\ r = mkResult [default (lit "expr") alias] [[Value.Integer (wrap_i64 n)]] no_stats
  /\ match ls with
     | [] => count_nodes = Ok n
     | label :: _ => exists idx, labels = Some idx /\ exists m, count_nodes_by_kind label = Ok m /\ count_carriers label (idx label) m = Ok n
     end.
Proof.
  unfold try_count_pushdown. intros H7.
  repeat (match type of H7 with context [match ?x with _ => _ end] => is_var x; destruct x end; try done).
  all: destruct (counted_alone _ _) eqn:Hc; [|done]; cbn [negb] in H7; unfold counted_alone in Hc.
  all: repeat (match type of Hc with context [match ?x with _ => _ end] => is_var x; destruct x end; try done).
  all: apply andb_true_iff in Hc as [[Hl%Nat.leb_le Hn]%andb_true_iff Ha]; try discriminate Ha; try (apply bool_decide_eq_true in Ha as ->).
  all: repeat match type of H7 with ?m ≫= _ = _ => destruct m eqn:?; [|done]; cbn [mbind result_bind] in H7 end; try discriminate H7.
  all: injection H7 as <-; eexists _, _, _, _, _, _, _, _, _, _; split; [reflexivity|].
  all: repeat apply conj; first [done | reflexivity | by eauto].
Qed.

(** C20: The count that needs no rows is the count of the rows.  When the
    detector answers a query from cardinalities, the ordinary run of the query
    ends with the same result, the name of the column included: for a user who
    sees every node, when the engine's counts and lists of nodes and the label
    index agree on the graph, the index naming each carrier of a label once, and
    the numbers counted fit in 64 bits ([Agreement]). *)
Theorem count_pushdown_exact fuel clauses r : try_count_pushdown clauses label_ids = Ok (Some r) ->
  exists x, run_clauses params [] (S fuel) clauses fresh_executor = Some (Ok x) /\ take_result x = r.
Proof using Agreement0.
  intros (v & ls & nsp & name & arg & asp & alias & msp & rsp & n & -> & Hl & Hname & Harg & -> & Hn)%recognised.
  set (e := Expression.FunctionCall [name] false [arg] asp) in *.
  assert (Hagg : contains_aggregation e = true) by (cbn; by rewrite Hname).
  set (st := statement [] ∅). set (ev := ev_under params [] (S fuel) ∅).
  destruct (lone_count ev st v ls nsp (match label_ids with Some idx => idx | None => fun _ => [] end) n) as (nvs & Hcand & Hlab & -> & Hmax); [done..| |].
  { destruct ls as [|label ls]; [rewrite counts_all in Hn; by injection Hn|]. by destruct Hn as (idx & -> & Hn). }
  set (item := ProjectExpression e alias). set (R := Clause.Return false [item] [] None None rsp).
  assert (Hcap : limit_cap ev (Some R) = Ok None) by (unfold limit_cap, aggregates; cbn; by rewrite Hname, orb_true_r).
  assert (Htop : top_cap ev (Some R) = Ok None) by done.
  assert (Hrows : run_match ev st false [mkNamedPattern None (Expression.mkPath (Expression.mkNode v ls None None nsp) []) None] None None None [∅]
    = Ok (bound v <$> nvs)).
  { unfold run_match. cbn [match_rows full fmap option_fmap option_map]. unfold lone_node. rewrite bool_decide_false by (by intros []). cbn [orb andb].
    unfold expand_row. cbn [match_patterns concat_map]. unfold match_named_pattern. cbn [np_shortest np_variable np_path].
    rewrite bool_decide_false by (by intros []). unfold match_path, match_head.
    assert (Hfree : (v ≫= fun name => (∅ : Bindings) !! name) = None) by (destruct v; [apply lookup_empty|done]). rewrite Hfree.
    unfold enumerate_nodes, for_each_node_match. rewrite Hcand. cbn [mbind result_bind]. rewrite walk by done. cbn [app mbind result_bind match_tail andb].
    rewrite !app_nil_r. assert (Hb : List.map fst (List.map (fun nv => (match v with Some name => <[name := Value.Node nv]> ∅ | None => ∅ end, nv)) nvs) = bound v <$> nvs).
    { rewrite map_map. apply list_fmap_ext. by destruct v. }
    rewrite put_all. cbn [mbind result_bind sk_top sk_rows app]. by rewrite <- Hb. }
  assert (Hfold : ev_group_under params [] (S fuel) ∅ e (bound v <$> nvs) = Ok (Value.Integer (Z.of_nat (length nvs)))).
  { unfold ev_group_under. cbn [eval_with_agg]. unfold eval_with_agg_body, e. assert (is_aggregation_name [name] = true) as -> by (cbn; by rewrite Hname).
    unfold eval_aggregate. cbv zeta. cbn [hd]. rewrite bool_decide_true by (by apply count_lower). cbn [andb is_empty].
    rewrite <- (length_fmap (bound v) nvs). destruct arg; try done. cbn [is_star]. subst v.
    assert (Hnodes : arg_values ev (Expression.Var name0 sp) (bound (Some name0) <$> nvs) = Ok (Value.Node <$> nvs)) by by apply arg_values_nodes.
    change (ev_under params [] (S fuel) ∅) with ev. rewrite Hnodes. cbn [mbind result_bind]. by rewrite !length_fmap. }
  eexists. split.
  - cbn [run_clauses head]. unfold caps at 1. change (ev_under params [] (S fuel) (x_pushdown fresh_executor)) with ev. rewrite Hcap, Htop. cbn [mbind result_bind].
    unfold run_clause at 1, run_match_clause. change (statement [] ∅) with st. cbn [x_bindings fresh_executor].
    change (ev_under params [] (S fuel) ∅) with ev. rewrite Hrows. cbn [mbind result_bind]. cbn [caps].
    unfold run_clause. cbn [x_pushdown x_bindings]. change (ev_under params [] (S fuel) ∅) with ev.
    unfold run_projection, R, run_return, projected_rows, item. cbn [resolve_projections flat_map resolve_item app fmap list_fmap fst snd existsb].
    rewrite Hagg. cbn [orb]. unfold aggregate_rows. rewrite one_group by done. cbn [mbind result_bind mapM group_columns]. rewrite Hagg, Hfold. cbn. reflexivity.
  - unfold take_result. cbn. rewrite wrap_small by (unfold is_i64, i64_min; lia). by destruct alias.
Qed.
End count.

(** ** By example *)
Module Counted.
Import CypherAnswers.Small.
#[export] Instance cardinality : Cardinality :=
  {| count_nodes := Ok 2; count_nodes_by_kind label := Ok (if bool_decide (label = lit "A") then 2 else 0) |}.
#[export] Instance agreement : Agreement [node 1; node 2].
Proof.
  assert (Hfew : forall label ks idx, nodes_by_kind label = Ok ks -> label_ids = Some idx -> (length ks <= 2)%nat /\ (length (idx label) <= 2)%nat).
  { intros label ks idx [= <-] [= <-]. by destruct (bool_decide _); cbn; split; lia. }
  split; [done..| | |].
  - intros label. exists (if bool_decide (label = lit "A") then [node 1; node 2] else []). split; [done|].
    cbn [count_nodes_by_kind cardinality]. destruct (bool_decide_reflect (label = lit "A")) as [->|Hl].
    2: { split; [done|]. split; [constructor|]. intros idx [= <-]. rewrite bool_decide_false by done. split; [constructor|]. by intros id []%not_elem_of_nil. }
    split; [done|]. split; [repeat constructor|]. intros idx [= <-]. rewrite bool_decide_true by done.
    split; [apply NoDup_cons; split; [by intros [[=]|[]%not_elem_of_nil]%elem_of_cons|apply NoDup_singleton]|].
    intros id [->|[->|[]%not_elem_of_nil]%elem_of_cons]%elem_of_cons; (eexists; split; [done|]; intros nv [= <-]; split; [done|]; split; [by left|]; split; [|done]).
    + intros _. by left.
    + intros _. right. by left.
  - intros label ks idx Hk Hi. destruct (Hfew label ks idx Hk Hi). unfold i64_max. lia.
  - done.
Qed.
(** [MATCH (n:A) RETURN count(n)]. *)
Definition counting : list Clause :=
  [Clause.Match false [mkNamedPattern None (Expression.mkPath (Expression.mkNode (Some v) [lit "A"] None None sp) []) None] None sp;
   Clause.Return false [ProjectExpression (Expression.FunctionCall [lit "count"] false [Expression.Var v sp] sp) None] [] None None sp].
Lemma count_pushdown_exact_witness : exists x, run_clauses ∅ [] 1 counting fresh_executor = Some (Ok x)
  /\ take_result x = mkResult [lit "expr"] [[Value.Integer 2]] no_stats.
Proof.
  refine (count_pushdown_exact ∅ (nodes := [node 1; node 2]) 0 counting (mkResult [lit "expr"] [[Value.Integer 2]] no_stats) _).
  vm_compute. reflexivity.
Defined.
End Counted.
